(* ===== verification/_CoqProject ===== *)
-Q . S2P
Prelude.v
GoStrings.v
Trie.v
GoHttp.v
RouteModel.v
Router.v
Coordinator.v
Sha256.v
Endpoint.v
Snapshot.v
LoadBalance.v
Maglev.v
Health.v
Cluster.v
ClusterStore.v
StoreInv.v
ClusterManager.v
ManagerInv.v
StoreSwap.v
ManagerRun.v
McpCatalog.v
McpPolicy.v
McpIdentity.v
McpPlan.v
McpSelector.v
McpGovern.v
McpCalls.v
McpSequential.v
McpBuild.v
McpAudit.v
McpSession.v
McpRegistry.v
McpDynamic.v
HttpManager.v
McpResources.v
McpHttp.v
McpAuth.v
McpServer.v
McpServing.v
McpScenarios.v
Retry.v
Cooldown.v
LlmProxy.v
LlmScenarios.v
ApiRoute.v
ApiDiscovery.v
FilterManager.v
Listener.v
ListenerManager.v
McpAdapter.v
Etcd.v
AdminRoute.v
RouteStore.v
RouteStoreInv.v
AdminSchema.v
RouteScenarios.v
