(* ===== verification/Prelude.v ===== *)
(** * A verification development of the dubbo-go-pixiu gateway

    Pixiu is a gateway: listeners hand requests to a connection manager, a router
    chooses a cluster, a chain of filters works on the request, a load balancer
    picks an endpoint of the cluster, and managers keep routes, clusters and
    tool catalogs up to date while requests are being served.  The development
    models the parts with state and decisions as functions, step relations and
    programs, one or more files per component, and proves what each of them
    promises to the others.  Paths are relative to [src/pkg] where they do not
    start with [src].

    ** Routing

    - GoStrings.v: the functions of [strings] that are used, and the keys of
      [common/util/stringutil].  GoHttp.v: requests and headers.
    - Trie.v: [common/router/trie/trie.go].  A trie is a finite map of patterns;
      [Put] refines insertion, [Match] with backtracking is the first match in a
      fixed priority order of patterns.
    - RouteModel.v and Router.v: [model/router.go], [model/router_snapshot.go],
      the lookup half of [common/router/router.go].  Routing on a snapshot is a
      scan of the configured routes.
    - Coordinator.v: the update half, with debounce timer and goroutine as a step
      relation, and [server/router_manager.go].  No update is lost.

    ** Clusters

    - Sha256.v, Endpoint.v: endpoints, their comparison and their generated
      identities ([model/cluster.go], [model/base.go]).
    - Snapshot.v, Cluster.v, Health.v: the runtime of a cluster, its immutable
      endpoint snapshots and its health checks ([cluster/cluster.go],
      [cluster/healthcheck]).
    - LoadBalance.v, Maglev.v: [cluster/loadbalancer].  Picks are healthy
      endpoints; round robin is fair, weights are proportional, Maglev tables
      are full and balanced.
    - ClusterStore.v, StoreInv.v, ClusterManager.v, ManagerInv.v, StoreSwap.v,
      ManagerRun.v: [server/cluster_manager.go].  The runtimes live in a heap,
      so that a runtime that was replaced can be told to have stopped.  One
      invariant holds after every history of public operations; each operation
      has its effect described exactly, errors included; the announcements to
      listeners are exactly the changes.

    ** MCP

    The MCP server offers backends as tools to language model clients.  A session
    sees and calls the tools that a policy grants to its claims.
    - McpCatalog.v, McpPolicy.v, McpIdentity.v: tool configurations, the policy,
      workflow and progressive stages, fingerprints of identities
      ([filter/mcp/mcpserver/router], [common/fingerprint]).
    - McpPlan.v: the store of session plans and receipts.  McpSelector.v: the
      composite selector, whose methods are programs of atomic store operations.
    - McpGovern.v, McpCalls.v, McpSequential.v: the reference without cache and
      store; receipts are allowed in every interleaving, decisions are those of
      the reference when requests do not overlap.
    - McpBuild.v, McpAudit.v: building a selector, the decision log.
    - McpSession.v: transport sessions, streams and notifications
      ([transport/session_manager.go]).
    - McpRegistry.v, McpDynamic.v, McpResources.v: the versioned catalog, the
      merging of what sources publish, resources and prompts.
    - HttpManager.v: the chain of filters and the pooled contexts
      ([common/http/manager.go], [context/http]).  McpHttp.v: the parts of the
      MCP filter that look at one request only.  McpAuth.v: [filter/auth/mcp].
    - McpServer.v, McpServing.v, McpScenarios.v: the whole filter over sessions,
      plans and catalog, with requests, catalog updates and background jobs as
      tasks whose steps interleave; every call that reaches a backend is
      allowed.  The scenarios are executions, two of which show defects.

    ** LLM proxy

    - Retry.v: [cluster/retry].  The policies of endpoints, as instances of a
      class whose laws the proxy relies on.
    - Cooldown.v: the store of failed endpoints of [filter/llm/proxy/filter.go],
      a map and a list that share their elements, under interleaved critical
      sections.  It remembers the failures whose interval is not over, up to its
      capacity.
    - LlmProxy.v: requests with retries and fallbacks, in an environment that
      changes the cluster and the store meanwhile.  A request ends, asks every
      endpoint in order and as often as it is configured at most; endpoints that
      have failed rest.  LlmScenarios.v: runs, two of which show defects.

    ** The table of APIs

    - ApiRoute.v: [router/route.go], the trie of API paths and methods.
      ApiDiscovery.v: [filter/http/apiconfig] and [server/api_config_manager.go],
      which fill it from configurations and events; the APIs that are configured
      are the ones served.

    ** Filters and listeners

    - FilterManager.v: [common/extension/filter/filter_manager.go].  Factories of
      filters are leased to chains; a factory that is replaced is closed when its
      last lease ends, once, and never used again.
    - Listener.v: [filterchain] and [listener/listener.go].  The same for the
      chains of a listener: word and counter of a snapshot, under interleaved
      requests and refreshes.
    - ListenerManager.v: [server/listener_manager.go].  A replacement of listeners
      takes effect as a whole or leaves the services as they were.
    - McpAdapter.v: [adapter/mcpserver].  The endpoints that are announced follow
      the tools that servers publish; the controller follows the list of servers.

    ** Route bindings of the admin console

    - Etcd.v: what etcd documents, as laws of a parameter: revisions and
      transactions; lost requests and answers; clients as programs of requests; a
      rule for what holds under the interference of other clients.
    - AdminSchema.v: [config/schema].  Schemas, defaults, validation and migration
      of bindings, and their compilation to routes; what passes validation
      compiles without an index out of range.
    - AdminRoute.v: names, ids and keys of [src/admin/logic/route_binding.go],
      which are read back as they were written, and the class
      [ObjectRegistry], what the store asks of the schemas.
    - RouteStore.v, RouteStoreInv.v: the store itself.  Whatever clients do and
      whatever is lost, its data is a log of publications, the runtime data
      follows the published bindings, and no two routes collide.
      RouteScenarios.v: runs over the registry of [AdminSchema], one of which
      shows a defect.

    ** Conventions

    A Go string is a [string]; a fallible function returns [result]; nil is
    [None]; integers are in [Z] and wrap where the code's do ([wrap64] and the
    like); maps are [gmap], sets [gset], and where the code depends on the order
    in which Go ranges over a map the order is a parameter.  Pointers are indices
    into an explicit heap where identity matters.  Code under a lock is one step.

    Third-party code is a parameter with what it documents as named hypotheses:
    regular expressions, JSON encodings, JWT verification, hash functions of
    Maglev, the server of etcd.  SHA-256 is executable; that two texts have
    different hashes is a hypothesis for the texts at hand where a theorem needs
    it.

    Fuel: no definition has a fuel argument that could run out unnoticed.  Loops
    that draw random values or write to pipes take the outcomes as a list and
    have no result when the list is too short; [id_generation_terminates] and
    [flush_sends_once] give lengths that are enough.  The loops of the LLM proxy
    take the numbers of endpoints and of attempts as fuel and say when they run
    out; [llm_request_served] has the number of endpoints and one more than the
    attempts of an endpoint as enough.  The allocation of an id in RouteStore.v
    makes as many attempts as the code does and then fails.  The other recursions
    are structural or on a well-founded measure.

    ** Not modelled

    The clients, servers and registry adapters that talk to networks, registries,
    databases and Kubernetes; the protocols themselves (Dubbo, gRPC, HTTP on the
    wire); logging, metrics and tracing; YAML loading and the generated xDS
    types; filters that wrap a third-party library; wasm; the admin
    console except for its route bindings, and of these the differences between
    versions, the summaries of the history and the previews.
    Within modelled parts: response headers, timeouts, the copying of streams,
    the projection of a tool to its JSON schema. *)

From stdpp Require Export base tactics list option gmap strings pretty.
From Stdlib Require Export ZArith Zdivisibility Lia.
From Stdlib Require Export Ascii.

(** ** Scopes and hint databases *)

Declare Scope go_scope.
Delimit Scope go_scope with go.

Create HintDb pixiu discriminated.

(** ** Fallible code

    A Go function that returns [(T, error)] is modelled by [result E T]; the
    error type [E] is an inductive type with one constructor per error the
    source builds, so that the theorems can tell the error paths apart. *)

Inductive result (E A : Type) : Type :=
  | Ok (a : A)
  | Err (e : E).
Arguments Ok {E A} a.
Arguments Err {E A} e.

Definition result_bind {E A B : Type} (r : result E A) (k : A → result E B) : result E B :=
  match r with
  | Ok a => k a
  | Err e => Err e
  end.

Notation "'let!' x ':=' r 'in' k" := (result_bind r (λ x, k))
  (at level 10, x binder, r at level 100, k at level 200) : go_scope.

Lemma result_bind_ok {E A B} (r : result E A) (k : A → result E B) (b : B) :
  result_bind r k = Ok b ↔ ∃ a, r = Ok a ∧ k a = Ok b.
Proof. destruct r as [a|e]; simpl; naive_solver. Qed.

(** ** Machine integers

    Integers are kept in [Z]; the width is written out at every operation that
    can leave it. *)

Definition wrap32 (z : Z) : Z := z `mod` 2 ^ 32.
Definition wrap64 (z : Z) : Z := z `mod` 2 ^ 64.
(** Two's complement reading of an [int32]. *)
Definition sint32 (z : Z) : Z := (z + 2 ^ 31) `mod` 2 ^ 32 - 2 ^ 31.

(** Two's complement reading of an [int], which has 64 bits. *)
Definition sint64 (z : Z) : Z := (z + 2 ^ 63) `mod` 2 ^ 64 - 2 ^ 63.

Lemma sint64_small z : (- 2 ^ 63 ≤ z < 2 ^ 63)%Z → sint64 z = z.
Proof. intros H. unfold sint64. rewrite Z.mod_small by lia. lia. Qed.

Lemma wrap32_range z : (0 ≤ wrap32 z < 2 ^ 32)%Z.
Proof. apply Z.mod_pos_bound. lia. Qed.

Lemma wrap64_range z : (0 ≤ wrap64 z < 2 ^ 64)%Z.
Proof. apply Z.mod_pos_bound. lia. Qed.

Lemma wrap32_small z : (0 ≤ z < 2 ^ 32)%Z → wrap32 z = z.
Proof. intros. by apply Z.mod_small. Qed.

Lemma wrap64_small z : (0 ≤ z < 2 ^ 64)%Z → wrap64 z = z.
Proof. intros. by apply Z.mod_small. Qed.

Lemma wrap32_succ_pred z : wrap32 (wrap32 (z + 1) - 1) = wrap32 z.
Proof. unfold wrap32. rewrite Zminus_mod_idemp_l. f_equal. lia. Qed.

Lemma sint32_range z : (- 2 ^ 31 ≤ sint32 z < 2 ^ 31)%Z.
Proof. unfold sint32. pose proof (Z.mod_pos_bound (z + 2 ^ 31) (2 ^ 32)). lia. Qed.

(** Primality by trial division. *)
Definition is_prime (n : Z) : bool :=
  bool_decide (1 < n)%Z && forallb (λ d, negb (n `mod` d =? 0)%Z) (seqZ 2 (n - 2)).

Lemma is_prime_spec n : is_prime n = true ↔ Z.prime n.
Proof.
  unfold is_prime, Z.prime. rewrite andb_true_iff, bool_decide_eq_true, forallb_forall. apply and_iff_compat_l.
  split; intros H d Hd.
  - specialize (H d). rewrite <- list_elem_of_In, elem_of_seqZ, negb_true_iff, Z.eqb_neq in H.
    intros Hdiv. apply H; [lia|]. apply Z.mod_divide; [lia|done].
  - apply list_elem_of_In, elem_of_seqZ in Hd. apply negb_true_iff, Z.eqb_neq. intros H0. apply (H d); [lia|].
    apply Z.mod_divide; [lia|done].
Qed.

(** ** First hit of a partial function along a list

    A Go loop [for _, x := range l { if y, ok := f(x); ok { return y } }]. *)

Section first_some.
Context {A B : Type}.
Implicit Types (f g : A → option B) (l : list A).

Fixpoint first_some f l : option B :=
  match l with
  | [] => None
  | x :: l =>
      match f x with
      | Some y => Some y
      | None => first_some f l
      end
  end.

Lemma first_some_app f l1 l2 :
  first_some f (l1 ++ l2) =
    match first_some f l1 with Some y => Some y | None => first_some f l2 end.
Proof. induction l1 as [|x l1 IH]; simpl; [done|]. by destruct (f x). Qed.

Lemma first_some_None f l :
  first_some f l = None ↔ ∀ x, x ∈ l → f x = None.
Proof.
  induction l as [|x l IH]; simpl.
  { split; [|done]. intros _ x Hx. by apply not_elem_of_nil in Hx. }
  destruct (f x) eqn:E; split; try done.
  - intros H. specialize (H x). rewrite E in H. apply H. constructor.
  - intros H y [->|Hy]%elem_of_cons; [done|]. by apply IH.
  - intros H. apply IH. intros y Hy. apply H. by constructor.
Qed.

Lemma first_some_Some f l y :
  first_some f l = Some y ↔
    ∃ l1 x l2, l = l1 ++ x :: l2 ∧ f x = Some y ∧ ∀ z, z ∈ l1 → f z = None.
Proof.
  split.
  - induction l as [|x l IH]; simpl; [done|]. destruct (f x) as [b|] eqn:E.
    + intros [= ->]. exists [], x, l. split_and!; [done|done|].
      intros z Hz. by apply not_elem_of_nil in Hz.
    + intros H. destruct (IH H) as (l1 & z & l2 & -> & Hz & Hn).
      exists (x :: l1), z, l2. split_and!; [done|done|].
      intros w [->|Hw]%elem_of_cons; auto.
  - intros (l1 & x & l2 & -> & Hx & Hn). rewrite first_some_app.
    rewrite (proj2 (first_some_None f l1) Hn). simpl. by rewrite Hx.
Qed.

Lemma first_some_ext f g l :
  (∀ x, x ∈ l → f x = g x) → first_some f l = first_some g l.
Proof.
  induction l as [|x l IH]; simpl; intros H; [done|].
  rewrite (H x) by constructor. destruct (g x); [done|].
  apply IH. intros y Hy. apply H. by constructor.
Qed.
End first_some.

Lemma first_some_map {A B C} (f : A → option B) (h : C → A) (l : list C) :
  first_some f (map h l) = first_some (λ x, f (h x)) l.
Proof. induction l as [|x l IH]; simpl; [done|]. by destruct (f (h x)). Qed.

Lemma first_some_fmap {A B C} (h : B → C) (f : A → option B) (l : list A) :
  first_some (λ x, h <$> f x) l = h <$> first_some f l.
Proof. induction l as [|x l IH]; simpl; [done|]. by destruct (f x). Qed.

(** ** Lists *)

Lemma forallb_Permutation {A} (f : A → bool) l1 l2 : l1 ≡ₚ l2 → forallb f l1 = forallb f l2.
Proof. induction 1; simpl; try congruence. rewrite !andb_assoc. f_equal. apply andb_comm. Qed.

Lemma list_filter_ext_elem {A} (P Q : A → Prop) `{∀ x, Decision (P x), ∀ x, Decision (Q x)} (l : list A) :
  (∀ x, x ∈ l → P x ↔ Q x) → filter P l = filter Q l.
Proof.
  induction l as [|x l IH]; intros HPQ; [done|]. rewrite !filter_cons.
  assert (P x ↔ Q x) as Hx by (apply HPQ; constructor).
  rewrite IH by (intros; apply HPQ; by constructor).
  by destruct (decide (P x)), (decide (Q x)); try tauto.
Qed.

Lemma list_filter_all {A} (P : A → Prop) `{∀ x, Decision (P x)} (l : list A) :
  (∀ x, x ∈ l → P x) → filter P l = l.
Proof.
  induction l as [|x l IH]; intros HP; [done|]. rewrite filter_cons_True by (apply HP; constructor).
  f_equal. apply IH. intros y Hy. apply HP. by constructor.
Qed.

Lemma list_filter_none {A} (P : A → Prop) `{∀ x, Decision (P x)} (l : list A) :
  (∀ x, x ∈ l → ¬ P x) → filter P l = [].
Proof.
  induction l as [|x l IH]; intros HP; [done|]. rewrite filter_cons_False by (apply HP; constructor).
  apply IH. intros y Hy. apply HP. by constructor.
Qed.

(** Sums of a weight along a list, at the change of one entry. *)
Lemma sum_list_with_insert {A} (g : A → nat) (l : list A) i x y :
  l !! i = Some y → sum_list_with g (<[i := x]> l) + g y = sum_list_with g l + g x.
Proof.
  revert i. induction l as [|z l IH]; intros [|i] H; simplify_eq/=; [lia|]. specialize (IH _ H). lia.
Qed.

Lemma sum_list_with_pos {A} (g : A → nat) (l : list A) :
  0 < sum_list_with g l → ∃ i x, l !! i = Some x ∧ 0 < g x.
Proof.
  induction l as [|z l IH]; simpl; [lia|]. intros H. destruct (decide (0 < g z)).
  { by exists 0, z. }
  destruct IH as (i & x & ? & ?); [lia|]. by exists (S i), x.
Qed.

Lemma sum_list_with_zero {A} (g : A → nat) (l : list A) :
  (∀ x, x ∈ l → g x = 0) → sum_list_with g l = 0.
Proof.
  induction l as [|z l IH]; simpl; intros H; [done|].
  rewrite (H z) by constructor. apply IH. intros x Hx. apply H. by constructor.
Qed.

Lemma sum_list_with_lookup {A} (g : A → nat) (l : list A) i x : l !! i = Some x → g x ≤ sum_list_with g l.
Proof. revert i. induction l as [|z l IH]; intros [|i] H; simplify_eq/=; [lia|]. specialize (IH _ H). lia. Qed.

(** How often a number occurs in a list. *)
Definition occurs (x : nat) (l : list nat) : nat := count_occ Nat.eq_dec l x.

Lemma occurs_app x l k : occurs x (l ++ k) = occurs x l + occurs x k.
Proof. apply count_occ_app. Qed.

Lemma occurs_cons x y l : occurs x (y :: l) = (if decide (x = y) then 1 else 0) + occurs x l.
Proof. unfold occurs. simpl. destruct (Nat.eq_dec y x), (decide (x = y)); simplify_eq; done. Qed.

Lemma occurs_nil x : occurs x [] = 0.
Proof. done. Qed.

Lemma occurs_elem x l : x ∈ l ↔ 0 < occurs x l.
Proof. rewrite list_elem_of_In. apply count_occ_In. Qed.

(** ** Sets *)

Lemma list_to_set_last (l : list string) x : (list_to_set (l ++ [x]) : gset string) = {[x]} ∪ list_to_set l.
Proof.
  apply set_eq. intros y. rewrite elem_of_union, elem_of_singleton, !elem_of_list_to_set, elem_of_app.
  rewrite list_elem_of_singleton. tauto.
Qed.

(** The first element that satisfies a boolean test. *)
Definition first_such {A} (p : A → bool) (l : list A) : option A :=
  first_some (λ x, if p x then Some x else None) l.

Lemma first_such_Some {A} (p : A → bool) (l : list A) x :
  first_such p l = Some x → x ∈ l ∧ p x = true.
Proof.
  intros (l1 & y & l2 & -> & Hy & _)%first_some_Some.
  destruct (p y) eqn:E; simplify_eq. split; [|done].
  apply elem_of_app. right. constructor.
Qed.

Lemma first_such_app {A} (p : A → bool) (l k : list A) x :
  first_such p l = Some x → first_such p (l ++ k) = Some x.
Proof.
  unfold first_such. induction l as [|y l IH]; [done|]. simpl. by destruct (p y).
Qed.

Lemma first_such_None {A} (p : A → bool) (l : list A) :
  first_such p l = None ↔ ∀ x, x ∈ l → p x = false.
Proof.
  unfold first_such. rewrite first_some_None. split; intros H x Hx;
    specialize (H x Hx); by destruct (p x).
Qed.

(** ** Tactics

    [go_cases] splits every conditional and match of the goal and the context
    and cleans up the equations. *)

Ltac go_step :=
  first
    [ progress simplify_eq/=
    | case_decide
    | case_match ].

Ltac go_cases := repeat go_step.

(** [occurs_simpl] computes numbers of occurrences along the structure of
    lists, in the goal and the context. *)
Ltac occurs_simpl :=
  repeat first
    [ rewrite occurs_app in * | rewrite occurs_cons in * | rewrite occurs_nil in * ].

(** [bool_cases] splits the boolean tests of the goal, without equations. *)
Ltac bool_cases :=
  repeat (match goal with
          | |- context [if ?b then _ else _] =>
              lazymatch b with
              | negb ?b' => destruct b'
              | _ => destruct b
              end
          end; simpl).

#[export] Hint Resolve wrap32_range wrap64_range sint32_range : pixiu.
