(* ===== verification/GoStrings.v ===== *)
(** * Go strings and [pkg/common/util/stringutil]

    Go strings are byte strings: [string] is a list of 8-bit [ascii].  The first
    module holds the functions of Go's [strings] package the sources call (with
    a single-byte separator or cutset, which is how they are called), the second
    one [stringutil/stringutil.go], and the third what the trie keys built by
    [GetTrieKey] look like after [Split]. *)

From S2P Require Import Prelude.

#[global] Arguments String.append !_ _ / : simpl nomatch.

Definition slash : ascii := "/"%char.
Definition qmark : ascii := "?"%char.

(** ** The [strings] package *)

Module Strings.

Fixpoint HasByte (c : ascii) (s : string) : bool :=
  match s with
  | EmptyString => false
  | String a s => bool_decide (a = c) || HasByte c s
  end.

Fixpoint HasPrefix (s prefix : string) {struct prefix} : bool :=
  match prefix, s with
  | EmptyString, _ => true
  | String p prefix, String a s => bool_decide (a = p) && HasPrefix s prefix
  | String _ _, EmptyString => false
  end.

(** [s[n:]] *)
Fixpoint Drop (n : nat) (s : string) : string :=
  match n, s with
  | O, _ => s
  | S n, String _ s => Drop n s
  | S _, EmptyString => EmptyString
  end.

Definition TrimPrefix (s prefix : string) : string :=
  if HasPrefix s prefix then Drop (String.length prefix) s else s.

(** [strings.HasSuffix(s, string(c))] *)
Fixpoint HasSuffixByte (c : ascii) (s : string) : bool :=
  match s with
  | EmptyString => false
  | String a EmptyString => bool_decide (a = c)
  | String _ s => HasSuffixByte c s
  end.

(** [s[0 : len(s)-1]] for a non-empty [s] *)
Fixpoint DropLast (s : string) : string :=
  match s with
  | EmptyString => EmptyString
  | String a EmptyString => EmptyString
  | String a s => String a (DropLast s)
  end.

(** [strings.TrimLeft(s, string(c))] *)
Fixpoint TrimLeftByte (c : ascii) (s : string) : string :=
  match s with
  | EmptyString => EmptyString
  | String a s' => if decide (a = c) then TrimLeftByte c s' else s
  end.

(** [strings.Split(s, string(c))]: never empty, one more element than the
    separators of [s]. *)
Fixpoint SplitByte (c : ascii) (s : string) : list string :=
  match s with
  | EmptyString => [EmptyString]
  | String a s =>
      if decide (a = c) then EmptyString :: SplitByte c s
      else match SplitByte c s with
           | [] => [String a EmptyString]
           | x :: l => String a x :: l
           end
  end.

(** [strings.Join(l, string(c))] *)
Fixpoint JoinByte (c : ascii) (l : list string) : string :=
  match l with
  | [] => EmptyString
  | [x] => x
  | x :: l => x +:+ String c (JoinByte c l)
  end.

(** [strings.IndexByte], [None] for [-1] *)
Fixpoint IndexByte (c : ascii) (s : string) : option nat :=
  match s with
  | EmptyString => None
  | String a s => if decide (a = c) then Some 0 else S <$> IndexByte c s
  end.

(** The [before] result of [strings.Cut(s, string(c))] *)
Fixpoint CutBefore (c : ascii) (s : string) : string :=
  match s with
  | EmptyString => EmptyString
  | String a s => if decide (a = c) then EmptyString else String a (CutBefore c s)
  end.

(** *** Lemmas *)

Lemma app_empty_r s : s +:+ "" = s.
Proof. induction s; simpl; congruence. Qed.

Lemma app_assoc s1 s2 s3 : (s1 +:+ s2) +:+ s3 = s1 +:+ (s2 +:+ s3).
Proof. induction s1; simpl; congruence. Qed.

Lemma HasByte_app c s1 s2 : HasByte c (s1 +:+ s2) = HasByte c s1 || HasByte c s2.
Proof. induction s1 as [|a s1 IH]; simpl; [done|]. by rewrite IH, orb_assoc. Qed.

Lemma HasByte_cons_false c a s :
  HasByte c (String a s) = false ↔ a ≠ c ∧ HasByte c s = false.
Proof. simpl. rewrite orb_false_iff, bool_decide_eq_false. done. Qed.

Lemma SplitByte_not_nil c s : SplitByte c s ≠ [].
Proof. destruct s as [|a s]; simpl; [done|]. case_decide; [done|]. by case_match. Qed.

Lemma SplitByte_none c s : HasByte c s = false → SplitByte c s = [s].
Proof.
  induction s as [|a s IH]; [done|]. intros [Ha Hs]%HasByte_cons_false.
  simpl. rewrite decide_False by done. by rewrite (IH Hs).
Qed.

Lemma SplitByte_app c x s :
  HasByte c x = false → SplitByte c (x +:+ String c s) = x :: SplitByte c s.
Proof.
  induction x as [|a x IH]; simpl.
  { intros _. by rewrite decide_True. }
  intros [Ha Hx]%HasByte_cons_false. rewrite decide_False by done.
  by rewrite (IH Hx).
Qed.

Lemma SplitByte_parts c s : Forall (λ x, HasByte c x = false) (SplitByte c s).
Proof.
  induction s as [|a s IH]; simpl; [by repeat constructor|].
  case_decide as Ha; [by constructor|].
  destruct (SplitByte c s) as [|x l] eqn:E; [by destruct (SplitByte_not_nil c s)|].
  inversion IH; subst. constructor; [|done].
  by apply HasByte_cons_false.
Qed.

(** Joining the parts of a split gives the string back... *)
Lemma JoinByte_SplitByte c s : JoinByte c (SplitByte c s) = s.
Proof.
  induction s as [|a s IH]; simpl; [done|]. case_decide as Ha.
  - subst. destruct (SplitByte c s) as [|x l] eqn:E; [by destruct (SplitByte_not_nil c s)|].
    simpl. by rewrite <- IH.
  - destruct (SplitByte c s) as [|x l] eqn:E; [by destruct (SplitByte_not_nil c s)|].
    rewrite <- IH. by destruct l.
Qed.

(** ... and splitting a join gives the parts back, when no part has the
    separator. *)
Lemma SplitByte_JoinByte c l :
  l ≠ [] → Forall (λ x, HasByte c x = false) l → SplitByte c (JoinByte c l) = l.
Proof.
  induction l as [|x l IH]; [done|]. intros _ Hl.
  apply Forall_cons in Hl as [Hx Hl]. destruct l as [|y l].
  - by apply SplitByte_none.
  - change (SplitByte c (x +:+ String c (JoinByte c (y :: l))) = x :: y :: l).
    rewrite SplitByte_app by done. by rewrite IH.
Qed.

Lemma JoinByte_inj c l1 l2 :
  l1 ≠ [] → l2 ≠ [] →
  Forall (λ x, HasByte c x = false) l1 → Forall (λ x, HasByte c x = false) l2 →
  JoinByte c l1 = JoinByte c l2 → l1 = l2.
Proof.
  intros H1 H2 F1 F2 E.
  rewrite <- (SplitByte_JoinByte c l1), <- (SplitByte_JoinByte c l2) by done.
  by rewrite E.
Qed.

Lemma SplitByte_inj c s1 s2 : SplitByte c s1 = SplitByte c s2 → s1 = s2.
Proof.
  intros E. by rewrite <- (JoinByte_SplitByte c s1), <- (JoinByte_SplitByte c s2), E.
Qed.

Lemma TrimLeftByte_id c a s : a ≠ c → TrimLeftByte c (String a s) = String a s.
Proof. intros. simpl. by rewrite decide_False. Qed.

Lemma CutBefore_none c s : HasByte c s = false → CutBefore c s = s.
Proof.
  induction s as [|a s IH]; [done|]. intros [Ha Hs]%HasByte_cons_false.
  simpl. rewrite decide_False by done. by rewrite IH.
Qed.

Lemma CutBefore_no_byte c s : HasByte c (CutBefore c s) = false.
Proof.
  induction s as [|a s IH]; simpl; [done|]. case_decide; [done|].
  by apply HasByte_cons_false.
Qed.

Lemma CutBefore_app c s t : HasByte c s = false → CutBefore c (s +:+ String c t) = s.
Proof.
  induction s as [|a s IH]; simpl.
  { intros _. by rewrite decide_True. }
  intros [Ha Hs]%HasByte_cons_false. rewrite decide_False by done. by rewrite IH.
Qed.

Lemma HasByte_DropLast c s : HasByte c s = false → HasByte c (DropLast s) = false.
Proof.
  induction s as [|a s IH]; [done|]. intros [Ha Hs]%HasByte_cons_false.
  simpl. destruct s; [done|]. apply HasByte_cons_false. auto.
Qed.

Lemma HasByte_Drop c n s : HasByte c s = false → HasByte c (Drop n s) = false.
Proof.
  revert s. induction n as [|n IH]; intros [|a s]; simpl; try done.
  intros H%HasByte_cons_false. naive_solver.
Qed.

Lemma HasSuffixByte_app c s a t :
  HasSuffixByte c (s +:+ String a t) = HasSuffixByte c (String a t).
Proof. induction s as [|b s IH]; [done|]. simpl in *. by destruct s. Qed.

Lemma DropLast_app s a t : DropLast (s +:+ String a t) = s +:+ DropLast (String a t).
Proof. induction s as [|b s IH]; [done|]. simpl in *. destruct s; simpl in *; congruence. Qed.

End Strings.

(** ** [stringutil.go] *)

Module stringutil.
Import Strings.

(** [constant.PathParamIdentifier], [HeaderValueAll], [HeaderValueAllLevels] *)
Definition PathParamIdentifier : string := ":".
Definition HeaderValueAll : string := "*".
Definition HeaderValueAllLevels : string := "**".

Definition Split (path : string) : list string :=
  SplitByte slash (TrimLeftByte slash path).

Definition VariableName (key : string) : string := TrimPrefix key PathParamIdentifier.

Definition IsWildcard (key : string) : bool := bool_decide (key = HeaderValueAll).

Definition IsPathVariableOrWildcard (key : string) : bool :=
  if decide (key = "") then false
  else if HasPrefix key PathParamIdentifier then true
  else if IsWildcard key then true
  else false.

Definition IsMatchAll (key : string) : bool := bool_decide (key = HeaderValueAllLevels).

(** The compiled expression [^[A-Za-z][A-Za-z0-9+.-]*://].  None of the
    characters of the class is a colon, so the match is decided by the first
    character outside the class. *)
Definition is_alpha (a : ascii) : bool :=
  let n := N_of_ascii a in
  ((65 <=? n) && (n <=? 90) || (97 <=? n) && (n <=? 122))%N.
Definition is_scheme_char (a : ascii) : bool :=
  let n := N_of_ascii a in
  is_alpha a || ((48 <=? n) && (n <=? 57))%N ||
  bool_decide (a = "+"%char) || bool_decide (a = "."%char) || bool_decide (a = "-"%char).

Fixpoint scheme_rest (s : string) : option string :=
  match s with
  | EmptyString => None
  | String a s' =>
      if is_scheme_char a then String a <$> scheme_rest s'
      else if HasPrefix s "://" then Some "://" else None
  end.

(** [urlSchemePrefix.FindString]: the matched text, [""] for no match *)
Definition urlSchemePrefix_FindString (s : string) : string :=
  match s with
  | EmptyString => ""
  | String a s' => if is_alpha a then default "" (String a <$> scheme_rest s') else ""
  end.

Definition GetTrieKey (method path : string) : string :=
  let path := CutBefore qmark path in
  let scheme := urlSchemePrefix_FindString path in
  let path :=
    if decide (scheme = "") then path
    else
      let path := Drop (String.length scheme) path in
      match IndexByte slash path with
      | Some i => Drop (i + 1) path
      | None => ""
      end in
  let ret :=
    if HasPrefix path "/" then method +:+ path
    else method +:+ "/" +:+ path in
  if HasSuffixByte slash ret then DropLast ret else ret.

Definition GetTrieKeyWithPrefix (method path prefix : string) (isPrefix : bool) : string :=
  if isPrefix then
    let prefix :=
      if negb (bool_decide (prefix = "")) && negb (HasSuffixByte slash prefix)
      then prefix +:+ "/" else prefix in
    GetTrieKey method (prefix +:+ HeaderValueAllLevels)
  else GetTrieKey method path.

(** [ResolveTimeStr2Time]; [ParseDuration] is [time.ParseDuration]. *)
Definition ResolveTimeStr2Time (ParseDuration : string → option Z)
    (currentV : string) (defaultV : Z) : Z :=
  if decide (currentV = "") then defaultV
  else default defaultV (ParseDuration currentV).

End stringutil.

(** ** The shape of trie keys *)

Module TrieKey.
Import Strings stringutil.

(** An HTTP method, or the wildcard: a non-empty token. *)
Definition valid_method (m : string) : bool :=
  negb (bool_decide (m = "")) && negb (HasByte slash m) && negb (HasByte qmark m).

(** What [GetTrieKey] keeps of a path before it adds the method: without the
    query, the scheme, the authority and one leading slash. *)
Definition key_body (path : string) : string :=
  let path := CutBefore qmark path in
  let scheme := urlSchemePrefix_FindString path in
  let path :=
    if decide (scheme = "") then path
    else
      let path := Drop (String.length scheme) path in
      match IndexByte slash path with
      | Some i => Drop (i + 1) path
      | None => ""
      end in
  if HasPrefix path "/" then Drop 1 path else path.

(** The segments a path contributes to its key. *)
Definition path_segments (path : string) : list string :=
  let b := key_body path in
  if decide (b = "") then []
  else SplitByte slash (if HasSuffixByte slash b then DropLast b else b).

Lemma HasPrefix_slash s : HasPrefix s "/" = true ↔ ∃ t, s = String slash t.
Proof.
  destruct s as [|a s]; [naive_solver|].
  change (HasPrefix (String a s) "/") with (bool_decide (a = slash) && true).
  rewrite andb_true_r, bool_decide_eq_true. naive_solver.
Qed.

Lemma GetTrieKey_body m p :
  GetTrieKey m p =
    (let ret := m +:+ String slash (key_body p) in
     if HasSuffixByte slash ret then DropLast ret else ret).
Proof.
  unfold GetTrieKey, key_body. cbv zeta.
  set (q := if decide _ then _ else _).
  destruct (HasPrefix q "/") eqn:E; [|done].
  apply HasPrefix_slash in E as [t ->]. done.
Qed.

Lemma DropLast_no_suffix_slash b :
  b ≠ "" → HasSuffixByte slash b = true →
  DropLast (String slash b) = String slash (DropLast b).
Proof. by destruct b. Qed.

Lemma valid_method_spec m :
  valid_method m = true ↔ m ≠ "" ∧ HasByte slash m = false ∧ HasByte qmark m = false.
Proof.
  unfold valid_method. rewrite !andb_true_iff, !negb_true_iff, bool_decide_eq_false.
  tauto.
Qed.

Lemma GetTrieKey_segments m p :
  GetTrieKey m p = JoinByte slash (m :: path_segments p).
Proof.
  rewrite GetTrieKey_body. cbv zeta. unfold path_segments.
  rewrite HasSuffixByte_app. destruct (decide (key_body p = "")) as [E|Hb].
  { rewrite E. simpl. rewrite DropLast_app. simpl. by rewrite app_empty_r. }
  assert (HasSuffixByte slash (String slash (key_body p)) = HasSuffixByte slash (key_body p)) as ->
    by (by destruct (key_body p)).
  set (b := key_body p) in *. assert (∀ t, JoinByte slash (m :: SplitByte slash t) = m +:+ String slash t) as Hj.
  { intros t. pose proof (JoinByte_SplitByte slash t) as Ht.
    destruct (SplitByte slash t) eqn:Es; [by apply SplitByte_not_nil in Es|].
    rewrite <- Ht. done. }
  destruct (HasSuffixByte slash b) eqn:Es; rewrite Hj; [|done].
  rewrite DropLast_app. by rewrite DropLast_no_suffix_slash.
Qed.

Lemma path_segments_no_slash p : Forall (λ x, HasByte slash x = false) (path_segments p).
Proof. unfold path_segments. case_decide; [constructor|]. apply SplitByte_parts. Qed.

Lemma Split_valid_method m s :
  valid_method m = true →
  SplitByte slash (TrimLeftByte slash (m +:+ s)) = SplitByte slash (m +:+ s).
Proof.
  intros (Hm & Hs & _)%valid_method_spec. destruct m as [|a m]; [done|].
  apply HasByte_cons_false in Hs as [Ha _]. cbn [String.append].
  by rewrite TrimLeftByte_id.
Qed.

(** The trie sees a key as the method followed by the segments of the path. *)
Lemma Split_GetTrieKey m p :
  valid_method m = true → Split (GetTrieKey m p) = m :: path_segments p.
Proof.
  intros Hm. unfold Split. rewrite GetTrieKey_segments.
  assert (∃ s, JoinByte slash (m :: path_segments p) = m +:+ s) as [s Hs].
  { destruct (path_segments p) as [|y l]; [exists ""; simpl; by rewrite app_empty_r|].
    by eexists. }
  rewrite Hs, Split_valid_method, <- Hs by done.
  apply SplitByte_JoinByte; [done|]. constructor; [|apply path_segments_no_slash].
  by apply valid_method_spec in Hm as (_ & ? & _).
Qed.

Lemma key_body_no_query p : HasByte qmark (key_body p) = false.
Proof.
  unfold key_body. cbv zeta. pose proof (CutBefore_no_byte qmark p) as H.
  set (q := if decide _ then _ else _).
  assert (HasByte qmark q = false) as Hq.
  { unfold q. case_decide; [done|]. destruct (IndexByte _ _); [|done]. auto using HasByte_Drop. }
  destruct (HasPrefix q "/"); [by apply HasByte_Drop|done].
Qed.

(** A key has no query left in it. *)
Lemma GetTrieKey_no_query m p :
  valid_method m = true → CutBefore qmark (GetTrieKey m p) = GetTrieKey m p.
Proof.
  intros (_ & _ & Hq)%valid_method_spec. apply CutBefore_none.
  rewrite GetTrieKey_body. cbv zeta.
  assert (HasByte qmark (m +:+ String slash (key_body p)) = false) as H.
  { rewrite HasByte_app, Hq. simpl. apply key_body_no_query. }
  destruct (HasSuffixByte _ _); [|done]. by apply HasByte_DropLast.
Qed.

(** *** Absolute-form targets *)

Fixpoint scheme_chars (s : string) : bool :=
  match s with
  | EmptyString => true
  | String a s => is_scheme_char a && scheme_chars s
  end.
Definition is_scheme (s : string) : bool :=
  match s with
  | EmptyString => false
  | String a s => is_alpha a && scheme_chars s
  end.

Lemma scheme_rest_app s u :
  scheme_chars s = true → scheme_rest (s +:+ u) = (String.append s) <$> scheme_rest u.
Proof.
  induction s as [|a s IH]; simpl; [by destruct (scheme_rest u)|]. intros [Ha Hs]%andb_true_iff.
  rewrite Ha, IH by done. by destruct (scheme_rest u).
Qed.

Lemma urlSchemePrefix_app s t :
  is_scheme s = true → urlSchemePrefix_FindString (s +:+ "://" +:+ t) = s +:+ "://".
Proof.
  destruct s as [|a s]; [done|]. intros [Ha Hs]%andb_true_iff.
  set (u := "://" +:+ t). assert (scheme_rest u = Some "://") as Hu by (by destruct t).
  simpl. by rewrite Ha, scheme_rest_app, Hu.
Qed.

Lemma Drop_app s t : Drop (String.length s) (s +:+ t) = t.
Proof. induction s; simpl; [by destruct t|done]. Qed.

Lemma Drop_index c s t :
  HasByte c s = false → ∃ i, IndexByte c (s +:+ String c t) = Some i ∧ Drop (i + 1) (s +:+ String c t) = t.
Proof.
  induction s as [|a s IH]; simpl.
  - intros _. exists 0. rewrite decide_True by done. by destruct t.
  - intros [Ha Hs]%HasByte_cons_false. rewrite decide_False by done.
    destruct (IH Hs) as (i & -> & Hd). by exists (S i).
Qed.

Lemma HasByte_scheme c s :
  scheme_chars s = true → is_scheme_char c = false → HasByte c s = false.
Proof.
  intros Hs Hc. induction s as [|a s IH]; [done|]. apply andb_true_iff in Hs as [Ha Hs].
  apply HasByte_cons_false. split; [congruence|auto].
Qed.

(** The key of an absolute-form target is the key of its path: scheme,
    authority and query are not part of it. *)
Theorem trie_key_of_absolute_form (m scheme authority p q : string) :
  is_scheme scheme = true →
  HasByte slash authority = false → HasByte qmark authority = false →
  HasByte qmark p = false → HasPrefix p "/" = false →
  GetTrieKey m (scheme +:+ "://" +:+ authority +:+ "/" +:+ p +:+ "?" +:+ q) = GetTrieKey m ("/" +:+ p).
Proof.
  intros Hs Ha Haq Hp Hps. rewrite !GetTrieKey_body. enough (key_body (scheme +:+ "://" +:+ authority +:+ "/" +:+ p +:+ "?" +:+ q) = key_body ("/" +:+ p)) as -> by done.
  unfold key_body. set (abs := scheme +:+ "://" +:+ authority +:+ "/" +:+ p).
  assert (CutBefore qmark (scheme +:+ "://" +:+ authority +:+ "/" +:+ p +:+ "?" +:+ q) = abs) as ->.
  { rewrite <- (CutBefore_app qmark abs q); [unfold abs; by rewrite !app_assoc|].
    unfold abs. rewrite !HasByte_app, Haq, Hp. destruct scheme as [|a s]; [done|].
    apply andb_true_iff in Hs as [Hal Hs].
    assert (HasByte qmark (String a s) = false) as ->; [|done].
    apply HasByte_scheme; [|done]. simpl. unfold is_scheme_char. by rewrite Hal. }
  cbv zeta. unfold abs. rewrite urlSchemePrefix_app by done.
  rewrite decide_False by (by destruct scheme).
  rewrite <- (app_assoc scheme), Drop_app. destruct (Drop_index slash authority p Ha) as (i & Hi & Hd).
  change ("/" +:+ p) with (String slash p). rewrite Hi, Hd, Hps.
  rewrite CutBefore_none by (by apply HasByte_cons_false). simpl. by destruct p.
Qed.

Lemma trie_key_of_absolute_form_witness :
  GetTrieKey "GET" "https://host:80/user/7?x=//y" = GetTrieKey "GET" "/user/7".
Proof. exact (trie_key_of_absolute_form "GET" "https" "host:80" "user/7" "x=//y" eq_refl eq_refl eq_refl eq_refl eq_refl). Defined.

End TrieKey.
