(* ===== verification/Trie.v ===== *)
(** * The routing trie, [pkg/common/router/trie/trie.go]

    A node owns its literal children, one parameter child shared by every
    parameter name and by the single-segment wildcard, and one match-all child.
    The Go code updates nodes in place through pointers; every node but the root
    has exactly one owner, so an update is modelled by rebuilding the path to
    the node it writes.  [PathVariablesSet] maps every parameter name put under
    a node to the same parameter child: its values alias [PathVariableNode], so
    only its keys are kept.

    The second half states what the trie is: a finite map from patterns to
    business info, looked up in a fixed order of patterns. *)

From S2P Require Import Prelude GoStrings.
Import stringutil.

#[local] Unset Elimination Schemes.

(** ** Data *)

Inductive Node (B : Type) : Type := mkNode {
  matchStr : string;
  children : option (gmap string (Node B));
  PathVariablesSet : option (gset string);
  PathVariableNode : option (Node B);
  MatchAllNode : option (Node B);
  endOfPath : bool;
  bizInfo : option B;
}.
#[local] Set Elimination Schemes.
Arguments mkNode {B} _ _ _ _ _ _ _.
Arguments matchStr {B} _.
Arguments children {B} _.
Arguments PathVariablesSet {B} _.
Arguments PathVariableNode {B} _.
Arguments MatchAllNode {B} _.
Arguments endOfPath {B} _.
Arguments bizInfo {B} _.

Record Trie (B : Type) : Type := mkTrie { root : Node B }.
Arguments mkTrie {B} _.
Arguments root {B} _.

Inductive trie_error : Type :=
  | ErrNilData
  | ErrEmptyConfiguration.

Section operations.
Context {B : Type}.
Implicit Types (node : Node B) (keys parts : list string) (biz : B).

(** [Node{}] *)
Definition emptyNode : Node B := mkNode "" None None None None false None.

Definition set_children node c : Node B :=
  mkNode (matchStr node) c (PathVariablesSet node) (PathVariableNode node)
    (MatchAllNode node) (endOfPath node) (bizInfo node).
Definition set_PathVariableNode node c : Node B :=
  mkNode (matchStr node) (children node) (PathVariablesSet node) c
    (MatchAllNode node) (endOfPath node) (bizInfo node).
Definition set_MatchAllNode node c : Node B :=
  mkNode (matchStr node) (children node) (PathVariablesSet node) (PathVariableNode node)
    c (endOfPath node) (bizInfo node).
Definition set_endOfPath node e : Node B :=
  mkNode (matchStr node) (children node) (PathVariablesSet node) (PathVariableNode node)
    (MatchAllNode node) e (bizInfo node).
Definition set_bizInfo node b : Node B :=
  mkNode (matchStr node) (children node) (PathVariablesSet node) (PathVariableNode node)
    (MatchAllNode node) (endOfPath node) b.

(** [node.children[key]] *)
Definition child_lookup node (key : string) : option (Node B) :=
  match children node with
  | None => None
  | Some m => m !! key
  end.

(** [node.children[key] = c] on an initialised map *)
Definition child_store node (key : string) (c : Node B) : Node B :=
  set_children node (Some (<[key := c]> (default ∅ (children node)))).

(** ** Put *)

Definition putPathVariable node (pathVariable : string) (isReal : bool) biz : Node B * bool :=
  let pv := default emptyNode (PathVariableNode node) in
  if endOfPath pv && isReal then (set_PathVariableNode node (Some pv), false)
  else
    let pv :=
      if isReal then
        mkNode pathVariable (children pv) (PathVariablesSet pv) (PathVariableNode pv)
          (MatchAllNode pv) (endOfPath pv) (Some biz)
      else pv in
    let pv := set_endOfPath pv (endOfPath pv || isReal) in
    let vars := {[ pathVariable ]} ∪ default ∅ (PathVariablesSet node) in
    (mkNode (matchStr node) (children node) (Some vars) (Some pv)
       (MatchAllNode node) (endOfPath node) (bizInfo node), true).

Definition putNode node (matchStr : string) (isReal : bool) biz : Node B * bool :=
  let fresh := mkNode matchStr None None None None isReal None in
  let old := child_lookup node matchStr in
  if match old with Some o => endOfPath o && isReal | None => false end then (node, false)
  else
    let selfNode := default fresh old in
    let old := default selfNode old in
    let selfNode := if isReal then set_bizInfo selfNode (Some biz) else selfNode in
    let selfNode := set_endOfPath selfNode (isReal || endOfPath old) in
    (child_store node matchStr selfNode, true).

(** Unlike [putNode], the flag is built from the two old flags only. *)
Definition putMatchAllNode node (matchStr : string) (isReal : bool) biz : Node B * bool :=
  let fresh := mkNode matchStr None None None None isReal None in
  let old := MatchAllNode node in
  if match old with Some o => endOfPath o && isReal | None => false end then (node, false)
  else
    let selfNode := default fresh old in
    let old := default selfNode old in
    let selfNode := if isReal then set_bizInfo selfNode (Some biz) else selfNode in
    let selfNode := set_endOfPath selfNode (endOfPath selfNode || endOfPath old) in
    (set_MatchAllNode node (Some selfNode), true).

Definition put node (key : string) (isReal : bool) biz : Node B * bool :=
  if negb (IsPathVariableOrWildcard key) then
    if IsMatchAll key then putMatchAllNode node key isReal biz
    else putNode node key isReal biz
  else putPathVariable node (VariableName key) isReal biz.

(** The two [None] branches are nil dereferences; a successful [put] rules them
    out ([put_child] below). *)
Fixpoint internalPut node keys biz : Node B * bool :=
  let node := set_children node (Some (default ∅ (children node))) in
  match keys with
  | [] => (node, true)
  | key :: childKeys =>
      let isReal := bool_decide (childKeys = []) in
      let '(node, isSuccess) := put node key isReal biz in
      if negb isSuccess then (node, false)
      else if IsPathVariableOrWildcard key then
        match PathVariableNode node with
        | Some c =>
            let '(c, ok) := internalPut c childKeys biz in
            (set_PathVariableNode node (Some c), ok)
        | None => (node, false)
        end
      else if IsMatchAll key then (node, isSuccess)
      else
        match child_lookup node key with
        | Some c =>
            let '(c, ok) := internalPut c childKeys biz in
            (child_store node key c, ok)
        | None => (node, false)
        end
  end.

(** ** Match

    The triple [(node, params, ok)] is an [option]: the first two components
    are not read when [ok] is false.  A missing predicate accepts every node. *)

Definition matchesPredicate (candidate : option (Node B)) (predicate : option (Node B → bool)) : bool :=
  match candidate with
  | None => false
  | Some c => match predicate with None => true | Some p => p c end
  end.

Definition matchLiteralEnd node (key : string) predicate : option (Node B) :=
  match child_lookup node key with
  | None => None
  | Some candidate =>
      if negb (endOfPath candidate) then None
      else if negb (matchesPredicate (Some candidate) predicate) then None
      else Some candidate
  end.

Definition matchPathVariableEnd node predicate : option (Node B) :=
  match PathVariableNode node with
  | None => None
  | Some candidate =>
      if negb (endOfPath candidate) then None
      else if negb (matchesPredicate (Some candidate) predicate) then None
      else Some candidate
  end.

Definition matchAllChild node (key : string) : option (Node B) :=
  match child_lookup node key with
  | None => None
  | Some child => MatchAllNode child
  end.

Definition matchAll node (key : string) predicate : option (Node B * list string) :=
  if matchesPredicate (matchAllChild node key) predicate
  then (λ c, (c, [])) <$> matchAllChild node key
  else if matchesPredicate (MatchAllNode node) predicate
  then (λ c, (c, [])) <$> MatchAllNode node
  else None.

Definition matchEnd node (key : string) predicate : option (Node B * list string) :=
  match matchLiteralEnd node key predicate with
  | Some candidate => Some (candidate, [])
  | None =>
      match matchPathVariableEnd node predicate with
      | Some candidate => Some (candidate, [key])
      | None => matchAll node key predicate
      end
  end.

(** [matchLiteralChild], [matchPathVariableChild] and [matchRemaining] take the
    recursive call on the remaining keys as [rec]. *)
Definition matchLiteralChild (rec : Node B → option (Node B * list string)) node (key : string)
    : option (Node B * list string) :=
  match child_lookup node key with
  | None => None
  | Some child => rec child
  end.

Definition matchPathVariableChild (rec : Node B → option (Node B * list string)) node (key : string)
    : option (Node B * list string) :=
  match PathVariableNode node with
  | None => None
  | Some child => (λ '(candidate, params), (candidate, params ++ [key])) <$> rec child
  end.

Definition matchRemaining (rec : Node B → option (Node B * list string)) node (key : string) predicate
    : option (Node B * list string) :=
  match matchLiteralChild rec node key with
  | Some r => Some r
  | None =>
      match matchPathVariableChild rec node key with
      | Some r => Some r
      | None => matchAll node key predicate
      end
  end.

(** [parts[0]] panics on an empty slice; [Split] never returns one. *)
Fixpoint node_match node parts (predicate : option (Node B → bool)) : option (Node B * list string) :=
  match parts with
  | [] => None
  | key :: childKeys =>
      match childKeys with
      | [] => matchEnd node key predicate
      | _ => matchRemaining (λ child, node_match child childKeys predicate) node key predicate
      end
  end.

(** ** Get *)

(** Above the leaf, [newList] has length one, so the [copy] into [newList[1:]]
    copies nothing: the parameters found below are dropped. *)
Fixpoint node_Get node keys : result trie_error (option (Node B) * list string * bool) :=
  match keys with
  | [] => Ok (None, [], false)
  | key :: childKeys =>
      match childKeys with
      | [] =>
          if IsPathVariableOrWildcard key then
            match PathVariableNode node with
            | Some pv =>
                if endOfPath pv then Ok (Some pv, [VariableName key], true)
                else Ok (None, [], false)
            | None => Ok (None, [], false)
            end
          else if IsMatchAll key then Ok (MatchAllNode node, [], true)
          else match children node with
               | None => Ok (None, [], false)
               | Some m => Ok (m !! key, [], true)
               end
      | _ =>
          if IsPathVariableOrWildcard key then
            match PathVariableNode node with
            | None => Ok (None, [], false)
            | Some pv =>
                match node_Get pv childKeys with
                | Ok (retNode, _, ok) => Ok (retNode, [key], ok)
                | Err e => Err e
                end
            end
          else if IsMatchAll key then Err ErrEmptyConfiguration
          else match child_lookup node key with
               | None => Ok (None, [], false)
               | Some c => node_Get c childKeys
               end
      end
  end.

(** A write through the pointer that [node_Get] returns. *)
Fixpoint alter_at (f : Node B → Node B) node keys : Node B :=
  match keys with
  | [] => f node
  | key :: childKeys =>
      if IsPathVariableOrWildcard key then
        match PathVariableNode node with
        | Some c => set_PathVariableNode node (Some (alter_at f c childKeys))
        | None => node
        end
      else if IsMatchAll key then
        match MatchAllNode node with
        | Some c => set_MatchAllNode node (Some (alter_at f c childKeys))
        | None => node
        end
      else
        match child_lookup node key with
        | Some c => child_store node key (alter_at f c childKeys)
        | None => node
        end
  end.

Definition node_IsEmpty node : bool :=
  match children node, PathVariableNode node, PathVariablesSet node with
  | None, None, None => bool_decide (matchStr node = "")
  | _, _, _ => false
  end.

(** ** The trie *)

Definition NewTrie : Trie B := mkTrie emptyNode.

Definition Trie_Clear (t : Trie B) : Trie B * bool := (mkTrie emptyNode, true).

Definition IsEmpty (t : Trie B) : bool := node_IsEmpty (root t).

Definition Put (t : Trie B) (withOutHost : string) (bizInfo : option B) : Trie B * result trie_error bool :=
  match bizInfo with
  | None => (t, Err ErrNilData)
  | Some biz =>
      let '(n, ok) := internalPut (root t) (Split withOutHost) biz in
      (mkTrie n, Ok ok)
  end.

Definition NewTrieWithDefault (path : string) (defVal : option B) : Trie B :=
  (Put NewTrie path defVal).1.

Definition Get (t : Trie B) (withOutHost : string) : result trie_error (option (Node B) * list string * bool) :=
  match node_Get (root t) (Split withOutHost) with
  | Ok (n, param, ok) => Ok (n, reverse param, ok)
  | Err e => Err e
  end.

Definition MatchWithPredicate (t : Trie B) (withOutHost : string) (predicate : option (Node B → bool))
    : option (Node B * list string) :=
  let withOutHost := Strings.CutBefore qmark withOutHost in
  (λ '(n, param), (n, reverse param)) <$> node_match (root t) (Split withOutHost) predicate.

Definition Match (t : Trie B) (withOutHost : string) : option (Node B * list string) :=
  MatchWithPredicate t withOutHost None.

Definition Remove (t : Trie B) (withOutHost : string) : Trie B * result trie_error (option (Node B)) :=
  match Get t withOutHost with
  | Err e => (t, Err e)
  | Ok (None, _, _) => (t, Ok None)
  | Ok (Some n, _, _) =>
      let unset := λ n, set_endOfPath n false in
      (mkTrie (alter_at unset (root t) (Split withOutHost)), Ok (Some (unset n)))
  end.

Definition PutOrUpdate (t : Trie B) (withOutHost : string) (bizInfo : option B) : Trie B * result trie_error bool :=
  match bizInfo with
  | None => (t, Err ErrNilData)
  | Some biz =>
      let t := (Remove t withOutHost).1 in
      let '(n, ok) := internalPut (root t) (Split withOutHost) biz in
      (mkTrie n, Ok ok)
  end.

Definition Contains (t : Trie B) (withOutHost : string) : result trie_error bool :=
  match node_Get (root t) (Split withOutHost) with
  | Ok (ret, _, _) => Ok (bool_decide (is_Some ret))
  | Err e => Err e
  end.

End operations.

(** ** Patterns

    What a key says to the trie, segment by segment: a literal, a parameter
    ([:name] or [*]) or the match-all suffix ([**]). *)

Inductive seg : Type :=
  | SLit (s : string)
  | SVar
  | SAll.

#[export] Instance seg_eq_dec : EqDecision seg.
Proof. solve_decision. Defined.

Definition seg_of (key : string) : seg :=
  if IsPathVariableOrWildcard key then SVar
  else if IsMatchAll key then SAll
  else SLit key.

Definition pattern_of (keys : list string) : list seg := map seg_of keys.

(** [**] may only close a pattern. *)
Fixpoint wf_pattern (p : list seg) : bool :=
  match p with
  | [] => true
  | [_] => true
  | SAll :: _ => false
  | _ :: p => wf_pattern p
  end.

(** The patterns that match a list of request segments, in the order the trie
    tries them, each with the values of its parameters, last one first. *)
Fixpoint candidate_patterns (parts : list string) : list (list seg * list string) :=
  match parts with
  | [] => []
  | [key] => [([SLit key], []); ([SVar], [key]); ([SLit key; SAll], []); ([SAll], [])]
  | key :: parts =>
      map (λ '(p, vs), (SLit key :: p, vs)) (candidate_patterns parts) ++
      map (λ '(p, vs), (SVar :: p, vs ++ [key])) (candidate_patterns parts) ++
      [([SAll], [])]
  end.

Definition ends_all (p : list seg) : bool :=
  match last p with Some SAll => true | _ => false end.

Section patterns.
Context {B : Type}.
Implicit Types (node : Node B) (keys parts : list string) (biz : B) (p q : list seg).

Definition child node (s : seg) : option (Node B) :=
  match s with
  | SLit k => child_lookup node k
  | SVar => PathVariableNode node
  | SAll => MatchAllNode node
  end.

Fixpoint node_at node p : option (Node B) :=
  match p with
  | [] => Some node
  | s :: p =>
      match child node s with
      | Some c => node_at c p
      | None => None
      end
  end.

(** The node a match may return for pattern [p]: its path must have been put in
    full, which the code does not ask of match-all nodes. *)
Definition candidate_at node p : option (Node B) :=
  match node_at node p with
  | Some n => if ends_all p || endOfPath n then Some n else None
  | None => None
  end.

(** The finite map a trie stands for. *)
Definition view node p : option B :=
  match candidate_at node p with
  | Some n => bizInfo n
  | None => None
  end.

(** *** Matching is a search in pattern order *)

Definition try_pattern node (predicate : option (Node B → bool))
    (c : list seg * list string) : option (Node B * list string) :=
  match candidate_at node c.1 with
  | Some n => if matchesPredicate (Some n) predicate then Some (n, c.2) else None
  | None => None
  end.

Lemma candidate_at_cons node s p :
  p ≠ [] →
  candidate_at node (s :: p) =
    match child node s with Some c => candidate_at c p | None => None end.
Proof.
  intros Hp. unfold candidate_at. simpl. destruct (child node s) as [c|]; [|done].
  by destruct p.
Qed.

Lemma candidate_patterns_not_nil parts c :
  c ∈ candidate_patterns parts → c.1 ≠ [].
Proof.
  destruct parts as [|k [|k' parts]].
  - intros []%not_elem_of_nil.
  - cbn [candidate_patterns]. rewrite !elem_of_cons. intros [->|[->|[->|[->|[]%not_elem_of_nil]]]]; done.
  - intros Hc. cbn [candidate_patterns] in Hc.
    rewrite !elem_of_app, !list_elem_of_fmap in Hc.
    destruct Hc as [[[q vs] [-> _]]|[[[q vs] [-> _]]|Hc]]; [done..|].
    by apply list_elem_of_singleton in Hc as ->.
Qed.

Lemma candidate_patterns_all parts :
  parts ≠ [] → ([SAll], []) ∈ candidate_patterns parts.
Proof.
  destruct parts as [|k [|k' parts]]; intros H; [done|set_solver|].
  cbn [candidate_patterns]. rewrite !elem_of_app. right. right. set_solver.
Qed.

Lemma matchAll_spec node key predicate :
  matchAll node key predicate =
    first_some (try_pattern node predicate) [([SLit key; SAll], []); ([SAll], [])].
Proof.
  unfold matchAll, try_pattern, matchAllChild, candidate_at. simpl.
  destruct (child_lookup node key) as [c|]; simpl; [destruct (MatchAllNode c) as [m|]; simpl|];
    destruct (MatchAllNode node) as [m'|]; simpl; destruct predicate as [f|]; simpl;
    bool_cases; done.
Qed.

Lemma matchEnd_spec node key predicate :
  matchEnd node key predicate =
    first_some (try_pattern node predicate) (candidate_patterns [key]).
Proof.
  unfold matchEnd. change (candidate_patterns [key]) with
    ([([SLit key], []); ([SVar], [key])] ++ [([SLit key; SAll], []); ([SAll], [])] : list (list seg * list string)).
  rewrite first_some_app, <- matchAll_spec.
  unfold matchLiteralEnd, matchPathVariableEnd, try_pattern, candidate_at. simpl.
  destruct (child_lookup node key) as [c|]; simpl; [destruct (endOfPath c); simpl|];
    (destruct (PathVariableNode node) as [v|]; simpl; [destruct (endOfPath v); simpl|]);
    destruct predicate as [f|]; simpl; bool_cases; done.
Qed.

Lemma matchLiteralChild_spec (cs : list (list seg * list string)) node key predicate :
  (∀ c, c ∈ cs → c.1 ≠ []) →
  matchLiteralChild (λ c, first_some (try_pattern c predicate) cs) node key =
    first_some (try_pattern node predicate) (map (λ '(p, vs), (SLit key :: p, vs)) cs).
Proof.
  intros Hcs. unfold matchLiteralChild. rewrite first_some_map.
  destruct (child_lookup node key) as [c|] eqn:Ec; [|symmetry; apply first_some_None];
    [apply first_some_ext|]; intros [p vs] Hp; unfold try_pattern; simpl;
    rewrite candidate_at_cons by (by apply (Hcs _ Hp)); simpl; by rewrite Ec.
Qed.

Lemma matchPathVariableChild_spec (cs : list (list seg * list string)) node key predicate :
  (∀ c, c ∈ cs → c.1 ≠ []) →
  matchPathVariableChild (λ c, first_some (try_pattern c predicate) cs) node key =
    first_some (try_pattern node predicate) (map (λ '(p, vs), (SVar :: p, vs ++ [key])) cs).
Proof.
  intros Hcs. unfold matchPathVariableChild. rewrite first_some_map.
  destruct (PathVariableNode node) as [c|] eqn:Ec.
  - rewrite <- first_some_fmap. apply first_some_ext. intros [p vs] Hp.
    unfold try_pattern; simpl. rewrite candidate_at_cons by (by apply (Hcs _ Hp)).
    simpl. rewrite Ec. destruct (candidate_at c p); [|done]. by case_match.
  - symmetry. apply first_some_None. intros [p vs] Hp. unfold try_pattern; simpl.
    rewrite candidate_at_cons by (by apply (Hcs _ Hp)). simpl. by rewrite Ec.
Qed.

Lemma node_match_spec node parts predicate :
  parts ≠ [] →
  node_match node parts predicate =
    first_some (try_pattern node predicate) (candidate_patterns parts).
Proof.
  revert node. induction parts as [|key parts IH]; intros node; [done|]. intros _.
  destruct parts as [|key' parts]; [apply matchEnd_spec|].
  set (rest := key' :: parts) in *.
  change (matchRemaining (λ c, node_match c rest predicate) node key predicate =
    first_some (try_pattern node predicate)
      (map (λ '(p, vs), (SLit key :: p, vs)) (candidate_patterns rest) ++
       map (λ '(p, vs), (SVar :: p, vs ++ [key])) (candidate_patterns rest) ++ [([SAll], [])])).
  assert (∀ c, c ∈ candidate_patterns rest → c.1 ≠ []) as Hcs
    by apply candidate_patterns_not_nil.
  rewrite !first_some_app, <- matchLiteralChild_spec, <- matchPathVariableChild_spec by done.
  assert (∀ f g, (∀ c, f c = g c) →
    matchRemaining f node key predicate = matchRemaining g node key predicate) as Hext.
  { intros f g Hfg. unfold matchRemaining, matchLiteralChild, matchPathVariableChild.
    destruct (child_lookup node key); [rewrite Hfg|];
      (destruct (PathVariableNode node); [rewrite Hfg|]); done. }
  rewrite (Hext _ (λ c, first_some (try_pattern c predicate) (candidate_patterns rest)))
    by (intros; by apply IH).
  unfold matchRemaining.
  destruct (matchLiteralChild _ node key) eqn:El; [done|].
  destruct (matchPathVariableChild _ node key); [done|].
  rewrite matchAll_spec. cbn [first_some].
  rewrite matchLiteralChild_spec in El by done.
  rewrite first_some_None in El.
  rewrite (El ([SLit key; SAll], [])); [done|].
  apply list_elem_of_fmap. exists ([SAll], []). split; [done|].
  by apply candidate_patterns_all.
Qed.

(** *** Putting is inserting in the map *)

Definition obs node : bool * option B := (endOfPath node, bizInfo node).
Definition obs_at node q : option (bool * option B) := obs <$> node_at node q.

(** Two nodes with the same children up to the representation of an empty map. *)
Definition same_children (n1 n2 : Node B) : Prop := ∀ s, child n1 s = child n2 s.

Lemma same_children_at n1 n2 q :
  q ≠ [] → same_children n1 n2 → node_at n1 q = node_at n2 q.
Proof. destruct q as [|s q]; [done|]. intros _ H. simpl. by rewrite H. Qed.

Lemma init_children_same node :
  same_children (set_children node (Some (default ∅ (children node)))) node.
Proof.
  intros [k| |]; simpl; try done. unfold child_lookup; simpl.
  destruct (children node); simpl; [done|]. apply lookup_empty.
Qed.

Lemma child_store_same node key c s :
  child (child_store node key c) s = if decide (s = SLit key) then Some c else child node s.
Proof.
  destruct s as [k| |]; [|by case_decide..].
  cbn [child]. unfold child_lookup; simpl. rewrite lookup_insert.
  destruct (decide (key = k)) as [->|Hne].
  - by rewrite decide_True.
  - rewrite decide_False by naive_solver. destruct (children node); simpl; [done|].
    apply lookup_empty.
Qed.

Lemma set_PathVariableNode_same node c s :
  child (set_PathVariableNode node c) s = if decide (s = SVar) then c else child node s.
Proof. destruct s; by case_decide. Qed.

(** The child a put creates or reuses. *)
Definition put_child_spec (node node1 : Node B) (key : string) (isReal : bool) (biz : B) : Prop :=
  ∃ c, child node1 (seg_of key) = Some c ∧
    (∀ s, child c s = match child node (seg_of key) with Some o => child o s | None => None end) ∧
    obs c = if isReal then (true, Some biz)
            else default (false, None) (obs <$> child node (seg_of key)).

Definition conflict (node : Node B) (key : string) (isReal : bool) : bool :=
  match child node (seg_of key) with Some o => endOfPath o && isReal | None => false end.

Lemma fresh_children k r s : child (mkNode k None None None None r None : Node B) s = None.
Proof. by destruct s. Qed.

Lemma putPathVariable_spec node key isReal biz :
  seg_of key = SVar →
  let r := putPathVariable node (VariableName key) isReal biz in
  r.2 = negb (conflict node key isReal) ∧ obs r.1 = obs node ∧
  (∀ s, s ≠ SVar ∨ r.2 = false → child r.1 s = child node s) ∧
  (r.2 = true → put_child_spec node r.1 key isReal biz).
Proof.
  intros Hk. unfold conflict, put_child_spec, putPathVariable. rewrite Hk. simpl.
  destruct (PathVariableNode node) as [pv|] eqn:Epv; simpl.
  - destruct (endOfPath pv && isReal) eqn:Ee; simpl; split_and!; try done.
    + intros s _. rewrite set_PathVariableNode_same. by case_decide; subst.
    + intros s [Hs|]; [by destruct s|done].
    + intros _. destruct isReal; simpl; eexists; split_and!; try done;
        unfold obs; simpl; by rewrite ?orb_true_r, ?orb_false_r.
  - split_and!; try done.
    + intros s [Hs|]; [by destruct s|done].
    + intros _. destruct isReal; simpl; eexists; split_and!; try done; by intros [].
Qed.

Lemma putNode_spec node key isReal biz :
  seg_of key = SLit key →
  let r := putNode node key isReal biz in
  r.2 = negb (conflict node key isReal) ∧ obs r.1 = obs node ∧
  (∀ s, s ≠ SLit key ∨ r.2 = false → child r.1 s = child node s) ∧
  (r.2 = true → put_child_spec node r.1 key isReal biz).
Proof.
  intros Hk. unfold conflict, put_child_spec, putNode. rewrite Hk. simpl.
  destruct (child_lookup node key) as [o|] eqn:Eo; simpl.
  - destruct (endOfPath o && isReal) eqn:Ee; simpl; split_and!; try done.
    + intros s [Hs|]; [|done]. by rewrite child_store_same, decide_False.
    + intros _. change (child_lookup ?n ?k) with (child n (SLit k)).
      rewrite child_store_same, decide_True by done.
      destruct isReal; simpl; eexists; split_and!; done.
  - split_and!; try done.
    + intros s [Hs|]; [|done]. by rewrite child_store_same, decide_False.
    + intros _. change (child_lookup ?n ?k) with (child n (SLit k)).
      rewrite child_store_same, decide_True by done.
      destruct isReal; simpl; eexists; split_and!; try done; by intros [].
Qed.

(** A match-all node is only reused when the put is refused. *)
Lemma putMatchAllNode_spec node key biz :
  seg_of key = SAll → (∀ o, MatchAllNode node = Some o → endOfPath o = true) →
  let r := putMatchAllNode node key true biz in
  r.2 = negb (conflict node key true) ∧ obs r.1 = obs node ∧
  (∀ s, s ≠ SAll ∨ r.2 = false → child r.1 s = child node s) ∧
  (r.2 = true → put_child_spec node r.1 key true biz).
Proof.
  intros Hk Ho. unfold conflict, put_child_spec, putMatchAllNode. rewrite Hk. simpl.
  destruct (MatchAllNode node) as [o|] eqn:Eo; simpl.
  - rewrite (Ho o) by done. simpl. by split_and!.
  - split_and!; try done.
    + intros s [Hs|]; [by destruct s|done].
    + intros _. eexists. split_and!; try done. by intros [].
Qed.

Lemma seg_of_cases key :
  (IsPathVariableOrWildcard key = true ∧ seg_of key = SVar) ∨
  (IsPathVariableOrWildcard key = false ∧ IsMatchAll key = true ∧ seg_of key = SAll) ∨
  (IsPathVariableOrWildcard key = false ∧ IsMatchAll key = false ∧ seg_of key = SLit key).
Proof.
  unfold seg_of. destruct (IsPathVariableOrWildcard key); [by left|right].
  destruct (IsMatchAll key); [by left|by right].
Qed.

Lemma put_spec node key isReal biz :
  (seg_of key = SAll → isReal = true ∧ ∀ o, MatchAllNode node = Some o → endOfPath o = true) →
  let r := put node key isReal biz in
  r.2 = negb (conflict node key isReal) ∧ obs r.1 = obs node ∧
  (∀ s, s ≠ seg_of key ∨ r.2 = false → child r.1 s = child node s) ∧
  (r.2 = true → put_child_spec node r.1 key isReal biz).
Proof.
  intros Hall. unfold put.
  destruct (seg_of_cases key) as [[Hv Hk]|[(Hv & Ha & Hk)|(Hv & Ha & Hk)]];
    rewrite Hv; simpl; try rewrite Ha; rewrite ?Hk.
  - by apply putPathVariable_spec.
  - destruct (Hall Hk) as [-> Ho]. by apply putMatchAllNode_spec.
  - by apply putNode_spec.
Qed.

(** Every match-all node is an end of path. *)
Definition all_end node : Prop :=
  ∀ q n, node_at node q = Some n → ends_all q = true → endOfPath n = true.

Definition registered node p : bool :=
  match node_at node p with Some n => endOfPath n | None => false end.

(** What [internalPut] makes visible at every pattern [q]. *)
Definition put_obs (node : Node B) (p : list seg) (ok : bool) (biz : B) (q : list seg)
    : option (bool * option B) :=
  if decide (ok = true ∧ q = p) then Some (true, Some biz)
  else if decide (q `prefix_of` p ∧ q ≠ p) then Some (default (false, None) (obs_at node q))
  else obs_at node q.

Lemma obs_at_cons node s q :
  obs_at node (s :: q) = match child node s with Some c => obs_at c q | None => None end.
Proof. unfold obs_at. simpl. by destruct (child node s). Qed.

Lemma ends_all_cons s q : q ≠ [] → ends_all (s :: q) = ends_all q.
Proof. by destruct q. Qed.

Lemma all_end_child node s c : all_end node → child node s = Some c → all_end c.
Proof.
  intros H Hc q n Hq Hn. destruct q as [|t q]; [done|].
  apply (H (s :: t :: q)); [simpl in *; by rewrite Hc|by rewrite ends_all_cons].
Qed.

(** The same, seen from the child under segment [s]. *)
Definition below_put (node : Node B) (s : seg) (p : list seg) (ok : bool) (biz : B) (q : list seg)
    : option (bool * option B) :=
  if decide (ok = true ∧ q = p) then Some (true, Some biz)
  else if decide (q `prefix_of` p ∧ q ≠ p) then Some (default (false, None) (obs_at node (s :: q)))
  else obs_at node (s :: q).

(** The put observed at one level, given what happened below. *)
Lemma put_obs_step node node' s p c0 ok biz :
  obs node' = obs node →
  (∀ t, t ≠ s → child node' t = child node t) →
  child node' s = Some c0 →
  (∀ q, obs_at c0 q = below_put node s p ok biz q) →
  ∀ q, obs_at node' q = put_obs node (s :: p) ok biz q.
Proof.
  intros Hobs Hoth Hs Hc q. unfold put_obs, below_put in *. destruct q as [|t q].
  { rewrite decide_False by naive_solver. rewrite decide_True by
      (split; [apply prefix_nil|done]).
    unfold obs_at; simpl. by rewrite Hobs. }
  destruct (decide (t = s)) as [->|Hts].
  - rewrite (obs_at_cons node'), Hs, Hc.
    destruct (decide (q = p)) as [->|Hq].
    + destruct ok; [by rewrite !decide_True|].
      rewrite !decide_False by naive_solver. done.
    + rewrite (decide_False (P := ok = true ∧ q = p)), (decide_False (P := ok = true ∧ s :: q = s :: p))
        by naive_solver.
      destruct (decide (q `prefix_of` p)) as [Hpre|Hpre].
      * rewrite !decide_True by (split; [|naive_solver]; done || by apply prefix_cons). done.
      * rewrite !decide_False by (intros [H%prefix_cons_inv_2 ?] || intros [H ?]; done). done.
  - rewrite (obs_at_cons node'), Hoth, <- obs_at_cons by done.
    rewrite !decide_False; [done| |naive_solver].
    intros [H%prefix_cons_inv_1 _]. done.
Qed.

Lemma registered_cons node s p :
  registered node (s :: p) = match child node s with Some c => registered c p | None => false end.
Proof. unfold registered. simpl. by destruct (child node s). Qed.

(** Writing the child back under a segment that is not match-all. *)
Definition set_child node (key : string) (c : Node B) : Node B :=
  if IsPathVariableOrWildcard key then set_PathVariableNode node (Some c)
  else if IsMatchAll key then set_MatchAllNode node (Some c)
  else child_store node key c.

Lemma set_child_child node key c s :
  child (set_child node key c) s = if decide (s = seg_of key) then Some c else child node s.
Proof.
  unfold set_child. destruct (seg_of_cases key) as [[Hv Hk]|[(Hv & Ha & Hk)|(Hv & Ha & Hk)]];
    rewrite Hv, Hk, ?Ha.
  - apply set_PathVariableNode_same.
  - destruct s; by case_decide.
  - apply child_store_same.
Qed.

Lemma set_child_obs node key c : obs (set_child node key c) = obs node.
Proof. unfold set_child. by repeat case_match. Qed.

Lemma internalPut_cons node key childKeys biz n1 :
  put (set_children node (Some (default ∅ (children node)))) key
    (bool_decide (childKeys = [])) biz = (n1, true) →
  ∀ c, child n1 (seg_of key) = Some c →
  internalPut node (key :: childKeys) biz =
    if decide (seg_of key = SAll) then (n1, true)
    else (set_child n1 key (internalPut c childKeys biz).1, (internalPut c childKeys biz).2).
Proof.
  intros Hput c Hc. cbn [internalPut]. rewrite Hput. cbn [negb].
  unfold set_child. destruct (seg_of_cases key) as [[Hv Hk]|[(Hv & Ha & Hk)|(Hv & Ha & Hk)]];
    rewrite Hv, ?Ha; rewrite Hk in *; cbn [child] in Hc.
  - rewrite Hc. by destruct (internalPut c childKeys biz).
  - by rewrite decide_True.
  - rewrite Hc. by destruct (internalPut c childKeys biz).
Qed.

Lemma internalPut_refused node key childKeys biz n1 :
  put (set_children node (Some (default ∅ (children node)))) key
    (bool_decide (childKeys = [])) biz = (n1, false) →
  internalPut node (key :: childKeys) biz = (n1, false).
Proof. intros Hput. cbn [internalPut]. by rewrite Hput. Qed.

Lemma wf_pattern_cons s p :
  wf_pattern (s :: p) = true → wf_pattern p = true ∧ (s = SAll → p = []).
Proof. destruct p as [|t p], s; simpl; naive_solver. Qed.

(** The step lemma for a child that keeps what was below it: [c] is the child
    after the put, [c0] what is written back. *)
Section one_level.
Context (node n1 c : Node B) (key : string) (biz : B).
Let old := child node (seg_of key).
Context (Hobs : obs n1 = obs node)
  (Hoth : ∀ t, t ≠ seg_of key → child n1 t = child node t)
  (Hc : child n1 (seg_of key) = Some c)
  (Hcc : ∀ s, child c s = match old with Some o => child o s | None => None end).

Lemma below_obs q : q ≠ [] → obs_at c q = obs_at node (seg_of key :: q).
Proof.
  destruct q as [|t q]; [done|]. intros _. rewrite !obs_at_cons, Hcc. unfold old.
  destruct (child node (seg_of key)); [|done]. by rewrite obs_at_cons.
Qed.

Lemma below_registered p :
  p ≠ [] → registered c p = registered node (seg_of key :: p).
Proof.
  destruct p as [|t p]; [done|]. intros _. rewrite !registered_cons, Hcc. unfold old.
  destruct (child node (seg_of key)); [|done]. by rewrite registered_cons.
Qed.

Lemma below_all_end : all_end node → all_end c.
Proof.
  intros Hall [|t q] n Hq Hn; [done|]. simpl in Hq. rewrite Hcc in Hq. unfold old in *.
  destruct (child node (seg_of key)) as [o|] eqn:Eo; [|done].
  by apply (all_end_child _ _ _ Hall Eo (t :: q)).
Qed.

Lemma write_back_obs p ok c0 :
  (∀ q, obs_at c0 q = below_put node (seg_of key) p ok biz q) →
  ∀ q, obs_at (set_child n1 key c0) q = put_obs node (seg_of key :: p) ok biz q.
Proof.
  intros H. apply (put_obs_step node _ _ _ c0); [by rewrite set_child_obs| | |done].
  - intros t Ht. rewrite set_child_child, decide_False by done. auto.
  - by rewrite set_child_child, decide_True.
Qed.

Lemma leaf_obs c0 :
  obs c0 = (true, Some biz) → same_children c0 c →
  ∀ q, obs_at c0 q = below_put node (seg_of key) [] true biz q.
Proof.
  intros H0 Hs [|t q]; unfold below_put; [unfold obs_at; simpl; by rewrite H0|].
  rewrite !decide_False by (intros [H1 H2]; first [done|apply prefix_nil_inv in H1; done]).
  unfold obs_at. rewrite (same_children_at _ c) by done. by apply below_obs.
Qed.

Lemma inner_obs p ok r :
  p ≠ [] → obs c = default (false, None) (obs <$> old) →
  (∀ q, obs_at r q = put_obs c p ok biz q) →
  ∀ q, obs_at r q = below_put node (seg_of key) p ok biz q.
Proof.
  intros Hp Hco H q. rewrite H. unfold put_obs, below_put. destruct q as [|t q]; [|by rewrite below_obs].
  rewrite !(decide_False (P := _ ∧ [] = p)) by naive_solver.
  rewrite !decide_True by (split; [apply prefix_nil|done]).
  unfold obs_at at 1. simpl. rewrite Hco, obs_at_cons. unfold old.
  by destruct (child node (seg_of key)).
Qed.
End one_level.

Lemma refused_obs node n1 key o biz :
  obs n1 = obs node → same_children n1 node → child node (seg_of key) = Some o →
  ∀ q, obs_at n1 q = put_obs node [seg_of key] false biz q.
Proof.
  intros Hobs Hs Ho. apply (put_obs_step node n1 _ _ o); [done|auto|by rewrite Hs|].
  intros q. unfold below_put. rewrite obs_at_cons, Ho, !decide_False by
    (intros [H1 H2]; first [done|apply prefix_nil_inv in H1; done]). done.
Qed.

Lemma accepted_not_registered node key :
  negb (match child node (seg_of key) with Some o => endOfPath o && true | None => false end) = true →
  registered node [seg_of key] = false.
Proof.
  rewrite registered_cons. unfold registered; simpl.
  destruct (child node (seg_of key)) as [o|]; [|done]. by destruct (endOfPath o).
Qed.

Lemma internalPut_spec node keys biz :
  keys ≠ [] → wf_pattern (pattern_of keys) = true → all_end node →
  (internalPut node keys biz).2 = negb (registered node (pattern_of keys)) ∧
  ∀ q, obs_at (internalPut node keys biz).1 q =
         put_obs node (pattern_of keys) (internalPut node keys biz).2 biz q.
Proof.
  revert node. induction keys as [|key keys IH]; intros node; [done|]. intros _ Hwf Hall.
  change (pattern_of (key :: keys)) with (seg_of key :: pattern_of keys) in *.
  apply wf_pattern_cons in Hwf as [Hwf Hlast].
  pose proof (init_children_same node) as Hsame.
  destruct (put_spec (set_children node (Some (default ∅ (children node)))) key
    (bool_decide (keys = [])) biz) as (Hok & Hobs & Hoth & Hput).
  { intros Hs. split; [apply bool_decide_eq_true; by apply Hlast, fmap_nil_inv in Hs|].
    intros o Ho. apply (Hall [SAll]); [|done]. simpl in *. by rewrite Ho. }
  destruct (put _ key (bool_decide (keys = [])) biz) as [n1 ok] eqn:Eput. cbn [fst snd] in *.
  unfold conflict in Hok. rewrite Hsame in Hok. destruct ok.
  - destruct (Hput eq_refl) as (c & Hc & Hcc & Hcobs). rewrite !Hsame in Hcobs.
    rewrite (Hsame (seg_of key)) in Hcc.
    rewrite (internalPut_cons _ _ _ _ n1 Eput c Hc).
    assert (∀ t, t ≠ seg_of key → child n1 t = child node t) as Hoth'.
    { intros t Ht. by rewrite Hoth, Hsame by auto. }
    destruct keys as [|key' keys].
    + rewrite bool_decide_eq_true_2 in * by done. cbn [pattern_of map].
      rewrite accepted_not_registered by done. case_decide as Hs; (split; [done|]); cbn [fst snd].
      * apply (put_obs_step node n1 _ _ c); [done..|]. by eapply leaf_obs.
      * eapply write_back_obs; [done..|]. eapply leaf_obs; [done| |apply init_children_same].
        unfold obs in *; simpl. congruence.
    + rewrite bool_decide_eq_false_2 in * by done.
      rewrite decide_False by (intros Hs; by apply Hlast in Hs).
      destruct (IH c ltac:(done) Hwf) as [IHok IHobs]; [by eapply below_all_end|].
      cbn [fst snd]. split; [by rewrite IHok, (below_registered node c key)|].
      eapply write_back_obs; [done..|]. by eapply inner_obs.
  - rewrite (internalPut_refused _ _ _ _ n1 Eput). cbn [fst snd].
    destruct (child node (seg_of key)) as [o|] eqn:Eo; [|done].
    destruct (endOfPath o) eqn:Ee; [|done]. destruct (bool_decide (keys = [])) eqn:Ek; [|done].
    apply bool_decide_eq_true in Ek as ->. split.
    + rewrite registered_cons, Eo. unfold registered; simpl. by rewrite Ee.
    + eapply refused_obs; [done| |done]. intros t. by rewrite Hoth, Hsame by auto.
Qed.

(** What well-formed puts keep: an end of path carries business info, and a
    match-all node is an end of path. *)
Definition wf_node node : Prop :=
  ∀ p e b, p ≠ [] → obs_at node p = Some (e, b) →
    (e = true → is_Some b) ∧ (ends_all p = true → e = true).

Lemma wf_node_all_end node : wf_node node → all_end node.
Proof.
  intros H q n Hq Hn. destruct q as [|t q]; [done|].
  apply (H (t :: q) (endOfPath n) (bizInfo n)); [done| |done].
  unfold obs_at. by rewrite Hq.
Qed.

Lemma wf_emptyNode : wf_node emptyNode.
Proof. intros [|t p] e b Hp; [done|]. rewrite obs_at_cons. by destruct t. Qed.

Lemma view_obs node p :
  view node p =
    match obs_at node p with
    | Some (e, b) => if ends_all p || e then b else None
    | None => None
    end.
Proof. unfold view, candidate_at, obs_at. destruct (node_at node p) as [n|]; simpl; [|done]. by destruct (ends_all p || endOfPath n). Qed.

Lemma view_emptyNode p : p ≠ [] → view emptyNode p = None.
Proof. destruct p as [|t p]; [done|]. intros _. rewrite view_obs, obs_at_cons. by destruct t. Qed.

Lemma wf_pattern_prefix p q :
  wf_pattern p = true → q `prefix_of` p → q ≠ p → ends_all q = false.
Proof.
  revert p. induction q as [|s q IH]; intros p Hwf Hpre Hne; [done|].
  destruct p as [|t p]; [by apply prefix_nil_not in Hpre|].
  pose proof (prefix_cons_inv_1 _ _ _ _ Hpre) as ->.
  apply prefix_cons_inv_2 in Hpre. apply wf_pattern_cons in Hwf as [Hwf Hlast].
  destruct q as [|s' q].
  - destruct p as [|t' p]; [done|]. unfold ends_all; simpl.
    destruct t; try done. by specialize (Hlast eq_refl).
  - rewrite ends_all_cons by done. apply (IH p); naive_solver.
Qed.

Lemma registered_view node p :
  wf_node node → p ≠ [] → registered node p = bool_decide (is_Some (view node p)).
Proof.
  intros Hwf Hp. rewrite view_obs. unfold registered.
  specialize (Hwf p). unfold obs_at in *. destruct (node_at node p) as [n|]; simpl in *.
  - destruct (Hwf _ _ Hp eq_refl) as [Hb He]. destruct (endOfPath n) eqn:E.
    + rewrite orb_true_r. by rewrite bool_decide_eq_true_2 by auto.
    + destruct (ends_all p); [by specialize (He eq_refl)|done].
  - done.
Qed.

(** A put of a well-formed pattern inserts it when it is absent and otherwise
    changes nothing. *)
Lemma internalPut_view node keys biz :
  keys ≠ [] → wf_pattern (pattern_of keys) = true → wf_node node →
  (internalPut node keys biz).2 = bool_decide (view node (pattern_of keys) = None) ∧
  wf_node (internalPut node keys biz).1 ∧
  ∀ q, q ≠ [] →
    view (internalPut node keys biz).1 q =
      if decide (q = pattern_of keys)
      then Some (default biz (view node (pattern_of keys))) else view node q.
Proof.
  intros Hk Hp Hwf. set (p := pattern_of keys) in *.
  assert (p ≠ []) as Hp0 by (by destruct keys).
  destruct (internalPut_spec node keys biz Hk Hp (wf_node_all_end _ Hwf)) as [Hok Hobs].
  fold p in Hok, Hobs. rewrite (registered_view _ _ Hwf Hp0) in Hok.
  set (r := internalPut node keys biz) in *. split; [|split].
  - rewrite Hok. destruct (view node p); [|done]. by rewrite bool_decide_eq_true_2.
  - intros q e b Hq He. rewrite Hobs in He. unfold put_obs in He. case_decide as H1; [naive_solver|].
    case_decide as H2; [|by apply (Hwf q)]. simplify_eq. destruct H2 as [Hpre Hne].
    rewrite (wf_pattern_prefix p q) by done. split; [|done].
    destruct (obs_at node q) as [[e' b']|] eqn:E; simplify_eq/=; [|done].
    by apply (Hwf q).
  - intros q Hq. rewrite view_obs, Hobs. unfold put_obs.
    destruct (decide (q = p)) as [->|Hne].
    + destruct (view node p) as [b|] eqn:E.
      * rewrite !decide_False by (rewrite ?Hok; naive_solver). rewrite view_obs in E. by rewrite E.
      * rewrite decide_True by (rewrite Hok; naive_solver). by rewrite orb_true_r.
    + rewrite decide_False by naive_solver. case_decide as H2; [|by rewrite view_obs].
      rewrite view_obs. destruct H2 as [Hpre _]. rewrite (wf_pattern_prefix p q) by done.
      by destruct (obs_at node q) as [[[] b]|].
Qed.

(** *** A match returns what the map holds *)

Lemma candidate_at_view node p n b :
  candidate_at node p = Some n → bizInfo n = Some b → view node p = Some b.
Proof. unfold view. by intros ->. Qed.

Lemma candidate_at_wf node p n :
  wf_node node → p ≠ [] → candidate_at node p = Some n → is_Some (bizInfo n).
Proof.
  intros Hwf Hp. unfold candidate_at. destruct (node_at node p) as [m|] eqn:E; [|done].
  intros ?. destruct (Hwf p (endOfPath m) (bizInfo m)) as [Hb He]; [done|by unfold obs_at; rewrite E|].
  go_cases. apply Hb. destruct (ends_all p); naive_solver.
Qed.

(** Looking a request up, with a test [f] on the business info. *)
Definition map_lookup (m : list seg → option B) (f : B → bool) (parts : list string)
    : option (B * list string) :=
  first_some (λ '(p, vs),
    match m p with
    | Some b => if f b then Some (b, vs) else None
    | None => None
    end) (candidate_patterns parts).

Definition biz_predicate (f : B → bool) (n : Node B) : bool :=
  match bizInfo n with Some b => f b | None => true end.

Lemma node_match_view node parts f :
  wf_node node → parts ≠ [] →
  (λ '(n, vs), (bizInfo n, vs)) <$> node_match node parts (Some (biz_predicate f)) =
    (λ '(b, vs), (Some b, vs)) <$> map_lookup (view node) f parts.
Proof.
  intros Hwf Hparts. rewrite node_match_spec by done. unfold map_lookup.
  rewrite <- !first_some_fmap. apply first_some_ext. intros [p vs] Hc.
  apply candidate_patterns_not_nil in Hc. simpl in Hc.
  unfold try_pattern, view; simpl. destruct (candidate_at node p) as [n|] eqn:E; [|done].
  destruct (candidate_at_wf _ _ _ Hwf Hc E) as [b Hb].
  unfold biz_predicate. rewrite Hb. by destruct (f b); simpl; rewrite ?Hb.
Qed.

(** *** Removing clears the flag of one node *)

Lemma alter_at_obs f node keys q :
  (∀ n s, child (f n) s = child n s) → keys ≠ [] →
  obs_at (alter_at f node keys) q =
    if decide (q = pattern_of keys) then (λ n, obs (f n)) <$> node_at node q else obs_at node q.
Proof.
  intros Hf. revert node q. induction keys as [|key keys IH]; intros node q; [done|]. intros _.
  assert (alter_at f node (key :: keys) =
    match child node (seg_of key) with
    | Some c => set_child node key (alter_at f c keys)
    | None => node
    end) as ->.
  { unfold set_child. destruct (seg_of_cases key) as [[Hv Hk]|[(Hv & Ha & Hk)|(Hv & Ha & Hk)]];
      cbn [alter_at]; rewrite Hv, ?Ha, Hk; done. }
  change (pattern_of (key :: keys)) with (seg_of key :: pattern_of keys).
  destruct (child node (seg_of key)) as [c|] eqn:Ec.
  2:{ case_decide as Hq; [|done]. subst. rewrite obs_at_cons. simpl. by rewrite Ec. }
  destruct q as [|t q].
  { rewrite decide_False by done. unfold obs_at; simpl. by rewrite set_child_obs. }
  rewrite (obs_at_cons (set_child _ _ _)), set_child_child. simpl.
  destruct (decide (t = seg_of key)) as [->|Ht].
  - rewrite Ec. destruct keys as [|key' keys].
    + cbn [alter_at pattern_of map]. destruct q as [|t q].
      * by rewrite decide_True.
      * rewrite decide_False by naive_solver. rewrite (obs_at_cons node), Ec, !obs_at_cons.
        by rewrite Hf.
    + rewrite IH by done. destruct (decide (q = pattern_of (key' :: keys))) as [->|Hne].
      * by rewrite decide_True.
      * rewrite decide_False by naive_solver. by rewrite (obs_at_cons node), Ec.
  - rewrite decide_False by naive_solver. by rewrite obs_at_cons.
Qed.

Lemma node_Get_spec node keys :
  keys ≠ [] → wf_pattern (pattern_of keys) = true →
  ∃ ret ps ok, node_Get node keys = Ok (ret, ps, ok) ∧
    (ret = node_at node (pattern_of keys) ∨
     ret = None ∧ registered node (pattern_of keys) = false).
Proof.
  revert node. induction keys as [|key keys IH]; intros node; [done|]. intros _ Hwf.
  change (pattern_of (key :: keys)) with (seg_of key :: pattern_of keys) in *.
  apply wf_pattern_cons in Hwf as [Hwf Hlast]. rewrite registered_cons. simpl.
  destruct (seg_of_cases key) as [[Hv Hk]|[(Hv & Ha & Hk)|(Hv & Ha & Hk)]];
    rewrite Hv, ?Ha, Hk; cbn [child].
  - destruct keys as [|key' keys].
    + unfold registered; simpl. destruct (PathVariableNode node) as [v|]; [|naive_solver].
      destruct (endOfPath v); naive_solver.
    + destruct (PathVariableNode node) as [v|]; [|naive_solver].
      destruct (IH v ltac:(done) Hwf) as (ret & ps & ok & -> & H). eauto.
  - specialize (Hlast Hk). apply fmap_nil_inv in Hlast as ->. simpl.
    do 3 eexists. split; [done|]. left. by destruct (MatchAllNode node).
  - destruct keys as [|key' keys].
    + unfold child_lookup. simpl. destruct (children node) as [m|]; [|naive_solver].
      do 3 eexists. split; [done|]. left. by destruct (m !! key).
    + destruct (child_lookup node key) as [c|]; [|naive_solver]. by apply IH.
Qed.

End patterns.

(** ** The trie refines a finite map *)

Lemma Split_not_nil path : Split path ≠ [].
Proof. apply Strings.SplitByte_not_nil. Qed.

Section refinement.
Context {B : Type}.
Implicit Types (t : Trie B) (path : string).

Definition trie_wf t : Prop := wf_node (root t).
Definition trie_map t (p : list seg) : option B := view (root t) p.
Definition path_pattern path : list seg := pattern_of (Split path).

Lemma path_pattern_not_nil path : path_pattern path ≠ [].
Proof. unfold path_pattern. pose proof (Split_not_nil path). by destruct (Split path). Qed.

Lemma NewTrie_wf : trie_wf (NewTrie (B := B)).
Proof. apply wf_emptyNode. Qed.

Lemma Put_map t path b :
  trie_wf t → wf_pattern (path_pattern path) = true →
  (Put t path (Some b)).2 = Ok (bool_decide (trie_map t (path_pattern path) = None)) ∧
  trie_wf (Put t path (Some b)).1 ∧
  ∀ q, q ≠ [] →
    trie_map (Put t path (Some b)).1 q =
      if decide (q = path_pattern path)
      then Some (default b (trie_map t (path_pattern path))) else trie_map t q.
Proof.
  intros Hwf Hp. unfold Put, trie_map, trie_wf.
  destruct (internalPut_view (root t) (Split path) b) as (Hok & Hwf' & Hv);
    [apply Split_not_nil|done..|].
  destruct (internalPut (root t) (Split path) b) as [n ok]. simpl in *. by rewrite Hok.
Qed.

Lemma Remove_spec t path :
  wf_pattern (path_pattern path) = true →
  (∃ n, (Remove t path).2 = Ok n) ∧
  ∀ q, obs_at (root (Remove t path).1) q =
    if decide (q = path_pattern path)
    then (λ '(e, b), (false, b)) <$> obs_at (root t) q else obs_at (root t) q.
Proof.
  intros Hp. unfold Remove, Get.
  destruct (node_Get_spec (root t) (Split path) (Split_not_nil path) Hp)
    as (ret & ps & ok & -> & Hret). fold (path_pattern path) in Hret.
  destruct ret as [n|]; simpl; (split; [by eexists|]); intros q.
  - rewrite alter_at_obs by (done || apply Split_not_nil). unfold path_pattern.
    case_decide; [|done]. unfold obs_at. by destruct (node_at (root t) q).
  - case_decide as Hq; [subst|done]. unfold obs_at, registered in *.
    destruct Hret as [<-|[_ Hr]]; [done|].
    destruct (node_at (root t) (path_pattern path)) as [m|]; [|done]. simpl.
    unfold obs. by rewrite Hr.
Qed.

End refinement.

(** ** Properties *)

(** C7: matching a request against the trie, with its backtracking over literal,
    parameter and match-all children, returns the first node accepted by the
    predicate in the fixed priority order of the patterns that match the request
    (literal before parameter before match-all, leftmost segment first), with
    the values of the parameters from left to right. *)
Theorem match_is_priority_search {B} (t : Trie B) (path : string) predicate :
  MatchWithPredicate t path predicate =
    (λ '(n, vs), (n, reverse vs)) <$>
      first_some (try_pattern (root t) predicate)
        (candidate_patterns (Split (Strings.CutBefore qmark path))).
Proof.
  unfold MatchWithPredicate. cbv zeta. by rewrite node_match_spec by apply Split_not_nil.
Qed.

(** [Put] is insertion into the finite map of patterns: it reports whether the
    pattern was free, stores the info under it in that case, keeps the first
    info otherwise, and leaves every other pattern alone; parameter names do
    not matter. *)
Theorem put_refines_insert {B} (t : Trie B) (path : string) (b : B) :
  trie_wf t → wf_pattern (path_pattern path) = true →
  (Put t path (Some b)).2 = Ok (bool_decide (trie_map t (path_pattern path) = None)) ∧
  trie_wf (Put t path (Some b)).1 ∧
  ∀ q, q ≠ [] →
    trie_map (Put t path (Some b)).1 q =
      if decide (q = path_pattern path)
      then Some (default b (trie_map t (path_pattern path))) else trie_map t q.
Proof. apply Put_map. Qed.

Lemma put_refines_insert_witness :
  (Put NewTrie "GET/user/:id" (Some 7)).2 = Ok true ∧
  trie_map (Put NewTrie "GET/user/:id" (Some 7)).1 [SLit "GET"; SLit "user"; SVar] = Some 7.
Proof.
  destruct (put_refines_insert NewTrie "GET/user/:id" 7 NewTrie_wf eq_refl) as (H1 & _ & H3).
  split; [exact H1|]. rewrite H3 by discriminate. reflexivity.
Defined.

(** [Remove] takes the pattern of its path out of the map and touches no other
    pattern, unless the pattern ends with [**]: then nothing changes, because a
    match-all node is returned by a match whatever its end-of-path flag says. *)
Theorem remove_spares_match_all {B} (t : Trie B) (path : string) (q : list seg) :
  wf_pattern (path_pattern path) = true →
  trie_map (Remove t path).1 q =
    if decide (q = path_pattern path ∧ ends_all q = false) then None else trie_map t q.
Proof.
  intros Hp. destruct (Remove_spec t path Hp) as [_ Hobs]. unfold trie_map.
  rewrite !view_obs, Hobs. destruct (decide (q = path_pattern path)) as [Hq|Hq].
  - destruct (obs_at (root t) q) as [[e b]|]; simpl; [|by case_decide].
    destruct (ends_all q) eqn:E; simpl.
    + by rewrite decide_False by naive_solver.
    + by rewrite decide_True.
  - by rewrite decide_False by naive_solver.
Qed.

(** The removed [GET/files/**] is still found. *)
Lemma remove_spares_match_all_witness :
  let t := (Put NewTrie "GET/files/**" (Some 7)).1 in
  trie_map (Remove t "GET/files/**").1 [SLit "GET"; SLit "files"; SAll] = Some 7.
Proof.
  cbv zeta. rewrite (remove_spares_match_all _ "GET/files/**") by reflexivity.
  vm_compute. reflexivity.
Defined.

Lemma Remove_wf {B} (t : Trie B) path :
  trie_wf t → wf_pattern (path_pattern path) = true → ends_all (path_pattern path) = false →
  trie_wf (Remove t path).1.
Proof.
  intros Hwf Hp He q e b Hq. destruct (Remove_spec t path Hp) as [_ ->].
  case_decide; [subst|by apply Hwf]. rewrite He.
  destruct (obs_at (root t) (path_pattern path)) as [[e' b']|]; naive_solver.
Qed.

(** On a path that does not end with [**], [PutOrUpdate] always succeeds and
    overwrites: afterwards the pattern maps to the new info, whatever it mapped
    to before, and every other pattern is unchanged. *)
Theorem put_or_update_overwrites {B} (t : Trie B) (path : string) (b : B) :
  trie_wf t → wf_pattern (path_pattern path) = true → ends_all (path_pattern path) = false →
  (PutOrUpdate t path (Some b)).2 = Ok true ∧
  trie_wf (PutOrUpdate t path (Some b)).1 ∧
  ∀ q, q ≠ [] →
    trie_map (PutOrUpdate t path (Some b)).1 q =
      if decide (q = path_pattern path) then Some b else trie_map t q.
Proof.
  intros Hwf Hp He.
  assert (PutOrUpdate t path (Some b) = Put (Remove t path).1 path (Some b)) as -> by done.
  assert (∀ q, trie_map (Remove t path).1 q =
    if decide (q = path_pattern path) then None else trie_map t q) as Hrm.
  { intros q. destruct (Remove_spec t path Hp) as [_ Hobs]. unfold trie_map.
    rewrite !view_obs, Hobs. case_decide; [subst; rewrite He|done].
    by destruct (obs_at (root t) _) as [[? ?]|]. }
  destruct (Put_map (Remove t path).1 path b) as (Hok & Hwf' & Hv); [by apply Remove_wf|done|].
  rewrite Hok, Hrm, decide_True by done. split_and!; [done|done|].
  intros q Hq. rewrite Hv by done. rewrite !Hrm, (decide_True (P := path_pattern path = _)) by done.
  by case_decide.
Qed.

Lemma put_or_update_overwrites_witness :
  let t := (Put NewTrie "GET/a/:x" (Some 1)).1 in
  (PutOrUpdate t "GET/a/:y" (Some 2)).2 = Ok true ∧
  trie_map (PutOrUpdate t "GET/a/:y" (Some 2)).1 [SLit "GET"; SLit "a"; SVar] = Some 2.
Proof.
  cbv zeta. assert (trie_wf (Put NewTrie "GET/a/:x" (Some 1)).1) as Hwf
    by (apply Put_map; [apply NewTrie_wf|reflexivity]).
  destruct (put_or_update_overwrites (Put NewTrie "GET/a/:x" (Some 1)).1 "GET/a/:y" 2 Hwf eq_refl eq_refl)
    as (H1 & _ & H3).
  split; [exact H1|]. rewrite H3 by discriminate. reflexivity.
Defined.
