(* ===== verification/GoHttp.v ===== *)
(** * The part of [net/http] the gateway's routing reads

    A request is its method, its URL path and its header; the header is a map
    from canonical keys to the list of their values. *)

From S2P Require Import Prelude GoStrings.

Definition byte_between (lo hi : N) (a : ascii) : bool :=
  let n := N_of_ascii a in ((lo <=? n) && (n <=? hi))%N.

Definition is_lower (a : ascii) : bool := byte_between 97 122 a.
Definition is_upper (a : ascii) : bool := byte_between 65 90 a.
Definition is_digit (a : ascii) : bool := byte_between 48 57 a.
Definition to_upper (a : ascii) : ascii :=
  if is_lower a then ascii_of_N (N_of_ascii a - 32) else a.
Definition to_lower (a : ascii) : ascii :=
  if is_upper a then ascii_of_N (N_of_ascii a + 32) else a.

(** [validHeaderFieldByte]: the token characters of RFC 7230 *)
Definition token_marks : string := "!#$%&'*+-.^_`|~".
Definition validHeaderFieldByte (a : ascii) : bool :=
  is_lower a || is_upper a || is_digit a || Strings.HasByte a token_marks.

Fixpoint all_bytes (f : ascii → bool) (s : string) : bool :=
  match s with
  | EmptyString => true
  | String a s => f a && all_bytes f s
  end.

Fixpoint canonicalize (upper : bool) (s : string) : string :=
  match s with
  | EmptyString => EmptyString
  | String a s =>
      let a := if upper then to_upper a else to_lower a in
      String a (canonicalize (bool_decide (a = "-"%char)) s)
  end.

(** [textproto.CanonicalMIMEHeaderKey]: a key with a byte that no header field
    name has is left as it is. *)
Definition CanonicalMIMEHeaderKey (s : string) : string :=
  if all_bytes validHeaderFieldByte s then canonicalize true s else s.

Definition Header : Type := gmap string (list string).

(** [Header.Get] *)
Definition Header_Get (h : Header) (key : string) : string :=
  match h !! CanonicalMIMEHeaderKey key with
  | Some (v :: _) => v
  | _ => ""
  end.

Record Request : Type := mkRequest {
  req_Method : string;
  req_Path : string;
  req_Header : Header;
}.

Example canonical_key : CanonicalMIMEHeaderKey "x-ENV-id" = "X-Env-Id".
Proof. reflexivity. Qed.
