(* ===== verification/RouteModel.v ===== *)
(** * Routes and their snapshot, [pkg/model/router.go] and
      [pkg/model/router_snapshot.go]

    Regular expressions are a parameter: a type, [regexp.Compile] and
    [MatchString].  The snapshot's tries hold pointers to candidate lists that
    are filled after the pointers have been stored; the heap of these lists is
    explicit, and a pointer is the route identity it was allocated for, since
    the source allocates one list per identity. *)

From S2P Require Import Prelude GoStrings GoHttp Trie.
Import stringutil.

(** ** Data *)

Record RouteAction : Type := mkRouteAction {
  Cluster : string;
  ClusterNotFoundResponseCode : Z;
}.

Record HeaderMatcher (regexp : Type) : Type := mkHeaderMatcher {
  hm_Name : string;
  hm_Values : list string;
  hm_Regex : bool;
  hm_valueRE : option regexp;
}.
Arguments mkHeaderMatcher {regexp} _ _ _ _.
Arguments hm_Name {regexp} _.
Arguments hm_Values {regexp} _.
Arguments hm_Regex {regexp} _.
Arguments hm_valueRE {regexp} _.

Record RouterMatch (regexp : Type) : Type := mkRouterMatch {
  Prefix : string;
  Path : string;
  Methods : list string;
  Headers : list (HeaderMatcher regexp);
}.
Arguments mkRouterMatch {regexp} _ _ _ _.
Arguments Prefix {regexp} _.
Arguments Path {regexp} _.
Arguments Methods {regexp} _.
Arguments Headers {regexp} _.

Record Router (regexp : Type) : Type := mkRouter {
  ID : string;
  RMatch : RouterMatch regexp;
  Route : RouteAction;
}.
Arguments mkRouter {regexp} _ _ _.
Arguments ID {regexp} _.
Arguments RMatch {regexp} _.
Arguments Route {regexp} _.

Record CompiledHeader (regexp : Type) : Type := mkCompiledHeader {
  ch_Name : string;
  ch_Regex : option regexp;
  ch_Values : list string;
}.
Arguments mkCompiledHeader {regexp} _ _ _.
Arguments ch_Name {regexp} _.
Arguments ch_Regex {regexp} _.
Arguments ch_Values {regexp} _.

Record HeaderRoute (regexp : Type) : Type := mkHeaderRoute {
  hr_Methods : list string;
  hr_Headers : list (CompiledHeader regexp);
  hr_Action : RouteAction;
}.
Arguments mkHeaderRoute {regexp} _ _ _.
Arguments hr_Methods {regexp} _.
Arguments hr_Headers {regexp} _.
Arguments hr_Action {regexp} _.

Record RouteCandidate (regexp : Type) : Type := mkRouteCandidate {
  rc_Headers : list (CompiledHeader regexp);
  rc_Action : RouteAction;
}.
Arguments mkRouteCandidate {regexp} _ _.
Arguments rc_Headers {regexp} _.
Arguments rc_Action {regexp} _.

(** [First] is meaningful when [Count] is not zero. *)
Record RouteCandidates (regexp : Type) : Type := mkRouteCandidates {
  First : option (RouteCandidate regexp);
  Additional : list (RouteCandidate regexp);
  Count : nat;
}.
Arguments mkRouteCandidates {regexp} _ _ _.
Arguments First {regexp} _.
Arguments Additional {regexp} _.
Arguments Count {regexp} _.

(** What [bizInfo] holds in the tries of the gateway: a pointer to candidates,
    a route action, or a value of any other type. *)
Inductive BizInfo : Type :=
  | BizCandidates (ptr : string)
  | BizAction (a : RouteAction)
  | BizOther.

Record RouteSnapshot (regexp : Type) : Type := mkRouteSnapshot {
  MethodTries : gmap string (Trie BizInfo);
  HeaderOnly : list (HeaderRoute regexp);
  CandidateHeap : gmap string (RouteCandidates regexp);
}.
Arguments mkRouteSnapshot {regexp} _ _ _.
Arguments MethodTries {regexp} _.
Arguments HeaderOnly {regexp} _.
Arguments CandidateHeap {regexp} _.

Definition constMethods : list string :=
  ["GET"; "POST"; "PUT"; "DELETE"; "PATCH"; "OPTIONS"; "HEAD"].

Definition NewRouterMatchPrefix {regexp} (name : string) : RouterMatch regexp :=
  mkRouterMatch ("/" +:+ name +:+ "/") "" [] [].

(** ** Candidate lists *)

Section candidates.
Context {regexp : Type}.
Implicit Types (r : RouteCandidates regexp) (c : RouteCandidate regexp).

Definition emptyCandidates : RouteCandidates regexp := mkRouteCandidates None [] 0.

Definition Candidates_Add r c : RouteCandidates regexp :=
  if decide (Count r = 0) then mkRouteCandidates (Some c) (Additional r) 1
  else mkRouteCandidates (First r) (Additional r ++ [c]) (Count r + 1).

(** [ForEach] with the variables its callback captures as the state [S]; the
    callback says whether to go on. *)
Fixpoint each {S : Type} (fn : S → RouteCandidate regexp → S * bool) (s : S)
    (l : list (RouteCandidate regexp)) : S :=
  match l with
  | [] => s
  | c :: l => let '(s, go) := fn s c in if go then each fn s l else s
  end.

Definition ForEach {S : Type} (fn : S → RouteCandidate regexp → S * bool) (s : S) r : S :=
  match Count r, First r with
  | O, _ => s
  | _, None => s
  | _, Some first => let '(s, go) := fn s first in if go then each fn s (Additional r) else s
  end.

(** The candidates in the order [ForEach] visits them. *)
Definition candidate_list r : list (RouteCandidate regexp) :=
  match Count r, First r with
  | S _, Some first => first :: Additional r
  | _, _ => []
  end.

Lemma ForEach_each {S} (fn : S → RouteCandidate regexp → S * bool) s r :
  ForEach fn s r = each fn s (candidate_list r).
Proof. unfold ForEach, candidate_list. destruct (Count r), (First r); done. Qed.

(** [First] is set and [Additional] is empty exactly when the count says so. *)
Definition candidates_ok r : Prop :=
  Count r = length (candidate_list r) ∧ (Count r = 0 → Additional r = []).

Lemma Candidates_Add_list r c :
  candidates_ok r →
  candidate_list (Candidates_Add r c) = candidate_list r ++ [c] ∧ candidates_ok (Candidates_Add r c).
Proof.
  unfold candidates_ok, candidate_list, Candidates_Add. destruct r as [f a n]; simpl.
  intros [Hn Ha]. case_decide as E; subst; simpl.
  - rewrite Ha by done. done.
  - destruct n as [|n]; [done|]. simpl. destruct f; simpl in *; [|done].
    rewrite length_app. simpl. split; [done|]. split; [lia|done].
Qed.
End candidates.

Definition MethodAllowed (methods : list string) (m : string) : bool :=
  match methods with
  | [] => true
  | _ => existsb (λ x, bool_decide (x = "*") || bool_decide (x = m)) methods
  end.

(** ** Route identities *)

(** [s[:n]] *)
Fixpoint Take (n : nat) (s : string) : string :=
  match n, s with
  | S n, String a s => String a (Take n s)
  | _, _ => EmptyString
  end.

(** The scan of the slash-delimited segments of [key[start:]] for a parameter
    or a wildcard; every turn of the loop drops at least one byte, so the
    length of the key plus one is enough fuel ([scan_segments_spec]). *)
Fixpoint scan_segments (fuel : nat) (rest : string) : bool :=
  match fuel with
  | O => false
  | S fuel =>
      match Strings.IndexByte slash rest with
      | None => IsPathVariableOrWildcard rest
      | Some i =>
          if IsPathVariableOrWildcard (Take i rest) then true
          else scan_segments fuel (Strings.Drop (i + 1) rest)
      end
  end.

Definition normalize_segment (s : string) : string :=
  if IsPathVariableOrWildcard s then "*" else s.

Definition trieRouteIdentity (key : string) : string :=
  match Strings.IndexByte slash key with
  | None => key
  | Some firstSlash =>
      if scan_segments (S (String.length key)) (Strings.Drop (firstSlash + 1) key) then
        match Strings.SplitByte slash key with
        | [] => key
        | first :: parts => Strings.JoinByte slash (first :: map normalize_segment parts)
        end
      else key
  end.

Lemma IndexByte_split c s :
  match Strings.IndexByte c s with
  | None => Strings.SplitByte c s = [s]
  | Some i =>
      Strings.SplitByte c s = Take i s :: Strings.SplitByte c (Strings.Drop (i + 1) s) ∧
      String.length (Strings.Drop (i + 1) s) < String.length s
  end.
Proof.
  induction s as [|a s IH]; simpl; [done|]. case_decide as Ha; simpl; [split; [done|lia]|].
  destruct (Strings.IndexByte c s) as [i|]; simpl.
  - destruct IH as [-> IH]. split; [done|]. lia.
  - by rewrite IH.
Qed.

Lemma scan_segments_spec fuel rest :
  String.length rest < fuel →
  scan_segments fuel rest = existsb IsPathVariableOrWildcard (Strings.SplitByte slash rest).
Proof.
  revert rest. induction fuel as [|fuel IH]; intros rest Hf; [lia|]. simpl.
  pose proof (IndexByte_split slash rest) as Hs.
  destruct (Strings.IndexByte slash rest) as [i|].
  - destruct Hs as [-> Hlen]. simpl.
    destruct (IsPathVariableOrWildcard (Take i rest)); [done|]. apply IH. lia.
  - rewrite Hs. simpl. by rewrite orb_false_r.
Qed.

Lemma normalize_segment_id l :
  existsb IsPathVariableOrWildcard l = false → map normalize_segment l = l.
Proof.
  induction l as [|x l IH]; simpl; [done|]. intros [Hx Hl]%orb_false_iff.
  unfold normalize_segment at 1. rewrite Hx. by rewrite IH.
Qed.

(** The identity is the key with every segment after the first normalized,
    whether or not the scan allocates the normalized copy. *)
Lemma trieRouteIdentity_spec first segs :
  Forall (λ x, Strings.HasByte slash x = false) (first :: segs) →
  trieRouteIdentity (Strings.JoinByte slash (first :: segs)) =
    Strings.JoinByte slash (first :: map normalize_segment segs).
Proof.
  intros Hf. unfold trieRouteIdentity. set (key := Strings.JoinByte slash (first :: segs)).
  assert (Strings.SplitByte slash key = first :: segs) as Hsplit
    by (by apply Strings.SplitByte_JoinByte).
  pose proof (IndexByte_split slash key) as Hi.
  destruct (Strings.IndexByte slash key) as [i|].
  - destruct Hi as [Hi Hlen]. rewrite Hsplit in Hi. injection Hi as _ Hrest.
    rewrite scan_segments_spec, <- Hrest, Hsplit by lia.
    destruct (existsb _ _) eqn:E; [done|]. by rewrite normalize_segment_id.
  - rewrite Hsplit in Hi. injection Hi as _ Hsegs. unfold key. by rewrite Hsegs.
Qed.

(** ** Header matchers and the snapshot *)

Section snapshot.
Context {regexp : Type} (Compile : string → option regexp).
Implicit Types (h : HeaderMatcher regexp) (r : Router regexp) (cache : gmap string regexp).

(** [SetValueRegex] on the matcher's own first value disables the regular
    expression when it does not compile. *)
Definition SetValueRegex h (regex : string) : HeaderMatcher regexp :=
  match Compile regex with
  | Some re => mkHeaderMatcher (hm_Name h) (hm_Values h) (hm_Regex h) (Some re)
  | None => mkHeaderMatcher (hm_Name h) (hm_Values h) false (hm_valueRE h)
  end.

(** [regexCache] with [Load] and [LoadOrStore] *)
Definition getRegexpWithCache cache (pat : string) : gmap string regexp * option regexp :=
  match cache !! pat with
  | Some v => (cache, Some v)
  | None =>
      match Compile pat with
      | None => (cache, None)
      | Some re => (<[pat := re]> cache, Some re)
      end
  end.

Definition compileRegexHeader cache h : gmap string regexp * option (CompiledHeader regexp) :=
  match hm_valueRE h with
  | Some re => (cache, Some (mkCompiledHeader (hm_Name h) (Some re) []))
  | None =>
      match hm_Values h with
      | [] => (cache, Some (mkCompiledHeader (hm_Name h) None []))
      | v :: _ =>
          if decide (v = "") then (cache, Some (mkCompiledHeader (hm_Name h) None []))
          else
            match getRegexpWithCache cache v with
            | (cache, None) => (cache, None)
            | (cache, Some re) => (cache, Some (mkCompiledHeader (hm_Name h) (Some re) []))
            end
      end
  end.

(** The values are copied into a slab shared by the headers of one route, each
    into its own range ([headerValueCount_fits]). *)
Definition compileHeader cache h : gmap string regexp * option (CompiledHeader regexp) :=
  if hm_Regex h then compileRegexHeader cache h
  else (cache, Some (mkCompiledHeader (hm_Name h) None (hm_Values h))).

Definition headerValueCount (headers : list (HeaderMatcher regexp)) : nat :=
  foldl (λ count h, if hm_Regex h then count else count + length (hm_Values h)) 0 headers.

Fixpoint compileHeaders cache (headers : list (HeaderMatcher regexp))
    : gmap string regexp * list (CompiledHeader regexp) :=
  match headers with
  | [] => (cache, [])
  | h :: headers =>
      let '(cache, c) := compileHeader cache h in
      let '(cache, compiled) := compileHeaders cache headers in
      match c with
      | None => (cache, compiled)
      | Some c => (cache, c :: compiled)
      end
  end.

Definition header_only r : bool :=
  bool_decide (Path (RMatch r) = "") && bool_decide (Prefix (RMatch r) = "") &&
  match Headers (RMatch r) with [] => false | _ => true end.

Definition route_methods r : list string :=
  match Methods (RMatch r) with [] => constMethods | ms => ms end.

Definition route_key r (m : string) : string :=
  GetTrieKeyWithPrefix m (Path (RMatch r)) (Prefix (RMatch r))
    (negb (bool_decide (Prefix (RMatch r) = ""))).

(** One turn of the loop over the methods of a route. *)
Definition add_entry (headers : list (CompiledHeader regexp)) r (s : RouteSnapshot regexp) (m : string)
    : RouteSnapshot regexp :=
  let t := default NewTrie (MethodTries s !! m) in
  let key := route_key r m in
  let identity := trieRouteIdentity key in
  let candidates := default emptyCandidates (CandidateHeap s !! identity) in
  let t := (Put t key (Some (BizCandidates identity))).1 in
  let candidates := Candidates_Add candidates (mkRouteCandidate headers (Route r)) in
  mkRouteSnapshot (<[m := t]> (MethodTries s)) (HeaderOnly s) (<[identity := candidates]> (CandidateHeap s)).

(** One turn of the loop over the routes. *)
Definition add_route (st : gmap string regexp * RouteSnapshot regexp) r
    : gmap string regexp * RouteSnapshot regexp :=
  let '(cache, s) := st in
  let '(cache, headers) := compileHeaders cache (Headers (RMatch r)) in
  if header_only r then
    let hr := mkHeaderRoute (Methods (RMatch r)) headers (Route r) in
    (cache, mkRouteSnapshot (MethodTries s) (HeaderOnly s ++ [hr]) (CandidateHeap s))
  else (cache, foldl (add_entry headers r) s (route_methods r)).

Definition ToSnapshot cache (routes : list (Router regexp)) : gmap string regexp * RouteSnapshot regexp :=
  foldl add_route (cache, mkRouteSnapshot ∅ [] ∅) routes.

(** *** Compiling headers is a map, and the cache does not change it *)

Definition cache_ok cache : Prop := ∀ pat re, cache !! pat = Some re → Compile pat = Some re.

Definition compile_header h : option (CompiledHeader regexp) :=
  if hm_Regex h then
    match hm_valueRE h, hm_Values h with
    | Some re, _ => Some (mkCompiledHeader (hm_Name h) (Some re) [])
    | None, [] => Some (mkCompiledHeader (hm_Name h) None [])
    | None, v :: _ =>
        if decide (v = "") then Some (mkCompiledHeader (hm_Name h) None [])
        else (λ re, mkCompiledHeader (hm_Name h) (Some re) []) <$> Compile v
    end
  else Some (mkCompiledHeader (hm_Name h) None (hm_Values h)).

Definition compile_headers (hs : list (HeaderMatcher regexp)) : list (CompiledHeader regexp) :=
  omap compile_header hs.

Lemma getRegexpWithCache_spec cache pat :
  cache_ok cache →
  (getRegexpWithCache cache pat).2 = Compile pat ∧ cache_ok (getRegexpWithCache cache pat).1.
Proof.
  intros Hok. unfold getRegexpWithCache. destruct (cache !! pat) as [v|] eqn:E; simpl.
  - by rewrite (Hok _ _ E).
  - destruct (Compile pat) as [re|] eqn:Ec; simpl; [|done]. split; [done|].
    intros p re'. rewrite lookup_insert. case_decide; [naive_solver|]. apply Hok.
Qed.

Lemma compileHeader_spec cache h :
  cache_ok cache →
  (compileHeader cache h).2 = compile_header h ∧ cache_ok (compileHeader cache h).1.
Proof.
  intros Hok. unfold compileHeader, compile_header, compileRegexHeader.
  destruct (hm_Regex h); [|done]. destruct (hm_valueRE h); [done|].
  destruct (hm_Values h) as [|v vs]; [done|]. case_decide; [done|].
  destruct (getRegexpWithCache_spec cache v Hok) as [Hr Hc].
  destruct (getRegexpWithCache cache v) as [c [re|]]; simpl in *; by rewrite <- Hr.
Qed.

Lemma compileHeaders_spec cache hs :
  cache_ok cache →
  (compileHeaders cache hs).2 = compile_headers hs ∧ cache_ok (compileHeaders cache hs).1.
Proof.
  revert cache. induction hs as [|h hs IH]; intros cache Hok; [done|]. simpl.
  destruct (compileHeader_spec cache h Hok) as [Hh Hc].
  destruct (compileHeader cache h) as [c o]. simpl in *.
  destruct (IH c Hc) as [Hhs Hc']. destruct (compileHeaders c hs) as [c' l]. simpl in *.
  subst. by destruct (compile_header h).
Qed.

(** The slab has room for the values of every header: before header [h] the
    values written so far and those of [h] fit. *)
Lemma headerValueCount_app hs1 hs2 n :
  foldl (λ count h, if hm_Regex h then count else count + length (hm_Values h)) n (hs1 ++ hs2) =
    foldl (λ count h, if hm_Regex h then count else count + length (hm_Values h)) n hs1 + headerValueCount hs2.
Proof.
  unfold headerValueCount. rewrite foldl_app.
  set (f := λ count h, _). generalize (foldl f n hs1). clear.
  assert (∀ l a, foldl f a l = a + foldl f 0 l) as H; [|intros; apply H].
  induction l as [|h l IH]; intros a; simpl; [lia|].
  rewrite (IH (f a h)), (IH (f 0 h)). unfold f. destruct (hm_Regex h); lia.
Qed.

Lemma headerValueCount_fits hs1 h hs2 :
  hm_Regex h = false →
  headerValueCount hs1 + length (hm_Values h) ≤ headerValueCount (hs1 ++ h :: hs2).
Proof.
  intros Hr. unfold headerValueCount at 2. rewrite headerValueCount_app.
  change (foldl _ 0 hs1) with (headerValueCount hs1).
  assert (headerValueCount (h :: hs2) = headerValueCount [h] + headerValueCount hs2) as ->
    by apply (headerValueCount_app [h] hs2 0).
  unfold headerValueCount at 3. simpl. rewrite Hr. lia.
Qed.

End snapshot.
