(* ===== verification/Router.v ===== *)
(** * Routing a request, [pkg/common/router/router.go]

    The lookup half of the file: [matchHeaders], [firstMatchingCandidate],
    [matchInTrie], [route] and [RouteByPathAndName], over the snapshot that
    [RouteModel.ToSnapshot] builds, and the refinement of the whole by a scan of
    the configured routes.  The update half is in [Coordinator]. *)

From S2P Require Import Prelude GoStrings GoHttp Trie RouteModel.
Import stringutil TrieKey.

(** The errors [route] and [RouteByPathAndName] build. *)
Inductive route_error : Type :=
  | ErrConfigurationEmpty
  | ErrActionNil
  | ErrNoRule (key : string)
  | ErrInvalidActionType (key : string).

Section router.
Context {regexp : Type} (Compile : string → option regexp)
  (MatchString : regexp → string → bool).
Implicit Types (s : RouteSnapshot regexp) (req : Request) (r : Router regexp)
  (c : RouteCandidate regexp).

(** ** Operations *)

Fixpoint matchHeaders (chs : list (CompiledHeader regexp)) req : bool :=
  match chs with
  | [] => true
  | ch :: chs =>
      let val := Header_Get (req_Header req) (ch_Name ch) in
      if negb (bool_decide (val = "")) then
        match ch_Regex ch with
        | Some re => if negb (MatchString re val) then false else matchHeaders chs req
        | None =>
            if negb (bool_decide (val ∈ ch_Values ch)) then false else matchHeaders chs req
        end
      else false
  end.

(** The request is absent when the route is looked up by path and name. *)
Definition candidate_matches (req : option Request) c : bool :=
  match req with None => true | Some req => matchHeaders (rc_Headers c) req end.

Definition firstMatchingCandidate (candidates : RouteCandidates regexp) (req : option Request)
    : option (RouteCandidate regexp) :=
  ForEach (λ found c, if candidate_matches req c then (Some c, false) else (found, true))
    None candidates.

(** Following a pointer to a candidate list. *)
Definition deref s (ptr : string) : RouteCandidates regexp :=
  default emptyCandidates (CandidateHeap s !! ptr).

Definition candidate_predicate s (req : option Request) (node : Node BizInfo) : bool :=
  match bizInfo node with
  | Some (BizCandidates ptr) => bool_decide (is_Some (firstMatchingCandidate (deref s ptr) req))
  | _ => true
  end.

Definition matchInTrie s (t : option (Trie BizInfo)) (key : string) (req : option Request)
    : result route_error (option RouteAction) :=
  match t with
  | None => Ok None
  | Some t =>
      let found :=
        match req with
        | None => Match t key
        | Some _ => MatchWithPredicate t key (Some (candidate_predicate s req))
        end in
      match found with
      | None => Ok None
      | Some (node, _) =>
          match bizInfo node with
          | None => Ok None
          | Some (BizCandidates ptr) => Ok (rc_Action <$> firstMatchingCandidate (deref s ptr) req)
          | Some (BizAction act) => Ok (Some act)
          | Some BizOther => Err (ErrInvalidActionType key)
          end
      end
  end.

(** The lookup both entry points end with: the trie of the method, then the
    trie of the wildcard method. *)
Definition lookup_tries s (method key : string) (req : option Request)
    : result route_error RouteAction :=
  match matchInTrie s (MethodTries s !! method) key req with
  | Ok (Some act) => Ok act
  | Err e => Err e
  | Ok None =>
      if decide (method = "*") then Err (ErrNoRule key)
      else
        match matchInTrie s (MethodTries s !! "*") key req with
        | Ok (Some act) => Ok act
        | Err e => Err e
        | Ok None => Err (ErrNoRule key)
        end
  end.

Definition RouteByPathAndName (snapshot : option (RouteSnapshot regexp)) (path method : string)
    : result route_error RouteAction :=
  match snapshot with
  | None => Err ErrConfigurationEmpty
  | Some s => lookup_tries s method (GetTrieKey method path) None
  end.

Fixpoint header_only_route (hrs : list (HeaderRoute regexp)) req
    : option (result route_error RouteAction) :=
  match hrs with
  | [] => None
  | hr :: hrs =>
      if MethodAllowed (hr_Methods hr) (req_Method req) && matchHeaders (hr_Headers hr) req then
        if decide (Cluster (hr_Action hr) = "") then Some (Err ErrActionNil)
        else Some (Ok (hr_Action hr))
      else header_only_route hrs req
  end.

Definition route (snapshot : option (RouteSnapshot regexp)) req : result route_error RouteAction :=
  match snapshot with
  | None => Err ErrConfigurationEmpty
  | Some s =>
      match header_only_route (HeaderOnly s) req with
      | Some res => res
      | None => lookup_tries s (req_Method req) (GetTrieKey (req_Method req) (req_Path req)) (Some req)
      end
  end.

(** ** Specification: a scan of the configured routes *)

(** A route that goes to the tries, once per method. *)
Definition route_entries r : list (string * Router regexp) :=
  if header_only r then [] else map (λ m, (m, r)) (route_methods r).
Definition entries (routes : list (Router regexp)) : list (string * Router regexp) :=
  concat (map route_entries routes).

(** The path a route is filed under. *)
Definition route_path r : string :=
  let prefix := Prefix (RMatch r) in
  if decide (prefix = "") then Path (RMatch r)
  else (if Strings.HasSuffixByte slash prefix then prefix else prefix +:+ "/") +:+ "**".

Definition entry_segments (e : string * Router regexp) : list string :=
  e.1 :: path_segments (route_path e.2).
Definition entry_pattern (e : string * Router regexp) : list seg := pattern_of (entry_segments e).

Definition route_headers r : list (CompiledHeader regexp) := compile_headers Compile (Headers (RMatch r)).

(** The routes filed under method [m] and pattern [p], in configuration order. *)
Definition filed (es : list (string * Router regexp)) (m : string) (p : list seg)
    : list (string * Router regexp) :=
  filter (λ e, e.1 = m ∧ entry_pattern e = p) es.

(** What the configuration says of a method: the first pattern in priority
    order, and for it the first route in configuration order, that the request
    satisfies. *)
Definition spec_lookup (es : list (string * Router regexp)) (accept : Router regexp → bool)
    (m : string) (parts : list string) : option RouteAction :=
  first_some (λ '(p, _), (λ e, Route e.2) <$> first_such (λ e, accept e.2) (filed es m p))
    (candidate_patterns parts).

Definition spec_methods (method : string) : list string :=
  if decide (method = "*") then ["*"] else [method; "*"].

Definition spec_tries (routes : list (Router regexp)) (accept : Router regexp → bool)
    (method path : string) : result route_error RouteAction :=
  match first_some (λ m, spec_lookup (entries routes) accept m (method :: path_segments path))
          (spec_methods method) with
  | Some act => Ok act
  | None => Err (ErrNoRule (GetTrieKey method path))
  end.

Definition spec_accept req r : bool := matchHeaders (route_headers r) req.

Definition spec_header_only (routes : list (Router regexp)) req : option (Router regexp) :=
  first_such (λ r, header_only r && (MethodAllowed (Methods (RMatch r)) (req_Method req) && spec_accept req r))
    routes.

Definition spec_route (routes : list (Router regexp)) req : result route_error RouteAction :=
  match spec_header_only routes req with
  | Some r => if decide (Cluster (Route r) = "") then Err ErrActionNil else Ok (Route r)
  | None => spec_tries routes (spec_accept req) (req_Method req) (req_Path req)
  end.

(** The routes the tries can hold: methods are tokens, and [**] only ends a
    path. *)
Definition valid_entry (e : string * Router regexp) : bool :=
  valid_method e.1 && wf_pattern (entry_pattern e).
Definition valid_routes (routes : list (Router regexp)) : bool := forallb valid_entry (entries routes).

(** ** Candidates *)

Lemma each_first (f : RouteCandidate regexp → bool) l :
  each (λ found c, if f c then (Some c, false) else (found, true)) None l = first_such f l.
Proof. unfold first_such. induction l as [|c l IH]; simpl; [done|]. by destruct (f c). Qed.

Lemma firstMatchingCandidate_first candidates (req : option Request) :
  firstMatchingCandidate candidates req =
    first_such (candidate_matches req) (candidate_list candidates).
Proof. unfold firstMatchingCandidate. by rewrite ForEach_each, each_first. Qed.

(** ** Keys and identities *)

Lemma route_key_path r m : route_key r m = GetTrieKey m (route_path r).
Proof.
  unfold route_key, GetTrieKeyWithPrefix, route_path. cbv zeta.
  destruct (decide (Prefix (RMatch r) = "")) as [E|E].
  - by rewrite bool_decide_eq_true_2.
  - rewrite bool_decide_eq_false_2 by done. simpl. by destruct (Strings.HasSuffixByte _ _).
Qed.

Lemma valid_method_no_slash m : valid_method m = true → Strings.HasByte slash m = false.
Proof. by intros (_ & ? & _)%valid_method_spec. Qed.

Lemma entry_segments_no_slash e :
  valid_method e.1 = true → Forall (λ x, Strings.HasByte slash x = false) (entry_segments e).
Proof. intros H. constructor; [by apply valid_method_no_slash|apply path_segments_no_slash]. Qed.

Lemma route_key_pattern e :
  valid_method e.1 = true → path_pattern (route_key e.2 e.1) = entry_pattern e.
Proof. intros H. unfold path_pattern. by rewrite route_key_path, Split_GetTrieKey. Qed.

Definition entry_identity (e : string * Router regexp) : string := trieRouteIdentity (route_key e.2 e.1).

Lemma entry_identity_spec e :
  valid_method e.1 = true →
  entry_identity e =
    Strings.JoinByte slash (e.1 :: map normalize_segment (path_segments (route_path e.2))).
Proof.
  intros H. unfold entry_identity. rewrite route_key_path, GetTrieKey_segments.
  apply trieRouteIdentity_spec, (entry_segments_no_slash e H).
Qed.

Lemma seg_of_normalize x y : seg_of x = seg_of y ↔ normalize_segment x = normalize_segment y.
Proof.
  unfold seg_of, normalize_segment.
  assert (IsPathVariableOrWildcard "*" = true) as Hstar by done.
  destruct (IsPathVariableOrWildcard x) eqn:Ex, (IsPathVariableOrWildcard y) eqn:Ey; try done.
  - split; [by destruct (IsMatchAll y)|]. intros <-. congruence.
  - split; [by destruct (IsMatchAll x)|]. intros ->. congruence.
  - unfold IsMatchAll. repeat case_bool_decide; naive_solver.
Qed.

Lemma pattern_of_normalize l1 l2 :
  pattern_of l1 = pattern_of l2 ↔ map normalize_segment l1 = map normalize_segment l2.
Proof.
  revert l2. induction l1 as [|x l1 IH]; intros [|y l2]; simpl; try done.
  pose proof (seg_of_normalize x y). specialize (IH l2).
  split; intros [=]; f_equal; tauto.
Qed.

Lemma normalize_no_slash l :
  Forall (λ x, Strings.HasByte slash x = false) l →
  Forall (λ x, Strings.HasByte slash x = false) (map normalize_segment l).
Proof.
  intros H. apply Forall_map. eapply Forall_impl; [exact H|]. intros x Hx. simpl.
  unfold normalize_segment. by destruct (IsPathVariableOrWildcard x).
Qed.

(** Two entries share a candidate list exactly when they have the same method
    and the same pattern. *)
Lemma entry_identity_inj e1 e2 :
  valid_method e1.1 = true → valid_method e2.1 = true →
  entry_identity e1 = entry_identity e2 ↔ e1.1 = e2.1 ∧ entry_pattern e1 = entry_pattern e2.
Proof.
  intros H1 H2. rewrite !entry_identity_spec by done. split.
  - intros Heq. apply Strings.JoinByte_inj in Heq as [= Hm Hn]; [|done|done|..].
    + apply pattern_of_normalize in Hn. unfold entry_pattern, entry_segments; simpl. by rewrite Hm, <- Hn.
    + constructor; [by apply valid_method_no_slash|apply normalize_no_slash, path_segments_no_slash].
    + constructor; [by apply valid_method_no_slash|apply normalize_no_slash, path_segments_no_slash].
  - intros [Hm [= _ Hp]]. apply pattern_of_normalize in Hp. by rewrite Hm, Hp.
Qed.

(** ** The snapshot holds the entries *)

Definition entry_candidate (e : string * Router regexp) : RouteCandidate regexp :=
  mkRouteCandidate (route_headers e.2) (Route e.2).

Definition entry_valid (e : string * Router regexp) : Prop := valid_entry e = true.

Record snap_inv (es : list (string * Router regexp)) s : Prop := {
  inv_wf m t : MethodTries s !! m = Some t → trie_wf t;
  inv_map m q : q ≠ [] →
    MethodTries s !! m ≫= (λ t, trie_map t q) =
      (λ e, BizCandidates (entry_identity e)) <$> head (filed es m q);
  inv_ok id : candidates_ok (deref s id);
  inv_heap id :
    candidate_list (deref s id) = map entry_candidate (filter (λ e, entry_identity e = id) es);
}.

Lemma valid_entry_spec e :
  entry_valid e ↔ valid_method e.1 = true ∧ wf_pattern (entry_pattern e) = true.
Proof. unfold entry_valid, valid_entry. by rewrite andb_true_iff. Qed.

Lemma entry_pattern_not_nil e : entry_pattern e ≠ [].
Proof. done. Qed.

Lemma filed_snoc es e m q :
  filed (es ++ [e]) m q =
    filed es m q ++ (if decide (e.1 = m ∧ entry_pattern e = q) then [e] else []).
Proof. unfold filed. rewrite filter_app. by rewrite filter_cons, filter_nil. Qed.

Lemma filed_valid es m q e :
  Forall entry_valid es → e ∈ filed es m q →
  e.1 = m ∧ entry_pattern e = q ∧ valid_method e.1 = true.
Proof.
  intros Hv [[Hm Hq] He]%list_elem_of_filter. rewrite Forall_forall in Hv.
  split_and!; [done|done|]. by apply valid_entry_spec, Hv.
Qed.

(** The candidate list of an entry holds the entries with its method and
    pattern. *)
Lemma filter_identity es e :
  Forall entry_valid es → valid_method e.1 = true →
  filter (λ e', entry_identity e' = entry_identity e) es = filed es e.1 (entry_pattern e).
Proof.
  intros Hv He. unfold filed. induction Hv as [|x es Hx Hv IH]; [done|].
  rewrite !filter_cons, IH. apply valid_entry_spec in Hx as [Hx _].
  pose proof (entry_identity_inj x e Hx He) as Hi.
  repeat case_decide; tauto.
Qed.

Lemma head_filed es m q e :
  head (filed es m q) = Some e → e ∈ filed es m q.
Proof. destruct (filed es m q); [done|]. intros [= ->]. constructor. Qed.

Lemma snap_inv_empty : snap_inv [] (mkRouteSnapshot ∅ [] ∅).
Proof. split; try done. Qed.

Lemma default_trie_map (ts : gmap string (Trie BizInfo)) m q :
  q ≠ [] → trie_map (default NewTrie (ts !! m)) q = ts !! m ≫= (λ t, trie_map t q).
Proof. intros Hq. destruct (ts !! m); [done|]. by apply view_emptyNode. Qed.

Lemma snap_inv_add es s e :
  Forall entry_valid es → entry_valid e → snap_inv es s →
  snap_inv (es ++ [e]) (add_entry (route_headers e.2) e.2 s e.1).
Proof.
  intros Hes He [Hwf Hmap Hok Hheap]. apply valid_entry_spec in He as [Hm Hp].
  set (t := default NewTrie (MethodTries s !! e.1)).
  assert (trie_wf t) as Ht by (unfold t; destruct (MethodTries s !! e.1) eqn:E; [by eapply Hwf|apply NewTrie_wf]).
  pose proof (route_key_pattern e Hm) as Hk.
  destruct (Put_map t (route_key e.2 e.1) (BizCandidates (entry_identity e))) as (_ & Hwf' & Hmap');
    [done|by rewrite Hk|]. rewrite Hk in Hmap'.
  destruct (Candidates_Add_list (deref s (entry_identity e)) (entry_candidate e) (Hok _)) as [Hl Hok'].
  unfold add_entry; cbv zeta; fold t; fold (entry_identity e); fold (deref s (entry_identity e)).
  split; simpl.
  - intros m t'. rewrite lookup_insert. case_decide; [naive_solver|apply Hwf].
  - intros m q Hq. rewrite lookup_insert, filed_snoc. case_decide as E; [subst m|].
    + simpl. rewrite Hmap' by done. unfold t. rewrite !default_trie_map, !Hmap by done.
      case_decide as Eq.
      * subst q. rewrite decide_True by done. by destruct (filed es e.1 (entry_pattern e)).
      * rewrite decide_False by naive_solver. by rewrite app_nil_r.
    + rewrite decide_False by naive_solver. rewrite app_nil_r. by apply Hmap.
  - intros id. unfold deref at 1; simpl. rewrite lookup_insert. case_decide; [done|]. apply Hok.
  - intros id. unfold deref at 1; simpl.
    rewrite lookup_insert, filter_app, filter_cons, filter_nil. case_decide as E.
    + subst id. rewrite map_app, <- Hheap. cbn [map]. by rewrite <- Hl.
    + rewrite app_nil_r. apply Hheap.
Qed.

Lemma snap_inv_header_only es s l :
  snap_inv es s → snap_inv es (mkRouteSnapshot (MethodTries s) l (CandidateHeap s)).
Proof. by intros [H1 H2 H3 H4]; split. Qed.

Lemma add_entry_HeaderOnly hs r s m : HeaderOnly (add_entry hs r s m) = HeaderOnly s.
Proof. done. Qed.

Lemma add_entries_inv es s r ms :
  Forall entry_valid es → Forall entry_valid (map (λ m, (m, r)) ms) → snap_inv es s →
  snap_inv (es ++ map (λ m, (m, r)) ms) (foldl (add_entry (route_headers r) r) s ms) ∧
  HeaderOnly (foldl (add_entry (route_headers r) r) s ms) = HeaderOnly s.
Proof.
  revert es s. induction ms as [|m ms IH]; intros es s Hes Hms Hinv; simpl.
  { by rewrite app_nil_r. }
  inversion Hms as [|? ? Hm Hms']; subst.
  pose proof (snap_inv_add es s (m, r) Hes Hm Hinv) as Hinv'.
  destruct (IH (es ++ [(m, r)]) (add_entry (route_headers r) r s m)) as [Hi Hh]; [|done..|].
  { apply Forall_app; split; [done|]. by constructor. }
  rewrite <- app_assoc in Hi. split; [exact Hi|by rewrite Hh].
Qed.

Definition compiled_header_route r : HeaderRoute regexp :=
  mkHeaderRoute (Methods (RMatch r)) (route_headers r) (Route r).

Lemma valid_routes_Forall routes :
  valid_routes routes = true ↔ Forall entry_valid (entries routes).
Proof. unfold valid_routes. rewrite forallb_forall, Forall_forall. by setoid_rewrite list_elem_of_In. Qed.

Lemma entries_snoc routes r : entries (routes ++ [r]) = entries routes ++ route_entries r.
Proof. unfold entries. rewrite map_app, concat_app. simpl. by rewrite app_nil_r. Qed.

(** What [ToSnapshot] builds, whatever the expression cache holds. *)
Lemma ToSnapshot_spec cache routes :
  cache_ok Compile cache → Forall entry_valid (entries routes) →
  let '(cache', s) := ToSnapshot Compile cache routes in
  cache_ok Compile cache' ∧ snap_inv (entries routes) s ∧
  HeaderOnly s = map compiled_header_route (filter (λ r, header_only r = true) routes).
Proof.
  intros Hc. induction routes as [|r routes IH] using rev_ind; [intros _; split_and!; [done|apply snap_inv_empty|done]|].
  rewrite entries_snoc, Forall_app. intros [Hv Hr]. specialize (IH Hv).
  unfold ToSnapshot in *. rewrite foldl_app. simpl.
  destruct (foldl (add_route Compile) _ routes) as [c s]. destruct IH as (Hc' & Hinv & Hho). unfold add_route.
  destruct (compileHeaders_spec Compile c (Headers (RMatch r)) Hc') as [Hh Hc''].
  destruct (compileHeaders Compile c (Headers (RMatch r))) as [c' hs]. simpl in Hh, Hc''.
  fold (route_headers r) in Hh. subst hs. rewrite filter_app, filter_cons, filter_nil, map_app, <- Hho.
  unfold route_entries in *. destruct (header_only r) eqn:Eh.
  - rewrite app_nil_r. split_and!; [done|by apply snap_inv_header_only|done].
  - destruct (add_entries_inv (entries routes) s r (route_methods r)) as [Hi Hn]; [done..|].
    split_and!; [done|done|]. by rewrite app_nil_r.
Qed.

(** ** Looking a request up in the snapshot *)

Section lookup.
Context (es : list (string * Router regexp)) (s : RouteSnapshot regexp)
  (Hes : Forall entry_valid es) (Hinv : snap_inv es s).

(** What the request asks of a route, with and without headers. *)
Definition accepts (req : option Request) r : bool :=
  match req with None => true | Some req => spec_accept req r end.

Lemma candidate_of_entry (req : option Request) e :
  valid_method e.1 = true →
  firstMatchingCandidate (deref s (entry_identity e)) req =
    entry_candidate <$> first_such (λ e, accepts req e.2) (filed es e.1 (entry_pattern e)).
Proof.
  intros He. rewrite firstMatchingCandidate_first, (inv_heap es s Hinv), filter_identity by done.
  unfold first_such. rewrite first_some_map, <- first_some_fmap. apply first_some_ext.
  intros x _. unfold candidate_matches, accepts. destruct req; simpl; [|done].
  unfold spec_accept. by destruct (matchHeaders _ _).
Qed.

(** The info a trie holds for a pattern leads to the routes filed under it. *)
Lemma info_of_pattern (req : option Request) m t q b :
  MethodTries s !! m = Some t → q ≠ [] → trie_map t q = Some b →
  ∃ ptr, b = BizCandidates ptr ∧
    firstMatchingCandidate (deref s ptr) req =
      entry_candidate <$> first_such (λ e, accepts req e.2) (filed es m q) ∧
    filed es m q ≠ [].
Proof.
  intros Ht Hq Hb. pose proof (inv_map es s Hinv m q Hq) as Hm. rewrite Ht in Hm. simpl in Hm.
  rewrite Hb in Hm. destruct (head (filed es m q)) as [e|] eqn:Eh; simplify_eq/=.
  apply head_filed in Eh as Hin. destruct (filed_valid _ _ _ _ Hes Hin) as (Hem & Hep & Hv). subst.
  eexists. split_and!; [done|by apply candidate_of_entry|]. by destruct (filed es _ _).
Qed.

Lemma no_info_of_pattern m q :
  q ≠ [] → MethodTries s !! m ≫= (λ t, trie_map t q) = None → filed es m q = [].
Proof. intros Hq. rewrite (inv_map es s Hinv m q Hq). by destruct (filed es m q). Qed.

Definition info_accepts (req : option Request) (b : BizInfo) : bool :=
  match b with
  | BizCandidates ptr => bool_decide (is_Some (firstMatchingCandidate (deref s ptr) req))
  | _ => true
  end.

(** Without a request, [Match] accepts what the predicate would. *)
Lemma match_without_request m t parts :
  MethodTries s !! m = Some t → parts ≠ [] →
  node_match (root t) parts None =
    node_match (root t) parts (Some (biz_predicate (info_accepts None))).
Proof.
  intros Ht Hparts. rewrite !node_match_spec by done. apply first_some_ext. intros [p vs] Hp.
  apply candidate_patterns_not_nil in Hp. simpl in Hp. unfold try_pattern; simpl.
  destruct (candidate_at (root t) p) as [n|] eqn:E; [|done]. unfold biz_predicate.
  destruct (bizInfo n) as [b|] eqn:Eb; [|done].
  destruct (info_of_pattern None m t p b Ht Hp (candidate_at_view _ _ _ _ E Eb)) as (ptr & -> & Hf & Hne).
  simpl. rewrite Hf. destruct (filed es m p); [done|]. by rewrite bool_decide_eq_true_2.
Qed.

Lemma lookup_of_map (req : option Request) m t parts :
  MethodTries s !! m = Some t → parts ≠ [] →
  match map_lookup (trie_map t) (info_accepts req) parts with
  | Some (BizCandidates ptr, _) => rc_Action <$> firstMatchingCandidate (deref s ptr) req
  | Some _ => None
  | None => None
  end = spec_lookup es (accepts req) m parts.
Proof.
  intros Ht Hparts. unfold map_lookup, spec_lookup.
  assert (∀ x, x ∈ candidate_patterns parts → x.1 ≠ []) as Hnn
    by (intros c Hc; by eapply candidate_patterns_not_nil).
  induction (candidate_patterns parts) as [|[p vs] cs IH]; simpl; [done|].
  assert (p ≠ []) as Hp by (apply (Hnn (p, vs)); constructor).
  destruct (trie_map t p) as [b|] eqn:Eb.
  - destruct (info_of_pattern req m t p b Ht Hp Eb) as (ptr & -> & Hf & _). simpl.
    rewrite Hf. destruct (first_such _ _) as [e|] eqn:Ef; simpl.
    + by rewrite Hf.
    + apply IH. intros c Hc. apply Hnn. by constructor.
  - rewrite (no_info_of_pattern m p Hp) by (by rewrite Ht). simpl.
    apply IH. intros c Hc. apply Hnn. by constructor.
Qed.

(** The tri-state result of [matchInTrie] is the lookup in the configuration;
    its third state does not occur. *)
Lemma matchInTrie_spec (req : option Request) m method path :
  valid_method method = true →
  matchInTrie s (MethodTries s !! m) (GetTrieKey method path) req =
    Ok (spec_lookup es (accepts req) m (method :: path_segments path)).
Proof.
  intros Hm. unfold matchInTrie. destruct (MethodTries s !! m) as [t|] eqn:Et.
  2:{ f_equal. symmetry. apply first_some_None. intros [p vs] Hp.
      apply candidate_patterns_not_nil in Hp. rewrite no_info_of_pattern; [done|done|by rewrite Et]. }
  set (found := match req with None => _ | Some _ => _ end).
  assert ((λ '(n, _), bizInfo n) <$> found =
    (λ '(b, _), Some b) <$> map_lookup (trie_map t) (info_accepts req) (method :: path_segments path)) as Hf.
  { pose proof (node_match_view (root t) (method :: path_segments path) (info_accepts req)
      (inv_wf es s Hinv m t Et) ltac:(done)) as Hv.
    assert (found = (λ '(n, vs), (n, reverse vs)) <$>
      node_match (root t) (method :: path_segments path) (Some (biz_predicate (info_accepts req)))) as ->.
    { unfold found, Match, MatchWithPredicate. cbv zeta.
      rewrite GetTrieKey_no_query, Split_GetTrieKey by done. destruct req; [done|].
      by rewrite (match_without_request m t) by done. }
    unfold trie_map in *. destruct (node_match _ _ _) as [[n vs]|], (map_lookup _ _ _) as [[b ws]|];
      simplify_eq/=; congruence. }
  rewrite <- (lookup_of_map req m t) by done.
  destruct found as [[n vs]|], (map_lookup _ _ _) as [[b ws]|] eqn:El; simplify_eq/=; [|done].
  rewrite Hf. unfold map_lookup in El. apply first_some_Some in El as (l1 & [p vs'] & l2 & Hl & Hx & _).
  destruct (trie_map t p) as [b'|] eqn:Eb; [|done].
  destruct (info_of_pattern req m t p b' Et) as (ptr & -> & _); [|done|].
  { apply (candidate_patterns_not_nil (method :: path_segments path) (p, vs')).
    rewrite Hl. apply elem_of_app. right. constructor. }
  by destruct (info_accepts req (BizCandidates ptr)); simplify_eq/=.
Qed.

Lemma lookup_tries_spec (req : option Request) method path :
  valid_method method = true →
  lookup_tries s method (GetTrieKey method path) req =
    match first_some (λ m, spec_lookup es (accepts req) m (method :: path_segments path))
            (spec_methods method) with
    | Some act => Ok act
    | None => Err (ErrNoRule (GetTrieKey method path))
    end.
Proof.
  intros Hm. unfold lookup_tries, spec_methods. rewrite !matchInTrie_spec by done.
  case_decide as E; simpl; [subst|]; repeat case_match; by simplify_eq.
Qed.

End lookup.

Lemma header_only_route_spec routes req :
  header_only_route (map compiled_header_route (filter (λ r, header_only r = true) routes)) req =
    (λ r, if decide (Cluster (Route r) = "") then Err ErrActionNil else Ok (Route r)) <$>
      spec_header_only routes req.
Proof.
  unfold spec_header_only, first_such. induction routes as [|r routes IH]; [done|].
  rewrite filter_cons. simpl. destruct (header_only r); simpl; [|exact IH].
  unfold spec_accept at 1. destruct (MethodAllowed _ _ && matchHeaders _ _); [|exact IH].
  simpl. by case_decide.
Qed.

End router.

(** ** What it means for a pattern to match *)

Inductive pattern_matches : list seg → list string → Prop :=
  | pm_lit k : pattern_matches [SLit k] [k]
  | pm_var k : pattern_matches [SVar] [k]
  | pm_lit_all k : pattern_matches [SLit k; SAll] [k]
  | pm_all k parts : pattern_matches [SAll] (k :: parts)
  | pm_cons_lit k p parts : pattern_matches p parts → pattern_matches (SLit k :: p) (k :: parts)
  | pm_cons_var k p parts : pattern_matches p parts → pattern_matches (SVar :: p) (k :: parts).

#[export] Hint Constructors pattern_matches : pixiu.

Lemma candidate_patterns_matches p parts :
  (∃ vs, (p, vs) ∈ candidate_patterns parts) ↔ pattern_matches p parts.
Proof.
  revert p. induction parts as [|k parts IH]; intros p.
  { split; [intros [vs []%not_elem_of_nil]|inversion 1]. }
  destruct parts as [|k' parts].
  - simpl. split.
    + intros [vs Hv]. rewrite !elem_of_cons in Hv. destruct_or!; simplify_eq; eauto with pixiu.
      by apply not_elem_of_nil in Hv.
    + inversion 1 as [| | | |? q ? Hq|? q ? Hq]; subst;
        first [by inversion Hq|eexists; rewrite !elem_of_cons; naive_solver].
  - change (candidate_patterns (k :: k' :: parts)) with
      (map (λ '(p, vs), (SLit k :: p, vs)) (candidate_patterns (k' :: parts)) ++
       map (λ '(p, vs), (SVar :: p, vs ++ [k])) (candidate_patterns (k' :: parts)) ++ [([SAll], [])]).
    setoid_rewrite elem_of_app. setoid_rewrite elem_of_app.
    setoid_rewrite list_elem_of_fmap. setoid_rewrite list_elem_of_singleton. split.
    + intros [vs [([q ws] & [= -> ->] & Hq)|[([q ws] & [= -> ->] & Hq)|[= -> ->]]]]; constructor;
        apply IH; eauto.
    + inversion 1 as [| | | |? q ? Hq|? q ? Hq]; subst; [by eauto| |];
        apply IH in Hq as [vs Hq]; [exists vs; left|exists (vs ++ [k]); right; left];
        by exists (q, vs).
Qed.

Section meaning.
Context {regexp : Type} (Compile : string → option regexp)
  (MatchString : regexp → string → bool).
Implicit Types (routes : list (Router regexp)) (r : Router regexp) (req : Request).

(** A configured route answers a request. *)
Definition answers req r : Prop :=
  spec_accept Compile MatchString req r = true ∧
  if header_only r then MethodAllowed (Methods (RMatch r)) (req_Method req) = true
  else ∃ m, m ∈ route_methods r ∧ (m = req_Method req ∨ m = "*") ∧
       pattern_matches (entry_pattern (m, r)) (req_Method req :: path_segments (req_Path req)).

Lemma elem_of_entries routes m r :
  (m, r) ∈ entries routes ↔ r ∈ routes ∧ header_only r = false ∧ m ∈ route_methods r.
Proof.
  unfold entries. rewrite list_elem_of_In, in_concat. split.
  - intros (l & Hl & Hm). apply List.in_map_iff in Hl as (r' & <- & Hr').
    unfold route_entries in Hm. destruct (header_only r') eqn:E; [done|].
    apply List.in_map_iff in Hm as (m' & [= -> ->] & Hm). by rewrite !list_elem_of_In.
  - intros (Hr & Hh & Hm). exists (route_entries r). rewrite !list_elem_of_In in *.
    split; [by apply in_map|]. unfold route_entries. rewrite Hh. by apply (in_map (λ m, (m, r))).
Qed.

Lemma elem_of_spec_methods m method : m ∈ spec_methods method ↔ m = method ∨ m = "*".
Proof. unfold spec_methods. case_decide; subst; set_solver. Qed.

Lemma spec_lookup_Some routes accept m parts act :
  spec_lookup (entries routes) accept m parts = Some act →
  ∃ r, r ∈ routes ∧ header_only r = false ∧ m ∈ route_methods r ∧ act = Route r ∧
    accept r = true ∧ pattern_matches (entry_pattern (m, r)) parts.
Proof.
  intros (l1 & [p vs] & l2 & Hl & Hx & _)%first_some_Some.
  destruct (first_such _ _) as [[m' r]|] eqn:Ef; simplify_eq/=.
  apply first_such_Some in Ef as [Hin Ha].
  apply list_elem_of_filter in Hin as [[Hm Hp] Hin]. simpl in Hm; subst m'.
  apply elem_of_entries in Hin as (Hr & Hh & Hms). exists r. split_and!; try done.
  apply candidate_patterns_matches. exists vs. rewrite Hp, Hl. apply elem_of_app. right. constructor.
Qed.

Lemma spec_lookup_None routes accept m parts r :
  spec_lookup (entries routes) accept m parts = None →
  r ∈ routes → header_only r = false → m ∈ route_methods r →
  pattern_matches (entry_pattern (m, r)) parts → accept r = false.
Proof.
  intros Hn Hr Hh Hm [vs Hp]%candidate_patterns_matches.
  unfold spec_lookup in Hn. rewrite first_some_None in Hn. specialize (Hn _ Hp). simpl in Hn.
  destruct (first_such _ _) eqn:Ef; [done|]. rewrite first_such_None in Ef.
  apply (Ef (m, r)), list_elem_of_filter. split; [done|]. by apply elem_of_entries.
Qed.

Lemma spec_route_Ok routes req act :
  spec_route Compile MatchString routes req = Ok act →
  ∃ r, r ∈ routes ∧ act = Route r ∧ answers req r.
Proof.
  unfold spec_route, spec_tries. destruct (spec_header_only _ _ _ _) as [r|] eqn:E.
  - apply first_such_Some in E as [Hr H]. apply andb_true_iff in H as [Hh [Hm Ha]%andb_true_iff].
    case_decide; [done|]. intros [= <-]. exists r. unfold answers. by rewrite Hh.
  - destruct (first_some _ _) as [a|] eqn:Ef; [|done]. intros [= ->].
    apply first_some_Some in Ef as (l1 & m & l2 & Hl & Hx & _).
    apply spec_lookup_Some in Hx as (r & Hr & Hh & Hm & -> & Ha & Hp).
    exists r. unfold answers. rewrite Hh. split_and!; [done..|]. exists m. split_and!; [done| |done].
    apply elem_of_spec_methods. rewrite Hl. apply elem_of_app. right. constructor.
Qed.

Lemma spec_route_NoRule routes req key :
  spec_route Compile MatchString routes req = Err (ErrNoRule key) →
  ∀ r, r ∈ routes → ¬ answers req r.
Proof.
  unfold spec_route, spec_tries. destruct (spec_header_only _ _ _ _) as [r|] eqn:E; [by case_decide|].
  destruct (first_some _ _) as [a|] eqn:Ef; [done|]. intros _ r Hr [Ha Hm].
  rewrite first_some_None in Ef. unfold spec_header_only in E. rewrite first_such_None in E.
  specialize (E r Hr). destruct (header_only r) eqn:Hh; simpl in E.
  - by rewrite Hm, Ha in E.
  - destruct Hm as (m & Hms & Hmm & Hp). apply elem_of_spec_methods in Hmm.
    by rewrite (spec_lookup_None _ _ _ _ r (Ef m Hmm)) in Ha.
Qed.

Lemma route_spec_route cache routes req :
  cache_ok Compile cache → valid_routes routes = true → valid_method (req_Method req) = true →
  route MatchString (Some (ToSnapshot Compile cache routes).2) req =
    spec_route Compile MatchString routes req.
Proof.
  intros Hc Hv%valid_routes_Forall Hm. pose proof (ToSnapshot_spec Compile cache routes Hc Hv) as Hs.
  destruct (ToSnapshot Compile cache routes) as [c s]. destruct Hs as (_ & Hinv & Hho).
  unfold route, spec_route; simpl. rewrite Hho, header_only_route_spec.
  destruct (spec_header_only _ _ _ _); simpl; [done|].
  by rewrite (lookup_tries_spec Compile MatchString (entries routes) s Hv Hinv (Some req)).
Qed.

End meaning.

(** ** Properties *)

(** C2: routing is a search of the configuration.  For every list of routes whose
    methods are tokens and whose [**] only ends a path, [route] on the snapshot
    built from it returns what the scan of the configured routes returns:
    header-only routes first, in order; then, in the trie of the method and in
    the trie of the wildcard method, the first route in configuration order
    whose headers accept the request under the first pattern, in priority
    order, that has such a route.  The cache of compiled expressions does not
    influence the answer. *)
Theorem route_refines_scan {regexp} (Compile : string → option regexp)
    (MatchString : regexp → string → bool) cache (routes : list (Router regexp)) (req : Request) :
  cache_ok Compile cache → valid_routes routes = true → valid_method (req_Method req) = true →
  route MatchString (Some (ToSnapshot Compile cache routes).2) req =
    spec_route Compile MatchString routes req.
Proof. apply route_spec_route. Qed.

(** Looking a route up by path and method, without a request, is the same
    search with headers ignored. *)
Theorem route_by_name_refines_scan {regexp} (Compile : string → option regexp)
    (MatchString : regexp → string → bool) cache (routes : list (Router regexp)) (path method : string) :
  cache_ok Compile cache → valid_routes routes = true → valid_method method = true →
  RouteByPathAndName MatchString (Some (ToSnapshot Compile cache routes).2) path method =
    spec_tries routes (λ _, true) method path.
Proof.
  intros Hc Hv%valid_routes_Forall Hm. pose proof (ToSnapshot_spec Compile cache routes Hc Hv) as Hs.
  destruct (ToSnapshot Compile cache routes) as [c s]. destruct Hs as (_ & Hinv & _).
  by apply (lookup_tries_spec Compile MatchString (entries routes) s Hv Hinv None).
Qed.

(** An answered request got the action of a configured route that answers it,
    and a request that failed for want of a rule is answered by no configured
    route. *)
Theorem route_sound_complete {regexp} (Compile : string → option regexp)
    (MatchString : regexp → string → bool) cache (routes : list (Router regexp)) (req : Request) :
  cache_ok Compile cache → valid_routes routes = true → valid_method (req_Method req) = true →
  match route MatchString (Some (ToSnapshot Compile cache routes).2) req with
  | Ok act => ∃ r, r ∈ routes ∧ act = Route r ∧ answers Compile MatchString req r
  | Err (ErrNoRule _) => ∀ r, r ∈ routes → ¬ answers Compile MatchString req r
  | Err ErrActionNil => ∃ r, r ∈ routes ∧ header_only r = true ∧ Cluster (Route r) = ""
  | Err _ => False
  end.
Proof.
  intros Hc Hv Hm. rewrite route_spec_route by done.
  destruct (spec_route Compile MatchString routes req) as [act|e] eqn:E.
  { by apply spec_route_Ok. }
  destruct e as [| |key|key]; [| |by eapply spec_route_NoRule|];
    unfold spec_route, spec_tries in E; destruct (spec_header_only _ _ _ _) as [r|] eqn:Eh; try by repeat case_match.
  apply first_such_Some in Eh as [Hr Hh]. case_decide; [|done].
  exists r. by destruct (header_only r).
Qed.

(** ** A configuration to evaluate on

    Regular expressions are prefixes here; ["("] does not compile. *)
Module example.

Definition Compile (s : string) : option string := if decide (s = "(") then None else Some s.
Definition MatchString (re s : string) : bool := Strings.HasPrefix s re.
Definition action (c : string) : RouteAction := mkRouteAction c 0.
Definition on (ms : list string) (path : string) (hs : list (HeaderMatcher string)) (c : string)
    : Router string := mkRouter c (mkRouterMatch "" path ms hs) (action c).

Definition routes : list (Router string) :=
  [ on ["GET"] "/user/:id" [mkHeaderMatcher "x-env" ["gray"; "blue"] false None] "gray";
    on ["GET"] "/user/*" [] "stable";
    mkRouter "api" (mkRouterMatch "/api" "" [] []) (action "api");
    on ["*"] "/rpc" [] "rpc";
    on [] "" [mkHeaderMatcher "x-canary" ["v2"] true None] "canary" ].

Definition get (path : string) (h : Header) : Request := mkRequest "GET" path h.
Definition gray_request : Request := get "/user/7/" {["X-Env" := ["gray"]]}.

Lemma no_regexps_ok : cache_ok Compile ∅.
Proof. intros pat re H. by rewrite lookup_empty in H. Qed.

End example.

Lemma route_refines_scan_witness :
  route example.MatchString (Some (ToSnapshot example.Compile ∅ example.routes).2) example.gray_request =
    Ok (example.action "gray").
Proof.
  rewrite (route_refines_scan example.Compile example.MatchString ∅ example.routes example.gray_request
    example.no_regexps_ok eq_refl eq_refl).
  reflexivity.
Defined.

Lemma route_by_name_refines_scan_witness :
  RouteByPathAndName example.MatchString (Some (ToSnapshot example.Compile ∅ example.routes).2) "/rpc" "POST" =
    Ok (example.action "rpc").
Proof.
  rewrite (route_by_name_refines_scan example.Compile example.MatchString ∅ example.routes "/rpc" "POST"
    example.no_regexps_ok eq_refl eq_refl).
  reflexivity.
Defined.

Lemma route_sound_complete_witness :
  ∃ r, r ∈ example.routes ∧ example.action "gray" = Route r ∧
    answers example.Compile example.MatchString example.gray_request r.
Proof.
  exact (route_sound_complete example.Compile example.MatchString ∅ example.routes example.gray_request
    example.no_regexps_ok eq_refl eq_refl).
Defined.

(** A route with [**] before its last segment is accepted and then takes
    requests away from other routes: it leaves a match-all node without an
    action, which ends the search as a miss although a catch-all route is
    configured. *)
Theorem inner_match_all_shadows (catch_all inner : RouteAction) :
  let r1 := mkRouter "1" (mkRouterMatch "/" "" ["GET"] []) catch_all in
  let r2 := mkRouter "2" (mkRouterMatch "" "/a/**/b" ["GET"] []) inner in
  let answer routes := route example.MatchString (Some (ToSnapshot example.Compile ∅ routes).2)
                         (example.get "/a/x" ∅) in
  answer [r1] = Ok catch_all ∧ answer [r1; r2] = Err (ErrNoRule "GET/a/x").
Proof. split; reflexivity. Qed.
