(* ===== verification/Coordinator.v ===== *)
(** * Publishing routes, the update half of [pkg/common/router/router.go],
      [pkg/model/router.go] and [pkg/server/router_manager.go]

    A [RouterCoordinator] collects route updates in [nextSnapshot] and publishes
    a new snapshot when its debounce timer has expired.  The timer, its channel
    and the goroutine that waits on it are explicit, and the operations are
    steps of a relation, so that the theorems hold for every interleaving of
    updates with the timer and the goroutine. *)

From S2P Require Import Prelude GoStrings GoHttp Trie RouteModel Router.
Import stringutil TrieKey.

Section configuration.
Context {regexp : Type} (Compile : string → option regexp)
  (MatchString : regexp → string → bool).
Implicit Types (h : HeaderMatcher regexp) (r : Router regexp) (routes : list (Router regexp)).

(** ** [model/router.go] *)

Definition MatchValues h (dst : string) : bool :=
  match hm_Regex h, hm_valueRE h with
  | true, Some re => MatchString re dst
  | _, _ => existsb (λ src, bool_decide (src = dst)) (hm_Values h)
  end.

Definition MatchHeader (rm : RouterMatch regexp) (req : Request) : bool :=
  if match Methods rm with
     | [] => true
     | ms => existsb (λ m, bool_decide (m = req_Method req)) ms
     end
  then
    existsb (λ h,
      let val := Header_Get (req_Header req) (hm_Name h) in
      negb (bool_decide (val = "")) && MatchValues h val) (Headers rm)
  else false.

(** [Router.String] *)
Definition joined (sep : string) (l : list string) : string :=
  match l with
  | [] => ""
  | x :: l => foldl (λ acc y, acc +:+ sep +:+ y) x l
  end.

Definition Router_String r : string :=
  "[" +:+ joined "," (Methods (RMatch r)) +:+ "] " +:+
  (if header_only r then
     "headers " +:+ foldl (λ acc h, acc +:+ hm_Name h +:+ "=" +:+ joined "|" (hm_Values h)) ""
                      (Headers (RMatch r))
   else if decide (Prefix (RMatch r) = "") then "path " +:+ Path (RMatch r)
   else "prefix " +:+ Prefix (RMatch r)) +:+
  " to cluster " +:+ Cluster (Route r).

(** ** [buildRouteConfiguration] *)

(** [initRegex] writes to the headers of the routers it is given; the result is
    what the pointers lead to afterwards. *)
Definition init_header h : HeaderMatcher regexp :=
  match hm_Regex h, hm_Values h with
  | true, v :: _ => SetValueRegex Compile h v
  | _, _ => h
  end.

Definition init_route r : Router regexp :=
  mkRouter (ID r)
    (mkRouterMatch (Prefix (RMatch r)) (Path (RMatch r)) (Methods (RMatch r))
       (map init_header (Headers (RMatch r))))
    (Route r).

Definition initRegex routes : list (Router regexp) := map init_route routes.

Definition fill_entry r (t : Trie BizInfo) (m : string) : Trie BizInfo :=
  (Put t (route_key r m) (Some (BizAction (Route r)))).1.

Definition fillTrieFromRoutes (t : Trie BizInfo) routes : Trie BizInfo :=
  foldl (λ t r, foldl (fill_entry r) t (route_methods r)) t routes.

Record RouteConfiguration : Type := mkRouteConfiguration {
  RouteTrie : Trie BizInfo;
  Routes : list (Router regexp);
  Dynamic : bool;
}.

Definition buildRouteConfiguration routes : RouteConfiguration :=
  let routes := initRegex routes in
  mkRouteConfiguration (fillTrieFromRoutes NewTrie routes) routes false.

(** The errors of [RouteByPathAndMethod]; the type assertion panics on info
    that is not an action. *)
Inductive config_error : Type :=
  | ErrEmpty
  | ErrNoMatch (key : string)
  | ErrNilAction
  | PanicTypeAssertion.

Definition RouteByPathAndMethod (rc : RouteConfiguration) (path method : string)
    : result config_error RouteAction :=
  if IsEmpty (RouteTrie rc) then Err ErrEmpty
  else
    match Match (RouteTrie rc) (GetTrieKey method path) with
    | None => Err (ErrNoMatch (GetTrieKey method path))
    | Some (node, _) =>
        match bizInfo node with
        | None => Err ErrNilAction
        | Some (BizAction a) => Ok a
        | Some _ => Err PanicTypeAssertion
        end
    end.

Definition RouteConfiguration_Route (rc : RouteConfiguration) (req : Request)
    : result config_error RouteAction := RouteByPathAndMethod rc (req_Path req) (req_Method req).

End configuration.

Arguments RouteConfiguration : clear implicits.

(** ** The coordinator *)

(** A [time.Timer]: whether it runs, and whether its channel holds a value. *)
Record Timer : Type := mkTimer { armed : bool; chan : bool }.

Record RouterCoordinator (regexp : Type) : Type := mkRouterCoordinator {
  mainSnapshot : option (RouteSnapshot regexp);
  nextSnapshot : list (Router regexp);
  timer : option Timer;
  debounce : Z;
  (** goroutines in [awaitAndPublish] before and after they received *)
  waiting : nat;
  woken : nat;
  (** the package variable [regexCache] *)
  regexCache : gmap string regexp;
}.
Arguments mkRouterCoordinator {regexp} _ _ _ _ _ _ _.
Arguments mainSnapshot {regexp} _.
Arguments nextSnapshot {regexp} _.
Arguments timer {regexp} _.
Arguments debounce {regexp} _.
Arguments waiting {regexp} _.
Arguments woken {regexp} _.
Arguments regexCache {regexp} _.

Section coordinator.
Context {regexp : Type} (Compile : string → option regexp).
Implicit Types (rm : RouterCoordinator regexp) (r : Router regexp) (routes : list (Router regexp)).

(** The part of [CreateRouterCoordinator] that builds the first snapshot. *)
Definition CreateRouterCoordinator (cache : gmap string regexp) routes : RouterCoordinator regexp :=
  let '(cache, s) := ToSnapshot Compile cache (Routes (buildRouteConfiguration Compile routes)) in
  mkRouterCoordinator (Some s) (initRegex Compile routes) None 50 0 0 cache.

(** The routers are shared between [nextSnapshot] and its copy, so that what
    [initRegex] writes is also seen in [nextSnapshot]. *)
Definition publishLocked rm : RouterCoordinator regexp :=
  let cfg := buildRouteConfiguration Compile (nextSnapshot rm) in
  let '(cache, s) := ToSnapshot Compile (regexCache rm) (Routes cfg) in
  mkRouterCoordinator (Some s) (initRegex Compile (nextSnapshot rm)) (timer rm) (debounce rm)
    (waiting rm) (woken rm) cache.

Definition set_timer rm (t : option Timer) (wa wo : nat) : RouterCoordinator regexp :=
  mkRouterCoordinator (mainSnapshot rm) (nextSnapshot rm) t (debounce rm) wa wo (regexCache rm).

(** [Stop] reports whether the timer was running; when it was not, a value left
    in the channel is drained before [Reset]. *)
Definition schedulePublishLocked rm : RouterCoordinator regexp :=
  if (debounce rm <=? 0)%Z then publishLocked rm
  else
    match timer rm with
    | None => set_timer rm (Some (mkTimer true false)) (S (waiting rm)) (woken rm)
    | Some t =>
        let c := if armed t then chan t else false in
        set_timer rm (Some (mkTimer true c)) (waiting rm) (woken rm)
    end.

Definition set_next rm routes : RouterCoordinator regexp :=
  mkRouterCoordinator (mainSnapshot rm) routes (timer rm) (debounce rm) (waiting rm) (woken rm)
    (regexCache rm).

Definition OnAddRouter rm r : RouterCoordinator regexp :=
  schedulePublishLocked (set_next rm (nextSnapshot rm ++ [r])).

Definition OnDeleteRouter rm r : RouterCoordinator regexp :=
  match nextSnapshot rm with
  | [] => rm
  | _ => schedulePublishLocked (set_next rm (filter (λ rr, ID rr ≠ ID r) (nextSnapshot rm)))
  end.

(** The second half of [awaitAndPublish], under the lock. *)
Definition awaitAndPublish rm : RouterCoordinator regexp :=
  set_timer (publishLocked rm) None (waiting rm) (pred (woken rm)).

(** What the timer and the goroutines do. *)
Inductive internal rm : RouterCoordinator regexp → Prop :=
  | internal_fire t :
      timer rm = Some t → armed t = true →
      internal rm (set_timer rm (Some (mkTimer false true)) (waiting rm) (woken rm))
  | internal_receive t n :
      timer rm = Some t → chan t = true → waiting rm = S n →
      internal rm (set_timer rm (Some (mkTimer (armed t) false)) n (S (woken rm)))
  | internal_publish n :
      woken rm = S n → internal rm (awaitAndPublish rm).

Inductive update : Type :=
  | UAdd (r : Router regexp)
  | UDelete (r : Router regexp).

Definition apply_update rm (u : update) : RouterCoordinator regexp :=
  match u with UAdd r => OnAddRouter rm r | UDelete r => OnDeleteRouter rm r end.

(** A run: internal steps interleaved with the updates of a list. *)
Inductive run : RouterCoordinator regexp → list update → RouterCoordinator regexp → Prop :=
  | run_done rm : run rm [] rm
  | run_internal rm rm1 us rm2 : internal rm rm1 → run rm1 us rm2 → run rm us rm2
  | run_update rm u us rm2 : run (apply_update rm u) us rm2 → run rm (u :: us) rm2.

(** ** The snapshot does not depend on the expression cache *)

Definition snapshot_of routes : RouteSnapshot regexp := (ToSnapshot Compile ∅ routes).2.

Lemma ToSnapshot_cache_gen c1 c2 s routes :
  cache_ok Compile c1 → cache_ok Compile c2 →
  (foldl (add_route Compile) (c1, s) routes).2 = (foldl (add_route Compile) (c2, s) routes).2 ∧
  cache_ok Compile (foldl (add_route Compile) (c1, s) routes).1.
Proof.
  revert c1 c2 s. induction routes as [|r routes IH]; intros c1 c2 s H1 H2; [done|]. simpl.
  destruct (compileHeaders_spec Compile c1 (Headers (RMatch r)) H1) as [E1 O1].
  destruct (compileHeaders_spec Compile c2 (Headers (RMatch r)) H2) as [E2 O2].
  destruct (compileHeaders Compile c1 _) as [c1' hs1], (compileHeaders Compile c2 _) as [c2' hs2].
  simpl in *. subst. destruct (header_only r); by apply IH.
Qed.

Lemma empty_cache_ok : cache_ok Compile ∅.
Proof. intros pat re H. by rewrite lookup_empty in H. Qed.

Lemma ToSnapshot_cache cache routes :
  cache_ok Compile cache →
  (ToSnapshot Compile cache routes).2 = snapshot_of routes ∧
  cache_ok Compile (ToSnapshot Compile cache routes).1.
Proof. intros H. apply ToSnapshot_cache_gen; [done|apply empty_cache_ok]. Qed.

(** ** Invariant *)

Lemma init_header_idemp h : init_header Compile (init_header Compile h) = init_header Compile h.
Proof.
  destruct h as [n vs [] re]; [|done]. destruct vs as [|v vs]; [done|].
  unfold init_header; simpl. unfold SetValueRegex.
  destruct (Compile v) eqn:E; simpl; by rewrite ?E.
Qed.

Lemma init_route_idemp r : init_route Compile (init_route Compile r) = init_route Compile r.
Proof.
  unfold init_route; simpl. do 2 f_equal. rewrite map_map. apply map_ext, init_header_idemp.
Qed.

Lemma initRegex_idemp routes : initRegex Compile (initRegex Compile routes) = initRegex Compile routes.
Proof. unfold initRegex. rewrite map_map. apply map_ext, init_route_idemp. Qed.

(** The published snapshot is the one of the routes collected so far. *)
Definition in_sync rm : Prop :=
  mainSnapshot rm = Some (snapshot_of (initRegex Compile (nextSnapshot rm))).

Record coord_inv rm : Prop := {
  ci_cache : cache_ok Compile (regexCache rm);
  (** one goroutine while there is a timer, none otherwise *)
  ci_goroutines : waiting rm + woken rm = match timer rm with Some _ => 1 | None => 0 end;
  (** no lost wakeup *)
  ci_wakeup t : timer rm = Some t → waiting rm ≠ 0 → armed t = true ∨ chan t = true;
  (** no lost update *)
  ci_sync : timer rm = None → in_sync rm;
}.

Lemma publishLocked_spec rm :
  cache_ok Compile (regexCache rm) →
  in_sync (publishLocked rm) ∧ cache_ok Compile (regexCache (publishLocked rm)) ∧
  nextSnapshot (publishLocked rm) = initRegex Compile (nextSnapshot rm) ∧
  timer (publishLocked rm) = timer rm ∧ waiting (publishLocked rm) = waiting rm ∧
  woken (publishLocked rm) = woken rm ∧ debounce (publishLocked rm) = debounce rm.
Proof.
  intros Hc. unfold publishLocked, in_sync; simpl.
  destruct (ToSnapshot_cache (regexCache rm) (initRegex Compile (nextSnapshot rm)) Hc) as [Hs Hc'].
  destruct (ToSnapshot Compile (regexCache rm) _) as [c s]. simpl in *. subst s.
  by rewrite initRegex_idemp.
Qed.

Lemma schedule_inv rm routes :
  coord_inv rm → coord_inv (schedulePublishLocked (set_next rm routes)).
Proof.
  intros [Hc Hg Hw Hs]. unfold schedulePublishLocked; simpl.
  destruct (debounce rm <=? 0)%Z.
  - destruct (publishLocked_spec (set_next rm routes) Hc) as (H1 & H2 & H3 & H4 & H5 & H6 & H7).
    split; [done|by rewrite H4, H5, H6| |done]. rewrite H4, H5. exact Hw.
  - destruct (timer rm) as [t|] eqn:Et; split; simpl; try done; [|lia|]; intros; simplify_eq/=; auto.
Qed.

Lemma apply_update_inv rm u : coord_inv rm → coord_inv (apply_update rm u).
Proof.
  intros H. destruct u as [r|r]; simpl; [by apply schedule_inv|].
  unfold OnDeleteRouter. destruct (nextSnapshot rm); [done|]. by apply schedule_inv.
Qed.

Lemma awaitAndPublish_inv rm n : woken rm = S n → coord_inv rm → coord_inv (awaitAndPublish rm).
Proof.
  intros Hn [Hc Hg Hw Hs]. unfold awaitAndPublish.
  destruct (publishLocked_spec rm Hc) as (H1 & H2 & H3 & _).
  split; simpl; [done| |done|intros _; apply H1].
  rewrite Hn. destruct (timer rm); simpl; lia.
Qed.

Lemma internal_inv rm rm' : internal rm rm' → coord_inv rm → coord_inv rm'.
Proof.
  intros [t Ht Ha|t n Ht Hch Hwa|n Hn] Hinv; [| |by eapply awaitAndPublish_inv];
    destruct Hinv as [Hc Hg Hw Hs]; rewrite Ht in *; split; simpl; try done.
  - intros ? [= <-]. auto.
  - lia.
  - intros ? [= <-] Hn. lia.
Qed.

Lemma run_inv rm us rm' : run rm us rm' → coord_inv rm → coord_inv rm'.
Proof. induction 1; eauto using internal_inv, apply_update_inv. Qed.

Lemma Create_inv cache routes :
  cache_ok Compile cache → coord_inv (CreateRouterCoordinator cache routes).
Proof.
  intros Hc. unfold CreateRouterCoordinator; simpl.
  destruct (ToSnapshot_cache cache (initRegex Compile routes) Hc) as [Hs Hc'].
  destruct (ToSnapshot Compile cache _) as [c s]. simpl in *. split; simpl; try done.
  intros _. unfold in_sync; simpl. by rewrite initRegex_idemp, <- Hs.
Qed.

(** ** What the updates amount to *)

Definition update_routes routes (u : update) : list (Router regexp) :=
  match u with
  | UAdd r => routes ++ [r]
  | UDelete r => filter (λ rr, ID rr ≠ ID r) routes
  end.

Lemma initRegex_filter r routes :
  initRegex Compile (filter (λ rr, ID rr ≠ ID r) routes) =
    filter (λ rr, ID rr ≠ ID r) (initRegex Compile routes).
Proof.
  induction routes as [|r0 routes IH]; [done|]. simpl. rewrite !filter_cons. simpl.
  case_decide; simpl; by rewrite IH.
Qed.

Lemma update_routes_init (l1 l2 : list (Router regexp)) u :
  initRegex Compile l1 = initRegex Compile l2 →
  initRegex Compile (update_routes l1 u) = initRegex Compile (update_routes l2 u).
Proof.
  intros H. destruct u as [r|r]; simpl.
  - unfold initRegex in *. by rewrite !map_app, H.
  - by rewrite !initRegex_filter, H.
Qed.

Lemma foldl_update_init us (l1 l2 : list (Router regexp)) :
  initRegex Compile l1 = initRegex Compile l2 →
  initRegex Compile (foldl update_routes l1 us) = initRegex Compile (foldl update_routes l2 us).
Proof. revert l1 l2. induction us; simpl; eauto using update_routes_init. Qed.

Lemma publishLocked_next rm : nextSnapshot (publishLocked rm) = initRegex Compile (nextSnapshot rm).
Proof. unfold publishLocked. by destruct (ToSnapshot _ _ _). Qed.

Lemma schedule_next rm :
  initRegex Compile (nextSnapshot (schedulePublishLocked rm)) = initRegex Compile (nextSnapshot rm).
Proof.
  unfold schedulePublishLocked. case_match; [by rewrite publishLocked_next, initRegex_idemp|].
  by destruct (timer rm).
Qed.

Lemma apply_update_next rm u :
  initRegex Compile (nextSnapshot (apply_update rm u)) =
    initRegex Compile (update_routes (nextSnapshot rm) u).
Proof.
  destruct u as [r|r]; simpl; [apply schedule_next|]. unfold OnDeleteRouter.
  destruct (nextSnapshot rm) eqn:E; [by rewrite E|]. by rewrite schedule_next, <- E.
Qed.

Lemma internal_next rm rm' :
  internal rm rm' → initRegex Compile (nextSnapshot rm') = initRegex Compile (nextSnapshot rm).
Proof. intros []; try done. simpl. by rewrite publishLocked_next, initRegex_idemp. Qed.

Lemma run_next rm us rm' :
  run rm us rm' →
  initRegex Compile (nextSnapshot rm') = initRegex Compile (foldl update_routes (nextSnapshot rm) us).
Proof.
  induction 1 as [|rm rm1 us rm2 H1 H2 IH|rm u us rm2 H1 IH]; [done| |]; rewrite IH.
  - by apply foldl_update_init, internal_next.
  - cbn [foldl]. by apply foldl_update_init, apply_update_next.
Qed.

(** ** Quiescence *)

Definition pending rm : nat :=
  (match timer rm with Some t => if armed t then 1 else 0 | None => 0 end) + 2 * waiting rm + woken rm.

Lemma internal_pending rm rm' : internal rm rm' → pending rm' < pending rm.
Proof.
  unfold pending. intros [t Ht Ha|t n Ht Hch Hwa|n Hn].
  - simpl. rewrite Ht, Ha. lia.
  - simpl. rewrite Ht, Hwa. lia.
  - simpl. rewrite Hn. simpl. destruct (timer rm); lia.
Qed.

Lemma stuck_in_sync rm : coord_inv rm → (∀ rm', ¬ internal rm rm') → in_sync rm ∧ timer rm = None.
Proof.
  intros [Hc Hg Hw Hs] Hn. destruct (timer rm) as [t|] eqn:Et; [exfalso|by auto].
  destruct (woken rm) as [|k] eqn:Ew; [|by eapply Hn, internal_publish].
  destruct (waiting rm) as [|k] eqn:Ea; [lia|].
  destruct (Hw t eq_refl) as [Ha|Ha]; [done|by eapply Hn, internal_fire|by eapply Hn, internal_receive].
Qed.

End coordinator.

(** ** [router_manager.go]

    Listeners are compared by identity; the coordinators they stand for are in
    a store indexed by it. *)

Inductive validate_error : Type :=
  | ErrDuplicateRoute (id : string)
  | ErrNoMatchCondition (id : string)
  | ErrNoCluster (id : string).

Record RouterManager (regexp : Type) : Type := mkRouterManager {
  rls : list nat;
  coords : gmap nat (RouterCoordinator regexp);
}.
Arguments mkRouterManager {regexp} _ _.
Arguments rls {regexp} _.
Arguments coords {regexp} _.

Section manager.
Context {regexp : Type} (Compile : string → option regexp).
Implicit Types (w : RouterManager regexp) (r : Router regexp) (routes : list (Router regexp)) (l : nat).

Definition AddRouterListener w l : RouterManager regexp := mkRouterManager (rls w ++ [l]) (coords w).

Fixpoint remove_first (l : nat) (ls : list nat) : list nat :=
  match ls with
  | [] => []
  | x :: ls => if decide (x = l) then ls else x :: remove_first l ls
  end.

Definition RemoveRouterListener w l : RouterManager regexp :=
  mkRouterManager (remove_first l (rls w)) (coords w).

Definition ClearRouterListeners w : RouterManager regexp := mkRouterManager [] (coords w).

(** Calling every listener of the copy of [rls]. *)
Definition notify w (u : update (regexp := regexp)) : RouterManager regexp :=
  mkRouterManager (rls w) (foldl (λ cs l, alter (λ c, apply_update Compile c u) l cs) (coords w) (rls w)).

Definition AddRouter w r : RouterManager regexp := notify w (UAdd r).
Definition DeleteRouter w r : RouterManager regexp := notify w (UDelete r).

Fixpoint validate_from (routeIDs : gset string) routes : result validate_error unit :=
  match routes with
  | [] => Ok ()
  | r :: routes =>
      if decide (ID r ∈ routeIDs) then Err (ErrDuplicateRoute (ID r))
      else if bool_decide (Prefix (RMatch r) = "") && bool_decide (Path (RMatch r) = "")
      then Err (ErrNoMatchCondition (ID r))
      else if decide (Cluster (Route r) = "") then Err (ErrNoCluster (ID r))
      else validate_from ({[ID r]} ∪ routeIDs) routes
  end.

Definition validateRoutes routes : result validate_error unit := validate_from ∅ routes.

Definition UpdateRoutes w (oldRoutes newRoutes : list (Router regexp))
    : result validate_error (RouterManager regexp) :=
  match validateRoutes newRoutes with
  | Err e => Err e
  | Ok _ => Ok (foldl AddRouter (foldl DeleteRouter w oldRoutes) newRoutes)
  end.

(** *** What validation lets through *)

Definition route_ok r : Prop :=
  (Prefix (RMatch r) ≠ "" ∨ Path (RMatch r) ≠ "") ∧ Cluster (Route r) ≠ "".

Lemma validate_from_spec ids routes :
  validate_from ids routes = Ok () ↔
    NoDup (map ID routes) ∧ (∀ r, r ∈ routes → ID r ∉ ids) ∧ Forall route_ok routes.
Proof.
  revert ids. induction routes as [|r routes IH]; intros ids; simpl.
  { split; [|done]. intros _. split_and!; [constructor|set_solver|constructor]. }
  rewrite NoDup_cons, Forall_cons. unfold route_ok at 1. case_decide as Hd.
  { split; [done|]. intros (_ & H & _). exfalso. apply (H r); [constructor|done]. }
  destruct (bool_decide (Prefix (RMatch r) = "") && bool_decide (Path (RMatch r) = "")) eqn:Ep.
  { apply andb_true_iff in Ep as [H1%bool_decide_eq_true H2%bool_decide_eq_true].
    split; [done|]. by intros (_ & _ & ([?|?] & _) & _). }
  destruct (decide (Cluster (Route r) = "")) as [Hc|Hc];
    [by split; [|intros (_ & _ & (_ & ?) & _)]|]. rewrite IH. setoid_rewrite elem_of_cons.
  assert (Prefix (RMatch r) ≠ "" ∨ Path (RMatch r) ≠ "") as Hp.
  { apply andb_false_iff in Ep as [H%bool_decide_eq_false|H%bool_decide_eq_false]; auto. }
  split.
  - intros (Hn & Hi & Hf). split_and!; try done.
    + intros (r' & Heq & Hr')%list_elem_of_fmap. apply (Hi r'); [done|set_solver].
    + intros r' [->|Hr']; [done|]. specialize (Hi r' Hr'). set_solver.
  - intros ((Hni & Hn) & Hi & _ & Hf). split_and!; [done| |done].
    intros r' Hr' [Heq%elem_of_singleton|Hin]%elem_of_union; [|by apply (Hi r'); [right|]].
    apply Hni. rewrite <- Heq. by apply (list_elem_of_fmap_2 ID).
Qed.

(** *** What a listener sees *)

Lemma notify_fold u ls (cs : gmap nat (RouterCoordinator regexp)) l :
  NoDup ls →
  foldl (λ cs l, alter (λ c, apply_update Compile c u) l cs) cs ls !! l =
    if decide (l ∈ ls) then (λ c, apply_update Compile c u) <$> cs !! l else cs !! l.
Proof.
  intros Hn. revert cs. induction Hn as [|x ls Hx Hn IH]; intros cs; [done|]. simpl. rewrite IH.
  destruct (decide (l = x)) as [->|Hne].
  - rewrite decide_False, decide_True by (done || constructor). apply lookup_alter_eq.
  - rewrite lookup_alter_ne by done.
    destruct (decide (l ∈ ls)); [rewrite decide_True by (by right)|rewrite decide_False by set_solver]; done.
Qed.

Definition notify_all w (us : list update) : RouterManager regexp := foldl notify w us.

Lemma notify_all_rls w us : rls (notify_all w us) = rls w.
Proof. revert w. induction us as [|u us IH]; intros w; [done|]. unfold notify_all in *. simpl. by rewrite IH. Qed.

Lemma notify_all_listener w us l c :
  NoDup (rls w) → l ∈ rls w → coords w !! l = Some c →
  coords (notify_all w us) !! l = Some (foldl (apply_update Compile) c us).
Proof.
  revert w c. induction us as [|u us IH]; intros w c Hn Hl Hc; [done|]. unfold notify_all in *. simpl.
  apply IH; simpl; [done..|]. by rewrite notify_fold, decide_True, Hc.
Qed.

Definition reload_updates (oldRoutes newRoutes : list (Router regexp)) : list update :=
  map UDelete oldRoutes ++ map UAdd newRoutes.

Lemma UpdateRoutes_notify w oldRoutes newRoutes :
  foldl AddRouter (foldl DeleteRouter w oldRoutes) newRoutes =
    notify_all w (reload_updates oldRoutes newRoutes).
Proof.
  unfold notify_all, reload_updates. rewrite foldl_app.
  assert (∀ f w (rs : list (Router regexp)), foldl notify w (map f rs) = foldl (λ w r, notify w (f r)) w rs) as H.
  { intros f w' rs. revert w'. by induction rs; simpl; intros. }
  by rewrite !H.
Qed.

Lemma reload_routes routes oldRoutes newRoutes :
  foldl update_routes routes (reload_updates oldRoutes newRoutes) =
    filter (λ r, ID r ∉ map ID oldRoutes) routes ++ newRoutes.
Proof.
  unfold reload_updates. rewrite foldl_app.
  assert (foldl update_routes routes (map UDelete oldRoutes) = filter (λ r, ID r ∉ map ID oldRoutes) routes) as ->.
  { revert routes. induction oldRoutes as [|o os IH]; intros routes; simpl.
    - induction routes as [|r routes IH]; [done|]. rewrite filter_cons_True by set_solver. by f_equal.
    - rewrite IH, list_filter_filter. apply list_filter_iff. intros r. rewrite not_elem_of_cons. tauto. }
  generalize (filter (λ r, ID r ∉ map ID oldRoutes) routes). clear.
  induction newRoutes as [|n ns IH]; intros l; simpl; [by rewrite app_nil_r|].
  rewrite IH. by rewrite <- app_assoc.
Qed.

End manager.

(** ** The single trie of a [RouteConfiguration] *)

Section single_trie.
Context {regexp : Type} (Compile : string → option regexp).
Implicit Types (r : Router regexp) (routes : list (Router regexp)).

(** Every route and method, header-only routes included. *)
Definition all_entries routes : list (string * Router regexp) :=
  concat (map (λ r, map (λ m, (m, r)) (route_methods r)) routes).

Definition under_pattern (es : list (string * Router regexp)) (q : list seg)
    : list (string * Router regexp) := filter (λ e, entry_pattern e = q) es.

Lemma forallb_valid (es : list (string * Router regexp)) :
  forallb valid_entry es = true → Forall entry_valid es.
Proof. rewrite forallb_forall, Forall_forall. by setoid_rewrite list_elem_of_In. Qed.

Definition trie_holds (es : list (string * Router regexp)) (t : Trie BizInfo) : Prop :=
  trie_wf t ∧
  ∀ q, q ≠ [] → trie_map t q = (λ e, BizAction (Route e.2)) <$> head (under_pattern es q).

Lemma fill_entry_holds es t e :
  entry_valid e → trie_holds es t → trie_holds (es ++ [e]) (fill_entry e.2 t e.1).
Proof.
  intros [Hm Hp]%valid_entry_spec [Hwf Hmap]. pose proof (route_key_pattern e Hm) as Hk.
  destruct (Put_map t (route_key e.2 e.1) (BizAction (Route e.2))) as (_ & Hwf' & Hmap');
    [done|by rewrite Hk|]. split; [exact Hwf'|]. rewrite Hk in Hmap'. intros q Hq.
  unfold fill_entry, under_pattern. rewrite Hmap', filter_app, filter_cons, filter_nil by done.
  case_decide as E.
  - subst q. rewrite decide_True by done. rewrite Hmap by done. unfold under_pattern.
    by destruct (filter _ es).
  - rewrite decide_False by done. rewrite app_nil_r. by apply Hmap.
Qed.

Lemma fill_methods_holds es t r ms :
  Forall entry_valid (map (λ m, (m, r)) ms) → trie_holds es t →
  trie_holds (es ++ map (λ m, (m, r)) ms) (foldl (fill_entry r) t ms).
Proof.
  revert es t. induction ms as [|m ms IH]; intros es t Hv Ht; simpl; [by rewrite app_nil_r|].
  inversion Hv; subst. rewrite cons_middle, app_assoc. apply IH; [done|].
  by apply (fill_entry_holds es t (m, r)).
Qed.

Lemma fillTrieFromRoutes_holds routes :
  Forall entry_valid (all_entries routes) →
  trie_holds (all_entries routes) (fillTrieFromRoutes NewTrie routes).
Proof.
  unfold all_entries, fillTrieFromRoutes. induction routes as [|r routes IH] using rev_ind.
  { intros _. split; [apply NewTrie_wf|]. intros q Hq. by apply view_emptyNode. }
  rewrite map_app, concat_app, foldl_app. simpl. rewrite app_nil_r, Forall_app. intros [H1 H2].
  apply fill_methods_holds; auto.
Qed.

(** The first configured route under the first pattern that has one. *)
Definition spec_single (es : list (string * Router regexp)) (parts : list string) : option RouteAction :=
  first_some (λ '(p, _), (λ e, Route e.2) <$> head (under_pattern es p)) (candidate_patterns parts).

Lemma match_holds es t parts :
  trie_holds es t → parts ≠ [] →
  (λ '(n, _), bizInfo n) <$> node_match (root t) parts None =
    (λ a, Some (BizAction a)) <$> spec_single es parts.
Proof.
  intros [Hwf Hmap] Hparts. rewrite node_match_spec by done. unfold spec_single.
  rewrite <- !first_some_fmap. apply first_some_ext. intros [p vs] Hp.
  apply candidate_patterns_not_nil in Hp as Hne. simpl in Hne. specialize (Hmap p Hne).
  unfold try_pattern, trie_map, view in *. simpl in *.
  destruct (candidate_at (root t) p) as [n|] eqn:E; simpl.
  - destruct (candidate_at_wf (root t) p n Hwf Hne E) as [b Hb]. rewrite Hb in *.
    by destruct (head _); simplify_eq/=.
  - by destruct (head _).
Qed.

End single_trie.

(** ** Published routes answer requests *)

Section published.
Context {regexp : Type} (Compile : string → option regexp)
  (MatchString : regexp → string → bool).
Implicit Types (h : HeaderMatcher regexp) (r : Router regexp) (routes : list (Router regexp))
  (rm : RouterCoordinator regexp).

Definition settled rm : Prop := ∀ rm', ¬ internal Compile rm rm'.

Lemma step_or_settled rm : (∃ rm', internal Compile rm rm') ∨ settled rm.
Proof.
  destruct (woken rm) as [|n] eqn:Ew; [|left; by eexists; eapply internal_publish].
  destruct (timer rm) as [t|] eqn:Et; [|right; intros rm' H; inversion H; congruence].
  destruct (armed t) eqn:Ea; [left; by eexists; eapply internal_fire|].
  destruct (chan t) eqn:Ec; [|right; intros rm' H; inversion H; congruence].
  destruct (waiting rm) as [|n] eqn:En; [right; intros rm' H; inversion H; congruence|].
  left. by eexists; eapply internal_receive.
Qed.

Lemma nsteps_pending n rm rm' : nsteps (internal Compile) n rm rm' → n + pending rm' ≤ pending rm.
Proof.
  induction 1 as [|n rm1 rm2 rm3 H _ IH]; [lia|]. apply internal_pending in H. lia.
Qed.

Lemma settles rm : ∃ n rm', nsteps (internal Compile) n rm rm' ∧ settled rm'.
Proof.
  remember (pending rm) as k eqn:Hk. revert rm Hk.
  induction (lt_wf k) as [k _ IH]. intros rm ->.
  destruct (step_or_settled rm) as [[rm1 H1]|Hs]; [|exists 0, rm; split; [constructor|done]].
  destruct (IH _ (internal_pending Compile rm rm1 H1) rm1 eq_refl) as (n & rm2 & Hn & Hs).
  exists (S n), rm2. split; [by econstructor|done].
Qed.

Lemma run_app rm us rm1 n rm2 :
  run Compile rm us rm1 → nsteps (internal Compile) n rm1 rm2 → run Compile rm us rm2.
Proof.
  induction 1 as [rm|rm rm3 us rm4 H1 H2 IH|rm u us rm4 H1 IH]; intros Hn.
  - induction Hn; [constructor|by econstructor].
  - eapply run_internal; eauto.
  - apply run_update. auto.
Qed.

Lemma run_settled cache routes us rm :
  cache_ok Compile cache → run Compile (CreateRouterCoordinator Compile cache routes) us rm → settled rm →
  mainSnapshot rm = Some (snapshot_of Compile (initRegex Compile (foldl update_routes routes us))).
Proof.
  intros Hc Hr Hs. pose proof (run_inv Compile _ _ _ Hr (Create_inv Compile cache routes Hc)) as Hinv.
  destruct (stuck_in_sync Compile rm Hinv Hs) as [Hsync _]. unfold in_sync in Hsync. rewrite Hsync.
  do 2 f_equal. rewrite (run_next Compile _ _ _ Hr). apply foldl_update_init.
  unfold CreateRouterCoordinator. destruct (ToSnapshot _ _ _). apply initRegex_idemp.
Qed.

Lemma run_pending cache routes us rm :
  cache_ok Compile cache → run Compile (CreateRouterCoordinator Compile cache routes) us rm → pending rm ≤ 3.
Proof.
  intros Hc Hr. destruct (run_inv Compile _ _ _ Hr (Create_inv Compile cache routes Hc)) as [_ Hg _ _].
  unfold pending. destruct (timer rm) as [t|]; [destruct (armed t)|]; lia.
Qed.

(** *** Validity does not depend on the headers' expressions *)

Lemma entries_init routes :
  entries (initRegex Compile routes) = map (λ e, (e.1, init_route Compile e.2)) (entries routes).
Proof.
  unfold entries, initRegex. rewrite map_map, concat_map, map_map. f_equal. apply map_ext. intros r.
  unfold route_entries. assert (header_only (init_route Compile r) = header_only r) as ->.
  { unfold header_only; simpl. by destruct (Headers (RMatch r)). }
  destruct (header_only r); [done|]. rewrite map_map. done.
Qed.

Lemma valid_routes_init routes : valid_routes (initRegex Compile routes) = valid_routes routes.
Proof. unfold valid_routes. rewrite entries_init. by induction (entries routes); simpl; f_equal. Qed.

(** *** The headers of a published route *)

(** What a configured header matcher asks of a request. *)
Definition header_ok (req : Request) h : bool :=
  let val := Header_Get (req_Header req) (hm_Name h) in
  negb (bool_decide (val = "")) &&
  match hm_Regex h, hm_Values h with
  | true, v :: _ =>
      match Compile v with
      | Some re => MatchString re val
      | None => bool_decide (val ∈ hm_Values h)
      end
  | _, _ => bool_decide (val ∈ hm_Values h)
  end.

Lemma matchHeaders_cons ch chs req :
  matchHeaders MatchString (ch :: chs) req = matchHeaders MatchString [ch] req && matchHeaders MatchString chs req.
Proof.
  simpl. destruct (negb _); [|done].
  destruct (ch_Regex ch); [destruct (MatchString _ _)|case_bool_decide]; done.
Qed.

Lemma init_header_ok req h :
  hm_valueRE h = None →
  ∃ ch, compile_header Compile (init_header Compile h) = Some ch ∧
    matchHeaders MatchString [ch] req = header_ok req h.
Proof.
  destruct h as [n vs re vre]; simpl; intros ->. unfold init_header, header_ok, compile_header, SetValueRegex; simpl.
  destruct re; [destruct vs as [|v vs]; [|destruct (Compile v) eqn:E]|]; simpl; rewrite ?E;
    eexists; (split; [done|]); simpl; destruct (negb _); simpl; try done;
    try destruct (MatchString _ _); try case_bool_decide; done.
Qed.

Lemma spec_accept_init req r :
  Forall (λ h, hm_valueRE h = None) (Headers (RMatch r)) →
  spec_accept Compile MatchString req (init_route Compile r) = forallb (header_ok req) (Headers (RMatch r)).
Proof.
  unfold spec_accept, route_headers, compile_headers; simpl.
  induction 1 as [|h hs Hh Hhs IH]; [done|]. simpl.
  destruct (init_header_ok req h Hh) as (ch & -> & Hch).
  rewrite matchHeaders_cons, Hch. by f_equal.
Qed.

End published.

(** ** Properties *)

(** C6: no update is lost.  In every interleaving of route updates with the
    debounce timer and its goroutine, at most three more internal steps are
    possible once the updates stop, and when none is possible the published
    snapshot is the one of the initial routes with all the updates applied in
    order. *)
Theorem updates_converge {regexp} (Compile : string → option regexp) cache
    (routes : list (Router regexp)) us rm :
  cache_ok Compile cache → run Compile (CreateRouterCoordinator Compile cache routes) us rm →
  (∃ n rm', nsteps (internal Compile) n rm rm' ∧ settled Compile rm') ∧
  (∀ n rm', nsteps (internal Compile) n rm rm' →
    n ≤ 3 ∧
    (settled Compile rm' →
     mainSnapshot rm' = Some (snapshot_of Compile (initRegex Compile (foldl update_routes routes us))))).
Proof.
  intros Hc Hr. split; [apply settles|]. intros n rm' Hn. split.
  - pose proof (nsteps_pending Compile n rm rm' Hn). pose proof (run_pending Compile cache routes us rm Hc Hr). lia.
  - intros Hs. eapply run_settled; [done| |done]. by eapply run_app.
Qed.

(** Once a coordinator has settled, [route] answers according to the updated
    list of routes. *)
Theorem settled_coordinator_routes {regexp} (Compile : string → option regexp)
    (MatchString : regexp → string → bool) cache (routes : list (Router regexp)) us rm (req : Request) :
  cache_ok Compile cache → run Compile (CreateRouterCoordinator Compile cache routes) us rm →
  settled Compile rm →
  valid_routes (foldl update_routes routes us) = true → valid_method (req_Method req) = true →
  route MatchString (mainSnapshot rm) req =
    spec_route Compile MatchString (initRegex Compile (foldl update_routes routes us)) req.
Proof.
  intros Hc Hr Hs Hv Hm. rewrite (run_settled Compile cache routes us rm Hc Hr Hs).
  apply route_spec_route; [apply empty_cache_ok|by rewrite valid_routes_init|done].
Qed.

(** The headers of a published route are a conjunction.  Every header must be
    present and not empty; an expression is matched, a list of values is
    searched, and an expression that does not compile is compared literally
    with the configured values. *)
Theorem published_headers_conjunction {regexp} (Compile : string → option regexp)
    (MatchString : regexp → string → bool) (req : Request) (r : Router regexp) :
  Forall (λ h, hm_valueRE h = None) (Headers (RMatch r)) →
  matchHeaders MatchString (compile_headers Compile (Headers (RMatch (init_route Compile r)))) req =
    forallb (header_ok Compile MatchString req) (Headers (RMatch r)).
Proof. apply spec_accept_init. Qed.

(** Validation accepts a list of routes exactly when its identifiers are
    distinct and every route has a prefix or a path and a cluster; so a
    header-only route, which the snapshot supports, never passes. *)
Theorem validate_routes_exact {regexp} (routes : list (Router regexp)) :
  (validateRoutes routes = Ok () ↔
    NoDup (map ID routes) ∧
    Forall (λ r, (Prefix (RMatch r) ≠ "" ∨ Path (RMatch r) ≠ "") ∧ Cluster (Route r) ≠ "") routes) ∧
  ((∃ r, r ∈ routes ∧ header_only r = true) → validateRoutes routes ≠ Ok ()).
Proof.
  assert (validateRoutes routes = Ok () ↔ NoDup (map ID routes) ∧ Forall route_ok routes) as H.
  { unfold validateRoutes. rewrite validate_from_spec. split; [tauto|]. intros [H1 H2].
    split_and!; [done| |done]. intros r _. apply not_elem_of_empty. }
  split; [exact H|]. intros (r & Hr & Hh) [_ Hf]%H. rewrite Forall_forall in Hf.
  destruct (Hf r Hr) as [Hp _]. unfold header_only in Hh.
  apply andb_true_iff in Hh as [[Hh1 Hh2]%andb_true_iff _].
  apply bool_decide_eq_true in Hh1, Hh2. naive_solver.
Qed.

(** [UpdateRoutes] changes nothing when validation fails; otherwise every
    registered coordinator is given the deletions and then the additions, and
    its list of routes becomes the old one without the deleted identifiers,
    followed by the new routes. *)
Theorem update_routes_reaches_listeners {regexp} (Compile : string → option regexp)
    (w : RouterManager regexp) oldRoutes newRoutes l c :
  NoDup (rls w) → l ∈ rls w → coords w !! l = Some c →
  match UpdateRoutes Compile w oldRoutes newRoutes with
  | Err e => validateRoutes newRoutes = Err e
  | Ok w' => rls w' = rls w ∧ ∃ c', coords w' !! l = Some c' ∧
      run Compile c (reload_updates oldRoutes newRoutes) c' ∧
      initRegex Compile (nextSnapshot c') =
        initRegex Compile (filter (λ r, ID r ∉ map ID oldRoutes) (nextSnapshot c) ++ newRoutes)
  end.
Proof.
  intros Hn Hl Hc. unfold UpdateRoutes. destruct (validateRoutes newRoutes); [|done].
  rewrite UpdateRoutes_notify. split; [apply notify_all_rls|].
  eexists. split; [by apply notify_all_listener|].
  set (us := reload_updates oldRoutes newRoutes).
  assert (∀ c, run Compile c us (foldl (apply_update Compile) c us)) as Hrun.
  { clear. induction us as [|u us IH]; intros c; simpl; [constructor|]. by apply run_update. }
  split; [done|]. by rewrite (run_next Compile _ _ _ (Hrun c)), <- reload_routes.
Qed.

(** An update that replaces a route by itself is not atomic: the timer can
    publish between the deletion and the addition, and then a request that the
    old and the new configuration both answer finds no rule. *)
Theorem update_routes_not_atomic :
  let r := example.on ["GET"] "/a" [] "c" in
  let rm := CreateRouterCoordinator example.Compile ∅ [r] in
  let req := example.get "/a" ∅ in
  route example.MatchString (mainSnapshot rm) req = Ok (Route r) ∧
  ∃ mid rm', run example.Compile rm [UDelete r] mid ∧ run example.Compile mid [UAdd r] rm' ∧
    route example.MatchString (mainSnapshot mid) req = Err (ErrNoRule "GET/a") ∧
    route example.MatchString (mainSnapshot rm') req = Ok (Route r).
Proof.
  cbv zeta. split; [reflexivity|].
  assert (∀ rm u, timer rm = None → waiting rm = 0 → woken rm = 0 → (0 < debounce rm)%Z →
    nextSnapshot rm ≠ [] ∨ (∃ r, u = UAdd r) →
    ∃ rm1, run example.Compile rm [u] (awaitAndPublish example.Compile rm1) ∧
      rm1 = set_timer (set_next rm (update_routes (nextSnapshot rm) u)) (Some (mkTimer false false)) 0 1) as Hstep.
  { intros rm u Ht Hwa Hwo Hd Hne. eexists. split; [|reflexivity]. apply run_update.
    assert (apply_update example.Compile rm u =
      set_timer (set_next rm (update_routes (nextSnapshot rm) u)) (Some (mkTimer true false)) 1 0) as ->.
    { destruct rm as [m n t d wa wo c]; simpl in *. subst.
      destruct u as [r|r]; simpl; unfold OnAddRouter, OnDeleteRouter, schedulePublishLocked; simpl;
        (destruct (Z.leb_spec d 0); [lia|]); [done|].
      destruct n; [destruct Hne as [?|[??]]; done|done]. }
    eapply run_internal; [by eapply internal_fire|].
    eapply run_internal; [by eapply internal_receive|].
    eapply run_internal; [by eapply internal_publish|]. constructor. }
  set (rm := CreateRouterCoordinator _ _ _).
  destruct (Hstep rm (UDelete (example.on ["GET"] "/a" [] "c"))) as (m1 & H1 & E1); [done..|by left|].
  destruct (Hstep (awaitAndPublish example.Compile m1) (UAdd (example.on ["GET"] "/a" [] "c"))) as (m2 & H2 & E2);
    [subst m1; done..|right; by eexists|].
  eexists _, _. split; [exact H1|]. split; [exact H2|]. subst m2 m1. split; vm_compute; reflexivity.
Qed.

(** The trie of a built [RouteConfiguration] answers with the action of the
    first configured route under the first pattern, in priority order, that has
    a route; neither a nil action nor a failing type assertion can occur. *)
Theorem route_configuration_refines {regexp} (Compile : string → option regexp)
    (routes : list (Router regexp)) (path method : string) :
  forallb valid_entry (all_entries (initRegex Compile routes)) = true → valid_method method = true →
  let rc := buildRouteConfiguration Compile routes in
  RouteByPathAndMethod rc path method =
    if IsEmpty (RouteTrie rc) then Err ErrEmpty
    else match spec_single (all_entries (Routes rc)) (method :: path_segments path) with
         | Some a => Ok a
         | None => Err (ErrNoMatch (GetTrieKey method path))
         end.
Proof.
  intros Hv Hm. cbv zeta. unfold RouteByPathAndMethod. destruct (IsEmpty _); [done|].
  unfold Match, MatchWithPredicate. cbv zeta. rewrite GetTrieKey_no_query, Split_GetTrieKey by done.
  simpl RouteTrie. simpl Routes.
  pose proof (match_holds (all_entries (initRegex Compile routes))
    (fillTrieFromRoutes NewTrie (initRegex Compile routes)) (method :: path_segments path)) as Hmatch.
  specialize (Hmatch (fillTrieFromRoutes_holds _ (forallb_valid _ Hv)) ltac:(done)).
  destruct (node_match _ _ _) as [[n vs]|], (spec_single _ _) as [a|]; simplify_eq/=; [|done].
  by rewrite Hmatch.
Qed.

(** *** Witnesses *)

Definition example_update : update := UAdd (example.on ["POST"] "/new" [] "new").

Lemma example_run :
  run example.Compile (CreateRouterCoordinator example.Compile ∅ example.routes) [example_update]
    (apply_update example.Compile (CreateRouterCoordinator example.Compile ∅ example.routes) example_update).
Proof. apply run_update, run_done. Qed.

Lemma updates_converge_witness :
  ∃ n rm', nsteps (internal example.Compile) n
    (apply_update example.Compile (CreateRouterCoordinator example.Compile ∅ example.routes) example_update) rm' ∧
    settled example.Compile rm'.
Proof.
  exact (proj1 (updates_converge example.Compile ∅ example.routes [example_update] _
    example.no_regexps_ok example_run)).
Defined.

Lemma example_settled : settled example.Compile (CreateRouterCoordinator example.Compile ∅ example.routes).
Proof. intros rm H. inversion H; discriminate. Qed.

Lemma settled_coordinator_routes_witness :
  route example.MatchString (mainSnapshot (CreateRouterCoordinator example.Compile ∅ example.routes))
    (example.get "/api/v1/x" ∅) = Ok (example.action "api").
Proof.
  rewrite (settled_coordinator_routes example.Compile example.MatchString ∅ example.routes [] _
    (example.get "/api/v1/x" ∅) example.no_regexps_ok (run_done example.Compile _) example_settled eq_refl eq_refl).
  reflexivity.
Defined.

Lemma published_headers_conjunction_witness :
  let r := example.on ["GET"] "/a" [mkHeaderMatcher "x-v" ["("] true None] "c" in
  let req := example.get "/a" {["X-V" := ["("]]} in
  matchHeaders example.MatchString
    (compile_headers example.Compile (Headers (RMatch (init_route example.Compile r)))) req = true.
Proof.
  cbv zeta. rewrite (published_headers_conjunction example.Compile example.MatchString).
  - reflexivity.
  - repeat constructor.
Defined.

Lemma update_routes_reaches_listeners_witness :
  let c := CreateRouterCoordinator example.Compile ∅ example.routes in
  let w := mkRouterManager [1] {[1 := c]} in
  let old := [example.on ["GET"] "/user/*" [] "stable"] in
  let new := [example.on ["GET"] "/user/*" [] "next"] in
  match UpdateRoutes example.Compile w old new with
  | Err _ => False
  | Ok w' => ∃ c', coords w' !! 1 = Some c' ∧ map ID (nextSnapshot c') = ["gray"; "api"; "rpc"; "canary"; "next"]
  end.
Proof.
  cbv zeta.
  destruct (update_routes_reaches_listeners example.Compile
    (mkRouterManager [1] {[1 := CreateRouterCoordinator example.Compile ∅ example.routes]})
    [example.on ["GET"] "/user/*" [] "stable"] [example.on ["GET"] "/user/*" [] "next"] 1
    (CreateRouterCoordinator example.Compile ∅ example.routes)) as (_ & c' & Hc' & _ & Hn);
    [apply NoDup_singleton|constructor|reflexivity|].
  exists c'. split; [exact Hc'|].
  transitivity (map ID (initRegex example.Compile (nextSnapshot c'))).
  - unfold initRegex. rewrite map_map. reflexivity.
  - rewrite Hn. reflexivity.
Defined.

Lemma route_configuration_refines_witness :
  RouteByPathAndMethod (buildRouteConfiguration example.Compile example.routes) "/user/9" "GET" =
    Ok (example.action "gray").
Proof.
  rewrite (route_configuration_refines example.Compile example.routes "/user/9" "GET" eq_refl eq_refl).
  reflexivity.
Defined.
