(* ===== verification/Sha256.v ===== *)
(** * SHA-256, the part of [crypto/sha256] the endpoint identities use

    Words are 32-bit integers in [Z]; a message is a list of bytes.  The
    function is executable and is checked on the standard test vectors. *)

From S2P Require Import Prelude.
Local Open Scope Z_scope.

Definition rotr (x n : Z) : Z := Z.lor (Z.shiftr x n) (wrap32 (Z.shiftl x (32 - n))).
Definition add32 (l : list Z) : Z := wrap32 (foldl Z.add 0 l).
Definition not32 (x : Z) : Z := 2 ^ 32 - 1 - x.

(** The constants are the first 32 bits of the fractional parts of roots of the
    first primes, as FIPS 180-4 defines them: cube roots for the rounds, square
    roots for the initial state. *)
Definition primes_below (n : Z) : list Z := List.filter is_prime (seqZ 0 n).

(** The largest [r] with [r ^ 3 ≤ x], from the bit below [bits] downwards. *)
Fixpoint cube_root (bits : nat) (x r : Z) : Z :=
  match bits with
  | O => r
  | S k => let r' := r + 2 ^ Z.of_nat k in cube_root k x (if r' ^ 3 <=? x then r' else r)
  end.

Definition K256 : list Z :=
  Eval vm_compute in (λ p, wrap32 (cube_root 36 (p * 2 ^ 96) 0)) <$> primes_below 312.

Definition H256 : list Z :=
  Eval vm_compute in (λ p, wrap32 (Z.sqrt (p * 2 ^ 64))) <$> primes_below 20.

(** Big-endian bytes of a number. *)
Fixpoint be_bytes (n : nat) (x : Z) : list Z :=
  match n with
  | O => []
  | S n => Z.land (Z.shiftr x (8 * Z.of_nat n)) 255 :: be_bytes n x
  end.

Fixpoint words (bytes : list Z) : list Z :=
  match bytes with
  | a :: b :: c :: d :: bytes =>
      Z.lor (Z.shiftl a 24) (Z.lor (Z.shiftl b 16) (Z.lor (Z.shiftl c 8) d)) :: words bytes
  | _ => []
  end.

Definition pad (msg : list Z) : list Z :=
  let len := Z.of_nat (length msg) in
  let zeros := Z.to_nat ((55 - len) `mod` 64) in
  msg ++ 128 :: replicate zeros 0 ++ be_bytes 8 (8 * len).

(** The message schedule, newest word first. *)
Fixpoint schedule (n : nat) (w : list Z) : list Z :=
  match n with
  | O => w
  | S n =>
      let at_ i := nth i w 0 in
      let s0 := Z.lxor (rotr (at_ 14%nat) 7) (Z.lxor (rotr (at_ 14%nat) 18) (Z.shiftr (at_ 14%nat) 3)) in
      let s1 := Z.lxor (rotr (at_ 1%nat) 17) (Z.lxor (rotr (at_ 1%nat) 19) (Z.shiftr (at_ 1%nat) 10)) in
      schedule n (add32 [s1; at_ 6%nat; s0; at_ 15%nat] :: w)
  end.

Definition round (st : list Z) (kw : Z * Z) : list Z :=
  match st with
  | [a; b; c; d; e; f; g; h] =>
      let S1 := Z.lxor (rotr e 6) (Z.lxor (rotr e 11) (rotr e 25)) in
      let ch := Z.lxor (Z.land e f) (Z.land (not32 e) g) in
      let t1 := add32 [h; S1; ch; kw.1; kw.2] in
      let S0 := Z.lxor (rotr a 2) (Z.lxor (rotr a 13) (rotr a 22)) in
      let maj := Z.lxor (Z.land a b) (Z.lxor (Z.land a c) (Z.land b c)) in
      [add32 [t1; S0; maj]; a; b; c; add32 [d; t1]; e; f; g]
  | _ => st
  end.

Definition block (st : list Z) (w : list Z) : list Z :=
  let ws := rev (schedule 48 (rev w)) in
  zip_with (λ x y, add32 [x; y]) st (foldl round st (zip K256 ws)).

Fixpoint blocks (fuel : nat) (st : list Z) (ws : list Z) : list Z :=
  match fuel, ws with
  | S fuel, _ :: _ => blocks fuel (block st (take 16 ws)) (drop 16 ws)
  | _, _ => st
  end.

(** One block per sixteen words, so that the number of words is enough fuel. *)
Definition sha256 (msg : list Z) : list Z :=
  let ws := words (pad msg) in
  concat (map (be_bytes 4) (blocks (length ws) H256 ws)).

Definition byte_values (s : string) : list Z := map (λ a, Z.of_N (N_of_ascii a)) (String.list_ascii_of_string s).

(** [fmt]'s [%x] of a byte slice *)
Definition hex_digit (n : Z) : ascii :=
  ascii_of_N (Z.to_N (if n <? 10 then 48 + n else 87 + n)).
Fixpoint hex (bytes : list Z) : string :=
  match bytes with
  | [] => ""
  | b :: bytes => String (hex_digit (Z.shiftr b 4)) (String (hex_digit (Z.land b 15)) (hex bytes))
  end.

Example sha256_abc :
  hex (sha256 (byte_values "abc")) = "ba7816bf8f01cfea414140de5dae2223b00361a396177a9cb410ff61f20015ad".
Proof. vm_compute. reflexivity. Qed.

Example sha256_two_blocks :
  hex (sha256 (byte_values "abcdbcdecdefdefgefghfghighijhijkijkljklmklmnlmnomnopnopq")) =
    "248d6a61d20638b8e5c026930c3e6039a33ce45964ff2167f6ecedd419db06c1".
Proof. vm_compute. reflexivity. Qed.
