(* ===== verification/Endpoint.v ===== *)
(** * Endpoints and their identities, [pkg/model/cluster.go], [pkg/model/base.go]
      and the content comparison of [pkg/server/cluster_manager.go]

    Copies ([CloneEndpoint] and the like) are the identity on values; what they
    separate is visible in the models that keep a runtime and a store apart. *)

From S2P Require Import Prelude GoStrings Sha256.

(** ** Dynamic values

    What a [map[string]any] decoded from YAML or JSON holds; a float is a
    mantissa and a binary exponent. *)
Inductive any : Type :=
  | ANil
  | ABool (b : bool)
  | AInt (z : Z)
  | AFloat (m e : Z)
  | AString (s : string)
  | AList (l : list any)
  | AMap (m : list (string * any)).

#[export] Instance any_eq_dec : EqDecision any.
Proof.
  refine (fix go x y {struct x} : {x = y} + {x ≠ y} :=
    match x, y with
    | ANil, ANil => left eq_refl
    | ABool a, ABool b => cast_if (decide (a = b))
    | AInt a, AInt b => cast_if (decide (a = b))
    | AFloat a e, AFloat b f => cast_if_and (decide (a = b)) (decide (e = f))
    | AString a, AString b => cast_if (decide (a = b))
    | AList a, AList b => cast_if (@list_eq_dec _ go a b)
    | AMap a, AMap b => cast_if (@list_eq_dec _ (@prod_eq_dec _ _ _ go) a b)
    | _, _ => right _
    end); abstract congruence.
Defined.

(** ** Data *)

Record RetryPolicy : Type := mkRetryPolicy {
  rp_Name : string;
  (** [None] is the nil map *)
  rp_Config : option (gmap string any);
}.

Record LLMMeta : Type := mkLLMMeta {
  Provider : string;
  APIKey : string;
  RetryPolicyOf : RetryPolicy;
  Fallback : bool;
  HealthCheckInterval : Z;
}.

Record SocketAddress : Type := mkSocketAddress {
  Address : string;
  Port : Z;
  ResolverName : string;
  Domains : list string;
  CertsDir : string;
}.

Record Endpoint : Type := mkEndpoint {
  EID : string;
  EName : string;
  EAddress : SocketAddress;
  Metadata : gmap string string;
  UnHealthy : bool;
  ELLMMeta : option LLMMeta;
}.

#[export] Instance RetryPolicy_eq_dec : EqDecision RetryPolicy.
Proof. solve_decision. Defined.
#[export] Instance LLMMeta_eq_dec : EqDecision LLMMeta.
Proof. solve_decision. Defined.
#[export] Instance SocketAddress_eq_dec : EqDecision SocketAddress.
Proof. solve_decision. Defined.
#[export] Instance Endpoint_eq_dec : EqDecision Endpoint.
Proof. solve_decision. Defined.

Definition set_EID (e : Endpoint) (id : string) : Endpoint :=
  mkEndpoint id (EName e) (EAddress e) (Metadata e) (UnHealthy e) (ELLMMeta e).
Definition set_EName (e : Endpoint) (n : string) : Endpoint :=
  mkEndpoint (EID e) n (EAddress e) (Metadata e) (UnHealthy e) (ELLMMeta e).
Definition set_UnHealthy (e : Endpoint) (u : bool) : Endpoint :=
  mkEndpoint (EID e) (EName e) (EAddress e) (Metadata e) u (ELLMMeta e).

(** ** Addresses *)

Definition GetAddress (a : SocketAddress) : string :=
  match Domains a with
  | d :: _ => d
  | [] => Address a +:+ ":" +:+ pretty (Port a)
  end.

Definition SocketAddress_Equal (a b : SocketAddress) : bool :=
  match Domains a, Domains b with
  | da :: _, db :: _ => bool_decide (da = db)
  | [], [] => bool_decide (Address a = Address b) && bool_decide (Port a = Port b)
  | _, _ => false
  end.

Definition GetHost (e : Endpoint) : string :=
  Address (EAddress e) +:+ ":" +:+ pretty (Port (EAddress e)).

(** ** Identities *)

Definition newline : string := String "010"%char "".

Definition endpointIDMaterialField (name value : string) : string :=
  name +:+ ":" +:+ pretty (String.length value) +:+ ":" +:+ value +:+ newline.

Definition endpointIDMaterial (clusterName : string) (endpoint : option Endpoint) : string :=
  let address := match endpoint with Some e => GetAddress (EAddress e) | None => "" end in
  let meta := match endpoint with Some e => ELLMMeta e | None => None end in
  let provider := match meta with Some m => Provider m | None => "" end in
  let apiKey := match meta with Some m => APIKey m | None => "" end in
  endpointIDMaterialField "cluster" clusterName +:+
  endpointIDMaterialField "address" address +:+
  endpointIDMaterialField "llm_provider" provider +:+
  endpointIDMaterialField "llm_api_key" apiKey.

Definition generatedEndpointIDPrefix : string := "pixiu-generated-endpoint-".

Definition GenerateEndpointID (clusterName : string) (endpoint : option Endpoint) : string :=
  let sum := sha256 (byte_values (endpointIDMaterial clusterName endpoint)) in
  generatedEndpointIDPrefix +:+ hex (take 8 sum).

Definition suffixed (baseID : string) (suffix : nat) : string := baseID +:+ "-" +:+ pretty suffix.

(** The loop over the suffixes; [taken] holds finitely many identities, so that
    one more turn than its size is enough ([free_suffix_fresh]). *)
Fixpoint free_suffix (fuel : nat) (baseID : string) (suffix : nat) (taken : gset string) : string :=
  match fuel with
  | O => suffixed baseID suffix
  | S fuel =>
      if decide (suffixed baseID suffix ∈ taken) then free_suffix fuel baseID (S suffix) taken
      else suffixed baseID suffix
  end.

Definition StableUniqueEndpointID (clusterName : string) (endpoint : option Endpoint)
    (taken : gset string) : string :=
  let baseID := match endpoint with Some e => EID e | None => "" end in
  let baseID := if decide (baseID = "") then GenerateEndpointID clusterName endpoint else baseID in
  if decide (baseID ∈ taken) then free_suffix (size taken) baseID 2 taken else baseID.

(** ** Content comparison *)

Definition socketAddressContentEqual (a b : SocketAddress) : bool :=
  bool_decide (Address a = Address b) && bool_decide (Port a = Port b) &&
  bool_decide (ResolverName a = ResolverName b) && bool_decide (CertsDir a = CertsDir b) &&
  bool_decide (Domains a = Domains b).

Definition stringMapEqualForSet (a b : gmap string string) : bool :=
  bool_decide (size a = size b) &&
  forallb (λ '(k, v), bool_decide (b !! k = Some v)) (map_to_list a).

Definition llmMetaEqualForSet (a b : option LLMMeta) : bool := bool_decide (a = b).

Definition endpointContentEqualForSet (a b : Endpoint) : bool :=
  socketAddressContentEqual (EAddress a) (EAddress b) &&
  stringMapEqualForSet (Metadata a) (Metadata b) &&
  llmMetaEqualForSet (ELLMMeta a) (ELLMMeta b).

(** ** Lemmas *)

Lemma pretty_N_char_not_colon d : (d < 10)%N → pretty_N_char d ≠ ":"%char.
Proof. intros H. assert (d ∈ [0;1;2;3;4;5;6;7;8;9]%N) as Hd by (set_unfold; lia). set_unfold in Hd. by destruct_or! Hd; subst. Qed.

Lemma pretty_N_go_no_colon x s :
  Strings.HasByte ":"%char s = false → Strings.HasByte ":"%char (pretty_N_go x s) = false.
Proof.
  revert s. induction (N.lt_wf_0 x) as [x _ IH]. intros s Hs.
  destruct (decide (0 < x)%N) as [Hx|Hx].
  - rewrite pretty_N_go_step by done. apply IH; [by apply N.div_lt|].
    apply Strings.HasByte_cons_false. split; [|done].
    apply pretty_N_char_not_colon. by apply N.mod_lt.
  - replace x with 0%N by lia. by rewrite pretty_N_go_0.
Qed.

Lemma pretty_N_no_colon (x : N) : Strings.HasByte ":"%char (pretty x) = false.
Proof. unfold pretty, pretty_N. case_decide; [done|]. by apply pretty_N_go_no_colon. Qed.

Lemma pretty_Z_no_colon (x : Z) : Strings.HasByte ":"%char (pretty x) = false.
Proof.
  unfold pretty, pretty_Z. destruct x; [done|apply pretty_N_no_colon|].
  simpl. apply pretty_N_no_colon.
Qed.

(** A text without a byte is cut off at the first occurrence of the byte. *)
Lemma cut_at_byte c (s1 s2 t1 t2 : string) :
  Strings.HasByte c s1 = false → Strings.HasByte c s2 = false →
  s1 +:+ String c t1 = s2 +:+ String c t2 → s1 = s2 ∧ t1 = t2.
Proof.
  revert s2. induction s1 as [|a s1 IH]; intros [|b s2]; simpl.
  - by intros _ _ [= ->].
  - intros _ [Hb _]%Strings.HasByte_cons_false [= Ha _]. congruence.
  - intros [Ha _]%Strings.HasByte_cons_false _ [= Hb _]. congruence.
  - intros [Ha H1]%Strings.HasByte_cons_false [Hb H2]%Strings.HasByte_cons_false [= -> H].
    destruct (IH _ H1 H2 H) as [-> ->]. done.
Qed.

Lemma append_same_length (v1 v2 t1 t2 : string) :
  String.length v1 = String.length v2 → v1 +:+ t1 = v2 +:+ t2 → v1 = v2 ∧ t1 = t2.
Proof.
  revert v2. induction v1 as [|a v1 IH]; intros [|b v2]; simpl; try done.
  intros [= Hl] [= -> H]. by destruct (IH _ Hl H) as [-> ->].
Qed.

(** A tagged, length-prefixed field can be read back from the front of a text. *)
Lemma material_field_inj name v1 v2 t1 t2 :
  endpointIDMaterialField name v1 +:+ t1 = endpointIDMaterialField name v2 +:+ t2 → v1 = v2 ∧ t1 = t2.
Proof.
  unfold endpointIDMaterialField. rewrite !Strings.app_assoc. intros H.
  apply append_same_length in H as [_ H]; [|done]. injection H as H.
  apply cut_at_byte in H as [Hl H]; [|apply pretty_N_no_colon..].
  apply (inj pretty) in Hl. apply append_same_length in H as [-> H]; [|done].
  by injection H.
Qed.

(** What the identity of an endpoint is derived from. *)
Definition id_fields (clusterName : string) (e : Endpoint) : string * string * (string * string) :=
  (clusterName, GetAddress (EAddress e),
   match ELLMMeta e with Some m => (Provider m, APIKey m) | None => ("", "") end).

Lemma endpointIDMaterial_inj c1 c2 e1 e2 :
  endpointIDMaterial c1 (Some e1) = endpointIDMaterial c2 (Some e2) ↔ id_fields c1 e1 = id_fields c2 e2.
Proof.
  unfold endpointIDMaterial, id_fields. cbv zeta. split.
  - intros H. apply material_field_inj in H as [-> H]. apply material_field_inj in H as [-> H].
    apply material_field_inj in H as [Hp H].
    assert (∀ s, endpointIDMaterialField "llm_api_key" s = endpointIDMaterialField "llm_api_key" s +:+ "") as Hnil
      by (intros; by rewrite Strings.app_empty_r).
    rewrite (Hnil (match ELLMMeta e1 with Some m => _ | None => _ end)),
      (Hnil (match ELLMMeta e2 with Some m => _ | None => _ end)) in H.
    apply material_field_inj in H as [Hk _].
    destruct (ELLMMeta e1), (ELLMMeta e2); simpl in *; congruence.
  - intros H. injection H as -> -> Hm.
    destruct (ELLMMeta e1), (ELLMMeta e2); simpl in *; [by injection Hm as -> ->|by injection Hm as -> ->|by injection Hm as <- <-|done].
Qed.

(** *** Suffixes *)

Lemma suffixed_inj b n m : suffixed b n = suffixed b m → n = m.
Proof.
  unfold suffixed. intros H. apply append_same_length in H as [_ H]; [|done].
  injection H as H. by apply (inj pretty) in H.
Qed.

Lemma free_suffix_remove fuel b k x taken :
  (∀ j, k ≤ j → suffixed b j ≠ x) →
  free_suffix fuel b k (taken ∖ {[x]}) = free_suffix fuel b k taken.
Proof.
  revert k. induction fuel as [|fuel IH]; intros k Hx; simpl; [done|].
  pose proof (Hx k (le_n k)) as Hk.
  destruct (decide (suffixed b k ∈ taken)) as [Hin|Hin].
  - rewrite decide_True by set_solver. apply IH. intros j Hj. apply Hx. lia.
  - rewrite decide_False by set_solver. done.
Qed.

Lemma free_suffix_fresh fuel b k taken :
  size taken ≤ fuel → free_suffix fuel b k taken ∉ taken.
Proof.
  revert k taken. induction fuel as [|fuel IH]; intros k taken Hs; simpl.
  - assert (taken = ∅) as -> by (apply size_empty_inv_L in Hs || apply leibniz_equiv, size_empty_inv; lia).
    set_solver.
  - case_decide as Hin; [|done].
    rewrite <- (free_suffix_remove fuel b (S k) (suffixed b k))
      by (intros j Hj Heq%suffixed_inj; lia).
    assert (size (taken ∖ {[suffixed b k]}) ≤ fuel) as Hs'.
    { rewrite size_difference by set_solver. rewrite size_singleton. lia. }
    pose proof (IH (S k) _ Hs') as Hf.
    assert (free_suffix fuel b (S k) (taken ∖ {[suffixed b k]}) ≠ suffixed b k); [|set_solver].
    clear. generalize (taken ∖ {[suffixed b k]}). intros t.
    assert (∃ j, S k ≤ j ∧ free_suffix fuel b (S k) t = suffixed b j) as (j & Hj & ->).
    { generalize (S k). induction fuel as [|fuel IH]; intros n; simpl; [by exists n|].
      case_decide; [|by exists n]. destruct (IH (S n)) as (j & Hj & ->). exists j. split; [lia|done]. }
    intros Heq%suffixed_inj. lia.
Qed.

(** The loop stops at the first free suffix. *)
Lemma free_suffix_least fuel b k taken :
  ∃ j, k ≤ j ∧ free_suffix fuel b k taken = suffixed b j ∧ ∀ i, k ≤ i < j → suffixed b i ∈ taken.
Proof.
  revert k. induction fuel as [|fuel IH]; intros k; simpl; [exists k; split_and!; [done|done|lia]|].
  case_decide as Hin; [|exists k; split_and!; [done|done|lia]].
  destruct (IH (S k)) as (j & Hj & -> & Hall). exists j. split_and!; [lia|done|].
  intros i Hi. destruct (decide (i = k)) as [->|]; [done|]. apply Hall. lia.
Qed.

Lemma StableUniqueEndpointID_fresh c e taken : StableUniqueEndpointID c e taken ∉ taken.
Proof.
  unfold StableUniqueEndpointID. cbv zeta. case_decide as H1; case_decide as H2; try done;
    by apply free_suffix_fresh.
Qed.

(** *** Content *)

Lemma stringMapEqualForSet_spec a b : stringMapEqualForSet a b = true ↔ a = b.
Proof.
  unfold stringMapEqualForSet. rewrite andb_true_iff, bool_decide_eq_true, forallb_forall. split.
  - intros [Hs Hf]. apply map_subseteq_size_eq; [|lia].
    apply map_subseteq_spec. intros k v Hk.
    apply (bool_decide_eq_true_1 _), (Hf (k, v)), list_elem_of_In, elem_of_map_to_list, Hk.
  - intros ->. split; [done|]. intros [k v] Hin%list_elem_of_In%elem_of_map_to_list.
    by apply bool_decide_eq_true.
Qed.

Lemma socketAddressContentEqual_spec a b : socketAddressContentEqual a b = true ↔ a = b.
Proof.
  unfold socketAddressContentEqual. rewrite !andb_true_iff, !bool_decide_eq_true.
  destruct a, b; simpl. naive_solver.
Qed.

Lemma endpointContentEqualForSet_spec a b :
  endpointContentEqualForSet a b = true ↔
    EAddress a = EAddress b ∧ Metadata a = Metadata b ∧ ELLMMeta a = ELLMMeta b.
Proof.
  unfold endpointContentEqualForSet, llmMetaEqualForSet.
  rewrite !andb_true_iff, socketAddressContentEqual_spec, stringMapEqualForSet_spec, bool_decide_eq_true.
  tauto.
Qed.

(** Content determines the generated identity. *)
Lemma GenerateEndpointID_content c a b :
  EAddress a = EAddress b → ELLMMeta a = ELLMMeta b →
  GenerateEndpointID c (Some a) = GenerateEndpointID c (Some b).
Proof. intros H1 H2. unfold GenerateEndpointID, endpointIDMaterial. by rewrite H1, H2. Qed.

Lemma cut_at_last_byte c (s1 s2 t1 t2 : string) :
  Strings.HasByte c t1 = false → Strings.HasByte c t2 = false →
  s1 +:+ String c t1 = s2 +:+ String c t2 → s1 = s2 ∧ t1 = t2.
Proof.
  intros H1 H2.
  assert (∀ s t, Strings.HasByte c (s +:+ String c t) = true) as Hin.
  { intros s t. rewrite Strings.HasByte_app. simpl. rewrite bool_decide_eq_true_2 by done. by rewrite orb_true_r. }
  revert s2. induction s1 as [|a s1 IH]; intros [|b s2]; simpl.
  - by intros [= ->].
  - intros [= -> ->]. by rewrite Hin in H1.
  - intros [= -> <-]. by rewrite Hin in H2.
  - intros [= -> H]. by destruct (IH _ H) as [-> ->].
Qed.

(** ** Properties *)

(** The material of a generated identity is an encoding: it determines, and
    is determined by, the cluster name, the address, the provider and the
    credential, whatever bytes these contain. *)
Theorem endpoint_id_material_injective (c1 c2 : string) (e1 e2 : Endpoint) :
  endpointIDMaterial c1 (Some e1) = endpointIDMaterial c2 (Some e2) ↔ id_fields c1 e1 = id_fields c2 e2.
Proof. apply endpointIDMaterial_inj. Qed.

(** The resolved identity is free; it is the operator's identity (or the
    generated one) when that is free, and otherwise that identity with the
    smallest free suffix from 2 on; the endpoint's name plays no part.  The
    search for a suffix always ends. *)
Theorem stable_unique_id_contract (c : string) (e : Endpoint) (taken : gset string) :
  let id := StableUniqueEndpointID c (Some e) taken in
  let base := if decide (EID e = "") then GenerateEndpointID c (Some e) else EID e in
  (id ∉ taken) ∧
  (base ∉ taken → id = base) ∧
  (base ∈ taken → ∃ j, 2 ≤ j ∧ id = suffixed base j ∧ ∀ i, 2 ≤ i < j → suffixed base i ∈ taken) ∧
  ∀ name, StableUniqueEndpointID c (Some (set_EName e name)) taken = id.
Proof.
  cbv zeta. split; [apply StableUniqueEndpointID_fresh|]. unfold StableUniqueEndpointID. cbv zeta.
  split_and!.
  - intros H. by rewrite decide_False.
  - intros H. rewrite decide_True by done. apply free_suffix_least.
  - done.
Qed.

(** The identity oracle on addresses against their text: two addresses are
    [Equal] exactly when both are domain addresses or both are not and their
    texts agree. *)
Theorem socket_address_equal_text (a b : SocketAddress) :
  SocketAddress_Equal a b = true ↔
    (Domains a = [] ↔ Domains b = []) ∧ GetAddress a = GetAddress b.
Proof.
  unfold SocketAddress_Equal, GetAddress.
  destruct (Domains a) as [|da dsa], (Domains b) as [|db dsb].
  - rewrite andb_true_iff, !bool_decide_eq_true. split.
    + intros [-> ->]. done.
    + intros [_ H]. apply cut_at_last_byte in H as [-> H]; [|apply pretty_Z_no_colon..].
      by apply (inj pretty) in H.
  - split; [done|]. intros [[H _] _]. by specialize (H eq_refl).
  - split; [done|]. intros [[_ H] _]. by specialize (H eq_refl).
  - rewrite bool_decide_eq_true. split; [|by intros [_ ?]]. intros ->. done.
Qed.
