(* ===== verification/Snapshot.v ===== *)
(** * The runtime endpoint snapshot, [pkg/cluster/cluster.go]

    A snapshot is immutable after publication; it keeps the endpoints of a
    cluster in configuration order with several indexes.  The invariant
    [snapshot_wf] says that the indexes agree with the list of endpoints, and
    every operation that builds a snapshot establishes it. *)

From S2P Require Import Prelude GoStrings Sha256 Endpoint.

(** ** Data *)

Record ConsistentHash : Type := mkConsistentHash {
  ReplicaNum : Z;
  MaxVnodeNum : Z;
  MaglevTableSize : Z;
}.

#[export] Instance ConsistentHash_eq_dec : EqDecision ConsistentHash.
Proof. solve_decision. Defined.

Record HealthCheckConfig : Type := mkHealthCheckConfig {
  Protocol : string;
  TimeoutConfig : string;
  IntervalConfig : string;
  InitialDelaySeconds : string;
  HealthyThreshold : Z;
  UnhealthyThreshold : Z;
  ServiceName : string;
  SessionConfig : option (gmap string any);
  CommonCallbacks : list string;
}.

(** Endpoint pointers may be nil.  The discovery type and the EDS settings are
    not read by the code modelled here. *)
Record ClusterConfig : Type := mkClusterConfig {
  CName : string;
  LbStr : string;
  CConsistentHash : ConsistentHash;
  HealthChecks : list HealthCheckConfig;
  Endpoints : list (option Endpoint);
  PrePickEndpointIndex : Z;
  ConfigID : Z;
}.

Definition set_Endpoints (c : ClusterConfig) (es : list (option Endpoint)) : ClusterConfig :=
  mkClusterConfig (CName c) (LbStr c) (CConsistentHash c) (HealthChecks c) es (PrePickEndpointIndex c)
    (ConfigID c).

(** [None] is the nil dereference: the health of every endpoint is read when
    only healthy ones are asked for. *)
Definition GetEndpoint (c : ClusterConfig) (mustHealth : bool) : option (list (option Endpoint)) :=
  if mustHealth then
    if decide (None ∈ Endpoints c) then None
    else Some (filter (λ o, UnHealthy <$> o = Some false) (Endpoints c))
  else Some (Endpoints c).

(** [consistentHash] is filled on first use; [hashOnce] is the [sync.Once]. *)
Record EndpointSnapshot (CH : Type) : Type := mkEndpointSnapshot {
  all : list Endpoint;
  healthy : list Endpoint;
  endpointByID : gmap string Endpoint;
  healthyEndpointByID : gmap string Endpoint;
  addressByID : gmap string string;
  healthyByID : gmap string bool;
  healthyByAddress : gmap string bool;
  lbPolicy : string;
  consistentHashConfig : ConsistentHash;
  hashOnce : bool;
  consistentHash : option CH;
}.
Arguments mkEndpointSnapshot {CH} _ _ _ _ _ _ _ _ _ _ _.
Arguments all {CH} _.
Arguments healthy {CH} _.
Arguments endpointByID {CH} _.
Arguments healthyEndpointByID {CH} _.
Arguments addressByID {CH} _.
Arguments healthyByID {CH} _.
Arguments healthyByAddress {CH} _.
Arguments lbPolicy {CH} _.
Arguments consistentHashConfig {CH} _.
Arguments hashOnce {CH} _.
Arguments consistentHash {CH} _.

Section snapshot.
(** [model.ConsistentHashInitMap]: the factories the balancers register. *)
Context {CH : Type} (ConsistentHashInitMap : string → option (ConsistentHash → list Endpoint → CH)).
Implicit Types (s : EndpointSnapshot CH) (previous : option (EndpointSnapshot CH)) (e : Endpoint) (c : ClusterConfig).

(** ** Building *)

Definition newEndpointSnapshotIndex (policy : string) (ch : ConsistentHash) : EndpointSnapshot CH :=
  mkEndpointSnapshot [] [] ∅ ∅ ∅ ∅ ∅ policy ch false None.

Definition addAddressHealth (m : gmap string bool) (address : string) (h : bool) : gmap string bool :=
  match m !! address with
  | None => <[address := h]> m
  | Some addressHealthy => <[address := addressHealthy && h]> m
  end.

Definition addEndpoint s e (address : string) (h : bool) : EndpointSnapshot CH :=
  let e := set_UnHealthy e (negb h) in
  mkEndpointSnapshot (all s ++ [e])
    (if h then healthy s ++ [e] else healthy s)
    (<[EID e := e]> (endpointByID s))
    (if h then <[EID e := e]> (healthyEndpointByID s) else healthyEndpointByID s)
    (<[EID e := address]> (addressByID s))
    (<[EID e := h]> (healthyByID s))
    (addAddressHealth (healthyByAddress s) address h)
    (lbPolicy s) (consistentHashConfig s) (hashOnce s) (consistentHash s).

Definition endpointSnapshotHealth e (address : string) (previous : option (EndpointSnapshot CH))
    (inheritRuntimeHealth : bool) : bool :=
  let h := negb (UnHealthy e) in
  match previous with
  | None => h
  | Some p =>
      if inheritRuntimeHealth then
        if bool_decide (addressByID p !! EID e = Some address)
        then default false (healthyByID p !! EID e)
        else match healthyByAddress p !! address with
             | Some addressHealthy => addressHealthy
             | None => h
             end
      else h
  end.

(** One turn of the loop over the configured endpoints; the identities given out
    so far are [ids]. *)
Definition snapshot_step (clusterName : string) (previous : option (EndpointSnapshot CH)) (inherit : bool)
    (st : gset string * EndpointSnapshot CH) (endpoint : option Endpoint)
    : gset string * EndpointSnapshot CH :=
  let '(ids, s) := st in
  match endpoint with
  | None => st
  | Some e =>
      let e := set_EID e (StableUniqueEndpointID clusterName (Some e) ids) in
      let address := GetAddress (EAddress e) in
      let h := endpointSnapshotHealth e address previous inherit in
      ({[EID e]} ∪ ids, addEndpoint s e address h)
  end.

(** ** Reusing the hash of healthy endpoints *)

Definition sameEndpointHostForConsistentHash (a b : Endpoint) : bool :=
  bool_decide (Address (EAddress a) = Address (EAddress b)) &&
  bool_decide (Port (EAddress a) = Port (EAddress b)).

Fixpoint same_hosts (l1 l2 : list Endpoint) : bool :=
  match l1, l2 with
  | [], [] => true
  | a :: l1, b :: l2 => sameEndpointHostForConsistentHash a b && same_hosts l1 l2
  | _, _ => false
  end.

Definition canReuseHealthyConsistentHash (previous next : EndpointSnapshot CH) : bool :=
  bool_decide (lbPolicy previous = lbPolicy next) &&
  (match ConsistentHashInitMap (lbPolicy next) with Some _ => true | None => false end) &&
  bool_decide (consistentHashConfig previous = consistentHashConfig next) &&
  same_hosts (healthy previous) (healthy next).

Definition set_hash s (once : bool) (h : option CH) : EndpointSnapshot CH :=
  mkEndpointSnapshot (all s) (healthy s) (endpointByID s) (healthyEndpointByID s) (addressByID s)
    (healthyByID s) (healthyByAddress s) (lbPolicy s) (consistentHashConfig s) once h.

Definition reuseHealthyConsistentHashFrom s (previous : option (EndpointSnapshot CH)) : EndpointSnapshot CH :=
  match previous with
  | None => s
  | Some p =>
      if canReuseHealthyConsistentHash p s then
        match consistentHash p with
        | Some h => if hashOnce s then s else set_hash s true (Some h)
        | None => s
        end
      else s
  end.

Definition newEndpointSnapshot (config : option ClusterConfig) (previous : option (EndpointSnapshot CH))
    (inheritRuntimeHealth : bool) : EndpointSnapshot CH :=
  let clusterName := match config with Some c => CName c | None => "" end in
  let endpoints := match config with Some c => Endpoints c | None => [] end in
  let index := match config with
               | Some c => newEndpointSnapshotIndex (LbStr c) (CConsistentHash c)
               | None => newEndpointSnapshotIndex "" (mkConsistentHash 0 0 0)
               end in
  let s := (foldl (snapshot_step clusterName previous inheritRuntimeHealth) (∅, index) endpoints).2 in
  reuseHealthyConsistentHashFrom s previous.

(** [rebuildConsistentHash] under [consistentHashOnce]; the second component is
    the snapshot with the hash cached. *)
Definition HealthyConsistentHash s : option CH * EndpointSnapshot CH :=
  if hashOnce s then (consistentHash s, s)
  else
    let h := match healthy s, ConsistentHashInitMap (lbPolicy s) with
             | _ :: _, Some new => Some (new (consistentHashConfig s) (healthy s))
             | _, _ => None
             end in
    (h, set_hash s true h).

(** ** Health updates *)

(** The clone whose runtime health flag changed, or the endpoint itself. *)
Definition mark (ids : gset string) (h : bool) e : Endpoint :=
  if decide (EID e ∈ ids) then set_UnHealthy e (negb h) else e.

Definition next_all s (ids : gset string) (h : bool) : list Endpoint := map (mark ids h) (all s).

Definition next_healthyByID s (ids : gset string) (h : bool) : gmap string bool :=
  map_imap (λ id was, Some (if decide (id ∈ ids) then h else was)) (healthyByID s).

Definition withEndpointHealthForIDs s (endpointIDs : gset string) (h : bool) : option (EndpointSnapshot CH) :=
  if decide (endpointIDs = ∅) then None
  else if forallb (λ id, bool_decide (default false (healthyByID s !! id) = h)) (elements endpointIDs)
  then Some s
  else
    let nextHealthyByID := next_healthyByID s endpointIDs h in
    let byAddress :=
      foldl (λ m '(id, nh), addAddressHealth m (default "" (addressByID s !! id)) nh) ∅
        (map_to_list nextHealthyByID) in
    let nextAll := next_all s endpointIDs h in
    let nextHealthy := filter (λ e, default false (nextHealthyByID !! EID e) = true) nextAll in
    Some (mkEndpointSnapshot nextAll nextHealthy
      (list_to_map (map (λ e, (EID e, e)) (reverse nextAll)))
      (list_to_map (map (λ e, (EID e, e)) (reverse nextHealthy)))
      (addressByID s) nextHealthyByID byAddress (lbPolicy s) (consistentHashConfig s) false None).

Definition withEndpointHealth s (endpointID endpointAddress : string) (h : bool) : option (EndpointSnapshot CH) :=
  if bool_decide (addressByID s !! endpointID = Some endpointAddress)
  then withEndpointHealthForIDs s {[endpointID]} h
  else None.

Definition withEndpointAddressHealth s (endpointAddress : string) (h : bool) : option (EndpointSnapshot CH) :=
  withEndpointHealthForIDs s (dom (filter (λ '(_, a), a = endpointAddress) (addressByID s))) h.

(** ** Lookups *)

Fixpoint after_id (l : list Endpoint) (cur : string) : option (list Endpoint) :=
  match l with
  | [] => None
  | e :: l => if decide (EID e = cur) then Some l else after_id l cur
  end.

Definition NextHealthyEndpoint s (curEndpointID : string) : option Endpoint :=
  match after_id (all s) curEndpointID with
  | None => None
  | Some rest => first_such (λ e, default false (healthyByID s !! EID e)) rest
  end.

Definition EndpointByID s (endpointID : string) : option Endpoint := endpointByID s !! endpointID.
Definition HealthyEndpointByID s (endpointID : string) : option Endpoint := healthyEndpointByID s !! endpointID.
Definition EndpointCount s : nat := length (all s).
Definition HealthyEndpointCount s : nat := length (healthy s).

(** ** The invariant *)

Definition is_healthy e : bool := negb (UnHealthy e).
Definition address_of e : string := GetAddress (EAddress e).

(** The endpoint with a given identity. *)
Definition find_id (l : list Endpoint) (id : string) : option Endpoint :=
  first_such (λ e, bool_decide (EID e = id)) l.

(** The verdict on an address: all its endpoints are healthy. *)
Definition address_verdict (l : list Endpoint) (a : string) : option bool :=
  match filter (λ e, address_of e = a) l with
  | [] => None
  | l => Some (forallb is_healthy l)
  end.

Record snapshot_wf s : Prop := {
  wf_ids : NoDup (map EID (all s));
  wf_healthy : healthy s = filter (λ e, is_healthy e = true) (all s);
  wf_byID id : endpointByID s !! id = find_id (all s) id;
  wf_healthyEndpoint id :
    healthyEndpointByID s !! id =
      (find_id (all s) id ≫= λ e, if is_healthy e then Some e else None);
  wf_address id : addressByID s !! id = address_of <$> find_id (all s) id;
  wf_health id : healthyByID s !! id = is_healthy <$> find_id (all s) id;
  wf_verdict a : healthyByAddress s !! a = address_verdict (all s) a;
  (** a cached hash is the one of the healthy endpoints *)
  wf_hash h : consistentHash s = Some h →
    ∃ new, ConsistentHashInitMap (lbPolicy s) = Some new ∧ h = new (consistentHashConfig s) (healthy s);
}.

Lemma find_id_app l1 l2 id :
  find_id (l1 ++ l2) id = match find_id l1 id with Some e => Some e | None => find_id l2 id end.
Proof. apply first_some_app. Qed.

Lemma find_id_single e id : find_id [e] id = if decide (EID e = id) then Some e else None.
Proof. unfold find_id, first_such; simpl. by case_bool_decide; case_decide. Qed.

Lemma find_id_None l id : find_id l id = None ↔ id ∉ map EID l.
Proof.
  unfold find_id. rewrite first_such_None, list_elem_of_fmap. split.
  - intros H (e & -> & He). specialize (H e He). by apply bool_decide_eq_false in H.
  - intros H e He. apply bool_decide_eq_false. intros <-. apply H. by exists e.
Qed.

Lemma find_id_Some l id e : find_id l id = Some e → e ∈ l ∧ EID e = id.
Proof. intros [He Hid]%first_such_Some. by apply bool_decide_eq_true in Hid. Qed.

Lemma find_id_elem l e : NoDup (map EID l) → e ∈ l → find_id l (EID e) = Some e.
Proof.
  intros Hn He. destruct (find_id l (EID e)) as [e'|] eqn:E.
  - apply find_id_Some in E as [He' Heq]. f_equal.
    induction l as [|x l IH]; [by apply not_elem_of_nil in He|].
    simpl in Hn. apply NoDup_cons in Hn as [Hx Hn].
    apply elem_of_cons in He as [->|He], He' as [->|He']; [done| | |by apply IH].
    + exfalso. apply Hx. rewrite <- Heq. by apply (list_elem_of_fmap_2 EID).
    + exfalso. apply Hx. rewrite Heq. by apply (list_elem_of_fmap_2 EID).
  - apply find_id_None in E. exfalso. apply E. by apply (list_elem_of_fmap_2 EID).
Qed.

Lemma address_verdict_snoc l e a :
  address_verdict (l ++ [e]) a =
    if decide (address_of e = a)
    then Some (default true (address_verdict l a) && is_healthy e)
    else address_verdict l a.
Proof.
  unfold address_verdict. rewrite filter_app, filter_cons, filter_nil. case_decide; [|by rewrite app_nil_r].
  destruct (filter _ l) as [|x l'] eqn:E; simpl; [by rewrite andb_true_r|].
  rewrite forallb_app. simpl. by rewrite andb_true_r, andb_assoc.
Qed.

Lemma addAddressHealth_lookup m address h a :
  addAddressHealth m address h !! a =
    if decide (address = a) then Some (default true (m !! a) && h) else m !! a.
Proof.
  unfold addAddressHealth. destruct (m !! address) eqn:E; rewrite lookup_insert;
    case_decide; subst; by rewrite ?E.
Qed.

Lemma addEndpoint_wf s e h :
  consistentHash s = None → EID e ∉ map EID (all s) → snapshot_wf s →
  snapshot_wf (addEndpoint s e (GetAddress (EAddress e)) h).
Proof.
  intros Hnh Hfresh [Hids Hh Hby Hhe Had Hhb Hv Hhash]. unfold addEndpoint.
  set (e' := set_UnHealthy e (negb h)). assert (EID e' = EID e) as Hid by done.
  assert (is_healthy e' = h) as Hhealth by (unfold is_healthy; simpl; apply negb_involutive).
  assert (∀ id, EID e = id → find_id (all s) id = None) as Hnone by (intros id <-; by apply find_id_None).
  split; simpl; fold e'.
  - rewrite map_app. apply NoDup_app. split_and!; [done| |by apply NoDup_singleton].
    intros x Hx ->%list_elem_of_singleton. done.
  - rewrite filter_app, filter_cons, filter_nil, <- Hh, Hhealth. by destruct h; rewrite ?app_nil_r.
  - intros id. rewrite lookup_insert, find_id_app, find_id_single, ?Hid.
    case_decide as E; [by rewrite (Hnone id E)|]. rewrite Hby. by destruct (find_id (all s) id).
  - intros id. rewrite find_id_app, find_id_single, ?Hid. destruct h.
    + rewrite lookup_insert. case_decide as E; [rewrite (Hnone id E); done|].
      rewrite Hhe. by destruct (find_id (all s) id).
    + rewrite Hhe. destruct (find_id (all s) id); [done|]. simpl. by case_decide.
  - intros id. rewrite lookup_insert, find_id_app, find_id_single, ?Hid.
    case_decide as E; [by rewrite (Hnone id E)|]. rewrite Had. by destruct (find_id (all s) id).
  - intros id. rewrite lookup_insert, find_id_app, find_id_single, ?Hid.
    case_decide as E; [rewrite (Hnone id E); by destruct h|]. rewrite Hhb. by destruct (find_id (all s) id).
  - intros a. rewrite addAddressHealth_lookup, address_verdict_snoc, Hhealth, Hv. done.
  - by rewrite Hnh.
Qed.

(** The identities given out are those of the endpoints filed so far, and no hash
    is cached while the snapshot is being built. *)
Definition building (st : gset string * EndpointSnapshot CH) : Prop :=
  st.1 = list_to_set (map EID (all st.2)) ∧ consistentHash st.2 = None ∧ hashOnce st.2 = false ∧
  snapshot_wf st.2.

Lemma index_building policy ch : building (∅, newEndpointSnapshotIndex policy ch).
Proof. split_and!; try done. split; try done; by constructor. Qed.

Lemma snapshot_step_building name previous inherit st o :
  building st → building (snapshot_step name previous inherit st o).
Proof.
  destruct st as [ids s], o as [e|]; [|done]. intros (Hids & Hnh & Hon & Hwf). simpl in *.
  pose proof (StableUniqueEndpointID_fresh name (Some e) ids) as Hfresh.
  set (id := StableUniqueEndpointID name (Some e) ids) in *.
  split_and!; [|done|done|].
  - change (({[id]} ∪ ids) = list_to_set (map EID (all s ++ [set_UnHealthy (set_EID e id)
      (negb (endpointSnapshotHealth (set_EID e id) (GetAddress (EAddress e)) previous inherit))]))).
    rewrite Hids, map_app. cbn [map]. by rewrite list_to_set_last.
  - apply (addEndpoint_wf s (set_EID e id)); [done| |done].
    rewrite Hids in Hfresh. simpl. by rewrite elem_of_list_to_set in Hfresh.
Qed.

Lemma build_building name previous inherit os st :
  building st → building (foldl (snapshot_step name previous inherit) st os).
Proof. revert st. induction os; simpl; eauto using snapshot_step_building. Qed.

(** *** Reuse of the hash *)

(** The factories read the host of an endpoint only. *)
Definition factories_read_hosts : Prop :=
  ∀ policy new ch l1 l2, ConsistentHashInitMap policy = Some new →
    map GetHost l1 = map GetHost l2 → new ch l1 = new ch l2.

Lemma same_hosts_spec l1 l2 : same_hosts l1 l2 = true → map GetHost l1 = map GetHost l2.
Proof.
  revert l2. induction l1 as [|a l1 IH]; intros [|b l2]; try done. simpl.
  unfold sameEndpointHostForConsistentHash. rewrite !andb_true_iff, !bool_decide_eq_true.
  intros [[Ha Hp] H]. rewrite (IH _ H). unfold GetHost. by rewrite Ha, Hp.
Qed.

Lemma set_hash_wf s once h :
  snapshot_wf s →
  (∀ x, h = Some x → ∃ new, ConsistentHashInitMap (lbPolicy s) = Some new ∧
     x = new (consistentHashConfig s) (healthy s)) →
  snapshot_wf (set_hash s once h).
Proof. intros [H1 H2 H3 H4 H5 H6 H7 H8] Hh. by split. Qed.

Lemma reuse_wf s previous :
  factories_read_hosts → (∀ p, previous = Some p → snapshot_wf p) → snapshot_wf s →
  snapshot_wf (reuseHealthyConsistentHashFrom s previous).
Proof.
  intros Hf Hp Hs. unfold reuseHealthyConsistentHashFrom. destruct previous as [p|]; [|done].
  destruct (canReuseHealthyConsistentHash p s) eqn:E; [|done].
  destruct (consistentHash p) as [h|] eqn:Eh; [|done]. destruct (hashOnce s); [done|].
  apply set_hash_wf; [done|]. intros x [= <-].
  destruct (wf_hash p (Hp p eq_refl) h Eh) as (new & Hnew & ->).
  unfold canReuseHealthyConsistentHash in E. rewrite !andb_true_iff, !bool_decide_eq_true in E.
  destruct E as [[[Hpol _] Hcfg] Hhosts]. rewrite Hpol in Hnew. exists new. split; [done|].
  rewrite Hcfg. eapply Hf; [done|]. by apply same_hosts_spec.
Qed.

Lemma newEndpointSnapshot_wf config previous inherit :
  factories_read_hosts → (∀ p, previous = Some p → snapshot_wf p) →
  snapshot_wf (newEndpointSnapshot config previous inherit).
Proof.
  intros Hf Hp. unfold newEndpointSnapshot. cbv zeta. apply reuse_wf; [done|done|].
  apply build_building. destruct config; apply index_building.
Qed.

Lemma reuse_all s previous : all (reuseHealthyConsistentHashFrom s previous) = all s.
Proof. unfold reuseHealthyConsistentHashFrom. by repeat case_match. Qed.

(** What a configured endpoint becomes in a snapshot. *)
Definition snapshot_image (previous : option (EndpointSnapshot CH)) (inherit : bool) (e0 e : Endpoint) : Prop :=
  e = set_UnHealthy (set_EID e0 (EID e))
        (negb (endpointSnapshotHealth (set_EID e0 (EID e)) (address_of e0) previous inherit)).

Lemma build_image name previous inherit os st l :
  Forall2 (snapshot_image previous inherit) l (all st.2) →
  Forall2 (snapshot_image previous inherit) (l ++ omap id os)
    (all (foldl (snapshot_step name previous inherit) st os).2).
Proof.
  revert st l. induction os as [|o os IH]; intros [ids s] l Hl; simpl; [by rewrite app_nil_r|].
  destruct o as [e|]; simpl; [|by apply (IH (ids, s))].
  rewrite cons_middle, app_assoc. apply IH. simpl. apply Forall2_app; [done|].
  constructor; [|constructor]. done.
Qed.

Lemma newEndpointSnapshot_image c previous inherit :
  Forall2 (snapshot_image previous inherit) (omap id (Endpoints c))
    (all (newEndpointSnapshot (Some c) previous inherit)).
Proof.
  unfold newEndpointSnapshot. cbv zeta. rewrite reuse_all.
  apply (build_image _ _ _ _ _ []). constructor.
Qed.

(** Identities that are set and distinct are kept. *)
Definition ids_assigned (l : list Endpoint) : Prop := NoDup (map EID l) ∧ "" ∉ map EID l.

Lemma build_ids name previous inherit os st :
  st.1 = list_to_set (map EID (all st.2)) →
  ids_assigned (all st.2 ++ omap id os) →
  map EID (all (foldl (snapshot_step name previous inherit) st os).2) = map EID (all st.2 ++ omap id os).
Proof.
  revert st. induction os as [|o os IH]; intros [ids s] Hids Ha; simpl in *; [by rewrite app_nil_r|].
  destruct o as [e|]; simpl in *; [|by apply (IH (ids, s))].
  assert (StableUniqueEndpointID name (Some e) ids = EID e) as ->.
  { destruct Ha as [Hn He]. rewrite map_app in Hn, He. simpl in *.
    assert (EID e ≠ "") as Hne by (intros Hx; apply He; rewrite <- Hx, elem_of_app, elem_of_cons; auto).
    unfold StableUniqueEndpointID. cbv zeta. rewrite (decide_False (P := EID e = "")) by done.
    rewrite decide_False; [done|]. rewrite Hids, elem_of_list_to_set. intros Hin.
    apply NoDup_app in Hn as (_ & Hn & _). apply (Hn _ Hin). constructor. }
  rewrite IH; [| |].
  - simpl. rewrite !map_app. simpl. by rewrite <- app_assoc.
  - cbn [fst snd all addEndpoint]. rewrite Hids, map_app. cbn [map]. by rewrite list_to_set_last.
  - destruct Ha as [Hn He]. unfold ids_assigned. cbn [fst snd all addEndpoint]. rewrite !map_app in *. simpl in *. rewrite <- app_assoc. done.
Qed.

Lemma newEndpointSnapshot_ids c previous inherit :
  ids_assigned (omap id (Endpoints c)) →
  map EID (all (newEndpointSnapshot (Some c) previous inherit)) = map EID (omap id (Endpoints c)).
Proof.
  intros H. unfold newEndpointSnapshot. cbv zeta. rewrite reuse_all. by rewrite build_ids.
Qed.

(** *** The verdict on addresses does not depend on the order of the endpoints *)

Definition verdict (l : list (string * bool)) (a : string) : option bool :=
  match filter (λ x, x.1 = a) l with
  | [] => None
  | l => Some (forallb snd l)
  end.

Lemma verdict_Permutation l1 l2 a : l1 ≡ₚ l2 → verdict l1 a = verdict l2 a.
Proof.
  intros Hp. unfold verdict.
  assert (filter (λ x, x.1 = a) l1 ≡ₚ filter (λ x, x.1 = a) l2) as Hf by (by rewrite Hp).
  destruct (filter _ l1) as [|x l1'] eqn:E1.
  - by apply Permutation_nil in Hf as ->.
  - destruct (filter _ l2) eqn:E2; [by apply Permutation_sym, Permutation_nil in Hf|].
    f_equal. by apply forallb_Permutation.
Qed.

Lemma verdict_snoc l x a :
  verdict (l ++ [x]) a = if decide (x.1 = a) then Some (default true (verdict l a) && x.2) else verdict l a.
Proof.
  unfold verdict. rewrite filter_app, filter_cons, filter_nil. case_decide; [|by rewrite app_nil_r].
  destruct (filter _ l); simpl; [by rewrite andb_true_r|].
  rewrite forallb_app. simpl. by rewrite andb_true_r, andb_assoc.
Qed.

Lemma fold_verdict l a :
  foldl (λ m x, addAddressHealth m x.1 x.2) ∅ l !! a = verdict l a.
Proof.
  induction l as [|x l IH] using rev_ind; [done|].
  rewrite foldl_app. simpl. by rewrite addAddressHealth_lookup, verdict_snoc, IH.
Qed.

Lemma address_verdict_list l a : address_verdict l a = verdict (map (λ e, (address_of e, is_healthy e)) l) a.
Proof.
  induction l as [|e l IH] using rev_ind; [done|].
  rewrite map_app, address_verdict_snoc. cbn [map]. by rewrite verdict_snoc, IH.
Qed.

(** *** Health updates *)

Lemma mark_id ids h e : EID (mark ids h e) = EID e.
Proof. unfold mark. by case_decide. Qed.

Lemma mark_address ids h e : address_of (mark ids h e) = address_of e.
Proof. unfold mark. by case_decide. Qed.

Lemma mark_healthy ids h e : is_healthy (mark ids h e) = if decide (EID e ∈ ids) then h else is_healthy e.
Proof. unfold mark, is_healthy. case_decide; [apply negb_involutive|done]. Qed.

Lemma mark_same ids h e : is_healthy e = h → mark ids h e = e.
Proof. intros <-. unfold mark, is_healthy. case_decide; [|done]. destruct e; simpl. by rewrite negb_involutive. Qed.

Lemma map_mark_ids ids h l : map EID (map (mark ids h) l) = map EID l.
Proof. rewrite map_map. apply map_ext, mark_id. Qed.

Lemma find_id_mark ids h l id : find_id (map (mark ids h) l) id = mark ids h <$> find_id l id.
Proof.
  unfold find_id, first_such. rewrite first_some_map, <- first_some_fmap. apply first_some_ext.
  intros e _. rewrite mark_id. by case_bool_decide.
Qed.

Lemma list_to_map_find l id :
  NoDup (map EID l) → (list_to_map (map (λ e, (EID e, e)) (reverse l)) : gmap string Endpoint) !! id = find_id l id.
Proof.
  intros Hn. assert (NoDup ((map (λ e, (EID e, e)) (reverse l)).*1)) as Hn'.
  { change (NoDup (map fst (map (λ e, (EID e, e)) (reverse l)))). rewrite map_map. simpl.
    rewrite (Permutation_map EID (reverse_Permutation l)). done. }
  destruct (find_id l id) as [e|] eqn:E.
  - apply find_id_Some in E as [He <-]. apply elem_of_list_to_map; [done|].
    apply (list_elem_of_fmap_2 (λ e, (EID e, e))). by apply elem_of_reverse.
  - apply not_elem_of_list_to_map. apply find_id_None in E. intros Hin. apply E.
    apply list_elem_of_fmap in Hin as ([x y] & -> & Hin).
    apply list_elem_of_fmap in Hin as (e & [= -> ->] & Hin). simpl.
    apply (list_elem_of_fmap_2 EID). by apply elem_of_reverse.
Qed.

Lemma find_id_filter l id :
  NoDup (map EID l) →
  find_id (filter (λ e, is_healthy e = true) l) id =
    (find_id l id ≫= λ e, if is_healthy e then Some e else None).
Proof.
  induction l as [|e l IH]; intros Hn; [done|]. simpl in Hn. apply NoDup_cons in Hn as [He Hn].
  specialize (IH Hn). rewrite filter_cons. change (e :: l) with ([e] ++ l). rewrite find_id_app, find_id_single.
  case_decide as Hh.
  - change (find_id ([e] ++ filter (λ e, is_healthy e = true) l) id = (match (if decide (EID e = id) then Some e else None) with Some e => Some e | None => find_id l id end) ≫= λ e, if is_healthy e then Some e else None).
    rewrite find_id_app, find_id_single. case_decide; [simpl; by rewrite Hh|done].
  - rewrite IH. case_decide as Hid; [|done]. subst. rewrite (proj2 (find_id_None l (EID e)) He). simpl.
    by destruct (is_healthy e).
Qed.

Lemma filter_ids_NoDup l : NoDup (map EID l) → NoDup (map EID (filter (λ e, is_healthy e = true) l)).
Proof.
  induction l as [|e l IH]; [done|]. simpl. intros [He Hn]%NoDup_cons. rewrite filter_cons.
  case_decide; [|by apply IH]. simpl. apply NoDup_cons. split; [|by apply IH].
  intros (x & Hx & [_ Hin]%list_elem_of_filter)%list_elem_of_fmap. apply He. rewrite Hx.
  by apply (list_elem_of_fmap_2 EID).
Qed.

Section health_update.
Context s (ids : gset string) (h : bool) (Hwf : snapshot_wf s).

#[local] Abbreviation nextByID := (next_healthyByID s ids h).
#[local] Abbreviation nextAll := (next_all s ids h).

Lemma next_ids : NoDup (map EID nextAll).
Proof. unfold next_all. rewrite map_mark_ids. apply (wf_ids s Hwf). Qed.

Lemma next_byID id : nextByID !! id = is_healthy <$> find_id nextAll id.
Proof.
  unfold next_healthyByID, next_all. rewrite map_lookup_imap, (wf_health s Hwf), find_id_mark.
  destruct (find_id (all s) id) as [e|] eqn:E; [|done]. simpl. rewrite mark_healthy.
  by apply find_id_Some in E as [_ ->].
Qed.

Lemma next_health_list : map_to_list nextByID ≡ₚ map (λ e, (EID e, is_healthy e)) nextAll.
Proof.
  assert (NoDup ((map (λ e, (EID e, is_healthy e)) nextAll).*1)) as Hn.
  { change (NoDup (map fst (map (λ e, (EID e, is_healthy e)) nextAll))). rewrite map_map. apply next_ids. }
  rewrite <- (map_to_list_to_map _ Hn). f_equiv. apply map_eq. intros id. rewrite next_byID.
  destruct (find_id nextAll id) as [e|] eqn:E; simpl; symmetry.
  - apply find_id_Some in E as [He <-]. apply elem_of_list_to_map; [done|].
    by apply (list_elem_of_fmap_2 (λ e, (EID e, is_healthy e))).
  - apply find_id_None in E. apply not_elem_of_list_to_map. intros Hin. apply E.
    apply list_elem_of_fmap in Hin as ([x y] & -> & Hin).
    apply list_elem_of_fmap in Hin as (e & [= -> ->] & Hin). by apply (list_elem_of_fmap_2 EID).
Qed.

Lemma next_byAddress a :
  foldl (λ m '(id, nh), addAddressHealth m (default "" (addressByID s !! id)) nh) ∅ (map_to_list nextByID) !! a =
    address_verdict nextAll a.
Proof.
  assert (∀ l m, foldl (λ m '(id, nh), addAddressHealth m (default "" (addressByID s !! id)) nh) m l =
    foldl (λ m x, addAddressHealth m x.1 x.2) m (map (λ '(id, nh), (default "" (addressByID s !! id), nh)) l)) as Hfold.
  { induction l as [|[id nh] l IH]; intros m; [done|]. simpl. apply IH. }
  rewrite Hfold, fold_verdict, address_verdict_list. apply verdict_Permutation.
  rewrite (Permutation_map _ next_health_list), map_map.
  apply Permutation_refl', map_ext_in. intros e' He'%list_elem_of_In. f_equal.
  unfold next_all in He'. apply list_elem_of_fmap in He' as (e & -> & He).
  rewrite mark_id, mark_address, (wf_address s Hwf), (find_id_elem _ _ (wf_ids s Hwf) He). done.
Qed.

Lemma next_healthy :
  filter (λ e, default false (nextByID !! EID e) = true) nextAll = filter (λ e, is_healthy e = true) nextAll.
Proof.
  apply list_filter_ext_elem. intros e He. rewrite next_byID, (find_id_elem _ _ next_ids He). done.
Qed.

Lemma unchanged_all :
  forallb (λ id, bool_decide (default false (healthyByID s !! id) = h)) (elements ids) = true →
  nextAll = all s.
Proof.
  rewrite forallb_forall. intros Hun. unfold next_all. rewrite <- (map_id (all s)) at 2.
  apply map_ext_in. intros e He%list_elem_of_In.
  destruct (decide (EID e ∈ ids)) as [Hin|Hin]; [|unfold mark; by rewrite decide_False].
  apply mark_same. specialize (Hun (EID e)).
  rewrite (wf_health s Hwf), (find_id_elem _ _ (wf_ids s Hwf) He) in Hun. simpl in Hun.
  apply (bool_decide_eq_true_1 _), Hun, list_elem_of_In, elem_of_elements, Hin.
Qed.

Lemma withEndpointHealthForIDs_spec :
  ids ≠ ∅ → ∃ s', withEndpointHealthForIDs s ids h = Some s' ∧ snapshot_wf s' ∧ all s' = nextAll.
Proof.
  intros Hne. unfold withEndpointHealthForIDs. rewrite decide_False by done.
  destruct (forallb _ _) eqn:Ef; [exists s; split_and!; [done|done|by rewrite unchanged_all]|].
  eexists. split; [done|]. split; [|done]. rewrite next_healthy. pose proof next_ids as Hids.
  pose proof (filter_ids_NoDup nextAll Hids) as Hids'.
  split; simpl.
  - done.
  - done.
  - intros id. by apply list_to_map_find.
  - intros id. rewrite list_to_map_find by done. by apply find_id_filter.
  - intros id. rewrite (wf_address s Hwf). unfold next_all. rewrite find_id_mark.
    destruct (find_id (all s) id); simpl; [by rewrite mark_address|done].
  - apply next_byID.
  - apply next_byAddress.
  - done.
Qed.

End health_update.

Lemma ids_at_address s a id :
  snapshot_wf s →
  id ∈ dom (filter (λ '(_, x), x = a) (addressByID s)) ↔ ∃ e, find_id (all s) id = Some e ∧ address_of e = a.
Proof.
  intros Hwf. rewrite elem_of_dom. unfold is_Some. setoid_rewrite map_lookup_filter_Some.
  rewrite (wf_address s Hwf). destruct (find_id (all s) id) as [e|]; simpl; naive_solver.
Qed.

Lemma withEndpointAddressHealth_spec s a h :
  snapshot_wf s →
  match withEndpointAddressHealth s a h with
  | None => ∀ e, e ∈ all s → address_of e ≠ a
  | Some s' =>
      snapshot_wf s' ∧ (∃ e, e ∈ all s ∧ address_of e = a) ∧
      all s' = map (λ e, if decide (address_of e = a) then set_UnHealthy e (negb h) else e) (all s)
  end.
Proof.
  intros Hwf. unfold withEndpointAddressHealth.
  set (ids := dom (filter (λ '(_, x), x = a) (addressByID s))).
  assert (∀ e, e ∈ all s → EID e ∈ ids ↔ address_of e = a) as Hids.
  { intros e He. unfold ids. rewrite ids_at_address, (find_id_elem _ _ (wf_ids s Hwf) He) by done. naive_solver. }
  destruct (decide (ids = ∅)) as [Hempty|Hne].
  - unfold withEndpointHealthForIDs. rewrite decide_True by done. intros e He Ha.
    apply (Hids e He) in Ha. rewrite Hempty in Ha. by apply not_elem_of_empty in Ha.
  - destruct (withEndpointHealthForIDs_spec s ids h Hwf Hne) as (s' & -> & Hwf' & Hall).
    split_and!; [done| |].
    + apply set_choose_L in Hne as [id Hid]. apply ids_at_address in Hid as (e & He & Ha); [|done].
      apply find_id_Some in He as [He _]. by exists e.
    + rewrite Hall. unfold next_all. apply map_ext_in. intros e He%list_elem_of_In. unfold mark.
      by destruct (decide (EID e ∈ ids)) as [Hi|Hi], (decide (address_of e = a)) as [Ha|Ha];
        try done; exfalso; naive_solver.
Qed.

(** [after_id] cuts the list behind the endpoint with the given identity. *)
Lemma after_id_split l cur :
  match after_id l cur with
  | Some rest => ∃ l1 (x : Endpoint), l = l1 ++ x :: rest ∧ EID x = cur ∧ cur ∉ map EID l1
  | None => cur ∉ map EID l
  end.
Proof.
  induction l as [|y l IH]; simpl; [apply not_elem_of_nil|]. case_decide as E.
  - exists [], y. split_and!; [done|done|apply not_elem_of_nil].
  - destruct (after_id l cur) as [rest|].
    + destruct IH as (l1 & x & -> & Hx & Hn). exists (y :: l1), x. simpl. rewrite not_elem_of_cons. auto.
    + rewrite not_elem_of_cons. auto.
Qed.

(** With distinct identities the cut is unique. *)
Lemma split_unique (l1 l1' rest rest' : list Endpoint) (x x' : Endpoint) :
  NoDup (map EID (l1 ++ x :: rest)) → l1 ++ x :: rest = l1' ++ x' :: rest' → EID x = EID x' → rest = rest'.
Proof.
  assert (∀ (l : list Endpoint) (y : Endpoint) r, EID y ∈ map EID (l ++ y :: r)) as Hin.
  { intros l y r. apply (list_elem_of_fmap_2 EID), elem_of_app. right. constructor. }
  revert l1'. induction l1 as [|y l1 IH]; intros [|y' l1'] Hnd Hall Hx; simplify_eq/=; try done.
  - apply NoDup_cons in Hnd as [Hn _]. rewrite Hx in Hn. by destruct Hn.
  - apply NoDup_cons in Hnd as [Hn _]. rewrite <- Hx in Hn. by destruct Hn.
  - apply NoDup_cons in Hnd as [_ Hnd]. eauto.
Qed.

Lemma NextHealthyEndpoint_spec s cur :
  snapshot_wf s →
  match NextHealthyEndpoint s cur with
  | Some e => ∃ l1 (x : Endpoint) l2 l3, all s = l1 ++ x :: l2 ++ e :: l3 ∧ EID x = cur ∧ is_healthy e = true ∧
      Forall (λ y, is_healthy y = false) l2
  | None => ∀ l1 (x : Endpoint) l2, all s = l1 ++ x :: l2 → EID x = cur → Forall (λ y, is_healthy y = false) l2
  end.
Proof.
  intros Hwf. unfold NextHealthyEndpoint. pose proof (after_id_split (all s) cur) as Hafter.
  assert (∀ e, e ∈ all s → default false (healthyByID s !! EID e) = is_healthy e) as Hh.
  { intros e He. by rewrite (wf_health s Hwf), (find_id_elem _ _ (wf_ids s Hwf) He). }
  destruct (after_id (all s) cur) as [rest|].
  - destruct Hafter as (l1 & x & Hall & Hx & _).
    assert (∀ y, y ∈ rest → y ∈ all s) as Hin.
    { intros y Hy. rewrite Hall. apply elem_of_app. right. by constructor. }
    destruct (first_such _ rest) as [e|] eqn:Ef.
    + apply first_some_Some in Ef as (l2 & y & l3 & Hrest & Hy & Hl2).
      destruct (default false (healthyByID s !! EID y)) eqn:Ey; simplify_eq.
      exists l1, x, l2, l3. split_and!; try done.
      * rewrite <- Hh; [done|]. apply Hin, elem_of_app. right. constructor.
      * apply Forall_forall. intros y Hy. rewrite <- Hh by (apply Hin, elem_of_app; by left).
        specialize (Hl2 y Hy). revert Hl2. simpl. by destruct (default false (healthyByID s !! EID y)).
    + rewrite first_such_None in Ef. intros l1' x' l2' Hall' Hx'.
      assert (l2' = rest) as ->.
      { symmetry. apply (split_unique l1 l1' rest l2' x x'); [|congruence|congruence].
        rewrite <- Hall. apply (wf_ids s Hwf). }
      apply Forall_forall. intros y Hy. rewrite <- Hh by auto. by apply Ef.
  - intros l1 x l2 Hall Hx. exfalso. apply Hafter. rewrite Hall, <- Hx.
    apply (list_elem_of_fmap_2 EID), elem_of_app. right. constructor.
Qed.

End snapshot.

#[global] Arguments newEndpointSnapshot {CH} _ _ _ _ : simpl never.

(** ** Properties *)

(** A snapshot built from any configuration and any well-formed previous
    snapshot is well-formed: its identities are distinct and every index (by
    identity, healthy ones, addresses, verdicts by identity and by address)
    agrees with its list of endpoints, and a hash taken over from the previous
    snapshot is the one of its own healthy endpoints.  The endpoints are those
    of the configuration in order, with resolved identities and health. *)
Theorem new_snapshot_consistent {CH} (InitMap : string → option (ConsistentHash → list Endpoint → CH))
    (config : ClusterConfig) (previous : option (EndpointSnapshot CH)) (inherit : bool) :
  factories_read_hosts InitMap → (∀ p, previous = Some p → snapshot_wf InitMap p) →
  let s := newEndpointSnapshot InitMap (Some config) previous inherit in
  snapshot_wf InitMap s ∧
  Forall2 (snapshot_image previous inherit) (omap id (Endpoints config)) (all s).
Proof.
  intros Hf Hp. split; [by apply newEndpointSnapshot_wf|apply newEndpointSnapshot_image].
Qed.

(** Identities that are set and distinct in the configuration are the
    identities of the snapshot, so that health recorded under an identity is
    found again after the snapshot has been rebuilt. *)
Theorem snapshot_keeps_assigned_ids {CH} (InitMap : string → option (ConsistentHash → list Endpoint → CH))
    (config : ClusterConfig) (previous : option (EndpointSnapshot CH)) (inherit : bool) :
  ids_assigned (omap id (Endpoints config)) →
  map EID (all (newEndpointSnapshot InitMap (Some config) previous inherit)) =
    map EID (omap id (Endpoints config)).
Proof. apply newEndpointSnapshot_ids. Qed.

(** A verdict on an address is applied to every endpoint at that address and
    to no other, keeps the order of the endpoints and all the indexes in
    agreement, and is refused exactly when no endpoint has the address. *)
Theorem address_health_exact {CH} (InitMap : string → option (ConsistentHash → list Endpoint → CH))
    (s : EndpointSnapshot CH) (a : string) (h : bool) :
  snapshot_wf InitMap s →
  match withEndpointAddressHealth s a h with
  | None => ∀ e, e ∈ all s → address_of e ≠ a
  | Some s' =>
      snapshot_wf InitMap s' ∧ (∃ e, e ∈ all s ∧ address_of e = a) ∧
      all s' = map (λ e, if decide (address_of e = a) then set_UnHealthy e (negb h) else e) (all s)
  end.
Proof. apply withEndpointAddressHealth_spec. Qed.

(** Failing over from an endpoint goes to the first healthy endpoint behind
    it in configuration order, without wrapping around, and to none exactly
    when no healthy endpoint is behind it. *)
Theorem next_healthy_in_order {CH} (InitMap : string → option (ConsistentHash → list Endpoint → CH))
    (s : EndpointSnapshot CH) (cur : string) :
  snapshot_wf InitMap s →
  match NextHealthyEndpoint s cur with
  | Some e => ∃ l1 (x : Endpoint) l2 l3, all s = l1 ++ x :: l2 ++ e :: l3 ∧ EID x = cur ∧ is_healthy e = true ∧
      Forall (λ y, is_healthy y = false) l2
  | None => ∀ l1 (x : Endpoint) l2, all s = l1 ++ x :: l2 → EID x = cur → Forall (λ y, is_healthy y = false) l2
  end.
Proof. apply NextHealthyEndpoint_spec. Qed.

(** ** A cluster to evaluate on *)
Module sample.

Definition address (host : string) (port : Z) : SocketAddress := mkSocketAddress host port "" [] "".
Definition endpoint (id host : string) (port : Z) (unhealthy : bool) : Endpoint :=
  mkEndpoint id "" (address host port) ∅ unhealthy None.

(** The factory keeps the hosts it was given. *)
Definition InitMap (policy : string) : option (ConsistentHash → list Endpoint → list string) :=
  if decide (policy = "RingHashing") then Some (λ _ l, map GetHost l) else None.

Definition config : ClusterConfig :=
  mkClusterConfig "c" "RingHashing" (mkConsistentHash 0 0 0) []
    [Some (endpoint "a" "10.0.0.1" 80 false); None; Some (endpoint "b" "10.0.0.2" 80 true);
     Some (endpoint "a" "10.0.0.1" 80 false)] 0 1.

Definition snapshot : EndpointSnapshot (list string) := newEndpointSnapshot InitMap (Some config) None false.

Lemma InitMap_hosts : factories_read_hosts InitMap.
Proof. intros p new ch l1 l2. unfold InitMap. case_decide; [|done]. by intros [= <-] ?. Qed.

Lemma snapshot_ok : snapshot_wf InitMap snapshot.
Proof. apply newEndpointSnapshot_wf; [apply InitMap_hosts|done]. Qed.

End sample.

Lemma new_snapshot_consistent_witness :
  snapshot_wf sample.InitMap (newEndpointSnapshot sample.InitMap (Some sample.config) (Some sample.snapshot) true) ∧
  map is_healthy (all (newEndpointSnapshot sample.InitMap (Some sample.config) (Some sample.snapshot) true)) =
    [true; false; true].
Proof.
  destruct (new_snapshot_consistent sample.InitMap sample.config (Some sample.snapshot) true) as [H _].
  - apply sample.InitMap_hosts.
  - intros p [= <-]. apply sample.snapshot_ok.
  - split; [exact H|]. vm_compute. reflexivity.
Defined.

Lemma snapshot_keeps_assigned_ids_witness :
  map EID (all (newEndpointSnapshot sample.InitMap
    (Some (set_Endpoints sample.config [Some (sample.endpoint "x" "h" 1 false); Some (sample.endpoint "y" "h" 1 true)]))
    None false)) = ["x"; "y"].
Proof.
  rewrite (snapshot_keeps_assigned_ids sample.InitMap).
  - reflexivity.
  - split; apply (bool_decide_unpack _); vm_compute; exact I.
Defined.

Lemma address_health_exact_witness :
  ∃ s', withEndpointAddressHealth sample.snapshot "10.0.0.1:80" false = Some s' ∧
    snapshot_wf sample.InitMap s' ∧ map is_healthy (all s') = [false; false; false].
Proof.
  pose proof (address_health_exact sample.InitMap sample.snapshot "10.0.0.1:80" false sample.snapshot_ok) as H.
  destruct (withEndpointAddressHealth sample.snapshot "10.0.0.1:80" false) as [s'|] eqn:E.
  - exists s'. destruct H as (H1 & _ & H3). split; [reflexivity|]. split; [exact H1|].
    rewrite H3. vm_compute. reflexivity.
  - exfalso. vm_compute in E. discriminate E.
Defined.

Lemma next_healthy_in_order_witness :
  ∃ e, NextHealthyEndpoint sample.snapshot "a" = Some e ∧ EID e = "a-2" ∧ is_healthy e = true.
Proof.
  pose proof (next_healthy_in_order sample.InitMap sample.snapshot "a" sample.snapshot_ok) as H.
  destruct (NextHealthyEndpoint sample.snapshot "a") as [e|] eqn:E.
  - exists e. destruct H as (_ & _ & _ & _ & _ & _ & Hh & _). split; [reflexivity|]. split; [|exact Hh].
    vm_compute in E. injection E as <-. reflexivity.
  - exfalso. vm_compute in E. discriminate E.
Defined.
