(* ===== verification/LoadBalance.v ===== *)
(** * Load balancing over a snapshot, [pkg/cluster/loadbalancer]

    A balancer is any implementation of the [LoadBalancer] interface, in-tree or
    not; [pickEndpoint] checks what it returns against the snapshot.  A balancer
    hands back a pointer: one of the healthy endpoints it was shown, or a
    pointer of its own.  [rand.Intn] is an argument; [None] of an operation is a
    nil dereference. *)

From S2P Require Import Prelude GoStrings Sha256 Endpoint Snapshot.

(** ** Interfaces *)

(** [model.LbConsistentHashView], the lookups of a consistent hash. *)
Class LbConsistentHashView (CH : Type) : Type := {
  Hash : CH → string → Z;
  Get : CH → string → option string;
  GetHash : CH → Z → option string;
}.

(** [snapshotopt.Token] *)
Record Token : Type := mkToken { ZeroCopy : bool; HealthyOnly : bool }.

(** What a balancer returns: the healthy endpoint at a position of the snapshot
    it was given, or some other object. *)
Inductive pick : Type :=
  | Owned (i : nat)
  | Foreign (e : Endpoint).

(** [PickContext]; [ctx_ConfigHash] is [Config.ConsistentHash.Hash], and the
    cursors are the contents of the cells the context points to. *)
Record PickContext (CH : Type) : Type := mkPickContext {
  ctx_Config : option ClusterConfig;
  ctx_ConfigHash : option CH;
  ctx_HealthyConsistentHash : option CH;
  (** [None] is the nil slice *)
  ctx_AllEndpoints : option (list Endpoint);
  ctx_HealthyEndpoints : list Endpoint;
  ctx_RoundRobinCursor : option Z;
  ctx_HealthyByID : option (string → option Endpoint);
}.
Arguments mkPickContext {CH} _ _ _ _ _ _ _.
Arguments ctx_Config {CH} _.
Arguments ctx_ConfigHash {CH} _.
Arguments ctx_HealthyConsistentHash {CH} _.
Arguments ctx_AllEndpoints {CH} _.
Arguments ctx_HealthyEndpoints {CH} _.
Arguments ctx_RoundRobinCursor {CH} _.
Arguments ctx_HealthyByID {CH} _.

(** The cells of a context that outlive a pick. *)
Record cells (CH : Type) : Type := mkCells {
  cell_cursor : option Z;
  cell_config : option ClusterConfig;
  cell_hash : option CH;
}.
Arguments mkCells {CH} _ _ _.
Arguments cell_cursor {CH} _.
Arguments cell_config {CH} _.
Arguments cell_hash {CH} _.

Definition cells_of {CH} (c : PickContext CH) : cells CH :=
  mkCells (ctx_RoundRobinCursor c) (ctx_Config c) (ctx_ConfigHash c).

(** The policy of a request: what [GenerateHash] returns, [None] for nil. *)
Abbreviation LbPolicy := (option string).

(** A [LoadBalancer]; the optional interfaces are the ones a type assertion asks
    for, and [PkgPath] is where its type is defined. *)
Record LoadBalancer (CH : Type) : Type := mkLoadBalancer {
  (** the configuration with its hash; the result and the configuration after *)
  Handler : ClusterConfig → option CH → LbPolicy → option (option Endpoint * ClusterConfig);
  HandlerWithSnapshot : option (PickContext CH → LbPolicy → option (option pick * cells CH));
  SnapshotOptIn : option Token;
  PkgPath : string;
}.
Arguments mkLoadBalancer {CH} _ _ _ _.
Arguments Handler {CH} _ _ _ _.
Arguments HandlerWithSnapshot {CH} _.
Arguments SnapshotOptIn {CH} _.
Arguments PkgPath {CH} _.

(** ** Identity of endpoints *)

Definition isBlankDomainPlaceholderAddress (a : SocketAddress) : bool :=
  bool_decide (Domains a = [""]) && bool_decide (Address a = "") && bool_decide (Port a = 0%Z).

Definition sameEndpointIdentity (candidate endpoint : Endpoint) : bool :=
  if bool_decide (EID endpoint ≠ "") || bool_decide (EID candidate ≠ "") then
    if decide (EID candidate = EID endpoint) then
      isBlankDomainPlaceholderAddress (EAddress candidate) ||
      SocketAddress_Equal (EAddress candidate) (EAddress endpoint)
    else false
  else SocketAddress_Equal (EAddress candidate) (EAddress endpoint).

(** ** Picking *)

Definition inTreeLoadBalancerPkg : string := "github.com/apache/dubbo-go-pixiu/pkg/cluster/loadbalancer".

Section picking.
Context {CH : Type} (InitMap : string → option (ConsistentHash → list Endpoint → CH)).
Implicit Types (context c : PickContext CH) (balancer : LoadBalancer CH) (policy : LbPolicy).

Definition isInTreeBalancer balancer : bool :=
  bool_decide (PkgPath balancer = inTreeLoadBalancerPkg) ||
  Strings.HasPrefix (PkgPath balancer) (inTreeLoadBalancerPkg +:+ "/").

Definition snapshotOptIn balancer : Token :=
  match SnapshotOptIn balancer with
  | Some token => if isInTreeBalancer balancer then token else mkToken false false
  | None => mkToken false false
  end.

Definition NeedsAllEndpoints balancer : bool := negb (HealthyOnly (snapshotOptIn balancer)).

Definition ConsistentHashForHealthyEndpoints context : option CH :=
  match ctx_HealthyConsistentHash context, ctx_Config context with
  | Some h, _ => Some h
  | None, None => None
  | None, Some cfg =>
      match ctx_HealthyEndpoints context with
      | [] => None
      | es => match InitMap (LbStr cfg) with
              | Some new => Some (new (CConsistentHash cfg) es)
              | None => ctx_ConfigHash context
              end
      end
  end.

(** The endpoint a pick points to. *)
Definition pick_value context (p : pick) : option Endpoint :=
  match p with
  | Owned i => ctx_HealthyEndpoints context !! i
  | Foreign e => Some e
  end.

(** A pointer comparison decides nothing in the first branch: an endpoint has
    its own identity ([sameEndpointIdentity_refl]). *)
Definition healthyEndpointFromSnapshot (endpoint : option pick) context : option Endpoint :=
  p ← endpoint; e ← pick_value context p;
  match ctx_HealthyByID context with
  | Some byID =>
      if decide (EID e ≠ "") then
        candidate ← byID (EID e);
        if sameEndpointIdentity candidate e then Some candidate else None
      else match p with
           | Owned i => ctx_HealthyEndpoints context !! i
           | Foreign e => first_such (λ candidate, sameEndpointIdentity candidate e) (ctx_HealthyEndpoints context)
           end
  | None =>
      match p with
      | Owned i => ctx_HealthyEndpoints context !! i
      | Foreign e => first_such (λ candidate, sameEndpointIdentity candidate e) (ctx_HealthyEndpoints context)
      end
  end.

(** The copies are other objects: what was [Owned] by the copy is foreign to the
    snapshot. *)
Definition defensiveSnapshotPickContext context : PickContext CH :=
  mkPickContext (ctx_Config context) (ctx_ConfigHash context) (ctx_HealthyConsistentHash context)
    (ctx_AllEndpoints context) (ctx_HealthyEndpoints context) (ctx_RoundRobinCursor context) None.

Definition disown context (endpoint : option pick) : option pick :=
  p ← endpoint; e ← pick_value context p; Some (Foreign e).

Definition set_PrePickEndpointIndex (cfg : ClusterConfig) (i : Z) : ClusterConfig :=
  mkClusterConfig (CName cfg) (LbStr cfg) (CConsistentHash cfg) (HealthChecks cfg) (Endpoints cfg) i (ConfigID cfg).

(** [Config.EnsureConsistentHash]: nil endpoints of the configuration would be
    dereferenced by the factory. *)
Definition EnsureConsistentHash (cfg : ClusterConfig) (hash : option CH) : option (option CH) :=
  match hash, InitMap (LbStr cfg) with
  | Some h, _ => Some (Some h)
  | None, None => Some None
  | None, Some new =>
      if decide (None ∈ Endpoints cfg) then None
      else Some (Some (new (CConsistentHash cfg) (omap id (Endpoints cfg))))
  end.

Definition legacyPick balancer context (cfg : ClusterConfig) policy : option (option Endpoint * cells CH) :=
  hash ← EnsureConsistentHash cfg (ctx_ConfigHash context);
  let allEndpoints := default (ctx_HealthyEndpoints context) (ctx_AllEndpoints context) in
  let cursorBefore := default (PrePickEndpointIndex cfg) (ctx_RoundRobinCursor context) in
  let config := set_PrePickEndpointIndex (set_Endpoints cfg (Some <$> allEndpoints)) cursorBefore in
  '(endpoint, config) ← Handler balancer config hash policy;
  let delta := wrap32 (PrePickEndpointIndex config - cursorBefore) in
  let after := match ctx_RoundRobinCursor context with
               | Some cursor => mkCells (Some (wrap32 (cursor + delta))) (Some cfg) hash
               | None => mkCells None
                   (Some (set_PrePickEndpointIndex cfg (wrap32 (PrePickEndpointIndex cfg + delta)))) hash
               end in
  Some (healthyEndpointFromSnapshot (Foreign <$> endpoint) context, after).

Definition pickEndpoint (balancer : option (LoadBalancer CH)) context policy : option (option Endpoint * cells CH) :=
  match balancer, ctx_Config context with
  | Some balancer, Some cfg =>
      match HandlerWithSnapshot balancer with
      | Some handler =>
          if ZeroCopy (snapshotOptIn balancer) then
            '(endpoint, after) ← handler context policy;
            Some (healthyEndpointFromSnapshot endpoint context, after)
          else
            '(endpoint, after) ← handler (defensiveSnapshotPickContext context) policy;
            Some (healthyEndpointFromSnapshot (disown context endpoint) context, after)
      | None => legacyPick balancer context cfg policy
      end
  | _, _ => Some (None, cells_of context)
  end.

End picking.

(** ** The bundled balancers *)

Definition trusted : option Token := Some (mkToken true true).

Section balancers.
Context {CH : Type} `{!LbConsistentHashView CH} (InitMap : string → option (ConsistentHash → list Endpoint → CH)).
Context (Intn : Z → Z).
Implicit Types (c : PickContext CH) (policy : LbPolicy) (cfg : ClusterConfig).

(** The context the [Handler] methods build from a configuration alone. *)
Definition config_context cfg (hash : option CH) (endpoints : list Endpoint) : PickContext CH :=
  mkPickContext (Some cfg) hash None None endpoints None None.

(** [Handler] in terms of [HandlerWithSnapshot], as the balancers have it. *)
Definition handler_of (h : PickContext CH → LbPolicy → option (option pick * cells CH)) (context : list Endpoint → PickContext CH)
    cfg policy : option (option Endpoint * ClusterConfig) :=
  endpoints ← GetEndpoint cfg true;
  let c := context (omap id endpoints) in
  '(endpoint, after) ← h c policy;
  Some (endpoint ≫= pick_value c, default cfg (cell_config after)).

(** *** Round robin *)

Definition RoundRobin_HandlerWithSnapshot c policy : option (option pick * cells CH) :=
  match ctx_HealthyEndpoints c with
  | [] => Some (None, cells_of c)
  | endpoints =>
      let slot index := Owned (Z.to_nat (index `mod` wrap32 (Z.of_nat (length endpoints)))) in
      match ctx_RoundRobinCursor c, ctx_Config c with
      | Some cursor, _ =>
          let next := wrap32 (cursor + 1) in
          Some (Some (slot (wrap32 (next - 1))), mkCells (Some next) (ctx_Config c) (ctx_ConfigHash c))
      | None, Some cfg =>
          let next := wrap32 (PrePickEndpointIndex cfg + 1) in
          Some (Some (slot (wrap32 (next - 1))),
            mkCells None (Some (set_PrePickEndpointIndex cfg next)) (ctx_ConfigHash c))
      | None, None => None
      end
  end.

Definition RoundRobin : LoadBalancer CH :=
  mkLoadBalancer (λ cfg hash, handler_of RoundRobin_HandlerWithSnapshot (config_context cfg hash) cfg)
    (Some RoundRobin_HandlerWithSnapshot) trusted (inTreeLoadBalancerPkg +:+ "/roundrobin").

(** *** Random *)

Definition Rand_HandlerWithSnapshot c policy : option (option pick * cells CH) :=
  match ctx_HealthyEndpoints c with
  | [] => Some (None, cells_of c)
  | endpoints => Some (Some (Owned (Z.to_nat (Intn (Z.of_nat (length endpoints))))), cells_of c)
  end.

Definition Rand : LoadBalancer CH :=
  mkLoadBalancer (λ cfg hash, handler_of Rand_HandlerWithSnapshot (config_context cfg hash) cfg)
    (Some Rand_HandlerWithSnapshot) trusted (inTreeLoadBalancerPkg +:+ "/rand").

(** *** Weighted random *)

(** [strconv.Atoi]: an optional sign and decimal digits, in the range of an
    [int]. *)
Fixpoint digits_value (acc : Z) (s : string) : option Z :=
  match s with
  | EmptyString => Some acc
  | String a s =>
      let d := (Z.of_N (N_of_ascii a) - 48)%Z in
      if decide (0 ≤ d ≤ 9)%Z then digits_value (10 * acc + d) s else None
  end.

Definition Atoi (s : string) : option Z :=
  let '(sign, digits) :=
    match s with
    | String a rest => if decide (a = "-"%char) then ((-1)%Z, rest) else if decide (a = "+"%char) then (1%Z, rest) else (1%Z, s)
    | EmptyString => (1%Z, s)
    end in
  if decide (digits = "") then None
  else v ← digits_value 0 digits;
       if decide (- 2 ^ 63 ≤ sign * v < 2 ^ 63)%Z then Some (sign * v)%Z else None.

Definition weight_of (e : Endpoint) : Z :=
  match Metadata e !! "weight" ≫= Atoi with
  | Some w => if decide (0 ≤ w)%Z then w else 0
  | None => 0
  end.

Definition totalWeight (endpoints : list Endpoint) : Z :=
  foldl (λ total e, sint64 (total + weight_of e)) 0%Z endpoints.

(** The loop over the running sum of the weights. *)
Fixpoint weighted_slot (randomNumber currentWeightSum : Z) (endpoints : list Endpoint) : option nat :=
  match endpoints with
  | [] => None
  | e :: endpoints =>
      let sum := sint64 (currentWeightSum + weight_of e) in
      if decide (randomNumber < sum)%Z then Some 0 else S <$> weighted_slot randomNumber sum endpoints
  end.

Definition WeightRandom_HandlerWithSnapshot c policy : option (option pick * cells CH) :=
  match ctx_HealthyEndpoints c with
  | [] => Some (None, cells_of c)
  | endpoints =>
      let total := totalWeight endpoints in
      let slot := if decide (total ≤ 0)%Z then Z.to_nat (Intn (Z.of_nat (length endpoints)))
                  else default 0 (weighted_slot (Intn total) 0 endpoints) in
      Some (Some (Owned slot), cells_of c)
  end.

Definition WeightRandom : LoadBalancer CH :=
  mkLoadBalancer (λ cfg hash, handler_of WeightRandom_HandlerWithSnapshot (config_context cfg hash) cfg)
    (Some WeightRandom_HandlerWithSnapshot) trusted (inTreeLoadBalancerPkg +:+ "/weightrandom").

(** *** Consistent hashing *)

(** The first endpoint with the host, or the first endpoint. *)
Definition host_slot (host : string) (endpoints : list Endpoint) : nat :=
  match list_find (λ e, GetHost e = host) endpoints with
  | Some (i, _) => i
  | None => 0
  end.

Definition hashed_pick (lookup : CH → string → option string) c policy : option (option pick * cells CH) :=
  Some (match ctx_HealthyEndpoints c, ConsistentHashForHealthyEndpoints InitMap c, policy with
        | _ :: _, Some hashView, Some key =>
            (λ host, Owned (host_slot host (ctx_HealthyEndpoints c))) <$> lookup hashView key
        | _, _, _ => None
        end, cells_of c).

Definition RingHashing_HandlerWithSnapshot c policy : option (option pick * cells CH) :=
  hashed_pick (λ hashView key, GetHash hashView (Hash hashView key)) c policy.

Definition MaglevHash_HandlerWithSnapshot c policy : option (option pick * cells CH) :=
  hashed_pick Get c policy.

(** The context of their [Handler]: the hash of the configuration, or a new one. *)
Definition hashed_context (new : ConsistentHash → list Endpoint → CH) cfg (hash : option CH) (endpoints : list Endpoint)
    : PickContext CH :=
  let hashView := match hash, endpoints with
                  | Some h, _ => Some h
                  | None, [] => None
                  | None, _ => Some (new (CConsistentHash cfg) endpoints)
                  end in
  mkPickContext (Some cfg) hash hashView None endpoints None None.

Definition RingHashing (NewRingHash : ConsistentHash → list Endpoint → CH) : LoadBalancer CH :=
  mkLoadBalancer (λ cfg hash, handler_of RingHashing_HandlerWithSnapshot (hashed_context NewRingHash cfg hash) cfg)
    (Some RingHashing_HandlerWithSnapshot) trusted (inTreeLoadBalancerPkg +:+ "/ringhash").

Definition MaglevHash (NewMaglevHash : ConsistentHash → list Endpoint → CH) : LoadBalancer CH :=
  mkLoadBalancer (λ cfg hash, handler_of MaglevHash_HandlerWithSnapshot (hashed_context NewMaglevHash cfg hash) cfg)
    (Some MaglevHash_HandlerWithSnapshot) trusted (inTreeLoadBalancerPkg +:+ "/maglev").

(** ** The registry *)

(** [RegisterLoadBalancer]; [None] is the panic on a name that is taken. *)
Definition RegisterLoadBalancer (strategy : gmap string (LoadBalancer CH)) (name : string) (balancer : LoadBalancer CH)
    : option (gmap string (LoadBalancer CH)) :=
  match strategy !! name with
  | Some _ => None
  | None => Some (<[name := balancer]> strategy)
  end.

End balancers.

(** ** What a pick can be *)

(** A context of the request path: every healthy endpoint has an identity of its
    own and the index resolves it. *)
Definition context_ok {CH} (c : PickContext CH) : Prop :=
  ids_assigned (ctx_HealthyEndpoints c) ∧
  ∃ byID, ctx_HealthyByID c = Some byID ∧ ∀ id, byID id = find_id (ctx_HealthyEndpoints c) id.

Lemma SocketAddress_Equal_refl a : SocketAddress_Equal a a = true.
Proof. unfold SocketAddress_Equal. destruct (Domains a); by rewrite ?andb_true_iff, ?bool_decide_eq_true. Qed.

Lemma sameEndpointIdentity_refl e : sameEndpointIdentity e e = true.
Proof.
  unfold sameEndpointIdentity. rewrite decide_True, SocketAddress_Equal_refl, orb_true_r by done. by destruct (_ || _).
Qed.

Section picked.
Context {CH : Type} (InitMap : string → option (ConsistentHash → list Endpoint → CH)).
Implicit Types (c : PickContext CH) (balancer : LoadBalancer CH) (policy : LbPolicy).

Lemma from_snapshot_healthy p c e :
  context_ok c → healthyEndpointFromSnapshot p c = Some e → e ∈ ctx_HealthyEndpoints c.
Proof.
  intros (_ & byID & Hby & Hfind). unfold healthyEndpointFromSnapshot. rewrite Hby.
  destruct p as [p|]; [|done]. simpl. destruct (pick_value c p) as [v|] eqn:Ev; [|done]. simpl. case_decide.
  - rewrite Hfind. destruct (find_id _ _) as [x|] eqn:Ex; [|done]. simpl.
    destruct (sameEndpointIdentity x v); [|done]. intros [= <-]. by apply find_id_Some in Ex as [Hx _].
  - destruct p as [i|f]; [by apply list_elem_of_lookup_2|]. by intros [Hx _]%first_such_Some.
Qed.

(** What is picked among the healthy endpoints is what is returned. *)
Lemma from_snapshot_owned c i e :
  context_ok c → ctx_HealthyEndpoints c !! i = Some e → healthyEndpointFromSnapshot (Some (Owned i)) c = Some e.
Proof.
  intros ([Hnd Hne] & byID & Hby & Hfind) Hi. unfold healthyEndpointFromSnapshot. simpl. rewrite Hi. simpl. rewrite Hby.
  apply list_elem_of_lookup_2 in Hi as He. rewrite decide_True.
  - rewrite Hfind, find_id_elem by done. simpl. by rewrite sameEndpointIdentity_refl.
  - intros Hid. apply Hne. rewrite <- Hid. by apply (list_elem_of_fmap_2 EID).
Qed.

Lemma from_snapshot_foreign c i e :
  context_ok c → ctx_HealthyEndpoints c !! i = Some e → healthyEndpointFromSnapshot (Some (Foreign e)) c = Some e.
Proof.
  intros Hc Hi. pose proof Hc as ([Hnd Hne] & byID & Hby & Hfind).
  rewrite <- (from_snapshot_owned c i e Hc Hi). unfold healthyEndpointFromSnapshot. simpl. rewrite Hi. simpl. rewrite Hby.
  apply list_elem_of_lookup_2 in Hi as He. rewrite !decide_True; [done|..];
    intros Hid; apply Hne; rewrite <- Hid; by apply (list_elem_of_fmap_2 EID).
Qed.

(** The context a snapshot balancer gets to see. *)
Definition shown balancer c : PickContext CH :=
  if ZeroCopy (snapshotOptIn balancer) then c else defensiveSnapshotPickContext c.

Lemma pick_choice balancer c policy handler i e after :
  context_ok c → HandlerWithSnapshot balancer = Some handler → is_Some (ctx_Config c) →
  ctx_HealthyEndpoints c !! i = Some e → handler (shown balancer c) policy = Some (Some (Owned i), after) →
  pickEndpoint InitMap (Some balancer) c policy = Some (Some e, after).
Proof.
  intros Hc Hh [cfg Hcfg] Hi H. unfold pickEndpoint, shown in *. rewrite Hcfg, Hh. destruct (ZeroCopy _); rewrite H.
  - cbn -[healthyEndpointFromSnapshot]. by rewrite (from_snapshot_owned c i e).
  - assert (disown c (Some (Owned i)) = Some (Foreign e)) as Hd by (unfold disown; simpl; by rewrite Hi).
    cbn -[healthyEndpointFromSnapshot disown]. by rewrite Hd, (from_snapshot_foreign c i e).
Qed.

(** C33: whatever a balancer returns, in-tree or not, the pick is one of the
    healthy endpoints of the snapshot; and when a snapshot balancer chooses one
    of them, that one is the pick, whether it was shown the snapshot or a copy. *)
Theorem pick_is_healthy balancer c policy :
  context_ok c →
  (∀ e after, pickEndpoint InitMap (Some balancer) c policy = Some (Some e, after) → e ∈ ctx_HealthyEndpoints c) ∧
  (∀ handler i e after,
     HandlerWithSnapshot balancer = Some handler → is_Some (ctx_Config c) → ctx_HealthyEndpoints c !! i = Some e →
     handler (shown balancer c) policy = Some (Some (Owned i), after) →
     pickEndpoint InitMap (Some balancer) c policy = Some (Some e, after)).
Proof.
  intros Hc. split; [|intros; by eapply pick_choice].
  intros e after H. unfold pickEndpoint, legacyPick in H. destruct (ctx_Config c) as [cfg|]; [|done].
  destruct (HandlerWithSnapshot balancer) as [handler|]; [destruct (ZeroCopy _)|].
  - destruct (handler c policy) as [[p a]|]; [|done]. injection H as Hp _. exact (from_snapshot_healthy p c e Hc Hp).
  - destruct (handler _ policy) as [[p a]|]; [|done]. injection H as Hp _. exact (from_snapshot_healthy _ c e Hc Hp).
  - destruct (EnsureConsistentHash _ _ _); [|done]. simpl in H. destruct (Handler _ _ _ _) as [[p cfg']|]; [|done].
    injection H as Hp _. exact (from_snapshot_healthy _ c e Hc Hp).
Qed.

End picked.

(** ** Round robin *)

(** A balancer picks several times; the cells carry over. *)
Definition with_cells {CH} (c : PickContext CH) (a : cells CH) : PickContext CH :=
  mkPickContext (cell_config a) (cell_hash a) (ctx_HealthyConsistentHash c) (ctx_AllEndpoints c)
    (ctx_HealthyEndpoints c) (cell_cursor a) (ctx_HealthyByID c).

Fixpoint picks {CH} (InitMap : string → option (ConsistentHash → list Endpoint → CH)) (balancer : LoadBalancer CH)
    (n : nat) (c : PickContext CH) (policy : LbPolicy) : list (option Endpoint) :=
  match n with
  | O => []
  | S n => match pickEndpoint InitMap (Some balancer) c policy with
           | Some (e, after) => e :: picks InitMap balancer n (with_cells c after) policy
           | None => []
           end
  end.

Section fairness.
Context {CH : Type} (InitMap : string → option (ConsistentHash → list Endpoint → CH)).
Implicit Types (c : PickContext CH) (policy : LbPolicy) (l : list Endpoint).

Lemma round_robin_pick c policy k :
  context_ok c → is_Some (ctx_Config c) → ctx_HealthyEndpoints c ≠ [] → (Z.of_nat (length (ctx_HealthyEndpoints c)) < 2 ^ 32)%Z →
  ctx_RoundRobinCursor c = Some (Z.of_nat k) → (Z.of_nat k < 2 ^ 32)%Z →
  pickEndpoint InitMap (Some RoundRobin) c policy =
    Some (ctx_HealthyEndpoints c !! (k mod length (ctx_HealthyEndpoints c)),
          mkCells (Some (wrap32 (Z.of_nat k + 1))) (ctx_Config c) (ctx_ConfigHash c)).
Proof.
  intros Hc Hcfg Hne HL Hcur Hk. set (l := ctx_HealthyEndpoints c) in *.
  assert (k mod length l < length l) as Hlt by (apply Nat.mod_upper_bound; by destruct l).
  destruct (lookup_lt_is_Some_2 l _ Hlt) as [e He]. rewrite He.
  eapply (pick_choice InitMap RoundRobin c policy _ _ e); [done|done|done|exact He|].
  change (shown RoundRobin c) with c. unfold RoundRobin_HandlerWithSnapshot. fold l. destruct l as [|x l'] eqn:El; [done|].
  rewrite Hcur, wrap32_succ_pred, (wrap32_small (Z.of_nat k)), (wrap32_small (Z.of_nat _)) by lia.
  by rewrite <- Nat2Z.inj_mod, Nat2Z.id.
Qed.

(** The picks go round the list, starting at the cursor. *)
Lemma round_robin_picks n c policy k :
  context_ok c → is_Some (ctx_Config c) → ctx_HealthyEndpoints c ≠ [] → (Z.of_nat (length (ctx_HealthyEndpoints c)) < 2 ^ 32)%Z →
  ctx_RoundRobinCursor c = Some (Z.of_nat k) → (Z.of_nat (k + n) ≤ 2 ^ 32)%Z →
  picks InitMap RoundRobin n c policy =
    (λ j, ctx_HealthyEndpoints c !! ((k + j) mod length (ctx_HealthyEndpoints c))) <$> seq 0 n.
Proof.
  revert c k. induction n as [|n IH]; intros c k Hc Hcfg Hne HL Hcur Hk; [done|].
  cbn [picks]. rewrite (round_robin_pick c policy k) by (done || lia). cbn [seq fmap list_fmap]. rewrite Nat.add_0_r. f_equal.
  destruct (decide (n = 0)) as [->|Hn]; [done|].
  rewrite (IH (with_cells c _) (S k)); simpl; [|done|done|done|done| |lia].
  - rewrite <- fmap_S_seq, <- list_fmap_compose. apply list_fmap_ext. intros i j _. simpl. by rewrite Nat.add_succ_r.
  - rewrite wrap32_small by lia. f_equal. lia.
Qed.

Lemma rotate_is_permutation {A} n (l : list A) : rotate n l ≡ₚ l.
Proof. unfold rotate. rewrite Permutation_app_comm. by rewrite take_drop. Qed.

Lemma rotation l k : l ≠ [] → (λ j, l !! ((k + j) mod length l)) <$> seq 0 (length l) = Some <$> rotate k l.
Proof.
  intros Hne. apply list_eq. intros i. rewrite !list_lookup_fmap. destruct (decide (i < length l)) as [Hi|Hi].
  - rewrite lookup_seq_lt, lookup_rotate_r by done. simpl. unfold rotate_nat_add.
    rewrite <- Nat2Z.inj_add, <- Nat2Z.inj_mod, Nat2Z.id.
    assert ((k + i) mod length l < length l) as Hlt by (apply Nat.mod_upper_bound; by destruct l).
    destruct (lookup_lt_is_Some_2 l _ Hlt) as [e ->]. done.
  - rewrite lookup_seq_ge by lia. rewrite (lookup_ge_None_2 (rotate k l)); [done|]. rewrite length_rotate. lia.
Qed.

(** While the 32-bit cursor does not wrap around, any [q] rounds of picks
    take every healthy endpoint exactly [q] times, wherever the cursor stands. *)
Theorem round_robin_fair q c policy k :
  context_ok c → is_Some (ctx_Config c) → ctx_RoundRobinCursor c = Some (Z.of_nat k) →
  (Z.of_nat (k + q * length (ctx_HealthyEndpoints c)) < 2 ^ 32)%Z →
  picks InitMap RoundRobin (q * length (ctx_HealthyEndpoints c)) c policy
    ≡ₚ mjoin (replicate q (Some <$> ctx_HealthyEndpoints c)).
Proof.
  intros Hc Hcfg Hcur Hk. set (l := ctx_HealthyEndpoints c) in *.
  destruct (decide (l = [])) as [Hl|Hl].
  { rewrite Hl, Nat.mul_0_r. simpl. clear. induction q as [|q IH]; [done|]. exact IH. }
  destruct q as [|q]; [done|]. rewrite (round_robin_picks _ c policy k) by (done || (fold l; lia)). fold l. clear Hk Hcur.
  generalize (S q) as n. clear q. intros n. revert k. induction n as [|n IH]; intros k; [done|].
  simpl. rewrite seq_app, fmap_app, rotation, rotate_is_permutation by done. f_equiv.
  rewrite <- (IH (k + length l)). replace (seq (0 + length l) (n * length l)) with (Nat.add (length l) <$> seq 0 (n * length l))
    by (rewrite fmap_add_seq; f_equal; lia).
  rewrite <- list_fmap_compose. apply reflexive_eq. apply list_fmap_ext. intros i j _. simpl. by rewrite Nat.add_assoc.
Qed.

End fairness.

(** ** Weighted random *)

Definition sum_of_weights (l : list Endpoint) : nat := sum_list_with (λ e, Z.to_nat (weight_of e)) l.

Section weights.
Context {CH : Type} (InitMap : string → option (ConsistentHash → list Endpoint → CH)).
Implicit Types (c : PickContext CH) (policy : LbPolicy) (l : list Endpoint) (e : Endpoint).

Lemma weight_nonneg e : (0 ≤ weight_of e)%Z.
Proof. unfold weight_of. repeat case_match; lia. Qed.

Lemma totalWeight_sum l : (Z.of_nat (sum_of_weights l) < 2 ^ 63)%Z → totalWeight l = Z.of_nat (sum_of_weights l).
Proof.
  unfold totalWeight, sum_of_weights. change 0%Z with (Z.of_nat 0). rewrite <- (Nat.add_0_l (sum_list_with _ l)).
  generalize 0 as a. induction l as [|e l IH]; intros a H; simpl in *; [lia|].
  pose proof (weight_nonneg e). rewrite sint64_small by lia.
  replace (Z.of_nat a + weight_of e)%Z with (Z.of_nat (a + Z.to_nat (weight_of e))) by lia.
  rewrite IH by lia. lia.
Qed.

(** Among the numbers the loop can be given, a position is found by as many as
    its endpoint weighs. *)
Lemma weighted_slot_count l a i e :
  (Z.of_nat (a + sum_of_weights l) < 2 ^ 63)%Z → l !! i = Some e →
  length (filter (λ r, weighted_slot (Z.of_nat r) (Z.of_nat a) l = Some i) (seq a (sum_of_weights l)))
    = Z.to_nat (weight_of e).
Proof.
  revert a i. induction l as [|x l IH]; intros a i H Hi; [done|]. unfold sum_of_weights in *. simpl in *.
  pose proof (weight_nonneg x). set (w := Z.to_nat (weight_of x)) in *.
  rewrite seq_app, filter_app, length_app. rewrite sint64_small by lia.
  replace (Z.of_nat a + weight_of x)%Z with (Z.of_nat (a + w)) by lia.
  destruct i as [|i]; simpl in Hi.
  - injection Hi as <-. rewrite list_filter_all, length_seq.
    2:{ intros r Hr%elem_of_seq. rewrite decide_True by lia. done. }
    rewrite list_filter_none.
    2:{ intros r Hr%elem_of_seq. rewrite decide_False by lia. by destruct (weighted_slot _ _ _). }
    apply Nat.add_0_r.
  - rewrite list_filter_none.
    2:{ intros r Hr%elem_of_seq. by rewrite decide_True by lia. }
    rewrite (list_filter_ext_elem _ (λ r, weighted_slot (Z.of_nat r) (Z.of_nat (a + w)) l = Some i)).
    2:{ intros r Hr%elem_of_seq. rewrite decide_False by lia. destruct (weighted_slot _ _ _); simpl; naive_solver. }
    apply IH; [lia|done].
Qed.

Lemma weighted_slot_found l a r :
  (Z.of_nat (a + sum_of_weights l) < 2 ^ 63)%Z → a ≤ r < a + sum_of_weights l →
  ∃ i, weighted_slot (Z.of_nat r) (Z.of_nat a) l = Some i ∧ i < length l.
Proof.
  revert a. induction l as [|x l IH]; unfold sum_of_weights; simpl; intros a H Hr; [lia|].
  pose proof (weight_nonneg x). rewrite sint64_small by lia. case_decide as Hlt; [exists 0; split; [done|lia]|].
  destruct (IH (a + Z.to_nat (weight_of x))) as (i & Hi & Hl); unfold sum_of_weights; [lia|lia|].
  exists (S i). replace (Z.of_nat a + weight_of x)%Z with (Z.of_nat (a + Z.to_nat (weight_of x))) by lia.
  rewrite Hi. split; [done|lia].
Qed.

Lemma weight_random_pick c policy r :
  context_ok c → is_Some (ctx_Config c) → (Z.of_nat (sum_of_weights (ctx_HealthyEndpoints c)) < 2 ^ 63)%Z →
  r < sum_of_weights (ctx_HealthyEndpoints c) →
  fst <$> pickEndpoint InitMap (Some (WeightRandom (λ _, Z.of_nat r))) c policy =
    Some (weighted_slot (Z.of_nat r) 0 (ctx_HealthyEndpoints c) ≫= λ i, ctx_HealthyEndpoints c !! i).
Proof.
  intros Hc Hcfg Hmax Hr. set (l := ctx_HealthyEndpoints c) in *.
  destruct (weighted_slot_found l 0 r) as (i & Hi & Hlt); [done|lia|]. change (Z.of_nat 0) with 0%Z in Hi.
  destruct (lookup_lt_is_Some_2 l i Hlt) as [e He].
  rewrite (pick_choice InitMap (WeightRandom (λ _, Z.of_nat r)) c policy (WeightRandom_HandlerWithSnapshot (λ _, Z.of_nat r)) i e (cells_of c)); [rewrite Hi; simpl; by rewrite He|done|done|done|done|].
  change (shown _ c) with c. unfold WeightRandom_HandlerWithSnapshot. fold l. destruct l as [|x l'] eqn:El; [done|].
  rewrite <- El in *. rewrite totalWeight_sum by done. rewrite decide_False by lia. by rewrite Hi.
Qed.

(** When the weights do not all vanish and their sum fits an [int], an
    endpoint is picked for exactly as many of the equally likely random numbers
    as it weighs. *)
Theorem weight_random_proportional c policy e :
  context_ok c → is_Some (ctx_Config c) → e ∈ ctx_HealthyEndpoints c →
  (Z.of_nat (sum_of_weights (ctx_HealthyEndpoints c)) < 2 ^ 63)%Z →
  length (filter (λ r, fst <$> pickEndpoint InitMap (Some (WeightRandom (λ _, Z.of_nat r))) c policy = Some (Some e))
            (seq 0 (sum_of_weights (ctx_HealthyEndpoints c)))) = Z.to_nat (weight_of e).
Proof.
  intros Hc Hcfg [i Hi]%list_elem_of_lookup_1 Hmax. set (l := ctx_HealthyEndpoints c) in *.
  rewrite <- (weighted_slot_count l 0 i e) by done. f_equal. apply list_filter_ext_elem.
  intros r Hr%elem_of_seq. rewrite weight_random_pick by (done || (fold l; lia)). fold l. change (Z.of_nat 0) with 0%Z. split.
  - intros [= H]. destruct (weighted_slot _ _ l) as [j|] eqn:Ej; [|done]. simpl in H. f_equal.
    destruct Hc as ([Hnd _] & _). apply (NoDup_lookup (map EID l) j i (EID e) Hnd);
      change (map EID l) with (EID <$> l); rewrite list_lookup_fmap; [by rewrite H|by rewrite Hi].
  - intros ->. simpl. by rewrite Hi.
Qed.

End weights.

(** ** Witnesses *)

Module lb_sample.

Definition weighted (id host weight : string) : Endpoint :=
  mkEndpoint id "" (sample.address host 80) {[ "weight" := weight ]} false None.

Definition members : list Endpoint := [weighted "a" "10.0.0.1" "3"; weighted "b" "10.0.0.2" "1"; weighted "c" "10.0.0.3" "x"].

Definition context : PickContext (list string) :=
  mkPickContext (Some sample.config) None None None members (Some 7%Z) (Some (find_id members)).

Lemma is_ok : context_ok context.
Proof.
  split; [split; apply (bool_decide_unpack _); vm_compute; exact I|].
  exists (find_id members). split; [reflexivity|]. intros id. reflexivity.
Qed.

(** A plugin that answers with an endpoint of its own making. *)
Definition plugin : LoadBalancer (list string) :=
  mkLoadBalancer (λ cfg _ _, Some (None, cfg)) (Some (λ c _, Some (Some (Foreign (weighted "b" "10.0.0.2" "")), cells_of c)))
    None "example.com/plugin".

End lb_sample.

Lemma pick_is_healthy_witness :
  ∃ e after, pickEndpoint sample.InitMap (Some lb_sample.plugin) lb_sample.context None = Some (Some e, after) ∧
    e ∈ lb_sample.members ∧ EID e = "b".
Proof.
  destruct (pickEndpoint sample.InitMap (Some lb_sample.plugin) lb_sample.context None) as [[[e|] after]|] eqn:E;
    [|vm_compute in E; discriminate|vm_compute in E; discriminate].
  exists e, after. split; [reflexivity|]. split; [|vm_compute in E; injection E as <- _; reflexivity].
  exact (proj1 (pick_is_healthy sample.InitMap lb_sample.plugin lb_sample.context None lb_sample.is_ok) e after E).
Defined.

Lemma round_robin_fair_witness :
  picks sample.InitMap RoundRobin 6 lb_sample.context None ≡ₚ mjoin (replicate 2 (Some <$> lb_sample.members)).
Proof.
  apply (round_robin_fair sample.InitMap 2 lb_sample.context None 7 lb_sample.is_ok).
  - eexists. reflexivity.
  - reflexivity.
  - vm_compute. reflexivity.
Defined.

Lemma weight_random_proportional_witness :
  length (filter (λ r, fst <$> pickEndpoint sample.InitMap (Some (WeightRandom (λ _, Z.of_nat r))) lb_sample.context None
                       = Some (Some (lb_sample.weighted "a" "10.0.0.1" "3"))) (seq 0 4)) = 3.
Proof.
  change 3 with (Z.to_nat (weight_of (lb_sample.weighted "a" "10.0.0.1" "3"))).
  apply (weight_random_proportional sample.InitMap lb_sample.context None).
  - exact lb_sample.is_ok.
  - eexists. reflexivity.
  - constructor.
  - vm_compute. reflexivity.
Defined.
