(* ===== verification/Maglev.v ===== *)
(** * Maglev hashing, [pkg/cluster/loadbalancer/maglev]

    The lookup table, its population and its updates.  The hash functions (SHA-3
    and BLAKE2b on hosts, xxHash on keys) are parameters.  Go leaves the order
    in which a map is iterated open: the order is an argument of every operation
    that iterates over the buckets.  [None] of an operation is a run-time panic. *)

From S2P Require Import Prelude GoStrings Sha256 Endpoint Snapshot LoadBalance.

(** ** Data *)

Record permutation : Type := mkPermutation {
  offset : Z;
  skip : Z;
  next : nat;
  index : nat;
  hit : nat;
}.

Record LookUpTable : Type := mkLookUpTable {
  slots : list string;
  permutations : list permutation;
  buckets : gmap nat string;
  endpointNum : nat;
  tsize : Z;
}.

(** The number of slots. *)
Definition nslots (t : LookUpTable) : nat := Z.to_nat (tsize t).

Definition defaultTableSize : list Z :=
  [307; 503; 1511; 2503; 5099; 7877; 10007; 14207; 20903; 40423; 88721; 123911; 164821; 199999; 218077;
   299777; 344941; 399989; 463031; 514399; 604613; 686669; 726337; 799789; 857011; 999983]%Z.

(** An iteration over a map: some order of its entries. *)
Definition iteration : Type := gmap nat string → list (nat * string).

Definition any_order (range : iteration) : Prop := ∀ m, range m ≡ₚ map_to_list m.

Section maglev.
Context (hash1 hash2 requestHash : string → Z).
Implicit Types (t : LookUpTable) (p : permutation) (ps : list permutation) (sl : list string) (range : iteration).

(** The position in 32-bit arithmetic. *)
Definition position p (j : nat) (size : Z) : nat :=
  Z.to_nat (wrap32 (offset p + wrap32 (wrap32 (Z.of_nat j) * skip p)) `mod` size).

(** [big.Int.ProbablyPrime] is exact below [2 ^ 64]. *)
Definition ProbablyPrime (n : Z) : bool := is_prime n.

(** [tableSize] is an [int]: a negative one is tested as the [uint64] it wraps to. *)
Definition NewLookUpTable (tableSize : Z) (hosts : list string) : option LookUpTable :=
  let expectN := (Z.of_nat (length hosts) * 100)%Z in
  let tableSize :=
    if decide (tableSize = 0)%Z
    then default 0%Z (first_such (λ size, bool_decide (expectN < size)%Z) defaultTableSize)
    else tableSize in
  if bool_decide (tableSize < expectN)%Z && negb (ProbablyPrime (wrap64 tableSize)) then None
  else Some (mkLookUpTable [] [] (map_seq 0 hosts) (length hosts) tableSize).

(** ** Population *)

Fixpoint free_from sl p (size : Z) (fuel start : nat) : nat :=
  match fuel with
  | O => start
  | S fuel =>
      if decide (sl !! position p start (wrap32 size) = Some "") then start
      else free_from sl p size fuel (S start)
  end.

(** What one turn of the inner loop works on. *)
Record filling : Type := mkFilling { f_slots : list string; full : nat; miss : nat }.

Definition fill_one t (st : filling) p : filling * permutation :=
  if decide (next p = nslots t) then (st, p)
  else
    let start := free_from (f_slots st) p (tsize t) (nslots t - next p) (next p) in
    if decide (start < nslots t) then
      (mkFilling (<[position p start (wrap32 (tsize t)) := default "" (buckets t !! index p)]> (f_slots st))
         (S (full st)) (miss st),
       mkPermutation (offset p) (skip p) start (index p) (S (hit p)))
    else
      (mkFilling (f_slots st) (full st) (S (miss st)), mkPermutation (offset p) (skip p) start (index p) (hit p)).

Fixpoint fill_round t (st : filling) ps : filling * list permutation :=
  match ps with
  | [] => (st, [])
  | p :: ps =>
      let '(st, p) := fill_one t st p in
      let '(st, ps) := fill_round t st ps in (st, p :: ps)
  end.

(** The outer loop; [None] is running out of fuel, which does not happen
    ([populate_total]). *)
Fixpoint fill_rounds t (fuel : nat) (st : filling) ps : option (filling * list permutation) :=
  if decide (miss st < endpointNum t ∧ full st < nslots t) then
    match fuel with
    | O => None
    | S fuel => let '(st, ps) := fill_round t st ps in fill_rounds t fuel st ps
    end
  else Some (st, ps).

(** The permutation with the fewest hits, the first one among equals. *)
Definition least_hit ps : option permutation :=
  foldl (λ least p, match least with
                    | None => Some p
                    | Some q => if decide (hit p < hit q) then Some p else Some q
                    end) None ps.

Definition fillMissingSlots t sl ps : option (list string) :=
  if decide ("" ∈ sl) then
    p ← least_hit ps; Some ((λ s, if decide (s = "") then default "" (buckets t !! index p) else s) <$> sl)
  else Some sl.

Definition set_filled t sl ps : LookUpTable := mkLookUpTable sl ps (buckets t) (endpointNum t) (tsize t).

Definition populate t : option LookUpTable :=
  if decide (tsize t < 0)%Z then None else
  '(st, ps) ← fill_rounds t (nslots t + endpointNum t) (mkFilling (replicate (nslots t) "") 0 0) (permutations t);
  if decide (full st ≠ nslots t ∧ 0 < miss st) then
    sl ← fillMissingSlots t (f_slots st) ps; Some (set_filled t sl ps)
  else Some (set_filled t (f_slots st) ps).

(** [None] is the division by zero. *)
Definition generatePerm t (bucket : string) (i : nat) : option permutation :=
  let m := wrap32 (tsize t) in
  if decide (m = 0 ∨ m = 1)%Z then None
  else Some (mkPermutation (hash1 bucket `mod` m) (hash2 bucket `mod` (m - 1) + 1) 0 i 0).

Fixpoint generate_all t (entries : list (nat * string)) : option (list permutation) :=
  match entries with
  | [] => Some []
  | (i, b) :: entries => p ← generatePerm t b i; ps ← generate_all t entries; Some (p :: ps)
  end.

Definition set_permutations t ps : LookUpTable := mkLookUpTable (slots t) ps (buckets t) (endpointNum t) (tsize t).

Definition generatePerms range t : option LookUpTable :=
  ps ← generate_all t (range (buckets t)); Some (set_permutations t ps).

Definition Populate range t : option LookUpTable := generatePerms range t ≫= populate.

(** ** Lookups *)

Inductive table_error : Type := ErrNoSlot | ErrNoHost.

Definition Table_GetHash t (key : Z) : result table_error string :=
  if decide (slots t = []) then Err ErrNoSlot
  else if decide (tsize t = 0%Z ∨ endpointNum t = 0) then Err ErrNoHost
  else Ok (default "" (slots t !! Z.to_nat (key `mod` wrap32 (tsize t)))).

Definition Table_Get t (key : string) : result table_error string := Table_GetHash t (requestHash key).

(** ** Updates *)

Definition resetPerms ps : list permutation := (λ p, mkPermutation (offset p) (skip p) 0 (index p) 0) <$> ps.

Definition removePerm ps (dst : nat) : list permutation :=
  match list_find (λ p, index p = dst) ps with
  | Some (i, _) => delete i ps
  | None => ps
  end.

Definition Add range t (host : string) : option LookUpTable :=
  if decide (host ∈ snd <$> range (buckets t)) then Some t
  else
    let dst := S (foldl (λ dst '(i, _), dst `max` i) 0 (range (buckets t))) in
    let t := mkLookUpTable (slots t) (resetPerms (permutations t)) (<[dst := host]> (buckets t)) (S (endpointNum t)) (tsize t) in
    p ← generatePerm t host dst;
    populate (set_permutations t (permutations t ++ [p])).

Definition Remove range t (host : string) : option (LookUpTable * bool) :=
  if decide (endpointNum t = 0) then Some (t, false)
  else
    match list_find (λ e, e.2 = host) (range (buckets t)) with
    | Some (_, (i, _)) =>
        t ← populate (mkLookUpTable (slots t) (resetPerms (removePerm (permutations t) i))
              (delete i (buckets t)) (endpointNum t - 1) (tsize t));
        Some (t, true)
    | None => Some (t, false)
    end.

End maglev.

(** ** The table is full *)

Definition host_of (t : LookUpTable) (p : permutation) : string := default "" (buckets t !! index p).

Definition occupied (sl : list string) : nat := length (filter (λ s, s ≠ "") sl).

Lemma occupied_insert sl i h : sl !! i = Some "" → h ≠ "" → occupied (<[i := h]> sl) = S (occupied sl).
Proof.
  intros Hi Hh. unfold occupied. rewrite <- (take_drop_middle sl i "" Hi) at 2.
  rewrite insert_take_drop by (by eapply lookup_lt_Some). rewrite !filter_app, !length_app, !filter_cons.
  rewrite decide_True, decide_False by (done || naive_solver). simpl. lia.
Qed.

Lemma occupied_le sl : occupied sl ≤ length sl.
Proof. unfold occupied. apply length_filter. Qed.

Lemma occupied_all sl : occupied sl = length sl → "" ∉ sl.
Proof.
  unfold occupied. intros Hl Hin. apply list_elem_of_split in Hin as (l1 & l2 & ->).
  rewrite filter_app, filter_cons, decide_False, !length_app in Hl by naive_solver. simpl in Hl.
  pose proof (length_filter (λ s, s ≠ "") l1). pose proof (length_filter (λ s, s ≠ "") l2). lia.
Qed.

(** The number of slots of a host. *)
Definition count (h : string) (sl : list string) : nat := length (filter (λ s, s = h) sl).

Lemma count_insert h h' sl i :
  sl !! i = Some "" → h ≠ "" → count h (<[i := h']> sl) = (if decide (h' = h) then 1 else 0) + count h sl.
Proof.
  intros Hi Hh. unfold count. rewrite <- (take_drop_middle sl i "" Hi) at 2.
  rewrite insert_take_drop by (by eapply lookup_lt_Some). rewrite !filter_app, !length_app, !filter_cons.
  rewrite (decide_False (P := "" = h)) by congruence. destruct (decide (h' = h)); simpl; lia.
Qed.

Lemma empty_slot sl : occupied sl < length sl → "" ∈ sl.
Proof.
  intros Hl. destruct (decide ("" ∈ sl)) as [|Hno]; [done|]. unfold occupied in Hl. rewrite list_filter_all in Hl; [lia|].
  intros x Hx ->. done.
Qed.

(** What a turn of the loops does not change about a permutation. *)
Definition same_perm (p q : permutation) : Prop := offset p = offset q ∧ skip p = skip q ∧ index p = index q.

#[local] Instance same_perm_equivalence : Equivalence same_perm.
Proof. split; unfold same_perm; [intros p|intros p q|intros p q r]; intuition congruence. Qed.

Section filling.
Context (t : LookUpTable) (Hsize : (2 ≤ tsize t < 2 ^ 32)%Z).
Implicit Types (p : permutation) (ps : list permutation) (sl : list string) (st : filling).
#[local] Abbreviation N := (nslots t).
#[local] Abbreviation pos p j := (position p j (wrap32 (tsize t))).

Lemma pos_lt p j : pos p j < N.
Proof.
  unfold position, nslots. rewrite (wrap32_small (tsize t)) by lia.
  pose proof (Z.mod_pos_bound (wrap32 (offset p + wrap32 (wrap32 (Z.of_nat j) * skip p))) (tsize t)). lia.
Qed.

Lemma pos_same p q j : same_perm p q → pos p j = pos q j.
Proof. intros (H1 & H2 & _). unfold position. by rewrite H1, H2. Qed.

Definition perm_ok sl p : Prop :=
  next p ≤ N ∧ host_of t p ≠ "" ∧ ∀ j, j < next p → sl !! pos p j ≠ Some "".

Record fill_inv st ps : Prop := {
  fi_length : length (f_slots st) = N;
  fi_full : full st = occupied (f_slots st);
  fi_miss : miss st = length (filter (λ p, next p = N) ps);
  fi_perms : Forall (perm_ok (f_slots st)) ps;
  fi_hosts s : s ∈ f_slots st → s = "" ∨ s ∈ host_of t <$> ps;
}.

Lemma free_from_spec sl p fuel start :
  start + fuel = N →
  let r := free_from sl p (tsize t) fuel start in
  start ≤ r ≤ N ∧ (r < N → sl !! pos p r = Some "") ∧ ∀ j, start ≤ j < r → sl !! pos p j ≠ Some "".
Proof.
  revert start. induction fuel as [|fuel IH]; intros start Hs; cbn [free_from].
  - split_and!; [lia|lia|lia|]. intros j Hj. lia.
  - case_decide as E; [split_and!; [lia|lia|done|intros j Hj; lia]|].
    destruct (IH (S start)) as (H1 & H2 & H3); [lia|]. cbv zeta in *. split_and!; [lia|lia|done|].
    intros j Hj. destruct (decide (j = start)) as [->|]; [done|]. apply H3. lia.
Qed.

Lemma perm_ok_insert sl i h p : perm_ok sl p → h ≠ "" → perm_ok (<[i := h]> sl) p.
Proof.
  intros (H1 & H2 & H3) Hh. split_and!; [done|done|]. intros j Hj. destruct (decide (pos p j = i)) as [->|Hne].
  - destruct (decide (i < length sl)); [rewrite list_lookup_insert_eq by done; congruence|].
    rewrite list_insert_ge by lia. intros Hx%lookup_lt_Some. lia.
  - rewrite list_lookup_insert_ne by done. by apply H3.
Qed.

Lemma perm_ok_same sl p q : same_perm p q → next q ≤ N → perm_ok sl p →
  (∀ j, j < next q → sl !! pos q j ≠ Some "") → perm_ok sl q.
Proof. intros (_ & _ & Hi) Hn (_ & Hh & _) Hj. split_and!; [done|unfold host_of in *; by rewrite <- Hi|done]. Qed.

(** One turn of the inner loop. *)
Lemma fill_one_inv st d p q :
  fill_inv st (d ++ p :: q) →
  let '(st', p') := fill_one t st p in
  fill_inv st' (d ++ p' :: q) ∧ same_perm p p' ∧
  (if decide (next p = N) then st' = st else full st' + miss st' = S (full st + miss st)).
Proof.
  intros [H1 H2 H3 H4 H5]. unfold fill_one. destruct (decide (next p = N)) as [E|E]; [by split_and!|].
  apply Forall_app in H4 as [Hd Hpq]. apply Forall_cons in Hpq as [Hp Hq]. pose proof Hp as (Hp1 & Hp2 & Hp3).
  pose proof (free_from_spec (f_slots st) p (N - next p) (next p) ltac:(lia)) as Hfree. cbv zeta in Hfree.
  set (start := free_from _ _ _ _ _) in *. destruct Hfree as (Hf1 & Hf2 & Hf3).
  assert (∀ j, j < start → f_slots st !! pos p j ≠ Some "") as Hbefore.
  { intros j Hj. destruct (decide (j < next p)); [by apply Hp3|apply Hf3; lia]. }
  rewrite filter_app, filter_cons, decide_False, length_app in H3 by done. case_decide as Hs.
  - specialize (Hf2 Hs). fold (host_of t p). split_and!; simpl; [split; simpl|done|lia].
    + by rewrite length_insert.
    + by rewrite occupied_insert, H2.
    + rewrite filter_app, filter_cons, decide_False, length_app by (simpl; lia). lia.
    + apply Forall_app. split; [eapply Forall_impl; [done|]; intros x Hx; by apply perm_ok_insert|].
      apply Forall_cons. split; [|eapply Forall_impl; [done|]; intros x Hx; by apply perm_ok_insert].
      apply (perm_ok_same _ p); [done|simpl; lia|by apply perm_ok_insert|]. simpl. intros j Hj.
      change (pos _ j) with (pos p j). destruct (decide (pos p j = pos p start)) as [->|Hne].
      * rewrite list_lookup_insert_eq by (rewrite H1; apply pos_lt). congruence.
      * rewrite list_lookup_insert_ne by done. by apply Hbefore.
    + intros s [i Hi]%list_elem_of_lookup_1. rewrite fmap_app, fmap_cons in *. destruct (decide (i = pos p start)) as [->|Hne].
      * rewrite list_lookup_insert_eq in Hi by (rewrite H1; apply pos_lt). injection Hi as <-. right.
        apply elem_of_app. right. constructor.
      * rewrite list_lookup_insert_ne in Hi by done. apply H5. by eapply list_elem_of_lookup_2.
  - split_and!; simpl; [split; simpl|done|lia].
    + done.
    + done.
    + rewrite filter_app, filter_cons, decide_True, length_app by (simpl; lia). simpl. lia.
    + apply Forall_app. split; [done|]. apply Forall_cons. split; [|done].
      apply (perm_ok_same _ p); [done|simpl; lia|done|exact Hbefore].
    + intros s Hin. rewrite fmap_app, fmap_cons in *. by apply H5.
Qed.

Lemma fill_round_inv st d ps :
  fill_inv st (d ++ ps) →
  let '(st', ps') := fill_round t st ps in
  fill_inv st' (d ++ ps') ∧ Forall2 same_perm ps ps' ∧ full st + miss st ≤ full st' + miss st' ∧
  (length (filter (λ p, next p = N) ps) < length ps → full st + miss st < full st' + miss st').
Proof.
  revert st d. induction ps as [|p ps IH]; intros st d Hinv; cbn [fill_round]; [split_and!; [done|done|done|simpl; lia]|].
  pose proof (fill_one_inv st d p ps Hinv) as H1. destruct (fill_one t st p) as [st1 p1]. destruct H1 as (Hinv1 & Hsame & Hprog).
  replace (d ++ p1 :: ps) with ((d ++ [p1]) ++ ps) in Hinv1 by (by rewrite <- app_assoc).
  specialize (IH st1 (d ++ [p1]) Hinv1). destruct (fill_round t st1 ps) as [st2 ps2].
  destruct IH as (Hinv2 & Hsame2 & Hle & Hlt). rewrite <- app_assoc in Hinv2. simpl in Hinv2.
  split_and!; [done|by constructor| |].
  - case_decide; [subst st1; lia|lia].
  - rewrite filter_cons. destruct (decide (next p = N)) as [E|E]; simpl; [subst st1|]; intros Hl; [apply Hlt; lia|lia].
Qed.

Lemma fill_rounds_inv fuel st ps :
  fill_inv st ps → length ps = endpointNum t → (N - full st) + (endpointNum t - miss st) ≤ fuel →
  ∃ st' ps', fill_rounds t fuel st ps = Some (st', ps') ∧ fill_inv st' ps' ∧ Forall2 same_perm ps ps' ∧
    (endpointNum t ≤ miss st' ∨ full st' = N).
Proof.
  revert st ps. induction fuel as [|fuel IH]; intros st ps Hinv Hn Hfuel; cbn [fill_rounds];
    pose proof (occupied_le (f_slots st)) as Hle; rewrite <- (fi_full st ps Hinv), (fi_length st ps Hinv) in Hle.
  - rewrite decide_False by lia. exists st, ps. split_and!; [done|done|reflexivity|lia].
  - case_decide as Hc; [|exists st, ps; split_and!; [done|done|reflexivity|lia]].
    pose proof (fill_round_inv st [] ps Hinv) as Hr. simpl in Hr. destruct (fill_round t st ps) as [st1 ps1].
    destruct Hr as (Hinv1 & Hsame & _ & Hlt). rewrite <- (fi_miss st ps Hinv) in Hlt.
    assert (full st + miss st < full st1 + miss st1) as Hprog by (apply Hlt; lia).
    pose proof (occupied_le (f_slots st1)) as Hle1. rewrite <- (fi_full st1 ps1 Hinv1), (fi_length st1 ps1 Hinv1) in Hle1.
    pose proof (length_filter (λ p, next p = N) ps1) as Hm1. rewrite <- (fi_miss st1 ps1 Hinv1) in Hm1.
    pose proof (Forall2_length _ _ _ Hsame) as Hl1.
    destruct (IH st1 ps1 Hinv1) as (st' & ps' & H1 & H2 & H3 & H4); [lia|lia|].
    exists st', ps'. split_and!; [done|done|by etransitivity|done].
Qed.

(** *** Balance *)

(** A permutation that visits every slot. *)
Definition covers p : Prop := ∀ i, i < N → ∃ j, j < N ∧ pos p j = i.

(** While a slot is free, every permutation finds one. *)
Lemma fill_one_places st d p q :
  fill_inv st (d ++ p :: q) → covers p → full st < N →
  ∃ i, f_slots st !! i = Some "" ∧
    (fill_one t st p).1 = mkFilling (<[i := host_of t p]> (f_slots st)) (S (full st)) (miss st).
Proof.
  intros [H1 H2 H3 H4 H5] Hcov Hfull. apply Forall_app in H4 as [_ H4]. apply Forall_cons in H4 as [(Hp1 & Hp2 & Hp3) _].
  rewrite H2, <- H1 in Hfull. apply empty_slot, list_elem_of_lookup_1 in Hfull as [i Hi].
  assert (i < N) as Hlt by (rewrite <- H1; by eapply lookup_lt_Some). destruct (Hcov i Hlt) as (j & Hj & <-).
  assert (next p ≤ j) as Hnext by (destruct (decide (j < next p)); [by destruct (Hp3 j)|lia]).
  unfold fill_one. rewrite decide_False by lia.
  pose proof (free_from_spec (f_slots st) p (N - next p) (next p) ltac:(lia)) as Hfree. cbv zeta in Hfree.
  set (start := free_from _ _ _ _ _) in *. destruct Hfree as (Hf1 & Hf2 & Hf3).
  assert (start < N) as Hs by (destruct (decide (start < N)); [done|]; destruct (Hf3 j); [lia|done]).
  rewrite decide_True by done. exists (pos p start). split; [by apply Hf2|done].
Qed.

Lemma fill_one_full st d p q :
  fill_inv st (d ++ p :: q) → full st = N →
  f_slots (fill_one t st p).1 = f_slots st ∧ full (fill_one t st p).1 = N.
Proof.
  intros Hinv Hfull. pose proof Hinv as [H1 H2 H3 H4 H5]. apply Forall_app in H4 as [_ H4].
  apply Forall_cons in H4 as [(Hp1 & Hp2 & Hp3) _]. unfold fill_one. case_decide; [done|].
  pose proof (free_from_spec (f_slots st) p (N - next p) (next p) ltac:(lia)) as Hfree. cbv zeta in Hfree.
  set (start := free_from _ _ _ _ _) in *. destruct Hfree as (Hf1 & Hf2 & _). case_decide as Hs; [|done].
  specialize (Hf2 Hs). apply list_elem_of_lookup_2 in Hf2. exfalso. apply (occupied_all (f_slots st)); [lia|done].
Qed.

(** In the middle of round [k]: the hosts in [d] have had their turn, those in
    [q] have not. *)
Definition level (k : nat) st (d q : list string) : Prop :=
  (full st < N ∧ miss st = 0 ∧ (∀ h, h ∈ d → count h (f_slots st) = S k) ∧ (∀ h, h ∈ q → count h (f_slots st) = k)) ∨
  (full st = N ∧ ∀ h, h ∈ d ++ q → k ≤ count h (f_slots st) ≤ S k).

Lemma level_step k st d p q (hd hq : list string) :
  fill_inv st (d ++ p :: q) → covers p → NoDup (hd ++ host_of t p :: hq) → "" ∉ hd ++ hq →
  level k st hd (host_of t p :: hq) → level k (fill_one t st p).1 (hd ++ [host_of t p]) hq.
Proof.
  intros Hinv Hcov Hnd Hne [(Hfull & Hmiss & Hd & Hq)|[Hfull Hall]].
  - destruct (fill_one_places st d p q Hinv Hcov Hfull) as (i & Hi & Hst).
    pose proof (fill_one_inv st d p q Hinv) as Hinv'. rewrite Hst. destruct (fill_one t st p) as [st' p']. simpl in Hst. subst st'.
    destruct Hinv' as ([HL HF _ _ _] & _). simpl in HL, HF. pose proof (occupied_le (<[i:=host_of t p]> (f_slots st))) as Hle.
    assert (host_of t p ≠ "") as Hp.
    { pose proof (fi_perms st _ Hinv) as Hps. by apply Forall_app in Hps as [_ [(_ & Hp & _) _]%Forall_cons]. }
    apply NoDup_app in Hnd as (_ & Hdis & [Hpq _]%NoDup_cons).
    assert (∀ h, h ∈ hd ++ [host_of t p] → count h (<[i:=host_of t p]> (f_slots st)) = S k) as Hd'.
    { intros h [Hh| ->%list_elem_of_singleton]%elem_of_app.
      - rewrite count_insert by (done || set_solver). rewrite decide_False; [by apply Hd|]. intros <-. apply (Hdis _ Hh). constructor.
      - rewrite count_insert, decide_True by done. rewrite Hq by constructor. done. }
    assert (∀ h, h ∈ hq → count h (<[i:=host_of t p]> (f_slots st)) = k) as Hq'.
    { intros h Hh. rewrite count_insert by (done || set_solver). rewrite decide_False by (intros <-; done). apply Hq. by constructor. }
    destruct (decide (S (full st) < N)); [by left|right]. simpl. split; [lia|].
    intros h [Hh|Hh]%elem_of_app; [rewrite Hd' by done|rewrite Hq' by done]; lia.
  - destruct (fill_one_full st d p q Hinv Hfull) as [Hsl Hf]. right. split; [done|]. rewrite Hsl. intros h Hh. apply Hall.
    by rewrite <- app_assoc in Hh.
Qed.

Lemma fill_round_level k st d ps :
  fill_inv st (d ++ ps) → Forall covers ps → NoDup (host_of t <$> d ++ ps) →
  level k st (host_of t <$> d) (host_of t <$> ps) →
  level k (fill_round t st ps).1 (host_of t <$> d ++ ps) [].
Proof.
  revert st d. induction ps as [|p ps IH]; intros st d Hinv Hcov Hnd Hlev; [by rewrite app_nil_r|].
  apply Forall_cons in Hcov as [Hp Hcov]. pose proof (fill_one_inv st d p ps Hinv) as Hone.
  assert ("" ∉ (host_of t <$> d) ++ (host_of t <$> ps)) as Hne.
  { rewrite <- fmap_app. intros (x & Hx & Hin)%list_elem_of_fmap. pose proof (fi_perms st _ Hinv) as Hps.
    rewrite Forall_forall in Hps. destruct (Hps x) as (_ & Hh & _); [|done]. apply elem_of_app in Hin as [Hin|Hin];
    apply elem_of_app; [by left|right; by constructor]. }
  rewrite fmap_app, fmap_cons in Hnd.
  pose proof (level_step k st d p ps (host_of t <$> d) (host_of t <$> ps) Hinv Hp Hnd Hne Hlev) as Hlev1.
  cbn [fill_round]. destruct (fill_one t st p) as [st1 p1]. destruct Hone as (Hinv1 & (_ & _ & Hidx) & _). simpl in Hlev1.
  assert (host_of t p1 = host_of t p) as Hh by (unfold host_of; by rewrite Hidx).
  replace (d ++ p1 :: ps) with ((d ++ [p1]) ++ ps) in Hinv1 by (by rewrite <- app_assoc).
  specialize (IH st1 (d ++ [p1]) Hinv1 Hcov). rewrite !fmap_app in IH. simpl in IH. rewrite Hh, <- app_assoc in IH.
  specialize (IH Hnd Hlev1). destruct (fill_round t st1 ps) as [st2 ps2]. by rewrite fmap_app, fmap_cons.
Qed.

Lemma hosts_same ps ps' : Forall2 same_perm ps ps' → host_of t <$> ps' = host_of t <$> ps.
Proof. induction 1 as [|p q ps ps' (_ & _ & Hi) _ IH]; [done|]. rewrite !fmap_cons, IH. f_equal. unfold host_of. by rewrite Hi. Qed.

Lemma covers_same ps ps' : Forall2 same_perm ps ps' → Forall covers ps → Forall covers ps'.
Proof.
  induction 1 as [|p q ps ps' Hpq _ IH]; [done|]. intros [Hp Hps]%Forall_cons. constructor; [|by apply IH].
  intros i Hi. destruct (Hp i Hi) as (j & Hj & <-). exists j. split; [done|]. symmetry. by apply pos_same.
Qed.

Lemma fill_rounds_balanced fuel k st ps st' ps' :
  fill_inv st ps → Forall covers ps → NoDup (host_of t <$> ps) → length ps = endpointNum t → 0 < endpointNum t →
  level k st [] (host_of t <$> ps) → fill_rounds t fuel st ps = Some (st', ps') →
  full st' = N ∧ ∃ m, ∀ h, h ∈ host_of t <$> ps → m ≤ count h (f_slots st') ≤ S m.
Proof.
  revert k st ps. induction fuel as [|fuel IH]; intros k st ps Hinv Hcov Hnd Hn Hpos Hlev; cbn [fill_rounds];
    (case_decide as Hc; [|intros [= <- <-]; destruct Hlev as [(H1 & H2 & _)|[H1 H2]]; [lia|by eauto]]); [done|].
  pose proof (fill_round_inv st [] ps Hinv) as Hr. pose proof (fill_round_level k st [] ps Hinv Hcov Hnd Hlev) as Hlev1.
  destruct (fill_round t st ps) as [st1 ps1]. simpl in Hlev1. destruct Hr as (Hinv1 & Hsame & _). simpl in Hinv1.
  rewrite <- (hosts_same ps ps1 Hsame) in *. pose proof (Forall2_length _ _ _ Hsame) as Hl1.
  apply (covers_same ps ps1 Hsame) in Hcov. intros Hrun.
  destruct Hlev1 as [(H1 & H2 & H3 & _)|[H1 H2]].
  - apply (IH (S k) st1 ps1); try done; [lia|]. left. split_and!; [done|done| |done]. intros h Hh. by apply not_elem_of_nil in Hh.
  - rewrite app_nil_r in H2. apply (IH k st1 ps1); try done; [lia|]. right. by split.
Qed.

End filling.

(** ** Building a table *)

Section building.
Context (hash1 hash2 requestHash : string → Z).
Implicit Types (t : LookUpTable) (p : permutation) (ps : list permutation) (range : iteration) (hosts : list string).

Definition fresh_perm t p : Prop := next p = 0 ∧ host_of t p ≠ "".

Definition size_ok t : Prop := (2 ≤ tsize t < 2 ^ 32)%Z.

Lemma fill_start t ps :
  size_ok t → Forall (fresh_perm t) ps → fill_inv t (mkFilling (replicate (nslots t) "") 0 0) ps.
Proof.
  intros Hs Hps. split; simpl.
  - apply length_replicate.
  - unfold occupied. rewrite list_filter_none; [done|]. intros x [-> _]%elem_of_replicate. naive_solver.
  - rewrite list_filter_none; [done|]. intros p Hp. rewrite Forall_forall in Hps. destruct (Hps p Hp) as [-> _].
    unfold nslots, size_ok in *. lia.
  - eapply Forall_impl; [done|]. intros p [Hn Hh]. split_and!; [lia|done|]. intros j. lia.
  - intros s [-> _]%elem_of_replicate. by left.
Qed.

Lemma least_hit_elem ps : ps ≠ [] → ∃ p, least_hit ps = Some p ∧ p ∈ ps.
Proof.
  unfold least_hit. destruct ps as [|p ps]; [done|]. intros _. simpl.
  assert (∀ q l, ∃ r, foldl (λ least p, match least with None => Some p
    | Some q => if decide (hit p < hit q) then Some p else Some q end) (Some q) l = Some r ∧ (r = q ∨ r ∈ l)) as H.
  { intros q l. revert q. induction l as [|x l IH]; intros q; simpl; [by eauto|].
    case_decide; [destruct (IH x) as (r & Hr & Hin)|destruct (IH q) as (r & Hr & Hin)]; exists r;
      (split; [done|]); rewrite elem_of_cons; tauto. }
  destruct (H p ps) as (r & Hr & Hin). exists r. split; [done|]. rewrite elem_of_cons. naive_solver.
Qed.

Lemma populate_spec t :
  size_ok t → Forall (fresh_perm t) (permutations t) → length (permutations t) = endpointNum t → 0 < endpointNum t →
  ∃ sl ps, populate t = Some (set_filled t sl ps) ∧ Forall2 same_perm (permutations t) ps ∧ length sl = nslots t ∧
    (∀ s, s ∈ sl → s ≠ "" ∧ s ∈ host_of t <$> permutations t) ∧
    (Forall (covers t) (permutations t) → NoDup (host_of t <$> permutations t) →
       ∃ m, ∀ h, h ∈ host_of t <$> permutations t → m ≤ count h sl ≤ S m).
Proof.
  intros Hs Hps Hn Hpos. pose proof (fill_start t _ Hs Hps) as Hinv. unfold populate.
  rewrite decide_False by (unfold size_ok in Hs; lia).
  destruct (fill_rounds_inv t Hs (nslots t + endpointNum t) _ _ Hinv Hn) as (st & ps & Hrun & Hinv' & Hsame & Hend); [simpl; lia|].
  rewrite Hrun. simpl. pose proof (hosts_same t _ _ Hsame) as Hh.
  assert (∀ s, s ∈ f_slots st → s ≠ "" → s ∈ host_of t <$> permutations t) as Hin.
  { intros s Hs1 Hs2. destruct (fi_hosts t st ps Hinv' s Hs1) as [|H]; [done|]. by rewrite Hh in H. }
  assert (full st = nslots t → "" ∉ f_slots st) as Hfull.
  { intros Hf. apply occupied_all. by rewrite <- (fi_full t st ps Hinv'), (fi_length t st ps Hinv'). }
  assert (Forall (covers t) (permutations t) → NoDup (host_of t <$> permutations t) →
    full st = nslots t ∧ ∃ m, ∀ h, h ∈ host_of t <$> permutations t → m ≤ count h (f_slots st) ≤ S m) as Hbal.
  { intros Hcov Hnd. eapply (fill_rounds_balanced t Hs _ 0); try done. left. simpl. split_and!; [unfold nslots, size_ok in *; lia|done| |].
    - intros h Hx. by apply not_elem_of_nil in Hx.
    - intros h Hx. unfold count. rewrite list_filter_none; [done|]. intros x [-> _]%elem_of_replicate <-.
      apply list_elem_of_fmap in Hx as (p & Hp & Hx). rewrite Forall_forall in Hps. by destruct (Hps p Hx). }
  case_decide as Hm.
  - assert (ps ≠ []) as Hne. { intros ->. apply Forall2_length in Hsame. simpl in Hsame. lia. }
    destruct (least_hit_elem ps Hne) as (p & Hp & Hpin). unfold fillMissingSlots.
    assert (host_of t p ≠ "" ∧ host_of t p ∈ host_of t <$> permutations t) as [Hp1 Hp2].
    { split; [|rewrite <- Hh; by apply list_elem_of_fmap_2]. pose proof (fi_perms t st ps Hinv') as Hall.
      rewrite Forall_forall in Hall. by destruct (Hall p Hpin) as (_ & Hx & _). }
    rewrite decide_True.
    2:{ apply empty_slot. pose proof (occupied_le (f_slots st)). rewrite <- (fi_full t st ps Hinv'), (fi_length t st ps Hinv') in *. lia. }
    rewrite Hp. simpl. eexists _, ps. split_and!; [done|done|by rewrite length_fmap, (fi_length t st ps Hinv')| |].
    + intros s (x & -> & Hx)%list_elem_of_fmap. case_decide as Ex; [by fold (host_of t p)|]. split; [done|by apply Hin].
    + intros Hcov Hnd. destruct (Hbal Hcov Hnd). naive_solver.
  - eexists _, ps. split_and!; [done|done|by apply (fi_length t st ps Hinv')| |].
    + assert (full st = nslots t) as Hf by lia. intros s Hx. assert (s ≠ "") by (intros ->; by apply (Hfull Hf)). split; [done|by apply Hin].
    + intros Hcov Hnd. by destruct (Hbal Hcov Hnd).
Qed.

Definition perm_of t (e : nat * string) : permutation :=
  mkPermutation (hash1 e.2 `mod` tsize t) (hash2 e.2 `mod` (tsize t - 1) + 1) 0 e.1 0.

Lemma generatePerm_spec t b i : size_ok t → generatePerm hash1 hash2 t b i = Some (perm_of t (i, b)).
Proof. intros Hs. unfold generatePerm, perm_of. rewrite wrap32_small by (unfold size_ok in Hs; lia). by rewrite decide_False by (unfold size_ok in Hs; lia). Qed.

Lemma generate_all_spec t entries : size_ok t → generate_all hash1 hash2 t entries = Some (perm_of t <$> entries).
Proof.
  intros Hs. induction entries as [|[i b] entries IH]; [done|]. cbn [generate_all].
  rewrite generatePerm_spec by done. simpl. by rewrite IH.
Qed.

(** A table whose permutations belong to its buckets. *)
Record perms_match t : Prop := {
  pm_size : size_ok t;
  pm_num : endpointNum t = size (buckets t);
  pm_named i : buckets t !! i ≠ Some "";
  pm_perms : ∃ entries, entries ≡ₚ map_to_list (buckets t) ∧ permutations t = perm_of t <$> entries;
}.

Lemma perm_of_host t entries :
  entries ≡ₚ map_to_list (buckets t) → host_of t <$> (perm_of t <$> entries) = snd <$> entries.
Proof.
  intros He. rewrite <- list_fmap_compose. apply list_fmap_ext. intros k [i b] Hi. apply list_elem_of_lookup_2 in Hi.
  rewrite He, elem_of_map_to_list in Hi. unfold host_of; simpl. by rewrite Hi.
Qed.

Lemma perms_match_fresh t : perms_match t → Forall (fresh_perm t) (permutations t) ∧ length (permutations t) = endpointNum t.
Proof.
  intros [Hs Hn Hname (entries & He & ->)]. split.
  - apply Forall_fmap, Forall_forall. intros [i b] Hi. rewrite He, elem_of_map_to_list in Hi.
    split; [done|]. unfold host_of; simpl. rewrite Hi. simpl. intros ->. by apply (Hname i).
  - rewrite length_fmap, He. by rewrite length_map_to_list.
Qed.

(** With a prime size and no 32-bit overflow every permutation visits every
    slot. *)
Lemma perm_of_position t e j :
  size_ok t → (tsize t * tsize t ≤ 2 ^ 32)%Z → (Z.of_nat j < tsize t)%Z →
  Z.of_nat (position (perm_of t e) j (wrap32 (tsize t))) =
    ((offset (perm_of t e) + Z.of_nat j * skip (perm_of t e)) `mod` tsize t)%Z.
Proof.
  intros Hs Hsq Hj. unfold size_ok in Hs. unfold position. rewrite (wrap32_small (tsize t)) by lia.
  assert (0 ≤ offset (perm_of t e) < tsize t)%Z as Ho by (apply Z.mod_pos_bound; lia).
  assert (1 ≤ skip (perm_of t e) < tsize t)%Z as Hk.
  { simpl. pose proof (Z.mod_pos_bound (hash2 e.2) (tsize t - 1)). lia. }
  set (o := offset _) in *. set (k := skip _) in *.
  assert (0 ≤ Z.of_nat j * k ≤ (tsize t - 1) * (tsize t - 1))%Z by nia.
  rewrite (wrap32_small (Z.of_nat j)), (wrap32_small (Z.of_nat j * k)), wrap32_small by nia.
  rewrite Z2Nat.id by (apply Z.mod_pos_bound; lia). done.
Qed.

Lemma prime_covers t e : size_ok t → Z.prime (tsize t) → (tsize t * tsize t ≤ 2 ^ 32)%Z → covers t (perm_of t e).
Proof.
  intros Hs Hprime Hsq i Hi. set (p := perm_of t e). set (f := λ j, position p j (wrap32 (tsize t))).
  assert (f <$> seq 0 (nslots t) ≡ₚ seq 0 (nslots t)) as Hperm.
  { apply submseteq_length_Permutation; [|by rewrite length_fmap]. apply NoDup_submseteq.
    - apply NoDup_fmap_2_strong; [|apply NoDup_seq]. intros x y Hx%elem_of_seq Hy%elem_of_seq Hxy.
      unfold nslots in *. apply (f_equal Z.of_nat) in Hxy. unfold f, p in Hxy.
      rewrite !perm_of_position in Hxy by (done || lia). fold p in Hxy.
      assert (1 ≤ skip p < tsize t)%Z as Hk.
      { simpl. pose proof (Z.mod_pos_bound (hash2 e.2) (tsize t - 1)). unfold size_ok in Hs. lia. }
      assert ((tsize t | (Z.of_nat x - Z.of_nat y) * skip p))%Z as Hdiv.
      { apply Z.mod_divide; [unfold size_ok in Hs; lia|].
        replace ((Z.of_nat x - Z.of_nat y) * skip p)%Z
          with ((offset p + Z.of_nat x * skip p) - (offset p + Z.of_nat y * skip p))%Z by lia.
        rewrite Zminus_mod, Hxy, Z.sub_diag. apply Z.mod_0_l. unfold size_ok in Hs. lia. }
      apply Z.divide_prime_mul in Hdiv as [Hd|Hd]; [|by apply Z.divide_pos_le in Hd; lia|done].
      destruct (decide (x = y)) as [|Hne]; [done|]. exfalso.
      apply Z.absle_divide in Hd; lia.
    - intros x (j & -> & Hj)%list_elem_of_fmap. apply elem_of_seq. split; [lia|]. by apply pos_lt. }
  assert (i ∈ f <$> seq 0 (nslots t)) as (j & -> & Hj)%list_elem_of_fmap by (rewrite Hperm; apply elem_of_seq; lia).
  exists j. apply elem_of_seq in Hj. split; [lia|done].
Qed.

Lemma populate_match t :
  perms_match t → 0 < endpointNum t →
  ∃ sl ps, populate t = Some (set_filled t sl ps) ∧ Forall2 same_perm (permutations t) ps ∧ length sl = nslots t ∧
    (∀ s, s ∈ sl → ∃ i, buckets t !! i = Some s) ∧
    (Z.prime (tsize t) → (tsize t * tsize t ≤ 2 ^ 32)%Z → NoDup (map_to_list (buckets t)).*2 →
       ∃ m, ∀ i h, buckets t !! i = Some h → m ≤ count h sl ≤ S m).
Proof.
  intros Hm Hpos. destruct (perms_match_fresh t Hm) as [Hfr Hlen]. pose proof Hm as [Hs Hn Hname (entries & He & Hps)].
  destruct (populate_spec t Hs Hfr Hlen Hpos) as (sl & ps & H1 & H2 & H3 & H4 & H5). exists sl, ps.
  pose proof (perm_of_host t entries He) as Hh. rewrite <- Hps in Hh. split_and!; [done|done|done| |].
  - intros s [_ Hin]%H4. rewrite Hh in Hin. apply list_elem_of_fmap in Hin as ([i b] & -> & Hin).
    rewrite He, elem_of_map_to_list in Hin. eauto.
  - intros Hprime Hsq Hnd. destruct H5 as [m Hbal].
    + rewrite Hps. apply Forall_fmap, Forall_true. intros e. by apply prime_covers.
    + rewrite Hh. by rewrite He.
    + exists m. intros i h Hi. apply Hbal. rewrite Hh, He. apply list_elem_of_fmap. exists (i, h).
      by rewrite elem_of_map_to_list.
Qed.

Lemma generatePerms_match range t :
  any_order range → size_ok t → endpointNum t = size (buckets t) → (∀ i, buckets t !! i ≠ Some "") →
  ∃ ps, generatePerms hash1 hash2 range t = Some (set_permutations t ps) ∧ perms_match (set_permutations t ps).
Proof.
  intros Hr Hs Hn Hname. unfold generatePerms. rewrite generate_all_spec by done. simpl. eexists. split; [done|].
  split; [done|done|done|]. simpl. exists (range (buckets t)). split; [apply Hr|done].
Qed.

Lemma buckets_of_hosts hosts : (map_to_list (map_seq (M := gmap nat string) 0 hosts)).*2 ≡ₚ hosts.
Proof.
  induction hosts as [|h hosts IH] using rev_ind; [done|]. rewrite map_seq_snoc, map_to_list_insert.
  - simpl. rewrite IH. by rewrite Permutation_app_comm.
  - apply lookup_map_seq_None. right. simpl. lia.
Qed.

Lemma NewLookUpTable_spec tableSize hosts t :
  NewLookUpTable tableSize hosts = Some t →
  buckets t = map_seq 0 hosts ∧ endpointNum t = length hosts ∧ slots t = [] ∧
  (tableSize ≠ 0%Z → tsize t = tableSize).
Proof.
  unfold NewLookUpTable. intros H. destruct (_ && _); [done|]. injection H as <-. simpl. split_and!; try done.
  intros Hne. by rewrite decide_False.
Qed.

Lemma new_table range tableSize hosts t :
  any_order range → NewLookUpTable tableSize hosts = Some t → size_ok t → "" ∉ hosts →
  ∃ ps, Populate hash1 hash2 range t = populate (set_permutations t ps) ∧ perms_match (set_permutations t ps) ∧
    (∀ h, (∃ i, buckets t !! i = Some h) ↔ h ∈ hosts).
Proof.
  intros Hr (Hb & Hn & _)%NewLookUpTable_spec Hs Hne.
  assert (∀ h, (∃ i, buckets t !! i = Some h) ↔ h ∈ hosts) as Hin.
  { intros h. rewrite Hb, <- (buckets_of_hosts hosts), list_elem_of_fmap. split.
    - intros [i Hi]. exists (i, h). by rewrite elem_of_map_to_list.
    - intros ([i x] & -> & Hi). exists i. by rewrite <- elem_of_map_to_list. }
  destruct (generatePerms_match range t Hr Hs) as (ps & Hps & Hm).
  - rewrite Hn, Hb, <- length_map_to_list, <- (length_fmap snd). by rewrite buckets_of_hosts.
  - intros i Hi. apply Hne, Hin. eauto.
  - exists ps. unfold Populate. rewrite Hps. done.
Qed.

Lemma Table_Get_ok t key (P : string → Prop) :
  size_ok t → length (slots t) = nslots t → 0 < endpointNum t → (∀ s, s ∈ slots t → P s) →
  ∃ h, P h ∧ Table_Get requestHash t key = Ok h.
Proof.
  intros Hs Hl Hn HP. unfold size_ok, nslots in *. unfold Table_Get, Table_GetHash.
  rewrite decide_False by (intros Hx; rewrite Hx in Hl; simpl in Hl; lia). rewrite decide_False by lia.
  rewrite wrap32_small by lia. pose proof (Z.mod_pos_bound (requestHash key) (tsize t)).
  destruct (lookup_lt_is_Some_2 (slots t) (Z.to_nat (requestHash key `mod` tsize t))) as [h Hh]; [lia|].
  exists h. rewrite Hh. split; [|done]. apply HP. by eapply list_elem_of_lookup_2.
Qed.

(** Populating a table terminates and fills every slot with one of the
    hosts, whatever the hash functions and the order of the map are: every key
    finds a host. *)
Theorem maglev_table_full range tableSize hosts t :
  any_order range → NewLookUpTable tableSize hosts = Some t → size_ok t → hosts ≠ [] → "" ∉ hosts →
  ∃ t', Populate hash1 hash2 range t = Some t' ∧ Z.of_nat (length (slots t')) = tsize t ∧
    (∀ s, s ∈ slots t' → s ∈ hosts) ∧ ∀ key, ∃ h, h ∈ hosts ∧ Table_Get requestHash t' key = Ok h.
Proof.
  intros Hr Hnew Hs Hne Hempty. destruct (new_table range tableSize hosts t Hr Hnew Hs Hempty) as (ps & Hpop & Hm & Hin).
  apply NewLookUpTable_spec in Hnew as (_ & Hn & _).
  assert (0 < endpointNum t) as Hpos by (rewrite Hn; destruct hosts; [done|simpl; lia]).
  destruct (populate_match _ Hm Hpos) as (sl & ps' & Hres & _ & Hlen & Hhosts & _). rewrite Hpop, Hres. simpl in Hhosts.
  eexists. split_and!; [done|simpl|simpl|].
  - rewrite Hlen. unfold nslots, size_ok in *. simpl. lia.
  - intros s Hx%Hhosts. by apply Hin.
  - intros key. apply Table_Get_ok; [done|done|done|]. simpl. intros s Hx%Hhosts. by apply Hin.
Qed.

(** C34: with a prime size below [2 ^ 16] the table is balanced: the numbers of
    slots of two hosts differ by one at most. *)
Theorem maglev_balanced range tableSize hosts t t' h1 h2 :
  any_order range → NewLookUpTable tableSize hosts = Some t → Z.prime (tsize t) → (tsize t < 2 ^ 16)%Z →
  NoDup hosts → "" ∉ hosts → Populate hash1 hash2 range t = Some t' → h1 ∈ hosts → h2 ∈ hosts →
  count h1 (slots t') ≤ S (count h2 (slots t')).
Proof.
  intros Hr Hnew Hprime Hlt Hnd Hempty Hpop Hh1 Hh2. pose proof (Z.prime_ge_2 _ Hprime) as H2.
  assert (size_ok t) as Hs by (split; lia).
  destruct (new_table range tableSize hosts t Hr Hnew Hs Hempty) as (ps & Heq & Hm & Hin).
  apply NewLookUpTable_spec in Hnew as (Hb & Hn & _).
  assert (0 < endpointNum t) as Hpos by (rewrite Hn; destruct hosts; [by apply not_elem_of_nil in Hh1|simpl; lia]).
  destruct (populate_match _ Hm Hpos) as (sl & ps' & Hres & _ & _ & _ & Hbal).
  rewrite Heq, Hres in Hpop. injection Hpop as <-. simpl. destruct Hbal as [m Hbal]; simpl.
  - done.
  - nia.
  - rewrite Hb. by rewrite buckets_of_hosts.
  - apply Hin in Hh1 as [i1 Hi1], Hh2 as [i2 Hi2]. apply Hbal in Hi1, Hi2. lia.
Qed.

(** ** Adding and removing hosts *)

Definition reset t : LookUpTable := set_permutations t (resetPerms (permutations t)).

(** The invariant of a table in use: it is what its hosts make it. *)
Record table_ok t : Prop := {
  tk_match : perms_match (reset t);
  tk_slots : slots <$> populate (reset t) = Some (slots t);
}.

(** The content of the slots before does not matter. *)
Lemma fill_round_fields sl1 sl2 ps1 ps2 b n sz st ps :
  fill_round (mkLookUpTable sl1 ps1 b n sz) st ps = fill_round (mkLookUpTable sl2 ps2 b n sz) st ps.
Proof.
  revert st. induction ps as [|p ps IH]; intros st; [done|]. cbn [fill_round].
  change (fill_one (mkLookUpTable sl1 ps1 b n sz) st p) with (fill_one (mkLookUpTable sl2 ps2 b n sz) st p).
  destruct (fill_one _ st p) as [st' p']. by rewrite IH.
Qed.

Lemma fill_rounds_fields sl1 sl2 ps1 ps2 b n sz fuel st ps :
  fill_rounds (mkLookUpTable sl1 ps1 b n sz) fuel st ps = fill_rounds (mkLookUpTable sl2 ps2 b n sz) fuel st ps.
Proof.
  revert st ps. induction fuel as [|fuel IH]; intros st ps; cbn [fill_rounds endpointNum]; [done|].
  change (nslots (mkLookUpTable sl1 ps1 b n sz)) with (nslots (mkLookUpTable sl2 ps2 b n sz)). case_decide; [|done].
  rewrite (fill_round_fields sl1 sl2 ps1 ps2). destruct (fill_round _ st ps) as [st' ps']. apply IH.
Qed.

Lemma populate_fields sl1 sl2 ps b n sz :
  populate (mkLookUpTable sl1 ps b n sz) = populate (mkLookUpTable sl2 ps b n sz).
Proof.
  unfold populate. cbn [tsize endpointNum permutations].
  by rewrite (fill_rounds_fields sl1 sl2 ps ps).
Qed.

Lemma reset_fresh t entries : resetPerms (perm_of t <$> entries) = perm_of t <$> entries.
Proof. unfold resetPerms. rewrite <- list_fmap_compose. by apply list_fmap_ext. Qed.

Lemma reset_same ps ps' : Forall2 same_perm ps ps' → resetPerms ps' = resetPerms ps.
Proof. unfold resetPerms. induction 1 as [|p q ps ps' (H1 & H2 & H3) _ IH]; [done|]. rewrite !fmap_cons, IH. by rewrite H1, H2, H3. Qed.

(** Populating from permutations that match keeps the invariant. *)
Lemma populate_table_ok t t' : perms_match t → populate t = Some t' → table_ok t' ∧ buckets t' = buckets t.
Proof.
  intros Hm Hp. pose proof Hm as [Hs Hn Hname (entries & He & Hps)].
  assert (∃ sl ps, t' = set_filled t sl ps ∧ Forall2 same_perm (permutations t) ps) as (sl & ps & -> & Hsame).
  { destruct (decide (0 < endpointNum t)) as [Hpos|Hz].
    - destruct (populate_match t Hm Hpos) as (sl & ps & H1 & H2 & _). rewrite H1 in Hp. injection Hp as <-. eauto.
    - destruct (perms_match_fresh t Hm) as [_ Hlen]. revert Hp. unfold populate. rewrite decide_False by (unfold size_ok in Hs; lia).
      assert (∀ fuel st, fill_rounds t fuel st (permutations t) = Some (st, permutations t)) as Hrun.
      { intros [|fuel] st; cbn [fill_rounds]; by rewrite decide_False by lia. }
      rewrite Hrun. simpl. rewrite decide_False by lia. intros [= <-]. eexists _, _. by split. }
  assert (resetPerms ps = permutations t) as Hreset by (rewrite (reset_same _ _ Hsame), Hps; by rewrite reset_fresh).
  split; [|done]. split; unfold reset, set_filled, set_permutations; simpl; rewrite Hreset.
  - split; simpl; [done|done|done|]. exists entries. split; [done|]. by rewrite Hps.
  - rewrite (populate_fields sl (slots t)). destruct t. simpl in *. by rewrite Hp.
Qed.

Lemma add_match range t host :
  any_order range → table_ok t → host ≠ "" → (∀ i, buckets t !! i ≠ Some host) →
  ∃ dst ps, buckets t !! dst = None ∧ ps = permutations (reset t) ++ [perm_of t (dst, host)] ∧
    Add hash1 hash2 range t host =
      populate (mkLookUpTable (slots t) ps (<[dst := host]> (buckets t)) (S (endpointNum t)) (tsize t)) ∧
    perms_match (mkLookUpTable (slots t) ps (<[dst := host]> (buckets t)) (S (endpointNum t)) (tsize t)).
Proof.
  intros Hr [[Hs Hn Hname (entries & He & Hps)] _] Hne Hno. unfold Add.
  rewrite decide_False.
  2:{ intros ([i b] & Hb & Hin)%list_elem_of_fmap. rewrite (Hr (buckets t)), elem_of_map_to_list in Hin. simpl in Hb. subst b. by apply (Hno i). }
  cbv zeta. set (dst := S (foldl _ 0 _)).
  assert (buckets t !! dst = None) as Hdst.
  { destruct (buckets t !! dst) as [b|] eqn:E; [|done]. exfalso. apply elem_of_map_to_list in E. rewrite <- (Hr (buckets t)) in E.
    assert (∀ l a, (a ≤ foldl (λ dst '(i, _), dst `max` i) a l) ∧
      ∀ i (x : string), (i, x) ∈ l → i ≤ foldl (λ dst '(i, _), dst `max` i) a l) as Hmax.
    { induction l as [|[j y] l IH]; intros a; simpl; [split; [done|]; intros i x Hx; by apply not_elem_of_nil in Hx|].
      destruct (IH (a `max` j)) as [H1 H2]. split; [lia|]. intros i x [[= -> ->]|Hx]%elem_of_cons; [lia|by eapply H2]. }
    destruct (Hmax (range (buckets t)) 0) as [_ Hm]. specialize (Hm dst b E). unfold dst in Hm. lia. }
  rewrite generatePerm_spec by done. exists dst. eexists. split_and!; [done|done|done|].
  split; simpl; [done|rewrite map_size_insert_None by done; simpl in Hn; by rewrite Hn| |].
  - intros i. rewrite lookup_insert. case_decide; [congruence|apply Hname].
  - exists (entries ++ [(dst, host)]). split; [rewrite map_to_list_insert by done; rewrite Permutation_app_comm; simpl; by rewrite He|].
    simpl in Hps. rewrite fmap_app. f_equal. exact Hps.
Qed.

Lemma remove_last ps p qs :
  Forall2 same_perm (ps ++ [p]) qs → (∀ x, x ∈ ps → index x ≠ index p) →
  resetPerms (removePerm qs (index p)) = resetPerms ps.
Proof.
  intros (qs1 & q2 & H1 & H2 & ->)%Forall2_app_inv_l Hno. apply Forall2_cons_inv_l in H2 as (q & q3 & (_ & _ & Hq) & H3 & ->).
  apply Forall2_nil_inv_l in H3 as ->. unfold removePerm.
  assert (list_find (λ x, index x = index p) qs1 = None) as Hnone.
  { apply list_find_None, Forall_forall. intros x [k Hk]%list_elem_of_lookup_1.
    destruct (Forall2_lookup_r _ _ _ _ _ H1 Hk) as (y & Hy & (_ & _ & Hxy)). rewrite <- Hxy. apply Hno. by eapply list_elem_of_lookup_2. }
  rewrite list_find_app_r by done. simpl. rewrite decide_True by done. simpl. rewrite ?Nat.add_0_r, delete_middle, app_nil_r.
  by apply reset_same.
Qed.

Lemma find_host range t dst host :
  any_order range → (∀ i, buckets t !! i ≠ Some host) →
  ∃ k, list_find (λ e, e.2 = host) (range (<[dst := host]> (buckets t))) = Some (k, (dst, host)).
Proof.
  intros Hr Hno. set (m := <[dst := host]> (buckets t)).
  destruct (list_find_elem_of (λ e, e.2 = host) (range m) (dst, host)) as [[k [i b]] Hf]; [|done|].
  - rewrite (Hr m), elem_of_map_to_list. apply lookup_insert_eq.
  - exists k. rewrite Hf. apply list_find_Some in Hf as (Hk & Hb & _). simpl in Hb. subst b.
    apply list_elem_of_lookup_2 in Hk. rewrite (Hr m), elem_of_map_to_list in Hk. unfold m in Hk.
    rewrite lookup_insert in Hk. case_decide; [by subst|]. by destruct (Hno i).
Qed.

(** A host that joins and leaves leaves the table as it was, although the
    updates go through maps without order. *)
Theorem maglev_add_remove range range' t host :
  any_order range → any_order range' → table_ok t → host ≠ "" → (∀ i, buckets t !! i ≠ Some host) →
  ∃ t1 t2, Add hash1 hash2 range t host = Some t1 ∧ table_ok t1 ∧ (∃ i, buckets t1 !! i = Some host) ∧
    Remove range' t1 host = Some (t2, true) ∧ table_ok t2 ∧ slots t2 = slots t ∧ buckets t2 = buckets t.
Proof.
  intros Hr Hr' Hok Hne Hno. destruct (add_match range t host Hr Hok Hne Hno) as (dst & ps & Hdst & Hps & -> & Hm).
  destruct (populate_match _ Hm) as (sl & ps' & Hpop & Hsame & _); [simpl; lia|]. simpl in Hsame.
  destruct (populate_table_ok _ _ Hm Hpop) as [Hok1 _]. pose proof Hok as [Hmatch Hslots].
  eexists. assert (∃ t2, slots t2 = slots t ∧ populate (reset t) = Some t2) as (t2 & Hsl2 & Hpop2).
  { destruct (populate (reset t)) as [t2|]; [|done]. injection Hslots as Hslots. eauto. }
  exists t2. destruct (populate_table_ok _ _ Hmatch Hpop2) as [Hok2 Hb2].
  split_and!; [exact Hpop|done|exists dst; simpl; apply lookup_insert_eq| |done|done|done].
  unfold Remove. cbn [endpointNum set_filled buckets]. rewrite decide_False by lia.
  destruct (find_host range' t dst host Hr' Hno) as [k ->].
  assert (resetPerms (removePerm ps' dst) = permutations (reset t)) as Hrm.
  { change dst with (index (perm_of t (dst, host))). rewrite Hps in Hsame. rewrite (remove_last _ _ _ Hsame).
    - destruct Hmatch as [_ _ _ (entries & _ & Hpe)]. rewrite Hpe. apply (reset_fresh (reset t)).
    - intros x Hx. destruct Hmatch as [_ _ _ (entries & He & Hpe)]. rewrite Hpe in Hx.
      apply list_elem_of_fmap in Hx as ([i b] & -> & Hin). rewrite He, elem_of_map_to_list in Hin. simpl in *. congruence. }
  cbn [permutations set_filled slots tsize]. rewrite Hrm, delete_insert_id by done. rewrite Nat.sub_succ, Nat.sub_0_r.
  rewrite (populate_fields sl (slots t)). unfold reset, set_permutations in Hpop2 |- *. simpl in *. by rewrite Hpop2.
Qed.

End building.

(** *** The order matters *)

(** The table is not a function of the hosts: two iteration orders of the
    same map give different tables, so two gateways with the same endpoints can
    send a key to different hosts. *)
Theorem maglev_order_dependent :
  ∃ (hash1 hash2 requestHash : string → Z) range1 range2 t t1 t2,
    any_order range1 ∧ any_order range2 ∧ NewLookUpTable 7 ["10.0.0.1:80"; "10.0.0.2:80"] = Some t ∧
    Populate hash1 hash2 range1 t = Some t1 ∧ Populate hash1 hash2 range2 t = Some t2 ∧
    Table_Get requestHash t1 "key" ≠ Table_Get requestHash t2 "key".
Proof.
  exists (λ _, 3%Z), (λ _, 4%Z), (λ _, 3%Z), map_to_list, (λ m, reverse (map_to_list m)).
  do 3 eexists. split_and!.
  - intros m. done.
  - intros m. by rewrite reverse_Permutation.
  - vm_compute. reflexivity.
  - vm_compute. reflexivity.
  - vm_compute. reflexivity.
  - vm_compute. discriminate.
Qed.

(** ** The factory and the balancer *)

Section factory.
Context {R : Type} (ring_view : LbConsistentHashView R) (NewRingHash : ConsistentHash → list Endpoint → R).
Context (hash1 hash2 requestHash : string → Z) (range : iteration).

(** A consistent hash is a table, or a ring when no table could be made. *)
Definition table_or_ring : LbConsistentHashView (LookUpTable + R) := {|
  Hash h key := match h with inl _ => requestHash key | inr r => @Hash R ring_view r key end;
  Get h key := match h with
               | inl t => match Table_Get requestHash t key with Ok host => Some host | Err _ => None end
               | inr r => @Get R ring_view r key
               end;
  GetHash h key := match h with
                   | inl t => match Table_GetHash t key with Ok host => Some host | Err _ => None end
                   | inr r => @GetHash R ring_view r key
                   end;
|}.

Definition NewMaglevHash (config : ConsistentHash) (endpoints : list Endpoint) : option (LookUpTable + R) :=
  match NewLookUpTable (MaglevTableSize config) (GetHost <$> endpoints) with
  | Some t => inl <$> Populate hash1 hash2 range t
  | None =>
      let config := if decide (ReplicaNum config = 0%Z)
                    then mkConsistentHash (2 * Z.of_nat (length endpoints)) (MaxVnodeNum config) (MaglevTableSize config)
                    else config in
      Some (inr (NewRingHash config endpoints))
  end.

#[local] Existing Instance table_or_ring.

Lemma GetHost_not_empty e : GetHost e ≠ "".
Proof. unfold GetHost. by destruct (Address (EAddress e)). Qed.

Lemma host_slot_spec host l : host ∈ GetHost <$> l → ∃ e, l !! host_slot host l = Some e ∧ GetHost e = host.
Proof.
  intros (e & -> & He)%list_elem_of_fmap. unfold host_slot.
  destruct (list_find_elem_of (λ x, GetHost x = GetHost e) l e He eq_refl) as [[i x] Hf]. rewrite Hf.
  apply list_find_Some in Hf as (Hi & Hx & _). eauto.
Qed.

Lemma NewMaglevHash_table config endpoints t :
  any_order range → NewMaglevHash config endpoints = Some (inl t) → size_ok t → endpoints ≠ [] →
  ∀ key, ∃ host, host ∈ GetHost <$> endpoints ∧ Table_Get requestHash t key = Ok host.
Proof.
  intros Hr H Hs Hne key. unfold NewMaglevHash in H. destruct (NewLookUpTable _ _) as [t0|] eqn:Enew; [|done].
  destruct (Populate hash1 hash2 range t0) as [t1|] eqn:Epop; [|done]. simpl in H. injection H as ->.
  assert (tsize t = tsize t0) as Hsz.
  { revert Epop. unfold Populate, generatePerms. destruct (generate_all _ _ _ _); [|done]. simpl. unfold populate.
    case_decide; [done|]. destruct (fill_rounds _ _ _ _) as [[st ps]|]; [|done]. simpl. case_decide; [|by intros [= <-]].
    destruct (fillMissingSlots _ _ _); [|done]. by intros [= <-]. }
  assert (size_ok t0) as Hs0 by (unfold size_ok in *; by rewrite <- Hsz).
  destruct (new_table hash1 hash2 range _ _ t0 Hr Enew Hs0) as (ps & Hpop & Hm & Hin).
  { intros (e & He & _)%list_elem_of_fmap. by apply (GetHost_not_empty e). }
  apply NewLookUpTable_spec in Enew as (_ & Hn & _). rewrite length_fmap in Hn.
  assert (0 < endpointNum t0) as Hpos by (rewrite Hn; destruct endpoints; [done|simpl; lia]).
  destruct (populate_match hash1 hash2 _ Hm Hpos) as (sl & ps' & Hres & _ & Hlen & Hhosts & _).
  rewrite Hpop, Hres in Epop. injection Epop as <-. apply Table_Get_ok; [done|done|done|]. simpl. intros s Hx%Hhosts. by apply Hin.
Qed.

(** A request goes to the endpoint whose host its key has in the table of the
    healthy endpoints: the fallback to the first endpoint is never taken. *)
Theorem maglev_pick_follows_table InitMap new (c : PickContext (LookUpTable + R)) config t key :
  any_order range → context_ok c → is_Some (ctx_Config c) → ctx_HealthyEndpoints c ≠ [] →
  NewMaglevHash config (ctx_HealthyEndpoints c) = Some (inl t) → size_ok t → ctx_HealthyConsistentHash c = Some (inl t) →
  ∃ e, pickEndpoint InitMap (Some (MaglevHash InitMap new)) c (Some key) = Some (Some e, cells_of c) ∧
    e ∈ ctx_HealthyEndpoints c ∧ Table_Get requestHash t key = Ok (GetHost e).
Proof.
  intros Hr Hc Hcfg Hne Hnew Hs Hch.
  destruct (NewMaglevHash_table config _ t Hr Hnew Hs Hne key) as (host & Hin & Hget).
  destruct (host_slot_spec host _ Hin) as (e & He & <-). exists e. split_and!; [|by eapply list_elem_of_lookup_2|done].
  eapply (pick_choice InitMap (MaglevHash InitMap new) c); [done|done|done|exact He|]. change (shown _ c) with c.
  unfold MaglevHash_HandlerWithSnapshot, hashed_pick, ConsistentHashForHealthyEndpoints. rewrite Hch.
  destruct (ctx_HealthyEndpoints c) eqn:El; [done|]. rewrite <- El. simpl. rewrite Hget. by rewrite El.
Qed.

End factory.

(** ** Witnesses *)

Module maglev_sample.

Definition hosts : list string := ["10.0.0.1:80"; "10.0.0.2:80"; "10.0.0.3:80"].
Definition hash (s : string) : Z := foldr (λ a n, (Z.of_N (N_of_ascii a) + 3 * n) `mod` 1009)%Z 0%Z (String.list_ascii_of_string s).

Definition table : LookUpTable := mkLookUpTable [] [] (map_seq 0 hosts) 3 13.

Lemma new_table_is : NewLookUpTable 13 hosts = Some table.
Proof. vm_compute. reflexivity. Qed.

Lemma any_map_to_list : any_order map_to_list.
Proof. intros m. reflexivity. Qed.

Lemma prime_13 : Z.prime 13.
Proof. apply is_prime_spec. vm_compute. reflexivity. Qed.

Definition filled : LookUpTable := default table (Populate hash hash map_to_list table).

Lemma table_size : size_ok table.
Proof. split; vm_compute; [discriminate|reflexivity]. Qed.

Lemma no_empty_host : "" ∉ hosts.
Proof. apply (bool_decide_unpack _). vm_compute. exact I. Qed.

Lemma filled_ok : table_ok hash hash filled.
Proof.
  destruct (new_table hash hash map_to_list 13 hosts table any_map_to_list new_table_is table_size no_empty_host)
    as (ps & Hpop & Hm & _).
  apply (populate_table_ok hash hash (set_permutations table ps)); [done|]. rewrite <- Hpop. unfold filled.
  destruct (Populate hash hash map_to_list table) eqn:E; [done|]. vm_compute in E. discriminate.
Qed.

Definition members : list Endpoint := [sample.endpoint "a" "10.0.0.1" 80 false; sample.endpoint "b" "10.0.0.2" 80 false].
Definition ring : LbConsistentHashView unit := {| Hash _ _ := 0%Z; Get _ _ := None; GetHash _ _ := None |}.
Definition config : ConsistentHash := mkConsistentHash 0 0 13.
Definition members_table : LookUpTable :=
  match NewMaglevHash (R := unit) (λ _ _, tt) hash hash map_to_list config members with
  | Some (inl t) => t
  | _ => table
  end.
Definition context : PickContext (LookUpTable + unit) :=
  mkPickContext (Some sample.config) None (Some (inl members_table)) None members None (Some (find_id members)).

Lemma context_is_ok : context_ok context.
Proof.
  split; [split; apply (bool_decide_unpack _); vm_compute; exact I|].
  exists (find_id members). split; [reflexivity|]. intros id. reflexivity.
Qed.

End maglev_sample.

Lemma maglev_table_full_witness :
  ∃ t', Populate maglev_sample.hash maglev_sample.hash map_to_list maglev_sample.table = Some t' ∧
    ∃ h, h ∈ maglev_sample.hosts ∧ Table_Get maglev_sample.hash t' "key" = Ok h.
Proof.
  destruct (maglev_table_full maglev_sample.hash maglev_sample.hash maglev_sample.hash map_to_list 13 maglev_sample.hosts
    maglev_sample.table maglev_sample.any_map_to_list maglev_sample.new_table_is maglev_sample.table_size) as (t' & H1 & _ & _ & H2).
  - discriminate.
  - exact maglev_sample.no_empty_host.
  - exists t'. split; [exact H1|]. exact (H2 "key").
Defined.

Lemma maglev_balanced_witness :
  count "10.0.0.1:80" (slots maglev_sample.filled) ≤ S (count "10.0.0.3:80" (slots maglev_sample.filled)).
Proof.
  apply (maglev_balanced maglev_sample.hash maglev_sample.hash map_to_list 13 maglev_sample.hosts maglev_sample.table).
  - exact maglev_sample.any_map_to_list.
  - exact maglev_sample.new_table_is.
  - exact maglev_sample.prime_13.
  - vm_compute. reflexivity.
  - apply (bool_decide_unpack _). vm_compute. exact I.
  - exact maglev_sample.no_empty_host.
  - vm_compute. reflexivity.
  - constructor.
  - right. right. left.
Defined.

Lemma maglev_add_remove_witness :
  ∃ t1 t2, Add maglev_sample.hash maglev_sample.hash map_to_list maglev_sample.filled "10.0.0.9:80" = Some t1 ∧
    Remove map_to_list t1 "10.0.0.9:80" = Some (t2, true) ∧ slots t2 = slots maglev_sample.filled.
Proof.
  destruct (maglev_add_remove maglev_sample.hash maglev_sample.hash map_to_list map_to_list maglev_sample.filled "10.0.0.9:80")
    as (t1 & t2 & H1 & _ & _ & H2 & _ & H3 & _).
  - exact maglev_sample.any_map_to_list.
  - exact maglev_sample.any_map_to_list.
  - exact maglev_sample.filled_ok.
  - discriminate.
  - intros i Hi. apply elem_of_map_to_list in Hi. revert Hi. vm_compute.
    intros Hi. repeat (apply elem_of_cons in Hi as [Hi|Hi]; [discriminate|]). by apply not_elem_of_nil in Hi.
  - exists t1, t2. auto.
Defined.

Lemma maglev_pick_follows_table_witness :
  let c := maglev_sample.context in
  ∃ e, pickEndpoint (λ _, None)
         (Some (MaglevHash (LbConsistentHashView0 := table_or_ring maglev_sample.ring maglev_sample.hash) (λ _, None)
            (λ _ _, inr tt))) c (Some "key") = Some (Some e, cells_of c) ∧ e ∈ maglev_sample.members.
Proof.
  cbv zeta.
  destruct (maglev_pick_follows_table maglev_sample.ring (λ _ _, tt) maglev_sample.hash maglev_sample.hash maglev_sample.hash
    map_to_list (λ _, None) (λ _ _, inr tt) maglev_sample.context maglev_sample.config maglev_sample.members_table "key") as (e & H1 & H2 & _).
  - exact maglev_sample.any_map_to_list.
  - exact maglev_sample.context_is_ok.
  - eexists. reflexivity.
  - discriminate.
  - vm_compute. reflexivity.
  - split; vm_compute; [discriminate|reflexivity].
  - reflexivity.
  - exists e. split; [exact H1|exact H2].
Defined.
