(* ===== verification/Health.v ===== *)
(** * Health checking, [pkg/cluster/healthcheck/healthcheck.go]

    One checker per address counts consecutive results and reports a verdict
    when a threshold is reached; the set of checkers follows the endpoints of
    the cluster.  The probes themselves (TCP, HTTP) are input to the loop. *)

From S2P Require Import Prelude GoStrings Sha256 Endpoint Snapshot.
Local Open Scope Z_scope.

(** ** A checker *)

Record EndpointChecker : Type := mkEndpointChecker {
  endpointID : string;
  endpointAddr : string;
  checkID : Z;
  unHealthCount : Z;
  healthCount : Z;
}.

Record Thresholds : Type := mkThresholds { healthyThreshold : Z; unhealthyThreshold : Z }.

Definition DefaultThreshold : Z := 5.

(** The thresholds of [CreateHealthCheckWithCallback] *)
Definition thresholds_of (cfg : HealthCheckConfig) : Thresholds :=
  mkThresholds
    (if decide (HealthyThreshold cfg = 0) then DefaultThreshold else HealthyThreshold cfg)
    (if decide (UnhealthyThreshold cfg = 0) then DefaultThreshold else UnhealthyThreshold cfg).

Section checker.
Context (t : Thresholds).
Implicit Types (c : EndpointChecker).

Definition set_counts c (unhealth health : Z) : EndpointChecker :=
  mkEndpointChecker (endpointID c) (endpointAddr c) (checkID c) unhealth health.

(** [handleHealth] and [handleUnHealth] reset both counters and emit. *)
Definition handle_verdict c (healthy : bool) : EndpointChecker * option bool := (set_counts c 0 0, Some healthy).

Definition HandleSuccess c : EndpointChecker * option bool :=
  let c := set_counts c 0 (wrap32 (healthCount c + 1)) in
  if healthyThreshold t <=? healthCount c then handle_verdict c true else (c, None).

Definition HandleFailure c : EndpointChecker * option bool :=
  let c := set_counts c (wrap32 (unHealthCount c + 1)) 0 in
  if unhealthyThreshold t <=? unHealthCount c then handle_verdict c false else (c, None).

Definition observe c (healthy : bool) : EndpointChecker * option bool :=
  if healthy then HandleSuccess c else HandleFailure c.

(** ** The loop of [Start]

    An iteration takes a new check identity and then waits for one event.  A
    response carries the identity its probe read when it began. *)
Inductive loop_event : Type :=
  | Response (id : Z) (healthy : bool)
  | Timeout.

Definition next_check c : EndpointChecker :=
  mkEndpointChecker (endpointID c) (endpointAddr c) (wrap64 (checkID c + 1)) (unHealthCount c) (healthCount c).

Definition loop_step c (ev : loop_event) : EndpointChecker * option bool :=
  let c := next_check c in
  match ev with
  | Response id healthy => if decide (id = checkID c) then observe c healthy else (c, None)
  | Timeout => HandleFailure c
  end.

(** The verdicts along a sequence of results, and along a sequence of events. *)
Fixpoint verdicts c (results : list bool) : list (option bool) :=
  match results with
  | [] => []
  | r :: results => let '(c, v) := observe c r in v :: verdicts c results
  end.

Fixpoint loop_verdicts c (evs : list loop_event) : list (option bool) :=
  match evs with
  | [] => []
  | ev :: evs => let '(c, v) := loop_step c ev in v :: loop_verdicts c evs
  end.

(** ** Specification: streaks of equal results *)

Definition threshold_for (r : bool) : Z := if r then healthyThreshold t else unhealthyThreshold t.

(** A verdict is due when the length of the streak is a multiple of the
    threshold. *)
Fixpoint streak_verdicts (cur : bool) (k : Z) (results : list bool) : list (option bool) :=
  match results with
  | [] => []
  | r :: results =>
      let k := if Bool.eqb r cur then k + 1 else 1 in
      (if decide (k `mod` threshold_for r = 0) then Some r else None) :: streak_verdicts r k results
  end.

(** A loop event as a result, when it counts. *)
Fixpoint counted (id : Z) (evs : list loop_event) : list bool :=
  match evs with
  | [] => []
  | ev :: evs =>
      let id := wrap64 (id + 1) in
      match ev with
      | Response i healthy => if decide (i = id) then healthy :: counted id evs else counted id evs
      | Timeout => false :: counted id evs
      end
  end.

Definition thresholds_ok : Prop :=
  1 ≤ healthyThreshold t < 2 ^ 32 ∧ 1 ≤ unhealthyThreshold t < 2 ^ 32.

(** The counters after a streak of [k] results equal to [cur]. *)
Definition counts_streak c (cur : bool) (k : Z) : Prop :=
  0 ≤ k ∧
  (if cur then healthCount c else unHealthCount c) = k `mod` threshold_for cur ∧
  (if cur then unHealthCount c else healthCount c) = 0.

Lemma mod_step k n : 1 ≤ n → 0 ≤ k →
  (k + 1) `mod` n = if decide (n ≤ k `mod` n + 1) then 0 else k `mod` n + 1.
Proof.
  intros Hn Hk. pose proof (Z.mod_pos_bound k n). case_decide as H1.
  - assert (k `mod` n = n - 1) as Hm by lia. rewrite <- Zplus_mod_idemp_l, Hm.
    replace (n - 1 + 1) with n by lia. apply Z_mod_same_full.
  - rewrite <- Zplus_mod_idemp_l. apply Z.mod_small. lia.
Qed.

(** Counting one result, whatever the streak was before. *)
Lemma observe_streak c cur k r :
  thresholds_ok → counts_streak c cur k →
  let k' := if Bool.eqb r cur then k + 1 else 1 in
  (observe c r).2 = (if decide (k' `mod` threshold_for r = 0) then Some r else None) ∧
  counts_streak (observe c r).1 r k'.
Proof.
  intros [Hh Hu] (Hk & Hc & H0). cbv zeta.
  assert (∀ n v, 1 ≤ n < 2 ^ 32 → 0 ≤ v < n → wrap32 (v + 1) = v + 1) as Hwrap.
  { intros n v Hn Hv. apply wrap32_small. lia. }
  assert (∃ k0, 0 ≤ k0 ∧ (if Bool.eqb r cur then k + 1 else 1) = k0 + 1 ∧
    (if r then healthCount c else unHealthCount c) = k0 `mod` threshold_for r) as (k0 & Hk0 & -> & Hr).
  { destruct r, cur; simpl in *; [exists k|exists 0|exists 0|exists k]; rewrite ?Zmod_0_l; auto with lia. }
  unfold observe, HandleSuccess, HandleFailure, counts_streak.
  assert (1 ≤ threshold_for r < 2 ^ 32) as Hn by (by destruct r).
  pose proof (Z.mod_pos_bound k0 (threshold_for r)) as Hb.
  rewrite (mod_step k0 (threshold_for r)) by lia.
  assert (wrap32 ((if r then healthCount c else unHealthCount c) + 1) = k0 `mod` threshold_for r + 1) as Hw.
  { rewrite Hr. apply (Hwrap (threshold_for r)); lia. }
  destruct (decide (threshold_for r ≤ k0 `mod` threshold_for r + 1)) as [Hle|Hle];
    [rewrite (decide_True (P := 0 = 0)) by done|rewrite (decide_False (P := _ = 0)) by lia];
    destruct r; cbn [set_counts healthCount unHealthCount] in *; unfold threshold_for in *; rewrite Hw;
    [destruct (Z.leb_spec (healthyThreshold t) (k0 `mod` healthyThreshold t + 1))
    |destruct (Z.leb_spec (unhealthyThreshold t) (k0 `mod` unhealthyThreshold t + 1))
    |destruct (Z.leb_spec (healthyThreshold t) (k0 `mod` healthyThreshold t + 1))
    |destruct (Z.leb_spec (unhealthyThreshold t) (k0 `mod` unhealthyThreshold t + 1))];
    try lia; simpl; auto with lia.
Qed.

Lemma verdicts_streak c cur k results :
  thresholds_ok → counts_streak c cur k → verdicts c results = streak_verdicts cur k results.
Proof.
  intros Ht. revert c cur k. induction results as [|r results IH]; intros c cur k Hc; simpl; [done|].
  destruct (observe_streak c cur k r Ht Hc) as [Hv Hc'].
  destruct (observe c r) as [c' v]. simpl in *. rewrite Hv. f_equal. by apply IH.
Qed.

(** Verdicts depend on the counters only. *)
Lemma observe_counts c1 c2 r :
  unHealthCount c1 = unHealthCount c2 → healthCount c1 = healthCount c2 →
  (observe c1 r).2 = (observe c2 r).2 ∧
  unHealthCount (observe c1 r).1 = unHealthCount (observe c2 r).1 ∧
  healthCount (observe c1 r).1 = healthCount (observe c2 r).1.
Proof.
  intros Hu Hh. unfold observe, HandleSuccess, HandleFailure; simpl. rewrite Hu, Hh.
  destruct r; [destruct (healthyThreshold t <=? _)|destruct (unhealthyThreshold t <=? _)]; done.
Qed.

Lemma loop_counted c1 c2 evs :
  unHealthCount c1 = unHealthCount c2 → healthCount c1 = healthCount c2 →
  omap id (loop_verdicts c1 evs) = omap id (verdicts c2 (counted (checkID c1) evs)).
Proof.
  assert (∀ c r, checkID (observe c r).1 = checkID c) as Hid.
  { intros c []; unfold observe, HandleSuccess, HandleFailure; simpl; by case_match. }
  revert c1 c2. induction evs as [|ev evs IH]; intros c1 c2 Hu Hh; [done|].
  assert (∀ r, omap id (let '(c, v) := observe (next_check c1) r in v :: loop_verdicts c evs) =
    omap id (verdicts c2 (r :: counted (wrap64 (checkID c1 + 1)) evs))) as Hcount.
  { intros r. simpl. destruct (observe_counts (next_check c1) c2 r) as (Hv & Hu' & Hh'); [done..|].
    specialize (Hid (next_check c1) r). destruct (observe (next_check c1) r) as [c1' v1], (observe c2 r) as [c2' v2].
    simpl in *. subst v2. rewrite <- Hid. destruct v1; simpl; [f_equal|]; by apply IH. }
  destruct ev as [i healthy|]; [|exact (Hcount false)].
  cbn [loop_verdicts counted]. unfold loop_step. cbv zeta. simpl checkID.
  destruct (decide (i = wrap64 (checkID c1 + 1))) as [E|E].
  - exact (Hcount healthy).
  - simpl. by apply (IH (next_check c1)).
Qed.

End checker.

(** ** The set of checkers *)

Section checkers.
Implicit Types (ck : gmap string EndpointChecker) (e : Endpoint) (es : list (option Endpoint)).

Definition newChecker e : EndpointChecker := mkEndpointChecker (EID e) (GetAddress (EAddress e)) 0 0 0.

Definition startCheck ck (endpoint : option Endpoint) : gmap string EndpointChecker :=
  match endpoint with
  | None => ck
  | Some e =>
      let addr := GetAddress (EAddress e) in
      match ck !! addr with
      | Some _ => ck
      | None => <[addr := newChecker e]> ck
      end
  end.

(** [Start] on the endpoints of the cluster; [Stop] *)
Definition Start ck es : gmap string EndpointChecker := foldl startCheck ck es.
Definition Stop ck : gmap string EndpointChecker := ∅.

(** The endpoint comes from the store and the candidates are the runtime's own
    copies, so that it is recognised by its identity. *)
Definition hasOtherEndpointWithAddress es e (addr : string) : bool :=
  existsb (λ candidate,
    match candidate with
    | None => false
    | Some c =>
        if negb (bool_decide (EID e = "")) && bool_decide (EID c = EID e) then false
        else bool_decide (GetAddress (EAddress c) = addr)
    end) es.

Definition stopCheck es ck (endpoint : option Endpoint) : gmap string EndpointChecker :=
  match endpoint with
  | None => ck
  | Some e =>
      let addr := GetAddress (EAddress e) in
      if hasOtherEndpointWithAddress es e addr then ck else delete addr ck
  end.

(** *** One checker per address of the cluster *)

Definition addresses es : list string := map address_of (omap id es).

Definition checkers_match es ck : Prop :=
  (∀ a, a ∈ dom ck ↔ a ∈ addresses es) ∧ ∀ a c, ck !! a = Some c → endpointAddr c = a.

Lemma addresses_app es1 es2 : addresses (es1 ++ es2) = addresses es1 ++ addresses es2.
Proof. unfold addresses. by rewrite omap_app, map_app. Qed.

Lemma elem_of_addresses a e es : a ∈ addresses (Some e :: es) ↔ a = address_of e ∨ a ∈ addresses es.
Proof. unfold addresses; simpl. by rewrite elem_of_cons. Qed.

Lemma elem_of_addresses_middle a es1 e es2 :
  a ∈ addresses (es1 ++ Some e :: es2) ↔ a = address_of e ∨ a ∈ addresses (es1 ++ es2).
Proof. rewrite !addresses_app, !elem_of_app, elem_of_addresses. tauto. Qed.

Lemma startCheck_match es1 es2 ck e :
  checkers_match (es1 ++ es2) ck → checkers_match (es1 ++ Some e :: es2) (startCheck ck (Some e)).
Proof.
  intros [Hd Ha]. pose proof (λ a, elem_of_addresses_middle a es1 e es2) as He.
  unfold startCheck. destruct (ck !! _) as [c|] eqn:E; split.
  - intros a. rewrite He, <- Hd. split; [by right|]. intros [->|?]; [|done]. apply elem_of_dom. by exists c.
  - exact Ha.
  - intros a. rewrite dom_insert, elem_of_union, elem_of_singleton, He, Hd. done.
  - intros a c. rewrite lookup_insert. case_decide; [|apply Ha]. by intros [= <-].
Qed.

Lemma Start_match es ck es0 : checkers_match es0 ck → checkers_match (es0 ++ es) (Start ck es).
Proof.
  revert ck es0. induction es as [|[e|] es IH]; intros ck es0 H; simpl; [by rewrite app_nil_r| |].
  - rewrite cons_middle, app_assoc. apply IH. apply (startCheck_match es0 []). by rewrite app_nil_r.
  - rewrite cons_middle, app_assoc. apply IH. destruct H as [H1 H2]. split; [|done].
    intros a. rewrite addresses_app, elem_of_app, H1. unfold addresses; simpl.
    split; [by left|]. intros [?|Hn]; [done|]. by apply not_elem_of_nil in Hn.
Qed.

(** Identities are set and distinct. *)
Definition endpoints_assigned es : Prop := ids_assigned (omap id es).

Lemma hasOther_spec es1 e es2 addr :
  endpoints_assigned (es1 ++ Some e :: es2) →
  hasOtherEndpointWithAddress (es1 ++ Some e :: es2) e addr = bool_decide (addr ∈ addresses (es1 ++ es2)).
Proof.
  intros [Hn Hne]. rewrite omap_app in Hn, Hne. simpl in Hn, Hne. rewrite map_app in Hn, Hne. simpl in Hn, Hne.
  assert (EID e ≠ "") as He.
  { intros Hx. apply Hne. rewrite <- Hx, elem_of_app, elem_of_cons. auto. }
  assert (∀ es, EID e ∉ map EID (omap id es) →
    hasOtherEndpointWithAddress es e addr = bool_decide (addr ∈ addresses es)) as Hrest.
  { induction es as [|[c|] es IH]; simpl; intros Hni; [done| |by apply IH].
    apply not_elem_of_cons in Hni as [Hc Hni]. rewrite (bool_decide_eq_false_2 (EID c = EID e)), andb_false_r by congruence.
    rewrite IH, <- bool_decide_or by done. apply bool_decide_ext.
    rewrite elem_of_addresses. unfold address_of. naive_solver. }
  apply NoDup_app in Hn as (_ & Hd & [Hni _]%NoDup_cons).
  assert (hasOtherEndpointWithAddress (Some e :: es2) e addr = hasOtherEndpointWithAddress es2 e addr) as Hself.
  { simpl. by rewrite (bool_decide_eq_false_2 (EID e = "")), (bool_decide_eq_true_2 (EID e = EID e)) by done. }
  unfold hasOtherEndpointWithAddress at 1. rewrite existsb_app.
  fold (hasOtherEndpointWithAddress es1 e addr). fold (hasOtherEndpointWithAddress (Some e :: es2) e addr).
  rewrite Hself, !Hrest; [|done|intros Hx; by apply (Hd _ Hx); constructor].
  rewrite addresses_app, <- bool_decide_or. apply bool_decide_ext. by rewrite elem_of_app.
Qed.

Lemma stopCheck_match es1 e es2 ck :
  endpoints_assigned (es1 ++ Some e :: es2) → checkers_match (es1 ++ Some e :: es2) ck →
  checkers_match (es1 ++ es2) (stopCheck (es1 ++ Some e :: es2) ck (Some e)).
Proof.
  intros Has [Hd Ha]. pose proof (λ a, elem_of_addresses_middle a es1 e es2) as He.
  unfold stopCheck. rewrite hasOther_spec by done.
  destruct (decide (GetAddress (EAddress e) ∈ addresses (es1 ++ es2))) as [Hin|Hin].
  - rewrite bool_decide_eq_true_2 by done. split; [|done]. intros a. rewrite Hd, He.
    split; [|by right]. by intros [->|?].
  - rewrite bool_decide_eq_false_2 by done. split.
    + intros a. rewrite dom_delete, elem_of_difference, elem_of_singleton, Hd, He. unfold address_of.
      split; [naive_solver|]. intros Hx. split; [by right|]. by intros ->.
    + intros a c [_ Hc]%lookup_delete_Some. by apply Ha.
Qed.

End checkers.

(** ** Properties *)

Lemma thresholds_of_ok cfg :
  0 ≤ HealthyThreshold cfg < 2 ^ 32 → 0 ≤ UnhealthyThreshold cfg < 2 ^ 32 →
  thresholds_ok (thresholds_of cfg).
Proof.
  intros Hh Hu. unfold thresholds_ok, thresholds_of, DefaultThreshold; simpl. repeat case_decide; lia.
Qed.

(** A checker reports a verdict exactly when the current streak of equal
    results reaches a multiple of the configured threshold (five when none is
    configured).  Timeouts count as failures; a response whose probe began in
    an earlier iteration of the loop counts for nothing. *)
Theorem verdicts_follow_streaks (cfg : HealthCheckConfig) (id addr : string) (evs : list loop_event) :
  0 ≤ HealthyThreshold cfg < 2 ^ 32 → 0 ≤ UnhealthyThreshold cfg < 2 ^ 32 →
  let t := thresholds_of cfg in
  omap (λ v, v) (loop_verdicts t (mkEndpointChecker id addr 0 0 0) evs) =
    omap (λ v, v) (streak_verdicts t true 0 (counted 0 evs)).
Proof.
  intros Hh Hu t. pose proof (thresholds_of_ok cfg Hh Hu) as Ht.
  etransitivity; [apply (loop_counted t _ (mkEndpointChecker id addr 0 0 0)); done|].
  simpl checkID. rewrite (verdicts_streak t _ true 0); [done|done|].
  split_and!; simpl; [done|by rewrite Zmod_0_l|done].
Qed.

Lemma verdicts_follow_streaks_witness :
  let cfg := mkHealthCheckConfig "tcp" "" "" "" 2 3 "" None [] in
  omap (λ v, v) (loop_verdicts (thresholds_of cfg) (mkEndpointChecker "a" "h:1" 0 0 0)
    [Response 1 true; Response 1 false; Response 3 true; Timeout; Response 5 false; Timeout; Response 7 true]) =
  [true; false].
Proof.
  cbv zeta.
  rewrite (verdicts_follow_streaks (mkHealthCheckConfig "tcp" "" "" "" 2 3 "" None []) "a" "h:1"
    [Response 1 true; Response 1 false; Response 3 true; Timeout; Response 5 false; Timeout; Response 7 true]).
  - vm_compute. reflexivity.
  - simpl. lia.
  - simpl. lia.
Defined.
