(* ===== verification/Cluster.v ===== *)
(** * The runtime cluster, the [Cluster] type of [pkg/cluster/cluster.go]

    A runtime owns a copy of its configuration, publishes snapshots and runs the
    health checkers.  The compare-and-swap loops are one atomic step each: the
    snapshot they publish is computed from the one they replace. *)

From S2P Require Import Prelude GoStrings Sha256 Endpoint Snapshot Health.

Record Cluster (CH : Type) : Type := mkCluster {
  config : ClusterConfig;
  configID : Z;
  roundRobinCursor : Z;
  acceptHealthEvents : bool;
  endpoints : EndpointSnapshot CH;
  (** the sessions of the health checker, when there is one *)
  HealthCheck : option (gmap string EndpointChecker);
}.
Arguments mkCluster {CH} _ _ _ _ _ _.
Arguments config {CH} _.
Arguments configID {CH} _.
Arguments roundRobinCursor {CH} _.
Arguments acceptHealthEvents {CH} _.
Arguments endpoints {CH} _.
Arguments HealthCheck {CH} _.

Section cluster.
Context {CH : Type} (InitMap : string → option (ConsistentHash → list Endpoint → CH)).
Implicit Types (c : Cluster CH) (cfg : ClusterConfig) (e : Endpoint).

Definition has_checks cfg : bool := match HealthChecks cfg with [] => false | _ => true end.

(** ** Operations *)

Definition NewClusterWithEndpointSnapshot cfg (previous : option (EndpointSnapshot CH)) : Cluster CH :=
  mkCluster cfg (ConfigID cfg) 0 true
    (newEndpointSnapshot InitMap (Some cfg) previous (has_checks cfg))
    (if has_checks cfg then Some (Start ∅ (Endpoints cfg)) else None).

Definition set_snapshot c (s : EndpointSnapshot CH) : Cluster CH :=
  mkCluster (config c) (configID c) (roundRobinCursor c) (acceptHealthEvents c) s (HealthCheck c).
Definition set_checkers c (k : option (gmap string EndpointChecker)) : Cluster CH :=
  mkCluster (config c) (configID c) (roundRobinCursor c) (acceptHealthEvents c) (endpoints c) k.

(** [Cluster.Stop] *)
Definition Cluster_Stop c : Cluster CH := set_checkers c (Stop <$> HealthCheck c).

Definition RemoveEndpoint c e : Cluster CH :=
  set_checkers c ((λ k, stopCheck (Endpoints (config c)) k (Some e)) <$> HealthCheck c).

Definition AddEndpoint c e : Cluster CH :=
  set_checkers c ((λ k, startCheck k (Some e)) <$> HealthCheck c).

(** [RefreshEndpoints]; the source of [RefreshEndpointsFrom] is the published
    snapshot whenever there is one. *)
Definition RefreshEndpoints c : Cluster CH :=
  set_snapshot c (newEndpointSnapshot InitMap (Some (config c)) (Some (endpoints c)) (has_checks (config c))).

Definition UpdateEndpointHealth c (id address : string) (h : bool) : Cluster CH * bool :=
  if acceptHealthEvents c then
    match withEndpointHealth (endpoints c) id address h with
    | None => (c, false)
    | Some next => (set_snapshot c next, true)
    end
  else (c, false).

Definition UpdateEndpointAddressHealth c (address : string) (h : bool) : Cluster CH * bool :=
  if acceptHealthEvents c then
    match withEndpointAddressHealth (endpoints c) address h with
    | None => (c, false)
    | Some next => (set_snapshot c next, true)
    end
  else (c, false).

(** A verdict of a checker reaches the cluster by the checker's address. *)
Definition handleEndpointHealth c (k : EndpointChecker) (h : bool) : Cluster CH :=
  (UpdateEndpointAddressHealth c (endpointAddr k) h).1.

Definition SnapshotForRuntimeReplacement c : EndpointSnapshot CH * Cluster CH :=
  (endpoints c,
   mkCluster (config c) (configID c) (roundRobinCursor c) false (endpoints c) (HealthCheck c)).

Definition SyncConfigEndpoints c (es : list (option Endpoint)) : Cluster CH :=
  mkCluster (set_Endpoints (config c) es) (configID c) (roundRobinCursor c) (acceptHealthEvents c)
    (endpoints c) (HealthCheck c).

Definition ConfigIsIdenticalTo c cfg : bool := bool_decide (configID c = ConfigID cfg).

Definition CarryOverCursorTo c (target : Cluster CH) : Cluster CH :=
  mkCluster (config target) (configID target) (roundRobinCursor c) (acceptHealthEvents target)
    (endpoints target) (HealthCheck target).

(** [CloneClusterConfig] is the identity on values: [clone := *c] copies every
    field, the legacy cursor [PrePickEndpointIndex] included. *)
Definition CloneClusterConfig cfg : ClusterConfig := cfg.

(** ** Invariant *)

(** The snapshot is well-formed and has the endpoints of the configuration; a
    running health checker has one session per address. *)
Record cluster_ok c : Prop := {
  ok_snapshot : snapshot_wf InitMap (endpoints c);
  ok_assigned : endpoints_assigned (Endpoints (config c));
  ok_members : Forall2 (λ e0 e, e = set_UnHealthy e0 (UnHealthy e)) (omap id (Endpoints (config c))) (all (endpoints c));
  ok_checkers k : HealthCheck c = Some k → checkers_match (Endpoints (config c)) k;
}.

(** With assigned identities a snapshot differs from the configuration in the
    health flags only. *)
Lemma image_assigned cfg previous inherit :
  endpoints_assigned (Endpoints cfg) →
  Forall2 (λ e0 e, e = set_UnHealthy e0 (UnHealthy e)) (omap id (Endpoints cfg))
    (all (newEndpointSnapshot InitMap (Some cfg) previous inherit)).
Proof.
  intros Ha. pose proof (newEndpointSnapshot_image InitMap cfg previous inherit) as Hi.
  pose proof (newEndpointSnapshot_ids InitMap cfg previous inherit Ha) as Hids.
  revert Hids Hi. generalize (all (newEndpointSnapshot InitMap (Some cfg) previous inherit)).
  generalize (omap id (Endpoints cfg)). clear Ha. intros l1 l2 Hids Hi.
  induction Hi as [|e0 e l1 l2 He Hi IH]; [done|]. simpl in Hids. injection Hids as Heq Hids.
  constructor; [|by apply IH]. unfold snapshot_image in He. rewrite Heq in He.
  rewrite He. by destruct e0.
Qed.

Lemma New_ok cfg previous :
  factories_read_hosts InitMap → (∀ p, previous = Some p → snapshot_wf InitMap p) →
  endpoints_assigned (Endpoints cfg) → cluster_ok (NewClusterWithEndpointSnapshot cfg previous).
Proof.
  intros Hf Hp Ha. split; simpl; [by apply newEndpointSnapshot_wf|done|by apply image_assigned|].
  intros k. destruct (has_checks cfg); [|done]. intros [= <-].
  apply (Start_match (Endpoints cfg) ∅ []). split; [|done]. intros a. rewrite dom_empty. set_solver.
Qed.

(** Replacing the endpoints of a runtime: synchronise, then refresh. *)
Lemma sync_refresh_ok c es k' :
  factories_read_hosts InitMap → cluster_ok c → endpoints_assigned es →
  (∀ k, HealthCheck c = Some k → checkers_match es k) →
  k' = HealthCheck c →
  cluster_ok (set_checkers (RefreshEndpoints (SyncConfigEndpoints c es)) k').
Proof.
  intros Hf [Hs Ha Hm Hk] Hes Hck ->. split; simpl; [|done|by apply (image_assigned (set_Endpoints (config c) es))|done].
  apply newEndpointSnapshot_wf; [done|]. by intros p [= <-].
Qed.

Lemma members_update_health (l0 l l' : list Endpoint) (f : Endpoint → bool) (h : bool) :
  Forall2 (λ e0 e, e = set_UnHealthy e0 (UnHealthy e)) l0 l →
  l' = map (λ e, if f e then set_UnHealthy e (negb h) else e) l →
  Forall2 (λ e0 e, e = set_UnHealthy e0 (UnHealthy e)) l0 l'.
Proof.
  intros H ->. induction H as [|e0 e l0 l He H IH]; simpl; constructor; [|done].
  destruct (f e); [|done]. by rewrite He.
Qed.

Lemma UpdateEndpointAddressHealth_ok c a h :
  cluster_ok c → cluster_ok (UpdateEndpointAddressHealth c a h).1.
Proof.
  intros [Hs Ha Hm Hk]. unfold UpdateEndpointAddressHealth. destruct (acceptHealthEvents c); [|done].
  pose proof (withEndpointAddressHealth_spec InitMap (endpoints c) a h Hs) as Hspec.
  destruct (withEndpointAddressHealth (endpoints c) a h) as [s'|]; [|done].
  destruct Hspec as (Hs' & _ & Hall). split; simpl; [done|done| |done].
  eapply (members_update_health _ _ _ (λ e, bool_decide (address_of e = a)) h Hm).
  rewrite Hall. apply map_ext. intros e. by case_decide; case_bool_decide.
Qed.

(** The flags of the configuration do not follow the runtime. *)
Lemma frozen_drops_events c a h :
  let c' := (SnapshotForRuntimeReplacement c).2 in
  UpdateEndpointAddressHealth c' a h = (c', false).
Proof. done. Qed.

End cluster.
