(* ===== verification/ClusterStore.v ===== *)
(** * The cluster store, [ClusterStore] of [pkg/server/cluster_manager.go]

    The store keeps the configurations in order and one runtime cluster per
    name.  Runtimes are objects with an identity: they live in a heap and the
    store holds pointers, so that a theorem can say which runtimes are still
    running.  A configuration is designated by its position in the store. *)

From S2P Require Import Prelude GoStrings Sha256 Endpoint Snapshot Health Cluster.

(** The heap of runtimes and the package variables [configIDSeq] and
    [clusterIndex]. *)
Record World (CH : Type) : Type := mkWorld {
  heap : gmap nat (Cluster CH);
  nextPtr : nat;
  configIDSeq : Z;
  clusterIndex : Z;
}.
Arguments mkWorld {CH} _ _ _ _.
Arguments heap {CH} _.
Arguments nextPtr {CH} _.
Arguments configIDSeq {CH} _.
Arguments clusterIndex {CH} _.

Record ClusterStore : Type := mkClusterStore {
  Config : list ClusterConfig;
  Version : Z;
  clustersMap : gmap string nat;
}.

(** ** Decisions about an incoming endpoint *)

Inductive setEndpointAction : Type :=
  | setEndpointIdempotent
  | setEndpointReplace (replaceIdx : nat)
  | setEndpointAppend.

Definition resolveSetEndpointSlotByID (incoming : Endpoint) (existing : list (option Endpoint))
    : string * setEndpointAction :=
  match list_find (λ o, EID <$> o = Some (EID incoming)) existing with
  | Some (i, Some e) =>
      (EID incoming, if endpointContentEqualForSet e incoming then setEndpointIdempotent else setEndpointReplace i)
  | _ => (EID incoming, setEndpointAppend)
  end.

Definition existingEndpointIDs (es : list (option Endpoint)) : gset string :=
  list_to_set (filter (λ id, id ≠ "") (map EID (omap id es))).

Definition resolveSetEndpointSlotByHash (clusterName : string) (incoming : Endpoint)
    (existing : list (option Endpoint)) : string * setEndpointAction :=
  let incomingHash := GenerateEndpointID clusterName (Some incoming) in
  match first_such (λ e, bool_decide (GenerateEndpointID clusterName (Some e) = incomingHash)) (omap id existing) with
  | Some e =>
      if endpointContentEqualForSet e incoming then (EID e, setEndpointIdempotent)
      else (StableUniqueEndpointID clusterName (Some incoming) (existingEndpointIDs existing), setEndpointAppend)
  | None => (incomingHash, setEndpointAppend)
  end.

Definition resolveSetEndpointSlot (clusterName : string) (incoming : Endpoint)
    (existing : list (option Endpoint)) : string * setEndpointAction :=
  if decide (EID incoming = "") then resolveSetEndpointSlotByHash clusterName incoming existing
  else resolveSetEndpointSlotByID incoming existing.

(** ** Endpoint defaults *)

Definition default_name (i : nat) (e : Endpoint) : Endpoint :=
  if decide (EName e = "") then
    match ELLMMeta e with
    | Some m => set_EName e ("endpoint-" +:+ pretty (S i) +:+ "#" +:+ Provider m)
    | None => set_EName e ("endpoint-" +:+ pretty (S i))
    end
  else e.

Fixpoint assemble (name : string) (i : nat) (endpointIDs : gset string) (es : list (option Endpoint))
    : list (option Endpoint) :=
  match es with
  | [] => []
  | None :: es => None :: assemble name (S i) endpointIDs es
  | Some e :: es =>
      let e :=
        if decide (EID e = "") then set_EID e (StableUniqueEndpointID name (Some e) endpointIDs)
        else if decide (EID e ∈ endpointIDs)
        then set_EID e (StableUniqueEndpointID name (Some e) endpointIDs)
        else e in
      Some (default_name i e) :: assemble name (S i) ({[EID e]} ∪ endpointIDs) es
  end.

Definition assembleClusterEndpoints (c : ClusterConfig) : ClusterConfig :=
  set_Endpoints c (assemble (CName c) 0 ∅ (Endpoints c)).

Definition set_ConfigID (c : ClusterConfig) (id : Z) : ClusterConfig :=
  mkClusterConfig (CName c) (LbStr c) (CConsistentHash c) (HealthChecks c) (Endpoints c)
    (PrePickEndpointIndex c) id.
Definition set_CName (c : ClusterConfig) (n : string) : ClusterConfig :=
  mkClusterConfig n (LbStr c) (CConsistentHash c) (HealthChecks c) (Endpoints c)
    (PrePickEndpointIndex c) (ConfigID c).

Section store.
Context {CH : Type} (InitMap : string → option (ConsistentHash → list Endpoint → CH)).
Implicit Types (w : World CH) (s : ClusterStore) (c : ClusterConfig) (e : Endpoint) (p : nat).

Definition set_heap w (h : gmap nat (Cluster CH)) : World CH :=
  mkWorld h (nextPtr w) (configIDSeq w) (clusterIndex w).
Definition alter_runtime w p (f : Cluster CH → Cluster CH) : World CH := set_heap w (alter f p (heap w)).

Definition set_Config s (cfgs : list ClusterConfig) : ClusterStore := mkClusterStore cfgs (Version s) (clustersMap s).
Definition set_clustersMap s (m : gmap string nat) : ClusterStore := mkClusterStore (Config s) (Version s) m.

Definition IncreaseVersion s : ClusterStore :=
  mkClusterStore (Config s) (sint32 (Version s + 1)) (clustersMap s).

(** The consistent hash kept in a configuration serves the legacy pick path
    only and is not modelled. *)
Definition prepareOwnedClusterConfig w c : World CH * ClusterConfig :=
  let '(w, c) :=
    if decide (ConfigID c = 0%Z) then
      let n := wrap64 (configIDSeq w + 1) in
      (mkWorld (heap w) (nextPtr w) n (clusterIndex w), set_ConfigID c n)
    else (w, c) in
  (w, assembleClusterEndpoints c).

Definition prepareClusterConfig w c : World CH * ClusterConfig := prepareOwnedClusterConfig w c.

(** ** Runtimes *)

Definition snapshotForRuntimeReplacement w (old : gmap string nat) (name : string)
    : World CH * option (EndpointSnapshot CH) :=
  match old !! name with
  | Some p =>
      match heap w !! p with
      | Some rt =>
          let '(snap, rt) := SnapshotForRuntimeReplacement rt in
          (set_heap w (<[p := rt]> (heap w)), Some snap)
      | None => (w, None)
      end
  | None => (w, None)
  end.

Definition replaceClusterRuntimeWithSnapshot w s (name : string) c (previous : option (EndpointSnapshot CH))
    : World CH * ClusterStore * option nat :=
  let oldRuntime := clustersMap s !! name in
  let rt := NewClusterWithEndpointSnapshot InitMap (CloneClusterConfig c) previous in
  let p := nextPtr w in
  (mkWorld (<[p := rt]> (heap w)) (S p) (configIDSeq w) (clusterIndex w),
   set_clustersMap s (<[name := p]> (clustersMap s)), oldRuntime).

Definition replaceClusterRuntime w s (name : string) c : World CH * ClusterStore * option nat :=
  let '(w, previous) := snapshotForRuntimeReplacement w (clustersMap s) name in
  replaceClusterRuntimeWithSnapshot w s name c previous.

(** [stopClusters]: nil pointers are skipped and a pointer is stopped once. *)
Fixpoint stop_from (stopped : gset nat) w (ps : list (option nat)) : World CH :=
  match ps with
  | [] => w
  | None :: ps => stop_from stopped w ps
  | Some p :: ps =>
      if decide (p ∈ stopped) then stop_from stopped w ps
      else stop_from ({[p]} ∪ stopped) (alter_runtime w p Cluster_Stop) ps
  end.
Definition stopClusters w (ps : list (option nat)) : World CH := stop_from ∅ w ps.

(** ** Operations *)

Definition findClusterConfig s (name : string) : option (nat * ClusterConfig) :=
  list_find (λ c, CName c = name) (Config s).

Definition HasCluster s (name : string) : bool := existsb (λ c, bool_decide (CName c = name)) (Config s).

Definition AddCluster w s c : World CH * ClusterStore :=
  let '(w, c) :=
    if decide (CName c = "") then
      (mkWorld (heap w) (nextPtr w) (configIDSeq w) (sint32 (clusterIndex w + 1)),
       set_CName c ("cluster-" +:+ pretty (clusterIndex w)))
    else (w, c) in
  let '(w, c) := prepareClusterConfig w c in
  let s := set_Config s (Config s ++ [c]) in
  let '(w, s, old) := replaceClusterRuntime w s (CName c) c in
  (stopClusters w [old], s).

Definition UpdateCluster w s (new : ClusterConfig) : World CH * ClusterStore :=
  match findClusterConfig s (CName new) with
  | None => (w, s)
  | Some (i, _) =>
      let '(w, new) := prepareClusterConfig w new in
      let oldRuntime := clustersMap s !! CName new in
      let s := set_Config s (<[i := new]> (Config s)) in
      let '(w, s, oldReplaced) := replaceClusterRuntime w s (CName new) new in
      let w :=
        match oldRuntime ≫= (λ p, heap w !! p), clustersMap s !! CName new with
        | Some old, Some newPtr => alter_runtime w newPtr (CarryOverCursorTo old)
        | _, _ => w
        end in
      (stopClusters w [oldReplaced], s)
  end.

(** The runtime of a cluster, rebuilt when it is not the one of the
    configuration. *)
Definition runtime_for w s (name : string) c : World CH * ClusterStore * option nat :=
  let current := clustersMap s !! name ≫= (λ p, heap w !! p) in
  if match current with Some rt => ConfigIsIdenticalTo rt c | None => false end
  then (w, s, clustersMap s !! name)
  else
    let '(w, s, old) := replaceClusterRuntime w s name c in
    (stopClusters w [old], s, clustersMap s !! name).

(** Writing back the endpoints of the configuration at position [i] and
    publishing them on the runtime. *)
Definition publish_endpoints w s (i : nat) c p (es : list (option Endpoint)) : World CH * ClusterStore * ClusterConfig :=
  let '(w, c) := prepareOwnedClusterConfig w (set_Endpoints c es) in
  let s := set_Config s (<[i := c]> (Config s)) in
  let w := alter_runtime w p (λ rt, RefreshEndpoints InitMap (SyncConfigEndpoints rt (Endpoints c))) in
  (w, s, c).

Definition clusterHasEndpointAddress c (address : string) : bool :=
  existsb (λ e, bool_decide (GetAddress (EAddress e) = address)) (omap id (Endpoints c)).

(** The endpoint object at a position after the defaults have been written to
    it. *)
Definition stored c (idx : nat) e : Endpoint :=
  match Endpoints c !! idx with Some (Some e') => e' | _ => e end.

Definition replaceEndpointAt w s (i : nat) c p (idx : nat) (old e : Endpoint) : World CH * ClusterStore * ClusterConfig :=
  let addressChanged := negb (bool_decide (GetAddress (EAddress old) = GetAddress (EAddress e))) in
  let w := if addressChanged then alter_runtime w p (λ rt, RemoveEndpoint rt old) else w in
  let '(w, s, c) := publish_endpoints w s i c p (<[idx := Some e]> (Endpoints c)) in
  let w := if addressChanged then alter_runtime w p (λ rt, AddEndpoint rt (stored c idx e)) else w in
  (w, s, c).

(** The configuration an unknown cluster starts with. *)
Definition fresh_config (name : string) : ClusterConfig :=
  mkClusterConfig name "RoundRobin" (mkConsistentHash 0 0 0) [] [] 0 0.

(** [SetEndpoint] once the configuration at position [i] has been found or
    created; the string is the address that left the cluster, if one did. *)
Definition set_endpoint_at w s (clusterName : string) (i : nat) c e : World CH * ClusterStore * string :=
  let '(w, s, rt) := runtime_for w s clusterName c in
  match rt with
  | None => (w, s, "")
  | Some p =>
      let '(targetID, action) := resolveSetEndpointSlot clusterName e (Endpoints c) in
      let e := set_EID e targetID in
      match action with
      | setEndpointIdempotent => (w, s, "")
      | setEndpointReplace idx =>
          match Endpoints c !! idx with
          | Some (Some old) =>
              let oldAddress := GetAddress (EAddress old) in
              let '(w, s, c) := replaceEndpointAt w s i c p idx old e in
              if negb (bool_decide (oldAddress = GetAddress (EAddress e))) &&
                 negb (clusterHasEndpointAddress c oldAddress)
              then (w, s, oldAddress) else (w, s, "")
          | _ => (w, s, "")
          end
      | setEndpointAppend =>
          let '(w, s, c) := publish_endpoints w s i c p (Endpoints c ++ [Some e]) in
          (alter_runtime w p (λ rt, AddEndpoint rt (stored c (pred (length (Endpoints c))) e)), s, "")
      end
  end.

Definition SetEndpoint w s (clusterName : string) (endpoint : option Endpoint) : World CH * ClusterStore * string :=
  match endpoint with
  | None => (w, s, "")
  | Some e =>
      match findClusterConfig s clusterName with
      | Some (i, c) => set_endpoint_at w s clusterName i c e
      | None =>
          let '(w, s) := AddCluster w s (fresh_config clusterName) in
          match last (Config s) with
          | Some c => set_endpoint_at w s clusterName (pred (length (Config s))) c e
          | None => (w, s, "")
          end
      end
  end.

(** A nil endpoint in front of the one to delete makes the code panic; the model
    steps over it. *)
Definition DeleteEndpoint w s (clusterName endpointID : string) : World CH * ClusterStore :=
  match findClusterConfig s clusterName with
  | None => (w, s)
  | Some (i, c) =>
      let '(w, s, rt) := runtime_for w s clusterName c in
      match rt, list_find (λ o, EID <$> o = Some endpointID) (Endpoints c) with
      | Some p, Some (idx, Some e) =>
          let w := alter_runtime w p (λ rt, RemoveEndpoint rt e) in
          let '(w, s, _) := publish_endpoints w s i c p (delete idx (Endpoints c)) in
          (w, s)
      | _, _ => (w, s)
      end
  end.

End store.

(** ** Assembling endpoints *)

Section assemble.
Implicit Types (e : Endpoint) (es : list (option Endpoint)) (ids : gset string) (name : string).

Lemma suffixed_not_empty b n : suffixed b n ≠ "".
Proof. unfold suffixed. by destruct b. Qed.

Lemma StableUniqueEndpointID_not_empty name e ids : StableUniqueEndpointID name (Some e) ids ≠ "".
Proof.
  unfold StableUniqueEndpointID. cbv zeta.
  assert ((if decide (EID e = "") then GenerateEndpointID name (Some e) else EID e) ≠ "") as Hb.
  { case_decide; [|done]. unfold GenerateEndpointID, generatedEndpointIDPrefix. done. }
  revert Hb. generalize (if decide (EID e = "") then GenerateEndpointID name (Some e) else EID e). intros b Hb.
  case_decide; [|done].
  destruct (free_suffix_least (size ids) b 2 ids) as (j & _ & -> & _). apply suffixed_not_empty.
Qed.

(** The identity an endpoint gets. *)
Definition assigned_id name ids e : string :=
  if decide (EID e = "") then StableUniqueEndpointID name (Some e) ids
  else if decide (EID e ∈ ids) then StableUniqueEndpointID name (Some e) ids else EID e.

Lemma assigned_id_fresh name ids e : (assigned_id name ids e ∉ ids) ∧ assigned_id name ids e ≠ "".
Proof.
  unfold assigned_id. repeat case_decide;
    auto using StableUniqueEndpointID_fresh, StableUniqueEndpointID_not_empty.
Qed.

Lemma default_name_id i e : EID (default_name i e) = EID e.
Proof. unfold default_name. by repeat case_match. Qed.

Lemma default_name_address i e : EAddress (default_name i e) = EAddress e.
Proof. unfold default_name. by repeat case_match. Qed.

Lemma assemble_cons name i ids e es :
  assemble name i ids (Some e :: es) =
    Some (default_name i (set_EID e (assigned_id name ids e))) ::
      assemble name (S i) ({[assigned_id name ids e]} ∪ ids) es.
Proof.
  simpl. unfold assigned_id. repeat case_decide; try done. by destruct e.
Qed.

Lemma assemble_assigned_gen name i ids es :
  let l := map EID (omap (λ o, o) (assemble name i ids es)) in
  NoDup l ∧ ("" ∉ l) ∧ ∀ x, x ∈ l → x ∉ ids.
Proof.
  cbv zeta. revert i ids. induction es as [|[e|] es IH]; intros i ids.
  - simpl. split_and!; [constructor|apply not_elem_of_nil|]. intros x Hx. by apply not_elem_of_nil in Hx.
  - rewrite assemble_cons. simpl. rewrite default_name_id. simpl.
    destruct (assigned_id_fresh name ids e) as [Hf Hne].
    destruct (IH (S i) ({[assigned_id name ids e]} ∪ ids)) as (Hn & He & Hd). split_and!.
    + constructor; [|done]. intros Hx. apply (Hd _ Hx). set_solver.
    + rewrite not_elem_of_cons. auto.
    + intros x [->|Hx]%elem_of_cons; [done|]. specialize (Hd x Hx). set_solver.
  - apply IH.
Qed.

Lemma assemble_assigned name i es : endpoints_assigned (assemble name i ∅ es).
Proof. destruct (assemble_assigned_gen name i ∅ es) as (H1 & H2 & _). by split. Qed.

Lemma assemble_addresses name i ids es : addresses (assemble name i ids es) = addresses es.
Proof.
  revert i ids. induction es as [|[e|] es IH]; intros i ids; [done| |exact (IH _ _)].
  rewrite assemble_cons. unfold addresses in *. simpl. rewrite IH.
  unfold address_of at 1. by rewrite default_name_address.
Qed.

Lemma assemble_length name i ids es : length (assemble name i ids es) = length es.
Proof. revert i ids. induction es as [|[e|] es IH]; intros i ids; simpl; by rewrite ?IH. Qed.

(** Endpoints that have been assembled: identities are distinct and set, names
    are set. *)
Definition assembled es : Prop :=
  endpoints_assigned es ∧ Forall (λ e, EName e ≠ "") (omap (λ o, o) es).

Lemma default_name_named i e : EName (default_name i e) ≠ "".
Proof. unfold default_name. repeat case_match; done. Qed.

Lemma assemble_assembled name i es : assembled (assemble name i ∅ es).
Proof.
  split; [apply assemble_assigned|]. generalize (∅ : gset string). revert i.
  induction es as [|[e|] es IH]; intros i ids; [constructor| |exact (IH _ _)].
  rewrite assemble_cons. simpl. constructor; [apply default_name_named|apply IH].
Qed.

(** Assembling again changes nothing. *)
Lemma assemble_prefix name i ids es1 es2 :
  (∀ x, x ∈ map EID (omap (λ o, o) es1) → x ∉ ids) → assembled es1 →
  assemble name i ids (es1 ++ es2) =
    es1 ++ assemble name (i + length es1) (list_to_set (map EID (omap (λ o, o) es1)) ∪ ids) es2.
Proof.
  revert i ids. induction es1 as [|[e|] es1 IH]; intros i ids Hd [[Hn He] Hname].
  - simpl. rewrite Nat.add_0_r. f_equal. set_solver.
  - simpl in Hd, Hn, He, Hname. apply NoDup_cons in Hn as [Hx Hn]. apply not_elem_of_cons in He as [He0 He].
    apply Forall_cons in Hname as [Hnm Hname].
    change ((Some e :: es1) ++ es2) with (Some e :: (es1 ++ es2)). rewrite assemble_cons.
    assert (assigned_id name ids e = EID e) as ->.
    { unfold assigned_id. rewrite decide_False by congruence. rewrite decide_False; [done|]. apply Hd. constructor. }
    rewrite IH; [|intros y Hy; specialize (Hd y (list_elem_of_further _ _ _ Hy)); set_solver|by split].
    simpl. replace (S (i + length es1)) with (i + S (length es1)) by lia.
    assert (default_name i (set_EID e (EID e)) = e) as ->.
    { unfold default_name; simpl. rewrite decide_False by done. by destruct e. }
    f_equal. f_equal. f_equal. apply set_eq. intros y. rewrite !elem_of_union. tauto.
  - simpl. rewrite IH by done. simpl. by replace (S (i + length es1)) with (i + S (length es1)) by lia.
Qed.

Lemma assemble_id name es : assembled es → assemble name 0 ∅ es = es.
Proof.
  intros H. rewrite <- (app_nil_r es) at 1. rewrite assemble_prefix by (done || set_solver).
  simpl. apply app_nil_r.
Qed.

Lemma assembled_app es1 es2 :
  assembled (es1 ++ es2) ↔ assembled es1 ∧ assembled es2 ∧
    ∀ x, x ∈ map EID (omap (λ o, o) es1) → x ∉ map EID (omap (λ o, o) es2).
Proof.
  unfold assembled, endpoints_assigned, ids_assigned. rewrite !omap_app, !map_app, NoDup_app, Forall_app, not_elem_of_app. tauto.
Qed.

Lemma assigned_id_own name ids e : EID e ≠ "" → EID e ∉ ids → assigned_id name ids e = EID e.
Proof. intros H0 Hn. unfold assigned_id. by rewrite !decide_False. Qed.

Lemma set_EID_same e : set_EID e (EID e) = e.
Proof. by destruct e. Qed.

(** An endpoint with an identity of its own keeps it at the end of the list. *)
Lemma assemble_append name es e :
  assembled es → EID e ≠ "" → EID e ∉ map EID (omap (λ o, o) es) →
  assemble name 0 ∅ (es ++ [Some e]) = es ++ [Some (default_name (length es) e)].
Proof.
  intros Ha H0 Hn. rewrite assemble_prefix by (done || set_solver). f_equal.
  rewrite assemble_cons, assigned_id_own, set_EID_same; [done|done|].
  rewrite elem_of_union, elem_of_list_to_set. set_solver.
Qed.

(** An endpoint put in the place of one with the same identity keeps it, and the
    others are as they were. *)
Lemma assemble_insert name es i old e :
  assembled es → es !! i = Some (Some old) → EID e = EID old →
  assemble name 0 ∅ (<[i := Some e]> es) = <[i := Some (default_name i e)]> es.
Proof.
  intros Ha Hi He. assert (i < length es) as Hlt by (by eapply lookup_lt_Some).
  rewrite !insert_take_drop by done. pose proof (take_drop_middle _ _ _ Hi) as Hes.
  assert (length (take i es) = i) as Hlen by (rewrite length_take; lia).
  revert Ha Hlen. rewrite <- Hes at 1. generalize (take i es) as l1, (drop (S i) es) as l2.
  intros l1 l2 (Ha1 & Ha2 & Hd)%assembled_app Hlen.
  change (Some old :: l2) with ([Some old] ++ l2) in Ha2, Hd.
  apply assembled_app in Ha2 as ([[_ Ho] _] & Ha2 & Hd2). simpl in *.
  apply not_elem_of_cons in Ho as [Ho _].
  rewrite assemble_prefix by (done || set_solver). rewrite Hlen, assemble_cons, assigned_id_own, set_EID_same.
  - do 2 f_equal. rewrite <- (app_nil_r l2) at 1. rewrite assemble_prefix; [by rewrite app_nil_r| |done].
    intros x Hx. rewrite !elem_of_union, elem_of_list_to_set, elem_of_singleton.
    intros [->|[Hx1|Hx1]]; [|by apply (Hd x Hx1), list_elem_of_further|by apply not_elem_of_empty in Hx1].
    apply (Hd2 (EID old)); [constructor|congruence].
  - congruence.
  - rewrite elem_of_union, elem_of_list_to_set, He. intros [Hx|Hx]; [|by apply not_elem_of_empty in Hx].
    apply (Hd _ Hx). constructor.
Qed.

End assemble.
