(* ===== verification/StoreInv.v ===== *)
(** * The invariant of the cluster store

    Every configuration has a running cluster with exactly its endpoints, every
    running cluster belongs to a configuration, and a cluster that was replaced
    or removed runs no health check any more.  Every operation of the store
    keeps this. *)

From S2P Require Import Prelude GoStrings Sha256 Endpoint Snapshot Health Cluster ClusterStore.

Section inv.
Context {CH : Type} (InitMap : string → option (ConsistentHash → list Endpoint → CH))
  (Hhosts : factories_read_hosts InitMap).
Context {P : gset nat}.
Implicit Types (w : World CH) (s : ClusterStore) (c : ClusterConfig) (e : Endpoint) (p : nat)
  (rt : Cluster CH) (es : list (option Endpoint)).

(** A runtime runs a configuration of the store. *)
Record runs c rt : Prop := {
  runs_config : config rt = c;
  runs_id : configID rt = ConfigID c;
  runs_ok : cluster_ok InitMap rt;
  runs_accept : acceptHealthEvents rt = true;
  runs_assembled : assembled (Endpoints c);
  runs_nonzero : ConfigID c ≠ 0%Z;
  runs_checks : HealthCheck rt = None ↔ has_checks c = false;
}.

Definition idle rt : Prop := ∀ k, HealthCheck rt = Some k → k = ∅.

(** The invariant, but for the runtimes in [P], which are yet to be stopped. *)
Record store_but (P : gset nat) w s : Prop := {
  so_names : NoDup (map CName (Config s));
  so_dom name : is_Some (clustersMap s !! name) ↔ name ∈ map CName (Config s);
  so_runs c : c ∈ Config s →
    ∃ p rt, clustersMap s !! CName c = Some p ∧ heap w !! p = Some rt ∧ runs c rt;
  so_inj n1 n2 p : clustersMap s !! n1 = Some p → clustersMap s !! n2 = Some p → n1 = n2;
  so_fresh p : is_Some (heap w !! p) → p < nextPtr w;
  so_idle p rt : heap w !! p = Some rt → (∀ name, clustersMap s !! name ≠ Some p) → p ∉ P → idle rt;
}.
#[local] Abbreviation store_ok := (store_but P).

Lemma empty_store_ok v seq ci : store_ok (mkWorld ∅ 0 seq ci) (mkClusterStore [] v ∅).
Proof.
  split; simpl.
  - constructor.
  - intros name. rewrite lookup_empty. split; [by intros []|by intros ?%not_elem_of_nil].
  - by intros c ?%not_elem_of_nil.
  - by intros n1 n2 p; rewrite lookup_empty.
  - by intros p [? ?]; rewrite lookup_empty in *.
  - by intros p rt; rewrite lookup_empty.
Qed.

(** ** Generic steps *)

Lemma alter_is_insert (f : Cluster CH → Cluster CH) p rt (m : gmap nat (Cluster CH)) :
  m !! p = Some rt → alter f p m = <[p := f rt]> m.
Proof.
  intros Hp. apply map_eq. intros q. rewrite lookup_insert. case_decide as E.
  - subst. by rewrite lookup_alter_eq, Hp.
  - by rewrite lookup_alter_ne.
Qed.

Lemma findClusterConfig_Some s name i c :
  findClusterConfig s name = Some (i, c) → Config s !! i = Some c ∧ CName c = name.
Proof. unfold findClusterConfig. rewrite list_find_Some. tauto. Qed.

Lemma findClusterConfig_None s name : findClusterConfig s name = None → name ∉ map CName (Config s).
Proof.
  unfold findClusterConfig. rewrite list_find_None, Forall_forall.
  intros H (c & -> & Hc)%list_elem_of_fmap. by apply (H c).
Qed.

Lemma lookup_runs w s i c :
  store_ok w s → Config s !! i = Some c →
  ∃ p rt, clustersMap s !! CName c = Some p ∧ heap w !! p = Some rt ∧ runs c rt.
Proof. intros H Hi. apply (so_runs P w s H). by eapply list_elem_of_lookup_2. Qed.

Lemma runtime_for_ok w s name i c :
  store_ok w s → findClusterConfig s name = Some (i, c) →
  ∃ p rt, runtime_for InitMap w s name c = (w, s, Some p) ∧
    clustersMap s !! name = Some p ∧ heap w !! p = Some rt ∧ runs c rt.
Proof.
  intros Hok [Hi Hn]%findClusterConfig_Some. destruct (lookup_runs w s i c Hok Hi) as (p & rt & Hp & Hrt & Hr).
  rewrite Hn in Hp. exists p, rt. split; [|done]. unfold runtime_for. rewrite Hp. simpl. rewrite Hrt.
  unfold ConfigIsIdenticalTo. by rewrite bool_decide_eq_true_2 by apply (runs_id c rt Hr).
Qed.

(** Names are distinct, so that a configuration of another position has another
    name. *)
Lemma other_position s i j c d :
  NoDup (map CName (Config s)) → Config s !! i = Some c → Config s !! j = Some d → CName c = CName d → i = j.
Proof.
  intros Hn Hi Hj Heq. eapply NoDup_lookup; [exact Hn| |].
  - change (map CName (Config s)) with (CName <$> Config s). by rewrite list_lookup_fmap, Hi.
  - change (map CName (Config s)) with (CName <$> Config s). by rewrite list_lookup_fmap, Hj, Heq.
Qed.

Lemma map_CName_insert s i c c' :
  Config s !! i = Some c → CName c' = CName c → map CName (<[i := c']> (Config s)) = map CName (Config s).
Proof.
  intros Hi Hn. change (CName <$> <[i := c']> (Config s) = CName <$> Config s).
  rewrite list_fmap_insert, Hn. apply list_insert_id. by rewrite list_lookup_fmap, Hi.
Qed.

(** Changing one configuration and its runtime together. *)
Lemma store_ok_update w s i c c' p rt' seq ci :
  store_ok w s → Config s !! i = Some c → clustersMap s !! CName c = Some p →
  CName c' = CName c → runs c' rt' →
  store_ok (mkWorld (<[p := rt']> (heap w)) (nextPtr w) seq ci) (set_Config s (<[i := c']> (Config s))).
Proof.
  intros Hok Hi Hp Hn Hr. destruct (lookup_runs w s i c Hok Hi) as (p0 & rt0 & Hp0 & Hrt0 & _).
  rewrite Hp in Hp0. injection Hp0 as <-. pose proof (map_CName_insert s i c c' Hi Hn) as Hmap.
  destruct Hok as [Hnames Hdom Hruns Hinj Hfresh Hidle].
  split; simpl; rewrite ?Hmap; [done|done| |done| |].
  - intros d (j & Hj)%list_elem_of_lookup_1.
    destruct (decide (i = j)) as [<-|Hij].
    + rewrite list_lookup_insert_eq in Hj by (by eapply lookup_lt_Some). simplify_eq.
      exists p, rt'. rewrite Hn, lookup_insert_eq. done.
    + rewrite list_lookup_insert_ne in Hj by done.
      destruct (Hruns d) as (q & rt & Hq & Hrt & Hrd); [by eapply list_elem_of_lookup_2|].
      exists q, rt. split_and!; [done| |done]. rewrite lookup_insert_ne; [done|].
      intros <-. apply Hij, (other_position s i j c d Hnames Hi Hj). by eapply Hinj.
  - intros q. rewrite lookup_insert. case_decide; [subst; intros _; apply Hfresh; by rewrite Hrt0|apply Hfresh].
  - intros q rt. rewrite lookup_insert. case_decide as E; [|by apply Hidle].
    subst. intros _ Hno. by destruct (Hno (CName c)).
Qed.

(** ** A runtime takes new endpoints *)

Definition with_endpoints rt es (k : option (gmap string EndpointChecker)) : Cluster CH :=
  set_checkers (RefreshEndpoints InitMap (SyncConfigEndpoints rt es)) k.

Lemma with_endpoints_runs c rt es k :
  runs c rt → assembled es → (∀ m, k = Some m → checkers_match es m) → (k = None ↔ HealthCheck rt = None) →
  runs (set_Endpoints c es) (with_endpoints rt es k).
Proof.
  intros [Hc Hid Hok Hac Has Hnz Hch] Hes Hk Hkn. split; simpl; [by rewrite Hc|done| |done|done|done|by rewrite Hkn].
  destruct Hok as [Hs Ha Hm _]. split; simpl; [|by destruct Hes|apply (image_assigned InitMap (set_Endpoints (config rt) es)); by destruct Hes|done].
  apply newEndpointSnapshot_wf; [done|]. by intros q [= <-].
Qed.

Lemma with_endpoints_keep rt es : RefreshEndpoints InitMap (SyncConfigEndpoints rt es) = with_endpoints rt es (HealthCheck rt).
Proof. done. Qed.

(** Checkers when an endpoint is added at the end or at a free position. *)
Lemma checkers_added c rt es1 es2 e :
  runs c rt → Endpoints c = es1 ++ es2 →
  ∀ m, (λ k, startCheck k (Some e)) <$> HealthCheck rt = Some m → checkers_match (es1 ++ Some e :: es2) m.
Proof.
  intros Hr He m. destruct (HealthCheck rt) as [k|] eqn:Ek; [|done]. intros [= <-].
  apply startCheck_match. rewrite <- He, <- (runs_config c rt Hr). by apply (ok_checkers InitMap rt (runs_ok c rt Hr)).
Qed.

Lemma checkers_same_addresses es es' k :
  addresses es = addresses es' → checkers_match es k → checkers_match es' k.
Proof. intros He [H1 H2]. split; [|done]. by rewrite <- He. Qed.

(** Checkers when an endpoint is taken out. *)
Lemma checkers_removed c rt es1 e es2 :
  runs c rt → Endpoints c = es1 ++ Some e :: es2 →
  ∀ m, (λ k, stopCheck (Endpoints (config rt)) k (Some e)) <$> HealthCheck rt = Some m →
  checkers_match (es1 ++ es2) m.
Proof.
  intros Hr He m. destruct (HealthCheck rt) as [k|] eqn:Ek; [|done]. intros [= <-].
  pose proof (runs_config c rt Hr) as Hc. pose proof (ok_checkers InitMap rt (runs_ok c rt Hr) k Ek) as Hk.
  rewrite Hc, He in *. apply stopCheck_match; [|done]. rewrite <- He. by destruct (runs_assembled c rt Hr).
Qed.

Lemma prepareOwned_assembled w c es :
  ConfigID c ≠ 0%Z →
  prepareOwnedClusterConfig w (set_Endpoints c es) =
    (w, set_Endpoints c (assemble (CName c) 0 ∅ es)).
Proof. intros H. unfold prepareOwnedClusterConfig. simpl. by rewrite decide_False. Qed.

(** ** [SetEndpoint] *)

(** What [SetEndpoint] makes of the endpoints of the cluster. *)
Definition set_endpoints (name : string) e es : list (option Endpoint) :=
  let '(targetID, action) := resolveSetEndpointSlot name e es in
  match action with
  | setEndpointIdempotent => es
  | setEndpointReplace idx => assemble name 0 ∅ (<[idx := Some (set_EID e targetID)]> es)
  | setEndpointAppend => assemble name 0 ∅ (es ++ [Some (set_EID e targetID)])
  end.

Lemma resolve_replace name e es id idx :
  resolveSetEndpointSlot name e es = (id, setEndpointReplace idx) →
  id = EID e ∧ EID e ≠ "" ∧ ∃ old, es !! idx = Some (Some old) ∧ EID old = EID e ∧
    endpointContentEqualForSet old e = false.
Proof.
  unfold resolveSetEndpointSlot. case_decide as H0.
  - unfold resolveSetEndpointSlotByHash. cbv zeta. by repeat case_match.
  - unfold resolveSetEndpointSlotByID. destruct (list_find _ es) as [[i [old|]]|] eqn:E; [|done..].
    apply list_find_Some in E as (Hi & Hid & _). simpl in Hid.
    destruct (endpointContentEqualForSet old e) eqn:Ec; [done|]. intros [= <- <-]. naive_solver.
Qed.

Lemma insert_middle {A} (l : list A) i x y :
  l !! i = Some x → l = take i l ++ x :: drop (S i) l ∧ <[i := y]> l = take i l ++ y :: drop (S i) l.
Proof.
  intros Hi. split; [by rewrite take_drop_middle|].
  rewrite insert_take_drop; [done|]. by eapply lookup_lt_Some.
Qed.

(** Replacing an endpoint by one with the same identity keeps the list assigned. *)
Lemma assembled_stored name es i e :
  es !! i = Some (Some e) →
  ∃ e', assemble name 0 ∅ es !! i = Some (Some e') ∧ EAddress e' = EAddress e.
Proof.
  generalize 0 as n, (∅ : gset string) as ids. revert i.
  induction es as [|[x|] es IH]; intros i n ids Hi; [done| |].
  - rewrite assemble_cons. destruct i as [|i]; simpl in *; [|by apply IH].
    simplify_eq. eexists. split; [done|]. by rewrite default_name_address.
  - destruct i as [|i]; simpl in *; [done|]. by apply IH.
Qed.

Lemma stored_address c idx e e0 :
  Endpoints c !! idx = Some (Some e0) → EAddress e0 = EAddress e → EAddress (stored c idx e) = EAddress e.
Proof. intros H He. unfold stored. by rewrite H. Qed.

Lemma startCheck_address es1 es2 k e e' :
  address_of e = address_of e' →
  checkers_match (es1 ++ Some e' :: es2) (startCheck k (Some e')) →
  checkers_match (es1 ++ Some e :: es2) (startCheck k (Some e')).
Proof.
  intros Ha. apply checkers_same_addresses. rewrite !addresses_app. f_equal.
  unfold addresses; simpl. by rewrite Ha.
Qed.

(** Appending, at the level of the runtime. *)
Lemma append_runs c rt e :
  runs c rt →
  let es' := assemble (CName c) 0 ∅ (Endpoints c ++ [Some e]) in
  let c' := set_Endpoints c es' in
  runs c' (AddEndpoint (RefreshEndpoints InitMap (SyncConfigEndpoints rt es')) (stored c' (pred (length es')) e)).
Proof.
  intros Hr. cbv zeta. set (es' := assemble (CName c) 0 ∅ (Endpoints c ++ [Some e])).
  set (e' := stored _ _ e). apply (with_endpoints_runs c rt es' _ Hr); [apply assemble_assembled| |unfold RemoveEndpoint; simpl; by destruct (HealthCheck rt)].
  assert (address_of e' = address_of e) as He'.
  { unfold e', address_of, es'. rewrite assemble_length, length_app. simpl. rewrite Nat.add_1_r. simpl.
    destruct (assembled_stored (CName c) (Endpoints c ++ [Some e]) (length (Endpoints c)) e) as (x & Hx & Hxa).
    { by apply list_lookup_middle. }
    f_equal. eapply stored_address; [exact Hx|done]. }
  intros m Hm. apply (checkers_same_addresses (Endpoints c ++ [Some e'])).
  - unfold es'. rewrite assemble_addresses, !addresses_app. unfold addresses; simpl. by rewrite He'.
  - eapply (checkers_added c rt (Endpoints c) [] e' Hr); [by rewrite app_nil_r|exact Hm].
Qed.

(** Replacing, at the level of the runtime: the address stays. *)
Lemma replace_same_runs c rt idx old e :
  runs c rt → Endpoints c !! idx = Some (Some old) → address_of old = address_of e →
  let es' := assemble (CName c) 0 ∅ (<[idx := Some e]> (Endpoints c)) in
  runs (set_Endpoints c es') (RefreshEndpoints InitMap (SyncConfigEndpoints rt es')).
Proof.
  intros Hr Hi Ha. cbv zeta. rewrite with_endpoints_keep.
  apply (with_endpoints_runs c rt _ _ Hr); [apply assemble_assembled| |unfold RemoveEndpoint; simpl; by destruct (HealthCheck rt)].
  intros m Hm. apply (checkers_same_addresses (Endpoints c)).
  - rewrite assemble_addresses. destruct (insert_middle _ _ _ (Some e) Hi) as [He ->]. rewrite He at 1.
    rewrite !addresses_app. unfold addresses; simpl. by rewrite Ha.
  - rewrite <- (runs_config c rt Hr). by apply (ok_checkers InitMap rt (runs_ok c rt Hr)).
Qed.

(** Replacing when the address changes: the old session goes, a new one comes. *)
Lemma replace_moved_runs c rt idx old e :
  runs c rt → Endpoints c !! idx = Some (Some old) →
  let es' := assemble (CName c) 0 ∅ (<[idx := Some e]> (Endpoints c)) in
  let c' := set_Endpoints c es' in
  runs c' (AddEndpoint (RefreshEndpoints InitMap (SyncConfigEndpoints (RemoveEndpoint rt old) es')) (stored c' idx e)).
Proof.
  intros Hr Hi. cbv zeta. set (es' := assemble (CName c) 0 ∅ (<[idx := Some e]> (Endpoints c))).
  set (e' := stored _ _ e). apply (with_endpoints_runs c rt es' _ Hr); [apply assemble_assembled| |unfold RemoveEndpoint; simpl; by destruct (HealthCheck rt)].
  destruct (insert_middle _ _ _ (Some e) Hi) as [Hes Hins].
  assert (address_of e' = address_of e) as He'.
  { unfold e', address_of, es'.
    destruct (assembled_stored (CName c) (<[idx := Some e]> (Endpoints c)) idx e) as (x & Hx & Hxa).
    { apply list_lookup_insert_eq. by eapply lookup_lt_Some. }
    f_equal. eapply stored_address; [exact Hx|done]. }
  intros m Hm. simpl in Hm.
  destruct (HealthCheck rt) as [k|] eqn:Ek; [|done]. simpl in Hm. injection Hm as <-.
  apply (checkers_same_addresses (take idx (Endpoints c) ++ Some e' :: drop (S idx) (Endpoints c))).
  - unfold es'. rewrite assemble_addresses, Hins, !addresses_app. unfold addresses; simpl. by rewrite He'.
  - apply startCheck_match. apply (checkers_removed c rt _ old _ Hr Hes). by rewrite Ek.
Qed.

(** Deleting, at the level of the runtime. *)
Lemma delete_runs c rt idx e :
  runs c rt → Endpoints c !! idx = Some (Some e) →
  let es' := assemble (CName c) 0 ∅ (delete idx (Endpoints c)) in
  runs (set_Endpoints c es') (RefreshEndpoints InitMap (SyncConfigEndpoints (RemoveEndpoint rt e) es')).
Proof.
  intros Hr Hi. cbv zeta. set (es' := assemble (CName c) 0 ∅ (delete idx (Endpoints c))).
  apply (with_endpoints_runs c rt es' _ Hr); [apply assemble_assembled| |unfold RemoveEndpoint; simpl; by destruct (HealthCheck rt)].
  destruct (insert_middle _ _ _ (Some e) Hi) as [Hes _].
  intros m Hm. apply (checkers_same_addresses (take idx (Endpoints c) ++ drop (S idx) (Endpoints c))).
  - unfold es'. by rewrite assemble_addresses, delete_take_drop.
  - apply (checkers_removed c rt _ e _ Hr Hes m). exact Hm.
Qed.

Lemma alter_runtime_at w p rt (f : Cluster CH → Cluster CH) :
  heap w !! p = Some rt → alter_runtime w p f = set_heap w (<[p := f rt]> (heap w)).
Proof. intros H. unfold alter_runtime. by rewrite (alter_is_insert f p rt). Qed.

Lemma alter_runtime_set w p rt (f : Cluster CH → Cluster CH) :
  alter_runtime (set_heap w (<[p := rt]> (heap w))) p f = set_heap w (<[p := f rt]> (heap w)).
Proof.
  rewrite (alter_runtime_at _ p rt) by apply lookup_insert_eq. unfold set_heap; simpl. by rewrite insert_insert_eq.
Qed.

Lemma publish_endpoints_ok w s i c p es :
  ConfigID c ≠ 0%Z →
  publish_endpoints InitMap w s i c p es =
    (let es' := assemble (CName c) 0 ∅ es in
     (alter_runtime w p (λ rt, RefreshEndpoints InitMap (SyncConfigEndpoints rt es')),
      set_Config s (<[i := set_Endpoints c es']> (Config s)), set_Endpoints c es')).
Proof. intros H. unfold publish_endpoints. by rewrite prepareOwned_assembled. Qed.

Lemma set_Config_id s i c : Config s !! i = Some c → set_Config s (<[i := c]> (Config s)) = s.
Proof. intros H. rewrite list_insert_id by done. by destruct s. Qed.

Lemma set_Endpoints_id c : set_Endpoints c (Endpoints c) = c.
Proof. by destruct c. Qed.

(** The runtime and the configuration that result from setting an endpoint. *)
Lemma set_endpoint_at_shape w s name i c e :
  store_ok w s → findClusterConfig s name = Some (i, c) →
  ∃ p rt' out,
    set_endpoint_at InitMap w s name i c e =
      (set_heap w (<[p := rt']> (heap w)),
       set_Config s (<[i := set_Endpoints c (set_endpoints name e (Endpoints c))]> (Config s)), out) ∧
    clustersMap s !! CName c = Some p ∧ runs (set_Endpoints c (set_endpoints name e (Endpoints c))) rt'.
Proof.
  intros Hok Hf. destruct (runtime_for_ok w s name i c Hok Hf) as (p & rt & Hrf & Hp & Hrt & Hr).
  destruct (findClusterConfig_Some s name i c Hf) as [Hi Hn].
  unfold set_endpoint_at, set_endpoints. rewrite Hrf.
  destruct (resolveSetEndpointSlot name e (Endpoints c)) as [id [|idx|]] eqn:Eres.
  - exists p, rt. eexists. rewrite set_Endpoints_id, (set_Config_id s i c Hi), insert_id by done.
    split_and!; [by destruct w|by rewrite Hn|done].
  - destruct (resolve_replace _ _ _ _ _ Eres) as (-> & _ & old & Hold & _). rewrite Hold.
    unfold replaceEndpointAt. rewrite publish_endpoints_ok by apply (runs_nonzero c rt Hr). cbv zeta. rewrite <- Hn.
    destruct (decide (GetAddress (EAddress old) = GetAddress (EAddress (set_EID e (EID e))))) as [Ha|Ha].
    + rewrite bool_decide_eq_true_2 by done. simpl. rewrite (alter_runtime_at w p rt) by done.
      eexists p, _, _. split_and!; [done|by rewrite Hn|by apply (replace_same_runs c rt idx old)].
    + rewrite bool_decide_eq_false_2 by done. cbn [negb]. rewrite (alter_runtime_at w p rt), !alter_runtime_set by done.
      destruct (clusterHasEndpointAddress _ _); simpl;
        (eexists p, _, _; split_and!; [done|by rewrite Hn|by apply (replace_moved_runs c rt idx old)]).
  - rewrite publish_endpoints_ok by apply (runs_nonzero c rt Hr). cbv zeta.
    rewrite (alter_runtime_at w p rt), alter_runtime_set by done. rewrite <- Hn.
    eexists p, _, _. split_and!; [done|by rewrite Hn|]. by apply append_runs.
Qed.

Lemma set_endpoint_at_ok w s name i c e :
  store_ok w s → findClusterConfig s name = Some (i, c) →
  let '(w', s', _) := set_endpoint_at InitMap w s name i c e in
  store_ok w' s' ∧
  s' = set_Config s (<[i := set_Endpoints c (set_endpoints name e (Endpoints c))]> (Config s)) ∧
  nextPtr w' = nextPtr w ∧ configIDSeq w' = configIDSeq w.
Proof.
  intros Hok Hf. destruct (findClusterConfig_Some s name i c Hf) as [Hi Hn].
  destruct (set_endpoint_at_shape w s name i c e Hok Hf) as (p & rt' & out & -> & Hp & Hr).
  split_and!; [|done..]. by apply (store_ok_update w s i c).
Qed.

Lemma DeleteEndpoint_ok w s name id i c :
  store_ok w s → findClusterConfig s name = Some (i, c) →
  let '(w', s') := DeleteEndpoint InitMap w s name id in
  store_ok w' s' ∧
  s' = match list_find (λ o, EID <$> o = Some id) (Endpoints c) with
       | Some (idx, _) => set_Config s (<[i := set_Endpoints c (assemble name 0 ∅ (delete idx (Endpoints c)))]> (Config s))
       | None => s
       end.
Proof.
  intros Hok Hf. destruct (runtime_for_ok w s name i c Hok Hf) as (p & rt & Hrf & Hp & Hrt & Hr).
  destruct (findClusterConfig_Some s name i c Hf) as [Hi Hn].
  unfold DeleteEndpoint. rewrite Hf, Hrf.
  destruct (list_find _ (Endpoints c)) as [[idx [e|]]|] eqn:El; [| |done].
  - apply list_find_Some in El as (Hidx & _).
    rewrite publish_endpoints_ok by apply (runs_nonzero c rt Hr). cbv zeta.
    rewrite (alter_runtime_at w p rt), alter_runtime_set by done. rewrite <- Hn. split; [|done].
    apply (store_ok_update w s i c); [done|done|by rewrite Hn|done|]. by apply delete_runs.
  - apply list_find_Some in El as (_ & Hx & _). done.
Qed.

(** ** Adding and replacing clusters *)

Lemma new_runs c previous :
  (∀ q, previous = Some q → snapshot_wf InitMap q) → assembled (Endpoints c) → ConfigID c ≠ 0%Z →
  runs c (NewClusterWithEndpointSnapshot InitMap c previous).
Proof.
  intros Hp Ha Hid. split; try done.
  - apply New_ok; [done|done|]. by destruct Ha.
  - simpl. by destruct (has_checks c).
Qed.

Lemma CarryOver_runs c rt rt0 : runs c rt → runs c (CarryOverCursorTo rt0 rt).
Proof. intros [H1 H2 [H3 H4 H5 H6] H7 H8 H9 H10]. by split. Qed.

Definition seq_ok w : Prop := (0 ≤ configIDSeq w < 2 ^ 64 - 1)%Z.

Lemma prepare_spec w c :
  seq_ok w →
  let '(w', c') := prepareClusterConfig w c in
  heap w' = heap w ∧ nextPtr w' = nextPtr w ∧ CName c' = CName c ∧ assembled (Endpoints c') ∧
  ConfigID c' ≠ 0%Z ∧ Endpoints c' = assemble (CName c) 0 ∅ (Endpoints c) ∧ HealthChecks c' = HealthChecks c.
Proof.
  intros Hs. unfold prepareClusterConfig, prepareOwnedClusterConfig. case_decide as E; simpl;
    split_and!; try done; try apply assemble_assembled.
  rewrite wrap64_small; unfold seq_ok in Hs; lia.
Qed.

Lemma store_ok_add w s c rt seq ci :
  store_but P w s → CName c ∉ map CName (Config s) → runs c rt →
  store_but P (mkWorld (<[nextPtr w := rt]> (heap w)) (S (nextPtr w)) seq ci)
    (mkClusterStore (Config s ++ [c]) (Version s) (<[CName c := nextPtr w]> (clustersMap s))).
Proof.
  intros [Hnames Hdom Hruns Hinj Hfresh Hidle] Hn Hr.
  assert (∀ rt0, heap w !! nextPtr w ≠ Some rt0) as Hnew.
  { intros rt0 H. assert (nextPtr w < nextPtr w); [|lia]. apply Hfresh. by exists rt0. }
  assert (∀ name, clustersMap s !! name = Some (nextPtr w) → False) as Hnot.
  { intros name Hp. assert (name ∈ map CName (Config s)) as (d & -> & Hd)%list_elem_of_fmap by (apply Hdom; by eexists).
    destruct (Hruns d Hd) as (p & rt0 & Hp' & Hrt & _). simplify_eq. by apply (Hnew rt0). }
  split; simpl.
  - rewrite map_app. apply NoDup_app. split_and!; [done| |apply NoDup_singleton].
    intros x Hx ->%list_elem_of_singleton. done.
  - intros name. rewrite map_app, elem_of_app, lookup_insert. cbn [map]. rewrite list_elem_of_singleton.
    case_decide as E; [split; [naive_solver|by eexists]|]. rewrite Hdom. naive_solver.
  - intros d [Hd|Hd]%elem_of_app; [|apply list_elem_of_singleton in Hd as ->].
    + destruct (Hruns d Hd) as (p & rt0 & Hp & Hrt & Hr0). exists p, rt0.
      rewrite !lookup_insert_ne; [done|intros <-; by apply (Hnew rt0)|].
      intros Heq. apply Hn. rewrite Heq. by apply (list_elem_of_fmap_2 CName).
    + exists (nextPtr w), rt. by rewrite !lookup_insert_eq.
  - intros n1 n2 p. rewrite !lookup_insert. repeat case_decide; subst; naive_solver.
  - intros p. rewrite lookup_insert. case_decide; [subst; lia|]. intros Hp. specialize (Hfresh p Hp). lia.
  - intros p rt0. rewrite lookup_insert. case_decide as E.
    + subst. intros _ Hno. specialize (Hno (CName c)). by rewrite lookup_insert_eq in Hno.
    + intros Hp Hno HP. apply (Hidle p rt0 Hp); [|done]. intros name Hname. apply (Hno name).
      rewrite lookup_insert_ne; [done|]. intros <-. apply Hn, Hdom. by eexists.
Qed.

Lemma AddCluster_ok w s c :
  store_ok w s → seq_ok w → CName c ≠ "" → CName c ∉ map CName (Config s) →
  let '(w', s') := AddCluster InitMap w s c in
  store_ok w' s' ∧ ∃ c', Config s' = Config s ++ [c'] ∧ CName c' = CName c ∧
    Endpoints c' = assemble (CName c) 0 ∅ (Endpoints c) ∧ Version s' = Version s ∧ nextPtr w' = S (nextPtr w).
Proof.
  intros Hok Hseq Hne Hn. unfold AddCluster. rewrite decide_False by done.
  pose proof (prepare_spec w c Hseq) as Hprep. destruct (prepareClusterConfig w c) as [w1 c1].
  destruct Hprep as (Hheap & Hnext & Hname & Has & Hid & Hes & _).
  assert (clustersMap s !! CName c1 = None) as Hnone.
  { destruct (clustersMap s !! CName c1) eqn:E; [|done]. exfalso. apply Hn. rewrite <- Hname.
    apply (so_dom P w s Hok). by eexists. }
  unfold replaceClusterRuntime, snapshotForRuntimeReplacement, replaceClusterRuntimeWithSnapshot. simpl.
  rewrite Hnone. simpl. unfold stopClusters; simpl. split.
  - rewrite Hheap, Hnext. apply (store_ok_add w s c1); [done|by rewrite Hname|]. by apply new_runs.
  - exists c1. by rewrite Hname, Hnext.
Qed.

(** Giving the configuration at a position a new runtime; the old one is idle
    afterwards. *)
Lemma store_ok_replace w w' s i c0 c p0 rt old :
  store_ok w s → Config s !! i = Some c0 → CName c = CName c0 → clustersMap s !! CName c0 = Some p0 →
  runs c rt → idle old →
  nextPtr w' = S (nextPtr w) → heap w' !! nextPtr w = Some rt → heap w' !! p0 = Some old →
  (∀ q, q ≠ nextPtr w → q ≠ p0 → heap w' !! q = heap w !! q) →
  store_ok w' (mkClusterStore (<[i := c]> (Config s)) (Version s) (<[CName c := nextPtr w]> (clustersMap s))).
Proof.
  intros Hok Hi Hn Hp0 Hr Hold Hnext Hnew Hp0' Hrest. pose proof (map_CName_insert s i c0 c Hi Hn) as Hmap.
  destruct (lookup_runs w s i c0 Hok Hi) as (p & rt0 & Hp & Hrt0 & _). simplify_eq.
  destruct Hok as [Hnames Hdom Hruns Hinj Hfresh Hidle].
  assert (p0 < nextPtr w) as Hlt by (apply Hfresh; by eexists).
  assert (∀ name q, clustersMap s !! name = Some q → q < nextPtr w) as Hptr.
  { intros name q Hq. assert (name ∈ map CName (Config s)) as (d & -> & Hd)%list_elem_of_fmap by (apply Hdom; by eexists).
    destruct (Hruns d Hd) as (q' & rt' & Hq' & Hrt' & _). simplify_eq. apply Hfresh. by eexists. }
  split; simpl; rewrite ?Hmap; [done| | | | |].
  - intros name. rewrite lookup_insert. case_decide as E; [|apply Hdom].
    subst name. split; [intros _|by eexists]. rewrite Hn. apply Hdom. by eexists.
  - intros d (j & Hj)%list_elem_of_lookup_1. destruct (decide (i = j)) as [<-|Hij].
    + rewrite list_lookup_insert_eq in Hj by (by eapply lookup_lt_Some). simplify_eq.
      exists (nextPtr w), rt. by rewrite lookup_insert_eq.
    + rewrite list_lookup_insert_ne in Hj by done.
      destruct (Hruns d) as (q & rtd & Hq & Hrt & Hrd); [by eapply list_elem_of_lookup_2|].
      assert (CName d ≠ CName c0) as Hdn.
      { intros Heq. apply Hij, (other_position s i j c0 d Hnames Hi Hj). done. }
      exists q, rtd. rewrite lookup_insert_ne by congruence. split_and!; [done| |done].
      rewrite Hrest; [done|specialize (Hptr _ _ Hq); lia|]. intros ->. by apply Hdn, (Hinj _ _ p0).
  - intros n1 n2 q. rewrite !lookup_insert. repeat case_decide; subst; try done.
    + intros [= <-] Hq. specialize (Hptr _ _ Hq). lia.
    + intros Hq [= <-]. specialize (Hptr _ _ Hq). lia.
    + apply Hinj.
  - intros q Hq. rewrite Hnext. destruct (decide (q = nextPtr w)) as [->|]; [lia|].
    destruct (decide (q = p0)) as [->|]; [lia|]. rewrite Hrest in Hq by done. specialize (Hfresh q Hq). lia.
  - intros q rtq Hq Hno. destruct (decide (q = nextPtr w)) as [->|Hq1].
    { specialize (Hno (CName c)). by rewrite lookup_insert_eq in Hno. }
    destruct (decide (q = p0)) as [->|Hq2]; [by simplify_eq|]. rewrite Hrest in Hq by done.
    apply (Hidle q rtq Hq). intros name Hname. apply (Hno name). rewrite lookup_insert_ne; [done|].
    intros <-. rewrite Hn in Hname. by simplify_eq.
Qed.

Lemma Stop_idle rt : idle (Cluster_Stop rt).
Proof. unfold idle, Cluster_Stop; simpl. destruct (HealthCheck rt); simpl; [|done]. by intros k [= <-]. Qed.

(** Replacing the runtime of a name that has one. *)
Lemma replaceClusterRuntime_shape w s name c p0 rt0 :
  clustersMap s !! name = Some p0 → heap w !! p0 = Some rt0 →
  replaceClusterRuntime InitMap w s name c =
    (mkWorld (<[nextPtr w := NewClusterWithEndpointSnapshot InitMap c (Some (endpoints rt0))]>
        (<[p0 := (SnapshotForRuntimeReplacement rt0).2]> (heap w))) (S (nextPtr w)) (configIDSeq w) (clusterIndex w),
     set_clustersMap s (<[name := nextPtr w]> (clustersMap s)), Some p0).
Proof.
  intros Hp Hrt. unfold replaceClusterRuntime, snapshotForRuntimeReplacement, replaceClusterRuntimeWithSnapshot.
  by rewrite Hp, Hrt.
Qed.

Lemma UpdateCluster_ok w s new i c0 :
  store_ok w s → seq_ok w → findClusterConfig s (CName new) = Some (i, c0) →
  let '(w', s') := UpdateCluster InitMap w s new in
  store_ok w' s' ∧ ∃ c', Config s' = <[i := c']> (Config s) ∧ CName c' = CName new ∧
    Endpoints c' = assemble (CName new) 0 ∅ (Endpoints new) ∧ Version s' = Version s ∧
    ∀ p rt, clustersMap s !! CName new = Some p → heap w !! p = Some rt →
      ∃ p' rt', clustersMap s' !! CName new = Some p' ∧ heap w' !! p' = Some rt' ∧
        roundRobinCursor rt' = roundRobinCursor rt.
Proof.
  intros Hok Hseq Hf. destruct (findClusterConfig_Some _ _ _ _ Hf) as [Hi Hn0].
  unfold UpdateCluster. rewrite Hf.
  pose proof (prepare_spec w new Hseq) as Hprep. destruct (prepareClusterConfig w new) as [w1 c1].
  destruct Hprep as (Hheap & Hnext & Hname & Has & Hid & Hes & _).
  destruct (lookup_runs w s i c0 Hok Hi) as (p0 & rt0 & Hp0 & Hrt0 & Hr0).
  rewrite Hn0 in Hp0. rewrite Hname.
  rewrite (replaceClusterRuntime_shape _ _ _ _ p0 rt0) by (simpl; congruence). simpl.
  assert (p0 ≠ nextPtr w1) as Hne.
  { rewrite Hnext. assert (p0 < nextPtr w); [|lia]. apply (so_fresh P w s Hok). by eexists. }
  rewrite lookup_insert_eq, Hp0. simpl. rewrite lookup_insert_ne, lookup_insert_eq by done.
  unfold stopClusters; simpl. set (wf := alter_runtime _ p0 _).
  assert (heap wf !! nextPtr w = Some (CarryOverCursorTo (SnapshotForRuntimeReplacement rt0).2
    (NewClusterWithEndpointSnapshot InitMap c1 (Some (endpoints rt0))))) as Hnew.
  { unfold wf; simpl. rewrite <- Hnext, lookup_alter_ne, lookup_alter_eq, lookup_insert_eq by done. done. }
  split.
  - rewrite <- Hname, Hnext.
    eapply (store_ok_replace w wf s i c0 c1 p0 _ (Cluster_Stop (SnapshotForRuntimeReplacement rt0).2));
      [done|done|congruence|by rewrite Hn0| |apply Stop_idle|by unfold wf; simpl; rewrite Hnext|exact Hnew| |].
    + apply CarryOver_runs, new_runs; [|done|done]. intros q [= <-]. apply (runs_ok c0 rt0 Hr0).
    + unfold wf; simpl. by rewrite lookup_alter_eq, lookup_alter_ne, lookup_insert_ne, lookup_insert_eq by done.
    + intros q Hq1 Hq2. unfold wf; simpl. rewrite !lookup_alter_ne, !lookup_insert_ne by congruence. by rewrite Hheap.
  - exists c1. split_and!; [done|done|done|done|]. intros p rt Hp Hrt. simplify_eq.
    eexists (nextPtr w), _. split_and!; [simpl; rewrite ?Hnext; by simplify_map_eq|exact Hnew|done].
Qed.

(** ** [SetEndpoint] on a known or a new cluster *)

Definition endpoints_of s (name : string) : option (list (option Endpoint)) :=
  Endpoints ∘ snd <$> findClusterConfig s name.

Lemma find_snoc s c name :
  findClusterConfig (mkClusterStore (Config s ++ [c]) (Version s) (clustersMap s)) name =
    match findClusterConfig s name with
    | Some x => Some x
    | None => if decide (CName c = name) then Some (length (Config s), c) else None
    end.
Proof.
  unfold findClusterConfig; simpl. destruct (list_find (λ d, CName d = name) (Config s)) as [[i d]|] eqn:E.
  - by apply list_find_app_l.
  - rewrite list_find_app_r by done. simpl. case_decide; simpl; by rewrite ?Nat.add_0_r, ?Nat.add_0_l.
Qed.

Lemma find_config_only s1 s2 name : Config s1 = Config s2 → findClusterConfig s1 name = findClusterConfig s2 name.
Proof. unfold findClusterConfig. by intros ->. Qed.

Lemma find_insert s i c c' name :
  NoDup (map CName (Config s)) → Config s !! i = Some c → CName c' = CName c →
  findClusterConfig (set_Config s (<[i := c']> (Config s))) name =
    if decide (CName c = name) then Some (i, c') else findClusterConfig s name.
Proof.
  intros Hnd Hi Hn. unfold findClusterConfig; simpl.
  assert (∀ j d, <[i := c']> (Config s) !! j = Some d → CName d = name →
    ∀ k x, <[i := c']> (Config s) !! k = Some x → CName x = name → j = k) as Huniq.
  { intros j d Hj Hd k x Hk Hx.
    apply (NoDup_lookup (map CName (<[i := c']> (Config s))) j k name).
    - by rewrite (map_CName_insert s i c c').
    - change (map CName ?l) with (CName <$> l). by rewrite list_lookup_fmap, Hj, <- Hd.
    - change (map CName ?l) with (CName <$> l). by rewrite list_lookup_fmap, Hk, <- Hx. }
  destruct (decide (CName c = name)) as [Hc|Hc].
  - apply list_find_Some. assert (<[i := c']> (Config s) !! i = Some c') as Hi'.
    { apply list_lookup_insert_eq. by eapply lookup_lt_Some. }
    split_and!; [done|congruence|]. intros j d Hj Hlt Hd.
    assert (i = j); [|lia]. exact (Huniq i c' Hi' (eq_trans Hn Hc) j d Hj Hd).
  - destruct (list_find (λ d, CName d = name) (Config s)) as [[j d]|] eqn:E.
    + apply list_find_Some in E as (Hj & Hd & Hbefore). apply list_find_Some.
      split_and!; [|done|].
      * rewrite list_lookup_insert_ne; [done|]. intros <-. by simplify_eq.
      * intros k x Hk Hlt. destruct (decide (i = k)) as [<-|Hne].
        { rewrite list_lookup_insert_eq in Hk by (by eapply lookup_lt_Some). simplify_eq. congruence. }
        rewrite list_lookup_insert_ne in Hk by done. by apply (Hbefore k x).
    + apply list_find_None. apply list_find_None in E. rewrite Forall_forall in E |- *.
      intros d (k & Hk)%list_elem_of_lookup_1. destruct (decide (i = k)) as [<-|Hne].
      { rewrite list_lookup_insert_eq in Hk by (by eapply lookup_lt_Some). simplify_eq. congruence. }
      rewrite list_lookup_insert_ne in Hk by done. apply E. by eapply list_elem_of_lookup_2.
Qed.

Lemma set_endpoint_at_endpoints w s name i c e :
  store_ok w s → findClusterConfig s name = Some (i, c) →
  let '(w', s', _) := set_endpoint_at InitMap w s name i c e in
  store_ok w' s' ∧ Version s' = Version s ∧
  ∀ other, endpoints_of s' other =
    if decide (other = name) then Some (set_endpoints name e (Endpoints c)) else endpoints_of s other.
Proof.
  intros Hok Hf. pose proof (set_endpoint_at_ok w s name i c e Hok Hf) as H.
  destruct (findClusterConfig_Some _ _ _ _ Hf) as [Hi Hn].
  destruct (set_endpoint_at InitMap w s name i c e) as [[w' s'] out]. destruct H as (Hok' & -> & _).
  split_and!; [done|done|]. intros other. unfold endpoints_of.
  rewrite (find_insert s i c) by (done || apply (so_names P w s Hok)). rewrite Hn.
  repeat case_decide; subst; done.
Qed.

Lemma SetEndpoint_ok w s name e :
  store_ok w s → seq_ok w → name ≠ "" →
  let '(w', s', _) := SetEndpoint InitMap w s name (Some e) in
  store_ok w' s' ∧ Version s' = Version s ∧
  ∀ other, endpoints_of s' other =
    if decide (other = name) then Some (set_endpoints name e (default [] (endpoints_of s name)))
    else endpoints_of s other.
Proof.
  intros Hok Hseq Hne. unfold SetEndpoint.
  destruct (findClusterConfig s name) as [[i c]|] eqn:Hf.
  - unfold endpoints_of at 2. rewrite Hf. exact (set_endpoint_at_endpoints w s name i c e Hok Hf).
  - pose proof (findClusterConfig_None _ _ Hf) as Hnot.
    pose proof (AddCluster_ok w s (fresh_config name) Hok Hseq Hne Hnot) as Hadd.
    destruct (AddCluster InitMap w s (fresh_config name)) as [w1 s1].
    destruct Hadd as (Hok1 & c' & Hcfg & Hcn & Hes & Hver & _). simpl in Hcn, Hes.
    rewrite Hcfg, last_snoc, length_app. simpl. rewrite Nat.add_1_r. simpl.
    assert (∀ other, findClusterConfig s1 other =
      match findClusterConfig s other with Some x => Some x
      | None => if decide (CName c' = other) then Some (length (Config s), c') else None end) as Hfind.
    { intros other. rewrite <- find_snoc. by apply find_config_only. }
    pose proof (set_endpoint_at_endpoints w1 s1 name (length (Config s)) c' e Hok1) as Hat.
    rewrite Hfind, Hf, decide_True in Hat by done. specialize (Hat eq_refl).
    destruct (set_endpoint_at InitMap w1 s1 name (length (Config s)) c' e) as [[w2 s2] out].
    destruct Hat as (Hok2 & Hver2 & Hother). split_and!; [done|congruence|].
    intros other. rewrite Hother. unfold endpoints_of at 2. rewrite Hf, Hes. simpl.
    case_decide; [done|]. unfold endpoints_of. rewrite Hfind.
    destruct (findClusterConfig s other); [done|]. rewrite decide_False by congruence. done.
Qed.

(** Setting an endpoint touches runtimes of the store only, and new ones. *)
Lemma AddCluster_frame w s c :
  CName c ≠ "" → clustersMap s !! CName c = None →
  let '(w', s') := AddCluster InitMap w s c in
  nextPtr w' = S (nextPtr w) ∧ (∀ q, q ≠ nextPtr w → heap w' !! q = heap w !! q) ∧
  clustersMap s' = <[CName c := nextPtr w]> (clustersMap s).
Proof.
  intros Hne Hnone. unfold AddCluster. rewrite decide_False by done.
  unfold prepareClusterConfig, prepareOwnedClusterConfig.
  unfold replaceClusterRuntime, snapshotForRuntimeReplacement, replaceClusterRuntimeWithSnapshot, stopClusters.
  case_decide; simpl; rewrite Hnone; simpl; rewrite ?Hnone; simpl;
    (split_and!; [done| |done]; intros q Hq; by rewrite lookup_insert_ne).
Qed.

Lemma SetEndpoint_frame w s name e :
  store_ok w s → seq_ok w → name ≠ "" →
  let '(w', s', _) := SetEndpoint InitMap w s name (Some e) in
  nextPtr w ≤ nextPtr w' ∧
  (∀ q, q < nextPtr w → (∀ n, clustersMap s !! n ≠ Some q) → heap w' !! q = heap w !! q) ∧
  (∀ n p, clustersMap s' !! n = Some p → clustersMap s !! n = Some p ∨ nextPtr w ≤ p).
Proof.
  intros Hok Hseq Hne. unfold SetEndpoint. destruct (findClusterConfig s name) as [[i c]|] eqn:Hf.
  - destruct (set_endpoint_at_shape w s name i c e Hok Hf) as (p & rt' & out & -> & Hp & _).
    simpl. split_and!; [done| |by left]. intros q _ Hno. rewrite lookup_insert_ne; [done|]. intros ->. by apply (Hno (CName c)).
  - pose proof (findClusterConfig_None _ _ Hf) as Hnot.
    pose proof (AddCluster_ok w s (fresh_config name) Hok Hseq Hne Hnot) as Hadd.
    assert (clustersMap s !! name = None) as Hnone.
    { destruct (clustersMap s !! name) eqn:E; [|done]. destruct Hnot. apply (so_dom P w s Hok). eauto. }
    pose proof (AddCluster_frame w s (fresh_config name) Hne Hnone) as Hfr.
    destruct (AddCluster InitMap w s (fresh_config name)) as [w1 s1]. destruct Hfr as (Hn & Hh & Hm).
    destruct Hadd as (Hok1 & c' & Hcfg & Hcn & _). simpl in Hcn.
    rewrite Hcfg, last_snoc, length_app. simpl. rewrite Nat.add_1_r. simpl.
    assert (findClusterConfig s1 name = Some (length (Config s), c')) as Hf1.
    { rewrite (find_config_only s1 (mkClusterStore (Config s ++ [c']) (Version s) (clustersMap s))) by done.
      rewrite find_snoc, Hf. by rewrite decide_True. }
    destruct (set_endpoint_at_shape w1 s1 name _ c' e Hok1 Hf1) as (p & rt' & out & -> & Hp & _).
    simpl in *. rewrite Hm in *. rewrite Hcn, lookup_insert_eq in Hp. injection Hp as <-. split_and!; [lia| |].
    + intros q Hq Hno. rewrite lookup_insert_ne by lia. apply Hh. lia.
    + intros n p. rewrite lookup_insert. case_decide; [|by left]. intros [= <-]. right. lia.
Qed.

(** ** What [SetEndpoint] and [DeleteEndpoint] make of the endpoints *)

Definition endpoint_ids es : list string := map EID (omap (λ o, o) es).

Lemma elem_of_endpoint_ids es x : x ∈ endpoint_ids es ↔ ∃ i e, es !! i = Some (Some e) ∧ EID e = x.
Proof.
  unfold endpoint_ids. rewrite list_elem_of_fmap. split.
  - intros (e & -> & (o & Ho & ->)%list_elem_of_omap). apply list_elem_of_lookup_1 in Ho as [i Hi]. eauto.
  - intros (i & e & Hi & <-). exists e. split; [done|]. apply list_elem_of_omap.
    exists (Some e). split; [by eapply list_elem_of_lookup_2|done].
Qed.

(** With distinct identities there is one position per identity. *)
Lemma find_endpoint_unique es i e :
  assembled es → es !! i = Some (Some e) →
  list_find (λ o, EID <$> o = Some (EID e)) es = Some (i, Some e).
Proof.
  intros [[Hn _] _] Hi. apply list_find_Some. split_and!; [done|done|].
  intros j y Hj Hlt Hy. destruct y as [y|]; [|done]. simpl in Hy. injection Hy as Hy.
  rewrite <- (take_drop_middle _ _ _ Hi), omap_app, map_app in Hn.
  apply NoDup_app in Hn as (_ & Hd & _). apply (Hd (EID y)); [|simpl; rewrite Hy; constructor].
  apply list_elem_of_fmap. exists y. split; [done|]. apply list_elem_of_omap. exists (Some y). split; [|done].
  apply list_elem_of_lookup_2 with j. by rewrite lookup_take_lt.
Qed.

Lemma find_endpoint_none es x : x ∉ endpoint_ids es → list_find (λ o, EID <$> o = Some x) es = None.
Proof.
  intros Hx. apply list_find_None, Forall_forall. intros [e|] He; [|done]. simpl. intros [= <-].
  apply Hx, elem_of_endpoint_ids. apply list_elem_of_lookup_1 in He as [i Hi]. eauto.
Qed.

Lemma set_endpoints_new name e es :
  assembled es → EID e ≠ "" → EID e ∉ endpoint_ids es →
  set_endpoints name e es = es ++ [Some (default_name (length es) e)].
Proof.
  intros Ha H0 Hn. unfold set_endpoints, resolveSetEndpointSlot, resolveSetEndpointSlotByID.
  rewrite decide_False, find_endpoint_none, set_EID_same by done. by apply assemble_append.
Qed.

Lemma set_endpoints_known name e es i old :
  assembled es → EID e ≠ "" → es !! i = Some (Some old) → EID old = EID e →
  set_endpoints name e es =
    if endpointContentEqualForSet old e then es else <[i := Some (default_name i e)]> es.
Proof.
  intros Ha H0 Hi Ho. unfold set_endpoints, resolveSetEndpointSlot, resolveSetEndpointSlotByID.
  rewrite decide_False, <- Ho, (find_endpoint_unique es i old) by done.
  destruct (endpointContentEqualForSet old e); [done|]. rewrite Ho, set_EID_same. by eapply assemble_insert.
Qed.

(** Without an identity the endpoint is either found or added with a new one. *)
Lemma set_endpoints_anonymous name e es :
  assembled es → EID e = "" →
  match first_such (λ x, bool_decide (GenerateEndpointID name (Some x) = GenerateEndpointID name (Some e))) (omap id es) with
  | Some x => endpointContentEqualForSet x e = true
  | None => False
  end ∧ set_endpoints name e es = es ∨
  ∃ x, (x ∉ endpoint_ids es) ∧ x ≠ "" ∧
    set_endpoints name e es = es ++ [Some (default_name (length es) (set_EID e x))].
Proof.
  intros Ha H0. unfold set_endpoints, resolveSetEndpointSlot, resolveSetEndpointSlotByHash. rewrite decide_True by done.
  cbv zeta. set (m := first_such _ _).
  assert (∀ y, ∃ x, (x ∉ endpoint_ids es) ∧ x ≠ "" ∧
    assemble name 0 ∅ (es ++ [Some (set_EID e y)]) = es ++ [Some (default_name (length es) (set_EID e x))]) as Happ.
  { intros y. rewrite assemble_prefix, assemble_cons by (done || set_solver).
    match goal with |- context [assigned_id ?n ?ids ?e] => destruct (assigned_id_fresh n ids e) as [Hf Hne]; set (x := assigned_id n ids e) in * end.
    exists x. split_and!; [|done|by destruct e]. intros Hx. apply Hf. rewrite elem_of_union, elem_of_list_to_set. by left. }
  destruct m as [x|]; [|right; apply Happ]. destruct (endpointContentEqualForSet x e) eqn:E; [by left|right; apply Happ].
Qed.

Lemma filter_other_ids es x : x ∉ endpoint_ids es → filter (λ o, EID <$> o ≠ Some x) es = es.
Proof.
  unfold endpoint_ids. induction es as [|[e|] es IH]; intros Hx; [done| |].
  - simpl in Hx. apply not_elem_of_cons in Hx as [Hne Hx].
    rewrite filter_cons_True by (simpl; congruence). by rewrite IH.
  - by rewrite filter_cons_True, IH.
Qed.

Lemma delete_by_id es idx o x :
  assembled es → list_find (λ o, EID <$> o = Some x) es = Some (idx, o) →
  delete idx es = filter (λ o, EID <$> o ≠ Some x) es.
Proof.
  intros Ha (Hi & Hx & _)%list_find_Some. destruct o as [e|]; [|done]. simpl in Hx. injection Hx as <-.
  rewrite delete_take_drop. pose proof (take_drop_middle _ _ _ Hi) as Hes.
  rewrite <- Hes in Ha. rewrite <- Hes at 3.
  apply assembled_app in Ha as (_ & [[Ha _] _] & Hd). simpl in Ha. apply NoDup_cons in Ha as [Ha _].
  rewrite filter_app, filter_cons_False by naive_solver. rewrite !filter_other_ids; [done|done|].
  intros Hin. apply (Hd _ Hin). constructor.
Qed.

Lemma endpoints_of_Some s name es :
  endpoints_of s name = Some es ↔ ∃ i c, findClusterConfig s name = Some (i, c) ∧ Endpoints c = es.
Proof.
  unfold endpoints_of. destruct (findClusterConfig s name) as [[i c]|]; simpl; naive_solver.
Qed.

Lemma endpoints_of_assembled w s name es : store_ok w s → endpoints_of s name = Some es → assembled es.
Proof.
  intros Hok (i & c & [Hi _]%findClusterConfig_Some & <-)%endpoints_of_Some.
  destruct (lookup_runs w s i c Hok Hi) as (p & rt & _ & _ & Hr). apply (runs_assembled c rt Hr).
Qed.

(** [SetEndpoint] and [DeleteEndpoint] on a cluster of the store. *)
Lemma SetEndpoint_known w s name e es :
  store_ok w s → endpoints_of s name = Some es →
  let '(w', s', _) := SetEndpoint InitMap w s name (Some e) in
  store_ok w' s' ∧ Version s' = Version s ∧
  ∀ other, endpoints_of s' other =
    if decide (other = name) then Some (set_endpoints name e es) else endpoints_of s other.
Proof.
  intros Hok (i & c & Hf & <-)%endpoints_of_Some. unfold SetEndpoint. rewrite Hf.
  by apply set_endpoint_at_endpoints.
Qed.

Lemma DeleteEndpoint_known w s name x es :
  store_ok w s → endpoints_of s name = Some es →
  let '(w', s') := DeleteEndpoint InitMap w s name x in
  store_ok w' s' ∧ Version s' = Version s ∧
  ∀ other, endpoints_of s' other =
    if decide (other = name) then Some (filter (λ o, EID <$> o ≠ Some x) es) else endpoints_of s other.
Proof.
  intros Hok Hes. pose proof (endpoints_of_assembled _ _ _ _ Hok Hes) as Ha.
  apply endpoints_of_Some in Hes as (i & c & Hf & <-). destruct (findClusterConfig_Some _ _ _ _ Hf) as [Hi Hn].
  pose proof (DeleteEndpoint_ok w s name x i c Hok Hf) as H.
  destruct (DeleteEndpoint InitMap w s name x) as [w' s']. destruct H as [Hok' ->].
  split; [done|]. destruct (list_find _ (Endpoints c)) as [[idx o]|] eqn:E.
  - split; [done|]. intros other. rewrite (delete_by_id _ _ _ _ Ha E), assemble_id.
    + unfold endpoints_of. rewrite (find_insert s i c) by (done || apply (so_names P w s Hok)). rewrite Hn.
      repeat case_decide; subst; done.
    + rewrite <- (delete_by_id _ _ _ _ Ha E). rewrite delete_take_drop.
      apply list_find_Some in E as (Hidx & _). rewrite <- (take_drop_middle _ _ _ Hidx) in Ha.
      change (o :: ?l) with ([o] ++ l) in Ha. rewrite !assembled_app in Ha. rewrite assembled_app.
      destruct Ha as (H1 & (_ & H2 & _) & Hd). split_and!; [done|done|]. intros y Hy Hy2.
      apply (Hd y Hy). rewrite omap_app, map_app. apply elem_of_app. by right.
  - split; [done|]. intros other. case_decide as Ho; [|done]. subst. unfold endpoints_of. rewrite Hf. simpl. f_equal.
    symmetry. apply filter_other_ids. intros (j & e & Hj & <-)%elem_of_endpoint_ids.
    apply list_find_None in E. rewrite Forall_forall in E. apply (E (Some e)); [by eapply list_elem_of_lookup_2|done].
Qed.

(** ** The contract of [SetEndpoint] *)

(** C9: an endpoint with an identity is upserted: a new identity is appended, a
    known one is replaced in its slot when the content differs and left alone
    when it does not.  Nothing else changes in any cluster, and the runtime
    follows (the store invariant holds again). *)
Theorem set_endpoint_explicit_id w s name e es :
  store_ok w s → endpoints_of s name = Some es → EID e ≠ "" →
  let '(w', s', _) := SetEndpoint InitMap w s name (Some e) in
  store_ok w' s' ∧ (∀ other, other ≠ name → endpoints_of s' other = endpoints_of s other) ∧
  ((EID e ∉ endpoint_ids es) ∧
     endpoints_of s' name = Some (es ++ [Some (default_name (length es) e)]) ∨
   ∃ i old, es !! i = Some (Some old) ∧ EID old = EID e ∧
     endpoints_of s' name =
       Some (if endpointContentEqualForSet old e then es else <[i := Some (default_name i e)]> es)).
Proof.
  intros Hok Hes H0. pose proof (SetEndpoint_known w s name e es Hok Hes) as H.
  pose proof (endpoints_of_assembled w s name es Hok Hes) as Ha.
  destruct (SetEndpoint InitMap w s name (Some e)) as [[w' s'] out]. destruct H as (Hok' & _ & H).
  split_and!; [done|intros other Ho; rewrite H; by rewrite decide_False|]. rewrite H, decide_True by done.
  destruct (decide (EID e ∈ endpoint_ids es)) as [(i & old & Hi & Ho)%elem_of_endpoint_ids|Hn].
  - right. exists i, old. by rewrite (set_endpoints_known name e es i old).
  - left. by rewrite set_endpoints_new.
Qed.

(** An endpoint without identity never disturbs the ones that are there: it
    is either recognised, or appended under an identity nobody has. *)
Theorem set_endpoint_empty_id w s name e es :
  store_ok w s → endpoints_of s name = Some es → EID e = "" →
  let '(w', s', _) := SetEndpoint InitMap w s name (Some e) in
  store_ok w' s' ∧ (∀ other, other ≠ name → endpoints_of s' other = endpoints_of s other) ∧
  ((∃ x, Some x ∈ es ∧ GenerateEndpointID name (Some x) = GenerateEndpointID name (Some e) ∧
      endpointContentEqualForSet x e = true) ∧ endpoints_of s' name = Some es ∨
   ∃ id, (id ∉ endpoint_ids es) ∧ id ≠ "" ∧
     endpoints_of s' name = Some (es ++ [Some (default_name (length es) (set_EID e id))])).
Proof.
  intros Hok Hes H0. pose proof (SetEndpoint_known w s name e es Hok Hes) as H.
  pose proof (endpoints_of_assembled w s name es Hok Hes) as Ha.
  destruct (SetEndpoint InitMap w s name (Some e)) as [[w' s'] out]. destruct H as (Hok' & _ & H).
  split_and!; [done|intros other Ho; rewrite H; by rewrite decide_False|]. rewrite H, decide_True by done.
  destruct (set_endpoints_anonymous name e es Ha H0) as [[Hm Heq]|(x & Hx & Hne & ->)]; [left|right; eauto].
  split; [|by rewrite Heq]. destruct (first_such _ _) as [x|] eqn:E; [|done]. exists x.
  apply first_such_Some in E as (Hx & Hp). apply bool_decide_eq_true_1 in Hp. split_and!; [|done|done].
  apply list_elem_of_omap in Hx as (o & Ho & Hox). unfold id in Hox. by subst.
Qed.

(** The same registration, repeated. *)
Fixpoint replay (n : nat) w s (name : string) e : World CH * ClusterStore :=
  match n with
  | 0 => (w, s)
  | S n => let '(w, s, _) := SetEndpoint InitMap w s name (Some e) in replay n w s name e
  end.

(** When the first endpoint with the hash of an endpoint without identity has
    another content, every repetition of the same registration adds one more
    endpoint. *)
Theorem empty_id_replay_grows n w s name e es old :
  store_ok w s → endpoints_of s name = Some es → EID e = "" →
  first_such (λ x, bool_decide (GenerateEndpointID name (Some x) = GenerateEndpointID name (Some e))) (omap id es) =
    Some old →
  endpointContentEqualForSet old e = false →
  ∃ added, length added = n ∧ endpoints_of (replay n w s name e).2 name = Some (es ++ added).
Proof.
  intros Hok Hes H0 Hold Hc. revert w s es Hok Hes Hold. induction n as [|n IH]; intros w s es Hok Hes Hold; cbn [replay].
  - exists []. by rewrite app_nil_r.
  - pose proof (SetEndpoint_known w s name e es Hok Hes) as H.
    pose proof (endpoints_of_assembled w s name es Hok Hes) as Ha.
    destruct (SetEndpoint InitMap w s name (Some e)) as [[w' s'] out]. destruct H as (Hok' & _ & H).
    specialize (H name). rewrite decide_True in H by done.
    destruct (set_endpoints_anonymous name e es Ha H0) as [[Hm _]|(x & _ & _ & Heq)].
    { rewrite Hold in Hm. congruence. }
    rewrite Heq in H. destruct (IH w' s' _ Hok' H) as (added & Hlen & Hgoal).
    { rewrite omap_app. by apply first_such_app. }
    exists (Some (default_name (length es) (set_EID e x)) :: added). split; [simpl; lia|].
    etransitivity; [exact Hgoal|]. by rewrite <- app_assoc.
Qed.

(** Deleting removes exactly the endpoint with the identity, so that it
    undoes the registration of a new identity; the other clusters are as they
    were. *)
Theorem delete_undoes_set w s name e es :
  store_ok w s → endpoints_of s name = Some es → EID e ≠ "" → EID e ∉ endpoint_ids es →
  let '(w', s', _) := SetEndpoint InitMap w s name (Some e) in
  let '(w'', s'') := DeleteEndpoint InitMap w' s' name (EID e) in
  store_ok w'' s'' ∧ ∀ other, endpoints_of s'' other = endpoints_of s other.
Proof.
  intros Hok Hes H0 Hn. pose proof (SetEndpoint_known w s name e es Hok Hes) as H.
  pose proof (endpoints_of_assembled w s name es Hok Hes) as Ha.
  destruct (SetEndpoint InitMap w s name (Some e)) as [[w' s'] out]. destruct H as (Hok' & _ & H).
  rewrite set_endpoints_new in H by done.
  pose proof (DeleteEndpoint_known w' s' name (EID e) (es ++ [Some (default_name (length es) e)]) Hok') as H2.
  destruct (DeleteEndpoint InitMap w' s' name (EID e)) as [w'' s''].
  destruct H2 as (Hok'' & _ & H2); [rewrite H; by rewrite decide_True|]. split; [done|].
  intros other. rewrite H2, H. case_decide as Ho; [|done]. subst. rewrite Hes. f_equal.
  rewrite filter_app, filter_other_ids, filter_cons_False; [by rewrite app_nil_r| |done].
  simpl. rewrite default_name_id. naive_solver.
Qed.

End inv.

(** ** Witnesses *)

Module store_sample.

(** A store with one cluster of one endpoint. *)
Definition config : ClusterConfig :=
  mkClusterConfig "c" "RingHashing" (mkConsistentHash 0 0 0) [mkHealthCheckConfig "tcp" "" "" "" 1 2 "" None []]
    [Some (sample.endpoint "a" "10.0.0.1" 80 false)] 0 0.

Definition start : World (list string) * ClusterStore :=
  AddCluster sample.InitMap (mkWorld ∅ 0 0 1) (mkClusterStore [] 0 ∅) config.

Lemma start_ok : store_but sample.InitMap ∅ start.1 start.2.
Proof.
  pose proof (AddCluster_ok (P := ∅) sample.InitMap sample.InitMap_hosts (mkWorld ∅ 0 0 1) (mkClusterStore [] 0 ∅) config) as H.
  fold start in H. destruct start as [w s]. apply H; [apply empty_store_ok| |done|apply not_elem_of_nil].
  unfold seq_ok; simpl. lia.
Qed.

Definition tagged (id zone : string) : Endpoint :=
  mkEndpoint id "" (sample.address "10.0.0.1" 80) {["zone" := zone]} false None.

End store_sample.

Definition sample_ids (r : World (list string) * ClusterStore) : option (list string) :=
  endpoint_ids <$> endpoints_of r.2 "c".

Lemma set_endpoint_explicit_id_witness :
  sample_ids (SetEndpoint sample.InitMap store_sample.start.1 store_sample.start.2 "c"
    (Some (store_sample.tagged "b" "z"))).1 = Some ["a"; "b"] ∧
  store_but sample.InitMap ∅
    (SetEndpoint sample.InitMap store_sample.start.1 store_sample.start.2 "c" (Some (store_sample.tagged "b" "z"))).1.1
    (SetEndpoint sample.InitMap store_sample.start.1 store_sample.start.2 "c" (Some (store_sample.tagged "b" "z"))).1.2.
Proof.
  split; [vm_compute; reflexivity|].
  pose proof (set_endpoint_explicit_id sample.InitMap sample.InitMap_hosts store_sample.start.1 store_sample.start.2
    "c" (store_sample.tagged "b" "z") _ store_sample.start_ok eq_refl) as H.
  destruct (SetEndpoint sample.InitMap _ _ _ _) as [[w s] out]. apply H. discriminate.
Defined.

Lemma set_endpoint_empty_id_witness :
  sample_ids (SetEndpoint sample.InitMap store_sample.start.1 store_sample.start.2 "c"
    (Some (sample.endpoint "" "10.0.0.1" 80 true))).1 = Some ["a"] ∧
  store_but sample.InitMap ∅
    (SetEndpoint sample.InitMap store_sample.start.1 store_sample.start.2 "c" (Some (sample.endpoint "" "10.0.0.1" 80 true))).1.1
    (SetEndpoint sample.InitMap store_sample.start.1 store_sample.start.2 "c" (Some (sample.endpoint "" "10.0.0.1" 80 true))).1.2.
Proof.
  split; [vm_compute; reflexivity|].
  pose proof (set_endpoint_empty_id sample.InitMap sample.InitMap_hosts store_sample.start.1 store_sample.start.2
    "c" (sample.endpoint "" "10.0.0.1" 80 true) _ store_sample.start_ok eq_refl) as H.
  destruct (SetEndpoint sample.InitMap _ _ _ _) as [[w s] out]. apply H. reflexivity.
Defined.

Lemma empty_id_replay_grows_witness :
  ∃ es added, length added = 3 ∧
    endpoints_of (replay sample.InitMap 3 store_sample.start.1 store_sample.start.2 "c" (store_sample.tagged "" "b")).2 "c" =
      Some (es ++ added).
Proof.
  eexists. eapply (empty_id_replay_grows sample.InitMap sample.InitMap_hosts 3 store_sample.start.1 store_sample.start.2
    "c" (store_sample.tagged "" "b")).
  - exact store_sample.start_ok.
  - reflexivity.
  - reflexivity.
  - vm_compute. reflexivity.
  - vm_compute. reflexivity.
Defined.

Lemma delete_undoes_set_witness :
  let '(w, s, _) := SetEndpoint sample.InitMap store_sample.start.1 store_sample.start.2 "c" (Some (store_sample.tagged "b" "z")) in
  let '(_, s') := DeleteEndpoint sample.InitMap w s "c" "b" in
  ∀ other, endpoints_of s' other = endpoints_of store_sample.start.2 other.
Proof.
  pose proof (delete_undoes_set sample.InitMap sample.InitMap_hosts store_sample.start.1 store_sample.start.2
    "c" (store_sample.tagged "b" "z") _ store_sample.start_ok eq_refl) as H.
  destruct (SetEndpoint sample.InitMap _ _ _ _) as [[w s] out]. simpl in H.
  destruct (DeleteEndpoint sample.InitMap w s "c" "b") as [w' s']. apply H; [discriminate|].
  apply (bool_decide_unpack _). vm_compute. exact I.
Defined.
