(* ===== verification/ClusterManager.v ===== *)
(** * The cluster manager, [ClusterManager] of [pkg/server/cluster_manager.go]

    Every public operation takes the manager's lock, so that an operation is one
    step here.  The callbacks that are registered for endpoint changes are code
    of the connection managers: the model says which callback is called with
    which arguments, in which order.  The iteration order of a Go map is not
    specified; the model takes the one of [map_to_list] and [elements], and the
    theorems do not depend on it. *)

From stdpp Require Import sorting.
From S2P Require Import Prelude GoStrings Sha256 Endpoint Snapshot Health Cluster ClusterStore StoreInv.

Record endpointStateChange : Type := mkChange {
  changeCluster : string;
  changeAddress : string;
  present : bool;
  changeVersion : Z;
}.

(** A call of a registered callback. *)
Inductive notification : Type :=
  | StateEvent (handler : Z) (clusterName address : string) (present : bool) (version : Z)
  | RemovalEvent (handler : Z) (clusterName address : string).

Record ClusterManager (CH : Type) : Type := mkClusterManager {
  world : World CH;
  store : ClusterStore;
  xdsManaged : gset string;
  endpointRemovalHandlers : gset Z;
  endpointStateHandlers : gset Z;
  nextEndpointHandlerID : Z;
  nextEndpointEventID : Z;
}.
Arguments mkClusterManager {CH} _ _ _ _ _ _ _.
Arguments world {CH} _.
Arguments store {CH} _.
Arguments xdsManaged {CH} _.
Arguments endpointRemovalHandlers {CH} _.
Arguments endpointStateHandlers {CH} _.
Arguments nextEndpointHandlerID {CH} _.
Arguments nextEndpointEventID {CH} _.

Inductive xds_error : Type :=
  | XDSNoName
  | XDSDuplicate (name : string)
  | XDSConflict (name : string).

(** ** Addresses and their changes *)

Definition endpointAddressSnapshot (configs : list (option ClusterConfig)) : gmap string (gset string) :=
  foldl (λ result config,
    match config with
    | None => result
    | Some c => <[CName c := default ∅ (result !! CName c) ∪ list_to_set (addresses (Endpoints c))]> result
    end) ∅ configs.

(** The pairs of the first map that the second does not have. *)
Definition missing (old new : gmap string (gset string)) : list (string * string) :=
  '(n, s) ← map_to_list old;
  pair n <$> filter (λ a, a ∉ default ∅ (new !! n)) (elements s).

Definition endpointStateChanges (old new : gmap string (gset string)) (version : Z) : list endpointStateChange :=
  ((λ '(n, a), mkChange n a false version) <$> missing old new) ++
  ((λ '(n, a), mkChange n a true version) <$> missing new old).

Section manager.
Context {CH : Type} (InitMap : string → option (ConsistentHash → list Endpoint → CH)).
Implicit Types (cm : ClusterManager CH) (w : World CH) (s : ClusterStore) (c : ClusterConfig).

Definition set_store cm w s : ClusterManager CH :=
  mkClusterManager w s (xdsManaged cm) (endpointRemovalHandlers cm) (endpointStateHandlers cm)
    (nextEndpointHandlerID cm) (nextEndpointEventID cm).
Definition set_xdsManaged cm (m : gset string) : ClusterManager CH :=
  mkClusterManager (world cm) (store cm) m (endpointRemovalHandlers cm) (endpointStateHandlers cm)
    (nextEndpointHandlerID cm) (nextEndpointEventID cm).

Definition AddEndpointRemovalHandler cm : ClusterManager CH * Z :=
  let id := wrap64 (nextEndpointHandlerID cm + 1) in
  (mkClusterManager (world cm) (store cm) (xdsManaged cm) ({[id]} ∪ endpointRemovalHandlers cm)
    (endpointStateHandlers cm) id (nextEndpointEventID cm), id).

Definition AddEndpointStateHandler cm : ClusterManager CH * Z :=
  let id := wrap64 (nextEndpointHandlerID cm + 1) in
  (mkClusterManager (world cm) (store cm) (xdsManaged cm) (endpointRemovalHandlers cm)
    ({[id]} ∪ endpointStateHandlers cm) id (nextEndpointEventID cm), id).

(** The functions the two registrations return. *)
Definition unregister_removal cm (id : Z) : ClusterManager CH :=
  mkClusterManager (world cm) (store cm) (xdsManaged cm) (endpointRemovalHandlers cm ∖ {[id]})
    (endpointStateHandlers cm) (nextEndpointHandlerID cm) (nextEndpointEventID cm).
Definition unregister_state cm (id : Z) : ClusterManager CH :=
  mkClusterManager (world cm) (store cm) (xdsManaged cm) (endpointRemovalHandlers cm)
    (endpointStateHandlers cm ∖ {[id]}) (nextEndpointHandlerID cm) (nextEndpointEventID cm).

Definition notifyEndpointChanges cm (changes : list endpointStateChange) : list notification :=
  change ← changes;
  ((λ h, StateEvent h (changeCluster change) (changeAddress change) (present change) (changeVersion change))
     <$> elements (endpointStateHandlers cm)) ++
  (if present change then []
   else (λ h, RemovalEvent h (changeCluster change) (changeAddress change)) <$> elements (endpointRemovalHandlers cm)).

Definition nextEndpointEventIDLocked cm : ClusterManager CH * Z :=
  let id := wrap64 (nextEndpointEventID cm + 1) in
  (mkClusterManager (world cm) (store cm) (xdsManaged cm) (endpointRemovalHandlers cm)
    (endpointStateHandlers cm) (nextEndpointHandlerID cm) id, id).

Definition releaseXDSOwnership cm (name : string) : ClusterManager CH :=
  if decide (name = "") then cm else set_xdsManaged cm (xdsManaged cm ∖ {[name]}).

(** ** Clusters and endpoints

    An operation returns the changes it hands to [notifyEndpointChanges]. *)

(** [newClusterStore] over the clusters of the bootstrap configuration. *)
Fixpoint add_all w s (cs : list ClusterConfig) : World CH * ClusterStore :=
  match cs with
  | [] => (w, s)
  | c :: cs => let '(w, s) := ClusterStore.AddCluster InitMap w s c in add_all w s cs
  end.

Definition CreateDefaultClusterManager w (clusters : list ClusterConfig) : ClusterManager CH :=
  let '(w, s) := add_all w (mkClusterStore [] 0 ∅) clusters in
  mkClusterManager w s ∅ ∅ ∅ 0 0.

(** The configuration is changed in place by the store: the addresses announced
    are those of the one that was appended. *)
Definition AddCluster cm c : ClusterManager CH * list endpointStateChange :=
  let cm := releaseXDSOwnership cm (CName c) in
  let old := endpointAddressSnapshot [] in
  let '(cm, version) := nextEndpointEventIDLocked cm in
  let '(w, s) := ClusterStore.AddCluster InitMap (world cm) (IncreaseVersion (store cm)) c in
  let new := endpointAddressSnapshot [last (Config s)] in
  (set_store cm w s, endpointStateChanges old new version).

Definition UpdateCluster cm (new : ClusterConfig) : ClusterManager CH * list endpointStateChange :=
  let cm := releaseXDSOwnership cm (CName new) in
  let oldConfig := snd <$> findClusterConfig (store cm) (CName new) in
  let old := endpointAddressSnapshot [oldConfig] in
  let newSnapshot := match oldConfig with Some _ => endpointAddressSnapshot [Some new] | None => old end in
  let '(cm, version) := nextEndpointEventIDLocked cm in
  let '(w, s) := ClusterStore.UpdateCluster InitMap (world cm) (IncreaseVersion (store cm)) new in
  (set_store cm w s, endpointStateChanges old newSnapshot version).

Definition UpsertXDSCluster cm (config : option ClusterConfig) : result xds_error (ClusterManager CH) :=
  match config with
  | None => Err XDSNoName
  | Some c =>
      if decide (CName c = "") then Err XDSNoName
      else
        let owned := bool_decide (CName c ∈ xdsManaged cm) in
        if HasCluster (store cm) (CName c) && negb owned then Err (XDSConflict (CName c))
        else
          let s := IncreaseVersion (store cm) in
          if owned then
            let '(w, s) := ClusterStore.UpdateCluster InitMap (world cm) s c in Ok (set_store cm w s)
          else
            let '(w, s) := ClusterStore.AddCluster InitMap (world cm) s c in
            Ok (set_xdsManaged (set_store cm w s) ({[CName c]} ∪ xdsManaged cm))
  end.

Definition cluster_addresses s (name : string) : gmap string (gset string) :=
  endpointAddressSnapshot [snd <$> findClusterConfig s name].

Definition SetEndpoint cm (clusterName : string) (endpoint : option Endpoint)
    : ClusterManager CH * list endpointStateChange :=
  let cm := releaseXDSOwnership cm clusterName in
  let old := cluster_addresses (store cm) clusterName in
  let '(cm, version) := nextEndpointEventIDLocked cm in
  let '(w, s, _) := ClusterStore.SetEndpoint InitMap (world cm) (IncreaseVersion (store cm)) clusterName endpoint in
  (set_store cm w s, endpointStateChanges old (cluster_addresses s clusterName) version).

Definition DeleteEndpoint cm (clusterName endpointID : string) : ClusterManager CH * list endpointStateChange :=
  let cm := releaseXDSOwnership cm clusterName in
  let old := cluster_addresses (store cm) clusterName in
  let '(cm, version) := nextEndpointEventIDLocked cm in
  let '(w, s) := ClusterStore.DeleteEndpoint InitMap (world cm) (IncreaseVersion (store cm)) clusterName endpointID in
  (set_store cm w s, endpointStateChanges old (cluster_addresses s clusterName) version).

(** ** Replacing the clusters of xDS *)

(** The validation loop; the set holds the names accepted so far. *)
Fixpoint validate_xds (staticNames newManaged : gset string) (clusters : list (option ClusterConfig))
    : result xds_error (gset string * list ClusterConfig) :=
  match clusters with
  | [] => Ok (newManaged, [])
  | None :: _ => Err XDSNoName
  | Some c :: clusters =>
      if decide (CName c = "") then Err XDSNoName
      else if decide (CName c ∈ newManaged) then Err (XDSDuplicate (CName c))
      else if decide (CName c ∈ staticNames) then Err (XDSConflict (CName c))
      else
        match validate_xds staticNames ({[CName c]} ∪ newManaged) clusters with
        | Ok (names, cs) => Ok (names, c :: cs)
        | Err e => Err e
        end
  end.

(** The part of the store that xDS does not own. *)
Definition static_part s (owned : gset string) : ClusterStore :=
  mkClusterStore (filter (λ c, CName c ∉ owned) (Config s)) (Version s)
    (filter (λ kv, kv.1 ∈ map CName (filter (λ c, CName c ∉ owned) (Config s))) (clustersMap s)).

(** Runtimes for the new clusters, from the snapshots of the published ones. *)
Fixpoint build_from w (old : gmap string nat) (candidate : ClusterStore) (clusters : list ClusterConfig)
    : World CH * ClusterStore :=
  match clusters with
  | [] => (w, candidate)
  | c :: clusters =>
      let '(w, c) := prepareClusterConfig w c in
      let candidate := set_Config candidate (Config candidate ++ [c]) in
      let '(w, previous) := snapshotForRuntimeReplacement w old (CName c) in
      let '(w, candidate, _) := replaceClusterRuntimeWithSnapshot InitMap w candidate (CName c) c previous in
      build_from w old candidate clusters
  end.

Definition ReplaceXDSClusters cm (clusters : list (option ClusterConfig))
    : result xds_error (ClusterManager CH * list endpointStateChange) :=
  let s := store cm in
  let oldEndpoints := endpointAddressSnapshot (Some <$> Config s) in
  let candidate := static_part s (xdsManaged cm) in
  match validate_xds (list_to_set (map CName (Config candidate))) ∅ clusters with
  | Err e => Err e
  | Ok (newManaged, clusters) =>
      let '(w, candidate) := build_from (world cm) (clustersMap s) candidate clusters in
      let candidate := IncreaseVersion candidate in
      let newEndpoints := endpointAddressSnapshot (Some <$> Config candidate) in
      let '(cm', version) := nextEndpointEventIDLocked cm in
      let replaced := (λ n, clustersMap s !! n) <$> elements (xdsManaged cm) in
      Ok (set_xdsManaged (set_store cm' (stopClusters w replaced) candidate) newManaged,
          endpointStateChanges oldEndpoints newEndpoints version)
  end.

(** ** Swapping the store *)

(** The loop of [ensureRuntimeClusters]: the configurations as they are after
    it, the names seen and the runtimes that were replaced. *)
Fixpoint ensure_runtimes w s (cfgs : list ClusterConfig)
    : World CH * ClusterStore * list ClusterConfig * gset string * list (option nat) :=
  match cfgs with
  | [] => (w, s, [], ∅, [])
  | c :: cfgs =>
      let '(w, c) := prepareClusterConfig w c in
      let current := clustersMap s !! CName c ≫= (λ p, heap w !! p) in
      let '(w, s, old) :=
        if match current with Some rt => ConfigIsIdenticalTo rt c | None => false end then (w, s, None)
        else replaceClusterRuntime InitMap w s (CName c) c in
      let '(w, s, l, names, replaced) := ensure_runtimes w s cfgs in
      (w, s, c :: l, {[CName c]} ∪ names, old :: replaced)
  end.

Definition removeRuntimeClustersNotIn s (names : gset string) : ClusterStore * list (option nat) :=
  (set_clustersMap s (filter (λ kv, kv.1 ∈ names) (clustersMap s)),
   (λ kv, Some kv.2) <$> map_to_list (filter (λ kv, kv.1 ∉ names) (clustersMap s))).

Definition ensureRuntimeClusters w s : World CH * ClusterStore * list (option nat) :=
  let '(w, s', cfgs, names, replaced) := ensure_runtimes w s (Config s) in
  let '(s', dropped) := removeRuntimeClustersNotIn (set_Config s' cfgs) names in
  (w, s', replaced ++ dropped).

Definition repairRuntimeClusterFromPrevious w s (old : gmap string nat) c
    : World CH * ClusterStore * ClusterConfig * option nat :=
  let '(w, c) := prepareClusterConfig w c in
  let '(w, previous) := snapshotForRuntimeReplacement w old (CName c) in
  let current := clustersMap s !! CName c ≫= (λ p, heap w !! p) in
  if match current, previous with Some rt, None => ConfigIsIdenticalTo rt c | _, _ => false end
  then (w, s, c, None)
  else
    let '(w, s, replaced) := replaceClusterRuntimeWithSnapshot InitMap w s (CName c) c previous in
    (w, s, c, replaced).

Fixpoint repair_runtimes w s (old : gmap string nat) (cfgs : list ClusterConfig)
    : World CH * ClusterStore * list ClusterConfig * gset string * list (option nat) :=
  match cfgs with
  | [] => (w, s, [], ∅, [])
  | c :: cfgs =>
      let '(w, s, c, oldRuntime) := repairRuntimeClusterFromPrevious w s old c in
      let '(w, s, l, names, replaced) := repair_runtimes w s old cfgs in
      if decide (CName c = "") then (w, s, c :: l, names, replaced)
      else (w, s, c :: l, {[CName c]} ∪ names, oldRuntime :: replaced)
  end.

(** [ensureRuntimeClustersFrom] for a candidate that is not the store itself. *)
Definition ensureRuntimeClustersFrom w s (old : ClusterStore) : World CH * ClusterStore * list (option nat) :=
  let '(w, s', cfgs, names, replaced) := repair_runtimes w s (clustersMap old) (Config s) in
  let '(s', dropped) := removeRuntimeClustersNotIn (set_Config s' cfgs) names in
  (w, s', replaced ++ dropped).

Definition runtimeClustersNotIn s (next : ClusterStore) : list (option nat) :=
  Some <$> filter (λ p, p ∉ snd <$> map_to_list (clustersMap next)) (snd <$> map_to_list (clustersMap s)).

Definition carry_one (old : ClusterStore) s w c : World CH :=
  match clustersMap s !! CName c, clustersMap old !! CName c ≫= (λ p, heap w !! p) with
  | Some p, Some oldRuntime => alter_runtime w p (CarryOverCursorTo oldRuntime)
  | _, _ => w
  end.

Definition carryOverRuntimeStateFrom w s (old : ClusterStore) : World CH :=
  foldl (carry_one old s) w (Config s).

(** [NewStore] *)
Definition NewStore (version : Z) : ClusterStore := mkClusterStore [] version ∅.

(** The candidate store, or [None] when the published store itself is given. *)
Definition CompareAndSetStore cm (candidate : option ClusterStore)
    : ClusterManager CH * bool * list endpointStateChange :=
  let currentStore := store cm in
  let s := default currentStore candidate in
  if decide (Version s = Version currentStore) then
    let '(cm', version) := nextEndpointEventIDLocked cm in
    let old := endpointAddressSnapshot (Some <$> Config currentStore) in
    let new := endpointAddressSnapshot (Some <$> Config s) in
    let '(w, s', replaced) :=
      match candidate with
      | None => ensureRuntimeClusters (world cm) s
      | Some _ => ensureRuntimeClustersFrom (world cm) s currentStore
      end in
    let currentStore := match candidate with None => s' | Some _ => currentStore end in
    let w := carryOverRuntimeStateFrom w s' currentStore in
    let replaced :=
      match candidate with
      | None => replaced
      | Some _ => replaced ++ runtimeClustersNotIn currentStore s'
      end in
    (set_xdsManaged (set_store cm' (stopClusters w replaced) s') ∅, true, endpointStateChanges old new version)
  else (cm, false, []).

(** ** Removal *)

(** The loops of [removeClustersLocked].  The inner loop looks at every name to
    delete: the second occurrence of a name finds the slot already cleared and
    dereferences nil, which is [None] here. *)
Fixpoint remove_configs w (m : gmap string nat) (names : list string) (cfgs : list ClusterConfig)
    : option (World CH * gmap string nat * list ClusterConfig) :=
  match cfgs with
  | [] => Some (w, m, [])
  | c :: cfgs =>
      match length (filter (λ n, n = CName c) names) with
      | 0 => '(w, m, l) ← remove_configs w m names cfgs; Some (w, m, c :: l)
      | 1 => remove_configs (stopClusters w [m !! CName c]) (delete (CName c) m) names cfgs
      | _ => None
      end
  end.

Definition removeClustersLocked w s (names : list string) : option (World CH * ClusterStore) :=
  '(w, m, l) ← remove_configs w (clustersMap s) names (Config s);
  Some (w, IncreaseVersion (mkClusterStore l (Version s) m)).

Definition RemoveCluster cm (names : list string) : option (ClusterManager CH * list endpointStateChange) :=
  let old := endpointAddressSnapshot (Some <$> Config (store cm)) in
  let '(cm, version) := nextEndpointEventIDLocked cm in
  let cm := foldl releaseXDSOwnership cm names in
  '(w, s) ← removeClustersLocked (world cm) (store cm) names;
  let new := endpointAddressSnapshot (Some <$> Config s) in
  Some (set_store cm w s, endpointStateChanges old new version).

(** The names xDS owns, each taken once, and what it owns afterwards. *)
Fixpoint take_owned (managed : gset string) (names : list string) : list string * gset string :=
  match names with
  | [] => ([], managed)
  | n :: names =>
      if decide (n ∈ managed) then
        let '(owned, managed) := take_owned (managed ∖ {[n]}) names in (n :: owned, managed)
      else take_owned managed names
  end.

Definition RemoveXDSClusters cm (names : list string) : option (ClusterManager CH * list endpointStateChange) :=
  let old := endpointAddressSnapshot (Some <$> Config (store cm)) in
  let '(cm, version) := nextEndpointEventIDLocked cm in
  let '(owned, managed) := take_owned (xdsManaged cm) names in
  let cm := set_xdsManaged cm managed in
  match owned with
  | [] => Some (cm, [])
  | _ =>
      '(w, s) ← removeClustersLocked (world cm) (store cm) owned;
      let new := endpointAddressSnapshot (Some <$> Config s) in
      Some (set_store cm w s, endpointStateChanges old new version)
  end.

(** ** Queries *)

Definition getRuntimeCluster cm (clusterName : string) : option (Cluster CH) :=
  clustersMap (store cm) !! clusterName ≫= (λ p, heap (world cm) !! p).

Definition PickNextEndpoint cm (clusterName curEndpointID : string) : option Endpoint :=
  rt ← getRuntimeCluster cm clusterName; NextHealthyEndpoint (endpoints rt) curEndpointID.

Definition GetAnyEndpointByID cm (clusterName endpointID : string) : option Endpoint :=
  rt ← getRuntimeCluster cm clusterName; EndpointByID (endpoints rt) endpointID.

Definition GetHealthyEndpointByID cm (clusterName endpointID : string) : option Endpoint :=
  rt ← getRuntimeCluster cm clusterName; HealthyEndpointByID (endpoints rt) endpointID.

Definition GetEndpointByID cm (clusterName endpointID : string) : option Endpoint :=
  GetHealthyEndpointByID cm clusterName endpointID.

Definition HasEndpointAddress cm (clusterName address : string) : bool :=
  match getRuntimeCluster cm clusterName with
  | None => false
  | Some rt => existsb (λ e, bool_decide (GetAddress (EAddress e) = address)) (all (endpoints rt))
  end.

Definition XDSClusterNames cm : list string := merge_sort String.le (elements (xdsManaged cm)).

End manager.
