(* ===== verification/ManagerInv.v ===== *)
(** * The invariant and the announcements of the cluster manager

    The store invariant and the ownership of xDS hold after every sequence of
    operations, the changes announced are exactly the difference between the
    addresses before and after, and a rejected xDS response changes nothing. *)

From S2P Require Import Prelude GoStrings Sha256 Endpoint Snapshot Health Cluster ClusterStore StoreInv.
From S2P Require Import ClusterManager.

(** ** Address snapshots and their difference *)

Section changes.
Implicit Types (m old new : gmap string (gset string)) (n a : string) (s : ClusterStore).

Definition has_pair m n a : Prop := a ∈ default ∅ (m !! n).

Lemma elem_of_missing old new n a : (n, a) ∈ missing old new ↔ has_pair old n a ∧ ¬ has_pair new n a.
Proof.
  unfold missing, has_pair. rewrite list_elem_of_bind. split.
  - intros ([n' S] & H & Hm%elem_of_map_to_list). apply list_elem_of_fmap in H as (b & [= <- <-] & Hb).
    apply list_elem_of_filter in Hb as [Hb Ha]. apply elem_of_elements in Ha. by rewrite Hm.
  - intros [Ho Hn]. destruct (old !! n) as [S|] eqn:E; [|set_solver]. exists (n, S). split.
    + apply list_elem_of_fmap. exists a. split; [done|]. apply list_elem_of_filter. by rewrite elem_of_elements.
    + by apply elem_of_map_to_list.
Qed.

Lemma elem_of_changes old new version n a b v :
  mkChange n a b v ∈ endpointStateChanges old new version ↔
    v = version ∧ (if b then has_pair new n a ∧ ¬ has_pair old n a else has_pair old n a ∧ ¬ has_pair new n a).
Proof.
  unfold endpointStateChanges. rewrite elem_of_app, !list_elem_of_fmap. split.
  - intros [([n' a'] & [= <- <- -> ->] & H)|([n' a'] & [= <- <- -> ->] & H)]; by apply elem_of_missing in H.
  - intros [-> H]. destruct b; [right|left]; exists (n, a); by rewrite elem_of_missing.
Qed.

(** Every callback for endpoint states hears of every change, every callback
    for removals of the addresses that left, and nobody else hears anything. *)
Theorem notifications_exact {CH} (cm : ClusterManager CH) (changes : list endpointStateChange) x :
  x ∈ notifyEndpointChanges cm changes ↔
    match x with
    | StateEvent h n a b v => h ∈ endpointStateHandlers cm ∧ mkChange n a b v ∈ changes
    | RemovalEvent h n a => h ∈ endpointRemovalHandlers cm ∧ ∃ v, mkChange n a false v ∈ changes
    end.
Proof.
  unfold notifyEndpointChanges. rewrite list_elem_of_bind. setoid_rewrite elem_of_app.
  setoid_rewrite list_elem_of_fmap. setoid_rewrite elem_of_elements. split.
  - intros ([n a b v] & [(h & -> & Hh)|H] & Hc); simpl in *; [done|]. destruct b; [by apply not_elem_of_nil in H|].
    apply list_elem_of_fmap in H as (h & -> & Hh%elem_of_elements). eauto.
  - destruct x as [h n a b v|h n a].
    + intros [Hh Hc]. exists (mkChange n a b v). split; [|done]. left. eauto.
    + intros (Hh & v & Hc). exists (mkChange n a false v). split; [|done]. right. simpl.
      apply list_elem_of_fmap. exists h. by rewrite elem_of_elements.
Qed.

(** The addresses a list of configurations names for a cluster. *)
Lemma endpointAddressSnapshot_spec cfgs n a :
  has_pair (endpointAddressSnapshot cfgs) n a ↔
    ∃ c, Some c ∈ cfgs ∧ CName c = n ∧ a ∈ addresses (Endpoints c).
Proof.
  unfold endpointAddressSnapshot, has_pair.
  enough (∀ m, a ∈ default ∅ (foldl (λ result config, match config with
      | None => result
      | Some c => <[CName c := default ∅ (result !! CName c) ∪ list_to_set (addresses (Endpoints c))]> result
      end) m cfgs !! n) ↔ a ∈ default ∅ (m !! n) ∨ ∃ c, Some c ∈ cfgs ∧ CName c = n ∧ a ∈ addresses (Endpoints c)) as H.
  { rewrite H, lookup_empty. set_solver. }
  induction cfgs as [|[c|] cfgs IH]; intros m; cbn [foldl].
  - split; [by left|]. intros [?|(c & []%not_elem_of_nil & _)]; done.
  - rewrite IH, lookup_insert. split.
    + intros [H|(d & Hd & Hn & Ha)]; [|right; exists d; split; [by constructor|done]].
      case_decide as E; [|by left]. simpl in H. rewrite elem_of_union, elem_of_list_to_set, E in H.
      destruct H; [by left|right]. exists c. split; [constructor|done].
    + intros [H|(d & [[= ->]|Hd]%elem_of_cons & Hn & Ha)].
      * left. case_decide as E; [subst|done]. simpl. apply elem_of_union. by left.
      * left. rewrite decide_True by done. simpl. rewrite elem_of_union, elem_of_list_to_set. by right.
      * right. eauto.
  - rewrite IH. setoid_rewrite elem_of_cons. naive_solver.
Qed.

(** An address of a cluster of the store. *)
Definition has_address s n a : Prop := ∃ es, endpoints_of s n = Some es ∧ a ∈ addresses es.

Lemma endpoints_of_elem s c : NoDup (map CName (Config s)) → c ∈ Config s → endpoints_of s (CName c) = Some (Endpoints c).
Proof.
  intros Hn (i & Hi)%list_elem_of_lookup_1. apply endpoints_of_Some. exists i, c. split; [|done].
  apply list_find_Some. split_and!; [done|done|]. intros j d Hj Hlt Hd.
  assert (i = j); [|lia]. by eapply (other_position s i j c d).
Qed.

Lemma whole_store_addresses s n a :
  NoDup (map CName (Config s)) →
  has_pair (endpointAddressSnapshot (Some <$> Config s)) n a ↔ has_address s n a.
Proof.
  intros Hn. rewrite endpointAddressSnapshot_spec. unfold has_address. split.
  - intros (c & (d & [= ->] & Hd)%list_elem_of_fmap & <- & Ha). exists (Endpoints d). split; [|done].
    by apply endpoints_of_elem.
  - intros (es & (i & c & [Hi Hc]%findClusterConfig_Some & <-)%endpoints_of_Some & Ha). exists c.
    split_and!; [|done|done]. apply list_elem_of_fmap. exists c. split; [done|by eapply list_elem_of_lookup_2].
Qed.

Lemma cluster_addresses_spec s name n a :
  has_pair (cluster_addresses s name) n a ↔ n = name ∧ has_address s n a.
Proof.
  unfold cluster_addresses, has_address, endpoints_of. rewrite endpointAddressSnapshot_spec.
  destruct (findClusterConfig s name) as [[i c]|] eqn:E; simpl.
  - destruct (findClusterConfig_Some _ _ _ _ E) as [_ Hc]. split.
    + intros (d & [= ->]%list_elem_of_singleton & <- & Ha). rewrite Hc, E. naive_solver.
    + intros [-> (es & Hes & Ha)]. rewrite E in Hes. simpl in Hes. simplify_eq. exists c.
      split_and!; [constructor|done|done].
  - split; [intros (d & H%list_elem_of_singleton & _); done|]. intros [-> (es & Hes & _)]. by rewrite E in Hes.
Qed.

End changes.

(** ** Validation of an xDS response *)

(** A list of clusters that xDS may publish next to the given names. *)
Definition xds_valid (static acc : gset string) (cs : list ClusterConfig) : Prop :=
  NoDup (map CName cs) ∧ ∀ c, c ∈ cs → CName c ≠ "" ∧ (CName c ∉ static) ∧ CName c ∉ acc.

Lemma xds_valid_cons static acc (c : ClusterConfig) cs :
  xds_valid static acc (c :: cs) ↔
    CName c ≠ "" ∧ (CName c ∉ static) ∧ (CName c ∉ acc) ∧ xds_valid static ({[CName c]} ∪ acc) cs.
Proof.
  unfold xds_valid. cbn [map]. rewrite NoDup_cons. setoid_rewrite elem_of_union. setoid_rewrite elem_of_singleton. split.
  - intros [[Hc Hn] Hall]. destruct (Hall c) as (H1 & H2 & H3); [constructor|]. split_and!; try done.
    intros d Hd. destruct (Hall d) as (H4 & H5 & H6); [by constructor|]. split_and!; [done|done|].
    intros [Heq|]; [|done]. apply Hc. rewrite <- Heq. by apply (list_elem_of_fmap_2 CName).
  - intros (H1 & H2 & H3 & Hn & Hall). split.
    + split; [|done]. intros (d & Hd & Hin)%list_elem_of_fmap. destruct (Hall d Hin) as (_ & _ & H). naive_solver.
    + intros d [->|Hd]%elem_of_cons; [done|]. naive_solver.
Qed.

Lemma validate_xds_spec static acc clusters names cs :
  validate_xds static acc clusters = Ok (names, cs) ↔
    clusters = Some <$> cs ∧ names = list_to_set (map CName cs) ∪ acc ∧ xds_valid static acc cs.
Proof.
  revert acc names cs. induction clusters as [|[c|] clusters IH]; intros acc names cs; cbn [validate_xds].
  - split.
    + intros [= <- <-]. split_and!; [done|set_solver|]. split; [constructor|by intros c ?%not_elem_of_nil].
    + intros (H & -> & _). destruct cs; [|done]. f_equal. f_equal. set_solver.
  - split.
    + repeat case_decide; try done. destruct (validate_xds _ _ clusters) as [[names' cs']|] eqn:E; [|done].
      intros [= <- <-]. apply IH in E as (-> & -> & Hv). split_and!; [done|set_solver|]. by apply xds_valid_cons.
    + intros (Heq & -> & Hv). destruct cs as [|d cs]; [done|]. injection Heq as -> Heq.
      apply xds_valid_cons in Hv as (H1 & H2 & H3 & Hv). rewrite !decide_False by done.
      rewrite (proj2 (IH _ (list_to_set (map CName cs) ∪ ({[CName d]} ∪ acc)) cs)) by done. f_equal. f_equal. set_solver.
  - split; [done|]. intros (Heq & _). by destruct cs.
Qed.

Section inv.
Context {CH : Type} (InitMap : string → option (ConsistentHash → list Endpoint → CH)).
Implicit Types (cm : ClusterManager CH) (w : World CH) (s : ClusterStore) (c : ClusterConfig) (e : Endpoint)
  (p : nat) (rt : Cluster CH) (P : gset nat) (name other : string).
#[local] Abbreviation store_ok := (store_but InitMap ∅).
#[local] Set Default Proof Using "Type".

Lemma store_version P w s v : store_but InitMap P w s → store_but InitMap P w (mkClusterStore (Config s) v (clustersMap s)).
Proof. intros [H1 H2 H3 H4 H5 H6]. by split. Qed.

Lemma endpoints_config_only s1 s2 name : Config s1 = Config s2 → endpoints_of s1 name = endpoints_of s2 name.
Proof. unfold endpoints_of, findClusterConfig. by intros ->. Qed.

Lemma endpoints_of_None s name : endpoints_of s name = None ↔ name ∉ map CName (Config s).
Proof.
  unfold endpoints_of. destruct (findClusterConfig s name) as [[i c]|] eqn:E; simpl.
  - apply findClusterConfig_Some in E as [Hi <-]. split; [done|]. intros []. apply (list_elem_of_fmap_2 CName).
    by eapply list_elem_of_lookup_2.
  - split; [|done]. intros _. by apply findClusterConfig_None.
Qed.

Lemma UpdateCluster_unknown w s c : endpoints_of s (CName c) = None → ClusterStore.UpdateCluster InitMap w s c = (w, s).
Proof.
  unfold endpoints_of, ClusterStore.UpdateCluster. by destruct (findClusterConfig s (CName c)).
Qed.

Lemma DeleteEndpoint_unknown w s name x :
  endpoints_of s name = None → ClusterStore.DeleteEndpoint InitMap w s name x = (w, s).
Proof. unfold endpoints_of, ClusterStore.DeleteEndpoint. by destruct (findClusterConfig s name). Qed.

(** ** Taking clusters out of the store *)

Lemma store_same_heap P w w' s :
  heap w' = heap w → nextPtr w' = nextPtr w → store_but InitMap P w s → store_but InitMap P w' s.
Proof. intros Hh Hn [H1 H2 H3 H4 H5 H6]. split; rewrite ?Hh, ?Hn; done. Qed.

(** A runtime that waits to be stopped may change. *)
Lemma store_freeze P w s p rt rt' :
  store_but InitMap P w s → p ∈ P → (∀ name, clustersMap s !! name ≠ Some p) → heap w !! p = Some rt →
  store_but InitMap P (set_heap w (<[p := rt']> (heap w))) s.
Proof.
  intros [H1 H2 H3 H4 H5 H6] Hp Hno Hrt. split; simpl; [done|done| |done| |].
  - intros c Hc. destruct (H3 c Hc) as (q & rtq & Hq & Hrtq & Hr). exists q, rtq.
    rewrite lookup_insert_ne; [done|]. intros ->. by apply (Hno (CName c)).
  - intros q. rewrite lookup_insert. case_decide; [subst; intros _; apply H5; by rewrite Hrt|apply H5].
  - intros q rtq. rewrite lookup_insert. case_decide; [subst; by intros _ _ ?|by apply H6].
Qed.

(** Once the runtimes in [P] are stopped the invariant is complete. *)
Lemma store_stopped P w w' s :
  store_but InitMap P w s → nextPtr w' = nextPtr w →
  (∀ q, heap w' !! q = if decide (q ∈ P) then Cluster_Stop <$> heap w !! q else heap w !! q) →
  (∀ name p, clustersMap s !! name = Some p → p ∉ P) →
  store_ok w' s.
Proof.
  intros [H1 H2 H3 H4 H5 H6] Hn Hh Hno. split; [done|done| |done| |].
  - intros c Hc. destruct (H3 c Hc) as (p & rt & Hp & Hrt & Hr). exists p, rt.
    rewrite Hh, decide_False by (by eapply Hno). done.
  - intros p. rewrite Hh, Hn. case_decide; [|apply H5]. destruct (heap w !! p) eqn:E; [|by intros []].
    intros _. apply H5. by rewrite E.
  - intros p rt. rewrite Hh. case_decide as Hp.
    + destruct (heap w !! p) as [rt0|]; [|done]. intros [= <-] _ _. apply Stop_idle.
    + intros Hrt Hm _. by eapply H6.
Qed.

Lemma stop_idem rt : Cluster_Stop (Cluster_Stop rt) = Cluster_Stop rt.
Proof. unfold Cluster_Stop, set_checkers; simpl. by destruct (HealthCheck rt). Qed.

Lemma stop_from_heap st w ps :
  nextPtr (stop_from st w ps) = nextPtr w ∧
  ∀ q, heap (stop_from st w ps) !! q =
    if decide (Some q ∈ ps ∧ q ∉ st) then Cluster_Stop <$> heap w !! q else heap w !! q.
Proof.
  revert st w. induction ps as [|[p|] ps IH]; intros st w; cbn [stop_from].
  - split; [done|]. intros q. rewrite decide_False; [done|]. intros [[]%not_elem_of_nil _].
  - case_decide as Hp.
    + destruct (IH st w) as [Hn Hq]. split; [done|]. intros q. rewrite Hq.
      apply decide_ext. rewrite elem_of_cons. naive_solver.
    + destruct (IH ({[p]} ∪ st) (alter_runtime w p Cluster_Stop)) as [Hn Hq]. split; [done|]. intros q.
      rewrite Hq. unfold alter_runtime; simpl. destruct (decide (p = q)) as [<-|Hne].
      * rewrite decide_False by set_solver. rewrite lookup_alter_eq.
        by rewrite decide_True by (split; [constructor|done]).
      * rewrite lookup_alter_ne by done. apply decide_ext. rewrite elem_of_cons. set_solver.
  - destruct (IH st w) as [Hn Hq]. split; [done|]. intros q. rewrite Hq. apply decide_ext. rewrite elem_of_cons. naive_solver.
Qed.

Lemma stopClusters_ok P w s ps :
  store_but InitMap P w s → (∀ q, q ∈ P ↔ Some q ∈ ps) →
  (∀ name p, clustersMap s !! name = Some p → p ∉ P) → store_ok (stopClusters w ps) s.
Proof.
  intros Hok Hps Hno. destruct (stop_from_heap ∅ w ps) as [Hn Hq].
  apply (store_stopped P w); [done|exact Hn| |done]. intros q. unfold stopClusters. rewrite Hq.
  apply decide_ext. rewrite Hps. set_solver.
Qed.

(** The runtimes of a set of names. *)
Definition runtimes_of s (D : gset string) : gset nat := list_to_set (omap (λ n, clustersMap s !! n) (elements D)).

Lemma elem_of_runtimes s D p : p ∈ runtimes_of s D ↔ ∃ n, n ∈ D ∧ clustersMap s !! n = Some p.
Proof.
  unfold runtimes_of. rewrite elem_of_list_to_set, list_elem_of_omap. by setoid_rewrite elem_of_elements.
Qed.

Definition keep_configs s (D : gset string) : list ClusterConfig := filter (λ c, CName c ∉ D) (Config s).

Lemma kept_names s D n : n ∈ map CName (keep_configs s D) ↔ n ∈ map CName (Config s) ∧ n ∉ D.
Proof.
  unfold keep_configs. rewrite !list_elem_of_fmap. split.
  - intros (c & -> & [Hd Hc]%list_elem_of_filter). eauto.
  - intros [(c & -> & Hc) Hd]. exists c. split; [done|]. by apply list_elem_of_filter.
Qed.

Lemma kept_nodup s D : NoDup (map CName (Config s)) → NoDup (map CName (keep_configs s D)).
Proof.
  unfold keep_configs. induction (Config s) as [|c l IH]; [done|]. cbn [map]. intros [Hc Hl]%NoDup_cons.
  rewrite filter_cons. case_decide; [|by apply IH]. cbn [map]. constructor; [|by apply IH].
  intros (d & Hd & [_ Hin]%list_elem_of_filter)%list_elem_of_fmap. apply Hc. rewrite Hd.
  by apply (list_elem_of_fmap_2 CName).
Qed.

Lemma kept_endpoints s D v m other :
  NoDup (map CName (Config s)) →
  endpoints_of (mkClusterStore (keep_configs s D) v m) other = if decide (other ∈ D) then None else endpoints_of s other.
Proof.
  clear InitMap.
  intros Hn. case_decide as Hd.
  - apply endpoints_of_None. simpl. rewrite kept_names. tauto.
  - destruct (endpoints_of s other) as [es|] eqn:E.
    + apply endpoints_of_Some in E as (i & c & [Hi Hc]%findClusterConfig_Some & <-). rewrite <- Hc.
      apply endpoints_of_elem; [by apply kept_nodup|]. apply list_elem_of_filter. rewrite Hc.
      split; [done|]. by eapply list_elem_of_lookup_2.
    + apply endpoints_of_None in E. apply endpoints_of_None. simpl. rewrite kept_names. tauto.
Qed.

Lemma filter_kept (m : gmap string nat) (D : gset string) n : n ∉ D → filter (λ kv, kv.1 ∉ D) m !! n = m !! n.
Proof.
  intros HD. rewrite map_lookup_filter. destruct (m !! n); simpl; [|done]. by rewrite option_guard_True.
Qed.

Lemma store_drop w s D v :
  store_ok w s →
  store_but InitMap (runtimes_of s D) w
    (mkClusterStore (keep_configs s D) v (filter (λ kv, kv.1 ∉ D) (clustersMap s))).
Proof.
  intros [H1 H2 H3 H4 H5 H6]. split; simpl.
  - by apply kept_nodup.
  - intros n. rewrite kept_names, <- H2. unfold is_Some. setoid_rewrite map_lookup_filter_Some. naive_solver.
  - intros c [Hd Hc]%list_elem_of_filter. destruct (H3 c Hc) as (p & rt & Hp & Hrt & Hr). exists p, rt.
    split_and!; [|done|done]. by apply map_lookup_filter_Some.
  - intros n1 n2 p [Hp1 _]%map_lookup_filter_Some [Hp2 _]%map_lookup_filter_Some. by eapply H4.
  - done.
  - intros p rt Hrt Hno Hp. apply (H6 p rt Hrt); [|set_solver]. intros n Hn. apply (Hno n).
    apply map_lookup_filter_Some. split; [done|]. simpl. intros Hd. apply Hp, elem_of_runtimes. eauto.
Qed.

Lemma dropped_unmapped w s D v name p :
  store_ok w s →
  clustersMap (mkClusterStore (keep_configs s D) v (filter (λ kv, kv.1 ∉ D) (clustersMap s))) !! name = Some p →
  p ∉ runtimes_of s D.
Proof.
  intros Hok [Hp Hd]%map_lookup_filter_Some (n & Hn & Hn2)%elem_of_runtimes.
  assert (n = name) as -> by (by eapply (so_inj InitMap ∅ w s Hok)). done.
Qed.

Lemma static_part_drop w s D :
  store_ok w s →
  static_part s D = mkClusterStore (keep_configs s D) (Version s) (filter (λ kv, kv.1 ∉ D) (clustersMap s)).
Proof.
  intros Hok. unfold static_part. fold (keep_configs s D). f_equal. apply map_filter_ext. intros n p Hp. simpl.
  rewrite kept_names. rewrite <- (so_dom InitMap ∅ w s Hok n). unfold is_Some. naive_solver.
Qed.

(** ** Building runtimes for a candidate store *)

Definition room (k : nat) w : Prop := (0 ≤ configIDSeq w ∧ configIDSeq w + Z.of_nat k < 2 ^ 64)%Z.

Lemma room_seq k w : room (S k) w → seq_ok w.
Proof. unfold room, seq_ok. lia. Qed.

Lemma prepare_room k w c : room (S k) w → room k (prepareClusterConfig w c).1.
Proof.
  unfold room, prepareClusterConfig, prepareOwnedClusterConfig. intros H. case_decide; simpl; [|lia].
  rewrite wrap64_small; lia.
Qed.

(** The published runtime of a name waits to be stopped, and its snapshot can be
    inherited. *)
Definition source_ok P w (old : gmap string nat) (m : gmap string nat) name : Prop :=
  ∀ p, old !! name = Some p →
    p ∈ P ∧ (∀ k, m !! k ≠ Some p) ∧ ∃ rt, heap w !! p = Some rt ∧ snapshot_wf InitMap (endpoints rt).

(** Runtimes keep their snapshot and their cursor, and those outside [P] are the
    same. *)
Definition same_runtimes P w w' : Prop :=
  ∀ q rt, heap w !! q = Some rt →
    ∃ rt', heap w' !! q = Some rt' ∧ endpoints rt' = endpoints rt ∧ roundRobinCursor rt' = roundRobinCursor rt ∧
      (q ∉ P → rt' = rt).

Lemma snapshot_source P w old cand name :
  store_but InitMap P w cand → source_ok P w old (clustersMap cand) name →
  let '(w', previous) := snapshotForRuntimeReplacement w old name in
  store_but InitMap P w' cand ∧ nextPtr w' = nextPtr w ∧ configIDSeq w' = configIDSeq w ∧
  (∀ q, previous = Some q → snapshot_wf InitMap q) ∧ same_runtimes P w w'.
Proof.
  intros Hok Hsrc. unfold snapshotForRuntimeReplacement. destruct (old !! name) as [p|] eqn:Ep.
  - destruct (Hsrc p Ep) as (HP & Hno & rt & Hrt & Hwf). rewrite Hrt. simpl. split_and!; [|done|done| |].
    + by eapply (store_freeze P w cand p rt).
    + by intros q [= <-].
    + intros q rtq Hq. simpl. rewrite lookup_insert. case_decide; [subst|by eauto].
      rewrite Hrt in Hq. simplify_eq. eexists. split_and!; done.
  - split_and!; [done|done|done|done|]. intros q rtq Hq. eauto.
Qed.

Lemma same_runtimes_trans P w1 w2 w3 :
  same_runtimes P w1 w2 → same_runtimes P w2 w3 → same_runtimes P w1 w3.
Proof.
  intros H1 H2 q rt Hq. destruct (H1 q rt Hq) as (rt2 & Hq2 & He2 & Hc2 & Hs2).
  destruct (H2 q rt2 Hq2) as (rt3 & Hq3 & He3 & Hc3 & Hs3). exists rt3. split_and!; [congruence..|].
  intros HP. by rewrite Hs3, Hs2.
Qed.

Definition built c c' : Prop := CName c' = CName c ∧ Endpoints c' = assemble (CName c) 0 ∅ (Endpoints c).

Lemma source_ok_step P w w' old cand name k :
  store_but InitMap P w cand → same_runtimes P w w' → source_ok P w old (clustersMap cand) name →
  source_ok P w' old (<[k := nextPtr w]> (clustersMap cand)) name.
Proof.
  intros Hok Hsame Hsrc p Hp. destruct (Hsrc p Hp) as (HP & Hno & rt & Hrt & Hwf).
  destruct (Hsame p rt Hrt) as (rt' & Hrt' & He & _). split_and!; [done| |exists rt'; by rewrite He].
  intros n. rewrite lookup_insert. case_decide; [|done]. intros [= <-].
  assert (nextPtr w < nextPtr w); [|lia]. apply (so_fresh InitMap P w cand Hok). eauto.
Qed.

(** ** The manager *)

(** The store is well-formed and xDS owns clusters of the store only. *)
Definition cm_ok cm : Prop :=
  store_ok (world cm) (store cm) ∧ ∀ n, n ∈ xdsManaged cm → n ≠ "" ∧ n ∈ map CName (Config (store cm)).

(** The changes are the difference between the addresses of two stores. *)
Definition announces (changes : list endpointStateChange) (version : Z) s s' : Prop :=
  ∀ n a b v, mkChange n a b v ∈ changes ↔
    v = version ∧
    (if b then has_address s' n a ∧ ¬ has_address s n a else has_address s n a ∧ ¬ has_address s' n a).

Lemma mapped_runtime w s n p :
  store_ok w s → clustersMap s !! n = Some p →
  ∃ c rt, c ∈ Config s ∧ CName c = n ∧ heap w !! p = Some rt ∧ runs InitMap c rt.
Proof.
  intros Hok Hp. assert (n ∈ map CName (Config s)) as (c & -> & Hc)%list_elem_of_fmap.
  { apply (so_dom InitMap ∅ w s Hok). eauto. }
  destruct (so_runs InitMap ∅ w s Hok c Hc) as (q & rt & Hq & Hrt & Hr). simplify_eq. eauto 6.
Qed.

Lemma announces_whole w s w' s' version :
  store_ok w s → store_ok w' s' →
  announces (endpointStateChanges (endpointAddressSnapshot (Some <$> Config s))
    (endpointAddressSnapshot (Some <$> Config s')) version) version s s'.
Proof.
  intros Hok Hok' n a b v. rewrite elem_of_changes.
  pose proof (whole_store_addresses s n a (so_names InitMap ∅ w s Hok)).
  pose proof (whole_store_addresses s' n a (so_names InitMap ∅ w' s' Hok')). destruct b; tauto.
Qed.

(** XDS can publish exactly the lists of named, distinct clusters that do not
    clash with a cluster of another source. *)
Theorem replace_xds_accepts cm clusters :
  (∃ r, ReplaceXDSClusters InitMap cm clusters = Ok r) ↔
    ∃ cs, clusters = Some <$> cs ∧ NoDup (map CName cs) ∧
      ∀ c, c ∈ cs → CName c ≠ "" ∧
        ¬ (∃ d, d ∈ Config (store cm) ∧ CName d = CName c ∧ CName d ∉ xdsManaged cm).
Proof.
  unfold ReplaceXDSClusters. cbv zeta. set (static := list_to_set _).
  assert (∀ n, n ∉ static ↔ ¬ (∃ d, d ∈ Config (store cm) ∧ CName d = n ∧ CName d ∉ xdsManaged cm)) as Hs.
  { intros n. unfold static. rewrite elem_of_list_to_set. simpl. rewrite (kept_names (store cm) (xdsManaged cm)), list_elem_of_fmap.
    naive_solver. }
  split.
  - intros [r Hr]. destruct (validate_xds static ∅ clusters) as [[names cs]|] eqn:E; [|done].
    apply validate_xds_spec in E as (-> & _ & Hn & Hall). exists cs. split_and!; [done|done|].
    intros c Hc. destruct (Hall c Hc) as (H1 & H2 & _). by rewrite <- Hs.
  - intros (cs & -> & Hn & Hall). rewrite (proj2 (validate_xds_spec static ∅ _ (list_to_set (map CName cs) ∪ ∅) cs)).
    + destruct (build_from _ _ _ _ _) as [w' cand']. by eexists.
    + split_and!; [done|done|]. split; [done|]. intros c Hc. destruct (Hall c Hc) as [H1 H2].
      rewrite Hs. split_and!; [done|done|apply not_elem_of_empty].
Qed.

Lemma built_names cs cs' : Forall2 built cs cs' → map CName cs' = map CName cs.
Proof. induction 1 as [|c c' cs cs' [Hn _] _ IH]; [done|]. cbn [map]. by rewrite Hn, IH. Qed.

Lemma built_elem cs cs' c :
  Forall2 built cs cs' → c ∈ cs → ∃ c', c' ∈ cs' ∧ built c c'.
Proof.
  induction 1 as [|d d' cs cs' Hb _ IH]; [by intros ?%not_elem_of_nil|].
  intros [->|Hc]%elem_of_cons; [exists d'; split; [constructor|done]|].
  destruct (IH Hc) as (c' & Hc' & Hb'). exists c'. split; [by constructor|done].
Qed.

(** What a store has after the clusters [cs] were built next to the kept ones. *)
Lemma built_endpoints s s' D cs cs' :
  NoDup (map CName (Config s)) → NoDup (map CName (Config s')) →
  Config s' = keep_configs s D ++ cs' → Forall2 built cs cs' →
  (∀ c, c ∈ cs → endpoints_of s' (CName c) = Some (assemble (CName c) 0 ∅ (Endpoints c))) ∧
  (∀ n, n ∈ map CName (Config s) → n ∉ D → endpoints_of s' n = endpoints_of s n) ∧
  (∀ n, n ∈ map CName (Config s') ↔ (n ∈ map CName (Config s) ∧ n ∉ D) ∨ n ∈ map CName cs).
Proof.
  intros Hnd Hnd' HC Hb. split_and!.
  - intros c Hc. destruct (built_elem cs cs' c Hb Hc) as (c' & Hc' & Hn & He). rewrite <- He, <- Hn. apply endpoints_of_elem; [done|]. rewrite HC. apply elem_of_app. by right.
  - intros n (c & -> & Hc)%list_elem_of_fmap HD. rewrite (endpoints_of_elem s c) by done.
    apply endpoints_of_elem; [done|]. rewrite HC. apply elem_of_app. left. by apply list_elem_of_filter.
  - intros n. rewrite HC, map_app, elem_of_app, kept_names, (built_names cs cs') by done. done.
Qed.

Lemma owned_pointers cm q :
  q ∈ runtimes_of (store cm) (xdsManaged cm) ↔ Some q ∈ (λ n, clustersMap (store cm) !! n) <$> elements (xdsManaged cm).
Proof.
  clear InitMap.
  rewrite elem_of_runtimes, list_elem_of_fmap. setoid_rewrite elem_of_elements. naive_solver.
Qed.

(** A cluster whose pointer stays outside the runtimes to stop keeps its runtime. *)
Lemma static_runtime cm w s ps n :
  store_ok (world cm) (store cm) → same_runtimes (runtimes_of (store cm) (xdsManaged cm)) (world cm) w →
  clustersMap s !! n = clustersMap (store cm) !! n → n ∉ xdsManaged cm →
  (∀ q, q ∈ runtimes_of (store cm) (xdsManaged cm) ↔ Some q ∈ ps) →
  clustersMap s !! n ≫= (λ p, heap (stopClusters w ps) !! p) = getRuntimeCluster cm n.
Proof.
  intros Hok Hsame Hm HD Hps. unfold getRuntimeCluster. rewrite Hm.
  destruct (clustersMap (store cm) !! n) as [p|] eqn:Hp; [|done]. simpl.
  destruct (mapped_runtime _ _ _ _ Hok Hp) as (c & rt & _ & _ & Hrt & _).
  assert (p ∉ runtimes_of (store cm) (xdsManaged cm)) as HP.
  { intros (k & Hk & Hkp)%elem_of_runtimes. assert (k = n) as -> by (by eapply (so_inj InitMap ∅ _ _ Hok)). done. }
  destruct (Hsame p rt Hrt) as (rt' & Hrt' & _ & _ & Heq). rewrite Heq in Hrt' by done.
  destruct (stop_from_heap ∅ w ps) as [_ Hq]. unfold stopClusters. rewrite Hq, decide_False, Hrt, Hrt'; [done|].
  rewrite <- Hps. tauto.
Qed.

(** ** Removal *)

Definition occurrences (names : list string) (n : string) : nat := length (filter (λ x, x = n) names).

Lemma occurrences_elem names n : occurrences names n = 0 ↔ n ∉ names.
Proof.
  clear InitMap.
  unfold occurrences. induction names as [|x names IH]; [split; [intros _; apply not_elem_of_nil|done]|].
  rewrite filter_cons, not_elem_of_cons. case_decide; simpl; [split; [done|intros [? _]; congruence]|]. rewrite IH. naive_solver.
Qed.

Lemma occurrences_nodup names n : NoDup names → occurrences names n ≤ 1.
Proof.
  unfold occurrences. induction 1 as [|x names Hx Hn IH]; [simpl; lia|]. rewrite filter_cons. case_decide as E; [|done].
  subst. simpl. pose proof (proj2 (occurrences_elem names n) Hx) as H0. unfold occurrences in H0. lia.
Qed.

(** The runtimes the loop stops. *)
Definition stopped_by (names : list string) (m : gmap string nat) (cfgs : list ClusterConfig) : gset nat :=
  list_to_set (omap (λ c, if decide (CName c ∈ names) then m !! CName c else None) cfgs).

Lemma elem_of_stopped_by names m cfgs q :
  q ∈ stopped_by names m cfgs ↔ ∃ c, c ∈ cfgs ∧ CName c ∈ names ∧ m !! CName c = Some q.
Proof.
  unfold stopped_by. rewrite elem_of_list_to_set, list_elem_of_omap. split.
  - intros (c & Hc & Hq). exists c. by case_decide.
  - intros (c & Hc & Hin & Hq). exists c. by rewrite decide_True.
Qed.

Lemma stopped_by_delete names m n cfgs :
  n ∉ map CName cfgs → stopped_by names (delete n m) cfgs = stopped_by names m cfgs.
Proof.
  intros Hn. apply set_eq. intros q. rewrite !elem_of_stopped_by.
  assert (∀ c, c ∈ cfgs → n ≠ CName c) as Hne by (intros c Hc ->; by apply Hn, (list_elem_of_fmap_2 CName)).
  split; intros (c & Hc & Hin & Hq); exists c; (split_and!; [done|done|]).
  - by rewrite lookup_delete_ne in Hq by auto.
  - by rewrite lookup_delete_ne by auto.
Qed.

Lemma stop_twice m c cfgs names q (x : option (Cluster CH)) :
  CName c ∈ names →
  (if decide (q ∈ stopped_by names m cfgs)
   then Cluster_Stop <$> (if decide (Some q ∈ [m !! CName c] ∧ q ∉ (∅ : gset nat)) then Cluster_Stop <$> x else x)
   else if decide (Some q ∈ [m !! CName c] ∧ q ∉ (∅ : gset nat)) then Cluster_Stop <$> x else x) =
  if decide (q ∈ stopped_by names m (c :: cfgs)) then Cluster_Stop <$> x else x.
Proof.
  intros Hin. destruct (decide (q ∈ stopped_by names m (c :: cfgs))) as [H|H].
  - apply elem_of_stopped_by in H as (d & [->|Hd]%elem_of_cons & Hdn & Hq).
    + rewrite Hq, (decide_True (P := _ ∧ _)) by (split; [constructor|set_solver]).
      case_decide; [|done]. destruct x; simpl; by rewrite ?stop_idem.
    + rewrite (decide_True (P := q ∈ _)) by (apply elem_of_stopped_by; eauto).
      case_decide; [|done]. destruct x; simpl; by rewrite ?stop_idem.
  - rewrite !decide_False; [done| |].
    + intros [Hq%list_elem_of_singleton _]. apply H, elem_of_stopped_by. exists c. split_and!; [constructor|done|done].
    + intros (d & Hd & Hdn & Hq)%elem_of_stopped_by. apply H, elem_of_stopped_by. exists d. split; [by constructor|done].
Qed.

Lemma remove_configs_panics w m names cfgs :
  remove_configs w m names cfgs = None ↔ ∃ c, c ∈ cfgs ∧ 2 ≤ occurrences names (CName c).
Proof.
  revert w m. induction cfgs as [|c cfgs IH]; intros w m; cbn [remove_configs].
  { split; [done|]. intros (c & []%not_elem_of_nil & _). }
  fold (occurrences names (CName c)). setoid_rewrite elem_of_cons.
  destruct (occurrences names (CName c)) as [|[|k]] eqn:E.
  - transitivity (remove_configs w m names cfgs = None).
    + destruct (remove_configs w m names cfgs) as [[[? ?] ?]|]; done.
    + rewrite IH. split; [naive_solver|]. intros (d & [->|Hd] & Hk); [lia|eauto].
  - rewrite IH. split; [naive_solver|]. intros (d & [->|Hd] & Hk); [lia|eauto].
  - split; [|done]. intros _. exists c. split; [by left|lia].
Qed.

Lemma remove_configs_spec w m names cfgs w' m' l :
  NoDup (map CName cfgs) → remove_configs w m names cfgs = Some (w', m', l) →
  l = filter (λ c, CName c ∉ names) cfgs ∧ nextPtr w' = nextPtr w ∧
  (∀ n, m' !! n = if decide (n ∈ names ∧ n ∈ map CName cfgs) then None else m !! n) ∧
  ∀ q, heap w' !! q =
    if decide (q ∈ stopped_by names m cfgs) then Cluster_Stop <$> heap w !! q else heap w !! q.
Proof.
  clear InitMap.
  revert w m l. induction cfgs as [|c cfgs IH]; intros w m l Hnd; cbn [remove_configs].
  { intros [= <- <- <-]. split_and!; [done|done| |].
    - intros n. rewrite decide_False; [done|]. intros [_ []%not_elem_of_nil].
    - intros q. by rewrite decide_False by (unfold stopped_by; set_solver). }
  cbn [map] in Hnd. apply NoDup_cons in Hnd as [Hc Hnd]. fold (occurrences names (CName c)).
  destruct (occurrences names (CName c)) as [|[|k]] eqn:E; [| |done].
  - apply occurrences_elem in E.
    destruct (remove_configs w m names cfgs) as [[[w1 m1] l1]|] eqn:Er; [|done]. simpl. intros [= <- <- <-].
    destruct (IH w m l1 Hnd Er) as (-> & Hn & Hm & Hh). rewrite filter_cons_True by done. split_and!; [done|done| |].
    + intros n. rewrite Hm. apply decide_ext. cbn [map]. rewrite elem_of_cons. naive_solver.
    + intros q. rewrite Hh. apply decide_ext. rewrite !elem_of_stopped_by. setoid_rewrite elem_of_cons. naive_solver.
  - assert (CName c ∈ names) as Hin by (apply dec_stable; intros Hno%occurrences_elem; lia).
    intros Er. destruct (IH _ _ l Hnd Er) as (-> & Hn & Hm & Hh). rewrite filter_cons_False by tauto.
    destruct (stop_from_heap ∅ w [m !! CName c]) as [Hn1 Hh1]. split_and!; [done|by rewrite Hn| |].
    + intros n. rewrite Hm. destruct (decide (CName c = n)) as [<-|Hne].
      * rewrite lookup_delete_eq, (decide_True (P := _ ∧ _ ∈ map CName (c :: cfgs))) by (split; [done|constructor]).
        by case_decide.
      * rewrite lookup_delete_ne by done. apply decide_ext. cbn [map]. rewrite elem_of_cons. naive_solver.
    + intros q. rewrite Hh. unfold stopClusters. rewrite Hh1, stopped_by_delete by done.
      rewrite <- (stop_twice m c cfgs names q (heap w !! q) Hin). repeat case_decide; done || tauto.
Qed.

Lemma removeClusters_post w s names w' s' :
  store_ok w s → removeClustersLocked w s names = Some (w', s') →
  store_ok w' s' ∧ Config s' = keep_configs s (list_to_set names).
Proof.
  intros Hok. unfold removeClustersLocked.
  destruct (remove_configs w (clustersMap s) names (Config s)) as [[[w1 m1] l1]|] eqn:E; [|done]. simpl. intros [= <- <-].
  apply remove_configs_spec in E as (-> & Hn & Hm & Hh); [|apply (so_names InitMap ∅ w s Hok)].
  set (D := list_to_set names : gset string).
  assert (filter (λ c, CName c ∉ names) (Config s) = keep_configs s D) as ->.
  { apply list_filter_ext_elem. intros c _. unfold D. by rewrite elem_of_list_to_set. }
  assert (m1 = filter (λ kv, kv.1 ∉ D) (clustersMap s)) as ->.
  { apply map_eq. intros n. rewrite Hm, map_lookup_filter.
    pose proof (so_dom InitMap ∅ w s Hok n) as Hdom. destruct (clustersMap s !! n) as [p|] eqn:Ep; simpl; [|by case_decide].
    assert (n ∈ map CName (Config s)) as Hin by (apply Hdom; eauto). unfold D.
    destruct (decide (n ∈ names)) as [Hd|Hd].
    - rewrite (decide_True (P := _ ∧ _)) by done. rewrite option_guard_False; [done|]. simpl. rewrite elem_of_list_to_set. tauto.
    - rewrite (decide_False (P := _ ∧ _)) by tauto. rewrite option_guard_True; [done|]. simpl. by rewrite elem_of_list_to_set. }
  split; [|done]. apply store_version, (store_stopped (runtimes_of s D) w); [by apply store_drop|done| |].
  - intros q. rewrite Hh. apply decide_ext. rewrite elem_of_stopped_by, elem_of_runtimes. unfold D.
    setoid_rewrite elem_of_list_to_set. split; [naive_solver|]. intros (n & Hd & Hq).
    destruct (mapped_runtime w s n q Hok Hq) as (c & rt & Hc & <- & _). eauto.
  - intros n p. by apply (dropped_unmapped w s).
Qed.

Lemma release_all cm names :
  world (foldl releaseXDSOwnership cm names) = world cm ∧ store (foldl releaseXDSOwnership cm names) = store cm ∧
  nextEndpointEventID (foldl releaseXDSOwnership cm names) = nextEndpointEventID cm ∧
  ∀ n, n ≠ "" → n ∈ xdsManaged (foldl releaseXDSOwnership cm names) ↔ n ∈ xdsManaged cm ∧ n ∉ names.
Proof.
  clear InitMap.
  revert cm. induction names as [|x names IH]; intros cm; cbn [foldl].
  { split_and!; [done..|]. intros n _. pose proof (not_elem_of_nil n). tauto. }
  destruct (IH (releaseXDSOwnership cm x)) as (H1 & H2 & H3 & H4). rewrite H1, H2, H3.
  unfold releaseXDSOwnership in *. split_and!; [by case_decide..|].
  intros n Hn. rewrite (H4 n Hn), not_elem_of_cons. case_decide; simpl; [naive_solver|]. set_solver.
Qed.

Lemma released_empty cm names : "" ∉ xdsManaged cm → "" ∉ xdsManaged (foldl releaseXDSOwnership cm names).
Proof.
  revert cm. induction names as [|x names IH]; intros cm Hno; [done|]. cbn [foldl]. apply IH.
  unfold releaseXDSOwnership. case_decide; [done|]. simpl. set_solver.
Qed.

Lemma RemoveCluster_spec cm names cm' changes :
  cm_ok cm → RemoveCluster cm names = Some (cm', changes) →
  cm_ok cm' ∧
  (∀ n, endpoints_of (store cm') n = if decide (n ∈ names) then None else endpoints_of (store cm) n) ∧
  (∀ n, n ∈ xdsManaged cm' ↔ n ∈ xdsManaged cm ∧ n ∉ names) ∧
  announces changes (nextEndpointEventID cm') (store cm) (store cm').
Proof.
  intros [Hok Hman]. unfold RemoveCluster, nextEndpointEventIDLocked. cbv zeta.
  set (cm0 := mkClusterManager _ _ _ _ _ _ _). destruct (release_all cm0 names) as (H1 & H2 & H3 & H4).
  set (cm1 := foldl _ _ _) in *. rewrite H1, H2.
  destruct (removeClustersLocked _ _ names) as [[w s]|] eqn:E; [|done]. simpl. intros [= <- <-].
  destruct (removeClusters_post _ _ _ _ _ Hok E) as [Hok' HC].
  assert (∀ n, n ∈ xdsManaged cm1 ↔ n ∈ xdsManaged cm ∧ n ∉ names) as Hx.
  { intros n. destruct (decide (n = "")) as [->|Hne]; [|by apply H4]. split.
    - intros Hin. exfalso. revert Hin. apply released_empty. intros Hin. by destruct (Hman "" Hin).
    - intros [Hin _]. by destruct (Hman "" Hin). }
  assert (∀ n, endpoints_of s n = if decide (n ∈ names) then None else endpoints_of (store cm) n) as He.
  { intros n. rewrite (endpoints_config_only s (mkClusterStore (keep_configs (store cm) (list_to_set names)) 0 ∅)) by done.
    rewrite kept_endpoints by apply (so_names InitMap ∅ _ _ Hok). apply decide_ext. by rewrite elem_of_list_to_set. }
  split_and!; [split; [done|]|done|done|cbn [nextEndpointEventID set_store store]; rewrite H3; by apply (announces_whole (world cm) (store cm) w s)].
  intros n [Hin Hn]%Hx. destruct (Hman n Hin) as [Hne Hname]. split; [done|]. simpl. rewrite HC, kept_names.
  by rewrite elem_of_list_to_set.
Qed.

(** Removing clusters takes exactly the named ones out of the store and out
    of the ownership of xDS, and their runtimes are not found any more. *)
Theorem remove_cluster_exact cm names cm' changes :
  cm_ok cm → RemoveCluster cm names = Some (cm', changes) →
  (∀ n, endpoints_of (store cm') n = if decide (n ∈ names) then None else endpoints_of (store cm) n) ∧
  (∀ n, n ∈ xdsManaged cm' ↔ n ∈ xdsManaged cm ∧ n ∉ names) ∧
  ∀ n, n ∈ names → getRuntimeCluster cm' n = None.
Proof.
  intros Hcm Hrun. destruct (RemoveCluster_spec cm names cm' changes Hcm Hrun) as ([Hok _] & He & Hx & _).
  split_and!; [done|done|]. intros n Hn. unfold getRuntimeCluster.
  destruct (clustersMap (store cm') !! n) as [p|] eqn:Hp; [|done].
  destruct (mapped_runtime _ _ n p Hok Hp) as (c & rt & Hc & <- & _).
  specialize (He (CName c)). rewrite decide_True in He by done. apply endpoints_of_None in He.
  destruct He. by apply (list_elem_of_fmap_2 CName).
Qed.

(** The removal panics exactly when the name of a cluster of the store is
    given twice. *)
Theorem remove_cluster_panics cm names :
  RemoveCluster cm names = None ↔ ∃ c, c ∈ Config (store cm) ∧ 2 ≤ length (filter (λ n, n = CName c) names).
Proof.
  unfold RemoveCluster, nextEndpointEventIDLocked. cbv zeta.
  set (cm0 := mkClusterManager _ _ _ _ _ _ _). destruct (release_all cm0 names) as (H1 & H2 & _).
  rewrite H1, H2. unfold removeClustersLocked.
  pose proof (remove_configs_panics (world cm0) (clustersMap (store cm0)) names (Config (store cm0))) as H.
  unfold occurrences in H. etransitivity; [|exact H].
  destruct (remove_configs _ _ names _) as [[[w m] l]|]; done.
Qed.

End inv.

(** ** Operations that build runtimes *)

Section build.
Context {CH : Type} (InitMap : string → option (ConsistentHash → list Endpoint → CH))
  (Hhosts : factories_read_hosts InitMap).
Implicit Types (cm : ClusterManager CH) (w : World CH) (s : ClusterStore) (c : ClusterConfig)
  (p : nat) (rt : Cluster CH) (P : gset nat) (name other : string).
#[local] Abbreviation store_ok := (store_but InitMap ∅).
#[local] Abbreviation cm_ok := (cm_ok InitMap).

Lemma AddCluster_post w s c :
  store_ok w s → seq_ok w → CName c ≠ "" → CName c ∉ map CName (Config s) →
  let '(w', s') := ClusterStore.AddCluster InitMap w s c in
  store_ok w' s' ∧ map CName (Config s') = map CName (Config s) ++ [CName c] ∧
  (∃ c', last (Config s') = Some c' ∧ CName c' = CName c ∧ addresses (Endpoints c') = addresses (Endpoints c)) ∧
  ∀ other, endpoints_of s' other =
    if decide (other = CName c) then Some (assemble (CName c) 0 ∅ (Endpoints c)) else endpoints_of s other.
Proof.
  intros Hok Hseq Hne Hn. pose proof (AddCluster_ok InitMap Hhosts w s c Hok Hseq Hne Hn) as H.
  destruct (ClusterStore.AddCluster InitMap w s c) as [w' s']. destruct H as (Hok' & c' & HC & Hname & Hes & _ & _).
  split_and!; [done|by rewrite HC, map_app, <- Hname| |].
  - exists c'. rewrite HC, last_snoc. split_and!; [done|done|]. by rewrite Hes, assemble_addresses.
  - intros other. rewrite (endpoints_config_only s' (mkClusterStore (Config s ++ [c']) (Version s) (clustersMap s))) by done.
    unfold endpoints_of at 1. rewrite find_snoc. rewrite <- endpoints_of_None in Hn. unfold endpoints_of in *.
    destruct (findClusterConfig s other) as [x|] eqn:E; simpl.
    + rewrite decide_False; [done|]. intros ->. rewrite E in Hn. done.
    + repeat case_decide; simpl; congruence.
Qed.

Lemma UpdateCluster_post w s c es :
  store_ok w s → seq_ok w → endpoints_of s (CName c) = Some es →
  let '(w', s') := ClusterStore.UpdateCluster InitMap w s c in
  store_ok w' s' ∧ map CName (Config s') = map CName (Config s) ∧
  ∀ other, endpoints_of s' other =
    if decide (other = CName c) then Some (assemble (CName c) 0 ∅ (Endpoints c)) else endpoints_of s other.
Proof.
  intros Hok Hseq (i & c0 & Hf & _)%endpoints_of_Some. destruct (findClusterConfig_Some _ _ _ _ Hf) as [Hi Hn0].
  pose proof (UpdateCluster_ok InitMap Hhosts w s c i c0 Hok Hseq Hf) as H.
  destruct (ClusterStore.UpdateCluster InitMap w s c) as [w' s']. destruct H as (Hok' & c' & HC & Hname & Hes & _ & _).
  split_and!; [done|rewrite HC; apply (map_CName_insert s i c0 c'); congruence|].
  intros other. rewrite (endpoints_config_only s' (set_Config s (<[i := c']> (Config s)))) by done.
  unfold endpoints_of at 1. rewrite (find_insert s i c0 c') by (congruence || apply (so_names InitMap ∅ w s Hok)).
  rewrite Hn0. repeat case_decide; try congruence; simpl; [by rewrite Hes|done].
Qed.

(** Appending one prepared cluster with a runtime built from a snapshot. *)
Lemma build_one P w cand c previous :
  store_but InitMap P w cand → assembled (Endpoints c) → ConfigID c ≠ 0%Z → CName c ∉ map CName (Config cand) →
  (∀ q, previous = Some q → snapshot_wf InitMap q) →
  let '(w', cand', _) :=
    replaceClusterRuntimeWithSnapshot InitMap w (set_Config cand (Config cand ++ [c])) (CName c) c previous in
  store_but InitMap P w' cand' ∧ Config cand' = Config cand ++ [c] ∧
  clustersMap cand' = <[CName c := nextPtr w]> (clustersMap cand) ∧
  nextPtr w' = S (nextPtr w) ∧ configIDSeq w' = configIDSeq w ∧ same_runtimes P w w'.
Proof.
  intros Hok Ha Hid Hn Hp. simpl. split_and!; [|done|done|done|done|].
  - apply (store_ok_add InitMap w cand c); [done|done|]. by apply new_runs.
  - intros q rt Hq. simpl. rewrite lookup_insert_ne; [eauto|].
    intros <-. assert (nextPtr w < nextPtr w); [|lia]. apply (so_fresh InitMap P w cand Hok). eauto.
Qed.

Lemma build_from_ok P old clusters w cand :
  store_but InitMap P w cand → room (length clusters) w → NoDup (map CName clusters) →
  (∀ c, c ∈ clusters → (CName c ∉ map CName (Config cand)) ∧ source_ok InitMap P w old (clustersMap cand) (CName c)) →
  let '(w', cand') := build_from InitMap w old cand clusters in
  store_but InitMap P w' cand' ∧
  (∃ cs, Config cand' = Config cand ++ cs ∧ Forall2 built clusters cs) ∧ same_runtimes P w w' ∧
  (∀ n p, clustersMap cand' !! n = Some p → clustersMap cand !! n = Some p ∨ nextPtr w ≤ p) ∧
  (∀ n, n ∉ map CName clusters → clustersMap cand' !! n = clustersMap cand !! n).
Proof.
  revert w cand. induction clusters as [|c clusters IH]; intros w cand Hok Hroom Hnd Hall; cbn [build_from].
  { split_and!; [done|exists []; by rewrite app_nil_r|intros q rt Hq; eauto|by left|done]. }
  cbn [map] in Hnd. apply NoDup_cons in Hnd as [Hc Hnd].
  destruct (Hall c) as [Hnc Hsrc]; [constructor|].
  pose proof (prepare_spec w c (room_seq _ _ Hroom)) as Hprep. pose proof (prepare_room _ w c Hroom) as Hroom1.
  destruct (prepareClusterConfig w c) as [w1 c1]. destruct Hprep as (Hh & Hn & Hname & Has & Hid & Hes & _).
  assert (store_but InitMap P w1 cand) as Hok1 by (by apply (store_same_heap InitMap P w)).
  pose proof (snapshot_source InitMap P w1 old cand (CName c) Hok1) as Hs.
  rewrite Hname. destruct (snapshotForRuntimeReplacement w1 old (CName c)) as [w2 previous].
  destruct Hs as (Hok2 & Hn2 & Hseq2 & Hprev & Hsame2); [unfold source_ok in *; by rewrite Hh|].
  rewrite <- Hname in Hnc. pose proof (build_one P w2 cand c1 previous Hok2 Has Hid Hnc Hprev) as Hb. rewrite Hname in Hb.
  destruct (replaceClusterRuntimeWithSnapshot InitMap w2 _ _ c1 previous) as [[w3 cand3] q].
  destruct Hb as (Hok3 & HC3 & Hm3 & Hn3 & Hseq3 & Hsame3).
  assert (same_runtimes P w w3) as Hsame.
  { apply (same_runtimes_trans P w w2 w3); [|done]. unfold same_runtimes in *. by rewrite <- Hh. }
  specialize (IH w3 cand3 Hok3).
  destruct (build_from InitMap w3 old cand3 clusters) as [w' cand'].
  destruct IH as (Hok' & (cs & HC' & Hcs) & Hsame' & Hm' & Hother).
  - unfold room in *. rewrite Hseq3, Hseq2. exact Hroom1.
  - done.
  - intros d Hd. destruct (Hall d) as [Hnd' Hsrc']; [by constructor|]. split.
    + rewrite HC3, map_app, elem_of_app. cbn [map]. rewrite list_elem_of_singleton, Hname. intros [?|Heq]; [done|].
      apply Hc. rewrite <- Heq. by apply (list_elem_of_fmap_2 CName).
    + rewrite Hm3, Hn2, Hn. by apply (source_ok_step InitMap P w w3).
  - split_and!; [done| |by apply (same_runtimes_trans P w w3)| |].
    + exists (c1 :: cs). rewrite HC', HC3, <- app_assoc. split; [done|]. by constructor.
    + intros n p Hp. destruct (Hm' n p Hp) as [Hp3|Hp3]; [|right; lia].
      rewrite Hm3, lookup_insert in Hp3. case_decide; [|by left]. right. simplify_eq. lia.
    + cbn [map]. intros n [Hne Hn']%not_elem_of_cons. by rewrite Hother, Hm3, lookup_insert_ne by done.
Qed.

(** The names to add do not clash with the names that are kept. *)
Lemma replace_build cm cs :
  cm_ok cm → room (length cs) (world cm) → NoDup (map CName cs) →
  (∀ c, c ∈ cs → CName c ∉ map CName (keep_configs (store cm) (xdsManaged cm))) →
  let P := runtimes_of (store cm) (xdsManaged cm) in
  let '(w', cand') := build_from InitMap (world cm) (clustersMap (store cm)) (static_part (store cm) (xdsManaged cm)) cs in
  store_but InitMap P w' cand' ∧
  (∃ cs', Config cand' = keep_configs (store cm) (xdsManaged cm) ++ cs' ∧ Forall2 built cs cs') ∧
  same_runtimes P (world cm) w' ∧ (∀ n p, clustersMap cand' !! n = Some p → p ∉ P) ∧
  (∀ n, n ∉ map CName cs → n ∉ xdsManaged cm → clustersMap cand' !! n = clustersMap (store cm) !! n).
Proof.
  intros [Hok Hman] Hroom Hnd Hnew. cbv zeta. rewrite (static_part_drop InitMap (world cm)) by done.
  set (P := runtimes_of _ _). set (cand := mkClusterStore _ _ _).
  assert (store_but InitMap P (world cm) cand) as Hdrop by (by apply store_drop).
  assert (∀ n p, clustersMap cand !! n = Some p → p ∉ P) as Hun by (intros n p; by apply (dropped_unmapped InitMap (world cm))).
  pose proof (build_from_ok P (clustersMap (store cm)) cs (world cm) cand Hdrop Hroom Hnd) as H.
  destruct (build_from InitMap (world cm) (clustersMap (store cm)) cand cs) as [w' cand'].
  destruct H as (Hok' & Hcs & Hsame & Hm & Hother).
  - intros c Hc. split; [by apply Hnew|]. intros p Hp.
    destruct (mapped_runtime InitMap _ _ _ _ Hok Hp) as (d & rt & Hd & Hdn & Hrt & Hr).
    assert (p ∈ P) as HP.
    { apply elem_of_runtimes. exists (CName c). split; [|done]. apply dec_stable. intros Hnot.
      apply (Hnew c Hc), kept_names. split; [|done]. rewrite <- Hdn. by apply (list_elem_of_fmap_2 CName). }
    split_and!; [done|intros k Hk; by apply (Hun k p)|]. exists rt. split; [done|]. apply (runs_ok InitMap d rt Hr).
  - split_and!; [done|done|done| |intros n Hn HD; rewrite Hother by done; simpl; by apply filter_kept].
    intros n p Hp. destruct (Hm n p Hp) as [Hp0|Hge]; [by eapply Hun|].
    intros (k & _ & Hk)%elem_of_runtimes. destruct (mapped_runtime InitMap _ _ _ _ Hok Hk) as (d & rt & _ & _ & Hrt & _).
    assert (p < nextPtr (world cm)); [|lia]. apply (so_fresh InitMap ∅ _ _ Hok). eauto.
Qed.

Lemma ReplaceXDS_spec cm clusters cs cm' changes :
  cm_ok cm → room (length cs) (world cm) → clusters = Some <$> cs →
  ReplaceXDSClusters InitMap cm clusters = Ok (cm', changes) →
  cm_ok cm' ∧ xdsManaged cm' = list_to_set (map CName cs) ∧
  (∀ c, c ∈ cs → endpoints_of (store cm') (CName c) = Some (assemble (CName c) 0 ∅ (Endpoints c))) ∧
  (∀ n, n ∈ map CName (Config (store cm)) → n ∉ xdsManaged cm →
     endpoints_of (store cm') n = endpoints_of (store cm) n ∧ getRuntimeCluster cm' n = getRuntimeCluster cm n) ∧
  (∀ n, n ∈ map CName (Config (store cm')) ↔
     (n ∈ map CName (Config (store cm)) ∧ n ∉ xdsManaged cm) ∨ n ∈ map CName cs) ∧
  announces changes (nextEndpointEventID cm') (store cm) (store cm').
Proof.
  intros Hcm Hroom -> Hrun. pose proof Hcm as [Hok Hman].
  unfold ReplaceXDSClusters in Hrun. cbv zeta in Hrun.
  destruct (validate_xds _ ∅ _) as [[names cs2]|] eqn:Ev; [|done].
  apply validate_xds_spec in Ev as (Heq & -> & Hnd & Hall).
  apply (inj (fmap Some)) in Heq. subst cs2. simpl in Hall.
  pose proof (replace_build cm cs Hcm Hroom Hnd) as Hb.
  destruct (build_from InitMap (world cm) _ _ cs) as [w cand].
  destruct Hb as (Hok1 & (cs' & HC & Hf) & Hsame & Hun & Hother).
  { intros c Hc. destruct (Hall c Hc) as (_ & Hs & _). by rewrite elem_of_list_to_set in Hs. }
  injection Hrun as <- <-. cbn [store world xdsManaged set_xdsManaged set_store nextEndpointEventID].
  set (s' := IncreaseVersion cand). set (w' := stopClusters w _).
  assert (store_ok w' s') as Hok'.
  { apply store_version. eapply (stopClusters_ok InitMap); [exact Hok1|apply owned_pointers|done]. }
  destruct (built_endpoints (store cm) s' (xdsManaged cm) cs cs') as (H1 & H2 & H3);
    [apply (so_names InitMap ∅ _ _ Hok)|apply (so_names InitMap ∅ _ _ Hok')|done|done|].
  split_and!; [split; [done|]|by rewrite union_empty_r_L|done| |done|by apply (announces_whole InitMap (world cm) (store cm) w' s')].
  - intros n. cbn [xdsManaged store set_xdsManaged set_store]. rewrite union_empty_r_L, elem_of_list_to_set. intros Hn.
    split; [|rewrite H3; by right]. apply list_elem_of_fmap in Hn as (c & -> & Hc). by apply Hall.
  - intros n Hn HD. split; [by apply H2|].
    apply (static_runtime InitMap cm w s'); [done|done| |done|apply owned_pointers].
    apply Hother; [|done]. intros (c & -> & Hc)%list_elem_of_fmap. destruct (Hall c Hc) as (_ & Hs & _).
    apply Hs. rewrite elem_of_list_to_set. by apply kept_names.
Qed.

(** C31: an accepted xDS response replaces the clusters of xDS and nothing else:
    the manager owns exactly the new names, their clusters have the endpoints of
    the response, the former clusters of xDS are gone unless they are named
    again, and a cluster of another source keeps its endpoints and the very
    runtime it has. *)
Theorem replace_xds_exact cm cs cm' changes :
  cm_ok cm → room (length cs) (world cm) →
  ReplaceXDSClusters InitMap cm (Some <$> cs) = Ok (cm', changes) →
  xdsManaged cm' = list_to_set (map CName cs) ∧
  (∀ c, c ∈ cs → endpoints_of (store cm') (CName c) = Some (assemble (CName c) 0 ∅ (Endpoints c))) ∧
  (∀ n, n ∈ map CName (Config (store cm)) → n ∉ xdsManaged cm →
     endpoints_of (store cm') n = endpoints_of (store cm) n ∧ getRuntimeCluster cm' n = getRuntimeCluster cm n) ∧
  (∀ n, n ∈ map CName (Config (store cm')) ↔
     (n ∈ map CName (Config (store cm)) ∧ n ∉ xdsManaged cm) ∨ n ∈ map CName cs).
Proof.
  intros Hcm Hroom Hrun.
  destruct (ReplaceXDS_spec cm (Some <$> cs) cs cm' changes Hcm Hroom eq_refl Hrun) as (_ & H1 & H2 & H3 & H4 & _). done.
Qed.

End build.

(** ** Witnesses *)

Module manager_sample.

(** The cluster [c] of the bootstrap configuration and the cluster [x] of xDS. *)
Definition x_config (id host : string) : ClusterConfig :=
  mkClusterConfig "x" "Rand" (mkConsistentHash 0 0 0) [] [Some (sample.endpoint id host 80 false)] 0 0.

Definition start : World (list string) * ClusterStore :=
  ClusterStore.AddCluster sample.InitMap store_sample.start.1 store_sample.start.2 (x_config "e" "10.0.1.1").

Definition cm : ClusterManager (list string) := mkClusterManager start.1 start.2 {["x"]} ∅ ∅ 0 0.

Lemma cm_is_ok : cm_ok sample.InitMap cm.
Proof.
  pose proof (AddCluster_post sample.InitMap sample.InitMap_hosts store_sample.start.1 store_sample.start.2
    (x_config "e" "10.0.1.1") store_sample.start_ok) as H.
  fold start in H. unfold cm. destruct start as [w s]. destruct H as (Hok & Hn & _).
  - unfold seq_ok. vm_compute. split; [discriminate|reflexivity].
  - done.
  - apply (bool_decide_unpack _). vm_compute. exact I.
  - split; [done|]. simpl. intros n ->%elem_of_singleton. split; [done|]. rewrite Hn. apply elem_of_app. right. constructor.
Qed.

End manager_sample.

Lemma replace_xds_exact_witness :
  ∃ cm' changes,
    ReplaceXDSClusters sample.InitMap manager_sample.cm (Some <$> [manager_sample.x_config "f" "10.0.1.2"]) = Ok (cm', changes) ∧
    endpoints_of (store cm') "c" = endpoints_of (store manager_sample.cm) "c" ∧
    getRuntimeCluster cm' "c" = getRuntimeCluster manager_sample.cm "c" ∧ xdsManaged cm' = {["x"]}.
Proof.
  destruct (ReplaceXDSClusters sample.InitMap manager_sample.cm (Some <$> [manager_sample.x_config "f" "10.0.1.2"]))
    as [[cm' changes]|e] eqn:E; [|vm_compute in E; discriminate].
  exists cm', changes. split; [reflexivity|].
  destruct (replace_xds_exact sample.InitMap sample.InitMap_hosts manager_sample.cm
    [manager_sample.x_config "f" "10.0.1.2"] cm' changes manager_sample.cm_is_ok) as (H1 & _ & H3 & _).
  - split; vm_compute; [discriminate|reflexivity].
  - exact E.
  - destruct (H3 "c") as [H4 H5]; [apply (bool_decide_unpack _); vm_compute; exact I..|]. split; [exact H4|].
    split; [exact H5|]. rewrite H1. vm_compute. reflexivity.
Defined.

Lemma remove_cluster_exact_witness :
  ∃ cm' changes, RemoveCluster manager_sample.cm ["x"; "y"] = Some (cm', changes) ∧
    endpoints_of (store cm') "x" = None ∧ endpoints_of (store cm') "c" = endpoints_of (store manager_sample.cm) "c".
Proof.
  destruct (RemoveCluster manager_sample.cm ["x"; "y"]) as [[cm' changes]|] eqn:E; [|vm_compute in E; discriminate].
  exists cm', changes. split; [reflexivity|].
  destruct (remove_cluster_exact sample.InitMap manager_sample.cm ["x"; "y"] cm' changes manager_sample.cm_is_ok E) as [H _].
  split; [exact (H "x")|exact (H "c")].
Defined.
