(* ===== verification/StoreSwap.v ===== *)
(** * Swapping in a rebuilt store: [CompareAndSetStore]

    A candidate with the version of the published store takes its place: every
    cluster of the candidate gets a runtime that inherits health and the round
    robin cursor, and every published runtime is stopped.  Any other candidate
    is refused and nothing changes. *)

From S2P Require Import Prelude GoStrings Sha256 Endpoint Snapshot Health Cluster ClusterStore StoreInv.
From S2P Require Import ClusterManager ManagerInv.

Section swap.
Context {CH : Type} (InitMap : string → option (ConsistentHash → list Endpoint → CH))
  (Hhosts : factories_read_hosts InitMap).
Implicit Types (cm : ClusterManager CH) (w : World CH) (s : ClusterStore) (c : ClusterConfig)
  (p : nat) (rt : Cluster CH) (P : gset nat) (m : gmap string nat).
#[local] Abbreviation store_ok := (store_but InitMap ∅).

(** ** The runtimes of a candidate *)

Lemma prepare_name w c : CName (prepareClusterConfig w c).2 = CName c.
Proof. unfold prepareClusterConfig, prepareOwnedClusterConfig. by case_decide. Qed.

Lemma prepare_id w c : ConfigID c ≠ 0%Z → assembled (Endpoints c) → prepareClusterConfig w c = (w, c).
Proof.
  intros Hid Ha. unfold prepareClusterConfig, prepareOwnedClusterConfig, assembleClusterEndpoints.
  rewrite decide_False, assemble_id by done. by rewrite set_Endpoints_id.
Qed.

(** A candidate may come with a runtime for a cluster. *)
Definition own_runtime P w s m c : Prop :=
  ∀ p, clustersMap s !! CName c = Some p →
    p ∈ P ∧ (∀ k, m !! k ≠ Some p) ∧ ∃ rt, heap w !! p = Some rt ∧ runs InitMap c rt.

(** A runtime of the candidate becomes one of the clusters that are done. *)
Lemma store_adopt P w done v m c p rt :
  store_but InitMap P w (mkClusterStore done v m) → CName c ∉ map CName done →
  (∀ k, m !! k ≠ Some p) → heap w !! p = Some rt → runs InitMap c rt →
  store_but InitMap P w (mkClusterStore (done ++ [c]) v (<[CName c := p]> m)).
Proof.
  intros [H1 H2 H3 H4 H5 H6] Hc Hno Hrt Hr. simpl in *. split; simpl.
  - rewrite map_app. apply NoDup_app. split_and!; [done| |apply NoDup_singleton]. by intros x Hx ->%list_elem_of_singleton.
  - intros n. rewrite map_app, elem_of_app, lookup_insert. cbn [map]. rewrite list_elem_of_singleton.
    case_decide as E; [split; [naive_solver|by eexists]|]. rewrite H2. naive_solver.
  - intros d [Hd| ->%list_elem_of_singleton]%elem_of_app; [|exists p, rt; by rewrite lookup_insert_eq].
    destruct (H3 d Hd) as (q & rtq & Hq & Hrtq & Hrq). exists q, rtq. rewrite lookup_insert_ne; [done|].
    intros Heq. apply Hc. rewrite Heq. by apply (list_elem_of_fmap_2 CName).
  - intros n1 n2 q. rewrite !lookup_insert. repeat case_decide; subst; naive_solver.
  - done.
  - intros q rtq Hq Hn HP. apply (H6 q rtq Hq); [|done]. intros n Hnq. apply (Hn n). rewrite lookup_insert_ne; [done|].
    intros <-. apply Hc. apply H2. eauto.
Qed.

Lemma set_clustersMap_id s : set_clustersMap s (clustersMap s) = s.
Proof. by destruct s. Qed.

(** One cluster of the candidate: it keeps its runtime when nothing is published
    under its name, and gets one that inherits the published snapshot
    otherwise. *)
Lemma snapshot_frame w (old : gmap string nat) name q rt :
  heap w !! q = Some rt → old !! name ≠ Some q →
  heap (snapshotForRuntimeReplacement w old name).1 !! q = Some rt.
Proof.
  intros Hq Hno. unfold snapshotForRuntimeReplacement. destruct (old !! name) as [p|]; [|done].
  destruct (heap w !! p); [|done]. simpl. rewrite lookup_insert_ne; [done|]. by intros ->.
Qed.

(** What one step of the repair does to the candidate and to the clusters that
    are done; [x] is the runtime of the cluster. *)
Definition repaired P v (old : gmap string nat) w s done m c (w' : World CH) x c' (r : option nat) : Prop :=
  built c c' ∧
  store_but InitMap P w' (mkClusterStore (done ++ [c']) v (<[CName c := x]> m)) ∧ same_runtimes P w w' ∧
  (x = nextPtr w ∧ r = clustersMap s !! CName c ∨ clustersMap s !! CName c = Some x ∧ r = None) ∧
  (∀ k, room (S k) w → room k w') ∧ nextPtr w ≤ nextPtr w' ∧
  ∀ q rt, heap w !! q = Some rt → old !! CName c ≠ Some q → heap w' !! q = Some rt.

Lemma repair_new P v (old : gmap string nat) w s done m c :
  store_but InitMap P w (mkClusterStore done v m) → seq_ok w → CName c ∉ map CName done →
  source_ok InitMap P w old m (CName c) →
  let '(w1, c1) := prepareClusterConfig w c in
  let '(w2, previous) := snapshotForRuntimeReplacement w1 old (CName c) in
  let '(w3, s3, r) := replaceClusterRuntimeWithSnapshot InitMap w2 s (CName c) c1 previous in
  s3 = set_clustersMap s (<[CName c := nextPtr w]> (clustersMap s)) ∧ repaired P v old w s done m c w3 (nextPtr w) c1 r.
Proof.
  intros Hok Hseq Hc Hsrc.
  pose proof (prepare_spec w c Hseq) as Hprep. pose proof (λ k, prepare_room k w c) as Hroom.
  destruct (prepareClusterConfig w c) as [w1 c1]. destruct Hprep as (Hh & Hn & Hname & Has & Hid & Hes & _).
  assert (store_but InitMap P w1 (mkClusterStore done v m)) as Hok1 by (by apply (store_same_heap InitMap P w)).
  pose proof (snapshot_source InitMap P w1 old (mkClusterStore done v m) (CName c) Hok1) as Hs.
  pose proof (snapshot_frame w1 old (CName c)) as Hfr.
  destruct (snapshotForRuntimeReplacement w1 old (CName c)) as [w2 previous].
  destruct Hs as (Hok2 & Hn2 & Hseq2 & Hprev & Hsame2); [unfold source_ok in *; by rewrite Hh|].
  rewrite <- Hname in Hc. pose proof (build_one InitMap Hhosts P w2 (mkClusterStore done v m) c1 previous Hok2 Has Hid Hc Hprev) as Hb.
  simpl in Hb. destruct Hb as (Hok3 & _ & _ & _ & _ & Hsame3). simpl. rewrite Hname, Hn2, Hn in *. split; [done|].
  split_and!; [done|done| |by left| | |].
  - apply (same_runtimes_trans P w w2); [|done]. unfold same_runtimes in *. by rewrite <- Hh.
  - intros k Hk. specialize (Hroom k Hk). unfold room in *. simpl in *. lia.
  - simpl. lia.
  - intros q rt Hq Ho. simpl. rewrite Hh in Hfr. specialize (Hfr q rt Hq Ho). simpl in Hfr. rewrite lookup_insert_ne; [done|].
    intros <-. assert (nextPtr w < nextPtr w); [|lia]. apply (so_fresh InitMap P w _ Hok). eauto.
Qed.

(** One cluster of the candidate: it keeps its runtime when nothing is published
    under its name, and gets one that inherits the published snapshot
    otherwise. *)
Lemma repair_step P v (old : gmap string nat) w s done m c :
  store_but InitMap P w (mkClusterStore done v m) → seq_ok w → CName c ∉ map CName done →
  source_ok InitMap P w old m (CName c) → own_runtime P w s m c →
  ∃ w' x c' r,
    repairRuntimeClusterFromPrevious InitMap w s old c =
      (w', set_clustersMap s (<[CName c := x]> (clustersMap s)), c', r) ∧ repaired P v old w s done m c w' x c' r.
Proof.
  intros Hok Hseq Hc Hsrc Hown. pose proof (repair_new P v old w s done m c Hok Hseq Hc Hsrc) as Hnew.
  unfold repairRuntimeClusterFromPrevious. pose proof (prepare_name w c) as Hname.
  destruct (prepareClusterConfig w c) as [w1 c1] eqn:Ep. simpl in Hname. rewrite Hname.
  destruct (snapshotForRuntimeReplacement w1 old (CName c)) as [w2 previous] eqn:Es.
  assert (∃ w' x c' r, (let '(w, s, replaced) := replaceClusterRuntimeWithSnapshot InitMap w2 s (CName c) c1 previous in
    (w, s, c1, replaced)) = (w', set_clustersMap s (<[CName c := x]> (clustersMap s)), c', r) ∧
    repaired P v old w s done m c w' x c' r) as Helse.
  { destruct (replaceClusterRuntimeWithSnapshot InitMap w2 s (CName c) c1 previous) as [[w3 s3] r]. destruct Hnew as [-> H]. eauto 10. }
  clear Hnew. destruct previous as [snap|]; [by destruct (clustersMap s !! CName c ≫= _)|].
  destruct (clustersMap s !! CName c) as [p|] eqn:Hp; [|done]. clear Helse. simpl.
  destruct (Hown p Hp) as (HP & Hno & rt & Hrt & Hr).
  rewrite prepare_id in Ep by (apply (runs_nonzero InitMap c rt Hr) || apply (runs_assembled InitMap c rt Hr)).
  injection Ep as <- <-. unfold snapshotForRuntimeReplacement in Es.
  assert (w2 = w) as ->.
  { destruct (old !! CName c) as [q|]; [|congruence]. destruct (heap w !! q); simpl in Es; congruence. }
  rewrite Hrt. unfold ConfigIsIdenticalTo. rewrite bool_decide_eq_true_2 by apply (runs_id InitMap c rt Hr).
  exists w, p, c, None. rewrite insert_id, set_clustersMap_id by done. split; [done|]. split_and!.
  - split; [done|]. by rewrite assemble_id by apply (runs_assembled InitMap c rt Hr).
  - by apply (store_adopt P w done v m c p rt).
  - intros q rtq Hq. eauto.
  - by right.
  - unfold room. intros k Hk. lia.
  - done.
  - done.
Qed.

(** The clusters that are still to be repaired. *)
Record todo_ok P w s (old : gmap string nat) m (done cfgs : list ClusterConfig) : Prop := {
  todo_names : NoDup (map CName cfgs);
  todo_named : "" ∉ map CName cfgs;
  todo_new c : c ∈ cfgs → CName c ∉ map CName done;
  todo_source c : c ∈ cfgs → source_ok InitMap P w old m (CName c);
  todo_own c : c ∈ cfgs → own_runtime P w s m c;
  todo_inj c d p : c ∈ cfgs → d ∈ cfgs →
    clustersMap s !! CName c = Some p → clustersMap s !! CName d = Some p → CName c = CName d;
  todo_apart c n p : c ∈ cfgs → clustersMap s !! CName c = Some p → old !! n ≠ Some p;
}.

Lemma todo_step P v w s (old : gmap string nat) done m c cfgs w' x c' r :
  store_but InitMap P w (mkClusterStore done v m) → todo_ok P w s old m done (c :: cfgs) →
  repaired P v old w s done m c w' x c' r →
  todo_ok P w' (set_clustersMap s (<[CName c := x]> (clustersMap s))) old (<[CName c := x]> m) (done ++ [c']) cfgs.
Proof.
  intros Hok [H1 H2 H3 H4 H5 H6 H7] ([Hn _] & _ & Hsame & Hx & _ & _ & Hfr).
  cbn [map] in *. apply NoDup_cons in H1 as [Hc H1]. apply not_elem_of_cons in H2 as [_ H2].
  assert (∀ d, d ∈ cfgs → CName c ≠ CName d) as Hne by (intros d Hd Heq; apply Hc; rewrite Heq; by apply (list_elem_of_fmap_2 CName)).
  assert (∀ d, d ∈ cfgs → d ∈ c :: cfgs) as Hin by (intros; by constructor).
  assert (c ∈ c :: cfgs) as Hcin by constructor.
  assert (∀ q rt, heap w !! q = Some rt → q ≠ nextPtr w) as Hlt.
  { intros q rt Hq ->. assert (nextPtr w < nextPtr w); [|lia]. apply (so_fresh InitMap P w _ Hok). eauto. }
  split; simpl; [done|done| | | | |].
  - intros d Hd. rewrite map_app, elem_of_app. cbn [map]. rewrite list_elem_of_singleton, Hn.
    intros [Hdn|Hdn]; [by apply (H3 d (Hin d Hd))|]. by apply (Hne d Hd).
  - intros d Hd q Hq. destruct (H4 d (Hin d Hd) q Hq) as (HP & Hno & rt & Hrt & Hwf). split_and!; [done| |].
    + intros k. rewrite lookup_insert. case_decide; [|done]. intros [= ->].
      destruct Hx as [[-> _]|[Hx _]]; [by apply (Hlt _ _ Hrt)|]. by apply (H7 c (CName d) q Hcin Hx).
    + destruct (Hsame q rt Hrt) as (rt' & Hrt' & He & _). exists rt'. by rewrite He.
  - intros d Hd q. simpl. rewrite lookup_insert_ne by auto. intros Hq.
    destruct (H5 d (Hin d Hd) q Hq) as (HP & Hno & rt & Hrt & Hrun). split_and!; [done| |].
    + intros k. rewrite lookup_insert. case_decide; [|done]. intros [= ->].
      destruct Hx as [[-> _]|[Hx _]]; [by apply (Hlt _ _ Hrt)|]. by apply (Hne d Hd), (H6 c d q Hcin (Hin d Hd)).
    + exists rt. split; [|done]. apply Hfr; [done|]. by apply (H7 d (CName c) q (Hin d Hd)).
  - intros d e p Hd He. rewrite !lookup_insert_ne by auto. intros Hp Hq. by apply (H6 d e p (Hin d Hd) (Hin e He)).
  - intros d n p Hd. rewrite lookup_insert_ne by auto. intros Hp. by apply (H7 d n p (Hin d Hd)).
Qed.

Lemma repair_ok P v (old : gmap string nat) cfgs w s done m :
  store_but InitMap P w (mkClusterStore done v m) → room (length cfgs) w → todo_ok P w s old m done cfgs →
  ∃ w' s' cfgs' m' replaced,
    repair_runtimes InitMap w s old cfgs = (w', s', cfgs', list_to_set (map CName cfgs), replaced) ∧
    Forall2 built cfgs cfgs' ∧ store_but InitMap P w' (mkClusterStore (done ++ cfgs') v m') ∧ same_runtimes P w w' ∧
    Version s' = Version s ∧
    (∀ n, if decide (n ∈ map CName cfgs) then m' !! n = clustersMap s' !! n
          else m' !! n = m !! n ∧ clustersMap s' !! n = clustersMap s !! n) ∧
    (∀ n p, m' !! n = Some p → m !! n = Some p ∨ clustersMap s !! n = Some p ∨ nextPtr w ≤ p) ∧
    ∀ q, Some q ∈ replaced ↔ ∃ c, c ∈ cfgs ∧ clustersMap s !! CName c = Some q ∧ m' !! CName c ≠ Some q.
Proof.
  revert w s done m. induction cfgs as [|c cfgs IH]; intros w s done m Hok Hroom Htodo.
  { exists w, s, [], m, []. rewrite app_nil_r. split_and!; try done; [|by left|].
    - intros q rt Hq. eauto.
    - intros q. split; [by intros ?%not_elem_of_nil|]. by intros (c & ?%not_elem_of_nil & _). }
  destruct (repair_step P v old w s done m c Hok (room_seq _ _ Hroom)) as (w1 & x & c1 & r & Hrun & Hrep);
    [apply Htodo; constructor..|].
  pose proof (todo_step P v w s old done m c cfgs w1 x c1 r Hok Htodo Hrep) as Htodo1.
  destruct Hrep as (Hb & Hok1 & Hsame1 & Hx & Hroom1 & Hn1 & _).
  destruct (IH w1 _ _ _ Hok1 (Hroom1 _ Hroom) Htodo1) as (w' & s' & cfgs' & m' & replaced & Hr & Hbs & Hok' & Hsame & Hv & Hm & Hmp & Hrepl).
  assert (∀ q, clustersMap s !! CName c = Some q → q ≠ nextPtr w) as Hfresh.
  { intros q Hq ->. destruct (todo_own _ _ _ _ _ _ _ Htodo c ltac:(constructor) _ Hq) as (_ & _ & rt & Hrt & _).
    assert (nextPtr w < nextPtr w); [|lia]. apply (so_fresh InitMap P w _ Hok). eauto. }
  destruct Htodo as [Hnd Hne _ _ _ _ _]. cbn [map] in *. apply NoDup_cons in Hnd as [Hc Hnd]. apply not_elem_of_cons in Hne as [Hc0 _].
  exists w', s', (c1 :: cfgs'), m', (r :: replaced). cbn [repair_runtimes]. rewrite Hrun, Hr.
  assert (CName c1 = CName c) as Hcn by (by destruct Hb). rewrite decide_False, Hcn by congruence.
  assert (m' !! CName c = Some x ∧ clustersMap s' !! CName c = Some x) as [Hmc Hsc].
  { specialize (Hm (CName c)). rewrite decide_False in Hm by done. simpl in Hm. by rewrite !lookup_insert_eq in Hm. }
  split_and!; [done|by constructor|by rewrite <- app_assoc in Hok'|by apply (same_runtimes_trans P w w1)|done| | |].
  - intros n. specialize (Hm n). simpl in Hm. destruct (decide (n = CName c)) as [->|Hnc].
    + rewrite decide_True by constructor. congruence.
    + rewrite !lookup_insert_ne in Hm by congruence. destruct (decide (n ∈ map CName cfgs)) as [Hin|Hin].
      * by rewrite decide_True by (by constructor).
      * by rewrite decide_False by (by apply not_elem_of_cons).
  - intros n p Hp. destruct (decide (n = CName c)) as [->|Hnc].
    + assert (p = x) as -> by congruence. destruct Hx as [[-> _]|[Hx _]]; [by do 2 right|by right; left].
    + destruct (Hmp n p Hp) as [H|[H|H]]; simpl in H; rewrite ?lookup_insert_ne in H by congruence; [by left|by right; left|do 2 right; lia].
  - intros q. rewrite elem_of_cons, Hrepl. simpl. split.
    + intros [Hq|(d & Hd & Hdq & Hdm)].
      * exists c. split_and!; [constructor|destruct Hx as [[_ ->]|[_ ->]]; [congruence|done]|].
        rewrite Hmc. intros [= ->]. destruct Hx as [[Hx ->]|[_ ->]]; [|done]. by apply (Hfresh q).
      * exists d. assert (CName d ≠ CName c). { intros Heq. apply Hc. rewrite <- Heq. by apply (list_elem_of_fmap_2 CName). }
        rewrite lookup_insert_ne in Hdq by congruence. split_and!; [by constructor|done|done].
    + intros (d & [->|Hd]%elem_of_cons & Hdq & Hdm).
      * left. destruct Hx as [[_ ->]|[Hx _]]; [done|congruence].
      * right. exists d. assert (CName d ≠ CName c). { intros Heq. apply Hc. rewrite <- Heq. by apply (list_elem_of_fmap_2 CName). }
        rewrite lookup_insert_ne by congruence. done.
Qed.

(** ** Cursors *)

Lemma store_alter P w s p (f : Cluster CH → Cluster CH) :
  store_but InitMap P w s → (∀ c rt, runs InitMap c rt → runs InitMap c (f rt)) → (∀ rt, idle rt → idle (f rt)) →
  store_but InitMap P (alter_runtime w p f) s.
Proof.
  intros [H1 H2 H3 H4 H5 H6] Hr Hi. split; simpl; [done|done| |done| |].
  - intros c Hc. destruct (H3 c Hc) as (q & rt & Hq & Hrt & Hrc). destruct (decide (p = q)) as [->|Hne].
    + exists q, (f rt). rewrite lookup_alter_eq, Hrt. split_and!; auto.
    + exists q, rt. rewrite lookup_alter_ne by done. done.
  - intros q. destruct (decide (p = q)) as [->|Hne].
    + rewrite lookup_alter_eq. destruct (heap w !! q) eqn:E; [|by intros []]. intros _. apply H5. by rewrite E.
    + rewrite lookup_alter_ne by done. apply H5.
  - intros q rt. destruct (decide (p = q)) as [->|Hne].
    + rewrite lookup_alter_eq. destruct (heap w !! q) as [rt0|] eqn:E; [|done]. intros [= <-] Hno HP. apply Hi. by eapply H6.
    + rewrite lookup_alter_ne by done. apply H6.
Qed.

Lemma carry_one_ok P old s w c : store_but InitMap P w s → store_but InitMap P (carry_one old s w c) s.
Proof.
  intros Hok. unfold carry_one. repeat case_match; try done. apply store_alter; [done| |by intros rt].
  intros d rt. apply CarryOver_runs.
Qed.

Lemma carry_all_ok P old s cfgs w : store_but InitMap P w s → store_but InitMap P (foldl (carry_one old s) w cfgs) s.
Proof. revert w. induction cfgs as [|c cfgs IH]; intros w Hok; [done|]. by apply IH, carry_one_ok. Qed.

(** Runtimes that are not of the new store are left alone. *)
Lemma carry_one_other old s w c q :
  (∀ n, clustersMap s !! n ≠ Some q) → heap (carry_one old s w c) !! q = heap w !! q.
Proof.
  intros Hno. unfold carry_one. destruct (clustersMap s !! CName c) as [p|] eqn:E; [|done].
  case_match; [|done]. simpl. apply lookup_alter_ne. intros ->. by apply (Hno (CName c)).
Qed.

Lemma carry_all_other old s cfgs w q :
  (∀ n, clustersMap s !! n ≠ Some q) → heap (foldl (carry_one old s) w cfgs) !! q = heap w !! q.
Proof.
  intros Hno. revert w. induction cfgs as [|c cfgs IH]; intros w; [done|]. cbn [foldl]. by rewrite IH, carry_one_other.
Qed.

(** The cursor of a published runtime moves to the new one of the same name. *)
Lemma carry_one_cursor (old s : ClusterStore) w c p rt q rt0 :
  clustersMap s !! CName c = Some p → heap w !! p = Some rt →
  clustersMap old !! CName c = Some q → heap w !! q = Some rt0 →
  heap (carry_one old s w c) !! p = Some (CarryOverCursorTo rt0 rt).
Proof.
  intros Hp Hrt Hq Hrt0. unfold carry_one. rewrite Hp, Hq. simpl. rewrite Hrt0. simpl. by rewrite lookup_alter_eq, Hrt.
Qed.

Lemma carry_one_keeps (old s : ClusterStore) w d c p rt :
  (∀ n1 n2 r, clustersMap s !! n1 = Some r → clustersMap s !! n2 = Some r → n1 = n2) →
  CName d ≠ CName c → clustersMap s !! CName c = Some p → heap w !! p = Some rt →
  heap (carry_one old s w d) !! p = Some rt.
Proof.
  intros Hinj Hne Hp Hrt. unfold carry_one. destruct (clustersMap s !! CName d) as [r|] eqn:E; [|done].
  case_match; [|done]. simpl. rewrite lookup_alter_ne; [done|]. intros ->. by apply Hne, (Hinj _ _ p).
Qed.

Lemma carry_all_cursor (old s : ClusterStore) cfgs w c p rt q rt0 :
  (∀ n1 n2 r, clustersMap s !! n1 = Some r → clustersMap s !! n2 = Some r → n1 = n2) →
  (∀ n, clustersMap s !! n ≠ Some q) → NoDup (map CName cfgs) → c ∈ cfgs →
  clustersMap s !! CName c = Some p → heap w !! p = Some rt →
  clustersMap old !! CName c = Some q → heap w !! q = Some rt0 →
  ∃ rt', heap (foldl (carry_one old s) w cfgs) !! p = Some rt' ∧ roundRobinCursor rt' = roundRobinCursor rt0.
Proof.
  intros Hinj Hq Hnd Hc Hp Hrt Hoq Hrt0. revert w rt Hnd Hc Hrt Hrt0.
  induction cfgs as [|d cfgs IH]; intros w rt Hnd Hc Hrt Hrt0; [by apply not_elem_of_nil in Hc|].
  cbn [map foldl] in *. apply NoDup_cons in Hnd as [Hd Hnd].
  destruct (decide (CName d = CName c)) as [Heq|Hne].
  - assert (∀ w rt1, heap w !! p = Some rt1 → heap (foldl (carry_one old s) w cfgs) !! p = Some rt1) as Hkeep.
    { clear -Hinj Hd Heq Hp. intros w rt1. revert w. induction cfgs as [|x cfgs IH]; intros w H; [done|].
      cbn [map foldl] in *. apply not_elem_of_cons in Hd as [Hx Hd]. apply IH; [done|].
      eapply carry_one_keeps; [done| |done|done]. congruence. }
    exists (CarryOverCursorTo rt0 rt). split; [|done]. apply Hkeep.
    assert (carry_one old s w d = carry_one old s w c) as -> by (unfold carry_one; by rewrite Heq).
    by eapply carry_one_cursor.
  - apply elem_of_cons in Hc as [->|Hc]; [done|]. eapply IH; [done|done| |].
    + by eapply carry_one_keeps.
    + by rewrite carry_one_other.
Qed.

(** ** The swap *)

Definition runtimes s : gset nat := list_to_set (snd <$> map_to_list (clustersMap s)).

Lemma elem_of_values m p : p ∈ snd <$> map_to_list m ↔ ∃ n, m !! n = Some p.
Proof.
  rewrite list_elem_of_fmap. split.
  - intros ([n q] & -> & H%elem_of_map_to_list). eauto.
  - intros (n & H). exists (n, p). split; [done|]. by apply elem_of_map_to_list.
Qed.

Lemma elem_of_all_runtimes s p : p ∈ runtimes s ↔ ∃ n, clustersMap s !! n = Some p.
Proof. unfold runtimes. rewrite elem_of_list_to_set. apply elem_of_values. Qed.

Lemma store_clear P w s v : store_but InitMap P w s → store_but InitMap (runtimes s ∪ P) w (mkClusterStore [] v ∅).
Proof.
  intros [H1 H2 H3 H4 H5 H6]. split; simpl.
  - constructor.
  - intros n. rewrite lookup_empty. split; [by intros []|by intros ?%not_elem_of_nil].
  - by intros c ?%not_elem_of_nil.
  - intros n1 n2 p. by rewrite lookup_empty.
  - done.
  - intros p rt Hrt _ [Hs HP]%not_elem_of_union. apply (H6 p rt Hrt); [|done].
    intros n Hn. apply Hs, elem_of_all_runtimes. eauto.
Qed.

Lemma store_shrink P P' w s :
  store_but InitMap P w s → (∀ q, q ∈ P → (∀ n, clustersMap s !! n ≠ Some q) → q ∈ P') → store_but InitMap P' w s.
Proof.
  intros [H1 H2 H3 H4 H5 H6] Hq. split; try done. intros p rt Hrt Hno HP'. apply (H6 p rt Hrt Hno). auto.
Qed.

Lemma built_find cs cs' v m v' m' n :
  Forall2 built cs cs' →
  endpoints_of (mkClusterStore cs' v m) n = assemble n 0 ∅ <$> endpoints_of (mkClusterStore cs v' m') n.
Proof.
  unfold endpoints_of, findClusterConfig; simpl. induction 1 as [|c c' cs cs' [Hn He] _ IH]; [done|]. simpl. rewrite Hn.
  case_decide as E; simpl; [by rewrite He, E|].
  destruct (list_find _ cs) as [[i d]|], (list_find _ cs') as [[i' d']|]; done.
Qed.

(** A candidate next to the published store [s]: its clusters are named and
    distinct, and the runtimes it has, if any, are its own and run its
    clusters. *)
Record candidate_ok w s cand : Prop := {
  cand_names : NoDup (map CName (Config cand));
  cand_named : "" ∉ map CName (Config cand);
  cand_dom n p : clustersMap cand !! n = Some p → n ∈ map CName (Config cand);
  cand_apart n k p : clustersMap cand !! n = Some p → clustersMap s !! k ≠ Some p;
  cand_inj n1 n2 p : clustersMap cand !! n1 = Some p → clustersMap cand !! n2 = Some p → n1 = n2;
  cand_runs c p : c ∈ Config cand → clustersMap cand !! CName c = Some p →
    ∃ rt, heap w !! p = Some rt ∧ runs InitMap c rt;
}.

Lemma candidate_todo w s cand :
  store_but InitMap (runtimes cand) w s → candidate_ok w s cand →
  todo_ok (runtimes s ∪ runtimes cand) w cand (clustersMap s) ∅ [] (Config cand).
Proof.
  intros Hok [H1 H2 H3 H4 H5 H6]. split; [done|done| | | | |].
  - intros c _. apply not_elem_of_nil.
  - intros c Hc p Hp. assert (CName c ∈ map CName (Config s)) as (d & Hd & Hin)%list_elem_of_fmap.
    { apply (so_dom InitMap _ _ _ Hok). eauto. }
    destruct (so_runs InitMap _ _ _ Hok d Hin) as (q & rt & Hq & Hrt & Hr). rewrite <- Hd, Hp in Hq. injection Hq as <-. split_and!.
    + apply elem_of_union_l, elem_of_all_runtimes. eauto.
    + intros k. by rewrite lookup_empty.
    + exists rt. split; [done|]. apply (runs_ok InitMap d rt Hr).
  - intros c Hc p Hp. destruct (H6 c p Hc Hp) as (rt & Hrt & Hr). split_and!; [|intros k; by rewrite lookup_empty|eauto].
    apply elem_of_union_r, elem_of_all_runtimes. eauto.
  - intros c d p _ _ Hp Hq. by apply (H5 _ _ p).
  - intros c n p _ Hp. by apply (H4 (CName c) n p).
Qed.

Lemma none_dropped m (names : list string) :
  (∀ n p, m !! n = Some p → n ∈ names) →
  filter (λ kv, kv.1 ∈ (list_to_set names : gset string)) m = m ∧
  filter (λ kv, kv.1 ∉ (list_to_set names : gset string)) m = ∅.
Proof.
  intros Hdom. split.
  - apply map_filter_id. intros n p Hp. simpl. rewrite elem_of_list_to_set. by eapply Hdom.
  - apply map_empty. intros n. apply map_lookup_filter_None. right. intros p Hp. simpl.
    rewrite elem_of_list_to_set. intros Hn. by eapply Hn, Hdom.
Qed.

Lemma published_below w s cand : store_but InitMap (runtimes cand) w s → ∀ k p, clustersMap s !! k = Some p → p < nextPtr w.
Proof.
  intros Hok k p Hk. assert (k ∈ map CName (Config s)) as (d & -> & Hd)%list_elem_of_fmap.
  { apply (so_dom InitMap _ _ _ Hok). eauto. }
  destruct (so_runs InitMap _ _ _ Hok d Hd) as (q & rt & Hq & Hrt & _). simplify_eq. apply (so_fresh InitMap _ _ _ Hok). eauto.
Qed.

(** The candidate with its runtimes, before any runtime is stopped. *)
Lemma ensure_from_ok w s cand :
  store_but InitMap (runtimes cand) w s → room (length (Config cand)) w → candidate_ok w s cand →
  let P := runtimes s ∪ runtimes cand in
  ∃ w' cfgs' m' replaced, let s' := mkClusterStore cfgs' (Version cand) m' in
    ensureRuntimeClustersFrom InitMap w cand s = (w', s', replaced) ∧ Forall2 built (Config cand) cfgs' ∧
    store_but InitMap P w' s' ∧ same_runtimes P w w' ∧ (∀ n p, m' !! n = Some p → p ∉ runtimes s) ∧
    ∀ q, Some q ∈ replaced ↔ q ∈ runtimes cand ∧ ∀ n, m' !! n ≠ Some q.
Proof.
  intros Hok Hroom Hcand. cbv zeta. unfold ensureRuntimeClustersFrom.
  destruct (repair_ok _ (Version cand) (clustersMap s) (Config cand) w cand [] ∅
    (store_clear _ w s _ Hok) Hroom (candidate_todo w s cand Hok Hcand))
    as (w' & s' & cfgs' & m' & replaced & -> & Hb & Hok' & Hsame & Hv & Hm & Hmp & Hrep).
  assert (∀ n, m' !! n = clustersMap s' !! n) as Heq.
  { intros n. specialize (Hm n). case_decide as Hn; [done|]. destruct Hm as [-> ->]. rewrite lookup_empty.
    destruct (clustersMap cand !! n) as [p|] eqn:E; [|done]. by destruct (Hn (cand_dom _ _ _ Hcand n p E)). }
  assert (clustersMap s' = m') as Hms by (apply map_eq; intros n; by rewrite Heq).
  assert (∀ n p, m' !! n = Some p → n ∈ map CName (Config cand)) as Hdom.
  { intros n p Hp. rewrite <- (built_names _ _ Hb). apply (so_dom InitMap _ _ _ Hok'). simpl. eauto. }
  destruct (none_dropped m' (map CName (Config cand)) Hdom) as [Hf1 Hf2].
  exists w', cfgs', m', (replaced ++ []). unfold removeRuntimeClustersNotIn, set_clustersMap, set_Config. simpl. rewrite Hms, Hf1, Hf2, Hv, map_to_list_empty.
  assert (∀ n p, m' !! n = Some p → clustersMap cand !! n = Some p ∨ nextPtr w ≤ p) as Hmp'.
  { intros n p Hp. destruct (Hmp n p Hp) as [H|H]; [by rewrite lookup_empty in H|done]. }
  split_and!; [done|done|done|done| |].
  - intros n p Hp (k & Hk)%elem_of_all_runtimes. destruct (Hmp' n p Hp) as [Hc|Hge].
    + by apply (cand_apart _ _ _ Hcand n k p).
    + pose proof (published_below w s cand Hok k p Hk). lia.
  - intros q. rewrite app_nil_r, Hrep. split.
    + intros (c & Hc & Hq & Hmq). split; [apply elem_of_all_runtimes; eauto|]. intros n Hn. destruct (Hmp' n q Hn) as [Hc'|Hge].
      * apply Hmq. by rewrite (cand_inj _ _ _ Hcand _ _ _ Hq Hc').
      * destruct (cand_runs _ _ _ Hcand c q Hc Hq) as (rt & Hrt & _). assert (q < nextPtr w); [|lia].
        apply (so_fresh InitMap _ _ _ Hok). eauto.
    + intros [(n & Hn)%elem_of_all_runtimes Hno]. pose proof (cand_dom _ _ _ Hcand n q Hn) as (c & -> & Hc)%list_elem_of_fmap.
      exists c. split_and!; [done|done|apply Hno].
Qed.

Lemma candidate_addresses cand s' n a :
  NoDup (map CName (Config cand)) → (∀ k, endpoints_of s' k = assemble k 0 ∅ <$> endpoints_of cand k) →
  has_pair (endpointAddressSnapshot (Some <$> Config cand)) n a ↔ has_address s' n a.
Proof.
  intros Hnd He. rewrite whole_store_addresses by done. unfold has_address. rewrite He.
  destruct (endpoints_of cand n) as [es|]; simpl; [|naive_solver]. split.
  - intros (x & [= ->] & Ha). eexists. split; [done|]. by rewrite assemble_addresses.
  - intros (x & [= <-] & Ha). eexists. split; [done|]. by rewrite assemble_addresses in Ha.
Qed.

(** The runtimes that are stopped are those of either store that the new store
    does not use. *)
Lemma replaced_runtimes s cand cfgs' v m' replaced q :
  (∀ q, Some q ∈ replaced ↔ q ∈ runtimes cand ∧ ∀ n, m' !! n ≠ Some q) →
  (∀ n p, m' !! n = Some p → p ∉ runtimes s) →
  Some q ∈ replaced ++ runtimeClustersNotIn s (mkClusterStore cfgs' v m') ↔
    q ∈ runtimes s ∪ runtimes cand ∧ ∀ n, m' !! n ≠ Some q.
Proof.
  intros Hr Hm. unfold runtimeClustersNotIn. rewrite elem_of_app, list_elem_of_fmap, Hr, elem_of_union. simpl. split.
  - intros [[Hq Hno]|(p & [= <-] & [Hno Hp]%list_elem_of_filter)]; [by split; [right|]|].
    split; [left; by apply elem_of_all_runtimes, elem_of_values|]. intros n Hn. apply Hno, elem_of_values. eauto.
  - intros [[Hq|Hq] Hno]; [right|by left]. exists q. split; [done|]. apply list_elem_of_filter. split.
    + intros (n & Hn)%elem_of_values. by apply (Hno n).
    + by apply elem_of_values, elem_of_all_runtimes.
Qed.

Lemma swap_cursor P cm cand w s' ps n rt :
  store_but InitMap P w s' → same_runtimes P (world cm) w →
  (∀ k p, clustersMap s' !! k = Some p → p ∉ runtimes (store cm)) →
  (∀ q, Some q ∈ ps → ∀ k, clustersMap s' !! k ≠ Some q) →
  (∀ k, endpoints_of s' k = assemble k 0 ∅ <$> endpoints_of cand k) →
  getRuntimeCluster cm n = Some rt → is_Some (endpoints_of cand n) →
  ∃ rt', clustersMap s' !! n ≫= (λ p, heap (stopClusters (carryOverRuntimeStateFrom w s' (store cm)) ps) !! p) = Some rt' ∧
    roundRobinCursor rt' = roundRobinCursor rt.
Proof.
  intros Hok1 Hsame Hm Hps He Hrt [es Hes]. unfold getRuntimeCluster in Hrt.
  destruct (clustersMap (store cm) !! n) as [q|] eqn:Hq; [|done]. simpl in Hrt.
  destruct (Hsame q rt Hrt) as (rt0 & Hrt0 & _ & Hc0 & _).
  assert (is_Some (endpoints_of s' n)) as [es' (i & c & [Hi Hcn]%findClusterConfig_Some & _)%endpoints_of_Some] by (rewrite He, Hes; eauto).
  destruct (so_runs InitMap _ _ _ Hok1 c) as (p & rtp & Hp & Hrtp & _); [by eapply list_elem_of_lookup_2|]. subst n.
  assert (q ∈ runtimes (store cm)) as HqP by (apply elem_of_all_runtimes; eauto).
  destruct (carry_all_cursor (store cm) s' (Config s') w c p rtp q rt0) as (rt' & Hrt' & Hc'); try done.
  - apply (so_inj InitMap _ _ _ Hok1).
  - intros k Hk. by apply (Hm k q).
  - apply (so_names InitMap _ _ _ Hok1).
  - by eapply list_elem_of_lookup_2.
  - exists rt'. rewrite Hp. simpl. split; [|congruence]. destruct (stop_from_heap ∅ (carryOverRuntimeStateFrom w s' (store cm)) ps) as [_ Hh].
    unfold stopClusters. rewrite Hh, decide_False; [exact Hrt'|]. intros [HP _]. by apply (Hps p HP (CName c)).
Qed.

Lemma CompareAndSet_spec cm cand :
  store_but InitMap (runtimes cand) (world cm) (store cm) → room (length (Config cand)) (world cm) →
  candidate_ok (world cm) (store cm) cand →
  let '(cm', swapped, changes) := CompareAndSetStore InitMap cm (Some cand) in
  if decide (Version cand = Version (store cm)) then
    swapped = true ∧ cm_ok InitMap cm' ∧ xdsManaged cm' = ∅ ∧ Version (store cm') = Version (store cm) ∧
    (∀ n, endpoints_of (store cm') n = assemble n 0 ∅ <$> endpoints_of cand n) ∧
    (∀ n rt, getRuntimeCluster cm n = Some rt → is_Some (endpoints_of cand n) →
       ∃ rt', getRuntimeCluster cm' n = Some rt' ∧ roundRobinCursor rt' = roundRobinCursor rt) ∧
    announces changes (nextEndpointEventID cm') (store cm) (store cm')
  else cm' = cm ∧ swapped = false ∧ changes = [].
Proof.
  intros Hok Hroom Hcand. unfold CompareAndSetStore. simpl default. case_decide as Hv; [|done].
  unfold nextEndpointEventIDLocked.
  destruct (ensure_from_ok (world cm) (store cm) cand Hok Hroom Hcand)
    as (w & cfgs' & m' & replaced & -> & Hb & Hok1 & Hsame & Hm & Hrep).
  set (s' := mkClusterStore cfgs' (Version cand) m') in *. set (w1 := carryOverRuntimeStateFrom w s' (store cm)).
  set (P := runtimes (store cm) ∪ runtimes cand) in *. set (ps := replaced ++ runtimeClustersNotIn (store cm) s').
  assert (∀ q, Some q ∈ ps ↔ q ∈ P ∧ ∀ n, m' !! n ≠ Some q) as Hps by (intros q; by apply replaced_runtimes).
  assert (store_ok (stopClusters w1 ps) s') as Hok'.
  { apply (stopClusters_ok InitMap (list_to_set (omap id ps))).
    - apply (store_shrink P); [by apply carry_all_ok|]. intros q HP Hno. apply elem_of_list_to_set, list_elem_of_omap.
      exists (Some q). split; [|done]. by apply Hps.
    - intros q. rewrite elem_of_list_to_set, list_elem_of_omap. unfold id. naive_solver.
    - intros n p Hp (o & Ho & Hid)%elem_of_list_to_set%list_elem_of_omap. unfold id in Hid. subst o.
      apply Hps in Ho as [_ Hno]. by apply (Hno n). }
  assert (∀ n, endpoints_of s' n = assemble n 0 ∅ <$> endpoints_of cand n) as He.
  { intros n. etransitivity; [by apply (built_find (Config cand) cfgs' _ _ (Version cand) (clustersMap cand))|]. by destruct cand. }
  split_and!; [done|split; [done|set_solver]|done|by simpl|done| |].
  - intros n rt Hrt Hn. apply (swap_cursor P cm cand w s' ps); try done. intros q Hq. by apply Hps.
  - intros n a b v'. rewrite elem_of_changes.
    pose proof (whole_store_addresses (store cm) n a (so_names InitMap _ _ _ Hok)).
    pose proof (candidate_addresses cand s' n a (cand_names _ _ _ Hcand) He). simpl. destruct b; tauto.
Qed.

(** C32: a candidate replaces the published store exactly when its version is the
    published one.  Then every cluster has the endpoints of the candidate and a
    runtime with the cursor of its predecessor, and xDS owns nothing; the version
    is not advanced.  Otherwise nothing happens. *)
Theorem compare_and_set_exact cm cand :
  store_but InitMap (runtimes cand) (world cm) (store cm) → room (length (Config cand)) (world cm) →
  candidate_ok (world cm) (store cm) cand →
  let '(cm', swapped, changes) := CompareAndSetStore InitMap cm (Some cand) in
  if decide (Version cand = Version (store cm)) then
    swapped = true ∧ xdsManaged cm' = ∅ ∧ Version (store cm') = Version (store cm) ∧
    (∀ n, endpoints_of (store cm') n = assemble n 0 ∅ <$> endpoints_of cand n) ∧
    (∀ n rt, getRuntimeCluster cm n = Some rt → is_Some (endpoints_of cand n) →
       ∃ rt', getRuntimeCluster cm' n = Some rt' ∧ roundRobinCursor rt' = roundRobinCursor rt)
  else cm' = cm ∧ swapped = false ∧ changes = [].
Proof.
  intros Hok Hroom Hcand. pose proof (CompareAndSet_spec cm cand Hok Hroom Hcand) as H.
  destruct (CompareAndSetStore InitMap cm (Some cand)) as [[cm' swapped] changes]. case_decide; [|done].
  destruct H as (H1 & _ & H2 & H3 & H4 & H5 & _). done.
Qed.

(** ** Giving back the published store *)

Lemma announces_same_store v s s' old :
  (∀ other, endpoints_of s' other = endpoints_of s other) → announces (endpointStateChanges old old v) v s s'.
Proof.
  intros He n a b v'. rewrite elem_of_changes. unfold has_address. rewrite He. destruct b; tauto.
Qed.

Lemma ensure_runtimes_id w s cfgs :
  store_ok w s → (∀ c, c ∈ cfgs → c ∈ Config s) →
  ensure_runtimes InitMap w s cfgs = (w, s, cfgs, list_to_set (map CName cfgs), (λ _, None) <$> cfgs).
Proof.
  intros Hok. induction cfgs as [|c cfgs IH]; intros Hin; [done|]. cbn [ensure_runtimes].
  destruct (so_runs InitMap ∅ w s Hok c) as (p & rt & Hp & Hrt & Hr); [apply Hin; constructor|].
  rewrite prepare_id by (apply (runs_nonzero InitMap c rt Hr) || apply (runs_assembled InitMap c rt Hr)).
  rewrite Hp. simpl. rewrite Hrt. unfold ConfigIsIdenticalTo.
  rewrite bool_decide_eq_true_2 by apply (runs_id InitMap c rt Hr).
  by rewrite IH by (intros d Hd; apply Hin; by constructor).
Qed.

Lemma swap_self cm :
  cm_ok InitMap cm →
  let '(cm', swapped, changes) := CompareAndSetStore InitMap cm None in
  swapped = true ∧ cm_ok InitMap cm' ∧ announces changes (nextEndpointEventID cm') (store cm) (store cm').
Proof.
  intros [Hok _]. unfold CompareAndSetStore. simpl default. rewrite decide_True by done.
  unfold nextEndpointEventIDLocked, ensureRuntimeClusters. rewrite ensure_runtimes_id by done.
  assert (∀ n p, clustersMap (store cm) !! n = Some p → n ∈ map CName (Config (store cm))) as Hdom.
  { intros n p Hp. apply (so_dom InitMap _ _ _ Hok). eauto. }
  unfold removeRuntimeClustersNotIn. simpl.
  rewrite (map_filter_id (λ kv, kv.1 ∈ list_to_set (map CName (Config (store cm)))) (clustersMap (store cm)))
    by (intros n p Hp; simpl; rewrite elem_of_list_to_set; by eapply Hdom).
  assert (filter (λ kv, kv.1 ∉ list_to_set (map CName (Config (store cm)))) (clustersMap (store cm)) = ∅) as ->.
  { apply map_empty. intros n. apply map_lookup_filter_None. right. intros p Hp. simpl.
    rewrite elem_of_list_to_set. intros Hn. by eapply Hn, Hdom. }
  rewrite map_to_list_empty. split_and!; [done| |by apply announces_same_store].
  split; [|set_solver]. simpl. eapply (stopClusters_ok InitMap ∅); [by apply carry_all_ok, (store_version InitMap ∅ (world cm) (store cm))| |].
  - intros q. split; [set_solver|]. rewrite app_nil_r. by intros (c & Hc & _)%list_elem_of_fmap.
  - set_solver.
Qed.

(** ** Reconciliation with a registry

    [fetchCompareAndSet] of [pkg/adapter/springcloud/cloud.go] fills a new store,
    one endpoint after the other, and swaps it in. *)

Fixpoint register_all w cand (instances : list (string * Endpoint)) : World CH * ClusterStore :=
  match instances with
  | [] => (w, cand)
  | (name, e) :: instances =>
      let '(w, cand, _) := ClusterStore.SetEndpoint InitMap w cand name (Some e) in register_all w cand instances
  end.

Definition reconcile cm (version : Z) (instances : list (string * Endpoint))
    : ClusterManager CH * bool * list endpointStateChange :=
  let '(w, cand) := register_all (world cm) (NewStore version) instances in
  CompareAndSetStore InitMap (set_store cm w (store cm)) (Some cand).

(** The endpoints of a cluster once the instances are registered. *)
Definition register_in (name : string) (acc : option (list (option Endpoint))) (instance : string * Endpoint) :=
  if decide (name = instance.1) then Some (set_endpoints name instance.2 (default [] acc)) else acc.

Definition registered (instances : list (string * Endpoint)) (name : string) : option (list (option Endpoint)) :=
  foldl (register_in name) None instances.

Lemma stop_from_seq st w ps : configIDSeq (stop_from st w ps) = configIDSeq w.
Proof. revert st w. induction ps as [|[p|] ps IH]; intros st w; simpl; [done| |apply IH]. case_decide; by rewrite IH. Qed.

Lemma AddCluster_room k w s c : CName c ≠ "" → room (S k) w → room k (ClusterStore.AddCluster InitMap w s c).1.
Proof.
  intros Hne Hroom. unfold ClusterStore.AddCluster. rewrite decide_False by done.
  pose proof (prepare_room k w c Hroom) as H. destruct (prepareClusterConfig w c) as [w1 c1].
  unfold replaceClusterRuntime, snapshotForRuntimeReplacement, replaceClusterRuntimeWithSnapshot, room, stopClusters in *.
  repeat case_match; simplify_eq/=; rewrite ?stop_from_seq; done.
Qed.

(** [SetEndpoint] works on a cluster that is there, or on one it adds. *)
Lemma SetEndpoint_cases P w s name e :
  store_but InitMap P w s → seq_ok w → name ≠ "" →
  ∃ w1 s1 i c p rt out,
    ClusterStore.SetEndpoint InitMap w s name (Some e) =
      (set_heap w1 (<[p := rt]> (heap w1)),
       set_Config s1 (<[i := set_Endpoints c (set_endpoints name e (Endpoints c))]> (Config s1)), out) ∧
    Config s1 !! i = Some c ∧ ((w1, s1) = (w, s) ∨ (w1, s1) = ClusterStore.AddCluster InitMap w s (fresh_config name)).
Proof.
  intros Hok Hseq Hne. unfold ClusterStore.SetEndpoint. destruct (findClusterConfig s name) as [[i c]|] eqn:Hf.
  - destruct (set_endpoint_at_shape InitMap Hhosts w s name i c e Hok Hf) as (p & rt' & out & -> & _).
    apply findClusterConfig_Some in Hf as [Hi _]. exists w, s, i, c, p, rt', out. eauto.
  - pose proof (findClusterConfig_None _ _ Hf) as Hnot.
    pose proof (AddCluster_ok InitMap Hhosts w s (fresh_config name) Hok Hseq Hne Hnot) as Hadd.
    destruct (ClusterStore.AddCluster InitMap w s (fresh_config name)) as [w1 s1]. destruct Hadd as (Hok1 & c' & Hcfg & Hcn & _).
    rewrite Hcfg, last_snoc, length_app. simpl. rewrite Nat.add_1_r. simpl.
    assert (findClusterConfig s1 name = Some (length (Config s), c')) as Hf1.
    { rewrite (find_config_only s1 (mkClusterStore (Config s ++ [c']) (Version s) (clustersMap s))) by done.
      rewrite find_snoc, Hf. by rewrite decide_True. }
    destruct (set_endpoint_at_shape InitMap Hhosts w1 s1 name _ c' e Hok1 Hf1) as (p & rt' & out & -> & _).
    apply findClusterConfig_Some in Hf1 as [Hi _]. exists w1, s1, (length (Config s)), c', p, rt', out. eauto.
Qed.

Lemma SetEndpoint_room P k w s name e :
  store_but InitMap P w s → name ≠ "" → room (S k) w → room k (ClusterStore.SetEndpoint InitMap w s name (Some e)).1.1.
Proof.
  intros Hok Hne Hroom. destruct (SetEndpoint_cases P w s name e Hok (room_seq _ _ Hroom) Hne)
    as (w1 & s1 & i & c & p & rt & out & -> & _ & [[= -> ->]|Hadd]); [unfold room in *; simpl; lia|].
  pose proof (AddCluster_room k w s (fresh_config name) Hne Hroom) as Hr. rewrite <- Hadd in Hr. exact Hr.
Qed.

(** A store filled by [SetEndpoint] alone configures no health checks. *)
Definition unchecked s : Prop := Forall (λ c, has_checks c = false) (Config s).

Lemma SetEndpoint_unchecked P w s name e :
  store_but InitMap P w s → seq_ok w → name ≠ "" → unchecked s →
  unchecked (ClusterStore.SetEndpoint InitMap w s name (Some e)).1.2.
Proof.
  intros Hok Hseq Hne Hun. destruct (SetEndpoint_cases P w s name e Hok Hseq Hne)
    as (w1 & s1 & i & c & p & rt & out & -> & Hi & Hcase).
  assert (unchecked s1) as Hun1.
  { destruct Hcase as [[= -> ->]|Hadd]; [done|]. revert Hadd. unfold ClusterStore.AddCluster. rewrite decide_False by done.
    pose proof (prepare_spec w (fresh_config name) Hseq) as Hp. destruct (prepareClusterConfig w (fresh_config name)) as [w2 c2].
    destruct Hp as (_ & _ & _ & _ & _ & _ & Hc2).
    unfold replaceClusterRuntime, snapshotForRuntimeReplacement, replaceClusterRuntimeWithSnapshot.
    intros Hadd. assert (Config s1 = Config s ++ [c2]) as Hcfg by (repeat case_match; by simplify_eq/=).
    unfold unchecked. rewrite Hcfg. apply Forall_app. split; [done|]. apply Forall_singleton.
    unfold has_checks. by rewrite Hc2. }
  apply Forall_insert; [done|]. apply (Forall_lookup_1 _ _ _ _ Hun1 Hi).
Qed.

(** The published store [s] and a candidate that is being filled. *)
Record beside w s cand : Prop := {
  beside_published : store_but InitMap (runtimes cand) w s;
  beside_candidate : store_but InitMap (runtimes s) w cand;
  beside_apart n k p : clustersMap cand !! n = Some p → clustersMap s !! k ≠ Some p;
  beside_unchecked : unchecked cand;
  beside_named : "" ∉ map CName (Config cand);
}.

Lemma beside_start w s v : store_ok w s → beside w s (NewStore v).
Proof.
  intros Hok. split; simpl.
  - by apply (store_shrink ∅); [|set_solver].
  - apply (store_shrink (runtimes s ∪ ∅)); [by apply store_clear|]. set_solver.
  - intros n k p. by rewrite lookup_empty.
  - constructor.
  - apply not_elem_of_nil.
Qed.

(** The published store after a step that only touched the candidate. *)
Lemma published_frame w w' s cand cand' :
  beside w s cand → store_but InitMap (runtimes s) w' cand' →
  (∀ q, q < nextPtr w → (∀ n, clustersMap cand !! n ≠ Some q) → heap w' !! q = heap w !! q) →
  store_but InitMap (runtimes cand') w' s.
Proof.
  intros [[H1 H2 H3 H4 H5 H6] _ Hap _ _] Hok' Hframe. split; try done.
  - intros c Hc. destruct (H3 c Hc) as (p & rt & Hp & Hrt & Hr). exists p, rt. rewrite Hframe; [done|apply H5; eauto|].
    intros n Hn. by apply (Hap n (CName c) p).
  - apply (so_fresh InitMap _ _ _ Hok').
  - intros p rt Hrt Hno HP. apply (so_idle InitMap _ _ _ Hok' p rt Hrt).
    + intros n Hn. apply HP, elem_of_all_runtimes. eauto.
    + intros (n & Hn)%elem_of_all_runtimes. by apply (Hno n).
Qed.

Lemma beside_step w s cand name e :
  beside w s cand → seq_ok w → name ≠ "" →
  let '(w', cand', _) := ClusterStore.SetEndpoint InitMap w cand name (Some e) in
  beside w' s cand' ∧ Version cand' = Version cand ∧ (∀ k p, clustersMap s !! k = Some p → heap w' !! p = heap w !! p) ∧
  (∀ n, endpoints_of cand' n = register_in n (endpoints_of cand n) (name, e)).
Proof.
  intros Hb Hseq Hne. pose proof Hb as [Hpub Hown Hap Hun Hnm].
  pose proof (SetEndpoint_ok InitMap Hhosts w cand name e Hown Hseq Hne) as H1.
  pose proof (SetEndpoint_frame InitMap Hhosts w cand name e Hown Hseq Hne) as H2.
  pose proof (SetEndpoint_unchecked _ w cand name e Hown Hseq Hne Hun) as H3.
  destruct (ClusterStore.SetEndpoint InitMap w cand name (Some e)) as [[w' cand'] out]. simpl in H3.
  destruct H1 as (Hok' & Hv & He), H2 as (_ & Hframe & Hptr). split_and!; [split|done| |].
  - by apply (published_frame w w' s cand).
  - done.
  - intros n k p Hn Hk. destruct (Hptr n p Hn) as [Hc|Hge]; [by apply (Hap n k p)|].
    pose proof (published_below w s cand Hpub k p Hk). lia.
  - done.
  - apply endpoints_of_None. rewrite He, decide_False by done. by apply endpoints_of_None.
  - intros k p Hk. apply Hframe; [by apply (published_below w s cand Hpub k)|]. intros n Hn. by apply (Hap n k p).
  - intros n. rewrite He. unfold register_in; simpl. case_decide; [by subst|done].
Qed.

Lemma register_ok instances w s cand :
  beside w s cand → room (length instances) w → "" ∉ map fst instances →
  let '(w', cand') := register_all w cand instances in
  beside w' s cand' ∧ Version cand' = Version cand ∧ (∀ k p, clustersMap s !! k = Some p → heap w' !! p = heap w !! p) ∧
  (∀ n, endpoints_of cand' n = foldl (register_in n) (endpoints_of cand n) instances).
Proof.
  revert w cand. induction instances as [|[name e] instances IH]; intros w cand Hb Hroom Hne; [done|].
  cbn [register_all map fst foldl length] in *. apply not_elem_of_cons in Hne as [Hname Hne].
  pose proof (beside_step w s cand name e Hb (room_seq _ _ Hroom) (not_eq_sym Hname)) as H1.
  pose proof (SetEndpoint_room _ _ w cand name e (beside_candidate _ _ _ Hb) (not_eq_sym Hname) Hroom) as H2.
  destruct (ClusterStore.SetEndpoint InitMap w cand name (Some e)) as [[w' cand'] out].
  destruct H1 as (Hb' & Hv & Hfr & He). specialize (IH w' cand' Hb' H2 Hne).
  destruct (register_all w' cand' instances) as [w2 cand2]. destruct IH as (Hb2 & Hv2 & Hfr2 & He2).
  split_and!; [done|congruence| |intros n; by rewrite He2, He].
  intros k p Hk. by rewrite (Hfr2 k p Hk), (Hfr k p Hk).
Qed.

Lemma register_room instances k w s cand :
  beside w s cand → room (length instances + k) w → "" ∉ map fst instances → room k (register_all w cand instances).1.
Proof.
  revert w cand. induction instances as [|[name e] instances IH]; intros w cand Hb Hroom Hne; [done|].
  cbn [register_all map fst length] in *. apply not_elem_of_cons in Hne as [Hname Hne].
  pose proof (beside_step w s cand name e Hb (room_seq _ _ Hroom) (not_eq_sym Hname)) as H1.
  pose proof (SetEndpoint_room _ _ w cand name e (beside_candidate _ _ _ Hb) (not_eq_sym Hname) Hroom) as H2.
  destruct (ClusterStore.SetEndpoint InitMap w cand name (Some e)) as [[w' cand'] out].
  destruct H1 as (Hb' & _). by apply IH.
Qed.

(** A filled candidate may be swapped in, and may as well be dropped: nothing it
    owns is running. *)
Lemma beside_candidate_ok w s cand : beside w s cand → candidate_ok w s cand.
Proof.
  intros [_ [H1 H2 H3 H4 _ _] Hap _ Hnm]. split; try done.
  - intros n p Hp. apply H2. eauto.
  - intros c p Hc Hp. destruct (H3 c Hc) as (q & rt & Hq & Hrt & Hr). rewrite Hp in Hq. injection Hq as <-. eauto.
Qed.

Lemma beside_drop w s cand : beside w s cand → store_ok w s.
Proof.
  intros [[H1 H2 H3 H4 H5 H6] Hcand _ Hun _]. split; try done. intros p rt Hrt Hno _.
  destruct (decide (p ∈ runtimes cand)) as [(n & Hn)%elem_of_all_runtimes|Hp]; [|by apply (H6 p rt)].
  assert (n ∈ map CName (Config cand)) as (c & -> & Hc)%list_elem_of_fmap by (apply (so_dom InitMap _ _ _ Hcand); eauto).
  destruct (so_runs InitMap _ _ _ Hcand c Hc) as (q & rt' & Hq & Hrt' & Hr). rewrite Hn in Hq. injection Hq as <-.
  rewrite Hrt in Hrt'. injection Hrt' as <-. unfold unchecked in Hun. rewrite Forall_forall in Hun.
  intros k Hk. assert (HealthCheck rt = None) as Hnone by apply (runs_checks InitMap c rt Hr), Hun, Hc. congruence.
Qed.

Lemma registered_name instances n : is_Some (registered instances n) → n ∈ map fst instances.
Proof.
  unfold registered. assert (∀ acc, is_Some (foldl (register_in n) acc instances) → is_Some acc ∨ n ∈ map fst instances) as H.
  { induction instances as [|[m e] instances IH]; intros acc Ha; [by left|]. cbn [foldl map fst] in *.
    destruct (IH _ Ha) as [Hacc|Hin]; [|right; by constructor]. unfold register_in in Hacc; simpl in Hacc.
    case_decide; [subst; right; constructor|by left]. }
  intros [Hs|Hin]%H; [|done]. by destruct Hs.
Qed.

Lemma registered_length w s cand instances :
  beside w s cand → (∀ n, endpoints_of cand n = registered instances n) → length (Config cand) ≤ length instances.
Proof.
  intros [_ Hown _ _ _] He. rewrite <- (length_fmap CName), <- (length_fmap fst instances).
  apply submseteq_length, NoDup_submseteq; [apply (so_names InitMap _ _ _ Hown)|]. intros n Hn.
  apply registered_name. rewrite <- He. destruct (endpoints_of cand n) eqn:E; [by eexists|]. by apply endpoints_of_None in E.
Qed.

(** What is swapped in is what was registered: the candidate is assembled already. *)
Lemma beside_assembled w s cand n : beside w s cand → assemble n 0 ∅ <$> endpoints_of cand n = endpoints_of cand n.
Proof.
  intros [_ Hown _ _ _]. destruct (endpoints_of cand n) as [es|] eqn:E; [|done]. simpl.
  by rewrite assemble_id by apply (endpoints_of_assembled InitMap w cand n es Hown E).
Qed.

Lemma room_le k l w : k ≤ l → room l w → room k w.
Proof. unfold room. lia. Qed.

Lemma reconcile_spec cm version instances :
  cm_ok InitMap cm → room (length instances + length instances) (world cm) → "" ∉ map fst instances →
  let '(cm', swapped, changes) := reconcile cm version instances in
  cm_ok InitMap cm' ∧ announces changes (nextEndpointEventID cm') (store cm) (store cm') ∧
  if decide (version = Version (store cm)) then
    swapped = true ∧ xdsManaged cm' = ∅ ∧ (∀ n, endpoints_of (store cm') n = registered instances n) ∧
    (∀ n rt, getRuntimeCluster cm n = Some rt → is_Some (registered instances n) →
       ∃ rt', getRuntimeCluster cm' n = Some rt' ∧ roundRobinCursor rt' = roundRobinCursor rt)
  else
    swapped = false ∧ changes = [] ∧ store cm' = store cm ∧ (∀ n, getRuntimeCluster cm' n = getRuntimeCluster cm n).
Proof.
  intros [Hok Hman] Hroom Hne. unfold reconcile.
  pose proof (beside_start (world cm) (store cm) version Hok) as Hb0.
  pose proof (register_ok instances _ _ _ Hb0 (room_le _ _ _ (Nat.le_add_r _ _) Hroom) Hne) as Hreg.
  pose proof (register_room instances (length instances) _ _ _ Hb0 Hroom Hne) as Hr.
  destruct (register_all (world cm) (NewStore version) instances) as [w cand]. simpl in Hr.
  destruct Hreg as (Hb & Hv & Hfr & He). change (∀ n, endpoints_of cand n = registered instances n) in He.
  set (cm1 := set_store cm w (store cm)).
  assert (∀ n, getRuntimeCluster cm1 n = getRuntimeCluster cm n) as Hget.
  { intros n. unfold getRuntimeCluster, cm1; simpl. destruct (clustersMap (store cm) !! n) as [p|] eqn:E; [|done]. apply (Hfr n p E). }
  pose proof (CompareAndSet_spec cm1 cand (beside_published _ _ _ Hb)
    (room_le _ _ _ (registered_length _ _ _ _ Hb He) Hr) (beside_candidate_ok _ _ _ Hb)) as H.
  destruct (CompareAndSetStore InitMap cm1 (Some cand)) as [[cm' swapped] changes]. rewrite Hv in H. simpl in H.
  case_decide as Hver.
  - destruct H as (-> & Hcm' & Hx & _ & Hes & Hcur & Hann). split_and!; try done.
    + intros n. by rewrite Hes, (beside_assembled _ _ _ n Hb).
    + intros n rt Hn Hs. apply Hcur; [by rewrite Hget|by rewrite He].
  - destruct H as (-> & -> & ->). split_and!; try done.
    + split; [by apply (beside_drop _ _ cand)|done].
    + intros n a b v'. split; [by intros ?%not_elem_of_nil|]. destruct b; tauto.
Qed.

(** A reconciliation with a registry, started from the published version,
    makes the clusters exactly what the registry reported, with the endpoints the
    registrations of a cluster add up to and the cursors it had.  When the
    version has moved on, the traffic is served as before, from the same
    runtimes. *)
Theorem reconcile_exact cm version instances :
  cm_ok InitMap cm → room (length instances + length instances) (world cm) → "" ∉ map fst instances →
  let '(cm', swapped, changes) := reconcile cm version instances in
  if decide (version = Version (store cm)) then
    swapped = true ∧ xdsManaged cm' = ∅ ∧ (∀ n, endpoints_of (store cm') n = registered instances n) ∧
    (∀ n rt, getRuntimeCluster cm n = Some rt → is_Some (registered instances n) →
       ∃ rt', getRuntimeCluster cm' n = Some rt' ∧ roundRobinCursor rt' = roundRobinCursor rt)
  else
    swapped = false ∧ changes = [] ∧ store cm' = store cm ∧ (∀ n, getRuntimeCluster cm' n = getRuntimeCluster cm n).
Proof.
  intros Hcm Hroom Hne. pose proof (reconcile_spec cm version instances Hcm Hroom Hne) as H.
  destruct (reconcile cm version instances) as [[cm' swapped] changes]. by destruct H as (_ & _ & H).
Qed.

End swap.

Lemma compare_and_set_exact_witness :
  let cand := mkClusterStore [manager_sample.x_config "f" "10.0.1.2"] 0 ∅ in
  let '(cm', swapped, _) := CompareAndSetStore sample.InitMap manager_sample.cm (Some cand) in
  swapped = true ∧ xdsManaged cm' = ∅ ∧ endpoints_of (store cm') "c" = None.
Proof.
  cbv zeta.
  pose proof (compare_and_set_exact sample.InitMap sample.InitMap_hosts manager_sample.cm
    (mkClusterStore [manager_sample.x_config "f" "10.0.1.2"] 0 ∅)) as H.
  destruct (CompareAndSetStore sample.InitMap manager_sample.cm _) as [[cm' swapped] changes].
  destruct H as (H1 & H2 & _ & H3 & _).
  - apply (store_shrink sample.InitMap ∅); [apply manager_sample.cm_is_ok|set_solver].
  - split; vm_compute; [discriminate|reflexivity].
  - split; simpl.
    + apply NoDup_singleton.
    + apply (bool_decide_unpack _). vm_compute. exact I.
    + intros n p. by rewrite lookup_empty.
    + intros n k p. by rewrite lookup_empty.
    + intros n1 n2 p. by rewrite lookup_empty.
    + intros c p _. by rewrite lookup_empty.
  - split; [exact H1|]. split; [exact H2|]. rewrite H3. reflexivity.
Defined.

Lemma reconcile_exact_witness :
  let instances := [("d", sample.endpoint "m" "10.0.3.1" 80 false); ("d", sample.endpoint "n" "10.0.3.2" 80 false)] in
  let '(cm', swapped, _) := reconcile sample.InitMap manager_sample.cm 0 instances in
  swapped = true ∧ endpoint_ids <$> endpoints_of (store cm') "d" = Some ["m"; "n"] ∧ endpoints_of (store cm') "c" = None.
Proof.
  cbv zeta.
  pose proof (reconcile_exact sample.InitMap sample.InitMap_hosts manager_sample.cm 0
    [("d", sample.endpoint "m" "10.0.3.1" 80 false); ("d", sample.endpoint "n" "10.0.3.2" 80 false)]
    manager_sample.cm_is_ok) as H.
  destruct (reconcile sample.InitMap manager_sample.cm 0 _) as [[cm' swapped] changes].
  destruct H as (H1 & _ & H2 & _).
  - split; vm_compute; [discriminate|reflexivity].
  - apply (bool_decide_unpack _). vm_compute. exact I.
  - split; [exact H1|]. rewrite !H2. split; vm_compute; reflexivity.
Defined.
