(* ===== verification/ManagerRun.v ===== *)
(** * Every history of the cluster manager

    One type of operations covers the public interface; every operation keeps
    the invariant of the manager and announces the change it made. *)

From S2P Require Import Prelude GoStrings Sha256 Endpoint Snapshot Health Cluster ClusterStore StoreInv.
From S2P Require Import ClusterManager ManagerInv StoreSwap.

Section run.
Context {CH : Type} (InitMap : string → option (ConsistentHash → list Endpoint → CH))
  (Hhosts : factories_read_hosts InitMap).
Implicit Types (cm : ClusterManager CH) (w : World CH) (s : ClusterStore) (c : ClusterConfig) (e : Endpoint)
  (p : nat) (rt : Cluster CH) (P : gset nat) (name other : string).
#[local] Abbreviation store_ok := (store_but InitMap ∅).
#[local] Abbreviation cm_ok := (ManagerInv.cm_ok InitMap).

(** ** Operations on one cluster *)

(** When only one cluster changes, its addresses before and after tell all. *)
Lemma announces_local s s' name old new v :
  (∀ n a, has_pair old n a ↔ n = name ∧ has_address s n a) →
  (∀ n a, has_pair new n a ↔ n = name ∧ has_address s' n a) →
  (∀ other, other ≠ name → endpoints_of s' other = endpoints_of s other) →
  announces (endpointStateChanges old new v) v s s'.
Proof.
  intros Hold Hnew Hother n a b v'. rewrite elem_of_changes.
  assert (n ≠ name → has_address s' n a ↔ has_address s n a) as Heq.
  { intros Hn. unfold has_address. by rewrite Hother. }
  specialize (Hold n a). specialize (Hnew n a).
  destruct (decide (n = name)); destruct b; naive_solver.
Qed.

Lemma announces_none v s : announces [] v s s.
Proof.
  clear Hhosts InitMap.
  intros n a b v'. split; [by intros ?%not_elem_of_nil|]. destruct b; tauto.
Qed.

(** Releasing a name and taking an event number leave the store alone. *)
Lemma release_ok cm name :
  cm_ok cm → cm_ok (nextEndpointEventIDLocked (releaseXDSOwnership cm name)).1 ∧
  world (releaseXDSOwnership cm name) = world cm ∧ store (releaseXDSOwnership cm name) = store cm.
Proof.
  intros [Hok Hman]. unfold releaseXDSOwnership. case_decide; simpl; [done|]. split_and!; [|done|done].
  split; [done|]. simpl. intros n [Hn _]%elem_of_difference. by apply Hman.
Qed.

Lemma cm_ok_store cm w s :
  cm_ok cm → store_ok w s → (∀ n, n ∈ map CName (Config (store cm)) → n ∈ map CName (Config s)) →
  cm_ok (set_store cm w s).
Proof. intros [_ Hman] Hok Hn. split; [done|]. simpl. intros n Hin. destruct (Hman n Hin). auto. Qed.

Lemma names_of_endpoints s n : n ∈ map CName (Config s) ↔ is_Some (endpoints_of s n).
Proof.
  clear Hhosts InitMap.
  pose proof (endpoints_of_None s n) as H. destruct (endpoints_of s n) as [es|].
  - split; [by eexists|]. intros _. apply dec_stable. intros Hn. by apply H in Hn.
  - split; [|by intros []]. intros Hn. by destruct (proj1 H eq_refl).
Qed.

(** Enters an operation that releases [name]: the manager after the release and
    the store with its new version are well-formed. *)
Ltac enter_operation cm name Hcm Hcm1 Hok :=
  let Hw := fresh "Hw" in let Hs := fresh "Hs" in
  destruct (release_ok cm name Hcm) as (Hcm1 & Hw & Hs); revert Hcm1;
  generalize dependent (releaseXDSOwnership cm name); intros cm1 Hw Hs;
  unfold nextEndpointEventIDLocked; cbv zeta; cbn [world store fst]; rewrite Hw, Hs; intros Hcm1;
  assert (store_but InitMap ∅ (world cm) (IncreaseVersion (store cm))) as Hok by (apply store_version; by destruct Hcm).

Lemma AddCluster_run cm c :
  cm_ok cm → seq_ok (world cm) → CName c ≠ "" → CName c ∉ map CName (Config (store cm)) →
  let '(cm', changes) := ClusterManager.AddCluster InitMap cm c in
  cm_ok cm' ∧ announces changes (nextEndpointEventID cm') (store cm) (store cm').
Proof.
  intros Hcm Hseq Hne Hn. unfold ClusterManager.AddCluster.
  enter_operation cm (CName c) Hcm Hcm1 Hok.
  pose proof (AddCluster_post InitMap Hhosts (world cm) (IncreaseVersion (store cm)) c Hok Hseq Hne Hn) as H.
  destruct (ClusterStore.AddCluster InitMap (world cm) (IncreaseVersion (store cm)) c) as [w s].
  destruct H as (Hok' & Hnames & (c' & Hl & Hc' & Ha) & He). split.
  - apply (cm_ok_store _ _ _ Hcm1); [done|]. intros n Hin. rewrite Hnames. apply elem_of_app. by left.
  - simpl. apply (announces_local _ _ (CName c)).
    + intros n a. rewrite endpointAddressSnapshot_spec. split; [by intros (d & ?%not_elem_of_nil & _)|].
      intros [-> (es & Hes & _)]. apply endpoints_of_None in Hn. congruence.
    + intros n a. rewrite endpointAddressSnapshot_spec, Hl. unfold has_address. rewrite He. split.
      * intros (d & [= ->]%list_elem_of_singleton & <- & Had). split; [done|]. rewrite decide_True by done.
        eexists. split; [done|]. by rewrite assemble_addresses, <- Ha.
      * intros [-> (es & Hes & Hin)]. rewrite decide_True in Hes by done. simplify_eq.
        exists c'. split_and!; [constructor|done|]. by rewrite assemble_addresses, <- Ha in Hin.
    + intros other Ho. rewrite He. by rewrite decide_False.
Qed.

Lemma UpdateCluster_run cm c :
  cm_ok cm → seq_ok (world cm) →
  let '(cm', changes) := ClusterManager.UpdateCluster InitMap cm c in
  cm_ok cm' ∧ announces changes (nextEndpointEventID cm') (store cm) (store cm').
Proof.
  intros Hcm Hseq. unfold ClusterManager.UpdateCluster.
  enter_operation cm (CName c) Hcm Hcm1 Hok.
  pose proof (UpdateCluster_post InitMap Hhosts (world cm) (IncreaseVersion (store cm)) c) as H.
  pose proof (UpdateCluster_unknown InitMap (world cm) (IncreaseVersion (store cm)) c) as H0.
  destruct (endpoints_of (store cm) (CName c)) as [es|] eqn:E.
  - specialize (H es Hok Hseq E). clear H0.
    destruct (ClusterStore.UpdateCluster InitMap (world cm) (IncreaseVersion (store cm)) c) as [w s].
    destruct H as (Hok' & Hnames & He). split.
    + apply (cm_ok_store _ _ _ Hcm1); [done|]. intros n Hin. by rewrite Hnames.
    + simpl. apply endpoints_of_Some in E as (i & d & Hf & Hes). rewrite Hf. simpl.
      apply (announces_local _ _ (CName c)).
      * intros n a. rewrite <- (cluster_addresses_spec (store cm) (CName c)). unfold cluster_addresses. by rewrite Hf.
      * intros n a. rewrite endpointAddressSnapshot_spec. unfold has_address. rewrite He. split.
        -- intros (x & [= ->]%list_elem_of_singleton & <- & Had). split; [done|]. rewrite decide_True by done.
           eexists. split; [done|]. by rewrite assemble_addresses.
        -- intros [-> (es' & Hes' & Hin)]. rewrite decide_True in Hes' by done. simplify_eq.
           exists c. split_and!; [constructor|done|]. by rewrite assemble_addresses in Hin.
      * intros other Ho. rewrite He. by rewrite decide_False.
  - rewrite (H0 E). split.
    + apply (cm_ok_store _ _ _ Hcm1); [done|done].
    + simpl. unfold endpoints_of in E. destruct (findClusterConfig (store cm) (CName c)) as [[j d]|]; [done|].
      simpl. by apply announces_same_store.
Qed.

Lemma SetEndpoint_run cm name (endpoint : option Endpoint) :
  cm_ok cm → seq_ok (world cm) → name ≠ "" →
  let '(cm', changes) := ClusterManager.SetEndpoint InitMap cm name endpoint in
  cm_ok cm' ∧ announces changes (nextEndpointEventID cm') (store cm) (store cm').
Proof.
  intros Hcm Hseq Hne. unfold ClusterManager.SetEndpoint.
  enter_operation cm name Hcm Hcm1 Hok.
  destruct endpoint as [e|].
  - pose proof (SetEndpoint_ok InitMap Hhosts (world cm) (IncreaseVersion (store cm)) name e Hok Hseq Hne) as H.
    destruct (ClusterStore.SetEndpoint InitMap (world cm) (IncreaseVersion (store cm)) name (Some e)) as [[w s] out].
    destruct H as (Hok' & _ & He). split.
    + apply (cm_ok_store _ _ _ Hcm1); [done|]. intros n Hin. apply names_of_endpoints.
      rewrite He. case_decide; [by eexists|]. by apply names_of_endpoints.
    + simpl. apply (announces_local _ _ name); [apply cluster_addresses_spec..|].
      intros other Ho. rewrite He. by rewrite decide_False.
  - simpl. split.
    + apply (cm_ok_store _ _ _ Hcm1); [done|done].
    + apply (announces_local _ _ name); [apply cluster_addresses_spec..|done].
Qed.

Lemma DeleteEndpoint_run cm name id :
  cm_ok cm →
  let '(cm', changes) := ClusterManager.DeleteEndpoint InitMap cm name id in
  cm_ok cm' ∧ announces changes (nextEndpointEventID cm') (store cm) (store cm').
Proof.
  intros Hcm. unfold ClusterManager.DeleteEndpoint.
  enter_operation cm name Hcm Hcm1 Hok.
  destruct (endpoints_of (IncreaseVersion (store cm)) name) as [es|] eqn:E.
  - pose proof (DeleteEndpoint_known InitMap Hhosts (world cm) (IncreaseVersion (store cm)) name id es Hok E) as H.
    destruct (ClusterStore.DeleteEndpoint InitMap (world cm) (IncreaseVersion (store cm)) name id) as [w s].
    destruct H as (Hok' & _ & He). split.
    + apply (cm_ok_store _ _ _ Hcm1); [done|]. intros n Hin. apply names_of_endpoints.
      rewrite He. case_decide; [by eexists|]. by apply names_of_endpoints.
    + simpl. apply (announces_local _ _ name); [apply cluster_addresses_spec..|].
      intros other Ho. rewrite He. by rewrite decide_False.
  - rewrite DeleteEndpoint_unknown by done. split.
    + apply (cm_ok_store _ _ _ Hcm1); [done|done].
    + simpl. apply (announces_local _ _ name); [apply cluster_addresses_spec..|done].
Qed.

(** ** Operations of xDS *)

Lemma HasCluster_spec s n : HasCluster s n = true ↔ n ∈ map CName (Config s).
Proof.
  unfold HasCluster. rewrite existsb_exists, list_elem_of_fmap. split.
  - intros (c & Hc & Hn%bool_decide_eq_true_1). exists c. by rewrite list_elem_of_In.
  - intros (c & -> & Hc). exists c. rewrite <- list_elem_of_In. split; [done|]. by apply bool_decide_eq_true_2.
Qed.

Lemma UpsertXDS_spec cm config :
  cm_ok cm → seq_ok (world cm) →
  match UpsertXDSCluster InitMap cm config with
  | Err XDSNoName => config = None ∨ CName <$> config = Some ""
  | Err (XDSConflict n) => CName <$> config = Some n ∧ n ∈ map CName (Config (store cm)) ∧ n ∉ xdsManaged cm
  | Err (XDSDuplicate _) => False
  | Ok cm' =>
      ∃ c, config = Some c ∧ CName c ≠ "" ∧ cm_ok cm' ∧ xdsManaged cm' = {[CName c]} ∪ xdsManaged cm ∧
        nextEndpointEventID cm' = nextEndpointEventID cm ∧
        ∀ n, endpoints_of (store cm') n =
          if decide (n = CName c) then Some (assemble (CName c) 0 ∅ (Endpoints c)) else endpoints_of (store cm) n
  end.
Proof.
  intros Hcm Hseq. unfold UpsertXDSCluster. destruct config as [c|]; [|by left].
  case_decide as H0; [right; simpl; by rewrite H0|]. cbv zeta.
  assert (store_ok (world cm) (IncreaseVersion (store cm))) as Hok by (apply store_version; by destruct Hcm).
  destruct (HasCluster (store cm) (CName c)) eqn:Hh; destruct (bool_decide_reflect (CName c ∈ xdsManaged cm)) as [Ho|Ho]; simpl.
  - apply HasCluster_spec in Hh. destruct (proj1 (names_of_endpoints _ _) Hh) as [es He].
    pose proof (UpdateCluster_post InitMap Hhosts (world cm) (IncreaseVersion (store cm)) c es Hok Hseq He) as H.
    destruct (ClusterStore.UpdateCluster InitMap (world cm) (IncreaseVersion (store cm)) c) as [w s].
    destruct H as (Hok' & Hnames & Hes). exists c. split_and!; [done|done| |simpl; set_solver|done|done].
    apply (cm_ok_store _ _ _ Hcm); [done|]. intros n Hn. by rewrite Hnames.
  - split_and!; [done|by apply HasCluster_spec|done].
  - destruct Hcm as [_ Hman]. destruct (Hman _ Ho) as [_ Hin%HasCluster_spec]. congruence.
  - assert (CName c ∉ map CName (Config (store cm))) as Hn by (rewrite <- HasCluster_spec; congruence).
    pose proof (AddCluster_post InitMap Hhosts (world cm) (IncreaseVersion (store cm)) c Hok Hseq H0 Hn) as H.
    destruct (ClusterStore.AddCluster InitMap (world cm) (IncreaseVersion (store cm)) c) as [w s].
    destruct H as (Hok' & Hnames & _ & Hes). exists c. split_and!; [done|done| |done|done|done].
    split; [done|]. simpl. intros n Hin. rewrite Hnames, elem_of_app. cbn [map]. rewrite list_elem_of_singleton.
    destruct Hcm as [_ Hman]. apply elem_of_union in Hin as [->%elem_of_singleton|Hin]; [naive_solver|].
    destruct (Hman n Hin). auto.
Qed.

(** XDS can add a cluster or update one of its own, never one of another
    source; then the cluster has the endpoints given and belongs to xDS, and the
    others are as they were.  The event number is not advanced: no callback
    hears of it. *)
Theorem upsert_xds_exact cm c :
  cm_ok cm → seq_ok (world cm) → CName c ≠ "" →
  match UpsertXDSCluster InitMap cm (Some c) with
  | Err e => e = XDSConflict (CName c) ∧ CName c ∈ map CName (Config (store cm)) ∧ CName c ∉ xdsManaged cm
  | Ok cm' =>
      (CName c ∈ map CName (Config (store cm)) → CName c ∈ xdsManaged cm) ∧
      xdsManaged cm' = {[CName c]} ∪ xdsManaged cm ∧ nextEndpointEventID cm' = nextEndpointEventID cm ∧
      ∀ n, endpoints_of (store cm') n =
        if decide (n = CName c) then Some (assemble (CName c) 0 ∅ (Endpoints c)) else endpoints_of (store cm) n
  end.
Proof.
  intros Hcm Hseq Hne. pose proof (UpsertXDS_spec cm (Some c) Hcm Hseq) as H.
  destruct (UpsertXDSCluster InitMap cm (Some c)) as [cm'|[|n|n]] eqn:E.
  - destruct H as (d & [= <-] & _ & _ & H1 & H2 & H3). split_and!; [|done|done|done]. intros Hin. apply dec_stable. intros Hno.
    unfold UpsertXDSCluster in E. rewrite decide_False, (proj2 (HasCluster_spec _ _) Hin), bool_decide_eq_false_2 in E by done. done.
  - destruct H as [|[= ]]; done.
  - done.
  - by destruct H as ([= <-] & H1 & H2).
Qed.

Lemma take_owned_spec managed names owned rest :
  take_owned managed names = (owned, rest) →
  NoDup owned ∧ (∀ n, n ∈ owned ↔ n ∈ managed ∧ n ∈ names) ∧ ∀ n, n ∈ rest ↔ n ∈ managed ∧ n ∉ names.
Proof.
  clear Hhosts InitMap.
  revert managed owned rest. induction names as [|x names IH]; intros managed owned rest; cbn [take_owned].
  - intros [= <- <-]. split_and!; [constructor|set_solver..].
  - case_decide as Hx.
    + destruct (take_owned (managed ∖ {[x]}) names) as [o r] eqn:E. intros [= <- <-].
      destruct (IH _ _ _ E) as (H1 & H2 & H3). split_and!; [constructor; [rewrite H2; set_solver|done]| |].
      * intros n. rewrite elem_of_cons, H2. destruct (decide (n = x)); set_solver.
      * intros n. rewrite H3. set_solver.
    + intros E. destruct (IH _ _ _ E) as (H1 & H2 & H3). split_and!; [done| |].
      * intros n. rewrite H2. set_solver.
      * intros n. rewrite H3. set_solver.
Qed.

Lemma removeClusters_total w s names : NoDup names → ∃ w' s', removeClustersLocked w s names = Some (w', s').
Proof.
  clear Hhosts InitMap.
  intros Hn. unfold removeClustersLocked.
  pose proof (remove_configs_panics w (clustersMap s) names (Config s)) as H.
  destruct (remove_configs w (clustersMap s) names (Config s)) as [[[w' m] l]|]; simpl; [eauto|].
  destruct (proj1 H eq_refl) as (c & _ & Hc). pose proof (occurrences_nodup names (CName c) Hn). lia.
Qed.

Lemma RemoveXDS_spec cm names :
  cm_ok cm →
  ∃ cm' changes, RemoveXDSClusters cm names = Some (cm', changes) ∧ cm_ok cm' ∧
    (∀ n, endpoints_of (store cm') n =
       if decide (n ∈ names ∧ n ∈ xdsManaged cm) then None else endpoints_of (store cm) n) ∧
    (∀ n, n ∈ xdsManaged cm' ↔ n ∈ xdsManaged cm ∧ n ∉ names) ∧
    announces changes (nextEndpointEventID cm') (store cm) (store cm').
Proof.
  clear Hhosts.
  intros [Hok Hman]. unfold RemoveXDSClusters, nextEndpointEventIDLocked. cbv zeta. cbn [world store xdsManaged].
  destruct (take_owned (xdsManaged cm) names) as [owned rest] eqn:E.
  destruct (take_owned_spec _ _ _ _ E) as (Hnd & Howned & Hrest).
  destruct owned as [|o l].
  - do 2 eexists. split; [done|]. split_and!.
    + split; [done|]. simpl. intros n [Hin _]%Hrest. by apply Hman.
    + intros n. simpl. rewrite decide_False; [done|]. intros [H1 H2]. by apply (not_elem_of_nil n), Howned.
    + exact Hrest.
    + apply announces_none.
  - set (owned := o :: l) in *. destruct (removeClusters_total (world cm) (store cm) owned Hnd) as (w & s & Hr).
    destruct (removeClusters_post InitMap _ _ _ _ _ Hok Hr) as [Hok' HC].
    assert (∀ n, endpoints_of s n = if decide (n ∈ names ∧ n ∈ xdsManaged cm) then None else endpoints_of (store cm) n) as He.
    { intros n. rewrite (endpoints_config_only s (mkClusterStore (keep_configs (store cm) (list_to_set owned)) 0 ∅)) by done.
      rewrite kept_endpoints by apply (so_names InitMap ∅ _ _ Hok). apply decide_ext. rewrite elem_of_list_to_set, Howned. tauto. }
    do 2 eexists. split; [change (removeClustersLocked _ _ _) with (removeClustersLocked (world cm) (store cm) owned); rewrite Hr; done|]. split_and!; [|exact He|exact Hrest|].
    + split; [done|]. simpl. intros n [Hin Hn]%Hrest. split; [by apply Hman|].
      apply names_of_endpoints. rewrite He, decide_False by tauto. apply names_of_endpoints. by apply Hman.
    + by apply (announces_whole InitMap (world cm) (store cm) w s).
Qed.

(** XDS can remove its own clusters only, whatever names it is given, and
    the removal never panics. *)
Theorem remove_xds_only_owned cm names :
  cm_ok cm →
  ∃ cm' changes, RemoveXDSClusters cm names = Some (cm', changes) ∧
    (∀ n, endpoints_of (store cm') n =
       if decide (n ∈ names ∧ n ∈ xdsManaged cm) then None else endpoints_of (store cm) n) ∧
    ∀ n, n ∈ xdsManaged cm' ↔ n ∈ xdsManaged cm ∧ n ∉ names.
Proof.
  intros Hcm. destruct (RemoveXDS_spec cm names Hcm) as (cm' & changes & H1 & _ & H2 & H3 & _). eauto 6.
Qed.

(** ** Histories *)

Inductive operation : Type :=
  | OpAddCluster (c : ClusterConfig)
  | OpUpdateCluster (c : ClusterConfig)
  | OpUpsertXDS (c : option ClusterConfig)
  | OpReplaceXDS (cs : list (option ClusterConfig))
  | OpRemoveXDS (names : list string)
  | OpSetEndpoint (name : string) (e : option Endpoint)
  | OpDeleteEndpoint (name id : string)
  | OpCompareAndSet (candidate : option ClusterStore)
  | OpReconcile (version : Z) (instances : list (string * Endpoint))
  | OpRemoveCluster (names : list string).

(** One operation; [None] is a panic, an error leaves the manager as it is. *)
Definition exec cm (op : operation) : option (ClusterManager CH * list endpointStateChange) :=
  match op with
  | OpAddCluster c => Some (ClusterManager.AddCluster InitMap cm c)
  | OpUpdateCluster c => Some (ClusterManager.UpdateCluster InitMap cm c)
  | OpUpsertXDS c =>
      Some (match UpsertXDSCluster InitMap cm c with Ok cm' => (cm', []) | Err _ => (cm, []) end)
  | OpReplaceXDS cs =>
      Some (match ReplaceXDSClusters InitMap cm cs with Ok r => r | Err _ => (cm, []) end)
  | OpRemoveXDS names => RemoveXDSClusters cm names
  | OpSetEndpoint name e => Some (ClusterManager.SetEndpoint InitMap cm name e)
  | OpDeleteEndpoint name id => Some (ClusterManager.DeleteEndpoint InitMap cm name id)
  | OpCompareAndSet cand => Some (let '(cm', _, changes) := CompareAndSetStore InitMap cm cand in (cm', changes))
  | OpReconcile v instances => Some (let '(cm', _, changes) := reconcile InitMap cm v instances in (cm', changes))
  | OpRemoveCluster names => RemoveCluster cm names
  end.

(** What the callers see to: a new cluster has a new name, no name is empty, a
    removal names a cluster once, a candidate store has runtimes of its own, and the 64-bit configuration numbers are not
    used up. *)
Definition admissible cm (op : operation) : Prop :=
  match op with
  | OpAddCluster c => CName c ≠ "" ∧ (CName c ∉ map CName (Config (store cm))) ∧ room 1 (world cm)
  | OpUpdateCluster _ | OpUpsertXDS _ => room 1 (world cm)
  | OpReplaceXDS cs => room (length cs) (world cm)
  | OpSetEndpoint name _ => name ≠ "" ∧ room 1 (world cm)
  | OpCompareAndSet (Some cand) =>
      candidate_ok InitMap (world cm) (store cm) cand ∧ room (length (Config cand)) (world cm)
  | OpReconcile _ instances =>
      ("" ∉ map fst instances) ∧ room (length instances + length instances) (world cm)
  | OpRemoveCluster names => NoDup names
  | OpRemoveXDS _ | OpDeleteEndpoint _ _ | OpCompareAndSet None => True
  end.

(** [UpsertXDSCluster] changes endpoints and calls no callback. *)
Definition silent (op : operation) : bool := match op with OpUpsertXDS _ => true | _ => false end.

Lemma RemoveCluster_total cm names : NoDup names → ∃ cm' changes, RemoveCluster cm names = Some (cm', changes).
Proof.
  intros Hn. unfold RemoveCluster, nextEndpointEventIDLocked. cbv zeta.
  match goal with |- context [removeClustersLocked ?w ?s names] => destruct (removeClusters_total w s names Hn) as (w' & s' & ->) end.
  simpl. eauto.
Qed.

Lemma replace_run cm clusters cm' changes :
  cm_ok cm → room (length clusters) (world cm) → ReplaceXDSClusters InitMap cm clusters = Ok (cm', changes) →
  cm_ok cm' ∧ announces changes (nextEndpointEventID cm') (store cm) (store cm').
Proof.
  intros Hcm Hroom E. assert (∃ cs, clusters = Some <$> cs) as [cs ->].
  { revert E. unfold ReplaceXDSClusters. cbv zeta. destruct (validate_xds _ ∅ clusters) as [[names cs]|] eqn:Ev; [|done].
    intros _. apply validate_xds_spec in Ev as (-> & _). eauto. }
  rewrite length_fmap in Hroom.
  by destruct (ReplaceXDS_spec InitMap Hhosts cm _ cs cm' changes Hcm Hroom eq_refl E) as (H1 & _ & _ & _ & _ & H2).
Qed.

Lemma swap_run cm cand :
  cm_ok cm → admissible cm (OpCompareAndSet cand) →
  let '(cm', _, changes) := CompareAndSetStore InitMap cm cand in
  cm_ok cm' ∧ announces changes (nextEndpointEventID cm') (store cm) (store cm').
Proof.
  intros Hcm Hadm. destruct cand as [cand|]; simpl in Hadm.
  - destruct Hadm as [Hc Hr].
    assert (store_but InitMap (runtimes cand) (world cm) (store cm)) as Hok.
    { apply (store_shrink InitMap ∅); [apply Hcm|]. clear InitMap Hhosts Hcm Hc. set_solver. }
    pose proof (CompareAndSet_spec InitMap Hhosts cm cand Hok Hr Hc) as H.
    destruct (CompareAndSetStore InitMap cm (Some cand)) as [[cm' swapped] changes]. case_decide.
    + by destruct H as (_ & H1 & _ & _ & _ & _ & H2).
    + destruct H as (-> & _ & ->). split; [done|]. apply announces_none.
  - pose proof (swap_self InitMap Hhosts cm Hcm) as H.
    destruct (CompareAndSetStore InitMap cm None) as [[cm' swapped] changes]. by destruct H as (_ & H1 & H2).
Qed.

Lemma exec_ok cm op :
  cm_ok cm → admissible cm op →
  ∃ cm' changes, exec cm op = Some (cm', changes) ∧ cm_ok cm' ∧
    (silent op = false → announces changes (nextEndpointEventID cm') (store cm) (store cm')).
Proof.
  intros Hcm Hadm. destruct op as [c|c|c|cs|names|name e|name id|cand|v instances|names]; simpl in Hadm |- *.
  - destruct Hadm as (H1 & H2 & H3%room_seq). pose proof (AddCluster_run cm c Hcm H3 H1 H2) as H.
    destruct (ClusterManager.AddCluster InitMap cm c). naive_solver.
  - apply room_seq in Hadm. pose proof (UpdateCluster_run cm c Hcm Hadm) as H.
    destruct (ClusterManager.UpdateCluster InitMap cm c). naive_solver.
  - apply room_seq in Hadm. pose proof (UpsertXDS_spec cm c Hcm Hadm) as H.
    destruct (UpsertXDSCluster InitMap cm c) as [cm'|e]; [|exists cm, []; by split_and!].
    destruct H as (d & _ & _ & H & _). exists cm', []. by split_and!.
  - destruct (ReplaceXDSClusters InitMap cm cs) as [[cm' changes]|e] eqn:E.
    + exists cm', changes. split; [done|].
      destruct (replace_run cm cs cm' changes Hcm Hadm E). by split.
    + exists cm, []. split_and!; [done|done|]. intros _. apply announces_none.
  - destruct (RemoveXDS_spec cm names Hcm) as (cm' & changes & H1 & H2 & _ & _ & H3). eauto 6.
  - destruct Hadm as [H1 H2%room_seq]. pose proof (SetEndpoint_run cm name e Hcm H2 H1) as H.
    destruct (ClusterManager.SetEndpoint InitMap cm name e). naive_solver.
  - pose proof (DeleteEndpoint_run cm name id Hcm) as H.
    destruct (ClusterManager.DeleteEndpoint InitMap cm name id). naive_solver.
  - pose proof (swap_run cm cand Hcm Hadm) as H.
    destruct (CompareAndSetStore InitMap cm cand) as [[cm' swapped] changes]. destruct H. eauto 6.
  - destruct Hadm as [H1 H2]. pose proof (reconcile_spec InitMap Hhosts cm v instances Hcm H2 H1) as H.
    destruct (reconcile InitMap cm v instances) as [[cm' swapped] changes]. destruct H as (H3 & H4 & _). eauto 6.
  - destruct (RemoveCluster_total cm names Hadm) as (cm' & changes & E). exists cm', changes. split; [done|].
    destruct (RemoveCluster_spec InitMap cm names cm' changes Hcm E) as (H1 & _ & _ & H2). by split.
Qed.

Lemma add_all_ok cs w s :
  store_ok w s → room (length cs) w → NoDup (map CName (Config s) ++ map CName cs) → "" ∉ map CName cs →
  let '(w', s') := add_all InitMap w s cs in store_ok w' s'.
Proof.
  revert w s. induction cs as [|c cs IH]; intros w s Hok Hroom Hnd Hne; [done|]. cbn [add_all map] in *.
  apply not_elem_of_cons in Hne as [Hc Hne]. apply NoDup_app in Hnd as (Hnd1 & Hd & Hnd2).
  pose proof (AddCluster_room InitMap (length cs) w s c (not_eq_sym Hc) Hroom) as Hroom'.
  pose proof (AddCluster_post InitMap Hhosts w s c Hok (room_seq _ _ Hroom) (not_eq_sym Hc)) as H.
  destruct (ClusterStore.AddCluster InitMap w s c) as [w' s'].
  destruct H as (Hok' & Hn & _); [intros Hin; apply (Hd _ Hin); constructor|].
  apply IH; [done|done| |done]. rewrite Hn, <- app_assoc. apply NoDup_app. split_and!; done.
Qed.

(** The states a manager can get into. *)
Inductive reachable : ClusterManager CH → Prop :=
  | reachable_start clusters seq ci :
      room (length clusters) (mkWorld (CH := CH) ∅ 0 seq ci) → NoDup (map CName clusters) → "" ∉ map CName clusters →
      reachable (CreateDefaultClusterManager InitMap (mkWorld ∅ 0 seq ci) clusters)
  | reachable_step cm op cm' changes :
      reachable cm → admissible cm op → exec cm op = Some (cm', changes) → reachable cm'.

Lemma reachable_ok cm : reachable cm → cm_ok cm.
Proof.
  induction 1 as [clusters seq ci Hroom Hnd Hne|cm op cm' changes _ IH Hadm Hex].
  - unfold CreateDefaultClusterManager.
    pose proof (add_all_ok clusters (mkWorld ∅ 0 seq ci) (mkClusterStore [] 0 ∅) (empty_store_ok InitMap 0 seq ci) Hroom Hnd Hne) as H.
    destruct (add_all InitMap _ _ clusters) as [w s]. split; [done|]. simpl. set_solver.
  - destruct (exec_ok cm op IH Hadm) as (cm2 & changes2 & Hex2 & Hok & _). congruence.
Qed.



End run.

(** ** Witnesses *)

Lemma upsert_xds_exact_witness :
  ∃ cm', UpsertXDSCluster sample.InitMap manager_sample.cm (Some (manager_sample.x_config "f" "10.0.1.2")) = Ok cm' ∧
    nextEndpointEventID cm' = 0%Z ∧ endpoint_ids <$> endpoints_of (store cm') "x" = Some ["f"].
Proof.
  pose proof (upsert_xds_exact sample.InitMap sample.InitMap_hosts manager_sample.cm
    (manager_sample.x_config "f" "10.0.1.2") manager_sample.cm_is_ok) as H.
  destruct (UpsertXDSCluster sample.InitMap manager_sample.cm _) as [cm'|e] eqn:E; [|vm_compute in E; discriminate].
  exists cm'. split; [reflexivity|]. destruct H as (_ & _ & H1 & H2).
  - split; vm_compute; [discriminate|reflexivity].
  - discriminate.
  - split; [exact H1|]. rewrite H2. vm_compute. reflexivity.
Defined.

Lemma remove_xds_only_owned_witness :
  ∃ cm' changes, RemoveXDSClusters manager_sample.cm ["c"; "x"; "x"] = Some (cm', changes) ∧
    endpoints_of (store cm') "c" = endpoints_of (store manager_sample.cm) "c" ∧ endpoints_of (store cm') "x" = None.
Proof.
  destruct (remove_xds_only_owned sample.InitMap manager_sample.cm ["c"; "x"; "x"] manager_sample.cm_is_ok)
    as (cm' & changes & H1 & H2 & _).
  exists cm', changes. split; [exact H1|]. split; rewrite H2; vm_compute; reflexivity.
Defined.

Module history_sample.

Definition cm0 : ClusterManager (list string) :=
  CreateDefaultClusterManager sample.InitMap (mkWorld ∅ 0 0 1) [store_sample.config].

Definition register : operation := OpSetEndpoint "c" (Some (store_sample.tagged "b" "z")).

Definition scale_out : operation := OpSetEndpoint "c" (Some (sample.endpoint "b" "10.0.0.9" 90 false)).

Definition scaled : ClusterManager (list string) :=
  match exec sample.InitMap cm0 scale_out with Some (cm, _) => cm | None => cm0 end.

Lemma cm0_reachable : reachable sample.InitMap cm0.
Proof.
  apply reachable_start; [split; vm_compute; [discriminate|reflexivity]| |];
    apply (bool_decide_unpack _); vm_compute; exact I.
Qed.

Lemma register_admissible : admissible sample.InitMap cm0 register.
Proof. split; [discriminate|]. split; vm_compute; [discriminate|reflexivity]. Qed.

End history_sample.


