(* ===== verification/McpCatalog.v ===== *)
(** * MCP tool configuration and catalog views

    The configuration records of [pkg/model/mcpserver.go] that the MCP tool
    governance reads, and [pkg/filter/mcp/mcpserver/router/catalog.go]: string
    sets, the validation of tool names and the views of a tool list.  Deep
    copies are the identity on values.  A nil and an empty [StringSet] answer
    every question the code asks in the same way, and are both the empty set. *)

From S2P Require Import Prelude GoStrings Endpoint.

(** ** [strings.TrimSpace]

    The UTF-8 encodings of the characters with Unicode's White_Space property;
    no encoding is a proper prefix or a proper suffix of another one. *)

Module TrimSpace.

Definition encoded (bytes : list N) : string := String.string_of_list_ascii (map ascii_of_N bytes).

Definition spaces : list string :=
  map encoded
    ([[9]; [10]; [11]; [12]; [13]; [32]; [194; 133]; [194; 160]; [225; 154; 128]]
     ++ map (λ i, [226; 128; N.of_nat i]) (seq 128 11)
     ++ [[226; 128; 168]; [226; 128; 169]; [226; 128; 175]; [226; 129; 159]; [227; 128; 128]])%N.

(** Every round drops at least one byte, so that the length is enough fuel. *)
Fixpoint trim_left (fuel : nat) (s : string) : string :=
  match fuel, first_such (Strings.HasPrefix s) spaces with
  | S fuel, Some w => trim_left fuel (Strings.Drop (String.length w) s)
  | _, _ => s
  end.

Definition HasSuffix (s w : string) : bool :=
  (String.length w <=? String.length s) &&
    bool_decide (Strings.Drop (String.length s - String.length w) s = w).

Definition Take (n : nat) (s : string) : string := String.substring 0 n s.

Fixpoint trim_right (fuel : nat) (s : string) : string :=
  match fuel, first_such (HasSuffix s) spaces with
  | S fuel, Some w => trim_right fuel (Take (String.length s - String.length w) s)
  | _, _ => s
  end.

Definition TrimSpace (s : string) : string :=
  let s := trim_left (String.length s) s in
  trim_right (String.length s) s.

Example trim_space_ascii : TrimSpace "  a b	 " = "a b".
Proof. vm_compute. reflexivity. Qed.

(** A no-break space and an ideographic space. *)
Example trim_space_unicode : TrimSpace (encoded [194; 160; 97; 227; 128; 128]%N) = "a".
Proof. vm_compute. reflexivity. Qed.

(** *** Trimming twice is trimming once *)

Lemma spaces_not_empty w : w ∈ spaces → 0 < String.length w.
Proof.
  revert w. apply Forall_forall. apply (bool_decide_eq_true_1 (Forall (λ w, 0 < String.length w) spaces)).
  vm_compute. reflexivity.
Qed.

Definition no_lead (s : string) : Prop := ∀ w, w ∈ spaces → Strings.HasPrefix s w = false.
Definition no_trail (s : string) : Prop := ∀ w, w ∈ spaces → HasSuffix s w = false.

Lemma length_Drop n s : String.length (Strings.Drop n s) = String.length s - n.
Proof. revert s. induction n as [|n IH]; intros [|a s]; simpl; auto. Qed.

Lemma HasPrefix_length s w : Strings.HasPrefix s w = true → String.length w ≤ String.length s.
Proof.
  revert s. induction w as [|a w IH]; intros [|b s]; simpl; try done; try lia.
  intros [_ H]%andb_true_iff. specialize (IH _ H). lia.
Qed.

Lemma HasPrefix_app s r w : Strings.HasPrefix s w = true → Strings.HasPrefix (s +:+ r) w = true.
Proof.
  revert s. induction w as [|a w IH]; intros [|b s]; simpl; try done.
  rewrite !andb_true_iff. intros [? H]. split; [done|]. by apply IH.
Qed.

Lemma Take_app n s : ∃ r, s = Take n s +:+ r.
Proof.
  revert n. induction s as [|a s IH]; intros [|n]; simpl; try (by eexists).
  destruct (IH n) as [r Hr]. exists r. unfold Take in *. simpl. by rewrite <- Hr.
Qed.

Lemma length_Take n s : String.length (Take n s) ≤ n.
Proof. unfold Take. revert n. induction s as [|a s IH]; intros [|n]; simpl; try lia. specialize (IH n). lia. Qed.

Lemma trim_left_no_lead fuel s : String.length s ≤ fuel → no_lead (trim_left fuel s).
Proof.
  revert s. induction fuel as [|fuel IH]; intros s Hs; simpl.
  - destruct s; [|simpl in Hs; lia]. intros w Hw. pose proof (spaces_not_empty w Hw). by destruct w; [simpl in *; lia|].
  - destruct (first_such _ spaces) as [w|] eqn:E.
    + apply first_such_Some in E as [Hw Hp]. pose proof (spaces_not_empty w Hw). apply IH. rewrite length_Drop. lia.
    + intros w Hw. by apply (proj1 (first_such_None _ _) E).
Qed.

Lemma trim_right_no_trail fuel s : String.length s ≤ fuel → no_trail (trim_right fuel s).
Proof.
  revert s. induction fuel as [|fuel IH]; intros s Hs; simpl.
  - destruct s; [|simpl in Hs; lia]. intros w Hw. pose proof (spaces_not_empty w Hw). unfold HasSuffix.
    by destruct w; [simpl in *; lia|].
  - destruct (first_such _ spaces) as [w|] eqn:E.
    + apply first_such_Some in E as [Hw Hp]. pose proof (spaces_not_empty w Hw).
      unfold HasSuffix in Hp. apply andb_true_iff in Hp as [Hl%Nat.leb_le _]. apply IH.
      pose proof (length_Take (String.length s - String.length w) s). lia.
    + intros w Hw. by apply (proj1 (first_such_None _ _) E).
Qed.

Lemma trim_right_no_lead fuel s : no_lead s → no_lead (trim_right fuel s).
Proof.
  revert s. induction fuel as [|fuel IH]; intros s Hs; simpl; [done|].
  destruct (first_such _ spaces) as [w|]; [|done]. apply IH. intros u Hu.
  destruct (Take_app (String.length s - String.length w) s) as [r Hr].
  destruct (Strings.HasPrefix (Take _ s) u) eqn:E; [|done].
  apply (HasPrefix_app _ r) in E. rewrite <- Hr in E. by rewrite Hs in E.
Qed.

Lemma trim_left_id fuel s : no_lead s → trim_left fuel s = s.
Proof.
  intros H. destruct fuel; simpl; [done|]. by rewrite (proj2 (first_such_None (Strings.HasPrefix s) spaces) H).
Qed.

Lemma trim_right_id fuel s : no_trail s → trim_right fuel s = s.
Proof.
  intros H. destruct fuel; simpl; [done|]. by rewrite (proj2 (first_such_None (HasSuffix s) spaces) H).
Qed.

Lemma TrimSpace_idemp s : TrimSpace (TrimSpace s) = TrimSpace s.
Proof.
  unfold TrimSpace at 1. rewrite trim_left_id.
  - apply trim_right_id. by apply trim_right_no_trail.
  - apply trim_right_no_lead. by apply trim_left_no_lead.
Qed.

End TrimSpace.
Export TrimSpace (TrimSpace).

(** ** Configuration *)

Record RequestConfig : Type := mkRequestConfig {
  req_Method : string;
  req_Path : string;
  req_Headers : gmap string string;
  req_Timeout : string;
}.

Record ArgConfig : Type := mkArgConfig {
  arg_Name : string;
  arg_Type : string;
  arg_In : string;
  arg_Description : string;
  arg_Required : bool;
  arg_Default : any;
  arg_Enum : list string;
}.

Record ToolMeta : Type := mkToolMeta {
  Tags : list string;
  Risk : string;
  DiscoveryVisibility : option bool;
}.

Record ToolConfig : Type := mkToolConfig {
  tool_Name : string;
  tool_Description : string;
  tool_Cluster : string;
  tool_BackendURL : string;
  tool_Request : RequestConfig;
  tool_Args : list ArgConfig;
  tool_Meta : option ToolMeta;
}.

Record PolicyMatch : Type := mkPolicyMatch {
  pm_Claim : string;
  pm_Equals : string;
  pm_In : list string;
  pm_Regex : string;
  pm_MissingClaim : string;
}.

Record PolicyRule : Type := mkPolicyRule {
  pr_Name : string;
  pr_When : PolicyMatch;
  pr_AllowTags : list string;
  pr_DenyTags : list string;
  pr_MaxRisk : string;
}.

Record WorkflowConfig : Type := mkWorkflowConfig {
  wf_Name : string;
  wf_Description : string;
  wf_Tools : list string;
  wf_When : PolicyMatch;
}.

Record ProgressiveConfig : Type := mkProgressiveConfig {
  InitialBundle : string;
  ExpandAfterCalls : Z;
}.

Record RouterStages : Type := mkRouterStages {
  st_Policy : option bool;
  st_Workflow : option bool;
  st_Progressive : bool;
}.

(** [AuditConfig.SampleRate] is a float; [sample_rate_valid] is what the
    validation computes of it: in the unit interval, neither infinite nor NaN. *)
Record AuditConfig : Type := mkAuditConfig {
  sample_rate_valid : bool;
  DecisionDetailLogging : bool;
}.

Record RouterConfig : Type := mkRouterConfig {
  rc_Fallback : string;
  rc_DefaultBundle : string;
  rc_Stages : RouterStages;
  rc_Policy : list PolicyRule;
  rc_Workflows : list WorkflowConfig;
  rc_Progressive : ProgressiveConfig;
  rc_Audit : AuditConfig;
  rc_MaxEntries : Z;
}.

#[export] Instance RequestConfig_eq_dec : EqDecision RequestConfig.
Proof. solve_decision. Defined.
#[export] Instance ArgConfig_eq_dec : EqDecision ArgConfig.
Proof. solve_decision. Defined.
#[export] Instance ToolMeta_eq_dec : EqDecision ToolMeta.
Proof. solve_decision. Defined.
#[export] Instance ToolConfig_eq_dec : EqDecision ToolConfig.
Proof. solve_decision. Defined.

(** ** [StringSet] *)

Definition StringSet : Type := gset string.

Definition NewStringSet (values : list string) : StringSet := list_to_set values.

(** The errors of [NewValidatedStringSet] and [compileWorkflowTools]: which
    index is wrong, and how. *)
Inductive name_error : Type :=
  | NameEmpty (i : nat)
  | NameDuplicate (name : string) (i : nat).

Fixpoint validated_set (i : nat) (values : list string) (set : StringSet) : result name_error StringSet :=
  match values with
  | [] => Ok set
  | value :: values =>
      let name := TrimSpace value in
      if decide (name = "") then Err (NameEmpty i)
      else if decide (name ∈ set) then Err (NameDuplicate name i)
      else validated_set (S i) values ({[name]} ∪ set)
  end.

Definition NewValidatedStringSet (values : list string) : result name_error StringSet :=
  validated_set 0 values ∅.

Definition set_Contains (s : StringSet) (value : string) : bool := bool_decide (value ∈ s).

(** The loop runs over the smaller of the two sets. *)
Definition Intersects (s other : StringSet) : bool :=
  if decide (s = ∅ ∨ other = ∅) then false
  else
    let '(a, b) := if decide (size other < size s) then (other, s) else (s, other) in
    existsb (set_Contains b) (elements a).

Fixpoint unique_names (i : nat) (tools : list ToolConfig) (seen : StringSet) : result name_error unit :=
  match tools with
  | [] => Ok ()
  | tool :: tools =>
      if decide (tool_Name tool = "") then Err (NameEmpty i)
      else if decide (tool_Name tool ∈ seen) then Err (NameDuplicate (tool_Name tool) i)
      else unique_names (S i) tools ({[tool_Name tool]} ∪ seen)
  end.

Definition ValidateUniqueNames (tools : list ToolConfig) : result name_error unit := unique_names 0 tools ∅.

(** ** [ToolCatalogView] *)

Record ToolCatalogView : Type := mkToolCatalogView {
  ordered : list ToolConfig;
  byName : gmap string ToolConfig;
}.

(** The first tool of a name is the one the index keeps. *)
Definition index_tool (m : gmap string ToolConfig) (tool : ToolConfig) : gmap string ToolConfig :=
  match m !! tool_Name tool with
  | None => <[tool_Name tool := tool]> m
  | Some _ => m
  end.

Definition NewToolCatalogView (tools : list ToolConfig) : ToolCatalogView :=
  mkToolCatalogView tools (foldl index_tool ∅ tools).

Definition PickOrdered (v : ToolCatalogView) (names : list string) : list ToolConfig :=
  omap (λ name, byName v !! name) names.

Definition FilterSet (v : ToolCatalogView) (names : StringSet) : list ToolConfig :=
  if decide (ordered v = [] ∨ names = ∅) then []
  else filter (λ tool, tool_Name tool ∈ names) (ordered v).

Definition view_Names (v : ToolCatalogView) : list string := map tool_Name (ordered v).

Definition IsToolDiscoverable (t : ToolConfig) : bool :=
  match tool_Meta t with
  | None => true
  | Some m => match DiscoveryVisibility m with None => true | Some b => b end
  end.

Definition DiscoverableTools (tools : list ToolConfig) : list ToolConfig :=
  filter (λ tool, IsToolDiscoverable tool = true) tools.

Definition DiscoverableNames (v : ToolCatalogView) : list string :=
  map tool_Name (filter (λ tool, IsToolDiscoverable tool = true) (ordered v)).

Definition DiscoverableToolNames (tools : list ToolConfig) : list string :=
  DiscoverableNames (NewToolCatalogView tools).

Definition toolNames (tools : list ToolConfig) : list string := view_Names (NewToolCatalogView tools).

(** ** Lemmas *)

Lemma Intersects_spec (a b : StringSet) : Intersects a b = true ↔ ∃ x, x ∈ a ∧ x ∈ b.
Proof.
  unfold Intersects. case_decide as E; [split; [done|set_solver]|].
  assert (∀ a b : StringSet, existsb (set_Contains b) (elements a) = true ↔ ∃ x, x ∈ a ∧ x ∈ b) as H.
  { intros c d. rewrite existsb_exists. unfold set_Contains. split.
    - intros (x & Hx%list_elem_of_In & Hd%bool_decide_eq_true). exists x. by rewrite elem_of_elements in Hx.
    - intros (x & Hc & Hd). exists x. rewrite bool_decide_eq_true, <- list_elem_of_In, elem_of_elements. done. }
  case_decide; rewrite H; naive_solver.
Qed.

Lemma unique_names_ok i tools seen :
  unique_names i tools seen = Ok () ↔
    NoDup (map tool_Name tools) ∧ ∀ t, t ∈ tools → tool_Name t ≠ "" ∧ tool_Name t ∉ seen.
Proof.
  revert i seen. induction tools as [|t tools IH]; intros i seen; simpl.
  { split; [|done]. intros _. split; [constructor|]. intros t Ht. by apply not_elem_of_nil in Ht. }
  rewrite NoDup_cons. case_decide as E1.
  { split; [done|]. intros [_ H]. destruct (H t); [constructor|done]. }
  case_decide as E2.
  { split; [done|]. intros [_ H]. destruct (H t); [constructor|done]. }
  rewrite IH. split.
  - intros [Hnd H]. split; [split; [|done]|].
    + intros (u & Hu1 & Hu2)%list_elem_of_fmap. destruct (H u Hu2). set_solver.
    + intros u [->|Hu]%elem_of_cons; [done|]. destruct (H u Hu). set_solver.
  - intros [[Hn Hnd] H]. split; [done|]. intros u Hu.
    destruct (H u) as [H1 H2]; [by constructor|]. split; [done|].
    rewrite not_elem_of_union, elem_of_singleton. split; [|done].
    intros Heq. apply Hn. rewrite <- Heq. apply list_elem_of_fmap. eauto.
Qed.

Lemma ValidateUniqueNames_ok tools :
  ValidateUniqueNames tools = Ok () ↔ NoDup (map tool_Name tools) ∧ ∀ t, t ∈ tools → tool_Name t ≠ "".
Proof.
  unfold ValidateUniqueNames. rewrite unique_names_ok. split; intros [H1 H2]; (split; [done|]); intros t Ht.
  - by apply H2.
  - split; [by apply H2|]. apply not_elem_of_empty.
Qed.

Lemma foldl_index_tool tools m name :
  foldl index_tool m tools !! name =
    match m !! name with
    | Some t => Some t
    | None => first_such (λ t, bool_decide (tool_Name t = name)) tools
    end.
Proof.
  revert m. induction tools as [|t tools IH]; intros m; simpl; [by destruct (m !! name)|].
  rewrite IH. unfold index_tool, first_such. simpl.
  case_bool_decide as E; [subst name|].
  - destruct (m !! tool_Name t) eqn:E1; [by rewrite E1|]. by rewrite lookup_insert_eq.
  - destruct (m !! tool_Name t) eqn:E1; [done|]. by rewrite lookup_insert_ne.
Qed.

Lemma view_lookup tools name :
  byName (NewToolCatalogView tools) !! name = first_such (λ t, bool_decide (tool_Name t = name)) tools.
Proof. simpl. by rewrite foldl_index_tool, lookup_empty. Qed.

Lemma view_lookup_Some tools name t :
  byName (NewToolCatalogView tools) !! name = Some t → t ∈ tools ∧ tool_Name t = name.
Proof. rewrite view_lookup. intros [H1 H2%bool_decide_eq_true]%first_such_Some. done. Qed.

Lemma first_such_unique tools t :
  NoDup (map tool_Name tools) → t ∈ tools →
  first_such (λ u, bool_decide (tool_Name u = tool_Name t)) tools = Some t.
Proof.
  unfold first_such. induction tools as [|u tools IH]; [by intros _ ?%not_elem_of_nil|].
  simpl. rewrite NoDup_cons. intros [Hn Hnd] [<-|Ht]%elem_of_cons; [by rewrite bool_decide_true|].
  rewrite bool_decide_false; [by apply IH|]. intros Heq. apply Hn. rewrite Heq. apply list_elem_of_fmap. eauto.
Qed.

Lemma view_lookup_unique tools t :
  NoDup (map tool_Name tools) → t ∈ tools → byName (NewToolCatalogView tools) !! tool_Name t = Some t.
Proof. intros. rewrite view_lookup. by apply first_such_unique. Qed.

Lemma toolNames_map tools : toolNames tools = map tool_Name tools.
Proof. done. Qed.

(** Picking the names of a sublist of a catalog with unique names gives the
    sublist back. *)
Lemma PickOrdered_sublist tools sub :
  NoDup (map tool_Name tools) → (∀ t, t ∈ sub → t ∈ tools) →
  PickOrdered (NewToolCatalogView tools) (map tool_Name sub) = sub.
Proof.
  intros Hnd. unfold PickOrdered. induction sub as [|t sub IH]; intros Hsub; [done|].
  cbn -[NewToolCatalogView]. rewrite view_lookup_unique by (auto; apply Hsub; constructor). f_equal.
  apply IH. intros u Hu. apply Hsub. by constructor.
Qed.
