(* ===== verification/McpPolicy.v ===== *)
(** * MCP tool governance: the filtering stages

    [pkg/filter/mcp/mcpserver/router]: the claim matcher ([match.go]), the hard
    policy ([policy.go]), the workflow bundles ([workflow.go]) and the
    progressive gate ([progressive.go]), with the selection context and the
    decision traces of [types.go].

    A claim is modelled by the two renderings the router takes of it: the text
    [fmt.Sprintf("%v")] prints, which the policies compare, and its JSON
    encoding, which the identity fingerprint hashes ([None] when it has none).
    Regular expressions are a parameter: a type, [regexp.Compile] and
    [MatchString].  So is the order in which Go runs over a set, which only the
    text of a decision trace depends on. *)

From S2P Require Import Prelude GoStrings Endpoint McpCatalog.

(** ** [types.go] *)

Definition ModeSelected : string := "selected".
Definition ModeFallbackBundle : string := "fallback_bundle".
Definition ModeFailClosed : string := "fail_closed".

Definition StageInternal : string := "internal".
Definition StagePolicy : string := "policy".
Definition StageWorkflow : string := "workflow".
Definition StageProgressive : string := "progressive".

Definition maxDecisionTraceSamples : nat := 32.

Record claim : Type := mkClaim {
  claim_text : string;
  claim_json : option string;
}.

Record SelectionContext : Type := mkSelectionContext {
  SessionID : string;
  SessionGeneration : Z;
  sc_Method : string;
  UserID : string;
  Tenant : string;
  Claims : gmap string claim;
  Requested : string;
  CatalogVersion : string;
}.

Record DecisionTrace : Type := mkDecisionTrace {
  tr_Tool : string;
  tr_Stage : string;
  tr_Rule : string;
  tr_Detail : string;
}.

(** The loop that the three stages share: a tool without a trace is kept, the
    first [maxDecisionTraceSamples] traces of the others are recorded. *)
Fixpoint keep_traced (drop : ToolConfig → option DecisionTrace) (tools : list ToolConfig)
    (traces : list DecisionTrace) : list ToolConfig * list DecisionTrace :=
  match tools with
  | [] => ([], traces)
  | tool :: tools =>
      match drop tool with
      | Some trace =>
          keep_traced drop tools
            (if length traces <? maxDecisionTraceSamples then traces ++ [trace] else traces)
      | None => let '(kept, traces) := keep_traced drop tools traces in (tool :: kept, traces)
      end
  end.

Lemma keep_traced_kept drop tools traces :
  (keep_traced drop tools traces).1 = filter (λ t, drop t = None) tools.
Proof.
  revert traces. induction tools as [|t tools IH]; intros traces; [done|]. simpl. destruct (drop t) eqn:E.
  - rewrite filter_cons_False by congruence. apply IH.
  - rewrite filter_cons_True by done. rewrite <- (IH traces). by destruct (keep_traced drop tools traces).
Qed.

Lemma keep_traced_traces drop tools traces :
  (keep_traced drop tools traces).2 =
    traces ++ take (maxDecisionTraceSamples - length traces) (omap drop tools).
Proof.
  revert traces. induction tools as [|t tools IH]; intros traces; simpl; [by rewrite take_nil, app_nil_r|].
  destruct (drop t) as [tr|] eqn:E.
  - rewrite IH. case_match eqn:Hl; [apply Nat.ltb_lt in Hl|apply Nat.ltb_ge in Hl].
    + rewrite length_app. simpl length. rewrite <- app_assoc. f_equal. simpl.
      replace (maxDecisionTraceSamples - length traces)
        with (S (maxDecisionTraceSamples - (length traces + 1))) by lia. done.
    + by replace (maxDecisionTraceSamples - length traces) with 0 by lia.
  - rewrite <- IH. by destruct (keep_traced drop tools traces).
Qed.

Lemma keep_traced_names drop tools :
  (∀ t tr, drop t = Some tr → tr_Tool tr = tool_Name t) →
  map tr_Tool (keep_traced drop tools []).2 =
    take maxDecisionTraceSamples (map tool_Name (filter (λ t, drop t ≠ None) tools)).
Proof.
  intros Hd. rewrite keep_traced_traces. rewrite app_nil_l, Nat.sub_0_r.
  change (tr_Tool <$> take maxDecisionTraceSamples (omap drop tools) = take maxDecisionTraceSamples
    (tool_Name <$> filter (λ t, drop t ≠ None) tools)).
  rewrite fmap_take. f_equal.
  induction tools as [|t tools IH]; [done|]. simpl. destruct (drop t) as [tr|] eqn:E.
  - rewrite filter_cons_True by congruence. simpl. f_equal; [by apply Hd|exact IH].
  - rewrite filter_cons_False by auto. apply IH.
Qed.

(** ** [match.go] *)

(** [claimString]: the text of a claim; the promoted fields come first. *)
Definition claimString (sc : SelectionContext) (key : string) : option string :=
  if decide (key = "sub" ∧ UserID sc ≠ "") then Some (UserID sc)
  else if decide (key = "tenant" ∧ Tenant sc ≠ "") then Some (Tenant sc)
  else claim_text <$> Claims sc !! key.

Definition hasClaim (sc : SelectionContext) (key : string) : bool :=
  match claimString sc key with
  | Some v => bool_decide (v ≠ "")
  | None => false
  end.

Inductive match_error : Type :=
  | MissingClaimCombined
  | SeveralOperators
  | ClaimRequired
  | InvalidRegex (re : string).

Definition operators (m : PolicyMatch) : nat :=
  (if decide (pm_Equals m = "") then 0 else 1) + (if decide (pm_In m = []) then 0 else 1)
  + (if decide (pm_Regex m = "") then 0 else 1).

Definition validatePolicyMatch (m : PolicyMatch) : result match_error unit :=
  if decide (pm_MissingClaim m ≠ "") then
    if decide (pm_Claim m ≠ "" ∨ 0 < operators m) then Err MissingClaimCombined else Ok ()
  else if decide (1 < operators m) then Err SeveralOperators
  else if decide (0 < operators m ∧ pm_Claim m = "") then Err ClaimRequired
  else Ok ().

(** ** [policy.go]: risks *)

Inductive risk_error : Type :=
  | UnsupportedRisk (risk : string).

Definition ValidateRisk (risk : string) : result risk_error unit :=
  if decide (risk ∈ [""; "low"; "medium"; "high"]) then Ok () else Err (UnsupportedRisk risk).

Definition riskLevel (risk : string) : nat :=
  if decide (risk = "high") then 3
  else if decide (risk = "medium") then 2
  else if decide (risk = "low" ∨ risk = "") then 1
  else 3.

Definition maxRiskOrdinal (risk : string) : result risk_error nat :=
  if decide (risk = "") then Ok 0
  else match ValidateRisk risk with
       | Ok _ => Ok (riskLevel risk)
       | Err e => Err e
       end.

(** [ValidateTools]: unique non-empty names, then the risks in order. *)
Inductive tools_error : Type :=
  | BadName (e : name_error)
  | BadRisk (tool : string) (e : risk_error).

Definition tool_risk_error (tool : ToolConfig) : option tools_error :=
  match tool_Meta tool with
  | None => None
  | Some m => match ValidateRisk (Risk m) with
              | Ok _ => None
              | Err e => Some (BadRisk (tool_Name tool) e)
              end
  end.

Definition ValidateTools (tools : list ToolConfig) : result tools_error unit :=
  match ValidateUniqueNames tools with
  | Err e => Err (BadName e)
  | Ok _ => match first_some tool_risk_error tools with
            | Some e => Err e
            | None => Ok ()
            end
  end.

Definition toolTags (tool : ToolConfig) : StringSet :=
  match tool_Meta tool with
  | None => ∅
  | Some m => NewStringSet (Tags m)
  end.

Definition toolRisk (tool : ToolConfig) : string :=
  match tool_Meta tool with
  | None => "low"
  | Some m => if decide (Risk m = "") then "low" else Risk m
  end.

Section stages.
Context {regexp : Type} (Compile : string → option regexp) (MatchString : regexp → string → bool).
Context (range : StringSet → list string).

(** ** [match.go]: the matcher *)

Record matcher : Type := mkMatcher {
  m_match : PolicyMatch;
  m_re : option regexp;
}.

Definition newMatcher (m : PolicyMatch) : result match_error matcher :=
  match validatePolicyMatch m with
  | Err e => Err e
  | Ok _ =>
      if decide (pm_Regex m = "") then Ok (mkMatcher m None)
      else match Compile (pm_Regex m) with
           | None => Err (InvalidRegex (pm_Regex m))
           | Some re => Ok (mkMatcher m (Some re))
           end
  end.

Definition alwaysMatches (m : matcher) : bool :=
  bool_decide (pm_Claim (m_match m) = "" ∧ pm_MissingClaim (m_match m) = "").

Definition matches (m : matcher) (sc : SelectionContext) : bool :=
  let pm := m_match m in
  if decide (pm_MissingClaim pm ≠ "") then negb (hasClaim sc (pm_MissingClaim pm))
  else if decide (pm_Claim pm = "") then true
  else match claimString sc (pm_Claim pm) with
       | None => false
       | Some val =>
           if decide (pm_Equals pm ≠ "") then bool_decide (val = pm_Equals pm)
           else if decide (pm_In pm ≠ []) then bool_decide (val ∈ pm_In pm)
           else match m_re m with
                | Some re => MatchString re val
                | None => bool_decide (val ≠ "")
                end
       end.

(** ** [policy.go] *)

Record compiledRule : Type := mkCompiledRule {
  cr_name : string;
  cr_when : matcher;
  cr_allowTags : StringSet;
  cr_denyTags : StringSet;
  cr_maxRisk : nat;
}.

Inductive policy_error : Type :=
  | RuleMatch (rule : string) (e : match_error)
  | RuleRisk (rule : string) (e : risk_error).

Definition compile_rule (r : PolicyRule) : result policy_error compiledRule :=
  match newMatcher (pr_When r) with
  | Err e => Err (RuleMatch (pr_Name r) e)
  | Ok m =>
      match maxRiskOrdinal (pr_MaxRisk r) with
      | Err e => Err (RuleRisk (pr_Name r) e)
      | Ok maxRisk =>
          Ok (mkCompiledRule (pr_Name r) m (NewStringSet (pr_AllowTags r)) (NewStringSet (pr_DenyTags r)) maxRisk)
      end
  end.

(** A [PolicyFilter] is its list of rules. *)
Fixpoint NewPolicyFilter (cfg : list PolicyRule) : result policy_error (list compiledRule) :=
  match cfg with
  | [] => Ok []
  | r :: cfg =>
      match compile_rule r with
      | Err e => Err e
      | Ok cr => match NewPolicyFilter cfg with Err e => Err e | Ok rules => Ok (cr :: rules) end
      end
  end.

Fixpoint validatePolicyRisks (cfg : list PolicyRule) : result policy_error unit :=
  match cfg with
  | [] => Ok ()
  | r :: cfg =>
      match maxRiskOrdinal (pr_MaxRisk r) with
      | Err e => Err (RuleRisk (pr_Name r) e)
      | Ok _ => validatePolicyRisks cfg
      end
  end.

(** Why one rule denies a tool; the empty reason is an admission. *)
Definition rule_reason (tags : StringSet) (risk : string) (r : compiledRule) : string :=
  match first_such (set_Contains tags) (range (cr_denyTags r)) with
  | Some tag => "deny_tag:" +:+ tag
  | None =>
      if decide (cr_allowTags r ≠ ∅ ∧ Intersects tags (cr_allowTags r) = false) then "no_allow_tag"
      else if decide (0 < cr_maxRisk r ∧ cr_maxRisk r < riskLevel risk) then "risk_exceeds_" +:+ risk
      else ""
  end.

Definition denyReason (rules : list compiledRule) (tool : ToolConfig) : string * string :=
  let tags := toolTags tool in
  let risk := toolRisk tool in
  default ("", "")
    (first_some (λ r, let reason := rule_reason tags risk r in
                      if decide (reason = "") then None else Some (cr_name r, reason)) rules).

Definition policy_trace (rules : list compiledRule) (tool : ToolConfig) : option DecisionTrace :=
  let '(rule, reason) := denyReason rules tool in
  if decide (reason = "") then None
  else Some (mkDecisionTrace (tool_Name tool) StagePolicy rule reason).

Definition policy_Filter (p : list compiledRule) (tools : list ToolConfig) (sc : SelectionContext) :
    list ToolConfig * list DecisionTrace :=
  if decide (p = []) then (tools, [])
  else
    let applicable := List.filter (λ r, matches (cr_when r) sc) p in
    match applicable with
    | [] => (tools, [])
    | _ => keep_traced (policy_trace applicable) tools []
    end.

(** ** [workflow.go] *)

Record compiledWorkflow : Type := mkCompiledWorkflow {
  cw_name : string;
  cw_when : matcher;
  cw_tools : StringSet;
  cw_hasWhen : bool;
}.

Record WorkflowSelector : Type := mkWorkflowSelector {
  workflows : list compiledWorkflow;
  ws_byName : gmap string compiledWorkflow;
}.

Inductive workflow_error : Type :=
  | WorkflowNameRequired (i : nat)
  | WorkflowDuplicate (name : string)
  | WorkflowMatch (name : string) (e : match_error)
  | WorkflowTools (name : string) (e : name_error).

Definition compileWorkflowTools (name : string) (raw : list string) : result workflow_error StringSet :=
  match validated_set 0 raw ∅ with
  | Err e => Err (WorkflowTools name e)
  | Ok tools => Ok tools
  end.

Fixpoint compile_workflows (i : nat) (cfgs : list WorkflowConfig) (ws : WorkflowSelector) :
    result workflow_error WorkflowSelector :=
  match cfgs with
  | [] => Ok ws
  | c :: cfgs =>
      let name := TrimSpace (wf_Name c) in
      if decide (name = "") then Err (WorkflowNameRequired i)
      else match ws_byName ws !! name with
           | Some _ => Err (WorkflowDuplicate name)
           | None =>
               match newMatcher (wf_When c) with
               | Err e => Err (WorkflowMatch name e)
               | Ok m =>
                   match compileWorkflowTools name (wf_Tools c) with
                   | Err e => Err e
                   | Ok tools =>
                       let cw := mkCompiledWorkflow name m tools (negb (alwaysMatches m)) in
                       compile_workflows (S i) cfgs
                         (mkWorkflowSelector (workflows ws ++ [cw]) (<[name := cw]> (ws_byName ws)))
                   end
               end
           end
  end.

Definition NewWorkflowSelector (cfgs : list WorkflowConfig) : result workflow_error WorkflowSelector :=
  compile_workflows 0 cfgs (mkWorkflowSelector [] ∅).

(** The first workflow with a condition that holds. *)
Definition matchWorkflow (w : WorkflowSelector) (sc : SelectionContext) : option compiledWorkflow :=
  first_such (λ wf, cw_hasWhen wf && matches (cw_when wf) sc) (workflows w).

Definition hasMatchableWorkflows (w : WorkflowSelector) : bool := existsb cw_hasWhen (workflows w).

Definition bundleTools (w : WorkflowSelector) (name : string) : option StringSet :=
  cw_tools <$> ws_byName w !! TrimSpace name.

Record workflowResult : Type := mkWorkflowResult {
  wr_tools : list ToolConfig;
  wr_traces : list DecisionTrace;
  wr_matched : bool;
  wr_rule : string;
}.

(** The trace of a tool outside of a set of names. *)
Definition outside_trace (set : StringSet) (stage rule detail : string) (tool : ToolConfig) : option DecisionTrace :=
  if set_Contains set (tool_Name tool) then None
  else Some (mkDecisionTrace (tool_Name tool) stage rule detail).

Definition workflow_filter (w : WorkflowSelector) (tools : list ToolConfig) (sc : SelectionContext) : workflowResult :=
  match matchWorkflow w sc with
  | None => mkWorkflowResult tools [] false ""
  | Some matched =>
      let '(kept, traces) :=
        keep_traced (outside_trace (cw_tools matched) StageWorkflow (cw_name matched) "not_in_workflow") tools [] in
      mkWorkflowResult kept traces true (cw_name matched)
  end.

(** ** [progressive.go] *)

Record ProgressiveGate : Type := mkProgressiveGate {
  pg_workflow : option WorkflowSelector;
  pg_initialBundle : string;
  pg_expandAfter : Z;
}.

Definition NewProgressiveGate (cfg : ProgressiveConfig) (wf : option WorkflowSelector) : ProgressiveGate :=
  mkProgressiveGate wf (InitialBundle cfg)
    (if decide (ExpandAfterCalls cfg ≤ 0)%Z then 1%Z else ExpandAfterCalls cfg).

Definition bundleSet (g : ProgressiveGate) : option StringSet :=
  match pg_workflow g with
  | None => None
  | Some w => if decide (pg_initialBundle g = "") then None else bundleTools w (pg_initialBundle g)
  end.

Definition gate_Apply (g : ProgressiveGate) (tools : list ToolConfig) (expanded : bool) :
    list ToolConfig * list DecisionTrace :=
  if expanded then (tools, [])
  else match bundleSet g with
       | None => ([], [mkDecisionTrace "" StageProgressive "" "missing_initial_bundle"])
       | Some bundle => keep_traced (outside_trace bundle StageProgressive "" "tier_locked") tools []
       end.

End stages.

Arguments mkMatcher {regexp}.
Arguments m_match {regexp}.
Arguments m_re {regexp}.
Arguments alwaysMatches {regexp}.
Arguments mkCompiledRule {regexp}.
Arguments cr_name {regexp}.
Arguments cr_when {regexp}.
Arguments cr_allowTags {regexp}.
Arguments cr_denyTags {regexp}.
Arguments cr_maxRisk {regexp}.
Arguments mkCompiledWorkflow {regexp}.
Arguments cw_name {regexp}.
Arguments cw_when {regexp}.
Arguments cw_tools {regexp}.
Arguments cw_hasWhen {regexp}.
Arguments mkWorkflowSelector {regexp}.
Arguments workflows {regexp}.
Arguments ws_byName {regexp}.
Arguments hasMatchableWorkflows {regexp}.
Arguments bundleTools {regexp}.
Arguments mkProgressiveGate {regexp}.
Arguments pg_workflow {regexp}.
Arguments pg_initialBundle {regexp}.
Arguments pg_expandAfter {regexp}.
Arguments NewProgressiveGate {regexp}.
Arguments bundleSet {regexp}.
Arguments gate_Apply {regexp}.

(** ** What the stages decide *)

Section decisions.
Context {regexp : Type} (MatchString : regexp → string → bool) (range : StringSet → list string).
Implicit Types (r : compiledRule (regexp:=regexp)) (p : list (compiledRule (regexp:=regexp))).
Implicit Types (w : WorkflowSelector (regexp:=regexp)) (t : ToolConfig) (sc : SelectionContext).

(** One rule: no denied tag, an allowed tag when the rule lists any, a risk
    under the ceiling when there is one. *)
Definition rule_allows r t : Prop :=
  toolTags t ## cr_denyTags r ∧
  (cr_allowTags r = ∅ ∨ ¬ toolTags t ## cr_allowTags r) ∧
  (cr_maxRisk r = 0 ∨ riskLevel (toolRisk t) ≤ cr_maxRisk r).

(** The policy: every rule whose condition holds admits the tool. *)
Definition policy_allows p sc t : Prop :=
  Forall (λ r, matches MatchString (cr_when r) sc = true → rule_allows r t) p.

#[export] Instance rule_allows_dec r t : Decision (rule_allows r t) := _.
#[export] Instance policy_allows_dec p sc t : Decision (policy_allows p sc t) := _.

Context (Hrange : ∀ (s : StringSet) x, x ∈ range s ↔ x ∈ s).

Lemma rule_reason_empty r t : rule_reason range (toolTags t) (toolRisk t) r = "" ↔ rule_allows r t.
Proof.
  unfold rule_reason, rule_allows.
  destruct (first_such _ _) as [tag|] eqn:E.
  { apply first_such_Some in E as [H1%Hrange H2%bool_decide_eq_true]. split; [done|].
    intros [H _]. by destruct (H tag). }
  assert (toolTags t ## cr_denyTags r) as Hd.
  { intros x H1 H2%Hrange. rewrite first_such_None in E. specialize (E x H2).
    apply bool_decide_eq_false in E. done. }
  assert (Intersects (toolTags t) (cr_allowTags r) = false ↔ toolTags t ## cr_allowTags r) as Hi.
  { rewrite <- not_true_iff_false, Intersects_spec. unfold disjoint, set_disjoint_instance. naive_solver. }
  case_decide as E1; [split; [done|]; intros (_ & [?|?] & _); naive_solver|].
  case_decide as E2; [split; [done|]; intros (_ & _ & [?|?]); lia|].
  split; [|done]. intros _. split; [done|]. split; [|lia].
  destruct (decide (cr_allowTags r = ∅)); [by left|right]. rewrite <- Hi. naive_solver.
Qed.

Lemma policy_trace_None p t : policy_trace range p t = None ↔ Forall (λ r, rule_allows r t) p.
Proof.
  unfold policy_trace, denyReason. destruct (first_some _ p) as [[rule reason]|] eqn:E; simpl.
  - apply first_some_Some in E as (l1 & r & l2 & -> & Hr & _). case_decide as E1; simplify_eq.
    case_decide; [done|]. split; [done|]. rewrite Forall_app, Forall_cons. intros (_ & Hal & _).
    by apply rule_reason_empty in Hal.
  - split; [|done]. intros _. apply Forall_forall. intros r Hr. rewrite first_some_None in E.
    specialize (E r Hr). apply rule_reason_empty. by case_decide.
Qed.

Lemma applicable_allows p sc t :
  Forall (λ r, rule_allows r t) (List.filter (λ r, matches MatchString (cr_when r) sc) p) ↔ policy_allows p sc t.
Proof.
  unfold policy_allows. rewrite !Forall_forall. split; intros H r Hr.
  - intros Hm. apply H. apply list_elem_of_In, filter_In. by rewrite <- list_elem_of_In.
  - apply list_elem_of_In, filter_In in Hr as [Hr Hm]. apply H; [by apply list_elem_of_In|done].
Qed.

(** The policy stage as a filter, with the traces of the first dropped tools. *)
Lemma policy_Filter_cases p tools sc :
  (policy_Filter MatchString range p tools sc = (tools, []) ∧ ∀ t, policy_allows p sc t) ∨
  ∃ q : list (compiledRule (regexp:=regexp)), policy_Filter MatchString range p tools sc = keep_traced (policy_trace range q) tools [] ∧
       ∀ t, policy_trace range q t = None ↔ policy_allows p sc t.
Proof.
  unfold policy_Filter. case_decide as E; [left; split; [done|]; subst p; intros; constructor|].
  destruct (List.filter _ p) as [|r l] eqn:El.
  - left. split; [done|]. intros t. apply applicable_allows. rewrite El. constructor.
  - right. exists (r :: l). split; [done|]. intros t. rewrite policy_trace_None, <- El. apply applicable_allows.
Qed.

Lemma policy_Filter_kept p tools sc :
  (policy_Filter MatchString range p tools sc).1 = filter (policy_allows p sc) tools.
Proof.
  destruct (policy_Filter_cases p tools sc) as [[-> H]|(q & -> & H)].
  - by rewrite list_filter_all.
  - rewrite keep_traced_kept. by apply list_filter_ext_elem.
Qed.

Lemma policy_Filter_traces p tools sc :
  map tr_Tool (policy_Filter MatchString range p tools sc).2 =
    take maxDecisionTraceSamples (map tool_Name (filter (λ t, ¬ policy_allows p sc t) tools)).
Proof.
  destruct (policy_Filter_cases p tools sc) as [[-> H]|(q & -> & H)].
  - rewrite list_filter_none by auto. done.
  - rewrite keep_traced_names.
    + do 2 f_equal. apply list_filter_ext_elem. intros t _. by rewrite H.
    + unfold policy_trace. intros t tr. destruct (denyReason range q t). case_decide; naive_solver.
Qed.

(** The policy, the workflows and the gate read the claims through
    [claimString] only. *)
Lemma matches_ext (m : matcher (regexp:=regexp)) sc1 sc2 :
  (∀ k, claimString sc1 k = claimString sc2 k) → matches MatchString m sc1 = matches MatchString m sc2.
Proof. intros H. unfold matches, hasClaim. by rewrite !H. Qed.

Lemma policy_allows_ext p sc1 sc2 t :
  (∀ k, claimString sc1 k = claimString sc2 k) → policy_allows p sc1 t ↔ policy_allows p sc2 t.
Proof.
  intros H. unfold policy_allows. apply Forall_iff. intros r. by rewrite (matches_ext _ sc1 sc2 H).
Qed.

Lemma matchWorkflow_ext w sc1 sc2 :
  (∀ k, claimString sc1 k = claimString sc2 k) → matchWorkflow MatchString w sc1 = matchWorkflow MatchString w sc2.
Proof.
  intros H. unfold matchWorkflow, first_such. apply first_some_ext. intros wf _.
  by rewrite (matches_ext _ sc1 sc2 H).
Qed.

Lemma outside_trace_None set stage rule detail t :
  outside_trace set stage rule detail t = None ↔ tool_Name t ∈ set.
Proof. unfold outside_trace, set_Contains. by case_bool_decide. Qed.

Lemma workflow_filter_kept w tools sc :
  wr_tools (workflow_filter MatchString w tools sc) =
    match matchWorkflow MatchString w sc with
    | None => tools
    | Some wf => filter (λ t, tool_Name t ∈ cw_tools wf) tools
    end.
Proof.
  unfold workflow_filter. destruct (matchWorkflow _ _ _) as [wf|]; [|done].
  pose proof (keep_traced_kept (outside_trace (cw_tools wf) StageWorkflow (cw_name wf) "not_in_workflow") tools []) as H.
  destruct (keep_traced _ _ _). simpl in *. rewrite H. apply list_filter_ext_elem. intros t _.
  apply outside_trace_None.
Qed.

Lemma gate_Apply_kept (g : ProgressiveGate (regexp:=regexp)) tools expanded :
  (gate_Apply g tools expanded).1 =
    if expanded then tools
    else match bundleSet g with
         | None => []
         | Some bundle => filter (λ t, tool_Name t ∈ bundle) tools
         end.
Proof.
  unfold gate_Apply. destruct expanded; [done|]. destruct (bundleSet g); [|done].
  rewrite keep_traced_kept. apply list_filter_ext_elem. intros t _. apply outside_trace_None.
Qed.
End decisions.

(** ** Compiled configurations *)

Lemma validated_set_spec i values set res :
  validated_set i values set = Ok res →
  NoDup (map TrimSpace values) ∧ (∀ x, x ∈ res ↔ x ∈ set ∨ x ∈ map TrimSpace values) ∧
  (∀ v, v ∈ values → TrimSpace v ≠ "" ∧ TrimSpace v ∉ set).
Proof.
  revert i set. induction values as [|v values IH]; intros i set; simpl.
  { intros [= ->]. split; [constructor|]. split; [set_solver|]. by intros v ?%not_elem_of_nil. }
  case_decide as E1; [done|]. case_decide as E2; [done|]. intros (Hnd & Hx & Hv)%IH. split_and!.
  - constructor; [|done]. intros (u & Hu1 & Hu2)%list_elem_of_fmap. destruct (Hv u Hu2). set_solver.
  - intros x. rewrite Hx. set_solver.
  - intros u [->|Hu]%elem_of_cons; [done|]. destruct (Hv u Hu). set_solver.
Qed.

Section compiled.
Context {regexp : Type} (Compile : string → option regexp).
Implicit Types (w : WorkflowSelector (regexp:=regexp)).

(** The index of a workflow selector and its list say the same. *)
Definition workflows_ok w : Prop :=
  NoDup (map cw_name (workflows w)) ∧
  (∀ name cw, ws_byName w !! name = Some cw ↔ cw ∈ workflows w ∧ cw_name cw = name) ∧
  Forall (λ cw, cw_name cw ≠ "" ∧ cw_hasWhen cw = negb (alwaysMatches (cw_when cw))) (workflows w).

Lemma compile_workflows_ok i cfgs w w' :
  workflows_ok w → compile_workflows Compile i cfgs w = Ok w' → workflows_ok w'.
Proof.
  revert i w. induction cfgs as [|c cfgs IH]; intros i w Hw; simpl; [naive_solver|].
  case_decide as E1; [done|]. destruct (ws_byName w !! _) eqn:E2; [done|].
  destruct (newMatcher _ _) as [m|e]; [|done]. destruct (compileWorkflowTools _ _) as [tools|e]; [|done].
  apply IH. clear IH. destruct Hw as (Hnd & Hix & Hall). unfold workflows_ok. simpl. split_and!.
  - rewrite map_app. apply NoDup_app. split; [done|]. split; [|apply NoDup_singleton].
    simpl. intros name (cw & -> & Hcw)%list_elem_of_fmap Hin%list_elem_of_singleton.
    assert (ws_byName w !! cw_name cw = Some cw) as Hc by by apply Hix. congruence.
  - intros name cw. rewrite elem_of_app, list_elem_of_singleton, lookup_insert_Some, Hix. split.
    + intros [[<- <-]|[Hne [Hin <-]]]; auto.
    + intros [[Hin| ->] <-]; [|by left]. right. split; [|done]. intros Heq.
      assert (ws_byName w !! cw_name cw = Some cw) as Hc by by apply Hix. congruence.
  - apply Forall_app. split; [done|]. by constructor.
Qed.

(** Compiling a list of workflows that is accepted gives a selector in which
    every workflow is found under its own name, which is trimmed, not empty and
    not shared, and which matches by itself exactly when it has a condition. *)
Theorem workflow_selector_indexed cfgs w :
  NewWorkflowSelector Compile cfgs = Ok w →
  workflows_ok w ∧ map cw_name (workflows w) = map (λ c, TrimSpace (wf_Name c)) cfgs.
Proof.
  intros H. split.
  { eapply compile_workflows_ok; [|exact H]. split; [constructor|]. split; [|constructor].
    intros name cw. simpl. split; [done|]. by intros [?%not_elem_of_nil _]. }
  unfold NewWorkflowSelector in H.
  assert (∀ i v, compile_workflows Compile i cfgs v = Ok w →
    map cw_name (workflows w) = map cw_name (workflows v) ++ map (λ c, TrimSpace (wf_Name c)) cfgs) as Hgen.
  { clear H. induction cfgs as [|c cfgs IH]; intros i v; simpl; [intros [= ->]; by rewrite app_nil_r|].
    go_cases; try done. intros Hc%IH. rewrite Hc. simpl. rewrite map_app. simpl. by rewrite <- app_assoc. }
  by apply Hgen in H.
Qed.
End compiled.
