(* ===== verification/McpIdentity.v ===== *)
(** * Fingerprints: [pkg/common/fingerprint/fingerprint.go] and
      [pkg/filter/mcp/mcpserver/router/claims.go]

    A fingerprint builder is the text written into the hash so far.  The model
    of SHA-256 is executable, so that fingerprints are concrete strings; that
    two different texts have different fingerprints is never assumed of the
    hash as such, but stated, where a theorem needs it, for the texts it is
    about. *)

From stdpp Require Import sorting.
From S2P Require Import Prelude GoStrings Sha256 Endpoint McpCatalog McpPolicy.

(** ** [fingerprint.go] *)

Definition nul : ascii := "000"%char.

Definition Builder : Type := string.
Definition NewBuilder : Builder := "".

Definition AddString (b : Builder) (value : string) : Builder := b +:+ value +:+ String nul "".

(** [AddJSON] is given the encoding of its argument, or none. *)
Definition AddJSON (b : Builder) (json : option string) : option Builder := AddString b <$> json.

Definition Sum (b : Builder) : string := hex (sha256 (byte_values b)).

Definition SumShort (b : Builder) (n : nat) : string :=
  let sum := Sum b in
  if decide (n = 0 ∨ String.length sum ≤ n) then sum else String.substring 0 n sum.

Definition framed (items : list string) : Builder := foldl AddString NewBuilder items.

Definition StringsOrdered (items : list string) : string :=
  if decide (items = []) then "" else Sum (framed items).

Definition StringsSorted (items : list string) : string :=
  if decide (items = []) then "" else StringsOrdered (merge_sort String.le items).

(** [JSONStable] of a value is given its encoding, or none; the fallback hashes
    the [%#v] rendering. *)
Definition JSONStable (json : option string) : option string := Sum <$> AddJSON NewBuilder json.

Definition JSONStableOrFallback (json : option string) (go : string) : string :=
  match JSONStable json with
  | Some sum => sum
  | None => StringsOrdered [go]
  end.

(** ** [claims.go] *)

(** The claims that a promoted field stands for are left out. *)
Definition promoted (sc : SelectionContext) (k : string) : Prop :=
  (k = "sub" ∧ UserID sc ≠ "") ∨ (k = "tenant" ∧ Tenant sc ≠ "").

#[export] Instance promoted_dec sc k : Decision (promoted sc k) := _.

Inductive claims_error : Type :=
  | NotCanonicalizable (k : string).

Definition add_claim (sc : SelectionContext) (r : result claims_error Builder) (kc : string * claim) :
    result claims_error Builder :=
  match r with
  | Err e => Err e
  | Ok b =>
      if decide (promoted sc kc.1) then Ok b
      else match AddJSON (AddString b ("claim:" +:+ kc.1)) (claim_json kc.2) with
           | Some b => Ok b
           | None => Err (NotCanonicalizable kc.1)
           end
  end.

(** The claims by ascending key. *)
Definition sorted_claims (claims : gmap string claim) : list (string * claim) :=
  omap (λ k, pair k <$> claims !! k) (merge_sort String.le (elements (dom claims))).

(** The text that [ClaimsFingerprint] hashes. *)
Definition identity_text (sc : SelectionContext) : result claims_error Builder :=
  let b := NewBuilder in
  let b := if decide (UserID sc = "") then b else AddString b ("sub:" +:+ UserID sc) in
  let b := if decide (Tenant sc = "") then b else AddString b ("tenant:" +:+ Tenant sc) in
  foldl (add_claim sc) (Ok b) (sorted_claims (Claims sc)).

Definition ClaimsFingerprint (sc : SelectionContext) : result claims_error string :=
  match identity_text sc with
  | Ok b => Ok (SumShort b 16)
  | Err e => Err e
  end.

(** ** Lengths of digests *)

Lemma length_round st kw : length (round st kw) = length st.
Proof. unfold round. by repeat case_match. Qed.

Lemma length_rounds st l : length (foldl round st l) = length st.
Proof. revert st. induction l as [|kw l IH]; intros st; simpl; [done|]. by rewrite IH, length_round. Qed.

Lemma length_blocks fuel st ws : length (blocks fuel st ws) = length st.
Proof.
  revert st ws. induction fuel as [|fuel IH]; intros st [|w ws]; simpl; try done.
  rewrite IH. unfold block. rewrite length_zip_with, length_rounds. lia.
Qed.

Lemma length_be_bytes n x : length (be_bytes n x) = n.
Proof. induction n; simpl; congruence. Qed.

Lemma length_sha256 msg : length (sha256 msg) = 32.
Proof.
  unfold sha256. rewrite length_concat.
  assert (∀ l, sum_list (length <$> map (be_bytes 4) l) = 4 * length l) as H.
  { induction l as [|x l IH]; [done|]. cbn -[be_bytes Nat.mul]. rewrite length_be_bytes, IH. simpl. lia. }
  rewrite H, length_blocks. done.
Qed.

Lemma length_hex bytes : String.length (hex bytes) = 2 * length bytes.
Proof. induction bytes as [|b bytes IH]; simpl; lia. Qed.

Lemma length_Sum b : String.length (Sum b) = 64.
Proof. unfold Sum. by rewrite length_hex, length_sha256. Qed.

Lemma length_substring n s : n ≤ String.length s → String.length (String.substring 0 n s) = n.
Proof. revert n. induction s as [|a s IH]; intros [|n]; simpl; intros Hn; try lia. rewrite IH; lia. Qed.

Lemma length_SumShort b : String.length (SumShort b 16) = 16.
Proof.
  unfold SumShort. rewrite length_Sum. rewrite decide_False by lia.
  apply length_substring. rewrite length_Sum. lia.
Qed.

Lemma SumShort_not_empty b : SumShort b 16 ≠ "".
Proof. intros E. pose proof (length_SumShort b) as H. by rewrite E in H. Qed.

(** Digests are hexadecimal. *)
Lemma be_bytes_range n x : Forall (λ b, 0 ≤ b < 256)%Z (be_bytes n x).
Proof.
  induction n as [|n IH]; constructor; [|done].
  change 255%Z with (Z.ones 8). rewrite Z.land_ones by lia. by apply Z.mod_pos_bound.
Qed.

Lemma sha256_range msg : Forall (λ b, 0 ≤ b < 256)%Z (sha256 msg).
Proof. unfold sha256. apply Forall_concat, Forall_fmap, Forall_true. intros x. apply be_bytes_range. Qed.

Lemma hex_digit_not_nul n : (0 ≤ n < 16)%Z → hex_digit n ≠ nul.
Proof.
  intros Hn. assert (n ∈ seqZ 0 16) as Hin by (apply elem_of_seqZ; lia). clear Hn. revert n Hin.
  apply Forall_forall. vm_compute. repeat constructor; discriminate.
Qed.

Lemma hex_no_nul bytes : Forall (λ b, 0 ≤ b < 256)%Z bytes → Strings.HasByte nul (hex bytes) = false.
Proof.
  induction 1 as [|b bytes Hb _ IH]; [done|]. simpl. rewrite IH, !bool_decide_false; [done|..]; apply hex_digit_not_nul.
  - change 15%Z with (Z.ones 4). rewrite Z.land_ones by lia. by apply Z.mod_pos_bound.
  - rewrite Z.shiftr_div_pow2 by lia. split; [apply Z.div_pos; lia|apply Z.div_lt_upper_bound; lia].
Qed.

Lemma HasByte_substring c n s : Strings.HasByte c s = false → Strings.HasByte c (String.substring 0 n s) = false.
Proof.
  revert n. induction s as [|a s IH]; intros [|n]; simpl; try done.
  rewrite !orb_false_iff. intros [H1 H2]. split; [done|]. by apply IH.
Qed.

Lemma SumShort_no_nul b n : Strings.HasByte nul (SumShort b n) = false.
Proof.
  assert (Strings.HasByte nul (Sum b) = false) by apply hex_no_nul, sha256_range.
  unfold SumShort. case_decide; [done|]. by apply HasByte_substring.
Qed.

(** ** The text determines the items it was built from *)

Lemma foldl_AddString b items : foldl AddString b items = b +:+ framed items.
Proof.
  unfold framed, NewBuilder. revert b. induction items as [|x items IH]; intros b; simpl; [by rewrite Strings.app_empty_r|].
  rewrite IH, (IH (AddString "" x)). unfold AddString. by rewrite !Strings.app_assoc.
Qed.

Lemma framed_cons x items : framed (x :: items) = x +:+ String nul (framed items).
Proof.
  unfold framed at 1. simpl. rewrite foldl_AddString. unfold AddString, NewBuilder. simpl.
  by rewrite Strings.app_assoc.
Qed.

Lemma framed_app l1 l2 : framed (l1 ++ l2) = framed l1 +:+ framed l2.
Proof. unfold framed at 1. rewrite foldl_app. by rewrite foldl_AddString. Qed.

Lemma SplitByte_framed items :
  Forall (λ x, Strings.HasByte nul x = false) items → Strings.SplitByte nul (framed items) = items ++ [""].
Proof.
  induction 1 as [|x items Hx _ IH]; [done|]. rewrite framed_cons, Strings.SplitByte_app by done. by rewrite IH.
Qed.

(** Framed with a NUL byte, the items can be read back when none holds one. *)
Lemma framed_inj l1 l2 :
  Forall (λ x, Strings.HasByte nul x = false) l1 → Forall (λ x, Strings.HasByte nul x = false) l2 →
  framed l1 = framed l2 → l1 = l2.
Proof.
  intros H1 H2 E. apply (f_equal (Strings.SplitByte nul)) in E. rewrite !SplitByte_framed in E by done.
  by apply app_inj_tail in E as [? _].
Qed.

Section items.
Implicit Types (sc : SelectionContext) (l : list (string * claim)).

Definition claim_items (kc : string * claim) : list string :=
  ["claim:" +:+ kc.1; default "" (claim_json kc.2)].

Definition own_claims sc : list (string * claim) := filter (λ kc, ¬ promoted sc kc.1) (sorted_claims (Claims sc)).

Definition identity_items sc : list string :=
  (if decide (UserID sc = "") then [] else ["sub:" +:+ UserID sc]) ++
  (if decide (Tenant sc = "") then [] else ["tenant:" +:+ Tenant sc]) ++
  concat (map claim_items (own_claims sc)).

Lemma foldl_add_claim_err sc e l : foldl (add_claim sc) (Err e) l = Err e.
Proof. by induction l. Qed.

Lemma foldl_add_claim sc b l b' :
  foldl (add_claim sc) (Ok b) l = Ok b' →
  b' = b +:+ framed (concat (map claim_items (filter (λ kc, ¬ promoted sc kc.1) l))) ∧
  Forall (λ kc, is_Some (claim_json kc.2)) (filter (λ kc, ¬ promoted sc kc.1) l).
Proof.
  revert b. induction l as [|kc l IH]; intros b; simpl.
  { intros [= ->]. by rewrite Strings.app_empty_r. }
  rewrite filter_cons. case_decide as E1; case_decide as E2; try done; [by apply IH|].
  unfold AddJSON. destruct (claim_json kc.2) as [j|] eqn:Ej; simpl; [|by rewrite foldl_add_claim_err].
  intros [-> Hl]%IH. split; [|constructor; [by rewrite Ej|done]].
  rewrite Ej. simpl. rewrite !framed_cons. unfold AddString. by rewrite !Strings.app_assoc.
Qed.

Lemma identity_text_items sc b :
  identity_text sc = Ok b →
  b = framed (identity_items sc) ∧ Forall (λ kc, is_Some (claim_json kc.2)) (own_claims sc).
Proof.
  unfold identity_text, identity_items. intros [-> H]%foldl_add_claim. split; [|done].
  rewrite !framed_app. rewrite <- Strings.app_assoc. f_equal.
  do 2 case_decide; unfold AddString, NewBuilder; simpl; rewrite ?framed_cons; simpl;
    by rewrite ?Strings.app_empty_r, ?Strings.app_assoc.
Qed.

Lemma elem_of_sorted_claims m k c : (k, c) ∈ sorted_claims m ↔ m !! k = Some c.
Proof.
  unfold sorted_claims. rewrite list_elem_of_omap. setoid_rewrite merge_sort_Permutation.
  setoid_rewrite elem_of_elements. setoid_rewrite elem_of_dom. split.
  - intros (k' & _ & H). destruct (m !! k') eqn:E; simplify_eq/=. done.
  - intros H. exists k. rewrite H. eauto.
Qed.

Lemma elem_of_own_claims sc k c : (k, c) ∈ own_claims sc ↔ Claims sc !! k = Some c ∧ ¬ promoted sc k.
Proof. unfold own_claims. rewrite list_elem_of_filter, elem_of_sorted_claims. simpl. tauto. Qed.

(** No NUL byte in a promoted field or in a key of a claim; a JSON text never
    holds one, for the encoder escapes control characters. *)
Definition nul_free sc : Prop :=
  Strings.HasByte nul (UserID sc) = false ∧ Strings.HasByte nul (Tenant sc) = false ∧
  map_Forall (λ k c, Strings.HasByte nul k = false ∧
                     Strings.HasByte nul (default "" (claim_json c)) = false) (Claims sc).

Lemma identity_items_nul_free sc : nul_free sc → Forall (λ x, Strings.HasByte nul x = false) (identity_items sc).
Proof.
  intros (Hu & Ht & Hc). unfold identity_items. apply Forall_app. split; [|apply Forall_app; split].
  - case_decide; constructor; [done|constructor].
  - case_decide; constructor; [done|constructor].
  - apply Forall_concat, Forall_fmap, Forall_forall. intros [k c] [Hk _]%elem_of_own_claims.
    destruct (Hc k c Hk). by repeat constructor.
Qed.

Lemma claim_items_inj l1 l2 :
  concat (map claim_items l1) = concat (map claim_items l2) →
  map (λ kc, (kc.1, default "" (claim_json kc.2))) l1 = map (λ kc, (kc.1, default "" (claim_json kc.2))) l2.
Proof.
  revert l2. induction l1 as [|[k1 c1] l1 IH]; intros [|[k2 c2] l2]; simpl; try done.
  intros [= -> -> H]. f_equal. by apply IH.
Qed.

Lemma identity_items_inj sc1 sc2 :
  identity_items sc1 = identity_items sc2 →
  UserID sc1 = UserID sc2 ∧ Tenant sc1 = Tenant sc2 ∧
  map (λ kc, (kc.1, default "" (claim_json kc.2))) (own_claims sc1) =
  map (λ kc, (kc.1, default "" (claim_json kc.2))) (own_claims sc2).
Proof.
  unfold identity_items.
  repeat case_decide; simpl; intros E;
    repeat match goal with
    | H : context [concat (map claim_items (own_claims ?sc))] |- _ =>
        lazymatch goal with
        | _ : own_claims sc = _ |- _ => fail
        | |- _ => destruct (own_claims sc) eqn:?
        end
    end; simplify_eq/=; split_and!; try congruence; try done;
    f_equal; first [congruence | by apply claim_items_inj].
Qed.
End items.

(** ** What an identity is *)

Section identity.
Implicit Types (sc : SelectionContext).

(** Claims with the same encoding print the same text. *)
Definition text_follows_json sc1 sc2 : Prop :=
  ∀ k c1 c2, Claims sc1 !! k = Some c1 → Claims sc2 !! k = Some c2 →
    claim_json c1 = claim_json c2 → claim_text c1 = claim_text c2.

Lemma text_follows_json_sym sc1 sc2 : text_follows_json sc1 sc2 → text_follows_json sc2 sc1.
Proof. intros H k c1 c2 H1 H2 E. symmetry. by eapply H. Qed.

Lemma own_claims_transfer sc1 sc2 k c1 :
  map (λ kc, (kc.1, default "" (claim_json kc.2))) (own_claims sc1) =
    map (λ kc, (kc.1, default "" (claim_json kc.2))) (own_claims sc2) →
  Forall (λ kc, is_Some (claim_json kc.2)) (own_claims sc1) →
  Forall (λ kc, is_Some (claim_json kc.2)) (own_claims sc2) →
  Claims sc1 !! k = Some c1 → ¬ promoted sc1 k →
  ∃ c2, Claims sc2 !! k = Some c2 ∧ claim_json c1 = claim_json c2.
Proof.
  intros E H1 H2 Hk Hp.
  assert ((k, c1) ∈ own_claims sc1) as Hin by by apply elem_of_own_claims.
  assert ((k, default "" (claim_json c1)) ∈ map (λ kc, (kc.1, default "" (claim_json kc.2))) (own_claims sc2)) as Hin2.
  { rewrite <- E. apply list_elem_of_fmap. by exists (k, c1). }
  apply list_elem_of_fmap in Hin2 as ([k2 c2] & Heq & Hin2). simplify_eq/=.
  exists c2. pose proof Hin2 as [Hk2 _]%elem_of_own_claims. split; [done|].
  rewrite Forall_forall in H1, H2. destruct (H1 _ Hin) as [j1 Ej1], (H2 _ Hin2) as [j2 Ej2].
  simpl in *. rewrite Ej1, Ej2 in *. simpl in *. congruence.
Qed.

(** Two contexts with the same identity text are the same to every policy. *)
Lemma identity_text_inj sc1 sc2 b :
  nul_free sc1 → nul_free sc2 → text_follows_json sc1 sc2 →
  identity_text sc1 = Ok b → identity_text sc2 = Ok b →
  ∀ k, claimString sc1 k = claimString sc2 k.
Proof.
  intros N1 N2 Ht [E1 J1]%identity_text_items [E2 J2]%identity_text_items k.
  rewrite E1 in E2. apply framed_inj in E2; [|by apply identity_items_nul_free..].
  apply identity_items_inj in E2 as (Hu & Hten & Hown). unfold claimString. rewrite <- Hu, <- Hten.
  case_decide as D1; [done|]. case_decide as D2; [done|].
  assert (¬ promoted sc1 k) as P1 by (unfold promoted; tauto).
  assert (¬ promoted sc2 k) as P2 by (unfold promoted; rewrite <- Hu, <- Hten; tauto).
  destruct (Claims sc1 !! k) as [c1|] eqn:C1.
  - destruct (own_claims_transfer sc1 sc2 k c1) as (c2 & C2 & Hj); [done..|].
    rewrite C2. simpl. f_equal. by eapply Ht.
  - destruct (Claims sc2 !! k) as [c2|] eqn:C2; [|done].
    destruct (own_claims_transfer sc2 sc1 k c2) as (c1 & C1' & Hj); [done..|]. congruence.
Qed.

End identity.

(** A sorted fingerprint does not depend on the order of its items. *)
Lemma StringsSorted_Permutation l1 l2 : l1 ≡ₚ l2 → StringsSorted l1 = StringsSorted l2.
Proof.
  intros H. unfold StringsSorted.
  assert (merge_sort String.le l1 = merge_sort String.le l2) as ->.
  { apply (StronglySorted_unique String.le); [apply StronglySorted_merge_sort; apply _..|].
    by rewrite !merge_sort_Permutation. }
  assert (l1 = [] ↔ l2 = []) as Hn by (split; intros ->; [by apply Permutation_nil_l in H|by apply Permutation_nil_r in H]).
  do 2 case_decide; tauto.
Qed.

(** The items of an identity are separated by a NUL byte that they may hold: a
    user whose name has one in it gets the fingerprint of another user, of
    another tenant, and the policies tell the two apart. *)
Theorem identity_text_ambiguous :
  let forged := mkSelectionContext "s1" 1 "tools/list" ("a" +:+ String nul "tenant:b") "" ∅ "" "v1" in
  let genuine := mkSelectionContext "s1" 1 "tools/list" "a" "b" ∅ "" "v1" in
  ClaimsFingerprint forged = ClaimsFingerprint genuine ∧
  claimString forged "tenant" = None ∧ claimString genuine "tenant" = Some "b".
Proof. split_and!; reflexivity. Qed.
