(* ===== verification/McpPlan.v ===== *)
(** * MCP tool governance: the session plan store

    [pkg/filter/mcp/mcpserver/router/session_plan.go] with the plans and
    receipts of [types.go].  Every operation runs under the store's mutex and is
    one atomic step; it is a function from a store to a store and a result.

    A receipt points to a [receiptState] that its entry points to as well.  The
    cells of these pointers are kept beside the store as the list of their
    [consumed] flags, a pointer being an index.  The store hands out clones of
    its plans only, so that a plan is a value.  The creation time of a plan,
    metrics and logging are left out. *)

From S2P Require Import Prelude GoStrings Endpoint McpCatalog McpPolicy.

(** ** Plans *)

Record StageCount : Type := mkStageCount {
  Input : nat;
  Output : nat;
}.

(** [plan_VisibleToolNames] and [plan_toolSet] can be nil. *)
Record SelectionPlan : Type := mkSelectionPlan {
  plan_SessionID : string;
  plan_ToolNames : list string;
  plan_VisibleToolNames : option (list string);
  plan_VisibleFingerprint : string;
  plan_Mode : string;
  plan_Outcome : string;
  plan_StageCounts : gmap string StageCount;
  plan_Reasons : list DecisionTrace;
  plan_Version : string;
  plan_IdentityHash : string;
  plan_ProgressiveHash : string;
  plan_ConfigHash : string;
  plan_CatalogVersion : string;
  plan_Generation : Z;
  plan_Expanded : bool;
  plan_toolSet : option StringSet;
}.

Definition toolNameSet (names : list string) : option StringSet :=
  if decide (names = []) then None else Some (NewStringSet names).

Definition plan_Contains (p : SelectionPlan) (tool : string) : bool :=
  match plan_toolSet p with
  | Some set => bool_decide (tool ∈ set)
  | None => bool_decide (tool ∈ plan_ToolNames p)
  end.

Definition VisibleNames (p : SelectionPlan) : list string :=
  match plan_VisibleToolNames p with
  | Some names => names
  | None => plan_ToolNames p
  end.

Definition clonePlan (plan : SelectionPlan) (includeReasons : bool) : SelectionPlan :=
  mkSelectionPlan (plan_SessionID plan) (plan_ToolNames plan) (plan_VisibleToolNames plan)
    (plan_VisibleFingerprint plan) (plan_Mode plan) (plan_Outcome plan) (plan_StageCounts plan)
    (if includeReasons then plan_Reasons plan else [])
    (plan_Version plan) (plan_IdentityHash plan) (plan_ProgressiveHash plan) (plan_ConfigHash plan)
    (plan_CatalogVersion plan) (plan_Generation plan) (plan_Expanded plan) (toolNameSet (plan_ToolNames plan)).

(** ** Keys, receipts and entries *)

Record PlanKey : Type := mkPlanKey {
  key_RouterID : string;
  key_SessionID : string;
}.

#[export] Instance PlanKey_eq_dec : EqDecision PlanKey.
Proof. solve_decision. Defined.
#[export] Instance PlanKey_countable : Countable PlanKey.
Proof.
  refine (inj_countable' (λ k, (key_RouterID k, key_SessionID k)) (λ p, mkPlanKey p.1 p.2) _).
  by intros [].
Defined.

Definition key_valid (k : PlanKey) : bool := bool_decide (key_RouterID k ≠ "" ∧ key_SessionID k ≠ "").

Record AuthorizationReceipt : Type := mkAuthorizationReceipt {
  rcpt_RouterInstanceID : string;
  rcpt_SessionID : string;
  rcpt_ToolName : string;
  rcpt_PlanGeneration : Z;
  rcpt_IdentityHash : string;
  rcpt_ConfigHash : string;
  rcpt_CatalogVersion : string;
  rcpt_ProgressiveHash : string;
  rcpt_ReceiptID : Z;
  rcpt_state : option nat;
}.

Record sessionEntry : Type := mkSessionEntry {
  e_plan : option SelectionPlan;
  e_context : SelectionContext;
  e_callCount : Z;
  e_expanded : bool;
  e_identityHash : string;
  e_progressiveHash : string;
  e_configHash : string;
  e_catalogVersion : string;
  e_generation : Z;
  e_nextReceiptID : Z;
  e_activeReceipts : gmap Z nat;
}.

Definition zero_context : SelectionContext := mkSelectionContext "" 0 "" "" "" ∅ "" "".

(** [&sessionEntry{}] *)
Definition new_entry : sessionEntry :=
  mkSessionEntry None zero_context 0 false "" "" "" "" 0 0 ∅.

Record SessionPlanStore : Type := mkSessionPlanStore {
  entries : gmap PlanKey sessionEntry;
  activeSessions : gmap string Z;
  store_max : Z;
  consumed : list bool;
}.

Definition DefaultPlanMaxEntries : Z := 10000.

Definition capacity (maxEntries : Z) : Z :=
  if decide (maxEntries ≤ 0)%Z then DefaultPlanMaxEntries else maxEntries.

Definition NewSessionPlanStoreWithMaxEntries (maxEntries : Z) : SessionPlanStore :=
  mkSessionPlanStore ∅ ∅ (capacity maxEntries) [].

Definition set_entries (s : SessionPlanStore) (m : gmap PlanKey sessionEntry) : SessionPlanStore :=
  mkSessionPlanStore m (activeSessions s) (store_max s) (consumed s).

(** ** Operations *)

Inductive plan_error : Type :=
  | ErrToolNotAuthorized
  | ErrInvalidPlanKey
  | ErrInvalidSelectionPlan
  | ErrSessionPlanNotActive
  | ErrSessionPlanStale
  | ErrPlanStoreFull.

#[export] Instance plan_error_eq_dec : EqDecision plan_error.
Proof. solve_decision. Defined.

Section operations.
Implicit Types (s : SessionPlanStore) (key : PlanKey) (plan : SelectionPlan) (sc : SelectionContext).

Definition ActivateSession s (sessionID : string) (generation : Z) : SessionPlanStore * option plan_error :=
  if decide (sessionID = "" ∨ generation = 0%Z) then (s, Some ErrSessionPlanNotActive)
  else (mkSessionPlanStore (entries s) (<[sessionID := generation]> (activeSessions s)) (store_max s) (consumed s), None).

Definition store_Get s key : option SelectionPlan :=
  if key_valid key then
    match entries s !! key with
    | Some e => (λ p, clonePlan p true) <$> e_plan e
    | None => None
    end
  else None.

Definition validatePlanWrite key (plan : option SelectionPlan) sc : option plan_error :=
  if key_valid key then
    match plan with
    | None => Some ErrInvalidSelectionPlan
    | Some plan =>
        if decide (plan_SessionID plan ≠ "" ∧ plan_SessionID plan ≠ key_SessionID key) then Some ErrInvalidSelectionPlan
        else if decide (SessionID sc ≠ "" ∧ SessionID sc ≠ key_SessionID key) then Some ErrInvalidSelectionPlan
        else None
    end
  else Some ErrInvalidPlanKey.

Definition sessionActiveLocked s sc : bool :=
  if decide (SessionGeneration sc = 0%Z) then true
  else bool_decide (activeSessions s !! SessionID sc = Some (SessionGeneration sc)).

(** The plan as [setLocked] finishes it. *)
Definition stored_plan key (stored : SelectionPlan) (expanded : bool) (generation : Z) : SelectionPlan :=
  mkSelectionPlan (key_SessionID key) (plan_ToolNames stored) (plan_VisibleToolNames stored)
    (plan_VisibleFingerprint stored) (plan_Mode stored) (plan_Outcome stored) (plan_StageCounts stored) []
    (plan_Version stored) (plan_IdentityHash stored) (plan_ProgressiveHash stored) (plan_ConfigHash stored)
    (plan_CatalogVersion stored) generation (expanded || plan_Expanded stored) (plan_toolSet stored).

(** The entry that a write goes to: the present one, with its progressive
    state reset when the identity or the progressive configuration changed. *)
Definition write_base (e : sessionEntry) (stored : SelectionPlan) : sessionEntry :=
  if decide (e_identityHash e ≠ plan_IdentityHash stored ∨ e_progressiveHash e ≠ plan_ProgressiveHash stored) then
    mkSessionEntry (e_plan e) (e_context e) 0 false (e_identityHash e) (e_progressiveHash e)
      (e_configHash e) (e_catalogVersion e) (e_generation e) (e_nextReceiptID e) (e_activeReceipts e)
  else e.

Definition write_entry key (e : sessionEntry) (stored : SelectionPlan) sc : sessionEntry :=
  let generation := wrap64 (e_generation e + 1) in
  mkSessionEntry (Some (stored_plan key stored (e_expanded e) generation)) sc (e_callCount e) (e_expanded e)
    (plan_IdentityHash stored) (plan_ProgressiveHash stored) (plan_ConfigHash stored) (plan_CatalogVersion stored)
    generation (e_nextReceiptID e) ∅.

Definition setLocked s key (stored : SelectionPlan) sc (allowCreate : bool) :
    SessionPlanStore * result plan_error SelectionPlan :=
  let write e :=
    let e := write_entry key e stored sc in
    (set_entries s (<[key := e]> (entries s)),
     match e_plan e with
     | Some p => Ok (clonePlan p true)
     | None => Err ErrInvalidSelectionPlan
     end) in
  match entries s !! key with
  | None =>
      if allowCreate then
        if decide (store_max s ≤ Z.of_nat (size (entries s)))%Z then (s, Err ErrPlanStoreFull)
        else write new_entry
      else (s, Err ErrSessionPlanStale)
  | Some e => write (write_base e stored)
  end.

Definition Commit s key (plan : option SelectionPlan) sc : SessionPlanStore * result plan_error SelectionPlan :=
  match validatePlanWrite key ((λ p, clonePlan p false) <$> plan) sc, plan with
  | Some e, _ => (s, Err e)
  | None, None => (s, Err ErrInvalidSelectionPlan)
  | None, Some plan =>
      if sessionActiveLocked s sc then setLocked s key (clonePlan plan false) sc true
      else (s, Err ErrSessionPlanNotActive)
  end.

Record SessionPlanContext : Type := mkSessionPlanContext {
  pc_Key : PlanKey;
  pc_Plan : SelectionPlan;
  pc_Context : SelectionContext;
  pc_PlanGeneration : Z;
  pc_SessionGeneration : Z;
}.

(** The committed plan, [None] when the write was not current. *)
Definition SetIfCurrent s (base : SessionPlanContext) plan :
    SessionPlanStore * result plan_error (option SelectionPlan) :=
  match validatePlanWrite (pc_Key base) (Some (clonePlan plan false)) (pc_Context base) with
  | Some e => (s, Err e)
  | None =>
      if decide (pc_PlanGeneration base = 0%Z) then (s, Err ErrSessionPlanStale)
      else if negb (sessionActiveLocked s (pc_Context base)) then (s, Ok None)
      else
        match entries s !! pc_Key base with
        | None => (s, Ok None)
        | Some e =>
            if decide (e_plan e = None ∨ e_generation e ≠ pc_PlanGeneration base ∨
                       SessionGeneration (e_context e) ≠ SessionGeneration (pc_Context base)) then (s, Ok None)
            else
              match setLocked s (pc_Key base) (clonePlan plan false) (pc_Context base) false with
              | (s, Ok committed) => (s, Ok (Some committed))
              | (s, Err e) => (s, Err e)
              end
        end
  end.

(** One context per entry with a plan, in the order of the map. *)
Definition SessionPlanContexts s : list SessionPlanContext :=
  omap (λ ke : PlanKey * sessionEntry,
          (λ p, mkSessionPlanContext ke.1 (clonePlan p false) (e_context ke.2) (e_generation ke.2)
                  (SessionGeneration (e_context ke.2))) <$> e_plan ke.2)
    (map_to_list (entries s)).

Definition store_Delete s key : SessionPlanStore :=
  if key_valid key then set_entries s (delete key (entries s)) else s.

Definition DeleteSession s (sessionID : string) : SessionPlanStore :=
  if decide (sessionID = "") then s
  else mkSessionPlanStore (filter (λ ke, key_SessionID ke.1 ≠ sessionID) (entries s))
         (delete sessionID (activeSessions s)) (store_max s) (consumed s).

(** [issueReceipt] allocates the state of the receipt. *)
Definition issueReceipt s key (e : sessionEntry) (plan : SelectionPlan) (requested routerID : string) :
    SessionPlanStore * AuthorizationReceipt :=
  let id := wrap64 (e_nextReceiptID e + 1) in
  let state := length (consumed s) in
  let e' := mkSessionEntry (e_plan e) (e_context e) (e_callCount e) (e_expanded e) (e_identityHash e)
              (e_progressiveHash e) (e_configHash e) (e_catalogVersion e) (e_generation e) id
              (<[id := state]> (e_activeReceipts e)) in
  (mkSessionPlanStore (<[key := e']> (entries s)) (activeSessions s) (store_max s) (consumed s ++ [false]),
   mkAuthorizationReceipt routerID (key_SessionID key) requested (plan_Generation plan) (e_identityHash e)
     (e_configHash e) (e_catalogVersion e) (e_progressiveHash e) id (Some state)).

Definition IssueReceipt s key (requested : string) (plan : option SelectionPlan) (routerID : string) :
    SessionPlanStore * result plan_error AuthorizationReceipt :=
  match plan, entries s !! key with
  | Some plan, Some e =>
      match e_plan e with
      | Some p =>
          if decide (key_valid key = true ∧ requested ≠ "" ∧
                     plan_Version p = plan_Version plan ∧ e_identityHash e = plan_IdentityHash plan ∧
                     e_configHash e = plan_ConfigHash plan ∧ e_catalogVersion e = plan_CatalogVersion plan ∧
                     e_progressiveHash e = plan_ProgressiveHash plan ∧ plan_Contains p requested = true) then
            let '(s, r) := issueReceipt s key e p requested routerID in (s, Ok r)
          else (s, Err ErrToolNotAuthorized)
      | None => (s, Err ErrToolNotAuthorized)
      end
  | _, _ => (s, Err ErrToolNotAuthorized)
  end.

Record ReceiptVersionRequest : Type := mkReceiptVersionRequest {
  rv_Key : PlanKey;
  rv_Requested : string;
  rv_ExpectedVersion : string;
  rv_IdentityHash : string;
  rv_ConfigHash : string;
  rv_CatalogVersion : string;
  rv_ProgressiveHash : string;
  rv_RouterID : string;
}.

(** [Ok None] is a stale plan. *)
Definition IssueReceiptForVersion s (req : ReceiptVersionRequest) :
    SessionPlanStore * result plan_error (option AuthorizationReceipt) :=
  if decide (key_valid (rv_Key req) = false ∨ rv_Requested req = "" ∨ rv_ExpectedVersion req = "") then
    (s, Err ErrToolNotAuthorized)
  else
    match entries s !! rv_Key req with
    | None => (s, Err ErrToolNotAuthorized)
    | Some e =>
        match e_plan e with
        | None => (s, Err ErrToolNotAuthorized)
        | Some p =>
            if decide (plan_Version p ≠ rv_ExpectedVersion req ∨ e_identityHash e ≠ rv_IdentityHash req ∨
                       e_configHash e ≠ rv_ConfigHash req ∨ e_catalogVersion e ≠ rv_CatalogVersion req ∨
                       e_progressiveHash e ≠ rv_ProgressiveHash req) then (s, Ok None)
            else if plan_Contains p (rv_Requested req) then
              let '(s, r) := issueReceipt s (rv_Key req) e p (rv_Requested req) (rv_RouterID req) in (s, Ok (Some r))
            else (s, Err ErrToolNotAuthorized)
        end
    end.

Definition CommitAndIssueReceipt s key (plan : option SelectionPlan) sc (requested routerID : string) :
    SessionPlanStore * result plan_error (SelectionPlan * AuthorizationReceipt) :=
  match validatePlanWrite key ((λ p, clonePlan p false) <$> plan) sc, plan with
  | Some e, _ => (s, Err e)
  | None, None => (s, Err ErrInvalidSelectionPlan)
  | None, Some plan =>
      if decide (requested = "") then (s, Err ErrToolNotAuthorized)
      else if negb (sessionActiveLocked s sc) then (s, Err ErrSessionPlanNotActive)
      else
        match setLocked s key (clonePlan plan false) sc true with
        | (s, Err e) => (s, Err e)
        | (s, Ok committed) =>
            match entries s !! key with
            | None => (s, Err ErrToolNotAuthorized)
            | Some e =>
                match e_plan e with
                | None => (s, Err ErrToolNotAuthorized)
                | Some p =>
                    if plan_Contains p requested then
                      let '(s, r) := issueReceipt s key e p requested routerID in (s, Ok (committed, r))
                    else (s, Err ErrToolNotAuthorized)
                end
            end
        end
  end.

Inductive ReceiptOutcome : Type := ReceiptSucceeded | ReceiptAborted.
#[local] Instance ReceiptOutcome_eq_dec : EqDecision ReceiptOutcome.
Proof. solve_decision. Defined.

Record CallSuccessResult : Type := mkCallSuccessResult {
  Count : Z;
  Transitioned : bool;
}.

Definition no_effect : CallSuccessResult := mkCallSuccessResult 0 false.

(** What a successful call does to the progressive state of its entry. *)
Definition count_call (e : sessionEntry) (p : SelectionPlan) (active : gmap Z nat) (expandAfter : Z) :
    sessionEntry * CallSuccessResult :=
  let n := sint64 (e_callCount e + 1) in
  if decide (e_expanded e = false ∧ (expandAfter ≤ n)%Z) then
    let generation := wrap64 (e_generation e + 1) in
    let p := mkSelectionPlan (plan_SessionID p) (plan_ToolNames p) (plan_VisibleToolNames p)
               (plan_VisibleFingerprint p) (plan_Mode p) (plan_Outcome p) (plan_StageCounts p) (plan_Reasons p)
               (plan_Version p) (plan_IdentityHash p) (plan_ProgressiveHash p) (plan_ConfigHash p)
               (plan_CatalogVersion p) generation true (plan_toolSet p) in
    (mkSessionEntry (Some p) (e_context e) n true (e_identityHash e) (e_progressiveHash e) (e_configHash e)
       (e_catalogVersion e) generation (e_nextReceiptID e) ∅, mkCallSuccessResult n true)
  else
    (mkSessionEntry (Some p) (e_context e) n (e_expanded e) (e_identityHash e) (e_progressiveHash e) (e_configHash e)
       (e_catalogVersion e) (e_generation e) (e_nextReceiptID e) active, mkCallSuccessResult n false).

(** The receipt is the entry's: same generation, same authorization inputs, a
    tool of the plan. *)
Definition receipt_matches (e : sessionEntry) (p : SelectionPlan) (r : AuthorizationReceipt) : bool :=
  bool_decide (e_generation e = rcpt_PlanGeneration r ∧ e_identityHash e = rcpt_IdentityHash r ∧
               e_configHash e = rcpt_ConfigHash r ∧ e_catalogVersion e = rcpt_CatalogVersion r ∧
               e_progressiveHash e = rcpt_ProgressiveHash r) && plan_Contains p (rcpt_ToolName r).

(** The entry after its receipt is released: success advances the progressive
    state, abort only frees the receipt. *)
Definition release (e : sessionEntry) (p : SelectionPlan) (active : gmap Z nat) (outcome : ReceiptOutcome)
    (expandAfter : Z) : sessionEntry * CallSuccessResult :=
  if decide (outcome = ReceiptAborted ∨ (expandAfter ≤ 0)%Z) then
    (mkSessionEntry (e_plan e) (e_context e) (e_callCount e) (e_expanded e) (e_identityHash e)
       (e_progressiveHash e) (e_configHash e) (e_catalogVersion e) (e_generation e)
       (e_nextReceiptID e) active, no_effect)
  else count_call e p active expandAfter.

Definition finalizeReceiptLocked s key (r : AuthorizationReceipt) (outcome : ReceiptOutcome) (expandAfter : Z) :
    SessionPlanStore * CallSuccessResult :=
  match entries s !! key, rcpt_state r with
  | Some e, Some state =>
      match e_plan e with
      | Some p =>
          if receipt_matches e p r then
            if decide (e_activeReceipts e !! rcpt_ReceiptID r = Some state ∧ consumed s !! state = Some false) then
              let active := delete (rcpt_ReceiptID r) (e_activeReceipts e) in
              let '(e', res) := release e p active outcome expandAfter in
              (mkSessionPlanStore (<[key := e']> (entries s)) (activeSessions s) (store_max s)
                 (<[state := true]> (consumed s)), res)
            else (s, no_effect)
          else (s, no_effect)
      | None => (s, no_effect)
      end
  | _, _ => (s, no_effect)
  end.

Definition FinalizeReceipt s (r : AuthorizationReceipt) (outcome : ReceiptOutcome) (expandAfter : Z) :
    SessionPlanStore * CallSuccessResult :=
  let key := mkPlanKey (rcpt_RouterInstanceID r) (rcpt_SessionID r) in
  if decide (key_valid key = false ∨ rcpt_ToolName r = "" ∨ rcpt_ReceiptID r = 0%Z ∨ rcpt_state r = None) then
    (s, no_effect)
  else finalizeReceiptLocked s key r outcome expandAfter.

Definition RecordCallSuccess s (r : AuthorizationReceipt) (expandAfter : Z) : SessionPlanStore * CallSuccessResult :=
  if decide (expandAfter ≤ 0)%Z then (s, no_effect) else FinalizeReceipt s r ReceiptSucceeded expandAfter.

Definition CallState s key (identityHash progressiveHash : string) : Z * bool :=
  match entries s !! key with
  | None => (0%Z, false)
  | Some e =>
      if decide (e_identityHash e ≠ identityHash ∨ e_progressiveHash e ≠ progressiveHash) then (0%Z, false)
      else (e_callCount e, e_expanded e)
  end.

Definition CallCount s key : Z := from_option e_callCount 0%Z (entries s !! key).

Definition store_Len s : nat := size (entries s).

Definition SetMaxEntries s (maxEntries : Z) : SessionPlanStore :=
  mkSessionPlanStore (entries s) (activeSessions s) (capacity maxEntries) (consumed s).

Definition store_Stop s : SessionPlanStore := mkSessionPlanStore ∅ ∅ (store_max s) (consumed s).

End operations.

(** Reduction that leaves the operations folded. *)
Ltac plan_cbn := cbn -[issueReceipt setLocked write_entry FinalizeReceipt validatePlanWrite sessionActiveLocked clonePlan].

(** ** Histories of a store *)

Inductive store_op : Type :=
  | OpActivate (sessionID : string) (generation : Z)
  | OpCommit (key : PlanKey) (plan : option SelectionPlan) (sc : SelectionContext)
  | OpSetIfCurrent (base : SessionPlanContext) (plan : SelectionPlan)
  | OpDelete (key : PlanKey)
  | OpDeleteSession (sessionID : string)
  | OpIssue (key : PlanKey) (requested : string) (plan : option SelectionPlan) (routerID : string)
  | OpIssueForVersion (req : ReceiptVersionRequest)
  | OpCommitAndIssue (key : PlanKey) (plan : option SelectionPlan) (sc : SelectionContext) (requested routerID : string)
  | OpFinalize (r : AuthorizationReceipt) (outcome : ReceiptOutcome) (expandAfter : Z)
  | OpSetMaxEntries (maxEntries : Z)
  | OpStop.

Definition store_step (s : SessionPlanStore) (op : store_op) : SessionPlanStore :=
  match op with
  | OpActivate sessionID generation => (ActivateSession s sessionID generation).1
  | OpCommit key plan sc => (Commit s key plan sc).1
  | OpSetIfCurrent base plan => (SetIfCurrent s base plan).1
  | OpDelete key => store_Delete s key
  | OpDeleteSession sessionID => DeleteSession s sessionID
  | OpIssue key requested plan routerID => (IssueReceipt s key requested plan routerID).1
  | OpIssueForVersion req => (IssueReceiptForVersion s req).1
  | OpCommitAndIssue key plan sc requested routerID => (CommitAndIssueReceipt s key plan sc requested routerID).1
  | OpFinalize r outcome expandAfter => (FinalizeReceipt s r outcome expandAfter).1
  | OpSetMaxEntries maxEntries => SetMaxEntries s maxEntries
  | OpStop => store_Stop s
  end.

Definition store_run (s : SessionPlanStore) (ops : list store_op) : SessionPlanStore := foldl store_step s ops.

(** The write that an operation may do. *)
Definition writes (op : store_op) (key : PlanKey) (plan : SelectionPlan) (sc : SelectionContext) : Prop :=
  match op with
  | OpCommit k p c | OpCommitAndIssue k p c _ _ => k = key ∧ p = Some plan ∧ c = sc
  | OpSetIfCurrent base p => pc_Key base = key ∧ p = plan ∧ pc_Context base = sc
  | _ => False
  end.

(** Every operation is made of five kinds of elementary changes: nothing, a
    write of an entry, an issue, a finalization, and changes that drop entries
    or touch the other fields only, where a session that keeps an entry stays
    active and only [SetMaxEntries] sets the capacity. *)
Inductive change (op : store_op) (s : SessionPlanStore) : SessionPlanStore → Prop :=
  | ChNone : change op s s
  | ChWrite key e0 plan sc :
      writes op key plan sc → sessionActiveLocked s sc = true →
      validatePlanWrite key (Some (clonePlan plan false)) sc = None →
      (entries s !! key = None ∧ e0 = new_entry ∧ (Z.of_nat (size (entries s)) < store_max s)%Z ∨
       ∃ e, entries s !! key = Some e ∧ e0 = write_base e (clonePlan plan false)) →
      change op s (set_entries s (<[key := write_entry key e0 (clonePlan plan false) sc]> (entries s)))
  | ChIssue key e p requested routerID :
      entries s !! key = Some e → e_plan e = Some p → plan_Contains p requested = true →
      change op s (issueReceipt s key e p requested routerID).1
  | ChFinal r outcome expandAfter :
      op = OpFinalize r outcome expandAfter → change op s (FinalizeReceipt s r outcome expandAfter).1
  | ChDrop m act mx :
      m ⊆ entries s →
      (∀ key e, m !! key = Some e → is_Some (activeSessions s !! key_SessionID key) →
                is_Some (act !! key_SessionID key)) →
      (mx = store_max s ∨ ∃ z, op = OpSetMaxEntries z ∧ mx = capacity z) →
      change op s (mkSessionPlanStore m act mx (consumed s)).

Inductive changes (op : store_op) (s : SessionPlanStore) : SessionPlanStore → Prop :=
  | ChDone : changes op s s
  | ChMore s1 s2 : change op s s1 → changes op s1 s2 → changes op s s2.

Section histories.
Implicit Types (s : SessionPlanStore) (key : PlanKey) (r : AuthorizationReceipt) (op : store_op).

Lemma changes_one op s s' : change op s s' → changes op s s'.
Proof. intros H. eapply ChMore; [done|constructor]. Qed.

Lemma setLocked_change op s key plan sc allowCreate :
  writes op key plan sc → sessionActiveLocked s sc = true →
  validatePlanWrite key (Some (clonePlan plan false)) sc = None →
  change op s (setLocked s key (clonePlan plan false) sc allowCreate).1.
Proof.
  intros Hw Ha Hv. unfold setLocked. destruct (entries s !! key) as [e|] eqn:E.
  - plan_cbn. apply ChWrite; [done..|]. right. eauto.
  - destruct allowCreate; [|constructor]. case_decide; [constructor|].
    plan_cbn. apply ChWrite; [done..|]. left. split_and!; [done|done|lia].
Qed.

Lemma Commit_change s key plan sc : change (OpCommit key plan sc) s (Commit s key plan sc).1.
Proof.
  unfold Commit. destruct plan as [plan|]; plan_cbn.
  - destruct (validatePlanWrite _ _ _) eqn:Ev; [constructor|].
    destruct (sessionActiveLocked s sc) eqn:Ea; [|constructor]. by apply setLocked_change.
  - destruct (validatePlanWrite _ _ _); constructor.
Qed.

Lemma SetIfCurrent_change s base plan : change (OpSetIfCurrent base plan) s (SetIfCurrent s base plan).1.
Proof.
  unfold SetIfCurrent. destruct (validatePlanWrite _ _ _) eqn:Ev; [constructor|].
  case_decide; [constructor|]. destruct (sessionActiveLocked _ _) eqn:Ea; [|constructor]. plan_cbn.
  destruct (entries s !! _) as [e|] eqn:Ee; [|constructor]. case_decide; [constructor|].
  pose proof (setLocked_change (OpSetIfCurrent base plan) s (pc_Key base) plan (pc_Context base) false
    ltac:(done) Ea Ev) as Hch.
  by destruct (setLocked _ _ _ _ _) as [s' [c|err]].
Qed.

Lemma CommitAndIssueReceipt_changes s key plan sc requested routerID :
  changes (OpCommitAndIssue key plan sc requested routerID) s
    (CommitAndIssueReceipt s key plan sc requested routerID).1.
Proof.
  unfold CommitAndIssueReceipt. destruct plan as [plan|]; plan_cbn; [|destruct (validatePlanWrite _ _ _); constructor].
  destruct (validatePlanWrite _ _ _) eqn:Ev; [constructor|]. case_decide; [constructor|].
  destruct (sessionActiveLocked s sc) eqn:Ea; plan_cbn; [|constructor].
  pose proof (setLocked_change (OpCommitAndIssue key (Some plan) sc requested routerID) s key plan sc true
    ltac:(done) Ea Ev) as Hch.
  destruct (setLocked _ _ _ _ _) as [s' [c|err]]; cbn [fst] in *; [|by apply changes_one].
  destruct (entries s' !! key) as [e|] eqn:Ee; [|by apply changes_one].
  destruct (e_plan e) as [p|] eqn:Ep; [|by apply changes_one].
  destruct (plan_Contains p requested) eqn:Ec; [|by apply changes_one].
  eapply ChMore; [exact Hch|]. apply changes_one.
  pose proof (ChIssue (OpCommitAndIssue key (Some plan) sc requested routerID) s' key e p requested routerID Ee Ep Ec) as Hi.
  destruct (issueReceipt _ _ _ _ _ _). exact Hi.
Qed.

Lemma issue_change op s req : change op s (IssueReceiptForVersion s req).1.
Proof.
  unfold IssueReceiptForVersion. case_decide; [constructor|].
  destruct (entries s !! _) as [e|] eqn:Ee; [|constructor].
  destruct (e_plan e) as [p|] eqn:Ep; [|constructor]. case_decide; [constructor|].
  destruct (plan_Contains p _) eqn:Ec; [|constructor].
  pose proof (ChIssue op s _ e p (rv_Requested req) (rv_RouterID req) Ee Ep Ec) as Hi.
  destruct (issueReceipt _ _ _ _ _ _). exact Hi.
Qed.

Lemma IssueReceipt_change op s key requested plan routerID : change op s (IssueReceipt s key requested plan routerID).1.
Proof.
  unfold IssueReceipt. destruct plan as [plan|]; [|constructor].
  destruct (entries s !! _) as [e|] eqn:Ee; [|constructor].
  destruct (e_plan e) as [p|] eqn:Ep; [|constructor]. case_decide as H; [|constructor].
  destruct H as (_ & _ & _ & _ & _ & _ & _ & Ec).
  pose proof (ChIssue op s key e p requested routerID Ee Ep Ec) as Hi. destruct (issueReceipt _ _ _ _ _ _). exact Hi.
Qed.

Lemma DeleteSession_change op s sessionID : change op s (DeleteSession s sessionID).
Proof.
  unfold DeleteSession. case_decide; [constructor|]. apply ChDrop; [apply map_filter_subseteq| |by left].
  intros key e [_ Hne]%map_lookup_filter_Some. simpl in Hne. by rewrite lookup_delete_ne.
Qed.

Lemma ActivateSession_change op s sessionID generation : change op s (ActivateSession s sessionID generation).1.
Proof.
  unfold ActivateSession. case_decide; [constructor|]. apply ChDrop; [done| |by left]. intros key e _ Ha.
  destruct (decide (sessionID = key_SessionID key)) as [->|]; [rewrite lookup_insert_eq; eauto|].
  by rewrite lookup_insert_ne.
Qed.

Lemma store_step_changes s op : changes op s (store_step s op).
Proof.
  destruct op; simpl.
  - apply changes_one, ActivateSession_change.
  - apply changes_one, Commit_change.
  - apply changes_one, SetIfCurrent_change.
  - unfold store_Delete. case_match; [|constructor]. apply changes_one, ChDrop; [apply delete_subseteq|done|by left].
  - apply changes_one, DeleteSession_change.
  - apply changes_one, IssueReceipt_change.
  - apply changes_one, issue_change.
  - apply CommitAndIssueReceipt_changes.
  - by apply changes_one, ChFinal.
  - apply changes_one, ChDrop; [done|done|right; eauto].
  - apply changes_one, ChDrop; [apply map_empty_subseteq|done|by left].
Qed.

(** A property that every elementary change of the allowed operations preserves
    holds along a history of such operations. *)
Lemma changes_preserve op (I : SessionPlanStore → Prop) :
  (∀ s s', I s → change op s s' → I s') → ∀ s s', I s → changes op s s' → I s'.
Proof. intros H s s' HI Hc. induction Hc; eauto. Qed.

Lemma store_run_preserves (P : store_op → Prop) (I : SessionPlanStore → Prop) :
  (∀ op s s', P op → I s → change op s s' → I s') →
  ∀ s ops, Forall P ops → I s → I (store_run s ops).
Proof.
  intros H s ops Hops. revert s. induction Hops as [|op ops Hop _ IH]; intros s HI; [done|].
  apply IH. eapply changes_preserve; [|exact HI|apply store_step_changes]. intros. by eapply H.
Qed.

Lemma store_run_invariant (I : SessionPlanStore → Prop) :
  (∀ op s s', I s → change op s s' → I s') → ∀ s ops, I s → I (store_run s ops).
Proof.
  intros H s ops. apply (store_run_preserves (λ _, True)); [naive_solver|]. by apply Forall_true.
Qed.
End histories.

(** ** Receipts are used once *)

Section receipts.
Implicit Types (s : SessionPlanStore) (r : AuthorizationReceipt).

Definition receipt_key r : PlanKey := mkPlanKey (rcpt_RouterInstanceID r) (rcpt_SessionID r).

Lemma release_active e p active outcome n : e_activeReceipts (release e p active outcome n).1 ⊆ active.
Proof.
  unfold release, count_call. case_decide; [done|]. case_decide; [apply map_empty_subseteq|done].
Qed.

(** A finalization either does nothing or consumes the receipt's state. *)
Lemma FinalizeReceipt_cases s r outcome n :
  FinalizeReceipt s r outcome n = (s, no_effect) ∨
  ∃ e p st,
    entries s !! receipt_key r = Some e ∧ e_plan e = Some p ∧ rcpt_state r = Some st ∧
    receipt_matches e p r = true ∧
    e_activeReceipts e !! rcpt_ReceiptID r = Some st ∧ consumed s !! st = Some false ∧
    let er := release e p (delete (rcpt_ReceiptID r) (e_activeReceipts e)) outcome n in
    FinalizeReceipt s r outcome n =
      (mkSessionPlanStore (<[receipt_key r := er.1]> (entries s)) (activeSessions s) (store_max s)
         (<[st := true]> (consumed s)), er.2).
Proof.
  unfold FinalizeReceipt. case_decide; [by left|]. unfold finalizeReceiptLocked. fold (receipt_key r).
  destruct (entries s !! receipt_key r) as [e|] eqn:Ee; [|by left].
  destruct (rcpt_state r) as [st|] eqn:Es; [|by left].
  destruct (e_plan e) as [p|] eqn:Ep; [|by left].
  destruct (receipt_matches e p r) eqn:Em; [|by left].
  case_decide as Ha; [|by left]. right. exists e, p, st. destruct Ha. split_and!; [done..|].
  by destruct (release _ _ _ _ _).
Qed.

(** A receipt is dead when its state is consumed, or when the entry it was
    issued for does not list it any more. *)
Definition dead s r : Prop :=
  ∀ st, rcpt_state r = Some st →
    st < length (consumed s) ∧
    (consumed s !! st = Some true ∨
     ∀ e, entries s !! receipt_key r = Some e → e_activeReceipts e !! rcpt_ReceiptID r ≠ Some st).

Lemma FinalizeReceipt_dead s r outcome n : dead s r → FinalizeReceipt s r outcome n = (s, no_effect).
Proof.
  intros Hd. destruct (FinalizeReceipt_cases s r outcome n) as [?|(e & p & st & He & _ & Hst & _ & Ha & Hc & _)]; [done|].
  exfalso. destruct (Hd st Hst) as [_ [H|H]]; [congruence|]. by apply (H e).
Qed.

Lemma change_dead op s s' r : dead s r → change op s s' → dead s' r.
Proof.
  intros Hd Hch st Hst. destruct (Hd st Hst) as [Hlt Hor]. destruct Hch as
    [|key e0 plan sc _ _ _ _|key e p requested routerID He Hp Hc|r' outcome n _|m act mx Hm _ _].
  - done.
  - simpl. split; [done|]. destruct Hor as [H|H]; [by left|right]. intros e.
    rewrite lookup_insert_Some. intros [[_ <-]|[_ He]]; [done|by apply H].
  - simpl. rewrite length_app. split; [simpl; lia|]. destruct Hor as [H|H]; [left; by apply lookup_app_l_Some|right].
    intros e'. rewrite lookup_insert_Some. intros [[-> <-]|[_ He']]; [|by apply H]. simpl.
    rewrite lookup_insert_Some. intros [[_ Heq]|[_ Heq]]; [lia|]. by apply (H e).
  - destruct (FinalizeReceipt_cases s r' outcome n) as
      [->|(e & p & st' & He & _ & _ & _ & _ & _ & ->)]; [done|]. simpl. rewrite length_insert. split; [done|].
    destruct (decide (st = st')) as [<-|Hne]; [left; by apply list_lookup_insert_eq|].
    rewrite list_lookup_insert_ne by done. destruct Hor as [H|H]; [by left|right]. intros e'.
    rewrite lookup_insert_Some. intros [[Hk <-]|[_ He']]; [|by apply H]. intros Hin.
    eapply lookup_weaken in Hin; [|apply release_active]. apply lookup_delete_Some in Hin as [_ Hin].
    rewrite Hk in He. by apply (H e).
  - simpl. split; [done|]. destruct Hor as [H|H]; [by left|right]. intros e He.
    apply H. by eapply lookup_weaken.
Qed.

Lemma run_dead s ops r : dead s r → dead (store_run s ops) r.
Proof. apply (store_run_invariant (λ s, dead s r)). intros. by eapply change_dead. Qed.

(** C36: a receipt that had an effect once never has one again, whatever happens to
    the store in between. *)
Theorem receipt_single_use s r outcome n ops outcome' n' :
  (FinalizeReceipt s r outcome n).1 ≠ s →
  let s2 := store_run (FinalizeReceipt s r outcome n).1 ops in
  FinalizeReceipt s2 r outcome' n' = (s2, no_effect).
Proof.
  intros Hne s2. apply FinalizeReceipt_dead. apply run_dead.
  destruct (FinalizeReceipt_cases s r outcome n) as
    [H|(e & p & st & He & _ & Hst & _ & _ & Hc & ->)]; [by rewrite H in Hne|].
  intros st' Hst'. assert (st' = st) as -> by congruence. simpl. rewrite length_insert.
  apply lookup_lt_Some in Hc. split; [done|]. left. by apply list_lookup_insert_eq.
Qed.

Lemma setLocked_ok s key stored sc allowCreate s' c :
  setLocked s key stored sc allowCreate = (s', Ok c) →
  ∃ e0, s' = set_entries s (<[key := write_entry key e0 stored sc]> (entries s)) ∧
        c = clonePlan (stored_plan key stored (e_expanded e0) (wrap64 (e_generation e0 + 1))) true ∧
        (entries s !! key = None ∧ e0 = new_entry ∨ ∃ e, entries s !! key = Some e ∧ e0 = write_base e stored).
Proof.
  unfold setLocked. destruct (entries s !! key) as [e|].
  - intros [= <- <-]. eexists. split_and!; [done|done|]. right. eauto.
  - destruct allowCreate; [|done]. case_decide; [done|]. intros [= <- <-]. eexists. split_and!; [done|done|]. by left.
Qed.

(** A new plan for a session revokes every receipt issued under the plans
    before it: none of them ever has an effect again. *)
Theorem receipt_revoked_by_commit s r st plan sc committed ops outcome n :
  rcpt_state r = Some st → st < length (consumed s) →
  (Commit s (receipt_key r) plan sc).2 = Ok committed →
  let s2 := store_run (Commit s (receipt_key r) plan sc).1 ops in
  FinalizeReceipt s2 r outcome n = (s2, no_effect).
Proof.
  intros Hst Hlt Hok s2. apply FinalizeReceipt_dead. apply run_dead.
  unfold Commit in *. destruct (validatePlanWrite _ _ _); [done|]. destruct plan as [plan|]; [|done].
  destruct (sessionActiveLocked s sc); [|done].
  destruct (setLocked s (receipt_key r) (clonePlan plan false) sc true) as [s' [c|err]] eqn:E; [|done].
  apply setLocked_ok in E as (e0 & -> & _). intros st' Hst'. assert (st' = st) as -> by congruence.
  split; [done|]. right. intros e. simpl. rewrite lookup_insert_eq. intros [= <-]. done.
Qed.
End receipts.

(** ** Progressive disclosure *)

Section progressive.
Implicit Types (s : SessionPlanStore) (key : PlanKey) (op : store_op).

(** How many of the operations counted a successful call of an entry. *)
Definition counted s op key : nat :=
  match op with
  | OpFinalize r outcome n =>
      if decide (receipt_key r = key ∧ Count (FinalizeReceipt s r outcome n).2 ≠ 0%Z) then 1 else 0
  | _ => 0
  end.

Fixpoint successes s (ops : list store_op) key : nat :=
  match ops with
  | [] => 0
  | op :: ops => counted s op key + successes (store_step s op) ops key
  end.

(** Every finalization uses the threshold of the router's configuration. *)
Definition threshold (n : Z) op : Prop :=
  match op with OpFinalize _ _ expandAfter => expandAfter = n | _ => True end.

Definition progress_ok n key (m : nat) s : Prop :=
  ∀ e, entries s !! key = Some e →
    (- 2 ^ 63 ≤ e_callCount e ≤ Z.of_nat m)%Z ∧ (e_expanded e = true → (n ≤ Z.of_nat m)%Z).

Lemma change_progress op n key m s s' :
  (∀ r o n', op ≠ OpFinalize r o n') → progress_ok n key m s → change op s s' → progress_ok n key m s'.
Proof.
  intros Hop Hp [|k e0 plan sc _ _ _ Hor|k e p requested routerID He Hpl Hc|r' outcome n' Hf|mm act mx Hm _ _] e'; simpl.
  - apply Hp.
  - rewrite lookup_insert_Some. intros [[-> <-]|[_ He]]; [|by apply Hp].
    destruct Hor as [(_ & -> & _)|(e & He & ->)]; [simpl; split; [lia|done]|].
    unfold write_base. case_decide; simpl; [split; [lia|done]|by apply Hp].
  - rewrite lookup_insert_Some. intros [[-> <-]|[_ He']]; [|by apply Hp]. simpl. by apply Hp.
  - by apply Hop in Hf.
  - intros He. apply Hp. by eapply lookup_weaken.
Qed.

Lemma sint64_le z : (- 2 ^ 63 ≤ z)%Z → (- 2 ^ 63 ≤ sint64 z ≤ z)%Z.
Proof.
  intros H. unfold sint64. pose proof (Z.mod_pos_bound (z + 2 ^ 63) (2 ^ 64)).
  pose proof (Z.mod_le (z + 2 ^ 63) (2 ^ 64)). lia.
Qed.

Lemma finalize_progress n key m s r outcome :
  (0 < n)%Z → progress_ok n key m s →
  progress_ok n key (counted s (OpFinalize r outcome n) key + m) (FinalizeReceipt s r outcome n).1.
Proof.
  intros Hn Hp. unfold counted.
  destruct (FinalizeReceipt_cases s r outcome n) as
    [->|(e & p & st & He & _ & _ & _ & _ & _ & ->)].
  { rewrite decide_False by naive_solver. apply Hp. }
  intros e' He'. simpl in He'. apply lookup_insert_Some in He' as [[<- <-]|[Hne He']].
  2: { destruct (Hp e' He'). rewrite decide_False by naive_solver. simpl. done. }
  destruct (Hp e He) as [Hc Hx]. unfold release. case_decide as Ea; simpl.
  { rewrite decide_False by naive_solver. done. }
  unfold count_call. pose proof (sint64_le (e_callCount e + 1) ltac:(lia)) as Hs.
  case_decide as Ex; simpl.
  - rewrite decide_True by (split; [done|lia]). split; [lia|]. intros _. lia.
  - case_decide as Ec; simpl; [split; [lia|]; intros H%Hx; lia|].
    assert (sint64 (e_callCount e + 1) = 0%Z) by (destruct (decide (sint64 (e_callCount e + 1) = 0%Z)); tauto).
    split; [lia|done].
Qed.

Lemma run_progress n key m s ops :
  (0 < n)%Z → Forall (threshold n) ops → progress_ok n key m s →
  progress_ok n key (successes s ops key + m) (store_run s ops).
Proof.
  intros Hn Ht. revert m s. induction Ht as [|op ops Hop _ IH]; intros m s Hp; [done|].
  simpl. replace (counted s op key + successes (store_step s op) ops key + m)
    with (successes (store_step s op) ops key + (counted s op key + m)) by lia.
  apply IH. pose proof (store_step_changes s op) as Hch. destruct op; simpl in *;
    try (refine (changes_preserve _ (progress_ok n key _) _ _ _ Hp Hch); intros s1 s2 H1 H2;
         eapply change_progress; [|exact H1|exact H2]; done).
  subst. by apply finalize_progress.
Qed.

(** A session is expanded only after as many successful calls as the
    configuration asks for: along every history of a store, an expanded entry
    has had at least the threshold's number of successful finalizations, and
    its call count is never more than their number. *)
Theorem expansion_needs_successes maxEntries n ops key e :
  (0 < n)%Z → Forall (threshold n) ops →
  let s := NewSessionPlanStoreWithMaxEntries maxEntries in
  entries (store_run s ops) !! key = Some e →
  (e_callCount e ≤ Z.of_nat (successes s ops key))%Z ∧
  (e_expanded e = true → (n ≤ Z.of_nat (successes s ops key))%Z).
Proof.
  intros Hn Ht s He.
  destruct (run_progress n key 0 s ops Hn Ht ltac:(by intros e')) with e as [H1 H2]; [done|].
  rewrite Nat.add_0_r in *. split; [lia|done].
Qed.
End progressive.

(** ** Sessions and capacity *)

Section sessions.
Implicit Types (s : SessionPlanStore) (key : PlanKey) (op : store_op).

(** The contexts that the MCP filter writes with: the session of the key, with
    a generation. *)
Definition proper_writes op : Prop :=
  ∀ key plan sc, writes op key plan sc → SessionID sc = key_SessionID key ∧ SessionGeneration sc ≠ 0%Z.

(** Entries belong to active sessions. *)
Definition owned s : Prop := ∀ key e, entries s !! key = Some e → is_Some (activeSessions s !! key_SessionID key).

Lemma change_owned op s s' : proper_writes op → owned s → change op s s' → owned s'.
Proof.
  intros Hop Ho [|k e0 plan sc Hw Ha _ _|k e p requested routerID He _ _|r' outcome n' Hf|m act mx Hm Hact _] key e'; simpl.
  - apply Ho.
  - rewrite lookup_insert_Some. intros [[<- _]|[_ He]]; [|by eapply Ho].
    destruct (Hop _ _ _ Hw) as [Hs Hg]. unfold sessionActiveLocked in Ha. rewrite decide_False in Ha by done.
    apply bool_decide_eq_true in Ha. rewrite <- Hs. eauto.
  - rewrite lookup_insert_Some. intros [[<- _]|[_ He']]; by eapply Ho.
  - destruct (FinalizeReceipt_cases s r' outcome n') as [->|(e & p & st & He & _ & _ & _ & _ & _ & ->)]; [apply Ho|].
    simpl. rewrite lookup_insert_Some. intros [[<- _]|[_ He']]; by eapply Ho.
  - intros He. eapply Hact; [done|]. eapply Ho. by eapply lookup_weaken.
Qed.

Lemma DeleteSession_inactive s sessionID :
  sessionID ≠ "" → activeSessions (DeleteSession s sessionID) !! sessionID = None.
Proof. intros H. unfold DeleteSession. rewrite decide_False by done. apply lookup_delete_eq. Qed.

Definition activates (sessionID : string) op : Prop :=
  match op with OpActivate id _ => id = sessionID | _ => False end.

Lemma step_inactive s op sessionID :
  ¬ activates sessionID op → activeSessions s !! sessionID = None →
  activeSessions (store_step s op) !! sessionID = None.
Proof.
  intros Hop H. destruct op; simpl in *.
  - unfold ActivateSession. case_decide; [done|]. simpl. by rewrite lookup_insert_ne.
  - unfold Commit, setLocked. by repeat case_match; simplify_eq/=.
  - unfold SetIfCurrent, setLocked. by repeat case_match; simplify_eq/=.
  - unfold store_Delete. by case_match.
  - unfold DeleteSession. case_decide; [done|]. simpl. rewrite lookup_delete_None. auto.
  - unfold IssueReceipt, issueReceipt. by repeat case_match; simplify_eq/=.
  - unfold IssueReceiptForVersion, issueReceipt. by repeat case_match; simplify_eq/=.
  - unfold CommitAndIssueReceipt, setLocked, issueReceipt. by repeat case_match; simplify_eq/=.
  - destruct (FinalizeReceipt_cases s r outcome expandAfter) as [->|(e & p & st & _ & _ & _ & _ & _ & _ & ->)]; done.
  - done.
  - apply lookup_empty.
Qed.

(** A transport session that ended leaves nothing behind and cannot come back:
    after its removal no plan of it exists in any later state, as long as the
    session is not activated again, even when requests that were under way when
    it ended, or refreshes based on its old plans, still try to write. *)
Theorem removed_session_stays_removed maxEntries ops sessionID ops' key :
  let s := store_run (NewSessionPlanStoreWithMaxEntries maxEntries) ops in
  Forall proper_writes ops → Forall proper_writes ops' → sessionID ≠ "" →
  Forall (λ op, ¬ activates sessionID op) ops' → key_SessionID key = sessionID →
  entries (store_run (DeleteSession s sessionID) ops') !! key = None.
Proof.
  intros s Hops Hops' Hne Hact Hkey.
  assert (owned s) as Hs.
  { apply (store_run_preserves proper_writes); [intros; by eapply change_owned|done|]. by intros k e. }
  assert (owned (DeleteSession s sessionID)) as Hd.
  { eapply (change_owned OpStop); [|exact Hs|apply DeleteSession_change]. by intros k p c. }
  pose proof (DeleteSession_inactive s sessionID Hne) as Hin. revert Hd Hin.
  generalize (DeleteSession s sessionID) as s1. intros s1 Hd Hin.
  assert (owned (store_run s1 ops') ∧ activeSessions (store_run s1 ops') !! sessionID = None) as [Ho Hi].
  { split; [apply (store_run_preserves proper_writes); [intros; by eapply change_owned|done|done]|].
    clear Hd. revert s1 Hin. induction Hact as [|op ops1 Hop _ IH]; intros s1 Hin; [done|].
    apply Forall_cons in Hops' as [_ Hops']. apply (IH Hops'). by apply step_inactive. }
  destruct (entries _ !! key) as [e|] eqn:E; [|done]. apply Ho in E. rewrite Hkey, Hi in E. by destruct E.
Qed.

Lemma capacity_pos z : (0 < capacity z)%Z.
Proof. unfold capacity, DefaultPlanMaxEntries. case_decide; lia. Qed.

(** The capacity is fixed and not exceeded. *)
Definition bounded (mx : Z) s : Prop := store_max s = mx ∧ (Z.of_nat (size (entries s)) ≤ mx)%Z.

Lemma change_bounded mx op s s' :
  (∀ z, op ≠ OpSetMaxEntries z) → bounded mx s → change op s s' → bounded mx s'.
Proof.
  intros Hop [Hmx Hsz] [|k e0 plan sc _ _ _ Hor|k e p requested routerID He _ _|r' outcome n' Hf|m act mx' Hm _ Hor];
    unfold bounded; simpl.
  - done.
  - split; [done|]. destruct Hor as [(Hn & _ & Hlt)|(e & He & _)].
    + rewrite map_size_insert_None by done. lia.
    + by rewrite map_size_insert_Some by eauto.
  - by rewrite map_size_insert_Some by eauto.
  - destruct (FinalizeReceipt_cases s r' outcome n') as [->|(e & p & st & He & _ & _ & _ & _ & _ & ->)]; [done|].
    simpl. by rewrite map_size_insert_Some by eauto.
  - apply map_subseteq_size in Hm. destruct Hor as [->|(z & -> & _)]; [split; [done|lia]|by destruct (Hop z)].
Qed.

(** The store never holds more plans than its capacity, whatever the requests:
    memory stays bounded with any number of sessions. *)
Theorem plan_store_bounded maxEntries ops :
  Forall (λ op, ∀ z, op ≠ OpSetMaxEntries z) ops →
  (Z.of_nat (store_Len (store_run (NewSessionPlanStoreWithMaxEntries maxEntries) ops)) ≤ capacity maxEntries)%Z.
Proof.
  intros Hops.
  assert (bounded (capacity maxEntries) (store_run (NewSessionPlanStoreWithMaxEntries maxEntries) ops)) as [_ H]; [|done].
  apply (store_run_preserves (λ op, ∀ z, op ≠ OpSetMaxEntries z)).
  - intros. by eapply change_bounded.
  - done.
  - split; [done|]. simpl. rewrite map_size_empty. pose proof (capacity_pos maxEntries). lia.
Qed.

(** ** Conditional writes *)

Lemma SetIfCurrent_cases s base plan :
  (SetIfCurrent s base plan).1 = s ∧ (∀ c, (SetIfCurrent s base plan).2 ≠ Ok (Some c)) ∨
  ∃ e, entries s !! pc_Key base = Some e ∧ e_generation e = pc_PlanGeneration base ∧
       SessionGeneration (e_context e) = SessionGeneration (pc_Context base) ∧
       sessionActiveLocked s (pc_Context base) = true ∧ is_Some (e_plan e) ∧ pc_PlanGeneration base ≠ 0%Z ∧
       validatePlanWrite (pc_Key base) (Some (clonePlan plan false)) (pc_Context base) = None ∧
       let e' := write_entry (pc_Key base) (write_base e (clonePlan plan false)) (clonePlan plan false) (pc_Context base) in
       (SetIfCurrent s base plan).1 = set_entries s (<[pc_Key base := e']> (entries s)) ∧
       (SetIfCurrent s base plan).2 = Ok ((λ p, clonePlan p true) <$> e_plan e').
Proof.
  unfold SetIfCurrent. destruct (validatePlanWrite _ _ _) eqn:Ev; [by left|]. case_decide; [by left|].
  destruct (sessionActiveLocked s _) eqn:Ea; plan_cbn; [|by left].
  destruct (entries s !! pc_Key base) as [e|] eqn:Ee; [|by left]. case_decide as Hd; [by left|].
  right. exists e. unfold setLocked. rewrite Ee. plan_cbn.
  split_and!; try done; [destruct (decide (e_generation e = pc_PlanGeneration base)); tauto|
    destruct (decide (SessionGeneration (e_context e) = SessionGeneration (pc_Context base))); tauto|].
  destruct (e_plan e); [eauto|tauto].
Qed.

Lemma write_base_generation e stored : e_generation (write_base e stored) = e_generation e.
Proof. unfold write_base. by case_decide. Qed.

Lemma generation_bump g : (0 ≤ g < 2 ^ 64)%Z → wrap64 (g + 1) ≠ g.
Proof.
  intros Hg. unfold wrap64. destruct (decide (g + 1 < 2 ^ 64)%Z).
  - rewrite Z.mod_small by lia. lia.
  - replace (g + 1)%Z with (2 ^ 64)%Z by lia. rewrite Z.mod_same by lia. lia.
Qed.

(** The contexts handed out for a refresh describe the entries as they are. *)
Lemma SessionPlanContexts_spec s base :
  base ∈ SessionPlanContexts s →
  ∃ e, entries s !! pc_Key base = Some e ∧ pc_PlanGeneration base = e_generation e ∧ pc_Context base = e_context e.
Proof.
  unfold SessionPlanContexts. intros ([k e] & Hin & H)%list_elem_of_omap.
  apply elem_of_map_to_list in Hin. simpl in H. destruct (e_plan e); simplify_eq/=. by exists e.
Qed.

(** A refresh that was computed from an older plan loses against a plan that a
    request committed in between, and against the end of the session: the
    store stays as it is. *)
Theorem refresh_never_overwrites s base plan plan' sc s1 committed :
  base ∈ SessionPlanContexts s →
  (∀ e, entries s !! pc_Key base = Some e → 0 ≤ e_generation e < 2 ^ 64)%Z →
  (Commit s (pc_Key base) (Some plan) sc = (s1, Ok committed) ∨
   s1 = DeleteSession s (key_SessionID (pc_Key base)) ∧ key_SessionID (pc_Key base) ≠ "") →
  (SetIfCurrent s1 base plan').1 = s1.
Proof.
  intros (e & He & Hg & Hctx)%SessionPlanContexts_spec Hrange Hor. specialize (Hrange e He).
  destruct (SetIfCurrent_cases s1 base plan') as [[H _]|(e1 & He1 & Hg1 & _)]; [done|]. exfalso.
  destruct Hor as [Hc|[-> Hne]].
  - unfold Commit in Hc. destruct (validatePlanWrite _ _ _); [done|]. destruct (sessionActiveLocked s sc); [|done].
    apply setLocked_ok in Hc as (e0 & -> & _ & [[H _]|(e' & He' & ->)]); [congruence|].
    simpl in He1. rewrite lookup_insert_eq in He1. simplify_eq/=. rewrite Hg in Hg1.
    apply (generation_bump (e_generation e)); [lia|]. by rewrite write_base_generation in Hg1.
  - unfold DeleteSession in He1. rewrite decide_False in He1 by done. simpl in He1.
    by apply map_lookup_filter_Some in He1 as [_ ?].
Qed.

End sessions.

(** ** A session *)

Module plan_sample.

Definition key : PlanKey := mkPlanKey "router-1" "s1".
Definition plan : SelectionPlan :=
  mkSelectionPlan "s1" ["read"; "write"] None "" ModeSelected "selected" ∅ [] "plan-1" "id" "prog" "cfg" "v1" 0 false None.
Definition context : SelectionContext := mkSelectionContext "s1" 7 "tools/call" "alice" "" ∅ "read" "v1".

(** The session is activated and gets a plan and a receipt for [read]. *)
Definition opening : list store_op :=
  [OpActivate "s1" 7; OpCommitAndIssue key (Some plan) context "read" "router-1"].
Definition opened : SessionPlanStore := store_run (NewSessionPlanStoreWithMaxEntries 0) opening.

Definition receipt : AuthorizationReceipt :=
  mkAuthorizationReceipt "router-1" "s1" "read" 1 "id" "cfg" "v1" "prog" 1 (Some 0).

Definition base : SessionPlanContext := mkSessionPlanContext key
  (stored_plan key (clonePlan plan false) false 1) context 1 7.

Lemma base_current : base ∈ SessionPlanContexts opened.
Proof.
  assert (SessionPlanContexts opened = [base]) as -> by (vm_compute; reflexivity). apply list_elem_of_here.
Qed.
End plan_sample.

Lemma receipt_single_use_witness :
  let s1 := (FinalizeReceipt plan_sample.opened plan_sample.receipt ReceiptSucceeded 2).1 in
  let s2 := store_run s1 [OpCommit plan_sample.key (Some plan_sample.plan) plan_sample.context] in
  FinalizeReceipt s2 plan_sample.receipt ReceiptAborted 2 = (s2, no_effect).
Proof.
  apply (receipt_single_use plan_sample.opened plan_sample.receipt ReceiptSucceeded 2).
  intros E%(f_equal consumed). vm_compute in E. discriminate E.
Defined.

Lemma receipt_revoked_by_commit_witness :
  let s1 := (Commit plan_sample.opened plan_sample.key (Some plan_sample.plan) plan_sample.context).1 in
  FinalizeReceipt (store_run s1 []) plan_sample.receipt ReceiptSucceeded 2 = (store_run s1 [], no_effect).
Proof.
  eapply (receipt_revoked_by_commit plan_sample.opened plan_sample.receipt 0 (Some plan_sample.plan) plan_sample.context).
  - reflexivity.
  - vm_compute. auto.
  - vm_compute. reflexivity.
Defined.

Lemma expansion_needs_successes_witness :
  let ops := plan_sample.opening ++ [OpFinalize plan_sample.receipt ReceiptSucceeded 1] in
  ∃ e, entries (store_run (NewSessionPlanStoreWithMaxEntries 0) ops) !! plan_sample.key = Some e ∧
    e_expanded e = true ∧ (1 ≤ Z.of_nat (successes (NewSessionPlanStoreWithMaxEntries 0) ops plan_sample.key))%Z.
Proof.
  cbv zeta. set (ops := plan_sample.opening ++ _). eexists. split; [vm_compute; reflexivity|]. split; [reflexivity|].
  eapply (expansion_needs_successes 0 1 ops plan_sample.key).
  - lia.
  - repeat constructor.
  - vm_compute. reflexivity.
  - reflexivity.
Defined.

Lemma removed_session_stays_removed_witness :
  entries (store_run (DeleteSession plan_sample.opened "s1")
    [OpCommit plan_sample.key (Some plan_sample.plan) plan_sample.context;
     OpSetIfCurrent plan_sample.base plan_sample.plan]) !! plan_sample.key = None.
Proof.
  apply (removed_session_stays_removed 0 plan_sample.opening).
  - repeat (apply Forall_cons; split); [| |constructor]; intros k p sc; simpl; [done|]. by intros (<- & _ & <-).
  - repeat (apply Forall_cons; split); [| |constructor]; intros k p sc; simpl; by intros (<- & _ & <-).
  - done.
  - repeat (apply Forall_cons; split); [| |constructor]; by intros [].
  - reflexivity.
Defined.

Lemma plan_store_bounded_witness :
  (Z.of_nat (store_Len (store_run (NewSessionPlanStoreWithMaxEntries 1)
     (plan_sample.opening ++
      [OpCommit (mkPlanKey "router-2" "s1") (Some plan_sample.plan) plan_sample.context]))) ≤ 1)%Z.
Proof. apply (plan_store_bounded 1). repeat (apply Forall_cons; split); [| | |constructor]; done. Defined.

Lemma refresh_never_overwrites_witness :
  let s1 := (Commit plan_sample.opened plan_sample.key (Some plan_sample.plan) plan_sample.context).1 in
  (SetIfCurrent s1 plan_sample.base plan_sample.plan).1 = s1.
Proof.
  eapply (refresh_never_overwrites plan_sample.opened plan_sample.base plan_sample.plan plan_sample.plan plan_sample.context).
  - exact plan_sample.base_current.
  - intros e E. vm_compute in E. injection E as <-. simpl. lia.
  - left. vm_compute. reflexivity.
Defined.
