(* ===== verification/McpSelector.v ===== *)
(** * MCP tool governance: the composite selector

    [pkg/filter/mcp/mcpserver/router/composite.go] and [builder.go].  A method
    of the selector locks the plan store several times, and other requests run
    between two of its locks.  It is therefore a program, a tree of atomic store
    operations; [run] executes a program without interruption and [pool_step]
    interleaves the programs of any number of requests.

    The JSON encodings of a tool and of a configuration, and the counter of
    router instances, are parameters, as are regular expressions. *)

From S2P Require Import Prelude GoStrings Sha256 Endpoint McpCatalog McpPolicy McpIdentity McpPlan.

(** ** Programs over the store *)

Inductive prog (A : Type) : Type :=
  | Done (a : A)
  | Step (f : SessionPlanStore → SessionPlanStore * prog A).
Arguments Done {A} a.
Arguments Step {A} f.

(** Induction on the trees. *)
Lemma prog_tree_ind {A : Type} (P : prog A → Prop) :
  (∀ a, P (Done a)) → (∀ f, (∀ s, P (f s).2) → P (Step f)) → ∀ p, P p.
Proof.
  intros HD HS. exact (fix go p := match p with Done a => HD a | Step f => HS f (λ s, go (f s).2) end).
Qed.

Fixpoint prog_bind {A B : Type} (p : prog A) (k : A → prog B) : prog B :=
  match p with
  | Done a => k a
  | Step f => Step (λ s, let '(s, p) := f s in (s, prog_bind p k))
  end.

(** One operation of the store. *)
Definition atomically {A : Type} (f : SessionPlanStore → SessionPlanStore * A) : prog A :=
  Step (λ s, let '(s, a) := f s in (s, Done a)).

Notation "'let*' x ':=' p 'in' k" := (prog_bind p (λ x, k))
  (at level 10, x binder, p at level 100, k at level 200) : go_scope.
#[local] Open Scope go_scope.

Fixpoint run {A : Type} (p : prog A) (s : SessionPlanStore) : SessionPlanStore * A :=
  match p with
  | Done a => (s, a)
  | Step f => run (f s).2 (f s).1
  end.

(** ** Outcomes *)

Definition SelectionOutcomeSelected : string := "selected".
Definition SelectionOutcomeNoMatch : string := "no_match".
Definition SelectionOutcomeExplicitDeny : string := "explicit_deny".
Definition SelectionOutcomeEmptyByConfiguration : string := "empty_by_configuration".
Definition SelectionOutcomeInternalError : string := "internal_error".

Definition outcomeAllowsFallback (outcome : string) : bool :=
  bool_decide (outcome = SelectionOutcomeNoMatch ∨ outcome = SelectionOutcomeInternalError).

Definition FallbackBundleDefault : string := "bundle_default".
Definition FallbackFailClosed : string := "fail_closed".
Definition DefaultFallback : string := FallbackFailClosed.

Inductive select_error : Type :=
  | SelectIdentity (e : claims_error)
  | SelectPlan (e : plan_error).

Section selector.
Context {regexp : Type} (Compile : string → option regexp) (MatchString : regexp → string → bool).
Context (range : StringSet → list string).
Context (ToolJSON : ToolConfig → option string) (ToolGo : ToolConfig → string).

Record CompositeSelector : Type := mkCompositeSelector {
  cs_policy : option (list (compiledRule (regexp:=regexp)));
  cs_workflow : option (WorkflowSelector (regexp:=regexp));
  cs_progressive : option (ProgressiveGate (regexp:=regexp));
  cs_bundles : option (WorkflowSelector (regexp:=regexp));
  cs_routerID : string;
  cs_fallback : string;
  cs_defaultBundle : string;
  cs_configHash : string;
  cs_progressiveHash : string;
  cs_visibleFP : list ToolConfig → string;
}.

Implicit Types (c : CompositeSelector) (sc : SelectionContext) (candidates : list ToolConfig).

(** ** The pipeline *)

Record selectionPipeline : Type := mkSelectionPipeline {
  sp_tools : list ToolConfig;
  sp_policyAllowed : list ToolConfig;
  sp_traces : list DecisionTrace;
  sp_stageCounts : gmap string StageCount;
  sp_outcome : string;
  sp_expanded : bool;
}.

Definition newSelectionPipeline candidates : selectionPipeline :=
  mkSelectionPipeline candidates candidates [] ∅ SelectionOutcomeSelected false.

Definition sp_selected (p : selectionPipeline) : bool := bool_decide (sp_outcome p = SelectionOutcomeSelected).

Definition applyPolicy (p : selectionPipeline) (policy : option (list compiledRule)) sc : selectionPipeline :=
  match policy with
  | None => p
  | Some policy =>
      let input := length (sp_tools p) in
      let '(tools, traces) := policy_Filter MatchString range policy (sp_tools p) sc in
      mkSelectionPipeline tools tools (sp_traces p ++ traces)
        (<[StagePolicy := mkStageCount input (length tools)]> (sp_stageCounts p))
        (if decide (0 < input ∧ length tools = 0) then SelectionOutcomeExplicitDeny else sp_outcome p)
        (sp_expanded p)
  end.

Definition applyWorkflow (p : selectionPipeline) (workflow : option WorkflowSelector) sc : selectionPipeline :=
  match workflow with
  | None => p
  | Some workflow =>
      if negb (sp_selected p) then p
      else
        let input := length (sp_tools p) in
        let r := workflow_filter MatchString workflow (sp_tools p) sc in
        mkSelectionPipeline (wr_tools r) (sp_policyAllowed p) (sp_traces p ++ wr_traces r)
          (<[StageWorkflow := mkStageCount input (length (wr_tools r))]> (sp_stageCounts p))
          (if negb (wr_matched r) && hasMatchableWorkflows workflow then SelectionOutcomeNoMatch
           else if decide (0 < input ∧ length (wr_tools r) = 0) then SelectionOutcomeEmptyByConfiguration
           else sp_outcome p)
          (sp_expanded p)
  end.

(** The store is asked for the progressive state only here. *)
Definition applyProgressive (p : selectionPipeline) (progressive : option (ProgressiveGate (regexp:=regexp)))
    (key : PlanKey) (identityHash progressiveHash : string) : prog selectionPipeline :=
  match progressive with
  | None => Done p
  | Some g =>
      if negb (sp_selected p) then Done p
      else
        let* expanded := atomically (λ s, (s, (CallState s key identityHash progressiveHash).2)) in
        let input := length (sp_tools p) in
        let '(tools, traces) := gate_Apply g (sp_tools p) expanded in
        Done (mkSelectionPipeline tools (sp_policyAllowed p) (sp_traces p ++ traces)
                (<[StageProgressive := mkStageCount input (length tools)]> (sp_stageCounts p))
                (if decide (0 < input ∧ length tools = 0) then SelectionOutcomeEmptyByConfiguration else sp_outcome p)
                expanded)
  end.

Definition finalizeOutcome (p : selectionPipeline) : selectionPipeline :=
  if decide (sp_selected p = true ∧ length (sp_tools p) = 0) then
    mkSelectionPipeline (sp_tools p) (sp_policyAllowed p) (sp_traces p) (sp_stageCounts p)
      SelectionOutcomeNoMatch (sp_expanded p)
  else p.

Definition runSelectionPipeline c (key : PlanKey) (identityHash : string) sc candidates : prog selectionPipeline :=
  let p := newSelectionPipeline candidates in
  let p := applyPolicy p (cs_policy c) sc in
  let p := applyWorkflow p (cs_workflow c) sc in
  let* p := applyProgressive p (cs_progressive c) key identityHash (cs_progressiveHash c) in
  Done (finalizeOutcome p).

(** ** Plans *)

Definition legacyCatalogVersion candidates : string :=
  String.substring 0 16
    (StringsSorted (map (λ t, JSONStableOrFallback (ToolJSON t) (ToolGo t)) candidates)).

Definition catalogVersion candidates (version : string) : string :=
  if decide (version ≠ "") then version
  else if decide (candidates = []) then "empty"
  else legacyCatalogVersion candidates.

(** The text hashed into a plan version. *)
Definition version_text c candidates (identityHash version : string) (expanded : bool) : Builder :=
  let b := AddString NewBuilder ("catalog:" +:+ catalogVersion candidates version) in
  let b := AddString b ("identity:" +:+ identityHash) in
  match cs_progressive c with
  | None => b
  | Some _ => AddString b (if expanded then "expanded" else "initial")
  end.

Definition planKey c (sessionID : string) : PlanKey := mkPlanKey (cs_routerID c) sessionID.

Definition plan_version c candidates (identityHash version : string) (expanded : bool) : string :=
  cs_configHash c +:+ ":" +:+ SumShort (version_text c candidates identityHash version expanded) 16.

Definition selector_version c candidates (identityHash sessionID version : string) : prog string :=
  match cs_progressive c with
  | None => Done (plan_version c candidates identityHash version false)
  | Some _ =>
      let* expanded := atomically (λ s, (s, (CallState s (planKey c sessionID) identityHash (cs_progressiveHash c)).2)) in
      Done (plan_version c candidates identityHash version expanded)
  end.

Definition newSelectionPlan c sc candidates (version identityHash : string) (p : selectionPipeline) : SelectionPlan :=
  let names := toolNames (sp_tools p) in
  mkSelectionPlan (SessionID sc) names (Some (DiscoverableToolNames (sp_tools p))) (cs_visibleFP c (sp_tools p))
    ModeSelected (sp_outcome p) (sp_stageCounts p) (sp_traces p) version identityHash (cs_progressiveHash c)
    (cs_configHash c) (catalogVersion candidates (CatalogVersion sc)) 0 (sp_expanded p) (toolNameSet names).

Definition defaultBundleTools c : option StringSet :=
  match cs_bundles c with
  | None => None
  | Some w => if decide (cs_defaultBundle c = "") then None else bundleTools w (cs_defaultBundle c)
  end.

Definition fallbackBundleToolNames (allowed : list ToolConfig) (bundle : StringSet) : list string * list string :=
  let inside := filter (λ t, tool_Name t ∈ bundle) allowed in
  (map tool_Name inside, map tool_Name (filter (λ t, IsToolDiscoverable t = true) inside)).

Definition applyFallback c sc (allowed : list ToolConfig) (version : string) (traces : list DecisionTrace)
    (stageCounts : gmap string StageCount) (outcome : string) : SelectionPlan :=
  let identityHash := match ClaimsFingerprint sc with Ok id => id | Err _ => "" end in
  let plan names visible fp mode set :=
    mkSelectionPlan (SessionID sc) names visible fp mode outcome stageCounts traces version identityHash
      (cs_progressiveHash c) (cs_configHash c) (CatalogVersion sc) 0 false set in
  if decide (cs_fallback c = FallbackFailClosed) then
    plan [] (Some []) (cs_visibleFP c []) ModeFailClosed None
  else
    match defaultBundleTools c with
    | None => plan [] None "" ModeFallbackBundle None
    | Some bundle =>
        let '(names, visible) := fallbackBundleToolNames allowed bundle in
        plan names (Some visible) (cs_visibleFP c (PickOrdered (NewToolCatalogView allowed) visible))
          ModeFallbackBundle (toolNameSet names)
    end.

Definition computeSelectionPlan c (key : PlanKey) (identityHash : string) sc candidates (version : string) :
    prog SelectionPlan :=
  let* p := runSelectionPipeline c key identityHash sc candidates in
  Done (if outcomeAllowsFallback (sp_outcome p)
        then applyFallback c sc (sp_policyAllowed p) version (sp_traces p) (sp_stageCounts p) (sp_outcome p)
        else newSelectionPlan c sc candidates version identityHash p).

(** ** The methods *)

Definition cachedSelectionPlan (s : SessionPlanStore) (key : PlanKey) (version : string) : option SelectionPlan :=
  match store_Get s key with
  | Some cached => if decide (plan_Version cached = version) then Some cached else None
  | None => None
  end.

Definition commit_plan (key : PlanKey) (plan : SelectionPlan) sc : prog (result select_error SelectionPlan) :=
  atomically (λ s, let '(s, r) := Commit s key (Some plan) sc in
                   (s, match r with Ok p => Ok p | Err e => Err (SelectPlan e) end)).

Definition Select c sc candidates : prog (result select_error SelectionPlan) :=
  match ClaimsFingerprint sc with
  | Err e => Done (Err (SelectIdentity e))
  | Ok identityHash =>
      let key := planKey c (SessionID sc) in
      let* version := selector_version c candidates identityHash (SessionID sc) (CatalogVersion sc) in
      let* cached := atomically (λ s, (s, cachedSelectionPlan s key version)) in
      match cached with
      | Some plan => Done (Ok plan)
      | None =>
          let* plan := computeSelectionPlan c key identityHash sc candidates version in
          commit_plan key plan sc
      end
  end.

(** [Ok None] is a refresh that was not current. *)
Definition RefreshPlan c (base : SessionPlanContext) candidates : prog (result select_error (option SelectionPlan)) :=
  let sc := pc_Context base in
  match ClaimsFingerprint sc with
  | Err e => Done (Err (SelectIdentity e))
  | Ok identityHash =>
      let* version := selector_version c candidates identityHash (SessionID sc) (CatalogVersion sc) in
      let* plan := computeSelectionPlan c (pc_Key base) identityHash sc candidates version in
      atomically (λ s, let '(s, r) := SetIfCurrent s base plan in
                       (s, match r with Ok p => Ok p | Err e => Err (SelectPlan e) end))
  end.

Definition failure_plan c sc candidates (identityHash version : string) : SelectionPlan :=
  let trace := mkDecisionTrace "" StageInternal "" "selection_failure" in
  let '(allowed, traces, stageCounts) :=
    match cs_policy c with
    | None => (candidates, [trace], ∅)
    | Some policy =>
        let '(allowed, t) := policy_Filter MatchString range policy candidates sc in
        (allowed, trace :: t, <[StagePolicy := mkStageCount (length candidates) (length allowed)]> ∅)
    end in
  let p := applyFallback c sc allowed version traces stageCounts SelectionOutcomeInternalError in
  mkSelectionPlan (plan_SessionID p) (plan_ToolNames p) (plan_VisibleToolNames p) (plan_VisibleFingerprint p)
    (plan_Mode p) (plan_Outcome p) (plan_StageCounts p) (plan_Reasons p) (plan_Version p) identityHash
    (plan_ProgressiveHash p) (cs_configHash c) (catalogVersion candidates (CatalogVersion sc)) (plan_Generation p)
    (plan_Expanded p) (plan_toolSet p).

Definition HandleSelectionFailure c sc candidates : prog (result select_error SelectionPlan) :=
  let identityHash := match ClaimsFingerprint sc with Ok id => id | Err _ => "" end in
  let* version := selector_version c candidates identityHash (SessionID sc) (CatalogVersion sc) in
  commit_plan (planKey c (SessionID sc)) (failure_plan c sc candidates identityHash version) sc.

Definition recomputeAndIssueReceipt c (key : PlanKey) (identityHash : string) sc candidates (version : string) :
    prog (result plan_error AuthorizationReceipt) :=
  let* plan := computeSelectionPlan c key identityHash sc candidates version in
  atomically (λ s, let '(s, r) := CommitAndIssueReceipt s key (Some plan) sc (Requested sc) (cs_routerID c) in
                   (s, match r with Ok (_, receipt) => Ok receipt | Err e => Err e end)).

Definition version_request c sc candidates (identityHash version : string) : ReceiptVersionRequest :=
  mkReceiptVersionRequest (planKey c (SessionID sc)) (Requested sc) version identityHash (cs_configHash c)
    (catalogVersion candidates (CatalogVersion sc)) (cs_progressiveHash c) (cs_routerID c).

Definition AuthorizeCall c sc candidates : prog (result plan_error AuthorizationReceipt) :=
  match ClaimsFingerprint sc with
  | Err _ => Done (Err ErrToolNotAuthorized)
  | Ok identityHash =>
      let key := planKey c (SessionID sc) in
      let live := catalogVersion candidates (CatalogVersion sc) in
      let* version := selector_version c candidates identityHash (SessionID sc) live in
      let* issued := atomically (λ s, IssueReceiptForVersion s (version_request c sc candidates identityHash version)) in
      match issued with
      | Ok None =>
          let* r := recomputeAndIssueReceipt c key identityHash sc candidates version in
          match r with
          | Ok receipt => Done (Ok receipt)
          | Err _ => Done (Err ErrToolNotAuthorized)
          end
      | Ok (Some receipt) => Done (Ok receipt)
      | Err _ => Done (Err ErrToolNotAuthorized)
      end
  end.

Definition selector_FinalizeReceipt c (r : AuthorizationReceipt) (outcome : ReceiptOutcome) : prog CallSuccessResult :=
  atomically (λ s, FinalizeReceipt s r outcome (from_option pg_expandAfter 0%Z (cs_progressive c))).

Definition selector_RecordCallSuccess c (r : AuthorizationReceipt) : prog CallSuccessResult :=
  match cs_progressive c with
  | None => Done no_effect
  | Some g => atomically (λ s, RecordCallSuccess s r (pg_expandAfter g))
  end.

Definition progressiveConfigHash (g : option (ProgressiveGate (regexp:=regexp))) : string :=
  match g with
  | None => ""
  | Some g => SumShort (AddString (AddString NewBuilder (pg_initialBundle g)) (pretty (pg_expandAfter g))) 16
  end.
End selector.
