(* ===== verification/McpGovern.v ===== *)
(** * MCP tool governance: what a request may call

    The decisions of the composite selector against a reference that has
    neither a cache nor a store: which tools the policy, the workflows and the
    progressive gate grant to a request.  The store invariant says that every
    cached plan is the plan of some request; with it, a receipt is issued for
    granted tools only, for every interleaving of requests, and exactly for
    these when the requests do not overlap. *)

From S2P Require Import Prelude GoStrings Sha256 Endpoint McpCatalog McpPolicy McpIdentity McpPlan McpSelector.

(** ** Programs that keep an invariant

    Between two steps of a program other programs may run; all it can count on
    is the invariant. *)

Section ensures.
Context (I : SessionPlanStore → Prop).

Fixpoint ensures {A : Type} (p : prog A) (Q : A → Prop) : Prop :=
  match p with
  | Done a => Q a
  | Step f => ∀ s, I s → I (f s).1 ∧ ensures (f s).2 Q
  end.

Lemma ensures_bind {A B} (p : prog A) (k : A → prog B) (Q : A → Prop) (Q' : B → Prop) :
  ensures p Q → (∀ a, Q a → ensures (k a) Q') → ensures (prog_bind p k) Q'.
Proof.
  induction p as [a|f IH] using prog_tree_ind; simpl; [auto|]. intros Hp Hk s Hs. destruct (Hp s Hs) as [H1 H2].
  specialize (IH s). destruct (f s) as [s' p']. simpl in *. auto.
Qed.

Lemma ensures_atomically {A} (f : SessionPlanStore → SessionPlanStore * A) (Q : A → Prop) :
  (∀ s, I s → I (f s).1 ∧ Q (f s).2) → ensures (atomically f) Q.
Proof. simpl. intros H s Hs. destruct (H s Hs). by destruct (f s). Qed.

Lemma ensures_weaken {A} (p : prog A) (Q Q' : A → Prop) : ensures p Q → (∀ a, Q a → Q' a) → ensures p Q'.
Proof. induction p as [a|f IH] using prog_tree_ind; simpl; [auto|]. intros Hp HQ s Hs. destruct (Hp s Hs). eauto. Qed.

Lemma ensures_run {A} (p : prog A) (Q : A → Prop) s : ensures p Q → I s → I (run p s).1 ∧ Q (run p s).2.
Proof. revert s. induction p as [a|f IH] using prog_tree_ind; simpl; [auto|]. intros s Hp Hs. destruct (Hp s Hs). auto. Qed.
End ensures.

Lemma run_bind {A B} (p : prog A) (k : A → prog B) s :
  run (prog_bind p k) s = run (k (run p s).2) (run p s).1.
Proof.
  revert s. induction p as [a|f IH] using prog_tree_ind; intros s; simpl; [done|].
  specialize (IH s). destruct (f s) as [s' p']. simpl in *. apply IH.
Qed.

Lemma run_atomically {A} (f : SessionPlanStore → SessionPlanStore * A) s : run (atomically f) s = f s.
Proof. simpl. by destruct (f s). Qed.

(** Reduction that leaves the operations of the selector folded. *)
Ltac sel_cbn :=
  cbn -[policy_Filter workflow_filter gate_Apply toolNames DiscoverableToolNames finalizeOutcome plan_version
        applyFallback newSelectionPlan ClaimsFingerprint clonePlan CallState].

Section govern.
Context {regexp : Type} (MatchString : regexp → string → bool) (range : StringSet → list string).
Context (ToolJSON : ToolConfig → option string) (ToolGo : ToolConfig → string).
Implicit Types (c : CompositeSelector (regexp:=regexp)) (sc : SelectionContext) (candidates : list ToolConfig).
Implicit Types (t : ToolConfig).

(** ** The reference *)

Definition policy_ok c sc t : Prop :=
  match cs_policy c with
  | None => True
  | Some p => policy_allows MatchString p sc t
  end.

(** A workflow that matches by itself exists, and none does for this context. *)
Definition no_match c sc : Prop :=
  match cs_workflow c with
  | None => False
  | Some w => matchWorkflow MatchString w sc = None ∧ hasMatchableWorkflows w = true
  end.

Definition workflow_ok c sc t : Prop :=
  match cs_workflow c with
  | None => True
  | Some w =>
      match matchWorkflow MatchString w sc with
      | None => True
      | Some wf => tool_Name t ∈ cw_tools wf
      end
  end.

Definition gate_ok c (expanded : bool) t : Prop :=
  match cs_progressive c with
  | None => True
  | Some g =>
      expanded = true ∨
      match bundleSet g with
      | None => False
      | Some bundle => tool_Name t ∈ bundle
      end
  end.

Definition fallback_ok c t : Prop :=
  cs_fallback c ≠ FallbackFailClosed ∧
  match defaultBundleTools c with
  | None => False
  | Some bundle => tool_Name t ∈ bundle
  end.

#[export] Instance policy_ok_dec c sc t : Decision (policy_ok c sc t).
Proof. unfold policy_ok. destruct (cs_policy c); apply _. Defined.
#[export] Instance no_match_dec c sc : Decision (no_match c sc).
Proof.
  unfold no_match. destruct (cs_workflow c) as [w|]; [|apply _].
  destruct (matchWorkflow _ w sc); [right; naive_solver|]. destruct (hasMatchableWorkflows w); [left|right]; naive_solver.
Defined.
#[export] Instance workflow_ok_dec c sc t : Decision (workflow_ok c sc t).
Proof. unfold workflow_ok. destruct (cs_workflow c) as [w|]; [|apply _]. destruct (matchWorkflow _ w sc); apply _. Defined.
#[export] Instance gate_ok_dec c expanded t : Decision (gate_ok c expanded t).
Proof. unfold gate_ok. destruct (cs_progressive c) as [g|]; [|apply _]. destruct (bundleSet g); apply _. Defined.
#[export] Instance fallback_ok_dec c t : Decision (fallback_ok c t).
Proof. unfold fallback_ok. destruct (defaultBundleTools c); apply _. Defined.

Definition fallback_tools c sc candidates : list ToolConfig :=
  filter (fallback_ok c) (filter (policy_ok c sc) candidates).

(** The tools granted to a request, in catalog order. *)
Definition granted c sc candidates (expanded : bool) : list ToolConfig :=
  if decide (no_match c sc) then fallback_tools c sc candidates
  else filter (gate_ok c expanded) (filter (workflow_ok c sc) (filter (policy_ok c sc) candidates)).

(** ** The pipeline computes the reference *)

(** The gate with its answer from the store. *)
Definition gated (p : selectionPipeline) c (expanded : bool) : selectionPipeline :=
  match cs_progressive c with
  | None => p
  | Some g =>
      if negb (sp_selected p) then p
      else
        let input := length (sp_tools p) in
        let '(tools, traces) := gate_Apply g (sp_tools p) expanded in
        mkSelectionPipeline tools (sp_policyAllowed p) (sp_traces p ++ traces)
          (<[StageProgressive := mkStageCount input (length tools)]> (sp_stageCounts p))
          (if decide (0 < input ∧ length tools = 0) then SelectionOutcomeEmptyByConfiguration else sp_outcome p)
          expanded
  end.

Definition pipeline c sc candidates (expanded : bool) : selectionPipeline :=
  finalizeOutcome
    (gated (applyWorkflow MatchString (applyPolicy MatchString range (newSelectionPipeline candidates) (cs_policy c) sc)
              (cs_workflow c) sc) c expanded).

Definition plan_of c sc candidates (identityHash version : string) (expanded : bool) : SelectionPlan :=
  let p := pipeline c sc candidates expanded in
  if outcomeAllowsFallback (sp_outcome p)
  then applyFallback c sc (sp_policyAllowed p) version (sp_traces p) (sp_stageCounts p) (sp_outcome p)
  else newSelectionPlan ToolJSON ToolGo c sc candidates version identityHash p.

(** Computing a plan takes at most one look at the store and changes nothing. *)
Lemma computeSelectionPlan_eq c key identityHash sc candidates version (I : SessionPlanStore → Prop) Q :
  (∀ expanded, Q (plan_of c sc candidates identityHash version expanded)) →
  ensures I (computeSelectionPlan MatchString range ToolJSON ToolGo c key identityHash sc candidates version) Q.
Proof.
  intros HQ. unfold computeSelectionPlan, runSelectionPipeline, plan_of, pipeline, gated in *.
  set (p := applyWorkflow _ _ _ _) in *. unfold applyProgressive.
  destruct (cs_progressive c) as [g|]; [|apply (HQ false)].
  destruct (negb (sp_selected p)); [apply (HQ false)|].
  sel_cbn. intros s Hs. split; [done|]. specialize (HQ (CallState s key identityHash (cs_progressiveHash c)).2).
  by destruct (gate_Apply _ _ _).
Qed.

Lemma computeSelectionPlan_run c key identityHash sc candidates version s :
  run (computeSelectionPlan MatchString range ToolJSON ToolGo c key identityHash sc candidates version) s =
    (s, plan_of c sc candidates identityHash version (CallState s key identityHash (cs_progressiveHash c)).2).
Proof.
  unfold computeSelectionPlan, runSelectionPipeline, plan_of, pipeline, gated.
  set (p := applyWorkflow _ _ _ _) in *. unfold applyProgressive.
  destruct (cs_progressive c) as [g|]; [|done].
  destruct (negb (sp_selected p)); [done|].
  sel_cbn. by destruct (gate_Apply _ _ _).
Qed.

Context (Hrange : ∀ (s : StringSet) x, x ∈ range s ↔ x ∈ s).

Lemma applyPolicy_spec c sc candidates :
  let p := applyPolicy MatchString range (newSelectionPipeline candidates) (cs_policy c) sc in
  sp_tools p = filter (policy_ok c sc) candidates ∧ sp_policyAllowed p = filter (policy_ok c sc) candidates ∧
  (sp_outcome p = SelectionOutcomeSelected ∧ (candidates = [] ∨ sp_tools p ≠ []) ∨
   sp_outcome p = SelectionOutcomeExplicitDeny ∧ sp_tools p = []).
Proof.
  cbv zeta. destruct (cs_policy c) as [p|] eqn:Ep; unfold applyPolicy.
  - assert (filter (policy_ok c sc) candidates = filter (policy_allows MatchString p sc) candidates) as ->.
    { apply list_filter_ext_elem. intros t _. unfold policy_ok. by rewrite Ep. }
    pose proof (policy_Filter_kept MatchString range Hrange p candidates sc) as Hk. simpl.
    destruct (policy_Filter _ _ _ _ _) as [tools traces]. simpl in *. subst tools. split_and!; [done|done|].
    case_decide as Hd; [right; split; [done|]; apply nil_length_inv; tauto|left; split; [done|]].
    destruct candidates as [|t l]; [by left|right]. intros Hnil. rewrite Hnil in Hd. simpl in Hd. lia.
  - assert (filter (policy_ok c sc) candidates = candidates) as ->.
    { apply list_filter_all. intros t _. unfold policy_ok. by rewrite Ep. }
    simpl. split_and!; [done|done|]. left. split; [done|]. destruct candidates; auto.
Qed.

Lemma filter_nil {A} (P : A → Prop) `{∀ x, Decision (P x)} : filter P [] = [].
Proof. done. Qed.

(** The workflow stage on top of the policy stage. *)
Lemma applyWorkflow_spec c sc (p : selectionPipeline) :
  sp_outcome p = SelectionOutcomeSelected →
  let q := applyWorkflow MatchString p (cs_workflow c) sc in
  sp_policyAllowed q = sp_policyAllowed p ∧
  (no_match c sc ∧ sp_outcome q = SelectionOutcomeNoMatch ∨
   ¬ no_match c sc ∧ sp_tools q = filter (workflow_ok c sc) (sp_tools p) ∧
   (sp_outcome q = SelectionOutcomeSelected ∧ (sp_tools p = [] ∨ sp_tools q ≠ []) ∨
    sp_outcome q = SelectionOutcomeEmptyByConfiguration ∧ sp_tools q = [])).
Proof.
  intros Hsel. cbv zeta. destruct (cs_workflow c) as [w|] eqn:Ew; unfold applyWorkflow.
  - unfold sp_selected. rewrite Hsel, bool_decide_true by done. simpl.
    pose proof (workflow_filter_kept MatchString w (sp_tools p) sc) as Hk.
    assert (wr_matched (workflow_filter MatchString w (sp_tools p) sc) =
            match matchWorkflow MatchString w sc with Some _ => true | None => false end) as ->.
    { unfold workflow_filter. destruct (matchWorkflow _ _ _); [|done]. by destruct (keep_traced _ _ _). }
    assert (no_match c sc ↔ matchWorkflow MatchString w sc = None ∧ hasMatchableWorkflows w = true) as Hnm.
    { unfold no_match. by rewrite Ew. }
    assert (filter (workflow_ok c sc) (sp_tools p) = wr_tools (workflow_filter MatchString w (sp_tools p) sc)) as Hf.
    { rewrite Hk. destruct (matchWorkflow MatchString w sc) as [wf|] eqn:Em.
      - apply list_filter_ext_elem. intros t _. unfold workflow_ok. by rewrite Ew, Em.
      - apply list_filter_all. intros t _. unfold workflow_ok. by rewrite Ew, Em. }
    split; [done|]. rewrite Hf, Hnm. destruct (matchWorkflow MatchString w sc); simpl; [right|].
    2: destruct (hasMatchableWorkflows w); [by left|right].
    all: split; [naive_solver|]; split; [done|].
    all: case_decide as Hd; [right; split; [done|]; apply nil_length_inv; tauto|left; split; [done|]].
    all: destruct (sp_tools p); [by left|right]; intros Hnil; rewrite Hnil in Hd; simpl in Hd; lia.
  - split; [done|]. right. unfold no_match. rewrite Ew. split; [tauto|].
    assert (filter (workflow_ok c sc) (sp_tools p) = sp_tools p) as ->.
    { apply list_filter_all. intros t _. unfold workflow_ok. by rewrite Ew. }
    split; [done|]. left. split; [done|]. destruct (sp_tools p); auto.
Qed.

Lemma gated_spec c expanded (p : selectionPipeline) :
  sp_outcome p = SelectionOutcomeSelected →
  let q := gated p c expanded in
  sp_policyAllowed q = sp_policyAllowed p ∧ sp_tools q = filter (gate_ok c expanded) (sp_tools p) ∧
  (sp_outcome q = SelectionOutcomeSelected ∧ (sp_tools p = [] ∨ sp_tools q ≠ []) ∨
   sp_outcome q = SelectionOutcomeEmptyByConfiguration ∧ sp_tools q = []).
Proof.
  intros Hsel. cbv zeta. unfold gated. destruct (cs_progressive c) as [g|] eqn:Eg.
  - unfold sp_selected. rewrite Hsel, bool_decide_true by done. simpl.
    pose proof (gate_Apply_kept g (sp_tools p) expanded) as Hk.
    assert (filter (gate_ok c expanded) (sp_tools p) = (gate_Apply g (sp_tools p) expanded).1) as ->.
    { rewrite Hk. destruct expanded.
      - apply list_filter_all. intros t _. unfold gate_ok. rewrite Eg. by left.
      - destruct (bundleSet g) as [b|] eqn:Eb.
        + apply list_filter_ext_elem. intros t _. unfold gate_ok. rewrite Eg, Eb. naive_solver.
        + apply list_filter_none. intros t _. unfold gate_ok. rewrite Eg, Eb. naive_solver. }
    destruct (gate_Apply g (sp_tools p) expanded) as [tools traces]. simpl in *. split; [done|]. split; [done|].
    case_decide as Hd; [right; split; [done|]; apply nil_length_inv; tauto|left; split; [done|]].
    destruct (sp_tools p); [by left|right]. intros ->. simpl in Hd. lia.
  - split; [done|]. assert (filter (gate_ok c expanded) (sp_tools p) = sp_tools p) as ->.
    { apply list_filter_all. intros t _. unfold gate_ok. by rewrite Eg. }
    split; [done|]. left. split; [done|]. destruct (sp_tools p); auto.
Qed.

Lemma gated_skip c expanded (p : selectionPipeline) :
  sp_outcome p ≠ SelectionOutcomeSelected → gated p c expanded = p.
Proof.
  intros H. unfold gated. destruct (cs_progressive c); [|done]. unfold sp_selected. by rewrite bool_decide_false.
Qed.

Lemma applyWorkflow_skip w sc (p : selectionPipeline) :
  sp_outcome p ≠ SelectionOutcomeSelected → applyWorkflow MatchString p w sc = p.
Proof.
  intros H. unfold applyWorkflow. destruct w; [|done]. unfold sp_selected. by rewrite bool_decide_false.
Qed.

Lemma finalizeOutcome_spec (p : selectionPipeline) :
  sp_tools (finalizeOutcome p) = sp_tools p ∧ sp_policyAllowed (finalizeOutcome p) = sp_policyAllowed p ∧
  (sp_outcome (finalizeOutcome p) = sp_outcome p ∨
   sp_outcome p = SelectionOutcomeSelected ∧ sp_tools p = [] ∧
   sp_outcome (finalizeOutcome p) = SelectionOutcomeNoMatch).
Proof.
  unfold finalizeOutcome. case_decide as H; [|auto]. destruct H as [H1%bool_decide_eq_true H2%nil_length_inv].
  simpl. auto 6.
Qed.

(** What the pipeline leaves: either no workflow matched, and the fallback
    decides among the policy's tools, or the tools are the granted ones and a
    fallback happens only when there is nothing to choose from. *)
Lemma pipeline_spec c sc candidates expanded :
  let p := pipeline c sc candidates expanded in
  sp_policyAllowed p = filter (policy_ok c sc) candidates ∧
  (no_match c sc ∧ (sp_outcome p = SelectionOutcomeNoMatch ∨
                    outcomeAllowsFallback (sp_outcome p) = false ∧ sp_tools p = [] ∧ sp_policyAllowed p = []) ∨
   ¬ no_match c sc ∧
   sp_tools p = filter (gate_ok c expanded) (filter (workflow_ok c sc) (filter (policy_ok c sc) candidates)) ∧
   (outcomeAllowsFallback (sp_outcome p) = true → candidates = [])).
Proof.
  cbv zeta. unfold pipeline. destruct (applyPolicy_spec c sc candidates) as (Ht & Ha & Ho). revert Ht Ha Ho.
  generalize (applyPolicy MatchString range (newSelectionPipeline candidates) (cs_policy c) sc) as p.
  intros p Ht Ha [[Ho Hne]|[Ho Hnil]].
  - destruct (applyWorkflow_spec c sc p Ho) as (Hwa & Hw). revert Hwa Hw.
    generalize (applyWorkflow MatchString p (cs_workflow c) sc) as q. intros q Hwa [[Hn Hq]|(Hn & Hqt & [[Hq Hqn]|[Hq Hqn]])].
    + rewrite gated_skip by (rewrite Hq; done).
      destruct (finalizeOutcome_spec q) as (_ & Hfa & Hfo). split; [congruence|]. left. split; [done|]. left.
      destruct Hfo as [->|(H & _)]; [done|]. by rewrite Hq in H.
    + destruct (gated_spec c expanded q Hq) as (Hga & Hgt & Hgo). revert Hga Hgt Hgo.
      generalize (gated q c expanded) as g. intros g Hga Hgt Hgo.
      destruct (finalizeOutcome_spec g) as (Hft & Hfa & Hfo). split; [congruence|]. right. split; [done|].
      split; [congruence|]. intros Hfb. destruct Hfo as [Hfo|(_ & Hgnil & _)].
      * exfalso. rewrite Hfo in Hfb. by destruct Hgo as [[Hgo _]|[Hgo _]]; rewrite Hgo in Hfb.
      * destruct Hgo as [[_ [Hqe|?]]|[Hgo _]]; [|done|].
        -- destruct Hqn as [Hpe|?]; [|done]. destruct Hne as [?|?]; done.
        -- exfalso. destruct (finalizeOutcome_spec g) as (_ & _ & [H|(H & _)]); [|by rewrite Hgo in H].
           by rewrite H, Hgo in Hfb.
    + rewrite gated_skip by (rewrite Hq; done). destruct (finalizeOutcome_spec q) as (Hft & Hfa & Hfo).
      split; [congruence|]. right. split; [done|]. split.
      { rewrite Hft, Hqn. by rewrite <- Ht, <- Hqt, Hqn. }
      destruct Hfo as [->|(H & _)]; rewrite Hq in *; done.
  - rewrite applyWorkflow_skip, gated_skip by (rewrite ?applyWorkflow_skip by (rewrite Ho; done); rewrite Ho; done).
    destruct (finalizeOutcome_spec p) as (Hft & Hfa & Hfo).
    assert (sp_outcome (finalizeOutcome p) = SelectionOutcomeExplicitDeny) as ->.
    { destruct Hfo as [->|(H & _)]; [done|]. by rewrite Ho in H. }
    split; [congruence|]. rewrite Ht in Hnil. destruct (decide (no_match c sc)); [left|right]; (split; [done|]).
    + right. split_and!; [done|congruence|congruence].
    + split; [|done]. by rewrite Hft, Ht, Hnil.
Qed.

(** ** Plans and the reference *)

Lemma applyFallback_spec c sc allowed version traces stageCounts outcome :
  let p := applyFallback c sc allowed version traces stageCounts outcome in
  let tools := filter (fallback_ok c) allowed in
  plan_ToolNames p = map tool_Name tools ∧ VisibleNames p = map tool_Name (DiscoverableTools tools).
Proof.
  cbv zeta. unfold applyFallback. case_decide as Hf.
  { rewrite list_filter_none by (unfold fallback_ok; tauto). done. }
  destruct (defaultBundleTools c) as [b|] eqn:Eb.
  - assert (filter (fallback_ok c) allowed = filter (λ t, tool_Name t ∈ b) allowed) as ->; [|done].
    apply list_filter_ext_elem. intros t _. unfold fallback_ok. rewrite Eb. tauto.
  - rewrite list_filter_none; [done|]. intros t _. unfold fallback_ok. rewrite Eb. tauto.
Qed.

(** The selected set of a computed plan is the granted one, and its visible
    part are the granted tools that may be discovered. *)
Lemma plan_of_spec c sc candidates identityHash version expanded :
  let p := plan_of c sc candidates identityHash version expanded in
  plan_ToolNames p = map tool_Name (granted c sc candidates expanded) ∧
  VisibleNames p = map tool_Name (DiscoverableTools (granted c sc candidates expanded)).
Proof.
  cbv zeta. unfold plan_of. destruct (pipeline_spec c sc candidates expanded) as (Ha & Hor). revert Ha Hor.
  generalize (pipeline c sc candidates expanded) as p. intros p Ha Hor.
  unfold granted. destruct Hor as [(Hn & Hor)|(Hn & Ht & Hfb)].
  - rewrite (decide_True _ _ Hn). destruct Hor as [->|(-> & Hnil & Hal)].
    + simpl. rewrite Ha. apply applyFallback_spec.
    + unfold newSelectionPlan, VisibleNames, fallback_tools. simpl. rewrite <- Ha, Hnil, Hal. done.
  - rewrite (decide_False _ _ Hn). destruct (outcomeAllowsFallback (sp_outcome p)).
    + specialize (Hfb eq_refl). subst candidates. rewrite Ha. apply applyFallback_spec.
    + unfold newSelectionPlan, VisibleNames. simpl. rewrite Ht. done.
Qed.

Lemma plan_of_fields c sc candidates identityHash version expanded :
  let p := plan_of c sc candidates identityHash version expanded in
  plan_SessionID p = SessionID sc ∧ plan_Version p = version ∧ plan_ConfigHash p = cs_configHash c ∧
  plan_ProgressiveHash p = cs_progressiveHash c ∧
  (ClaimsFingerprint sc = Ok identityHash → plan_IdentityHash p = identityHash) ∧
  (CatalogVersion sc ≠ "" → plan_CatalogVersion p = CatalogVersion sc).
Proof.
  cbv zeta. unfold plan_of. destruct (outcomeAllowsFallback _).
  - unfold applyFallback. case_decide; [|destruct (defaultBundleTools c)]; simpl;
      (split_and!; try done; by intros ->).
  - simpl. split_and!; try done. intros H. unfold catalogVersion. by rewrite decide_True.
Qed.

(** A plan that authorizes a list of tools and shows those of them that may be
    discovered. *)
Definition shows (p : SelectionPlan) (tools : list ToolConfig) : Prop :=
  plan_ToolNames p = map tool_Name tools ∧ VisibleNames p = map tool_Name (DiscoverableTools tools).

(** The plan of a failed selection holds the fallback tools. *)
Lemma failure_plan_spec c sc candidates identityHash version :
  let p := failure_plan MatchString range ToolJSON ToolGo c sc candidates identityHash version in
  shows p (fallback_tools c sc candidates) ∧ plan_Version p = version ∧
  plan_IdentityHash p = identityHash ∧
  plan_CatalogVersion p = catalogVersion ToolJSON ToolGo candidates (CatalogVersion sc).
Proof.
  cbv zeta. unfold failure_plan.
  assert (∀ allowed traces stageCounts, allowed = filter (policy_ok c sc) candidates →
    let p := applyFallback c sc allowed version traces stageCounts SelectionOutcomeInternalError in
    shows p (fallback_tools c sc candidates) ∧ plan_Version p = version) as Hfb.
  { intros allowed traces stageCounts ->. split; [split; apply applyFallback_spec|].
    unfold applyFallback. case_decide; [done|]. by destruct (defaultBundleTools c). }
  destruct (cs_policy c) as [p|] eqn:Ep.
  - pose proof (policy_Filter_kept MatchString range Hrange p candidates sc) as Hk.
    destruct (policy_Filter _ _ _ _ _) as [allowed t]. simpl in *. edestruct Hfb as [H1 H2]; [|split_and!; [exact H1|exact H2|done|done]].
    rewrite Hk. apply list_filter_ext_elem. intros u _. unfold policy_ok. by rewrite Ep.
  - edestruct Hfb as [H1 H2]; [|split_and!; [exact H1|exact H2|done|done]].
    symmetry. apply list_filter_all. intros u _. unfold policy_ok. by rewrite Ep.
Qed.

(** What the reference grants passes the policy. *)
Lemma granted_policy c sc candidates expanded t :
  t ∈ granted c sc candidates expanded → t ∈ candidates ∧ policy_ok c sc t.
Proof.
  unfold granted, fallback_tools. case_decide; rewrite !list_elem_of_filter; tauto.
Qed.

(** The reference looks at the claims only. *)
Lemma granted_ext c sc1 sc2 candidates expanded :
  (∀ k, claimString sc1 k = claimString sc2 k) →
  granted c sc1 candidates expanded = granted c sc2 candidates expanded ∧
  fallback_tools c sc1 candidates = fallback_tools c sc2 candidates.
Proof.
  intros H.
  assert (filter (policy_ok c sc1) candidates = filter (policy_ok c sc2) candidates) as Hp.
  { apply list_filter_ext_elem. intros t _. unfold policy_ok. destruct (cs_policy c); [|done].
    by apply policy_allows_ext. }
  assert (no_match c sc1 ↔ no_match c sc2) as Hn.
  { unfold no_match. destruct (cs_workflow c) as [w|]; [|done]. by rewrite (matchWorkflow_ext MatchString w sc1 sc2 H). }
  assert (∀ l : list ToolConfig, filter (workflow_ok c sc1) l = filter (workflow_ok c sc2) l) as Hw.
  { intros l. apply list_filter_ext_elem. intros t _. unfold workflow_ok. destruct (cs_workflow c) as [w|]; [|done].
    by rewrite (matchWorkflow_ext MatchString w sc1 sc2 H). }
  unfold granted, fallback_tools. rewrite Hp. split; [|done].
  destruct (decide (no_match c sc1)), (decide (no_match c sc2)); try tauto. by rewrite Hw.
Qed.

(** ** The invariant of the store *)

Definition id_of sc : string := match ClaimsFingerprint sc with Ok id => id | Err _ => "" end.

Lemma plan_Contains_spec (p : SelectionPlan) name :
  plan_toolSet p = toolNameSet (plan_ToolNames p) → plan_Contains p name = true ↔ name ∈ plan_ToolNames p.
Proof.
  intros Hs. unfold plan_Contains, toolNameSet in *. case_decide as E; rewrite Hs.
  - by rewrite bool_decide_eq_true.
  - rewrite bool_decide_eq_true. unfold NewStringSet. by rewrite elem_of_list_to_set.
Qed.

Section invariant.
Context (c : CompositeSelector (regexp:=regexp)).

(** The requests made of the selector, each with the catalog it was made with. *)
Context (reqs : list (SelectionContext * list ToolConfig)).

(** How the progressive state that a plan's version was computed with is
    related to the one its tools were computed with, and whether plans of
    failed selections can be in the store. *)
Context (R : bool → bool → Prop) (failures : bool).

(** A plan of one of the requests. *)
Definition plan_ok (p : SelectionPlan) : Prop :=
  ∃ sc candidates v x,
    (sc, candidates) ∈ reqs ∧ R v x ∧
    plan_IdentityHash p = id_of sc ∧ plan_CatalogVersion p = CatalogVersion sc ∧
    plan_Version p = plan_version ToolJSON ToolGo c candidates (id_of sc) (CatalogVersion sc) v ∧
    (shows p (granted c sc candidates x) ∨ failures = true ∧ shows p (fallback_tools c sc candidates)).

Definition entry_ok (e : sessionEntry) : Prop :=
  ∃ p, e_plan e = Some p ∧ plan_ok p ∧ e_identityHash e = plan_IdentityHash p ∧
       e_catalogVersion e = plan_CatalogVersion p ∧ plan_toolSet p = toolNameSet (plan_ToolNames p).

Definition governed (s : SessionPlanStore) : Prop := ∀ key e, entries s !! key = Some e → entry_ok e.

Lemma write_entry_ok key e0 plan sc : plan_ok plan → entry_ok (write_entry key e0 (clonePlan plan false) sc).
Proof. intros H. eexists. split; [done|]. done. Qed.

Lemma released_entry_ok e p active outcome n : e_plan e = Some p → entry_ok e → entry_ok (release e p active outcome n).1.
Proof.
  intros Hp (p' & Hp' & H). rewrite Hp in Hp'. injection Hp' as <-. unfold release, count_call.
  case_decide; simpl; [by exists p|]. case_decide; simpl; [|by exists p].
  eexists. split; [done|]. done.
Qed.

Lemma change_governed op s s' :
  (∀ key plan sc, writes op key plan sc → plan_ok plan) → governed s → change op s s' → governed s'.
Proof.
  intros Hop Hg [|k e0 plan sc Hw _ _ _|k e p requested routerID He Hp _|r' outcome n' Hf|m act mx Hm _ _] key e'; simpl.
  - apply Hg.
  - rewrite lookup_insert_Some. intros [[_ <-]|[_ He]]; [|by eapply Hg]. apply write_entry_ok. by eapply Hop.
  - rewrite lookup_insert_Some. intros [[_ <-]|[_ He']]; [|by eapply Hg].
    destruct (Hg _ _ He) as (p' & Hp' & H). rewrite Hp in Hp'. injection Hp' as <-. by exists p.
  - destruct (FinalizeReceipt_cases s r' outcome n') as [->|(e & p & st & He & Hp & _ & _ & _ & _ & ->)]; [apply Hg|].
    simpl. rewrite lookup_insert_Some. intros [[_ <-]|[_ He']]; [|by eapply Hg].
    apply released_entry_ok; [done|]. by eapply Hg.
  - intros He. eapply Hg. by eapply lookup_weaken.
Qed.

Lemma step_governed op s :
  (∀ key plan sc, writes op key plan sc → plan_ok plan) → governed s → governed (store_step s op).
Proof.
  intros Hop Hg. eapply changes_preserve; [|exact Hg|apply store_step_changes].
  intros. by eapply change_governed.
Qed.

(** ** What the requests have to be like

    The requests of the MCP filter carry the version of the catalog they were
    made with, which determines the catalog; their claims hold no NUL byte and
    print what their encodings say; and the hash has no collision among the
    identities and the plan versions at hand. *)
Definition requests_ok : Prop :=
  ∀ sc1 l1 sc2 l2, (sc1, l1) ∈ reqs → (sc2, l2) ∈ reqs →
    CatalogVersion sc1 ≠ "" ∧ Strings.HasByte nul (CatalogVersion sc1) = false ∧
    nul_free sc1 ∧ text_follows_json sc1 sc2 ∧
    (CatalogVersion sc1 = CatalogVersion sc2 → l1 = l2) ∧
    (∀ b1 b2, identity_text sc1 = Ok b1 → identity_text sc2 = Ok b2 → SumShort b1 16 = SumShort b2 16 → b1 = b2) ∧
    (∀ v1 v2, let text1 := version_text ToolJSON ToolGo c l1 (id_of sc1) (CatalogVersion sc1) v1 in
              let text2 := version_text ToolJSON ToolGo c l2 (id_of sc2) (CatalogVersion sc2) v2 in
              SumShort text1 16 = SumShort text2 16 → text1 = text2).

Lemma live_version candidates version : version ≠ "" → catalogVersion ToolJSON ToolGo candidates version = version.
Proof. intros H. unfold catalogVersion. by rewrite decide_True. Qed.

Lemma id_of_no_nul sc : Strings.HasByte nul (id_of sc) = false.
Proof. unfold id_of, ClaimsFingerprint. destruct (identity_text sc); [|done]. apply SumShort_no_nul. Qed.

Lemma same_identity sc1 l1 sc2 l2 id :
  requests_ok → (sc1, l1) ∈ reqs → (sc2, l2) ∈ reqs → ClaimsFingerprint sc2 = Ok id → id_of sc1 = id →
  ∀ k, claimString sc1 k = claimString sc2 k.
Proof.
  intros Hr H1 H2. unfold id_of, ClaimsFingerprint.
  destruct (identity_text sc2) as [b2|] eqn:E2; [|done]. intros [= <-].
  destruct (identity_text sc1) as [b1|] eqn:E1; [|intros E; by destruct (SumShort_not_empty b2)].
  intros E. destruct (Hr sc1 l1 sc2 l2 H1 H2) as (_ & _ & N1 & Ht & _ & Hc & _).
  destruct (Hr sc2 l2 sc1 l1 H2 H1) as (_ & _ & N2 & _).
  assert (b1 = b2) as -> by by apply Hc. by eapply identity_text_inj.
Qed.

(** Equal versions come from equal catalogs, identities and, with a gate, equal
    progressive states. *)
Lemma same_version sc1 l1 v1 sc2 l2 v2 :
  requests_ok → (sc1, l1) ∈ reqs → (sc2, l2) ∈ reqs →
  plan_version ToolJSON ToolGo c l1 (id_of sc1) (CatalogVersion sc1) v1 =
    plan_version ToolJSON ToolGo c l2 (id_of sc2) (CatalogVersion sc2) v2 →
  CatalogVersion sc1 = CatalogVersion sc2 ∧ id_of sc1 = id_of sc2 ∧ (is_Some (cs_progressive c) → v1 = v2).
Proof.
  intros Hr H1 H2 E. unfold plan_version in E. apply (inj (String.append _)) in E. simpl in E. injection E as E.
  destruct (Hr sc1 l1 sc2 l2 H1 H2) as (Hv1 & Hn1 & _ & _ & _ & _ & Hc).
  destruct (Hr sc2 l2 sc1 l1 H2 H1) as (Hv2 & Hn2 & _). apply Hc in E. clear Hc. unfold version_text in E.
  rewrite !live_version in E by done.
  assert (∀ cv id v, match cs_progressive c with
      | Some _ => AddString (AddString (AddString NewBuilder ("catalog:" +:+ cv)) ("identity:" +:+ id))
                    (if v : bool then "expanded" else "initial")
      | None => AddString (AddString NewBuilder ("catalog:" +:+ cv)) ("identity:" +:+ id)
      end = framed (["catalog:" +:+ cv; "identity:" +:+ id] ++
                    match cs_progressive c with Some _ => [if v then "expanded" else "initial"] | None => [] end)) as Hfr.
  { intros. by destruct (cs_progressive c). }
  rewrite !Hfr in E. clear Hfr. apply framed_inj in E.
  - destruct (cs_progressive c); simpl in E; injection E as E1 E2.
    + split_and!; [done|done|]. intros _. destruct v1, v2; done.
    + split_and!; [done|done|]. by intros [].
  - repeat constructor; simpl; [done|apply id_of_no_nul|]. destruct (cs_progressive c), v1; repeat constructor.
  - repeat constructor; simpl; [done|apply id_of_no_nul|]. destruct (cs_progressive c), v2; repeat constructor.
Qed.

(** A stored plan whose inputs match those of a request is a plan for it. *)
Lemma matching_plan sc candidates id p :
  requests_ok → (sc, candidates) ∈ reqs → ClaimsFingerprint sc = Ok id → plan_ok p →
  plan_IdentityHash p = id → plan_CatalogVersion p = CatalogVersion sc →
  ∃ v x, R v x ∧ plan_Version p = plan_version ToolJSON ToolGo c candidates id (CatalogVersion sc) v ∧
    (shows p (granted c sc candidates x) ∨ failures = true ∧ shows p (fallback_tools c sc candidates)).
Proof.
  intros Hr Hin Hid (sc0 & c0 & v & x & Hin0 & HR & Hp1 & Hp2 & Hp3 & Hp4) Hi Hv.
  rewrite Hp1 in Hi. rewrite Hp2 in Hv.
  assert (∀ k, claimString sc0 k = claimString sc k) as Hc by by eapply same_identity.
  assert (c0 = candidates) as -> by by eapply Hr.
  destruct (granted_ext c sc0 sc candidates x Hc) as [Hg Hf]. rewrite Hg, Hf in Hp4.
  exists v, x. rewrite <- Hi, <- Hv. done.
Qed.

Lemma id_of_Ok sc id : ClaimsFingerprint sc = Ok id → id_of sc = id.
Proof. unfold id_of. by intros ->. Qed.

(** The same for a plan whose version matches. *)
Lemma matching_version sc candidates id p v :
  requests_ok → (sc, candidates) ∈ reqs → ClaimsFingerprint sc = Ok id → plan_ok p →
  plan_Version p = plan_version ToolJSON ToolGo c candidates id (CatalogVersion sc) v →
  ∃ v' x, R v' x ∧ (is_Some (cs_progressive c) → v' = v) ∧
    (shows p (granted c sc candidates x) ∨ failures = true ∧ shows p (fallback_tools c sc candidates)).
Proof.
  intros Hr Hin Hid Hp E. pose proof Hp as (sc0 & c0 & v0 & x & Hin0 & HR & Hp1 & Hp2 & Hp3 & Hp4).
  rewrite Hp3, <- (id_of_Ok _ _ Hid) in E. apply same_version in E as (Ev & Ei & Ef); [|done..].
  rewrite (id_of_Ok _ _ Hid) in Ei. destruct (matching_plan sc candidates id p) as (v1 & x1 & HR1 & E1 & Hn); [done..| | |].
  { congruence. } { congruence. }
  rewrite Hp3, <- (id_of_Ok _ _ Hid) in E1. apply same_version in E1 as (_ & _ & Ef1); [|done..].
  exists v1, x1. split_and!; [done| |done]. intros Hs. rewrite <- (Ef1 Hs). by apply Ef.
Qed.

(** ** The plans that the methods write *)

Lemma plan_of_ok sc candidates id v x :
  (sc, candidates) ∈ reqs → ClaimsFingerprint sc = Ok id → CatalogVersion sc ≠ "" → R v x →
  plan_ok (plan_of c sc candidates id (plan_version ToolJSON ToolGo c candidates id (CatalogVersion sc) v) x).
Proof.
  intros Hin Hid Hv HR. exists sc, candidates, v, x. rewrite (id_of_Ok _ _ Hid).
  destruct (plan_of_fields c sc candidates id
    (plan_version ToolJSON ToolGo c candidates id (CatalogVersion sc) v) x) as (_ & H1 & _ & _ & H2 & H3).
  split_and!; auto. left. split; apply plan_of_spec.
Qed.

Lemma failure_plan_ok sc candidates v x :
  failures = true → (sc, candidates) ∈ reqs → CatalogVersion sc ≠ "" → R v x →
  plan_ok (failure_plan MatchString range ToolJSON ToolGo c sc candidates (id_of sc)
             (plan_version ToolJSON ToolGo c candidates (id_of sc) (CatalogVersion sc) v)).
Proof.
  intros Hf Hin Hv HR. exists sc, candidates, v, x.
  destruct (failure_plan_spec c sc candidates (id_of sc)
    (plan_version ToolJSON ToolGo c candidates (id_of sc) (CatalogVersion sc) v)) as (H1 & H2 & H3 & H4).
  rewrite H3, H4. split_and!; [done|done|done|by apply live_version|done|by right].
Qed.
End invariant.
End govern.
