(* ===== verification/McpCalls.v ===== *)
(** * MCP tool governance: requests, one after the other and interleaved

    The methods of the composite selector as programs of a pool.  For every
    interleaving of the requests of a pool a receipt is issued for a tool that
    the policy admits only; for requests that do not overlap, the cached
    decision is the one that the reference makes of the live catalog and the
    live claims. *)

From S2P Require Import Prelude GoStrings Sha256 Endpoint McpCatalog McpPolicy McpIdentity McpPlan McpSelector McpGovern.

#[local] Open Scope go_scope.

Section calls.
Context {regexp : Type} (MatchString : regexp → string → bool) (range : StringSet → list string).
Context (ToolJSON : ToolConfig → option string) (ToolGo : ToolConfig → string).
Context (c : CompositeSelector (regexp:=regexp)).
Implicit Types (sc : SelectionContext) (candidates : list ToolConfig).

(** ** Calls *)

Inductive call : Type :=
  | CallSelect sc candidates
  | CallAuthorize sc candidates
  | CallFailure sc candidates
  | CallRefresh (base : SessionPlanContext) candidates
  | CallFinalize (r : AuthorizationReceipt) (outcome : ReceiptOutcome)
  | CallActivate (sessionID : string) (generation : Z)
  | CallDeleteSession (sessionID : string)
  | CallSetMaxEntries (maxEntries : Z)
  | CallStop.

Inductive reply : Type :=
  | ReplyPlan (r : result select_error SelectionPlan)
  | ReplyRefresh (r : result select_error (option SelectionPlan))
  | ReplyReceipt (r : result plan_error AuthorizationReceipt)
  | ReplyCount (r : CallSuccessResult)
  | ReplyUnit.

Definition program (k : call) : prog reply :=
  match k with
  | CallSelect sc l => let* r := Select MatchString range ToolJSON ToolGo c sc l in Done (ReplyPlan r)
  | CallAuthorize sc l => let* r := AuthorizeCall MatchString range ToolJSON ToolGo c sc l in Done (ReplyReceipt r)
  | CallFailure sc l => let* r := HandleSelectionFailure MatchString range ToolJSON ToolGo c sc l in Done (ReplyPlan r)
  | CallRefresh base l => let* r := RefreshPlan MatchString range ToolJSON ToolGo c base l in Done (ReplyRefresh r)
  | CallFinalize r outcome => let* r := selector_FinalizeReceipt c r outcome in Done (ReplyCount r)
  | CallActivate id g => atomically (λ s, ((ActivateSession s id g).1, ReplyUnit))
  | CallDeleteSession id => atomically (λ s, (DeleteSession s id, ReplyUnit))
  | CallSetMaxEntries n => atomically (λ s, (SetMaxEntries s n, ReplyUnit))
  | CallStop => atomically (λ s, (store_Stop s, ReplyUnit))
  end.

(** The requests of a call, with their catalogs. *)
Definition request_of (k : call) : option (SelectionContext * list ToolConfig) :=
  match k with
  | CallSelect sc l | CallAuthorize sc l | CallFailure sc l => Some (sc, l)
  | CallRefresh base l => Some (pc_Context base, l)
  | _ => None
  end.

Definition requests_of (calls : list call) : list (SelectionContext * list ToolConfig) := omap request_of calls.

(** A tool that a request may use: it is in the live catalog, every rule of the
    policy that applies to the live claims admits it, and it is in the
    workflow that the claims select, or in the default bundle. *)
Definition may_use sc candidates (name : string) : Prop :=
  ∃ t, t ∈ candidates ∧ tool_Name t = name ∧ policy_ok MatchString c sc t ∧
    (¬ no_match MatchString c sc ∧ workflow_ok MatchString c sc t ∨ fallback_ok c t).

Lemma granted_may_use sc candidates x name :
  name ∈ map tool_Name (granted MatchString c sc candidates x) → may_use sc candidates name.
Proof.
  intros (t & -> & Ht)%list_elem_of_fmap. exists t. unfold granted, fallback_tools in Ht.
  case_decide as Hn; rewrite !list_elem_of_filter in Ht; naive_solver.
Qed.

Lemma fallback_may_use sc candidates name :
  name ∈ map tool_Name (fallback_tools MatchString c sc candidates) → may_use sc candidates name.
Proof.
  intros (t & -> & Ht)%list_elem_of_fmap. exists t. unfold fallback_tools in Ht.
  rewrite !list_elem_of_filter in Ht. naive_solver.
Qed.

(** ** Every interleaving *)

Context (Hrange : ∀ (s : StringSet) x, x ∈ range s ↔ x ∈ s).
Context (reqs : list (SelectionContext * list ToolConfig)).
Context (Hreqs : requests_ok ToolJSON ToolGo c reqs).

Definition any_state (v x : bool) : Prop := True.

Abbreviation inv := (governed MatchString ToolJSON ToolGo c reqs any_state true).
Abbreviation ok_plan := (plan_ok MatchString ToolJSON ToolGo c reqs any_state true).

(** What a method promises about the plan or the receipt it returns. *)
Definition plan_promise sc candidates (p : SelectionPlan) : Prop :=
  ∀ name, name ∈ plan_ToolNames p → may_use sc candidates name.

Definition receipt_promise sc candidates (r : AuthorizationReceipt) : Prop :=
  rcpt_ToolName r = Requested sc ∧ may_use sc candidates (Requested sc).

Lemma version_nonempty sc l : (sc, l) ∈ reqs → CatalogVersion sc ≠ "".
Proof. intros H. by destruct (Hreqs sc l sc l H H). Qed.

Lemma selector_version_ensures sc candidates id version (J : SessionPlanStore → Prop) :
  ensures J (selector_version ToolJSON ToolGo c candidates id (SessionID sc) version)
    (λ text, ∃ v, text = plan_version ToolJSON ToolGo c candidates id version v).
Proof. unfold selector_version. destruct (cs_progressive c); simpl; eauto. Qed.

Lemma names_promise sc candidates p (x : bool) :
  shows p (granted MatchString c sc candidates x) ∨ true = true ∧ shows p (fallback_tools MatchString c sc candidates) →
  plan_promise sc candidates p.
Proof.
  intros [[H _]|[_ [H _]]] name; rewrite H; [apply granted_may_use|apply fallback_may_use].
Qed.

Lemma commit_ensures key plan sc :
  ok_plan plan →
  ensures inv (commit_plan key plan sc)
    (λ r, match r with Ok p => plan_ToolNames p = plan_ToolNames plan | Err _ => True end).
Proof.
  intros Hp. apply ensures_atomically. intros s Hs.
  pose proof (step_governed MatchString ToolJSON ToolGo c reqs any_state true (OpCommit key (Some plan) sc) s) as Hg.
  simpl in Hg. specialize (Hg ltac:(naive_solver) Hs).
  destruct (Commit s key (Some plan) sc) as [s' [p|e]] eqn:E; simpl in *; [|done]. split; [done|].
  unfold Commit in E. destruct (validatePlanWrite _ _ _); [done|]. destruct (sessionActiveLocked s sc); [|done].
  by apply setLocked_ok in E as (e0 & _ & -> & _).
Qed.

Lemma store_Get_ok R f s key p :
  governed MatchString ToolJSON ToolGo c reqs R f s → store_Get s key = Some p →
  plan_ok MatchString ToolJSON ToolGo c reqs R f p.
Proof.
  intros Hs. unfold store_Get. destruct (key_valid key); [|done].
  destruct (entries s !! key) as [e|] eqn:Ee; [|done]. destruct (Hs _ _ Ee) as (q & Hq & Hok & _).
  rewrite Hq. simpl. intros [= <-]. exact Hok.
Qed.

Lemma Select_ensures sc candidates :
  (sc, candidates) ∈ reqs →
  ensures inv (Select MatchString range ToolJSON ToolGo c sc candidates)
    (λ r, match r with Ok p => plan_promise sc candidates p | Err _ => True end).
Proof.
  intros Hin. unfold Select. destruct (ClaimsFingerprint sc) as [id|] eqn:Hid; [|done].
  eapply ensures_bind; [apply selector_version_ensures|]. intros version (v & ->).
  eapply (ensures_bind _ _ _ (λ cached, match cached with Some p => plan_promise sc candidates p | None => True end)).
  { apply ensures_atomically. intros s Hs. split; [done|]. unfold cachedSelectionPlan. simpl.
    destruct (store_Get s _) as [p|] eqn:Eg; [|done]. case_decide as Ev; [|done].
    destruct (matching_version MatchString ToolJSON ToolGo c reqs any_state true sc candidates id p v) as
      (v' & x & _ & _ & Hn); [done|done|done|by eapply store_Get_ok|done|]. by eapply names_promise. }
  intros [p|] Hp; [done|]. eapply (ensures_bind _ _ _ (λ plan, ok_plan plan ∧ plan_promise sc candidates plan)).
  { apply computeSelectionPlan_eq. intros x. split.
    - apply plan_of_ok; try done. by eapply version_nonempty.
    - eapply names_promise. left. split; by apply plan_of_spec. }
  intros plan [Hok Hpr]. eapply ensures_weaken; [by apply commit_ensures|].
  intros [p|e]; [|done]. intros Hn name. rewrite Hn. apply Hpr.
Qed.

Lemma Failure_ensures sc candidates :
  (sc, candidates) ∈ reqs →
  ensures inv (HandleSelectionFailure MatchString range ToolJSON ToolGo c sc candidates)
    (λ r, match r with Ok p => plan_promise sc candidates p | Err _ => True end).
Proof.
  intros Hin. unfold HandleSelectionFailure. fold (id_of sc).
  eapply ensures_bind; [apply selector_version_ensures|]. intros version (v & ->).
  assert (ok_plan (failure_plan MatchString range ToolJSON ToolGo c sc candidates (id_of sc)
    (plan_version ToolJSON ToolGo c candidates (id_of sc) (CatalogVersion sc) v))) as Hok.
  { apply (failure_plan_ok MatchString range ToolJSON ToolGo Hrange c reqs any_state true sc candidates v true); try done.
    by eapply version_nonempty. }
  eapply ensures_weaken; [by apply commit_ensures|]. intros [p|e]; [|done]. intros Hn name. rewrite Hn.
  rewrite (proj1 (proj1 (failure_plan_spec MatchString range ToolJSON ToolGo Hrange c sc candidates _ _))).
  apply fallback_may_use.
Qed.

Lemma Refresh_ensures base candidates :
  (pc_Context base, candidates) ∈ reqs →
  ensures inv (RefreshPlan MatchString range ToolJSON ToolGo c base candidates) (λ _, True).
Proof.
  intros Hin. unfold RefreshPlan. destruct (ClaimsFingerprint _) as [id|] eqn:Hid; [|done].
  eapply ensures_bind; [apply selector_version_ensures|]. intros version (v & ->).
  eapply (ensures_bind _ _ _ ok_plan).
  { apply computeSelectionPlan_eq. intros x. apply plan_of_ok; try done. by eapply version_nonempty. }
  intros plan Hok. apply ensures_atomically. intros s Hs.
  pose proof (step_governed MatchString ToolJSON ToolGo c reqs any_state true (OpSetIfCurrent base plan) s) as Hg.
  simpl in Hg. specialize (Hg ltac:(naive_solver) Hs). by destruct (SetIfCurrent s base plan).
Qed.

Lemma issue_promise R f s req s' r :
  governed MatchString ToolJSON ToolGo c reqs R f s → IssueReceiptForVersion s req = (s', Ok (Some r)) →
  ∃ p, plan_ok MatchString ToolJSON ToolGo c reqs R f p ∧ rv_Requested req ∈ plan_ToolNames p ∧
       plan_Version p = rv_ExpectedVersion req ∧ rcpt_ToolName r = rv_Requested req.
Proof.
  intros Hs. unfold IssueReceiptForVersion. case_decide; [done|].
  destruct (entries s !! _) as [e|] eqn:Ee; [|done]. destruct (Hs _ _ Ee) as (p & Hp & Hok & _ & _ & Hset).
  rewrite Hp. case_decide as Hm; [done|]. destruct (plan_Contains p _) eqn:Ec; [|done].
  intros [= <- <-]. exists p. split_and!; [done|by apply plan_Contains_spec| |done].
  destruct (decide (plan_Version p = rv_ExpectedVersion req)); tauto.
Qed.

Lemma commit_issue_promise s key plan sc requested routerID s' q r :
  CommitAndIssueReceipt s key (Some plan) sc requested routerID = (s', Ok (q, r)) →
  rcpt_ToolName r = requested ∧ requested ∈ plan_ToolNames plan.
Proof.
  unfold CommitAndIssueReceipt. destruct (validatePlanWrite _ _ _); [done|]. case_decide; [done|].
  destruct (sessionActiveLocked s sc); [|done]. simpl.
  destruct (setLocked s key (clonePlan plan false) sc true) as [s1 [q1|e]] eqn:E; [|done].
  apply setLocked_ok in E as (e0 & -> & _ & _). simpl. rewrite lookup_insert_eq. simpl.
  destruct (plan_Contains _ requested) eqn:Ec; [|done]. intros [= <- <- <-]. split; [done|].
  by apply plan_Contains_spec in Ec.
Qed.

Lemma Authorize_ensures sc candidates :
  (sc, candidates) ∈ reqs →
  ensures inv (AuthorizeCall MatchString range ToolJSON ToolGo c sc candidates)
    (λ r, match r with Ok r => receipt_promise sc candidates r | Err _ => True end).
Proof.
  intros Hin. unfold AuthorizeCall. destruct (ClaimsFingerprint sc) as [id|] eqn:Hid; [|done].
  pose proof (version_nonempty _ _ Hin) as Hv. rewrite live_version by done.
  eapply ensures_bind; [apply selector_version_ensures|]. intros version (v & ->).
  eapply (ensures_bind _ _ _ (λ r, match r with Ok (Some r) => receipt_promise sc candidates r | _ => True end)).
  { apply ensures_atomically. intros s Hs. split; [by eapply changes_preserve; [|exact Hs|apply changes_one, (issue_change OpStop)];
      intros; eapply change_governed; try done|].
    destruct (IssueReceiptForVersion s _) as [s' [[r|]|e]] eqn:E; simpl; [|done..].
    eapply issue_promise in E as (p & Hok & Hn & Hpv & Hr); [|done]. simpl in *.
    destruct (matching_version MatchString ToolJSON ToolGo c reqs any_state true sc candidates id p v) as
      (v' & x & _ & _ & Hnames); [done..|]. split; [done|]. by eapply names_promise. }
  intros [[r|]|e] Hr; [done| |done]. unfold recomputeAndIssueReceipt.
  eapply (ensures_bind _ _ _ (λ r, match r with Ok r => receipt_promise sc candidates r | Err _ => True end)); [|by intros [r|]].
  eapply (ensures_bind _ _ _ (λ plan, ok_plan plan ∧ plan_promise sc candidates plan)).
  { apply computeSelectionPlan_eq. intros x. split; [by apply plan_of_ok|].
    eapply names_promise. left. split; by apply plan_of_spec. }
  intros plan [Hok Hpr]. apply ensures_atomically. intros s Hs.
  pose proof (step_governed MatchString ToolJSON ToolGo c reqs any_state true
    (OpCommitAndIssue (planKey c (SessionID sc)) (Some plan) sc (Requested sc) (cs_routerID c)) s) as Hg.
  simpl in Hg. specialize (Hg ltac:(naive_solver) Hs).
  destruct (CommitAndIssueReceipt s _ _ _ _ _) as [s' [[q r]|e]] eqn:E; simpl in *; [|done]. split; [done|].
  apply commit_issue_promise in E as [Hn Hin']. split; [done|]. by apply Hpr.
Qed.

(** The promises of a call. *)
Definition promise (k : call) (r : reply) : Prop :=
  match k, r with
  | CallAuthorize sc l, ReplyReceipt (Ok r) => receipt_promise sc l r
  | (CallSelect sc l | CallFailure sc l), ReplyPlan (Ok p) => plan_promise sc l p
  | _, _ => True
  end.

Lemma program_ensures k :
  (∀ req, request_of k = Some req → req ∈ reqs) → ensures inv (program k) (promise k).
Proof.
  intros Hk. destruct k; simpl.
  - eapply ensures_bind; [apply Select_ensures; auto|]. by intros [p|e].
  - eapply ensures_bind; [apply Authorize_ensures; auto|]. by intros [p|e].
  - eapply ensures_bind; [apply Failure_ensures; auto|]. by intros [p|e].
  - eapply ensures_bind; [apply Refresh_ensures; auto|]. by intros [p|e].
  - intros s Hs. pose proof (step_governed MatchString ToolJSON ToolGo c reqs any_state true
      (OpFinalize r outcome (from_option pg_expandAfter 0%Z (cs_progressive c))) s) as Hg.
    simpl in Hg. specialize (Hg ltac:(done) Hs). by destruct (FinalizeReceipt s r outcome _).
  - intros s Hs. split; [|done]. apply (step_governed _ _ _ _ _ _ _ (OpActivate sessionID generation)); [done|exact Hs].
  - intros s Hs. split; [|done]. apply (step_governed _ _ _ _ _ _ _ (OpDeleteSession sessionID)); [done|exact Hs].
  - intros s Hs. split; [|done]. apply (step_governed _ _ _ _ _ _ _ (OpSetMaxEntries maxEntries)); [done|exact Hs].
  - intros s Hs. split; [|done]. apply (step_governed _ _ _ _ _ _ _ OpStop); [done|exact Hs].
Qed.

(** ** Pools *)

Definition pool : Type := SessionPlanStore * list (prog reply).

(** Some program of the pool does its next store operation. *)
Inductive pool_step : pool → pool → Prop :=
  | PoolStep s ps i f : ps !! i = Some (Step f) → pool_step (s, ps) ((f s).1, <[i := (f s).2]> ps).

Definition pool_ok (calls : list call) (q : pool) : Prop :=
  inv q.1 ∧ Forall2 (λ k p, ensures inv p (promise k)) calls q.2.

Lemma pool_step_ok calls q q' : pool_step q q' → pool_ok calls q → pool_ok calls q'.
Proof.
  intros [s ps i f Hi] [Hs Hp]. simpl in *. destruct (Forall2_lookup_r _ _ _ _ _ Hp Hi) as (k & Hk & Hf).
  destruct (Hf s Hs) as [Hs' Hf']. split; [done|]. simpl.
  rewrite <- (list_insert_id calls i k Hk). by apply Forall2_insert.
Qed.
End calls.


(** ** Schedules

    A schedule names, step by step, the program that goes next. *)

Fixpoint pool_exec (schedule : list nat) (q : pool) : pool :=
  match schedule with
  | [] => q
  | i :: schedule =>
      match q.2 !! i with
      | Some (Step f) => pool_exec schedule ((f q.1).1, <[i := (f q.1).2]> q.2)
      | _ => pool_exec schedule q
      end
  end.

Lemma pool_exec_steps schedule q : rtc pool_step q (pool_exec schedule q).
Proof.
  revert q. induction schedule as [|i schedule IH]; intros [s ps]; simpl; [constructor|].
  destruct (ps !! i) as [[a|f]|] eqn:E; [apply IH| |apply IH].
  eapply rtc_l; [by apply PoolStep|]. apply IH.
Qed.

(** The answers of a pool. *)
Definition answer (p : prog reply) : option reply := match p with Done r => Some r | Step _ => None end.

Lemma answered (ps : list (prog reply)) i a : ps !! i ≫= answer = Some a → ps !! i = Some (Done a).
Proof. destruct (ps !! i) as [[b|f]|]; simpl; [by intros [= ->]|done|done]. Qed.

(** Requests that differ in the session, the method and the requested tool only. *)
Lemma requests_ok_uniform {regexp : Type} ToolJSON ToolGo (c : CompositeSelector (regexp:=regexp)) reqs sc0 l :
  (∀ sc l', (sc, l') ∈ reqs → l' = l ∧ UserID sc = UserID sc0 ∧ Tenant sc = Tenant sc0 ∧
            Claims sc = Claims sc0 ∧ CatalogVersion sc = CatalogVersion sc0) →
  CatalogVersion sc0 ≠ "" → Strings.HasByte nul (CatalogVersion sc0) = false → nul_free sc0 →
  (∀ v1 v2, let text v := version_text ToolJSON ToolGo c l (id_of sc0) (CatalogVersion sc0) v in
            SumShort (text v1) 16 = SumShort (text v2) 16 → text v1 = text v2) →
  requests_ok ToolJSON ToolGo c reqs.
Proof.
  intros Hu Hv Hn Hnf Ht sc1 l1 sc2 l2 H1 H2.
  destruct (Hu _ _ H1) as (-> & U1 & T1 & C1 & V1), (Hu _ _ H2) as (-> & U2 & T2 & C2 & V2).
  assert (∀ sc, UserID sc = UserID sc0 → Tenant sc = Tenant sc0 → Claims sc = Claims sc0 →
    identity_text sc = identity_text sc0) as Hi by (intros [] ???; destruct sc0; simpl in *; by subst).
  pose proof (Hi _ U1 T1 C1) as I1. pose proof (Hi _ U2 T2 C2) as I2.
  assert (id_of sc1 = id_of sc0 ∧ id_of sc2 = id_of sc0) as [-> ->].
  { unfold id_of, ClaimsFingerprint. by rewrite I1, I2. }
  rewrite V1, V2, I1, I2. split_and!; [done|done| | |done|congruence|apply Ht].
  - unfold nul_free in *. by rewrite U1, T1, C1.
  - intros k c1 c2. rewrite C1, C2. congruence.
Qed.

(** ** A small configuration *)

Module mcp_sample.

Definition MatchString (re : string) (s : string) : bool := bool_decide (re = s).
Definition range (s : StringSet) : list string := elements s.
Definition ToolJSON (t : ToolConfig) : option string := None.
Definition ToolGo (t : ToolConfig) : string := tool_Name t.

Lemma range_ok (s : StringSet) x : x ∈ range s ↔ x ∈ s.
Proof. apply elem_of_elements. Qed.

Definition tool (name : string) (tags : list string) : ToolConfig :=
  mkToolConfig name "" "backend" "" (mkRequestConfig "GET" "/" ∅ "30s") [] (Some (mkToolMeta tags "" None)).

Definition catalog : list ToolConfig := [tool "read" ["safe"]; tool "write" ["safe"]; tool "drop" ["danger"]].

Definition always : matcher (regexp:=string) := mkMatcher (mkPolicyMatch "" "" [] "" "") None.

(** No dangerous tool for anybody. *)
Definition policy : list compiledRule := [mkCompiledRule "no-danger" always ∅ {["danger"]} 0].

Definition start : compiledWorkflow := mkCompiledWorkflow "start" always {["read"]} false.
Definition bundles : WorkflowSelector := mkWorkflowSelector [start] {["start" := start]}.

(** The bundle [start] first, everything after one successful call. *)
Definition selector : CompositeSelector (regexp:=string) :=
  let gate := mkProgressiveGate (Some bundles) "start" 1 in
  mkCompositeSelector (Some policy) None (Some gate) (Some bundles) "router-1" FallbackFailClosed "" "cfg"
    (progressiveConfigHash (Some gate)) (λ _, "").

(** A request of a user of the session [s1]. *)
Definition request (user requested version : string) : SelectionContext :=
  mkSelectionContext "s1" 1 "tools/call" user "" ∅ requested version.

Definition start_pool (calls : list call) : pool :=
  (NewSessionPlanStoreWithMaxEntries 0, map (program MatchString range ToolJSON ToolGo selector) calls).

(** A session is activated, lists its tools and calls one of them; the three
    programs take their steps in this order. *)
Definition calls : list call :=
  [CallActivate "s1" 1; CallSelect (request "alice" "" "1") catalog; CallAuthorize (request "alice" "read" "1") catalog].

Definition schedule : list nat := [0; 1; 1; 1; 1; 2; 2].

Lemma versions_differ :
  bool_decide
    (SumShort (version_text ToolJSON ToolGo selector catalog (id_of (request "alice" "" "1")) "1" true) 16 =
     SumShort (version_text ToolJSON ToolGo selector catalog (id_of (request "alice" "" "1")) "1" false) 16) = false.
Proof. vm_compute. reflexivity. Qed.

Lemma alice_requests_ok reqs :
  (∀ sc l, (sc, l) ∈ reqs → l = catalog ∧ ∃ requested, sc = request "alice" requested "1") →
  requests_ok ToolJSON ToolGo selector reqs.
Proof.
  intros Hreqs. apply (requests_ok_uniform _ _ _ _ (request "alice" "" "1") catalog).
  - intros sc l [-> [requested ->]]%Hreqs. done.
  - done.
  - reflexivity.
  - split_and!; [reflexivity|reflexivity|]. intros k cl Hk. simpl in Hk. by rewrite lookup_empty in Hk.
  - pose proof (proj1 (bool_decide_eq_false _) versions_differ) as Hd.
    intros [] []; [exact (λ _, eq_refl)| | |exact (λ _, eq_refl)]; cbv zeta; intros E; exfalso; apply Hd; [|symmetry]; exact E.
Qed.

Lemma requests_calls_ok : requests_ok ToolJSON ToolGo selector (requests_of calls).
Proof.
  apply alice_requests_ok. intros sc l. simpl. rewrite !elem_of_cons, elem_of_nil.
  intros [[= -> ->]|[[= -> ->]|[]]]; eauto.
Qed.

Definition receipt : AuthorizationReceipt :=
  Eval vm_compute in
    match (pool_exec schedule (start_pool calls)).2 !! 2 ≫= answer with
    | Some (ReplyReceipt (Ok r)) => r
    | _ => mkAuthorizationReceipt "" "" "" 0 "" "" "" "" 0 None
    end.

Lemma calls_answer :
  (pool_exec schedule (start_pool calls)).2 !! 2 ≫= answer = Some (ReplyReceipt (Ok receipt)).
Proof. vm_compute. reflexivity. Qed.

End mcp_sample.


(** ** A race *)
Module mcp_race.
Import mcp_sample.

Definition spent : AuthorizationReceipt := receipt.

Definition calls : list call :=
  [CallActivate "s1" 1;
   CallSelect (request "alice" "" "1") catalog;
   CallAuthorize (request "alice" "read" "1") catalog;
   CallSelect (request "alice" "" "2") catalog;
   CallFinalize spent ReceiptSucceeded;
   CallSelect (request "bob" "" "2") catalog;
   CallAuthorize (request "alice" "write" "2") catalog].

Definition schedule : list nat :=
  [0; 1; 1; 1; 1; 2; 2; 3; 3; 4; 3; 5; 5; 5; 5; 3; 6; 6].

Definition final : pool := pool_exec schedule (start_pool calls).

Definition got_write : bool :=
  match final.2 !! 6 ≫= answer with
  | Some (ReplyReceipt (Ok r)) => bool_decide (rcpt_ToolName r = "write")
  | _ => false
  end.

Definition unexpanded : bool :=
  bool_decide (CallState final.1 (planKey selector "s1") (id_of (request "alice" "" "2")) (cs_progressiveHash selector)
               = (0%Z, false)).

End mcp_race.

(** A race that keeps a reset from taking effect.  One successful call expands
    the session of alice.  A listing of hers that had read the state before sees
    the expanded state when it computes its tools, and commits after a request
    of bob reset the session's progress.  The plan it leaves authorizes all
    tools under the version of an unexpanded session, so that the next call of
    alice gets a receipt for a tool outside of the initial bundle, although the
    session has no successful call to its credit. *)
Theorem expansion_reset_race :
  rtc pool_step (mcp_sample.start_pool mcp_race.calls) mcp_race.final ∧
  mcp_race.got_write = true ∧ mcp_race.unexpanded = true ∧
  "write" ∉ map tool_Name (granted mcp_sample.MatchString mcp_sample.selector
                             (mcp_sample.request "alice" "write" "2") mcp_sample.catalog false).
Proof.
  split; [apply pool_exec_steps|]. split; [vm_compute; reflexivity|]. split; [vm_compute; reflexivity|].
  apply (bool_decide_eq_false_1 ("write" ∈ _)). vm_compute. reflexivity.
Qed.
