(* ===== verification/McpSequential.v ===== *)
(** * MCP tool governance: requests that do not overlap

    When the methods of the selector run one after the other, a cached plan is
    as good as a computed one: what [Select] returns and what [AuthorizeCall]
    decides is what the reference grants to the live claims, the live catalog
    and the present progressive state. *)

From S2P Require Import Prelude GoStrings Sha256 Endpoint McpCatalog McpPolicy McpIdentity McpPlan McpSelector McpGovern.
From S2P Require Import McpCalls.

(** ** The store's side *)

Section store.
Implicit Types (s : SessionPlanStore) (key : PlanKey) (plan : SelectionPlan) (sc : SelectionContext).

Lemma Commit_accepts s key plan sc :
  key_valid key = true → plan_SessionID plan = key_SessionID key → SessionID sc = key_SessionID key →
  sessionActiveLocked s sc = true →
  (is_Some (entries s !! key) ∨ (Z.of_nat (size (entries s)) < store_max s)%Z) →
  ∃ s' p, Commit s key (Some plan) sc = (s', Ok p) ∧
    plan_ToolNames p = plan_ToolNames plan ∧ VisibleNames p = VisibleNames plan.
Proof.
  intros Hk Hp Hs Ha Hroom. unfold Commit. simpl.
  assert (validatePlanWrite key (Some (clonePlan plan false)) sc = None) as ->.
  { unfold validatePlanWrite. rewrite Hk. simpl. by rewrite !decide_False by naive_solver. }
  rewrite Ha. unfold setLocked. destruct (entries s !! key) as [e|]; [by eauto 6|].
  destruct Hroom as [[? ?]|Hroom]; [done|]. rewrite decide_False by lia. eauto 6.
Qed.

Lemma cachedSelectionPlan_Some s key version p :
  cachedSelectionPlan s key version = Some p → store_Get s key = Some p ∧ plan_Version p = version.
Proof. unfold cachedSelectionPlan. destruct (store_Get s key); [|done]. case_decide; naive_solver. Qed.

Lemma Commit_shows s key plan sc s' q tools :
  Commit s key (Some plan) sc = (s', Ok q) → shows plan tools → shows q tools.
Proof.
  unfold Commit. destruct (validatePlanWrite _ _ _); [done|]. destruct (sessionActiveLocked s sc); [|done].
  by intros (e0 & _ & -> & _)%setLocked_ok.
Qed.

(** Committing a computed plan over a present entry, and issuing from it. *)
Lemma commit_issue_run s sc plan routerID key tools :
  key_valid key = true → plan_SessionID plan = key_SessionID key → SessionID sc = key_SessionID key →
  sessionActiveLocked s sc = true → is_Some (entries s !! key) → Requested sc ≠ "" → shows plan tools →
  (∃ q r, (CommitAndIssueReceipt s key (Some plan) sc (Requested sc) routerID).2 = Ok (q, r)) ↔
  Requested sc ∈ map tool_Name tools.
Proof.
  intros Hk Hp Hsid Ha [e He] Hr [Hn _]. unfold CommitAndIssueReceipt. simpl.
  assert (validatePlanWrite key (Some (clonePlan plan false)) sc = None) as ->.
  { unfold validatePlanWrite. rewrite Hk. simpl. by rewrite !decide_False by naive_solver. }
  rewrite decide_False by done. rewrite Ha. simpl. unfold setLocked. rewrite He. simpl.
  rewrite lookup_insert_eq. simpl.
  set (p := stored_plan _ _ _ _).
  assert (plan_Contains p (Requested sc) = true ↔ Requested sc ∈ map tool_Name tools) as Hc.
  { rewrite plan_Contains_spec by done. simpl. by rewrite Hn. }
  destruct (plan_Contains p (Requested sc)); simpl; [naive_solver|]. split; [by intros (? & ? & ?)|naive_solver].
Qed.

Lemma issue_stale s req s1 : IssueReceiptForVersion s req = (s1, Ok None) → s1 = s.
Proof.
  unfold IssueReceiptForVersion. case_decide; [done|]. destruct (entries s !! _) as [e|]; [|done].
  destruct (e_plan e) as [p|]; [|done]. case_decide; [naive_solver|]. by destruct (plan_Contains p _).
Qed.
End store.

Section sequential.
Context {regexp : Type} (MatchString : regexp → string → bool) (range : StringSet → list string).
Context (ToolJSON : ToolConfig → option string) (ToolGo : ToolConfig → string).
Context (c : CompositeSelector (regexp:=regexp)).
Implicit Types (sc : SelectionContext) (candidates : list ToolConfig) (s : SessionPlanStore).

(** The progressive state that a request finds. *)
Definition expanded_for s sc (identityHash : string) : bool :=
  (CallState s (planKey c (SessionID sc)) identityHash (cs_progressiveHash c)).2.

(** ** Runs of the methods *)

Lemma selector_version_run s sc candidates identityHash version :
  run (selector_version ToolJSON ToolGo c candidates identityHash (SessionID sc) version) s =
    (s, plan_version ToolJSON ToolGo c candidates identityHash version (expanded_for s sc identityHash)).
Proof.
  unfold selector_version, plan_version, version_text. by destruct (cs_progressive c).
Qed.

Lemma Select_run s sc candidates id :
  ClaimsFingerprint sc = Ok id →
  let key := planKey c (SessionID sc) in
  let x := expanded_for s sc id in
  let version := plan_version ToolJSON ToolGo c candidates id (CatalogVersion sc) x in
  run (Select MatchString range ToolJSON ToolGo c sc candidates) s =
    match cachedSelectionPlan s key version with
    | Some p => (s, Ok p)
    | None =>
        let '(s, r) := Commit s key (Some (plan_of MatchString range ToolJSON ToolGo c sc candidates id version x)) sc in
        (s, match r with Ok p => Ok p | Err e => Err (SelectPlan e) end)
    end.
Proof.
  intros Hid. cbv zeta. unfold Select. rewrite Hid, run_bind, selector_version_run. simpl.
  destruct (cachedSelectionPlan s _ _); [done|].
  rewrite run_bind, computeSelectionPlan_run. simpl. by destruct (Commit s _ _ sc).
Qed.

Lemma AuthorizeCall_run s sc candidates id :
  ClaimsFingerprint sc = Ok id → CatalogVersion sc ≠ "" →
  let key := planKey c (SessionID sc) in
  let x := expanded_for s sc id in
  let version := plan_version ToolJSON ToolGo c candidates id (CatalogVersion sc) x in
  run (AuthorizeCall MatchString range ToolJSON ToolGo c sc candidates) s =
    match IssueReceiptForVersion s (version_request ToolJSON ToolGo c sc candidates id version) with
    | (s1, Ok (Some r)) => (s1, Ok r)
    | (s1, Err _) => (s1, Err ErrToolNotAuthorized)
    | (s1, Ok None) =>
        let x1 := expanded_for s1 sc id in
        match CommitAndIssueReceipt s1 key (Some (plan_of MatchString range ToolJSON ToolGo c sc candidates id version x1))
                sc (Requested sc) (cs_routerID c) with
        | (s2, Ok (_, r)) => (s2, Ok r)
        | (s2, Err _) => (s2, Err ErrToolNotAuthorized)
        end
    end.
Proof.
  intros Hid Hv. cbv zeta. unfold AuthorizeCall. rewrite Hid, live_version by done.
  rewrite run_bind, selector_version_run. cbn [fst snd]. rewrite run_bind, run_atomically.
  destruct (IssueReceiptForVersion s _) as [s1 [[r|]|e]]; [done| |done]. cbn [fst snd].
  unfold recomputeAndIssueReceipt. rewrite !run_bind, computeSelectionPlan_run, run_atomically. cbn [fst snd].
  fold (expanded_for s1 sc id). by destruct (CommitAndIssueReceipt s1 _ _ _ _ _) as [s2 [[q r]|e]].
Qed.

(** ** The invariant of uninterrupted runs *)

Context (Hrange : ∀ (s : StringSet) x, x ∈ range s ↔ x ∈ s).
Context (reqs : list (SelectionContext * list ToolConfig)).
Context (Hreqs : requests_ok ToolJSON ToolGo c reqs).

Abbreviation inv := (governed MatchString ToolJSON ToolGo c reqs eq false).
Abbreviation ok_plan := (plan_ok MatchString ToolJSON ToolGo c reqs eq false).

(** Without a gate the progressive state does not matter. *)
Lemma granted_flag sc candidates (x y : bool) :
  (is_Some (cs_progressive c) → x = y) → granted MatchString c sc candidates x = granted MatchString c sc candidates y.
Proof.
  intros H. destruct (cs_progressive c) as [g|] eqn:E; [by rewrite H by eauto|].
  unfold granted. case_decide; [done|]. apply list_filter_ext_elem. intros t _. unfold gate_ok. by rewrite E.
Qed.

Lemma current_plan sc candidates id p x :
  (sc, candidates) ∈ reqs → ClaimsFingerprint sc = Ok id → ok_plan p →
  plan_Version p = plan_version ToolJSON ToolGo c candidates id (CatalogVersion sc) x →
  shows p (granted MatchString c sc candidates x).
Proof.
  intros Hin Hid Hok Hv.
  destruct (matching_version MatchString ToolJSON ToolGo c reqs eq false sc candidates id p x) as
    (v & y & -> & Hy & [Hs|[? _]]); [done..| |done].
  by rewrite (granted_flag sc candidates y x Hy) in Hs.
Qed.

Lemma plan_of_shows sc candidates id version x :
  shows (plan_of MatchString range ToolJSON ToolGo c sc candidates id version x) (granted MatchString c sc candidates x).
Proof. split; by apply plan_of_spec. Qed.

Lemma plan_of_ok_seq sc candidates id x :
  (sc, candidates) ∈ reqs → ClaimsFingerprint sc = Ok id →
  ok_plan (plan_of MatchString range ToolJSON ToolGo c sc candidates id
    (plan_version ToolJSON ToolGo c candidates id (CatalogVersion sc) x) x).
Proof. intros Hin Hid. apply plan_of_ok; try done. by eapply version_nonempty. Qed.

(** ** [Select] *)

Lemma Select_seq s sc candidates id :
  inv s → (sc, candidates) ∈ reqs → ClaimsFingerprint sc = Ok id →
  inv (run (Select MatchString range ToolJSON ToolGo c sc candidates) s).1 ∧
  ∀ p, (run (Select MatchString range ToolJSON ToolGo c sc candidates) s).2 = Ok p →
       shows p (granted MatchString c sc candidates (expanded_for s sc id)).
Proof.
  intros Hs Hin Hid. rewrite (Select_run s sc candidates id Hid). cbv zeta.
  destruct (cachedSelectionPlan s _ _) as [p|] eqn:E.
  - apply cachedSelectionPlan_Some in E as [Eg Ev]. split; [done|]. intros q [= <-].
    eapply current_plan; try done. by eapply store_Get_ok.
  - set (plan := plan_of _ _ _ _ _ _ _ _ _ _).
    assert (ok_plan plan) as Hok by by apply plan_of_ok_seq.
    pose proof (step_governed MatchString ToolJSON ToolGo c reqs eq false
      (OpCommit (planKey c (SessionID sc)) (Some plan) sc) s ltac:(simpl; naive_solver) Hs) as Hg. simpl in Hg.
    destruct (Commit s _ _ sc) as [s' [q|e]] eqn:Ec; simpl in *; (split; [done|]); [|done].
    intros q' [= <-]. eapply Commit_shows; [exact Ec|]. apply plan_of_shows.
Qed.

(** ** [AuthorizeCall] *)

Lemma plan_version_not_empty candidates id version x : plan_version ToolJSON ToolGo c candidates id version x ≠ "".
Proof. unfold plan_version. by destruct (cs_configHash c). Qed.

Lemma Authorize_seq s sc candidates id :
  inv s → (sc, candidates) ∈ reqs → ClaimsFingerprint sc = Ok id →
  key_valid (planKey c (SessionID sc)) = true → is_Some (entries s !! planKey c (SessionID sc)) →
  sessionActiveLocked s sc = true → Requested sc ≠ "" →
  (∃ r, (run (AuthorizeCall MatchString range ToolJSON ToolGo c sc candidates) s).2 = Ok r) ↔
  Requested sc ∈ map tool_Name (granted MatchString c sc candidates (expanded_for s sc id)).
Proof.
  intros Hs Hin Hid Hk [e He] Ha Hr. pose proof (version_nonempty _ _ _ _ Hreqs _ _ Hin) as Hcv.
  rewrite (AuthorizeCall_run s sc candidates id Hid Hcv). cbv zeta.
  unfold IssueReceiptForVersion. simpl rv_Key. simpl rv_Requested. simpl rv_ExpectedVersion.
  rewrite decide_False by (rewrite Hk; pose proof (plan_version_not_empty candidates id (CatalogVersion sc) (expanded_for s sc id)); naive_solver).
  rewrite He. destruct (Hs _ _ He) as (p & Hp & Hok & Hi & Hc & Hset). rewrite Hp. simpl.
  case_decide as Hm.
  - destruct (plan_of_fields MatchString range ToolJSON ToolGo c sc candidates id
      (plan_version ToolJSON ToolGo c candidates id (CatalogVersion sc) (expanded_for s sc id)) (expanded_for s sc id))
      as (Hsid & _).
    rewrite <- (commit_issue_run s sc _ (cs_routerID c) (planKey c (SessionID sc)) _ Hk Hsid eq_refl Ha
      ltac:(eauto) Hr (plan_of_shows sc candidates id _ _)).
    destruct (CommitAndIssueReceipt s _ _ _ _ _) as [s2 [[q r]|err]]; simpl; naive_solver.
  - assert (shows p (granted MatchString c sc candidates (expanded_for s sc id))) as [Hn _].
    { eapply current_plan; try done. destruct (decide (plan_Version p =
        plan_version ToolJSON ToolGo c candidates id (CatalogVersion sc) (expanded_for s sc id))); tauto. }
    rewrite <- Hn, <- (plan_Contains_spec p) by done. destruct (plan_Contains p (Requested sc)); simpl; naive_solver.
Qed.

(** ** Histories *)

Lemma Authorize_inv s sc candidates :
  inv s → (sc, candidates) ∈ reqs → inv (run (AuthorizeCall MatchString range ToolJSON ToolGo c sc candidates) s).1.
Proof.
  intros Hs Hin. destruct (ClaimsFingerprint sc) as [id|e] eqn:Hid.
  2: { unfold AuthorizeCall. by rewrite Hid. }
  rewrite (AuthorizeCall_run s sc candidates id Hid) by (by eapply version_nonempty). cbv zeta.
  pose proof (step_governed MatchString ToolJSON ToolGo c reqs eq false
    (OpIssueForVersion (version_request ToolJSON ToolGo c sc candidates id (plan_version ToolJSON ToolGo c candidates id
       (CatalogVersion sc) (expanded_for s sc id)))) s ltac:(done) Hs) as Hg. simpl in Hg.
  destruct (IssueReceiptForVersion s _) as [s1 [[r|]|e]] eqn:E; [done| |done].
  apply issue_stale in E as ->.
  set (plan := plan_of _ _ _ _ _ _ _ _ _ _).
  assert (ok_plan plan) as Hok by by apply plan_of_ok_seq.
  pose proof (step_governed MatchString ToolJSON ToolGo c reqs eq false
    (OpCommitAndIssue (planKey c (SessionID sc)) (Some plan) sc (Requested sc) (cs_routerID c)) s
    ltac:(simpl; naive_solver) Hs) as Hg2. simpl in Hg2.
  by destruct (CommitAndIssueReceipt s _ _ _ _ _) as [s2 [[q r]|e]].
Qed.

Lemma Refresh_inv s base candidates :
  inv s → (pc_Context base, candidates) ∈ reqs → pc_Key base = planKey c (SessionID (pc_Context base)) →
  inv (run (RefreshPlan MatchString range ToolJSON ToolGo c base candidates) s).1.
Proof.
  intros Hs Hin Hkey. unfold RefreshPlan. destruct (ClaimsFingerprint _) as [id|e] eqn:Hid; [|done].
  rewrite run_bind, selector_version_run. cbn [fst snd].
  rewrite run_bind, computeSelectionPlan_run, run_atomically. cbn [fst snd]. rewrite Hkey.
  set (plan := plan_of _ _ _ _ _ _ _ _ _ _).
  assert (ok_plan plan) as Hok by by apply plan_of_ok_seq.
  pose proof (step_governed MatchString ToolJSON ToolGo c reqs eq false (OpSetIfCurrent base plan) s
    ltac:(simpl; naive_solver) Hs) as Hg. simpl in Hg. by destruct (SetIfCurrent s base plan).
Qed.

(** The contexts of refreshes come from the store; failed selections are left
    out, since their plans are fallbacks. *)
Definition proper_call (k : call) : Prop :=
  match k with
  | CallFailure _ _ => False
  | CallRefresh base _ => pc_Key base = planKey c (SessionID (pc_Context base))
  | _ => True
  end.

Definition serve s (k : call) : SessionPlanStore := (run (program MatchString range ToolJSON ToolGo c k) s).1.

Lemma serve_inv s k :
  proper_call k → (∀ req, request_of k = Some req → req ∈ reqs) → inv s → inv (serve s k).
Proof.
  intros Hk Hreq Hs. unfold serve. destruct k; simpl program; try (rewrite run_bind; cbn [run fst]); simpl in *.
  - destruct (ClaimsFingerprint sc) as [id|e] eqn:Hid; [|unfold Select; by rewrite Hid].
    apply (Select_seq s sc candidates id); auto.
  - apply Authorize_inv; auto.
  - done.
  - apply Refresh_inv; auto.
  - pose proof (step_governed MatchString ToolJSON ToolGo c reqs eq false
      (OpFinalize r outcome (from_option pg_expandAfter 0%Z (cs_progressive c))) s ltac:(done) Hs) as Hg.
    simpl in Hg. by destruct (FinalizeReceipt s r outcome _).
  - apply (step_governed _ _ _ _ _ _ _ (OpActivate sessionID generation)); [done|exact Hs].
  - apply (step_governed _ _ _ _ _ _ _ (OpDeleteSession sessionID)); [done|exact Hs].
  - apply (step_governed _ _ _ _ _ _ _ (OpSetMaxEntries maxEntries)); [done|exact Hs].
  - apply (step_governed _ _ _ _ _ _ _ OpStop); [done|exact Hs].
Qed.

Lemma serve_all_inv calls s :
  Forall proper_call calls → (∀ req, req ∈ requests_of calls → req ∈ reqs) → inv s → inv (foldl serve s calls).
Proof.
  intros Hp. revert s. induction Hp as [|k calls Hk _ IH]; intros s Hreq Hs; [done|]. simpl. apply IH.
  - intros req Hin. apply Hreq. unfold requests_of. simpl. destruct (request_of k); [by constructor|done].
  - apply serve_inv; [done| |done]. intros req Hr. apply Hreq. unfold requests_of. simpl. rewrite Hr. constructor.
Qed.
End sequential.

(** [Select] after any sequence of calls: the plan it returns, cached or not,
    authorizes exactly the tools that the reference grants to the live claims
    and catalog in the present progressive state, in catalog order, and shows
    exactly those of them that may be discovered; and it does return a plan
    when the session is active and the store has a plan for it or room for
    one. *)
Theorem select_is_reference {regexp : Type} (MatchString : regexp → string → bool)
    (range : StringSet → list string) (ToolJSON : ToolConfig → option string) (ToolGo : ToolConfig → string)
    (c : CompositeSelector (regexp:=regexp)) (calls : list call) (maxEntries : Z) (sc : SelectionContext)
    (candidates : list ToolConfig) (id : string) :
  (∀ (set : StringSet) x, x ∈ range set ↔ x ∈ set) →
  Forall (proper_call c) calls → requests_ok ToolJSON ToolGo c ((sc, candidates) :: requests_of calls) →
  ClaimsFingerprint sc = Ok id →
  let s := foldl (serve MatchString range ToolJSON ToolGo c) (NewSessionPlanStoreWithMaxEntries maxEntries) calls in
  let r := (run (Select MatchString range ToolJSON ToolGo c sc candidates) s).2 in
  (∀ p, r = Ok p → shows p (granted MatchString c sc candidates (expanded_for c s sc id))) ∧
  (key_valid (planKey c (SessionID sc)) = true → sessionActiveLocked s sc = true →
   (is_Some (entries s !! planKey c (SessionID sc)) ∨ (Z.of_nat (size (entries s)) < store_max s)%Z) →
   ∃ p, r = Ok p).
Proof.
  intros Hrange Hcalls Hreqs Hid s r.
  assert (governed MatchString ToolJSON ToolGo c ((sc, candidates) :: requests_of calls) eq false s) as Hs.
  { apply serve_all_inv; [done..| |by intros key e]. intros req Hreq. by constructor. }
  split; [apply (Select_seq MatchString range ToolJSON ToolGo c Hrange _ Hreqs s sc candidates id Hs); [constructor|done]|].
  intros Hk Ha Hroom. unfold r. rewrite (Select_run MatchString range ToolJSON ToolGo c s sc candidates id Hid). cbv zeta.
  destruct (cachedSelectionPlan s _ _) as [p|]; [by exists p|].
  destruct (Commit_accepts s (planKey c (SessionID sc)) (plan_of MatchString range ToolJSON ToolGo c sc candidates id
    (plan_version ToolJSON ToolGo c candidates id (CatalogVersion sc) (expanded_for c s sc id)) (expanded_for c s sc id)) sc)
    as (s' & p & -> & _); [done| |done..|by exists p].
  apply plan_of_fields.
Qed.


(** ** The small configuration *)

Module sequential_sample.
Import mcp_sample.

Definition opening : list call := [CallActivate "s1" 1; CallSelect (request "alice" "" "1") catalog].

Lemma opening_ok requested :
  requests_ok ToolJSON ToolGo selector ((request "alice" requested "1", catalog) :: requests_of opening).
Proof.
  apply alice_requests_ok. intros sc l. simpl. rewrite !elem_of_cons, elem_of_nil.
  intros [[= -> ->]|[[= -> ->]|[]]]; eauto.
Qed.

Definition state : SessionPlanStore :=
  foldl (serve MatchString range ToolJSON ToolGo selector) (NewSessionPlanStoreWithMaxEntries 0) opening.

Definition alice : string := Eval vm_compute in id_of (request "alice" "" "1").

Lemma alice_id requested : ClaimsFingerprint (request "alice" requested "1") = Ok alice.
Proof. vm_compute. reflexivity. Qed.

Lemma state_ok :
  bool_decide (is_Some (entries state !! planKey selector "s1")) = true ∧
  sessionActiveLocked state (request "alice" "" "1") = true ∧
  bool_decide ("read" ∈ map tool_Name (granted MatchString selector (request "alice" "read" "1") catalog
                 (expanded_for selector state (request "alice" "read" "1") alice))) = true.
Proof. split_and!; vm_compute; reflexivity. Qed.

End sequential_sample.

Lemma select_is_reference_witness :
  ∃ p, (run (Select mcp_sample.MatchString mcp_sample.range mcp_sample.ToolJSON mcp_sample.ToolGo mcp_sample.selector
               (mcp_sample.request "alice" "" "1") mcp_sample.catalog) sequential_sample.state).2 = Ok p.
Proof.
  apply (select_is_reference mcp_sample.MatchString mcp_sample.range mcp_sample.ToolJSON mcp_sample.ToolGo
           mcp_sample.selector sequential_sample.opening 0 (mcp_sample.request "alice" "" "1") mcp_sample.catalog
           sequential_sample.alice mcp_sample.range_ok ltac:(repeat constructor) (sequential_sample.opening_ok "")
           (sequential_sample.alice_id "")).
  - reflexivity.
  - apply sequential_sample.state_ok.
  - left. apply (bool_decide_eq_true_1 _ (proj1 sequential_sample.state_ok)).
Defined.

