(* ===== verification/McpBuild.v ===== *)
(** * MCP tool governance: building a selector

    [pkg/filter/mcp/mcpserver/router/builder.go], [NewCompositeSelector] of
    [composite.go] and the visible fingerprints of [types.go].  The encoding of
    a configuration and the number of the router instance are parameters. *)

From S2P Require Import Prelude GoStrings Sha256 Endpoint McpCatalog McpPolicy McpIdentity McpPlan McpSelector McpGovern.

(** ** Fingerprints of the visible tools *)

Definition stableStringsFingerprint (values : list string) : string :=
  let sum := StringsOrdered values in
  if decide (sum = "") then "00000000" else sum.

Definition VisibleToolNamesFingerprint (names : list string) : string :=
  if decide (names = []) then "00000000" else String.substring 0 16 (stableStringsFingerprint names).

Definition DefaultVisibleFingerprint (tools : list ToolConfig) : string :=
  VisibleToolNamesFingerprint (DiscoverableToolNames tools).

(** ** Validation *)

Inductive build_error : Type :=
  | BadFallback (fallback : string)
  | BadSampleRate
  | BadMaxEntries
  | BadConfigEncoding
  | BadWorkflow (e : workflow_error)
  | BadPolicy (e : policy_error)
  | BadExpandAfterCalls
  | InitialBundleRequired
  | InitialBundleNoWorkflows (bundle : string)
  | InitialBundleUnknown (bundle : string)
  | DefaultBundleRequired
  | DefaultBundleNoWorkflows (bundle : string)
  | DefaultBundleUnknown (bundle : string)
  | DefaultBundleEmpty (bundle : string).

Definition validateFallback (fallback : string) : option build_error :=
  if decide (fallback ∈ [""; FallbackBundleDefault; FallbackFailClosed]) then None else Some (BadFallback fallback).

Definition validateSampleRate (audit : AuditConfig) : option build_error :=
  if sample_rate_valid audit then None else Some BadSampleRate.

Definition validateSessionConfig (maxEntries : Z) : option build_error :=
  if decide (maxEntries < 0)%Z then Some BadMaxEntries else None.

Definition zero_match : PolicyMatch := mkPolicyMatch "" "" [] "" "".
Definition zero_stages : RouterStages := mkRouterStages None None false.
Definition zero_audit : AuditConfig := mkAuditConfig true false.

Definition normalizeConfig (cfg : option RouterConfig) : RouterConfig :=
  match cfg with
  | None => mkRouterConfig DefaultFallback "" zero_stages [] [] (mkProgressiveConfig "" 0) zero_audit 0
  | Some cfg =>
      mkRouterConfig (if decide (rc_Fallback cfg = "") then DefaultFallback else rc_Fallback cfg) (rc_DefaultBundle cfg)
        (rc_Stages cfg) (rc_Policy cfg) (rc_Workflows cfg) (rc_Progressive cfg) (rc_Audit cfg) (rc_MaxEntries cfg)
  end.

Definition stageEnabled (v : option bool) (def : bool) : bool := default def v.

Definition newRouterInstanceID (n : nat) (cfgHash : string) : string :=
  "router-" +:+ pretty n +:+ (if decide (cfgHash = "") then "" else "-" +:+ cfgHash).

Section build.
Context {regexp : Type} (Compile : string → option regexp) (MatchString : regexp → string → bool).
Context (ConfigJSON : RouterConfig → option string).

(** The audit and session settings do not enter the hash. *)
Definition configHash (cfg : RouterConfig) : result build_error string :=
  let authCfg := mkRouterConfig (rc_Fallback cfg) (rc_DefaultBundle cfg) (rc_Stages cfg) (rc_Policy cfg)
                   (rc_Workflows cfg) (rc_Progressive cfg) zero_audit 0 in
  match JSONStable (ConfigJSON authCfg) with
  | Some sum => Ok (String.substring 0 16 sum)
  | None => Err BadConfigEncoding
  end.

(** The shared workflow selector; the workflow stage uses it when enabled. *)
Definition buildWorkflowSelector (cfg : RouterConfig) :
    result build_error (option (WorkflowSelector (regexp:=regexp)) * option (WorkflowSelector (regexp:=regexp))) :=
  if decide (length (rc_Workflows cfg) = 0) then Ok (None, None)
  else match NewWorkflowSelector Compile (rc_Workflows cfg) with
       | Err e => Err (BadWorkflow e)
       | Ok wf => Ok (Some wf, if stageEnabled (st_Workflow (rc_Stages cfg)) true then Some wf else None)
       end.

Definition buildPolicyFilter (cfg : RouterConfig) : result build_error (option (list (compiledRule (regexp:=regexp)))) :=
  if decide (stageEnabled (st_Policy (rc_Stages cfg)) true = false ∨ length (rc_Policy cfg) = 0) then Ok None
  else match NewPolicyFilter Compile (rc_Policy cfg) with
       | Err e => Err (BadPolicy e)
       | Ok p => Ok (Some p)
       end.

Definition validateProgressiveBundle (bundle : string) (wf : option (WorkflowSelector (regexp:=regexp))) : option build_error :=
  if decide (bundle = "") then Some InitialBundleRequired
  else match wf with
       | None => Some (InitialBundleNoWorkflows bundle)
       | Some w => match bundleTools w bundle with
                   | None => Some (InitialBundleUnknown bundle)
                   | Some _ => None
                   end
       end.

Definition buildProgressiveGate (cfg : RouterConfig) (wf : option (WorkflowSelector (regexp:=regexp))) :
    result build_error (option (ProgressiveGate (regexp:=regexp))) :=
  if st_Progressive (rc_Stages cfg) then
    if decide (ExpandAfterCalls (rc_Progressive cfg) ≤ 0)%Z then Err BadExpandAfterCalls
    else
      let bundle := TrimSpace (InitialBundle (rc_Progressive cfg)) in
      match validateProgressiveBundle bundle wf with
      | Some e => Err e
      | None => Ok (Some (NewProgressiveGate (mkProgressiveConfig bundle (ExpandAfterCalls (rc_Progressive cfg))) wf))
      end
  else Ok None.

Definition validateDefaultFallback (cfg : RouterConfig) (wf : option (WorkflowSelector (regexp:=regexp)))
    (fallback : string) : option build_error :=
  if decide (fallback ≠ FallbackBundleDefault) then None
  else
    let bundle := TrimSpace (rc_DefaultBundle cfg) in
    if decide (bundle = "") then Some DefaultBundleRequired
    else match wf with
         | None => Some (DefaultBundleNoWorkflows bundle)
         | Some w => match bundleTools w bundle with
                     | None => Some (DefaultBundleUnknown bundle)
                     | Some b => if decide (b = ∅) then Some (DefaultBundleEmpty bundle) else None
                     end
         end.

(** [NewCompositeSelector] on the options the builder fills in. *)
Definition NewCompositeSelector (policy : option (list compiledRule)) (workflow : option WorkflowSelector)
    (progressive : option ProgressiveGate) (bundles : option WorkflowSelector)
    (routerID fallback defaultBundle cfgHash : string) (visibleFP : option (list ToolConfig → string)) :
    result build_error (CompositeSelector (regexp:=regexp)) :=
  let fallback := if decide (fallback = "") then DefaultFallback else fallback in
  match validateFallback fallback with
  | Some e => Err e
  | None =>
      Ok (mkCompositeSelector policy workflow progressive bundles routerID fallback defaultBundle cfgHash
            (progressiveConfigHash progressive) (default DefaultVisibleFingerprint visibleFP))
  end.

#[local] Open Scope go_scope.

(** An error that a validation reports ends the build. *)
Definition check (e : option build_error) : result build_error unit :=
  match e with Some e => Err e | None => Ok () end.

Definition policy_risks (cfg : RouterConfig) : result build_error unit :=
  match validatePolicyRisks (rc_Policy cfg) with Ok _ => Ok () | Err e => Err (BadPolicy e) end.

Definition BuildWithOptions (cfg : option RouterConfig) (instance : nat) (visibleFP : option (list ToolConfig → string)) :
    result build_error (CompositeSelector (regexp:=regexp)) :=
  let cfg := normalizeConfig cfg in
  let! _ := check (validateFallback (rc_Fallback cfg)) in
  let! _ := check (validateSampleRate (rc_Audit cfg)) in
  let! _ := check (validateSessionConfig (rc_MaxEntries cfg)) in
  let! _ := policy_risks cfg in
  let! cfgHash := configHash cfg in
  let! wfs := buildWorkflowSelector cfg in
  let! policy := buildPolicyFilter cfg in
  let! gate := buildProgressiveGate cfg wfs.1 in
  let! _ := check (validateDefaultFallback cfg wfs.1 (rc_Fallback cfg)) in
  NewCompositeSelector policy wfs.2 gate wfs.1 (newRouterInstanceID instance cfgHash) (rc_Fallback cfg)
    (rc_DefaultBundle cfg) cfgHash visibleFP.

(** ** What a build guarantees *)

Lemma check_ok e : check e = Ok () ↔ e = None.
Proof. by destruct e. Qed.

Lemma normalize_fallback cfg : rc_Fallback (normalizeConfig cfg) ≠ "".
Proof. destruct cfg as [cfg|]; simpl; [|done]. by case_decide. Qed.

Lemma Build_inv cfg n fp c :
  BuildWithOptions cfg n fp = Ok c →
  let cfg := normalizeConfig cfg in
  ∃ cfgHash wf,
    configHash cfg = Ok cfgHash ∧ buildWorkflowSelector cfg = Ok (wf, cs_workflow c) ∧
    buildPolicyFilter cfg = Ok (cs_policy c) ∧ buildProgressiveGate cfg wf = Ok (cs_progressive c) ∧
    validateDefaultFallback cfg wf (rc_Fallback cfg) = None ∧
    cs_bundles c = wf ∧ cs_routerID c = newRouterInstanceID n cfgHash ∧ cs_fallback c = rc_Fallback cfg ∧
    cs_fallback c ∈ [FallbackBundleDefault; FallbackFailClosed] ∧
    cs_defaultBundle c = rc_DefaultBundle cfg ∧ cs_configHash c = cfgHash.
Proof.
  cbv zeta. unfold BuildWithOptions. pose proof (normalize_fallback cfg) as Hne. revert Hne.
  generalize (normalizeConfig cfg) as cf. intros cf Hne.
  intros ([] & Hf & ([] & Hsr & ([] & Hsc & ([] & Hpr & (h & Hh & ([wf wf'] & Hwf & (p & Hp & (g & Hg & ([] & Hd & Hn)%result_bind_ok
    )%result_bind_ok)%result_bind_ok)%result_bind_ok)%result_bind_ok)%result_bind_ok)%result_bind_ok)%result_bind_ok)%result_bind_ok.
  apply check_ok in Hf, Hd. unfold NewCompositeSelector in Hn. rewrite decide_False in Hn by done. rewrite Hf in Hn.
  injection Hn as <-. simpl. exists h, wf. unfold validateFallback in Hf. case_decide as Hin; [|done].
  split_and!; try done. set_solver.
Qed.

(** A selector that was built is complete: the threshold of its gate is
    positive and the initial bundle names a workflow, so that the gate never
    locks everybody out for want of it; a default bundle that the fallback
    uses exists and is not empty; plan keys are valid for every session. *)
Theorem build_sound cfg n fp c sessionID :
  BuildWithOptions cfg n fp = Ok c →
  (∀ g, cs_progressive c = Some g → (0 < pg_expandAfter g)%Z ∧ is_Some (bundleSet g)) ∧
  (cs_fallback c = FallbackFailClosed ∨
   cs_fallback c = FallbackBundleDefault ∧ ∃ b, defaultBundleTools c = Some b ∧ b ≠ ∅) ∧
  (sessionID ≠ "" → key_valid (planKey c sessionID) = true).
Proof.
  intros (h & wf & Hh & Hwf & Hp & Hg & Hd & Hb & Hr & Hf & Hfi & Hdb & _)%Build_inv. split_and!.
  - intros g Eg. rewrite Eg in Hg. unfold buildProgressiveGate in Hg.
    destruct (st_Progressive _); [|done]. case_decide as He; [done|].
    destruct (validateProgressiveBundle _ wf) eqn:Ev; [done|]. injection Hg as <-. simpl.
    rewrite decide_False by done. split; [lia|]. unfold bundleSet. simpl. unfold validateProgressiveBundle in Ev.
    case_decide as Et; [done|]. destruct wf as [w|]; [|done]. destruct (bundleTools w _); [eauto|done].
  - rewrite !elem_of_cons, elem_of_nil in Hfi. destruct Hfi as [Hfi|[Hfi|[]]]; [right|by left]. split; [done|].
    rewrite <- Hf, Hfi in Hd. unfold validateDefaultFallback in Hd. rewrite decide_False in Hd by tauto.
    case_decide as Et; [done|]. destruct wf as [w|]; [|done]. unfold defaultBundleTools. rewrite Hb, Hdb.
    rewrite decide_False by (intros Hnil; rewrite Hnil in Et; by destruct Et). unfold bundleTools in *. rewrite TrimSpace.TrimSpace_idemp in Hd.
    destruct (cw_tools <$> _) as [b|]; [|done]. case_decide; [done|]. eauto.
  - intros Hs. unfold key_valid. simpl. apply bool_decide_eq_true. split; [|done]. by rewrite Hr.
Qed.

(** ** The policy as configured *)

(** When a condition holds, read off the configuration. *)
Definition when_holds (m : PolicyMatch) (sc : SelectionContext) : Prop :=
  if decide (pm_MissingClaim m ≠ "") then claimString sc (pm_MissingClaim m) ∈ [None; Some ""]
  else pm_Claim m = "" ∨
    ∃ val, claimString sc (pm_Claim m) = Some val ∧
      (pm_Equals m ≠ "" → val = pm_Equals m) ∧
      (pm_In m ≠ [] → val ∈ pm_In m) ∧
      (pm_Regex m ≠ "" → ∃ re, Compile (pm_Regex m) = Some re ∧ MatchString re val = true) ∧
      (pm_Equals m = "" → pm_In m = [] → pm_Regex m = "" → val ≠ "").

(** What a rule asks of a tool, read off the configuration. *)
Definition rule_admits (r : PolicyRule) (t : ToolConfig) : Prop :=
  (∀ tag, tag ∈ toolTags t → tag ∉ pr_DenyTags r) ∧
  (pr_AllowTags r = [] ∨ ∃ tag, tag ∈ toolTags t ∧ tag ∈ pr_AllowTags r) ∧
  (pr_MaxRisk r = "" ∨ riskLevel (toolRisk t) ≤ riskLevel (pr_MaxRisk r)).

Lemma operators_spec m :
  validatePolicyMatch m = Ok () → pm_MissingClaim m = "" → pm_Claim m ≠ "" →
  (pm_Equals m ≠ "" → pm_In m = [] ∧ pm_Regex m = "") ∧ (pm_In m ≠ [] → pm_Regex m = "").
Proof.
  unfold validatePolicyMatch, operators. intros H Hm Hc. rewrite decide_False in H by tauto.
  destruct (decide (pm_Equals m = "")), (decide (pm_In m = [])), (decide (pm_Regex m = ""));
    simpl in H; repeat case_decide; try done; try lia; tauto.
Qed.

Lemma newMatcher_matches m mt sc :
  newMatcher Compile m = Ok mt → matches MatchString mt sc = true ↔ when_holds m sc.
Proof.
  unfold newMatcher. destruct (validatePolicyMatch m) as [[]|] eqn:Ev; [|done]. intros Hm.
  assert (m_match mt = m ∧ (pm_Regex m = "" → m_re mt = None) ∧
          (pm_Regex m ≠ "" → ∃ re, m_re mt = Some re ∧ Compile (pm_Regex m) = Some re)) as (Hmm & H1 & H2)
    by (destruct (decide (pm_Regex m = "")); [|destruct (Compile _) eqn:?; [|done]]; injection Hm as <-; naive_solver).
  unfold matches, when_holds, hasClaim. rewrite Hmm. clear Hm Hmm. destruct (decide (pm_MissingClaim m ≠ "")) as [Ed|Ed].
  { clear. rewrite !elem_of_cons, elem_of_nil. destruct (claimString sc _) as [v|]; simpl; [|tauto].
    case_bool_decide; naive_solver. }
  destruct (decide (pm_Claim m = "")) as [Ec|Ec]; [split; auto|].
  destruct (operators_spec m Ev) as [O1 O2]; [|done|].
  { destruct (decide (pm_MissingClaim m = "")); tauto. }
  clear Ev. destruct (claimString sc (pm_Claim m)) as [val|]; [|split; [done|]; intros [?|(? & ? & _)]; done].
  transitivity ((pm_Equals m ≠ "" → val = pm_Equals m) ∧ (pm_In m ≠ [] → val ∈ pm_In m) ∧
      (pm_Regex m ≠ "" → ∃ re, Compile (pm_Regex m) = Some re ∧ MatchString re val = true) ∧
      (pm_Equals m = "" → pm_In m = [] → pm_Regex m = "" → val ≠ "")).
  2: { split; [intros H; right; eauto|]. intros [?|(? & [= <-] & H)]; done. }
  destruct (decide (pm_Equals m ≠ "")) as [Eq|Eq].
  { rewrite bool_decide_eq_true. destruct (O1 Eq). tauto. }
  destruct (decide (pm_In m ≠ [])) as [Ei|Ei].
  { rewrite bool_decide_eq_true. specialize (O2 Ei). tauto. }
  destruct (decide (pm_Regex m = "")) as [Er|Er].
  { rewrite H1, bool_decide_eq_true by done.
    destruct (decide (pm_Equals m = "")), (decide (pm_In m = [])); tauto. }
  destruct (H2 Er) as (re & -> & Hre). split; [intros Hv|].
  - split_and!; try tauto. intros _. by exists re.
  - intros (_ & _ & Hx & _). destruct (Hx Er) as (re' & Hre' & Hv). congruence.
Qed.

Lemma NewStringSet_disjoint (tags : StringSet) l : tags ## NewStringSet l ↔ ∀ tag, tag ∈ tags → tag ∉ l.
Proof. unfold NewStringSet. set_solver. Qed.

Lemma NewStringSet_meets (tags : StringSet) l : ¬ tags ## NewStringSet l ↔ ∃ tag, tag ∈ tags ∧ tag ∈ l.
Proof.
  split; [|intros (tag & H1 & H2) Hd; revert Hd; rewrite NewStringSet_disjoint; naive_solver].
  intros Hn. destruct (set_choose_or_empty (tags ∩ NewStringSet l)) as [[tag Ht]|He]; [|set_solver].
  apply elem_of_intersection in Ht as [H1 H2%elem_of_list_to_set]. eauto.
Qed.

Lemma NewStringSet_empty l : NewStringSet l = ∅ ↔ l = [].
Proof. destruct l as [|x l]; [done|]. split; [|done]. unfold NewStringSet. set_solver. Qed.

Lemma riskLevel_positive risk : riskLevel risk ≠ 0.
Proof. unfold riskLevel. by repeat case_decide. Qed.

Lemma compile_rule_allows r cr t : compile_rule Compile r = Ok cr → rule_allows cr t ↔ rule_admits r t.
Proof.
  unfold compile_rule. destruct (newMatcher _ _) as [m|]; [|done].
  destruct (maxRiskOrdinal _) as [mr|] eqn:Er; [|done]. intros [= <-]. unfold rule_allows, rule_admits. cbn.
  rewrite NewStringSet_disjoint, NewStringSet_meets, NewStringSet_empty.
  unfold maxRiskOrdinal in Er. case_decide as Em; [naive_solver|]. destruct (ValidateRisk _); [|done].
  injection Er as <-. pose proof (riskLevel_positive (pr_MaxRisk r)). naive_solver.
Qed.

Lemma compile_rule_when r cr : compile_rule Compile r = Ok cr → newMatcher Compile (pr_When r) = Ok (cr_when cr).
Proof.
  unfold compile_rule. destruct (newMatcher _ _) as [m|]; [|done]. destruct (maxRiskOrdinal _); [|done]. by intros [= <-].
Qed.

Lemma NewPolicyFilter_rules cfg p :
  NewPolicyFilter Compile cfg = Ok p → Forall2 (λ r cr, compile_rule Compile r = Ok cr) cfg p.
Proof.
  revert p. induction cfg as [|r cfg IH]; intros p; simpl; [intros [= <-]; constructor|].
  destruct (compile_rule Compile r) as [cr|] eqn:Er; [|done]. destruct (NewPolicyFilter Compile cfg); [|done].
  intros [= <-]. constructor; auto.
Qed.

(** The compiled policy says of a tool what the configured rules say. *)
Lemma policy_allows_configured cfg p sc t :
  NewPolicyFilter Compile cfg = Ok p →
  policy_allows MatchString p sc t ↔ ∀ r, r ∈ cfg → when_holds (pr_When r) sc → rule_admits r t.
Proof.
  intros H%NewPolicyFilter_rules. unfold policy_allows. rewrite <- Forall_forall.
  induction H as [|r cr cfg p Hr _ IH]; [by rewrite !Forall_nil|]. rewrite !Forall_cons, IH.
  by rewrite (compile_rule_allows r cr t Hr), (newMatcher_matches _ _ sc (compile_rule_when r cr Hr)).
Qed.

(** A selector that was built with the policy stage on grants a tool, by
    selection or as a fallback, only if every configured rule whose condition
    holds for the request admits it; and its policy drops no other tool. *)
Theorem configured_policy_enforced cfg n fp c sc candidates t :
  BuildWithOptions (Some cfg) n fp = Ok c → stageEnabled (st_Policy (rc_Stages cfg)) true = true →
  let admitted := ∀ r, r ∈ rc_Policy cfg → when_holds (pr_When r) sc → rule_admits r t in
  (policy_ok MatchString c sc t ↔ admitted) ∧
  (∀ expanded, t ∈ granted MatchString c sc candidates expanded → t ∈ candidates ∧ admitted) ∧
  (t ∈ fallback_tools MatchString c sc candidates → t ∈ candidates ∧ admitted).
Proof.
  intros (h & wf & _ & _ & Hp & _)%Build_inv Hst admitted.
  assert (policy_ok MatchString c sc t ↔ admitted) as Hok.
  { unfold policy_ok, admitted. unfold buildPolicyFilter in Hp. simpl in Hp. rewrite Hst in Hp. case_decide as Hl.
    - destruct Hl as [?|Hl%nil_length_inv]; [done|]. injection Hp as <-. rewrite Hl.
      split; [|done]. by intros _ r ?%not_elem_of_nil.
    - destruct (NewPolicyFilter _ _) as [p|] eqn:Ef; [|done]. injection Hp as <-. by apply policy_allows_configured. }
  split; [done|]. rewrite <- Hok. split; [intros expanded Hin%granted_policy; tauto|].
  unfold fallback_tools. rewrite !list_elem_of_filter. tauto.
Qed.
End build.

(** ** A configuration *)

Module build_sample.

Definition Compile (re : string) : option string := Some re.
Definition MatchString (re : string) (s : string) : bool := bool_decide (re = s).
Definition ConfigJSON (cfg : RouterConfig) : option string := Some "{}".

(** Guests get no tool that is tagged for administrators; everybody starts with
    the bundle [start], which is the default bundle as well. *)
Definition guests : PolicyRule := mkPolicyRule "guests" (mkPolicyMatch "role" "guest" [] "" "") [] ["admin"] "medium".
Definition config : RouterConfig :=
  mkRouterConfig FallbackBundleDefault " start" (mkRouterStages None None true) [guests]
    [mkWorkflowConfig "start " "" ["read"] zero_match] (mkProgressiveConfig "start" 2) zero_audit 0.

Definition guest : SelectionContext :=
  mkSelectionContext "s1" 1 "tools/list" "bob" "" {["role" := mkClaim "guest" None]} "" "v1".

Definition tool (name : string) (tags : list string) : ToolConfig :=
  mkToolConfig name "" "backend" "" (mkRequestConfig "GET" "/" ∅ "30s") [] (Some (mkToolMeta tags "" None)).

Definition cfg_hash : string := Eval vm_compute in
  match configHash ConfigJSON config with Ok h => h | Err _ => "" end.

Definition bundles : WorkflowSelector (regexp:=string) :=
  let start := mkCompiledWorkflow "start" (mkMatcher zero_match None) {["read"]} false in
  mkWorkflowSelector [start] {["start" := start]}.

Definition gate_hash : string := Eval vm_compute in
  progressiveConfigHash (Some (mkProgressiveGate (Some bundles) "start" 2)).

Definition built : CompositeSelector (regexp:=string) :=
  mkCompositeSelector
    (Some [mkCompiledRule "guests" (mkMatcher (pr_When guests) None) ∅ {["admin"]} 2])
    (Some bundles) (Some (mkProgressiveGate (Some bundles) "start" 2)) (Some bundles)
    (newRouterInstanceID 1 cfg_hash) FallbackBundleDefault " start" cfg_hash gate_hash (λ _, "").

Lemma build_eq : BuildWithOptions Compile ConfigJSON (Some config) 1 (Some (λ _, "")) = Ok built.
Proof. vm_compute. reflexivity. Qed.
End build_sample.

Lemma build_sound_witness :
  (∀ g, cs_progressive build_sample.built = Some g → (0 < pg_expandAfter g)%Z ∧ is_Some (bundleSet g)) ∧
  (cs_fallback build_sample.built = FallbackFailClosed ∨
   cs_fallback build_sample.built = FallbackBundleDefault ∧
     ∃ b, defaultBundleTools build_sample.built = Some b ∧ b ≠ ∅) ∧
  ("s1" ≠ "" → key_valid (planKey build_sample.built "s1") = true).
Proof. exact (build_sound _ _ _ _ _ _ "s1" build_sample.build_eq). Defined.

Lemma configured_policy_enforced_witness :
  let t := build_sample.tool "read" ["public"] in
  t ∈ granted build_sample.MatchString build_sample.built build_sample.guest [t] false ∧ rule_admits build_sample.guests t.
Proof.
  set (t := build_sample.tool "read" ["public"]). cbv zeta.
  assert (t ∈ granted build_sample.MatchString build_sample.built build_sample.guest [t] false) as Ht
    by (apply (bool_decide_unpack _); vm_compute; exact I).
  split; [exact Ht|].
  apply (proj2 (proj1 (proj2 (configured_policy_enforced build_sample.Compile build_sample.MatchString build_sample.ConfigJSON
    build_sample.config 1 _ build_sample.built build_sample.guest [t] t build_sample.build_eq eq_refl)) false Ht)).
  - apply list_elem_of_here.
  - unfold when_holds. simpl. right. exists "guest". split; [reflexivity|]. split_and!; done.
Defined.
