(* ===== verification/McpAudit.v ===== *)
(** * MCP tool governance: the decision log

    [pkg/filter/mcp/mcpserver/router/decision_log.go].  Sampling, encoding and
    the logger itself are left out; a nil and an empty map or slice are encoded
    the same way (they are omitted) and are not told apart. *)

From S2P Require Import Prelude GoStrings Endpoint McpCatalog McpPolicy McpIdentity McpPlan McpSelector McpGovern.

Definition maxDeniedSamples : nat := 10.

Record decisionRecord : Type := mkDecisionRecord {
  rec_Event : string;
  rec_Method : string;
  rec_CatalogVersion : string;
  rec_ConfigVersion : string;
  rec_Candidates : nat;
  rec_Selected : nat;
  rec_Mode : string;
  rec_Stages : gmap string Z;
  rec_DeniedSamples : list string;
}.

Definition stageDropCounts (traces : list DecisionTrace) : gmap string Z :=
  foldl (λ counts t, <[tr_Stage t := (default 0 (counts !! tr_Stage t) + 1)%Z]> counts) ∅ traces.

Definition stageDropCountsFromPlan (plan : SelectionPlan) : gmap string Z :=
  if decide (size (plan_StageCounts plan) = 0) then stageDropCounts (plan_Reasons plan)
  else omap (λ count, let dropped := (Z.of_nat (Input count) - Z.of_nat (Output count))%Z in
                      if decide (0 < dropped)%Z then Some dropped else None) (plan_StageCounts plan).

Definition deniedSamples (traces : list DecisionTrace) : list string := take maxDeniedSamples (map tr_Tool traces).

(** [DecisionLogger.record] *)
Definition record (detailLogging : bool) (sc : SelectionContext) (plan : SelectionPlan) (candidates : nat) : decisionRecord :=
  mkDecisionRecord "mcp_router_decision" (sc_Method sc) (plan_CatalogVersion plan) (plan_ConfigHash plan) candidates
    (length (plan_ToolNames plan)) (plan_Mode plan) (stageDropCountsFromPlan plan)
    (if detailLogging then deniedSamples (plan_Reasons plan) else []).

(** What the log says of the drops of one stage. *)
Definition logged_drops (r : decisionRecord) (stage : string) : Z := default 0%Z (rec_Stages r !! stage).

Lemma setLocked_plan s key stored sc allowCreate s' p :
  setLocked s key stored sc allowCreate = (s', Ok p) →
  plan_Reasons p = [] ∧ plan_StageCounts p = plan_StageCounts stored.
Proof. by intros (e0 & _ & -> & _)%setLocked_ok. Qed.

Lemma Commit_plan s key plan sc s' p :
  Commit s key (Some plan) sc = (s', Ok p) → plan_Reasons p = [] ∧ plan_StageCounts p = plan_StageCounts plan.
Proof.
  unfold Commit. destruct (validatePlanWrite _ _ _); [done|]. destruct (sessionActiveLocked s sc); [|done].
  by intros [H1 H2]%setLocked_plan.
Qed.

Lemma SetIfCurrent_plan s base plan s' p :
  SetIfCurrent s base plan = (s', Ok (Some p)) → plan_Reasons p = [] ∧ plan_StageCounts p = plan_StageCounts plan.
Proof.
  unfold SetIfCurrent. destruct (validatePlanWrite _ _ _); [done|]. case_decide; [done|].
  destruct (negb _); [done|]. destruct (entries s !! _); [|done]. case_decide; [done|].
  destruct (setLocked _ _ _ _ _) as [s1 [q|]] eqn:E; [|done]. intros [= <- <-].
  by apply setLocked_plan in E as [H1 H2].
Qed.

(** The selector logs the plan that the store hands back, and the store drops
    the reasons of a plan: the denied samples of a decision record are empty
    even with decision detail logging on, whatever the pipeline dropped. *)
Theorem denied_samples_never_logged s key plan sc s' p candidates :
  Commit s key (Some plan) sc = (s', Ok p) ∨
  (∃ base, pc_Context base = sc ∧ SetIfCurrent s base plan = (s', Ok (Some p))) →
  rec_DeniedSamples (record true sc p candidates) = [].
Proof.
  intros H. assert (plan_Reasons p = []) as Hp.
  { destruct H as [H%Commit_plan|(base & _ & H%SetIfCurrent_plan)]; apply H. }
  simpl. by rewrite Hp.
Qed.

Module audit_sample.

(** A plan for which the policy dropped a tool. *)
Definition plan : SelectionPlan :=
  mkSelectionPlan "s1" [] None "" ModeSelected "" ∅ [mkDecisionTrace "drop" StagePolicy "no-danger" "deny_tag:danger"]
    "plan-1" "id" "prog" "cfg" "v1" 0 false None.
Definition committed : SelectionPlan := clonePlan (stored_plan plan_sample.key (clonePlan plan false) false 2) true.
Definition store : SessionPlanStore :=
  Eval vm_compute in (Commit plan_sample.opened plan_sample.key (Some plan) plan_sample.context).1.

Lemma commit_eq :
  Commit plan_sample.opened plan_sample.key (Some plan) plan_sample.context = (store, Ok committed).
Proof. vm_compute. reflexivity. Qed.
End audit_sample.

Lemma denied_samples_never_logged_witness :
  deniedSamples (plan_Reasons audit_sample.plan) = ["drop"] ∧
  rec_DeniedSamples (record true plan_sample.context audit_sample.committed 1) = [].
Proof.
  split; [reflexivity|].
  exact (denied_samples_never_logged _ _ _ _ _ _ 1 (or_introl audit_sample.commit_eq)).
Defined.

(** ** The tallies of the stages *)

Section tallies.
Context {regexp : Type} (MatchString : regexp → string → bool) (range : StringSet → list string).
Context (ToolJSON : ToolConfig → option string) (ToolGo : ToolConfig → string).
Context (Hrange : ∀ (s : StringSet) x, x ∈ range s ↔ x ∈ s).
Implicit Types (c : CompositeSelector (regexp:=regexp)) (sc : SelectionContext) (l : list ToolConfig).
Implicit Types (m : gmap string StageCount) (p : selectionPipeline).

Definition drops m stage : Z :=
  match m !! stage with
  | Some count => Z.of_nat (Input count) - Z.of_nat (Output count)
  | None => 0
  end.

Definition all_drops m : Z := drops m StagePolicy + drops m StageWorkflow + drops m StageProgressive.

(** A pipeline whose tallies account for every tool that left it. *)
Definition tallied l p : Prop :=
  map_Forall (λ _ count, Output count ≤ Input count) (sp_stageCounts p) ∧
  (all_drops (sp_stageCounts p) + Z.of_nat (length (sp_tools p)) = Z.of_nat (length l))%Z.

Lemma tallied_stage l p m' stage (tools : list ToolConfig) :
  stage ∈ [StagePolicy; StageWorkflow; StageProgressive] → sp_stageCounts p !! stage = None →
  tallied l p → length tools ≤ length (sp_tools p) →
  m' = <[stage := mkStageCount (length (sp_tools p)) (length tools)]> (sp_stageCounts p) →
  map_Forall (λ _ count, Output count ≤ Input count) m' ∧
  (all_drops m' + Z.of_nat (length tools) = Z.of_nat (length l))%Z.
Proof.
  intros Hin Hn [Hle Hsum] Hlen ->. split; [by apply map_Forall_insert_2|].
  unfold all_drops, drops in *. rewrite !elem_of_cons, elem_of_nil in Hin.
  destruct Hin as [->|[->|[->|[]]]]; rewrite lookup_insert_eq, !lookup_insert_ne by done; rewrite Hn in Hsum; simpl in *; lia.
Qed.

Lemma applyPolicy_tallied c sc l :
  let p := applyPolicy MatchString range (newSelectionPipeline l) (cs_policy c) sc in
  tallied l p ∧ sp_stageCounts p !! StageWorkflow = None ∧ sp_stageCounts p !! StageProgressive = None.
Proof.
  assert (tallied l (newSelectionPipeline l)) as H0 by (split; [by apply map_Forall_empty|done]).
  unfold applyPolicy. destruct (cs_policy c) as [q|]; [|done].
  pose proof (policy_Filter_kept MatchString range Hrange q (sp_tools (newSelectionPipeline l)) sc) as Hk.
  destruct (policy_Filter _ _ _ _ _) as [tools traces]. simpl in Hk. split; [|by simplify_map_eq].
  eapply (tallied_stage l (newSelectionPipeline l)); [by left|done|done| |done]. rewrite Hk. apply length_filter.
Qed.

Lemma applyWorkflow_tallied c sc l p :
  tallied l p → sp_stageCounts p !! StageWorkflow = None → sp_stageCounts p !! StageProgressive = None →
  let q := applyWorkflow MatchString p (cs_workflow c) sc in
  tallied l q ∧ sp_stageCounts q !! StageProgressive = None.
Proof.
  intros Ht H1 H2. unfold applyWorkflow. destruct (cs_workflow c) as [w|]; [|done].
  destruct (negb _); [done|]. split; [|by simplify_map_eq].
  eapply (tallied_stage l p); [right; by left|done|done| |done].
  rewrite workflow_filter_kept. destruct (matchWorkflow _ _ _); [apply length_filter|done].
Qed.

Lemma gated_tallied c l p expanded :
  tallied l p → sp_stageCounts p !! StageProgressive = None → tallied l (gated p c expanded).
Proof.
  intros Ht H2. unfold gated. destruct (cs_progressive c) as [g|]; [|done].
  destruct (negb _); [done|]. pose proof (gate_Apply_kept g (sp_tools p) expanded) as Hk.
  destruct (gate_Apply _ _ _) as [tools traces]. simpl in Hk.
  eapply (tallied_stage l p); [right; right; by left|done|done| |done].
  rewrite Hk. destruct expanded; [done|]. destruct (bundleSet g); [apply length_filter|simpl; lia].
Qed.

Lemma pipeline_tallied c sc l expanded : tallied l (pipeline MatchString range c sc l expanded).
Proof.
  destruct (applyPolicy_tallied c sc l) as (H1 & H2 & H3).
  destruct (applyWorkflow_tallied c sc l _ H1 H2 H3) as (H4 & H5).
  pose proof (gated_tallied c l _ expanded H4 H5) as H6. unfold pipeline.
  destruct (finalizeOutcome_spec (gated (applyWorkflow MatchString
    (applyPolicy MatchString range (newSelectionPipeline l) (cs_policy c) sc) (cs_workflow c) sc) c expanded)) as (Ht & _).
  unfold tallied in *. rewrite Ht. unfold finalizeOutcome. by case_decide.
Qed.

Lemma logged_drops_spec detail sc (plan : SelectionPlan) n stage :
  plan_Reasons plan = [] → map_Forall (λ _ count, Output count ≤ Input count) (plan_StageCounts plan) →
  logged_drops (record detail sc plan n) stage = drops (plan_StageCounts plan) stage.
Proof.
  intros Hr Hle. unfold logged_drops, drops. simpl. unfold stageDropCountsFromPlan. case_decide as Hs.
  - apply map_size_empty_inv in Hs. rewrite Hs, Hr, lookup_empty. done.
  - rewrite lookup_omap. destruct (_ !! stage) as [count|] eqn:E; simpl; [|done].
    apply Hle in E. case_decide; simpl; lia.
Qed.
End tallies.

(** The decision record of a selection accounts for every candidate: the
    candidates are the selected tools and the ones that the log says were
    dropped by the policy, the workflow and the progressive gate. *)
Theorem logged_drops_account {regexp : Type} (MatchString : regexp → string → bool) (range : StringSet → list string)
    (ToolJSON : ToolConfig → option string) (ToolGo : ToolConfig → string)
    (Hrange : ∀ (s : StringSet) x, x ∈ range s ↔ x ∈ s)
    (c : CompositeSelector (regexp:=regexp)) sc l id version expanded s key s' p detail :
  let plan := plan_of MatchString range ToolJSON ToolGo c sc l id version expanded in
  plan_Mode plan = ModeSelected → Commit s key (Some plan) sc = (s', Ok p) →
  let r := record detail sc p (length l) in
  (Z.of_nat (rec_Candidates r) =
   Z.of_nat (rec_Selected r) + logged_drops r StagePolicy + logged_drops r StageWorkflow + logged_drops r StageProgressive)%Z.
Proof.
  cbv zeta. unfold plan_of. destruct (pipeline_tallied MatchString range Hrange c sc l expanded) as [Hle Hsum]. revert Hle Hsum.
  generalize (pipeline MatchString range c sc l expanded) as q. intros q Hle Hsum.
  destruct (outcomeAllowsFallback _).
  { unfold applyFallback. case_decide; [done|]. by destruct (defaultBundleTools c). }
  intros _ Hc. pose proof (Commit_plan _ _ _ _ _ _ Hc) as [Hr Hst]. simpl in Hst.
  rewrite !logged_drops_spec by (rewrite ?Hst; done). rewrite Hst. simpl.
  assert (length (plan_ToolNames p) = length (sp_tools q)) as ->; [|unfold all_drops in Hsum; lia].
  unfold Commit in Hc. destruct (validatePlanWrite _ _ _); [done|]. destruct (sessionActiveLocked s sc); [|done].
  apply setLocked_ok in Hc as (e0 & _ & -> & _). apply length_map.
Qed.

Module tally_sample.

Definition MatchString (re s : string) : bool := bool_decide (re = s).
Definition range (s : StringSet) : list string := elements s.
Definition ToolJSON (t : ToolConfig) : option string := None.

Lemma tally_range_ok (s : StringSet) x : x ∈ range s ↔ x ∈ s.
Proof. apply elem_of_elements. Qed.

Definition tool (name : string) (tags : list string) : ToolConfig :=
  mkToolConfig name "" "backend" "" (mkRequestConfig "GET" "/" ∅ "30s") [] (Some (mkToolMeta tags "" None)).
Definition catalog : list ToolConfig := [tool "read" ["safe"]; tool "write" ["safe"]; tool "drop" ["danger"]].
Definition always : matcher (regexp:=string) := mkMatcher (mkPolicyMatch "" "" [] "" "") None.
Definition start : compiledWorkflow := mkCompiledWorkflow "start" always {["read"]} false.
Definition bundles : WorkflowSelector := mkWorkflowSelector [start] {["start" := start]}.

(** The policy drops one tool and the gate another one. *)
Definition selector : CompositeSelector (regexp:=string) :=
  mkCompositeSelector (Some [mkCompiledRule "no-danger" always ∅ {["danger"]} 0]) None
    (Some (mkProgressiveGate (Some bundles) "start" 1)) (Some bundles) "router-1" FallbackFailClosed "" "cfg" "prog" (λ _, "").

Definition plan : SelectionPlan :=
  plan_of MatchString range ToolJSON tool_Name selector plan_sample.context catalog "id" "plan-1" false.
Definition committed : SelectionPlan := clonePlan (stored_plan plan_sample.key (clonePlan plan false) false 2) true.
Definition store : SessionPlanStore :=
  Eval vm_compute in (Commit plan_sample.opened plan_sample.key (Some plan) plan_sample.context).1.
End tally_sample.

Lemma logged_drops_account_witness :
  let r := record false plan_sample.context tally_sample.committed (length tally_sample.catalog) in
  rec_Selected r = 1 ∧
  (Z.of_nat (rec_Candidates r) =
   Z.of_nat (rec_Selected r) + logged_drops r StagePolicy + logged_drops r StageWorkflow + logged_drops r StageProgressive)%Z.
Proof.
  cbv zeta. split; [vm_compute; reflexivity|].
  apply (logged_drops_account tally_sample.MatchString tally_sample.range tally_sample.ToolJSON tool_Name
    tally_sample.tally_range_ok tally_sample.selector plan_sample.context tally_sample.catalog "id" "plan-1" false
    plan_sample.opened plan_sample.key tally_sample.store tally_sample.committed false).
  - vm_compute. reflexivity.
  - vm_compute. reflexivity.
Defined.
