(* ===== verification/McpSession.v ===== *)
(** * MCP transport sessions

    [pkg/filter/mcp/mcpserver/transport/session_manager.go] and the flushing of
    [pkg/filter/mcp/mcpserver/notification.go].

    Requests keep pointers to sessions that may be removed meanwhile, so that
    the sessions live in a heap: a pointer is an index, the manager's map goes
    from identifiers to pointers.  A critical section of the manager or of a
    session is one step; the callbacks for removed sessions run outside the
    lock, so that a section returns the identifiers they are to be called with.
    Times are nanoseconds.  A pipe is a number; what was written to it is a log.

    Parameters: the order in which Go runs over a map, and the random source,
    given as the list of the reads that are made of it ([None] a failed one). *)

From S2P Require Import Prelude GoStrings Sha256.

(** ** Sessions *)

Record streamAttachment : Type := mkStream {
  st_token : Z;
  st_writer : nat;
}.

Record MCPSession : Type := mkMCPSession {
  ses_ID : string;
  ses_Generation : Z;
  ses_CreatedAt : Z;
  LastActivity : Z;
  toolListChangeVersion : Z;
  lastNotifiedToolListVersion : Z;
  streamSeq : Z;
  ses_stream : option streamAttachment;
  ses_closed : bool;
}.

Record SessionManager : Type := mkSessionManager {
  sm_heap : list MCPSession;
  sm_sessions : gmap string nat;
  sm_max : Z;
  nextGeneration : Z;
  sm_stopped : bool;
  closed_pipes : gset nat;
  sent : list (nat * string);
}.

Definition SessionTimeout : Z := 30 * 60 * 10 ^ 9.
Definition DefaultMaxSessions : Z := 10000.

Inductive session_error : Type :=
  | ErrSessionManagerStopped
  | ErrSessionCapacityReached
  | ErrSessionIDGenerationFailed
  | ErrStreamNotAttached
  | ErrPipeNotEstablished
  | ErrPipeWrite
  | ErrMarshal.

#[export] Instance session_error_eq_dec : EqDecision session_error.
Proof. solve_decision. Defined.

Section sessions.
Implicit Types (s : MCPSession) (sm : SessionManager) (p : nat) (id : string) (now : Z).

Definition set_heap sm (heap : list MCPSession) : SessionManager :=
  mkSessionManager heap (sm_sessions sm) (sm_max sm) (nextGeneration sm) (sm_stopped sm) (closed_pipes sm) (sent sm).

Definition update sm p (f : MCPSession → MCPSession) : SessionManager := set_heap sm (alter f p (sm_heap sm)).

Definition close_pipe sm (stream : option streamAttachment) : SessionManager :=
  match stream with
  | None => sm
  | Some a => mkSessionManager (sm_heap sm) (sm_sessions sm) (sm_max sm) (nextGeneration sm) (sm_stopped sm)
                ({[st_writer a]} ∪ closed_pipes sm) (sent sm)
  end.

(** *** Operations on one session *)

Definition with_activity now s : MCPSession :=
  mkMCPSession (ses_ID s) (ses_Generation s) (ses_CreatedAt s) now (toolListChangeVersion s)
    (lastNotifiedToolListVersion s) (streamSeq s) (ses_stream s) (ses_closed s).
Definition with_versions (changed notified : Z) s : MCPSession :=
  mkMCPSession (ses_ID s) (ses_Generation s) (ses_CreatedAt s) (LastActivity s) changed notified
    (streamSeq s) (ses_stream s) (ses_closed s).
Definition with_stream (seq : Z) (stream : option streamAttachment) (closed : bool) s : MCPSession :=
  mkMCPSession (ses_ID s) (ses_Generation s) (ses_CreatedAt s) (LastActivity s) (toolListChangeVersion s)
    (lastNotifiedToolListVersion s) seq stream closed.

Definition touch sm p now : SessionManager := update sm p (with_activity now).

(** [close]: once only; the stream is taken out and its pipe closed. *)
Definition session_close sm p : SessionManager :=
  match sm_heap sm !! p with
  | None => sm
  | Some s =>
      if ses_closed s then sm
      else close_pipe (update sm p (λ s, with_stream (streamSeq s) None true s)) (ses_stream s)
  end.

Definition MarkToolsListChangedPending sm p : SessionManager * Z :=
  match sm_heap sm !! p with
  | None => (sm, 0%Z)
  | Some s =>
      if ses_closed s then (sm, 0%Z)
      else let version := wrap64 (toolListChangeVersion s + 1) in
           (update sm p (λ s, with_versions version (lastNotifiedToolListVersion s) s), version)
  end.

Definition PendingToolsListChangedVersion s : option Z :=
  if decide (toolListChangeVersion s ≤ lastNotifiedToolListVersion s)%Z then None else Some (toolListChangeVersion s).

Definition MarkToolsListChangedNotified sm p (version : Z) : SessionManager :=
  update sm p (λ s, if decide (lastNotifiedToolListVersion s < version)%Z
                    then with_versions (toolListChangeVersion s) version s else s).

Definition AttachStream sm p (writer : nat) : SessionManager * result session_error Z :=
  match sm_heap sm !! p with
  | None => (sm, Err ErrSessionManagerStopped)
  | Some s =>
      if ses_closed s then (sm, Err ErrSessionManagerStopped)
      else
        let token := wrap64 (streamSeq s + 1) in
        (close_pipe (update sm p (λ s, with_stream token (Some (mkStream token writer)) (ses_closed s) s)) (ses_stream s),
         Ok token)
  end.

Definition DetachStream sm p (token : Z) : SessionManager :=
  match sm_heap sm !! p with
  | None => sm
  | Some s =>
      match ses_stream s with
      | None => sm
      | Some a =>
          if decide (st_token a = token)
          then close_pipe (update sm p (λ s, with_stream (streamSeq s) None (ses_closed s) s)) (Some a)
          else sm
      end
  end.

Definition IsClosed sm p : bool := from_option ses_closed true (sm_heap sm !! p).
Definition HasPipeWriter sm p : bool :=
  match sm_heap sm !! p with Some s => bool_decide (is_Some (ses_stream s)) | None => false end.

(** A write to a stream that was read from the session before: it fails when
    the pipe was closed meanwhile, or when its reader is gone. *)
Definition writeSSEData sm p (stream : option streamAttachment) (data : string) (reader : bool) now :
    SessionManager * result session_error unit :=
  match stream with
  | None => (sm, Err ErrPipeNotEstablished)
  | Some a =>
      if decide (st_writer a ∈ closed_pipes sm ∨ reader = false) then (sm, Err ErrPipeWrite)
      else (touch (mkSessionManager (sm_heap sm) (sm_sessions sm) (sm_max sm) (nextGeneration sm) (sm_stopped sm)
                     (closed_pipes sm) (sent sm ++ [(st_writer a, data)])) p now, Ok ())
  end.

Definition current_stream sm p : option streamAttachment := sm_heap sm !! p ≫= ses_stream.

Definition WriteSSEData sm p (data : string) (reader : bool) now : SessionManager * result session_error unit :=
  writeSSEData sm p (current_stream sm p) data reader now.

Definition WriteSSEDataForStream sm p (token : Z) (data : string) (reader : bool) now :
    SessionManager * result session_error unit :=
  match current_stream sm p with
  | None => (sm, Err ErrStreamNotAttached)
  | Some a => if decide (st_token a = token) then writeSSEData sm p (Some a) data reader now
              else (sm, Err ErrStreamNotAttached)
  end.

(** *** The manager *)

Definition NewSessionManagerWithOptions (maxEntries : Z) : SessionManager :=
  mkSessionManager [] ∅ (if decide (maxEntries ≤ 0)%Z then DefaultMaxSessions else maxEntries) 0 false ∅ [].

Definition sessionExpired s now : bool := bool_decide (SessionTimeout < now - LastActivity s)%Z.

Definition expired sm now p : bool := match sm_heap sm !! p with Some s => sessionExpired s now | None => false end.

Definition set_sessions sm (m : gmap string nat) : SessionManager :=
  mkSessionManager (sm_heap sm) m (sm_max sm) (nextGeneration sm) (sm_stopped sm) (closed_pipes sm) (sent sm).

Definition removeSessionLocked sm id : SessionManager :=
  match sm_sessions sm !! id with
  | None => sm
  | Some p => let sm := session_close sm p in set_sessions sm (delete id (sm_sessions sm))
  end.

Definition full sm : bool := bool_decide (sm_max sm ≤ Z.of_nat (size (sm_sessions sm)))%Z.

(** The reads of the random source; [None] when they were all taken and the
    loop is still drawing. *)
Fixpoint generateUniqueSessionIDLocked sm (reads : list (option (list Z))) : option (result session_error string) :=
  match reads with
  | [] => None
  | None :: _ => Some (Err ErrSessionIDGenerationFailed)
  | Some bytes :: reads =>
      let id := hex bytes in
      match sm_sessions sm !! id with
      | None => Some (Ok id)
      | Some _ => generateUniqueSessionIDLocked sm reads
      end
  end.

Inductive create_outcome : Type :=
  | Created (p : nat)
  | CreateFailed (e : session_error)
  | CreateRetry
  | CreateDrawing.

Definition new_session sm now id : SessionManager :=
  let generation := wrap64 (nextGeneration sm + 1) in
  mkSessionManager (sm_heap sm ++ [mkMCPSession id generation now now 0 0 0 None false])
    (<[id := length (sm_heap sm)]> (sm_sessions sm)) (sm_max sm) generation (sm_stopped sm) (closed_pipes sm) (sent sm).

(** The end of [CreateSession], under the lock. *)
Definition create_end sm now (reads : list (option (list Z))) : SessionManager * create_outcome :=
  match generateUniqueSessionIDLocked sm reads with
  | None => (sm, CreateDrawing)
  | Some (Err e) => (sm, CreateFailed e)
  | Some (Ok id) => (new_session sm now id, Created (length (sm_heap sm)))
  end.

(** The second critical section, after the removal callbacks of the first. *)
Definition create_retry sm now (reads : list (option (list Z))) : SessionManager * create_outcome :=
  if sm_stopped sm then (sm, CreateFailed ErrSessionManagerStopped)
  else if full sm then (sm, CreateFailed ErrSessionCapacityReached)
  else create_end sm now reads.

End sessions.

Section manager.
Context (range : gmap string nat → list (string * nat)).
Implicit Types (s : MCPSession) (sm : SessionManager) (p : nat) (id : string) (now : Z).

Definition removeExpiredLocked sm now : SessionManager * list string :=
  let toRemove := map fst (List.filter (λ ip, expired sm now ip.2) (range (sm_sessions sm))) in
  (foldl removeSessionLocked sm toRemove, toRemove).

(** The first critical section of [CreateSession]. *)
Definition create_begin sm now (reads : list (option (list Z))) : SessionManager * list string * create_outcome :=
  if sm_stopped sm then (sm, [], CreateFailed ErrSessionManagerStopped)
  else if full sm then
    let '(sm, removed) := removeExpiredLocked sm now in
    (sm, removed, if full sm then CreateFailed ErrSessionCapacityReached else CreateRetry)
  else let '(sm, o) := create_end sm now reads in (sm, [], o).

(** Both sections, with nothing in between. *)
Definition CreateSession sm now (reads : list (option (list Z))) : SessionManager * list string * create_outcome :=
  match create_begin sm now reads with
  | (sm, removed, CreateRetry) => let '(sm, o) := create_retry sm now reads in (sm, removed, o)
  | r => r
  end.

Definition getSession sm id now (touched : bool) : SessionManager * list string * option nat :=
  if decide (id = "") then (sm, [], None)
  else if sm_stopped sm then (sm, [], None)
  else
    match sm_sessions sm !! id with
    | None => (sm, [], None)
    | Some p =>
        if expired sm now p then (removeSessionLocked sm id, [id], None)
        else ((if touched then touch sm p now else sm), [], Some p)
    end.

Definition GetSession sm id now := getSession sm id now true.
Definition PeekSession sm id now := getSession sm id now false.

(** The session and whether it is new. *)
Definition EnsureSession sm id now (reads : list (option (list Z))) :
    SessionManager * list string * (create_outcome * bool) :=
  let '(sm, removed, found) := (if decide (id = "") then (sm, [], None) else GetSession sm id now) in
  match found with
  | Some p => (sm, removed, (Created p, false))
  | None => let '(sm, removed', o) := CreateSession sm now reads in (sm, removed ++ removed', (o, true))
  end.

Definition RemoveSession sm id : SessionManager * list string :=
  if decide (id = "") then (sm, [])
  else match sm_sessions sm !! id with
       | None => (sm, [])
       | Some _ => (removeSessionLocked sm id, [id])
       end.

(** [Stop]: the [sync.Once] has run exactly when the manager is stopped. *)
Definition manager_Stop sm : SessionManager * list string :=
  if sm_stopped sm then (sm, [])
  else
    let ids := map fst (range (sm_sessions sm)) in
    let sm := foldl removeSessionLocked sm ids in
    (mkSessionManager (sm_heap sm) (sm_sessions sm) (sm_max sm) (nextGeneration sm) true (closed_pipes sm) (sent sm), ids).

Definition cleanupExpiredSessions sm now : SessionManager * list string := removeExpiredLocked sm now.

Definition AllSessionIDs sm : list string := map fst (range (sm_sessions sm)).
Definition SnapshotSessions sm : list nat := map snd (range (sm_sessions sm)).
Definition ActiveSessionCount sm : nat := size (sm_sessions sm).

End manager.

(** [callRemovedHandlers]: every handler, for every identifier; a handler that
    panics is recovered from and does what it did until then. *)
Definition callRemovedHandlers {W : Type} (handlers : list (string → W → W)) (ids : list string) (w : W) : W :=
  foldl (λ w id, foldl (λ w handler, handler id w) w handlers) w ids.

(** ** The invariant *)

Record sm_ok (sm : SessionManager) : Prop := {
  ok_listed : ∀ id p, sm_sessions sm !! id = Some p →
    ∃ s, sm_heap sm !! p = Some s ∧ ses_ID s = id ∧ ses_closed s = false;
  ok_open : ∀ p s, sm_heap sm !! p = Some s → ses_closed s = false → sm_sessions sm !! ses_ID s = Some p;
  ok_generation : ∀ p s, sm_heap sm !! p = Some s → ses_Generation s = wrap64 (Z.of_nat p + 1);
  ok_next : nextGeneration sm = wrap64 (Z.of_nat (length (sm_heap sm)));
  ok_capacity : (Z.of_nat (size (sm_sessions sm)) ≤ sm_max sm)%Z;
  ok_stopped : sm_stopped sm = true → sm_sessions sm = ∅;
  ok_silent : ∀ p s, sm_heap sm !! p = Some s → ses_closed s = true → ses_stream s = None;
}.

(** How many sessions of an identifier have ended, and how often it was
    reported. *)
Definition ended (sm : SessionManager) (id : string) : nat :=
  length (filter (λ s, ses_ID s = id ∧ ses_closed s = true) (sm_heap sm)).
Definition times (id : string) (log : list string) : nat := length (filter (eq id) log).

Lemma times_app id l1 l2 : times id (l1 ++ l2) = times id l1 + times id l2.
Proof. unfold times. by rewrite filter_app, length_app. Qed.

(** A change of one element of a list changes the count of a filter by what
    the element contributes. *)
Lemma length_filter_insert {A} (P : A → Prop) `{∀ x, Decision (P x)} (l : list A) i x y :
  l !! i = Some x →
  length (filter P (<[i := y]> l)) + (if decide (P x) then 1 else 0) =
    length (filter P l) + (if decide (P y) then 1 else 0).
Proof.
  revert i. induction l as [|z l IH]; intros [|i]; simpl; try done.
  - intros [= ->]. rewrite !filter_cons. destruct (decide (P x)), (decide (P y)); simpl; lia.
  - intros Hi. specialize (IH i Hi). rewrite !filter_cons. destruct (decide (P z)); simpl; lia.
Qed.

Lemma alter_insert {A} (f : A → A) (l : list A) i x : l !! i = Some x → alter f i l = <[i := f x]> l.
Proof.
  intros Hx. apply list_eq. intros j. rewrite list_lookup_alter, list_lookup_insert.
  apply lookup_lt_Some in Hx as Hlt. repeat case_decide; subst; try tauto. by rewrite Hx.
Qed.

Section invariant.
Implicit Types (s : MCPSession) (sm : SessionManager) (p : nat) (id : string) (now : Z).

(** A change of a session that keeps its identity and whether it is closed. *)
Definition keeps sm p (f : MCPSession → MCPSession) : Prop :=
  ∀ s, sm_heap sm !! p = Some s →
    ses_ID (f s) = ses_ID s ∧ ses_Generation (f s) = ses_Generation s ∧ ses_closed (f s) = ses_closed s ∧
    (ses_closed s = true → ses_stream s = None → ses_stream (f s) = None).

Lemma update_lookup sm p f q :
  sm_heap (update sm p f) !! q = (if decide (p = q) then f <$> sm_heap sm !! q else sm_heap sm !! q).
Proof.
  simpl. rewrite list_lookup_alter. case_decide; [by subst|done].
Qed.

Lemma update_ok sm p f : keeps sm p f → sm_ok sm → sm_ok (update sm p f).
Proof.
  intros Hf [H1 H2 H3 H4 H5 H6 H7].
  assert (∀ q s, sm_heap (update sm p f) !! q = Some s →
    ∃ s0, sm_heap sm !! q = Some s0 ∧ (s = s0 ∨ sm_heap sm !! p = Some s0 ∧ s = f s0)) as Hb.
  { intros q s. rewrite update_lookup. case_decide; [|eauto]. subst. destruct (sm_heap sm !! q); naive_solver. }
  split; try done.
  - intros id q Hq. destruct (H1 id q Hq) as (s & Hs & Hid & Hc). rewrite update_lookup.
    case_decide; [|eauto]. subst. rewrite Hs. exists (f s). destruct (Hf s Hs) as (-> & _ & -> & _). done.
  - intros q s (s0 & Hs0 & [->|[Hp ->]])%Hb Hc; [by apply H2|].
    destruct (Hf s0 Hp) as (-> & _ & Hc' & _). apply H2; congruence.
  - intros q s (s0 & Hs0 & [->|[Hp ->]])%Hb; [by apply H3|]. destruct (Hf s0 Hp) as (_ & -> & _). by apply H3.
  - simpl. by rewrite length_alter.
  - intros q s (s0 & Hs0 & [->|[Hp ->]])%Hb Hc; [by eapply H7|]. destruct (Hf s0 Hp) as (_ & _ & Hc' & Hst).
    rewrite Hc' in Hc. apply Hst; [done|]. by eapply H7.
Qed.

Lemma update_ended sm p f id : keeps sm p f → ended (update sm p f) id = ended sm id.
Proof.
  intros Hf. unfold ended, update. simpl. destruct (sm_heap sm !! p) as [s|] eqn:Es.
  - rewrite (alter_insert f (sm_heap sm) p s Es).
    pose proof (length_filter_insert (λ s, ses_ID s = id ∧ ses_closed s = true) (sm_heap sm) p s (f s) Es) as Hl.
    destruct (Hf s Es) as (Hid & _ & Hc & _). simpl in *.
    destruct (decide (ses_ID s = id ∧ ses_closed s = true)), (decide (ses_ID (f s) = id ∧ ses_closed (f s) = true));
      rewrite Hid, Hc in *; try tauto; lia.
  - do 2 f_equal. apply list_eq. intros i. rewrite list_lookup_alter. case_decide; [|done]. subst. by rewrite Es.
Qed.

Lemma close_pipe_ok sm a : sm_ok sm → sm_ok (close_pipe sm a).
Proof. destruct a; [|done]. intros [H1 H2 H3 H4 H5 H6 H7]. by split. Qed.

Lemma close_pipe_ended sm a id : ended (close_pipe sm a) id = ended sm id.
Proof. by destruct a. Qed.

(** The end of a session. *)
Lemma removeSessionLocked_ok sm id p :
  sm_ok sm → sm_sessions sm !! id = Some p →
  let sm' := removeSessionLocked sm id in
  sm_ok sm' ∧ sm_sessions sm' = delete id (sm_sessions sm) ∧ sm_stopped sm' = sm_stopped sm ∧ sm_max sm' = sm_max sm ∧
  (∀ id', ended sm' id' = ended sm id' + (if decide (id = id') then 1 else 0)) ∧
  (∀ q s, sm_heap sm !! q = Some s → q ≠ p → sm_heap sm' !! q = Some s).
Proof.
  intros [H1 H2 H3 H4 H5 H6 H7] Hp. destruct (H1 id p Hp) as (s & Hs & Hid & Hc). cbv zeta.
  unfold removeSessionLocked, session_close. rewrite Hp, Hs, Hc.
  set (f := λ s : MCPSession, with_stream (streamSeq s) None true s).
  assert (alter f p (sm_heap sm) = <[p := f s]> (sm_heap sm)) as Ha by by apply alter_insert.
  assert (∀ q s', alter f p (sm_heap sm) !! q = Some s' →
            q = p ∧ s' = f s ∨ q ≠ p ∧ sm_heap sm !! q = Some s') as Hb.
  { intros q s'. rewrite Ha, list_lookup_insert. apply lookup_lt_Some in Hs. case_decide; naive_solver. }
  assert (∀ a, let sm' := set_sessions (close_pipe (update sm p f) a) (delete id (sm_sessions (close_pipe (update sm p f) a))) in
    sm_heap sm' = alter f p (sm_heap sm) ∧ sm_sessions sm' = delete id (sm_sessions sm) ∧ sm_max sm' = sm_max sm ∧
    nextGeneration sm' = nextGeneration sm ∧ sm_stopped sm' = sm_stopped sm) as Hsm by by intros [].
  specialize (Hsm (ses_stream s)). revert Hsm. generalize (set_sessions (close_pipe (update sm p f) (ses_stream s))
    (delete id (sm_sessions (close_pipe (update sm p f) (ses_stream s))))) as sm'.
  intros sm' (Eh & Es & Em & En & Est). split_and!; try done.
  - split; rewrite ?Eh, ?Es, ?Em, ?En, ?Est.
    + intros id' q [Hne Hq]%lookup_delete_Some. destruct (H1 id' q Hq) as (s' & Hs' & Hid' & Hc').
      exists s'. split; [|done]. rewrite Ha, list_lookup_insert_ne; [done|]. intros ->. congruence.
    + intros q s' [[-> ->]|[Hne Hq]]%Hb Hc'; [done|]. apply lookup_delete_Some. split; [|by apply H2].
      intros Heq. specialize (H2 q s' Hq Hc'). congruence.
    + intros q s' [[-> ->]|[Hne Hq]]%Hb; [by apply (H3 p s)|by apply H3].
    + by rewrite length_alter.
    + rewrite map_size_delete_Some by eauto. lia.
    + intros Hst%H6. by rewrite Hst, lookup_empty in Hp.
    + intros q s' [[-> ->]|[Hne Hq]]%Hb Hc'; [done|by eapply H7].
  - intros id'. unfold ended. rewrite Eh, Ha.
    pose proof (length_filter_insert (λ s, ses_ID s = id' ∧ ses_closed s = true) (sm_heap sm) p s (f s) Hs) as Hl. simpl in Hl.
    rewrite Hid, Hc in Hl. rewrite (decide_False (P := id = id' ∧ false = true)) in Hl by naive_solver.
    destruct (decide (id = id' ∧ true = true)), (decide (id = id')); try tauto; lia.
  - intros q s' Hq Hne. by rewrite Eh, Ha, list_lookup_insert_ne.
Qed.

Lemma times_cons id id' l : times id' (id :: l) = (if decide (id = id') then 1 else 0) + times id' l.
Proof. unfold times. rewrite filter_cons. repeat case_decide; simpl; congruence. Qed.

(** Several sessions at once. *)
Lemma remove_all_ok sm ids :
  sm_ok sm → NoDup ids → (∀ id, id ∈ ids → is_Some (sm_sessions sm !! id)) →
  let sm' := foldl removeSessionLocked sm ids in
  sm_ok sm' ∧ sm_sessions sm' = filter (λ ip, ip.1 ∉ ids) (sm_sessions sm) ∧ sm_stopped sm' = sm_stopped sm ∧
  sm_max sm' = sm_max sm ∧ (∀ id, ended sm' id = ended sm id + times id ids).
Proof.
  revert sm. induction ids as [|id ids IH]; intros sm Hok Hnd Hin; simpl.
  { split; [done|]. split; [symmetry; apply map_filter_id; set_solver|]. split_and!; [done|done|]. unfold times. simpl. lia. }
  apply NoDup_cons in Hnd as [Hni Hnd]. destruct (Hin id) as [p Hp]; [constructor|].
  destruct (removeSessionLocked_ok sm id p Hok Hp) as (Hok' & Es & Est & Em & Ee & _).
  destruct (IH _ Hok' Hnd) as (H1 & H2 & H3 & H4 & H5).
  { intros id' Hid'. rewrite Es, lookup_delete_ne by set_solver. apply Hin. by constructor. }
  rewrite H2, H3, H4, Es, Est, Em. split_and!; try done.
  - apply map_eq. intros k. apply option_eq. intros q. rewrite !map_lookup_filter_Some, lookup_delete_Some. set_solver.
  - intros id'. rewrite H5, Ee, times_cons. lia.
Qed.
End invariant.

(** ** Histories *)

Inductive session_op : Type :=
  | SCreate (now : Z) (reads : list (option (list Z)))
  | SCreateRetry (now : Z) (reads : list (option (list Z)))
  | SGet (id : string) (now : Z) (touched : bool)
  | SRemove (id : string)
  | SStop
  | SCleanup (now : Z)
  | SMark (p : nat)
  | SNotified (p : nat) (version : Z)
  | SAttach (p : nat) (writer : nat)
  | SDetach (p : nat) (token : Z)
  | SWrite (p : nat) (stream : option streamAttachment) (data : string) (reader : bool) (now : Z).

#[export] Instance streamAttachment_eq_dec : EqDecision streamAttachment.
Proof. solve_decision. Defined.
#[export] Instance session_op_eq_dec : EqDecision session_op.
Proof. solve_decision. Defined.

Section histories.
Context (range : gmap string nat → list (string * nat)) (Hrange : ∀ m, range m ≡ₚ map_to_list m).
Implicit Types (s : MCPSession) (sm : SessionManager) (p : nat) (id : string) (now : Z).

(** A step and the identifiers that it reports as removed. *)
Definition session_step sm (op : session_op) : SessionManager * list string :=
  match op with
  | SCreate now reads => (create_begin range sm now reads).1
  | SCreateRetry now reads => ((create_retry sm now reads).1, [])
  | SGet id now touched => (getSession sm id now touched).1
  | SRemove id => RemoveSession sm id
  | SStop => manager_Stop range sm
  | SCleanup now => cleanupExpiredSessions range sm now
  | SMark p => ((MarkToolsListChangedPending sm p).1, [])
  | SNotified p version => (MarkToolsListChangedNotified sm p version, [])
  | SAttach p writer => ((AttachStream sm p writer).1, [])
  | SDetach p token => (DetachStream sm p token, [])
  | SWrite p stream data reader now => ((writeSSEData sm p stream data reader now).1, [])
  end.

Fixpoint session_run sm (ops : list session_op) : SessionManager * list string :=
  match ops with
  | [] => (sm, [])
  | op :: ops =>
      let '(sm, removed) := session_step sm op in
      let '(sm, log) := session_run sm ops in (sm, removed ++ log)
  end.

(** What one step does to the invariant and to the account of the sessions
    that ended. *)
Definition step_ok sm (r : SessionManager * list string) : Prop :=
  sm_ok r.1 ∧ (∀ id, ended r.1 id = ended sm id + times id r.2) ∧ sm_max r.1 = sm_max sm ∧
  (sm_stopped sm = true → sm_stopped r.1 = true).

Lemma step_refl sm : sm_ok sm → step_ok sm (sm, []).
Proof. intros H. split; [done|]. split; [|done]. intros id. unfold times. simpl. lia. Qed.

Lemma step_update sm p f : keeps sm p f → sm_ok sm → step_ok sm (update sm p f, []).
Proof.
  intros Hf H. split_and!; [by apply update_ok| |done|done]. intros id. simpl. rewrite update_ended by done.
  unfold times. simpl. lia.
Qed.

Lemma step_close_pipe sm sm' a : step_ok sm (sm', []) → step_ok sm (close_pipe sm' a, []).
Proof.
  intros (H1 & H2 & H3 & H4). split_and!; simpl in *; [by apply close_pipe_ok| | |].
  - intros id. by rewrite close_pipe_ended.
  - by destruct a.
  - by destruct a.
Qed.

Lemma range_fst m : NoDup (map fst (range m)) ∧ ∀ id, id ∈ map fst (range m) → is_Some (m !! id).
Proof.
  split.
  - assert (map fst (range m) ≡ₚ map fst (map_to_list m)) as -> by by apply Permutation_map. apply NoDup_fst_map_to_list.
  - intros id ([id' p] & -> & Hin)%list_elem_of_fmap. rewrite Hrange in Hin. apply elem_of_map_to_list in Hin. eauto.
Qed.

Lemma expired_ids sm now :
  let ids := map fst (List.filter (λ ip, expired sm now ip.2) (range (sm_sessions sm))) in
  NoDup ids ∧ (∀ id, id ∈ ids ↔ ∃ p, sm_sessions sm !! id = Some p ∧ expired sm now p = true).
Proof.
  destruct (range_fst (sm_sessions sm)) as [Hnd _]. cbv zeta. split.
  - revert Hnd. generalize (range (sm_sessions sm)) as l. intros l Hnd. induction l as [|ip l IH]; [constructor|].
    simpl in Hnd. apply NoDup_cons in Hnd as [Hni Hnd]. simpl. case_match; [|auto]. simpl. constructor; [|auto].
    intros ([id q] & Hid & Hin)%list_elem_of_fmap. apply Hni. rewrite Hid. apply list_elem_of_fmap. exists (id, q).
    split; [done|]. apply list_elem_of_In. apply list_elem_of_In, filter_In in Hin. apply Hin.
  - intros id. rewrite list_elem_of_fmap. split.
    + intros ([id' p] & -> & Hin). apply list_elem_of_In, filter_In in Hin as [Hin%list_elem_of_In He].
      rewrite Hrange in Hin. apply elem_of_map_to_list in Hin. eauto.
    + intros (p & Hp & He). exists (id, p). split; [done|]. apply list_elem_of_In, filter_In. split; [|done].
      apply list_elem_of_In. rewrite Hrange. by apply elem_of_map_to_list.
Qed.

Lemma removeExpired_step sm now :
  sm_ok sm → step_ok sm (removeExpiredLocked range sm now) ∧
  sm_stopped (removeExpiredLocked range sm now).1 = sm_stopped sm ∧
  ∀ id p, sm_sessions (removeExpiredLocked range sm now).1 !! id = Some p ↔
          sm_sessions sm !! id = Some p ∧ expired sm now p = false.
Proof.
  intros Hok. destruct (expired_ids sm now) as [Hnd Hids]. unfold removeExpiredLocked.
  set (ids := map fst _) in *.
  destruct (remove_all_ok sm ids Hok Hnd) as (H1 & H2 & H3 & H4 & H5).
  { intros id (p & Hp & _)%Hids. eauto. }
  split; [split_and!; simpl; try done; congruence|]. split; [done|]. simpl. intros id p. rewrite H2, map_lookup_filter_Some.
  simpl. rewrite Hids. split.
  - intros [Hp Hn]. split; [done|]. destruct (expired sm now p) eqn:E; [|done]. exfalso. apply Hn. eauto.
  - intros [Hp He]. split; [done|]. intros (q & Hq & Heq). congruence.
Qed.

Lemma generate_fresh sm reads id :
  generateUniqueSessionIDLocked sm reads = Some (Ok id) →
  sm_sessions sm !! id = None ∧ ∃ bytes, Some bytes ∈ reads ∧ id = hex bytes.
Proof.
  induction reads as [|[bytes|] reads IH]; simpl; [done| |done].
  destruct (sm_sessions sm !! hex bytes) eqn:E.
  - intros (H1 & b & Hb & ->)%IH. split; [done|]. exists b. split; [by constructor|done].
  - intros [= <-]. split; [done|]. exists bytes. split; [constructor|done].
Qed.

Lemma create_end_step sm now reads :
  sm_ok sm → sm_stopped sm = false → full sm = false → step_ok sm ((create_end sm now reads).1, []).
Proof.
  intros Hok Hst Hf. unfold create_end. destruct (generateUniqueSessionIDLocked sm reads) as [[id|e]|] eqn:E;
    [|by apply step_refl..].
  apply generate_fresh in E as [Hid _]. apply bool_decide_eq_false in Hf. destruct Hok as [H1 H2 H3 H4 H5 H6 H7].
  unfold new_session. set (s := mkMCPSession id _ _ _ _ _ _ _ _).
  assert (∀ q s', (sm_heap sm ++ [s]) !! q = Some s' →
    sm_heap sm !! q = Some s' ∨ q = length (sm_heap sm) ∧ s' = s) as Hb.
  { intros q s' [Hq|[Hq Hs']]%lookup_app_Some; [by left|]. apply list_lookup_singleton_Some in Hs' as [Hz ->].
    right. split; [lia|done]. }
  split_and!; simpl; [split; simpl| |done|done].
  - intros id' q [[<- <-]|[Hne Hq]]%lookup_insert_Some.
    + exists s. split; [|done]. apply list_lookup_middle. done.
    + destruct (H1 id' q Hq) as (s' & Hs' & ?). exists s'. split; [|done]. by apply lookup_app_l_Some.
  - intros q s' [Hq|[-> ->]]%Hb Hc; [|by rewrite lookup_insert_eq].
    rewrite lookup_insert_ne; [by apply H2|]. intros ->. specialize (H2 q s' Hq Hc). congruence.
  - intros q s' [Hq|[-> ->]]%Hb; [by apply H3|]. simpl. rewrite H4. unfold wrap64. by rewrite Zplus_mod_idemp_l.
  - rewrite H4, length_app. unfold wrap64. rewrite Zplus_mod_idemp_l. f_equal. simpl. lia.
  - rewrite map_size_insert_None by done. lia.
  - congruence.
  - intros q s' [Hq|[-> ->]]%Hb Hc; [by eapply H7|done].
  - intros id'. unfold ended. simpl. rewrite filter_app, length_app. rewrite (filter_cons_False _ s) by naive_solver.
    unfold times. simpl. lia.
Qed.

Lemma create_retry_step sm now reads : sm_ok sm → step_ok sm ((create_retry sm now reads).1, []).
Proof.
  intros Hok. unfold create_retry. destruct (sm_stopped sm) eqn:Hst; [by apply step_refl|].
  destruct (full sm) eqn:Hf; [by apply step_refl|]. by apply create_end_step.
Qed.

Lemma create_begin_step sm now reads : sm_ok sm → step_ok sm (create_begin range sm now reads).1.
Proof.
  intros Hok. unfold create_begin. destruct (sm_stopped sm) eqn:Hst; [by apply step_refl|].
  destruct (full sm) eqn:Hf.
  - destruct (removeExpired_step sm now Hok) as [H _]. by destruct (removeExpiredLocked range sm now).
  - pose proof (create_end_step sm now reads Hok Hst Hf) as H. by destruct (create_end sm now reads).
Qed.

Lemma remove_step sm id p :
  sm_ok sm → sm_sessions sm !! id = Some p → step_ok sm (removeSessionLocked sm id, [id]).
Proof.
  intros Hok Hp. destruct (removeSessionLocked_ok sm id p Hok Hp) as (H1 & _ & H3 & H4 & H5 & _).
  split_and!; simpl; [done| |done|congruence]. intros id'. rewrite H5, times_cons. unfold times. simpl. lia.
Qed.

Lemma touch_keeps sm p now : keeps sm p (with_activity now).
Proof. by intros s _. Qed.

Lemma getSession_step sm id now touched : sm_ok sm → step_ok sm (getSession sm id now touched).1.
Proof.
  intros Hok. unfold getSession. case_decide; [by apply step_refl|]. destruct (sm_stopped sm); [by apply step_refl|].
  destruct (sm_sessions sm !! id) as [p|] eqn:Hp; [|by apply step_refl].
  destruct (expired sm now p); simpl; [by eapply remove_step|].
  destruct touched; [|by apply step_refl]. apply step_update; [apply touch_keeps|done].
Qed.

Lemma Stop_step sm : sm_ok sm → step_ok sm (manager_Stop range sm) ∧ sm_stopped (manager_Stop range sm).1 = true.
Proof.
  intros Hok. unfold manager_Stop. destruct (sm_stopped sm) eqn:Hst; [split; [by apply step_refl|done]|].
  destruct (range_fst (sm_sessions sm)) as [Hnd Hin].
  destruct (remove_all_ok sm _ Hok Hnd Hin) as ([H1 H2 H3 H4 H5 H6 H7] & Es & _ & Em & He). split; [|done].
  split_and!; simpl; [|done|done|done]. split; simpl; try done.
  intros _. rewrite Es. apply map_empty. intros id. apply map_lookup_filter_None. right. intros p Hp Hn. apply Hn. simpl.
  apply list_elem_of_fmap. exists (id, p). split; [done|]. rewrite Hrange. by apply elem_of_map_to_list.
Qed.

Lemma step_ok_all sm op : sm_ok sm → step_ok sm (session_step sm op).
Proof.
  intros Hok. destruct op; simpl.
  - by apply create_begin_step.
  - by apply create_retry_step.
  - by apply getSession_step.
  - unfold RemoveSession. case_decide; [by apply step_refl|].
    destruct (sm_sessions sm !! id) as [p|] eqn:Hp; [by eapply remove_step|by apply step_refl].
  - by apply Stop_step.
  - by apply removeExpired_step.
  - unfold MarkToolsListChangedPending. destruct (sm_heap sm !! p) as [s|]; [|by apply step_refl].
    destruct (ses_closed s); [by apply step_refl|]. by apply step_update.
  - apply step_update; [|done]. intros s _. by case_decide.
  - unfold AttachStream. destruct (sm_heap sm !! p) as [s|] eqn:Es; [|by apply step_refl].
    destruct (ses_closed s) eqn:Ec; [by apply step_refl|]. apply step_close_pipe.
    apply step_update; [|done]. intros s' Hs'. split_and!; try done. congruence.
  - unfold DetachStream. destruct (sm_heap sm !! p) as [s|]; [|by apply step_refl].
    destruct (ses_stream s) as [a|]; [|by apply step_refl]. case_decide; [|by apply step_refl].
    apply step_close_pipe. by apply step_update.
  - unfold writeSSEData. destruct stream as [a|]; [|by apply step_refl]. case_decide; [by apply step_refl|].
    simpl. apply (step_update (mkSessionManager _ _ _ _ _ _ _)); [apply touch_keeps|]. by destruct Hok.
Qed.

Lemma run_ok sm ops : sm_ok sm → step_ok sm (session_run sm ops).
Proof.
  revert sm. induction ops as [|op ops IH]; intros sm Hok; simpl; [by apply step_refl|].
  destruct (step_ok_all sm op Hok) as (H1 & H2 & H3 & H4).
  destruct (session_step sm op) as [sm1 removed]. simpl in *. destruct (IH sm1 H1) as (G1 & G2 & G3 & G4).
  destruct (session_run sm1 ops) as [sm2 log]. simpl in *. split_and!; simpl; [done| |congruence|auto].
  intros id. rewrite G2, H2, times_app. lia.
Qed.

Lemma new_ok maxEntries : sm_ok (NewSessionManagerWithOptions maxEntries).
Proof.
  split; simpl; try done. rewrite map_size_empty. unfold DefaultMaxSessions. case_decide; lia.
Qed.

Lemma new_run_ok maxEntries ops :
  sm_ok (session_run (NewSessionManagerWithOptions maxEntries) ops).1 ∧
  (∀ id, ended (session_run (NewSessionManagerWithOptions maxEntries) ops).1 id =
         times id (session_run (NewSessionManagerWithOptions maxEntries) ops).2) ∧
  sm_max (session_run (NewSessionManagerWithOptions maxEntries) ops).1 =
    sm_max (NewSessionManagerWithOptions maxEntries).
Proof. destruct (run_ok _ ops (new_ok maxEntries)) as (H1 & H2 & H3 & _). by split. Qed.

(** C24: every history of the manager, with the two critical sections of a creation
    interleaved with anything: the map lists exactly the sessions that are not
    closed, under their identifiers, and never more than the capacity; no two
    sessions ever share a generation; and the removal of a session is reported
    exactly once, by whatever path it ended. *)
Theorem session_history maxEntries ops :
  let '(sm, log) := session_run (NewSessionManagerWithOptions maxEntries) ops in
  (∀ id p, sm_sessions sm !! id = Some p ↔
           ∃ s, sm_heap sm !! p = Some s ∧ ses_ID s = id ∧ ses_closed s = false) ∧
  (Z.of_nat (ActiveSessionCount sm) ≤ if decide (maxEntries ≤ 0)%Z then DefaultMaxSessions else maxEntries)%Z ∧
  (∀ p q s t, sm_heap sm !! p = Some s → sm_heap sm !! q = Some t → ses_Generation s = ses_Generation t →
              (Z.of_nat (length (sm_heap sm)) < 2 ^ 64)%Z → p = q) ∧
  (∀ id, times id log = length (filter (λ s, ses_ID s = id ∧ ses_closed s = true) (sm_heap sm))).
Proof.
  destruct (new_run_ok maxEntries ops) as ([H1 H2 H3 H4 H5 H6 H7] & He & Hm).
  destruct (session_run _ ops) as [sm log]. simpl in *. split_and!.
  - intros id p. split; [apply H1|]. intros (s & Hs & <- & Hc). by apply H2.
  - unfold ActiveSessionCount. by rewrite <- Hm.
  - intros p q s u Hp Hq Hg Hlen. rewrite (H3 p s Hp), (H3 q u Hq) in Hg.
    apply lookup_lt_Some in Hp, Hq. rewrite !wrap64_small in Hg by lia. lia.
  - intros id. symmetry. apply He.
Qed.

(** ** Looking a session up *)

(** A session that is handed out was created under that identifier, is open and
    was used within the timeout; every open session that was is handed out,
    until the manager stops; and handing it out moves its deadline. *)
Theorem get_session_exact maxEntries ops id now touched :
  let sm := (session_run (NewSessionManagerWithOptions maxEntries) ops).1 in
  let '(sm', removed, found) := getSession sm id now touched in
  (∀ p, found = Some p ↔ id ≠ "" ∧ sm_stopped sm = false ∧
          ∃ s, sm_heap sm !! p = Some s ∧ ses_ID s = id ∧ ses_closed s = false ∧
               (now - LastActivity s ≤ SessionTimeout)%Z) ∧
  (∀ p s, found = Some p → sm_heap sm !! p = Some s →
          removed = [] ∧ sm_heap sm' !! p = Some (if touched then with_activity now s else s)).
Proof.
  intros sm. destruct (new_run_ok maxEntries ops) as ([H1 H2 H3 H4 H5 H6 H7] & _). fold sm in H1, H2, H6. clearbody sm.
  unfold getSession. case_decide as Hid; [naive_solver|]. destruct (sm_stopped sm) eqn:Hst; [naive_solver|].
  destruct (sm_sessions sm !! id) as [p|] eqn:Hp.
  - destruct (H1 id p Hp) as (s & Hs & Hsid & Hc). unfold expired. rewrite Hs. unfold sessionExpired.
    case_bool_decide as Hx; split.
    + intros q. split; [done|]. intros (_ & _ & u & Hu & Huid & Huc & Hle).
      assert (sm_sessions sm !! ses_ID u = Some q) by by apply H2. exfalso.
      assert (q = p) as -> by congruence. assert (u = s) as -> by congruence. lia.
    + done.
    + intros q. split.
      * intros [= <-]. split_and!; [done|done|]. exists s. split_and!; try done. lia.
      * intros (_ & _ & u & Hu & Huid & Huc & Hle). assert (sm_sessions sm !! ses_ID u = Some q) by by apply H2. congruence.
    + intros q u [= <-] Hu. split; [done|]. destruct touched; [|done]. simpl. rewrite list_lookup_alter.
      rewrite decide_True by done. by rewrite Hu.
  - split; [|done]. intros q. split; [done|]. intros (_ & _ & u & Hu & Huid & Huc & _).
    assert (sm_sessions sm !! ses_ID u = Some q) by by apply H2. congruence.
Qed.

(** ** Elementary changes

    Every step is a sequence of changes of a few kinds; a property that all of
    them keep holds along every history. *)

Definition op_time (op : session_op) : option Z :=
  match op with
  | SCreate now _ | SCreateRetry now _ | SGet _ now _ | SCleanup now | SWrite _ _ _ _ now => Some now
  | _ => None
  end.

(** Why a step may remove a session. *)
Definition may_remove (op : session_op) sm id p : Prop :=
  op = SRemove id ∨ op = SStop ∨ ∃ now, op_time op = Some now ∧ expired sm now p = true.

Definition set_stopped sm : SessionManager :=
  mkSessionManager (sm_heap sm) (sm_sessions sm) (sm_max sm) (nextGeneration sm) true (closed_pipes sm) (sent sm).

Definition log_write sm (w : nat) (data : string) : SessionManager :=
  mkSessionManager (sm_heap sm) (sm_sessions sm) (sm_max sm) (nextGeneration sm) (sm_stopped sm) (closed_pipes sm)
    (sent sm ++ [(w, data)]).

Inductive session_change (op : session_op) sm : SessionManager → Prop :=
  | ChTouch p now : op_time op = Some now → session_change op sm (touch sm p now)
  | ChRemove id p : sm_sessions sm !! id = Some p → may_remove op sm id p → session_change op sm (removeSessionLocked sm id)
  | ChNew id now : op_time op = Some now → sm_sessions sm !! id = None → session_change op sm (new_session sm now id)
  | ChStopped : op = SStop → session_change op sm (set_stopped sm)
  | ChMarked p : op = SMark p → session_change op sm (MarkToolsListChangedPending sm p).1
  | ChNotified p version : op = SNotified p version → session_change op sm (MarkToolsListChangedNotified sm p version)
  | ChAttached p w : op = SAttach p w → session_change op sm (AttachStream sm p w).1
  | ChDetached p token : op = SDetach p token → session_change op sm (DetachStream sm p token)
  | ChSent w data : w ∉ closed_pipes sm → session_change op sm (log_write sm w data).

Lemma removals_changes op sm ids :
  sm_ok sm → NoDup ids →
  (∀ id, id ∈ ids → ∃ p, sm_sessions sm !! id = Some p ∧ may_remove op sm id p) →
  rtc (session_change op) sm (foldl removeSessionLocked sm ids).
Proof.
  revert sm. induction ids as [|id ids IH]; intros sm Hok Hnd Hin; [apply rtc_refl|]. simpl.
  apply NoDup_cons in Hnd as [Hni Hnd]. destruct (Hin id) as (p & Hp & Hm); [constructor|].
  eapply rtc_l; [by eapply ChRemove|].
  destruct (removeSessionLocked_ok sm id p Hok Hp) as (Hok' & Es & _ & _ & _ & Hh).
  apply IH; [done|done|]. intros id' Hid'. destruct (Hin id') as (q & Hq & Hm'); [by constructor|].
  exists q. assert (id ≠ id') as Hne by set_solver. split; [by rewrite Es, lookup_delete_ne|].
  destruct Hm' as [->|[->|(now & Hnow & He)]]; [by left|by right; left|right; right]. exists now. split; [done|].
  unfold expired in *. destruct (sm_heap sm !! q) as [s|] eqn:Hs; [|done].
  destruct Hok as [H1 _ _ _ _ _ _]. rewrite (Hh q s Hs); [done|]. intros ->.
  destruct (H1 id p Hp) as (s1 & ? & ? & _), (H1 id' p Hq) as (s2 & ? & ? & _). congruence.
Qed.

Lemma expired_changes op sm now :
  sm_ok sm → op_time op = Some now → rtc (session_change op) sm (removeExpiredLocked range sm now).1.
Proof.
  intros Hok Hop. destruct (expired_ids sm now) as [Hnd Hids]. apply removals_changes; [done|done|].
  intros id (p & Hp & He)%Hids. exists p. split; [done|]. right. right. eauto.
Qed.

Lemma create_end_changes op sm now reads :
  op_time op = Some now → rtc (session_change op) sm (create_end sm now reads).1.
Proof.
  intros Hop. unfold create_end. destruct (generateUniqueSessionIDLocked sm reads) as [[id|e]|] eqn:E; [|apply rtc_refl..].
  apply rtc_once. apply generate_fresh in E as [Hid _]. by apply ChNew.
Qed.

Lemma session_step_changes sm op : sm_ok sm → rtc (session_change op) sm (session_step sm op).1.
Proof.
  intros Hok. destruct op; simpl; try (apply rtc_once; constructor; done).
  - unfold create_begin. destruct (sm_stopped sm); [apply rtc_refl|]. destruct (full sm).
    + pose proof (expired_changes (SCreate now reads) sm now Hok eq_refl) as H. by destruct (removeExpiredLocked range sm now).
    + pose proof (create_end_changes (SCreate now reads) sm now reads eq_refl) as H. by destruct (create_end sm now reads).
  - unfold create_retry. destruct (sm_stopped sm); [apply rtc_refl|]. destruct (full sm); [apply rtc_refl|].
    by apply create_end_changes.
  - unfold getSession. case_decide; [apply rtc_refl|]. destruct (sm_stopped sm); [apply rtc_refl|].
    destruct (sm_sessions sm !! id) as [p|] eqn:Hp; [|apply rtc_refl]. destruct (expired sm now p) eqn:He; simpl.
    + apply rtc_once. eapply ChRemove; [done|]. right. right. eauto.
    + destruct touched; [|apply rtc_refl]. apply rtc_once. by apply ChTouch.
  - unfold RemoveSession. case_decide; [apply rtc_refl|].
    destruct (sm_sessions sm !! id) as [p|] eqn:Hp; [|apply rtc_refl]. apply rtc_once. eapply ChRemove; [done|]. by left.
  - unfold manager_Stop. destruct (sm_stopped sm); [apply rtc_refl|]. simpl. eapply rtc_r; [|by apply ChStopped].
    destruct (range_fst (sm_sessions sm)) as [Hnd Hin]. apply removals_changes; [done|done|].
    intros id [p Hp]%Hin. exists p. split; [done|]. right. by left.
  - by apply expired_changes.
  - unfold writeSSEData. destruct stream as [a|]; [|apply rtc_refl]. case_decide as Hd; [apply rtc_refl|].
    eapply rtc_l; [apply (ChSent _ _ (st_writer a) data); tauto|]. apply rtc_once. by apply (ChTouch _ (log_write sm _ _)).
Qed.

(** A property of a history that the changes keep. *)
Lemma run_preserves (Q : session_op → Prop) (P : SessionManager → Prop) sm ops :
  (∀ op sm1 sm2, Q op → P sm1 → session_change op sm1 sm2 → P sm2) →
  sm_ok sm → Forall Q ops → P sm → P (session_run sm ops).1.
Proof.
  intros HP Hok Hops. revert sm Hok. induction Hops as [|op ops Hop _ IH]; intros sm Hok Hsm; [done|]. simpl.
  pose proof (session_step_changes sm op Hok) as Hch. pose proof (step_ok_all sm op Hok) as [Hok' _].
  destruct (session_step sm op) as [sm1 removed]. simpl in *.
  assert (P sm1) as H1.
  { clear -HP Hop Hch Hsm. induction Hch as [|x y z Hxy _ IHc]; [done|]. apply IHc. by eapply HP. }
  specialize (IH sm1 Hok' H1). by destruct (session_run sm1 ops).
Qed.
End histories.

(** ** How long a session lives *)

Lemma session_close_fields sm p :
  sm_sessions (session_close sm p) = sm_sessions sm ∧ ∀ q, q ≠ p → sm_heap (session_close sm p) !! q = sm_heap sm !! q.
Proof.
  unfold session_close. destruct (sm_heap sm !! p) as [s|]; [|done]. destruct (ses_closed s); [done|].
  assert (∀ sm' a, sm_sessions (close_pipe sm' a) = sm_sessions sm' ∧ sm_heap (close_pipe sm' a) = sm_heap sm') as H by by intros ? [].
  destruct (H (update sm p (λ s, with_stream (streamSeq s) None true s)) (ses_stream s)) as [-> ->]. split; [done|].
  intros q Hq. rewrite update_lookup. by rewrite decide_False.
Qed.

Lemma removeSessionLocked_other sm id q p :
  sm_sessions sm !! id = Some q → p ≠ q →
  sm_heap (removeSessionLocked sm id) !! p = sm_heap sm !! p ∧
  sm_sessions (removeSessionLocked sm id) = delete id (sm_sessions sm).
Proof.
  intros Hq Hne. unfold removeSessionLocked. rewrite Hq. destruct (session_close_fields sm q) as [H1 H2]. simpl.
  rewrite H1. split; [by apply H2|done].
Qed.

Lemma close_pipe_heap sm a : sm_heap (close_pipe sm a) = sm_heap sm ∧ sm_sessions (close_pipe sm a) = sm_sessions sm.
Proof. by destruct a. Qed.

(** What the operations on one session do to the heap. *)
Lemma AttachStream_heap sm p w q s :
  sm_heap sm !! q = Some s →
  ∃ s', sm_heap (AttachStream sm p w).1 !! q = Some s' ∧ ses_ID s' = ses_ID s ∧ LastActivity s' = LastActivity s ∧
        toolListChangeVersion s' = toolListChangeVersion s ∧
        lastNotifiedToolListVersion s' = lastNotifiedToolListVersion s ∧ ses_closed s' = ses_closed s ∧
        (s' = s ∨ p = q ∧ streamSeq s' = wrap64 (streamSeq s + 1) ∧
                  ses_stream s' = Some (mkStream (wrap64 (streamSeq s + 1)) w)).
Proof.
  intros Hq. unfold AttachStream. destruct (sm_heap sm !! p) as [s0|] eqn:Hp; [|by (exists s; auto 10)].
  destruct (ses_closed s0) eqn:Hc; [by (exists s; auto 10)|]. cbn [fst]. rewrite (proj1 (close_pipe_heap _ _)), update_lookup.
  case_decide as E; [|by (exists s; auto 10)]. subst q. rewrite Hp in *. simplify_eq/=. eexists. split; [done|]. simpl. auto 10.
Qed.

Lemma DetachStream_heap sm p token q s :
  sm_heap sm !! q = Some s →
  ∃ s', sm_heap (DetachStream sm p token) !! q = Some s' ∧ ses_ID s' = ses_ID s ∧ LastActivity s' = LastActivity s ∧
        toolListChangeVersion s' = toolListChangeVersion s ∧
        lastNotifiedToolListVersion s' = lastNotifiedToolListVersion s ∧ ses_closed s' = ses_closed s ∧
        streamSeq s' = streamSeq s ∧ (s' = s ∨ ses_stream s' = None).
Proof.
  intros Hq. unfold DetachStream. destruct (sm_heap sm !! p) as [s0|] eqn:Hp; [|by (exists s; auto 10)].
  destruct (ses_stream s0) as [a|]; [|by (exists s; auto 10)]. case_decide; [|by (exists s; auto 10)].
  rewrite (proj1 (close_pipe_heap _ _)), update_lookup. case_decide as E; [|by (exists s; auto 10)]. subst q. rewrite Hq.
  eexists. split; [done|]. simpl. auto 10.
Qed.

Lemma new_session_heap sm now id q s : sm_heap sm !! q = Some s → sm_heap (new_session sm now id) !! q = Some s.
Proof. apply lookup_app_l_Some. Qed.

Section lifetime.
Context (range : gmap string nat → list (string * nat)) (Hrange : ∀ m, range m ≡ₚ map_to_list m).

(** The clock of the step is within the timeout of [start], and the step does
    not end the session on purpose. *)
Definition within (start : Z) (id : string) (op : session_op) : Prop :=
  op ≠ SRemove id ∧ op ≠ SStop ∧ ∀ now, op_time op = Some now → (start ≤ now ≤ start + SessionTimeout)%Z.

Definition alive (start : Z) (id : string) (p : nat) (sm : SessionManager) : Prop :=
  sm_sessions sm !! id = Some p ∧ (∀ id', sm_sessions sm !! id' = Some p → id' = id) ∧
  ∃ s, sm_heap sm !! p = Some s ∧ (start ≤ LastActivity s)%Z.

Lemma change_alive start id p op sm sm' :
  within start id op → alive start id p sm → session_change op sm sm' → alive start id p sm'.
Proof.
  intros (Hr & Hs & Ht) (Hp & Hinj & s & Hps & Hla)
    [q now Hnow|id' q Hq Hm|id' now Hnow Hid'| |q _|q version _|q w _|q token _|w data _]; unfold alive.
  - simpl. split_and!; [done|done|]. rewrite list_lookup_alter. destruct (Ht now Hnow). case_decide; [|by eauto].
    subst. rewrite Hps. eexists. split; [done|]. done.
  - assert (id' ≠ id) as Hne.
    { intros ->. rewrite Hp in Hq. injection Hq as <-. destruct Hm as [?|[?|(now & Hnow & He)]]; [done|done|].
      unfold expired in He. rewrite Hps in He. apply bool_decide_eq_true in He. destruct (Ht now Hnow). lia. }
    assert (p ≠ q) as Hpq by naive_solver. destruct (removeSessionLocked_other sm id' q p Hq Hpq) as [-> ->].
    rewrite lookup_delete_ne by done. split_and!; [done| |by eauto]. intros id'' [_ H]%lookup_delete_Some. by apply Hinj.
  - rewrite (new_session_heap sm now id' p s Hps). simpl. apply lookup_lt_Some in Hps as Hlt. split_and!; [| |by eauto].
    + rewrite lookup_insert_ne; [done|]. intros ->. congruence.
    + intros id'' [[_ ?]|[_ H]]%lookup_insert_Some; [lia|by apply Hinj].
  - done.
  - unfold MarkToolsListChangedPending. destruct (sm_heap sm !! q) as [s0|]; [|by eauto 6].
    destruct (ses_closed s0); [by eauto 6|]. simpl. split_and!; [done|done|]. rewrite list_lookup_alter.
    case_decide; [|by eauto]. subst. rewrite Hps. eauto.
  - simpl. split_and!; [done|done|]. rewrite list_lookup_alter. case_decide; [|by eauto]. subst. rewrite Hps.
    eexists. split; [done|]. by case_decide.
  - destruct (AttachStream_heap sm q w p s Hps) as (s' & -> & _ & Hl & _).
    assert (sm_sessions (AttachStream sm q w).1 = sm_sessions sm) as ->.
    { unfold AttachStream. destruct (sm_heap sm !! q) as [s0|]; [|done]. destruct (ses_closed s0); [done|].
      cbn [fst]. by rewrite (proj2 (close_pipe_heap _ _)). }
    split_and!; [done|done|]. exists s'. split; [done|]. by rewrite Hl.
  - destruct (DetachStream_heap sm q token p s Hps) as (s' & -> & _ & Hl & _).
    assert (sm_sessions (DetachStream sm q token) = sm_sessions sm) as ->.
    { unfold DetachStream. destruct (sm_heap sm !! q) as [s0|]; [|done]. destruct (ses_stream s0); [|done].
      case_decide; [|done]. by rewrite (proj2 (close_pipe_heap _ _)). }
    split_and!; [done|done|]. exists s'. split; [done|]. by rewrite Hl.
  - by eauto 6.
Qed.

(** C37: a session outlives everything that happens within the timeout of its last
    use, except its removal by name and the stop of the manager: other
    sessions may come, go, expire or fill the manager up. *)
Theorem session_survives maxEntries ops id p s ops' :
  let sm := (session_run range (NewSessionManagerWithOptions maxEntries) ops).1 in
  sm_sessions sm !! id = Some p → sm_heap sm !! p = Some s → Forall (within (LastActivity s) id) ops' →
  sm_sessions (session_run range sm ops').1 !! id = Some p.
Proof.
  intros sm Hp Hs Hops. destruct (new_run_ok range Hrange maxEntries ops) as [Hok _]. fold sm in Hok.
  assert (alive (LastActivity s) id p (session_run range sm ops').1) as [H _]; [|done].
  eapply (run_preserves range Hrange (within (LastActivity s) id)); [|done|done|].
  - intros op sm1 sm2 H1 H2 H3. by eapply change_alive.
  - split_and!; [done| |exists s; split; [done|lia]]. destruct Hok as [H1 _ _ _ _ _ _]. intros id' Hid'.
    destruct (H1 id p Hp) as (s1 & ? & ? & _), (H1 id' p Hid') as (s2 & ? & ? & _). congruence.
Qed.
End lifetime.

(** ** Streams *)

Section streams.
Context (range : gmap string nat → list (string * nat)) (Hrange : ∀ m, range m ≡ₚ map_to_list m).
Implicit Types (sm : SessionManager) (p q w : nat).

(** At most one session loses its stream, whose pipe is closed then. *)
Definition drops_stream sm sm' : Prop :=
  ∃ p, (∀ q, q ≠ p → current_stream sm' q = current_stream sm q) ∧
    (current_stream sm' p = current_stream sm p ∧ closed_pipes sm' = closed_pipes sm ∨
     ∃ a, current_stream sm p = Some a ∧ current_stream sm' p = None ∧ closed_pipes sm' = {[st_writer a]} ∪ closed_pipes sm).

Lemma drops_same sm sm' :
  (∀ q, current_stream sm' q = current_stream sm q) → closed_pipes sm' = closed_pipes sm → drops_stream sm sm'.
Proof. intros H1 H2. exists 0. split; [by intros q _|]. by left. Qed.

Lemma update_streams sm p f :
  (∀ s, ses_stream (f s) = ses_stream s) → ∀ q, current_stream (update sm p f) q = current_stream sm q.
Proof.
  intros Hf q. unfold current_stream. rewrite update_lookup. case_decide; [|done]. destruct (sm_heap sm !! q); [|done].
  simpl. apply Hf.
Qed.

Lemma drop_stream sm p s seq closed :
  sm_heap sm !! p = Some s →
  drops_stream sm (close_pipe (update sm p (λ s, with_stream (seq s) None (closed s) s)) (ses_stream s)).
Proof.
  intros Hs. exists p. unfold current_stream. rewrite (proj1 (close_pipe_heap _ _)). split.
  - intros q Hq. by rewrite update_lookup, decide_False.
  - rewrite update_lookup, decide_True, Hs by done. simpl. destruct (ses_stream s) as [a|]; [right; by exists a|by left].
Qed.

Lemma change_drops op sm sm' :
  session_change op sm sm' → drops_stream sm sm' ∨ ∃ p w, op = SAttach p w ∧ sm' = (AttachStream sm p w).1.
Proof.
  intros [p now _|id p Hp _|id now _ _| |p _|p version _|p w Hw|p token _|w data _]; [left..|right|left|left].
  - apply drops_same; [|done]. by apply update_streams.
  - unfold removeSessionLocked, session_close. rewrite Hp. destruct (sm_heap sm !! p) as [s|] eqn:Hs; [|by apply drops_same].
    destruct (ses_closed s); [by apply drops_same|]. exact (drop_stream sm p s streamSeq (λ _, true) Hs).
  - apply drops_same; [|done]. intros q. unfold current_stream, new_session. simpl.
    destruct (sm_heap sm !! q) eqn:Hq; [by rewrite (lookup_app_l_Some _ _ _ _ Hq)|].
    destruct ((sm_heap sm ++ _) !! q) as [s'|] eqn:E; [|done].
    apply lookup_app_Some in E as [E|[_ [_ <-]%list_lookup_singleton_Some]]; [congruence|done].
  - by apply drops_same.
  - unfold MarkToolsListChangedPending. destruct (sm_heap sm !! p) as [s|]; [|by apply drops_same].
    destruct (ses_closed s); [by apply drops_same|]. apply drops_same; [|done]. by apply update_streams.
  - apply drops_same; [|done]. apply update_streams. intros s. by case_decide.
  - eauto.
  - unfold DetachStream. destruct (sm_heap sm !! p) as [s|] eqn:Hs; [|by apply drops_same].
    destruct (ses_stream s) as [a|] eqn:Ha; [|by apply drops_same]. case_decide; [|by apply drops_same].
    rewrite <- Ha. exact (drop_stream sm p s streamSeq ses_closed Hs).
  - by apply drops_same.
Qed.

Lemma AttachStream_streams sm p w :
  AttachStream sm p w = (sm, Err ErrSessionManagerStopped) ∨
  (∀ q, q ≠ p → current_stream (AttachStream sm p w).1 q = current_stream sm q) ∧
  (∃ a, current_stream (AttachStream sm p w).1 p = Some a ∧ st_writer a = w ∧ (AttachStream sm p w).2 = Ok (st_token a)) ∧
  closed_pipes (AttachStream sm p w).1 =
    match current_stream sm p with Some a => ({[st_writer a]} ∪ closed_pipes sm) | None => closed_pipes sm end.
Proof.
  unfold AttachStream. destruct (sm_heap sm !! p) as [s|] eqn:Hs; [|by left]. destruct (ses_closed s); [by left|right].
  unfold current_stream. cbn [fst snd]. rewrite (proj1 (close_pipe_heap _ _)), Hs. split_and!.
  - intros q Hq. by rewrite update_lookup, decide_False.
  - rewrite update_lookup, decide_True, Hs by done. simpl. by eexists.
  - simpl. by destruct (ses_stream s).
Qed.

(** The streams are open pipes, each with one session, and none of them is
    among the pipes that are still to be attached. *)
Definition streams_ok (future : list nat) sm : Prop :=
  (∀ p a, current_stream sm p = Some a → (st_writer a ∉ closed_pipes sm) ∧ st_writer a ∉ future) ∧
  (∀ w, w ∈ future → w ∉ closed_pipes sm) ∧
  (∀ p q a b, current_stream sm p = Some a → current_stream sm q = Some b → st_writer a = st_writer b → p = q).

Lemma drops_ok future sm sm' : drops_stream sm sm' → streams_ok future sm → streams_ok future sm'.
Proof.
  intros (p & Hq & [[Hp Hc]|(a & Ha & Hp & Hc)]) (H1 & H2 & H3).
  - assert (∀ q, current_stream sm' q = current_stream sm q) as Hs.
    { intros q. destruct (decide (q = p)) as [->|]; [done|by apply Hq]. }
    unfold streams_ok. rewrite Hc. split_and!; [|done|]; intros *; rewrite ?Hs; eauto.
  - assert (∀ q b, current_stream sm' q = Some b → q ≠ p ∧ current_stream sm q = Some b) as Hs.
    { intros q b Hb. destruct (decide (q = p)) as [->|Hne]; [congruence|]. by rewrite <- Hq. }
    split_and!.
    + intros q b [Hne Hb]%Hs. destruct (H1 q b Hb). rewrite Hc. split; [|done].
      intros [Heq%elem_of_singleton|?]%elem_of_union; [|done]. destruct Hne. by eapply H3.
    + intros w Hw. rewrite Hc. destruct (H1 p a Ha) as [_ Hn]. specialize (H2 w Hw). set_solver.
    + intros q1 q2 b1 b2 [_ Hb1]%Hs [_ Hb2]%Hs. by eapply H3.
Qed.

Lemma attach_ok future sm p w : streams_ok (w :: future) sm → w ∉ future → streams_ok future (AttachStream sm p w).1.
Proof.
  intros (H1 & H2 & H3) Hw. destruct (AttachStream_streams sm p w) as [->|(Hq & (a & Ha & Haw & _) & Hc)].
  { simpl. split_and!; [|set_solver|done]. intros q b Hb. destruct (H1 q b Hb). set_solver. }
  assert (∀ q b, current_stream (AttachStream sm p w).1 q = Some b →
            q = p ∧ b = a ∨ q ≠ p ∧ current_stream sm q = Some b) as Hs.
  { intros q b Hb. destruct (decide (q = p)) as [->|Hne]; [left; split; congruence|right]. by rewrite <- Hq. }
  assert (∀ q b, q ≠ p → current_stream sm q = Some b → st_writer b ∉ closed_pipes (AttachStream sm p w).1) as Ho.
  { intros q b Hne Hb. rewrite Hc. destruct (H1 q b Hb). destruct (current_stream sm p) as [a0|] eqn:Ha0; [|done].
    intros [Heq%elem_of_singleton|?]%elem_of_union; [|done]. apply Hne. by eapply H3. }
  split_and!.
  - intros q b [[-> ->]|[Hne Hb]]%Hs; [|split; [by eapply Ho|destruct (H1 q b Hb); set_solver]].
    rewrite Haw, Hc. split; [|done]. specialize (H2 w ltac:(set_solver)).
    destruct (current_stream sm p) as [a0|] eqn:Ha0; [|done]. destruct (H1 p a0 Ha0). set_solver.
  - intros v Hv. rewrite Hc. specialize (H2 v ltac:(set_solver)).
    destruct (current_stream sm p) as [a0|] eqn:Ha0; [|done]. destruct (H1 p a0 Ha0). set_solver.
  - intros q1 q2 b1 b2 [[-> ->]|[Hn1 Hb1]]%Hs [[-> ->]|[Hn2 Hb2]]%Hs; [done| | |by eapply H3]; rewrite Haw; intros Heq.
    + destruct (H1 q2 b2 Hb2). set_solver.
    + destruct (H1 q1 b1 Hb1). set_solver.
Qed.

Definition writers (ops : list session_op) : list nat :=
  omap (λ op, match op with SAttach _ w => Some w | _ => None end) ops.

Lemma step_streams future sm op :
  sm_ok sm → NoDup (writers [op] ++ future) → streams_ok (writers [op] ++ future) sm →
  streams_ok future (session_step range sm op).1.
Proof.
  intros Hok Hnd Hs. destruct (decide (writers [op] = [])) as [E|E].
  - rewrite E in Hs. simpl in Hs. pose proof (session_step_changes range Hrange sm op Hok) as Hch.
    clear Hok. revert Hs. induction Hch as [|x y z Hxy _ IHc]; [done|]. intros Hx. apply IHc.
    destruct (change_drops op x y Hxy) as [Hd|(p & w & -> & _)]; [by eapply drops_ok|done].
  - destruct op; try done. simpl in *. apply NoDup_cons in Hnd as [Hn _]. by apply attach_ok.
Qed.

Lemma run_streams sm ops :
  sm_ok sm → NoDup (writers ops) → streams_ok (writers ops) sm → streams_ok [] (session_run range sm ops).1.
Proof.
  revert sm. induction ops as [|op ops IH]; intros sm Hok Hnd Hs; [done|]. simpl.
  assert (writers (op :: ops) = writers [op] ++ writers ops) as Hw by (unfold writers; simpl; by destruct op).
  rewrite Hw in Hnd, Hs. pose proof (step_streams (writers ops) sm op Hok Hnd Hs) as H1.
  pose proof (step_ok_all range Hrange sm op Hok) as [Hok' _]. destruct (session_step range sm op) as [sm1 removed].
  apply NoDup_app in Hnd as (_ & _ & Hnd). specialize (IH sm1 Hok' Hnd H1). by destruct (session_run range sm1 ops).
Qed.

(** A pipe that was attached is closed or still the stream of its session. *)
Definition accounted p w sm : Prop :=
  w ∈ closed_pipes sm ∨ ∃ a, current_stream sm p = Some a ∧ st_writer a = w.

Lemma change_accounted op p w sm sm' : accounted p w sm → session_change op sm sm' → accounted p w sm'.
Proof.
  intros Ha Hch. destruct (change_drops op sm sm' Hch) as [(q & Hq & Hor)|(q & v & _ & ->)].
  - destruct Ha as [Ha|(a & Ha & Hw)].
    + left. destruct Hor as [[_ ->]|(b & _ & _ & ->)]; set_solver.
    + destruct (decide (p = q)) as [<-|Hne]; [|right; exists a; by rewrite Hq].
      destruct Hor as [[Hp _]|(b & Hb & _ & Hc)]; [right; exists a; by rewrite Hp|left]. rewrite Ha in Hb. rewrite Hc. set_solver.
  - destruct (AttachStream_streams sm q v) as [->|(Hq & _ & Hc)]; [done|]. unfold accounted. rewrite Hc.
    destruct Ha as [Ha|(a & Ha & Hw)]; [left; destruct (current_stream sm q); set_solver|].
    destruct (decide (p = q)) as [<-|Hne]; [left; rewrite Ha; set_solver|right; exists a; by rewrite Hq].
Qed.

Lemma session_run_app sm ops1 ops2 :
  (session_run range sm (ops1 ++ ops2)).1 = (session_run range (session_run range sm ops1).1 ops2).1.
Proof.
  revert sm. induction ops1 as [|op ops1 IH]; intros sm; [done|]. simpl. destruct (session_step range sm op) as [sm1 r].
  specialize (IH sm1). destruct (session_run range sm1 ops1) as [sm2 l2], (session_run range sm1 (ops1 ++ ops2)) as [sm3 l3].
  done.
Qed.
End streams.

(** Along every history that attaches every pipe once: the stream of a session
    is an open pipe that no other session writes to, a session that was closed
    has none, and a pipe that was attached and is not the stream of its session
    any more has been closed, so that its reader ends. *)
Theorem stream_ownership (range : gmap string nat → list (string * nat)) maxEntries ops :
  (∀ m, range m ≡ₚ map_to_list m) → NoDup (writers ops) →
  let run := session_run range (NewSessionManagerWithOptions maxEntries) in
  (∀ p a, current_stream (run ops).1 p = Some a →
     IsClosed (run ops).1 p = false ∧ (st_writer a ∉ closed_pipes (run ops).1) ∧
     ∀ q b, current_stream (run ops).1 q = Some b → st_writer b = st_writer a → q = p) ∧
  (∀ ops1 p w ops2 token, ops = ops1 ++ SAttach p w :: ops2 → (AttachStream (run ops1).1 p w).2 = Ok token →
     accounted p w (run ops).1).
Proof.
  intros Hrange Hnd run. destruct (new_run_ok range Hrange maxEntries ops) as [Hok _]. fold run in Hok. split.
  - assert (streams_ok [] (run ops).1) as (H1 & _ & H3).
    { apply run_streams; [done|apply new_ok|done|]. by split_and!. }
    intros p a Ha. split_and!; [|by destruct (H1 p a Ha)|].
    + unfold IsClosed. unfold current_stream in Ha. destruct (sm_heap (run ops).1 !! p) as [s|] eqn:Hs; [|done]. simpl in *.
      destruct (ses_closed s) eqn:Hc; [|done]. destruct Hok as [_ _ _ _ _ _ H7]. by rewrite (H7 p s Hs Hc) in Ha.
    + intros q b Hb Heq. by eapply H3.
  - intros ops1 p w ops2 token -> Hatt. unfold run. rewrite (session_run_app range). fold (run ops1).
    destruct (new_run_ok range Hrange maxEntries ops1) as [Hok1 _]. fold run in Hok1.
    change (SAttach p w :: ops2) with ([SAttach p w] ++ ops2). rewrite (session_run_app range).
    apply (run_preserves range Hrange (λ _, True)).
    + intros op sm1 sm2 _ H1 H2. by eapply (change_accounted range).
    + simpl. apply (step_ok_all range Hrange (run ops1).1 (SAttach p w) Hok1).
    + by apply Forall_true.
    + simpl. destruct (AttachStream_streams (run ops1).1 p w) as [E|(_ & (a & Ha & Hw & _) & _)];
        [by rewrite E in Hatt|]. right. eauto.
Qed.

(** ** Notifications *)

(** [flushToolsListChangedNotification] with the outcomes of its writes; [None]
    when these were not enough. *)
Fixpoint flushToolsListChangedNotification (sm : SessionManager) (p : nat) (data : string)
    (writes : list (bool * Z)) : option (SessionManager * result session_error unit) :=
  match sm_heap sm !! p with
  | None => Some (sm, Ok ())
  | Some s =>
      match PendingToolsListChangedVersion s with
      | None => Some (sm, Ok ())
      | Some version =>
          if negb (HasPipeWriter sm p) then Some (sm, Ok ())
          else
            match writes with
            | [] => None
            | (reader, now) :: writes =>
                match WriteSSEData sm p data reader now with
                | (sm, Err e) => Some (sm, Err e)
                | (sm, Ok _) =>
                    flushToolsListChangedNotification (MarkToolsListChangedNotified sm p version) p data writes
                end
            end
      end
  end.

(** Whether the change was recorded, and the outcome of the flush. *)
Definition markToolsListChangedAndFlush (sm : SessionManager) (p : nat) (data : string) (writes : list (bool * Z)) :
    option (SessionManager * (bool * result session_error unit)) :=
  let '(sm, version) := MarkToolsListChangedPending sm p in
  if decide (version = 0%Z) then Some (sm, (false, Ok ()))
  else (λ r, (r.1, (true, r.2))) <$> flushToolsListChangedNotification sm p data writes.

Section notifications.
Context (range : gmap string nat → list (string * nat)) (Hrange : ∀ m, range m ≡ₚ map_to_list m).

(** A flush that nobody interferes with makes at most one write: with a stream
    it sends the notification once and nothing is pending any more; without
    one, or when the write fails, the change stays pending. *)
Theorem flush_sends_once sm p s data reader now writes version :
  sm_heap sm !! p = Some s → PendingToolsListChangedVersion s = Some version →
  ∃ sm' r, flushToolsListChangedNotification sm p data ((reader, now) :: writes) = Some (sm', r) ∧
    match ses_stream s with
    | Some a =>
        if decide (st_writer a ∈ closed_pipes sm ∨ reader = false) then sm' = sm ∧ r = Err ErrPipeWrite
        else r = Ok () ∧ sent sm' = sent sm ++ [(st_writer a, data)] ∧
             ∃ s', sm_heap sm' !! p = Some s' ∧ PendingToolsListChangedVersion s' = None
    | None => sm' = sm ∧ r = Ok ()
    end.
Proof.
  intros Hs Hv.
  assert (version = toolListChangeVersion s ∧ (lastNotifiedToolListVersion s < version)%Z) as [Hev Hlt].
  { unfold PendingToolsListChangedVersion in Hv. case_decide; [done|]. injection Hv as <-. split; [done|lia]. }
  simpl. rewrite Hs, Hv. unfold HasPipeWriter. rewrite Hs.
  destruct (ses_stream s) as [a|] eqn:Ha; simpl; [|by eexists _, _].
  unfold WriteSSEData, current_stream. rewrite Hs. simpl. rewrite Ha. simpl.
  destruct (decide (st_writer a ∈ closed_pipes sm ∨ reader = false)) as [Hd|Hd]; [by eexists _, _|].
  set (sm1 := MarkToolsListChangedNotified _ _ _).
  assert (∃ s', sm_heap sm1 !! p = Some s' ∧ PendingToolsListChangedVersion s' = None) as (s' & Hs' & Hp').
  { unfold sm1, MarkToolsListChangedNotified, touch, update. simpl. rewrite !list_lookup_alter, !decide_True, Hs by done.
    simpl. eexists. split; [done|]. rewrite decide_True by done. unfold PendingToolsListChangedVersion. simpl.
    by rewrite decide_True by lia. }
  assert (sent sm1 = sent sm ++ [(st_writer a, data)]) as Hsent by done. clearbody sm1.
  exists sm1, (Ok ()). split; [|by eauto 6]. destruct writes as [|[]]; simpl; by rewrite Hs', Hp'.
Qed.

(** The versions of a session: a change that was marked stays pending until a
    notification of it, or of a later one, was sent. *)
Definition pending_from (v : Z) p (n : nat) (sm : SessionManager) : Prop :=
  ∃ s, sm_heap sm !! p = Some s ∧ (0 ≤ v ≤ toolListChangeVersion s)%Z ∧ (lastNotifiedToolListVersion s < v)%Z ∧
       (toolListChangeVersion s + Z.of_nat n < 2 ^ 64)%Z.

Definition marks (p : nat) (ops : list session_op) : nat :=
  length (List.filter (λ op, match op with SMark q => bool_decide (q = p) | _ => false end) ops).

(** The notifications that a step says were sent are older than the change. *)
Definition older (v : Z) (p : nat) (op : session_op) : Prop :=
  ∀ version, op = SNotified p version → (version < v)%Z.

Lemma removeSessionLocked_versions sm id q p s :
  sm_sessions sm !! id = Some q → sm_heap sm !! p = Some s →
  ∃ s', sm_heap (removeSessionLocked sm id) !! p = Some s' ∧ toolListChangeVersion s' = toolListChangeVersion s ∧
        lastNotifiedToolListVersion s' = lastNotifiedToolListVersion s.
Proof.
  intros Hq Hs. destruct (decide (p = q)) as [->|Hne].
  - unfold removeSessionLocked, session_close. rewrite Hq, Hs. destruct (ses_closed s); [by eauto|].
    simpl. rewrite (proj1 (close_pipe_heap _ _)), update_lookup, decide_True, Hs by done. by eexists.
  - destruct (removeSessionLocked_other sm id q p Hq Hne) as [-> _]. eauto.
Qed.

Lemma change_pending op v p n sm sm' :
  op ≠ SMark p → older v p op → pending_from v p n sm → session_change op sm sm' → pending_from v p n sm'.
Proof.
  intros Hm Ho (s & Hs & H1 & H2 & H3)
    [q now _|id q Hq _|id now _ _| |q Hq|q version Hq|q w _|q token _|w data _]; unfold pending_from.
  - unfold touch. rewrite update_lookup, Hs. case_decide; [|by eauto]. by eexists.
  - destruct (removeSessionLocked_versions sm id q p s Hq Hs) as (s' & -> & E1 & E2). exists s'. by rewrite E1, E2.
  - rewrite (new_session_heap sm now id p s Hs). eauto.
  - simpl. eauto.
  - unfold MarkToolsListChangedPending. destruct (sm_heap sm !! q) as [s0|]; [|by eauto]. destruct (ses_closed s0); [by eauto|].
    cbn [fst]. rewrite update_lookup, decide_False by (intros ->; done). eauto.
  - unfold MarkToolsListChangedNotified. rewrite update_lookup, Hs. case_decide as E; [|by eauto]. subst q.
    specialize (Ho version Hq). eexists. split; [done|]. case_decide; simpl; lia.
  - destruct (AttachStream_heap sm q w p s Hs) as (s' & -> & _ & _ & E1 & E2 & _). exists s'. by rewrite E1, E2.
  - destruct (DetachStream_heap sm q token p s Hs) as (s' & -> & _ & _ & E1 & E2 & _). exists s'. by rewrite E1, E2.
  - simpl. eauto.
Qed.

Lemma step_pending v p n sm op :
  sm_ok sm → older v p op → pending_from v p (marks p [op] + n) sm → pending_from v p n (session_step range sm op).1.
Proof.
  intros Hok Ho Hp. destruct (decide (op = SMark p)) as [->|Hne].
  - simpl in *. unfold MarkToolsListChangedPending. destruct Hp as (s & Hs & H1 & H2 & H3). unfold marks in H3. simpl in H3.
    rewrite bool_decide_true in H3 by done. simpl in H3. rewrite Hs.
    destruct (ses_closed s); [exists s; split_and!; try done; lia|]. cbn [fst]. eexists. rewrite update_lookup, decide_True, Hs by done.
    split; [done|]. simpl. rewrite wrap64_small; lia.
  - assert (marks p [op] = 0) as Hz.
    { unfold marks. simpl. destruct op; try done. rewrite bool_decide_false; [done|]. congruence. }
    rewrite Hz in Hp. simpl in Hp. pose proof (session_step_changes range Hrange sm op Hok) as Hch. clear Hok.
    induction Hch as [|x y z Hxy _ IHc]; [done|]. apply IHc. by eapply change_pending.
Qed.

Lemma run_keeps_pending v p sm ops :
  sm_ok sm → Forall (older v p) ops → pending_from v p (marks p ops) sm →
  pending_from v p 0 (session_run range sm ops).1.
Proof.
  intros Hok Hops. revert sm Hok. induction Hops as [|op ops Hop _ IH]; intros sm Hok Hp; [done|]. simpl.
  assert (marks p (op :: ops) = marks p [op] + marks p ops) as Hm.
  { unfold marks. simpl. by destruct (match op with SMark q => bool_decide (q = p) | _ => false end). }
  rewrite Hm in Hp. pose proof (step_pending v p (marks p ops) sm op Hok Hop Hp) as H1.
  pose proof (step_ok_all range Hrange sm op Hok) as [Hok' _]. destruct (session_step range sm op) as [sm1 removed].
  specialize (IH sm1 Hok' H1). by destruct (session_run range sm1 ops).
Qed.

End notifications.

(** ** Drawing an identifier *)

Lemma hex_digit_inj a b : (0 ≤ a < 16)%Z → (0 ≤ b < 16)%Z → hex_digit a = hex_digit b → a = b.
Proof.
  intros Ha Hb. assert (a ∈ seqZ 0 16) as Ha' by (apply elem_of_seqZ; lia).
  assert (b ∈ seqZ 0 16) as Hb' by (apply elem_of_seqZ; lia). clear Ha Hb. revert a Ha' b Hb'.
  assert (Forall (λ a, Forall (λ b, hex_digit a = hex_digit b → a = b) (seqZ 0 16)) (seqZ 0 16)) as H.
  { apply (bool_decide_unpack _). vm_compute. exact I. }
  intros a Ha b Hb. rewrite Forall_forall in H. specialize (H a Ha). rewrite Forall_forall in H. by apply H.
Qed.

Lemma hex_inj l1 l2 :
  Forall (λ b, 0 ≤ b < 256)%Z l1 → Forall (λ b, 0 ≤ b < 256)%Z l2 → hex l1 = hex l2 → l1 = l2.
Proof.
  intros H1. revert l2. induction H1 as [|b1 l1 Hb1 _ IH]; intros l2 H2; destruct H2 as [|b2 l2 Hb2 H2]; simpl; try done.
  intros [= E1 E2 E3]. f_equal; [|by apply IH].
  assert (∀ b, (0 ≤ b < 256)%Z → (0 ≤ Z.shiftr b 4 < 16)%Z ∧ (0 ≤ Z.land b 15 < 16)%Z ∧
            b = (16 * Z.shiftr b 4 + Z.land b 15)%Z) as Hsplit.
  { intros b Hb. change 15%Z with (Z.ones 4). rewrite Z.land_ones, Z.shiftr_div_pow2 by lia. change (2 ^ 4)%Z with 16%Z.
    split_and!; [apply Z.div_pos; lia|apply Z.div_lt_upper_bound; lia|apply Z.mod_pos_bound; lia|apply Z.mod_pos_bound; lia|].
    apply Z.div_mod. lia. }
  destruct (Hsplit b1 Hb1) as (Ha1 & Hc1 & ->), (Hsplit b2 Hb2) as (Ha2 & Hc2 & ->).
  apply hex_digit_inj in E1; [|done..]. apply hex_digit_inj in E2; [|done..]. congruence.
Qed.

(** The loop that draws an identifier ends: among more different random values
    than there are sessions one is free, and it takes no other. *)
Theorem id_generation_terminates sm (values : list (list Z)) :
  NoDup values → Forall (Forall (λ b, 0 ≤ b < 256)%Z) values → size (sm_sessions sm) < length values →
  ∃ id, generateUniqueSessionIDLocked sm (map Some values) = Some (Ok id) ∧ sm_sessions sm !! id = None.
Proof.
  intros Hnd Hb Hlt.
  assert ((∃ id, generateUniqueSessionIDLocked sm (map Some values) = Some (Ok id) ∧ sm_sessions sm !! id = None) ∨
          Forall (λ v, hex v ∈ dom (sm_sessions sm)) values) as [?|Hall]; [|done|].
  { clear Hnd Hb Hlt. induction values as [|v values IH]; [right; constructor|]. simpl.
    destruct (sm_sessions sm !! hex v) as [p|] eqn:E; [|by eauto]. destruct IH as [?|IH]; [by left|right].
    constructor; [|done]. apply elem_of_dom. eauto. }
  exfalso. assert (NoDup (hex <$> values)) as Hndh.
  { clear Hall Hlt. induction Hb as [|v values Hv Hb IH]; [constructor|]. apply NoDup_cons in Hnd as [Hn Hnd].
    simpl. constructor; [|by apply IH]. intros (u & Hu & Hin)%list_elem_of_fmap. apply Hn.
    rewrite Forall_forall in Hb. by rewrite (hex_inj v u Hv (Hb u Hin) Hu). }
  assert (length values ≤ size (dom (sm_sessions sm))) as Hle.
  { rewrite <- (length_fmap hex values), <- (size_list_to_set (C := gset string)) by done. apply subseteq_size.
    intros id (v & -> & Hv)%elem_of_list_to_set%list_elem_of_fmap. rewrite Forall_forall in Hall. by apply Hall. }
  rewrite size_dom in Hle. lia.
Qed.

(** ** A session *)

Module session_sample.

Definition range (m : gmap string nat) : list (string * nat) := map_to_list m.
Lemma range_perm m : range m ≡ₚ map_to_list m.
Proof. done. Qed.

(** Two sessions; the first one gets a stream, which a reconnect replaces. *)
Definition ops : list session_op :=
  [SCreate 0 [Some [1%Z]]; SCreate 0 [Some [1%Z]; Some [2%Z]]; SAttach 0 7; SMark 0; SAttach 0 8].
Definition manager : SessionManager := (session_run range (NewSessionManagerWithOptions 2) ops).1.

Definition first : MCPSession := mkMCPSession "01" 1 0 0 1 0 2 (Some (mkStream 2 8)) false.

Lemma first_eq : sm_heap manager !! 0 = Some first.
Proof. vm_compute. reflexivity. Qed.
End session_sample.

Lemma session_history_witness :
  let '(sm, log) := session_run session_sample.range (NewSessionManagerWithOptions 2)
                      (session_sample.ops ++ [SRemove "01"; SStop]) in
  log = ["01"; "02"] ∧ times "01" log = length (filter (λ s, ses_ID s = "01" ∧ ses_closed s = true) (sm_heap sm)).
Proof.
  pose proof (session_history session_sample.range session_sample.range_perm 2 (session_sample.ops ++ [SRemove "01"; SStop])) as H.
  destruct (session_run _ _ _) as [sm log] eqn:E. split; [|apply H].
  apply (f_equal snd) in E. vm_compute in E. by rewrite <- E.
Defined.

Lemma get_session_exact_witness :
  (getSession session_sample.manager "01" 5 true).2 = Some 0 ∧
  ∃ s, sm_heap session_sample.manager !! 0 = Some s ∧ ses_ID s = "01".
Proof.
  assert ((getSession session_sample.manager "01" 5 true).2 = Some 0) as Hf by (vm_compute; reflexivity). split; [exact Hf|].
  generalize (get_session_exact session_sample.range session_sample.range_perm 2 session_sample.ops "01" 5 true).
  unfold session_sample.manager in *. cbv zeta. destruct (getSession _ _ _ _) as [[sm' removed] found]. cbn [snd] in Hf.
  intros [H _]. apply H in Hf as (_ & _ & s & Hs & Hid & _). by exists s.
Defined.

Lemma session_survives_witness :
  sm_sessions (session_run session_sample.range session_sample.manager
    [SCleanup SessionTimeout; SCreate 5 [Some [3%Z]]; SRemove "02"]).1 !! "01" = Some 0.
Proof.
  apply (session_survives session_sample.range session_sample.range_perm 2 session_sample.ops "01" 0 session_sample.first).
  - vm_compute. reflexivity.
  - exact session_sample.first_eq.
  - repeat (apply Forall_cons; split); [| | |constructor]; (split; [done|]; split; [done|]); simpl; intros now [= <-];
      unfold SessionTimeout; lia.
Defined.

Lemma stream_ownership_witness :
  accounted 0 7 session_sample.manager ∧ 7 ∈ closed_pipes session_sample.manager.
Proof.
  split.
  - apply (proj2 (stream_ownership session_sample.range 2 session_sample.ops session_sample.range_perm
             ltac:(apply (bool_decide_unpack _); vm_compute; exact I)) (take 2 session_sample.ops) 0 7
             [SMark 0; SAttach 0 8] 1%Z eq_refl).
    vm_compute. reflexivity.
  - apply (bool_decide_unpack _). vm_compute. exact I.
Defined.

Lemma flush_sends_once_witness :
  ∃ sm' r, flushToolsListChangedNotification session_sample.manager 0 "changed" [(true, 5%Z)] = Some (sm', r) ∧
    r = Ok () ∧ sent sm' = [(8, "changed")].
Proof.
  destruct (flush_sends_once session_sample.manager 0 session_sample.first "changed" true 5 [] 1
              session_sample.first_eq eq_refl) as (sm' & r & H & Hr). simpl in Hr.
  exists sm', r. split; [exact H|]. vm_compute in H. injection H as <- <-. split; reflexivity.
Defined.


Lemma id_generation_terminates_witness :
  ∃ id, generateUniqueSessionIDLocked session_sample.manager (map Some [[1%Z]; [2%Z]; [3%Z]]) = Some (Ok id) ∧
        sm_sessions session_sample.manager !! id = None.
Proof.
  apply id_generation_terminates.
  - apply (bool_decide_unpack _). vm_compute. exact I.
  - repeat constructor; lia.
  - vm_compute. auto.
Defined.
