(* ===== verification/McpRegistry.v ===== *)
(** * The tool registry

    [pkg/filter/mcp/mcpserver]: the versioned tool catalog ([registry.go]) and
    the identity of a publication source ([source.go]).  The JSON and [%#v]
    renderings of a tool are parameters. *)

From S2P Require Import Prelude GoStrings Sha256 Endpoint McpCatalog McpPolicy McpIdentity.

(** ** [source.go] *)

(** UTF-8 decoding as [range] over a string does it: an invalid byte is one
    [U+FFFD]. *)
Definition cont (lo hi : Z) (b : Z) : bool := (lo <=? b)%Z && (b <=? hi)%Z.

Definition decode_rune (bytes : list Z) : Z * nat :=
  match bytes with
  | [] => (65533%Z, 1)
  | b0 :: rest =>
      if (b0 <? 128)%Z then (b0, 1)
      else match rest with
      | b1 :: rest =>
          if cont 194 223 b0 && cont 128 191 b1 then (((b0 - 192) * 64 + (b1 - 128))%Z, 2)
          else match rest with
          | b2 :: rest =>
              if (Z.eqb b0 224 && cont 160 191 b1 || cont 225 236 b0 && cont 128 191 b1 ||
                  Z.eqb b0 237 && cont 128 159 b1 || cont 238 239 b0 && cont 128 191 b1) && cont 128 191 b2
              then (((b0 - 224) * 4096 + (b1 - 128) * 64 + (b2 - 128))%Z, 3)
              else match rest with
              | b3 :: _ =>
                  if (Z.eqb b0 240 && cont 144 191 b1 || cont 241 243 b0 && cont 128 191 b1 ||
                      Z.eqb b0 244 && cont 128 143 b1) && cont 128 191 b2 && cont 128 191 b3
                  then (((b0 - 240) * 262144 + (b1 - 128) * 4096 + (b2 - 128) * 64 + (b3 - 128))%Z, 4)
                  else (65533%Z, 1)
              | [] => (65533%Z, 1)
              end
          | [] => (65533%Z, 1)
          end
      | [] => (65533%Z, 1)
      end
  end.

(** A rune takes at least one byte, so that the length is enough fuel. *)
Fixpoint decode_runes (fuel : nat) (bytes : list Z) : list Z :=
  match fuel, bytes with
  | S fuel, _ :: _ => let '(r, n) := decode_rune bytes in r :: decode_runes fuel (drop n bytes)
  | _, _ => []
  end.

Definition runes (s : string) : list Z := let bytes := byte_values s in decode_runes (length bytes) bytes.

(** [strconv.FormatInt] to the base 16; a rune has at most six digits. *)
Fixpoint hex_digits (fuel : nat) (n : Z) (s : string) : string :=
  match fuel with
  | O => s
  | S fuel =>
      let s := String (hex_digit (n `mod` 16)) s in
      if (n <? 16)%Z then s else hex_digits fuel (n / 16) s
  end.
Definition FormatHex (n : Z) : string := hex_digits 6 n "".

Definition plain_rune (r : Z) : bool :=
  cont 97 122 r || cont 65 90 r || cont 48 57 r || (Z.eqb r 45 || Z.eqb r 95 || Z.eqb r 46).

Definition rune_char (r : Z) : string := String (ascii_of_N (Z.to_N r)) "".

Definition sanitizeSourcePart (value : string) : string :=
  if decide (value = "") then "_"
  else foldr (λ r s, (if plain_rune r then rune_char r else "%" +:+ FormatHex r) +:+ s) "" (runes value).

Record ServerSource : Type := mkServerSource {
  src_Registry : string;
  src_ServerID : string;
}.

#[export] Instance ServerSource_eq_dec : EqDecision ServerSource.
Proof. solve_decision. Defined.
#[export] Instance ServerSource_countable : Countable ServerSource.
Proof.
  refine (inj_countable' (λ s, (src_Registry s, src_ServerID s)) (λ p, mkServerSource p.1 p.2) _). by intros [].
Defined.

Definition DefaultRegistryName : string := "default".
Definition DefaultServerID : string := "default".

Definition Normalize (s : ServerSource) : ServerSource :=
  let registry := TrimSpace (src_Registry s) in
  let serverID := TrimSpace (src_ServerID s) in
  mkServerSource (if decide (registry = "") then DefaultRegistryName else registry)
    (if decide (serverID = "") then DefaultServerID else serverID).

Definition NewServerSource (registry serverID : string) : ServerSource := Normalize (mkServerSource registry serverID).

Definition source_Key (s : ServerSource) : string :=
  let s := Normalize s in sanitizeSourcePart (src_Registry s) +:+ "/" +:+ sanitizeSourcePart (src_ServerID s).

Lemma Normalize_idemp s : Normalize (Normalize s) = Normalize s.
Proof.
  unfold Normalize. simpl. f_equal.
  - destruct (decide (TrimSpace (src_Registry s) = "")) as [E|E]; [done|].
    rewrite TrimSpace.TrimSpace_idemp. by rewrite decide_False.
  - destruct (decide (TrimSpace (src_ServerID s) = "")) as [E|E]; [done|].
    rewrite TrimSpace.TrimSpace_idemp. by rewrite decide_False.
Qed.

(** The escape of a character has no end mark: different sources can have the
    same key. *)
Theorem source_key_collides :
  let s1 := NewServerSource "nacos" "x a" in
  let s2 := NewServerSource "nacos" (String.append "x" (String "200"%char (String "138"%char ""))) in
  s1 ≠ s2 ∧ source_Key s1 = "nacos/x%20a" ∧ source_Key s2 = source_Key s1.
Proof. split_and!; [|vm_compute; reflexivity..]. intros [=]. Qed.

(** ** [registry.go] *)

Definition EmptyFingerprint : string := "00000000".

Record ToolCatalogSnapshot : Type := mkToolCatalogSnapshot {
  snap_Version : string;
  snap_Generation : Z;
  snap_Fingerprint : string;
  snap_ordered : list ToolConfig;
  snap_byName : gmap string ToolConfig;
}.

(** The snapshot of [NewToolRegistry]. *)
Definition empty_snapshot : ToolCatalogSnapshot :=
  mkToolCatalogSnapshot ("0:" +:+ EmptyFingerprint) 0 EmptyFingerprint [] ∅.

Definition firstNonEmptyFingerprint (fingerprint : string) : string :=
  if decide (fingerprint = "") then EmptyFingerprint else fingerprint.

Inductive registry_error : Type :=
  | ToolExists (name : string)
  | ToolNames (e : name_error).

(** The loop over the tools: the index so far, or the first bad name. *)
Fixpoint index_unique (i : nat) (tools : list ToolConfig) (m : gmap string ToolConfig) :
    result name_error (gmap string ToolConfig) :=
  match tools with
  | [] => Ok m
  | t :: tools =>
      if decide (tool_Name t = "") then Err (NameEmpty i)
      else match m !! tool_Name t with
           | Some _ => Err (NameDuplicate (tool_Name t) i)
           | None => index_unique (S i) tools (<[tool_Name t := t]> m)
           end
  end.

Section registry.
Context (ToolJSON : ToolConfig → option string) (ToolGo : ToolConfig → string).
Implicit Types (tools : list ToolConfig) (snap : ToolCatalogSnapshot).

Definition toolCatalogFingerprint tools : string :=
  if decide (tools = []) then EmptyFingerprint
  else String.substring 0 8 (StringsSorted (map (λ t, JSONStableOrFallback (ToolJSON t) (ToolGo t)) tools)).

Definition buildToolCatalogSnapshot tools (generation : Z) (fingerprint : string) :
    result registry_error ToolCatalogSnapshot :=
  let fingerprint := if decide (fingerprint = "") then toolCatalogFingerprint tools else fingerprint in
  match index_unique 0 tools ∅ with
  | Err e => Err (ToolNames e)
  | Ok byName =>
      let fp := firstNonEmptyFingerprint fingerprint in
      Ok (mkToolCatalogSnapshot (pretty generation +:+ ":" +:+ fp) generation fp tools byName)
  end.

(** The registry's tools are its current snapshot, which a mutation replaces as
    a whole. *)
Definition RegisterTool snap (tool : ToolConfig) : result registry_error ToolCatalogSnapshot :=
  match snap_byName snap !! tool_Name tool with
  | Some _ => Err (ToolExists (tool_Name tool))
  | None => buildToolCatalogSnapshot (snap_ordered snap ++ [tool]) (wrap64 (snap_Generation snap + 1)) ""
  end.

Definition replaceAllToolsWithFingerprint snap tools (fingerprint : string) : result registry_error ToolCatalogSnapshot :=
  buildToolCatalogSnapshot tools (wrap64 (snap_Generation snap + 1)) fingerprint.

Definition ReplaceAllTools snap tools : result registry_error ToolCatalogSnapshot :=
  replaceAllToolsWithFingerprint snap tools "".

Definition snap_lookup snap (name : string) : option ToolConfig := snap_byName snap !! name.

(** *** Snapshots *)

Lemma index_unique_ok i tools m m' :
  index_unique i tools m = Ok m' →
  NoDup (map tool_Name tools) ∧ (∀ t, t ∈ tools → tool_Name t ≠ "" ∧ m !! tool_Name t = None) ∧
  (∀ name t, m' !! name = Some t ↔ m !! name = Some t ∨ t ∈ tools ∧ tool_Name t = name).
Proof.
  revert i m. induction tools as [|t tools IH]; intros i m; simpl.
  { intros [= ->]. split; [constructor|]. split; [by intros t ?%not_elem_of_nil|]. intros name t. rewrite elem_of_nil. tauto. }
  case_decide as E1; [done|]. destruct (m !! tool_Name t) as [u|] eqn:E2; [done|]. intros (Hnd & Hne & Hix)%IH. split_and!.
  - constructor; [|done]. intros (u & Hu & Hin)%list_elem_of_fmap. destruct (Hne u Hin) as [_ Hu'].
    rewrite <- Hu, lookup_insert_eq in Hu'. done.
  - intros u [->|Hu]%elem_of_cons; [done|]. destruct (Hne u Hu) as [H1 H2]. split; [done|].
    by apply lookup_insert_None in H2 as [H2 _].
  - intros name u. rewrite Hix, lookup_insert_Some, elem_of_cons. split.
    + intros [[[<- <-]|[_ H]]|[H1 H2]]; auto.
    + intros [H|[[->|H1] H2]]; [left; right; split; [congruence|done]| |by right]. left. left. done.
Qed.

Lemma index_unique_accepts i tools m :
  NoDup (map tool_Name tools) → (∀ t, t ∈ tools → tool_Name t ≠ "" ∧ m !! tool_Name t = None) →
  ∃ m', index_unique i tools m = Ok m'.
Proof.
  revert i m. induction tools as [|t tools IH]; intros i m Hnd Hne; simpl; [by eauto|].
  apply NoDup_cons in Hnd as [Hn Hnd]. destruct (Hne t) as [H1 H2]; [constructor|]. rewrite decide_False, H2 by done.
  apply IH; [done|]. intros u Hu. destruct (Hne u) as [H3 H4]; [by constructor|]. split; [done|].
  rewrite lookup_insert_ne; [done|]. intros Heq. apply Hn. rewrite Heq. apply list_elem_of_fmap. eauto.
Qed.

(** The index of a snapshot is its list, whose names are unique. *)
Definition snap_ok snap : Prop :=
  NoDup (map tool_Name (snap_ordered snap)) ∧ (∀ t, t ∈ snap_ordered snap → tool_Name t ≠ "") ∧
  (∀ name t, snap_lookup snap name = Some t ↔ t ∈ snap_ordered snap ∧ tool_Name t = name) ∧
  (∃ fp, snap_Version snap = pretty (snap_Generation snap) +:+ ":" +:+ fp ∧ fp = snap_Fingerprint snap ∧ fp ≠ "").

Lemma build_ok tools generation fingerprint snap :
  buildToolCatalogSnapshot tools generation fingerprint = Ok snap →
  snap_ok snap ∧ snap_ordered snap = tools ∧ snap_Generation snap = generation.
Proof.
  unfold buildToolCatalogSnapshot. destruct (index_unique 0 tools ∅) as [m|e] eqn:E; [|done]. intros [= <-].
  apply index_unique_ok in E as (Hnd & Hne & Hix). unfold snap_ok, snap_lookup. simpl. split; [|done]. split_and!.
  - done.
  - intros t Ht. by apply Hne.
  - intros name t. rewrite Hix, lookup_empty. naive_solver.
  - eexists. split_and!; [done|done|]. unfold firstNonEmptyFingerprint. by case_decide.
Qed.

Lemma build_accepts tools generation fingerprint :
  (∃ snap, buildToolCatalogSnapshot tools generation fingerprint = Ok snap) ↔
  NoDup (map tool_Name tools) ∧ ∀ t, t ∈ tools → tool_Name t ≠ "".
Proof.
  split.
  - intros [snap H]. apply build_ok in H as ((H1 & H2 & _) & <- & _). done.
  - intros [H1 H2]. unfold buildToolCatalogSnapshot.
    destruct (index_unique_accepts 0 tools ∅ H1) as [m ->]; [|by eauto].
    intros t Ht. split; [by apply H2|apply lookup_empty].
Qed.

(** *** Histories *)

Inductive registry_op : Type :=
  | RRegister (tool : ToolConfig)
  | RReplace tools (fingerprint : string).

Definition registry_step snap (op : registry_op) : ToolCatalogSnapshot :=
  match (match op with
         | RRegister tool => RegisterTool snap tool
         | RReplace tools fp => replaceAllToolsWithFingerprint snap tools fp
         end) with
  | Ok snap' => snap'
  | Err _ => snap
  end.

(** Every snapshot that was current at some time. *)
Fixpoint published snap (ops : list registry_op) : list ToolCatalogSnapshot :=
  match ops with
  | [] => [snap]
  | op :: ops => snap :: published (registry_step snap op) ops
  end.

Lemma registry_step_cases snap op :
  registry_step snap op = snap ∨
  snap_ok (registry_step snap op) ∧ snap_Generation (registry_step snap op) = wrap64 (snap_Generation snap + 1).
Proof.
  unfold registry_step. destruct op as [tool|tools fp].
  - unfold RegisterTool. destruct (snap_byName snap !! _); [by left|].
    destruct (buildToolCatalogSnapshot _ _ _) as [s'|] eqn:E; [right|by left]. apply build_ok in E as (H & _ & H2). done.
  - unfold replaceAllToolsWithFingerprint.
    destruct (buildToolCatalogSnapshot _ _ _) as [s'|] eqn:E; [right|by left]. apply build_ok in E as (H & _ & H2). done.
Qed.

Lemma empty_snapshot_ok : snap_ok empty_snapshot.
Proof.
  unfold snap_ok, snap_lookup. simpl. split_and!; [constructor|by intros t ?%not_elem_of_nil| |by eexists].
  intros name t. rewrite lookup_empty, elem_of_nil. naive_solver.
Qed.

Lemma published_later snap ops s :
  s ∈ published snap ops → (0 ≤ snap_Generation snap)%Z → (snap_Generation snap + Z.of_nat (length ops) < 2 ^ 64)%Z →
  snap_ok snap →
  snap_ok s ∧ (s = snap ∨ snap_Generation snap < snap_Generation s)%Z.
Proof.
  revert snap. induction ops as [|op ops IH]; intros snap; simpl.
  { intros ->%list_elem_of_singleton _ _ Hok. auto. }
  intros [->|Hin]%elem_of_cons H0 Hlt Hok; [by auto|].
  destruct (registry_step_cases snap op) as [E|[Hok' Hg]].
  - rewrite E in Hin. apply IH; [done..| |done]. lia.
  - rewrite wrap64_small in Hg by lia. destruct (IH _ Hin) as [H1 H2]; [lia|lia|done|]. split; [done|].
    right. destruct H2 as [->|]; lia.
Qed.

Lemma published_generation_inj snap ops s1 s2 :
  (0 ≤ snap_Generation snap)%Z → (snap_Generation snap + Z.of_nat (length ops) < 2 ^ 64)%Z → snap_ok snap →
  s1 ∈ published snap ops → s2 ∈ published snap ops → snap_Generation s1 = snap_Generation s2 → s1 = s2.
Proof.
  revert snap. induction ops as [|op ops IH]; intros snap H0 Hb Hok; cbn [published length] in *.
  { intros ->%list_elem_of_singleton ->%list_elem_of_singleton. done. }
  rewrite !elem_of_cons. destruct (registry_step_cases snap op) as [E|[Hok' Hg]].
  - assert (∀ s, s ∈ published (registry_step snap op) ops → snap_Generation s = snap_Generation snap → s = snap) as Hs.
    { rewrite E. intros s Hs Hg. destruct (published_later snap ops s Hs) as [_ [->|]]; [lia|lia|done|done|lia]. }
    intros [->|H1] [->|H2] Hg; [done|symmetry; by apply Hs|by apply Hs|]. eapply IH; [| | |exact H1|exact H2|done]; rewrite E; [done|lia|done].
  - rewrite wrap64_small in Hg by lia.
    assert (∀ s, s ∈ published (registry_step snap op) ops → (snap_Generation snap < snap_Generation s)%Z) as Hs.
    { intros s Hs. destruct (published_later _ ops s Hs) as [_ [->|]]; [lia|lia|done|lia|lia]. }
    intros [->|H1] [->|H2] Heq; [done|apply Hs in H2; lia|apply Hs in H1; lia|]. eapply IH; [| | |exact H1|exact H2|done]; [lia|lia|done].
Qed.

Lemma version_generation s1 s2 :
  snap_ok s1 → snap_ok s2 → snap_Version s1 = snap_Version s2 → snap_Generation s1 = snap_Generation s2.
Proof.
  intros (_ & _ & _ & fp1 & E1 & _) (_ & _ & _ & fp2 & E2 & _). rewrite E1, E2. intros H. simpl in H.
  apply cut_at_byte in H as [H _]; [|apply pretty_Z_no_colon..]. by apply (inj pretty) in H.
Qed.
End registry.

(** The version of a catalog identifies it: two snapshots that were published
    by a registry at any time, through any mix of registrations, replacements
    and rejected updates, are the same when their versions are; and every
    published snapshot is consistent. *)
Theorem version_identifies_catalog ToolJSON ToolGo ops s1 s2 :
  (Z.of_nat (length ops) < 2 ^ 64)%Z →
  s1 ∈ published ToolJSON ToolGo empty_snapshot ops → s2 ∈ published ToolJSON ToolGo empty_snapshot ops →
  snap_ok s1 ∧ (snap_Version s1 = snap_Version s2 → s1 = s2).
Proof.
  intros Hlen H1 H2. assert (0 + Z.of_nat (length ops) < 2 ^ 64)%Z as Hb by lia.
  pose proof (published_later _ _ _ _ _ H1 (Z.le_refl 0) Hb (empty_snapshot_ok ToolJSON ToolGo)) as [Hok1 _].
  pose proof (published_later _ _ _ _ _ H2 (Z.le_refl 0) Hb (empty_snapshot_ok ToolJSON ToolGo)) as [Hok2 _].
  split; [done|]. intros Hv. apply version_generation in Hv; [|done..].
  by eapply (published_generation_inj _ _ empty_snapshot ops); [apply Z.le_refl|exact Hb|apply (empty_snapshot_ok ToolJSON ToolGo)|..].
Qed.
