(* ===== verification/McpDynamic.v ===== *)
(** * Dynamic tool catalogs

    [pkg/filter/mcp/mcpserver/dynamic.go]: the consumer that merges the tools
    which registry sources publish into the tool registry.  The order in which
    Go ranges over the map of sources is a parameter; the consumer then sorts
    the sources by key.  [LastApplied] and the debounce time only reach the
    log and are left out; the notification of the sessions is in McpServer. *)

From stdpp Require Import sorting.
From S2P Require Import Prelude GoStrings Sha256 Endpoint McpCatalog McpPolicy McpIdentity McpRegistry.

(** The part of a server configuration that a dynamic update looks at. *)
Record McpServerConfig : Type := mkMcpServerConfig {
  msc_Tools : list ToolConfig;
  msc_Router : option RouterConfig;
}.

Record ServerToolConfig : Type := mkServerToolConfig {
  stc_Tools : list ToolConfig;
  stc_Fingerprint : string;
}.

Record DynamicConsumer : Type := mkDynamicConsumer {
  dc_registry : ToolCatalogSnapshot;
  dc_serverConfigs : gmap ServerSource ServerToolConfig;
  dc_governance : bool;
}.

Inductive dynamic_error : Type :=
  | DynamicRouterUpdateUnsupported
  | InvalidRouterMetadata (e : tools_error)
  | DynamicRegistry (e : registry_error).

(** What a successful update did. *)
Inductive apply_outcome : Type := Applied | SkippedUnchanged | NothingToRemove.
#[export] Instance apply_outcome_eq_dec : EqDecision apply_outcome.
Proof. solve_decision. Defined.

Definition NewDynamicConsumer (registry : ToolCatalogSnapshot) : DynamicConsumer :=
  mkDynamicConsumer registry ∅ false.

(** [selector] and [plans] say whether the two pointers are set. *)
Definition SetGovernance (d : DynamicConsumer) (selector plans : bool) : DynamicConsumer :=
  mkDynamicConsumer (dc_registry d) (dc_serverConfigs d) (selector && plans).

Definition set_configs (d : DynamicConsumer) (configs : gmap ServerSource ServerToolConfig) : DynamicConsumer :=
  mkDynamicConsumer (dc_registry d) configs (dc_governance d).

Definition ResetDebounceState (d : DynamicConsumer) : DynamicConsumer := set_configs d ∅.

Definition validateDynamicConfig (d : DynamicConsumer) (cfg : McpServerConfig) : result dynamic_error unit :=
  match msc_Router cfg with
  | Some _ => Err DynamicRouterUpdateUnsupported
  | None =>
      if negb (dc_governance d) then Ok ()
      else match ValidateTools (msc_Tools cfg) with
           | Err e => Err (InvalidRouterMetadata e)
           | Ok _ => Ok ()
           end
  end.

Definition restoreServerConfig (d : DynamicConsumer) (source : ServerSource) (oldConfig : option ServerToolConfig) :
    DynamicConsumer :=
  match oldConfig with
  | Some old => set_configs d (<[source := old]> (dc_serverConfigs d))
  | None => set_configs d (delete source (dc_serverConfigs d))
  end.

Definition key_le (s1 s2 : ServerSource) : Prop := String.le (source_Key s1) (source_Key s2).
#[export] Instance key_le_dec : RelDecision key_le.
Proof. intros s1 s2. unfold key_le. apply _. Defined.

Section dynamic.
Context (ToolJSON : ToolConfig → option string) (ToolGo : ToolConfig → string).
Context (range : gmap ServerSource ServerToolConfig → list ServerSource).
Implicit Types (d : DynamicConsumer) (source : ServerSource) (tools : list ToolConfig).

Definition calculateFingerprint tools : string := toolCatalogFingerprint ToolJSON ToolGo tools.

Definition calculateCurrentMergedTools (configs : gmap ServerSource ServerToolConfig) : list ToolConfig :=
  let sources := merge_sort key_le (range configs) in
  sources ≫= λ source, match configs !! source with Some c => stc_Tools c | None => [] end.

Definition applyMergedConfig d tools (fingerprint : string) : result dynamic_error DynamicConsumer :=
  match replaceAllToolsWithFingerprint ToolJSON ToolGo (dc_registry d) tools fingerprint with
  | Ok snap => Ok (mkDynamicConsumer snap (dc_serverConfigs d) (dc_governance d))
  | Err e => Err (DynamicRegistry e)
  end.

Definition applyServerTools d source tools : DynamicConsumer * result dynamic_error apply_outcome :=
  let source := Normalize source in
  let fingerprint := calculateFingerprint tools in
  let existingConfig := dc_serverConfigs d !! source in
  if decide (stc_Fingerprint <$> existingConfig = Some fingerprint) then (d, Ok SkippedUnchanged)
  else
    let d := set_configs d (<[source := mkServerToolConfig tools fingerprint]> (dc_serverConfigs d)) in
    let mergedTools := calculateCurrentMergedTools (dc_serverConfigs d) in
    match applyMergedConfig d mergedTools (calculateFingerprint mergedTools) with
    | Err e => (restoreServerConfig d source existingConfig, Err e)
    | Ok d => (d, Ok Applied)
    end.

Definition removeServerConfig d source : DynamicConsumer * result dynamic_error apply_outcome :=
  let source := Normalize source in
  match dc_serverConfigs d !! source with
  | None => (d, Ok NothingToRemove)
  | Some oldConfig =>
      let d := set_configs d (delete source (dc_serverConfigs d)) in
      let mergedTools := calculateCurrentMergedTools (dc_serverConfigs d) in
      match applyMergedConfig d mergedTools (calculateFingerprint mergedTools) with
      | Err e => (set_configs d (<[source := oldConfig]> (dc_serverConfigs d)), Err e)
      | Ok d => (d, Ok Applied)
      end
  end.

Definition RemoveAllMcpServerConfigs d : DynamicConsumer * result dynamic_error apply_outcome :=
  if decide (dc_serverConfigs d = ∅) then (d, Ok NothingToRemove)
  else
    let oldConfigs := dc_serverConfigs d in
    let d := set_configs d ∅ in
    match applyMergedConfig d [] EmptyFingerprint with
    | Err e => (set_configs d oldConfigs, Err e)
    | Ok d => (d, Ok Applied)
    end.

Definition ApplyMcpServerConfigBySource d source (cfg : option McpServerConfig) :
    DynamicConsumer * result dynamic_error apply_outcome :=
  let source := Normalize source in
  match cfg with
  | None => removeServerConfig d source
  | Some cfg =>
      match validateDynamicConfig d cfg with
      | Err e => (d, Err e)
      | Ok _ => applyServerTools d source (msc_Tools cfg)
      end
  end.

Definition ApplyMcpServerConfigByServer d (serverId : string) (cfg : option McpServerConfig) :
    DynamicConsumer * result dynamic_error apply_outcome :=
  ApplyMcpServerConfigBySource d (NewServerSource DefaultRegistryName serverId) cfg.

(** ** Histories of updates *)

Inductive dynamic_op : Type :=
  | DApply source (cfg : option McpServerConfig)
  | DRemoveAll.

Definition dynamic_step d (op : dynamic_op) : DynamicConsumer * result dynamic_error apply_outcome :=
  match op with
  | DApply source cfg => ApplyMcpServerConfigBySource d source cfg
  | DRemoveAll => RemoveAllMcpServerConfigs d
  end.

(** Only an update that is applied changes the registry, and then by one
    replacement, whose fingerprint is that of a list of tools. *)
Definition replaced (snap snap' : ToolCatalogSnapshot) : Prop :=
  snap_ok snap' ∧ snap_Generation snap' = wrap64 (snap_Generation snap + 1) ∧
  ∃ tools, snap_Fingerprint snap' = toolCatalogFingerprint ToolJSON ToolGo tools.

Lemma replaced_build snap tools fp snap' :
  (fp = "" ∨ ∃ l, fp = toolCatalogFingerprint ToolJSON ToolGo l) →
  replaceAllToolsWithFingerprint ToolJSON ToolGo snap tools fp = Ok snap' → replaced snap snap'.
Proof.
  unfold replaceAllToolsWithFingerprint. intros Hfp E. pose proof E as E'. apply build_ok in E as (H1 & _ & H2).
  split_and!; [done|done|]. unfold buildToolCatalogSnapshot in E'. destruct (index_unique 0 tools ∅); [|done].
  injection E' as <-. simpl. unfold firstNonEmptyFingerprint.
  repeat case_decide; try (by exists []); try (by exists tools); destruct Hfp as [->|[l ->]]; try done; by exists l.
Qed.

Lemma applyMergedConfig_registry d tools fp :
  (∃ l, fp = calculateFingerprint l) →
  match applyMergedConfig d tools fp with
  | Ok d' => replaced (dc_registry d) (dc_registry d')
  | Err _ => True
  end.
Proof.
  intros Hfp. unfold applyMergedConfig. destruct (replaceAllToolsWithFingerprint _ _ _ _ _) as [snap|e] eqn:E; [|done].
  eapply replaced_build; [|done]. by right.
Qed.

Ltac merged := match goal with |- context [applyMergedConfig ?d ?l ?f] =>
  assert (∃ tools, f = calculateFingerprint tools) as Hfp by first [by eexists | by exists []];
  pose proof (applyMergedConfig_registry d l f Hfp); destruct (applyMergedConfig d l f) end.

Lemma dynamic_step_registry d op :
  match dynamic_step d op with
  | (d', Ok Applied) => replaced (dc_registry d) (dc_registry d')
  | (d', _) => dc_registry d' = dc_registry d
  end.
Proof.
  destruct op as [source [cfg|]|]; simpl; unfold ApplyMcpServerConfigBySource, applyServerTools, removeServerConfig, RemoveAllMcpServerConfigs.
  - destruct (validateDynamicConfig d cfg); [|done]. destruct (decide (_ = _)); [done|]. merged; [done|].
    unfold restoreServerConfig. by repeat case_match.
  - destruct (dc_serverConfigs d !! _); [|done]. by merged.
  - destruct (decide (dc_serverConfigs d = ∅)); [done|]. by merged.
Qed.

Fixpoint dynamic_run d (ops : list dynamic_op) : DynamicConsumer * list (result dynamic_error apply_outcome) :=
  match ops with
  | [] => (d, [])
  | op :: ops => let '(d, r) := dynamic_step d op in let '(d, rs) := dynamic_run d ops in (d, r :: rs)
  end.

(** ** What the catalog promises

    The reference keeps, for each source, the tools it last published; a
    publication is refused when it carries a router section, fails the
    governance checks, or would give two tools of the catalog the same name or
    a tool no name. *)

Abbreviation publications := (gmap ServerSource (list ToolConfig)).

Definition all_tools (m : publications) : list ToolConfig :=
  elements (dom m) ≫= λ source, match m !! source with Some l => l | None => [] end.

Definition well_named (l : list ToolConfig) : Prop :=
  NoDup (map tool_Name l) ∧ Forall (λ t, tool_Name t ≠ "") l.
#[export] Instance well_named_dec l : Decision (well_named l).
Proof. unfold well_named. apply _. Defined.

Definition admissible (governance : bool) (cfg : McpServerConfig) : bool :=
  match msc_Router cfg with
  | Some _ => false
  | None => negb governance || match ValidateTools (msc_Tools cfg) with Ok _ => true | Err _ => false end
  end.

Definition spec_step (governance : bool) (m : publications) (op : dynamic_op) : publications * bool :=
  match op with
  | DApply source None => (delete (Normalize source) m, true)
  | DApply source (Some cfg) =>
      let m' := <[Normalize source := msc_Tools cfg]> m in
      if admissible governance cfg && bool_decide (well_named (all_tools m')) then (m', true) else (m, false)
  | DRemoveAll => (∅, true)
  end.

Fixpoint spec_run (governance : bool) (m : publications) (ops : list dynamic_op) : publications * list bool :=
  match ops with
  | [] => (m, [])
  | op :: ops =>
      let '(m, b) := spec_step governance m op in let '(m, bs) := spec_run governance m ops in (m, b :: bs)
  end.

Definition succeeded {E A} (r : result E A) : bool := match r with Ok _ => true | Err _ => false end.

#[export] Instance well_named_Proper : Proper ((≡ₚ) ==> iff) well_named.
Proof. intros l1 l2 H. unfold well_named. by rewrite H. Qed.

(** ** The consumer and its reference *)

Context (range_keys : ∀ configs, range configs ≡ₚ elements (dom configs)).
Context (lists : list (list ToolConfig)).
Context (no_collision : ∀ l1 l2, l1 ∈ lists → l2 ∈ lists → calculateFingerprint l1 = calculateFingerprint l2 → l1 ≡ₚ l2).

Definition tracks (configs : gmap ServerSource ServerToolConfig) (m : publications) : Prop :=
  dom configs = dom m ∧
  ∀ source c, configs !! source = Some c →
    stc_Fingerprint c = calculateFingerprint (stc_Tools c) ∧ stc_Tools c ∈ lists ∧
    ∃ l, m !! source = Some l ∧ stc_Tools c ≡ₚ l.

Lemma merged_tools configs m : tracks configs m → calculateCurrentMergedTools configs ≡ₚ all_tools m.
Proof.
  intros [Hdom H]. unfold calculateCurrentMergedTools, all_tools. rewrite merge_sort_Permutation, range_keys, Hdom.
  assert (∀ source, match configs !! source with Some c => stc_Tools c | None => [] end ≡ₚ
                    match m !! source with Some l => l | None => [] end) as Heq.
  { intros source. destruct (configs !! source) as [c|] eqn:E.
    - destruct (H _ _ E) as (_ & _ & l & -> & Hl). done.
    - apply not_elem_of_dom in E. rewrite Hdom in E. by apply not_elem_of_dom in E as ->. }
  induction (elements (dom m)) as [|source sources IH]; simpl; [done|]. by rewrite Heq, IH.
Qed.

Lemma tracks_insert configs m source tools tools' :
  tracks configs m → tools ∈ lists → tools ≡ₚ tools' →
  tracks (<[source := mkServerToolConfig tools (calculateFingerprint tools)]> configs) (<[source := tools']> m).
Proof.
  intros [Hdom H] Hin Hp. split; [by rewrite !dom_insert_L, Hdom|]. intros s c.
  rewrite !lookup_insert_Some. intros [[<- <-]|[Hne Hc]]; simpl.
  - split_and!; [done|done|]. exists tools'. by rewrite lookup_insert_eq.
  - destruct (H _ _ Hc) as (? & ? & l & ? & ?). split_and!; [done|done|]. exists l. by rewrite lookup_insert_ne.
Qed.

Lemma tracks_delete configs m source : tracks configs m → tracks (delete source configs) (delete source m).
Proof.
  intros [Hdom H]. split; [by rewrite !dom_delete_L, Hdom|]. intros s c [Hne Hc]%lookup_delete_Some.
  destruct (H _ _ Hc) as (? & ? & l & ? & ?). split_and!; [done|done|]. exists l. by rewrite lookup_delete_ne.
Qed.

Lemma bind_ext_elem {A B} (f g : A → list B) (l : list A) : (∀ x, x ∈ l → f x = g x) → l ≫= f = l ≫= g.
Proof.
  induction l as [|x l IH]; intros H; simpl; [done|]. rewrite H by (by constructor). f_equal. apply IH. intros y Hy.
  apply H. by constructor.
Qed.

Lemma all_tools_delete m source l :
  m !! source = Some l → all_tools m ≡ₚ l ++ all_tools (delete source m).
Proof.
  intros E. unfold all_tools. assert (elements (dom m) ≡ₚ source :: elements (dom (delete source m))) as ->.
  { rewrite dom_delete_L, <- elements_union_singleton by set_solver. apply elem_of_dom_2 in E.
    by rewrite <- union_difference_singleton_L. }
  simpl. rewrite E. f_equiv. apply reflexive_eq, bind_ext_elem. intros s Hs.
  rewrite elem_of_elements, dom_delete_L in Hs. rewrite lookup_delete_ne; [done|]. set_solver.
Qed.

Lemma well_named_delete m source : well_named (all_tools m) → well_named (all_tools (delete source m)).
Proof.
  destruct (m !! source) as [l|] eqn:E; [|by rewrite delete_id].
  rewrite (all_tools_delete _ _ _ E). unfold well_named. rewrite map_app, NoDup_app, Forall_app. tauto.
Qed.

Lemma all_tools_lookup m t : t ∈ all_tools m ↔ ∃ source l, m !! source = Some l ∧ t ∈ l.
Proof.
  unfold all_tools. rewrite list_elem_of_bind. setoid_rewrite elem_of_elements. setoid_rewrite elem_of_dom. split.
  - intros (source & Ht & l & Hl). rewrite Hl in Ht. eauto.
  - intros (source & l & Hl & Ht). exists source. rewrite Hl. eauto.
Qed.

Lemma all_tools_same m1 m2 :
  dom m1 = dom m2 → (∀ source l1 l2, m1 !! source = Some l1 → m2 !! source = Some l2 → l1 ≡ₚ l2) →
  all_tools m1 ≡ₚ all_tools m2.
Proof.
  intros Hdom H. unfold all_tools. rewrite Hdom.
  assert (∀ source, match m1 !! source with Some l => l | None => [] end ≡ₚ
                    match m2 !! source with Some l => l | None => [] end) as Heq.
  { intros source. destruct (m1 !! source) as [l1|] eqn:E1, (m2 !! source) as [l2|] eqn:E2; [by eauto| | |done].
    - apply elem_of_dom_2 in E1. rewrite Hdom in E1. by apply not_elem_of_dom in E2.
    - apply elem_of_dom_2 in E2. rewrite <- Hdom in E2. by apply not_elem_of_dom in E1. }
  induction (elements (dom m2)) as [|source sources IH]; simpl; [done|]. by rewrite Heq, IH.
Qed.

(** The consumer implements the publications [m]: [touched] when an update has
    been applied, before which the registry holds what it was created with. *)
Record implements (snap0 : ToolCatalogSnapshot) (governance touched : bool) d (m : publications) : Prop := {
  imp_governance : dc_governance d = governance;
  imp_tracks : tracks (dc_serverConfigs d) m;
  imp_named : well_named (all_tools m);
  imp_snap : snap_ok (dc_registry d);
  imp_registry : if touched then snap_ordered (dc_registry d) ≡ₚ all_tools m else dc_registry d = snap0 ∧ m = ∅;
}.

Lemma replace_accepts snap tools fp :
  (∃ s, replaceAllToolsWithFingerprint ToolJSON ToolGo snap tools fp = Ok s) ↔ well_named tools.
Proof. unfold replaceAllToolsWithFingerprint, well_named. rewrite build_accepts, Forall_forall. done. Qed.

(** Replacing the catalog by the merge of the configurations. *)
Lemma apply_merged_cases snap0 governance d configs m fp tools :
  tracks configs m → dc_governance d = governance → tools ≡ₚ all_tools m →
  match applyMergedConfig (set_configs d configs) tools fp with
  | Ok d' => implements snap0 governance true d' m ∧ well_named (all_tools m)
  | Err _ => ¬ well_named (all_tools m)
  end.
Proof.
  intros Htr Hg Hp. unfold applyMergedConfig. pose proof (replace_accepts (dc_registry d) tools fp) as Hacc.
  cbn [set_configs dc_registry dc_serverConfigs dc_governance].
  destruct (replaceAllToolsWithFingerprint _ _ _ _ _) as [snap|e] eqn:E.
  - assert (well_named (all_tools m)) as Hw by (rewrite <- Hp; apply Hacc; eauto).
    apply build_ok in E as (Hok & Hord & _). split; [|done]. constructor; simpl; [done|done|done|done|]. by rewrite Hord.
  - rewrite <- Hp. intros [s Hs]%Hacc. done.
Qed.

Definition is_applied (r : result dynamic_error apply_outcome) : bool :=
  match r with Ok Applied => true | _ => false end.

Lemma restore_undoes d source new :
  restoreServerConfig (set_configs d (<[source := new]> (dc_serverConfigs d))) source (dc_serverConfigs d !! source) = d.
Proof.
  unfold restoreServerConfig, set_configs. destruct d as [snap configs g]. simpl.
  destruct (configs !! source) as [old|] eqn:E; simpl; f_equal; [by rewrite insert_insert_eq, insert_id|].
  by rewrite delete_insert_id.
Qed.

Lemma admissible_validate d cfg :
  succeeded (validateDynamicConfig d cfg) = admissible (dc_governance d) cfg.
Proof.
  unfold validateDynamicConfig, admissible. destruct (msc_Router cfg), (dc_governance d); simpl; try done.
  by destruct (ValidateTools _).
Qed.

Lemma apply_tools_refines snap0 g touched d m source tools :
  implements snap0 g touched d m → tools ∈ lists →
  let m' := <[Normalize source := tools]> m in
  let '(d', r) := applyServerTools d source tools in
  succeeded r = bool_decide (well_named (all_tools m')) ∧
  implements snap0 g (touched || is_applied r) d' (if succeeded r then m' else m).
Proof.
  intros [Hg Htr Hn Hs Hr] Hin m'. unfold applyServerTools.
  destruct (decide (stc_Fingerprint <$> dc_serverConfigs d !! Normalize source = _)) as [E|E].
  - apply fmap_Some in E as (c & Hc & Hfp). destruct (proj2 Htr _ _ Hc) as (Hcf & Hcl & l & Hl & Hp). rewrite Hcf in Hfp.
    assert (tools ≡ₚ l) as Htl by (rewrite <- Hp; by apply no_collision).
    assert (tracks (dc_serverConfigs d) m') as Htr'.
    { destruct c as [ctools cfp]. simpl in *. rewrite <- (insert_id (dc_serverConfigs d) _ _ Hc), Hcf.
      apply tracks_insert; [done|done|]. by rewrite Hp. }
    assert (all_tools m' ≡ₚ all_tools m) as Hsame.
    { apply all_tools_same; [by rewrite <- (proj1 Htr'), (proj1 Htr)|]. unfold m'. intros s l1 l2.
      rewrite lookup_insert_Some. intros [[<- <-]|[_ H1]] H2; [rewrite Hl in H2; by injection H2 as <-|]. by replace l2 with l1 by congruence. }
    assert (well_named (all_tools m')) as Hn' by (by rewrite Hsame). rewrite bool_decide_true by done. simpl.
    split; [done|]. rewrite orb_false_r. constructor; [done..|]. destruct touched; [by rewrite Hsame|].
    destruct Hr as [_ ->]. by rewrite lookup_empty in Hl.
  - assert (tracks (<[Normalize source := mkServerToolConfig tools (calculateFingerprint tools)]> (dc_serverConfigs d)) m')
      as Htr' by (by apply tracks_insert).
    pose proof (apply_merged_cases snap0 g d _ m' (calculateFingerprint (calculateCurrentMergedTools
      (<[Normalize source := mkServerToolConfig tools (calculateFingerprint tools)]> (dc_serverConfigs d)))) _
      Htr' Hg (merged_tools _ _ Htr')) as Hm.
    cbn [dc_serverConfigs set_configs] in Hm |- *. destruct (applyMergedConfig _ _ _) as [d'|e].
    + destruct Hm as [Hi Hw]. rewrite bool_decide_true by done. simpl. rewrite orb_true_r. done.
    + rewrite bool_decide_false by done. simpl. rewrite orb_false_r. fold (set_configs d (<[Normalize source:=mkServerToolConfig tools (calculateFingerprint tools)]> (dc_serverConfigs d))).
      rewrite restore_undoes. done.
Qed.

Lemma remove_refines snap0 g touched d m source :
  implements snap0 g touched d m →
  let '(d', r) := removeServerConfig d source in
  succeeded r = true ∧ implements snap0 g (touched || is_applied r) d' (delete (Normalize source) m).
Proof.
  intros [Hg Htr Hn Hs Hr]. unfold removeServerConfig. destruct (dc_serverConfigs d !! Normalize source) as [c|] eqn:E.
  - pose proof (tracks_delete _ _ (Normalize source) Htr) as Htr'.
    pose proof (apply_merged_cases snap0 g d _ _ (calculateFingerprint (calculateCurrentMergedTools
      (delete (Normalize source) (dc_serverConfigs d)))) _ Htr' Hg (merged_tools _ _ Htr')) as Hm.
    cbn [dc_serverConfigs set_configs] in Hm |- *. destruct (applyMergedConfig _ _ _) as [d'|e].
    + destruct Hm as [Hi _]. simpl. by rewrite orb_true_r.
    + destruct Hm. by apply well_named_delete.
  - simpl. rewrite orb_false_r. apply not_elem_of_dom in E. rewrite (proj1 Htr) in E. apply not_elem_of_dom in E.
    by rewrite delete_id.
Qed.

Lemma remove_all_refines snap0 g touched d m :
  implements snap0 g touched d m →
  let '(d', r) := RemoveAllMcpServerConfigs d in
  succeeded r = true ∧ implements snap0 g (touched || is_applied r) d' ∅.
Proof.
  intros [Hg Htr Hn Hs Hr]. unfold RemoveAllMcpServerConfigs. destruct (decide (dc_serverConfigs d = ∅)) as [E|E].
  - simpl. rewrite orb_false_r. assert (m = ∅) as -> by (apply dom_empty_inv_L; by rewrite <- (proj1 Htr), E, dom_empty_L).
    done.
  - assert (tracks ∅ ∅) as Htr' by (split; [by rewrite !dom_empty_L|by intros ??; rewrite lookup_empty]).
    pose proof (apply_merged_cases snap0 g d ∅ ∅ EmptyFingerprint [] Htr' Hg) as Hm.
    cbn [dc_serverConfigs set_configs] in Hm |- *. destruct (applyMergedConfig _ _ _) as [d'|e]; simpl.
    + rewrite orb_true_r. split; [done|]. apply Hm. unfold all_tools. by rewrite dom_empty_L, elements_empty.
    + destruct Hm; unfold all_tools; rewrite dom_empty_L, elements_empty; [done|]. simpl. repeat constructor.
Qed.

Lemma step_refines snap0 g touched d m op :
  implements snap0 g touched d m →
  (∀ source cfg, op = DApply source (Some cfg) → msc_Tools cfg ∈ lists) →
  let '(d', r) := dynamic_step d op in
  let '(m', b) := spec_step g m op in
  succeeded r = b ∧ implements snap0 g (touched || is_applied r) d' m'.
Proof.
  intros Hi Hin. destruct op as [source [cfg|]|].
  - simpl. pose proof (admissible_validate d cfg) as Hv. rewrite (imp_governance _ _ _ _ _ Hi) in Hv.
    destruct (validateDynamicConfig d cfg) as [u|e]; simpl in Hv; rewrite <- Hv; simpl; [|by rewrite orb_false_r].
    pose proof (apply_tools_refines snap0 g touched d m (Normalize source) (msc_Tools cfg) Hi (Hin _ _ eq_refl)) as H.
    cbv zeta in H. rewrite Normalize_idemp in H. destruct (applyServerTools _ _ _) as [d' r]. destruct H as [Hr H].
    destruct (bool_decide _); by rewrite Hr in H |- *.
  - simpl. pose proof (remove_refines snap0 g touched d m (Normalize source) Hi) as H. rewrite Normalize_idemp in H.
    by destruct (removeServerConfig _ _) as [d' r].
  - simpl. pose proof (remove_all_refines snap0 g touched d m Hi) as H. by destruct (RemoveAllMcpServerConfigs _) as [d' r].
Qed.

Lemma run_refines snap0 g touched d m ops :
  implements snap0 g touched d m →
  (∀ source cfg, DApply source (Some cfg) ∈ ops → msc_Tools cfg ∈ lists) →
  let '(d', rs) := dynamic_run d ops in
  let '(m', bs) := spec_run g m ops in
  map succeeded rs = bs ∧ implements snap0 g (touched || existsb is_applied rs) d' m'.
Proof.
  revert touched d m. induction ops as [|op ops IH]; intros touched d m Hi Hin; simpl; [by rewrite orb_false_r|].
  pose proof (step_refines snap0 g touched d m op Hi) as Hst.
  destruct (dynamic_step d op) as [d1 r], (spec_step g m op) as [m1 b].
  destruct Hst as [Hr Hi1]; [intros source cfg ->; eapply Hin; by constructor|].
  specialize (IH _ _ _ Hi1 (λ source cfg H, Hin source cfg (list_elem_of_further _ _ _ H))).
  destruct (dynamic_run d1 ops) as [d2 rs], (spec_run g m1 ops) as [m2 bs]. destruct IH as [<- IH].
  simpl. rewrite Hr. split; [done|]. by rewrite <- orb_assoc in IH.
Qed.
End dynamic.

(** The lists of tools the updates carry. *)
Definition carried (ops : list dynamic_op) : list (list ToolConfig) :=
  omap (λ op, match op with DApply _ (Some cfg) => Some (msc_Tools cfg) | _ => None end) ops.

(** C8: after any history of dynamic updates the catalog is the union of what the
    sources last published: an update is refused exactly when the reference
    refuses it and then changes nothing, a removal always succeeds, and a tool
    is found under its name exactly when some source publishes it.  The
    registry keeps its initial, static tools until the first update that is
    applied, and none of them after it.  Assumes that the 32-bit fingerprints of
    the lists at hand do not collide. *)
Theorem dynamic_refines_publications ToolJSON ToolGo range snap0 (governance : bool) ops :
  (∀ configs : gmap ServerSource ServerToolConfig, range configs ≡ₚ elements (dom configs)) →
  (∀ l1 l2, l1 ∈ carried ops → l2 ∈ carried ops →
    toolCatalogFingerprint ToolJSON ToolGo l1 = toolCatalogFingerprint ToolJSON ToolGo l2 → l1 ≡ₚ l2) →
  snap_ok snap0 →
  let '(d, rs) := dynamic_run ToolJSON ToolGo range (SetGovernance (NewDynamicConsumer snap0) governance governance) ops in
  let '(m, bs) := spec_run governance ∅ ops in
  map succeeded rs = bs ∧ snap_ok (dc_registry d) ∧
  if existsb is_applied rs
  then ∀ name t, snap_lookup (dc_registry d) name = Some t ↔
                 ∃ source l, m !! source = Some l ∧ t ∈ l ∧ tool_Name t = name
  else dc_registry d = snap0.
Proof.
  intros Hrange Hfp Hsnap.
  assert (implements ToolJSON ToolGo (carried ops) snap0 governance false
    (SetGovernance (NewDynamicConsumer snap0) governance governance) ∅) as Hi.
  { constructor; simpl; [by destruct governance| | |done|done].
    - split; [by rewrite !dom_empty_L|by intros ??; rewrite lookup_empty].
    - unfold all_tools. rewrite dom_empty_L, elements_empty. simpl. repeat constructor. }
  pose proof (run_refines ToolJSON ToolGo range Hrange (carried ops) Hfp snap0 governance false _ ∅ ops Hi) as H.
  destruct (dynamic_run _ _ _ _ ops) as [d rs], (spec_run governance ∅ ops) as [m bs].
  destruct H as [Hb H]; [intros source cfg Hin; apply list_elem_of_omap; eauto|]. split; [done|].
  split; [apply H|]. pose proof (imp_registry _ _ _ _ _ _ _ _ H) as Hr. simpl in Hr.
  destruct (existsb is_applied rs); [|apply Hr]. intros name t.
  destruct (imp_snap _ _ _ _ _ _ _ _ H) as (_ & _ & Hlook & _). rewrite Hlook, Hr, all_tools_lookup. naive_solver.
Qed.

(** ** A sample *)

Module dynamic_sample.

Definition ToolJSON (t : ToolConfig) : option string := Some (tool_Name t).
Definition ToolGo (t : ToolConfig) : string := "".
Definition range (configs : gmap ServerSource ServerToolConfig) : list ServerSource := elements (dom configs).

Definition tool (name : string) : ToolConfig :=
  mkToolConfig name "" "backend" "" (mkRequestConfig "GET" "/" ∅ "30s") [] None.
Definition publish (server : string) (tools : list ToolConfig) : dynamic_op :=
  DApply (mkServerSource "nacos" server) (Some (mkMcpServerConfig tools None)).

(** The second publication clashes with the first one, and the fourth repeats
    the third in another order. *)
Definition ops : list dynamic_op :=
  [publish "one" [tool "read"]; publish "two" [tool "write"; tool "read"]; publish "two" [tool "write"; tool "drop"];
   publish " two" [tool "drop"; tool "write"]; DApply (mkServerSource "nacos" "one") None].

Lemma no_collision l1 l2 :
  l1 ∈ carried ops → l2 ∈ carried ops →
  toolCatalogFingerprint ToolJSON ToolGo l1 = toolCatalogFingerprint ToolJSON ToolGo l2 → l1 ≡ₚ l2.
Proof.
  assert (let z := map (λ l, (l, toolCatalogFingerprint ToolJSON ToolGo l)) (carried ops) in
    forallb (λ p, forallb (λ q, implb (bool_decide (p.2 = q.2)) (bool_decide (p.1 ≡ₚ q.1))) z) z = true) as H
    by (vm_compute; reflexivity).
  cbv zeta in H. rewrite forallb_forall in H. intros H1%list_elem_of_In H2%list_elem_of_In E.
  specialize (H _ (in_map _ _ _ H1)). rewrite forallb_forall in H. specialize (H _ (in_map _ _ _ H2)).
  rewrite implb_true_iff in H. eapply (bool_decide_eq_true_1 (l1 ≡ₚ l2)), H. by apply bool_decide_eq_true_2.
Qed.

Definition result_of : DynamicConsumer * list (result dynamic_error apply_outcome) :=
  dynamic_run ToolJSON ToolGo range (SetGovernance (NewDynamicConsumer empty_snapshot) true true) ops.

Lemma dynamic_refines_publications_witness :
  let '(d, rs) := result_of in
  let '(m, bs) := spec_run true ∅ ops in
  map succeeded rs = bs ∧ snap_ok (dc_registry d) ∧
  (∀ name t, snap_lookup (dc_registry d) name = Some t ↔
             ∃ source l, m !! source = Some l ∧ t ∈ l ∧ tool_Name t = name) ∧
  map tool_Name (snap_ordered (dc_registry d)) = ["write"; "drop"] ∧
  map succeeded rs = [true; false; true; true; true].
Proof.
  assert (map tool_Name (snap_ordered (dc_registry result_of.1)) = ["write"; "drop"]) as H1 by (vm_compute; reflexivity).
  assert (map succeeded result_of.2 = [true; false; true; true; true]) as H2 by (vm_compute; reflexivity).
  assert (existsb is_applied result_of.2 = true) as H3 by (vm_compute; reflexivity).
  generalize (dynamic_refines_publications ToolJSON ToolGo range empty_snapshot true ops (λ _, reflexivity _)
    no_collision (empty_snapshot_ok ToolJSON ToolGo)).
  unfold result_of in *. destruct (dynamic_run _ _ _ _ _) as [d rs], (spec_run _ _ _) as [m bs]. simpl in H1, H2, H3.
  rewrite H3. tauto.
Defined.

Lemma version_identifies_catalog_witness :
  let ops := [RRegister (tool "read"); RRegister (tool "read"); RReplace [tool "write"] ""] in
  let s1 := nth 1 (published ToolJSON ToolGo empty_snapshot ops) empty_snapshot in
  let s2 := nth 2 (published ToolJSON ToolGo empty_snapshot ops) empty_snapshot in
  snap_ok s1 ∧ (snap_Version s1 = snap_Version s2 → s1 = s2) ∧ snap_Version s1 = snap_Version s2.
Proof.
  cbv zeta.
  assert (∀ n, n < 4 → nth n (published ToolJSON ToolGo empty_snapshot [RRegister (tool "read"); RRegister (tool "read");
    RReplace [tool "write"] ""]) empty_snapshot ∈ published ToolJSON ToolGo empty_snapshot [RRegister (tool "read");
    RRegister (tool "read"); RReplace [tool "write"] ""]) as Hin by (intros n Hn; apply list_elem_of_In, nth_In; exact Hn).
  apply and_assoc. split; [|vm_compute; reflexivity].
  apply (version_identifies_catalog ToolJSON ToolGo [RRegister (tool "read"); RRegister (tool "read");
    RReplace [tool "write"] ""]); [done|apply Hin; lia..].
Defined.

End dynamic_sample.
