(* ===== verification/HttpManager.v ===== *)
(** * The HTTP connection manager and its filter chains

    [pkg/common/http/manager.go], [pkg/context/http/context.go] and
    [pkg/common/extension/filter/filter_chain.go]: how a request goes through a
    chain of filters.

    A filter is a function of the state [S] that the filters of a process share
    and of the context of the request; [P] is the type of the context's
    parameters.  The writer is what the client receives: the first status, and
    all the bytes.  Contexts are pooled.  Headers of the response, timeouts and
    the copying of a stream to the client are left out; the encoding of an
    error response and the router are parameters, the latter modelled in
    Coordinator. *)

From S2P Require Import Prelude GoStrings GoHttp.

Inductive FilterStatus : Type := Continue | Stop.

(** [SourceResp]: what the last filter got from upstream.  The body of an HTTP
    response may fail to be read. *)
Inductive source_response : Type :=
  | SourceNone
  | SourceHTTP (status : Z) (streamable : bool) (body : option string)
  | SourceBytes (data : string)
  | SourceValue (json : string).

Inductive target_response : Type :=
  | UnaryResponse (data : string)
  | StreamResponse.

(** What the client has received. *)
Record ResponseWriter : Type := mkResponseWriter {
  rw_status : option Z;
  rw_body : string;
}.

Definition WriteHeader (w : ResponseWriter) (status : Z) : ResponseWriter :=
  match rw_status w with
  | None => mkResponseWriter (Some status) (rw_body w)
  | Some _ => w
  end.

Definition Write (w : ResponseWriter) (data : string) : ResponseWriter :=
  let w := WriteHeader w 200 in mkResponseWriter (rw_status w) (rw_body w +:+ data).

Definition new_writer : ResponseWriter := mkResponseWriter None "".

Record HttpContext (P : Type) : Type := mkHttpContext {
  hc_Params : P;
  hc_localReply : bool;
  hc_statusCode : Z;
  hc_localReplyBody : string;
  hc_TargetResp : option target_response;
  hc_SourceResp : source_response;
  hc_Route : option string;
  hc_Request : Request;
  hc_Writer : ResponseWriter;
}.
Arguments mkHttpContext {_}.
Arguments hc_Params {_}.
Arguments hc_localReply {_}.
Arguments hc_statusCode {_}.
Arguments hc_localReplyBody {_}.
Arguments hc_TargetResp {_}.
Arguments hc_SourceResp {_}.
Arguments hc_Route {_}.
Arguments hc_Request {_}.
Arguments hc_Writer {_}.

Section context.
Context {P : Type}.
Implicit Types (hc : HttpContext P).

(** [Reset], with the assignments that [ServeHTTP] makes before it. *)
Definition Reset hc (r : Request) (w : ResponseWriter) : HttpContext P :=
  mkHttpContext (hc_Params hc) false 0 "" None SourceNone None r w.

Definition with_Params hc (params : P) : HttpContext P :=
  mkHttpContext params (hc_localReply hc) (hc_statusCode hc) (hc_localReplyBody hc) (hc_TargetResp hc)
    (hc_SourceResp hc) (hc_Route hc) (hc_Request hc) (hc_Writer hc).
Definition RouteEntry hc (cluster : string) : HttpContext P :=
  mkHttpContext (hc_Params hc) (hc_localReply hc) (hc_statusCode hc) (hc_localReplyBody hc) (hc_TargetResp hc)
    (hc_SourceResp hc) (Some cluster) (hc_Request hc) (hc_Writer hc).
Definition StatusCode hc (code : Z) : HttpContext P :=
  mkHttpContext (hc_Params hc) (hc_localReply hc) code (hc_localReplyBody hc) (hc_TargetResp hc)
    (hc_SourceResp hc) (hc_Route hc) (hc_Request hc) (hc_Writer hc).
Definition set_target hc (t : target_response) : HttpContext P :=
  mkHttpContext (hc_Params hc) (hc_localReply hc) (hc_statusCode hc) (hc_localReplyBody hc) (Some t)
    (hc_SourceResp hc) (hc_Route hc) (hc_Request hc) (hc_Writer hc).
Definition set_source hc (s : source_response) : HttpContext P :=
  mkHttpContext (hc_Params hc) (hc_localReply hc) (hc_statusCode hc) (hc_localReplyBody hc) (hc_TargetResp hc)
    s (hc_Route hc) (hc_Request hc) (hc_Writer hc).
Definition set_request hc (r : Request) : HttpContext P :=
  mkHttpContext (hc_Params hc) (hc_localReply hc) (hc_statusCode hc) (hc_localReplyBody hc) (hc_TargetResp hc)
    (hc_SourceResp hc) (hc_Route hc) r (hc_Writer hc).

Definition SendLocalReply hc (status : Z) (body : string) : HttpContext P :=
  mkHttpContext (hc_Params hc) true status body (Some (UnaryResponse body)) (hc_SourceResp hc) (hc_Route hc)
    (hc_Request hc) (Write (WriteHeader (hc_Writer hc) status) body).

(** ** Responses *)

(** [None] is the panic on a body that cannot be read. *)
Definition buildTargetResponse hc : option (HttpContext P) :=
  if hc_localReply hc then Some hc
  else
    match hc_SourceResp hc with
    | SourceHTTP status streamable body =>
        let hc := StatusCode hc status in
        if streamable then Some (set_target hc StreamResponse)
        else match body with
             | None => None
             | Some body => Some (set_target hc (UnaryResponse body))
             end
    | SourceBytes data => Some (set_target (StatusCode hc 200) (UnaryResponse data))
    | SourceValue json => Some (set_target (StatusCode hc 200) (UnaryResponse json))
    | SourceNone => Some (set_target (StatusCode hc 200) (UnaryResponse "null"))
    end.

Definition writeResponse hc : HttpContext P :=
  if hc_localReply hc then hc
  else
    let w := WriteHeader (hc_Writer hc) (hc_statusCode hc) in
    let w := match hc_TargetResp hc with
             | Some (UnaryResponse data) => Write w data
             | Some StreamResponse | None => w
             end in
    mkHttpContext (hc_Params hc) (hc_localReply hc) (hc_statusCode hc) (hc_localReplyBody hc) (hc_TargetResp hc)
      (hc_SourceResp hc) (hc_Route hc) (hc_Request hc) w.
End context.

(** ** Filter chains *)

Section chain.
Context {S P : Type}.
Implicit Types (s : S) (hc : HttpContext P).

Definition filter_func : Type := S → HttpContext P → S * HttpContext P * FilterStatus.

Record FilterChain : Type := mkFilterChain {
  decodeFilters : list filter_func;
  encodeFilters : list filter_func;
}.

Definition NewDefaultFilterChain : FilterChain := mkFilterChain [] [].

Definition AppendDecodeFilters (c : FilterChain) (f : list filter_func) : FilterChain :=
  mkFilterChain (decodeFilters c ++ f) (encodeFilters c).

(** The loop puts the filters before the present ones, the last one first. *)
Definition AppendEncodeFilters (c : FilterChain) (f : list filter_func) : FilterChain :=
  mkFilterChain (decodeFilters c) (foldr cons (encodeFilters c) f).

Fixpoint run_filters (filters : list filter_func) s hc : S * HttpContext P :=
  match filters with
  | [] => (s, hc)
  | f :: filters =>
      let '(s, hc, status) := f s hc in
      match status with
      | Continue => run_filters filters s hc
      | Stop => (s, hc)
      end
  end.

Definition OnDecode (c : FilterChain) := run_filters (decodeFilters c).
Definition OnEncode (c : FilterChain) := run_filters (encodeFilters c).

(** A factory appends a decode filter, an encode filter, or both. *)
Record filter_factory : Type := mkFactory {
  fac_decode : option filter_func;
  fac_encode : option filter_func;
}.

Definition PrepareFilterChain (c : FilterChain) (f : filter_factory) : FilterChain :=
  let c := match fac_decode f with Some d => AppendDecodeFilters c [d] | None => c end in
  match fac_encode f with Some e => AppendEncodeFilters c [e] | None => c end.

Definition CreateFilterChain (factories : list filter_factory) : FilterChain :=
  foldl PrepareFilterChain NewDefaultFilterChain factories.

Context (internal_error : string) (not_found : string) (route : Request → option string).

(** The second part of a request, after the decode filters. *)
Definition respond (chain : FilterChain) s hc : S * HttpContext P :=
  match buildTargetResponse hc with
  | None => (s, SendLocalReply hc 500 internal_error)
  | Some hc => let '(s, hc) := OnEncode chain s hc in (s, writeResponse hc)
  end.

Definition handleHTTPRequest (chain : FilterChain) s hc : S * HttpContext P :=
  let '(s, hc) := OnDecode chain s hc in respond chain s hc.

Definition Handle (chain : FilterChain) s hc : S * HttpContext P :=
  match route (hc_Request hc) with
  | None => (s, SendLocalReply hc 404 not_found)
  | Some cluster => handleHTTPRequest chain s (RouteEntry hc cluster)
  end.

(** [ServeHTTP] on a context of the pool. *)
Definition ServeHTTP (chain : FilterChain) s hc (r : Request) : S * HttpContext P :=
  Handle chain s (Reset hc r new_writer).

(** ** Order *)

Lemma CreateFilterChain_spec factories :
  let c := CreateFilterChain factories in
  decodeFilters c = omap fac_decode factories ∧ encodeFilters c = rev (omap fac_encode factories).
Proof.
  cbv zeta. unfold CreateFilterChain.
  assert (∀ c, decodeFilters (foldl PrepareFilterChain c factories) = decodeFilters c ++ omap fac_decode factories ∧
    encodeFilters (foldl PrepareFilterChain c factories) = rev (omap fac_encode factories) ++ encodeFilters c) as H.
  { induction factories as [|f factories IH]; intros c; simpl; [by rewrite app_nil_r|].
    destruct (IH (PrepareFilterChain c f)) as [-> ->]. unfold PrepareFilterChain.
    destruct (fac_decode f), (fac_encode f); simpl; rewrite <- ?app_assoc; done. }
  destruct (H NewDefaultFilterChain) as [H1 H2]. simpl in *. by rewrite app_nil_r in H2.
Qed.
End chain.

(** ** What runs, in which order *)

(** Filters that leave a trace: the decode filter of the [i]-th factory answers
    [verdict i], the encode filters all continue. *)
Definition tracing {P : Type} (verdict : nat → FilterStatus) (i : nat) :
    filter_factory (S := list (FilterStatus * nat)) (P := P) :=
  mkFactory (Some (λ log hc, (log ++ [(verdict i, i)], hc, verdict i)))
    (Some (λ log hc, (log ++ [(Continue, i)], hc, Continue))).

(** The factories up to the first one whose filter stops, inclusively. *)
Fixpoint until_stop (verdict : nat → FilterStatus) (l : list nat) : list nat :=
  match l with
  | [] => []
  | i :: l => i :: match verdict i with Continue => until_stop verdict l | Stop => [] end
  end.

Lemma tracing_decode {P : Type} verdict l log (hc : HttpContext P) :
  run_filters (omap fac_decode (map (tracing verdict) l)) log hc =
    (log ++ map (λ i, (verdict i, i)) (until_stop verdict l), hc).
Proof.
  revert log. induction l as [|i l IH]; intros log; simpl; [by rewrite app_nil_r|].
  destruct (verdict i) eqn:E; [|done]. by rewrite IH, <- app_assoc.
Qed.

Lemma omap_encode {P : Type} verdict l :
  omap fac_encode (map (tracing (P := P) verdict) l) = map (λ i log hc, (log ++ [(Continue, i)], hc, Continue)) l.
Proof. induction l as [|i l IH]; simpl; [done|]. by f_equal. Qed.

Lemma tracing_encode {P : Type} (l : list nat) (log : list (FilterStatus * nat)) (hc : HttpContext P) :
  run_filters (map (λ i log hc, (log ++ [(Continue, i)], hc, Continue)) l) log hc =
    (log ++ map (pair Continue) l, hc).
Proof.
  revert log. induction l as [|i l IH]; intros log; simpl; [by rewrite app_nil_r|]. by rewrite IH, <- app_assoc.
Qed.

(** Decode filters run in the order of the configuration until one stops, and
    then all the encode filters run in the reverse order, those of factories
    whose decode filters were never reached included, whether or not the
    response was already sent. *)
Theorem filters_nest {P : Type} verdict n internal_error (hc hc' : HttpContext P) :
  buildTargetResponse hc = Some hc' →
  (handleHTTPRequest internal_error (CreateFilterChain (map (tracing verdict) (seq 0 n))) [] hc).1 =
    map (λ i, (verdict i, i)) (until_stop verdict (seq 0 n)) ++ map (pair Continue) (rev (seq 0 n)).
Proof.
  intros Hb. unfold handleHTTPRequest, respond, OnDecode, OnEncode.
  destruct (CreateFilterChain_spec (map (tracing (P := P) verdict) (seq 0 n))) as [-> ->].
  rewrite tracing_decode, Hb, omap_encode, <- map_rev, tracing_encode. done.
Qed.
