(* ===== verification/McpResources.v ===== *)
(** * Resources and prompts of the MCP server

    The part of [pkg/filter/mcp/mcpserver/registry.go] that holds resources,
    resource templates and prompts, with their configuration in
    [pkg/model/mcpserver.go].  They come from the configuration of the filter
    and do not change afterwards.  Lists follow the order in which Go ranges
    over a map, which is a parameter; numbers are their JSON text. *)

From S2P Require Import Prelude GoStrings.

Record ResourceConfig : Type := mkResourceConfig {
  res_Name : string;
  res_URI : string;
  res_Description : string;
  res_MIMEType : string;
  res_SourceType : string;
}.

Record ResourceTemplateAnnotations : Type := mkAnnotations {
  ann_Audience : list string;
  ann_Priority : option string;
  ann_LastModified : string;
}.

Record ResourceTemplateConfig : Type := mkResourceTemplateConfig {
  tpl_Name : string;
  tpl_URITemplate : string;
  tpl_Title : string;
  tpl_Description : string;
  tpl_MIMEType : string;
  tpl_Annotations : option ResourceTemplateAnnotations;
}.

Record PromptArgumentConfig : Type := mkPromptArgumentConfig {
  pa_Name : string;
  pa_Description : string;
  pa_Required : bool;
}.

Record PromptMessageConfig : Type := mkPromptMessageConfig {
  pm_Role : string;
  pm_Content : string;
}.

Record PromptConfig : Type := mkPromptConfig {
  prm_Name : string;
  prm_Title : string;
  prm_Description : string;
  prm_Arguments : list PromptArgumentConfig;
  prm_Messages : list PromptMessageConfig;
}.

(** ** What is shown of them *)

Record McpResource : Type := mkMcpResource {
  mr_URI : string;
  mr_Name : string;
  mr_Description : string;
  mr_MIMEType : string;
}.

(** A missing key is [None]. *)
Record McpTemplate : Type := mkMcpTemplate {
  mt_uriTemplate : string;
  mt_name : string;
  mt_description : string;
  mt_mimeType : string;
  mt_title : option string;
  mt_annotations : option (option (list string) * option string * option string);
}.

Record McpPrompt : Type := mkMcpPrompt {
  mp_name : string;
  mp_description : string;
  mp_title : option string;
  mp_arguments : option (list PromptArgumentConfig);
}.

Definition non_empty (s : string) : option string := if decide (s = "") then None else Some s.

Definition non_nil {A} (l : list A) : option (list A) := match l with [] => None | _ => Some l end.

Definition show_annotations (a : ResourceTemplateAnnotations) : option (option (list string) * option string * option string) :=
  match non_nil (ann_Audience a), ann_Priority a, non_empty (ann_LastModified a) with
  | None, None, None => None
  | audience, priority, modified => Some (audience, priority, modified)
  end.

(** ** The registry *)

Record StaticRegistry : Type := mkStaticRegistry {
  sr_resources : gmap string ResourceConfig;
  sr_resourceTemplates : gmap string ResourceTemplateConfig;
  sr_prompts : gmap string PromptConfig;
}.

Definition empty_static : StaticRegistry := mkStaticRegistry ∅ ∅ ∅.

(** [None] is the error: the key is taken. *)
Definition RegisterResource (r : StaticRegistry) (resource : ResourceConfig) : option StaticRegistry :=
  match sr_resources r !! res_URI resource with
  | Some _ => None
  | None => Some (mkStaticRegistry (<[res_URI resource := resource]> (sr_resources r)) (sr_resourceTemplates r) (sr_prompts r))
  end.

Definition RegisterResourceTemplate (r : StaticRegistry) (template : ResourceTemplateConfig) : option StaticRegistry :=
  match sr_resourceTemplates r !! tpl_Name template with
  | Some _ => None
  | None => Some (mkStaticRegistry (sr_resources r) (<[tpl_Name template := template]> (sr_resourceTemplates r)) (sr_prompts r))
  end.

Definition RegisterPrompt (r : StaticRegistry) (prompt : PromptConfig) : option StaticRegistry :=
  match sr_prompts r !! prm_Name prompt with
  | Some _ => None
  | None => Some (mkStaticRegistry (sr_resources r) (sr_resourceTemplates r) (<[prm_Name prompt := prompt]> (sr_prompts r)))
  end.

Definition GetResourceByURI (r : StaticRegistry) (uri : string) : option ResourceConfig := sr_resources r !! uri.
Definition GetPrompt (r : StaticRegistry) (name : string) : option PromptConfig := sr_prompts r !! name.

(** The loops of [registerConfigured...]: the first error ends them. *)
Fixpoint register_list {A} (register : StaticRegistry → A → option StaticRegistry) (r : StaticRegistry) (l : list A) :
    option StaticRegistry :=
  match l with
  | [] => Some r
  | x :: l => match register r x with Some r => register_list register r l | None => None end
  end.

Definition registerConfigured (resources : list ResourceConfig) (templates : list ResourceTemplateConfig)
    (prompts : list PromptConfig) : option StaticRegistry :=
  match register_list RegisterResource empty_static resources with
  | None => None
  | Some r =>
      match register_list RegisterResourceTemplate r templates with
      | None => None
      | Some r => register_list RegisterPrompt r prompts
      end
  end.

Section lists.
Context (range : ∀ A, gmap string A → list A).

Definition ToMCPResources (r : StaticRegistry) : list McpResource :=
  map (λ x, mkMcpResource (res_URI x) (res_Name x) (res_Description x) (res_MIMEType x)) (range _ (sr_resources r)).

Definition ToMCPResourceTemplates (r : StaticRegistry) : list McpTemplate :=
  map (λ x, mkMcpTemplate (tpl_URITemplate x) (tpl_Name x) (tpl_Description x) (tpl_MIMEType x)
              (non_empty (tpl_Title x)) (tpl_Annotations x ≫= show_annotations))
    (range _ (sr_resourceTemplates r)).

Definition ToMCPPrompts (r : StaticRegistry) : list McpPrompt :=
  map (λ x, mkMcpPrompt (prm_Name x) (prm_Description x) (non_empty (prm_Title x)) (non_nil (prm_Arguments x)))
    (range _ (sr_prompts r)).
End lists.

(** ** Registration keeps the configuration *)

Section register.
Context {A : Type} (key : A → string) (table : StaticRegistry → gmap string A).
Context (register : StaticRegistry → A → option StaticRegistry).
Context (register_new : ∀ r x, table r !! key x = None →
  ∃ r', register r x = Some r' ∧ table r' = <[key x := x]> (table r)).
Context (register_taken : ∀ r x, is_Some (table r !! key x) → register r x = None).

(** Registration succeeds exactly when the keys differ and none is taken, and
    then the table has the entries by their keys. *)
Lemma register_list_spec l r :
  match register_list register r l with
  | Some r' => NoDup (map key l) ∧ (∀ x, x ∈ l → table r !! key x = None) ∧
      ∀ k x, table r' !! k = Some x ↔ table r !! k = Some x ∨ x ∈ l ∧ key x = k
  | None => ¬ (NoDup (map key l) ∧ ∀ x, x ∈ l → table r !! key x = None)
  end.
Proof using register_new register_taken.
  revert r. induction l as [|x l IH]; intros r; simpl.
  { split; [constructor|]. split; [by intros x ?%elem_of_nil|]. set_solver. }
  destruct (table r !! key x) as [y|] eqn:E.
  { rewrite register_taken by done. intros [_ H]. specialize (H x). set_solver. }
  destruct (register_new r x E) as (r1 & -> & E1). specialize (IH r1). destruct (register_list register r1 l) as [r'|].
  - destruct IH as (Hnd & Hfree & Hl). rewrite E1 in *.
    assert (∀ y, y ∈ l → key y ≠ key x ∧ table r !! key y = None) as Hf.
    { intros y Hy. specialize (Hfree y Hy). apply lookup_insert_None in Hfree as [? ?]. done. }
    split; [constructor; [|done]; intros (y & Hk & Hy)%list_elem_of_fmap; destruct (Hf y Hy); done|].
    split; [intros y [->|Hy]%elem_of_cons; [done|by apply Hf]|].
    intros k y. rewrite Hl, lookup_insert_Some, elem_of_cons. split; [intros [[[<- <-]|[? ?]]|[? ?]]; naive_solver|].
    intros [Hy|[[->|Hy] <-]]; [|by auto|by auto]. left. right. split; [|done]. intros <-. congruence.
  - intros [Hnd Hfree]. apply NoDup_cons in Hnd as [Hx Hnd]. apply IH. split; [done|]. intros y Hy.
    rewrite E1, lookup_insert_ne; [apply Hfree; by constructor|]. intros Hk. apply Hx. rewrite Hk.
    by apply list_elem_of_fmap_2.
Qed.
End register.

Section registered.
Implicit Types (r : StaticRegistry).

Lemma register_resources l r :
  match register_list RegisterResource r l with
  | Some r' => NoDup (map res_URI l) ∧ (∀ x, x ∈ l → sr_resources r !! res_URI x = None) ∧
      ∀ k x, sr_resources r' !! k = Some x ↔ sr_resources r !! k = Some x ∨ x ∈ l ∧ res_URI x = k
  | None => ¬ (NoDup (map res_URI l) ∧ ∀ x, x ∈ l → sr_resources r !! res_URI x = None)
  end.
Proof.
  apply (register_list_spec res_URI sr_resources RegisterResource); unfold RegisterResource.
  - intros r0 x ->. by eexists.
  - by intros r0 x [y ->].
Qed.

Lemma register_templates l r :
  match register_list RegisterResourceTemplate r l with
  | Some r' => NoDup (map tpl_Name l) ∧ (∀ x, x ∈ l → sr_resourceTemplates r !! tpl_Name x = None) ∧
      ∀ k x, sr_resourceTemplates r' !! k = Some x ↔ sr_resourceTemplates r !! k = Some x ∨ x ∈ l ∧ tpl_Name x = k
  | None => ¬ (NoDup (map tpl_Name l) ∧ ∀ x, x ∈ l → sr_resourceTemplates r !! tpl_Name x = None)
  end.
Proof.
  apply (register_list_spec tpl_Name sr_resourceTemplates RegisterResourceTemplate); unfold RegisterResourceTemplate.
  - intros r0 x ->. by eexists.
  - by intros r0 x [y ->].
Qed.

Lemma register_prompts l r :
  match register_list RegisterPrompt r l with
  | Some r' => NoDup (map prm_Name l) ∧ (∀ x, x ∈ l → sr_prompts r !! prm_Name x = None) ∧
      ∀ k x, sr_prompts r' !! k = Some x ↔ sr_prompts r !! k = Some x ∨ x ∈ l ∧ prm_Name x = k
  | None => ¬ (NoDup (map prm_Name l) ∧ ∀ x, x ∈ l → sr_prompts r !! prm_Name x = None)
  end.
Proof.
  apply (register_list_spec prm_Name sr_prompts RegisterPrompt); unfold RegisterPrompt.
  - intros r0 x ->. by eexists.
  - by intros r0 x [y ->].
Qed.

(** A registration leaves the other tables alone. *)
Lemma register_list_keeps {A B} (f : StaticRegistry → B) (register : StaticRegistry → A → option StaticRegistry) l r r' :
  (∀ r x r', register r x = Some r' → f r' = f r) → register_list register r l = Some r' → f r' = f r.
Proof.
  intros Hf. revert r. induction l as [|x l IH]; intros r; simpl; [by intros [= ->]|].
  destruct (register r x) as [r1|] eqn:E; [|done]. intros H. by rewrite (IH _ H), (Hf _ _ _ E).
Qed.

Lemma template_keeps_resources r x r' : RegisterResourceTemplate r x = Some r' →
  sr_resources r' = sr_resources r ∧ sr_prompts r' = sr_prompts r.
Proof. unfold RegisterResourceTemplate. case_match; naive_solver. Qed.

Lemma resource_keeps_others r x r' : RegisterResource r x = Some r' →
  sr_resourceTemplates r' = sr_resourceTemplates r ∧ sr_prompts r' = sr_prompts r.
Proof. unfold RegisterResource. case_match; naive_solver. Qed.

Lemma prompt_keeps_others r x r' : RegisterPrompt r x = Some r' →
  sr_resources r' = sr_resources r ∧ sr_resourceTemplates r' = sr_resourceTemplates r.
Proof. unfold RegisterPrompt. case_match; naive_solver. Qed.

(** A configuration is accepted exactly when the URIs of the resources, the
    names of the templates and the names of the prompts are each distinct, and
    then every lookup returns what was configured under the key. *)
Theorem configured_registry resources templates prompts :
  match registerConfigured resources templates prompts with
  | Some r =>
      (NoDup (map res_URI resources) ∧ NoDup (map tpl_Name templates) ∧ NoDup (map prm_Name prompts)) ∧
      (∀ uri x, GetResourceByURI r uri = Some x ↔ x ∈ resources ∧ res_URI x = uri) ∧
      (∀ name x, sr_resourceTemplates r !! name = Some x ↔ x ∈ templates ∧ tpl_Name x = name) ∧
      (∀ name x, GetPrompt r name = Some x ↔ x ∈ prompts ∧ prm_Name x = name)
  | None => ¬ (NoDup (map res_URI resources) ∧ NoDup (map tpl_Name templates) ∧ NoDup (map prm_Name prompts))
  end.
Proof.
  unfold registerConfigured, GetResourceByURI, GetPrompt. pose proof (register_resources resources empty_static) as H1.
  destruct (register_list RegisterResource empty_static resources) as [r1|] eqn:E1.
  2:{ intros [? _]. apply H1. split; [done|]. intros. apply lookup_empty. }
  pose proof (register_templates templates r1) as H2.
  apply (register_list_keeps (λ r, (sr_resourceTemplates r, sr_prompts r))) in E1 as [= Et1 Ep1];
    [|intros ? ? ? [-> ->]%resource_keeps_others; done].
  destruct (register_list RegisterResourceTemplate r1 templates) as [r2|] eqn:E2.
  2:{ intros (_ & ? & _). apply H2. split; [done|]. intros. rewrite Et1. apply lookup_empty. }
  pose proof (register_prompts prompts r2) as H3.
  apply (register_list_keeps (λ r, (sr_resources r, sr_prompts r))) in E2 as [= Er2 Ep2];
    [|intros ? ? ? [-> ->]%template_keeps_resources; done].
  destruct (register_list RegisterPrompt r2 prompts) as [r3|] eqn:E3.
  2:{ intros (_ & _ & ?). apply H3. split; [done|]. intros. rewrite Ep2, Ep1. apply lookup_empty. }
  apply (register_list_keeps (λ r, (sr_resources r, sr_resourceTemplates r))) in E3 as [= Er3 Et3];
    [|intros ? ? ? [-> ->]%prompt_keeps_others; done].
  destruct H1 as (? & _ & H1), H2 as (? & _ & H2), H3 as (? & _ & H3).
  split; [done|]. split_and!; intros k x.
  - rewrite Er3, Er2, H1. simpl. rewrite lookup_empty. naive_solver.
  - rewrite Et3, H2, Et1. simpl. rewrite lookup_empty. naive_solver.
  - rewrite H3, Ep2, Ep1. simpl. rewrite lookup_empty. naive_solver.
Qed.
End registered.
