(* ===== verification/McpHttp.v ===== *)
(** * The MCP endpoint: contexts, negotiation and backend requests

    [pkg/filter/mcp/mcpserver/context.go], [response.go], the functions of
    [filter.go] and [handlers.go] that only look at the request, and
    [transport/content_negotiator.go], [transport/sse_handler.go].

    JSON texts are strings; a decoded argument is its [%v] text with its JSON
    encoding.  The range order of Go maps is a parameter. *)

From S2P Require Import Prelude GoStrings GoHttp HttpManager McpResources Endpoint McpCatalog McpPolicy McpPlan.

(** ** Strings *)

Fixpoint Contains (s w : string) : bool :=
  Strings.HasPrefix s w || match s with "" => false | String _ s => Contains s w end.

(** [strings.ToLower] as far as a search for ASCII text can tell: letters, and
    the two characters outside ASCII whose lower case is a letter ([U+0130] and
    [U+212A]). *)
Fixpoint ToLower (s : string) : string :=
  match s with
  | String "196" (String "176" s) => String "i" (ToLower s)
  | String "226" (String "132" (String "170" s)) => String "k" (ToLower s)
  | String a s => String (to_lower a) (ToLower s)
  | "" => ""
  end.

(** [strings.ReplaceAll] for a nonempty [old]. *)
Fixpoint replace_skip (s old new : string) (skip : nat) : string :=
  match s with
  | "" => ""
  | String a r =>
      match skip with
      | S skip => replace_skip r old new skip
      | O => if Strings.HasPrefix s old then new +:+ replace_skip r old new (String.length old - 1)
             else String a (replace_skip r old new 0)
      end
  end.
Definition ReplaceAll (s old new : string) : string := replace_skip s old new 0.

Example replace_example : ReplaceAll "/a/{id}/{id}{x}" "{id}" "7" = "/a/7/7{x}".
Proof. reflexivity. Qed.

(** [Header.Values] *)
Definition Header_Values (h : Header) (key : string) : list string :=
  match h !! CanonicalMIMEHeaderKey key with Some l => l | None => [] end.

(** ** [context.go] *)

Definition HeaderKeyAccept : string := "Accept".
Definition HeaderKeyMCPSessionId : string := "Mcp-Session-Id".
Definition HeaderValueApplicationJson : string := "application/json".
Definition HeaderValueTextEventStream : string := "text/event-stream".
Definition MediaTypeWildcard : string := "*/*".
Definition MediaTypeApplicationWild : string := "application/*".
Definition MediaTypeTextWild : string := "text/*".

(** The protocol version is only logged and left out. *)
Record MCPData : Type := mkMCPData {
  md_Method : string;
  md_RequestID : option string;
  md_SessionID : string;
  md_SessionGeneration : Z;
  md_Session : option nat;
  md_AcceptSSE : bool;
  md_AcceptJSON : bool;
  md_Receipt : option AuthorizationReceipt;
}.

Definition new_data : MCPData := mkMCPData "" None "" 0 None false false None.

(** What the filters of an MCP chain put into the parameters of a context: the
    claims of the token and the data of the MCP request. *)
Record McpParams : Type := mkMcpParams {
  par_Claims : option (gmap string claim);
  par_MCPData : option MCPData;
}.

Definition SetMCPMethod (d : MCPData) (method : string) : MCPData :=
  mkMCPData method (md_RequestID d) (md_SessionID d) (md_SessionGeneration d) (md_Session d) (md_AcceptSSE d)
    (md_AcceptJSON d) (md_Receipt d).
Definition SetMCPRequestID (d : MCPData) (id : string) : MCPData :=
  mkMCPData (md_Method d) (Some id) (md_SessionID d) (md_SessionGeneration d) (md_Session d) (md_AcceptSSE d)
    (md_AcceptJSON d) (md_Receipt d).
Definition SetAuthorizationReceipt (d : MCPData) (receipt : option AuthorizationReceipt) : MCPData :=
  mkMCPData (md_Method d) (md_RequestID d) (md_SessionID d) (md_SessionGeneration d) (md_Session d)
    (md_AcceptSSE d) (md_AcceptJSON d) receipt.
Definition SetSessionID (d : MCPData) (id : string) : MCPData :=
  mkMCPData (md_Method d) (md_RequestID d) id (md_SessionGeneration d) (md_Session d) (md_AcceptSSE d)
    (md_AcceptJSON d) (md_Receipt d).

(** The session is given with its identifier and generation. *)
Definition SetValidatedSession (d : MCPData) (session : option (nat * string * Z)) : MCPData :=
  match session with
  | None => mkMCPData (md_Method d) (md_RequestID d) "" 0 None (md_AcceptSSE d) (md_AcceptJSON d) (md_Receipt d)
  | Some (p, id, generation) =>
      mkMCPData (md_Method d) (md_RequestID d) id generation (Some p) (md_AcceptSSE d) (md_AcceptJSON d) (md_Receipt d)
  end.

Definition MethodToolsCall : string := "tools/call".
Definition IsMCPToolCall (d : MCPData) : bool := bool_decide (md_Method d = MethodToolsCall).

Definition StoreMCPDataInParams (p : McpParams) (d : MCPData) : McpParams := mkMcpParams (par_Claims p) (Some d).
Definition LoadMCPDataFromParams (p : McpParams) : MCPData :=
  match par_MCPData p with Some d => d | None => new_data end.

Definition ParseAndSetAcceptHeader (d : MCPData) (h : Header) : MCPData :=
  let accept := Header_Get h HeaderKeyAccept in
  mkMCPData (md_Method d) (md_RequestID d) (md_SessionID d) (md_SessionGeneration d) (md_Session d)
    (Contains accept HeaderValueTextEventStream || Contains accept MediaTypeTextWild || Contains accept MediaTypeWildcard)
    (bool_decide (accept = "") || Contains accept HeaderValueApplicationJson ||
       Contains accept MediaTypeApplicationWild || Contains accept MediaTypeWildcard)
    (md_Receipt d).

Definition ParseAndSetSessionHeader (d : MCPData) (h : Header) : MCPData :=
  SetSessionID d (Header_Get h HeaderKeyMCPSessionId).

(** ** [content_negotiator.go] *)

Inductive ResponseFormat : Type := ResponseFormatJSON | ResponseFormatSSE | ResponseFormatAccepted.

(** Whether JSON and whether event streams are accepted. *)
Definition parseAcceptHeader (acceptHeader : string) : bool * bool :=
  if decide (acceptHeader = "") then (true, false)
  else
    let acceptHeader := ToLower acceptHeader in
    (Contains acceptHeader HeaderValueApplicationJson || Contains acceptHeader MediaTypeApplicationWild ||
       Contains acceptHeader MediaTypeWildcard,
     Contains acceptHeader HeaderValueTextEventStream || Contains acceptHeader MediaTypeTextWild ||
       Contains acceptHeader MediaTypeWildcard).

Definition NegotiateResponse (acceptHeader : string) (hasSession : bool) : ResponseFormat :=
  if (parseAcceptHeader acceptHeader).2 && hasSession then ResponseFormatSSE else ResponseFormatJSON.

Definition SupportsSSE (acceptHeader : string) : bool := (parseAcceptHeader acceptHeader).2.
Definition SupportsJSON (acceptHeader : string) : bool := (parseAcceptHeader acceptHeader).1.

Definition GetPreferredContentType (format : ResponseFormat) : string :=
  match format with
  | ResponseFormatSSE => HeaderValueTextEventStream
  | ResponseFormatJSON | ResponseFormatAccepted => HeaderValueApplicationJson
  end.

(** ** [sse_handler.go] *)

Definition newline : string := String "010" "".
Definition FormatSSEMessage (messageJSON : string) : string := "data: " +:+ messageJSON +:+ newline +:+ newline.
Definition FormatSSEEvent (eventType data : string) : string :=
  if decide (eventType ≠ "") then "event: " +:+ eventType +:+ newline +:+ "data: " +:+ data +:+ newline +:+ newline
  else "data: " +:+ data +:+ newline +:+ newline.
Definition FormatSSEEventWithID (eventID : Z) (data : string) : string :=
  "id: " +:+ pretty eventID +:+ newline +:+ "data: " +:+ data +:+ newline +:+ newline.
Definition FormatSSEKeepalive (timestamp : Z) : string := ": keepalive " +:+ pretty timestamp +:+ newline +:+ newline.

(** ** [response.go]

    The values that are encoded, that of [initialize] with the session header it
    is sent with; an identifier is a JSON text, [None] the null
    identifier. *)

Inductive payload : Type :=
  | InitializeResult (sessionHeader : string)
  | ListToolsResult (tools : list ToolConfig)
  | CallToolResult (isError : bool) (text : string)
  | PingResult
  | ListResourcesResult (resources : list McpResource)
  | ReadResourceResult (uri mimeType text : string)
  | ListTemplatesResult (templates : list McpTemplate)
  | ListPromptsResult (prompts : list McpPrompt)
  | GetPromptResult (description : string) (messages : list PromptMessageConfig).

Inductive message : Type :=
  | Success (id : option string) (result : payload)
  | RpcError (id : option string) (code : Z) (text : string)
  | ServerNotification (method : string).

Definition INTERNAL_ERROR : Z := -32603.
Definition METHOD_NOT_FOUND : Z := -32601.
Definition INVALID_PARAMS : Z := -32602.

Definition ToolCallSuccess (id : option string) (content : string) : message := Success id (CallToolResult false content).
Definition ToolCallError (id : option string) (text : string) : message :=
  Success id (CallToolResult true ("Error: " +:+ text)).

(** ** Session headers *)

Inductive header_error : Type :=
  | SessionHeaderRequired
  | SessionHeaderForbidden
  | SessionHeaderRepeated
  | SessionHeaderEmpty
  | SessionHeaderTooLong
  | SessionHeaderInvalid.

Definition header_text (e : header_error) : string :=
  match e with
  | SessionHeaderRequired => "Mcp-Session-Id header is required"
  | SessionHeaderForbidden => "initialize must not include Mcp-Session-Id"
  | SessionHeaderRepeated => "Mcp-Session-Id header must appear exactly once"
  | SessionHeaderEmpty => "Mcp-Session-Id header must not be empty"
  | SessionHeaderTooLong => "Mcp-Session-Id header is too long"
  | SessionHeaderInvalid => "Mcp-Session-Id header contains invalid characters"
  end.

Definition maxSessionIDLength : nat := 128.

Definition validSessionHeader (h : Header) (required : bool) : result header_error string :=
  match Header_Values h HeaderKeyMCPSessionId with
  | [] => if required then Err SessionHeaderRequired else Ok ""
  | value :: rest =>
      if negb required then Err SessionHeaderForbidden
      else if decide (rest ≠ []) then Err SessionHeaderRepeated
      else if decide (value = "") then Err SessionHeaderEmpty
      else if decide (maxSessionIDLength < String.length value)%nat then Err SessionHeaderTooLong
      else if all_bytes (byte_between 33 126) value then Ok value else Err SessionHeaderInvalid
  end.

(** ** Backend requests *)

(** A decoded argument. *)
Record argument : Type := mkArgument {
  argument_text : string;
  argument_json : option string;
}.

(** What [buildBackendRequest] makes of the request: the query parameters are
    added to those the request has, the body is set when it is not empty. *)
Record BackendRequest : Type := mkBackendRequest {
  br_Method : string;
  br_Path : string;
  br_Query : gmap string string;
  br_Body : option (gmap string (option string));
}.

Definition inPath : string := "path".
Definition inQuery : string := "query".
Definition inBody : string := "body".

Definition find_arg (args : list ArgConfig) (name : string) : option ArgConfig :=
  first_such (λ a, bool_decide (arg_Name a = name)) args.

Definition placeholder (name : string) : string := "{" +:+ name +:+ "}".

(** The state of the loop: the path, the query and the body so far. *)
Definition add_argument (args : list ArgConfig) (st : string * gmap string string * gmap string (option string))
    (kv : string * argument) : string * gmap string string * gmap string (option string) :=
  let '(path, query, body) := st in
  let '(name, value) := kv in
  match find_arg args name with
  | None => st
  | Some a =>
      if decide (arg_In a = inPath) then (ReplaceAll path (placeholder name) (argument_text value), query, body)
      else if decide (arg_In a = inQuery) then (path, <[name := argument_text value]> query, body)
      else if decide (arg_In a = inBody) then (path, query, <[name := argument_json value]> body)
      else st
  end.

Definition Post : string := "POST".
Definition Put : string := "PUT".

(** [ordered] is the order in which Go ranges over the arguments; [None] when
    the body cannot be encoded. *)
Definition buildBackendRequest (tool : ToolConfig) (ordered : list (string * argument)) : option BackendRequest :=
  let method := McpCatalog.req_Method (tool_Request tool) in
  let '(path, query, body) := foldl (add_argument (tool_Args tool)) (McpCatalog.req_Path (tool_Request tool), ∅, ∅) ordered in
  if decide (body ≠ ∅ ∧ (method = Post ∨ method = Put)) then
    if decide (map_Forall (λ _ (j : option string), is_Some j) body)
    then Some (mkBackendRequest method path query (Some body)) else None
  else Some (mkBackendRequest method path query None).

(** [replacePromptArguments] *)
Definition replacePromptArguments (content : string) (ordered : list (string * argument)) : string :=
  foldl (λ result kv, ReplaceAll result ("{{" +:+ kv.1 +:+ "}}") (argument_text kv.2)) content ordered.

Definition buildPromptMessages (messages : list PromptMessageConfig) (ordered : list (string * argument)) :
    list PromptMessageConfig :=
  map (λ m, mkPromptMessageConfig (pm_Role m) (replacePromptArguments (pm_Content m) ordered)) messages.

(** ** Path parameters

    A path is read as tokens: text without an opening brace, and text that
    follows one. *)

Inductive token : Type := Lit (s : string) | Brace (s : string).

Definition brace : ascii := "{"%char.

Definition render_token (t : token) : string := match t with Lit s => s | Brace s => String brace s end.
Definition render (ts : list token) : string := foldr (λ t s, render_token t +:+ s) "" ts.

Definition token_ok (t : token) : Prop := match t with Lit s | Brace s => Strings.HasByte brace s = false end.

Definition tokenize (s : string) : list token :=
  match Strings.SplitByte brace s with
  | [] => []
  | x :: l => Lit x :: map Brace l
  end.

(** The effect of a replacement on a token. *)
Definition fill (name value : string) (t : token) : token :=
  match t with
  | Lit s => Lit s
  | Brace s => if Strings.HasPrefix s (name +:+ "}") then Lit (value +:+ Strings.Drop (String.length name + 1) s) else Brace s
  end.

Lemma string_app_assoc (a b c : string) : (a +:+ b) +:+ c = a +:+ b +:+ c.
Proof. induction a as [|x a IH]; simpl; [done|]. by rewrite IH. Qed.

Lemma render_tokenize s : render (tokenize s) = s.
Proof.
  unfold tokenize. rewrite <- (Strings.JoinByte_SplitByte brace s) at 2.
  destruct (Strings.SplitByte brace s) as [|x l]; simpl; [done|]. revert x.
  induction l as [|y l IH]; intros x; simpl in *; [by rewrite Strings.app_empty_r|]. by rewrite IH.
Qed.

Definition unbrace : ascii := "}"%char.

(** A template is well formed when every opening brace is closed before the
    next one. *)
Definition closed_token (t : token) : Prop := match t with Lit _ => True | Brace s => Strings.HasByte unbrace s = true end.
Definition well_formed (path : string) : Prop := Forall closed_token (tokenize path).

Lemma tokenize_ok s : Forall token_ok (tokenize s).
Proof.
  unfold tokenize. pose proof (Strings.SplitByte_parts brace s) as H. destruct (Strings.SplitByte brace s) as [|x l]; [constructor|].
  inversion H as [|? ? Hx Hl]; subst. constructor; [done|]. apply Forall_map. exact Hl.
Qed.

Lemma replace_skip_app p r old new : replace_skip (p +:+ r) old new (String.length p) = replace_skip r old new 0.
Proof. induction p as [|a p IH]; simpl; [done|exact IH]. Qed.

Lemma replace_lit s r name value :
  Strings.HasByte brace s = false →
  ReplaceAll (s +:+ r) (placeholder name) value = s +:+ ReplaceAll r (placeholder name) value.
Proof.
  unfold ReplaceAll, placeholder. induction s as [|a s IH]; [done|]. simpl. intros [Ha Hs]%orb_false_iff. apply bool_decide_eq_false in Ha.
  unfold brace in Ha. rewrite (bool_decide_false (a = "{"%char)) by done. simpl. f_equal. by apply IH.
Qed.

Lemma HasPrefix_split s w : Strings.HasPrefix s w = true → s = w +:+ Strings.Drop (String.length w) s.
Proof.
  revert s. induction w as [|a w IH]; intros [|b s]; simpl; try done. intros [Ha H]%andb_true_iff.
  apply bool_decide_eq_true in Ha as ->. f_equal. auto.
Qed.

(** A placeholder that starts in a closed token ends in it. *)
Lemma HasPrefix_closed s r name :
  Strings.HasByte unbrace s = true → Strings.HasByte unbrace name = false →
  Strings.HasPrefix (s +:+ r) (name +:+ "}") = Strings.HasPrefix s (name +:+ "}").
Proof.
  revert s. induction name as [|a name IH]; intros [|b s]; simpl; try done.
  intros Hs [Ha Hn]%orb_false_iff. destruct (bool_decide (b = a)) eqn:E; [|done]. simpl. apply bool_decide_eq_true in E as ->.
  rewrite Ha in Hs. auto.
Qed.

Lemma length_app_string (a b : string) : String.length (a +:+ b) = String.length a + String.length b.
Proof. induction a; simpl; auto. Qed.

(** Replacing a placeholder is filling the tokens. *)
Lemma ReplaceAll_render ts name value :
  Forall token_ok ts → Forall closed_token ts → Strings.HasByte unbrace name = false →
  ReplaceAll (render ts) (placeholder name) value = render (map (fill name value) ts).
Proof.
  intros Hok Hcl Hn. induction ts as [|t ts IH]; [done|].
  apply Forall_cons in Hok as [Ht Hok]. apply Forall_cons in Hcl as [Hc Hcl]. specialize (IH Hok Hcl).
  destruct t as [s|s]; cbn [render foldr map fill render_token].
  - rewrite replace_lit by done. f_equal. exact IH.
  - destruct (Strings.HasPrefix s (name +:+ "}")) eqn:E.
    + pose proof (HasPrefix_split _ _ E) as Es. rewrite length_app_string in Es. simpl in Es.
      unfold ReplaceAll. simpl. rewrite HasPrefix_closed, E by done. simpl.
      rewrite Es at 1. rewrite !string_app_assoc.
      replace (String.length (name +:+ "}") - 0) with (String.length (name +:+ "}")) by lia.
      rewrite <- string_app_assoc, replace_skip_app. f_equal.
      fold (ReplaceAll (Strings.Drop (String.length name + 1) s +:+ foldr (λ t s, render_token t +:+ s) "" ts)
        (placeholder name) value).
      rewrite replace_lit by (by apply Strings.HasByte_Drop). f_equal. exact IH.
    + unfold ReplaceAll. simpl. rewrite HasPrefix_closed, E by done. simpl. f_equal. unfold ReplaceAll in IH.
      fold (ReplaceAll (s +:+ foldr (λ t s, render_token t +:+ s) "" ts) (placeholder name) value).
      rewrite replace_lit by done. f_equal. exact IH.
Qed.

(** ** What a backend request is

    The reference substitutes all the path parameters at once. *)

Definition location (args : list ArgConfig) (name : string) : option string := arg_In <$> find_arg args name.

Definition path_value (args : list ArgConfig) (values : gmap string argument) (name : string) : option string :=
  if decide (location args name = Some inPath) then argument_text <$> values !! name else None.

Definition substitute (args : list ArgConfig) (values : gmap string argument) (t : token) : token :=
  match t with
  | Lit s => Lit s
  | Brace s =>
      match Strings.IndexByte unbrace s with
      | None => Brace s
      | Some i =>
          match path_value args values (TrimSpace.Take i s) with
          | Some v => Lit (v +:+ Strings.Drop (i + 1) s)
          | None => Brace s
          end
      end
  end.

Section backend.
Context (args : list ArgConfig).
Implicit Types (l : list (string * argument)) (t : token) (ts : list token).

Definition fill_argument t (kv : string * argument) : token :=
  if decide (location args kv.1 = Some inPath) then fill kv.1 (argument_text kv.2) t else t.

(** The path parameters of a call are plain: no closing brace in the name and
    no opening one in the value. *)
Definition plain_argument (kv : string * argument) : Prop :=
  location args kv.1 = Some inPath →
    Strings.HasByte unbrace kv.1 = false ∧ Strings.HasByte brace (argument_text kv.2) = false.

Lemma add_argument_path st kv :
  (add_argument args st kv).1.1 =
    (if decide (location args kv.1 = Some inPath) then ReplaceAll st.1.1 (placeholder kv.1) (argument_text kv.2) else st.1.1).
Proof.
  destruct st as [[path query] body], kv as [name value]. unfold add_argument, location. simpl.
  destruct (find_arg args name) as [a|]; simpl; [|done].
  destruct (decide (arg_In a = inPath)) as [E|E], (decide (Some (arg_In a) = Some inPath)) as [E'|E']; try congruence; [done|].
  by repeat case_decide.
Qed.

Lemma fill_argument_ok t kv :
  plain_argument kv → token_ok t → closed_token t → token_ok (fill_argument t kv) ∧ closed_token (fill_argument t kv).
Proof.
  intros Hp Ht Hc. unfold fill_argument. destruct (decide (location args kv.1 = Some inPath)) as [E|E]; [|done].
  destruct (Hp E) as [_ Hv]. destruct t as [s|s]; simpl in *; [done|].
  destruct (Strings.HasPrefix s _); simpl; [|done]. split; [|done]. rewrite Strings.HasByte_app, Hv. by apply Strings.HasByte_Drop.
Qed.

Lemma fold_path l ts st :
  Forall plain_argument l → Forall token_ok ts → Forall closed_token ts → st.1.1 = render ts →
  (foldl (add_argument args) st l).1.1 = render (map (λ t, foldl fill_argument t l) ts).
Proof.
  intros Hl. revert ts st. induction Hl as [|kv l Hkv _ IH]; intros ts st Hok Hcl Hst; simpl; [by rewrite map_id|].
  rewrite (IH (map (λ t, fill_argument t kv) ts)).
  - by rewrite map_map.
  - apply Forall_map. rewrite Forall_forall in Hok, Hcl. apply Forall_forall. intros t Ht. apply fill_argument_ok; auto.
  - apply Forall_map. rewrite Forall_forall in Hok, Hcl. apply Forall_forall. intros t Ht. apply fill_argument_ok; auto.
  - rewrite add_argument_path. unfold fill_argument.
    destruct (decide (location args kv.1 = Some inPath)) as [E|E]; [|by rewrite map_id].
    rewrite Hst. destruct (Hkv E). by apply ReplaceAll_render.
Qed.

Lemma IndexByte_closed s : Strings.HasByte unbrace s = true → ∃ i, Strings.IndexByte unbrace s = Some i.
Proof.
  induction s as [|a s IH]; simpl; [done|]. case_decide as E; [eauto|]. rewrite bool_decide_false by done. simpl.
  intros [i Hi]%IH. rewrite Hi. simpl. eauto.
Qed.

(** The name before the closing brace is the only one whose placeholder the
    token starts with. *)
Lemma placeholder_name s i name :
  Strings.IndexByte unbrace s = Some i → Strings.HasByte unbrace name = false →
  Strings.HasPrefix s (name +:+ "}") = bool_decide (name = TrimSpace.Take i s) ∧
  (name = TrimSpace.Take i s → String.length name = i).
Proof.
  revert i name. induction s as [|a s IH]; intros i name; simpl; [done|]. case_decide as E.
  - intros [= <-]. subst a. destruct name as [|b name]; simpl; [done|]. intros [Hb _]%orb_false_iff.
    apply bool_decide_eq_false in Hb. rewrite bool_decide_false by done. simpl. done.
  - destruct (Strings.IndexByte unbrace s) as [j|] eqn:Ej; [|done]. simpl. intros [= <-].
    destruct name as [|b name]; simpl.
    + intros _. unfold TrimSpace.Take. simpl. rewrite (bool_decide_false (a = "}"%char)) by done. done.
    + intros [Hb Hn]%orb_false_iff. destruct (IH j name eq_refl Hn) as [Hp Hl]. unfold TrimSpace.Take in *. simpl.
      split; [|intros [= -> ->]; f_equal; by apply Hl]. rewrite Hp.
      destruct (decide (a = b)) as [->|Hab]; [|rewrite (bool_decide_false (a = b)) by done; simpl; symmetry;
        apply bool_decide_false; congruence].
      rewrite bool_decide_true by done. simpl. apply bool_decide_ext. split; congruence.
Qed.

Lemma fold_lit l s : foldl fill_argument (Lit s) l = Lit s.
Proof. induction l as [|kv l IH]; simpl; [done|]. unfold fill_argument at 2. by case_decide. Qed.

Lemma fold_brace l s i :
  Forall plain_argument l → NoDup (map fst l) → Strings.IndexByte unbrace s = Some i →
  foldl fill_argument (Brace s) l = substitute args (list_to_map l) (Brace s).
Proof.
  intros Hl Hnd Hi. simpl. rewrite Hi. unfold path_value.
  induction l as [|[name v] l IH]; simpl; [by rewrite lookup_empty; case_decide|].
  apply Forall_cons in Hl as [Hkv Hl]. apply NoDup_cons in Hnd as [Hn Hnd]. specialize (IH Hl Hnd).
  unfold fill_argument at 2. simpl.
  destruct (decide (location args name = Some inPath)) as [E|E].
  - destruct (Hkv E) as [Hname _]. simpl in Hname. destruct (placeholder_name s i name Hi Hname) as [Hp Hlen].
    rewrite Hp. destruct (decide (name = TrimSpace.Take i s)) as [Eq|Ne].
    + rewrite bool_decide_true by done. rewrite <- Eq, decide_True, lookup_insert_eq by done. simpl.
      rewrite fold_lit, (Hlen Eq). done.
    + rewrite bool_decide_false, IH by done. by rewrite lookup_insert_ne.
  - rewrite IH. destruct (decide (location args (TrimSpace.Take i s) = Some inPath)) as [E'|E']; [|done].
    rewrite lookup_insert_ne; [done|]. intros ->. done.
Qed.

Lemma add_argument_query st kv :
  (add_argument args st kv).1.2 =
    (if decide (location args kv.1 = Some inQuery) then <[kv.1 := argument_text kv.2]> st.1.2 else st.1.2).
Proof.
  destruct st as [[path query] body], kv as [name value]. unfold add_argument, location, inPath, inQuery, inBody. simpl.
  destruct (find_arg args name) as [a|]; simpl; [|done].
  destruct (decide (arg_In a = "path")) as [E|E], (decide (arg_In a = "query")) as [E1|E1],
    (decide (Some (arg_In a) = Some "query")) as [E2|E2]; try congruence; try done; by case_decide.
Qed.

Lemma add_argument_body st kv :
  (add_argument args st kv).2 =
    (if decide (location args kv.1 = Some inBody) then <[kv.1 := argument_json kv.2]> st.2 else st.2).
Proof.
  destruct st as [[path query] body], kv as [name value]. unfold add_argument, location, inPath, inQuery, inBody. simpl.
  destruct (find_arg args name) as [a|]; simpl; [|done].
  destruct (decide (arg_In a = "path")) as [E|E], (decide (arg_In a = "query")) as [E1|E1], (decide (arg_In a = "body")) as [E2|E2],
    (decide (Some (arg_In a) = Some "body")) as [E3|E3]; try congruence; done.
Qed.
End backend.

(** A loop that puts some of the values of a list into a map. *)
Lemma fold_insert {A B} (P : string → Prop) `{∀ k, Decision (P k)} (f : A → B) (l : list (string * A)) (m : gmap string B) k :
  NoDup (map fst l) →
  foldl (λ m kv, if decide (P kv.1) then <[kv.1 := f kv.2]> m else m) m l !! k =
    match list_to_map (M := gmap string A) l !! k with
    | Some v => if decide (P k) then Some (f v) else m !! k
    | None => m !! k
    end.
Proof.
  revert m. induction l as [|[name v] l IH]; intros m; [done|]. intros [Hn Hnd]%NoDup_cons.
  cbn [foldl]. rewrite IH, list_to_map_cons by done. cbn [fst snd]. destruct (decide (k = name)) as [->|Hk].
  - rewrite not_elem_of_list_to_map_1, lookup_insert_eq by done. destruct (decide (P name)); [by rewrite lookup_insert_eq|done].
  - rewrite lookup_insert_ne by done. destruct (decide (P name)); [|done]. by rewrite lookup_insert_ne.
Qed.

Lemma fold_query args l st :
  (foldl (add_argument args) st l).1.2 =
    foldl (λ m kv, if decide (location args kv.1 = Some inQuery) then <[kv.1 := argument_text kv.2]> m else m) st.1.2 l.
Proof. revert st. induction l as [|kv l IH]; intros st; [done|]. cbn [foldl]. by rewrite IH, add_argument_query. Qed.

Lemma fold_body args l st :
  (foldl (add_argument args) st l).2 =
    foldl (λ m kv, if decide (location args kv.1 = Some inBody) then <[kv.1 := argument_json kv.2]> m else m) st.2 l.
Proof. revert st. induction l as [|kv l IH]; intros st; [done|]. cbn [foldl]. by rewrite IH, add_argument_body. Qed.

(** The values that go to a place, as a map. *)
Definition values_in {B} (args : list ArgConfig) (place : string) (f : argument → B) (values : gmap string argument) :
    gmap string B :=
  f <$> filter (λ kv, location args kv.1 = Some place) values.

Lemma values_in_fold {B} args place (f : argument → B) (values : gmap string argument) l :
  l ≡ₚ map_to_list values →
  foldl (λ m kv, if decide (location args kv.1 = Some place) then <[kv.1 := f kv.2]> m else m) ∅ l =
    values_in args place f values.
Proof.
  intros Hl. assert (NoDup (map fst l)) as Hnd by (rewrite Hl; apply NoDup_fst_map_to_list).
  assert (list_to_map l = values) as Hv.
  { rewrite <- (list_to_map_to_list values). by apply list_to_map_proper. }
  apply map_eq. intros k.
  etransitivity; [exact (fold_insert (λ k, location args k = Some place) f l ∅ k Hnd)|]. rewrite Hv, lookup_empty.
  unfold values_in. rewrite lookup_fmap, map_lookup_filter. destruct (values !! k) as [v|]; simpl; [|done].
  unfold guard. destruct (decide (location args k = Some place)); done.
Qed.


(** A value of a path parameter is substituted as it is: it can leave the part
    of the path that the template reserves for it. *)
Theorem path_argument_unescaped :
  let tool := mkToolConfig "user" "" "backend" "" (mkRequestConfig "GET" "/users/{id}/profile" ∅ "30s")
                [mkArgConfig "id" "string" inPath "" true ANil []] None in
  br_Path <$> buildBackendRequest tool [("id", mkArgument "../admin?x=" (Some "a"))] = Some "/users/../admin?x=/profile".
Proof. vm_compute. reflexivity. Qed.

(** With an opening brace in a value, the path depends on the order in which Go
    happens to run over the arguments. *)
Theorem path_order_dependent :
  let arg name := mkArgConfig name "string" inPath "" true ANil [] in
  let tool := mkToolConfig "user" "" "backend" "" (mkRequestConfig "GET" "/{a}/{b}" ∅ "30s") [arg "a"; arg "b"] None in
  let a := ("a", mkArgument "{b}" (Some "1")) in
  let b := ("b", mkArgument "x" (Some "2")) in
  br_Path <$> buildBackendRequest tool [a; b] = Some "/x/x" ∧
  br_Path <$> buildBackendRequest tool [b; a] = Some "/{b}/x".
Proof. vm_compute. done. Qed.

(** ** A sample *)

Module backend_sample.

Definition tool : ToolConfig :=
  mkToolConfig "order" "" "backend" "" (mkRequestConfig "POST" "/users/{user}/orders/{id}" ∅ "30s")
    [mkArgConfig "user" "string" inPath "" true ANil []; mkArgConfig "id" "string" inPath "" true ANil [];
     mkArgConfig "verbose" "boolean" inQuery "" false ANil []; mkArgConfig "note" "string" inBody "" false ANil []] None.

Definition values : gmap string argument :=
  list_to_map [("user", mkArgument "alice" (Some "1")); ("id", mkArgument "7" (Some "2"));
    ("verbose", mkArgument "true" (Some "true")); ("note", mkArgument "hello" (Some "3")); ("other", mkArgument "x" None)].

Lemma template_ok : well_formed "/users/{user}/orders/{id}".
Proof.
  unfold well_formed.
  assert (tokenize "/users/{user}/orders/{id}" = [Lit "/users/"; Brace "user}/orders/"; Brace "id}"]) as ->
    by (vm_compute; reflexivity).
  repeat (apply Forall_cons; split); [exact I|vm_compute; reflexivity|vm_compute; reflexivity|constructor].
Qed.


End backend_sample.
