(* ===== verification/McpAuth.v ===== *)
(** * Token authentication of the MCP endpoint

    [pkg/filter/auth/mcp]: the configuration ([config.go]), the filter
    ([filter.go]) and the validator ([internal/validator/validator.go]).

    Parameters: the tokens and key sets of the JWT library, of which the
    documented guarantees are the hypotheses [jwt_laws]; the loaders of the key
    sets; the texts of the error responses; the range order of a map.  The
    contents of the [WWW-Authenticate] header are left out. *)

From S2P Require Import Prelude GoStrings GoHttp HttpManager McpCatalog McpPolicy McpPlan McpHttp.

(** ** Configuration *)

Record Provider : Type := mkProvider {
  pv_Name : string;
  pv_Issuer : string;
  pv_Audience : string;
  pv_JWKS : string;
}.

Record ResourceMetadata : Type := mkResourceMetadata {
  rm_Path : string;
  rm_Resource : string;
  rm_AuthorizationServers : list string;
}.

Record Config : Type := mkConfig {
  cfg_ResourceMetadata : ResourceMetadata;
  cfg_Providers : list Provider;
  cfg_Rules : list string;
}.

Inductive config_error : Type :=
  | ResourceRequired
  | AuthorizationServersRequired
  | ProvidersRequired
  | ProviderNameEmpty
  | ProviderIssuerEmpty (name : string)
  | ProviderJWKSEmpty (name : string)
  | ProviderDuplicated (name : string)
  | RuleClusterEmpty (index : nat).

(** The loop over the providers: [range] gives it copies, and the audience it
    sets is the copy's. *)
Fixpoint check_providers (resource : string) (providers : list Provider) (names : gset string) : option config_error :=
  match providers with
  | [] => None
  | p :: providers =>
      if decide (pv_Name p = "") then Some ProviderNameEmpty
      else
        let p := if decide (pv_Audience p = "") then mkProvider (pv_Name p) (pv_Issuer p) resource (pv_JWKS p) else p in
        if decide (pv_Issuer p = "") then Some (ProviderIssuerEmpty (pv_Name p))
        else if decide (pv_JWKS p = "") then Some (ProviderJWKSEmpty (pv_Name p))
        else if decide (pv_Name p ∈ names) then Some (ProviderDuplicated (pv_Name p))
        else check_providers resource providers ({[pv_Name p]} ∪ names)
  end.

Fixpoint check_rules (index : nat) (rules : list string) : option config_error :=
  match rules with
  | [] => None
  | cluster :: rules => if decide (cluster = "") then Some (RuleClusterEmpty index) else check_rules (S index) rules
  end.

(** [Validate] works on the pointer that the factory keeps: the configuration
    afterwards, and the error. *)
Definition Validate (c : Config) : Config * option config_error :=
  let rm := cfg_ResourceMetadata c in
  let rm := if decide (rm_Path rm = "")
            then mkResourceMetadata "/.well-known/oauth-protected-resource" (rm_Resource rm) (rm_AuthorizationServers rm)
            else rm in
  let c := mkConfig rm (cfg_Providers c) (cfg_Rules c) in
  (c,
   if decide (rm_Resource rm = "") then Some ResourceRequired
   else if decide (rm_AuthorizationServers rm = []) then Some AuthorizationServersRequired
   else if decide (cfg_Providers c = []) then Some ProvidersRequired
   else match check_providers (rm_Resource rm) (cfg_Providers c) ∅ with
        | Some e => Some e
        | None => check_rules 0 (cfg_Rules c)
        end).

(** ** The validator *)

Inductive jwt_error : Type := TokenExpired | TokenNotYetValid | JwtInvalid (text : string).

Record ValidationError : Type := mkValidationError {
  ve_Code : string;
  ve_Message : string;
}.

Definition ErrCodeInvalidProvider : string := "invalid_provider".
Definition ErrCodeJWKS : string := "jwks_error".
Definition ErrCodeInvalidToken : string := "invalid_token".
Definition ErrCodeTokenExpired : string := "token_expired".
Definition ErrCodeTokenNotYet : string := "token_not_yet_valid".

Definition allowedSignatureAlgorithms : list string :=
  map (String.append "RS") ["256"; "384"; "512"] ++ map (String.append "PS") ["256"; "384"; "512"] ++
  map (String.append "ES") ["256"; "384"; "512"] ++ ["EdDSA"] ++ map (String.append "HS") ["256"; "384"; "512"].

Definition defaultAcceptableSkew : Z := 60.

Section validator.
Context {Key Token : Type}.
Context (key_alg : Key → string).

Definition filterKeySetByAllowedAlgorithms (source : list Key) : list Key :=
  filter (λ k, key_alg k ≠ "" ∧ key_alg k ∈ allowedSignatureAlgorithms) source.

Context (expired_text not_yet_text : string).

Definition categorizeJWTError (e : jwt_error) : string * string :=
  match e with
  | TokenExpired => (ErrCodeTokenExpired, expired_text)
  | TokenNotYetValid => (ErrCodeTokenNotYet, not_yet_text)
  | JwtInvalid text => (ErrCodeInvalidToken, text)
  end.

(** The JWT library: parsing without any check, the issuer of a token, and
    parsing with the signature, the issuer, the audience when one is given, and
    the validity period checked. *)
Context (ParseInsecure : string → option Token) (Issuer : Token → option string).
Context (Parse : string → list Key → string → option string → Z → result jwt_error Token).
Context (Keys : Token → gmap string claim).
(** The loader of a provider's key set, at the time of the request. *)
Context (Load : string → result string (option (list Key))).
Context (range : gmap string Provider → list (string * Provider)).

(** [NewValidator]; [build] says whether a loader can be built. *)
Fixpoint add_providers (build : string → bool) (providers : list Provider) (m : gmap string Provider) :
    option (gmap string Provider) :=
  match providers with
  | [] => Some m
  | p :: providers =>
      if decide (pv_JWKS p = "") then None
      else if build (pv_JWKS p) then add_providers build providers (<[pv_Name p := p]> m) else None
  end.

Definition NewValidator (build : string → bool) (providers : list Provider) : option (gmap string Provider) :=
  if decide (providers = []) then None else add_providers build providers ∅.

Definition ProviderByTokenIssuer (v : gmap string Provider) (token : string) : option string :=
  match ParseInsecure token with
  | None => None
  | Some tok =>
      match Issuer tok with
      | None => None
      | Some iss =>
          if decide (iss = "") then None
          else fst <$> first_such (λ np, bool_decide (pv_Issuer np.2 = iss)) (range v)
      end
  end.

Definition validator_Validate (v : gmap string Provider) (providerName token : string) :
    result ValidationError (gmap string claim) :=
  match v !! providerName with
  | None => Err (mkValidationError ErrCodeInvalidProvider ("provider '" +:+ providerName +:+ "' not found"))
  | Some p =>
      match Load (pv_JWKS p) with
      | Err text => Err (mkValidationError ErrCodeJWKS text)
      | Ok None => Err (mkValidationError ErrCodeJWKS "no JWKS available for provider")
      | Ok (Some keySet) =>
          let filtered := filterKeySetByAllowedAlgorithms keySet in
          if decide (filtered = []) then
            Err (mkValidationError ErrCodeJWKS "no acceptable JWKs with allowed algorithms")
          else
            let audience := if decide (pv_Audience p ≠ "") then Some (pv_Audience p) else None in
            match Parse token filtered (pv_Issuer p) audience defaultAcceptableSkew with
            | Err e => let '(code, msg) := categorizeJWTError e in Err (mkValidationError code msg)
            | Ok tok => Ok (Keys tok)
            end
      end
  end.

(** ** The filter *)

Record runtimeState : Type := mkRuntimeState {
  rs_validator : gmap string Provider;
  rs_metaPath : string;
  rs_metaBody : string;
  rs_rules : list string;
}.

Definition extractBearer (v : string) : string :=
  if decide (String.length v < 7)%nat then ""
  else if Strings.HasPrefix (ToLower v) "bearer " then TrimSpace (Strings.Drop 7 v) else "".

Context (oauth_error : string → string → string).

Definition unauthorized {P} (hc : HttpContext P) (code desc : string) : HttpContext P :=
  SendLocalReply hc 401 (oauth_error code desc).

Definition Authorization : string := "Authorization".

Definition header_del (h : Header) (key : string) : Header := delete (CanonicalMIMEHeaderKey key) h.

(** The filter has no state of its own; [S] is that of the chain. *)
Definition auth_Decode {S : Type} (st : runtimeState) (s : S) (hc : HttpContext McpParams) :
    S * HttpContext McpParams * FilterStatus :=
  if decide (GoHttp.req_Path (hc_Request hc) = rs_metaPath st) then (s, SendLocalReply hc 200 (rs_metaBody st), Stop)
  else
    match (match hc_Route hc with
           | Some cluster => first_such (λ r, bool_decide (cluster = r)) (rs_rules st)
           | None => None
           end) with
    | None => (s, hc, Continue)
    | Some _ =>
        let token := extractBearer (Header_Get (req_Header (hc_Request hc)) Authorization) in
        if decide (token = "") then (s, unauthorized hc "invalid_token" "missing bearer token", Stop)
        else
          match ProviderByTokenIssuer (rs_validator st) token with
          | None => (s, unauthorized hc "invalid_token" "untrusted token issuer", Stop)
          | Some providerName =>
              match validator_Validate (rs_validator st) providerName token with
              | Err e =>
                  let code := if decide (ve_Code e ≠ "") then ve_Code e else "invalid_token" in
                  let msg := if decide (ve_Message e ≠ "") then ve_Message e else "invalid token" in
                  (s, unauthorized hc code msg, Stop)
              | Ok claims =>
                  let hc := if decide (claims ≠ ∅)
                            then with_Params hc (mkMcpParams (Some claims) (par_MCPData (hc_Params hc))) else hc in
                  let r := hc_Request hc in
                  (s, set_request hc (mkRequest (GoHttp.req_Method r) (GoHttp.req_Path r)
                         (header_del (req_Header r) Authorization)), Continue)
              end
          end
    end.

(** [Apply]: the state of the filters, with the encoded metadata. *)
Definition auth_Apply (build : string → bool) (metadata : list string → string → string) (c : Config) :
    Config * option runtimeState :=
  let '(c, e) := Validate c in
  match e with
  | Some _ => (c, None)
  | None =>
      match NewValidator build (cfg_Providers c) with
      | None => (c, None)
      | Some v =>
          let rm := cfg_ResourceMetadata c in
          (c, Some (mkRuntimeState v (rm_Path rm) (metadata (rm_AuthorizationServers rm) (rm_Resource rm)) (cfg_Rules c)))
      end
  end.
End validator.

(** ** What is let through *)

(** The documented guarantees of the JWT library: a token that [Parse] accepts
    was signed with one of the keys, has the issuer, and has the audience when
    one is required. *)
Record jwt_laws {Key Token : Type} (ParseInsecure : string → option Token) (Issuer : Token → option string)
    (Parse : string → list Key → string → option string → Z → result jwt_error Token)
    (Signed : Key → string → Prop) (Audience : Token → list string) : Prop := {
  law_signed : ∀ t keys iss aud skew tok, Parse t keys iss aud skew = Ok tok → ∃ k, k ∈ keys ∧ Signed k t;
  law_issuer : ∀ t keys iss aud skew tok, Parse t keys iss aud skew = Ok tok → Issuer tok = Some iss;
  law_audience : ∀ t keys iss aud skew tok, Parse t keys iss (Some aud) skew = Ok tok → aud ∈ Audience tok;
  law_insecure : ∀ t keys iss aud skew tok, Parse t keys iss aud skew = Ok tok → ParseInsecure t = Some tok;
}.

Section admitted.
Context {Key Token : Type} (key_alg : Key → string) (expired_text not_yet_text : string).
Context (ParseInsecure : string → option Token) (Issuer : Token → option string).
Context (Parse : string → list Key → string → option string → Z → result jwt_error Token).
Context (Keys : Token → gmap string claim) (Load : string → result string (option (list Key))).
Context (range : gmap string Provider → list (string * Provider)).
Context (Signed : Key → string → Prop) (Audience : Token → list string).
Context (laws : jwt_laws ParseInsecure Issuer Parse Signed Audience).

Lemma add_providers_from build providers m m' name p :
  add_providers build providers m = Some m' → m' !! name = Some p → m !! name = Some p ∨ p ∈ providers.
Proof.
  revert m. induction providers as [|q providers IH]; intros m; simpl; [intros [= ->]; auto|].
  case_decide; [done|]. destruct (build (pv_JWKS q)); [|done]. intros Hadd Hp. destruct (IH _ Hadd Hp) as [Hm|Hm].
  - rewrite lookup_insert_Some in Hm. destruct Hm as [[_ <-]|[_ Hm]]; [right; constructor|by left].
  - right. by constructor.
Qed.

(** A token that the validator accepts for a provider. *)
Definition verified (p : Provider) (token : string) (tok : Token) : Prop :=
  Issuer tok = Some (pv_Issuer p) ∧ (pv_Audience p ≠ "" → pv_Audience p ∈ Audience tok) ∧
  ∃ keys k, Load (pv_JWKS p) = Ok (Some keys) ∧ k ∈ keys ∧ key_alg k ∈ allowedSignatureAlgorithms ∧ Signed k token.

Lemma Validate_verified v name token claims :
  validator_Validate key_alg expired_text not_yet_text Parse Keys Load v name token = Ok claims →
  ∃ p tok, v !! name = Some p ∧ verified p token tok ∧ claims = Keys tok.
Proof.
  unfold validator_Validate. destruct (v !! name) as [p|]; [|done].
  destruct (Load (pv_JWKS p)) as [[keys|]|] eqn:El; [|done|done].
  destruct (decide (filterKeySetByAllowedAlgorithms key_alg keys = [])); [done|].
  destruct (Parse _ _ _ _ _) as [tok|e] eqn:Ep; [|by destruct (categorizeJWTError _ _ e)]. intros [= <-].
  exists p, tok. split_and!; [done| |done]. unfold verified. split_and!.
  - by eapply law_issuer.
  - intros Ha. rewrite decide_True in Ep by done. by eapply law_audience.
  - destruct (law_signed _ _ _ _ _ laws _ _ _ _ _ _ Ep) as (k & Hk & Hs).
    unfold filterKeySetByAllowedAlgorithms in Hk. rewrite list_elem_of_filter in Hk. exists keys, k. tauto.
Qed.
End admitted.

(** C39: a request for a protected cluster is let through only with a bearer token
    that a configured provider verifies: the signature is made with a key of
    that provider's key set of an allowed algorithm, the issuer is the
    provider's, and the audience is the provider's when it has one.  The claims
    that the filters behind it see are then those of the token (when it has
    any), and the token itself is removed from the request.  Everything else is
    answered with 401. *)
Theorem auth_admits_verified {Key Token S : Type} key_alg expired_text not_yet_text
    (ParseInsecure : string → option Token) Issuer (Parse : string → list Key → string → option string → Z → result jwt_error Token)
    Keys Load range (Signed : Key → string → Prop) Audience oauth_error build metadata config config' st (s : S) hc cluster :
  jwt_laws ParseInsecure Issuer Parse Signed Audience →
  auth_Apply build metadata config = (config', Some st) →
  hc_Route hc = Some cluster → cluster ∈ cfg_Rules config → GoHttp.req_Path (hc_Request hc) ≠ rs_metaPath st →
  let token := extractBearer (Header_Get (req_Header (hc_Request hc)) Authorization) in
  let '(_, hc', status) := auth_Decode key_alg expired_text not_yet_text ParseInsecure Issuer Parse Keys Load range
                             oauth_error st s hc in
  match status with
  | Continue =>
      ∃ p tok, p ∈ cfg_Providers config ∧ verified key_alg Issuer Load Signed Audience p token tok ∧
        par_Claims (hc_Params hc') = (if decide (Keys tok = ∅) then par_Claims (hc_Params hc) else Some (Keys tok)) ∧
        Header_Get (req_Header (hc_Request hc')) Authorization = ""
  | Stop => rw_status (hc_Writer hc) = None → rw_status (hc_Writer hc') = Some 401%Z
  end.
Proof.
  intros laws Happly Hroute Hrule Hmeta token. unfold auth_Apply in Happly.
  destruct (Validate config) as [c1 e] eqn:Ev. unfold Validate in Ev. injection Ev as <- Ee. destruct e; [done|].
  destruct (NewValidator build _) as [v|] eqn:En; [|done]. injection Happly as <- <-. simpl in *. clear Ee.
  unfold auth_Decode. simpl. rewrite decide_False, Hroute by done.
  destruct (first_such (λ r, bool_decide (cluster = r)) (cfg_Rules config)) as [r|] eqn:Er.
  2: { pose proof (proj1 (first_such_None _ _) Er cluster Hrule) as H. by apply bool_decide_eq_false in H. }
  fold token.
  assert (∀ code desc, rw_status (hc_Writer hc) = None →
    rw_status (hc_Writer (unauthorized oauth_error hc code desc)) = Some 401%Z) as H401.
  { intros code desc Hw. unfold unauthorized, SendLocalReply. simpl. unfold WriteHeader. by rewrite Hw. }
  destruct (decide (token = "")) as [E|E]; [apply H401|].
  destruct (ProviderByTokenIssuer _ _ _ v token) as [name|]; [|apply H401].
  destruct (validator_Validate _ _ _ _ _ _ v name token) as [claims|e] eqn:Ec; [|apply H401].
  destruct (Validate_verified key_alg expired_text not_yet_text ParseInsecure Issuer Parse Keys Load range Signed Audience laws
    v name token claims Ec) as (p & tok & Hp & Hver & ->). exists p, tok.
  unfold NewValidator in En. destruct (decide (cfg_Providers config = [])); [done|].
  destruct (add_providers_from _ _ _ _ _ _ En Hp) as [H|Hin]; [by rewrite lookup_empty in H|].
  split_and!; [done|done| |].
  - destruct (decide (Keys tok ≠ ∅)) as [Hk|Hk], (decide (Keys tok = ∅)) as [Hk'|Hk']; try done.
  - unfold Header_Get, header_del, set_request. cbn [hc_Request req_Header].
    match goal with |- context [delete ?k ?h !! ?k] =>
      assert (delete k h !! k = None) as -> by apply (lookup_delete_eq (M := gmap string)) end. done.
Qed.

(** ** A sample library *)

Module auth_sample.

(** A token is its issuer, its audience and the key it is signed with. *)
Record jwt : Type := mkJwt { jwt_iss : string; jwt_aud : list string; jwt_key : string }.

Definition tokens : list (string * jwt) :=
  [("t1", mkJwt "https://issuer" ["mcp.example.com"] "k1"); ("t2", mkJwt "https://issuer" ["mail.example.com"] "k1");
   ("t3", mkJwt "https://issuer" ["mcp.example.com"] "k2")].

Definition ParseInsecure (t : string) : option jwt := snd <$> first_such (λ p, bool_decide (p.1 = t)) tokens.
Definition Issuer (tok : jwt) : option string := Some (jwt_iss tok).
Definition Signed (k t : string) : Prop := ∃ tok, ParseInsecure t = Some tok ∧ jwt_key tok = k.

Definition Parse (t : string) (keys : list string) (iss : string) (aud : option string) (skew : Z) : result jwt_error jwt :=
  match ParseInsecure t with
  | None => Err (JwtInvalid "malformed")
  | Some tok =>
      if decide (jwt_key tok ∈ keys ∧ jwt_iss tok = iss ∧
                 from_option (λ a, bool_decide (a ∈ jwt_aud tok)) true aud = true)
      then Ok tok else Err (JwtInvalid "rejected")
  end.

Lemma laws : jwt_laws ParseInsecure Issuer Parse Signed jwt_aud.
Proof.
  constructor; unfold Parse, Issuer, Signed; intros t keys iss aud skew tok; destruct (ParseInsecure t) as [tok'|]; try done;
    (case_decide as Hd; [|done]); intros [= <-]; destruct Hd as (H1 & H2 & H3); simpl in *;
    [eauto|by f_equal|by apply bool_decide_eq_true in H3|done].
Qed.

Definition key_alg (k : string) : string := if decide (k = "k1") then "ES256" else "none".
Definition Keys (tok : jwt) : gmap string claim := {["sub" := mkClaim "alice" None]}.
Definition Load (jwks : string) : result string (option (list string)) := Ok (Some ["k1"; "k2"]).
Definition range (m : gmap string Provider) : list (string * Provider) := map_to_list m.
Definition oauth_error (code desc : string) : string := code.

(** A provider with the audience left out. *)
Definition config : Config :=
  mkConfig (mkResourceMetadata "" "mcp.example.com" ["https://issuer"])
    [mkProvider "main" "https://issuer" "" "https://issuer/keys"] ["mcp"].

Definition applied : Config * option runtimeState :=
  auth_Apply (λ _, true) (λ _ _, "{}") config.

Definition state : runtimeState :=
  mkRuntimeState {["main" := mkProvider "main" "https://issuer" "" "https://issuer/keys"]}
    "/.well-known/oauth-protected-resource" "{}" ["mcp"].

Lemma applied_state : applied.2 = Some state.
Proof. vm_compute. reflexivity. Qed.

Definition request (token : string) : HttpContext McpParams :=
  RouteEntry (Reset (mkHttpContext (mkMcpParams None None) false 0 "" None SourceNone None (mkRequest "" "" ∅) new_writer)
    (mkRequest "POST" "/mcp" {["Authorization" := ["Bearer " +:+ token]]}) new_writer) "mcp".

Definition decode (token : string) : unit * HttpContext McpParams * FilterStatus :=
  auth_Decode key_alg "" "" ParseInsecure Issuer Parse Keys Load range oauth_error state () (request token).

Lemma auth_admits_verified_witness :
  (decode "t1").2 = Continue ∧
  ∃ p tok, p ∈ cfg_Providers config ∧ verified key_alg Issuer Load Signed jwt_aud p "t1" tok ∧
    par_Claims (hc_Params (decode "t1").1.2) = Some (Keys tok).
Proof.
  assert ((decode "t1").2 = Continue) as Hd by (vm_compute; reflexivity). split; [exact Hd|].
  assert (auth_Apply (λ _, true) (λ _ _, "{}") config = (applied.1, Some state)) as Happ by (vm_compute; reflexivity).
  generalize (auth_admits_verified key_alg "" "" ParseInsecure Issuer Parse Keys Load range Signed jwt_aud oauth_error
    (λ _, true) (λ _ _, "{}") config applied.1 state () (request "t1") "mcp" laws Happ eq_refl
    ltac:(constructor) ltac:(done)).
  assert (extractBearer (Header_Get (req_Header (hc_Request (request "t1"))) Authorization) = "t1") as ->
    by (vm_compute; reflexivity).
  change (auth_Decode key_alg "" "" ParseInsecure Issuer Parse Keys Load range oauth_error state () (request "t1"))
    with (decode "t1").
  destruct (decode "t1") as [[u hc'] status]. simpl in Hd. subst status. cbv zeta.
  intros (p & tok & H1 & H2 & H3 & _). exists p, tok. split; [exact H1|]. split; [exact H2|]. revert H3.
  destruct (decide (Keys tok = ∅)) as [Hk|Hk]; [|intros H3; exact H3].
  apply (f_equal (lookup "sub")) in Hk. unfold Keys in Hk. rewrite lookup_singleton_eq, lookup_empty in Hk. discriminate.
Defined.

(** A provider without an audience: the configuration is accepted, with a log
    message that the audience defaults to the resource, but the default goes
    into a copy.  A token for another service is let through. *)
Theorem audience_default_lost :
  applied.2 = Some state ∧ (decode "t2").2 = Continue ∧
  ∃ tok, ParseInsecure "t2" = Some tok ∧ rm_Resource (cfg_ResourceMetadata applied.1) ∉ jwt_aud tok.
Proof.
  split; [exact applied_state|]. split; [vm_compute; reflexivity|].
  exists (mkJwt "https://issuer" ["mail.example.com"] "k1"). split; [vm_compute; reflexivity|].
  apply (bool_decide_eq_true_1 (_ ∉ _)). vm_compute. reflexivity.
Qed.

End auth_sample.
