(* ===== verification/McpServer.v ===== *)
(** * The MCP server filter

    [pkg/filter/mcp/mcpserver/filter.go], [handlers.go], [selector.go],
    [notification.go], [runtime.go] and the notifications of [dynamic.go]: the
    decode and encode sides of the filter over the state of a runtime, which is
    the session manager, the plan store and the consumer with its registry.

    Requests, catalog updates and background jobs run concurrently.  A handler
    is therefore a program [M]: a tree of atomic steps, one for each critical
    section of the session manager, of a session, of the plan store or of the
    registry, with what it puts into the log of the server.  [server_step]
    interleaves the steps of any number of tasks; [run_alone] runs one program
    without interruption.

    Parameters: those of the selector, the JSON encoding of a message and the
    orders of the maps.  What the environment does in a request (its decoded
    body, the other filters of the chain, the backend, the random source,
    whether a pipe has a reader) is part of the task. *)

From S2P Require Import Prelude GoStrings GoHttp HttpManager Sha256 Endpoint McpCatalog McpPolicy McpIdentity McpPlan McpSelector McpGovern McpCalls McpSession McpRegistry McpDynamic McpResources McpHttp.

(** ** State *)

(** [rt_contexts] are the contexts in the pool, of which only the parameters
    outlive a request; [rt_pipes] counts the pipes made so far. *)
Record RuntimeState : Type := mkRuntimeState {
  rt_sessions : SessionManager;
  rt_plans : SessionPlanStore;
  rt_dynamic : DynamicConsumer;
  rt_now : Z;
  rt_contexts : list McpParams;
  rt_pipes : nat;
}.

Definition with_sessions (rt : RuntimeState) (sm : SessionManager) : RuntimeState :=
  mkRuntimeState sm (rt_plans rt) (rt_dynamic rt) (rt_now rt) (rt_contexts rt) (rt_pipes rt).
Definition with_plans (rt : RuntimeState) (s : SessionPlanStore) : RuntimeState :=
  mkRuntimeState (rt_sessions rt) s (rt_dynamic rt) (rt_now rt) (rt_contexts rt) (rt_pipes rt).
Definition with_dynamic (rt : RuntimeState) (d : DynamicConsumer) : RuntimeState :=
  mkRuntimeState (rt_sessions rt) (rt_plans rt) d (rt_now rt) (rt_contexts rt) (rt_pipes rt).
Definition with_now (rt : RuntimeState) (now : Z) : RuntimeState :=
  mkRuntimeState (rt_sessions rt) (rt_plans rt) (rt_dynamic rt) now (rt_contexts rt) (rt_pipes rt).
Definition with_contexts (rt : RuntimeState) (cxs : list McpParams) : RuntimeState :=
  mkRuntimeState (rt_sessions rt) (rt_plans rt) (rt_dynamic rt) (rt_now rt) cxs (rt_pipes rt).
Definition with_pipes (rt : RuntimeState) (n : nat) : RuntimeState :=
  mkRuntimeState (rt_sessions rt) (rt_plans rt) (rt_dynamic rt) (rt_now rt) (rt_contexts rt) n.

(** The log: what was asked of the selector and with which catalog, the catalogs
    that were published, the calls that went to a backend, and the answers to
    the requests. *)
Inductive server_event : Type :=
  | Asked (sc : SelectionContext) (tools : list ToolConfig)
  | Published (snap : ToolCatalogSnapshot)
  | Forwarded (sc : SelectionContext) (tools : list ToolConfig) (tool : ToolConfig) (b : BackendRequest)
  | Answered (w : ResponseWriter).

(** A decoded JSON-RPC request: the parameters read as those of
    [resources/read] and as those of a tool call or of [prompts/get], [None]
    where they do not have the form; arguments in the order Go ranges over
    them. *)
Record JSONRPCRequest : Type := mkJSONRPCRequest {
  rpc_Method : string;
  rpc_ID : string;
  rpc_URI : option string;
  rpc_Call : option (string * list (string * argument));
}.

Inductive post_body : Type := BodyUnreadable | BodyInvalid | BodyRpc (r : JSONRPCRequest).

(** What a request meets: its body, the random source, whether the reader of a
    pipe is there, the same for the writes of a flush. *)
Record moment : Type := mkMoment {
  at_body : post_body;
  at_random : list (option (list Z));
  at_reader : bool;
  at_writes : list bool;
}.

(** ** Programs *)

Inductive M (A : Type) : Type :=
  | Ret (a : A)
  | Atom (f : RuntimeState → RuntimeState * list server_event * M A)
  | Stuck.
Arguments Ret {A} a.
Arguments Atom {A} f.
Arguments Stuck {A}.

Fixpoint M_bind_go {A B} (k : A → M B) (m : M A) : M B :=
  match m with
  | Ret a => k a
  | Atom f => Atom (λ rt, let '(rt, evs, m) := f rt in (rt, evs, M_bind_go k m))
  | Stuck => Stuck
  end.

#[export] Instance M_ret : MRet M := @Ret.
#[export] Instance M_bind : MBind M := @M_bind_go.

(** Induction on the programs. *)
Lemma M_tree_ind {A} (P : M A → Prop) :
  (∀ a, P (Ret a)) → (∀ f, (∀ rt, P (f rt).2) → P (Atom f)) → P Stuck → ∀ m, P m.
Proof.
  intros HR HA HS. exact (fix go m := match m with Ret a => HR a | Atom f => HA f (λ rt, go (f rt).2) | Stuck => HS end).
Qed.

(** A program that nothing interrupts; [None] when it wants more input than it
    was given. *)
Fixpoint run_alone {A} (m : M A) (rt : RuntimeState) (log : list server_event) :
    option (RuntimeState * list server_event * A) :=
  match m with
  | Ret a => Some (rt, log, a)
  | Atom f => let '(rt, evs, m) := f rt in run_alone m rt (log ++ evs)
  | Stuck => None
  end.

Definition atom {A} (f : RuntimeState → RuntimeState * A) : M A := Atom (λ rt, let '(rt, a) := f rt in (rt, [], Ret a)).
Definition emit (e : server_event) : M unit := Atom (λ rt, (rt, [e], Ret ())).
Definition reads {A} (f : RuntimeState → A) : M A := atom (λ rt, (rt, f rt)).

(** A program over the plan store. *)
Fixpoint lift {A} (p : prog A) : M A :=
  match p with
  | Done a => Ret a
  | Step f => Atom (λ rt, let '(s, p) := f (rt_plans rt) in (with_plans rt s, [], lift p))
  end.

Definition MethodInitialize : string := "initialize".
Definition MethodToolsList : string := "tools/list".
Definition MethodPing : string := "ping".
Definition MethodInitialized : string := "notifications/initialized".
Definition MethodResourcesList : string := "resources/list".
Definition MethodResourcesRead : string := "resources/read".
Definition MethodTemplatesList : string := "resources/templates/list".
Definition MethodPromptsList : string := "prompts/list".
Definition MethodPromptsGet : string := "prompts/get".

Definition isTerminalMethod (method : string) : bool :=
  bool_decide (method ∈ [MethodInitialize; MethodToolsList; MethodResourcesList; MethodResourcesRead;
    MethodTemplatesList; MethodPromptsList; MethodPromptsGet; MethodInitialized; MethodPing]).

Definition toolsListChangedMethod : string := "notifications/tools/list_changed".
Definition mcpSessionNotFoundMessage : string := "MCP session not found".

Section server.
Context {regexp : Type} (MatchString : regexp → string → bool) (set_range : StringSet → list string).
Context (ToolJSON : ToolConfig → option string) (ToolGo : ToolConfig → string).
Context (c : CompositeSelector (regexp:=regexp)).
Context (session_range : gmap string nat → list (string * nat)).
Context (source_range : gmap ServerSource ServerToolConfig → list ServerSource).
Context (static_range : ∀ A, gmap string A → list A).
Context (Marshal : message → string).
Context (governanceEnabled : bool) (Endpoint : string) (static : StaticRegistry).
Implicit Types (rt : RuntimeState) (t : moment) (d : MCPData) (hc : HttpContext McpParams).

(** The callbacks for sessions that were removed: the router's plans go. *)
Fixpoint removed_handlers (removed : list string) : M unit :=
  match removed with
  | [] => mret ()
  | id :: removed =>
      _ ← (if governanceEnabled then atom (λ rt, (with_plans rt (DeleteSession (rt_plans rt) id), ())) else mret ());
      removed_handlers removed
  end.

(** A critical section of the session manager, then the callbacks. *)
Definition sessions_do {A} (f : SessionManager → Z → SessionManager * list string * A) : M A :=
  r ← atom (λ rt, let '(sm, removed, a) := f (rt_sessions rt) (rt_now rt) in (with_sessions rt sm, (removed, a)));
  _ ← removed_handlers r.1;
  mret r.2.

Definition sessions_set {A} (f : SessionManager → Z → SessionManager * A) : M A :=
  atom (λ rt, let '(sm, a) := f (rt_sessions rt) (rt_now rt) in (with_sessions rt sm, a)).

(** A call of the selector. *)
Definition ask (k : call) : M reply :=
  _ ← match request_of k with Some (sc, tools) => emit (Asked sc tools) | None => mret () end;
  lift (program MatchString set_range ToolJSON ToolGo c k).

Definition activate (id : string) (generation : Z) : M (option plan_error) :=
  atom (λ rt, let '(s, e) := ActivateSession (rt_plans rt) id generation in (with_plans rt s, e)).

Definition snapshot : M ToolCatalogSnapshot := reads (λ rt, dc_registry (rt_dynamic rt)).
Definition session_at (p : nat) : M (option MCPSession) := reads (λ rt, sm_heap (rt_sessions rt) !! p).

(** [Session] is [GetSession]. *)
Definition get_session (id : string) : M (option nat) := sessions_do (λ sm now, GetSession sm id now).

Definition create_session (reads : list (option (list Z))) : M create_outcome :=
  o ← sessions_do (λ sm now, create_begin session_range sm now reads);
  match o with
  | CreateRetry => sessions_set (λ sm now, create_retry sm now reads)
  | _ => mret o
  end.

Definition ensure_session (id : string) (reads : list (option (list Z))) : M create_outcome :=
  found ← (if decide (id = "") then mret None else get_session id);
  match found with
  | Some p => mret (Created p)
  | None => create_session reads
  end.

(** ** Answers *)

Definition outcome : Type := HttpContext McpParams * MCPData * FilterStatus.

Definition reply_with hc d (status : Z) (body : string) : outcome := (SendLocalReply hc status body, d, Stop).

Definition sendResponse hc d (m : message) : outcome := reply_with hc d 200 (Marshal m).
Definition sendJSONResponse := sendResponse.
Definition SendInternalError hc d (id : option string) (text : string) : outcome :=
  sendResponse hc d (RpcError id INTERNAL_ERROR text).
Definition SendMethodNotFound hc d (id : option string) : outcome :=
  sendResponse hc d (RpcError id METHOD_NOT_FOUND "Method not found").
Definition SendInvalidParams hc d (id : option string) (text : string) : outcome :=
  sendResponse hc d (RpcError id INVALID_PARAMS ("Invalid params: " +:+ text)).
Definition SendToolCallError hc d (id : option string) (text : string) : outcome :=
  sendResponse hc d (ToolCallError id text).

Definition sendBadRequest hc d (text : string) : outcome := reply_with hc d 400 text.
Definition sendNotFound hc d (text : string) : outcome := reply_with hc d 404 text.
Definition sendMethodNotAllowed hc d : outcome := reply_with hc d 405 "Method Not Allowed".
Definition sendNotAcceptable hc d (text : string) : outcome := reply_with hc d 406 text.

(** Whether the message was sent. *)
Definition SendSSEMessage (p : nat) (m : message) (reader : bool) : M bool :=
  open ← reads (λ rt, HasPipeWriter (rt_sessions rt) p);
  if negb open then mret false
  else
    stream ← reads (λ rt, current_stream (rt_sessions rt) p);
    r ← sessions_set (λ sm now, writeSSEData sm p stream (FormatSSEMessage (Marshal m)) reader now);
    mret (match r with Ok _ => true | Err _ => false end).

Definition sendSSEResponse hc d (m : message) t : M outcome :=
  if decide (md_SessionID d = "") then mret (sendJSONResponse hc d m)
  else
    found ← get_session (md_SessionID d);
    match found with
    | None => mret (sendJSONResponse hc d m)
    | Some p =>
        sent ← SendSSEMessage p m (at_reader t);
        mret (if sent : bool then reply_with hc d 202 "" else sendJSONResponse hc d m)
    end.

Definition sendResponseWithFormat hc d (m : message) (format : ResponseFormat) t : M outcome :=
  match format with
  | ResponseFormatSSE => sendSSEResponse hc d m t
  | ResponseFormatJSON | ResponseFormatAccepted => mret (sendJSONResponse hc d m)
  end.

(** ** Selection *)

Definition claimStr (claims : gmap string claim) (key : string) : string :=
  match claims !! key with Some v => claim_text v | None => "" end.

Definition mcpAuthClaims hc : option (gmap string claim) := par_Claims (hc_Params hc).

Definition buildSelectionContextWithCatalog hc d (method requested catalogVersion : string) : SelectionContext :=
  match mcpAuthClaims hc with
  | Some claims =>
      mkSelectionContext (md_SessionID d) (md_SessionGeneration d) method (claimStr claims "sub")
        (claimStr claims "tenant") claims requested catalogVersion
  | None => mkSelectionContext (md_SessionID d) (md_SessionGeneration d) method "" "" ∅ requested catalogVersion
  end.

Definition filterByPlan (tools : list ToolConfig) (plan : SelectionPlan) : list ToolConfig :=
  PickOrdered (NewToolCatalogView tools) (VisibleNames plan).

Definition routerSessionValid d : M bool :=
  if negb governanceEnabled then mret true
  else
    match md_Session d with
    | None => mret false
    | Some p =>
        if decide (md_SessionID d = "" ∨ md_SessionGeneration d = 0%Z) then mret false
        else
          s ← session_at p;
          mret (match s with
                | Some s => bool_decide (ses_ID s = md_SessionID d ∧ ses_Generation s = md_SessionGeneration d ∧
                                         ses_closed s = false)
                | None => false
                end)
    end.

Definition handleSelectionFailure sc (tools : list ToolConfig) : M (option (list ToolConfig)) :=
  r ← ask (CallFailure sc tools);
  mret (match r with ReplyPlan (Ok plan) => Some (filterByPlan tools plan) | _ => None end).

(** [buildToolsListResponseObject]: the tools of the answer. *)
Definition listed_tools hc d : M (option (list ToolConfig)) :=
  snap ← snapshot;
  let tools := snap_ordered snap in
  if negb governanceEnabled then mret (Some tools)
  else
    valid ← routerSessionValid d;
    if negb valid then mret None
    else
      let sc := buildSelectionContextWithCatalog hc d MethodToolsList "" (snap_Version snap) in
      r ← ask (CallSelect sc tools);
      shown ← match r with
              | ReplyPlan (Ok plan) => mret (Some (filterByPlan tools plan))
              | _ => handleSelectionFailure sc tools
              end;
      match shown with
      | None => mret None
      | Some l => valid ← routerSessionValid d; mret (if valid : bool then Some l else None)
      end.

Definition handleToolsList hc d (id : string) (format : ResponseFormat) t : M outcome :=
  l ← listed_tools hc d;
  match l with
  | None => mret (SendInternalError hc d (Some id) "failed to persist session plan")
  | Some l => sendResponseWithFormat hc d (Success (Some id) (ListToolsResult l)) format t
  end.

(** ** Initialization *)

Definition handleInitialize hc d (id : string) t : M outcome :=
  if decide (governanceEnabled = true ∧ md_SessionID d ≠ "") then
    mret (sendBadRequest hc d "initialize must not include Mcp-Session-Id")
  else
    created ← (if governanceEnabled then create_session (at_random t) else ensure_session (md_SessionID d) (at_random t));
    match created with
    | CreateFailed _ => mret (SendInternalError hc d (Some id) "failed to create session")
    | CreateRetry | CreateDrawing => Stuck
    | Created p =>
        s ← session_at p;
        match s with
        | None => Stuck
        | Some s =>
            refused ← (if governanceEnabled then activate (ses_ID s) (ses_Generation s) else mret None);
            match refused with
            | Some _ =>
                _ ← sessions_do (λ sm _, (RemoveSession sm (ses_ID s), ()));
                mret (SendInternalError hc d (Some id) "failed to create session")
            | None => mret (sendJSONResponse hc d (Success (Some id) (InitializeResult (ses_ID s))))
            end
        end
    end.

(** ** Tool calls *)

(** [flushToolsListChangedNotification]; its errors are only logged. *)
Fixpoint flush_notifications (p : nat) (writes : list bool) : M unit :=
  s ← session_at p;
  match s ≫= PendingToolsListChangedVersion with
  | None => mret ()
  | Some version =>
      open ← reads (λ rt, HasPipeWriter (rt_sessions rt) p);
      if negb open then mret ()
      else
        match writes with
        | [] => Stuck
        | reader :: writes =>
            sent ← SendSSEMessage p (ServerNotification toolsListChangedMethod) reader;
            if negb sent then mret ()
            else
              _ ← sessions_set (λ sm _, (MarkToolsListChangedNotified sm p version, ()));
              flush_notifications p writes
        end
  end.

Definition mark_and_flush (p : nat) (writes : list bool) : M unit :=
  version ← sessions_set (λ sm _, MarkToolsListChangedPending sm p);
  if decide (version = 0%Z) then mret () else flush_notifications p writes.

Definition notifyToolsListChanged (id : string) t : M unit :=
  if decide (id = "") then mret ()
  else
    found ← get_session id;
    match found with
    | None => mret ()
    | Some p => mark_and_flush p (at_writes t)
    end.

(** The data without its receipt, and whether the session was expanded. *)
Definition finalizeAuthorizationReceipt hc d (outcome : ReceiptOutcome) : M (MCPData * bool) :=
  if negb governanceEnabled then mret (d, false)
  else
    match md_Receipt d with
    | None => mret (d, false)
    | Some receipt =>
        r ← ask (CallFinalize receipt outcome);
        let d := SetAuthorizationReceipt d None in
        match r with
        | ReplyCount res =>
            if negb (Transitioned res) then mret (d, false)
            else
              snap ← snapshot;
              let sc := buildSelectionContextWithCatalog hc d MethodToolsCall (rcpt_ToolName receipt) (snap_Version snap) in
              r ← ask (CallSelect sc (snap_ordered snap));
              mret (d, match r with ReplyPlan (Ok _) => true | _ => false end)
        | _ => mret (d, false)
        end
    end.

(** The request as it goes on to the backend. *)
Definition forward_request hc (tool : ToolConfig) (b : BackendRequest) : HttpContext McpParams :=
  let h := req_Header (hc_Request hc) in
  let h := match br_Body b with Some _ => <["Content-Type" := [HeaderValueApplicationJson]]> h | None => h end in
  RouteEntry (set_request hc (mkRequest (br_Method b) (br_Path b) h)) (tool_Cluster tool).

(** Before the deferred function: the receipt is given back unless the call is
    forwarded. *)
Definition forward_call hc d (id : string) (name : string) (ordered : list (string * argument))
    (snap : ToolCatalogSnapshot) sc : M outcome :=
  let abandon text :=
    r ← finalizeAuthorizationReceipt hc d ReceiptAborted;
    mret (SendToolCallError hc r.1 (Some id) text) in
  match snap_lookup snap name with
  | None => abandon ("tool not found: " +:+ name)
  | Some tool =>
      match buildBackendRequest tool ordered with
      | None => abandon "failed to build backend request"
      | Some b =>
          _ ← emit (Forwarded sc (snap_ordered snap) tool b);
          mret (forward_request hc tool b, d, Continue)
      end
  end.

Definition handleToolCall hc d (id : string) (params : option (string * list (string * argument))) : M outcome :=
  match params with
  | None => mret (SendInvalidParams hc d (Some id) "invalid tool call parameters")
  | Some (name, ordered) =>
      snap ← snapshot;
      let sc := buildSelectionContextWithCatalog hc d MethodToolsCall name (snap_Version snap) in
      if negb governanceEnabled then forward_call hc d id name ordered snap sc
      else
        valid ← routerSessionValid d;
        if negb valid then mret (SendToolCallError hc d (Some id) "tool not authorized for this session")
        else
          r ← ask (CallAuthorize sc (snap_ordered snap));
          match r with
          | ReplyReceipt (Ok receipt) =>
              forward_call hc (SetAuthorizationReceipt d (Some receipt)) id name ordered snap sc
          | _ => mret (SendToolCallError hc d (Some id) "tool not authorized for this session")
          end
  end.

(** ** Requests *)

Definition handleResourceRead hc d (r : JSONRPCRequest) (format : ResponseFormat) t : M outcome :=
  match rpc_URI r with
  | None => mret (SendInvalidParams hc d (Some (rpc_ID r)) "invalid parameters")
  | Some uri =>
      match GetResourceByURI static uri with
      | None => mret (SendInternalError hc d (Some (rpc_ID r)) ("resource not found: " +:+ uri))
      | Some x =>
          let content := "Resource content for " +:+ res_URI x +:+ " (source: " +:+ res_SourceType x +:+ ")" in
          sendResponseWithFormat hc d (Success (Some (rpc_ID r)) (ReadResourceResult (res_URI x) (res_MIMEType x) content)) format t
      end
  end.

Definition handlePromptsGet hc d (r : JSONRPCRequest) (format : ResponseFormat) t : M outcome :=
  match rpc_Call r with
  | None => mret (SendInvalidParams hc d (Some (rpc_ID r)) "invalid parameters")
  | Some (name, ordered) =>
      match GetPrompt static name with
      | None => mret (SendInternalError hc d (Some (rpc_ID r)) ("prompt not found: " +:+ name))
      | Some x =>
          let messages := buildPromptMessages (prm_Messages x) ordered in
          sendResponseWithFormat hc d (Success (Some (rpc_ID r)) (GetPromptResult (prm_Description x) messages)) format t
      end
  end.

Definition handleTerminalMethodWithNegotiation hc d (r : JSONRPCRequest) (format : ResponseFormat) t : M outcome :=
  if decide (rpc_Method r = MethodInitialize) then handleInitialize hc d (rpc_ID r) t
  else if decide (rpc_Method r = MethodInitialized) then mret (reply_with hc d 202 "")
  else if decide (rpc_Method r = MethodToolsList) then handleToolsList hc d (rpc_ID r) format t
  else if decide (rpc_Method r = MethodPing) then sendResponseWithFormat hc d (Success (Some (rpc_ID r)) PingResult) format t
  else if decide (rpc_Method r = MethodResourcesList) then
    sendResponseWithFormat hc d (Success (Some (rpc_ID r)) (ListResourcesResult (ToMCPResources static_range static))) format t
  else if decide (rpc_Method r = MethodResourcesRead) then handleResourceRead hc d r format t
  else if decide (rpc_Method r = MethodTemplatesList) then
    sendResponseWithFormat hc d (Success (Some (rpc_ID r)) (ListTemplatesResult (ToMCPResourceTemplates static_range static))) format t
  else if decide (rpc_Method r = MethodPromptsList) then
    sendResponseWithFormat hc d (Success (Some (rpc_ID r)) (ListPromptsResult (ToMCPPrompts static_range static))) format t
  else if decide (rpc_Method r = MethodPromptsGet) then handlePromptsGet hc d r format t
  else mret (SendMethodNotFound hc d (Some (rpc_ID r))).

Definition validateSessionHeaderForMethod hc d (method : string) : result header_error MCPData :=
  let h := req_Header (hc_Request hc) in
  if decide (method = MethodInitialize) then
    match validSessionHeader h false with Err e => Err e | Ok _ => Ok (SetValidatedSession d None) end
  else match validSessionHeader h true with Err e => Err e | Ok id => Ok (SetSessionID d id) end.

(** The data with the session, or the answer. *)
Definition validateSessionForMethod hc d (method : string) : M (outcome + MCPData) :=
  if decide (method = MethodInitialize) then mret (inr d)
  else if decide (md_SessionID d = "") then mret (inl (sendBadRequest hc d "Mcp-Session-Id header is required"))
  else
    found ← get_session (md_SessionID d);
    match found with
    | None => mret (inl (sendNotFound hc d mcpSessionNotFoundMessage))
    | Some p =>
        s ← session_at p;
        mret (match s with
              | Some s => inr (SetValidatedSession d (Some (p, ses_ID s, ses_Generation s)))
              | None => inl (sendNotFound hc d mcpSessionNotFoundMessage)
              end)
    end.

(** The parameters share the data with the handler from [StoreMCPDataInParams]
    on: they hold what it is in the end. *)
Definition stored (o : outcome) : outcome :=
  let '(hc, d, status) := o in (with_Params hc (StoreMCPDataInParams (hc_Params hc) d), d, status).

Definition dispatch hc d (r : JSONRPCRequest) t : M outcome :=
  hasSession ← (if decide (md_SessionID d = "") then mret false
                else found ← sessions_do (λ sm now, PeekSession sm (md_SessionID d) now);
                     mret (bool_decide (is_Some found)));
  let format := NegotiateResponse (Header_Get (req_Header (hc_Request hc)) HeaderKeyAccept) hasSession in
  let hc := with_Params hc (StoreMCPDataInParams (hc_Params hc) d) in
  o ← (if isTerminalMethod (rpc_Method r) then handleTerminalMethodWithNegotiation hc d r format t
       else if decide (rpc_Method r = MethodToolsCall) then handleToolCall hc d (rpc_ID r) (rpc_Call r)
       else mret (SendMethodNotFound hc d (Some (rpc_ID r))));
  mret (stored o).

Definition handlePostRequest hc d t : M outcome :=
  match at_body t with
  | BodyUnreadable => mret (SendInternalError hc d None "failed to read request body")
  | BodyInvalid => mret (SendInternalError hc d None "invalid JSON-RPC request")
  | BodyRpc r =>
      let d := SetMCPRequestID (SetMCPMethod d (rpc_Method r)) (rpc_ID r) in
      if governanceEnabled then
        match validateSessionHeaderForMethod hc d (rpc_Method r) with
        | Err e => mret (sendBadRequest hc d (header_text e))
        | Ok d =>
            v ← validateSessionForMethod hc d (rpc_Method r);
            match v with
            | inl o => mret o
            | inr d => dispatch hc d r t
            end
        end
      else dispatch hc d r t
  end.

(** The session of an event stream, or the answer. *)
Definition stream_session hc d t : M (outcome + (nat * MCPData)) :=
  if governanceEnabled then
    match validSessionHeader (req_Header (hc_Request hc)) true with
    | Err e => mret (inl (sendBadRequest hc d (header_text e)))
    | Ok id =>
        found ← get_session id;
        match found with
        | None => mret (inl (sendNotFound hc d mcpSessionNotFoundMessage))
        | Some p =>
            s ← session_at p;
            mret (match s with
                  | Some s => inr (p, SetValidatedSession d (Some (p, ses_ID s, ses_Generation s)))
                  | None => inl (sendNotFound hc d mcpSessionNotFoundMessage)
                  end)
        end
    end
  else
    o ← ensure_session (md_SessionID d) (at_random t);
    match o with
    | CreateFailed _ => mret (inl (SendInternalError hc d None "failed to create session"))
    | CreateRetry | CreateDrawing => Stuck
    | Created p =>
        s ← session_at p;
        mret (match s with
              | Some s => inr (p, SetSessionID d (ses_ID s))
              | None => inl (SendInternalError hc d None "failed to create session")
              end)
    end.

(** The goroutines that keep the stream alive and that flush what is pending
    for the session are tasks of their own. *)
Definition handleGetRequest hc d t : M outcome :=
  if negb (md_AcceptSSE d) then mret (sendNotAcceptable hc d "GET request must accept text/event-stream")
  else
    found ← stream_session hc d t;
    match found with
    | inl o => mret o
    | inr (p, d) =>
        pipe ← atom (λ rt, (with_pipes rt (S (rt_pipes rt)), rt_pipes rt));
        attached ← sessions_set (λ sm _, AttachStream sm p pipe);
        mret (match attached with
              | Err _ => sendNotFound hc d mcpSessionNotFoundMessage
              | Ok _ => (StatusCode (set_source hc (SourceHTTP 200 true None)) 200, d, Stop)
              end)
    end.

Definition Decode hc t : M (HttpContext McpParams * FilterStatus) :=
  if decide (GoHttp.req_Path (hc_Request hc) ≠ Endpoint) then mret (hc, Continue)
  else
    let h := req_Header (hc_Request hc) in
    let d := ParseAndSetAcceptHeader (ParseAndSetSessionHeader new_data h) h in
    let method := GoHttp.req_Method (hc_Request hc) in
    o ← (if decide (method = "GET") then handleGetRequest hc d t
         else if decide (method = "POST") then handlePostRequest hc d t
         else mret (sendMethodNotAllowed hc d));
    mret (o.1.1, o.2).

(** ** Responses *)

Definition extractBackendResponse hc : option string :=
  match hc_TargetResp hc with
  | Some (UnaryResponse body) => if decide (body = "") then None else Some body
  | Some StreamResponse | None => None
  end.

Definition sendMCPResponse hc d (m : message) t : M (HttpContext McpParams * FilterStatus) :=
  let json := (StatusCode (set_target hc (UnaryResponse (Marshal m))) 200, Continue) in
  if decide (md_SessionID d = "") then mret json
  else
    found ← get_session (md_SessionID d);
    match found with
    | None => mret json
    | Some p =>
        sent ← SendSSEMessage p m (at_reader t);
        mret (if sent : bool then (SendLocalReply hc 202 "", Stop) else json)
    end.

Definition processToolCallResponse hc d (id : option string) (body : string) t :
    M (HttpContext McpParams * MCPData * FilterStatus) :=
  let fail text :=
    r ← finalizeAuthorizationReceipt hc d ReceiptAborted;
    mret (SendToolCallError hc r.1 id text) in
  valid ← routerSessionValid d;
  if negb valid then fail "MCP session invalidated during request"
  else if decide (400 ≤ hc_statusCode hc)%Z then fail ("backend error: " +:+ pretty (hc_statusCode hc))
  else
    r ← finalizeAuthorizationReceipt hc d ReceiptSucceeded;
    o ← sendMCPResponse hc r.1 (ToolCallSuccess id (TrimSpace body)) t;
    _ ← (if r.2 : bool then notifyToolsListChanged (md_SessionID d) t else mret ());
    mret (o.1, r.1, o.2).

Definition handleToolCallResponse hc d t : M (HttpContext McpParams * MCPData * FilterStatus) :=
  match md_RequestID d with
  | None => r ← finalizeAuthorizationReceipt hc d ReceiptAborted; mret (hc, r.1, Continue)
  | Some id =>
      match extractBackendResponse hc with
      | None =>
          r ← finalizeAuthorizationReceipt hc d ReceiptAborted;
          mret (SendToolCallError hc r.1 (Some id) "failed to process backend response")
      | Some body => processToolCallResponse hc d (Some id) body t
      end
  end.

(** Data that the parameters had is changed in place. *)
Definition Encode hc t : M (HttpContext McpParams * FilterStatus) :=
  let d := LoadMCPDataFromParams (hc_Params hc) in
  if IsMCPToolCall d then
    o ← handleToolCallResponse hc d t;
    let '(hc, d, status) := stored o in mret (hc, status)
  else mret (hc, Continue).

(** ** Catalog updates *)

(** A stored plan, with the version of the catalog it is refreshed for. *)
Definition refreshed (item : SessionPlanContext) (version : string) : SessionPlanContext :=
  let sc := pc_Context item in
  mkSessionPlanContext (pc_Key item) (pc_Plan item)
    (mkSelectionContext (SessionID sc) (SessionGeneration sc) (sc_Method sc) (UserID sc) (Tenant sc) (Claims sc)
       (Requested sc) version)
    (pc_PlanGeneration item) (pc_SessionGeneration item).

Fixpoint refresh_plans (snap : ToolCatalogSnapshot) (items : list SessionPlanContext) (changed : gset string) :
    M (gset string) :=
  match items with
  | [] => mret changed
  | item :: items =>
      r ← ask (CallRefresh (refreshed item (snap_Version snap)) (snap_ordered snap));
      refresh_plans snap items
        (match r with
         | ReplyRefresh (Ok (Some plan)) =>
             if decide (plan_VisibleFingerprint (pc_Plan item) ≠ plan_VisibleFingerprint plan)
             then {[key_SessionID (pc_Key item)]} ∪ changed else changed
         | _ => changed
         end)
  end.

Definition sessionsWithChangedVisibleSet : M (option (gset string)) :=
  governance ← reads (λ rt, dc_governance (rt_dynamic rt));
  if negb governance then mret None
  else
    snap ← snapshot;
    items ← reads (λ rt, SessionPlanContexts (rt_plans rt));
    changed ← refresh_plans snap items ∅;
    mret (Some changed).

(** [writes] gives, for each session, the outcomes of the writes to it. *)
Fixpoint notify_sessions (changed : option (gset string)) (sessions : list nat) (writes : nat → list bool) : M unit :=
  match sessions with
  | [] => mret ()
  | p :: sessions =>
      s ← session_at p;
      _ ← (if match changed, s with Some ids, Some s => bool_decide (ses_ID s ∉ ids) | _, _ => false end then mret ()
           else mark_and_flush p (writes p));
      notify_sessions changed sessions writes
  end.

Definition notify_all (writes : nat → list bool) : M unit :=
  sessions ← reads (λ rt, SnapshotSessions session_range (rt_sessions rt));
  if decide (sessions = []) then mret ()
  else
    changed ← sessionsWithChangedVisibleSet;
    notify_sessions changed sessions writes.

(** An update of the catalog, under the lock of the consumer, and then the
    notifications if it changed anything. *)
Definition update_catalog (op : dynamic_op) (writes : nat → list bool) : M unit :=
  r ← Atom (λ rt,
    let '(d, r) := dynamic_step ToolJSON ToolGo source_range (rt_dynamic rt) op in
    (with_dynamic rt d, match r with Ok Applied => [Published (dc_registry d)] | _ => [] end, Ret r));
  match r with
  | Ok Applied => notify_all writes
  | _ => mret ()
  end.

(** ** Requests through the chain *)

(** A request with the context it gets from the pool ([None] a new one), the
    route it takes, and the other filters: those before and after the MCP
    filter, the last of which has the answer of the backend, and their encode
    sides. *)
Record exchange : Type := mkExchange {
  ex_Request : Request;
  ex_context : option nat;
  ex_route : option string;
  ex_before : HttpContext McpParams → HttpContext McpParams * FilterStatus;
  ex_after : HttpContext McpParams → HttpContext McpParams;
  ex_inner : HttpContext McpParams → HttpContext McpParams * FilterStatus;
  ex_outer : HttpContext McpParams → HttpContext McpParams;
  ex_moment : moment;
}.

Definition empty_params : McpParams := mkMcpParams None None.

(** [pool.Get] *)
Definition get_context (i : option nat) : M McpParams :=
  atom (λ rt,
    match i ≫= λ i, (i,.) <$> rt_contexts rt !! i with
    | Some (i, cx) => (with_contexts rt (delete i (rt_contexts rt)), cx)
    | None => (rt, empty_params)
    end).

(** The answer, and [pool.Put]. *)
Definition finish hc : M unit :=
  _ ← emit (Answered (hc_Writer hc));
  atom (λ rt, (with_contexts rt (rt_contexts rt ++ [hc_Params hc]), ())).

Context (internal_error not_found : string).

Definition decode_chain (x : exchange) hc : M (HttpContext McpParams) :=
  let '(hc, status) := ex_before x hc in
  match status with
  | Stop => mret hc
  | Continue =>
      r ← Decode hc (ex_moment x);
      mret (match r.2 with Stop => r.1 | Continue => ex_after x r.1 end)
  end.

Definition encode_chain (x : exchange) hc : M (HttpContext McpParams) :=
  let '(hc, status) := ex_inner x hc in
  match status with
  | Stop => mret hc
  | Continue =>
      r ← Encode hc (ex_moment x);
      mret (match r.2 with Stop => r.1 | Continue => ex_outer x r.1 end)
  end.

(** [ServeHTTP], as in HttpManager. *)
Definition serve (x : exchange) : M unit :=
  params ← get_context (ex_context x);
  let hc := Reset (mkHttpContext params false 0 "" None SourceNone None (ex_Request x) new_writer) (ex_Request x) new_writer in
  match ex_route x with
  | None => finish (SendLocalReply hc 404 not_found)
  | Some cluster =>
      hc ← decode_chain x (RouteEntry hc cluster);
      match buildTargetResponse hc with
      | None => finish (SendLocalReply hc 500 internal_error)
      | Some hc => hc ← encode_chain x hc; finish (writeResponse hc)
      end
  end.

(** ** Tasks *)

Inductive task : Type :=
  | TServe (x : exchange)
  | TUpdate (op : dynamic_op) (writes : nat → list bool)
  | TCleanup
  | TStop
  | TKeepalive (p : nat) (token : Z) (reader : bool)
  | TDetach (p : nat) (token : Z)
  | TFlush (p : nat) (writes : list bool)
  | TClock (now : Z).

Definition second : Z := 10 ^ 9.

Definition task_program (k : task) : M unit :=
  match k with
  | TServe x => serve x
  | TUpdate op writes => update_catalog op writes
  | TCleanup => sessions_do (λ sm now, (cleanupExpiredSessions session_range sm now, ()))
  | TStop =>
      _ ← sessions_do (λ sm _, (manager_Stop session_range sm, ()));
      if governanceEnabled then atom (λ rt, (with_plans rt (store_Stop (rt_plans rt)), ())) else mret ()
  | TKeepalive p token reader =>
      sessions_set (λ sm now,
        ((WriteSSEDataForStream sm p token (FormatSSEKeepalive (now `div` second)) reader now).1, ()))
  | TDetach p token => sessions_set (λ sm _, (DetachStream sm p token, ()))
  | TFlush p writes => flush_notifications p writes
  | TClock now => atom (λ rt, (with_now rt now, ()))
  end.

(** The state, the log and the programs that are running. *)
Definition server : Type := RuntimeState * list server_event * list (M unit).

Inductive server_step : server → server → Prop :=
  | ServerStep rt log ms i f rt' evs m :
      ms !! i = Some (Atom f) → f rt = (rt', evs, m) →
      server_step (rt, log, ms) (rt', log ++ evs, <[i := m]> ms).

(** [FilterFactory.Apply] up to the selector, with the session manager and the
    plan store of the same capacity; [None] when a configured tool is invalid. *)
Definition routerPlanCapacity (maxEntries : Z) : Z :=
  if decide (maxEntries ≤ 0)%Z then DefaultPlanMaxEntries else maxEntries.

Definition Apply (maxEntries : Z) (tools : list ToolConfig) : option RuntimeState :=
  let maxSessions := if governanceEnabled then routerPlanCapacity maxEntries else DefaultMaxSessions in
  let invalid := governanceEnabled && match ValidateTools tools with Ok _ => false | Err _ => true end in
  if invalid then None
  else
    match ReplaceAllTools ToolJSON ToolGo empty_snapshot tools with
    | Err _ => None
    | Ok snap =>
        let d := NewDynamicConsumer snap in
        Some (mkRuntimeState (NewSessionManagerWithOptions maxSessions) (NewSessionPlanStoreWithMaxEntries maxEntries)
                (if governanceEnabled then SetGovernance d true true else d) 0 [] 0)
    end.
End server.
