(* ===== verification/McpServing.v ===== *)
(** * What the MCP server promises, whatever runs at the same time

    Every task of McpServer, with its steps interleaved in any way with those of
    others, keeps an invariant of the runtime; the calls that reach a backend
    are then all allowed.

    [safe] is the logic: an invariant of the state and the log that every step
    of a program keeps, with a postcondition on its result that no other task
    can spoil.  The log of the whole execution is fixed beforehand; the steps of
    a program add to a prefix of it. *)

From S2P Require Import Prelude GoStrings GoHttp HttpManager Sha256 Endpoint McpCatalog McpPolicy McpIdentity McpPlan McpSelector McpGovern McpCalls McpSession McpRegistry McpDynamic McpResources McpHttp McpServer.

(** ** The logic *)

Section logic.
Context (F : list server_event) (I : RuntimeState → list server_event → Prop).

Fixpoint safe {A} (m : M A) (Q : A → Prop) : Prop :=
  match m with
  | Ret a => Q a
  | Stuck => True
  | Atom f => ∀ rt log, I rt log → (log ++ (f rt).1.2) `prefix_of` F →
      I (f rt).1.1 (log ++ (f rt).1.2) ∧ safe (f rt).2 Q
  end.

Lemma safe_weaken {A} (m : M A) (Q Q' : A → Prop) : safe m Q → (∀ a, Q a → Q' a) → safe m Q'.
Proof.
  intros H HQ. revert H. induction m as [a|f IH|] using M_tree_ind; simpl; [apply HQ| |done].
  intros H rt log Hi Hp. destruct (H rt log Hi Hp) as [H1 H2]. split; [done|]. by apply IH.
Qed.

Lemma safe_bind {A B} (m : M A) (k : A → M B) (Q : A → Prop) (Q' : B → Prop) :
  safe m Q → (∀ a, Q a → safe (k a) Q') → safe (m ≫= k) Q'.
Proof.
  intros H Hk. revert H. unfold mbind, M_bind.
  induction m as [a|f IH|] using M_tree_ind; simpl; [apply Hk| |done].
  intros H rt log Hi. specialize (H rt log Hi). specialize (IH rt).
  destruct (f rt) as [[rt' evs] m'] eqn:E. simpl in *. intros Hp. destruct (H Hp) as [H1 H2]. split; [done|].
  by apply IH.
Qed.

Lemma safe_then {A B} (m : M A) (k : A → M B) (Q' : B → Prop) :
  safe m (λ _, True) → (∀ a, safe (k a) Q') → safe (m ≫= k) Q'.
Proof. intros. by eapply safe_bind. Qed.

Lemma safe_ret {A} (a : A) (Q : A → Prop) : Q a → safe (mret a) Q.
Proof. done. Qed.

Lemma safe_atom {A} (f : RuntimeState → RuntimeState * A) (Q : A → Prop) :
  (∀ rt log, I rt log → log `prefix_of` F → I (f rt).1 log ∧ Q (f rt).2) → safe (atom f) Q.
Proof.
  intros H rt log Hi. specialize (H rt log Hi). simpl. destruct (f rt) as [rt' a]. simpl. by rewrite app_nil_r.
Qed.

Lemma safe_reads {A} (f : RuntimeState → A) (Q : A → Prop) :
  (∀ rt log, I rt log → log `prefix_of` F → Q (f rt)) → safe (reads f) Q.
Proof. intros H. apply safe_atom. intros rt log Hi Hp. split; [done|]. by eapply H. Qed.

Lemma safe_emit e (Q : unit → Prop) :
  (∀ rt log, I rt log → (log ++ [e]) `prefix_of` F → I rt (log ++ [e]) ∧ Q ()) → safe (emit e) Q.
Proof. intros H. exact H. Qed.

(** Programs of the plan store. *)
Lemma safe_lift {A} (J : SessionPlanStore → Prop) (p : prog A) (Q : A → Prop) :
  (∀ rt log s, I rt log → log `prefix_of` F → J (rt_plans rt) ∧ (J s → I (with_plans rt s) log)) →
  McpGovern.ensures J p Q → safe (lift p) Q.
Proof.
  intros HJ. induction p as [a|f IH] using prog_tree_ind; simpl; [done|].
  intros H rt log Hi. destruct (f (rt_plans rt)) as [s p] eqn:E. simpl. rewrite app_nil_r. intros Hp.
  destruct (HJ rt log s Hi Hp) as [H1 H2]. specialize (H _ H1). specialize (IH (rt_plans rt)). rewrite E in H, IH. simpl in *.
  destruct H as [H3 H4]. split; [by apply H2|by apply IH].
Qed.

(** *** Executions *)

Definition server_ok (q : server) : Prop :=
  I q.1.1 q.1.2 ∧ Forall (λ m, safe m (λ _, True)) q.2.

Lemma server_step_ok q q' : server_step q q' → q'.1.2 `prefix_of` F → server_ok q → server_ok q'.
Proof.
  intros [rt log ms i f rt' evs m Hi Hf] Hp [H1 H2]. simpl in *.
  rewrite Forall_lookup in H2. pose proof (H2 _ _ Hi rt log H1) as Hs. rewrite Hf in Hs. simpl in Hs.
  destruct (Hs Hp) as [H3 H4]. split; [done|]. simpl. apply Forall_insert; [by apply Forall_lookup|done].
Qed.

Lemma server_steps_prefix q q' : rtc server_step q q' → q.1.2 `prefix_of` q'.1.2.
Proof.
  induction 1 as [|q1 q2 q3 [rt log ms i f rt' evs m Hi Hf] _ IH]; [done|]. simpl in *.
  etrans; [|exact IH]. by eexists.
Qed.

Lemma server_steps_ok q q' : rtc server_step q q' → q'.1.2 = F → server_ok q → server_ok q'.
Proof.
  intros Hst HF. induction Hst as [|q1 q2 q3 Hst Hsts IH]; [done|]. intros Hok. apply IH; [done|].
  eapply server_step_ok; [done| |done]. rewrite <- HF. by apply server_steps_prefix.
Qed.
End logic.

(** ** Logs *)

Definition published_in (log : list server_event) : list ToolCatalogSnapshot :=
  omap (λ e, match e with Published s => Some s | _ => None end) log.
Definition asked_in (log : list server_event) : list (SelectionContext * list ToolConfig) :=
  omap (λ e, match e with Asked sc tools => Some (sc, tools) | _ => None end) log.

(** A request and its catalog agree on the version, which was published. *)
Definition catalog_known (log : list server_event) (sc : SelectionContext) (tools : list ToolConfig) : Prop :=
  ∃ s, s ∈ published_in log ∧ snap_ok s ∧ snap_ordered s = tools ∧ snap_Version s = CatalogVersion sc.

(** ** The tasks *)

Lemma safe_if {A} F I (b : bool) (m m' : M A) Q : safe F I m Q → safe F I m' Q → safe F I (if b then m else m') Q.
Proof. by destruct b. Qed.

Ltac safe_step :=
  first [ solve [eauto with safe]
        | match goal with
          | |- safe _ _ (mret _) _ => exact Logic.I
          | |- safe _ _ Stuck _ => exact Logic.I
          | |- safe _ _ (_ ≫= _) _ => apply safe_then; [|intros ?]
          | |- safe _ _ (if ?b then _ else _) _ => match type of b with bool => apply safe_if end
          end
        | progress case_match ].
Ltac safe_tac := repeat safe_step.

Create HintDb safe.

Section tasks.
Context {regexp : Type} (MatchString : regexp → string → bool) (set_range : StringSet → list string).
Context (ToolJSON : ToolConfig → option string) (ToolGo : ToolConfig → string).
Context (c : CompositeSelector (regexp:=regexp)).
Context (session_range : gmap string nat → list (string * nat)).
Context (source_range : gmap ServerSource ServerToolConfig → list ServerSource).
Context (static_range : ∀ A, gmap string A → list A).
Context (Marshal : message → string).
Context (governanceEnabled : bool) (Endpoint : string) (static : StaticRegistry).
Context (internal_error not_found : string).

(** An invariant of the runtime. *)
Context (F : list server_event) (I : RuntimeState → list server_event → Prop).
Context (allowed : SelectionContext → list ToolConfig → string → Prop).

(** What a call has to be to go to a backend. *)
Definition call_ok sc tools (tool : ToolConfig) (b : BackendRequest) : Prop :=
  (governanceEnabled = true → allowed sc tools (Requested sc)) ∧
  catalog_known F sc tools ∧ tool ∈ tools ∧ tool_Name tool = Requested sc ∧
  ∃ ordered, buildBackendRequest tool ordered = Some b.

Record runtime_invariant : Prop := {
  inv_frame : ∀ rt rt' log, rt_plans rt' = rt_plans rt → dc_registry (rt_dynamic rt') = dc_registry (rt_dynamic rt) →
    I rt log → I rt' log;
  inv_answered : ∀ rt log w, I rt log → I rt (log ++ [Answered w]);
  inv_delete : ∀ rt log id, I rt log → I (with_plans rt (DeleteSession (rt_plans rt) id)) log;
  inv_activate : ∀ rt log id generation, I rt log → I (with_plans rt (ActivateSession (rt_plans rt) id generation).1) log;
  inv_stop : ∀ rt log, I rt log → I (with_plans rt (store_Stop (rt_plans rt))) log;
  inv_snapshot : ∀ rt log, I rt log → log `prefix_of` F →
    snap_ok (dc_registry (rt_dynamic rt)) ∧ dc_registry (rt_dynamic rt) ∈ published_in F;
  inv_update : ∀ rt log op d, I rt log → dynamic_step ToolJSON ToolGo source_range (rt_dynamic rt) op = (d, Ok Applied) →
    I (with_dynamic rt d) (log ++ [Published (dc_registry d)]);
  inv_ask : ∀ k, (∀ sc tools, request_of k = Some (sc, tools) → catalog_known F sc tools) →
    safe F I (ask MatchString set_range ToolJSON ToolGo c k)
      (λ r, match k, r with CallAuthorize sc tools, ReplyReceipt (Ok _) => allowed sc tools (Requested sc) | _, _ => True end);
  inv_forward : ∀ rt log sc tools tool b, call_ok sc tools tool b → I rt log → I rt (log ++ [Forwarded sc tools tool b]);
}.

Context (HI : runtime_invariant).
Implicit Types (rt : RuntimeState) (t : moment) (d : MCPData) (hc : HttpContext McpParams).

Abbreviation safe := (safe F I).
Abbreviation any := (λ _, True).

Lemma sessions_set_safe {A} (f : SessionManager → Z → SessionManager * A) : safe (sessions_set f) any.
Proof using HI.
  apply safe_atom. intros rt log Hi _. destruct (f (rt_sessions rt) (rt_now rt)). split; [|done]. by apply (inv_frame HI rt).
Qed.

Lemma reads_safe {A} (f : RuntimeState → A) : safe (reads f) any.
Proof. by apply safe_reads. Qed.

Lemma removed_handlers_safe removed : safe (removed_handlers governanceEnabled removed) any.
Proof using HI.
  induction removed as [|id removed IH]; [done|]. apply safe_then; [|done]. case_match; [|done].
  apply safe_atom. intros rt log Hi _. split; [|done]. by apply (inv_delete HI).
Qed.

Lemma sessions_do_safe {A} (f : SessionManager → Z → SessionManager * list string * A) :
  safe (sessions_do governanceEnabled f) any.
Proof using HI.
  apply safe_then; [|intros r; apply safe_then; [apply removed_handlers_safe|done]].
  apply safe_atom. intros rt log Hi _. destruct (f _ _) as [[sm removed] a]. split; [|done]. by apply (inv_frame HI rt).
Qed.

Lemma activate_safe id generation : safe (activate id generation) any.
Proof using HI.
  apply safe_atom. intros rt log Hi _. pose proof (inv_activate HI rt log id generation Hi) as H.
  by destruct (ActivateSession _ _ _).
Qed.

Lemma snapshot_safe : safe snapshot (λ s, snap_ok s ∧ s ∈ published_in F).
Proof using HI. apply safe_reads. intros rt log Hi Hp. by apply (inv_snapshot HI rt log). Qed.

Lemma ask_safe k : (∀ sc tools, request_of k = Some (sc, tools) → catalog_known F sc tools) →
  safe (ask MatchString set_range ToolJSON ToolGo c k) any.
Proof using HI. intros H. eapply safe_weaken; [by apply (inv_ask HI)|done]. Qed.
Hint Resolve sessions_set_safe reads_safe removed_handlers_safe sessions_do_safe activate_safe : safe.

Lemma known sc tools s : snap_ok s → s ∈ published_in F → snap_ordered s = tools → snap_Version s = CatalogVersion sc →
  catalog_known F sc tools.
Proof. intros. by exists s. Qed.

Lemma session_at_safe p : safe (session_at p) any.
Proof using HI. apply reads_safe. Qed.
Lemma get_session_safe id : safe (get_session governanceEnabled id) any.
Proof using HI. apply sessions_do_safe. Qed.
Hint Resolve session_at_safe get_session_safe : safe.

Lemma create_session_safe reads : safe (create_session session_range governanceEnabled reads) any.
Proof using HI. unfold create_session. safe_tac. Qed.
Hint Resolve create_session_safe : safe.

Lemma ensure_session_safe id reads : safe (ensure_session session_range governanceEnabled id reads) any.
Proof using HI. unfold ensure_session. safe_tac. Qed.

Lemma SendSSEMessage_safe p m reader : safe (SendSSEMessage Marshal p m reader) any.
Proof using HI. unfold SendSSEMessage. safe_tac. Qed.
Hint Resolve ensure_session_safe SendSSEMessage_safe : safe.

Lemma send_format_safe hc d m format t : safe (sendResponseWithFormat Marshal governanceEnabled hc d m format t) any.
Proof using HI. unfold sendResponseWithFormat, sendSSEResponse. safe_tac. Qed.

Lemma flush_safe p writes : safe (flush_notifications Marshal p writes) any.
Proof using HI. induction writes as [|reader writes IH]; cbn [flush_notifications]; safe_tac. Qed.
Hint Resolve send_format_safe flush_safe : safe.

Lemma mark_and_flush_safe p writes : safe (mark_and_flush Marshal p writes) any.
Proof using HI. unfold mark_and_flush. safe_tac. Qed.
Hint Resolve mark_and_flush_safe : safe.

Lemma routerSessionValid_safe d : safe (routerSessionValid governanceEnabled d) any.
Proof using HI. unfold routerSessionValid. safe_tac. Qed.
Hint Resolve routerSessionValid_safe : safe.

Lemma known_context hc d method requested s : snap_ok s → s ∈ published_in F →
  catalog_known F (buildSelectionContextWithCatalog hc d method requested (snap_Version s)) (snap_ordered s).
Proof. intros H1 H2. exists s. split_and!; [done..|]. unfold buildSelectionContextWithCatalog. by case_match. Qed.
Hint Resolve known_context : safe.

Lemma ask_context_safe k hc d method requested s :
  snap_ok s → s ∈ published_in F →
  request_of k = Some (buildSelectionContextWithCatalog hc d method requested (snap_Version s), snap_ordered s) →
  safe (ask MatchString set_range ToolJSON ToolGo c k) any.
Proof using HI. intros H1 H2 Hk. apply ask_safe. intros sc tools. rewrite Hk. intros [= <- <-]. by apply known_context. Qed.

Lemma listed_tools_safe hc d : safe (listed_tools MatchString set_range ToolJSON ToolGo c governanceEnabled hc d) any.
Proof using HI.
  unfold listed_tools, handleSelectionFailure. eapply safe_bind; [apply snapshot_safe|]. intros s [H1 H2].
  case_match; [done|]. apply safe_then; [auto with safe|]. intros valid. case_match; [done|].
  apply safe_then; [by eapply ask_context_safe|]. intros r. apply safe_then; [|intros; safe_tac].
  assert (∀ p, safe (mret (Some (filterByPlan (snap_ordered s) p))) any) by done.
  assert (safe (handleSelectionFailure MatchString set_range ToolJSON ToolGo c
    (buildSelectionContextWithCatalog hc d MethodToolsList "" (snap_Version s)) (snap_ordered s)) any).
  { apply safe_then; [by eapply ask_context_safe|done]. }
  repeat case_match; done.
Qed.
Hint Resolve listed_tools_safe : safe.

Lemma handleToolsList_safe hc d id format t :
  safe (handleToolsList MatchString set_range ToolJSON ToolGo c Marshal governanceEnabled hc d id format t) any.
Proof using HI. unfold handleToolsList. safe_tac. Qed.

Lemma handleInitialize_safe hc d id t : safe (handleInitialize session_range Marshal governanceEnabled hc d id t) any.
Proof using HI. unfold handleInitialize. safe_tac. Qed.
Hint Resolve handleToolsList_safe handleInitialize_safe : safe.

Lemma finalize_safe hc d outcome :
  safe (finalizeAuthorizationReceipt MatchString set_range ToolJSON ToolGo c governanceEnabled hc d outcome) any.
Proof using HI.
  unfold finalizeAuthorizationReceipt. case_match; [done|]. destruct (md_Receipt d) as [receipt|]; [|done].
  apply safe_then; [by apply ask_safe|]. intros r. destruct r as [| | |res|]; try done. case_match; [done|].
  eapply safe_bind; [apply snapshot_safe|]. intros s [H1 H2]. apply safe_then; [by eapply ask_context_safe|]. done.
Qed.
Hint Resolve finalize_safe : safe.

Lemma forward_call_safe hc d id name ordered s sc :
  snap_ok s → s ∈ published_in F → snap_Version s = CatalogVersion sc → Requested sc = name →
  (governanceEnabled = true → allowed sc (snap_ordered s) name) →
  safe (forward_call MatchString set_range ToolJSON ToolGo c Marshal governanceEnabled hc d id name ordered s sc) any.
Proof using HI.
  intros Hok Hs Hv Hr Ha. unfold forward_call. destruct (snap_lookup s name) as [tool|] eqn:El; [|safe_tac].
  destruct (buildBackendRequest tool ordered) as [b|] eqn:Eb; [|safe_tac].
  apply safe_then; [|done]. apply safe_emit. intros rt log Hi Hp. split; [|done].
  destruct Hok as (Hnd & Hne & Hl & Hfp). apply Hl in El as [Hin Hn]. apply (inv_forward HI); [|done].
  split_and!; [by rewrite Hr| |done|congruence|by eauto]. exists s. split_and!; try done.
Qed.

Lemma context_requested hc d method requested version :
  Requested (buildSelectionContextWithCatalog hc d method requested version) = requested ∧
  CatalogVersion (buildSelectionContextWithCatalog hc d method requested version) = version.
Proof. unfold buildSelectionContextWithCatalog. by case_match. Qed.

Lemma handleToolCall_safe hc d id params :
  safe (handleToolCall MatchString set_range ToolJSON ToolGo c Marshal governanceEnabled hc d id params) any.
Proof using HI.
  unfold handleToolCall. destruct params as [[name ordered]|]; [|done].
  eapply safe_bind; [apply snapshot_safe|]. intros s [H1 H2].
  set (sc := buildSelectionContextWithCatalog _ _ _ _ _).
  destruct (context_requested hc d MethodToolsCall name (snap_Version s)) as [Hr Hv]. fold sc in Hr, Hv.
  destruct (negb governanceEnabled) eqn:Eg.
  { apply forward_call_safe; [done..|]. intros E. by rewrite E in Eg. }
  apply safe_then; [auto with safe|]. intros valid. case_match; [done|].
  eapply safe_bind; [apply (inv_ask HI)|].
  { intros sc' tools [= <- <-]. by apply known_context. }
  intros r Hrep. destruct r as [| |[receipt|e]| |]; try done. apply forward_call_safe; try done.
  intros _. by rewrite <- Hr.
Qed.
Hint Resolve handleToolCall_safe : safe.

Lemma terminal_safe hc d r format t :
  safe (handleTerminalMethodWithNegotiation MatchString set_range ToolJSON ToolGo c session_range static_range Marshal
          governanceEnabled static hc d r format t) any.
Proof using HI.
  unfold handleTerminalMethodWithNegotiation, handleResourceRead, handlePromptsGet. safe_tac.
Qed.
Hint Resolve terminal_safe : safe.

Lemma validateSession_safe hc d method : safe (validateSessionForMethod governanceEnabled hc d method) any.
Proof using HI. unfold validateSessionForMethod. safe_tac. Qed.

Lemma dispatch_safe hc d r t :
  safe (dispatch MatchString set_range ToolJSON ToolGo c session_range static_range Marshal governanceEnabled static hc d r t) any.
Proof using HI. unfold dispatch. safe_tac. Qed.
Hint Resolve validateSession_safe dispatch_safe : safe.

Lemma handlePost_safe hc d t :
  safe (handlePostRequest MatchString set_range ToolJSON ToolGo c session_range static_range Marshal governanceEnabled
          static hc d t) any.
Proof using HI. unfold handlePostRequest. safe_tac. Qed.

Lemma handleGet_safe hc d t : safe (handleGetRequest session_range Marshal governanceEnabled hc d t) any.
Proof using HI.
  unfold handleGetRequest, stream_session. safe_tac.
  apply safe_atom. intros rt log Hi _. split; [|done]. by apply (inv_frame HI rt).
Qed.
Hint Resolve handlePost_safe handleGet_safe : safe.

Lemma Decode_safe hc t :
  safe (Decode MatchString set_range ToolJSON ToolGo c session_range static_range Marshal governanceEnabled Endpoint
          static hc t) any.
Proof using HI. unfold Decode. safe_tac. Qed.

Lemma sendMCPResponse_safe hc d m t : safe (sendMCPResponse Marshal governanceEnabled hc d m t) any.
Proof using HI. unfold sendMCPResponse. safe_tac. Qed.

Lemma notify_safe id t : safe (notifyToolsListChanged Marshal governanceEnabled id t) any.
Proof using HI. unfold notifyToolsListChanged. safe_tac. Qed.
Hint Resolve Decode_safe sendMCPResponse_safe notify_safe : safe.

Lemma handleToolCallResponse_safe hc d t :
  safe (handleToolCallResponse MatchString set_range ToolJSON ToolGo c Marshal governanceEnabled hc d t) any.
Proof using HI. unfold handleToolCallResponse, processToolCallResponse. safe_tac. Qed.
Hint Resolve handleToolCallResponse_safe : safe.

Lemma Encode_safe hc t : safe (Encode MatchString set_range ToolJSON ToolGo c Marshal governanceEnabled hc t) any.
Proof using HI. unfold Encode. safe_tac. Qed.
Hint Resolve Encode_safe : safe.

Lemma refresh_plans_safe s items changed : snap_ok s → s ∈ published_in F →
  safe (refresh_plans MatchString set_range ToolJSON ToolGo c s items changed) any.
Proof using HI.
  intros H1 H2. revert changed. induction items as [|item items IH]; intros changed; [done|].
  apply safe_then; [|intros r; apply IH]. apply ask_safe. intros sc tools [= <- <-]. by exists s.
Qed.

Lemma changed_safe : safe (sessionsWithChangedVisibleSet MatchString set_range ToolJSON ToolGo c) any.
Proof using HI.
  unfold sessionsWithChangedVisibleSet. apply safe_then; [apply reads_safe|]. intros governance. apply safe_if; [done|].
  eapply safe_bind; [apply snapshot_safe|]. intros s [H1 H2]. apply safe_then; [apply reads_safe|]. intros items.
  apply safe_then; [by apply refresh_plans_safe|]. done.
Qed.

Lemma notify_sessions_safe changed sessions writes : safe (notify_sessions Marshal changed sessions writes) any.
Proof using HI. induction sessions as [|p sessions IH]; cbn [notify_sessions]; safe_tac. Qed.
Hint Resolve changed_safe notify_sessions_safe : safe.

Lemma update_catalog_safe op writes :
  safe (update_catalog MatchString set_range ToolJSON ToolGo c session_range source_range Marshal op writes) any.
Proof using HI.
  apply safe_then.
  - intros rt log Hi.
    destruct (dynamic_step ToolJSON ToolGo source_range (rt_dynamic rt) op) as [d r] eqn:E. cbn [fst snd]. intros _. split; [|done].
    pose proof (dynamic_step_registry ToolJSON ToolGo source_range (rt_dynamic rt) op) as Hd. rewrite E in Hd.
    destruct r as [[]|e]; simpl in Hd; rewrite ?app_nil_r; try by apply (inv_frame HI rt). by eapply (inv_update HI).
  - intros r. destruct r as [[]|e]; unfold notify_all; safe_tac.
Qed.

Lemma get_context_safe i : safe (get_context i) any.
Proof using HI.
  apply safe_atom. intros rt log Hi _. destruct (i ≫= _) as [[j cx]|]; split; try done. by apply (inv_frame HI rt).
Qed.

Lemma finish_safe hc : safe (finish hc) any.
Proof using HI.
  apply safe_then; [apply safe_emit; intros rt log Hi _; split; [by apply (inv_answered HI)|done]|]. intros _.
  apply safe_atom. intros rt log Hi _. split; [|done]. by apply (inv_frame HI rt).
Qed.
Hint Resolve get_context_safe finish_safe : safe.

Lemma serve_safe x :
  safe (serve MatchString set_range ToolJSON ToolGo c session_range static_range Marshal governanceEnabled Endpoint static
          internal_error not_found x) any.
Proof using HI. unfold serve, decode_chain, encode_chain. safe_tac. Qed.

Lemma task_safe k :
  safe (task_program MatchString set_range ToolJSON ToolGo c session_range source_range static_range Marshal
          governanceEnabled Endpoint static internal_error not_found k) any.
Proof using HI.
  destruct k; cbn [task_program]; auto using serve_safe, update_catalog_safe with safe.
  - apply safe_then; [auto with safe|]. intros _. apply safe_if; [|done].
    apply safe_atom. intros rt log Hi _. split; [|done]. by apply (inv_stop HI).
  - apply safe_atom. intros rt log Hi _. split; [|done]. by apply (inv_frame HI rt).
Qed.
End tasks.

(** ** The catalogs that requests are made with *)

Lemma fingerprint_no_nul ToolJSON ToolGo tools : Strings.HasByte nul (toolCatalogFingerprint ToolJSON ToolGo tools) = false.
Proof.
  unfold toolCatalogFingerprint. case_decide; [done|]. apply HasByte_substring. unfold StringsSorted, StringsOrdered.
  repeat case_decide; [done|done|]. apply hex_no_nul, sha256_range.
Qed.

Lemma pretty_N_go_no_nul x s : Strings.HasByte nul s = false → Strings.HasByte nul (pretty_N_go x s) = false.
Proof.
  revert s. induction (N.lt_wf_0 x) as [x _ IH]. intros s Hs. destruct (decide (0 < x)%N) as [Hx|Hx].
  - rewrite pretty_N_go_step by done. apply IH; [by apply N.div_lt|]. apply Strings.HasByte_cons_false. split; [|done].
    unfold pretty_N_char. by repeat case_match.
  - replace x with 0%N by lia. by rewrite pretty_N_go_0.
Qed.

Lemma pretty_N_no_nul (x : N) : Strings.HasByte nul (pretty x) = false.
Proof. unfold pretty, pretty_N. case_decide; [done|]. by apply pretty_N_go_no_nul. Qed.

Lemma pretty_Z_no_nul (x : Z) : Strings.HasByte nul (pretty x) = false.
Proof. unfold pretty, pretty_Z. destruct x; [done|apply pretty_N_no_nul|]. simpl. apply pretty_N_no_nul. Qed.

Lemma omap_snoc {A B} (f : A → option B) (l : list A) x : omap f (l ++ [x]) = omap f l ++ option_list (f x).
Proof. rewrite omap_app. simpl. by destruct (f x). Qed.

Lemma published_snoc log e :
  published_in (log ++ [e]) = published_in log ++ match e with Published s => [s] | _ => [] end.
Proof. unfold published_in. rewrite omap_snoc. by destruct e. Qed.

Lemma asked_snoc log e :
  asked_in (log ++ [e]) = asked_in log ++ match e with Asked sc l => [(sc, l)] | _ => [] end.
Proof. unfold asked_in. rewrite omap_snoc. by destruct e. Qed.

Lemma published_prefix log F s : log `prefix_of` F → s ∈ published_in log → s ∈ published_in F.
Proof. intros [k ->]. unfold published_in. rewrite omap_app, elem_of_app. auto. Qed.

Lemma asked_prefix log F r : log `prefix_of` F → r ∈ asked_in log → r ∈ asked_in F.
Proof. intros [k ->]. unfold asked_in. rewrite omap_app, elem_of_app. auto. Qed.

Section catalogs.
Context (ToolJSON : ToolConfig → option string) (ToolGo : ToolConfig → string).
Context (source_range : gmap ServerSource ServerToolConfig → list ServerSource).
Context (F : list server_event).

(** The snapshots of the log are numbered by their generations, the last one is
    current, and whatever was asked was asked with one of them. *)
Definition catalogs_ok (rt : RuntimeState) (log : list server_event) : Prop :=
  (∀ i s, published_in log !! i = Some s →
     snap_ok s ∧ Strings.HasByte nul (snap_Version s) = false ∧ snap_Generation s = wrap64 (Z.of_nat i + 1)) ∧
  last (published_in log) = Some (dc_registry (rt_dynamic rt)) ∧
  (∀ sc tools, (sc, tools) ∈ asked_in log → catalog_known F sc tools).

Lemma catalogs_frame rt rt' log :
  dc_registry (rt_dynamic rt') = dc_registry (rt_dynamic rt) → catalogs_ok rt log → catalogs_ok rt' log.
Proof. intros E (H1 & H2 & H3). split_and!; [done|by rewrite E|done]. Qed.

Lemma catalogs_snoc rt log e :
  match e with Published _ => False | Asked sc tools => catalog_known F sc tools | _ => True end →
  catalogs_ok rt log → catalogs_ok rt (log ++ [e]).
Proof.
  intros He (H1 & H2 & H3). unfold catalogs_ok. rewrite published_snoc, asked_snoc.
  destruct e; try done; rewrite ?app_nil_r; split_and!; try done.
  intros sc0 l0 [H|H]%elem_of_app; [by apply H3|]. apply list_elem_of_singleton in H as [= -> ->]. done.
Qed.

Lemma catalogs_snapshot rt log : catalogs_ok rt log → log `prefix_of` F →
  snap_ok (dc_registry (rt_dynamic rt)) ∧ dc_registry (rt_dynamic rt) ∈ published_in F.
Proof.
  intros (H1 & H2 & _) Hp. rewrite last_lookup in H2. split; [by eapply H1|].
  eapply published_prefix; [done|]. by eapply list_elem_of_lookup_2.
Qed.

Lemma version_no_nul s : snap_ok s → Strings.HasByte nul (snap_Fingerprint s) = false →
  Strings.HasByte nul (snap_Version s) = false.
Proof.
  intros (_ & _ & _ & fp & -> & -> & _) H. rewrite !Strings.HasByte_app, H. simpl.
  rewrite pretty_Z_no_nul. done.
Qed.

Lemma catalogs_update rt log op d :
  catalogs_ok rt log → dynamic_step ToolJSON ToolGo source_range (rt_dynamic rt) op = (d, Ok Applied) →
  catalogs_ok (with_dynamic rt d) (log ++ [Published (dc_registry d)]).
Proof.
  intros (H1 & H2 & H3) E. pose proof (dynamic_step_registry ToolJSON ToolGo source_range (rt_dynamic rt) op) as Hr.
  rewrite E in Hr. destruct Hr as (Hok & Hg & tools & Hfp). unfold catalogs_ok. rewrite published_snoc, asked_snoc, app_nil_r.
  split_and!; [|by rewrite last_snoc|done]. intros i s. rewrite lookup_app_Some. intros [H|[Hlen H]]; [by apply H1|].
  apply list_lookup_singleton_Some in H as [Hi <-]. rewrite last_lookup in H2. apply H1 in H2 as H4.
  destruct H4 as (_ & _ & H4). apply lookup_lt_Some in H2. split_and!; [done| |].
  - apply version_no_nul; [done|]. rewrite Hfp. apply fingerprint_no_nul.
  - rewrite Hg, H4. unfold wrap64. rewrite Zplus_mod_idemp_l. f_equal. lia.
Qed.

(** Equal versions, equal catalogs. *)
Lemma catalogs_coherent rt log : log = F → catalogs_ok rt log → (Z.of_nat (length (published_in F)) < 2 ^ 64 - 1)%Z →
  ∀ sc1 l1 sc2 l2, (sc1, l1) ∈ asked_in F → (sc2, l2) ∈ asked_in F →
    CatalogVersion sc1 ≠ "" ∧ Strings.HasByte nul (CatalogVersion sc1) = false ∧
    (CatalogVersion sc1 = CatalogVersion sc2 → l1 = l2).
Proof.
  intros -> (H1 & _ & H3) Hlen sc1 l1 sc2 l2 (s1 & Hs1 & Ok1 & <- & <-)%H3 (s2 & Hs2 & Ok2 & <- & <-)%H3.
  apply list_elem_of_lookup_1 in Hs1 as [i1 Hi1], Hs2 as [i2 Hi2].
  destruct (H1 _ _ Hi1) as (_ & Hn & G1), (H1 _ _ Hi2) as (_ & _ & G2). split_and!; [|done|].
  - destruct Ok1 as (_ & _ & _ & fp & -> & _). by destruct (pretty (snap_Generation s1)).
  - intros Hv. apply version_generation in Hv; [|done..]. rewrite G1, G2 in Hv.
    apply lookup_lt_Some in Hi1 as L1. apply lookup_lt_Some in Hi2 as L2.
    rewrite !wrap64_small in Hv by lia. assert (i1 = i2) as -> by lia. rewrite Hi1 in Hi2. by injection Hi2 as ->.
Qed.
End catalogs.

(** ** The invariants *)

Lemma ensures_any {A} (p : prog A) : McpGovern.ensures (λ _, True) p (λ _, True).
Proof. induction p as [a|f IH] using prog_tree_ind; simpl; auto. Qed.

Section serving.
Context {regexp : Type} (MatchString : regexp → string → bool) (set_range : StringSet → list string).
Context (ToolJSON : ToolConfig → option string) (ToolGo : ToolConfig → string).
Context (c : CompositeSelector (regexp:=regexp)).
Context (source_range : gmap ServerSource ServerToolConfig → list ServerSource).
Context (F : list server_event).

(** First without the plans: requests are made with published catalogs. *)
Lemma catalogs_invariant governanceEnabled :
  runtime_invariant MatchString set_range ToolJSON ToolGo c source_range governanceEnabled F (catalogs_ok F) (λ _ _ _, True).
Proof.
  split; try by intros; eapply catalogs_frame.
  - intros rt log w. by apply catalogs_snoc.
  - intros rt log. apply catalogs_snapshot.
  - intros rt log op d. apply catalogs_update.
  - intros k Hk. unfold ask. eapply (safe_weaken _ _ _ (λ _, True)); [|by intros r; repeat case_match].
    apply safe_then.
    + destruct (request_of k) as [[sc tools]|] eqn:E; [|done]. apply safe_emit. intros rt log Hi Hp. split; [|done].
      apply catalogs_snoc; [by apply Hk|done].
    + intros _. apply (safe_lift _ _ (λ _, True)); [|apply ensures_any]. intros rt log s Hi _. split; [done|]. intros _.
      by eapply catalogs_frame.
  - intros rt log sc tools tool b _. by apply catalogs_snoc.
Qed.

(** Then with them. *)
Context (Hrange : ∀ (s : StringSet) x, x ∈ set_range s ↔ x ∈ s).
Context (Hreqs : requests_ok ToolJSON ToolGo c (asked_in F)).

Abbreviation allowed := (may_use MatchString c).
Abbreviation plans_ok := (governed MatchString ToolJSON ToolGo c (asked_in F) any_state true).

Definition serving_ok (governanceEnabled : bool) (rt : RuntimeState) (log : list server_event) : Prop :=
  catalogs_ok F rt log ∧ plans_ok (rt_plans rt) ∧
  ∀ sc tools tool b, Forwarded sc tools tool b ∈ log → call_ok governanceEnabled F allowed sc tools tool b.

Lemma serving_plans g rt s log : serving_ok g rt log → plans_ok s → serving_ok g (with_plans rt s) log.
Proof. intros (H1 & _ & H3) Hs. split_and!; [by eapply catalogs_frame|done|done]. Qed.

Lemma serving_step g rt op log : (∀ key plan sc, ¬ writes op key plan sc) →
  serving_ok g rt log → serving_ok g (with_plans rt (store_step (rt_plans rt) op)) log.
Proof. intros Hop H. apply serving_plans; [done|]. apply step_governed; [|apply H]. intros key plan sc Hw. by destruct (Hop key plan sc). Qed.

Lemma serving_snoc g rt log e :
  catalogs_ok F rt (log ++ [e]) →
  match e with Forwarded sc tools tool b => call_ok g F allowed sc tools tool b | _ => True end →
  serving_ok g rt log → serving_ok g rt (log ++ [e]).
Proof.
  intros H He (_ & H2 & H3). split_and!; [done|done|]. intros sc tools tool b [Hin|Hin]%elem_of_app; [by apply H3|].
  apply list_elem_of_singleton in Hin as <-. done.
Qed.

Lemma serving_ask g k :
  (∀ sc tools, request_of k = Some (sc, tools) → catalog_known F sc tools) →
  safe F (serving_ok g) (ask MatchString set_range ToolJSON ToolGo c k)
    (λ r, match k, r with CallAuthorize sc tools, ReplyReceipt (Ok _) => allowed sc tools (Requested sc) | _, _ => True end).
Proof using Hrange Hreqs.
  intros Hk. unfold ask. apply (safe_bind _ _ _ _ (λ _, ∀ req, request_of k = Some req → req ∈ asked_in F)).
  - destruct (request_of k) as [[sc tools]|] eqn:E; [|by apply safe_ret]. apply safe_emit. intros rt log Hi Hp. split.
    + apply serving_snoc; [|done|done]. apply catalogs_snoc; [by apply Hk|apply Hi].
    + intros req [= <-]. eapply asked_prefix; [done|]. rewrite asked_snoc. set_solver.
  - intros _ Hin. eapply safe_weaken; [apply (safe_lift _ _ plans_ok); [|by apply program_ensures]|].
    + intros rt log s Hi _. split; [apply Hi|]. by apply serving_plans.
    + intros r. unfold promise, receipt_promise. destruct k; destruct r as [| |[]| |]; try done. by intros [].
Qed.

Lemma serving_invariant g :
  runtime_invariant MatchString set_range ToolJSON ToolGo c source_range g F (serving_ok g) allowed.
Proof using Hrange Hreqs.
  split.
  - intros rt rt' log Ep Ed (H1 & H2 & H3). split_and!; [by eapply catalogs_frame|by rewrite Ep|done].
  - intros rt log w H. apply serving_snoc; [|done|done]. apply catalogs_snoc; [done|apply H].
  - intros rt log id. apply (serving_step g rt (OpDeleteSession id)). by intros ? ? ? Hw.
  - intros rt log id generation. apply (serving_step g rt (OpActivate id generation)). by intros ? ? ? Hw.
  - intros rt log. apply (serving_step g rt OpStop). by intros ? ? ? Hw.
  - intros rt log (H & _). by apply catalogs_snapshot.
  - intros rt log op d (H1 & H2 & H3) Hd. split_and!; [by eapply catalogs_update|done|].
    intros sc tools tool b [Hin|Hin]%elem_of_app; [by apply H3|]. by apply list_elem_of_singleton in Hin.
  - apply serving_ask.
  - intros rt log sc tools tool b Hc H. apply serving_snoc; [|done|done]. apply catalogs_snoc; [done|apply H].
Qed.
End serving.

(** What requests have to be like, besides the catalogs they are made with: no
    NUL bytes in the claims, claims print what their encodings say, and the
    hash has no collision among the identities and the plan versions. *)
Definition identities_ok {regexp : Type} ToolJSON ToolGo (c : CompositeSelector (regexp:=regexp))
    (reqs : list (SelectionContext * list ToolConfig)) : Prop :=
  ∀ sc1 l1 sc2 l2, (sc1, l1) ∈ reqs → (sc2, l2) ∈ reqs →
    nul_free sc1 ∧ text_follows_json sc1 sc2 ∧
    (∀ b1 b2, identity_text sc1 = Ok b1 → identity_text sc2 = Ok b2 → SumShort b1 16 = SumShort b2 16 → b1 = b2) ∧
    (∀ v1 v2, let text1 := version_text ToolJSON ToolGo c l1 (id_of sc1) (CatalogVersion sc1) v1 in
              let text2 := version_text ToolJSON ToolGo c l2 (id_of sc2) (CatalogVersion sc2) v2 in
              SumShort text1 16 = SumShort text2 16 → text1 = text2).

Lemma Apply_catalogs ToolJSON ToolGo g maxEntries tools rt F :
  Apply ToolJSON ToolGo g maxEntries tools = Some rt →
  catalogs_ok F rt [Published (dc_registry (rt_dynamic rt))] ∧ entries (rt_plans rt) = ∅.
Proof.
  unfold Apply. case_match; [done|].
  destruct (ReplaceAllTools ToolJSON ToolGo empty_snapshot tools) as [snap|e] eqn:E; [|done]. intros [= <-]. split; [|done].
  unfold ReplaceAllTools in E. apply replaced_build in E as (Hok & Hg & l & Hfp); [|by left].
  assert (dc_registry (rt_dynamic (mkRuntimeState (NewSessionManagerWithOptions
    (if g then routerPlanCapacity maxEntries else DefaultMaxSessions)) (NewSessionPlanStoreWithMaxEntries maxEntries)
    (if g then SetGovernance (NewDynamicConsumer snap) true true else NewDynamicConsumer snap) 0 [] 0)) = snap) as -> by by destruct g.
  split_and!; [|by destruct g|by intros sc l0 ?%elem_of_nil]. intros i s [-> <-]%list_lookup_singleton_Some.
  split_and!; [done|apply version_no_nul; [done|]; rewrite Hfp; apply fingerprint_no_nul|done].
Qed.

