(* ===== verification/McpScenarios.v ===== *)
(** * Scenarios of the MCP server

    Executions of McpServer on a small configuration: an instance of the safety
    theorem of McpServing, and two executions in which a request is served with
    what belongs to another one or answered twice. *)

From S2P Require Import Prelude GoStrings GoHttp HttpManager Sha256 Endpoint McpCatalog McpPolicy McpIdentity McpPlan McpSelector McpGovern McpCalls McpSession McpRegistry McpDynamic McpResources McpHttp McpServer McpServing.

(** A schedule names, step by step, the task that goes next. *)
Fixpoint server_exec (schedule : list nat) (q : server) : server :=
  match schedule with
  | [] => q
  | i :: schedule =>
      match q.2 !! i with
      | Some (Atom f) => let '(rt, evs, m) := f q.1.1 in server_exec schedule (rt, q.1.2 ++ evs, <[i := m]> q.2)
      | _ => server_exec schedule q
      end
  end.

Lemma server_exec_steps schedule q : rtc server_step q (server_exec schedule q).
Proof.
  revert q. induction schedule as [|i schedule IH]; intros [[rt log] ms]; simpl; [constructor|].
  destruct (ms !! i) as [[a|f|]|] eqn:E; [apply IH| |apply IH|apply IH].
  destruct (f rt) as [[rt' evs] m] eqn:Ef. eapply rtc_l; [by eapply ServerStep|apply IH].
Qed.

Module scenario.
Import mcp_sample.

(** Who is not logged in may use nothing, and nobody may use a dangerous tool. *)
Definition anonymous : matcher (regexp:=string) := mkMatcher (mkPolicyMatch "" "" [] "" "sub") None.
Definition policy : list compiledRule :=
  [mkCompiledRule "anonymous" anonymous ∅ {["safe"; "danger"]} 0; mkCompiledRule "no-danger" always ∅ {["danger"]} 0].
Definition selector : CompositeSelector (regexp:=string) :=
  mkCompositeSelector (Some policy) None None None "router-1" FallbackFailClosed "" "cfg" "" (λ _, "").

Definition session_range (m : gmap string nat) : list (string * nat) := map_to_list m.
Definition source_range (m : gmap ServerSource ServerToolConfig) : list ServerSource := elements (dom m).
Definition static_range (A : Type) (m : gmap string A) : list A := snd <$> map_to_list m.

Definition Marshal (m : message) : string :=
  match m with
  | Success _ (CallToolResult true text) => "failure: " +:+ text
  | Success _ (CallToolResult false text) => "success: " +:+ text
  | Success _ (InitializeResult id) => "session " +:+ id
  | _ => "other"
  end.

Definition program_of : task → M unit :=
  task_program MatchString range ToolJSON ToolGo selector session_range source_range static_range Marshal true "/mcp"
    empty_static "internal error" "not found".

(** The authentication filter found a token of the user, or there is none on
    the chain. *)
Definition logged_in (user : string) (hc : HttpContext McpParams) : HttpContext McpParams * FilterStatus :=
  (with_Params hc (mkMcpParams (Some {["sub" := mkClaim user (Some user)]}) (par_MCPData (hc_Params hc))), Continue).
Definition no_auth (hc : HttpContext McpParams) : HttpContext McpParams * FilterStatus := (hc, Continue).

Definition header (session : string) : Header :=
  if decide (session = "") then ∅ else {["Mcp-Session-Id" := [session]]}.

Definition post (session : string) (context : option nat) before (r : JSONRPCRequest) : task :=
  TServe (mkExchange (mkRequest "POST" "/mcp" (header session)) context (Some "mcp") before
            (λ hc, set_source hc (SourceHTTP 200 false (Some "42"))) no_auth id
            (mkMoment (BodyRpc r) [Some [171; 205]%Z] true [])).

Definition stream (session : string) (context : option nat) before : task :=
  TServe (mkExchange (mkRequest "GET" "/mcp" (<["Accept" := ["text/event-stream"]]> (header session))) context (Some "mcp")
            before id no_auth id (mkMoment BodyInvalid [] true [])).

Definition initialize : JSONRPCRequest := mkJSONRPCRequest "initialize" "1" None None.
Definition list_tools : JSONRPCRequest := mkJSONRPCRequest "tools/list" "2" None None.
Definition tool_call (id name : string) : JSONRPCRequest := mkJSONRPCRequest "tools/call" id None (Some (name, [])).

Definition rt0 : RuntimeState :=
  match Apply ToolJSON ToolGo true 0 catalog with
  | Some rt => rt
  | None => mkRuntimeState (NewSessionManagerWithOptions 0) (NewSessionPlanStoreWithMaxEntries 0) (NewDynamicConsumer empty_snapshot) 0 [] 0
  end.

Definition start (tasks : list task) : server :=
  (rt0, [Published (dc_registry (rt_dynamic rt0))], map program_of tasks).

(** Each task to its end, in turn. *)
Definition in_turn (tasks : list task) : list nat := seq 0 (length tasks) ≫= λ i, replicate 60 i.
Definition final (tasks : list task) : server := server_exec (in_turn tasks) (start tasks).

Definition forwarded (log : list server_event) : list (string * string) :=
  omap (λ e, match e with Forwarded sc _ tool _ => Some (UserID sc, tool_Name tool) | _ => None end) log.
Definition answers (log : list server_event) : list (option Z * string) :=
  omap (λ e, match e with Answered w => Some (rw_status w, rw_body w) | _ => None end) log.
End scenario.

(** ** An instance of the safety theorem *)

Module calling.
Import mcp_sample scenario.

Definition tasks : list task :=
  [post "" None (logged_in "alice") initialize; post "abcd" None (logged_in "alice") list_tools;
   post "abcd" None (logged_in "alice") (tool_call "3" "read")].

Definition request (method requested : string) : SelectionContext :=
  mkSelectionContext "abcd" 1 method "alice" "" {["sub" := mkClaim "alice" (Some "alice")]} requested "1:6baf072c".

Definition backend : BackendRequest := mkBackendRequest "GET" "/" ∅ None.

Lemma asked_eq : asked_in (final tasks).1.2 = [(request "tools/list" "", catalog); (request "tools/call" "read", catalog)].
Proof. vm_compute. reflexivity. Qed.

Lemma published_eq : length (published_in (final tasks).1.2) = 1.
Proof. vm_compute. reflexivity. Qed.

Lemma forwarded_in : Forwarded (request "tools/call" "read") catalog (tool "read" ["safe"]) backend ∈ (final tasks).1.2.
Proof.
  assert ((final tasks).1.2 !! 5 = Some (Forwarded (request "tools/call" "read") catalog (tool "read" ["safe"]) backend)) as H
    by (vm_compute; reflexivity).
  by eapply list_elem_of_lookup_2.
Qed.

(** All the requests are of one user. *)
Lemma identities : identities_ok ToolJSON ToolGo selector (asked_in (final tasks).1.2).
Proof.
  rewrite asked_eq. assert (∀ sc l, (sc, l) ∈ [(request "tools/list" "", catalog); (request "tools/call" "read", catalog)] →
    l = catalog ∧ ∃ m r, sc = request m r) as Hu.
  { intros sc l. rewrite !elem_of_cons, elem_of_nil. intros [[= -> ->]|[[= -> ->]|[]]]; eauto. }
  intros sc1 l1 sc2 l2 (-> & m1 & r1 & ->)%Hu (-> & m2 & r2 & ->)%Hu. split_and!.
  - split_and!; [reflexivity|reflexivity|]. intros k cl H. simpl in H. apply lookup_singleton_Some in H as [<- <-]. split; reflexivity.
  - intros k c1 c2. simpl. congruence.
  - intros b1 b2 E1 E2 _. change (identity_text (request m1 r1)) with (identity_text (request m2 r2)) in E1. congruence.
  - intros v1 v2 text1 text2 _. reflexivity.
Qed.
End calling.


(** ** Contexts of the pool *)

(** The claims of a request outlive it: [Reset] keeps the parameters of a
    context.  A request that went through no authentication at all, on the
    context that a request of alice used, calls a tool that the policy denies
    to whoever is not logged in, in her name; on a new context the same request
    is denied. *)
Theorem claims_outlive_request :
  let anonymous_call context :=
    [scenario.post "" None (scenario.logged_in "alice") scenario.initialize;
     scenario.post "abcd" None (scenario.logged_in "alice") scenario.list_tools;
     scenario.post "abcd" context scenario.no_auth (scenario.tool_call "3" "read")] in
  scenario.forwarded (scenario.final (anonymous_call (Some 0))).1.2 = [("alice", "read")] ∧
  scenario.forwarded (scenario.final (anonymous_call None)).1.2 = [].
Proof. split; vm_compute; reflexivity. Qed.

(** A call that is denied is answered twice when its session has a stream: the
    encode filters run after a local reply too, and the one of the MCP server
    takes the reply for the answer of the backend.  The client gets the denial,
    and on the stream a successful result for the same request with the text of
    the denial. *)
Theorem denial_sent_as_success :
  let q := scenario.final
    [scenario.post "" None (scenario.logged_in "alice") scenario.initialize;
     scenario.stream "abcd" None (scenario.logged_in "alice");
     scenario.post "abcd" None (scenario.logged_in "alice") (scenario.tool_call "3" "drop")] in
  let denial := ToolCallError (Some "3") "tool not authorized for this session" in
  scenario.forwarded q.1.2 = [] ∧
  scenario.answers q.1.2 !! 2 = Some (Some 200%Z, scenario.Marshal denial) ∧
  sent (rt_sessions q.1.1) = [(0, FormatSSEMessage (scenario.Marshal (ToolCallSuccess (Some "3") (scenario.Marshal denial))))].
Proof. split_and!; vm_compute; reflexivity. Qed.
