(* ===== verification/Retry.v ===== *)
(** * Retry policies, [pkg/cluster/retry] and [pkg/model/retry.go]

    A policy says, each time it is asked, whether another attempt may be made.
    The interface is the class [Retryer]; its laws [RetryerLaws] are what a
    client may rely on: after a reset a policy grants a fixed number of attempts
    and then none.  How long the backoff policy waits is left out.

    Parameters: [mapstructure.Decode] and [time.ParseDuration].  A [uint] has 64
    bits. *)

From S2P Require Import Prelude GoStrings Endpoint LoadBalance McpHttp.

(** ** The interface *)

Class Retryer (P : Type) : Type := {
  Attempt : P → P * bool;
  Reset : P → P;
}.

Class RetryerLaws (P : Type) `{Retryer P} : Type := {
  policy_ok : P → Prop;
  budget : P → Z;
  left : P → Z;
  attempt_granted : ∀ p, policy_ok p → (0 < left p)%Z →
    ∃ p', Attempt p = (p', true) ∧ policy_ok p' ∧ left p' = (left p - 1)%Z ∧ budget p' = budget p;
  attempt_refused : ∀ p, policy_ok p → (left p ≤ 0)%Z → Attempt p = (p, false);
  policy_reset : ∀ p, policy_ok p → policy_ok (Reset p) ∧ left (Reset p) = budget p ∧ budget (Reset p) = budget p;
  left_bound : ∀ p, policy_ok p → (left p ≤ budget p)%Z;
}.

(** How many of [k] attempts are granted. *)
Fixpoint granted_of `{Retryer P} (k : nat) (p : P) : nat :=
  match k with
  | O => O
  | S k => let '(p, b) := Attempt p in (if b : bool then 1 else 0) + granted_of k p
  end.

Lemma granted_left `{RetryerLaws P} k p :
  policy_ok p → (0 ≤ left p)%Z → Z.of_nat (granted_of k p) = Z.min (Z.of_nat k) (left p).
Proof.
  revert p. induction k as [|k IH]; intros p Hok Hl; [simpl; lia|]. cbn [granted_of].
  destruct (decide (0 < left p)%Z) as [Hp|Hp].
  - destruct (attempt_granted p Hok Hp) as (p' & -> & Hok' & Hl' & _). specialize (IH p' Hok'). lia.
  - rewrite attempt_refused by (done || lia). specialize (IH p Hok Hl). lia.
Qed.

(** ** Count based *)

Record CountBasedRetry : Type := mkCountBasedRetry {
  cb_MaxAttempts : Z;
  cb_retryTimes : Z;
}.

Definition CountBased_Attempt (r : CountBasedRetry) : CountBasedRetry * bool :=
  if decide (cb_retryTimes r < cb_MaxAttempts r)%Z
  then (mkCountBasedRetry (cb_MaxAttempts r) (wrap64 (cb_retryTimes r + 1)), true) else (r, false).
Definition CountBased_Reset (r : CountBasedRetry) : CountBasedRetry := mkCountBasedRetry (cb_MaxAttempts r) 0.

#[export] Instance CountBased_Retryer : Retryer CountBasedRetry := { Attempt := CountBased_Attempt; Reset := CountBased_Reset; }.

Definition defaultRetryTimes : Z := 2.

Inductive retry_error : Type :=
  | UnknownPolicy
  | TimesNotWhole
  | TimesNotNumeric
  | TimesWrongType
  | TimesNegative
  | BackoffConfig
  | BackoffInitialInterval
  | BackoffMaxInterval.

(** [int(v)] of a float, when the float is a whole number in the range of an
    [int]. *)
Definition whole (m e : Z) : option Z :=
  let v := if decide (0 ≤ e)%Z then Some (m * 2 ^ e)%Z
           else if decide (m `mod` 2 ^ (- e) = 0)%Z then Some (m / 2 ^ (- e))%Z else None in
  match v with
  | Some v => if decide (- 2 ^ 63 ≤ v < 2 ^ 63)%Z then Some v else None
  | None => None
  end.

Definition read_times (v : any) : result retry_error Z :=
  match v with
  | AInt z => Ok z
  | AFloat m e => match whole m e with Some z => Ok z | None => Err TimesNotWhole end
  | AString s => match Atoi s with Some z => Ok z | None => Err TimesNotNumeric end
  | _ => Err TimesWrongType
  end.

Definition newCountBasedRetry (config : option (gmap string any)) : result retry_error CountBasedRetry :=
  match read_times (default (AInt defaultRetryTimes) (config ≫= (.!! "times"))) with
  | Err e => Err e
  | Ok times => if decide (times < 0)%Z then Err TimesNegative else Ok (mkCountBasedRetry (wrap64 (times + 1)) 0)
  end.

(** ** Exponential backoff *)

Record ExponentialBackoffRetry : Type := mkExponentialBackoffRetry {
  eb_MaxAttempts : Z;
  eb_InitialInterval : Z;
  eb_MaxInterval : Z;
  eb_Multiplier : Z * Z;
  eb_retryTimes : Z;
}.

Definition set_retryTimes (r : ExponentialBackoffRetry) (n : Z) : ExponentialBackoffRetry :=
  mkExponentialBackoffRetry (eb_MaxAttempts r) (eb_InitialInterval r) (eb_MaxInterval r) (eb_Multiplier r) n.
Definition ExponentialBackoff_Attempt (r : ExponentialBackoffRetry) : ExponentialBackoffRetry * bool :=
  if decide (eb_MaxAttempts r ≤ eb_retryTimes r)%Z then (r, false) else (set_retryTimes r (wrap64 (eb_retryTimes r + 1)), true).
Definition ExponentialBackoff_Reset (r : ExponentialBackoffRetry) : ExponentialBackoffRetry := set_retryTimes r 0.

#[export] Instance ExponentialBackoff_Retryer : Retryer ExponentialBackoffRetry :=
  { Attempt := ExponentialBackoff_Attempt; Reset := ExponentialBackoff_Reset; }.

Record ExponentialBackoffConfig : Type := mkExponentialBackoffConfig {
  ebc_Times : Z;
  ebc_InitialInterval : string;
  ebc_MaxInterval : string;
  ebc_Multiplier : Z * Z;
}.

Definition backoff_defaults : ExponentialBackoffConfig := mkExponentialBackoffConfig 2 "100ms" "5s" (2, 0)%Z.

(** ** No retry *)

Record NoRetryPolicy : Type := mkNoRetryPolicy { firstTime : bool }.

Definition NoRetry_Attempt (n : NoRetryPolicy) : NoRetryPolicy * bool :=
  if negb (firstTime n) then (mkNoRetryPolicy true, true) else (n, false).
Definition NoRetry_Reset (n : NoRetryPolicy) : NoRetryPolicy := mkNoRetryPolicy false.

#[export] Instance NoRetry_Retryer : Retryer NoRetryPolicy := { Attempt := NoRetry_Attempt; Reset := NoRetry_Reset; }.

(** ** The policies of the registry *)

Inductive retryer : Type :=
  | CountBased (r : CountBasedRetry)
  | ExponentialBackoff (r : ExponentialBackoffRetry)
  | NoRetry (r : NoRetryPolicy).

#[export] Instance retryer_Retryer : Retryer retryer := {
  Attempt r := match r with
               | CountBased r => let '(r, b) := Attempt r in (CountBased r, b)
               | ExponentialBackoff r => let '(r, b) := Attempt r in (ExponentialBackoff r, b)
               | NoRetry r => let '(r, b) := Attempt r in (NoRetry r, b)
               end;
  Reset r := match r with
             | CountBased r => CountBased (Reset r)
             | ExponentialBackoff r => ExponentialBackoff (Reset r)
             | NoRetry r => NoRetry (Reset r)
             end;
}.

Definition RetryerNoRetry : string := "NoRetry".
Definition RetryerExponentialBackoff : string := "ExponentialBackoff".
Definition RetryerCountBased : string := "CountBased".

Section factories.
Context (Decode : option (gmap string any) → ExponentialBackoffConfig → option ExponentialBackoffConfig).
Context (ParseDuration : string → option Z).

Definition newExponentialBackoffRetry (config : option (gmap string any)) : result retry_error ExponentialBackoffRetry :=
  match Decode config backoff_defaults with
  | None => Err BackoffConfig
  | Some cfg =>
      match ParseDuration (ebc_InitialInterval cfg), ParseDuration (ebc_MaxInterval cfg) with
      | None, _ => Err BackoffInitialInterval
      | Some _, None => Err BackoffMaxInterval
      | Some initial, Some duration =>
          Ok (mkExponentialBackoffRetry (wrap64 (ebc_Times cfg + 1)) initial duration (ebc_Multiplier cfg) 0)
      end
  end.

(** The registry has the factories under the lower case of their names. *)
Definition GetRetryPolicy (p : RetryPolicy) : result retry_error retryer :=
  let name := ToLower (rp_Name p) in
  if decide (name = ToLower RetryerCountBased) then
    match newCountBasedRetry (rp_Config p) with Ok r => Ok (CountBased r) | Err e => Err e end
  else if decide (name = ToLower RetryerExponentialBackoff) then
    match newExponentialBackoffRetry (rp_Config p) with Ok r => Ok (ExponentialBackoff r) | Err e => Err e end
  else if decide (name = ToLower RetryerNoRetry) then Ok (NoRetry (mkNoRetryPolicy false))
  else Err UnknownPolicy.
End factories.

(** ** The laws *)

#[export] Instance CountBased_laws : RetryerLaws CountBasedRetry.
Proof.
  refine {| policy_ok r := (0 ≤ cb_MaxAttempts r < 2 ^ 64)%Z ∧ (0 ≤ cb_retryTimes r)%Z;
            budget := cb_MaxAttempts; left r := (cb_MaxAttempts r - cb_retryTimes r)%Z |}; simpl; unfold CountBased_Attempt.
  - intros r [H1 H2] Hl. rewrite decide_True by lia. eexists. split; [done|]. simpl. rewrite wrap64_small by lia. lia.
  - intros r [H1 H2] Hl. by rewrite decide_False by lia.
  - intros r [H1 H2]. lia.
  - intros r [H1 H2]. lia.
Defined.

#[export] Instance ExponentialBackoff_laws : RetryerLaws ExponentialBackoffRetry.
Proof.
  refine {| policy_ok r := (0 ≤ eb_MaxAttempts r < 2 ^ 64)%Z ∧ (0 ≤ eb_retryTimes r)%Z;
            budget := eb_MaxAttempts; left r := (eb_MaxAttempts r - eb_retryTimes r)%Z |}; simpl; unfold ExponentialBackoff_Attempt.
  - intros r [H1 H2] Hl. rewrite decide_False by lia. eexists. split; [done|]. simpl. rewrite wrap64_small by lia. lia.
  - intros r [H1 H2] Hl. by rewrite decide_True by lia.
  - intros r [H1 H2]. lia.
  - intros r [H1 H2]. lia.
Defined.

#[export] Instance NoRetry_laws : RetryerLaws NoRetryPolicy.
Proof.
  refine {| policy_ok _ := True; budget _ := 1%Z; left n := if firstTime n then 0%Z else 1%Z |}; intros [[]] _; simpl; intros;
    first [lia | done | by eexists].
Defined.

#[export] Instance retryer_laws : RetryerLaws retryer.
Proof.
  refine {| policy_ok r := match r with CountBased r => policy_ok r | ExponentialBackoff r => policy_ok r | NoRetry r => policy_ok r end;
            budget r := match r with CountBased r => budget r | ExponentialBackoff r => budget r | NoRetry r => budget r end;
            left r := match r with CountBased r => left r | ExponentialBackoff r => left r | NoRetry r => left r end |}.
  - intros [r|r|r] Hok Hl; destruct (attempt_granted r Hok Hl) as (r' & E & H); cbn [Attempt retryer_Retryer];
      rewrite E; eexists; split; done.
  - intros [r|r|r] Hok Hl; pose proof (attempt_refused r Hok Hl) as E; cbn [Attempt retryer_Retryer]; by rewrite E.
  - intros [r|r|r] Hok; apply (policy_reset r Hok).
  - intros [r|r|r] Hok; apply (left_bound r Hok).
Defined.

(** ** What the configuration says *)

Section documented.
Context (Decode : option (gmap string any) → ExponentialBackoffConfig → option ExponentialBackoffConfig).
Context (ParseDuration : string → option Z).
Context (Decode_uint : ∀ config defaults cfg, Decode config defaults = Some cfg → (0 ≤ ebc_Times cfg < 2 ^ 64)%Z).

(** The number of retries that a policy is configured with. *)
Definition configured_retries (p : RetryPolicy) : Z :=
  let name := ToLower (rp_Name p) in
  if decide (name = ToLower RetryerCountBased) then
    match read_times (default (AInt defaultRetryTimes) (rp_Config p ≫= (.!! "times"))) with Ok n => n | Err _ => 0 end
  else if decide (name = ToLower RetryerExponentialBackoff) then from_option ebc_Times 0%Z (Decode (rp_Config p) backoff_defaults)
  else 0.

Lemma Atoi_range s z : Atoi s = Some z → (- 2 ^ 63 ≤ z < 2 ^ 63)%Z.
Proof.
  unfold Atoi. destruct (match s with "" => _ | _ => _ end) as [sign digits]. case_decide; [done|].
  destruct (digits_value 0 digits) as [v|]; simpl; [|done]. case_decide; [|done]. by intros [= <-].
Qed.

Definition int_config (p : RetryPolicy) : Prop :=
  ∀ z, rp_Config p ≫= (.!! "times") = Some (AInt z) → (- 2 ^ 63 ≤ z < 2 ^ 63)%Z.

Lemma read_times_range p n : int_config p →
  read_times (default (AInt defaultRetryTimes) (rp_Config p ≫= (.!! "times"))) = Ok n → (- 2 ^ 63 ≤ n < 2 ^ 63)%Z.
Proof.
  intros Hint. destruct (rp_Config p ≫= _) as [v|] eqn:E; simpl; [|intros [= <-]; unfold defaultRetryTimes; lia].
  destruct v; simpl; try done.
  - intros [= <-]. by apply Hint.
  - destruct (whole _ _) as [v|] eqn:Ew; [|done]. intros [= <-]. unfold whole in Ew.
    destruct (if decide _ then _ else _) as [v'|]; [|done]. case_decide; [|done]. by injection Ew as <-.
  - destruct (Atoi s) as [v|] eqn:Ea; [|done]. intros [= <-]. by eapply Atoi_range.
Qed.

Lemma loaded_policy p r : int_config p → GetRetryPolicy Decode ParseDuration p = Ok r → (configured_retries p < 2 ^ 64 - 1)%Z →
  policy_ok r ∧ budget r = (1 + configured_retries p)%Z ∧ (0 ≤ configured_retries p)%Z.
Proof using Decode_uint.
  intros Hint. unfold GetRetryPolicy, configured_retries, newCountBasedRetry, newExponentialBackoffRetry.
  destruct (decide (ToLower (rp_Name p) = ToLower RetryerCountBased)).
  - destruct (read_times _) as [n|] eqn:E; [|done]. apply read_times_range in E; [|done]. case_decide; [done|].
    intros [= <-] _. simpl. rewrite wrap64_small by lia. lia.
  - destruct (decide (ToLower (rp_Name p) = ToLower RetryerExponentialBackoff)).
    + destruct (Decode (rp_Config p) backoff_defaults) as [cfg|] eqn:E; [|done]. apply Decode_uint in E. simpl.
      destruct (ParseDuration (ebc_InitialInterval cfg)), (ParseDuration (ebc_MaxInterval cfg)); try done.
      intros [= <-] Hlt. simpl. rewrite wrap64_small by lia. lia.
    + destruct (decide (ToLower (rp_Name p) = ToLower RetryerNoRetry)); [|done]. intros [= <-] _. simpl. split_and!; [done|lia|lia].
Qed.

(** One attempt and the configured number of retries: a policy that was loaded
    grants, from its reset on, exactly that many attempts, and never another
    one. *)
Theorem attempts_as_configured (p : RetryPolicy) (r : retryer) (k : nat) :
  int_config p → GetRetryPolicy Decode ParseDuration p = Ok r →
  (configured_retries p < 2 ^ 64 - 1)%Z →
  Z.of_nat (granted_of k (Reset r)) = Z.min (Z.of_nat k) (1 + configured_retries p) ∧ (0 ≤ configured_retries p)%Z.
Proof using Decode_uint.
  intros Hint Hr Hlt. destruct (loaded_policy p r Hint Hr Hlt) as (Hok & Hb & H0).
  destruct (policy_reset r Hok) as (Hok' & Hl & _). rewrite granted_left by (done || lia). rewrite Hl, Hb. done.
Qed.
End documented.
