(* ===== verification/Cooldown.v ===== *)
(** * The cooldown of LLM endpoints

    The [cooldownStore] of [pkg/filter/llm/proxy/filter.go]: a map from endpoints
    to elements of a list that is ordered by the time of the last failure, with
    a bounded number of entries.  An element of the list is a pointer that the
    map holds as well; [recencyOrder] has the elements with their pointers.  The order in which Go ranges over
    the map is a parameter.  Times are nanoseconds. *)

From S2P Require Import Prelude GoStrings Sha256 Endpoint.

(** ** Data *)

Record cooldownKey : Type := mkCooldownKey {
  ck_clusterName : string;
  ck_endpointID : string;
  ck_endpointAddress : string;
  ck_credentialHash : list Z;
}.

#[export] Instance cooldownKey_eq_dec : EqDecision cooldownKey.
Proof. solve_decision. Defined.
#[export] Instance cooldownKey_countable : Countable cooldownKey.
Proof.
  refine (inj_countable' (λ k, (ck_clusterName k, ck_endpointID k, ck_endpointAddress k, ck_credentialHash k))
            (λ '(a, b, c, d), mkCooldownKey a b c d) _). by intros [].
Defined.

Record cooldownEntry : Type := mkCooldownEntry {
  ce_key : cooldownKey;
  ce_lastFailure : Z;
  ce_ttl : Z;
}.

Record cooldownStore : Type := mkCooldownStore {
  lastFailureByEndpoint : gmap cooldownKey nat;
  recencyOrder : list (nat * cooldownEntry);
  next_element : nat;
  lastSweep : option Z;
}.

Definition newCooldownStore : cooldownStore := mkCooldownStore ∅ [] 0 None.

Definition maxCooldownStoreEntries : nat := Eval vm_compute in 1024.
Definition cooldownStoreSweepAt : nat := Eval vm_compute in 1024 * 90 / 100.
Definition cooldownStoreSweepAfter : Z := 10 ^ 9.

(** ** Keys and intervals *)

Definition endpointCredentialHash (endpoint : Endpoint) : list Z :=
  match ELLMMeta endpoint with
  | Some m => if decide (APIKey m = "") then replicate 32 0%Z else sha256 (byte_values (APIKey m))
  | None => replicate 32 0%Z
  end.

Definition newCooldownKey (clusterName : string) (endpoint : Endpoint) : cooldownKey :=
  mkCooldownKey clusterName (EID endpoint) (GetAddress (EAddress endpoint)) (endpointCredentialHash endpoint).

Definition millisecond : Z := 10 ^ 6.

(** A [Duration] is an [int64]. *)
Definition endpointCooldownInterval (endpoint : Endpoint) : Z :=
  match ELLMMeta endpoint with
  | Some m => sint64 (millisecond * HealthCheckInterval m)
  | None => 0
  end.

(** ** Lists with element pointers *)

Section store.
Context (range : gmap cooldownKey nat → list (cooldownKey * nat)).
Implicit Types (s : cooldownStore) (key : cooldownKey) (i : nat) (now : Z).

Definition element_value (l : list (nat * cooldownEntry)) i : option cooldownEntry :=
  snd <$> first_such (λ x, bool_decide (x.1 = i)) l.
Definition list_remove (l : list (nat * cooldownEntry)) i : list (nat * cooldownEntry) := filter (λ x, x.1 ≠ i) l.
Definition set_value (l : list (nat * cooldownEntry)) i (e : cooldownEntry) : list (nat * cooldownEntry) :=
  map (λ x, if decide (x.1 = i) then (i, e) else x) l.
Definition MoveToBack (l : list (nat * cooldownEntry)) i : list (nat * cooldownEntry) :=
  match element_value l i with Some e => list_remove l i ++ [(i, e)] | None => l end.

Definition set_order s (l : list (nat * cooldownEntry)) : cooldownStore :=
  mkCooldownStore (lastFailureByEndpoint s) l (next_element s) (lastSweep s).

Definition removeLocked s key i : cooldownStore :=
  mkCooldownStore (delete key (lastFailureByEndpoint s)) (list_remove (recencyOrder s) i) (next_element s) (lastSweep s).

(** ** Operations *)

Definition sweepExpiredExceptLocked s now (current : cooldownKey) : cooldownStore :=
  foldl (λ s ki,
    if decide (ki.1 = current) then s
    else match element_value (recencyOrder s) ki.2 with
         | Some e => if decide (ce_ttl e ≤ now - ce_lastFailure e)%Z then removeLocked s ki.1 ki.2 else s
         | None => s
         end) s (range (lastFailureByEndpoint s)).

Definition sweepExpiredIfNeededLocked s now (current : cooldownKey) : cooldownStore :=
  if match lastSweep s with
     | Some last => bool_decide (size (lastFailureByEndpoint s) < cooldownStoreSweepAt) &&
                    bool_decide (now - last < cooldownStoreSweepAfter)%Z
     | None => false
     end then s
  else sweepExpiredExceptLocked (mkCooldownStore (lastFailureByEndpoint s) (recencyOrder s) (next_element s) (Some now)) now current.

Definition evictOldestIfFullLocked s : cooldownStore :=
  if decide (size (lastFailureByEndpoint s) < maxCooldownStoreEntries) then s
  else match recencyOrder s with
       | [] => s
       | (i, e) :: _ => removeLocked s (ce_key e) i
       end.

Definition lastFailureWithCurrentTTL s key (currentTTL now : Z) : cooldownStore * option (Z * Z) :=
  let s := sweepExpiredIfNeededLocked s now key in
  match lastFailureByEndpoint s !! key with
  | None => (s, None)
  | Some i =>
      match element_value (recencyOrder s) i with
      | None => (s, None)
      | Some e =>
          let e := mkCooldownEntry (ce_key e) (ce_lastFailure e) currentTTL in
          (set_order s (set_value (recencyOrder s) i e), Some (ce_lastFailure e, currentTTL))
      end
  end.

(** The clock is read twice, for the failure and for the sweep. *)
Definition markFailure s key (ttl lastFailure now : Z) : cooldownStore :=
  let s := sweepExpiredIfNeededLocked s now key in
  match lastFailureByEndpoint s !! key with
  | Some i => set_order s (MoveToBack (set_value (recencyOrder s) i (mkCooldownEntry key lastFailure ttl)) i)
  | None =>
      let s := evictOldestIfFullLocked s in
      let i := next_element s in
      mkCooldownStore (<[key := i]> (lastFailureByEndpoint s)) (recencyOrder s ++ [(i, mkCooldownEntry key lastFailure ttl)]) (S i)
        (lastSweep s)
  end.

Definition deleteLastFailureIfMatches s key (expected : Z) : cooldownStore * bool :=
  match lastFailureByEndpoint s !! key with
  | None => (s, false)
  | Some i =>
      match element_value (recencyOrder s) i with
      | Some e => if decide (ce_lastFailure e = expected) then (removeLocked s key i, true) else (s, false)
      | None => (s, false)
      end
  end.

Lemma map_filter_ext {A B} (f : A → B) (P : A → Prop) (Q : B → Prop) `{∀ x, Decision (P x)} `{∀ x, Decision (Q x)} (l : list A) :
  (∀ x, x ∈ l → P x ↔ Q (f x)) → map f (filter P l) = filter Q (map f l).
Proof.
  induction l as [|x l IH]; intros Hl; [done|]. simpl. rewrite !filter_cons. specialize (IH (λ y Hy, Hl y (list_elem_of_further _ _ _ Hy))).
  specialize (Hl x (list_elem_of_here _ _)). destruct (decide (P x)), (decide (Q (f x))); simpl; try tauto. by rewrite IH.
Qed.

(** ** The list and the map are one

    The entries in the order of the list are what the store is about. *)

Definition abs s : list cooldownEntry := map snd (recencyOrder s).
Definition expired_at now (e : cooldownEntry) : Prop := (ce_ttl e ≤ now - ce_lastFailure e)%Z.
#[export] Instance expired_at_dec now e : Decision (expired_at now e).
Proof. unfold expired_at. apply _. Defined.

Record store_ok s : Prop := {
  ok_elements : NoDup (map fst (recencyOrder s));
  ok_next : ∀ i e, (i, e) ∈ recencyOrder s → i < next_element s;
  ok_sync : ∀ key i, lastFailureByEndpoint s !! key = Some i ↔ ∃ e, (i, e) ∈ recencyOrder s ∧ ce_key e = key;
}.

Lemma elements_unique (l : list (nat * cooldownEntry)) i e e' : NoDup (map fst l) → (i, e) ∈ l → (i, e') ∈ l → e = e'.
Proof.
  induction l as [|[j x] l IH]; intros Hnd; [by intros ?%elem_of_nil|]. simpl in Hnd. apply NoDup_cons in Hnd as [Hj Hnd].
  assert (∀ y, (j, y) ∉ l) as Hn.
  { intros y Hy. apply Hj. apply list_elem_of_fmap. by exists (j, y). }
  rewrite !elem_of_cons. intros [E1|H1] [E2|H2]; simplify_eq; [done|by destruct (Hn e')|by destruct (Hn e)|by apply IH].
Qed.

Lemma element_value_Some (l : list (nat * cooldownEntry)) i e : NoDup (map fst l) → element_value l i = Some e ↔ (i, e) ∈ l.
Proof.
  intros Hnd. unfold element_value. destruct (first_such _ l) as [[j x]|] eqn:E; simpl.
  - apply first_such_Some in E as [Hin Hj]. apply bool_decide_eq_true in Hj. simpl in Hj. subst j.
    split; [by intros [= <-]|]. intros H. by rewrite (elements_unique l i e x).
  - rewrite first_such_None in E. split; [done|]. intros H. apply E in H. by rewrite bool_decide_eq_false in H.
Qed.

Lemma ok_value s key i : store_ok s → lastFailureByEndpoint s !! key = Some i →
  ∃ e, element_value (recencyOrder s) i = Some e ∧ (i, e) ∈ recencyOrder s ∧ ce_key e = key.
Proof. intros Hok Hi. apply (ok_sync s Hok) in Hi as (e & Hin & Hk). exists e. split; [|done]. by apply element_value_Some; [apply Hok|]. Qed.

Lemma ok_same_key s i e j e' : store_ok s → (i, e) ∈ recencyOrder s → (j, e') ∈ recencyOrder s → ce_key e = ce_key e' → i = j ∧ e = e'.
Proof.
  intros Hok H1 H2 Hk. assert (lastFailureByEndpoint s !! ce_key e = Some i) as E1 by (apply (ok_sync s Hok); eauto).
  assert (lastFailureByEndpoint s !! ce_key e = Some j) as E2 by (apply (ok_sync s Hok); eauto).
  assert (i = j) as -> by congruence. split; [done|]. eapply elements_unique; [apply Hok|done|done].
Qed.

Lemma ok_keys s : store_ok s → NoDup (map ce_key (abs s)).
Proof.
  intros Hok. unfold abs. rewrite map_map. apply NoDup_fmap_2_strong; [|by eapply NoDup_fmap_1, ok_elements].
  intros [i e] [j e'] H1 H2 Hk. destruct (ok_same_key s i e j e') as [-> ->]; done.
Qed.

Lemma ok_lookup s key : store_ok s →
  match lastFailureByEndpoint s !! key with
  | Some i => ∃ e, (i, e) ∈ recencyOrder s ∧ ce_key e = key
  | None => ∀ e, e ∈ abs s → ce_key e ≠ key
  end.
Proof.
  intros Hok. destruct (lastFailureByEndpoint s !! key) as [i|] eqn:E; [by apply (ok_sync s Hok)|].
  intros e ([i e'] & -> & Hin)%list_elem_of_fmap Hk. assert (lastFailureByEndpoint s !! key = Some i) by (apply (ok_sync s Hok); eauto).
  congruence.
Qed.

Lemma ok_size s : store_ok s → size (lastFailureByEndpoint s) = length (abs s).
Proof.
  intros Hok. rewrite <- (length_fmap ce_key (abs s)), <- size_dom. rewrite <- (size_list_to_set (C := gset cooldownKey)) by by apply ok_keys.
  f_equal. apply set_eq. intros k. rewrite elem_of_dom, elem_of_list_to_set, list_elem_of_fmap. unfold abs. split.
  - intros [i (e & Hin & Hk)%(ok_sync s Hok)]. exists e. split; [done|]. apply list_elem_of_fmap. by exists (i, e).
  - intros (e & -> & ([i e'] & -> & Hin)%list_elem_of_fmap). exists i. apply (ok_sync s Hok). eauto.
Qed.

(** *** Removal *)

Lemma removeLocked_ok s key i : store_ok s → lastFailureByEndpoint s !! key = Some i →
  store_ok (removeLocked s key i) ∧ abs (removeLocked s key i) = filter (λ e, ce_key e ≠ key) (abs s).
Proof.
  intros Hok Hi. destruct (ok_value s key i Hok Hi) as (e0 & _ & Hin0 & Hk0).
  assert (∀ j e, (j, e) ∈ recencyOrder s → j ≠ i ↔ ce_key e ≠ key) as Hiff.
  { intros j e Hin. split; intros Hne Heq; apply Hne.
    - destruct (ok_same_key s i e0 j e) as [-> _]; congruence.
    - subst j. by rewrite (elements_unique _ i e e0 (ok_elements s Hok) Hin Hin0). }
  split.
  - split; simpl; unfold list_remove.
    + eapply sublist_NoDup; [apply (ok_elements s Hok)|]. apply fmap_sublist, sublist_filter.
    + intros j e [_ Hin]%list_elem_of_filter. by eapply (ok_next s Hok).
    + intros k j. rewrite lookup_delete_Some, (ok_sync s Hok). split.
      * intros [Hne (e & Hin & Hk)]. exists e. rewrite list_elem_of_filter. split; [|done]. split; [|done]. apply (Hiff j e Hin). congruence.
      * intros (e & [Hj Hin]%list_elem_of_filter & Hk). apply (Hiff j e Hin) in Hj. split; [congruence|eauto].
  - apply map_filter_ext. intros [j e] Hin. by apply Hiff.
Qed.

(** *** Sweeping *)

Definition sweep_step now (current : cooldownKey) s (ki : cooldownKey * nat) : cooldownStore :=
  if decide (ki.1 = current) then s
  else match element_value (recencyOrder s) ki.2 with
       | Some e => if decide (ce_ttl e ≤ now - ce_lastFailure e)%Z then removeLocked s ki.1 ki.2 else s
       | None => s
       end.

Lemma sweep_step_ok now current s key i :
  store_ok s → lastFailureByEndpoint s !! key = Some i →
  let s' := sweep_step now current s (key, i) in
  store_ok s' ∧ abs s' = filter (λ e, ¬ (ce_key e = key ∧ key ≠ current ∧ expired_at now e)) (abs s) ∧
  (∀ k, k ≠ key → lastFailureByEndpoint s' !! k = lastFailureByEndpoint s !! k) ∧ lastSweep s' = lastSweep s.
Proof.
  intros Hok Hi. destruct (ok_value s key i Hok Hi) as (e & Hv & Hin & Hk). unfold sweep_step. cbn [fst snd]. rewrite Hv.
  assert (∀ e', e' ∈ abs s → ce_key e' = key → e' = e) as Huniq.
  { intros e' ([j x] & -> & Hj)%list_elem_of_fmap Hk'. simpl in *. destruct (ok_same_key s j x i e) as [_ ->]; [done..|congruence|done]. }
  destruct (decide (key = current)) as [->|Hne].
  { split_and!; try done. symmetry. apply list_filter_all. intros e' _ (_ & ? & _). done. }
  destruct (decide (ce_ttl e ≤ now - ce_lastFailure e)%Z) as [He|He].
  - destruct (removeLocked_ok s key i Hok Hi) as [Hok' Habs]. split_and!; [done| | |done].
    + rewrite Habs. apply list_filter_ext_elem. intros e' Hin'. split; [intros Hnk [Hk' _]; done|]. intros Hn Hk'.
      apply Hn. split_and!; [done|done|]. by rewrite (Huniq e' Hin' Hk').
    + intros k Hkk. simpl. by rewrite lookup_delete_ne.
  - split_and!; try done. symmetry. apply list_filter_all. intros e' Hin' (Hk' & _ & He'). rewrite (Huniq e' Hin' Hk') in He'. done.
Qed.

Lemma sweep_fold_ok now current l s :
  store_ok s → NoDup (map fst l) → (∀ ki, ki ∈ l → lastFailureByEndpoint s !! ki.1 = Some ki.2) →
  let s' := foldl (sweep_step now current) s l in
  store_ok s' ∧ abs s' = filter (λ e, ¬ (ce_key e ∈ map fst l ∧ ce_key e ≠ current ∧ expired_at now e)) (abs s) ∧
  lastSweep s' = lastSweep s.
Proof.
  revert s. induction l as [|[k i] l IH]; intros s Hok Hnd Hl; simpl.
  { split_and!; [done| |done]. symmetry. apply list_filter_all. intros e _ [H%elem_of_nil _]. done. }
  simpl in Hnd. apply NoDup_cons in Hnd as [Hk Hnd].
  destruct (sweep_step_ok now current s k i Hok) as (Hok' & Habs & Hrest & Hsw); [apply (Hl (k, i)); constructor|].
  destruct (IH (sweep_step now current s (k, i)) Hok' Hnd) as (Hok2 & Habs2 & Hsw2).
  { intros ki Hki. rewrite Hrest; [apply Hl; by constructor|]. intros <-. apply Hk. by apply list_elem_of_fmap_2. }
  split_and!; [done| |congruence]. rewrite Habs2, Habs, list_filter_filter. apply list_filter_iff. intros e.
  rewrite elem_of_cons. destruct (decide (ce_key e = k)) as [->|]; naive_solver.
Qed.

Context (Hrange : ∀ m, range m ≡ₚ map_to_list m).

Lemma sweep_ok s now current : store_ok s →
  let s' := sweepExpiredIfNeededLocked s now current in
  store_ok s' ∧ (abs s' = abs s ∨ abs s' = filter (λ e, ce_key e = current ∨ ¬ expired_at now e) (abs s)).
Proof using Hrange.
  intros Hok. unfold sweepExpiredIfNeededLocked. case_match; [by auto|]. cbv zeta. unfold sweepExpiredExceptLocked.
  set (s1 := mkCooldownStore _ _ _ (Some now)). assert (store_ok s1) as Hok1 by (destruct Hok; by split).
  destruct (sweep_fold_ok now current (range (lastFailureByEndpoint s1)) s1) as (Hok2 & Habs & _); [done| | |].
  - rewrite Hrange. apply NoDup_fst_map_to_list.
  - intros [k i]. rewrite Hrange. by intros ?%elem_of_map_to_list.
  - split; [exact Hok2|]. right. etrans; [exact Habs|]. apply list_filter_ext_elem. intros e He.
    assert (ce_key e ∈ map fst (range (lastFailureByEndpoint s1))) as Hd.
    { rewrite Hrange. apply list_elem_of_fmap in He as ([i e'] & -> & Hin).
      assert (lastFailureByEndpoint s1 !! ce_key e' = Some i) as Hl by (apply (ok_sync s1 Hok1); by eauto).
      apply elem_of_map_to_list in Hl. apply list_elem_of_fmap. by exists (ce_key e', i). }
    simpl. destruct (decide (ce_key e = current)), (decide (expired_at now e)); tauto.
Qed.

(** *** The other operations *)

Lemma evict_ok s : store_ok s →
  let s' := evictOldestIfFullLocked s in
  store_ok s' ∧ abs s' = (if decide (length (abs s) < maxCooldownStoreEntries) then abs s else tail (abs s)) ∧
  next_element s' = next_element s.
Proof.
  intros Hok. unfold evictOldestIfFullLocked. rewrite (ok_size s Hok). case_decide; [by auto|].
  destruct (recencyOrder s) as [|[i e] l] eqn:El; [split_and!; [done| |done]; unfold abs; by rewrite El|].
  assert (lastFailureByEndpoint s !! ce_key e = Some i) as Hi.
  { apply (ok_sync s Hok). exists e. rewrite El. split; [constructor|done]. }
  destruct (removeLocked_ok s (ce_key e) i Hok Hi) as [Hok' Habs]. split_and!; [done| |done]. rewrite Habs.
  pose proof (ok_keys s Hok) as Hnd. unfold abs in *. rewrite El in *. simpl in *. rewrite filter_cons, decide_False by naive_solver.
  apply NoDup_cons in Hnd as [Hn _]. apply list_filter_all. intros x Hx Hk. apply Hn. rewrite <- Hk. by apply list_elem_of_fmap_2.
Qed.

Lemma set_value_spec s key i e : store_ok s → lastFailureByEndpoint s !! key = Some i → ce_key e = key →
  store_ok (set_order s (set_value (recencyOrder s) i e)) ∧
  abs (set_order s (set_value (recencyOrder s) i e)) = map (λ x, if decide (ce_key x = key) then e else x) (abs s).
Proof.
  intros Hok Hi Hke. destruct (ok_value s key i Hok Hi) as (e0 & _ & Hin0 & Hk0).
  assert (∀ j x, (j, x) ∈ recencyOrder s → j = i ↔ ce_key x = key) as Hiff.
  { intros j x Hin. split.
    - intros ->. by rewrite (elements_unique _ i x e0 (ok_elements s Hok) Hin Hin0).
    - intros Hx. destruct (ok_same_key s j x i e0) as [-> _]; congruence. }
  assert (map fst (set_value (recencyOrder s) i e) = map fst (recencyOrder s)) as Hfst.
  { unfold set_value. rewrite map_map. apply map_ext. intros [j x]. simpl. case_decide; by subst. }
  split.
  - split; cbn [set_order recencyOrder next_element lastFailureByEndpoint].
    + rewrite Hfst. apply Hok.
    + intros j x ([j' x'] & Hx & Hin)%list_elem_of_fmap. simpl in Hx. case_decide; simplify_eq; by eapply (ok_next s Hok).
    + intros k j. rewrite (ok_sync s Hok). unfold set_value. split.
      * intros (x & Hin & Hx). exists (if decide (j = i) then e else x). split; [|case_decide; [|done]].
        -- apply list_elem_of_fmap. exists (j, x). simpl. split; [|done]. by case_decide; subst.
        -- subst j. rewrite Hke. symmetry. rewrite <- Hx. by apply (Hiff i x Hin).
      * intros (x & ([j' x'] & Hx & Hin)%list_elem_of_fmap & Hk). simpl in Hx. case_decide; simplify_eq; [|by eauto].
        exists x'. split; [done|]. by apply (Hiff i x' Hin).
  - unfold abs, set_value. simpl. rewrite !map_map. apply map_ext_in. intros [j x] Hin%list_elem_of_In. simpl.
    specialize (Hiff j x Hin). destruct (decide (j = i)), (decide (ce_key x = key)); simpl; tauto.
Qed.
Lemma store_ok_perm s l : store_ok s → l ≡ₚ recencyOrder s → store_ok (set_order s l).
Proof.
  intros Hok Hl. split; simpl.
  - rewrite Hl. apply Hok.
  - intros i e. rewrite Hl. apply (ok_next s Hok).
  - intros key i. rewrite (ok_sync s Hok). by setoid_rewrite Hl.
Qed.

Lemma MoveToBack_ok s key i e : store_ok s → lastFailureByEndpoint s !! key = Some i → element_value (recencyOrder s) i = Some e →
  let s' := set_order s (MoveToBack (recencyOrder s) i) in
  store_ok s' ∧ abs s' = filter (λ x, ce_key x ≠ key) (abs s) ++ [e].
Proof.
  intros Hok Hi He. unfold MoveToBack. rewrite He. split.
  - apply store_ok_perm; [done|]. apply element_value_Some in He; [|apply Hok]. apply list_elem_of_split in He as (l1 & l2 & El).
    pose proof (ok_elements s Hok) as Hnd. unfold list_remove. rewrite El in *. rewrite map_app in Hnd. simpl in Hnd.
    apply NoDup_app in Hnd as (H1 & H2 & H3). apply NoDup_cons in H3 as [H3 _].
    rewrite filter_app, filter_cons, decide_False by (simpl; naive_solver). rewrite !list_filter_all.
    + rewrite <- app_assoc. apply Permutation_app_head. by rewrite Permutation_app_comm.
    + intros [j x] Hin Hj. simpl in Hj. subst j. apply H3. by apply (list_elem_of_fmap_2 fst l2 (i, x)).
    + intros [j x] Hin Hj. simpl in Hj. subst j. apply (H2 i); [|constructor]. by apply (list_elem_of_fmap_2 fst l1 (i, x)).
  - destruct (removeLocked_ok s key i Hok Hi) as [_ Habs]. unfold abs in *. simpl in *. by rewrite map_app, Habs.
Qed.

Lemma push_ok s key e : store_ok s → ce_key e = key → (∀ x, x ∈ abs s → ce_key x ≠ key) →
  store_ok (mkCooldownStore (<[key := next_element s]> (lastFailureByEndpoint s)) (recencyOrder s ++ [(next_element s, e)])
              (S (next_element s)) (lastSweep s)).
Proof.
  intros Hok Hk Hfresh.
  assert (∀ i x, (i, x) ∈ recencyOrder s → ce_key x ≠ key) as Hfresh'.
  { intros i x Hin. apply Hfresh. by apply (list_elem_of_fmap_2 snd _ (i, x)). }
  split; simpl.
  - rewrite map_app. apply NoDup_app. split_and!; [apply Hok| |apply NoDup_singleton].
    intros i ([j x] & -> & Hin)%list_elem_of_fmap Hj%list_elem_of_singleton. apply (ok_next s Hok) in Hin. simpl in *. lia.
  - intros i x. rewrite elem_of_app, list_elem_of_singleton. intros [Hin|[= -> ->]]; [|lia]. apply (ok_next s Hok) in Hin. lia.
  - intros k i. rewrite lookup_insert_Some, (ok_sync s Hok). setoid_rewrite elem_of_app. setoid_rewrite list_elem_of_singleton. split.
    + intros [[<- <-]|[Hne (x & Hin & Hx)]]; eauto.
    + intros (x & [Hin|[= -> ->]] & Hx); [|left; split; congruence]. right. split; [|by eauto]. specialize (Hfresh' i x Hin). congruence.
Qed.

(** What an operation does to the entries. *)
Definition swept (l : list cooldownEntry) now (current : cooldownKey) (l' : list cooldownEntry) : Prop :=
  l' = l ∨ l' = filter (λ e, ce_key e = current ∨ ¬ expired_at now e) l.

Lemma mark_abs s key ttl lastFailure now : store_ok s →
  let e := mkCooldownEntry key lastFailure ttl in
  let s' := markFailure s key ttl lastFailure now in
  ∃ l, swept (abs s) now key l ∧ store_ok s' ∧
    abs s' = filter (λ x, ce_key x ≠ key)
               (if decide (key ∈ map ce_key l ∨ length l < maxCooldownStoreEntries) then l else tail l) ++ [e].
Proof using Hrange.
  intros Hok e s'. destruct (sweep_ok s now key Hok) as [Hok1 Hsw]. unfold s', markFailure. clear s'.
  set (s1 := sweepExpiredIfNeededLocked s now key) in *. exists (abs s1). split; [exact Hsw|].
  pose proof (ok_lookup s1 key Hok1) as Hlk. destruct (lastFailureByEndpoint s1 !! key) as [i|] eqn:Ei.
  - destruct Hlk as (e0 & Hin & Hk). destruct (set_value_spec s1 key i e Hok1 Ei eq_refl) as [Hok2 Habs2].
    set (s2 := set_order s1 _) in *.
    destruct (MoveToBack_ok s2 key i e Hok2 Ei) as [Hok3 Habs3].
    { apply element_value_Some; [apply Hok2|]. apply list_elem_of_fmap. exists (i, e0). simpl. by rewrite decide_True. }
    split; [exact Hok3|]. etrans; [exact Habs3|]. rewrite decide_True by (left; apply list_elem_of_fmap; exists e0; split; [done|]; by apply (list_elem_of_fmap_2 snd _ (i, e0))).
    f_equal. rewrite Habs2. generalize (abs s1). intros l. clear. induction l as [|x l IH]; [done|]. simpl. rewrite !filter_cons, IH.
    destruct (decide (ce_key x = key)) as [Hx|Hx]; simpl; [|by rewrite decide_True by done]. by rewrite !decide_False by naive_solver.
  - destruct (evict_ok s1 Hok1) as (Hok2 & Habs2 & Hnext). set (s2 := evictOldestIfFullLocked s1) in *.
    assert (∀ x, x ∈ abs s2 → ce_key x ≠ key) as Hfresh.
    { intros x. rewrite Habs2. case_decide; [apply Hlk|]. intros Hx. apply Hlk. destruct (abs s1); [done|by constructor]. }
    split; [by apply push_ok|]. unfold abs at 1. simpl. rewrite map_app. f_equal. fold (abs s2). rewrite <- (list_filter_all (λ x, ce_key x ≠ key) (abs s2)) by done.
    f_equal. rewrite Habs2. apply decide_ext. split; [by auto|]. intros [(x & Hx & Hin)%list_elem_of_fmap|]; [|done]. by apply Hlk in Hin.
Qed.
Lemma lookup_abs s key ttl now : store_ok s →
  let '(s', r) := lastFailureWithCurrentTTL s key ttl now in
  ∃ l, swept (abs s) now key l ∧ store_ok s' ∧
    abs s' = map (λ x, if decide (ce_key x = key) then mkCooldownEntry key (ce_lastFailure x) ttl else x) l ∧
    match r with
    | Some (t, d) => d = ttl ∧ ∃ e, e ∈ l ∧ ce_key e = key ∧ ce_lastFailure e = t
    | None => ∀ e, e ∈ l → ce_key e ≠ key
    end.
Proof using Hrange.
  intros Hok. destruct (sweep_ok s now key Hok) as [Hok1 Hsw]. unfold lastFailureWithCurrentTTL.
  set (s1 := sweepExpiredIfNeededLocked s now key) in *.
  pose proof (ok_lookup s1 key Hok1) as Hlk. destruct (lastFailureByEndpoint s1 !! key) as [i|] eqn:Ei.
  - destruct (ok_value s1 key i Hok1 Ei) as (e0 & Hv & Hin & Hk). rewrite Hv. cbv zeta.
    destruct (set_value_spec s1 key i (mkCooldownEntry (ce_key e0) (ce_lastFailure e0) ttl) Hok1 Ei Hk) as [Hok2 Habs2].
    assert (e0 ∈ abs s1) as Hin0 by by apply (list_elem_of_fmap_2 snd _ (i, e0)).
    exists (abs s1). split_and!; [done|done| |done|by eauto]. rewrite Habs2. apply map_ext_in.
    intros x Hx%list_elem_of_In. case_decide as Hkx; [|done]. f_equal; [done|].
    apply list_elem_of_fmap in Hx as ([j x'] & -> & Hx). simpl in *. destruct (ok_same_key s1 i e0 j x') as [_ ->]; congruence.
  - exists (abs s1). split_and!; [done|done| |done]. rewrite <- (map_id (abs s1)) at 1. apply map_ext_in.
    intros x Hx%list_elem_of_In. rewrite decide_False; [done|]. by apply Hlk.
Qed.

Lemma lookup_ttl s key ttl now t d : (lastFailureWithCurrentTTL s key ttl now).2 = Some (t, d) → d = ttl.
Proof. unfold lastFailureWithCurrentTTL. repeat case_match; try done. by intros [= _ <-]. Qed.

Lemma delete_abs s key expected : store_ok s →
  let '(s', b) := deleteLastFailureIfMatches s key expected in
  store_ok s' ∧ abs s' = filter (λ e, ¬ (ce_key e = key ∧ ce_lastFailure e = expected)) (abs s).
Proof.
  intros Hok. unfold deleteLastFailureIfMatches. pose proof (ok_lookup s key Hok) as Hlk.
  destruct (lastFailureByEndpoint s !! key) as [i|] eqn:Ei.
  2: { split; [done|]. symmetry. apply list_filter_all. intros e He [Hk _]. by apply Hlk in He. }
  destruct (ok_value s key i Hok Ei) as (e0 & Hv & Hin & Hk). rewrite Hv.
  assert (∀ x, x ∈ abs s → ce_key x = key → x = e0) as Huniq.
  { intros x ([j x'] & -> & Hx)%list_elem_of_fmap Hkx. simpl in *. destruct (ok_same_key s i e0 j x') as [_ ->]; congruence. }
  case_decide as Hd; [destruct (removeLocked_ok s key i Hok Ei) as [Hok' Habs]; split; [done|rewrite Habs]|split; [done|symmetry]].
  - apply list_filter_ext_elem. intros x Hx. split; [tauto|]. intros Hn Hkx. apply Hn. split; [done|]. by rewrite (Huniq x Hx Hkx).
  - apply list_filter_all. intros x Hx [Hkx Hf]. by rewrite (Huniq x Hx Hkx) in Hf.
Qed.
(** ** What the store remembers

    The mutex makes the store run one critical section at a time, whichever
    goroutine asks; the clock does not go back.  A deletion is asked for by
    [endpointInCooldown] only, when it has seen, at the time [since], that the
    interval of the endpoint has passed. *)

Inductive critical : Type :=
  | Mark (key : cooldownKey) (ttl lastFailure now : Z)
  | Lookup (key : cooldownKey) (ttl now : Z)
  | Delete (key : cooldownKey) (expected since : Z).

Definition perform (c : critical) s : cooldownStore :=
  match c with
  | Mark key ttl lastFailure now => markFailure s key ttl lastFailure now
  | Lookup key ttl now => (lastFailureWithCurrentTTL s key ttl now).1
  | Delete key expected since => (deleteLastFailureIfMatches s key expected).1
  end.

(** The last section comes first. *)
Definition replay (h : list critical) : cooldownStore := foldr perform newCooldownStore h.

(** When a section is over it is at least this late. *)
Definition after (clock : Z) (c : critical) : Z :=
  match c with Mark _ _ _ now | Lookup _ _ now => now | Delete _ _ since => Z.max clock since end.

Definition on_time (clock : Z) (c : critical) : Prop :=
  match c with
  | Mark _ _ lastFailure now => (clock ≤ lastFailure ≤ now)%Z
  | Lookup _ _ now => (clock ≤ now)%Z
  | Delete _ _ _ => True
  end.

(** [chronicle h clock]: the sections of [h] have run, and now it is [clock]. *)
Inductive chronicle : list critical → Z → Prop :=
  | chronicle_start clock : chronicle [] clock
  | chronicle_step h clock c : chronicle h clock → on_time clock c → chronicle (c :: h) (after clock c)
  | chronicle_wait h clock now : chronicle h clock → (clock ≤ now)%Z → chronicle h now.

(** Every endpoint has one interval. *)
Context (interval : cooldownKey → Z).

Definition rightful (c : critical) : Prop :=
  match c with
  | Mark key ttl _ _ | Lookup key ttl _ => ttl = interval key
  | Delete key expected since => (interval key ≤ since - expected)%Z
  end.

Fixpoint last_mark key (h : list critical) : option Z :=
  match h with
  | [] => None
  | Mark k _ t _ :: h => if decide (k = key) then Some t else last_mark key h
  | _ :: h => last_mark key h
  end.

Fixpoint marked_since key (h : list critical) : gset cooldownKey :=
  match h with
  | [] => ∅
  | Mark k _ _ _ :: h => if decide (k = key) then ∅ else {[k]} ∪ marked_since key h
  | _ :: h => marked_since key h
  end.

Lemma marked_times h clock : chronicle h clock → ∀ key ttl t n, Mark key ttl t n ∈ h → (t ≤ clock)%Z.
Proof.
  induction 1 as [clock|h clock c Hh IH Hc|h clock now Hh IH Hc]; intros key ttl t n.
  - by intros ?%elem_of_nil.
  - intros [<-|Hin]%elem_of_cons; simpl in *; [lia|]. apply IH in Hin. destruct c; simpl in *; lia.
  - intros Hin%IH. lia.
Qed.

Lemma last_mark_late h clock key ttl t n : chronicle h clock → Mark key ttl t n ∈ h → ∃ t', last_mark key h = Some t' ∧ (t ≤ t')%Z.
Proof.
  induction 1 as [clock|h clock c Hh IH Hc|h clock now Hh IH Hc]; [by intros ?%elem_of_nil| |done].
  intros [<-|Hin]%elem_of_cons; simpl.
  - rewrite decide_True by done. by exists t.
  - destruct c as [k d t' n'|k d n'|k d n']; [|by apply IH..]. case_decide; [|by apply IH]. exists t'. split; [done|].
    apply (marked_times h clock) in Hin; [|done]. simpl in Hc. lia.
Qed.

(** A failure is forgotten when its interval is over, or when as many other
    endpoints have failed since as the store has room for. *)
Definition kept key (t clock : Z) (since : gset cooldownKey) (l : list cooldownEntry) : Prop :=
  (interval key ≤ clock - t)%Z ∨ maxCooldownStoreEntries ≤ size since ∨
  ∃ l1 e l2, l = l1 ++ e :: l2 ∧ ce_key e = key ∧ ∀ x, x ∈ l2 → ce_key x ∈ since.

Definition truthful (h : list critical) (l : list cooldownEntry) : Prop :=
  ∀ e, e ∈ l → last_mark (ce_key e) h = Some (ce_lastFailure e) ∧ ce_ttl e = interval (ce_key e).

Record remembers (h : list critical) (clock : Z) (l : list cooldownEntry) : Prop := {
  rem_bound : length l ≤ maxCooldownStoreEntries;
  rem_truthful : truthful h l;
  rem_kept : ∀ key t, last_mark key h = Some t → kept key t clock (marked_since key h) l;
}.

Lemma kept_filter key t clock clock' since l (P : cooldownEntry → Prop) `{∀ x, Decision (P x)} :
  kept key t clock since l → (clock ≤ clock')%Z → (∀ e, e ∈ l → ce_key e = key → P e ∨ (interval key ≤ clock' - t)%Z) →
  kept key t clock' since (filter P l).
Proof.
  intros [Hx|[Hx|(l1 & e & l2 & -> & Hk & H2)]] Hc HP; [left; lia|by right; left|].
  destruct (HP e) as [He|He]; [apply elem_of_app; right; constructor|done| |by left]. right; right.
  exists (filter P l1), e, (filter P l2). split_and!; [|done|].
  - by rewrite filter_app, filter_cons, decide_True.
  - intros x [_ Hin]%list_elem_of_filter. by apply H2.
Qed.

Lemma kept_map key t clock since l f : (∀ e, ce_key (f e) = ce_key e) → kept key t clock since l → kept key t clock since (map f l).
Proof.
  intros Hf [Hx|[Hx|(l1 & e & l2 & -> & Hk & H2)]]; [by left|by right; left|]. right; right.
  exists (map f l1), (f e), (map f l2). split_and!; [by rewrite map_app|by rewrite Hf|].
  intros x (y & -> & Hy)%list_elem_of_fmap. rewrite Hf. by apply H2.
Qed.

(** The entry at the front is the one evicted. *)
Lemma kept_tail key t clock since l k :
  NoDup (map ce_key l) → k ∉ map ce_key l → maxCooldownStoreEntries ≤ length l → kept key t clock since l →
  kept key t clock ({[k]} ∪ since) (tail l).
Proof.
  intros Hnd Hk Hfull [Hx|[Hx|(l1 & e & l2 & -> & Hke & H2)]]; [by left| |].
  { right; left. etrans; [done|]. apply subseteq_size. set_solver. }
  right. destruct l1 as [|e1 l1]; simpl in *; [left|right; exists l1, e, l2; split_and!; [done..|set_solver]].
  apply NoDup_cons in Hnd as [_ Hnd]. apply not_elem_of_cons in Hk as [_ Hk].
  trans (size (list_to_set (C := gset cooldownKey) (k :: map ce_key l2))).
  - rewrite size_list_to_set by by constructor. simpl. by rewrite length_map.
  - apply subseteq_size. intros x. rewrite elem_of_list_to_set, elem_of_cons, list_elem_of_fmap. set_solver.
Qed.

Lemma kept_snoc key t clock since l k e : ce_key e = k → k ≠ key → kept key t clock ({[k]} ∪ since) l →
  kept key t clock ({[k]} ∪ since) (filter (λ x, ce_key x ≠ k) l ++ [e]).
Proof.
  intros He Hne Hkept. apply (kept_filter key t clock clock _ l (λ x, ce_key x ≠ k)) in Hkept; [|lia|intros ? _ ->; by left].
  destruct Hkept as [Hx|[Hx|(l1 & e' & l2 & -> & Hke & H2)]]; [by left|by right; left|]. right; right.
  exists l1, e', (l2 ++ [e]). split_and!; [by rewrite <- app_assoc|done|]. intros x. rewrite elem_of_app, list_elem_of_singleton.
  intros [Hin| ->]; [by apply H2|]. rewrite He. set_solver.
Qed.
Lemma remembers_swept h clock now l current l' : remembers h clock l → (clock ≤ now)%Z → swept l now current l' → remembers h now l'.
Proof.
  intros [Hb Ht Hk] Hc Hsw.
  assert (∀ (P : cooldownEntry → Prop) `{∀ x, Decision (P x)}, (∀ e, e ∈ l → P e ∨ expired_at now e) → remembers h now (filter P l)) as Hf.
  { intros P HdP HP. split.
    - pose proof (length_filter P l). lia.
    - intros e [_ He]%list_elem_of_filter. by apply Ht.
    - intros key t Hl. eapply kept_filter; [by apply Hk|done|]. intros e He <-. destruct (HP e He) as [|Hex]; [by left|]. right.
      destruct (Ht e He) as [Hlm Httl]. unfold expired_at in Hex. rewrite Hlm in Hl. simplify_eq. lia. }
  destruct Hsw as [->| ->]; [|apply Hf; intros e _; destruct (decide (expired_at now e)); tauto].
  rewrite <- (list_filter_all (λ _, True) l) by done. apply Hf. by left.
Qed.

Lemma remembers_mark h now l key t : NoDup (map ce_key l) → remembers h now l →
  remembers (Mark key (interval key) t now :: h) now
    (filter (λ x, ce_key x ≠ key) (if decide (key ∈ map ce_key l ∨ length l < maxCooldownStoreEntries) then l else tail l) ++
     [mkCooldownEntry key t (interval key)]).
Proof.
  intros Hnd [Hb Ht Hk]. set (trim := if decide _ then l else tail l).
  assert (trim `sublist_of` l) as Hsub by (unfold trim; case_decide; [done|destruct l; [done|by apply sublist_cons]]).
  split.
  - rewrite length_app. simpl. pose proof (length_filter (λ x, ce_key x ≠ key) trim). unfold trim in *. case_decide as Hd.
    + destruct Hd as [(x & Hx & Hin)%list_elem_of_fmap|]; [|lia].
      pose proof (length_filter_lt (λ x, ce_key x ≠ key) l x Hin (λ H, H (eq_sym Hx))). lia.
    + rewrite length_tl in *. unfold maxCooldownStoreEntries in *. lia.
  - intros e. rewrite elem_of_app, list_elem_of_singleton. intros [[Hne Hin]%list_elem_of_filter| ->]; simpl.
    + rewrite decide_False by done. apply Ht. by eapply elem_of_sublist.
    + by rewrite decide_True.
  - intros k t' Hl. simpl in *. case_decide as Hd.
    + subst k. right; right. eexists _, _, []. split_and!; [done|done|]. by intros ? ?%elem_of_nil.
    + apply kept_snoc; [done|done|]. specialize (Hk k t' Hl). unfold trim. case_decide as Hroom.
      * destruct Hk as [?|[?|(l1 & e & l2 & -> & Hke & H2)]]; [by left|right; left|right; right; exists l1, e, l2; set_solver].
        etrans; [done|]. apply subseteq_size. set_solver.
      * apply kept_tail; [done|tauto|lia|done].
Qed.

Lemma chronicle_remembers h clock : chronicle h clock → Forall rightful h → store_ok (replay h) ∧ remembers h clock (abs (replay h)).
Proof using Hrange.
  induction 1 as [clock|h clock c Hh IH Htime|h clock now Hh IH Hc]; intros Hright.
  { split; [split|split]; simpl; try (set_solver || lia || apply NoDup_nil_2). }
  2: { destruct (IH Hright) as [Hok Hrem]. split; [done|]. apply (remembers_swept h clock now (abs (replay h)) (mkCooldownKey "" "" "" [])); [done|done|by left]. }
  apply Forall_cons in Hright as [Hr Hright]. destruct (IH Hright) as [Hok Hrem]. clear IH. simpl. generalize dependent (replay h). intros s Hok Hrem.
  destruct c as [key ttl t now|key ttl now|key expected since]; simpl in *; subst.
  - destruct (mark_abs s key (interval key) t now Hok) as (l & Hsw & Hok' & ->). split; [done|].
    apply remembers_mark; [|eapply (remembers_swept h clock now); [done|lia|done]].
    pose proof (ok_keys s Hok). destruct Hsw as [->| ->]; [done|]. eapply sublist_NoDup; [done|]. apply fmap_sublist, sublist_filter.
  - pose proof (lookup_abs s key (interval key) now Hok) as H. destruct (lastFailureWithCurrentTTL _ _ _ _) as [s' r]. simpl.
    destruct H as (l & Hsw & Hok' & -> & _). split; [done|]. eapply remembers_swept in Hrem as [Hb Ht Hk]; [|done|done]. split.
    + by rewrite length_map.
    + intros x (e & -> & He)%list_elem_of_fmap. case_decide; simpl; [subst|]; split; [by apply Ht|done|by apply Ht..].
    + intros k t Hl. apply kept_map; [|by apply Hk]. intros e. by case_decide.
  - pose proof (delete_abs s key expected Hok) as H. destruct (deleteLastFailureIfMatches _ _ _) as [s' b]. simpl.
    destruct H as [Hok' ->], Hrem as [Hb Ht Hk]. split; [done|]. split.
    + pose proof (length_filter (λ e, ¬ (ce_key e = key ∧ ce_lastFailure e = expected)) (abs s)). lia.
    + intros e [_ He]%list_elem_of_filter. by apply Ht.
    + intros k t Hl. simpl in Hl. eapply kept_filter; [by apply Hk|lia|]. intros e He <-.
      destruct (decide (ce_key e = key ∧ ce_lastFailure e = expected)) as [[<- <-]|]; [right|by left].
      destruct (Ht e He) as [Hlm _]. rewrite Hlm in Hl. simplify_eq. lia.
Qed.

(** After any interleaving of the critical sections, a lookup reports the last
    failure of the endpoint, if it reports one; it does report one whose
    interval is not over, unless as many as 1024 other endpoints have failed
    since; and the store never has more entries than that. *)
Theorem cooldown_remembered h now key : chronicle h now → Forall rightful h →
  let '(s', r) := lastFailureWithCurrentTTL (replay h) key (interval key) now in
  length (recencyOrder s') ≤ 1024 ∧ size (lastFailureByEndpoint s') = length (recencyOrder s') ∧
  (∀ t ttl, r = Some (t, ttl) → last_mark key h = Some t ∧ ttl = interval key) ∧
  (∀ t, last_mark key h = Some t → (now - t < interval key)%Z → size (marked_since key h) < 1024 → r = Some (t, interval key)).
Proof using Hrange.
  intros Hh Hright. destruct (chronicle_remembers h now Hh Hright) as [Hok Hrem].
  destruct (chronicle_remembers (Lookup key (interval key) now :: h) now) as [Hok' Hrem'].
  { eapply (chronicle_step h now); [done|simpl; lia]. } { by constructor. }
  simpl in *. generalize dependent (replay h). intros s Hok Hrem Hok' Hrem'.
  pose proof (lookup_abs s key (interval key) now Hok) as H. destruct (lastFailureWithCurrentTTL _ _ _ _) as [s' r]. simpl in *.
  destruct H as (l & Hsw & _ & _ & Hr). eapply remembers_swept in Hrem as [_ Ht Hk]; [|done|done].
  split_and!.
  - rewrite <- (length_map snd). apply Hrem'.
  - rewrite ok_size by done. apply length_map.
  - intros t ttl ->. destruct Hr as (-> & e & He & <- & <-). split; [by apply Ht|done].
  - intros t Hl Hi Hn. destruct (Hk key t Hl) as [?|[?|(l1 & e & l2 & -> & Hke & _)]]; [lia|unfold maxCooldownStoreEntries in *; lia|].
    destruct r as [[t' ttl]|]; [|by destruct (Hr e); [set_solver|]]. destruct Hr as (-> & e' & He' & Hk' & <-).
    destruct (Ht e' He') as [Hlm _]. rewrite Hk', Hl in Hlm. by simplify_eq.
Qed.
End store.
