(* ===== verification/LlmProxy.v ===== *)
(** * The LLM proxy, [pkg/filter/llm/proxy/filter.go]

    A request goes to the endpoint that the balancer picked, or to the preferred
    one; it is retried there as the policy of the endpoint allows, and falls back
    to the next healthy endpoint of the cluster.  Endpoints that failed are left
    alone for a while; see [Cooldown].

    A request does not run alone.  The environment is a family of parameters that
    are indexed by a count of the interactions of the request: the time, the
    cluster manager, the answer of an endpoint, the order of a map, and the
    critical sections of the cooldown store that other requests have run before
    the lock was taken.  [x_sections] and [x_sent] are logs of the critical
    sections and of the requests sent, with the header as it was then.

    The header of the request that is sent is the header of the client's request:
    one map, which [assembleRequest] changes.

    Parameters are also: what [http.NewRequest] refuses, the texts of local
    replies, [mapstructure.Decode] and [time.ParseDuration]. *)

From S2P Require Import Prelude GoStrings Sha256 Endpoint Snapshot Cluster ClusterStore ClusterManager LoadBalance GoHttp HttpManager McpHttp Retry Cooldown.

(** ** Results *)

Inductive run (A : Type) : Type :=
  | Done (a : A)
  | Panicked
  | OutOfFuel.
Arguments Done {A} _.
Arguments Panicked {A}.
Arguments OutOfFuel {A}.

#[export] Instance run_mret : MRet run := λ _, Done.
#[export] Instance run_mbind : MBind run := λ A B k m,
  match m with Done a => k a | Panicked => Panicked | OutOfFuel => OutOfFuel end.

(** ** Data *)

Record UpstreamAttempt : Type := mkUpstreamAttempt {
  ua_EndpointID : string;
  ua_EndpointAddress : string;
  ua_ClusterName : string;
  ua_Success : bool;
  ua_StatusCode : Z;
  ua_ErrorType : string;
}.

Inductive param : Type :=
  | ParamString (s : string)
  | ParamAttempts (l : list UpstreamAttempt)
  | ParamOther.

(** A nil map is [None]. *)
Definition params : Type := option (gmap string param).

(** The parts of the request that the other filters do not look at.  The body is
    what is left to be read of it; [GetBody] makes a new reader of its bytes. *)
Record payload : Type := mkPayload {
  pl_RawQuery : string;
  pl_Body : option string;
  pl_readable : bool;
  pl_GetBody : option string;
}.

Record sent : Type := mkSent {
  sent_Method : string;
  sent_Scheme : string;
  sent_Host : string;
  sent_Path : string;
  sent_RawQuery : string;
  sent_Body : option string;
  sent_Header : Header;
}.

Inductive answer : Type :=
  | NetworkError (timeout : bool)
  | Answer (status : Z) (streamable : bool) (body : option string).

Record response : Type := mkResponse {
  resp_StatusCode : Z;
  resp_streamable : bool;
  resp_body : option string;
}.

(** [PAssembly] says whether the error of [NewRequest] is a [*url.Error]; it
    never is a timeout.  Those of the client always are [*url.Error]s. *)
Inductive problem : Type :=
  | PPolicy (id : string) (e : retry_error)
  | PAssembly (id : string) (is_url : bool)
  | PNetwork (id : string) (timeout : bool)
  | PStatus (id : string) (status : Z)
  | PFailedWith (status : Z)
  | PNoResponse.

Record exec : Type := mkExec {
  x_hc : HttpContext params;
  x_payload : payload;
  x_store : cooldownStore;
  x_sections : list critical;
  x_sent : list sent;
  x_moment : nat;
  x_resp : option response;
  x_err : bool;
  x_attempts : list UpstreamAttempt;
  x_problems : list problem;
}.

Definition LLMUpstreamAttemptsKey : string := "llm_upstream_attempts".
Definition llmPreferredEndpointIDKey : string := "llm_preferred_endpoint_id".
Definition APIKeyPrefix : string := "Bearer".
Definition HeaderValueAuthorization : string := "Authorization".
Definition HeaderKeyUserAgent : string := "User-Agent".
Definition user_agent : string := "dubbo-go-pixiu 1.1.0".

Definition Header_Set (h : Header) (key value : string) : Header := <[CanonicalMIMEHeaderKey key := [value]]> h.

Definition IsHTTPRespSuccessful (statusCode : Z) : bool := bool_decide (200 ≤ statusCode)%Z && bool_decide (statusCode < 300)%Z.

(** [errors.As] finds the first [*url.Error]; whether that one is a timeout. *)
Fixpoint url_error_timeout (problems : list problem) : bool :=
  match problems with
  | [] => false
  | PNetwork _ timeout :: _ => timeout
  | PAssembly _ true :: _ => false
  | _ :: problems => url_error_timeout problems
  end.

Definition getPreferredEndpointID (hc : HttpContext params) : string :=
  match hc_Params hc ≫= (.!! llmPreferredEndpointIDKey) with
  | Some (ParamString id) => id
  | _ => ""
  end.

Definition prepareRequestBody (p : payload) : option payload :=
  match pl_Body p, pl_GetBody p with
  | None, _ | _, Some _ => Some p
  | Some bodyBytes, None =>
      if pl_readable p then Some (mkPayload (pl_RawQuery p) (Some bodyBytes) true (Some bodyBytes)) else None
  end.

(** ** Parts of the state *)

Definition set_cooldowns (x : exec) (s : cooldownStore) (h : list critical) : exec :=
  mkExec (x_hc x) (x_payload x) s h (x_sent x) (x_moment x) (x_resp x) (x_err x) (x_attempts x) (x_problems x).
Definition tick (x : exec) : exec :=
  mkExec (x_hc x) (x_payload x) (x_store x) (x_sections x) (x_sent x) (S (x_moment x)) (x_resp x) (x_err x) (x_attempts x)
    (x_problems x).
Definition set_client (x : exec) (hc : HttpContext params) (p : payload) : exec :=
  mkExec hc p (x_store x) (x_sections x) (x_sent x) (x_moment x) (x_resp x) (x_err x) (x_attempts x) (x_problems x).
Definition with_hc (x : exec) (hc : HttpContext params) : exec := set_client x hc (x_payload x).
Definition set_result (x : exec) (r : option response) (err : bool) : exec :=
  mkExec (x_hc x) (x_payload x) (x_store x) (x_sections x) (x_sent x) (x_moment x) r err (x_attempts x) (x_problems x).
Definition add_problem (x : exec) (p : problem) : exec :=
  mkExec (x_hc x) (x_payload x) (x_store x) (x_sections x) (x_sent x) (x_moment x) (x_resp x) (x_err x) (x_attempts x)
    (x_problems x ++ [p]).
Definition add_attempt (x : exec) (a : UpstreamAttempt) : exec :=
  mkExec (x_hc x) (x_payload x) (x_store x) (x_sections x) (x_sent x) (x_moment x) (x_resp x) (x_err x) (x_attempts x ++ [a])
    (x_problems x).
Definition log_sent (x : exec) (r : sent) : exec :=
  mkExec (x_hc x) (x_payload x) (x_store x) (x_sections x) (x_sent x ++ [r]) (x_moment x) (x_resp x) (x_err x) (x_attempts x)
    (x_problems x).

Section proxy.
Context {CH : Type}.
Context (range : gmap cooldownKey nat → list (cooldownKey * nat)).
Context (DecodeConfig : option (gmap string any) → ExponentialBackoffConfig → option ExponentialBackoffConfig).
Context (ParseDuration : string → option Z).
(** [None]: the request is made; [Some b]: the error is a [*url.Error] or not *)
Context (NewRequest_error : string → string → string → option bool).
Context (now : nat → Z).
Context (others : nat → list critical).
Context (managers : nat → ClusterManager CH).
Context (upstream : nat → sent → answer).
Context (unread : nat → string).
Context (scheme clusterName : string).
Implicit Types (x : exec) (endpoint : Endpoint).

(** ** Cooldowns *)

(** The lock is taken when the others have released it. *)
Definition lock x : exec :=
  let h := others (x_moment x) in set_cooldowns x (foldr (perform range) (x_store x) h) (h ++ x_sections x).

Definition section x (c : critical) : exec := tick (set_cooldowns x (perform range c (x_store x)) (c :: x_sections x)).

Definition endpointInCooldown x endpoint : exec * bool :=
  let key := newCooldownKey clusterName endpoint in
  let ttl := endpointCooldownInterval endpoint in
  let x := lock x in
  let found := (lastFailureWithCurrentTTL range (x_store x) key ttl (now (x_moment x))).2 in
  let x := section x (Lookup key ttl (now (x_moment x))) in
  match found with
  | None => (x, false)
  | Some (lastFailure, ttl) =>
      let since := now (x_moment x) in
      let x := tick x in
      if decide (since - lastFailure < ttl)%Z then (x, true)
      else (section (lock x) (Delete key lastFailure since), false)
  end.

Definition markEndpointCooldown x endpoint : exec :=
  let x := lock x in
  let lastFailure := now (x_moment x) in
  let x := tick x in
  section x (Mark (newCooldownKey clusterName endpoint) (endpointCooldownInterval endpoint) lastFailure (now (x_moment x))).

(** ** Requests *)

(** The request, or the error of [NewRequest]. *)
Definition assembleRequest x endpoint : run (exec * result bool sent) :=
  let r := hc_Request (x_hc x) in
  let p := x_payload x in
  let p := match pl_GetBody p with
           | Some bytes => mkPayload (pl_RawQuery p) (Some bytes) (pl_readable p) (pl_GetBody p)
           | None => p
           end in
  let x := set_client x (x_hc x) p in
  let host := GetAddress (EAddress endpoint) in
  match NewRequest_error (GoHttp.req_Method r) host (GoHttp.req_Path r) with
  | Some is_url => Done (x, Err is_url)
  | None =>
      match ELLMMeta endpoint with
      | None => Panicked
      | Some m =>
          let header := if decide (APIKey m = "") then req_Header r
                        else Header_Set (req_Header r) HeaderValueAuthorization (APIKeyPrefix +:+ " " +:+ APIKey m) in
          let header := Header_Set header HeaderKeyUserAgent user_agent in
          let x := set_client x (set_request (x_hc x) (GoHttp.mkRequest (GoHttp.req_Method r) (GoHttp.req_Path r) header)) p in
          Done (x, Ok (mkSent (GoHttp.req_Method r) scheme host (GoHttp.req_Path r) (pl_RawQuery p) (pl_Body p) header))
      end
  end.

(** [client.Do] reads the body, to its end or not. *)
Definition Do x (r : sent) : exec * answer :=
  let p := x_payload x in
  let i := x_moment x in
  (tick (log_sent (set_client x (x_hc x) (mkPayload (pl_RawQuery p) ((λ _, unread i) <$> pl_Body p) (pl_readable p) (pl_GetBody p))) r),
   upstream i r).

Definition new_attempt endpoint (success : bool) (status : Z) (error : string) : UpstreamAttempt :=
  mkUpstreamAttempt (EID endpoint) (GetAddress (EAddress endpoint)) clusterName success status error.

(** The retry loop; the boolean says that a response was successful. *)
Fixpoint retry_loop (fuel : nat) x endpoint (retryPolicy : retryer) : run (exec * bool) :=
  match fuel with
  | O => OutOfFuel
  | S fuel =>
      let '(retryPolicy, granted) := Attempt retryPolicy in
      if negb granted then Done (x, false)
      else
        '(x, assembled) ← assembleRequest x endpoint;
        match assembled with
        | Err is_url => Done (add_problem (set_result x (x_resp x) true) (PAssembly (EID endpoint) is_url), false)
        | Ok req =>
            let '(x, a) := Do x req in
            match a with
            | NetworkError timeout =>
                let x := add_problem (set_result x None true) (PNetwork (EID endpoint) timeout) in
                Done (add_attempt x (new_attempt endpoint false 0 "network_error"), false)
            | Answer status streamable body =>
                let x := set_result x (Some (mkResponse status streamable body)) false in
                if IsHTTPRespSuccessful status then
                  Done (add_attempt x (new_attempt endpoint true status ""), true)
                else
                  let x := add_problem x (PStatus (EID endpoint) status) in
                  retry_loop fuel (add_attempt x (new_attempt endpoint false status "status_code_error")) endpoint retryPolicy
            end
        end
  end.

Definition getNextFallbackEndpoint x endpoint : run (exec * option Endpoint) :=
  match ELLMMeta endpoint with
  | None => Panicked
  | Some m => if negb (Fallback m) then Done (x, None)
              else Done (tick x, PickNextEndpoint (managers (x_moment x)) clusterName (EID endpoint))
  end.

Definition make_params x : exec :=
  match hc_Params (x_hc x) with
  | Some _ => x
  | None => with_hc x (with_Params (x_hc x) (Some ∅))
  end.

(** The assignment to a nil map panics. *)
Definition store_attempts x : run exec :=
  match hc_Params (x_hc x) with
  | Some m => Done (with_hc x (with_Params (x_hc x) (Some (<[LLMUpstreamAttemptsKey := ParamAttempts (x_attempts x)]> m))))
  | None => Panicked
  end.

(** The fallback loop; the boolean says that a response was successful. *)
Fixpoint fallback_loop (endpoints fuel : nat) x (o : option Endpoint) : run (exec * bool) :=
  match o with
  | None => Done (x, false)
  | Some endpoint =>
      match endpoints with
      | O => OutOfFuel
      | S endpoints =>
          let x := make_params x in
          let '(x, skip) := endpointInCooldown x endpoint in
          if skip : bool then
            '(x, o) ← getNextFallbackEndpoint x endpoint; fallback_loop endpoints fuel x o
          else
            match ELLMMeta endpoint with
            | None => Panicked
            | Some m =>
                match GetRetryPolicy DecodeConfig ParseDuration (RetryPolicyOf m) with
                | Err e =>
                    let x := add_problem (set_result x (x_resp x) true) (PPolicy (EID endpoint) e) in
                    '(x, o) ← getNextFallbackEndpoint x endpoint; fallback_loop endpoints fuel x o
                | Ok retryPolicy =>
                    let x := set_result x (x_resp x) false in
                    '(x, success) ← retry_loop fuel x endpoint (Retry.Reset retryPolicy);
                    if success : bool then Done (x, true)
                    else
                      let x := markEndpointCooldown x endpoint in
                      '(x, o) ← getNextFallbackEndpoint x endpoint; fallback_loop endpoints fuel x o
                end
            end
      end
  end.

(** [picked] is what [PickEndpoint] returned. *)
Definition Execute (endpoints fuel : nat) x (picked : option Endpoint) : run (exec * option response * option (list problem)) :=
  let preferred := getPreferredEndpointID (x_hc x) in
  let '(x, o) :=
    if decide (preferred = "") then (x, picked)
    else match GetHealthyEndpointByID (managers (x_moment x)) clusterName preferred with
         | Some target => (tick x, Some target)
         | None => (tick x, picked)
         end in
  '(x, success) ← fallback_loop endpoints fuel x o;
  x ← store_attempts x;
  if success : bool then Done (x, x_resp x, None)
  else
    let problems :=
      match x_err x, x_resp x with
      | false, Some r => x_problems x ++ [PFailedWith (resp_StatusCode r)]
      | false, None => x_problems x ++ [PNoResponse]
      | true, _ => x_problems x
      end in
    Done (x, x_resp x, match problems with [] => None | _ => Some problems end).

End proxy.

(** ** The filter *)

Definition source_of (r : response) : source_response := SourceHTTP (resp_StatusCode r) (resp_streamable r) (resp_body r).

Definition start (s : cooldownStore) (h : list critical) (hc : HttpContext params) (p : payload) : exec :=
  mkExec hc p s h [] 0 None false [] [].

(** The outcome of the execution, for the client. *)
Definition conclude (ErrorJSON : Z → list problem → string) (x : exec) (resp : option response) (err : option (list problem)) :
    run (exec * FilterStatus) :=
  match err, resp with
  | Some problems, _ =>
      if url_error_timeout problems then Done (with_hc x (SendLocalReply (x_hc x) 504 (ErrorJSON 504%Z problems)), Continue)
      else match resp with
           | None => Done (with_hc x (SendLocalReply (x_hc x) 503 (ErrorJSON 503%Z problems)), Continue)
           | Some r => Done (with_hc x (set_source (x_hc x) (source_of r)), Continue)
           end
  | None, Some r => Done (with_hc x (set_source (x_hc x) (source_of r)), Continue)
  | None, None => Panicked
  end.

(** [Execute] is the execution for the cluster of the route.  The cooldown store
    [s], with its log [h], is shared by all filters. *)
Definition Decode (ErrorJSON : Z → list problem → string)
    (Execute : string → exec → run (exec * option response * option (list problem)))
    (s : cooldownStore) (h : list critical) (p : payload) (hc : HttpContext params) : run (exec * FilterStatus) :=
  match hc_Route hc with
  | None => Done (start s h (SendLocalReply hc 400 (ErrorJSON 400%Z [])) p, Stop)
  | Some cluster =>
      match prepareRequestBody p with
      | None => Done (start s h (SendLocalReply hc 500 (ErrorJSON 500%Z [])) p, Stop)
      | Some p =>
          '(x, resp, err) ← Execute cluster (start s h hc p);
          conclude ErrorJSON x resp err
      end
  end.

(** ** What an execution does *)

(** The request as the client sent it. *)
Definition request_of (x : exec) : string * string * string * option string :=
  (GoHttp.req_Method (hc_Request (x_hc x)), GoHttp.req_Path (hc_Request (x_hc x)), pl_RawQuery (x_payload x), pl_GetBody (x_payload x)).

Definition rereadable (x : exec) : Prop := pl_GetBody (x_payload x) = None → pl_Body (x_payload x) = None.

Definition sent_of (r : sent) : string * string * string * option string :=
  (sent_Method r, sent_Path r, sent_RawQuery r, sent_Body r).

(** An endpoint that was asked: the attempts, and when it was found to fail. *)
Record visit : Type := mkVisit {
  v_endpoint : Endpoint;
  v_attempts : list UpstreamAttempt;
  v_failed_at : option Z;
}.

Definition of_endpoint (clusterName : string) (e : Endpoint) (a : UpstreamAttempt) : Prop :=
  ua_EndpointID a = EID e ∧ ua_EndpointAddress a = GetAddress (EAddress e) ∧ ua_ClusterName a = clusterName.

(** The attempts [new] at the endpoint [e] lead from [x] to [x']. *)
Record asked (clusterName : string) (x : exec) (e : Endpoint) (new : list UpstreamAttempt) (x' : exec) : Prop := {
  asked_attempts : x_attempts x' = x_attempts x ++ new;
  asked_endpoint : Forall (of_endpoint clusterName e) new;
  asked_sent : ∃ rs, x_sent x' = x_sent x ++ rs ∧ map sent_Host rs = map ua_EndpointAddress new ∧
    Forall (λ r, sent_of r = request_of x) rs;
  asked_request : request_of x' = request_of x;
  asked_rereadable : rereadable x';
  asked_params : hc_Params (x_hc x') = hc_Params (x_hc x);
  asked_store : x_store x' = x_store x ∧ x_sections x' = x_sections x;
  asked_problems : ∃ ps, x_problems x' = x_problems x ++ ps ∧ (x_err x = false → x_err x' = true → ps ≠ []);
}.

Definition failed (a : UpstreamAttempt) : Prop := ua_Success a = false.

(** The response at hand is not a successful one. *)
Definition unsuccessful (x : exec) : Prop := ∀ r, x_resp x = Some r → IsHTTPRespSuccessful (resp_StatusCode r) = false.

(** How the retry loop ends. *)
Definition ended (x x' : exec) (success : bool) (new : list UpstreamAttempt) : Prop :=
  if success then ∃ pre a r, new = pre ++ [a] ∧ Forall failed pre ∧ ua_Success a = true ∧ x_err x' = false ∧
    x_resp x' = Some r ∧ resp_StatusCode r = ua_StatusCode a ∧ IsHTTPRespSuccessful (resp_StatusCode r) = true
  else Forall failed new ∧ (unsuccessful x → unsuccessful x').

Lemma NoDup_cut {A} (l1 l2 l1' l2' : list A) a : NoDup (l1 ++ a :: l2) → l1 ++ a :: l2 = l1' ++ a :: l2' → l2 = l2'.
Proof.
  revert l1'. induction l1 as [|b l1 IH]; intros [|b' l1'] Hnd Heq; simpl in *; [by injection Heq|injection Heq as Hb Heq..].
  - subst b' l2. apply NoDup_cons in Hnd as [Hn _]. set_solver.
  - subst b. apply NoDup_cons in Hnd as [Hn _]. set_solver.
  - apply NoDup_cons in Hnd as [_ Hnd]. by eapply IH.
Qed.

Section executing.
Context {CH : Type}.
Context (range : gmap cooldownKey nat → list (cooldownKey * nat)).
Context (DecodeConfig : option (gmap string any) → ExponentialBackoffConfig → option ExponentialBackoffConfig).
Context (ParseDuration : string → option Z).
Context (NewRequest_error : string → string → string → option bool).
Context (now : nat → Z).
Context (others : nat → list critical).
Context (managers : nat → ClusterManager CH).
Context (upstream : nat → sent → answer).
Context (unread : nat → string).
Context (scheme clusterName : string).
Implicit Types (x : exec) (e : Endpoint).

#[local] Abbreviation retries := (retry_loop NewRequest_error upstream unread scheme clusterName).
#[local] Abbreviation assemble := (assembleRequest NewRequest_error scheme).

Lemma asked_refl x e : rereadable x → asked clusterName x e [] x.
Proof.
  intros Hr. split; try done.
  - by rewrite app_nil_r.
  - exists []. by rewrite app_nil_r.
  - exists []. rewrite app_nil_r. split; [done|congruence].
Qed.

Lemma asked_trans x e l1 y l2 z : asked clusterName x e l1 y → x_err y = false → asked clusterName y e l2 z → asked clusterName x e (l1 ++ l2) z.
Proof.
  intros [H1 H2 (rs1 & H3 & H3a & H3b) H4 H5 H6 [H7 H7'] (ps1 & H8 & H8')] Hy
    [K1 K2 (rs2 & K3 & K3a & K3b) K4 K5 K6 [K7 K7'] (ps2 & K8 & K8')]. split.
  - by rewrite K1, H1, app_assoc.
  - by apply Forall_app.
  - exists (rs1 ++ rs2). rewrite K3, H3, app_assoc, !map_app, H3a, K3a. split_and!; [done|done|]. apply Forall_app. split; [done|].
    by rewrite <- H4.
  - congruence.
  - done.
  - congruence.
  - split; congruence.
  - exists (ps1 ++ ps2). rewrite K8, H8, app_assoc. split; [done|]. intros _ Hz [-> ->]%app_nil. by apply K8'.
Qed.

(** One request, up to its answer. *)
Lemma assemble_spec x e m : ELLMMeta e = Some m → rereadable x →
  ∃ y, asked clusterName x e [] y ∧ x_err y = x_err x ∧ x_resp y = x_resp x ∧
    ((∃ b, assemble x e = Done (y, Err b)) ∨
     ∃ r, assemble x e = Done (y, Ok r) ∧ sent_of r = request_of x ∧ sent_Host r = GetAddress (EAddress e)).
Proof.
  intros Hm Hr. unfold assembleRequest. rewrite Hm. set (p := match pl_GetBody (x_payload x) with Some _ => _ | None => _ end).
  assert (pl_RawQuery p = pl_RawQuery (x_payload x) ∧ pl_GetBody p = pl_GetBody (x_payload x) ∧ pl_Body p = pl_GetBody (x_payload x)) as (Hq & Hg & Hb).
  { unfold p. destruct (pl_GetBody (x_payload x)) eqn:E; simpl; [by auto|]. by rewrite (Hr E), E. }
  assert (∀ hc, GoHttp.req_Method (hc_Request hc) = GoHttp.req_Method (hc_Request (x_hc x)) →
    GoHttp.req_Path (hc_Request hc) = GoHttp.req_Path (hc_Request (x_hc x)) → hc_Params hc = hc_Params (x_hc x) →
    asked clusterName x e [] (set_client x hc p)) as Hasked.
  { intros hc H1 H2 H3. split; simpl; try done.
    - by rewrite app_nil_r.
    - exists []. by rewrite app_nil_r.
    - unfold request_of. simpl. by rewrite Hq, Hg, H1, H2.
    - unfold rereadable. simpl. rewrite Hg, Hb. done.
    - exists []. rewrite app_nil_r. split; [done|congruence]. }
  destruct (NewRequest_error _ _ _) as [b|].
  - eexists. split_and!; [by apply Hasked|done|done|left; by exists b].
  - refine (ex_intro _ _ (conj _ (conj _ (conj _ (or_intror (ex_intro _ _ (conj eq_refl _))))))); [by apply Hasked|done|done|].
    split; [|done]. unfold sent_of, request_of. simpl. by rewrite Hq, Hb.
Qed.

(** The answer, recorded with an attempt. *)
Lemma Do_spec x e r a (o : option response) err ps : rereadable x → x_err x = false → sent_of r = request_of x →
  sent_Host r = GetAddress (EAddress e) → of_endpoint clusterName e a → (err = true → ps ≠ []) →
  let y := (Do upstream unread x r).1 in
  asked clusterName x e [a]
    (mkExec (x_hc y) (x_payload y) (x_store y) (x_sections y) (x_sent y) (x_moment y) o err (x_attempts y ++ [a]) (x_problems y ++ ps)).
Proof.
  intros Hr Hx Hs Hh Ha Hps. split; simpl; try done.
  - by constructor.
  - exists [r]. split_and!; [done| |by constructor]. simpl. rewrite Hh. by destruct Ha as (_ & <- & _).
  - unfold rereadable in *. simpl. intros Hg. by rewrite (Hr Hg).
  - exists ps. auto.
Qed.

Lemma retry_loop_spec fuel x e p m : ELLMMeta e = Some m → rereadable x → x_err x = false →
  policy_ok p → (0 ≤ left p < Z.of_nat fuel)%Z →
  ∃ x' b new, retries fuel x e p = Done (x', b) ∧ asked clusterName x e new x' ∧ (Z.of_nat (length new) ≤ left p)%Z ∧ ended x x' b new.
Proof.
  intros Hm. revert x p. induction fuel as [|fuel IH]; intros x p Hr Hx Hok Hl; [lia|]. cbn [retry_loop].
  destruct (decide (0 < left p)%Z) as [Hp|Hp].
  2: { rewrite attempt_refused by (done || lia). cbn [negb]. exists x, false, []. split_and!; [done|by apply asked_refl|cbn [length]; lia|by split]. }
  destruct (attempt_granted p Hok Hp) as (p' & -> & Hok' & Hl' & _). cbn [negb].
  destruct (assemble_spec x e m Hm Hr) as (y & Hy & Hey & Hry & Hcase). pose proof (asked_rereadable _ _ _ _ _ Hy) as Hrr.
  destruct Hcase as [(b & ->)|(r & -> & Hs & Hh)]; cbn [mbind run_mbind].
  { eexists _, false, []. split_and!; [done| |cbn [length]; lia|split; [done|]; unfold unsuccessful; simpl; by rewrite Hry]. rewrite <- (app_nil_r []).
    eapply asked_trans; [exact Hy|congruence|]. split; simpl; try done; [by rewrite app_nil_r|exists []; by rewrite app_nil_r|]. by eexists. }
  destruct (Do upstream unread y r) as [z a] eqn:Ez. assert (z = (Do upstream unread y r).1) as Hz by by rewrite Ez.
  assert (∀ at' o err ps, of_endpoint clusterName e at' → (err = true → ps ≠ []) → asked clusterName x e [at']
    (mkExec (x_hc z) (x_payload z) (x_store z) (x_sections z) (x_sent z) (x_moment z) o err (x_attempts z ++ [at']) (x_problems z ++ ps))) as Hone.
  { intros at' o err ps Ha Hps. rewrite Hz. apply (asked_trans x e [] y [at']); [done|congruence|].
    apply Do_spec; [done|congruence| |done|done|done]. by rewrite (asked_request _ _ _ _ _ Hy). }
  destruct a as [timeout|status streamable body].
  - eexists _, false, _. split_and!; [done|by apply Hone|cbn [length]; lia|split; [by repeat constructor|done]].
  - destruct (IsHTTPRespSuccessful status) eqn:Es.
    + eexists _, true, [new_attempt clusterName e true status ""]. split_and!; [done| |cbn [length]; lia|].
      * unfold add_attempt, set_result. simpl. rewrite <- (app_nil_r (x_problems z)) at 1. by apply Hone.
      * exists [], (new_attempt clusterName e true status ""), (mkResponse status streamable body). by split_and!.
    + edestruct (IH (add_attempt (add_problem (set_result z (Some (mkResponse status streamable body)) false) (PStatus (EID e) status))
        (new_attempt clusterName e false status "status_code_error")) p') as (x' & b & new & -> & Hask & Hlen & Hend); [|done|done|lia|].
      { eapply asked_rereadable, Hone; done. }
      eexists _, _, _. split_and!; [done|eapply asked_trans; [| |exact Hask]; [by apply Hone|done]|cbn [app length]; lia|].
      destruct b; simpl in *; [|destruct Hend as [Hf Hu]; split; [by constructor|intros _; apply Hu; by intros ? [= <-]]].
      destruct Hend as (pre & a & r' & -> & Hpre & H). exists (new_attempt clusterName e false status "status_code_error" :: pre), a, r'.
      split_and!; [done|by constructor|apply H..].
Qed.
(** *** The fallback loop *)

Context (interval : cooldownKey → Z).
Context (others_rightful : ∀ i, Forall (rightful interval) (others i)).
Context (DecodeConfig_uint : ∀ config defaults cfg, DecodeConfig config defaults = Some cfg → (0 ≤ ebc_Times cfg < 2 ^ 64)%Z).

Definition retries_of e : Z :=
  match ELLMMeta e with Some m => configured_retries DecodeConfig (RetryPolicyOf m) | None => 0 end.

Definition llm_ready (fuel : nat) e : Prop :=
  (∃ m, ELLMMeta e = Some m ∧ int_config (RetryPolicyOf m)) ∧ (retries_of e < 2 ^ 64 - 1)%Z ∧
  (1 + retries_of e < Z.of_nat fuel)%Z ∧ interval (newCooldownKey clusterName e) = endpointCooldownInterval e.

(** An endpoint is asked as often as it is configured, at most; it is marked
    when none of the attempts was successful. *)
Definition visit_ok (h : list critical) (v : visit) : Prop :=
  Forall (of_endpoint clusterName (v_endpoint v)) (v_attempts v) ∧
  (Z.of_nat (length (v_attempts v)) ≤ 1 + retries_of (v_endpoint v))%Z ∧
  ∀ t, v_failed_at v = Some t →
    Forall failed (v_attempts v) ∧
    ∃ n, Mark (newCooldownKey clusterName (v_endpoint v)) (endpointCooldownInterval (v_endpoint v)) t n ∈ h.

Record progressed x (visits : list visit) x' : Prop := {
  pr_attempts : x_attempts x' = x_attempts x ++ concat (map v_attempts visits);
  pr_sent : ∃ rs, x_sent x' = x_sent x ++ rs ∧ map sent_Host rs = map ua_EndpointAddress (concat (map v_attempts visits)) ∧
    Forall (λ r, sent_of r = request_of x) rs;
  pr_request : request_of x' = request_of x;
  pr_rereadable : rereadable x → rereadable x';
  pr_params : is_Some (hc_Params (x_hc x)) → is_Some (hc_Params (x_hc x'));
  pr_log : ∃ h, x_sections x' = h ++ x_sections x ∧ x_store x' = foldr (perform range) (x_store x) h ∧ Forall (rightful interval) h;
  pr_visits : Forall (visit_ok (x_sections x')) visits;
  pr_resp : unsuccessful x → unsuccessful x' ∨ Exists (λ v, v_failed_at v = None) visits;
  pr_err : (x_err x = true → x_problems x ≠ []) → x_err x' = true → x_problems x' ≠ [];
}.

Lemma progressed_refl x : progressed x [] x.
Proof. split; try done; [by rewrite app_nil_r|exists []; by rewrite app_nil_r|by exists []|by left]. Qed.

Lemma visit_ok_grows h h' v : visit_ok h v → visit_ok (h' ++ h) v.
Proof. intros (H1 & H2 & H3). split_and!; [done|done|]. intros t Ht. destruct (H3 t Ht) as [Hf [n Hn]]. split; [done|]. exists n. apply elem_of_app. by right. Qed.

Lemma progressed_trans x v1 y v2 z : progressed x v1 y → progressed y v2 z → progressed x (v1 ++ v2) z.
Proof using.
  intros [H1 (rs1 & H2 & H2a & H2b) H3 H4 H5 (h1 & H6 & H6a & H6b) H7 H9 H8]
    [K1 (rs2 & K2 & K2a & K2b) K3 K4 K5 (h2 & K6 & K6a & K6b) K7 K9 K8].
  split; try by auto.
  - by rewrite K1, H1, map_app, concat_app, app_assoc.
  - exists (rs1 ++ rs2). rewrite K2, H2, app_assoc, !map_app, concat_app, map_app, H2a, K2a. split_and!; [done|done|].
    apply Forall_app. split; [done|by rewrite <- H3].
  - by rewrite K3.
  - exists (h2 ++ h1). rewrite K6, H6, app_assoc, K6a, H6a, foldr_app. split_and!; [done|done|by apply Forall_app].
  - apply Forall_app. split; [|done]. rewrite K6. eapply Forall_impl; [done|]. intros v. apply visit_ok_grows.
  - intros Hx. rewrite Exists_app. destruct (H9 Hx) as [Hy|]; [destruct (K9 Hy)|]; auto.
Qed.

(** States that only differ in what the loops do not keep. *)
Lemma progressed_set x h moment err problems params' :
  Forall (rightful interval) h → (is_Some (hc_Params (x_hc x)) → is_Some params') →
  ((x_err x = true → x_problems x ≠ []) → err = true → problems ≠ []) →
  progressed x [] (mkExec (with_Params (x_hc x) params') (x_payload x) (foldr (perform range) (x_store x) h) (h ++ x_sections x)
    (x_sent x) moment (x_resp x) err (x_attempts x) problems).
Proof. intros H1 H2 H3. split; simpl; try done; [by rewrite app_nil_r|exists []; by rewrite app_nil_r|by exists h|by left]. Qed.

Lemma section_progress x c : rightful interval c → progressed x [] (section range (lock range others x) c).
Proof using others_rightful.
  intros Hc. pose proof (progressed_set x (c :: others (x_moment x)) (S (x_moment x)) (x_err x) (x_problems x) (hc_Params (x_hc x))) as H.
  destruct x as [[] ? ? ? ? ? ? ? ? ?]. apply H; [constructor; [done|apply others_rightful]|done|done].
Qed.

Lemma tick_progress x : progressed x [] (tick x).
Proof.
  pose proof (progressed_set x [] (S (x_moment x)) (x_err x) (x_problems x) (hc_Params (x_hc x))) as H.
  destruct x as [[] ? ? ? ? ? ? ? ? ?]. apply H; [by constructor|done|done].
Qed.

#[local] Abbreviation in_cooldown := (endpointInCooldown range now others clusterName).

Lemma in_cooldown_progress x e : interval (newCooldownKey clusterName e) = endpointCooldownInterval e → progressed x [] (in_cooldown x e).1.
Proof using others_rightful.
  intros Hi. unfold endpointInCooldown. set (key := newCooldownKey clusterName e) in *. set (ttl := endpointCooldownInterval e) in *.
  set (y := section range (lock range others x) _). assert (progressed x [] y) as Hy by by apply section_progress.
  destruct (lastFailureWithCurrentTTL _ _ _ _ _).2 as [[t d]|] eqn:E; [|done]. apply lookup_ttl in E as ->.
  case_decide as Hd; simpl; [eapply (progressed_trans _ [] _ []); [exact Hy|apply tick_progress]|].
  eapply (progressed_trans _ [] _ []); [exact Hy|]. eapply (progressed_trans _ [] _ []); [apply tick_progress|].
  apply section_progress. cbn [rightful]. rewrite Hi. change (x_moment y) with (S (x_moment x)) in Hd. clear - Hd. lia.
Qed.
Lemma asked_progress x e new y : asked clusterName x e new y → x_err x = false → (Z.of_nat (length new) ≤ 1 + retries_of e)%Z →
  progressed x [mkVisit e new None] y.
Proof.
  intros [H1 H2 H3 H4 H5 H6 [H7 H7'] (ps & H8 & H8')] Hx Hlen. split; simpl; try done.
  - by rewrite app_nil_r.
  - by rewrite app_nil_r.
  - by rewrite H6.
  - exists []. simpl. by rewrite H7, H7'.
  - repeat constructor; done.
  - right. by constructor.
  - intros _ Hy. rewrite H8. intros [_ ->]%app_nil. by apply H8'.
Qed.

#[local] Abbreviation mark := (markEndpointCooldown range now others clusterName).

Lemma failed_progress x e new y :
  interval (newCooldownKey clusterName e) = endpointCooldownInterval e → Forall failed new → (unsuccessful x → unsuccessful y) →
  progressed x [mkVisit e new None] y → progressed x [mkVisit e new (Some (now (x_moment y)))] (mark y e).
Proof using others_rightful.
  intros Hi Hf Hu Hxy. set (c := Mark (newCooldownKey clusterName e) (endpointCooldownInterval e) (now (x_moment y)) (now (S (x_moment y)))).
  assert (progressed y [] (mark y e)) as Hm.
  { pose proof (progressed_set y (c :: others (x_moment y)) (S (S (x_moment y))) (x_err y) (x_problems y) (hc_Params (x_hc y))) as H.
    destruct y as [[] ? ? ? ? ? ? ? ? ?]. apply H; [constructor; [done|apply others_rightful]|done|done]. }
  destruct (progressed_trans x _ y [] (mark y e) Hxy Hm) as [H1 H2 H3 H4 H5 H6 H7 _ H8]. rewrite app_nil_r in *. split; try done.
  2: { intros Hx. left. intros r Hr. by apply (Hu Hx). }
  apply Forall_singleton in H7 as (K1 & K2 & _). apply Forall_singleton. split_and!; [done|done|]. intros t [= <-]. split; [done|].
  exists (now (S (x_moment y))). constructor.
Qed.

(** *** The endpoints of the cluster

    Their identities stay the same while the request is served; their health may
    change. *)

Context (ids : list string) (fuel : nat).
Context (managers_ids : ∀ i, ∃ rt, getRuntimeCluster (managers i) clusterName = Some rt ∧
  (∃ InitMap, snapshot_wf InitMap (endpoints rt)) ∧ map EID (all (endpoints rt)) = ids ∧ Forall (llm_ready fuel) (all (endpoints rt))).

Definition placed (o : option Endpoint) (rest : list string) : Prop :=
  match o with
  | None => rest = []
  | Some e => llm_ready fuel e ∧ ∃ pre post, ids = pre ++ EID e :: post ∧ rest = EID e :: post
  end.

Lemma ids_NoDup : NoDup ids.
Proof using managers_ids. destruct (managers_ids 0) as (rt & _ & [InitMap Hwf] & <- & _). apply (wf_ids _ _ Hwf). Qed.

Lemma next_placed i e post pre : ids = pre ++ EID e :: post →
  ∃ rest, placed (PickNextEndpoint (managers i) clusterName (EID e)) rest ∧ rest `sublist_of` post.
Proof using managers_ids.
  intros Hids. pose proof ids_NoDup as Hnd. destruct (managers_ids i) as (rt & Hrt & [InitMap Hwf] & Hall & Hready).
  unfold PickNextEndpoint. rewrite Hrt. simpl. pose proof (NextHealthyEndpoint_spec _ (endpoints rt) (EID e) Hwf) as Hnext.
  destruct (NextHealthyEndpoint _ _) as [e'|]; [|exists []; split; [done|apply sublist_nil_l]].
  destruct Hnext as (l1 & y & l2 & l3 & Hl & Hy & _). rewrite Hl, map_app, map_cons, map_app, map_cons, Hy in Hall.
  assert (map EID l2 ++ EID e' :: map EID l3 = post) as Hpost.
  { eapply (NoDup_cut (map EID l1)); [by rewrite Hall|]. by rewrite Hall. }
  exists (EID e' :: map EID l3). split.
  - split; [rewrite Forall_forall in Hready; apply Hready; rewrite Hl; by repeat (rewrite elem_of_app || rewrite elem_of_cons); auto 10|].
    exists (pre ++ EID e :: map EID l2), (map EID l3). split; [|done]. by rewrite Hids, <- Hpost, <- app_assoc.
  - rewrite <- Hpost. by apply sublist_inserts_l.
Qed.
#[local] Abbreviation fallbacks := (fallback_loop range DecodeConfig ParseDuration NewRequest_error now others managers upstream unread scheme clusterName).
#[local] Abbreviation next_endpoint := (getNextFallbackEndpoint managers clusterName).

Definition visited_ids (visits : list visit) : list string := map (λ v, EID (v_endpoint v)) visits.

(** All visits failed, but for the last one of a successful execution. *)
Definition finished x' (success : bool) (visits : list visit) : Prop :=
  if success then ∃ vs v, visits = vs ++ [v] ∧ Forall (λ v, is_Some (v_failed_at v)) vs ∧ (∃ x, ended x x' true (v_attempts v))
  else Forall (λ v, is_Some (v_failed_at v)) visits.

Definition loop_ok (rest : list string) x (r : run (exec * bool)) : Prop :=
  ∃ x' b visits, r = Done (x', b) ∧ progressed x visits x' ∧ visited_ids visits `sublist_of` rest ∧ finished x' b visits.

Lemma fall_back n x vs y e m pre post :
  (∀ y o rest, placed o rest → length rest ≤ n → rereadable y → loop_ok rest y (fallbacks n fuel y o)) →
  ELLMMeta e = Some m → ids = pre ++ EID e :: post → length post ≤ n → rereadable x →
  progressed x vs y → Forall (λ v, is_Some (v_failed_at v)) vs → visited_ids vs `sublist_of` [EID e] →
  loop_ok (EID e :: post) x ('(z, o) ← next_endpoint y e; fallbacks n fuel z o).
Proof using managers_ids.
  intros IH Hm Hids Hlen Hr Hy Hfailed Hsub.
  assert (∃ z o rest, next_endpoint y e = Done (z, o) ∧ progressed y [] z ∧ placed o rest ∧ rest `sublist_of` post) as (z & o & rest & -> & Hz & Ho & Hrest).
  { unfold getNextFallbackEndpoint. rewrite Hm. destruct (Fallback m); simpl.
    - destruct (next_placed (x_moment y) e post pre Hids) as (rest & H1 & H2). eexists _, _, rest. split_and!; [done|apply tick_progress|done|done].
    - eexists _, None, []. split_and!; [done|apply progressed_refl|done|apply sublist_nil_l]. }
  pose proof (progressed_trans _ _ _ _ _ Hy Hz) as Hxz. rewrite app_nil_r in Hxz. cbn [mbind run_mbind].
  destruct (IH z o rest Ho) as (x' & b & visits & -> & Hx' & Hs & Hfin).
  { apply sublist_length in Hrest. lia. } { by eapply pr_rereadable. }
  exists x', b, (vs ++ visits). split_and!; [done|by eapply progressed_trans| |].
  - unfold visited_ids in *. rewrite map_app. apply (sublist_app _ [EID e] _ post); [done|by etrans].
  - destruct b; simpl in *; [|by apply Forall_app]. destruct Hfin as (ws & v & -> & Hws & Hv). exists (vs ++ ws), v.
    split_and!; [by rewrite app_assoc|by apply Forall_app|done].
Qed.

Lemma fallback_loop_spec n x o rest : placed o rest → length rest ≤ n → rereadable x → loop_ok rest x (fallbacks n fuel x o).
Proof using managers_ids others_rightful DecodeConfig_uint.
  revert x o rest. induction n as [|n IH]; intros x o rest Ho Hn Hr.
  { destruct o as [e|]; [destruct Ho as (_ & ? & ? & _ & ->); simpl in Hn; lia|]. exists x, false, [].
    split_and!; [done|apply progressed_refl|apply sublist_nil_l|by constructor]. }
  destruct o as [e|]; [|exists x, false, []; split_and!; [done|apply progressed_refl|apply sublist_nil_l|by constructor]].
  destruct Ho as (((m & Hm & Hint) & Hmax & Hfuel & Hint') & pre & post & Hids & ->). simpl in Hn. cbn [fallback_loop].
  assert (progressed x [] (make_params x)) as Hp.
  { unfold make_params. destruct (hc_Params (x_hc x)) eqn:E; [apply progressed_refl|].
    pose proof (progressed_set x [] (x_moment x) (x_err x) (x_problems x) (Some ∅)) as H. apply H; [by constructor|done|done]. }
  pose proof (progressed_trans _ _ _ _ _ Hp (in_cooldown_progress (make_params x) e Hint')) as Hy.
  destruct (in_cooldown (make_params x) e) as [y skip]. simpl in Hy.
  pose proof (pr_rereadable _ _ _ Hy Hr) as Hry.
  destruct skip; [by eapply (fall_back n x []); eauto using sublist_nil_l with lia|]. rewrite Hm.
  destruct (GetRetryPolicy DecodeConfig ParseDuration (RetryPolicyOf m)) as [r|err] eqn:Er.
  2: { eapply (fall_back n x []); try done; [lia| |apply sublist_nil_l]. eapply (progressed_trans _ [] _ []); [exact Hy|].
       pose proof (progressed_set y [] (x_moment y) true (x_problems y ++ [PPolicy (EID e) err]) (hc_Params (x_hc y))) as H.
       destruct y as [[] ? ? ? ? ? ? ? ? ?]. apply H; [by constructor|done|]. by intros _ _ [_ ?]%app_nil. }
  assert (retries_of e = configured_retries DecodeConfig (RetryPolicyOf m)) as Hret by (unfold retries_of; by rewrite Hm).
  destruct (loaded_policy DecodeConfig ParseDuration DecodeConfig_uint _ r Hint Er) as (Hok & Hb & H0); [by rewrite <- Hret|].
  destruct (policy_reset r Hok) as (Hok' & Hl & _).
  set (y' := set_result y (x_resp y) false).
  assert (progressed x [] y') as Hy'.
  { eapply (progressed_trans _ [] _ []); [exact Hy|]. pose proof (progressed_set y [] (x_moment y) false (x_problems y) (hc_Params (x_hc y))) as H.
    unfold y'. destruct y as [[] ? ? ? ? ? ? ? ? ?]. apply H; [by constructor|done|done]. }
  destruct (retry_loop_spec fuel y' e (Retry.Reset r) m Hm Hry eq_refl Hok') as (z & b & new & -> & Hask & Hlen & Hend);
    [rewrite Hl, Hb, <- Hret; lia|]. cbn [mbind run_mbind].
  rewrite Hl, Hb, <- Hret in Hlen. pose proof (asked_progress _ _ _ _ Hask eq_refl Hlen) as Hz.
  pose proof (progressed_trans _ [] _ _ _ Hy' Hz) as Hxz. simpl in Hxz. destruct b.
  - exists z, true, [mkVisit e new None]. split_and!; [done|done|simpl; apply sublist_skip, sublist_nil_l|].
    exists [], (mkVisit e new None). split_and!; [done|by constructor|by exists y'].
  - destruct Hend as [Hf Hu]. apply (failed_progress _ _ _ _ Hint' Hf) in Hxz; [|intros Hx; apply Hu; by destruct (pr_resp _ _ _ Hy' Hx) as [|[]%Exists_nil]]. eapply (fall_back n x [_]); try done; [lia|by repeat constructor].
Qed.
(** ** The theorems *)

#[local] Abbreviation execute := (Execute range DecodeConfig ParseDuration NewRequest_error now others managers upstream unread scheme clusterName).

Definition fresh x : Prop :=
  is_Some (hc_Params (x_hc x)) ∧ rereadable x ∧ x_sent x = [] ∧ x_resp x = None ∧ x_err x = false ∧ x_attempts x = [] ∧ x_problems x = [].

Definition pick_ready (picked : option Endpoint) : Prop := ∀ e, picked = Some e → EID e ∈ ids ∧ llm_ready fuel e.

Lemma picked_placed picked : pick_ready picked → ∃ rest, placed picked rest ∧ rest `sublist_of` ids.
Proof using.
  intros Hp. destruct picked as [e|]; [|exists []; split; [done|apply sublist_nil_l]].
  destruct (Hp e eq_refl) as [(pre & post & Hids)%list_elem_of_split Hr]. exists (EID e :: post).
  split; [split; [done|by exists pre, post]|]. rewrite Hids. by apply sublist_inserts_l.
Qed.

Lemma preferred_ready i id e : GetHealthyEndpointByID (managers i) clusterName id = Some e → pick_ready (Some e).
Proof using managers_ids.
  unfold GetHealthyEndpointByID. destruct (managers_ids i) as (rt & -> & [InitMap Hwf] & Hall & Hready). simpl.
  unfold HealthyEndpointByID. rewrite (wf_healthyEndpoint _ _ Hwf). intros (e' & He' & Hh)%bind_Some e0 [= <-].
  case_match; [|done]. injection Hh as ->. apply find_id_Some in He' as [Hin _]. split.
  - rewrite <- Hall. by apply list_elem_of_fmap_2.
  - rewrite Forall_forall in Hready. by apply Hready.
Qed.

Lemma execute_runs n x picked : pick_ready picked → length ids ≤ n → fresh x →
  ∃ y x' b visits resp err, execute n fuel x picked = Done (x', resp, err) ∧ progressed x visits y ∧ finished y b visits ∧
    visited_ids visits `sublist_of` ids ∧
    (∃ m, x' = with_hc y (with_Params (x_hc y) (Some m)) ∧ m !! LLMUpstreamAttemptsKey = Some (ParamAttempts (x_attempts y))) ∧
    resp = x_resp y ∧ (err = None ↔ b = true).
Proof using managers_ids others_rightful DecodeConfig_uint.
  intros Hp Hn (Hpar & Hr & Hsent & _ & Herr & Hat & Hpr). unfold Execute.
  set (first := if decide _ then _ else _).
  assert (∃ x1 o, first = (x1, o) ∧ progressed x [] x1 ∧ pick_ready o) as (x1 & o & -> & Hx1 & Ho).
  { unfold first. case_decide; [by eexists _, _; eauto using progressed_refl|].
    destruct (GetHealthyEndpointByID _ _ _) as [e|] eqn:E; eexists _, _; (split_and!; [done|apply tick_progress|]); [by eapply preferred_ready|done]. }
  destruct (picked_placed o Ho) as (rest & Hrest & Hsub).
  destruct (fallback_loop_spec n x1 o rest Hrest) as (y & b & visits & -> & Hy & Hids & Hfin).
  { apply sublist_length in Hsub. lia. } { by eapply pr_rereadable. }
  pose proof (progressed_trans _ [] _ _ _ Hx1 Hy) as Hxy. cbn [mbind run_mbind]. unfold store_attempts.
  destruct (pr_params _ _ _ Hxy Hpar) as [m Hm]. rewrite Hm. cbn [mbind run_mbind].
  assert (x_err y = true → x_problems y ≠ []) as Hprob by (eapply (pr_err _ _ _ Hxy); congruence).
  destruct b; (eexists y, _, _, visits, _, _; split_and!; [done|done|done|by etrans| |done|]);
    try (eexists; split; [done|by rewrite lookup_insert_eq]); [done|].
  simpl. split; [|done]. destruct (x_err y); [destruct (x_problems y); [by destruct Hprob|done]|].
  by destruct (x_resp y), (x_problems y).
Qed.
(** An endpoint that was asked and failed. *)
Lemma finished_attempts x y b visits : fresh x → progressed x visits y → finished y b visits →
  x_attempts y = concat (map v_attempts visits) ∧
  if b then ended x y true (x_attempts y) else Forall failed (x_attempts y) ∧ unsuccessful y.
Proof using.
  intros (_ & _ & _ & Hresp & _ & Hat & _) Hp Hfin. pose proof (pr_attempts _ _ _ Hp) as Ha. rewrite Hat in Ha. simpl in Ha.
  split; [done|]. pose proof (pr_visits _ _ _ Hp) as Hv.
  assert (∀ vs, Forall (visit_ok (x_sections y)) vs → Forall (λ v, is_Some (v_failed_at v)) vs → Forall failed (concat (map v_attempts vs))) as Hall.
  { induction 1 as [|v vs (_ & _ & H) _ IH]; [by constructor|]. intros [[t Ht] Hvs]%Forall_cons. simpl. apply Forall_app. split; [by eapply H|by apply IH]. }
  rewrite Ha. destruct b; simpl in Hfin.
  - destruct Hfin as (vs & v & -> & Hvs & x0 & pre & a & r & Hpre & H). apply Forall_app in Hv as [Hv _].
    exists (concat (map v_attempts vs) ++ pre), a, r. rewrite map_app, concat_app. simpl. rewrite Hpre, app_nil_r, app_assoc.
    destruct H as [Hf H]. split_and!; [done|apply Forall_app; by auto|apply H..].
  - split; [by apply Hall|]. destruct (pr_resp _ _ _ Hp) as [|He]; [intros r; by rewrite Hresp|done|]. exfalso.
    apply Exists_exists in He as (v & Hin & Hn). rewrite Forall_forall in Hfin. destruct (Hfin v Hin) as [t Ht]. congruence.
Qed.

(** *** Cooldowns work across requests *)

Context (Hrange : ∀ m, range m ≡ₚ map_to_list m).

(** What a request sees that locks the store [later]. *)
Lemma marked_skipped h e t n now' others' y :
  let z := lock range others' y in
  let key := newCooldownKey clusterName e in
  x_store z = replay range h → x_sections z = h → Forall (rightful interval) h →
  Mark key (endpointCooldownInterval e) t n ∈ h → chronicle h (now' (x_moment y)) →
  (now' (x_moment y) ≤ now' (S (x_moment y)))%Z → (now' (S (x_moment y)) - t < endpointCooldownInterval e)%Z →
  size (marked_since key h) < 1024 →
  (endpointInCooldown range now' others' clusterName y e).2 = true.
Proof using Hrange.
  intros z key Hs Hh Hright Hmark Hchron Hle Hlt Hsize. assert (endpointCooldownInterval e = interval key) as Hi.
  { rewrite Forall_forall in Hright. apply (Hright _ Hmark). }
  destruct (last_mark_late h _ _ _ _ _ Hchron Hmark) as (t' & Hlast & Ht).
  pose proof (cooldown_remembered range Hrange interval h _ key Hchron Hright) as Hrem.
  unfold endpointInCooldown. fold z key. rewrite Hs, Hi. change (x_moment z) with (x_moment y).
  destruct (lastFailureWithCurrentTTL _ _ _ _ _) as [s' r]. destruct Hrem as (_ & _ & _ & Hr). simpl.
  rewrite (Hr t' Hlast) by (done || lia). rewrite decide_True; [done|]. simpl. lia.
Qed.

(** C29: an endpoint that has failed rests.  Every endpoint that a request has asked
    without success, at the time [t], is skipped by every other request that
    comes to it before its interval is over, whatever other requests do to the
    store in between, unless 1024 other endpoints have failed since. *)
Theorem failed_endpoint_rests n x picked x' resp err :
  pick_ready picked → length ids ≤ n → fresh x → x_store x = replay range (x_sections x) → Forall (rightful interval) (x_sections x) →
  execute n fuel x picked = Done (x', resp, err) →
  ∃ visits, x_attempts x' = concat (map v_attempts visits) ∧ Forall (λ v, Forall (of_endpoint clusterName (v_endpoint v)) (v_attempts v)) visits ∧
    (∀ v, v ∈ visits → v_failed_at v = None → err = None ∧ last visits = Some v) ∧
    ∀ v t, v ∈ visits → v_failed_at v = Some t →
      ∀ now' others' later y,
        let z := lock range others' y in
        let key := newCooldownKey clusterName (v_endpoint v) in
        x_store z = foldr (perform range) (x_store x') later → x_sections z = later ++ x_sections x' → Forall (rightful interval) later →
        chronicle (x_sections z) (now' (x_moment y)) → (now' (x_moment y) ≤ now' (S (x_moment y)))%Z →
        (now' (S (x_moment y)) - t < endpointCooldownInterval (v_endpoint v))%Z → size (marked_since key (x_sections z)) < 1024 →
        (endpointInCooldown range now' others' clusterName y (v_endpoint v)).2 = true.
Proof using managers_ids others_rightful DecodeConfig_uint Hrange.
  intros Hp Hn Hf Hstore Hx Hexec.
  destruct (execute_runs n x picked Hp Hn Hf) as (y & x1 & b & visits & resp1 & err1 & He & Hprog & Hfin & _ & (m & Hx1 & _) & _ & Herr).
  rewrite He in Hexec. injection Hexec as -> -> ->. destruct (finished_attempts x y b visits Hf Hprog Hfin) as [Hat _].
  assert (x_store x' = replay range (x_sections x') ∧ Forall (rightful interval) (x_sections x') ∧ x_sections x' = x_sections y) as (Hst & Hrt & Hsec).
  { subst x'. simpl. destruct (pr_log _ _ _ Hprog) as (h & -> & -> & Hh). rewrite Hstore. unfold replay. rewrite foldr_app. split_and!; [done|by apply Forall_app|done]. }
  pose proof (pr_visits _ _ _ Hprog) as Hv. exists visits. split_and!; [by rewrite Hx1| | |].
  - eapply Forall_impl; [done|]. by intros v (H & _).
  - intros v Hin Hnone. destruct b; simpl in Hfin.
    + destruct Hfin as (vs & w & -> & Hvs & _). split; [by apply Herr|]. rewrite last_snoc. apply elem_of_app in Hin as [Hin|Hin%list_elem_of_singleton]; [|by subst].
      rewrite Forall_forall in Hvs. destruct (Hvs v Hin). congruence.
    + rewrite Forall_forall in Hfin. destruct (Hfin v Hin). congruence.
  - intros v t Hin Ht now' others' later y' z key Hz1 Hz2 Hl Hchron Hle Hlt Hsize. rewrite Forall_forall in Hv.
    destruct (Hv v Hin) as (_ & _ & H). destruct (H t Ht) as (_ & k & Hmark).
    eapply (marked_skipped (x_sections z)); [|done| | |done|done|done|done].
    + etrans; [exact Hz1|]. rewrite Hz2, Hst. unfold replay. by rewrite foldr_app.
    + rewrite Hz2. by apply Forall_app.
    + rewrite Hz2, Hsec. apply elem_of_app. by right.
Qed.
End executing.
