(* ===== verification/LlmScenarios.v ===== *)
(** * The LLM proxy at work

    A cluster with two endpoints, the first of which has an API key, a retry and
    the other endpoint as its fallback.  The theorems of [Retry], [Cooldown] and
    [LlmProxy] apply to it, and two runs show what their statements leave open:
    which header an endpoint gets, and which failure the client is told. *)

From S2P Require Import Prelude GoStrings Sha256 Endpoint Snapshot Cluster ClusterStore ClusterManager GoHttp HttpManager Retry Cooldown LlmProxy.

Module llm.

Definition endpoint (id host key : string) (policy : RetryPolicy) : Endpoint :=
  mkEndpoint id id (mkSocketAddress host 443 "" [] "") ∅ false (Some (mkLLMMeta "openai" key policy true 60000)).

Definition primary : Endpoint :=
  endpoint "primary" "10.0.0.1" "key-1" (mkRetryPolicy "CountBased" (Some {[ "times" := AInt 1 ]})).
Definition backup : Endpoint := endpoint "backup" "10.0.0.2" "" (mkRetryPolicy "NoRetry" None).

Definition no_hash : string → option (ConsistentHash → list Endpoint → unit) := λ _, None.

Definition cluster : Cluster unit :=
  NewClusterWithEndpointSnapshot no_hash (mkClusterConfig "llm" "" (mkConsistentHash 0 0 0) [] [Some primary; Some backup] 0 1) None.

Definition manager : ClusterManager unit :=
  mkClusterManager (mkWorld {[ 0 := cluster ]} 1 1 0) (mkClusterStore [config cluster] 1 {[ "llm" := 0 ]}) ∅ ∅ ∅ 0 0.

Definition range (m : gmap cooldownKey nat) : list (cooldownKey * nat) := map_to_list m.
Definition decode_config (_ : option (gmap string any)) (defaults : ExponentialBackoffConfig) : option ExponentialBackoffConfig := Some backoff_defaults.
Definition parse_duration (_ : string) : option Z := None.
Definition now (i : nat) : Z := Z.of_nat i * millisecond.
Definition alone (_ : nat) : list critical := [].
Definition interval (_ : cooldownKey) : Z := 60000 * millisecond.

Definition client : HttpContext params :=
  mkHttpContext (Some ∅) false 0 "" None SourceNone (Some "llm")
    (GoHttp.mkRequest "POST" "/v1/chat/completions" {[ "Authorization" := ["Bearer of the client"] ]}) new_writer.
Definition body : payload := mkPayload "" (Some "{}") true None.

Definition run_execute (upstream : nat → sent → answer) (cluster : string) (x : exec) : run (exec * option response * option (list problem)) :=
  Execute range decode_config parse_duration (λ _ _ _, None) now alone (λ _, manager) upstream (λ _, "") "https" cluster 2 10 x (Some primary).

Definition serve (upstream : nat → sent → answer) : run (exec * FilterStatus) :=
  Decode (λ _ _, "") (run_execute upstream) newCooldownStore [] body client.

(** The first endpoint is overloaded, the other one answers. *)
Definition overloaded (_ : nat) (r : sent) : answer :=
  if decide (sent_Host r = "10.0.0.1:443") then Answer 503 false (Some "busy") else Answer 200 false (Some "hello").
(** The first endpoint times out, the other one refuses. *)
Definition slow (_ : nat) (r : sent) : answer :=
  if decide (sent_Host r = "10.0.0.1:443") then NetworkError true else Answer 429 false (Some "quota exceeded").

Lemma manager_ids (i : nat) : ∃ rt, getRuntimeCluster manager "llm" = Some rt ∧ (∃ InitMap, snapshot_wf InitMap (endpoints rt)) ∧
  map EID (all (endpoints rt)) = ["primary"; "backup"] ∧ Forall (llm_ready decode_config "llm" interval 10) (all (endpoints rt)).
Proof.
  exists cluster. split_and!; [done| |done|].
  - exists no_hash. apply newEndpointSnapshot_wf; [|done]. intros p new cfg l1 l2. done.
  - change (all (endpoints cluster)) with [primary; backup]. apply Forall_cons. split; [|apply Forall_singleton]; split_and!.
    + eexists. split; [reflexivity|]. intros z Hz. vm_compute in Hz. injection Hz as <-. done.
    + replace (retries_of decode_config primary) with 1%Z by (vm_compute; reflexivity). lia.
    + replace (retries_of decode_config primary) with 1%Z by (vm_compute; reflexivity). lia.
    + reflexivity.
    + eexists. split; [reflexivity|]. intros z Hz. vm_compute in Hz. discriminate Hz.
    + replace (retries_of decode_config backup) with 0%Z by (vm_compute; reflexivity). lia.
    + replace (retries_of decode_config backup) with 0%Z by (vm_compute; reflexivity). lia.
    + reflexivity.
Qed.

Lemma primary_ready : pick_ready decode_config "llm" interval ["primary"; "backup"] 10 (Some primary).
Proof.
  intros e [= <-]. split; [constructor|]. destruct (manager_ids 0) as (rt & Hrt & _ & _ & H). injection Hrt as <-.
  by apply Forall_cons in H as [H _].
Qed.

Lemma alone_rightful (i : nat) : Forall (rightful interval) (alone i).
Proof. constructor. Qed.

Lemma decode_config_uint config defaults cfg : decode_config config defaults = Some cfg → (0 ≤ ebc_Times cfg < 2 ^ 64)%Z.
Proof. intros [= <-]. done. Qed.

(** The state before the execution, and after it. *)
Definition before : exec := start newCooldownStore [] client (mkPayload "" (Some "{}") true (Some "{}")).
Definition result_of (r : run (exec * option response * option (list problem))) : exec * option response * option (list problem) :=
  match r with Done r => r | _ => (before, None, None) end.
Definition is_done (r : run (exec * option response * option (list problem))) : bool := match r with Done _ => true | _ => false end.

Lemma done_result r : is_done r = true → r = Done ((result_of r).1.1, (result_of r).1.2, (result_of r).2).
Proof. by destruct r as [[[x o] e]| |]. Qed.

Definition first_run : exec * option response * option (list problem) := result_of (run_execute overloaded "llm" before).
Definition after_run : exec := first_run.1.1.

Lemma before_fresh : fresh before.
Proof. unfold fresh, rereadable, before, start. simpl. split_and!; [by eexists|done..]. Qed.

Lemma first_run_done :
  Execute range decode_config parse_duration (λ _ _ _, None) now alone (λ _, manager) overloaded (λ _, "") "https" "llm" 2 10 before (Some primary) =
  Done (after_run, first_run.1.2, first_run.2).
Proof. apply done_result. vm_compute. reflexivity. Qed.


Lemma failed_endpoint_rests_witness :
  (∃ visits, x_attempts after_run = concat (map v_attempts visits) ∧
     ∀ v, v ∈ visits → v_failed_at v = None → first_run.2 = None ∧ last visits = Some v) ∧
  map (λ a, (ua_EndpointID a, ua_Success a)) (x_attempts after_run) = [("primary", false); ("primary", false); ("backup", true)] ∧
  (endpointInCooldown range (λ i, now (100 + i)) alone "llm"
     (start (x_store after_run) (x_sections after_run) client body) primary).2 = true.
Proof.
  split_and!; [|vm_compute; reflexivity|vm_compute; reflexivity].
  destruct (failed_endpoint_rests range decode_config parse_duration (λ _ _ _, None) now alone (λ _, manager) overloaded (λ _, "") "https" "llm"
    interval alone_rightful decode_config_uint ["primary"; "backup"] 10 manager_ids (λ m, Permutation_refl _) 2 before (Some primary)
    after_run first_run.1.2 first_run.2 primary_ready (le_n 2) before_fresh eq_refl (Forall_nil_2 _) first_run_done) as (visits & H1 & _ & H3 & _).
  exists visits. split; [exact H1|exact H3].
Defined.

Definition key : cooldownKey := mkCooldownKey "llm" "primary" "10.0.0.1:443" [].
Definition past : list critical := [Mark key (60000 * millisecond) 5 5].

Lemma cooldown_remembered_witness :
  (lastFailureWithCurrentTTL range (replay range past) key (interval key) 7).2 = Some (5, interval key)%Z.
Proof.
  assert (chronicle past 7) as Hc.
  { apply (chronicle_wait past 5); [|done]. apply (chronicle_step [] 5 (Mark key (60000 * millisecond) 5 5)); [constructor|done]. }
  assert (Forall (rightful interval) past) as Hr by by apply Forall_singleton.
  pose proof (cooldown_remembered range (λ m, Permutation_refl _) interval past 7 key Hc Hr) as H.
  destruct (lastFailureWithCurrentTTL range (replay range past) key (interval key) 7) as [s' r]. destruct H as (_ & _ & _ & H).
  apply H; vm_compute; [done|done|lia].
Defined.

Lemma attempts_as_configured_witness :
  Z.of_nat (granted_of 5 (Retry.Reset (CountBased (mkCountBasedRetry 4 0)))) = 4%Z.
Proof.
  destruct (attempts_as_configured decode_config parse_duration decode_config_uint (mkRetryPolicy "CountBased" (Some {[ "times" := AString "3" ]}))
    (CountBased (mkCountBasedRetry 4 0)) 5) as [H _];
    [intros z Hz; vm_compute in Hz; discriminate Hz|vm_compute; reflexivity|vm_compute; reflexivity|]. rewrite H. vm_compute. reflexivity.
Defined.

(** The key of one endpoint is sent to the next one.  The header of the client's
    request is changed in place, so that an endpoint without a key of its own
    gets the one of the endpoint that was asked before. *)
Theorem api_key_sent_to_fallback :
  option_map APIKey (ELLMMeta backup) = Some "" ∧
  match serve overloaded with
  | Done (x, _) => map (λ r, (sent_Host r, Header_Get (sent_Header r) "Authorization")) (x_sent x) =
      [("10.0.0.1:443", "Bearer key-1"); ("10.0.0.1:443", "Bearer key-1"); ("10.0.0.2:443", "Bearer key-1")]
  | _ => False
  end.
Proof. split; vm_compute; reflexivity. Qed.

(** A response is lost to an earlier timeout.  The last endpoint has answered
    that the quota is exceeded, and the answer is there to be passed along; the
    client is told that the gateway timed out, because the first of the joined
    errors that comes from the network is a timeout.  And a network error is
    never retried: the first endpoint was asked once, with one retry left. *)
Theorem timeout_hides_response :
  match serve slow with
  | Done (x, _) => map (λ a, (ua_EndpointID a, ua_StatusCode a)) (x_attempts x) = [("primary", 0); ("backup", 429)]%Z ∧
      x_resp x = Some (mkResponse 429 false (Some "quota exceeded")) ∧
      hc_SourceResp (x_hc x) = SourceNone ∧ hc_localReply (x_hc x) = true ∧ hc_statusCode (x_hc x) = 504%Z
  | _ => False
  end.
Proof. vm_compute. by split_and!. Qed.
End llm.
