(* ===== verification/ApiRoute.v ===== *)
(** * The table of APIs, [pkg/router/route.go] and [pkg/router/api.go]

    A [Route] has the APIs of the gateway in a trie, by HTTP verb and path.  The
    trie holds pointers to nodes, and nodes and APIs hold pointers to maps of
    headers and metadata that they share with whoever registered them: the state
    has heaps for the three.  Of [config.Method] the fields that are read are
    kept.

    Every operation takes the lock once, but for [PutAPI], whose check and whose
    insertion are two critical sections.  [strings.ToLower] is a parameter, about
    which nothing is assumed. *)

From S2P Require Import Prelude GoStrings Endpoint McpHttp Trie.
Import Strings stringutil.

(** ** Data *)

Record Method : Type := mkMethod {
  m_HTTPVerb : string;
  m_Enable : bool;
  m_URL : string;
  m_Path : string;
}.

(** [None] is a nil map. *)
Record API : Type := mkAPI {
  api_URLPattern : string;
  api_Method : Method;
  api_Headers : option nat;
  api_Metadata : option nat;
}.

Record api_node : Type := mkApiNode {
  n_fullPath : string;
  n_method : Method;
  n_headers : option nat;
  n_metadata : option nat;
}.

Record Route : Type := mkRoute {
  tree : Trie nat;
  rt_nodes : list api_node;
  rt_headers : list (gmap string string);
  rt_metadata : list (gmap string any);
}.

Inductive route_error : Type :=
  | AlreadyExists (verb path : string) (node_path : string)
  | DoesNotExist (verb path : string)
  | NotANode
  | TrieError (e : trie_error)
  | NotPut.

Definition NewRoute (headers : list (gmap string string)) (metadata : list (gmap string any)) : Route :=
  mkRoute NewTrie [] headers metadata.

Definition set_tree (rt : Route) (t : Trie nat) : Route := mkRoute t (rt_nodes rt) (rt_headers rt) (rt_metadata rt).
Definition set_node (rt : Route) (p : nat) (n : api_node) : Route :=
  mkRoute (tree rt) (<[p := n]> (rt_nodes rt)) (rt_headers rt) (rt_metadata rt).
Definition set_URL (n : api_node) (url : string) : api_node :=
  mkApiNode (n_fullPath n) (mkMethod (m_HTTPVerb (n_method n)) (m_Enable (n_method n)) url (m_Path (n_method n)))
    (n_headers n) (n_metadata n).

(** ** Operations *)

Section route.
Context (lower : string → string).
Implicit Types (rt : Route) (api : API).

Definition comma : ascii := ",".

Definition getTrieKey (method path : string) (isPrefix : bool) : string :=
  let path := if isPrefix then (if HasSuffixByte slash path then path else path +:+ "/") +:+ "**" else path in
  GetTrieKey method path.

Definition api_key api : string := getTrieKey (m_HTTPVerb (api_Method api)) (lower (api_URLPattern api)) false.

Definition ClearAPI rt : Route := set_tree rt (Trie_Clear (tree rt)).1.

Definition getNode rt (key : string) : option nat :=
  match Get (tree rt) key with
  | Ok (Some n, _, _) => bizInfo n
  | _ => None
  end.

Definition matchNode rt (key : string) : option nat :=
  match Match (tree rt) key with
  | Some (n, _) => bizInfo n
  | None => None
  end.

(** [bizInfoInterface.( *Node)] *)
Definition found_node rt (o : option (Node nat)) : option (nat * api_node) :=
  t ← o; p ← bizInfo t; n ← rt_nodes rt !! p; Some (p, n).

Definition new_node api : api_node :=
  mkApiNode (lower (api_URLPattern api)) (api_Method api) (api_Headers api) (api_Metadata api).

(** A new node on the heap, with its pointer. *)
Definition alloc rt api : Route * nat :=
  (mkRoute (tree rt) (rt_nodes rt ++ [new_node api]) (rt_headers rt) (rt_metadata rt), length (rt_nodes rt)).

(** The second critical section of [PutAPI], whose result is dropped. *)
Definition put_commit rt api : Route :=
  let '(rt, p) := alloc rt api in
  set_tree rt (Put (tree rt) (api_key api) (Some p)).1.

Definition PutAPI rt api : Route * result route_error unit :=
  match getNode rt (api_key api) with
  | None => (put_commit rt api, Ok tt)
  | Some p => (rt, Err (AlreadyExists (m_HTTPVerb (api_Method api)) (lower (api_URLPattern api))
                          (from_option n_fullPath "" (rt_nodes rt !! p))))
  end.

Definition PutOrUpdateAPI rt api : Route * result route_error unit :=
  let key := api_key api in
  match Contains (tree rt) key with
  | Err e => (rt, Err (TrieError e))
  | Ok true =>
      match Get (tree rt) key with
      | Err e => (rt, Err (TrieError e))
      | Ok (_, _, false) => (rt, Ok tt)
      | Ok (o, _, true) =>
          match found_node rt o with
          | None => (rt, Err NotANode)
          | Some (p, n) =>
              if McpHttp.Contains (m_URL (n_method n)) (m_URL (api_Method api)) then (rt, Ok tt)
              else (set_node rt p (set_URL n (m_URL (n_method n) +:+ "," +:+ m_URL (api_Method api))), Ok tt)
          end
      end
  | Ok false =>
      let '(rt', p) := alloc rt api in
      match PutOrUpdate (tree rt) key (Some p) with
      | (t, Ok true) => (set_tree rt' t, Ok tt)
      | (t, Ok false) => (set_tree rt' t, Ok tt)
      | (t, Err e) => (set_tree rt' t, Err (TrieError e))
      end
  end.

(** The clusters but the first that is [url]; [None] when there is none. *)
Fixpoint remove_first (url : string) (clusters : list string) : option (list string) :=
  match clusters with
  | [] => None
  | c :: clusters => if decide (c = url) then Some clusters else cons c <$> remove_first url clusters
  end.

Definition RemoveAPI rt api : Route :=
  let key := api_key api in
  match Contains (tree rt) key with
  | Ok true =>
      match Get (tree rt) key with
      | Ok (o, _, true) =>
          match found_node rt o with
          | None => rt
          | Some (p, n) =>
              let clusters := SplitByte comma (m_URL (n_method n)) in
              if decide (1 < length clusters) then
                match remove_first (m_URL (api_Method api)) clusters with
                | None => rt
                | Some clusters => set_node rt p (set_URL n (JoinByte comma clusters))
                end
              else if McpHttp.Contains (m_URL (n_method n)) (m_URL (api_Method api)) then set_tree rt (Remove (tree rt) key).1
              else rt
          end
      | _ => rt
      end
  | _ => rt
  end.

Definition metadata_of rt (o : option nat) : gmap string any := default ∅ (o ≫= (rt_metadata rt !!.)).

Definition MergeAPI rt api : Route * result route_error unit :=
  let key := api_key api in
  match Get (tree rt) key with
  | Err e => (rt, Err (TrieError e))
  | Ok (_, _, false) => (rt, Err (DoesNotExist (m_HTTPVerb (api_Method api)) (lower (api_URLPattern api))))
  | Ok (o, _, true) =>
      match found_node rt o with
      | None => (rt, Err NotANode)
      | Some (p, n) =>
          let new := metadata_of rt (api_Metadata api) in
          if decide (new = ∅) then (rt, Ok tt)
          else
            match n_metadata n with
            | Some i => (mkRoute (tree rt) (rt_nodes rt) (rt_headers rt) (<[i := new ∪ metadata_of rt (Some i)]> (rt_metadata rt)), Ok tt)
            | None =>
                (mkRoute (tree rt) (<[p := mkApiNode (n_fullPath n) (n_method n) (n_headers n) (Some (length (rt_metadata rt)))]> (rt_nodes rt))
                   (rt_headers rt) (rt_metadata rt ++ [new]), Ok tt)
            end
      end
  end.

Definition api_of (n : api_node) : API := mkAPI (n_fullPath n) (n_method n) (n_headers n) (n_metadata n).

Definition FindAPI rt (fullPath httpverb : string) : option API :=
  p ← getNode rt (getTrieKey httpverb (lower fullPath) false); api_of <$> rt_nodes rt !! p.

Definition MatchAPI rt (fullPath httpverb : string) : option API :=
  p ← matchNode rt (getTrieKey httpverb (lower fullPath) false); api_of <$> rt_nodes rt !! p.

Definition methodList : list string := ["ANY"; "GET"; "HEAD"; "POST"; "PUT"; "PATCH"; "DELETE"; "OPTIONS"].

Definition DeleteNode rt (fullPath : string) : Route :=
  foldl (λ rt v, set_tree rt (Remove (tree rt) (getTrieKey v fullPath false)).1) rt methodList.

Definition DeleteAPI rt (fullPath httpverb : string) : Route * bool :=
  let key := getTrieKey httpverb (lower fullPath) false in
  match getNode rt key with
  | Some _ => (set_tree rt (Remove (tree rt) key).1, true)
  | None => (rt, false)
  end.
End route.

(** ** Path parameters *)

(** [url.Values.Add] *)
Definition Values_Add (vs : gmap string (list string)) (key value : string) : gmap string (list string) :=
  <[key := default [] (vs !! key) ++ [value]]> vs.

(** The two lists have the same length here. *)
Fixpoint wildcard_values (EqualFold : string → string → bool) (cPaths wPaths : list string) (result : gmap string (list string)) :
    option (gmap string (list string)) :=
  match cPaths, wPaths with
  | c :: cPaths, w :: wPaths =>
      if HasPrefix w PathParamIdentifier then
        wildcard_values EqualFold cPaths wPaths (Values_Add result (TrimPrefix w PathParamIdentifier) c)
      else if EqualFold c w then wildcard_values EqualFold cPaths wPaths result
      else None
  | _, _ => Some result
  end.

Definition wildcardMatch (EqualFold : string → string → bool) (wildcardPath checkPath : string) : option (gmap string (list string)) :=
  let cPaths := SplitByte slash (TrimLeftByte slash checkPath) in
  let wPaths := SplitByte slash (TrimLeftByte slash wildcardPath) in
  if decide (length cPaths = length wPaths) then wildcard_values EqualFold cPaths wPaths ∅ else None.

Definition GetURIParams (EqualFold : string → string → bool) (api : API) (path : string) : option (gmap string (list string)) :=
  wildcardMatch EqualFold (api_URLPattern api) path.

(** ** Slots

    A path stands for a pattern.  The slot of a pattern says whether the trie has
    a node for it and, if so, whether an API is registered there and what the
    node points to. *)

Definition slot (rt : Route) (p : list seg) : option (bool * option nat) := obs_at (root (tree rt)) p.

Definition ends_var (p : list seg) : bool := match last p with Some SVar => true | _ => false end.

(** A path without [**]. *)
Definition plain (key : string) : bool := wf_pattern (path_pattern key) && negb (ends_all (path_pattern key)).

Definition visible (p : list seg) (n : Node nat) : option (Node nat) := if ends_var p && negb (endOfPath n) then None else Some n.

Ltac nothing := eexists _, _; split; [done|intros [? ?]].

(** [Get] sees a node that ends with a literal whether an API is registered there
    or not. *)
Lemma node_Get_exact (node : Node nat) keys : keys ≠ [] → wf_pattern (pattern_of keys) = true →
  ∃ ps ok, node_Get node keys = Ok (node_at node (pattern_of keys) ≫= visible (pattern_of keys), ps, ok) ∧
    (is_Some (node_at node (pattern_of keys) ≫= visible (pattern_of keys)) → ok = true).
Proof.
  revert node. induction keys as [|key keys IH]; intros node; [done|]. intros _ Hwf.
  change (pattern_of (key :: keys)) with (seg_of key :: pattern_of keys) in *.
  apply wf_pattern_cons in Hwf as [Hwf Hlast].
  assert (∀ k ks n, visible (seg_of key :: pattern_of (k :: ks)) n = visible (pattern_of (k :: ks)) n) as Hvis by done.
  simpl. destruct (seg_of_cases key) as [[Hv Hk]|[(Hv & Ha & Hk)|(Hv & Ha & Hk)]]; rewrite Hv, ?Ha; rewrite Hk in *; cbn [child].
  - destruct keys as [|k ks].
    + unfold visible. simpl. destruct (PathVariableNode node) as [v|]; [|by nothing]. simpl. destruct (endOfPath v); [by eauto|by nothing].
    + destruct (PathVariableNode node) as [v|]; [|by nothing].
      destruct (IH v ltac:(done) Hwf) as (ps & ok & -> & H). by eauto.
  - specialize (Hlast eq_refl). apply fmap_nil_inv in Hlast as ->. simpl. eexists _, true. split; [|done]. by destruct (MatchAllNode node).
  - destruct keys as [|k ks].
    + unfold child_lookup. simpl. destruct (children node) as [m|]; [|by nothing].
      eexists _, true. split; [|done]. simpl. by destruct (m !! key).
    + destruct (child_lookup node key) as [c|]; [|by nothing]. by apply IH.
Qed.

(** What [Get] and [Contains] tell of a slot. *)
Definition seen (rt : Route) (p : list seg) : option (option nat) :=
  match slot rt p with
  | Some (e, b) => if ends_var p && negb e then None else Some b
  | None => None
  end.

Lemma seen_node rt p : seen rt p = bizInfo <$> (node_at (root (tree rt)) p ≫= visible p).
Proof. unfold seen, slot, obs_at, visible. destruct (node_at _ _) as [n|]; simpl; [|done]. by destruct (ends_var p && negb (endOfPath n)). Qed.

Lemma Get_seen rt key : wf_pattern (path_pattern key) = true →
  ∃ o ps ok, Get (tree rt) key = Ok (o, ps, ok) ∧ Contains (tree rt) key = Ok (bool_decide (is_Some o)) ∧
    bizInfo <$> o = seen rt (path_pattern key) ∧ (is_Some o → ok = true).
Proof.
  intros Hwf. unfold Get, Contains.
  destruct (node_Get_exact (root (tree rt)) (Split key) (Split_not_nil key) Hwf) as (ps & ok & -> & Hok).
  eexists _, _, _. split_and!; [done|done| |done]. by rewrite seen_node.
Qed.

Lemma getNode_seen rt key : wf_pattern (path_pattern key) = true → getNode rt key = mjoin (seen rt (path_pattern key)).
Proof.
  intros Hwf. unfold getNode. destruct (Get_seen rt key Hwf) as (o & ps & ok & -> & _ & <- & _). by destruct o.
Qed.

Lemma found_seen rt o p : bizInfo <$> o = seen rt p →
  found_node rt o = mjoin (seen rt p) ≫= λ ptr, pair ptr <$> rt_nodes rt !! ptr.
Proof. intros <-. unfold found_node. destruct o as [n|]; simpl; [|done]. destruct (bizInfo n) as [ptr|]; simpl; [|done]. by destruct (rt_nodes rt !! ptr). Qed.

(** ** The invariant *)

Section invariant.
Context (lower : string → string).
Implicit Types (rt : Route) (api : API) (p q : list seg).

Definition node_pattern (n : api_node) : list seg := path_pattern (getTrieKey (m_HTTPVerb (n_method n)) (n_fullPath n) false).

Record route_ok rt : Prop := {
  ok_trie : trie_wf (tree rt);
  ok_nodes : ∀ q e ptr, q ≠ [] → slot rt q = Some (e, Some ptr) → ∃ n, rt_nodes rt !! ptr = Some n ∧ node_pattern n = q;
}.

Lemma NewRoute_ok headers metadata : route_ok (NewRoute headers metadata).
Proof.
  split; [apply NewTrie_wf|]. intros q e ptr Hq H. unfold slot, NewRoute in H. simpl in H.
  destruct q as [|s q]; [done|]. rewrite obs_at_cons in H. by destruct s.
Qed.

(** Puts and removals, slot by slot. *)
Lemma Put_slot rt key ptr q : trie_wf (tree rt) → wf_pattern (path_pattern key) = true →
  slot (set_tree rt (Put (tree rt) key (Some ptr)).1) q =
    put_obs (root (tree rt)) (path_pattern key) (negb (registered (root (tree rt)) (path_pattern key))) ptr q.
Proof.
  intros Hwf Hp. unfold slot, set_tree, Put. simpl.
  destruct (internalPut_spec (root (tree rt)) (Split key) ptr (Split_not_nil key) Hp (wf_node_all_end _ Hwf)) as [Hok Hobs].
  destruct (internalPut (root (tree rt)) (Split key) ptr) as [n ok]. simpl in *. rewrite Hobs. by rewrite Hok.
Qed.

Lemma Remove_slot rt key q : wf_pattern (path_pattern key) = true →
  slot (set_tree rt (Remove (tree rt) key).1) q =
    if decide (q = path_pattern key) then (λ '(e, b), (false, b)) <$> slot rt q else slot rt q.
Proof. intros Hp. apply (Remove_spec (tree rt) key Hp). Qed.

Lemma Remove_ok rt key : plain key = true → route_ok rt → route_ok (set_tree rt (Remove (tree rt) key).1).
Proof.
  unfold plain. rewrite andb_true_iff, negb_true_iff. intros [Hp He] [Hwf Hn]. split; [by apply Remove_wf|].
  intros q e ptr Hq. rewrite Remove_slot by done. case_decide as Hk; [|by apply Hn].
  destruct (slot rt q) as [[e' b]|] eqn:E; simpl; [|done]. intros [= <- ->]. by eapply Hn.
Qed.

Lemma commit_slot rt api q : trie_wf (tree rt) → wf_pattern (path_pattern (api_key lower api)) = true →
  slot (put_commit lower rt api) q =
    put_obs (root (tree rt)) (path_pattern (api_key lower api)) (negb (registered (root (tree rt)) (path_pattern (api_key lower api))))
      (length (rt_nodes rt)) q.
Proof. intros Hwf Hp. unfold put_commit. simpl. by apply (Put_slot (alloc lower rt api).1). Qed.

Lemma commit_ok rt api : wf_pattern (path_pattern (api_key lower api)) = true → route_ok rt → route_ok (put_commit lower rt api).
Proof.
  intros Hp [Hwf Hn]. split; [apply (Put_map (tree rt) (api_key lower api) (length (rt_nodes rt)) Hwf Hp)|].
  intros q e ptr Hq. rewrite commit_slot by done. unfold put_obs. cbn [put_commit alloc rt_nodes set_tree].
  case_decide as H1; [intros [= <- <-]; destruct H1 as [_ ->]; exists (new_node lower api); split; [|done]; by rewrite lookup_app_r, Nat.sub_diag|].
  assert (∀ e, slot rt q = Some (e, Some ptr) → ∃ n, (rt_nodes rt ++ [new_node lower api]) !! ptr = Some n ∧ node_pattern n = q) as Hold.
  { intros e' H. destruct (Hn q e' ptr Hq H) as (n & Hl & Hpat). exists n. split; [by apply lookup_app_l_Some|done]. }
  case_decide as H2; [|apply Hold]. destruct (obs_at (root (tree rt)) q) as [[e' b]|] eqn:E; simpl; [|done].
  intros [= -> ->]. by apply (Hold e).
Qed.

Lemma set_node_ok rt ptr n n' : rt_nodes rt !! ptr = Some n → node_pattern n' = node_pattern n → route_ok rt → route_ok (set_node rt ptr n').
Proof.
  intros Hl Hpat [Hwf Hn]. split; [done|]. intros q e ptr' Hq H. destruct (Hn q e ptr' Hq H) as (m & Hm & <-). simpl.
  destruct (decide (ptr' = ptr)) as [->|Hne]; [|exists m; by rewrite list_lookup_insert_ne].
  exists n'. rewrite list_lookup_insert_eq by by eapply lookup_lt_Some. split; [done|]. by simplify_eq.
Qed.
(** ** Histories

    Every operation is made of these edits. *)

Inductive edit rt : Route → Prop :=
  | edit_maps hs ms : edit rt (mkRoute (tree rt) (rt_nodes rt) hs ms)
  | edit_node ptr n n' hs ms : rt_nodes rt !! ptr = Some n → node_pattern n' = node_pattern n →
      edit rt (mkRoute (tree rt) (<[ptr := n']> (rt_nodes rt)) hs ms)
  | edit_remove key : plain key = true → edit rt (set_tree rt (Remove (tree rt) key).1)
  | edit_put api : plain (api_key lower api) = true → mjoin (seen rt (path_pattern (api_key lower api))) = None →
      edit rt (put_commit lower rt api).

Lemma plain_wf key : plain key = true → wf_pattern (path_pattern key) = true.
Proof. unfold plain. by intros [? _]%andb_true_iff. Qed.

Lemma edit_ok rt rt' : edit rt rt' → route_ok rt → route_ok rt'.
Proof.
  intros [hs ms|ptr n n' hs ms Hl Hp|key Hp|api Hp _] Hok.
  - by destruct Hok.
  - destruct (set_node_ok rt ptr n n' Hl Hp Hok). by split.
  - by apply Remove_ok.
  - apply commit_ok; [by apply plain_wf|done].
Qed.

Inductive route_op : Type :=
  | OpPut (api : API)
  | OpPutOrUpdate (api : API)
  | OpMerge (api : API)
  | OpRemove (api : API)
  | OpDelete (path verb : string)
  | OpDeleteNode (path : string).

Definition apply_op rt (op : route_op) : Route :=
  match op with
  | OpPut api => (PutAPI lower rt api).1
  | OpPutOrUpdate api => (PutOrUpdateAPI lower rt api).1
  | OpMerge api => (MergeAPI lower rt api).1
  | OpRemove api => RemoveAPI lower rt api
  | OpDelete path verb => (DeleteAPI lower rt path verb).1
  | OpDeleteNode path => DeleteNode rt path
  end.

(** The paths have no [**]. *)
Definition op_plain (op : route_op) : Prop :=
  match op with
  | OpPut api | OpPutOrUpdate api | OpMerge api | OpRemove api => plain (api_key lower api) = true
  | OpDelete path verb => plain (getTrieKey verb (lower path) false) = true
  | OpDeleteNode path => Forall (λ v, plain (getTrieKey v path false) = true) methodList
  end.

Lemma put_or_update_edits rt api : plain (api_key lower api) = true → rtc edit rt (PutOrUpdateAPI lower rt api).1.
Proof.
  intros Hp. unfold PutOrUpdateAPI. destruct (Get_seen rt _ (plain_wf _ Hp)) as (o & ps & ok & -> & -> & Hseen & Hok).
  destruct o as [tn|]; [rewrite bool_decide_eq_true_2 by done|rewrite bool_decide_eq_false_2 by (by intros [? ?])].
  - rewrite (Hok ltac:(done)). unfold found_node. simpl. destruct (bizInfo tn) as [ptr|]; simpl; [|done].
    destruct (rt_nodes rt !! ptr) as [n|] eqn:En; simpl; [|done]. case_match; [done|]. apply rtc_once. by eapply edit_node.
  - assert (∀ ptr : nat, PutOrUpdate (tree rt) (api_key lower api) (Some ptr) = Put (Remove (tree rt) (api_key lower api)).1 (api_key lower api) (Some ptr)) as Heq by done.
    cbn [alloc]. rewrite Heq. eapply rtc_l; [by apply (edit_remove rt (api_key lower api))|]. set (rt1 := set_tree rt _).
    assert (edit rt1 (set_tree (alloc lower rt api).1 (Put (Remove (tree rt) (api_key lower api)).1 (api_key lower api) (Some (length (rt_nodes rt)))).1)) as He.
    { change (edit rt1 (put_commit lower rt1 api)). apply edit_put; [done|]. unfold seen, rt1. rewrite Remove_slot, decide_True by (by apply plain_wf || done).
      unfold seen in Hseen. destruct (slot rt _) as [[e b]|]; simpl in *; [|done]. by destruct (ends_var _), e. }
    destruct (Put _ _ _) as [t [[]|]]; by apply rtc_once.
Qed.

Lemma op_edits rt op : op_plain op → rtc edit rt (apply_op rt op).
Proof.
  destruct op as [api|api|api|api|path verb|path]; simpl; intros Hp.
  - unfold PutAPI. rewrite getNode_seen by by apply plain_wf. destruct (mjoin _) eqn:E; [done|]. apply rtc_once. by constructor.
  - by apply put_or_update_edits.
  - unfold MergeAPI. destruct (Get_seen rt _ (plain_wf _ Hp)) as (o & ps & ok & -> & _). destruct ok; [|done].
    unfold found_node. destruct o as [tn|]; simpl; [|done]. destruct (bizInfo tn) as [ptr|]; simpl; [|done].
    destruct (rt_nodes rt !! ptr) as [n|] eqn:En; simpl; [|done]. case_decide; [done|].
    destruct (n_metadata n); apply rtc_once; [constructor|by eapply edit_node].
  - unfold RemoveAPI. destruct (Get_seen rt _ (plain_wf _ Hp)) as (o & ps & ok & -> & -> & _).
    case_match; [|done]. destruct ok; [|done].
    unfold found_node. destruct o as [tn|]; simpl; [|done]. destruct (bizInfo tn) as [ptr|]; simpl; [|done].
    destruct (rt_nodes rt !! ptr) as [n|] eqn:En; simpl; [|done].
    repeat case_match; try done; apply rtc_once; [by eapply edit_node|by constructor].
  - unfold DeleteAPI. destruct (getNode _ _); [|done]. apply rtc_once. by constructor.
  - unfold DeleteNode. revert rt Hp. generalize methodList. induction l as [|v l IH]; intros rt Hl; simpl; [done|]. apply Forall_cons in Hl as [Hv Hl].
    eapply rtc_l; [by apply edit_remove|]. by apply IH.
Qed.
(** ** Deleted APIs

    A path that ends with a literal keeps its node when its API is deleted. *)

Definition deleted rt p : Prop := ∃ ptr, slot rt p = Some (false, Some ptr).

Lemma edit_deleted rt rt' p : edit rt rt' → route_ok rt → p ≠ [] → ends_var p = false → deleted rt p → deleted rt' p.
Proof.
  intros He Hok Hp Hv [ptr Hs]. destruct He as [hs ms|ptr' n n' hs ms Hl Hn|key Hk|api Hk Hseen].
  - by exists ptr.
  - by exists ptr.
  - exists ptr. rewrite Remove_slot by by apply plain_wf. case_decide; [|done]. by rewrite Hs.
  - exists ptr. rewrite commit_slot by (by apply plain_wf || apply Hok). unfold put_obs. fold (slot rt p). rewrite Hs.
    unfold seen in Hseen. case_decide as H1; [destruct H1 as [_ H1]; by rewrite <- H1, Hs, Hv in Hseen|]. by case_decide.
Qed.

Lemma edits_kept rt rt' : rtc edit rt rt' → route_ok rt →
  route_ok rt' ∧ ∀ p, p ≠ [] → ends_var p = false → deleted rt p → deleted rt' p.
Proof.
  induction 1 as [rt|rt rt1 rt' He _ IH]; intros Hok; [by auto|]. destruct (IH (edit_ok _ _ He Hok)) as [Hok' Hd]. split; [done|].
  intros p Hp Hv H. apply Hd; [done|done|]. by eapply edit_deleted.
Qed.

Lemma history_edits rt ops : Forall op_plain ops → rtc edit rt (foldl apply_op rt ops).
Proof.
  revert rt. induction ops as [|op ops IH]; intros rt Hops; simpl; [done|]. apply Forall_cons in Hops as [Hop Hops].
  etrans; [by apply op_edits|by apply IH].
Qed.

(** What a match returns. *)
Lemma matchNode_first rt key : route_ok rt →
  matchNode rt key = first_some (λ c, view (root (tree rt)) c.1) (candidate_patterns (Split (CutBefore qmark key))).
Proof.
  intros Hok. unfold matchNode, Match, MatchWithPredicate. rewrite node_match_spec by apply Split_not_nil.
  set (cs := candidate_patterns _). assert (∀ c, c ∈ cs → c.1 ≠ []) as Hne by apply candidate_patterns_not_nil.
  clearbody cs. induction cs as [|[q vs] cs IH]; [done|]. simpl. unfold try_pattern at 1, view at 1. simpl.
  destruct (candidate_at (root (tree rt)) q) as [n|] eqn:E.
  - destruct (candidate_at_wf _ _ _ (ok_trie rt Hok) (Hne (q, vs) (list_elem_of_here _ _)) E) as [b Hb]. simpl. by rewrite Hb.
  - apply IH. intros c Hc. apply Hne. by constructor.
Qed.

Lemma first_some_elem {A B} (f : A → option B) (l : list A) b : first_some f l = Some b → ∃ a, a ∈ l ∧ f a = Some b.
Proof.
  induction l as [|a l IH]; simpl; [done|]. destruct (f a) eqn:E; [intros [= <-]; exists a; split; [constructor|done]|].
  intros (a' & Hin & Ha)%IH. exists a'. split; [by constructor|done].
Qed.

Lemma matched_live rt path verb a : MatchAPI lower rt path verb = Some a → route_ok rt →
  ∃ q ptr, q ≠ [] ∧ slot rt q = Some (true, Some ptr) ∧ path_pattern (getTrieKey (m_HTTPVerb (api_Method a)) (api_URLPattern a) false) = q.
Proof.
  unfold MatchAPI. intros (ptr & Hm & Ha)%bind_Some Hok. rewrite matchNode_first in Hm by done.
  apply first_some_elem in Hm as ([q vs] & Hin & Hv). apply candidate_patterns_not_nil in Hin. simpl in *. rewrite view_obs in Hv.
  fold (slot rt q) in Hv. destruct (slot rt q) as [[e b]|] eqn:Es; [|done].
  destruct (ok_trie rt Hok q e b Hin Es) as [_ Hall]. assert (e = true ∧ b = Some ptr) as [-> ->].
  { destruct (ends_all q), e; simpl in Hv; naive_solver. }
  destruct (ok_nodes rt Hok q true ptr Hin Es) as (n & Hn & Hpat). rewrite Hn in Ha. injection Ha as <-. by exists q, ptr.
Qed.
(** A path whose last segment is a literal is used up when its API is deleted.
    [DeleteAPI] reports success, and no request is matched with the API again;
    but the node stays and is still found, so that [PutAPI] refuses the path as
    taken and [PutOrUpdateAPI] only adds to the node that nothing matches.  No
    sequence of operations, short of clearing the table, makes an API of that
    verb and path reachable again. *)
Theorem deleted_path_is_lost rt path verb ops :
  let key := getTrieKey verb (lower path) false in
  let rt' := foldl apply_op (DeleteAPI lower rt path verb).1 ops in
  route_ok rt → plain key = true → ends_var (path_pattern key) = false → (DeleteAPI lower rt path verb).2 = true → Forall op_plain ops →
  is_Some (FindAPI lower rt' path verb) ∧
  (∀ api, api_key lower api = key → ∃ e, PutAPI lower rt' api = (rt', Err e)) ∧
  (∀ path' verb' a, MatchAPI lower rt' path' verb' = Some a →
     path_pattern (getTrieKey (m_HTTPVerb (api_Method a)) (api_URLPattern a) false) ≠ path_pattern key).
Proof.
  intros key rt' Hok Hp Hv Hd Hops. pose proof (plain_wf _ Hp) as Hwf. pose proof (path_pattern_not_nil key) as Hne.
  assert (route_ok rt' ∧ deleted rt' (path_pattern key)) as [Hok' [ptr Hdel]].
  { unfold DeleteAPI in Hd. fold key in Hd. destruct (getNode rt key) as [ptr|] eqn:Eg; [|done].
    rewrite getNode_seen in Eg by done. unfold rt', DeleteAPI. fold key. rewrite getNode_seen, Eg by done. simpl.
    destruct (edits_kept _ _ (history_edits (set_tree rt (Remove (tree rt) key).1) ops Hops) (Remove_ok _ _ Hp Hok)) as [H1 H2].
    split; [done|]. apply H2; [done|done|]. exists ptr. rewrite Remove_slot, decide_True by done.
    unfold seen in Eg. rewrite Hv in Eg. by destruct (slot rt _) as [[e b]|]; simpl in *; simplify_eq. }
  assert (getNode rt' key = Some ptr) as Hget by (rewrite getNode_seen by done; unfold seen; by rewrite Hdel, Hv).
  destruct (ok_nodes rt' Hok' _ _ _ Hne Hdel) as (n & Hn & _). split_and!.
  - unfold FindAPI. fold key. rewrite Hget. simpl. by rewrite Hn.
  - intros api Hapi. unfold PutAPI. rewrite Hapi, Hget. by eexists.
  - intros path' verb' a Ha Hpat. destruct (matched_live rt' path' verb' a Ha Hok') as (q & ptr' & _ & Hs & Hq). rewrite Hq in Hpat. by rewrite Hpat, Hdel in Hs.
Qed.

(** ** A table that is only added to *)

Definition strip (a : API) : string * Method * option nat := (api_URLPattern a, api_Method a, api_Headers a).

Definition adds (op : route_op) : Prop :=
  match op with OpPut api | OpMerge api => wf_pattern (path_pattern (api_key lower api)) = true | _ => False end.

(** The API that was the first to be put at a pattern, with its path in lower
    case. *)
Fixpoint table (ops : list route_op) p : option (string * Method * option nat) :=
  match ops with
  | [] => None
  | OpPut api :: ops =>
      if decide (path_pattern (api_key lower api) = p) then Some (strip (api_of (new_node lower api))) else table ops p
  | _ :: ops => table ops p
  end.

Definition content rt p : option (string * Method * option nat) :=
  match slot rt p with Some (_, Some ptr) => (λ n, strip (api_of n)) <$> rt_nodes rt !! ptr | _ => None end.

Record added rt (T : list seg → option (string * Method * option nat)) : Prop := {
  added_ok : route_ok rt;
  added_live : ∀ q e ptr, q ≠ [] → slot rt q = Some (e, Some ptr) → e = true;
  added_content : ∀ q, q ≠ [] → content rt q = T q;
}.
Lemma added_seen rt T p : added rt T → p ≠ [] → mjoin (seen rt p) = view (root (tree rt)) p ∧
  (view (root (tree rt)) p ≫= λ ptr, (λ n, strip (api_of n)) <$> rt_nodes rt !! ptr) = T p ∧ (view (root (tree rt)) p = None ↔ T p = None).
Proof.
  intros [Hok Hlive Hc] Hp. rewrite <- (Hc p Hp), view_obs. unfold seen, content. fold (slot rt p).
  specialize (Hlive p). destruct (slot rt p) as [[e [ptr|]]|] eqn:E.
  - assert (e = true) as -> by by eapply Hlive. rewrite andb_false_r, orb_true_r. simpl.
    destruct (ok_nodes rt Hok p true ptr Hp E) as (n & -> & _). done.
  - by destruct (ends_var p && negb e), (ends_all p || e).
  - done.
Qed.

Lemma added_put rt T api : wf_pattern (path_pattern (api_key lower api)) = true → added rt T →
  let p := path_pattern (api_key lower api) in
  ((PutAPI lower rt api).2 = Ok tt ↔ T p = None) ∧
  added (PutAPI lower rt api).1 (λ q, if decide (p = q) then Some (default (strip (api_of (new_node lower api))) (T q)) else T q).
Proof.
  intros Hwf Had p. pose proof (path_pattern_not_nil (api_key lower api)) as Hp. fold p in Hp.
  destruct (added_seen rt T p Had Hp) as (Hseen & Hc & Hnone). unfold PutAPI. rewrite getNode_seen by done. fold p. rewrite Hseen.
  destruct (view (root (tree rt)) p) as [ptr|] eqn:Ev.
  - assert (∃ c, T p = Some c) as [c Hcc] by (destruct (T p); [by eexists|by destruct Hnone as [_ ?]; naive_solver]).
    simpl. split; [rewrite Hcc; naive_solver|]. destruct Had as [Hok Hlive Hcont]. split; [done|done|].
    intros q Hq. rewrite Hcont by done. case_decide; [subst q; by rewrite Hcc|done].
  - assert (T p = None) as HT by by apply Hnone. simpl. split; [done|]. destruct Had as [Hok Hlive Hcont].
    assert (registered (root (tree rt)) p = false) as Hreg by (rewrite registered_view by (apply Hok || done); by rewrite Ev).
    assert (∀ q, slot (put_commit lower rt api) q = put_obs (root (tree rt)) p true (length (rt_nodes rt)) q) as Hslot.
    { intros q. rewrite commit_slot by (done || apply Hok). fold p. by rewrite Hreg. }
    split; [by apply commit_ok| |].
    + intros q e ptr Hq. rewrite Hslot. unfold put_obs. fold (slot rt q). case_decide; [by intros [= <- _]|].
      case_decide; [|by eapply Hlive]. destruct (slot rt q) as [[e' b]|] eqn:E; simpl; [|done]. intros [= -> ->]. by eapply Hlive.
    + intros q Hq. unfold content. rewrite Hslot. unfold put_obs. fold (slot rt q). destruct (decide (p = q)) as [<-|Hne].
      * rewrite decide_True, HT by done. cbn [put_commit alloc rt_nodes set_tree]. by rewrite lookup_app_r, Nat.sub_diag.
      * rewrite decide_False by naive_solver. rewrite <- Hcont by done. unfold content. cbn [put_commit alloc rt_nodes set_tree].
        assert (∀ ptr e, slot rt q = Some (e, Some ptr) → (rt_nodes rt ++ [new_node lower api]) !! ptr = rt_nodes rt !! ptr) as Hsame.
        { intros ptr e Hs. destruct (ok_nodes rt Hok q e ptr Hq Hs) as (n & Hn & _). rewrite Hn. by apply lookup_app_l_Some. }
        case_decide; destruct (slot rt q) as [[e [ptr|]]|] eqn:E; simpl; try done; by erewrite Hsame.
Qed.

Lemma added_merge rt T api : wf_pattern (path_pattern (api_key lower api)) = true → added rt T → added (MergeAPI lower rt api).1 T.
Proof.
  intros Hwf [Hok Hlive Hc]. unfold MergeAPI. destruct (Get_seen rt _ Hwf) as (o & ps & ok & -> & _). destruct ok; [|done].
  unfold found_node. destruct o as [tn|]; simpl; [|done]. destruct (bizInfo tn) as [ptr|]; simpl; [|done].
  destruct (rt_nodes rt !! ptr) as [n|] eqn:En; simpl; [|done]. case_decide; [done|].
  destruct (n_metadata n) as [i|]; [split; [by destruct Hok|done|done]|].
  set (n' := mkApiNode _ _ _ _). destruct (set_node_ok rt ptr n n' En eq_refl Hok) as [H1 H2]. split; [by split|done|].
  intros q Hq. rewrite <- Hc by done. unfold content. simpl. change (slot (mkRoute _ _ _ _) q) with (slot rt q).
  destruct (slot rt q) as [[e [ptr'|]]|]; simpl; try done.
  destruct (decide (ptr' = ptr)) as [->|]; [|by rewrite list_lookup_insert_ne].
  rewrite list_lookup_insert_eq by by eapply lookup_lt_Some. by rewrite En.
Qed.
Lemma added_ext rt T T' : (∀ q, T q = T' q) → added rt T → added rt T'.
Proof. intros HT [H1 H2 H3]. split; [done|done|]. intros q Hq. by rewrite H3. Qed.

Lemma added_history rt T ops : Forall adds ops → added rt T →
  added (foldl apply_op rt ops) (λ q, match T q with Some c => Some c | None => table ops q end).
Proof.
  revert rt T. induction ops as [|op ops IH]; intros rt T Hops Had; simpl.
  { eapply added_ext; [|done]. intros q. by destruct (T q). }
  apply Forall_cons in Hops as [Hop Hops]. destruct op as [api| |api| | |]; try done; simpl in Hop.
  - destruct (added_put rt T api Hop Had) as [_ Had']. eapply added_ext; [|by apply (IH _ _ Hops Had')]. intros q. simpl.
    case_decide; by destruct (T q).
  - apply (IH _ _ Hops). by apply added_merge.
Qed.

Lemma added_match rt T path verb : added rt T →
  let key := getTrieKey verb (lower path) false in
  strip <$> MatchAPI lower rt path verb = first_some (λ c, T c.1) (candidate_patterns (Split (CutBefore qmark key))).
Proof.
  intros Had key. unfold MatchAPI. fold key. rewrite matchNode_first by apply Had.
  set (cs := candidate_patterns _). assert (∀ c, c ∈ cs → c.1 ≠ []) as Hne by apply candidate_patterns_not_nil.
  clearbody cs. induction cs as [|[q vs] cs IH]; [done|]. simpl.
  destruct (added_seen rt _ q Had (Hne (q, vs) (list_elem_of_here _ _))) as (_ & <- & Hnone).
  destruct (view (root (tree rt)) q) as [ptr|] eqn:Ev; simpl in *.
  - destruct Hnone as [_ Hnone], (rt_nodes rt !! ptr) as [n|]; simpl in *; [done|]. by specialize (Hnone eq_refl).
  - apply IH. intros c Hc. apply Hne. by constructor.
Qed.

(** A table to which APIs are added and metadata merged is the finite map of
    what was put first at every pattern: an API is accepted exactly when its
    verb and path are free, an API is found exactly at its pattern, and a request
    is matched with the first pattern in the priority order that an API was put
    at, with the method and the headers that were registered. *)
Theorem added_apis_served headers metadata ops : Forall adds ops →
  let rt := foldl apply_op (NewRoute headers metadata) ops in
  (∀ api, wf_pattern (path_pattern (api_key lower api)) = true →
     ((PutAPI lower rt api).2 = Ok tt ↔ table ops (path_pattern (api_key lower api)) = None)) ∧
  (∀ path verb, let key := getTrieKey verb (lower path) false in
     wf_pattern (path_pattern key) = true → strip <$> FindAPI lower rt path verb = table ops (path_pattern key)) ∧
  (∀ path verb, let key := getTrieKey verb (lower path) false in
     strip <$> MatchAPI lower rt path verb = first_some (λ c, table ops c.1) (candidate_patterns (Split (CutBefore qmark key)))).
Proof.
  intros Hops rt. assert (added rt (table ops)) as Had.
  { apply (added_history (NewRoute headers metadata) (λ _, None) ops Hops). split; [apply NewRoute_ok| |];
      intros [|s q]; unfold content, slot, NewRoute; simpl; try done; intros; rewrite obs_at_cons in *; by destruct s. }
  clearbody rt. split_and!.
  - intros api Hwf. apply (added_put rt (table ops) api Hwf Had).
  - intros path verb key Hwf. unfold FindAPI. fold key. rewrite getNode_seen by done.
    destruct (added_seen rt _ (path_pattern key) Had (path_pattern_not_nil key)) as (-> & <- & _).
    destruct (view _ _) as [ptr|]; simpl; [|done]. by destruct (rt_nodes rt !! ptr).
  - intros path verb key. by apply added_match.
Qed.
End invariant.
