(* ===== verification/ApiDiscovery.v ===== *)
(** * APIs from the configuration

    The discovery service of [pkg/filter/http/apiconfig/api/discovery_service.go]
    fills the table of [ApiRoute] from a tree of resources and keeps it up to date
    when resources and methods change; [pkg/server/api_config_manager.go] hands it
    what adapters discover.

    The map of headers is one object: a resource writes its headers into the map
    that it was given, and the APIs keep a pointer to it. *)

From S2P Require Import Prelude GoStrings Endpoint McpHttp Trie ApiRoute.
Import Strings stringutil.

(** ** Data *)

Inductive Resource : Type := mkResource {
  res_Path : string;
  res_Methods : list Method;
  res_Resources : list Resource;
  res_Headers : gmap string string;
}.

Inductive load_error : Type :=
  | BadPath (path parentPath : string)
  | NotAdded (fullPath verb : string) (e : route_error).

Section service.
Context (lower : string → string).
Implicit Types (rt : Route) (r : Resource) (m : Method).

(** [make(map[string]string, 9)] *)
Definition new_headers rt : Route * nat :=
  (mkRoute (tree rt) (rt_nodes rt) (rt_headers rt ++ [∅]) (rt_metadata rt), length (rt_headers rt)).

Definition write_headers rt (fullHeaders : nat) (hs : gmap string string) : Route :=
  mkRoute (tree rt) (rt_nodes rt) (alter (λ old, hs ∪ old) fullHeaders (rt_headers rt)) (rt_metadata rt).

Definition getFullPath (groupPath resourcePath : string) : string := groupPath +:+ resourcePath.

Definition addAPIFromMethod (fullPath : string) m (headers : nat) rt : Route * list load_error :=
  match PutAPI lower rt (mkAPI fullPath m (Some headers) None) with
  | (rt, Ok _) => (rt, [])
  | (rt, Err e) => (rt, [NotAdded fullPath (m_HTTPVerb m) e])
  end.

(** A loop goes on after an error and collects the errors. *)
Definition each_one {A} (f : A → Route → Route * list load_error) (l : list A) rt : Route * list load_error :=
  foldl (λ '(rt, errs) a, let '(rt, e) := f a rt in (rt, errs ++ e)) (rt, []) l.

Definition loadAPIFromMethods (fullPath : string) (methods : list Method) (headers : nat) rt : Route * list load_error :=
  each_one (λ m, addAPIFromMethod fullPath m headers) methods rt.

(** With [loadAPIFromResource] for the resources below. *)
Fixpoint addAPIFromResource r (groupPath parentPath : string) (fullHeaders : nat) rt {struct r} : Route * list load_error :=
  let 'mkResource path methods resources headers := r in
  let fullPath := getFullPath groupPath path in
  if negb (HasPrefix path "/") then (rt, [BadPath path parentPath])
  else
    let rt := write_headers rt fullHeaders headers in
    let below := if decide (path = "/") then "" else path in
    let '(rt, errs) := each_one (λ r, addAPIFromResource r below path fullHeaders) resources rt in
    match errs with
    | [] => loadAPIFromMethods fullPath methods fullHeaders rt
    | _ => (rt, errs)
    end.

Definition InitAPIsFromConfig (resources : list Resource) rt : Route * list load_error :=
  match resources with
  | [] => (rt, [])
  | _ => let '(rt, h) := new_headers rt in each_one (λ r, addAPIFromResource r "" "" h) resources rt
  end.

(** ** Changes *)

Definition deleteAPIFromResource r rt : Route :=
  foldl (λ rt m, (DeleteAPI lower rt (getFullPath "" (res_Path r)) (m_HTTPVerb m)).1) rt (res_Methods r).

Definition ResourceAdd r rt : Route * list load_error :=
  let '(rt, h) := new_headers rt in addAPIFromResource r "" "" h rt.

Definition ResourceChange (new old : Resource) rt : Route * list load_error :=
  let '(rt, h) := new_headers rt in addAPIFromResource new "" "" h (deleteAPIFromResource old rt).

Definition MethodAdd r m rt : Route * list load_error :=
  let '(rt, h) := new_headers rt in addAPIFromMethod (getFullPath "" (res_Path r)) m h rt.

Definition MethodDelete r m rt : Route := (DeleteAPI lower rt (getFullPath "" (res_Path r)) (m_HTTPVerb m)).1.

Definition MethodChange r (new old : Method) rt : Route * list load_error :=
  let '(rt, h) := new_headers rt in addAPIFromMethod (getFullPath "" (res_Path r)) new h (MethodDelete r old rt).

Definition RemoveAPIByPath r rt : Route := DeleteNode rt (getFullPath "" (res_Path r)).

(** ** The filter and the manager of listeners

    A factory that is configured as dynamic listens for an adapter; its table is
    the state of the listener. *)

Inductive api_verdict : Type :=
  | ReplyNotFound
  | ReplyNotOnline
  | Serves (a : API).

Definition apiconfig_Decode rt (path verb : string) : api_verdict :=
  match MatchAPI lower rt path verb with
  | None => ReplyNotFound
  | Some a => if m_Enable (api_Method a) then Serves a else ReplyNotOnline
  end.

Definition ApiConfigManager : Type := gmap string Route.

(** [None] is the panic. *)
Definition AddApiConfigListener (acm : ApiConfigManager) (adapterID : string) rt : option ApiConfigManager :=
  match acm !! adapterID with Some _ => None | None => Some (<[adapterID := rt]> acm) end.

Definition manager_AddAPI (acm : ApiConfigManager) (adapterID : string) (a : API) : ApiConfigManager * result route_error unit :=
  match acm !! adapterID with
  | None => (acm, Ok tt)
  | Some rt => let '(rt, e) := PutOrUpdateAPI lower rt a in (<[adapterID := rt]> acm, e)
  end.

(** [None]: no listener found. *)
Definition manager_RemoveAPI (acm : ApiConfigManager) (adapterID : string) (a : API) : option ApiConfigManager :=
  rt ← acm !! adapterID; Some (<[adapterID := RemoveAPI lower rt a]> acm).

Definition manager_DeleteRouter (acm : ApiConfigManager) (adapterID : string) r : option ApiConfigManager :=
  rt ← acm !! adapterID; Some (<[adapterID := RemoveAPIByPath r rt]> acm).

(** ** The APIs of a configuration *)

Definition method_apis (fullPath : string) (methods : list Method) (h : nat) : list API :=
  (λ m, mkAPI fullPath m (Some h) None) <$> methods.

(** In the order in which they are put. *)
Fixpoint resource_apis r (groupPath : string) (h : nat) : list API :=
  let 'mkResource path methods resources _ := r in
  let below := if decide (path = "/") then "" else path in
  concat (map (λ r, resource_apis r below h) resources) ++ method_apis (getFullPath groupPath path) methods h.

Fixpoint paths_ok r : bool :=
  let 'mkResource path _ resources _ := r in HasPrefix path "/" && forallb paths_ok resources.
(** *** Loading is putting *)

Definition api_pattern (a : API) : list seg := path_pattern (api_key lower a).

Definition table_type : Type := list seg → option (string * Method * option nat).
Definition extend (T : table_type) (apis : list API) : table_type :=
  λ q, match T q with Some c => Some c | None => table lower (OpPut <$> apis) q end.

Definition free (T : table_type) (apis : list API) : Prop :=
  NoDup (map api_pattern apis) ∧ ∀ a, a ∈ apis → wf_pattern (api_pattern a) = true ∧ T (api_pattern a) = None.

Definition loads (f : Route → Route * list load_error) (apis : list API) : Prop :=
  ∀ rt T, added rt T → free T apis → (f rt).2 = [] ∧ added (f rt).1 (extend T apis).

Lemma table_app l1 l2 q : table lower (OpPut <$> (l1 ++ l2)) q = match table lower (OpPut <$> l1) q with Some c => Some c | None => table lower (OpPut <$> l2) q end.
Proof. induction l1 as [|a l1 IH]; simpl; [done|]. by case_decide. Qed.

Lemma table_None l q : q ∉ map api_pattern l → table lower (OpPut <$> l) q = None.
Proof.
  induction l as [|a l IH]; simpl; [done|]. intros [Hne Hl]%not_elem_of_cons. rewrite decide_False; [by apply IH|]. intros H. by apply Hne.
Qed.

Lemma free_app T l1 l2 : free T (l1 ++ l2) → free T l1 ∧ free (extend T l1) l2.
Proof.
  intros [Hnd Hf]. rewrite map_app in Hnd. apply NoDup_app in Hnd as (H1 & H12 & H2). split; split; try done.
  - intros a Ha. apply Hf. apply elem_of_app. by left.
  - intros a Ha. destruct (Hf a) as [Hw HT]; [apply elem_of_app; by right|]. split; [done|]. unfold extend. rewrite HT.
    apply table_None. intros Hin. apply (H12 _ Hin). by apply list_elem_of_fmap_2.
Qed.

Lemma added_extend_app rt T l1 l2 : added rt (extend (extend T l1) l2) → added rt (extend T (l1 ++ l2)).
Proof. apply added_ext. intros q. unfold extend. rewrite table_app. by destruct (T q). Qed.

Lemma each_from {A} (f : A → Route → Route * list load_error) l rt errs :
  foldl (λ '(rt, errs) a, let '(rt, e) := f a rt in (rt, errs ++ e)) (rt, errs) l = let '(rt', e) := each_one f l rt in (rt', errs ++ e).
Proof.
  revert rt errs. induction l as [|a l IH]; intros rt errs; simpl; [by rewrite List.app_nil_r|]. unfold each_one. simpl.
  destruct (f a rt) as [rt1 e1]. rewrite !IH. destruct (each_one f l rt1) as [rt2 e2]. by rewrite List.app_assoc.
Qed.

Lemma each_loads {A} (f : A → Route → Route * list load_error) (apis : A → list API) l :
  Forall (λ a, loads (f a) (apis a)) l → loads (each_one f l) (concat (map apis l)).
Proof.
  induction 1 as [|a l Ha _ IH]; intros rt T Had Hfree; simpl in *.
  { split; [done|]. eapply added_ext; [|done]. intros q. unfold extend. simpl. by destruct (T q). }
  apply free_app in Hfree as [H1 H2]. destruct (Ha rt T Had H1) as [Herr Had1]. unfold each_one. simpl.
  destruct (f a rt) as [rt1 e1]. simpl in *. subst e1. rewrite each_from.
  destruct (IH rt1 _ Had1 H2) as [Herr2 Had2]. destruct (each_one f l rt1) as [rt2 e2]. simpl in *. subst e2. split; [done|]. by apply added_extend_app.
Qed.

Lemma method_loads fullPath m h : loads (addAPIFromMethod fullPath m h) [mkAPI fullPath m (Some h) None].
Proof.
  intros rt T Had [_ Hfree]. destruct (Hfree _ (list_elem_of_here _ _)) as [Hwf HT]. unfold addAPIFromMethod.
  destruct (added_put lower rt T _ Hwf Had) as [Hok Had']. fold (api_pattern (mkAPI fullPath m (Some h) None)) in Hok, Had'.
  rewrite HT in Hok. destruct (PutAPI lower rt _) as [rt' o]. simpl in *. destruct Hok as [_ Hok]. rewrite (Hok eq_refl). split; [done|].
  eapply added_ext; [|done]. intros q. unfold extend. simpl. fold (api_pattern (mkAPI fullPath m (Some h) None)).
  case_decide; by destruct (T q).
Qed.

Lemma methods_load fullPath methods h : loads (loadAPIFromMethods fullPath methods h) (method_apis fullPath methods h).
Proof.
  unfold method_apis, loadAPIFromMethods. replace ((λ m, mkAPI fullPath m (Some h) None) <$> methods)
    with (concat (map (λ m, [mkAPI fullPath m (Some h) None]) methods)) by (induction methods; simpl; by f_equal).
  apply each_loads, Forall_forall. intros m _. apply method_loads.
Qed.

Lemma resource_loads r : ∀ groupPath parentPath h, paths_ok r = true →
  loads (addAPIFromResource r groupPath parentPath h) (resource_apis r groupPath h).
Proof.
  revert r. fix IH 1. intros [path methods resources headers] groupPath parentPath h Hp. simpl in *. apply andb_true_iff in Hp as [Hp Hrs].
  rewrite Hp. simpl. set (below := if decide (path = "/") then "" else path).
  assert (loads (each_one (λ r, addAPIFromResource r below path h) resources) (concat (map (λ r, resource_apis r below h) resources))) as Hbelow.
  { apply each_loads. clearbody below. clear Hp. induction resources as [|r rs IHrs]; constructor.
    - simpl in Hrs. apply andb_true_iff in Hrs as [Hr _]. by apply IH.
    - simpl in Hrs. apply andb_true_iff in Hrs as [_ Hrs]. by apply IHrs. }
  intros rt T Had [H1 H2]%free_app.
  assert (added (write_headers rt h headers) T) as Had0 by (destruct Had as [[? ?] ? ?]; by split; [split| |]).
  destruct (Hbelow _ T Had0 H1) as [Herr Had1]. destruct (each_one _ resources _) as [rt1 errs]. simpl in *. subst errs.
  destruct (methods_load (getFullPath groupPath path) methods h rt1 _ Had1 H2) as [Herr Had2]. split; [done|]. by apply added_extend_app.
Qed.

(** A change of a method loses its API: it is deleted and put again, but the path
    is used up by then ([ApiRoute.deleted]).  The change reports an error, and
    requests no longer reach the API, neither the old nor the new one. *)
Theorem method_change_loses_api rt r new old path verb a :
  let key := getTrieKey (m_HTTPVerb old) (lower (res_Path r)) false in
  let '(rt', errs) := MethodChange r new old rt in
  route_ok rt → plain key = true → ends_var (path_pattern key) = false → m_HTTPVerb new = m_HTTPVerb old →
  is_Some (FindAPI lower rt (res_Path r) (m_HTTPVerb old)) →
  errs ≠ [] ∧ (MatchAPI lower rt' path verb = Some a →
    path_pattern (getTrieKey (m_HTTPVerb (api_Method a)) (api_URLPattern a) false) ≠ path_pattern key).
Proof.
  intros key. destruct (MethodChange r new old rt) as [rt' errs] eqn:E. intros Hok Hp Hv Hverb Hfind.
  unfold MethodChange, MethodDelete in E. cbn [new_headers] in E. change (getFullPath "" (res_Path r)) with (res_Path r) in E. set (rt1 := mkRoute (tree rt) (rt_nodes rt) _ _) in E.
  assert (route_ok rt1) as Hok1 by (destruct Hok; by split).
  assert ((DeleteAPI lower rt1 (res_Path r) (m_HTTPVerb old)).2 = true) as Hd.
  { unfold FindAPI in Hfind. unfold DeleteAPI. change (getNode rt1) with (getNode rt). fold key in Hfind |- *.
    destruct (getNode rt key); [done|by destruct Hfind]. }
  destruct (deleted_path_is_lost lower rt1 (res_Path r) (m_HTTPVerb old) [] Hok1 Hp Hv Hd) as (_ & Hput & Hmatch); [by constructor|].
  cbn [foldl] in Hput, Hmatch. unfold addAPIFromMethod in E.
  destruct (Hput (mkAPI (res_Path r) new (Some (length (rt_headers rt))) None)) as [e He]; [unfold api_key; simpl; by rewrite Hverb|].
  rewrite He in E. injection E as <- <-. split; [done|]. apply Hmatch.
Qed.
End service.

(** ** Runs *)

Module apis.

Definition method (verb url : string) : Method := mkMethod verb true url "".
Definition api (path url : string) : API := mkAPI path (method "POST" url) None None.
Definition empty : Route := NewRoute [] [].
Definition register (path url : string) (rt : Route) : Route := (PutOrUpdateAPI ToLower rt (api path url)).1.
Definition url_at (rt : Route) (path : string) : option string := (λ a, m_URL (api_Method a)) <$> MatchAPI ToLower rt path "POST".

(** A service that comes back is not served.  Its only instance registers, goes
    away and registers again: without an error, but the path is not matched any
    more.  With another address the node collects the addresses, and is not
    matched either. *)
Theorem restarted_service_lost :
  let up := register "/app/Service/Call" "10.0.0.1:20000" empty in
  let down := RemoveAPI ToLower up (api "/app/Service/Call" "10.0.0.1:20000") in
  url_at up "/app/Service/Call" = Some "10.0.0.1:20000" ∧
  (PutOrUpdateAPI ToLower down (api "/app/Service/Call" "10.0.0.1:20000")).2 = Ok tt ∧
  url_at (register "/app/Service/Call" "10.0.0.1:20000" down) "/app/Service/Call" = None ∧
  url_at (register "/app/Service/Call" "10.0.0.2:20000" down) "/app/Service/Call" = None.
Proof. vm_compute. by split_and!. Qed.

(** Addresses are compared as texts: an instance whose address is contained in
    another one's is not added, and when it goes away it takes the other one
    along. *)
Example addresses_confused :
  let one := register "/app/Service/Call" "10.0.0.1:20000" empty in
  register "/app/Service/Call" "10.0.0.1:2000" one = one ∧
  url_at (RemoveAPI ToLower one (api "/app/Service/Call" "10.0.0.1:2000")) "/app/Service/Call" = None.
Proof. vm_compute. by split_and!. Qed.

(** An API above another one is refused. *)
Example api_above_refused :
  (PutOrUpdateAPI ToLower (register "/app/Service/Call" "10.0.0.1:20000" empty) (api "/app/Service" "10.0.0.1:20000")).2 = Err NotANode.
Proof. vm_compute. reflexivity. Qed.

(** Two tasks that put an API at the same path can both be told that they
    succeeded; the first one's is kept. *)
Example put_race :
  let key := api_key ToLower (api "/a" "first") in
  getNode empty key = None ∧
  url_at (put_commit ToLower (put_commit ToLower empty (api "/a" "first")) (api "/a" "second")) "/a" = Some "first".
Proof. vm_compute. by split_and!. Qed.

Definition orders : Resource :=
  mkResource "/shop" [] [mkResource "/orders" [method "GET" "a"] [mkResource "/items" [method "GET" "b"] [] ∅] ∅] {[ "X-Tenant" := "shop" ]}.
Definition users : Resource := mkResource "/users" [method "GET" "c"] [] ∅.
Definition loaded : Route := (InitAPIsFromConfig ToLower [orders; users] empty).1.

Definition headers_at (rt : Route) (path : string) : option (gmap string string) :=
  a ← MatchAPI ToLower rt path "GET"; i ← api_Headers a; rt_headers rt !! i.

(** Resources do not stay apart.  The headers of a resource reach the APIs of
    every other resource of the configuration, because all of them write to one
    map; and a resource three levels deep is served without the path of the
    first one. *)
Theorem resources_not_apart :
  (InitAPIsFromConfig ToLower [orders; users] empty).2 = [] ∧
  headers_at loaded "/users" = Some {[ "X-Tenant" := "shop" ]} ∧
  MatchAPI ToLower loaded "/shop/orders/items" "GET" = None ∧
  api_URLPattern <$> MatchAPI ToLower loaded "/orders/items" "GET" = Some "/orders/items".
Proof. split_and!; vm_compute; reflexivity. Qed.

(** The path of an API is put in lower case with the names of its parameters, so
    that a parameter is not known by its configured name. *)
Example parameter_renamed :
  let rt := (PutAPI ToLower empty (mkAPI "/user/:userId" (method "GET" "a") None None)).1 in
  (a ← MatchAPI ToLower rt "/user/42" "GET"; GetURIParams (λ a b, bool_decide (ToLower a = ToLower b)) a "/user/42") =
    Some {[ "userid" := ["42"] ]}.
Proof. vm_compute. reflexivity. Qed.


Lemma registered_ok path url rt : plain (api_key ToLower (api path url)) = true → route_ok rt → route_ok (register path url rt).
Proof. intros Hp Hok. apply (edits_kept ToLower rt); [|done]. by apply put_or_update_edits. Qed.

Definition served : Route := register "/app/Service/Call" "10.0.0.1:20000" empty.

Lemma served_ok : route_ok served.
Proof. apply registered_ok; [vm_compute; reflexivity|apply NewRoute_ok]. Qed.

Lemma served_plain : plain (getTrieKey "POST" (ToLower "/app/Service/Call") false) = true ∧
  ends_var (path_pattern (getTrieKey "POST" (ToLower "/app/Service/Call") false)) = false.
Proof. vm_compute. by split. Qed.

Lemma served_deletes : (DeleteAPI ToLower served "/app/Service/Call" "POST").2 = true.
Proof. vm_compute. reflexivity. Qed.

Definition again : list route_op := [OpPutOrUpdate (api "/app/Service/Call" "10.0.0.2:20000")].

Lemma again_plain : Forall (op_plain ToLower) again.
Proof. apply Forall_singleton. vm_compute. reflexivity. Qed.

Lemma deleted_path_is_lost_witness :
  is_Some (FindAPI ToLower (foldl (apply_op ToLower) (DeleteAPI ToLower served "/app/Service/Call" "POST").1 again) "/app/Service/Call" "POST").
Proof.
  exact (proj1 (deleted_path_is_lost ToLower served "/app/Service/Call" "POST" again served_ok (proj1 served_plain) (proj2 served_plain)
    served_deletes again_plain)).
Defined.

Definition service : Resource := mkResource "/app/Service/Call" [] [] ∅.

Lemma served_found : is_Some (FindAPI ToLower served "/app/Service/Call" "POST").
Proof. vm_compute. by eexists. Qed.

Lemma method_change_loses_api_witness :
  (MethodChange ToLower service (method "POST" "10.0.0.1:20001") (method "POST" "10.0.0.1:20000") served).2 ≠ [].
Proof.
  pose proof (method_change_loses_api ToLower served service (method "POST" "10.0.0.1:20001") (method "POST" "10.0.0.1:20000") "" "" (api "" "")) as H.
  destruct (MethodChange ToLower service _ _ served) as [rt' errs].
  exact (proj1 (H served_ok (proj1 served_plain) (proj2 served_plain) eq_refl served_found)).
Defined.
End apis.
