(* ===== verification/FilterManager.v ===== *)
(** * Life of the HTTP filter factories

    [pkg/common/extension/filter/filter_manager.go], with the registry of
    [filter.go] and the leases of [filter_chain.go]: a filter manager builds
    factories from the configuration, lends them to the chains of requests,
    replaces them on a reload and closes them.

    Requests, reloads and the closing of the manager run at the same time.  A
    task is what is left of such a call; [resume] runs it up to the end of its
    next critical section, or over one call into a filter.  [fm.mu] and
    [fm.lifecycleMu] make each of these steps atomic: a lease holds [fm.mu] for
    reading while it counts, and whatever changes the table holds it for
    writing.  What filters and plugins answer is chosen by the [answer] of each
    step, panics included.

    Theorems: a factory is not called and not closed again once it was closed
    ([closed_is_final]); when nothing is in flight, each factory that was built
    is in the table or was closed ([no_factory_leaks]); a checked reload is all
    or nothing ([checked_reload]). *)

From S2P Require Import Prelude GoStrings.

#[local] Arguments occurs : simpl never.

(** ** The registry of plugins

    The same code for the HTTP, network, Dubbo and gRPC plugins; [None] is a
    panic. *)

Section registry.
Context {Plugin : Type} (Kind : Plugin → string).
Implicit Types (registry : gmap string Plugin) (f : Plugin).

Definition RegisterHttpFilter registry f : option (gmap string Plugin) :=
  if decide (Kind f = "") then None
  else match registry !! Kind f with
       | Some _ => None
       | None => Some (<[Kind f := f]> registry)
       end.

Definition GetHttpFilterPlugin registry (kind : string) : option Plugin := registry !! kind.

Fixpoint register_all registry (plugins : list Plugin) : option (gmap string Plugin) :=
  match plugins with
  | [] => Some registry
  | f :: plugins =>
      match RegisterHttpFilter registry f with
      | Some registry => register_all registry plugins
      | None => None
      end
  end.

(** A plugin is found under its kind from the time of its registration. *)
Lemma registered_plugins registry plugins registry' :
  register_all registry plugins = Some registry' →
  NoDup (Kind <$> plugins) ∧
  (∀ f, f ∈ plugins → GetHttpFilterPlugin registry' (Kind f) = Some f ∧ registry !! Kind f = None) ∧
  (∀ kind f, registry !! kind = Some f → registry' !! kind = Some f).
Proof.
  revert registry. induction plugins as [|f plugins IH]; intros registry; simpl.
  { intros [= ->]. split_and!; [constructor| |done]. intros f Hf. by apply not_elem_of_nil in Hf. }
  unfold RegisterHttpFilter. destruct (decide (Kind f = "")); [done|].
  destruct (registry !! Kind f) eqn:E; [done|]. intros (Hnd & Hin & Hold)%IH. split_and!.
  - constructor; [|done]. intros (g & Hg & Hg')%list_elem_of_fmap. apply Hin in Hg' as [_ Hg'].
    rewrite <- Hg, lookup_insert_eq in Hg'. done.
  - intros g [->|Hg]%elem_of_cons.
    + split; [|done]. apply Hold. by rewrite lookup_insert_eq.
    + apply Hin in Hg as [? Hg]. split; [done|]. by apply lookup_insert_None in Hg as [? _].
  - intros kind g Hk. apply Hold. rewrite lookup_insert_ne; [done|]. congruence.
Qed.
End registry.

(** ** State *)

(** [*HttpFilterFactory]; 0 is the nil pointer. *)
Abbreviation ptr := nat (only parsing).

Record HTTPFilter (Conf : Type) : Type := mkHTTPFilter { hf_Name : string; hf_Config : Conf }.
Arguments mkHTTPFilter {_}.
Arguments hf_Name {_}.
Arguments hf_Config {_}.

(** A factory may have a [Close] method. *)
Record factory : Type := mkFactory { fac_name : string; fac_closer : bool }.

Record FilterManager : Type := mkFilterManager {
  fm_filters : gmap string ptr;
  fm_filtersArray : list ptr;
  fm_factoryRefs : gmap ptr Z;
  fm_retired : gset ptr;
  fm_closed : bool;
}.

Definition NewFilterManager : FilterManager := mkFilterManager ∅ [] ∅ ∅ false.

(** A missing key reads as 0. *)
Definition refs (m : gmap ptr Z) (f : ptr) : Z := default 0%Z (m !! f).

(** ** Leases *)

Fixpoint leaseFactories (m : gmap ptr Z) (factories : list ptr) : gmap ptr Z :=
  match factories with
  | [] => m
  | f :: factories =>
      leaseFactories (if decide (f = 0) then m else <[f := (refs m f + 1)%Z]> m) factories
  end.

(** The loop of [retireFactories]; the last component is [ready]. *)
Fixpoint retire_loop (m : gmap ptr Z) (factories : list ptr) (retired : gset ptr) (ready : list ptr) :
    gset ptr * list ptr :=
  match factories with
  | [] => (retired, ready)
  | f :: factories =>
      if decide (f = 0) then retire_loop m factories retired ready
      else
        let retired := {[f]} ∪ retired in
        if (refs m f =? 0)%Z then retire_loop m factories (retired ∖ {[f]}) (ready ++ [f])
        else retire_loop m factories retired ready
  end.

Definition retireFactories (fm : FilterManager) (factories : list ptr) : FilterManager * list ptr :=
  let '(retired, ready) := retire_loop (fm_factoryRefs fm) factories (fm_retired fm) [] in
  (mkFilterManager (fm_filters fm) (fm_filtersArray fm) (fm_factoryRefs fm) retired (fm_closed fm), ready).

(** The loop of [releaseFactories]. *)
Fixpoint release_loop (factories : list ptr) (m : gmap ptr Z) (retired : gset ptr) (ready : list ptr) :
    gmap ptr Z * gset ptr * list ptr :=
  match factories with
  | [] => (m, retired, ready)
  | f :: factories =>
      if decide (f = 0) then release_loop factories m retired ready
      else
        let m := <[f := (refs m f - 1)%Z]> m in
        if (refs m f =? 0)%Z then
          let m := delete f m in
          if decide (f ∈ retired) then release_loop factories m (retired ∖ {[f]}) (ready ++ [f])
          else release_loop factories m retired ready
        else release_loop factories m retired ready
  end.

Definition releaseFactories (fm : FilterManager) (factories : list ptr) : FilterManager * list ptr :=
  let '(m, retired, ready) := release_loop factories (fm_factoryRefs fm) (fm_retired fm) [] in
  (mkFilterManager (fm_filters fm) (fm_filtersArray fm) m retired (fm_closed fm), ready).

(** ** What the loops do, pointer by pointer *)

Definition flag (b : bool) : nat := if b then 1 else 0.
Definition is_retired (retired : gset ptr) (f : ptr) : bool := bool_decide (f ∈ retired).

Lemma refs_insert m f g z : refs (<[f := z]> m) g = if decide (g = f) then z else refs m g.
Proof.
  unfold refs. destruct (decide (g = f)) as [->|]; [by rewrite lookup_insert_eq|by rewrite lookup_insert_ne].
Qed.

Lemma refs_delete m f g : refs (delete f m) g = if decide (g = f) then 0%Z else refs m g.
Proof.
  unfold refs. destruct (decide (g = f)) as [->|]; [by rewrite lookup_delete_eq|by rewrite lookup_delete_ne].
Qed.

Lemma lease_refs l m f : 0 ∉ l → refs (leaseFactories m l) f = (refs m f + Z.of_nat (occurs f l))%Z.
Proof.
  revert m. induction l as [|g l IH]; intros m; simpl; [intros _; rewrite occurs_nil; lia|].
  intros [H0 Hl]%not_elem_of_cons. rewrite decide_False by done. rewrite IH by done.
  rewrite refs_insert, occurs_cons. destruct (decide (f = g)) as [->|]; lia.
Qed.

Lemma is_retired_union (g f : ptr) retired :
  is_retired ({[g]} ∪ retired) f = if decide (f = g) then true else is_retired retired f.
Proof. unfold is_retired. destruct (decide (f = g)); [case_bool_decide; set_solver|apply bool_decide_ext; set_solver]. Qed.

Lemma is_retired_difference (g f : ptr) retired :
  is_retired (retired ∖ {[g]}) f = if decide (f = g) then false else is_retired retired f.
Proof. unfold is_retired. destruct (decide (f = g)); [case_bool_decide; set_solver|apply bool_decide_ext; set_solver]. Qed.

(** A factory that is retired is ready to be closed if it is not on loan, and
    retired for later otherwise. *)
Lemma retire_loop_spec m l retired ready :
  0 ∉ l → (∀ f, occurs f l + flag (is_retired retired f) ≤ 1) →
  let '(retired', ready') := retire_loop m l retired ready in
  ∀ f, occurs f ready' + flag (is_retired retired' f) =
         occurs f ready + occurs f l + flag (is_retired retired f) ∧
       (occurs f ready < occurs f ready' → refs m f = 0%Z) ∧
       (is_retired retired' f = true → is_retired retired f = false → refs m f ≠ 0%Z).
Proof.
  revert retired ready. induction l as [|g l IH]; intros retired ready; simpl.
  { intros _ _ f. rewrite occurs_nil. split_and!; [lia|lia|congruence]. }
  intros [H0 Hl]%not_elem_of_cons Hu. rewrite decide_False by done.
  destruct (refs m g =? 0)%Z eqn:E.
  - specialize (IH (({[g]} ∪ retired) ∖ {[g]}) (ready ++ [g]) Hl).
    ospecialize (IH _); [intros f; specialize (Hu f); rewrite is_retired_difference, is_retired_union;
      rewrite occurs_cons in Hu; destruct (decide (f = g)); simpl; lia|].
    destruct (retire_loop _ _ _ _) as [retired' ready']. intros f.
    destruct (IH f) as (IH1 & IH2 & IH3). specialize (Hu f).
    rewrite is_retired_difference, is_retired_union in IH1, IH3. occurs_simpl.
    destruct (decide (f = g)) as [->|]; split_and!; simpl in *; intros; try lia.
    all: first [apply IH2; lia | by apply IH3 | idtac].
  - specialize (IH ({[g]} ∪ retired) ready Hl).
    ospecialize (IH _); [intros f; specialize (Hu f); rewrite is_retired_union;
      rewrite occurs_cons in Hu; destruct (decide (f = g)); simpl; lia|].
    destruct (retire_loop _ _ _ _) as [retired' ready']. intros f.
    destruct (IH f) as (IH1 & IH2 & IH3). specialize (Hu f).
    rewrite is_retired_union in IH1, IH3. occurs_simpl.
    destruct (decide (f = g)) as [->|]; split_and!; simpl in *; intros; try lia; auto.
Qed.

(** A lease that is given back makes those retired factories ready to be closed
    that were lent to nobody else. *)
Lemma release_loop_spec l m retired ready :
  0 ∉ l → (∀ f, occurs f l ≤ 1) →
  let '(m', retired', ready') := release_loop l m retired ready in
  ∀ f, refs m' f = (refs m f - Z.of_nat (occurs f l))%Z ∧
       occurs f ready' + flag (is_retired retired' f) = occurs f ready + flag (is_retired retired f) ∧
       (occurs f ready < occurs f ready' → refs m' f = 0%Z) ∧
       (is_retired retired' f = true → 0 < occurs f l → refs m' f ≠ 0%Z) ∧
       occurs f ready ≤ occurs f ready'.
Proof.
  revert m retired ready. induction l as [|g l IH]; intros m retired ready; simpl.
  { intros _ _ f. rewrite occurs_nil. split_and!; lia. }
  intros [H0 Hl]%not_elem_of_cons Hu. rewrite decide_False by done. rewrite refs_insert, decide_True by done.
  assert (∀ f, occurs f l ≤ 1) as Hu' by (intros f; specialize (Hu f); rewrite occurs_cons in Hu; lia).
  assert (occurs g l = 0) as Hg by (specialize (Hu g); rewrite occurs_cons, decide_True in Hu by done; lia).
  destruct (refs m g - 1 =? 0)%Z eqn:E; [destruct (decide (g ∈ retired)) as [Hr|Hr]|].
  - specialize (IH (delete g (<[g := (refs m g - 1)%Z]> m)) (retired ∖ {[g]}) (ready ++ [g]) Hl Hu').
    destruct (release_loop _ _ _ _) as [[m' retired'] ready']. intros f.
    destruct (IH f) as (IH1 & IH2 & IH3 & IH4 & IH5). rewrite refs_delete, refs_insert in IH1.
    rewrite is_retired_difference in IH2. rewrite !occurs_app, !occurs_cons, !occurs_nil in *.
    apply (bool_decide_eq_true_2 (g ∈ retired)) in Hr. fold (is_retired retired g) in Hr.
    destruct (decide (f = g)) as [->|]; [|split_and!; simpl in *; try lia; auto].
    rewrite Hr. destruct (is_retired retired' g); simpl in *; split_and!; intros; lia.
  - specialize (IH (delete g (<[g := (refs m g - 1)%Z]> m)) retired ready Hl Hu').
    destruct (release_loop _ _ _ _) as [[m' retired'] ready']. intros f.
    destruct (IH f) as (IH1 & IH2 & IH3 & IH4 & IH5). rewrite refs_delete, refs_insert in IH1. rewrite !occurs_cons in *.
    apply (bool_decide_eq_false_2 (g ∈ retired)) in Hr. fold (is_retired retired g) in Hr.
    destruct (decide (f = g)) as [->|]; [|split_and!; simpl in *; try lia; auto].
    rewrite Hr in *. destruct (is_retired retired' g); simpl in *; split_and!; intros; try lia; auto.
  - specialize (IH (<[g := (refs m g - 1)%Z]> m) retired ready Hl Hu').
    destruct (release_loop _ _ _ _) as [[m' retired'] ready']. intros f.
    destruct (IH f) as (IH1 & IH2 & IH3 & IH4 & IH5). rewrite refs_insert in IH1. rewrite !occurs_cons in *.
    destruct (decide (f = g)) as [->|]; split_and!; simpl in *; intros; try lia; auto.
Qed.

(** ** Calls in progress *)

Inductive apply_error : Type :=
  | EmptyName
  | FilterNotFound
  | PluginCreateError
  | NilFilterFactory
  | ConfigError (e : string)
  | DefaultsError (e : string)
  | CreateFail (e : string).

Inductive fault : Type :=
  | ManagerClosed
  | NotApplied (i : nat) (name : string) (e : apply_error)
  | NilFactory (i : nat)
  | NotPrepared (i : nat) (e : string)
  | CloseError (e : string).

Inductive outcome : Type := Returned (e : option fault) | Panicked.

(** What a call to a plugin or to a filter answers. *)
Inductive reply : Type := Fine | Fails (e : string) | Panics.

(** [CreateFilterFactory], and what happens to the factory in [Apply]: the
    parsing of its configuration, its defaults, its own [Apply], and its
    [Close] should one of these fail. *)
Inductive creation : Type :=
  | CreateFails
  | CreateNil
  | CreatePanics
  | Creates (closer : bool) (config defaults apply closing : reply).

Record answer : Type := mkAnswer {
  an_creation : creation;
  an_reply : reply;
  (** The factory whose filter runs next; [None] when all filters have run. *)
  an_run : option nat;
}.

Inductive event : Type :=
  | Called (f : ptr)
  | Closed (f : ptr)
  (** A factory without [Close] is dropped. *)
  | Skipped (f : ptr).

(** A chain with its lease; [ch_released] is its [sync.Once]. *)
Record chain : Type := mkChain { ch_factories : list ptr; ch_released : bool }.

Section manager.
Context {Conf Plugin : Type} (registry : gmap string Plugin).

(** What is left of a call.  [Reloading] is the loop of [reload] and its
    commit; [Preparing] the loop of [CreateFilterChain]; [Serving] a request
    that runs the filters of its chain; [Releasing] the deferred [Release];
    [Closing] is [closeFactories], whose error is logged and replaced by a
    given outcome, but for [Close]. *)
Inductive task : Type :=
  | Reloading (strict : bool) (i : nat) (todo : list (option (HTTPFilter Conf))) (tmp : gmap string ptr)
      (built : list ptr)
  | Preparing (checked : bool) (c : nat) (index : nat) (todo : list ptr)
  | Serving (c : nat)
  | Releasing (c : nat) (after : outcome)
  | Closing (ready : list ptr) (firstErr : option string) (after : option outcome)
  | Done (o : outcome).

(** [sys_lost]: the factories that a panic has left neither closed nor in the
    table. *)
Record system : Type := mkSystem {
  sys_fm : FilterManager;
  sys_heap : gmap ptr factory;
  sys_next : ptr;
  sys_chains : list chain;
  sys_tasks : list task;
  sys_trace : list event;
  sys_lost : list ptr;
}.
Implicit Types (s : system).

Definition initial : system := mkSystem NewFilterManager ∅ 1 [] [] [] [].

Definition set_fm s fm : system :=
  mkSystem fm (sys_heap s) (sys_next s) (sys_chains s) (sys_tasks s) (sys_trace s) (sys_lost s).
Definition set_task s (t : nat) (k : task) : system :=
  mkSystem (sys_fm s) (sys_heap s) (sys_next s) (sys_chains s) (<[t := k]> (sys_tasks s)) (sys_trace s) (sys_lost s).
Definition add_task s (k : task) : system :=
  mkSystem (sys_fm s) (sys_heap s) (sys_next s) (sys_chains s) (sys_tasks s ++ [k]) (sys_trace s) (sys_lost s).
Definition set_chains s (chains : list chain) : system :=
  mkSystem (sys_fm s) (sys_heap s) (sys_next s) chains (sys_tasks s) (sys_trace s) (sys_lost s).
Definition log s (e : event) : system :=
  mkSystem (sys_fm s) (sys_heap s) (sys_next s) (sys_chains s) (sys_tasks s) (sys_trace s ++ [e]) (sys_lost s).
Definition lose s (l : list ptr) : system :=
  mkSystem (sys_fm s) (sys_heap s) (sys_next s) (sys_chains s) (sys_tasks s) (sys_trace s) (sys_lost s ++ l).
Definition alloc s (f : factory) : system :=
  mkSystem (sys_fm s) (<[sys_next s := f]> (sys_heap s)) (sys_next s + 1) (sys_chains s) (sys_tasks s) (sys_trace s)
    (sys_lost s).

(** ** Building factories *)

Inductive applied : Type :=
  | Applied (f : ptr)
  | Refused (e : apply_error)
  | ApplyPanics.

(** [closeFilter], after which [Apply] returns the error. *)
Definition closeFilter s (f : ptr) (closer : bool) (closing : reply) (e : apply_error) : system * applied :=
  let s := log s (if closer then Closed f else Skipped f) in
  match closer, closing with
  | true, Panics => (s, ApplyPanics)
  | _, _ => (s, Refused e)
  end.

Definition Apply s (name : string) (a : creation) : system * applied :=
  match GetHttpFilterPlugin registry name with
  | None => (s, Refused FilterNotFound)
  | Some _ =>
      match a with
      | CreateFails => (s, Refused PluginCreateError)
      | CreateNil => (s, Refused NilFilterFactory)
      | CreatePanics => (s, ApplyPanics)
      | Creates closer config defaults apply closing =>
          let f := sys_next s in
          let s := alloc s (mkFactory name closer) in
          match config with
          | Panics => (lose s [f], ApplyPanics)
          | Fails e => closeFilter s f closer closing (ConfigError e)
          | Fine =>
              match defaults with
              | Panics => (lose s [f], ApplyPanics)
              | Fails e => closeFilter s f closer closing (DefaultsError e)
              | Fine =>
                  match apply with
                  | Panics => (lose s [f], ApplyPanics)
                  | Fails e => closeFilter s f closer closing (CreateFail e)
                  | Fine => (s, Applied f)
                  end
              end
          end
      end
  end.

(** ** Steps *)

Definition reload_failed s (t : nat) (strict : bool) (i : nat) (name : string) (e : apply_error)
    (todo : list (option (HTTPFilter Conf))) (tmp : gmap string ptr) (built : list ptr) : system :=
  if strict then set_task s t (Closing built None (Some (Returned (Some (NotApplied i name e)))))
  else set_task s t (Reloading strict (i + 1) todo tmp built).

(** One round of the loop of [reload]. *)
Definition reload_round s (t : nat) (strict : bool) (i : nat) (o : option (HTTPFilter Conf))
    (todo : list (option (HTTPFilter Conf))) (tmp : gmap string ptr) (built : list ptr) (a : creation) : system :=
  match o with
  | None => reload_failed s t strict i "" EmptyName todo tmp built
  | Some f =>
      if decide (hf_Name f = "") then reload_failed s t strict i "" EmptyName todo tmp built
      else
        match Apply s (hf_Name f) a with
        | (s, Applied p) => set_task s t (Reloading strict (i + 1) todo (<[hf_Name f := p]> tmp) (built ++ [p]))
        | (s, Refused e) => reload_failed s t strict i (hf_Name f) e todo tmp built
        | (s, ApplyPanics) => set_task (lose s built) t (Done Panicked)
        end
  end.

(** The end of [reload], under [fm.mu]. *)
Definition reload_commit s (t : nat) (strict : bool) (tmp : gmap string ptr) (built : list ptr) : system :=
  let fm := sys_fm s in
  if fm_closed fm then
    set_task s t (Closing built None (Some (Returned (if strict then Some ManagerClosed else None))))
  else
    let oldFilters := fm_filtersArray fm in
    let '(fm, ready) :=
      retireFactories (mkFilterManager tmp built (fm_factoryRefs fm) (fm_retired fm) (fm_closed fm)) oldFilters in
    set_task (set_fm s fm) t (Closing ready None (Some (Returned None))).

(** One round of the loop of [CreateFilterChain] and of
    [CreateFilterChainChecked]. *)
Definition prepare_round s (t : nat) (checked : bool) (c index : nat) (f : ptr) (todo : list ptr) (r : reply) :
    system :=
  match sys_heap s !! f with
  | None =>
      if checked then set_task s t (Releasing c (Returned (Some (NilFactory index))))
      else set_task s t (Preparing checked c (index + 1) todo)
  | Some _ =>
      let s := log s (Called f) in
      match r with
      | Fine => set_task s t (Preparing checked c (index + 1) todo)
      | Fails e =>
          if checked then set_task s t (Releasing c (Returned (Some (NotPrepared index e))))
          else set_task s t (Preparing checked c (index + 1) todo)
      | Panics => set_task s t (Releasing c Panicked)
      end
  end.

(** A filter of the chain runs, or the last one has run. *)
Definition serve s (t : nat) (c : nat) (a : answer) : system :=
  match an_run a with
  | None => set_task s t (Releasing c (Returned None))
  | Some k =>
      match sys_chains s !! c ≫= λ ch, ch_factories ch !! k with
      | None => s
      | Some f =>
          let s := log s (Called f) in
          match an_reply a with
          | Panics => set_task s t (Releasing c Panicked)
          | _ => s
          end
      end
  end.

(** [Release]: the first call gives the lease back. *)
Definition Release s (t : nat) (c : nat) (after : outcome) : system :=
  match sys_chains s !! c with
  | Some (mkChain factories false) =>
      let '(fm, ready) := releaseFactories (sys_fm s) factories in
      set_task (set_chains (set_fm s fm) (<[c := mkChain factories true]> (sys_chains s))) t
        (Closing ready None (Some after))
  | _ => set_task s t (Closing [] None (Some after))
  end.

(** One round of [closeFactories]. *)
Definition close_round s (t : nat) (f : ptr) (ready : list ptr) (firstErr : option string) (after : option outcome)
    (r : reply) : system :=
  match sys_heap s !! f with
  | None => set_task s t (Closing ready firstErr after)
  | Some fac =>
      if fac_closer fac then
        let s := log s (Closed f) in
        match r with
        | Fine => set_task s t (Closing ready firstErr after)
        | Fails e =>
            set_task s t (Closing ready (match firstErr with None => Some e | Some _ => firstErr end) after)
        | Panics => set_task (lose s ready) t (Done Panicked)
        end
      else set_task (log s (Skipped f)) t (Closing ready firstErr after)
  end.

Definition resume s (t : nat) (k : task) (a : answer) : system :=
  match k with
  | Reloading strict i (o :: todo) tmp built => reload_round s t strict i o todo tmp built (an_creation a)
  | Reloading strict _ [] tmp built => reload_commit s t strict tmp built
  | Preparing checked c index (f :: todo) => prepare_round s t checked c index f todo (an_reply a)
  | Preparing _ c _ [] => set_task s t (Serving c)
  | Serving c => serve s t c a
  | Releasing c after => Release s t c after
  | Closing (f :: ready) firstErr after => close_round s t f ready firstErr after (an_reply a)
  | Closing [] firstErr after =>
      set_task s t (Done (match after with Some o => o | None => Returned (CloseError <$> firstErr) end))
  | Done _ => s
  end.

Inductive call : Type :=
  | ReLoad (filters : list (option (HTTPFilter Conf))) (strict : bool)
  | CreateFilterChain (checked : bool)
  | Close.

(** A call up to the end of its first critical section: the look at
    [fm.closed], [newLeasedFilterChain], and that of [Close]. *)
Definition start s (q : call) : system :=
  let fm := sys_fm s in
  match q with
  | ReLoad filters strict =>
      if fm_closed fm then add_task s (Done (Returned (if strict then Some ManagerClosed else None)))
      else add_task s (Reloading strict 0 filters ∅ [])
  | CreateFilterChain checked =>
      let factories := fm_filtersArray fm in
      let fm := mkFilterManager (fm_filters fm) (fm_filtersArray fm) (leaseFactories (fm_factoryRefs fm) factories)
        (fm_retired fm) (fm_closed fm) in
      let c := length (sys_chains s) in
      add_task (set_chains (set_fm s fm) (sys_chains s ++ [mkChain factories false])) (Preparing checked c 0 factories)
  | Close =>
      if fm_closed fm then add_task s (Done (Returned None))
      else
        let '(fm, ready) :=
          retireFactories (mkFilterManager (fm_filters fm) [] (fm_factoryRefs fm) (fm_retired fm) true)
            (fm_filtersArray fm) in
        add_task (set_fm s fm) (Closing ready None None)
  end.

Inductive action : Type := Call (q : call) | Resume (t : nat) (a : answer).

Definition perform s (a : action) : system :=
  match a with
  | Call q => start s q
  | Resume t a => match sys_tasks s !! t with Some k => resume s t k a | None => s end
  end.

Definition run (actions : list action) : system := foldl perform initial actions.

(** ** Invariant

    Each factory that was built has exactly one owner: the table, the set of
    retired factories, a task that is building or closing, the past, or
    nobody after a panic.  Each chain that is not released has exactly one
    task, and the reference counts are those of these chains. *)

Definition task_owns (f : ptr) (k : task) : nat :=
  match k with
  | Reloading _ _ _ _ built => occurs f built
  | Closing ready _ _ => occurs f ready
  | _ => 0
  end.

Definition task_uses (c : nat) (k : task) : nat :=
  match k with
  | Preparing _ c' _ _ | Serving c' | Releasing c' _ => flag (bool_decide (c = c'))
  | _ => 0
  end.

Definition ev_gone (e : event) : option ptr :=
  match e with Called _ => None | Closed f | Skipped f => Some f end.

(** The factories that were disposed of. *)
Definition gone (trace : list event) : list ptr := omap ev_gone trace.

Definition owners s (f : ptr) : nat :=
  occurs f (fm_filtersArray (sys_fm s)) + flag (is_retired (fm_retired (sys_fm s)) f) +
  sum_list_with (task_owns f) (sys_tasks s) + occurs f (gone (sys_trace s)) + occurs f (sys_lost s).

Definition users s (c : nat) : nat := sum_list_with (task_uses c) (sys_tasks s).

Definition chain_holds (f : ptr) (ch : chain) : nat :=
  if ch_released ch then 0 else occurs f (ch_factories ch).
Definition loans s (f : ptr) : nat := sum_list_with (chain_holds f) (sys_chains s).

Definition built s (f : ptr) : Prop := 0 < f < sys_next s.
#[global] Instance built_dec s f : Decision (built s f) := _.

Definition live s (c : nat) : bool :=
  match sys_chains s !! c with Some ch => negb (ch_released ch) | None => false end.

(** Nothing happens to a factory after it was disposed of. *)
Definition trace_ok (trace : list event) : Prop :=
  ∀ past e later f, trace = past ++ e :: later → ev_gone e = Some f →
    (Called f ∉ later) ∧ (Closed f ∉ later) ∧ (Skipped f ∉ later).

Record good s : Prop := mkGood {
  good_owners : ∀ f, owners s f = flag (bool_decide (built s f));
  good_users : ∀ c, users s c = flag (live s c);
  good_refs : ∀ f, refs (fm_factoryRefs (sys_fm s)) f = Z.of_nat (loans s f);
  good_loans : ∀ f, 0 < loans s f →
    0 < occurs f (fm_filtersArray (sys_fm s)) + flag (is_retired (fm_retired (sys_fm s)) f);
  good_retired : ∀ f, is_retired (fm_retired (sys_fm s)) f = true → 0 < loans s f;
  good_chain : ∀ c ch f, sys_chains s !! c = Some ch → occurs f (ch_factories ch) ≤ flag (bool_decide (built s f));
  good_todo : ∀ t checked c i todo f, sys_tasks s !! t = Some (Preparing checked c i todo) → f ∈ todo →
    ∃ ch, sys_chains s !! c = Some ch ∧ f ∈ ch_factories ch;
  good_next : 0 < sys_next s;
  good_heap : ∀ f, is_Some (sys_heap s !! f) ↔ built s f;
  good_trace : trace_ok (sys_trace s);
  good_skipped : ∀ f, Skipped f ∈ sys_trace s → ∃ fac, sys_heap s !! f = Some fac ∧ fac_closer fac = false;
  good_closed : fm_closed (sys_fm s) = true → fm_filtersArray (sys_fm s) = [];
  good_lost : sys_lost s ≠ [] → Done Panicked ∈ sys_tasks s;
}.

Lemma initial_good : good initial.
Proof.
  split; try done.
  - intros f. unfold owners, built. simpl. rewrite bool_decide_eq_false_2; [done|simpl; lia].
  - simpl. lia.
  - intros f. simpl. unfold built. simpl. rewrite lookup_empty. split; [by intros []|lia].
  - intros past e later f H. by destruct past.
  - intros f Hf. by apply not_elem_of_nil in Hf.
Qed.

Lemma gone_snoc trace e : gone (trace ++ [e]) = gone trace ++ match ev_gone e with Some f => [f] | None => [] end.
Proof. unfold gone. rewrite omap_app. simpl. by destruct (ev_gone e). Qed.

Lemma trace_ok_snoc trace e f :
  trace_ok trace → e ∈ [Called f; Closed f; Skipped f] → f ∉ gone trace → trace_ok (trace ++ [e]).
Proof.
  intros Hok He Hf past e' later g Heq Hg.
  destruct later as [|x later _] using rev_ind.
  { repeat split; apply not_elem_of_nil. }
  rewrite app_comm_cons, app_assoc in Heq. apply app_inj_tail in Heq as [-> ->].
  destruct (Hok past e' later g eq_refl Hg) as (H1 & H2 & H3).
  assert (g ∈ gone (past ++ e' :: later)) as Hin.
  { apply list_elem_of_omap. exists e'. split; [set_solver|done]. }
  assert (f ≠ g) by congruence.
  repeat split; rewrite elem_of_app, list_elem_of_singleton; intros [?|?]; try done; subst; set_solver.
Qed.

Lemma owners_one s f : good s → owners s f ≤ 1.
Proof. intros G. rewrite (good_owners s G). destruct (bool_decide _); simpl; lia. Qed.

Lemma in_use_not_gone s f : good s → 0 < loans s f → f ∉ gone (sys_trace s).
Proof.
  intros G Hl. apply (good_loans s G) in Hl. pose proof (owners_one s f G) as Ho. unfold owners in Ho.
  rewrite occurs_elem. lia.
Qed.

Lemma insert_keeps_done (tasks : list task) t k k' :
  tasks !! t = Some k → k ≠ Done Panicked → Done Panicked ∈ tasks → Done Panicked ∈ <[t := k']> tasks.
Proof.
  intros Hk Hne [i Hi]%list_elem_of_lookup. apply list_elem_of_lookup. exists i.
  rewrite list_lookup_insert_ne; [done|]. congruence.
Qed.

(** The parts of the invariant that a step does not touch. *)
Ltac keep_parts G :=
  try first
    [ exact (good_refs _ G) | exact (good_loans _ G) | exact (good_retired _ G) | exact (good_chain _ G)
    | exact (good_closed _ G) | exact (good_next _ G) | exact (good_heap _ G) | exact (good_trace _ G) | exact (good_skipped _ G)
    | exact (good_todo _ G) | exact (good_users _ G) | exact (good_lost _ G) ].

(** A task moves on, without a change of the manager or of the chains. *)
Lemma good_step s t k k' heap next trace lost :
  good s → sys_tasks s !! t = Some k → k ≠ Done Panicked →
  let s' := mkSystem (sys_fm s) heap next (sys_chains s) (<[t := k']> (sys_tasks s)) trace lost in
  (∀ f, task_owns f k' + occurs f (gone trace) + occurs f lost + flag (bool_decide (built s f)) =
        task_owns f k + occurs f (gone (sys_trace s)) + occurs f (sys_lost s) + flag (bool_decide (built s' f))) →
  (∀ c, task_uses c k' = task_uses c k) →
  (∀ checked c i todo f, k' = Preparing checked c i todo → f ∈ todo →
     ∃ ch, sys_chains s !! c = Some ch ∧ f ∈ ch_factories ch) →
  sys_next s ≤ next → (∀ f, is_Some (heap !! f) ↔ built s' f) → trace_ok trace →
  (∀ f, Skipped f ∈ trace → ∃ fac, heap !! f = Some fac ∧ fac_closer fac = false) →
  (lost ≠ sys_lost s → k' = Done Panicked) → good s'.
Proof.
  intros G Hk Hne s' Hown Huse Htodo Hnext Hheap Htr Hskip Hlost.
  split; try done; keep_parts G.
  - intros f. specialize (Hown f). pose proof (good_owners s G f) as Ho. unfold owners in *. simpl.
    pose proof (sum_list_with_insert (task_owns f) _ _ k' k Hk). lia.
  - intros c. pose proof (good_users s G c) as Ho. unfold users in *. simpl.
    pose proof (sum_list_with_insert (task_uses c) _ _ k' k Hk). rewrite Huse in *.
    change (live s' c) with (live s c). lia.
  - intros c ch f Hc. pose proof (good_chain s G c ch f Hc) as Hb.
    destruct (bool_decide_reflect (built s f)) as [Hs|]; simpl in Hb; [|lia].
    rewrite bool_decide_eq_true_2; [done|]. unfold built in *. simpl. lia.
  - intros t' checked c i todo f. simpl. destruct (decide (t' = t)) as [->|].
    + rewrite list_lookup_insert_eq by (by eapply lookup_lt_Some). intros [= ->]. by eapply Htodo.
    + rewrite list_lookup_insert_ne by done. apply (good_todo s G).
  - simpl. pose proof (good_next s G). lia.
  - intros Hl. simpl in *. destruct (decide (lost = sys_lost s)) as [->|Hd].
    + eapply insert_keeps_done; [done|done|]. by apply G.
    + rewrite (Hlost Hd). eapply list_elem_of_lookup_2, list_lookup_insert_eq, lookup_lt_Some, Hk.
Qed.

Lemma good_set_task s t k k' :
  good s → sys_tasks s !! t = Some k → k ≠ Done Panicked →
  (∀ f, task_owns f k' = task_owns f k) → (∀ c, task_uses c k' = task_uses c k) →
  (∀ checked c i todo f, k' = Preparing checked c i todo → f ∈ todo →
     ∃ ch, sys_chains s !! c = Some ch ∧ f ∈ ch_factories ch) →
  good (set_task s t k').
Proof.
  intros G Hk Hne Ho Hu Ht. apply (good_step s t k); try done; try apply G.
  intros f. by rewrite Ho.
Qed.

Lemma good_called s f : good s → 0 < loans s f → good (log s (Called f)).
Proof.
  intros G Hl. pose proof (in_use_not_gone s f G Hl) as Hf.
  assert (gone (sys_trace s ++ [Called f]) = gone (sys_trace s)) as Hg by (rewrite gone_snoc; apply app_nil_r).
  split; try apply G; try done.
  - intros g. unfold owners. simpl. rewrite Hg. apply G.
  - simpl. eapply trace_ok_snoc; [apply G| |done]. set_solver.
  - simpl. intros g [Hin|Hin]%elem_of_app; [by apply (good_skipped s G)|]. by apply list_elem_of_singleton in Hin.
Qed.

(** ** Steps of the tasks *)

Lemma task_holds s t k c f ch :
  good s → sys_tasks s !! t = Some k → task_uses c k = 1 → sys_chains s !! c = Some ch →
  f ∈ ch_factories ch → 0 < loans s f.
Proof.
  intros G Hk Hu Hc Hf. pose proof (good_users s G c) as Hus. unfold users in Hus.
  pose proof (sum_list_with_lookup (task_uses c) _ _ _ Hk) as Hle. unfold live in Hus. rewrite Hc in Hus.
  pose proof (sum_list_with_lookup (chain_holds f) _ _ _ Hc) as Hl.
  apply occurs_elem in Hf. unfold chain_holds in Hl at 1. unfold loans.
  destruct (ch_released ch); simpl in *; lia.
Qed.

Lemma prepare_round_good s t checked c i f todo r :
  good s → sys_tasks s !! t = Some (Preparing checked c i (f :: todo)) →
  good (prepare_round s t checked c i f todo r).
Proof.
  intros G Hk. destruct (good_todo s G _ _ _ _ _ f Hk) as (ch & Hc & Hf); [constructor|].
  assert (0 < loans s f) as Hl.
  { eapply task_holds; [done|done| |done|done]. simpl. by rewrite bool_decide_eq_true_2. }
  assert (∀ checked' c' j todo' g, Preparing checked c (i + 1) todo = Preparing checked' c' j todo' → g ∈ todo' →
     ∃ ch, sys_chains s !! c' = Some ch ∧ g ∈ ch_factories ch) as Ht.
  { intros checked' c' j todo' g [= <- <- <- <-] Hg. eapply (good_todo s G); [exact Hk|]. by constructor. }
  unfold prepare_round. destruct (sys_heap s !! f) as [fac|].
  - pose proof (good_called s f G Hl) as G'.
    destruct r as [|e|]; [|destruct checked|]; by apply (good_set_task (log s (Called f)) t _ _ G' Hk).
  - destruct checked; by apply (good_set_task s t _ _ G Hk).
Qed.

Lemma serve_good s t c a : good s → sys_tasks s !! t = Some (Serving c) → good (serve s t c a).
Proof.
  intros G Hk. unfold serve. destruct (an_run a) as [n|]; [|by apply (good_set_task s t _ _ G Hk)].
  destruct (sys_chains s !! c) as [ch|] eqn:Hc; simpl; [|done].
  destruct (ch_factories ch !! n) as [f|] eqn:Hf; [|done].
  assert (0 < loans s f) as Hl.
  { eapply task_holds; [done|done| |done|by eapply list_elem_of_lookup_2]. simpl. by rewrite bool_decide_eq_true_2. }
  pose proof (good_called s f G Hl) as G'.
  destruct (an_reply a); [done|done|]. by apply (good_set_task (log s (Called f)) t _ _ G' Hk).
Qed.

Lemma owned_not_gone s t k f :
  good s → sys_tasks s !! t = Some k → 0 < task_owns f k → (f ∉ gone (sys_trace s)) ∧ built s f.
Proof.
  intros G Hk Hf. pose proof (good_owners s G f) as Ho. unfold owners in Ho.
  pose proof (sum_list_with_lookup (task_owns f) _ _ _ Hk). rewrite occurs_elem.
  destruct (bool_decide_reflect (built s f)); simpl in Ho; split; first [done|lia].
Qed.

Lemma close_round_good s t f ready firstErr after r :
  good s → sys_tasks s !! t = Some (Closing (f :: ready) firstErr after) →
  good (close_round s t f ready firstErr after r).
Proof.
  intros G Hk. destruct (owned_not_gone s t _ f G Hk) as [Hf Hb].
  { simpl. rewrite occurs_cons, decide_True by done. lia. }
  unfold close_round. apply (good_heap s G) in Hb as [fac Hfac]. rewrite Hfac.
  assert (∀ e k' lost, e = (if fac_closer fac then Closed f else Skipped f) →
    (∀ g, task_owns g k' + occurs g lost = occurs g ready + occurs g (sys_lost s)) → (∀ c, task_uses c k' = 0) →
    (lost ≠ sys_lost s → k' = Done Panicked) →
    good (mkSystem (sys_fm s) (sys_heap s) (sys_next s) (sys_chains s) (<[t := k']> (sys_tasks s))
      (sys_trace s ++ [e]) lost)) as Hstep.
  { intros e k' lost Hin Hown Huse Hl.
    assert (ev_gone e = Some f) as He by (subst e; by destruct (fac_closer fac)). apply (good_step s t _ k' _ _ _ _ G Hk); try done; try apply G.
    - intros g. rewrite gone_snoc, He. simpl. specialize (Hown g). rewrite occurs_app, !occurs_cons, occurs_nil.
      change (flag (bool_decide (built (mkSystem _ _ _ _ _ _ _) g))) with (flag (bool_decide (built s g))).
      destruct (decide (g = f)); lia.
    - intros checked c i todo g -> _. specialize (Huse c). simpl in Huse. by rewrite bool_decide_eq_true_2 in Huse.
    - eapply trace_ok_snoc; [apply G| |done]. subst e. destruct (fac_closer fac); set_solver.
    - intros g [Hg|Hg]%elem_of_app; [by apply (good_skipped s G)|]. apply list_elem_of_singleton in Hg.
      subst e. destruct (fac_closer fac) eqn:Hcl; simplify_eq. by exists fac. }
  destruct (fac_closer fac); [destruct r as [|e|]|].
  all: first [apply (Hstep (Closed f) (Closing _ _ _)) | apply (Hstep (Closed f) (Done _)) |
              apply (Hstep (Skipped f) (Closing _ _ _))]; try done; try set_solver.
  intros g. simpl. rewrite occurs_app. lia.
Qed.

(** What [Apply] does to the system: nothing, a new factory, or a new factory
    that is gone or lost. *)
Lemma Apply_cases s name a s' r :
  Apply s name a = (s', r) →
  (s' = s ∧ ∀ p, r ≠ Applied p) ∨
  ∃ fac, fac_name fac = name ∧ ((s' = alloc s fac ∧ r = Applied (sys_next s)) ∨
    (s' = log (alloc s fac) (if fac_closer fac then Closed (sys_next s) else Skipped (sys_next s)) ∧
      ∀ p, r ≠ Applied p) ∨
    (s' = lose (alloc s fac) [sys_next s] ∧ r = ApplyPanics)).
Proof.
  assert (∀ closer closing e s' r,
    closeFilter (alloc s (mkFactory name closer)) (sys_next s) closer closing e = (s', r) →
    ∃ fac, fac_name fac = name ∧ ((s' = alloc s fac ∧ r = Applied (sys_next s)) ∨
      (s' = log (alloc s fac) (if fac_closer fac then Closed (sys_next s) else Skipped (sys_next s)) ∧
        ∀ p, r ≠ Applied p) ∨
      (s' = lose (alloc s fac) [sys_next s] ∧ r = ApplyPanics))) as Hc.
  { intros closer closing e s1 r1 H. exists (mkFactory name closer). split; [done|]. right. left. unfold closeFilter in H.
    destruct closer, closing; by simplify_eq. }
  unfold Apply. destruct (GetHttpFilterPlugin _ _); [|intros [= <- <-]; by left].
  destruct a as [| | |closer config defaults apply closing]; try (intros [= <- <-]; by left).
  intros H. right.
  destruct config; [destruct defaults; [destruct apply|..]|..]; simplify_eq;
    first [by eapply Hc|exists (mkFactory name closer); eauto 8].
Qed.

Lemma good_alloc s t k k' fac trace lost :
  good s → sys_tasks s !! t = Some k → k ≠ Done Panicked →
  (∀ f, task_owns f k' + occurs f (gone trace) + occurs f lost =
        task_owns f k + occurs f (gone (sys_trace s)) + occurs f (sys_lost s) +
        (if decide (f = sys_next s) then 1 else 0)) →
  (∀ c, task_uses c k' = 0) → (∀ c, task_uses c k = 0) → trace_ok trace →
  (∀ f, Skipped f ∈ trace → Skipped f ∈ sys_trace s ∨ (f = sys_next s ∧ fac_closer fac = false)) →
  (lost ≠ sys_lost s → k' = Done Panicked) →
  good (mkSystem (sys_fm s) (<[sys_next s := fac]> (sys_heap s)) (sys_next s + 1) (sys_chains s)
    (<[t := k']> (sys_tasks s)) trace lost).
Proof.
  intros G Hk Hne Hown Hu' Hu Htr Hskip Hlost. pose proof (good_next s G) as Hn.
  apply (good_step s t k); try done.
  - intros f. specialize (Hown f).
    assert (∀ P `{Decision P}, flag (bool_decide P) = if decide P then 1 else 0) as Hfl.
    { intros P dec. unfold bool_decide, decide. by destruct dec. }
    rewrite !Hfl. unfold built in *. simpl.
    destruct (decide (0 < f < sys_next s)), (decide (0 < f < sys_next s + 1)), (decide (f = sys_next s)); lia.
  - intros c. by rewrite Hu, Hu'.
  - intros checked c i todo f -> _. specialize (Hu' c). simpl in Hu'. by rewrite bool_decide_eq_true_2 in Hu'.
  - lia.
  - intros f. pose proof (good_heap s G f) as Hh. unfold built in *. simpl in *.
    destruct (decide (f = sys_next s)) as [->|].
    + rewrite lookup_insert_eq. split; [lia|by eexists].
    + rewrite lookup_insert_ne, Hh by done. lia.
  - intros f [Hf|[-> Hf]]%Hskip; [|rewrite lookup_insert_eq; by exists fac].
    apply (good_skipped s G) in Hf as (fac' & Hf & Hcl). exists fac'. split; [|done].
    assert (built s f) as Hb by (by apply (good_heap s G)). unfold built in Hb. rewrite lookup_insert_ne; [done|lia].
Qed.

Lemma next_not_gone s : good s → sys_next s ∉ gone (sys_trace s).
Proof.
  intros G. pose proof (good_owners s G (sys_next s)) as Ho. unfold owners in Ho.
  rewrite bool_decide_eq_false_2 in Ho by (unfold built; lia). simpl in Ho. rewrite occurs_elem. lia.
Qed.

Lemma reload_round_good s t strict i o todo tmp bs a :
  good s → sys_tasks s !! t = Some (Reloading strict i (o :: todo) tmp bs) →
  good (reload_round s t strict i o todo tmp bs a).
Proof.
  intros G Hk.
  assert (∀ name e, good (reload_failed s t strict i name e todo tmp bs)) as Hf.
  { intros name e. unfold reload_failed. destruct strict; by apply (good_set_task s t _ _ G Hk). }
  assert (∀ fac e name, let e' := if fac_closer fac then Closed (sys_next s) else Skipped (sys_next s) in
    good (reload_failed (log (alloc s fac) e') t strict i name e todo tmp bs) ∧
    good (set_task (lose (log (alloc s fac) e') bs) t (Done Panicked))) as Hg.
  { intros fac e name e'.
    assert (ev_gone e' = Some (sys_next s)) as Heg by (unfold e'; by destruct (fac_closer fac)).
    assert (trace_ok (sys_trace s ++ [e'])) as Htr.
    { eapply trace_ok_snoc; [apply G| |by apply next_not_gone]. unfold e'. destruct (fac_closer fac); set_solver. }
    split; [unfold reload_failed; destruct strict|]; apply (good_alloc s t _ _ fac _ _ G Hk); try done.
    all: intros f; cbn [sys_trace sys_lost log lose alloc].
    all: first [ rewrite gone_snoc, Heg; simpl; rewrite ?occurs_app, !occurs_cons, occurs_nil;
      destruct (decide (f = sys_next s)); lia | idtac ].
    all: intros [Hf'|Hf']%elem_of_app; [by left|right]; apply list_elem_of_singleton in Hf'; unfold e' in Hf'.
    all: destruct (fac_closer fac); by simplify_eq. }
  assert (∀ fac lost, lost ≡ₚ bs ++ [sys_next s] →
    good (mkSystem (sys_fm s) (<[sys_next s := fac]> (sys_heap s)) (sys_next s + 1) (sys_chains s)
      (<[t := Done Panicked]> (sys_tasks s)) (sys_trace s) (sys_lost s ++ lost))) as Hl.
  { intros fac lost Hp. apply (good_alloc s t _ _ fac _ _ G Hk); try done; [|apply G|by left].
    intros f. simpl. assert (occurs f lost = occurs f (bs ++ [sys_next s])) as Ho.
    { by apply Permutation_count_occ. }
    rewrite occurs_app, Ho, occurs_app, occurs_cons, occurs_nil. destruct (decide (f = sys_next s)); lia. }
  unfold reload_round. destruct o as [f|]; [|done]. destruct (decide (hf_Name f = "")); [done|].
  destruct (Apply s (hf_Name f) a) as [s' r] eqn:EA.
  destruct (Apply_cases _ _ _ _ _ EA) as [[-> Hr]|(fac & _ & [[-> ->]|[[-> Hr]|[-> ->]]])].
  - destruct r as [p|e|]; [by destruct (Hr p)|done|]. apply (good_step s t _ _ _ _ _ _ G Hk); try done; try apply G.
    intros g. simpl. rewrite occurs_app. change (flag (bool_decide (built (mkSystem _ _ _ _ _ _ _) g)))
      with (flag (bool_decide (built s g))). lia.
  - apply (good_alloc s t _ _ fac _ _ G Hk); try done; [|apply G|by left].
    intros g. simpl. rewrite occurs_app, occurs_cons, occurs_nil. destruct (decide (g = sys_next s)); lia.
  - destruct r as [p|e|]; [by destruct (Hr p)|exact (proj1 (Hg fac e _))|].
    exact (proj2 (Hg fac EmptyName "")).
  - unfold set_task, lose. simpl. rewrite <- app_assoc. apply Hl, Permutation_app_comm.
Qed.

(** ** Steps of the manager *)

Lemma loans_not_nil s f : good s → 0 < loans s f → f ≠ 0.
Proof.
  intros G Hl ->. apply (good_loans s G) in Hl. pose proof (good_owners s G 0) as Ho. unfold owners in Ho.
  rewrite bool_decide_eq_false_2 in Ho by (unfold built; lia). simpl in Ho. lia.
Qed.

Lemma array_not_nil s : good s → 0 ∉ fm_filtersArray (sys_fm s).
Proof.
  intros G. rewrite occurs_elem. pose proof (good_owners s G 0) as Ho. unfold owners in Ho.
  rewrite bool_decide_eq_false_2 in Ho by (unfold built; lia). simpl in Ho. lia.
Qed.

(** The table is replaced, and what was in it retired: [reload] and [Close]. *)
Lemma retire_spec s filters array closed fm ready :
  good s →
  retireFactories (mkFilterManager filters array (fm_factoryRefs (sys_fm s)) (fm_retired (sys_fm s)) closed)
    (fm_filtersArray (sys_fm s)) = (fm, ready) →
  fm_filtersArray fm = array ∧ fm_factoryRefs fm = fm_factoryRefs (sys_fm s) ∧ fm_closed fm = closed ∧
  (∀ f, occurs f ready + flag (is_retired (fm_retired fm) f) =
     occurs f (fm_filtersArray (sys_fm s)) + flag (is_retired (fm_retired (sys_fm s)) f)) ∧
  (∀ f, 0 < loans s f → is_retired (fm_retired fm) f = true) ∧
  (∀ f, is_retired (fm_retired fm) f = true → 0 < loans s f).
Proof.
  intros G. unfold retireFactories. cbn [fm_factoryRefs fm_retired fm_filters fm_filtersArray fm_closed].
  pose proof (retire_loop_spec (fm_factoryRefs (sys_fm s)) (fm_filtersArray (sys_fm s)) (fm_retired (sys_fm s)) []
    (array_not_nil s G)) as Hspec.
  ospecialize (Hspec _); [intros f; pose proof (owners_one s f G) as Ho; unfold owners in Ho; lia|].
  destruct (retire_loop _ _ _ _) as [retired' ready']. intros [= <- <-].
  cbn [fm_factoryRefs fm_retired fm_filters fm_filtersArray fm_closed]. split_and!; try done.
  - intros f. destruct (Hspec f) as (H1 & _ & _). rewrite occurs_nil in H1. lia.
  - intros f Hl. destruct (Hspec f) as (H1 & H2 & _). rewrite occurs_nil in *.
    pose proof (good_loans s G f Hl). pose proof (good_refs s G f).
    destruct (is_retired retired' f); [done|]. simpl in *. lia.
  - intros f Hr. destruct (Hspec f) as (_ & _ & H3). pose proof (good_refs s G f).
    destruct (is_retired (fm_retired (sys_fm s)) f) eqn:E; [by apply (good_retired s G)|].
    specialize (H3 Hr eq_refl). lia.
Qed.

Lemma good_retire s tasks filters array closed fm ready :
  good s →
  retireFactories (mkFilterManager filters array (fm_factoryRefs (sys_fm s)) (fm_retired (sys_fm s)) closed)
    (fm_filtersArray (sys_fm s)) = (fm, ready) →
  (∀ f, sum_list_with (task_owns f) tasks + occurs f array =
        sum_list_with (task_owns f) (sys_tasks s) + occurs f ready) →
  (∀ c, sum_list_with (task_uses c) tasks = users s c) →
  (∀ t checked c i todo f, tasks !! t = Some (Preparing checked c i todo) → f ∈ todo →
     ∃ ch, sys_chains s !! c = Some ch ∧ f ∈ ch_factories ch) →
  (closed = true → array = []) → (Done Panicked ∈ sys_tasks s → Done Panicked ∈ tasks) →
  good (mkSystem fm (sys_heap s) (sys_next s) (sys_chains s) tasks (sys_trace s) (sys_lost s)).
Proof.
  intros G HR Hown Huse Htodo Hcl Hpan.
  destruct (retire_spec _ _ _ _ _ _ G HR) as (Ha & Hm & Hc & Hr1 & Hr2 & Hr3).
  split; keep_parts G; simpl; try done.
  - intros f. pose proof (good_owners s G f) as Ho. unfold owners in *. simpl. rewrite Ha.
    specialize (Hown f). specialize (Hr1 f).
    change (flag (bool_decide (built (mkSystem _ _ _ _ _ _ _) f))) with (flag (bool_decide (built s f))). lia.
  - intros c. etrans; [apply Huse|apply (good_users s G)].
  - intros f. rewrite Hm. apply (good_refs s G).
  - intros f Hl. rewrite (Hr2 f Hl). simpl. lia.
  - by rewrite Ha, Hc.
  - intros Hl. apply Hpan. by apply (good_lost s G).
Qed.

Lemma commit_good s t strict i tmp bs :
  good s → sys_tasks s !! t = Some (Reloading strict i [] tmp bs) → good (reload_commit s t strict tmp bs).
Proof.
  intros G Hk. unfold reload_commit. destruct (fm_closed (sys_fm s)) eqn:Hcl; [by apply (good_set_task s t _ _ G Hk)|].
  destruct (retireFactories _ _) as [fm ready] eqn:HR. unfold set_task, set_fm. simpl.
  eapply (good_retire s _ _ _ _ _ _ G HR); [| | |done|by eapply insert_keeps_done].
  - intros f. pose proof (sum_list_with_insert (task_owns f) _ _ (Closing ready None (Some (Returned None))) _ Hk) as H.
    simpl in H. lia.
  - intros c. pose proof (sum_list_with_insert (task_uses c) _ _ (Closing ready None (Some (Returned None))) _ Hk) as H.
    simpl in H. unfold users. lia.
  - intros t' checked c j todo f. destruct (decide (t' = t)) as [->|].
    + rewrite list_lookup_insert_eq by (by eapply lookup_lt_Some). done.
    + rewrite list_lookup_insert_ne by done. apply (good_todo s G).
Qed.

Lemma chain_factories_ok s c ch :
  good s → sys_chains s !! c = Some ch → (0 ∉ ch_factories ch) ∧ ∀ f, occurs f (ch_factories ch) ≤ 1.
Proof.
  intros G Hc. split.
  - rewrite occurs_elem. pose proof (good_chain s G c _ 0 Hc) as H.
    rewrite bool_decide_eq_false_2 in H by (unfold built; lia). cbn [flag] in H. lia.
  - intros f. pose proof (good_chain s G c _ f Hc) as H. destruct (bool_decide _); cbn [flag] in H; lia.
Qed.

(** A chain gives its lease back: [loans'] are the loans that remain. *)
Lemma release_spec s c factories fm ready :
  good s → sys_chains s !! c = Some (mkChain factories false) →
  releaseFactories (sys_fm s) factories = (fm, ready) →
  let loans' f := sum_list_with (chain_holds f) (<[c := mkChain factories true]> (sys_chains s)) in
  fm_filtersArray fm = fm_filtersArray (sys_fm s) ∧ fm_closed fm = fm_closed (sys_fm s) ∧
  (∀ f, refs (fm_factoryRefs fm) f = Z.of_nat (loans' f)) ∧
  (∀ f, occurs f ready + flag (is_retired (fm_retired fm) f) = flag (is_retired (fm_retired (sys_fm s)) f)) ∧
  (∀ f, 0 < loans' f → 0 < occurs f (fm_filtersArray (sys_fm s)) + flag (is_retired (fm_retired fm) f)) ∧
  (∀ f, is_retired (fm_retired fm) f = true → 0 < loans' f).
Proof.
  intros G Hc. unfold releaseFactories. destruct (chain_factories_ok s c _ G Hc) as [Hnil Hone]. simpl in Hnil, Hone.
  assert (∀ f, loans s f = occurs f factories +
    sum_list_with (chain_holds f) (<[c := mkChain factories true]> (sys_chains s))) as Hloans.
  { intros f. pose proof (sum_list_with_insert (chain_holds f) _ _ (mkChain factories true) _ Hc) as H.
    unfold chain_holds in H at 2 4. simpl in H. unfold loans. lia. }
  pose proof (release_loop_spec factories (fm_factoryRefs (sys_fm s)) (fm_retired (sys_fm s)) [] Hnil Hone) as Hspec.
  destruct (release_loop _ _ _ _) as [[m' retired'] ready']. intros [= <- <-]. simpl. split_and!; try done.
  - intros f. destruct (Hspec f) as (-> & _). rewrite (good_refs s G), (Hloans f). lia.
  - intros f. destruct (Hspec f) as (_ & H2 & _). by rewrite occurs_nil in H2.
  - intros f Hl. destruct (Hspec f) as (H1 & H2 & H3 & _). rewrite (good_refs s G) in H1.
    pose proof (good_loans s G f) as H. rewrite (Hloans f) in *. rewrite occurs_nil in *. lia.
  - intros f Hr. destruct (Hspec f) as (H1 & H2 & H3 & H4 & _). rewrite (good_refs s G) in H1.
    pose proof (good_retired s G f) as H. rewrite (Hloans f) in *. specialize (H4 Hr). rewrite Hr in H2.
    rewrite occurs_nil in *. destruct (is_retired (fm_retired (sys_fm s)) f); simpl in *; [specialize (H eq_refl)|]; lia.
Qed.

(** Only the task that uses a chain releases it. *)
Lemma released_users s t c factories after ready c' :
  good s → sys_tasks s !! t = Some (Releasing c after) → sys_chains s !! c = Some (mkChain factories false) →
  sum_list_with (task_uses c') (<[t := Closing ready None (Some after)]> (sys_tasks s)) =
    flag match <[c := mkChain factories true]> (sys_chains s) !! c' with
         | Some ch => negb (ch_released ch)
         | None => false
         end.
Proof.
  intros G Hk Hc. pose proof (good_users s G c') as Ho. unfold users, live in *.
  pose proof (sum_list_with_insert (task_uses c') _ _ (Closing ready None (Some after)) _ Hk) as H. simpl in H.
  destruct (decide (c' = c)) as [->|].
  - rewrite list_lookup_insert_eq by (by eapply lookup_lt_Some). rewrite Hc in Ho. simpl in *.
    rewrite bool_decide_eq_true_2 in H by done. simpl in H. lia.
  - rewrite list_lookup_insert_ne by done. rewrite bool_decide_eq_false_2 in H by done. simpl in H. lia.
Qed.

Lemma Release_good s t c after :
  good s → sys_tasks s !! t = Some (Releasing c after) → good (Release s t c after).
Proof.
  intros G Hk. pose proof (good_users s G c) as Hu.
  pose proof (sum_list_with_lookup (task_uses c) _ _ _ Hk) as Hle. simpl in Hle.
  rewrite bool_decide_eq_true_2 in Hle by done. simpl in Hle. fold (users s c) in Hle. unfold live in Hu.
  unfold Release. destruct (sys_chains s !! c) as [[factories []]|] eqn:Hc; simpl in Hu; [lia| |lia].
  destruct (releaseFactories _ _) as [fm ready] eqn:HR.
  destruct (release_spec s c factories fm ready G Hc HR) as (Ha & Hcl & Hr1 & Hr2 & Hr3 & Hr4).
  unfold set_task, set_chains, set_fm. split; keep_parts G; simpl; try done.
  - intros f. pose proof (good_owners s G f) as Ho. unfold owners in *. simpl. rewrite Ha.
    pose proof (sum_list_with_insert (task_owns f) _ _ (Closing ready None (Some after)) _ Hk) as H. simpl in H.
    specialize (Hr2 f).
    change (flag (bool_decide (built (mkSystem _ _ _ _ _ _ _) f))) with (flag (bool_decide (built s f))). lia.
  - intros c'. by apply (released_users s t c factories).
  - intros f Hl. rewrite Ha. by apply Hr3.
  - intros c' ch f. destruct (decide (c' = c)) as [->|].
    + rewrite list_lookup_insert_eq by (by eapply lookup_lt_Some). intros [= <-]. apply (good_chain s G c _ f Hc).
    + rewrite list_lookup_insert_ne by done. apply (good_chain s G).
  - intros t' checked c' i todo f. destruct (decide (t' = t)) as [->|].
    + rewrite list_lookup_insert_eq by (by eapply lookup_lt_Some). done.
    + rewrite list_lookup_insert_ne by done. intros Ht Hf.
      destruct (good_todo s G _ _ _ _ _ _ Ht Hf) as (ch & Hch & Hin). destruct (decide (c' = c)) as [->|].
      * rewrite list_lookup_insert_eq by (by eapply lookup_lt_Some). simplify_eq. by eexists.
      * rewrite list_lookup_insert_ne by done. by exists ch.
  - rewrite Ha, Hcl. apply (good_closed s G).
  - intros Hl. eapply insert_keeps_done; [done|done|]. by apply (good_lost s G).
Qed.

(** ** Calls *)

Lemma lookup_snoc_task (tasks : list task) t k k' :
  (tasks ++ [k']) !! t = Some k → tasks !! t = Some k ∨ k = k'.
Proof. intros [?|[_ ?]]%lookup_app_Some; [by left|right]. by apply list_lookup_singleton_Some in H as [_ ->]. Qed.

Lemma good_add_task s k :
  good s → (∀ f, task_owns f k = 0) → (∀ c, task_uses c k = 0) → good (add_task s k).
Proof.
  intros G Ho Hu. split; keep_parts G; simpl; try done.
  - intros f. etrans; [|apply (good_owners s G f)]. unfold owners. simpl. rewrite sum_list_with_app. simpl.
    rewrite Ho. lia.
  - intros c. etrans; [|apply (good_users s G)]. unfold users. simpl. rewrite sum_list_with_app. simpl. rewrite Hu. lia.
  - intros t checked c i todo f [Ht|<-]%lookup_snoc_task; [by apply (good_todo s G _ _ _ _ _ _ Ht)|].
    specialize (Hu c). simpl in Hu. by rewrite bool_decide_eq_true_2 in Hu.
  - intros Hl. apply elem_of_app. left. by apply (good_lost s G).
Qed.

Lemma start_create_good s checked : good s → good (start s (CreateFilterChain checked)).
Proof.
  intros G. simpl. set (l := fm_filtersArray (sys_fm s)). set (c := length (sys_chains s)).
  assert (∀ f, sum_list_with (chain_holds f) (sys_chains s ++ [mkChain l false]) = loans s f + occurs f l) as Hl.
  { intros f. rewrite sum_list_with_app. unfold loans, chain_holds at 2. simpl. lia. }
  assert (live s c = false) as Hlive by (unfold live; by rewrite lookup_ge_None_2 by done).
  unfold add_task, set_chains, set_fm. simpl. split; keep_parts G; simpl.
  - intros f. etrans; [|apply (good_owners s G f)]. unfold owners. simpl. rewrite sum_list_with_app. subst l. simpl. lia.
  - intros c'. pose proof (good_users s G c') as Hu. unfold users, live in *. simpl. rewrite sum_list_with_app. simpl.
    destruct (decide (c' = c)) as [->|Hne].
    + rewrite Hlive in Hu. rewrite bool_decide_eq_true_2 by done. rewrite list_lookup_middle by done. simpl in *. lia.
    + rewrite bool_decide_eq_false_2 by done. simpl.
      destruct (sys_chains s !! c') as [ch|] eqn:Hc'.
      * rewrite lookup_app_l by (by eapply lookup_lt_Some). rewrite Hc'. simpl in *. lia.
      * rewrite (proj2 (lookup_ge_None (sys_chains s ++ [mkChain l false]) c')); [simpl in *; lia|].
        apply lookup_ge_None in Hc'. rewrite length_app. simpl. lia.
  - intros f. rewrite lease_refs by (by apply array_not_nil). rewrite (good_refs s G). unfold loans at 2. simpl.
    rewrite Hl. lia.
  - intros f. unfold loans. simpl. rewrite Hl. pose proof (good_loans s G f). fold l in H |- *. lia.
  - intros f Hr. unfold loans. simpl. rewrite Hl. pose proof (good_retired s G f Hr). lia.
  - intros c' ch f [Hc'|[_ Hc']]%lookup_app_Some; [by apply (good_chain s G c' ch f Hc')|].
    apply list_lookup_singleton_Some in Hc' as [_ <-]. simpl. pose proof (good_owners s G f) as Ho.
    unfold owners in Ho. fold l in Ho.
    change (flag (bool_decide (built (mkSystem _ _ _ _ _ _ _) f))) with (flag (bool_decide (built s f))). lia.
  - intros t ck c' i todo f [Ht|[= -> -> -> ->]]%lookup_snoc_task Hf.
    + destruct (good_todo s G _ _ _ _ _ _ Ht Hf) as (ch & Hch & Hin). exists ch. split; [|done].
      by apply lookup_app_l_Some.
    + exists (mkChain l false). split; [by rewrite list_lookup_middle|done].
  - intros Hlost. apply elem_of_app. left. by apply (good_lost s G).
Qed.

Lemma start_close_good s : good s → good (start s Close).
Proof.
  intros G. simpl. destruct (fm_closed (sys_fm s)) eqn:Hcl; [by apply good_add_task|].
  destruct (retireFactories _ _) as [fm ready] eqn:HR. unfold add_task, set_fm. simpl.
  eapply (good_retire s _ _ _ _ _ _ G HR); [| | |done|set_solver].
  - intros f. rewrite sum_list_with_app, occurs_nil. simpl. lia.
  - intros c. rewrite sum_list_with_app. unfold users. simpl. lia.
  - intros t checked c i todo f [Ht|Ht]%lookup_snoc_task; [by apply (good_todo s G _ _ _ _ _ _ Ht)|done].
Qed.

Lemma perform_good s a : good s → good (perform s a).
Proof.
  intros G. destruct a as [[filters strict|checked|]|t a]; simpl.
  - destruct (fm_closed (sys_fm s)); by apply good_add_task.
  - by apply start_create_good.
  - by apply start_close_good.
  - destruct (sys_tasks s !! t) as [k|] eqn:Hk; [|done].
    destruct k as [strict i [|o todo] tmp bs|checked c i [|f todo]|c|c after|[|f ready] e after|o]; simpl.
    + by eapply commit_good.
    + by apply reload_round_good.
    + by apply (good_set_task s t _ _ G Hk).
    + by apply prepare_round_good.
    + by apply serve_good.
    + by apply Release_good.
    + by apply (good_set_task s t _ _ G Hk).
    + by apply close_round_good.
    + done.
Qed.

Lemma run_good actions : good (run actions).
Proof.
  unfold run. assert (∀ s, good s → good (foldl perform s actions)) as H; [|by apply H, initial_good].
  induction actions as [|a actions IH]; intros s G; simpl; [done|]. by apply IH, perform_good.
Qed.

(** ** Configurations

    A list of factories is loaded from a configuration if it has a factory for
    each of its filters, in order; for some of them, if the load was not
    strict. *)

Definition conf_name (o : option (HTTPFilter Conf)) : string :=
  match o with Some f => hf_Name f | None => "" end.

Definition heap_name (heap : gmap ptr factory) (f : ptr) : option string := fac_name <$> heap !! f.

Definition loaded (strict : bool) (heap : gmap ptr factory) (l : list ptr) (confs : list (option (HTTPFilter Conf))) :
    Prop :=
  ∃ names, map (heap_name heap) l = map Some names ∧
    if strict then names = map conf_name confs else names `sublist_of` map conf_name confs.

(** A list that is empty or was loaded by one of the calls. *)
Definition from_call (actions : list action) (heap : gmap ptr factory) (l : list ptr) : Prop :=
  l = [] ∨ ∃ confs strict, Call (ReLoad confs strict) ∈ actions ∧ loaded strict heap l confs.

Record tables_ok (actions : list action) s : Prop := mkTablesOk {
  ok_table : from_call actions (sys_heap s) (fm_filtersArray (sys_fm s));
  ok_chains : ∀ ch, ch ∈ sys_chains s → from_call actions (sys_heap s) (ch_factories ch);
  ok_tasks : ∀ strict i todo tmp bs, Reloading strict i todo tmp bs ∈ sys_tasks s →
    ∃ pre, Call (ReLoad (pre ++ todo) strict) ∈ actions ∧ loaded strict (sys_heap s) bs pre;
}.

Definition heap_le (heap heap' : gmap ptr factory) : Prop :=
  ∀ f fac, heap !! f = Some fac → heap' !! f = Some fac.

Lemma loaded_mono strict heap heap' l confs : heap_le heap heap' → loaded strict heap l confs → loaded strict heap' l confs.
Proof.
  intros Hle (names & Hn & Hs). exists names. split; [|done]. rewrite <- Hn.
  clear Hs. revert names Hn. induction l as [|f l IH]; intros [|n names] H; try done; simpl in *.
  injection H as Hf Hl. f_equal; [|by eapply IH].
  unfold heap_name in *. destruct (heap !! f) as [fac|] eqn:E; [|done]. by rewrite (Hle _ _ E).
Qed.

Lemma from_call_mono actions a heap heap' l :
  heap_le heap heap' → from_call actions heap l → from_call (actions ++ [a]) heap' l.
Proof.
  intros Hle [->|(confs & strict & Hc & Hl)]; [by left|right]. exists confs, strict.
  split; [by apply elem_of_app; left|by eapply loaded_mono].
Qed.

(** A step that neither loads nor commits. *)
Lemma tables_ok_mono actions a s s' :
  tables_ok actions s → heap_le (sys_heap s) (sys_heap s') →
  (fm_filtersArray (sys_fm s') = fm_filtersArray (sys_fm s) ∨ fm_filtersArray (sys_fm s') = []) →
  (∀ ch, ch ∈ sys_chains s' → ch_factories ch = fm_filtersArray (sys_fm s) ∨
     ∃ ch', ch' ∈ sys_chains s ∧ ch_factories ch = ch_factories ch') →
  (∀ strict i todo tmp bs, Reloading strict i todo tmp bs ∈ sys_tasks s' →
     Reloading strict i todo tmp bs ∈ sys_tasks s) →
  tables_ok (actions ++ [a]) s'.
Proof.
  intros [Ht Hc Hk] Hle Ha Hch Htk. split.
  - destruct Ha as [->| ->]; [by eapply from_call_mono|by left].
  - intros ch [->|(ch' & Hin & ->)]%Hch; eapply from_call_mono; eauto.
  - intros strict i todo tmp bs (pre & Hp & Hl)%Htk%Hk. exists pre.
    split; [by apply elem_of_app; left|by eapply loaded_mono].
Qed.

Lemma elem_of_set_task (tasks : list task) t k k' : k ∈ <[t := k']> tasks → k = k' ∨ k ∈ tasks.
Proof.
  intros [i Hi]%list_elem_of_lookup. destruct (decide (i = t)) as [->|].
  - apply list_lookup_insert_Some in Hi as [(_ & -> & _)|(? & _)]; [by left|done].
  - rewrite list_lookup_insert_ne in Hi by done. right. by eapply list_elem_of_lookup_2.
Qed.

Lemma retireFactories_array fm l : fm_filtersArray (retireFactories fm l).1 = fm_filtersArray fm.
Proof. unfold retireFactories. by destruct (retire_loop _ _ _ _). Qed.

Lemma releaseFactories_array fm l : fm_filtersArray (releaseFactories fm l).1 = fm_filtersArray fm.
Proof. unfold releaseFactories. by destruct (release_loop _ _ _ _) as [[? ?] ?]. Qed.

Lemma heap_le_refl heap : heap_le heap heap.
Proof. by intros f fac. Qed.

Lemma heap_le_alloc s fac : good s → heap_le (sys_heap s) (<[sys_next s := fac]> (sys_heap s)).
Proof.
  intros G f fac' Hf. rewrite lookup_insert_ne; [done|].
  assert (built s f) as Hb by (apply (good_heap s G); by eexists). unfold built in Hb. lia.
Qed.

(** A task moves on. *)
Lemma tables_ok_task actions a s t k' heap next trace lost :
  tables_ok actions s → heap_le (sys_heap s) heap →
  (∀ strict i todo tmp bs, k' = Reloading strict i todo tmp bs →
     ∃ pre, Call (ReLoad (pre ++ todo) strict) ∈ actions ∧ loaded strict heap bs pre) →
  tables_ok (actions ++ [a])
    (mkSystem (sys_fm s) heap next (sys_chains s) (<[t := k']> (sys_tasks s)) trace lost).
Proof.
  intros [Ht Hc Hr] Hle Hk. split; simpl.
  - by eapply from_call_mono.
  - intros ch Hch. by eapply from_call_mono, Hc.
  - intros strict i todo tmp bs [H|H]%elem_of_set_task.
    + destruct (Hk _ _ _ _ _ (eq_sym H)) as (pre & Hp & Hl). exists pre. split; [by apply elem_of_app; left|done].
    + destruct (Hr _ _ _ _ _ H) as (pre & Hp & Hl). exists pre.
      split; [by apply elem_of_app; left|by eapply loaded_mono].
Qed.

Lemma loaded_snoc strict heap l pre f fac o :
  loaded strict heap l pre → heap !! f = Some fac → fac_name fac = conf_name o → loaded strict heap (l ++ [f]) (pre ++ [o]).
Proof.
  intros (names & Hn & Hs) Hf Hname. exists (names ++ [fac_name fac]). rewrite !map_app, Hn. simpl.
  unfold heap_name. rewrite Hf. simpl. rewrite Hname. split; [done|].
  destruct strict; [by rewrite Hs|]. by apply sublist_app.
Qed.

Lemma tables_reload actions a s t strict i o todo tmp bs c :
  good s → tables_ok actions s → sys_tasks s !! t = Some (Reloading strict i (o :: todo) tmp bs) →
  tables_ok (actions ++ [a]) (reload_round s t strict i o todo tmp bs c).
Proof.
  intros G T Hk.
  destruct (ok_tasks _ _ T strict i (o :: todo) tmp bs) as (pre & Hp & Hl); [by eapply list_elem_of_lookup_2|].
  rewrite cons_middle, app_assoc in Hp.
  assert (∀ heap next trace lost name e, heap_le (sys_heap s) heap →
    tables_ok (actions ++ [a]) (reload_failed (mkSystem (sys_fm s) heap next (sys_chains s) (sys_tasks s) trace lost)
      t strict i name e todo tmp bs)) as Hf.
  { intros heap next trace lost name e Hle. unfold reload_failed, set_task. simpl.
    destruct strict; apply (tables_ok_task actions a s); try done. intros ? ? ? ? ? [= <- <- <- <- <-]. exists (pre ++ [o]).
    split; [done|]. destruct (loaded_mono _ _ _ _ _ Hle Hl) as (names & Hn & Hs). exists names. split; [done|].
    rewrite map_app. by apply sublist_inserts_r. }
  assert (∀ name e, tables_ok (actions ++ [a]) (reload_failed s t strict i name e todo tmp bs)) as Hf0.
  { intros name e. apply (Hf (sys_heap s) (sys_next s) (sys_trace s) (sys_lost s)), heap_le_refl. }
  unfold reload_round. destruct o as [f|]; [|done]. destruct (decide (hf_Name f = "")); [done|].
  destruct (Apply s (hf_Name f) c) as [s' r] eqn:EA.
  destruct (Apply_cases _ _ _ _ _ EA) as [[-> Hr]|(fac & Hname & [[-> ->]|[[-> Hr]|[-> ->]]])].
  - destruct r as [p|e|]; [by destruct (Hr p)|done|]. apply (tables_ok_task actions a s); try done; apply heap_le_refl.
  - apply (tables_ok_task actions a s); [done|by apply heap_le_alloc|]. intros ? ? ? ? ? [= <- <- <- <- <-].
    exists (pre ++ [Some f]). split; [done|]. eapply (loaded_snoc _ (<[sys_next s := fac]> (sys_heap s))); [|by rewrite lookup_insert_eq|done].
    eapply loaded_mono; [by apply heap_le_alloc|done].
  - destruct r as [p|e|]; [by destruct (Hr p)|by apply Hf, heap_le_alloc|].
    apply (tables_ok_task actions a s); try done. by apply heap_le_alloc.
  - apply (tables_ok_task actions a s); try done. by apply heap_le_alloc.
Qed.

Lemma tables_commit actions a s t strict i tmp bs :
  tables_ok actions s → sys_tasks s !! t = Some (Reloading strict i [] tmp bs) →
  tables_ok (actions ++ [a]) (reload_commit s t strict tmp bs).
Proof.
  intros T Hk. unfold reload_commit.
  destruct (ok_tasks _ _ T strict i [] tmp bs) as (pre & Hp & Hl); [by eapply list_elem_of_lookup_2|].
  rewrite app_nil_r in Hp.
  destruct (fm_closed (sys_fm s)); [apply (tables_ok_task actions a s); try done; apply heap_le_refl|].
  destruct (retireFactories _ _) as [fm ready] eqn:HR. apply (f_equal fst) in HR. simpl in HR.
  assert (fm_filtersArray fm = bs) as Hbs by (by rewrite <- HR, retireFactories_array).
  split; simpl.
  - rewrite Hbs. right. exists pre, strict. split; [by apply elem_of_app; left|done].
  - intros ch Hch. eapply from_call_mono; [apply heap_le_refl|by apply T].
  - intros strict' i' todo' tmp' bs' [?|H]%elem_of_set_task; [done|].
    destruct (ok_tasks _ _ T _ _ _ _ _ H) as (pre' & Hp' & Hl'). exists pre'. split; [by apply elem_of_app; left|done].
Qed.

Lemma tables_start actions s q : tables_ok actions s → tables_ok (actions ++ [Call q]) (start s q).
Proof.
  intros T.
  assert (∀ k, (∀ strict i todo tmp bs, k ≠ Reloading strict i todo tmp bs) →
    ∀ strict i todo tmp bs, Reloading strict i todo tmp bs ∈ sys_tasks s ++ [k] →
      Reloading strict i todo tmp bs ∈ sys_tasks s) as Hk.
  { intros k Hk strict i todo tmp bs [H|H]%elem_of_app; [done|]. apply list_elem_of_singleton in H.
    by destruct (Hk _ _ _ _ _ (eq_sym H)). }
  destruct q as [filters strict|checked|]; simpl.
  - destruct (fm_closed (sys_fm s)).
    + eapply tables_ok_mono; [done|apply heap_le_refl|by left|by eauto|by apply Hk].
    + split; simpl.
      * eapply from_call_mono; [apply heap_le_refl|apply T].
      * intros ch Hch. eapply from_call_mono; [apply heap_le_refl|by apply T].
      * intros strict' i todo tmp bs [H|H]%elem_of_app.
        -- destruct (ok_tasks _ _ T _ _ _ _ _ H) as (pre & Hp & Hl). exists pre. split; [by apply elem_of_app; left|done].
        -- apply list_elem_of_singleton in H as [= -> -> -> -> ->]. exists []. split.
           ++ apply elem_of_app. right. by apply list_elem_of_singleton.
           ++ exists []. split; [done|]. by destruct strict.
  - eapply tables_ok_mono; [done|apply heap_le_refl|by left| |by apply Hk].
    simpl. intros ch [Hch|Hch]%elem_of_app; [right; by exists ch|left]. by apply list_elem_of_singleton in Hch as ->.
  - destruct (fm_closed (sys_fm s)).
    + eapply tables_ok_mono; [done|apply heap_le_refl|by left|by eauto|by apply Hk].
    + destruct (retireFactories _ _) as [fm ready] eqn:HR. apply (f_equal fst) in HR. simpl in HR.
      eapply tables_ok_mono; [done|apply heap_le_refl| |by eauto|by apply Hk].
      right. simpl. by rewrite <- HR, retireFactories_array.
Qed.

Lemma tables_perform actions a s : good s → tables_ok actions s → tables_ok (actions ++ [a]) (perform s a).
Proof.
  intros G T.
  assert (∀ k trace lost t, (∀ strict i todo tmp bs, k ≠ Reloading strict i todo tmp bs) →
    tables_ok (actions ++ [a]) (mkSystem (sys_fm s) (sys_heap s) (sys_next s) (sys_chains s) (<[t := k]> (sys_tasks s))
      trace lost)) as Hmove.
  { intros k trace lost t Hk. apply (tables_ok_task actions a s); [done|apply heap_le_refl|].
    intros strict i todo tmp bs ->. by destruct (Hk strict i todo tmp bs). }
  assert (tables_ok (actions ++ [a]) s) as Hstay.
  { eapply tables_ok_mono; [done|apply heap_le_refl|by left|by eauto|done]. }
  assert (∀ trace, tables_ok (actions ++ [a]) (mkSystem (sys_fm s) (sys_heap s) (sys_next s) (sys_chains s) (sys_tasks s)
    trace (sys_lost s))) as Hlog.
  { intros trace. eapply tables_ok_mono; [done|apply heap_le_refl|by left|by eauto|done]. }
  destruct a as [q|t a]; simpl; [by apply tables_start|].
  destruct (sys_tasks s !! t) as [k|] eqn:Hk; [|done].
  destruct k as [strict i [|o todo] tmp bs|checked c i [|f todo]|c|c after|[|f ready] e after|o]; simpl; try done.
  - by eapply tables_commit.
  - by apply tables_reload.
  - by apply Hmove.
  - unfold prepare_round. destruct (sys_heap s !! f); [destruct (an_reply a)|]; [|destruct checked| |destruct checked];
      by apply Hmove.
  - unfold serve. destruct (an_run a); [|by apply Hmove]. destruct (_ ≫= _); [|done].
    destruct (an_reply a); [apply Hlog|apply Hlog|by apply Hmove].
  - unfold Release. destruct (sys_chains s !! c) as [[l []]|] eqn:Hc; [by apply Hmove| |by apply Hmove].
    pose proof (releaseFactories_array (sys_fm s) l) as Ha. destruct (releaseFactories _ _) as [fm ready].
    eapply tables_ok_mono; [done|apply heap_le_refl|by left| |].
    + simpl. intros ch [i Hi]%list_elem_of_lookup. right. apply list_lookup_insert_Some in Hi as [(-> & <- & _)|[_ Hi]].
      * exists (mkChain l false). split; [by eapply list_elem_of_lookup_2|done].
      * exists ch. split; [by eapply list_elem_of_lookup_2|done].
    + simpl. by intros strict i todo tmp bs [?|?]%elem_of_set_task.
  - by apply Hmove.
  - unfold close_round. destruct (sys_heap s !! f) as [fac|]; [|by apply Hmove].
    destruct (fac_closer fac); [destruct (an_reply a)|]; by apply Hmove.
Qed.

Lemma run_tables actions : tables_ok actions (run actions).
Proof.
  unfold run. induction actions as [|a actions IH] using rev_ind.
  - split; simpl; [by left|..]; intros *; by intros ?%not_elem_of_nil.
  - rewrite foldl_snoc. apply tables_perform; [apply run_good|done].
Qed.

(** ** A manager that is loaded once *)

(** A checked load that nothing disturbs: if it succeeds, the table is the
    configuration. *)
Definition loading (confs : list (option (HTTPFilter Conf))) s : Prop :=
  good s ∧ sys_chains s = [] ∧ fm_closed (sys_fm s) = false ∧
  ∃ k, sys_tasks s = [k] ∧
    match k with
    | Reloading strict _ todo _ bs => strict = true ∧ ∃ pre, confs = pre ++ todo ∧ loaded true (sys_heap s) bs pre
    | Closing _ _ (Some (Returned None)) | Done (Returned None) =>
        loaded true (sys_heap s) (fm_filtersArray (sys_fm s)) confs
    | Closing _ _ (Some _) | Done _ => True
    | _ => False
    end.

Lemma loading_round confs s i o todo tmp bs pre a :
  good s → sys_chains s = [] → fm_closed (sys_fm s) = false → sys_tasks s = [Reloading true i (o :: todo) tmp bs] →
  confs = pre ++ o :: todo → loaded true (sys_heap s) bs pre → loading confs (reload_round s 0 true i o todo tmp bs a).
Proof.
  intros G Hch Hcl Htk Hpre Hl. assert (good (reload_round s 0 true i o todo tmp bs a)) as G'.
  { apply reload_round_good; [done|]. by rewrite Htk. }
  split; [done|]. revert G'. unfold reload_round, reload_failed.
  destruct o as [f|]; [|intros _; simpl; rewrite Htk; split_and!; try done; by eexists].
  destruct (decide (hf_Name f = "")); [intros _; simpl; rewrite Htk; split_and!; try done; by eexists|].
  destruct (Apply s (hf_Name f) a) as [s' r] eqn:EA. intros _.
  destruct (Apply_cases _ _ _ _ _ EA) as [[-> Hr]|(fac & Hname & [[-> ->]|[[-> Hr]|[-> ->]]])].
  - destruct r as [p|e|]; [by destruct (Hr p)|..]; simpl; rewrite Htk; split_and!; try done; by eexists.
  - simpl. rewrite Htk. split_and!; try done. eexists. split; [done|]. split; [done|]. exists (pre ++ [Some f]).
    rewrite <- app_assoc. split; [done|]. eapply loaded_snoc; [|by rewrite lookup_insert_eq|done].
    eapply loaded_mono; [by apply heap_le_alloc|done].
  - destruct r as [p|e|]; [by destruct (Hr p)|..]; simpl; rewrite Htk; split_and!; try done; by eexists.
  - simpl. rewrite Htk. split_and!; try done. by eexists.
Qed.

Lemma loading_step confs s a : loading confs s → loading confs (perform s (Resume 0 a)).
Proof.
  intros (G & Hch & Hcl & k & Htk & Hk).
  assert (good (perform s (Resume 0 a))) as G' by (by apply perform_good).
  simpl in *. rewrite Htk in *. simpl in *.
  destruct k as [strict i [|o todo] tmp bs| | | |[|f ready] e [[[]|]|]|]; simpl in *; try done.
  - destruct Hk as (-> & pre & -> & Hl). rewrite app_nil_r. revert G'. unfold reload_commit. rewrite Hcl.
    destruct (retireFactories _ _) as [fm ready] eqn:HR.
    pose proof (f_equal (fm_filtersArray ∘ fst) HR) as Ha. simpl in Ha. rewrite retireFactories_array in Ha. simpl in Ha.
    intros G'. split; [done|]. simpl. rewrite Htk. split_and!; [done| |].
    + pose proof (f_equal (fm_closed ∘ fst) HR) as Hc. simpl in Hc. unfold retireFactories in Hc.
      destruct (retire_loop _ _ _ _). simpl in Hc. congruence.
    + eexists. split; [done|]. by rewrite <- Ha.
  - destruct Hk as (-> & pre & -> & Hl). by eapply loading_round.
  - split; [done|]. simpl. rewrite Htk. split_and!; try done. by eexists.
  - split; [done|]. simpl. rewrite Htk. split_and!; try done. by eexists.
  - split; [done|]. simpl. rewrite Htk. split_and!; try done. by eexists.
  - split; [done|]. unfold close_round. destruct (sys_heap s !! f) as [fac|]; [destruct (fac_closer fac)|];
      [destruct (an_reply a)|..]; simpl; rewrite Htk; split_and!; try done; by eexists.
  - split; [done|]. unfold close_round. destruct (sys_heap s !! f) as [fac|]; [destruct (fac_closer fac)|];
      [destruct (an_reply a)|..]; simpl; rewrite Htk; split_and!; try done; by eexists.
  - split; [done|]. unfold close_round. destruct (sys_heap s !! f) as [fac|]; [destruct (fac_closer fac)|];
      [destruct (an_reply a)|..]; simpl; rewrite Htk; split_and!; try done; by eexists.
  - split_and!; try done. by exists (Done o).
Qed.

Lemma loading_all confs answers :
  loading confs (foldl perform (perform initial (Call (ReLoad confs true))) (Resume 0 <$> answers)).
Proof.
  assert (loading confs (perform initial (Call (ReLoad confs true)))) as H.
  { split; [apply perform_good, initial_good|]. split_and!; try done. eexists. split; [done|]. split; [done|].
    exists []. split; [done|]. by exists []. }
  revert H. generalize (perform initial (Call (ReLoad confs true))).
  induction answers as [|a answers IH]; intros s Hs; simpl; [done|]. by apply IH, loading_step.
Qed.

(** From then on, without a reload: the chains of all requests are the table. *)
Definition served_by (heap : gmap ptr factory) (table : list ptr) s : Prop :=
  (∀ strict i todo tmp bs, Reloading strict i todo tmp bs ∉ sys_tasks s) ∧ sys_heap s = heap ∧
  ∀ ch, ch ∈ sys_chains s → ch_factories ch = table.

Lemma served_task heap table s t k' fm trace lost :
  served_by heap table s → (∀ strict i todo tmp bs, k' ≠ Reloading strict i todo tmp bs) →
  served_by heap table
    (mkSystem fm (sys_heap s) (sys_next s) (sys_chains s) (<[t := k']> (sys_tasks s)) trace lost).
Proof.
  intros (Hr & Hh & Hc) Hk. split_and!; simpl; [|done|done].
  intros strict i todo tmp bs [H|H]%elem_of_set_task; [by eapply Hk|by eapply Hr].
Qed.

Lemma served_resume heap table s t a :
  served_by heap table s →
  let s' := perform s (Resume t a) in
  served_by heap table s' ∧ fm_filtersArray (sys_fm s') = fm_filtersArray (sys_fm s).
Proof.
  intros Hs. pose proof Hs as (Hr & Hh & Hc). simpl. destruct (sys_tasks s !! t) as [k|] eqn:Hk; [|done].
  apply list_elem_of_lookup_2 in Hk as Hin.
  destruct k as [strict i todo tmp bs|checked c i [|f todo]|c|c after|[|f ready] e after|o]; simpl; try done.
  - by apply Hr in Hin.
  - split; [by apply served_task|done].
  - unfold prepare_round. destruct (sys_heap s !! f); [destruct (an_reply a)|]; [|destruct checked| |destruct checked];
      (split; [by apply served_task|done]).
  - unfold serve. destruct (an_run a); [|split; [by apply served_task|done]].
    destruct (_ ≫= _); [|done]. destruct (an_reply a); [done|done|]. split; [by apply served_task|done].
  - unfold Release. destruct (sys_chains s !! c) as [[l []]|] eqn:Hch; [split; [by apply served_task|done]| |split; [by apply served_task|done]].
    pose proof (releaseFactories_array (sys_fm s) l) as Ha. destruct (releaseFactories _ _) as [fm ready].
    split; [|done]. split_and!; simpl; [|done|].
    + intros strict i todo tmp bs [H|H]%elem_of_set_task; [done|by eapply Hr].
    + intros ch [j Hj]%list_elem_of_lookup. apply list_lookup_insert_Some in Hj as [(-> & <- & _)|[_ Hj]].
      * apply (Hc (mkChain l false)). by eapply list_elem_of_lookup_2.
      * by eapply Hc, list_elem_of_lookup_2.
  - split; [by apply served_task|done].
  - unfold close_round. destruct (sys_heap s !! f) as [fac|]; [|split; [by apply served_task|done]].
    destruct (fac_closer fac); [destruct (an_reply a)|]; (split; [by apply served_task|done]).
Qed.

Lemma served_create heap table s checked :
  served_by heap table s → fm_filtersArray (sys_fm s) = table →
  let s' := perform s (Call (CreateFilterChain checked)) in
  served_by heap table s' ∧ fm_filtersArray (sys_fm s') = table.
Proof.
  intros (Hr & Hh & Hc) Ht. simpl. split; [|done]. split_and!; simpl; [|done|].
  - intros strict i todo tmp bs [H|H]%elem_of_app; [by eapply Hr|]. by apply list_elem_of_singleton in H.
  - intros ch [H|H]%elem_of_app; [by apply Hc|]. by apply list_elem_of_singleton in H as ->.
Qed.

Lemma served_close heap table s : served_by heap table s → served_by heap table (perform s (Call Close)).
Proof.
  intros (Hr & Hh & Hc). simpl. destruct (fm_closed (sys_fm s)); [|destruct (retireFactories _ _)].
  all: split_and!; simpl; [|done|done].
  all: intros strict i todo tmp bs [H|H]%elem_of_app; [by eapply Hr|]; by apply list_elem_of_singleton in H.
Qed.

Definition call_of (a : action) : option call := match a with Call q => Some q | Resume _ _ => None end.

(** Requests, and [Close] after the last one was let in. *)
Lemma served_all heap table s actions n (last : list call) :
  served_by heap table s → fm_filtersArray (sys_fm s) = table → last = [] ∨ last = [Close] →
  omap call_of actions = repeat (CreateFilterChain true) n ++ last → served_by heap table (foldl perform s actions).
Proof.
  assert (∀ actions s, served_by heap table s → omap call_of actions = [] →
    served_by heap table (foldl perform s actions)) as Hend.
  { induction actions0 as [|[q|t a] l IH]; intros s0 Hs Hc; simpl in *; [done|done|].
    apply IH; [|done]. by apply served_resume. }
  intros Hs Ht Hlast. revert s n Hs Ht. induction actions as [|[q|t a] actions IH]; intros s n Hs Ht Hc; simpl in *; [done| |].
  - destruct n as [|n]; simpl in Hc.
    + destruct Hlast as [->| ->]; [done|]. injection Hc as -> Hc. apply Hend; [by apply served_close|done].
    + injection Hc as -> Hc. destruct (served_create heap table s true Hs Ht). by eapply IH.
  - destruct (served_resume heap table s t a Hs) as [Hs' Ha]. eapply IH; [done| |done]. simpl in Ha. by rewrite Ha.
Qed.

(** ** Theorems *)

(** C18: whatever requests, reloads and calls of [Close] run at the same time, and
    whatever filters answer: a factory that was closed is never called again,
    by the preparation of a chain or by a filter of one, and is not closed
    again. *)
Theorem closed_is_final actions past f later :
  sys_trace (run actions) = past ++ Closed f :: later → (Called f ∉ later) ∧ (Closed f ∉ later).
Proof.
  intros H. destruct (good_trace _ (run_good actions) _ _ _ f H eq_refl) as (H1 & H2 & _). done.
Qed.

(** C20: when all calls have returned, and none has panicked, a factory that has a
    [Close] method has been closed if and only if it is not in the table: one
    that a reload replaced, that a failed reload had built, or that was in use
    when the manager was closed is not forgotten, and after [Close] the table
    is empty. *)
Theorem no_factory_leaks actions f fac :
  let s := run actions in
  (∀ k, k ∈ sys_tasks s → ∃ e, k = Done (Returned e)) → sys_heap s !! f = Some fac → fac_closer fac = true →
  (Closed f ∈ sys_trace s ↔ f ∉ fm_filtersArray (sys_fm s)) ∧
  (fm_closed (sys_fm s) = true → fm_filtersArray (sys_fm s) = []).
Proof.
  intros s Hq Hf Hcl. pose proof (run_good actions : good s) as G. split; [|apply G].
  assert (sys_lost s = []) as Hlost.
  { destruct (sys_lost s) eqn:E; [done|]. assert (Done Panicked ∈ sys_tasks s) as Hp by (apply G; by rewrite E).
    apply Hq in Hp as [? ?]. done. }
  assert (loans s f = 0) as Hl.
  { destruct (loans s f) eqn:E; [done|]. destruct (sum_list_with_pos (chain_holds f) (sys_chains s)) as (c & ch & Hc & Hh).
    { fold (loans s f). lia. }
    pose proof (good_users s G c) as Hu. unfold live in Hu. rewrite Hc in Hu. unfold chain_holds in Hh.
    destruct (ch_released ch); [lia|]. simpl in Hu. unfold users in Hu. rewrite sum_list_with_zero in Hu; [done|].
    intros k Hk. apply Hq in Hk as [? ->]. done. }
  assert (is_retired (fm_retired (sys_fm s)) f = false) as Hr.
  { destruct (is_retired _ f) eqn:E; [|done]. apply (good_retired s G) in E. lia. }
  pose proof (good_owners s G f) as Ho. unfold owners in Ho. rewrite Hr, Hlost, occurs_nil in Ho.
  rewrite (sum_list_with_zero (task_owns f)) in Ho by (by intros k [? ->]%Hq).
  rewrite bool_decide_eq_true_2 in Ho by (apply (good_heap s G); by eexists). simpl in Ho.
  assert (Closed f ∈ sys_trace s ↔ f ∈ gone (sys_trace s)) as ->.
  { unfold gone. rewrite list_elem_of_omap. split; [by exists (Closed f)|]. intros (e & He & Hg).
    destruct e as [|g|g]; simplify_eq/=; [done|]. apply (good_skipped s G) in He as (fac' & ? & ?). congruence. }
  rewrite !occurs_elem. lia.
Qed.


(** If all reloads are checked ones, then the table is at all times one
    configuration in full, in its order, or empty; and so is the chain of
    every request: no request sees parts of two configurations, or a part of
    one. *)
Theorem one_configuration actions l :
  let s := run actions in
  (∀ confs strict, Call (ReLoad confs strict) ∈ actions → strict = true) →
  l = fm_filtersArray (sys_fm s) ∨ (∃ ch, ch ∈ sys_chains s ∧ l = ch_factories ch) →
  l = [] ∨ ∃ confs, Call (ReLoad confs true) ∈ actions ∧
    map (heap_name (sys_heap s)) l = map (λ o, Some (conf_name o)) confs.
Proof.
  intros s Hstrict Hl. pose proof (run_tables actions : tables_ok actions s) as T.
  assert (from_call actions (sys_heap s) l) as [->|(confs & strict & Hc & Hload)].
  { destruct Hl as [->|(ch & Hch & ->)]; [apply T|by apply T]. }
  { by left. }
  right. exists confs. pose proof (Hstrict _ _ Hc) as ->. split; [done|].
  destruct Hload as (names & -> & ->). by rewrite map_map.
Qed.
End manager.

Arguments task : clear implicits.
Arguments system : clear implicits.
Arguments call : clear implicits.
Arguments action : clear implicits.

(** ** A reload under a request *)

Module filters.

Definition registry : gmap string unit := {[ "auth" := (); "log" := (); "proxy" := () ]}.
Definition conf (name : string) : option (HTTPFilter unit) := Some (mkHTTPFilter name ()).

Definition ok : answer := mkAnswer (Creates true Fine Fine Fine Fine) Fine None.
Definition broken : answer := mkAnswer (Creates true Fine Fine (Fails "bad key") Fine) Fine None.
Definition dies : answer := mkAnswer (Creates true Fine Fine Panics Fine) Fine None.
Definition runs (k : nat) : answer := mkAnswer CreateNil Fine (Some k).

Definition steps (t n : nat) : list (action unit) := repeat (Resume t ok) n.

(** Two filters are loaded by task 0 and lent to the request 1.  Task 2 replaces
    them by one, and the request runs its first filter afterwards. *)
Definition busy : list (action unit) :=
  [Call (ReLoad [conf "auth"; conf "proxy"] true)] ++ steps 0 4 ++ [Call (CreateFilterChain true)] ++ steps 1 3 ++
  [Call (ReLoad [conf "log"] true)] ++ steps 2 3 ++ [Resume 1 (runs 0)].

(** Then the request ends, and the manager is closed. *)
Definition quiet : list (action unit) := busy ++ steps 1 5 ++ [Call Close] ++ steps 3 2.

Example busy_trace : sys_trace (run registry busy) = [Called 1; Called 2; Called 1].
Proof. vm_compute. reflexivity. Qed.

Example quiet_trace :
  sys_trace (run registry quiet) = [Called 1; Called 2; Called 1; Closed 1; Closed 2; Closed 3].
Proof. vm_compute. reflexivity. Qed.

Lemma closed_is_final_witness : (Called 1 ∉ [Closed 2; Closed 3]) ∧ (Closed 1 ∉ [Closed 2; Closed 3]).
Proof. apply (closed_is_final registry quiet [Called 1; Called 2; Called 1]). vm_compute. reflexivity. Defined.

Lemma quiet_done k :
  k ∈ sys_tasks (run registry quiet) → ∃ e, k = Done (Returned e).
Proof.
  assert (sys_tasks (run registry quiet) = repeat (Done (Returned None)) 4) as -> by (vm_compute; reflexivity).
  intros H. apply list_elem_of_In, repeat_spec in H as ->. by eexists.
Qed.

Lemma no_factory_leaks_witness :
  (Closed 1 ∈ sys_trace (run registry quiet) ↔ 1 ∉ fm_filtersArray (sys_fm (run registry quiet))) ∧
  (fm_closed (sys_fm (run registry quiet)) = true → fm_filtersArray (sys_fm (run registry quiet)) = []).
Proof. apply (no_factory_leaks registry quiet 1 (mkFactory "auth" true) quiet_done); vm_compute; reflexivity. Defined.


Lemma busy_strict confs strict : Call (ReLoad confs strict) ∈ busy → strict = true.
Proof.
  assert (Forall (λ a, match a with Call (ReLoad _ b) => b | _ => true end = true) busy) as H
    by (repeat constructor).
  rewrite Forall_forall in H. apply (H (Call (ReLoad confs strict))).
Qed.

(** The request still runs the configuration it started with. *)
Lemma one_configuration_witness :
  [1; 2] = [] ∨ ∃ confs, Call (ReLoad confs true) ∈ busy ∧
    map (heap_name (sys_heap (run registry busy))) [1; 2] = map (λ o, Some (conf_name o)) confs.
Proof.
  apply (one_configuration registry busy [1; 2] busy_strict). right. exists (mkChain [1; 2] false).
  split; [|reflexivity].
  replace (sys_chains (run registry busy)) with [mkChain [1; 2] false] by (vm_compute; reflexivity). constructor.
Defined.

(** A checked reload that fails closes what it built and keeps the table. *)
Example failed_reload :
  let s := run registry ([Call (ReLoad [conf "auth"] true)] ++ steps 0 3 ++
    [Call (ReLoad [conf "log"; conf "proxy"] true); Resume 1 ok; Resume 1 broken] ++ steps 1 2) in
  fm_filtersArray (sys_fm s) = [1] ∧ sys_trace s = [Closed 3; Closed 2] ∧
  sys_tasks s !! 1 = Some (Done (Returned (Some (NotApplied 1 "proxy" (CreateFail "bad key"))))).
Proof. vm_compute. auto. Qed.

(** A factory that panics during a reload leaves the ones that were built before
    it open for ever. *)
Example panic_forgets :
  let s := run registry [Call (ReLoad [conf "auth"; conf "log"] true); Resume 0 ok; Resume 0 dies] in
  sys_trace s = [] ∧ sys_lost s = [2; 1] ∧ fm_filtersArray (sys_fm s) = [] ∧ sys_tasks s = [Done Panicked].
Proof. vm_compute. auto. Qed.

(** A manager that is closed gives out empty chains, and says so to nobody: a
    request would go through without its filters. *)
Example closed_manager_serves :
  let s := run registry ([Call (ReLoad [conf "auth"] true)] ++ steps 0 2 ++ [Call Close] ++ steps 1 2 ++
    [Call (CreateFilterChain true)] ++ steps 2 1) in
  sys_tasks s !! 2 = Some (Serving 0) ∧ sys_chains s = [mkChain [] false].
Proof. vm_compute. auto. Qed.
End filters.
