(* ===== verification/Listener.v ===== *)
(** * Listeners and the chains of network filters

    [pkg/listener/listener.go] and [pkg/filterchain/network_filter_chain.go]:
    how a listener builds its chain of network filters, publishes another one
    while requests use it, and closes the old one after the last of them.

    A snapshot holds a chain and a 64-bit word: the number of requests that use
    it, and in the top bit whether it is retired.  The word is changed without
    a lock, by atomic loads, additions and compare-and-swaps, and each of these
    is a step of its own here; the requests of a listener, its refreshes and
    its end run at the same time.  The listeners of a manager share one gate, a
    reader-writer lock that a request holds while it takes its snapshot.  What
    a writer does under the gate is one step, possible when there is no reader.

    Theorems: a chain is neither used nor closed again once it was closed
    ([closed_chain_is_final]); when nothing is in flight, the chains that are
    open are those of the listeners ([no_chain_leaks]); the word is exact and
    does not overflow ([word_exact]); a refresh makes no request fail
    ([refresh_refuses_nobody]); a filter manager that is reached through a
    listener is not used after it was closed, so that no request goes through
    without its filters ([requests_before_close], [never_bare]). *)

From S2P Require Import Prelude GoStrings FilterManager.

#[local] Arguments occurs : simpl never.

(** ** Chains of network filters *)

Section network.
Context {Plugin Conf : Type} (registry : gmap string Plugin).

Record NetworkFilter : Type := mkNetworkFilter { nf_Name : string; nf_Config : Conf }.

(** What a plugin does: the parsing of the configuration and [CreateFilter],
    which may return nil or panic. *)
Inductive network_creation : Type :=
  | ParseFails (e : string)
  | FilterFails (e : string)
  | FilterNil
  | FilterPanics
  | FilterMade (id : nat).

Inductive build_error : Type :=
  | EmptyFilterName (index : nat)
  | PluginNotFound (name : string)
  | ParseError (name e : string)
  | CreateError (name e : string)
  | NilFilter (name : string).

(** The filters of the chain, or an error; and the filters that were closed.
    The deferred function finds no error when a plugin panics: it closes
    nothing. *)
Inductive built_chain : Type :=
  | Chain (filters : list nat)
  | Rejected (e : build_error) (closed : list nat)
  | BuildPanics (open : list nat).

Fixpoint build_loop (index : nat) (confs : list (NetworkFilter * network_creation)) (filters : list nat) :
    built_chain :=
  match confs with
  | [] => Chain filters
  | (f, c) :: confs =>
      if decide (nf_Name f = "") then Rejected (EmptyFilterName index) filters
      else
        match GetHttpFilterPlugin registry (nf_Name f) with
        | None => Rejected (PluginNotFound (nf_Name f)) filters
        | Some _ =>
            match c with
            | ParseFails e => Rejected (ParseError (nf_Name f) e) filters
            | FilterFails e => Rejected (CreateError (nf_Name f) e) filters
            | FilterNil => Rejected (NilFilter (nf_Name f)) filters
            | FilterPanics => BuildPanics filters
            | FilterMade id => build_loop (index + 1) confs (filters ++ [id])
            end
        end
  end.

Definition BuildNetworkFilterChain (confs : list (NetworkFilter * network_creation)) : built_chain :=
  build_loop 0 confs [].

(** The best-effort variant for listeners outside of the repository: filters
    that cannot be made are left out; [None] is a panic.  A nil filter is
    appended. *)
Fixpoint CreateNetworkFilterChain (confs : list (NetworkFilter * network_creation)) : option (list (option nat)) :=
  match confs with
  | [] => Some []
  | (f, c) :: confs =>
      match GetHttpFilterPlugin registry (nf_Name f), c with
      | None, _ | Some _, ParseFails _ | Some _, FilterFails _ => CreateNetworkFilterChain confs
      | Some _, FilterNil => cons None <$> CreateNetworkFilterChain confs
      | Some _, FilterPanics => None
      | Some _, FilterMade id => cons (Some id) <$> CreateNetworkFilterChain confs
      end
  end.

(** [Close]: every filter is closed, whatever the others answer; a panic is
    turned into an error. *)
Definition closeNetworkFilter (r : reply) : option string :=
  match r with Fine => None | Fails e => Some e | Panics => Some "close network filter panicked" end.

Fixpoint close_filters (filters : list (nat * reply)) (firstErr : option string) : list nat * option string :=
  match filters with
  | [] => ([], firstErr)
  | (f, r) :: filters =>
      let firstErr := match closeNetworkFilter r, firstErr with
                      | Some e, None => Some e
                      | _, _ => firstErr
                      end in
      let '(closed, err) := close_filters filters firstErr in (f :: closed, err)
  end.

Definition made (c : network_creation) : option nat :=
  match c with FilterMade id => Some id | _ => None end.

(** A chain has all the filters of its configuration, in order; one that is
    rejected closes each filter that was made for it. *)
Lemma build_loop_spec index confs filters :
  match build_loop index confs filters with
  | Chain all =>
      all = filters ++ omap (made ∘ snd) confs ∧ length all = length filters + length confs ∧
      Forall (λ fc, nf_Name (fc : NetworkFilter * network_creation).1 ≠ "") confs
  | Rejected _ closed => ∃ n, closed = filters ++ omap (made ∘ snd) (take n confs)
  | BuildPanics open => ∃ n, open = filters ++ omap (made ∘ snd) (take n confs)
  end.
Proof.
  revert index filters. induction confs as [|[f c] confs IH]; intros index filters; simpl.
  { rewrite app_nil_r. split_and!; [done|lia|constructor]. }
  assert (∃ n, filters = filters ++ omap (made ∘ snd) (take n ((f, c) :: confs))) as H0.
  { exists 0. by rewrite take_0, app_nil_r. }
  destruct (decide (nf_Name f = "")); [done|].
  destruct (GetHttpFilterPlugin _ _); [|done]. destruct c as [e|e| | |id]; try done.
  specialize (IH (index + 1) (filters ++ [id])). destruct (build_loop _ _ _) as [all|e closed|open].
  - destruct IH as (-> & Hl & Hf). rewrite <- app_assoc. split_and!; [done| |by constructor].
    rewrite <- app_assoc, !length_app in *. simpl in *. lia.
  - destruct IH as [m ->]. exists (S m). by rewrite <- app_assoc.
  - destruct IH as [m ->]. exists (S m). by rewrite <- app_assoc.
Qed.
End network.

(** Every filter is closed once, and the first error is returned. *)
Lemma close_filters_all filters firstErr :
  close_filters filters firstErr =
    (map fst filters, match firstErr with Some e => Some e | None => first_some (closeNetworkFilter ∘ snd) filters end).
Proof.
  revert firstErr. induction filters as [|[f r] filters IH]; intros firstErr; simpl; [by destruct firstErr|].
  rewrite IH. destruct (closeNetworkFilter r), firstErr; done.
Qed.

(** ** Snapshots *)

Definition filterChainRetired : Z := 2 ^ 63.

(** A snapshot is made together with its chain; both have the same number.
    [sn_closed] is [closeOnce]. *)
Record filterChainSnapshot : Type := mkSnapshot {
  sn_state : Z;
  sn_closed : bool;
}.

Definition newFilterChainSnapshot : filterChainSnapshot := mkSnapshot 0 false.

(** [bl_filterChain] is the atomic pointer, [bl_FilterChain] the plain field. *)
Record BaseListenerService : Type := mkBase {
  bl_filterChain : option nat;
  bl_FilterChain : option nat;
  bl_active : bool;
}.

Definition NewBaseListenerService (fc : nat) : BaseListenerService := mkBase (Some fc) (Some fc) true.

Inductive refusal : Type := NotActive | NotInitialized.

Inductive result : Type := Served | RefusedWith (e : refusal) | BuildFailed | Updated.

Inductive chain_event : Type := UsedChain (n : nat) | ClosedChain (n : nat).

#[global] Instance chain_event_eq_dec : EqDecision chain_event.
Proof. solve_decision. Defined.

(** What is left of a call.  From [Checking] to [Unlocking] a request holds the
    gate for reading; from [Unlocking] to [Dropping] it is counted in the word
    of its snapshot.  [Retiring] has a list of snapshots to retire. *)
Inductive task : Type :=
  | Checking (l : nat)
  | Loading (l : nat)
  | Acquiring (l n : nat)
  | Swapping (l n : nat) (state : Z)
  | Refusing (e : refusal)
  | Unlocking (n : nat)
  | Using (n : nat)
  | Dropping (n : nat)
  | ClosingSnapshot (n : nat)
  | Committing (updates : list (nat * nat))
  | Shutting (l : nat)
  | Retiring (todo : list nat)
  | Retire (n : nat) (state : Z) (todo : list nat)
  | RetireClosing (n : nat) (todo : list nat)
  | Done (r : result).

Record world : Type := mkWorld {
  w_snapshots : list filterChainSnapshot;
  w_services : list BaseListenerService;
  w_readers : nat;
  w_tasks : list task;
  w_trace : list chain_event;
}.
Implicit Types (w : world).

Definition set_task w (t : nat) (k : task) : world :=
  mkWorld (w_snapshots w) (w_services w) (w_readers w) (<[t := k]> (w_tasks w)) (w_trace w).
Definition add_task w (k : task) : world :=
  mkWorld (w_snapshots w) (w_services w) (w_readers w) (w_tasks w ++ [k]) (w_trace w).
Definition set_readers w (n : nat) : world :=
  mkWorld (w_snapshots w) (w_services w) n (w_tasks w) (w_trace w).
Definition set_services w (services : list BaseListenerService) : world :=
  mkWorld (w_snapshots w) services (w_readers w) (w_tasks w) (w_trace w).
Definition set_snapshots w (snapshots : list filterChainSnapshot) : world :=
  mkWorld snapshots (w_services w) (w_readers w) (w_tasks w) (w_trace w).
Definition set_word w (n : nat) (state : Z) : world :=
  set_snapshots w (alter (λ sn, mkSnapshot state (sn_closed sn)) n (w_snapshots w)).
Definition word w (n : nat) : Z := match w_snapshots w !! n with Some sn => sn_state sn | None => 0 end.
Definition log w (e : chain_event) : world :=
  mkWorld (w_snapshots w) (w_services w) (w_readers w) (w_tasks w) (w_trace w ++ [e]).

(** [close]: the chain is closed by the first call. *)
Definition close w (n : nat) : world :=
  match w_snapshots w !! n with
  | Some sn =>
      if sn_closed sn then w
      else log (set_snapshots w (<[n := mkSnapshot (sn_state sn) true]> (w_snapshots w))) (ClosedChain n)
  | None => w
  end.

(** ** Steps *)

(** [currentSnapshot]: a service that was not made by [NewBaseListenerService]
    wraps its chain at the first use. *)
Definition currentSnapshot w (l : nat) : world * option nat :=
  match w_services w !! l with
  | None => (w, None)
  | Some ls =>
      match bl_filterChain ls with
      | Some n => (w, Some n)
      | None =>
          match bl_FilterChain ls with
          | None => (w, None)
          | Some _ =>
              let candidate := length (w_snapshots w) in
              (set_services (set_snapshots w (w_snapshots w ++ [newFilterChainSnapshot]))
                 (<[l := mkBase (Some candidate) (bl_FilterChain ls) (bl_active ls)]> (w_services w)), Some candidate)
          end
      end
  end.

(** [CommitRefresh] of each prepared update; the snapshots that were swapped
    out. *)
Fixpoint CommitRefresh (services : list BaseListenerService) (updates : list (nat * nat)) :
    list BaseListenerService * list nat :=
  match updates with
  | [] => (services, [])
  | (l, next) :: updates =>
      match services !! l with
      | None => CommitRefresh services updates
      | Some ls =>
          let '(services, old) :=
            CommitRefresh (<[l := mkBase (Some next) (Some next) (bl_active ls)]> services) updates in
          (services, match bl_filterChain ls with Some n => n :: old | None => old end)
      end
  end.

(** A request ends its use of the chain, or uses it once more. *)
Definition resume w (t : nat) (k : task) (again : bool) : world :=
  match k with
  | Checking l =>
      match w_services w !! l with
      | Some ls => if bl_active ls then set_task w t (Loading l) else set_task w t (Refusing NotActive)
      | None => set_task w t (Refusing NotActive)
      end
  | Loading l =>
      match currentSnapshot w l with
      | (w, Some n) => set_task w t (Acquiring l n)
      | (w, None) => set_task w t (Refusing NotInitialized)
      end
  | Acquiring l n =>
      let state := word w n in
      if negb (Z.land state filterChainRetired =? 0)%Z || (state =? filterChainRetired - 1)%Z
      then set_task w t (Refusing NotInitialized)
      else set_task w t (Swapping l n state)
  | Swapping l n state =>
      if (word w n =? state)%Z then set_task (set_word w n (wrap64 (state + 1))) t (Unlocking n)
      else set_task w t (Acquiring l n)
  | Refusing e => set_task (set_readers w (w_readers w - 1)) t (Done (RefusedWith e))
  | Unlocking n => set_task (set_readers w (w_readers w - 1)) t (Using n)
  | Using n => if again then log w (UsedChain n) else set_task w t (Dropping n)
  | Dropping n =>
      let state := wrap64 (word w n + (2 ^ 64 - 1)) in
      set_task (set_word w n state) t
        (if (state =? filterChainRetired)%Z then ClosingSnapshot n else Done Served)
  | ClosingSnapshot n => set_task (close w n) t (Done Served)
  | Committing updates =>
      if decide (w_readers w = 0) then
        let '(services, old) := CommitRefresh (w_services w) updates in
        set_task (set_services w services) t (Retiring old)
      else w
  | Shutting l =>
      if decide (w_readers w = 0) then
        match w_services w !! l with
        | Some ls =>
            set_task (set_services w (<[l := mkBase None None false]> (w_services w))) t
              (Retiring (match bl_filterChain ls with Some n => [n] | None => [] end))
        | None => set_task w t (Retiring [])
        end
      else w
  | Retiring [] => set_task w t (Done Updated)
  | Retiring (n :: todo) =>
      let state := word w n in
      if (Z.land state filterChainRetired =? 0)%Z then set_task w t (Retire n state todo)
      else if (state =? filterChainRetired)%Z then set_task w t (RetireClosing n todo)
      else set_task w t (Retiring todo)
  | Retire n state todo =>
      if (word w n =? state)%Z then
        set_task (set_word w n (Z.lor state filterChainRetired)) t
          (if (state =? 0)%Z then RetireClosing n todo else Retiring todo)
      else set_task w t (Retiring (n :: todo))
  | RetireClosing n todo => set_task (close w n) t (Retiring todo)
  | Done _ => w
  end.

(** The calls: a new listener, a request, an update of some listeners whose
    chains were built ([Refresh], or the refreshes of one transaction of the
    manager), one that is given up after some chains were built, the end of a
    listener, and [SetActive]. *)
Inductive call : Type :=
  | AddListener
  | WithFilterChain (l : nat)
  | Replace (listeners : list nat)
  | Reject (prepared : nat)
  | CloseFilterChain (l : nat)
  | SetActive (l : nat) (active : bool).

Definition start w (q : call) : world :=
  let n := length (w_snapshots w) in
  match q with
  | AddListener =>
      set_services (set_snapshots w (w_snapshots w ++ [newFilterChainSnapshot]))
        (w_services w ++ [NewBaseListenerService n])
  | WithFilterChain l => add_task (set_readers w (w_readers w + 1)) (Checking l)
  | Replace listeners =>
      if decide (Forall (λ l, l < length (w_services w)) listeners) then
        add_task (set_snapshots w (w_snapshots w ++ repeat newFilterChainSnapshot (length listeners)))
          (Committing (zip listeners (seq n (length listeners))))
      else w
  | Reject prepared =>
      add_task (set_snapshots w (w_snapshots w ++ repeat newFilterChainSnapshot prepared)) (Retiring (seq n prepared))
  | CloseFilterChain l => add_task w (Shutting l)
  | SetActive l active =>
      set_services w (alter (λ ls, mkBase (bl_filterChain ls) (bl_FilterChain ls) active) l (w_services w))
  end.

Inductive action : Type := Call (q : call) | Resume (t : nat) (again : bool).

Definition perform w (a : action) : world :=
  match a with
  | Call q => start w q
  | Resume t again => match w_tasks w !! t with Some k => resume w t k again | None => w end
  end.

Definition initial : world := mkWorld [] [] 0 [] [].
Definition run (actions : list action) : world := foldl perform initial actions.

(** ** Invariant

    Each chain that was built has one owner: a listener, a task that is to
    publish or to retire it, or nobody once it is retired.  The word of a
    snapshot is the number of requests that use it, plus the top bit if it is
    retired; a chain is closed when its word is just that bit. *)

Definition same (a b : nat) : nat := if decide (a = b) then 1 else 0.

Definition task_holds (n : nat) (k : task) : nat :=
  match k with Unlocking n' | Using n' | Dropping n' => same n n' | _ => 0 end.

Definition in_gate (k : task) : nat :=
  match k with
  | Checking _ | Loading _ | Acquiring _ _ | Swapping _ _ _ | Refusing _ | Unlocking _ => 1
  | _ => 0
  end.

Definition task_owns (n : nat) (k : task) : nat :=
  match k with
  | Committing updates => occurs n (map snd updates)
  | Retiring todo | RetireClosing _ todo => occurs n todo
  | Retire n' _ todo => same n n' + occurs n todo
  | _ => 0
  end.

Definition task_closes (n : nat) (k : task) : nat :=
  match k with ClosingSnapshot n' | RetireClosing n' _ => same n n' | _ => 0 end.

Definition service_owns (n : nat) (ls : BaseListenerService) : nat :=
  match bl_filterChain ls with Some n' => same n n' | None => 0 end.

Definition holders w n : nat := sum_list_with (task_holds n) (w_tasks w).
Definition owned w n : nat := sum_list_with (task_owns n) (w_tasks w).
Definition closers w n : nat := sum_list_with (task_closes n) (w_tasks w).
Definition published w n : nat := sum_list_with (service_owns n) (w_services w).
Definition retired w n : bool := (filterChainRetired <=? word w n)%Z.
Definition closed w n : bool := match w_snapshots w !! n with Some sn => sn_closed sn | None => false end.
Definition exists_snapshot w n : bool := bool_decide (n < length (w_snapshots w)).

(** Nothing happens to a chain after it was closed. *)
Definition trace_ok (trace : list chain_event) : Prop :=
  ∀ past n later, trace = past ++ ClosedChain n :: later → (UsedChain n ∉ later) ∧ (ClosedChain n ∉ later).

(** A step of a task that rests on what it has read before. *)
Definition task_ok (services : list BaseListenerService) (k : task) : Prop :=
  match k with
  | Acquiring l n => bl_filterChain <$> services !! l = Some (Some n)
  | Swapping l n state =>
      bl_filterChain <$> services !! l = Some (Some n) ∧ (0 ≤ state < filterChainRetired - 1)%Z
  | Retire n state _ => (0 ≤ state < filterChainRetired)%Z
  | Committing updates => Forall (λ u, u.1 < length services) updates
  | _ => True
  end.

Record good w : Prop := mkGood {
  good_owners : ∀ n, published w n + owned w n + flag (retired w n) = flag (exists_snapshot w n);
  good_readers : w_readers w = sum_list_with in_gate (w_tasks w);
  good_word : ∀ n, (word w n = filterChainRetired * Z.of_nat (flag (retired w n)) + Z.of_nat (holders w n))%Z ∧
    (Z.of_nat (holders w n) < filterChainRetired)%Z;
  good_closers : ∀ n, 0 < closers w n → word w n = filterChainRetired;
  good_closed : ∀ n, closed w n = true → word w n = filterChainRetired;
  good_zero : ∀ n, word w n = filterChainRetired → closed w n = true ∨ 0 < closers w n;
  good_tasks : ∀ t k, w_tasks w !! t = Some k → task_ok (w_services w) k;
  good_fields : ∀ l ls, w_services w !! l = Some ls → bl_FilterChain ls = bl_filterChain ls;
  good_trace : trace_ok (w_trace w);
  good_logged : ∀ n, ClosedChain n ∈ w_trace w ↔ closed w n = true;
}.

Lemma chain_initial_good : good initial.
Proof.
  split; try done.
  - intros n H. unfold closers in H. simpl in H. lia.
  - intros past n later H. by destruct past.
  - intros n. split; [by intros ?%not_elem_of_nil|done].
Qed.

Ltac keep_parts G :=
  try first
    [ exact (good_owners _ G) | exact (good_readers _ G) | exact (good_word _ G) | exact (good_closers _ G)
    | exact (good_closed _ G) | exact (good_zero _ G) | exact (good_tasks _ G) | exact (good_fields _ G)
    | exact (good_trace _ G) | exact (good_logged _ G) ].

(** ** Tasks that move on *)

Lemma tasks_ok_insert w t k' services :
  good w → (∀ t k, w_tasks w !! t = Some k → task_ok services k) → task_ok services k' →
  ∀ t' k, <[t := k']> (w_tasks w) !! t' = Some k → task_ok services k.
Proof.
  intros G H Hk t' k Ht. destruct (decide (t' = t)) as [->|].
  - by apply list_lookup_insert_Some in Ht as [(_ & -> & _)|[? _]].
  - rewrite list_lookup_insert_ne in Ht by done. by eapply H.
Qed.

(** Without a change of the words or of the listeners. *)
Lemma good_move w t k k' readers :
  good w → w_tasks w !! t = Some k →
  readers + in_gate k = w_readers w + in_gate k' → (∀ n, task_owns n k' = task_owns n k) →
  (∀ n, task_holds n k' = task_holds n k) → (∀ n, task_closes n k' = task_closes n k) →
  task_ok (w_services w) k' →
  good (mkWorld (w_snapshots w) (w_services w) readers (<[t := k']> (w_tasks w)) (w_trace w)).
Proof.
  intros G Hk Hr Ho Hh Hc Hok.
  assert (∀ g : task → nat, g k' = g k → sum_list_with g (<[t := k']> (w_tasks w)) = sum_list_with g (w_tasks w)) as Hsum.
  { intros g Hg. pose proof (sum_list_with_insert g _ _ k' _ Hk). lia. }
  split; keep_parts G; simpl.
  - intros n. unfold owned. simpl. rewrite Hsum by done. apply (good_owners w G n).
  - pose proof (sum_list_with_insert in_gate _ _ k' _ Hk). rewrite (good_readers w G) in Hr. lia.
  - intros n. unfold holders. simpl. rewrite Hsum by done. apply (good_word w G n).
  - intros n. unfold closers. simpl. rewrite Hsum by done. apply (good_closers w G n).
  - intros n. unfold closers. simpl. rewrite Hsum by done. apply (good_zero w G n).
  - by apply tasks_ok_insert; [|apply G|].
Qed.

(** ** Words *)

Lemma word_set w n z m : n < length (w_snapshots w) → word (set_word w n z) m = if decide (m = n) then z else word w m.
Proof.
  intros Hn. unfold word, set_word. simpl. rewrite list_lookup_alter. destruct (decide (m = n)) as [->|].
  - rewrite decide_True by done. destruct (lookup_lt_is_Some_2 _ _ Hn) as [sn ->]. done.
  - by rewrite decide_False by congruence.
Qed.

Lemma closed_set w n z m : closed (set_word w n z) m = closed w m.
Proof.
  unfold closed, set_word. simpl. rewrite list_lookup_alter.
  destruct (decide (n = m)) as [->|]; [|done]. by destruct (w_snapshots w !! m).
Qed.

(** A task changes the word of a snapshot that is not at rest, and with it what
    it holds, owns or has to close. *)
Lemma good_word_step w t k k' n z readers :
  good w → w_tasks w !! t = Some k → n < length (w_snapshots w) → word w n ≠ filterChainRetired →
  readers + in_gate k = w_readers w + in_gate k' →
  (∀ m, task_owns m k' + (if decide (m = n) then flag (filterChainRetired <=? z)%Z else 0) =
        task_owns m k + (if decide (m = n) then flag (retired w n) else 0)) →
  (∀ m, m ≠ n → task_holds m k' = task_holds m k) →
  (z = filterChainRetired * Z.of_nat (flag (filterChainRetired <=? z)%Z) +
       (Z.of_nat (holders w n) - Z.of_nat (task_holds n k) + Z.of_nat (task_holds n k')))%Z →
  (Z.of_nat (holders w n) - Z.of_nat (task_holds n k) + Z.of_nat (task_holds n k') < filterChainRetired)%Z →
  (∀ m, task_closes m k' = if decide (m = n) then flag (z =? filterChainRetired)%Z else task_closes m k) →
  task_ok (w_services w) k' →
  good (set_task (set_readers (set_word w n z) readers) t k').
Proof.
  intros G Hk Hn Hx Hr Ho Hh Hz Hlt Hc Hok.
  assert (∀ m, word (set_task (set_readers (set_word w n z) readers) t k') m =
    if decide (m = n) then z else word w m) as Hw by (intros m; by apply (word_set w n z m)).
  assert (closers w n = 0) as Hnc.
  { destruct (closers w n) eqn:E; [done|]. exfalso. apply Hx, (good_closers w G). lia. }
  assert (∀ m, closers (set_task (set_readers (set_word w n z) readers) t k') m =
    if decide (m = n) then flag (z =? filterChainRetired)%Z else closers w m) as Hcl.
  { intros m. pose proof (sum_list_with_insert (task_closes m) _ _ k' _ Hk) as H. unfold closers in *. simpl.
    rewrite (Hc m) in H. pose proof (sum_list_with_lookup (task_closes m) _ _ _ Hk) as Hle.
    destruct (decide (m = n)) as [->|]; lia. }
  split; keep_parts G.
  - intros m. unfold retired. rewrite Hw. specialize (Ho m). pose proof (good_owners w G m) as H.
    pose proof (sum_list_with_insert (task_owns m) _ _ k' _ Hk) as Hs. unfold owned, published, exists_snapshot in *. simpl.
    rewrite length_alter. destruct (decide (m = n)) as [->|]; unfold retired in *; lia.
  - simpl. pose proof (sum_list_with_insert in_gate _ _ k' _ Hk). rewrite (good_readers w G) in Hr. lia.
  - intros m. unfold retired. rewrite Hw. pose proof (sum_list_with_insert (task_holds m) _ _ k' _ Hk) as Hs.
    destruct (good_word w G m) as [Hm Hml]. unfold holders in *. simpl.
    destruct (decide (m = n)) as [->|Hne]; [split; [etrans; [exact Hz|]|]; lia|]. rewrite (Hh m Hne) in Hs. unfold retired in Hm.
    split; [etrans; [exact Hm|]|]; lia.
  - intros m. rewrite Hw, Hcl. destruct (decide (m = n)); [|apply (good_closers w G)].
    destruct (z =? filterChainRetired)%Z eqn:E; simpl; lia.
  - intros m. rewrite Hw. change (closed (set_word w n z) m = true → (if decide (m = n) then z else word w m) = filterChainRetired).
    rewrite closed_set. intros Hm%(good_closed w G). destruct (decide (m = n)) as [->|]; [done|done].
  - intros m. rewrite Hw, Hcl. change (closed _ m) with (closed (set_word w n z) m). rewrite closed_set.
    destruct (decide (m = n)) as [->|]; [|apply (good_zero w G)]. intros ->. right. rewrite Z.eqb_refl. simpl. lia.
  - simpl. by apply tasks_ok_insert; [|apply G|].
  - intros m. change (closed _ m) with (closed (set_word w n z) m). rewrite closed_set. apply (good_logged w G).
Qed.

Lemma land_top z : Z.land z filterChainRetired = if Z.testbit z 63 then filterChainRetired else 0%Z.
Proof.
  apply Z.bits_inj'. intros i Hi. unfold filterChainRetired. rewrite Z.land_spec, Z.pow2_bits_eqb by lia.
  destruct (Z.eqb_spec 63 i) as [<-|Hne].
  - destruct (Z.testbit z 63); [by rewrite Z.pow2_bits_true|by rewrite Z.bits_0].
  - rewrite andb_false_r. destruct (Z.testbit z 63); [by rewrite Z.pow2_bits_false|by rewrite Z.bits_0].
Qed.

Lemma top_bit z : (0 ≤ z < 2 ^ 64)%Z → Z.testbit z 63 = (filterChainRetired <=? z)%Z.
Proof.
  intros Hz. unfold filterChainRetired. destruct (Z.leb_spec (2 ^ 63) z).
  - apply Z.testbit_true; [lia|]. replace (z / 2 ^ 63)%Z with 1%Z; [done|].
    apply Z.div_unique with (z - 2 ^ 63)%Z; lia.
  - apply Z.testbit_false; [lia|]. rewrite Z.div_small; [done|lia].
Qed.

Lemma retired_bit z :
  (0 ≤ z < 2 ^ 64)%Z → (Z.land z filterChainRetired =? 0)%Z = negb (filterChainRetired <=? z)%Z.
Proof. intros Hz. rewrite land_top, top_bit by done. by destruct (filterChainRetired <=? z)%Z. Qed.

Lemma lor_top z : (0 ≤ z < filterChainRetired)%Z → Z.lor z filterChainRetired = (z + filterChainRetired)%Z.
Proof.
  intros Hz. assert (Z.land z filterChainRetired = 0)%Z as Hl.
  { rewrite land_top, top_bit; [|unfold filterChainRetired in *; lia]. destruct (Z.leb_spec filterChainRetired z); lia. }
  rewrite <- Z.lxor_lor by done. by rewrite <- Z.add_nocarry_lxor.
Qed.

Lemma word_range w n : good w → (0 ≤ word w n < 2 ^ 64)%Z.
Proof.
  intros G. destruct (good_word w G n) as [-> Hlt]. change (2 ^ 64)%Z with (filterChainRetired * 2)%Z.
  assert (0 < filterChainRetired)%Z by done. destruct (retired w n); simpl; lia.
Qed.

Lemma owned_exists w n : good w → 0 < published w n + owned w n → n < length (w_snapshots w) ∧ retired w n = false.
Proof.
  intros G Hp. pose proof (good_owners w G n) as Ho. unfold exists_snapshot in Ho.
  destruct (bool_decide_reflect (n < length (w_snapshots w))), (retired w n); simpl in Ho; split; first [done|lia].
Qed.

Lemma held_exists w n : good w → 0 < holders w n → n < length (w_snapshots w) ∧ word w n ≠ filterChainRetired.
Proof.
  intros G Hh. destruct (good_word w G n) as [Hw Hlt]. split.
  - destruct (decide (n < length (w_snapshots w))) as [|Hn]; [done|]. unfold word in Hw at 1.
    rewrite lookup_ge_None_2 in Hw by lia. assert (0 < filterChainRetired)%Z by done.
    destruct (retired w n); simpl in Hw; lia.
  - rewrite Hw. intros H. destruct (retired w n); simpl in H; lia.
Qed.

Lemma published_lookup w l n : bl_filterChain <$> w_services w !! l = Some (Some n) → 0 < published w n.
Proof.
  destruct (w_services w !! l) as [ls|] eqn:Hl; [|done]. simpl. intros [= Hn].
  pose proof (sum_list_with_lookup (service_owns n) _ _ _ Hl) as H. unfold service_owns in H at 1. rewrite Hn in H.
  unfold same in H. rewrite decide_True in H by done. unfold published. lia.
Qed.

Lemma same_refl n : same n n = 1.
Proof. unfold same. by rewrite decide_True. Qed.

(** ** Steps on words *)

Lemma acquire_good w t l n state :
  good w → w_tasks w !! t = Some (Swapping l n state) → word w n = state →
  good (set_task (set_word w n (wrap64 (state + 1))) t (Unlocking n)).
Proof.
  intros G Hk Hw. destruct (good_tasks w G _ _ Hk) as [Hcur Hst].
  apply published_lookup in Hcur. destruct (owned_exists w n G) as [Hn Hr]; [lia|].
  destruct (good_word w G n) as [Hword Hlt]. rewrite Hr in Hword. cbn [flag] in Hword.
  rewrite wrap64_small by (unfold filterChainRetired in *; lia).
  assert ((filterChainRetired <=? state + 1)%Z = false) as Hnr by lia.
  apply (good_word_step w t _ (Unlocking n) n _ (w_readers w) G Hk); try done; rewrite ?Hnr, ?Hr; simpl; rewrite ?same_refl.
  - lia.
  - done.
  - intros m Hm. unfold same. by rewrite decide_False.
  - lia.
  - lia.
  - intros m. destruct (decide (m = n)); [|done]. replace (state + 1 =? filterChainRetired)%Z with false by lia. done.
Qed.

Lemma drop_good w t n :
  good w → w_tasks w !! t = Some (Dropping n) →
  let state := wrap64 (word w n + (2 ^ 64 - 1)) in
  good (set_task (set_word w n state) t (if (state =? filterChainRetired)%Z then ClosingSnapshot n else Done Served)).
Proof.
  intros G Hk. pose proof (sum_list_with_lookup (task_holds n) _ _ _ Hk) as Hh. simpl in Hh. rewrite same_refl in Hh.
  fold (holders w n) in Hh. destruct (held_exists w n G) as [Hn Hne]; [lia|].
  destruct (good_word w G n) as [Hword Hlt]. pose proof (word_range w n G) as Hrange.
  assert (1 ≤ word w n)%Z as Hpos by (rewrite Hword; unfold filterChainRetired; destruct (retired w n); simpl; lia).
  assert (wrap64 (word w n + (2 ^ 64 - 1)) = word w n - 1)%Z as ->.
  { unfold wrap64. replace (word w n + (2 ^ 64 - 1))%Z with (word w n - 1 + 1 * 2 ^ 64)%Z by lia.
    rewrite Z.mod_add by lia. apply Z.mod_small. lia. }
  assert ((filterChainRetired <=? word w n - 1)%Z = retired w n) as Hr.
  { unfold retired in *. destruct (Z.leb_spec filterChainRetired (word w n)); simpl in Hword; lia. }
  cbv zeta. set (k' := if (_ =? _)%Z then _ else _).
  assert (∀ m, task_holds m k' = 0 ∧ task_owns m k' = 0) as Hk' by (intros m; unfold k'; by destruct (_ =? _)%Z).
  apply (good_word_step w t _ k' n _ (w_readers w) G Hk); try done; rewrite ?Hr.
  - unfold k'. by destruct (_ =? _)%Z.
  - intros m. by rewrite (proj2 (Hk' m)).
  - intros m Hm. rewrite (proj1 (Hk' m)). simpl. unfold same. by rewrite decide_False.
  - rewrite (proj1 (Hk' n)). simpl. rewrite same_refl. lia.
  - rewrite (proj1 (Hk' n)). simpl. rewrite same_refl. lia.
  - intros m. unfold k'. destruct (word w n - 1 =? filterChainRetired)%Z; simpl; unfold same; by destruct (decide (m = n)).
  - unfold k'. by destruct (_ =? _)%Z.
Qed.

Lemma retire_good w t n state todo :
  good w → w_tasks w !! t = Some (Retire n state todo) → word w n = state →
  good (set_task (set_word w n (Z.lor state filterChainRetired)) t
    (if (state =? 0)%Z then RetireClosing n todo else Retiring todo)).
Proof.
  intros G Hk Hw. pose proof (good_tasks w G _ _ Hk) as Hst. simpl in Hst.
  pose proof (sum_list_with_lookup (task_owns n) _ _ _ Hk) as Ho. simpl in Ho. rewrite same_refl in Ho.
  fold (owned w n) in Ho. destruct (owned_exists w n G) as [Hn Hr]; [lia|].
  destruct (good_word w G n) as [Hword Hlt]. rewrite Hr in Hword. cbn [flag] in Hword.
  rewrite lor_top by done.
  assert ((filterChainRetired <=? state + filterChainRetired)%Z = true) as Hnr by lia.
  set (k' := if (_ =? _)%Z then _ else _).
  assert (∀ m, task_holds m k' = 0 ∧ task_owns m k' = occurs m todo ∧ in_gate k' = 0) as Hk'
    by (intros m; unfold k'; by destruct (_ =? _)%Z).
  apply (good_word_step w t _ k' n _ (w_readers w) G Hk); try done; rewrite ?Hnr, ?Hr.
  - lia.
  - by rewrite (proj2 (proj2 (Hk' 0))).
  - intros m. rewrite (proj1 (proj2 (Hk' m))). simpl. unfold same. destruct (decide (m = n)); simpl; lia.
  - intros m _. by rewrite (proj1 (Hk' m)).
  - rewrite (proj1 (Hk' n)). simpl. lia.
  - rewrite (proj1 (Hk' n)). simpl. lia.
  - intros m. unfold k'. destruct (Z.eqb_spec state 0) as [->|Hne].
    + simpl. unfold same. by destruct (decide (m = n)).
    + simpl. destruct (decide (m = n)); [|done].
      by replace (state + filterChainRetired =? filterChainRetired)%Z with false by lia.
  - unfold k'. by destruct (_ =? _)%Z.
Qed.

(** ** Closing a chain *)

Lemma trace_ok_closed trace n : trace_ok trace → ClosedChain n ∉ trace → trace_ok (trace ++ [ClosedChain n]).
Proof.
  intros Hok Hn past m later Heq. destruct later as [|x later _] using rev_ind.
  { split; apply not_elem_of_nil. }
  rewrite app_comm_cons, app_assoc in Heq. apply app_inj_tail in Heq as [-> <-].
  destruct (Hok past m later eq_refl) as [H1 H2].
  split; rewrite elem_of_app, list_elem_of_singleton; intros [?|[= ->]]; try done. apply Hn. set_solver.
Qed.

Lemma trace_ok_used trace n : trace_ok trace → ClosedChain n ∉ trace → trace_ok (trace ++ [UsedChain n]).
Proof.
  intros Hok Hn past m later Heq. destruct later as [|x later _] using rev_ind.
  { split; apply not_elem_of_nil. }
  rewrite app_comm_cons, app_assoc in Heq. apply app_inj_tail in Heq as [-> <-].
  destruct (Hok past m later eq_refl) as [H1 H2].
  split; rewrite elem_of_app, list_elem_of_singleton; intros [?|?]; simplify_eq; try done. apply Hn. set_solver.
Qed.

Lemma use_good w t n : good w → w_tasks w !! t = Some (Using n) → good (log w (UsedChain n)).
Proof.
  intros G Hk. pose proof (sum_list_with_lookup (task_holds n) _ _ _ Hk) as Hh. simpl in Hh. rewrite same_refl in Hh.
  fold (holders w n) in Hh. destruct (held_exists w n G) as [Hn Hne]; [lia|].
  split; keep_parts G; simpl.
  - apply trace_ok_used; [apply G|]. intros Hc%(good_logged w G)%(good_closed w G). done.
  - intros m. rewrite elem_of_app, list_elem_of_singleton. rewrite (good_logged w G m). split; [by intros [?|?]|by left].
Qed.

(** [close], whichever task calls it first. *)
Lemma close_good w t k k' n :
  good w → w_tasks w !! t = Some k → (∀ m, task_closes m k = same m n) → (∀ m, task_closes m k' = 0) →
  (∀ m, task_owns m k' = task_owns m k) → (∀ m, task_holds m k' = task_holds m k) → in_gate k' = in_gate k →
  task_ok (w_services w) k' → good (set_task (close w n) t k').
Proof.
  intros G Hk Hc Hc' Ho Hh Hg Hok.
  assert (word w n = filterChainRetired) as Hw.
  { apply (good_closers w G). pose proof (sum_list_with_lookup (task_closes n) _ _ _ Hk) as H.
    rewrite Hc, same_refl in H. unfold closers. lia. }
  assert (∃ sn, w_snapshots w !! n = Some sn ∧ sn_state sn = filterChainRetired) as (sn & Hn & Hsn).
  { unfold word in Hw. destruct (w_snapshots w !! n) as [sn|]; [by exists sn|done]. }
  assert (∀ g : task → nat, g k' = g k → sum_list_with g (<[t := k']> (w_tasks w)) = sum_list_with g (w_tasks w)) as Hsum.
  { intros g Hg'. pose proof (sum_list_with_insert g _ _ k' _ Hk). lia. }
  assert (∀ m, sum_list_with (task_closes m) (<[t := k']> (w_tasks w)) + same m n = closers w m) as Hcl.
  { intros m. pose proof (sum_list_with_insert (task_closes m) _ _ k' _ Hk) as H. rewrite Hc, Hc' in H. unfold closers. lia. }
  set (w' := mkWorld (<[n := mkSnapshot (sn_state sn) true]> (w_snapshots w)) (w_services w) (w_readers w)
    (<[t := k']> (w_tasks w)) (if sn_closed sn then w_trace w else w_trace w ++ [ClosedChain n])).
  assert (set_task (close w n) t k' = w') as ->.
  { unfold close. rewrite Hn. destruct sn as [state []]; [|done]. unfold set_task, w'. simpl. f_equal.
    by rewrite list_insert_id. }
  assert (∀ m, word w' m = word w m) as Hword.
  { intros m. unfold word, w'. simpl. destruct (decide (m = n)) as [->|]; [|by rewrite list_lookup_insert_ne].
    rewrite list_lookup_insert_eq by (by eapply lookup_lt_Some). by rewrite Hn. }
  assert (∀ m, closed w' m = true ↔ m = n ∨ closed w m = true) as Hclosed.
  { intros m. unfold closed, w'. simpl. destruct (decide (m = n)) as [->|].
    - rewrite list_lookup_insert_eq by (by eapply lookup_lt_Some). naive_solver.
    - rewrite list_lookup_insert_ne by done. naive_solver. }
  split; keep_parts G.
  - intros m. unfold retired, owned, exists_snapshot. rewrite Hword. simpl. rewrite Hsum, length_insert by done.
    apply (good_owners w G m).
  - simpl. rewrite Hsum by done. apply G.
  - intros m. unfold retired, holders. rewrite Hword. simpl. rewrite Hsum by done. apply (good_word w G m).
  - intros m Hm. rewrite Hword. apply (good_closers w G). unfold closers in Hm. simpl in Hm. specialize (Hcl m). lia.
  - intros m [->|Hm]%Hclosed; rewrite Hword; [done|]. by apply (good_closed w G).
  - intros m. rewrite Hword, Hclosed. intros [H|H]%(good_zero w G); [by left; right|]. unfold closers at 1. simpl.
    specialize (Hcl m). unfold same in Hcl. destruct (decide (m = n)); [by left; left|right]. lia.
  - simpl. by apply tasks_ok_insert; [|apply G|].
  - simpl. destruct (sn_closed sn) eqn:E; [apply G|]. apply trace_ok_closed; [apply G|].
    rewrite (good_logged w G). unfold closed. rewrite Hn. congruence.
  - intros m. rewrite Hclosed. simpl. destruct (sn_closed sn) eqn:E.
    + rewrite (good_logged w G). split; [by right|]. intros [->|?]; [|done]. unfold closed. by rewrite Hn.
    + rewrite elem_of_app, list_elem_of_singleton, (good_logged w G). naive_solver.
Qed.

(** ** Steps under the gate *)

Lemma CommitRefresh_spec services updates services' old :
  CommitRefresh services updates = (services', old) → Forall (λ u, u.1 < length services) updates →
  (∀ l ls, services !! l = Some ls → bl_FilterChain ls = bl_filterChain ls) →
  length services' = length services ∧
  (∀ n, sum_list_with (service_owns n) services' + occurs n old =
        sum_list_with (service_owns n) services + occurs n (map snd updates)) ∧
  (∀ l ls, services' !! l = Some ls → bl_FilterChain ls = bl_filterChain ls).
Proof.
  revert services services' old. induction updates as [|[l next] updates IH]; intros services services' old; simpl.
  { intros [= <- <-] _ Hf. split_and!; [done| |done]. intros n. by rewrite occurs_nil. }
  intros H [Hl Hu]%Forall_cons Hf. simpl in Hl. destruct (lookup_lt_is_Some_2 _ _ Hl) as [ls Hls]. rewrite Hls in H.
  destruct (CommitRefresh _ updates) as [services1 old1] eqn:E. simplify_eq.
  destruct (IH _ _ _ E) as (H1 & H2 & H3).
  { by rewrite length_insert. }
  { intros l' ls'. destruct (decide (l' = l)) as [->|].
    - rewrite list_lookup_insert_eq by done. by intros [= <-].
    - rewrite list_lookup_insert_ne by done. apply Hf. }
  rewrite length_insert in H1. split_and!; [done| |done]. intros n. specialize (H2 n). rewrite occurs_cons.
  pose proof (sum_list_with_insert (service_owns n) _ _ (mkBase (Some next) (Some next) (bl_active ls)) _ Hls) as Hs.
  unfold service_owns in Hs at 2 4. simpl in Hs. unfold same in Hs.
  destruct (bl_filterChain ls) as [o|]; rewrite ?occurs_cons; lia.
Qed.

(** Under the gate no request has read a pointer that it goes on to use. *)
Lemma gate_free w t k : good w → w_readers w = 0 → w_tasks w !! t = Some k → in_gate k = 0.
Proof.
  intros G Hr Hk. rewrite (good_readers w G) in Hr. pose proof (sum_list_with_lookup in_gate _ _ _ Hk). lia.
Qed.

Lemma good_services w t k k' services :
  good w → w_readers w = 0 → w_tasks w !! t = Some k → length services = length (w_services w) →
  (∀ n, sum_list_with (service_owns n) services + task_owns n k' = published w n + task_owns n k) →
  (∀ l ls, services !! l = Some ls → bl_FilterChain ls = bl_filterChain ls) →
  in_gate k' = 0 → (∀ n, task_holds n k = 0 ∧ task_holds n k' = 0 ∧ task_closes n k = 0 ∧ task_closes n k' = 0) →
  task_ok services k' → good (set_task (set_services w services) t k').
Proof.
  intros G Hr Hk Hlen Hown Hf Hg Hz Hok.
  pose proof (gate_free w t k G Hr Hk) as Hgk.
  assert (∀ g : task → nat, g k' = g k → sum_list_with g (<[t := k']> (w_tasks w)) = sum_list_with g (w_tasks w)) as Hsum.
  { intros g Hg'. pose proof (sum_list_with_insert g _ _ k' _ Hk). lia. }
  split; keep_parts G; simpl; try done.
  - intros n. etrans; [|apply (good_owners w G n)]. unfold published, owned. simpl.
    specialize (Hown n). pose proof (sum_list_with_insert (task_owns n) _ _ k' _ Hk). unfold published in Hown.
    change (retired (set_task _ _ _) n) with (retired w n). lia.
  - rewrite Hsum by congruence. apply G.
  - intros n. unfold holders. simpl. rewrite Hsum by (destruct (Hz n) as (-> & -> & _); done). apply (good_word w G n).
  - intros n. unfold closers. simpl. rewrite Hsum by (destruct (Hz n) as (_ & _ & -> & ->); done). apply (good_closers w G n).
  - intros n. unfold closers. simpl. rewrite Hsum by (destruct (Hz n) as (_ & _ & -> & ->); done). apply (good_zero w G n).
  - apply (tasks_ok_insert w); [done| |done]. intros t' k1 Hk1. pose proof (good_tasks w G _ _ Hk1) as H1.
    pose proof (gate_free w t' k1 G Hr Hk1) as H2. destruct k1; simpl in *; try done.
    eapply Forall_impl; [exact H1|]. intros u. by rewrite Hlen.
Qed.

(** ** Calls *)

Lemma word_new w c services readers tasks trace n :
  word (mkWorld (w_snapshots w ++ repeat newFilterChainSnapshot c) services readers tasks trace) n = word w n ∧
  closed (mkWorld (w_snapshots w ++ repeat newFilterChainSnapshot c) services readers tasks trace) n = closed w n.
Proof.
  unfold word, closed. simpl. destruct (decide (n < length (w_snapshots w))).
  - by rewrite lookup_app_l.
  - rewrite lookup_app_r by lia. rewrite (lookup_ge_None_2 (w_snapshots w)) by lia.
    destruct (repeat newFilterChainSnapshot c !! _) as [sn|] eqn:E; [|done].
    apply list_elem_of_lookup_2, list_elem_of_In, repeat_spec in E as ->. done.
Qed.

Lemma occurs_seq x n c : occurs x (seq n c) = if decide (n ≤ x < n + c) then 1 else 0.
Proof.
  revert n. induction c as [|c IH]; intros n; simpl.
  - rewrite occurs_nil, decide_False by lia. done.
  - rewrite occurs_cons, IH. destruct (decide (x = n)), (decide (S n ≤ x < S n + c)), (decide (n ≤ x < n + S c)); lia.
Qed.

(** Chains are built, for new listeners or for a new task. *)
Lemma good_new w c services readers k :
  good w →
  (∀ n, sum_list_with (service_owns n) services + task_owns n k =
        published w n + occurs n (seq (length (w_snapshots w)) c)) →
  readers = w_readers w + in_gate k → (∀ n, task_holds n k = 0 ∧ task_closes n k = 0) →
  (∀ l ls, services !! l = Some ls → bl_FilterChain ls = bl_filterChain ls) →
  (∀ k, task_ok (w_services w) k → task_ok services k) → task_ok services k →
  good (mkWorld (w_snapshots w ++ repeat newFilterChainSnapshot c) services readers (w_tasks w ++ [k]) (w_trace w)).
Proof.
  intros G Hown Hread Hz Hf Hmono Hok.
  set (w' := mkWorld _ _ _ _ _).
  assert (∀ n, word w' n = word w n ∧ closed w' n = closed w n) as Hw by (intros n; apply word_new).
  assert (∀ (g : task → nat), sum_list_with g (w_tasks w ++ [k]) = sum_list_with g (w_tasks w) + g k) as Hsum.
  { intros g. rewrite sum_list_with_app. simpl. lia. }
  split; keep_parts G.
  - intros n. pose proof (good_owners w G n) as H. specialize (Hown n). rewrite occurs_seq in Hown.
    unfold published, owned, retired, exists_snapshot in *. rewrite (proj1 (Hw n)). simpl. rewrite Hsum.
    rewrite length_app, repeat_length.
    destruct (decide (length (w_snapshots w) ≤ n < length (w_snapshots w) + c)).
    + rewrite bool_decide_eq_false_2 in H by lia. rewrite bool_decide_eq_true_2 by lia. simpl in *. lia.
    + rewrite (bool_decide_ext (n < length (w_snapshots w) + c) (n < length (w_snapshots w))) by lia. lia.
  - simpl. rewrite Hsum, Hread, (good_readers w G). done.
  - intros n. unfold retired, holders. rewrite (proj1 (Hw n)). simpl. rewrite Hsum, (proj1 (Hz n)), Nat.add_0_r.
    apply (good_word w G n).
  - intros n. unfold closers. rewrite (proj1 (Hw n)). simpl. rewrite Hsum, (proj2 (Hz n)), Nat.add_0_r.
    apply (good_closers w G n).
  - intros n. destruct (Hw n) as [-> ->]. apply (good_closed w G n).
  - intros n. destruct (Hw n) as [-> ->]. unfold closers. simpl. rewrite Hsum, (proj2 (Hz n)), Nat.add_0_r.
    apply (good_zero w G n).
  - simpl. intros t k1 [Ht|[_ Ht]]%lookup_app_Some; [by eapply Hmono, (good_tasks w G)|].
    by apply list_lookup_singleton_Some in Ht as [_ <-].
  - exact Hf.
  - intros n. rewrite (proj2 (Hw n)). apply (good_logged w G n).
Qed.

(** A new call that builds no chain. *)
Lemma chain_good_add_task w k :
  good w → (∀ n, task_owns n k = 0 ∧ task_holds n k = 0 ∧ task_closes n k = 0) → task_ok (w_services w) k →
  good (mkWorld (w_snapshots w) (w_services w) (w_readers w + in_gate k) (w_tasks w ++ [k]) (w_trace w)).
Proof.
  intros G Hz Hok. rewrite <- (app_nil_r (w_snapshots w)). apply (good_new w 0); try done; try apply G.
  - intros n. destruct (Hz n) as (-> & _ & _). done.
  - intros n. apply (Hz n).
Qed.

Lemma good_drop_done w :
  good (mkWorld (w_snapshots w) (w_services w) (w_readers w) (w_tasks w ++ [Done Updated]) (w_trace w)) → good w.
Proof.
  intros G.
  assert (∀ (g : task → nat), g (Done Updated) = 0 → sum_list_with g (w_tasks w ++ [Done Updated]) =
    sum_list_with g (w_tasks w)) as Hsum.
  { intros g Hg. rewrite sum_list_with_app. simpl. lia. }
  split; keep_parts G.
  - intros n. pose proof (good_owners _ G n) as H. unfold owned in H. simpl in H. by rewrite Hsum in H.
  - pose proof (good_readers _ G) as H. simpl in H. by rewrite Hsum in H.
  - intros n. pose proof (good_word _ G n) as H. unfold holders in H. simpl in H. by rewrite Hsum in H.
  - intros n. pose proof (good_closers _ G n) as H. unfold closers in H. simpl in H. by rewrite Hsum in H.
  - intros n. pose proof (good_zero _ G n) as H. unfold closers in H. simpl in H. by rewrite Hsum in H.
  - intros t k Hk. apply (good_tasks _ G t). simpl. by apply lookup_app_l_Some.
Qed.

Lemma task_ok_app services services' k : task_ok services k → task_ok (services ++ services') k.
Proof.
  assert (∀ l n, bl_filterChain <$> services !! l = Some (Some n) →
    bl_filterChain <$> (services ++ services') !! l = Some (Some n)) as H.
  { intros l n Hl. destruct (services !! l) as [ls|] eqn:E; [|done]. rewrite (lookup_app_l_Some _ _ _ _ E). done. }
  destruct k; simpl; try done; [apply H|intros [? ?]; split; [by apply H|done]|].
  intros Hu. eapply Forall_impl; [exact Hu|]. simpl. intros u. rewrite length_app. lia.
Qed.

Lemma sum_list_with_alter {A} (g : A → nat) f (l : list A) i :
  (∀ x, g (f x) = g x) → sum_list_with g (alter f i l) = sum_list_with g l.
Proof.
  intros Hg. revert i. induction l as [|x l IH]; intros [|i]; simpl; [done|done|by rewrite Hg|]. f_equal. apply IH.
Qed.

(** [SetActive] changes no chain. *)
Lemma set_active_good w l active :
  good w →
  good (set_services w (alter (λ ls, mkBase (bl_filterChain ls) (bl_FilterChain ls) active) l (w_services w))).
Proof.
  intros G. set (services := alter _ _ _).
  assert (∀ l', bl_filterChain <$> services !! l' = bl_filterChain <$> w_services w !! l') as Hcur.
  { intros l'. unfold services. rewrite list_lookup_alter. destruct (decide (l = l')) as [->|]; [|done].
    by destruct (w_services w !! l'). }
  assert (∀ n, sum_list_with (service_owns n) services = published w n) as Hown.
  { intros n. by apply sum_list_with_alter. }
  split; keep_parts G; simpl.
  - intros n. unfold published. simpl. rewrite Hown. apply (good_owners w G n).
  - intros t k Hk. apply (good_tasks w G) in Hk. destruct k; simpl in *; rewrite ?Hcur; try done.
    unfold services. by rewrite length_alter.
  - intros l' ls'. unfold services. rewrite list_lookup_alter. destruct (decide (l = l')) as [->|].
    + destruct (w_services w !! l') as [ls|] eqn:Hl; [|done]. simpl. intros [= <-]. simpl. by eapply (good_fields w G).
    + apply (good_fields w G).
Qed.

Lemma start_good w q : good w → good (start w q).
Proof.
  intros G. destruct q as [|l|listeners|prepared|l|l active]; simpl.
  - apply good_drop_done. simpl. apply (good_new w 1); try done.
    + intros n. rewrite sum_list_with_app. simpl. unfold service_owns at 2. simpl. rewrite occurs_cons, occurs_nil.
      unfold published, same. lia.
    + intros l ls [H|[_ H]]%lookup_app_Some; [by eapply (good_fields w G)|].
      by apply list_lookup_singleton_Some in H as [_ <-].
    + intros k. apply task_ok_app.
  - by apply (chain_good_add_task w (Checking l)).
  - destruct (decide _) as [Hl|]; [|done]. apply (good_new w (length listeners)); try done; try apply G; simpl.
    + intros n. rewrite <- (snd_zip listeners (seq (length (w_snapshots w)) (length listeners))) at 2 by
        (by rewrite length_seq). done.
    + apply Forall_lookup. intros i [l' n'] Hi. apply lookup_zip_Some in Hi as [Hi _].
      exact (Forall_lookup_1 _ _ _ _ Hl Hi).
  - apply (good_new w prepared); try done; try apply G.
  - pose proof (chain_good_add_task w (Shutting l) G) as H. simpl in H. rewrite Nat.add_0_r in H. by apply H.
  - apply set_active_good. done.
Qed.

Lemma loading_good w t l :
  good w → w_tasks w !! t = Some (Loading l) →
  good (match currentSnapshot w l with
        | (w, Some n) => set_task w t (Acquiring l n)
        | (w, None) => set_task w t (Refusing NotInitialized)
        end).
Proof.
  intros G Hk. unfold currentSnapshot. destruct (w_services w !! l) as [ls|] eqn:Hl.
  - pose proof (good_fields w G l ls Hl) as Hf. destruct (bl_filterChain ls) as [n|] eqn:En.
    + apply (good_move w t _ _ _ G Hk); try done. simpl. by rewrite Hl, <- En.
    + rewrite Hf. by apply (good_move w t _ _ _ G Hk).
  - by apply (good_move w t _ _ _ G Hk).
Qed.

Lemma shutting_good w t l ls :
  good w → w_readers w = 0 → w_tasks w !! t = Some (Shutting l) → w_services w !! l = Some ls →
  good (set_task (set_services w (<[l := mkBase None None false]> (w_services w))) t
    (Retiring (match bl_filterChain ls with Some n => [n] | None => [] end))).
Proof.
  intros G Hr Hk Hl. eapply (good_services w t _ _ _ G Hr Hk); try done.
  - by rewrite length_insert.
  - intros n. pose proof (sum_list_with_insert (service_owns n) _ _ (mkBase None None false) _ Hl) as H.
    unfold service_owns in H at 2 4. simpl in *. unfold same in H.
    destruct (bl_filterChain ls); rewrite ?occurs_cons, ?occurs_nil; unfold published; lia.
  - intros l' ls' H. destruct (decide (l' = l)) as [->|].
    + rewrite list_lookup_insert_eq in H by (by eapply lookup_lt_Some). by injection H as <-.
    + rewrite list_lookup_insert_ne in H by done. by eapply (good_fields w G).
Qed.

Lemma resume_good w t k again : good w → w_tasks w !! t = Some k → good (resume w t k again).
Proof.
  intros G Hk. pose proof (good_readers w G) as Hr.
  pose proof (sum_list_with_lookup in_gate _ _ _ Hk) as Hle.
  destruct k as [l|l|l n|l n state|e|n|n|n|n|updates|l|[|n todo]|n state todo|n todo|r]; simpl.
  - destruct (w_services w !! l) as [ls|]; [destruct (bl_active ls)|]; by apply (good_move w t _ _ _ G Hk).
  - by apply loading_good.
  - pose proof (good_tasks w G _ _ Hk) as Hcur. pose proof (word_range w n G) as Hrange. rewrite retired_bit by done.
    destruct (Z.leb_spec filterChainRetired (word w n)); simpl; [by apply (good_move w t _ _ _ G Hk)|].
    destruct (Z.eqb_spec (word w n) (filterChainRetired - 1)); apply (good_move w t _ _ _ G Hk); try done.
    simpl. split; [done|lia].
  - pose proof (good_tasks w G _ _ Hk) as [Hcur _]. destruct (Z.eqb_spec (word w n) state) as [Hw|].
    + by eapply acquire_good.
    + by apply (good_move w t _ _ _ G Hk).
  - apply (good_move w t _ _ _ G Hk); try done. simpl in *. lia.
  - apply (good_move w t _ _ _ G Hk); try done. simpl in *. lia.
  - destruct again; [by eapply use_good|by apply (good_move w t _ _ _ G Hk)].
  - by apply drop_good.
  - by apply (close_good w t _ _ n G Hk).
  - destruct (decide (w_readers w = 0)) as [H0|]; [|done]. pose proof (good_tasks w G _ _ Hk) as Hu.
    destruct (CommitRefresh _ _) as [services old] eqn:E.
    destruct (CommitRefresh_spec _ _ _ _ E Hu (good_fields w G)) as (H1 & H2 & H3).
    by apply (good_services w t _ _ _ G H0 Hk).
  - destruct (decide (w_readers w = 0)) as [H0|]; [|done]. destruct (w_services w !! l) as [ls|] eqn:Hl.
    + by apply shutting_good.
    + by apply (good_move w t _ _ _ G Hk).
  - by apply (good_move w t _ _ _ G Hk).
  - pose proof (word_range w n G) as Hrange. rewrite retired_bit by done.
    destruct (owned_exists w n G) as [_ Hret].
    { pose proof (sum_list_with_lookup (task_owns n) _ _ _ Hk) as H. simpl in H.
      rewrite occurs_cons, decide_True in H by done. unfold owned. lia. }
    unfold retired in Hret. rewrite Hret. simpl. apply (good_move w t _ _ _ G Hk); try done; simpl; [|lia].
    intros m. rewrite occurs_cons. done.
  - destruct (Z.eqb_spec (word w n) state) as [Hw|]; [by apply retire_good|].
    apply (good_move w t _ _ _ G Hk); try done. intros m. simpl. by rewrite occurs_cons.
  - by apply (close_good w t _ _ n G Hk).
  - done.
Qed.

Lemma chain_run_good actions : good (run actions).
Proof.
  unfold run. assert (∀ w, good w → good (foldl perform w actions)) as H; [|by apply H, chain_initial_good].
  induction actions as [|a actions IH]; intros w G; simpl; [done|]. apply IH.
  destruct a as [q|t again]; simpl; [by apply start_good|].
  destruct (w_tasks w !! t) eqn:Hk; [by apply resume_good|done].
Qed.

(** ** Theorems *)

(** C16: whatever requests, refreshes and ends of listeners run at the same time, at
    the grain of single atomic operations: a chain of network filters that was
    closed is not used and not closed again. *)
Theorem closed_chain_is_final actions past n later :
  w_trace (run actions) = past ++ ClosedChain n :: later → (UsedChain n ∉ later) ∧ (ClosedChain n ∉ later).
Proof. apply (good_trace _ (chain_run_good actions)). Qed.

Lemma quiet_sums w (g : task → nat) :
  (∀ k, k ∈ w_tasks w → ∃ r, k = Done r) → (∀ r, g (Done r) = 0) → sum_list_with g (w_tasks w) = 0.
Proof. intros Hq Hg. apply sum_list_with_zero. intros k [r ->]%Hq. apply Hg. Qed.

(** C17: when all calls have returned, a chain that was built is closed if and only
    if no listener has it. *)
Theorem no_chain_leaks actions n :
  let w := run actions in
  (∀ k, k ∈ w_tasks w → ∃ r, k = Done r) → n < length (w_snapshots w) →
  ClosedChain n ∈ w_trace w ↔ ∀ ls, ls ∈ w_services w → bl_filterChain ls ≠ Some n.
Proof.
  intros w Hq Hn. pose proof (chain_run_good actions : good w) as G.
  pose proof (good_owners w G n) as Ho. unfold owned, exists_snapshot in Ho.
  rewrite (quiet_sums w) in Ho by done. rewrite bool_decide_eq_true_2 in Ho by done. simpl in Ho.
  destruct (good_word w G n) as [Hw _]. unfold holders in Hw. rewrite (quiet_sums w) in Hw by done.
  rewrite (good_logged w G). split.
  - intros Hc%(good_closed w G) ls [l Hl]%list_elem_of_lookup Hls.
    assert (0 < published w n) as Hp by (apply (published_lookup w l); by rewrite Hl, <- Hls).
    unfold retired in Ho. rewrite Hc, Z.leb_refl in Ho. simpl in Ho. lia.
  - intros Hno. assert (published w n = 0) as Hp.
    { apply sum_list_with_zero. intros ls Hls. unfold service_owns, same. specialize (Hno ls Hls).
      destruct (bl_filterChain ls) as [m|]; [|done]. rewrite decide_False; [done|congruence]. }
    destruct (retired w n); simpl in *; [|lia].
    destruct (good_zero w G n) as [?|Hc]; [rewrite Hw; lia|done|]. unfold closers in Hc.
    rewrite (quiet_sums w) in Hc by done. lia.
Qed.

(** The 64-bit word of a snapshot is at all times the number of requests that
    use its chain, and the top bit if it is retired: the count never runs into
    the bit, and the word never wraps around. *)
Theorem word_exact actions n :
  let w := run actions in
  (word w n = (if retired w n then 2 ^ 63 else 0) + Z.of_nat (holders w n))%Z ∧
  (Z.of_nat (holders w n) < 2 ^ 63)%Z ∧ (0 ≤ word w n < 2 ^ 64)%Z ∧
  (closed w n = true → holders w n = 0 ∧ retired w n = true).
Proof.
  intros w. pose proof (chain_run_good actions : good w) as G. destruct (good_word w G n) as [Hw Hlt].
  split_and!; [|done|apply (word_range w n G)..|].
  - rewrite Hw at 1. unfold filterChainRetired. destruct (retired w n); simpl; lia.
  - intros Hc%(good_closed w G). unfold retired in *. rewrite Hc, Z.leb_refl in *. simpl in Hw. split; [lia|done].
Qed.

(** C27: a request is refused for want of a chain only if its listener has none, or
    if its chain has 2^63 - 1 requests: not because a refresh or the end of
    another listener is under way. *)
Theorem refresh_refuses_nobody actions t k again :
  let w := run actions in
  w_tasks w !! t = Some k → w_tasks (resume w t k again) !! t = Some (Refusing NotInitialized) →
  k = Refusing NotInitialized ∨
  (∃ l, k = Loading l ∧ ∀ ls, w_services w !! l = Some ls → bl_filterChain ls = None) ∨
  ∃ l n, k = Acquiring l n ∧ Z.of_nat (holders w n) = (2 ^ 63 - 1)%Z.
Proof.
  intros w Hk. pose proof (chain_run_good actions : good w) as G.
  assert (∀ w' k', w_tasks w' = w_tasks w → w_tasks (set_task w' t k') !! t = Some k') as Hset.
  { intros w' k' Ht. simpl. rewrite Ht. apply list_lookup_insert_eq. by eapply lookup_lt_Some. }
  assert (∀ n, w_tasks (close w n) = w_tasks w) as Hclose.
  { intros n. unfold close. destruct (w_snapshots w !! n) as [sn|]; [|done]. by destruct (sn_closed sn). }
  destruct k as [l|l|l n|l n state|e|n|n|n|n|updates|l|[|n todo]|n state todo|n todo|r]; cbn [resume].
  - destruct (w_services w !! l) as [ls|]; [destruct (bl_active ls)|]; by rewrite Hset.
  - intros H. right. left. exists l. split; [done|]. intros ls Hls. unfold currentSnapshot in H. rewrite Hls in H.
    destruct (bl_filterChain ls); [|done]. by rewrite Hset in H.
  - intros H. right. right. exists l, n. split; [done|]. revert H.
    pose proof (good_tasks w G _ _ Hk) as Hcur. apply published_lookup in Hcur.
    destruct (owned_exists w n G) as [_ Hr]; [lia|]. destruct (good_word w G n) as [Hw _]. rewrite Hr in Hw.
    cbv zeta. rewrite retired_bit by (by apply word_range). unfold retired in Hr. rewrite Hr. simpl negb. simpl orb.
    destruct (Z.eqb_spec (word w n) (filterChainRetired - 1)) as [Heq|]; [|by rewrite Hset].
    intros _. simpl in Hw. unfold filterChainRetired in *. lia.
  - destruct (word w n =? state)%Z; by rewrite Hset.
  - by rewrite Hset.
  - by rewrite Hset.
  - destruct again; [simpl; by rewrite Hk|by rewrite Hset].
  - cbv zeta. destruct (_ =? _)%Z; by rewrite Hset.
  - by rewrite Hset.
  - destruct (decide _); [|by rewrite Hk]. destruct (CommitRefresh _ _). by rewrite Hset.
  - destruct (decide _); [|by rewrite Hk]. destruct (w_services w !! l); by rewrite Hset.
  - by rewrite Hset.
  - cbv zeta. destruct (_ =? _)%Z; [by rewrite Hset|]. destruct (_ =? _)%Z; by rewrite Hset.
  - destruct (_ =? _)%Z; [destruct (_ =? _)%Z|]; by rewrite Hset.
  - by rewrite Hset.
  - by rewrite Hk.
Qed.

(** ** Listeners and filter managers

    The chain of an HTTP listener is an HTTP connection manager, with a filter
    manager of its own: a use of the chain is a request for a chain of HTTP
    filters, and the end of the chain closes the filter manager. *)

Definition manager_call {Conf : Type} (n : nat) (e : chain_event) : option (FilterManager.call Conf) :=
  match e with
  | UsedChain m => if decide (m = n) then Some (CreateFilterChain true) else None
  | ClosedChain m => if decide (m = n) then Some Close else None
  end.

Definition manager_calls {Conf : Type} (n : nat) (trace : list chain_event) : list (FilterManager.call Conf) :=
  omap (manager_call n) trace.

Lemma uses_only {Conf : Type} n trace :
  ClosedChain n ∉ trace → ∃ k, manager_calls (Conf := Conf) n trace = repeat (CreateFilterChain true) k.
Proof.
  induction trace as [|[m|m] trace IH]; simpl; [by exists 0|..]; intros [Hm Ht]%not_elem_of_cons; destruct (IH Ht) as [k Hk].
  - destruct (decide (m = n)); [exists (S k); simpl; by f_equal|by exists k].
  - rewrite decide_False by congruence. by exists k.
Qed.

Lemma no_calls {Conf : Type} n trace :
  UsedChain n ∉ trace → ClosedChain n ∉ trace → manager_calls (Conf := Conf) n trace = [].
Proof.
  induction trace as [|[m|m] trace IH]; simpl; [done|..]; intros [? ?]%not_elem_of_cons [? ?]%not_elem_of_cons;
    (rewrite decide_False by congruence); by apply IH.
Qed.

(** A filter manager that is reached through a listener gets its requests
    before it is closed, and is closed once. *)
Lemma requests_before_close {Conf : Type} actions n :
  ∃ k (last : list (FilterManager.call Conf)), (last = [] ∨ last = [Close]) ∧
    manager_calls n (w_trace (run actions)) = repeat (CreateFilterChain true) k ++ last.
Proof.
  destruct (decide (ClosedChain n ∈ w_trace (run actions))) as [Hin|Hnin].
  - apply list_elem_of_split_l in Hin as (past & later & Heq & Hp).
    destruct (good_trace _ (chain_run_good actions) _ _ _ Heq) as [H1 H2].
    destruct (uses_only (Conf := Conf) n past Hp) as [k Hk]. exists k, [Close]. split; [by right|].
    assert (manager_calls (Conf := Conf) n (ClosedChain n :: later) = [Close]) as Hc.
    { unfold manager_calls. simpl. rewrite decide_True by done. f_equal. by apply no_calls. }
    rewrite Heq. unfold manager_calls in *. by rewrite omap_app, Hk, Hc.
  - destruct (uses_only (Conf := Conf) n _ Hnin) as [k Hk]. exists k, []. split; [by left|]. by rewrite app_nil_r.
Qed.

(** No request goes through without its filters.  The manager is loaded, with
    success, before the chain is published; then its calls are those that the
    listener makes, in whatever way they overlap.  Each request gets a chain
    with all the filters of the configuration, in order, although a closed
    manager would give out an empty one. *)
Theorem never_bare {Conf Plugin : Type} (registry : gmap string Plugin) (confs : list (option (HTTPFilter Conf)))
    answers listener_actions n manager_actions :
  let loaded := foldl (FilterManager.perform registry)
    (FilterManager.perform registry FilterManager.initial (FilterManager.Call (ReLoad confs true)))
    (FilterManager.Resume 0 <$> answers) in
  sys_tasks loaded = [FilterManager.Done (Returned None)] →
  omap call_of manager_actions = manager_calls n (w_trace (run listener_actions)) →
  let s := foldl (FilterManager.perform registry) loaded manager_actions in
  ∀ ch, ch ∈ sys_chains s →
    map (heap_name (sys_heap s)) (ch_factories ch) = map (λ o, Some (conf_name o)) confs.
Proof.
  intros s0 Htasks Hcalls s ch Hch.
  destruct (loading_all registry confs answers) as (_ & Hc0 & _ & k & Hk & Hl). fold s0 in Hc0, Hk, Hl.
  rewrite Htasks in Hk. injection Hk as <-. destruct Hl as (names & Hn & Hnames).
  destruct (requests_before_close (Conf := Conf) listener_actions n) as (m & last & Hlast & Hshape).
  assert (served_by (sys_heap s0) (fm_filtersArray (sys_fm s0)) s) as (_ & Hheap & Hserved).
  { eapply served_all; [|done|exact Hlast|by rewrite Hcalls]. split_and!; [|done|].
    - intros strict i todo tmp bs. rewrite Htasks. by intros H%list_elem_of_singleton.
    - rewrite Hc0. intros ch' H. by apply not_elem_of_nil in H. }
  rewrite Hheap, (Hserved ch Hch), Hn, Hnames. by rewrite map_map.
Qed.

(** ** Two listeners *)

Module listeners.

Definition steps (t n : nat) : list action := repeat (Resume t false) n.

(** Two listeners; the request 0 uses the chain of the first one, when both
    chains are replaced by task 1, and uses it again afterwards. *)
Definition busy : list action :=
  [Call AddListener; Call AddListener; Call (WithFilterChain 0)] ++ steps 0 5 ++ [Resume 0 true; Call (Replace [0; 1])] ++
  steps 1 7 ++ [Resume 0 true].

(** The request ends, and the second listener is shut down. *)
Definition quiet : list action := busy ++ steps 0 3 ++ [Call (CloseFilterChain 1)] ++ steps 2 5.

(** The chain of the idle listener is closed at once, that of the request after
    it; the word then counts one request and has its top bit set. *)
Example chain_busy_trace :
  w_trace (run busy) = [UsedChain 0; ClosedChain 1; UsedChain 0] ∧ word (run busy) 0 = (2 ^ 63 + 1)%Z.
Proof. vm_compute. auto. Qed.

Example chain_quiet_trace :
  w_trace (run quiet) = [UsedChain 0; ClosedChain 1; UsedChain 0; ClosedChain 0; ClosedChain 3] ∧
  map bl_filterChain (w_services (run quiet)) = [Some 2; None].
Proof. vm_compute. auto. Qed.

Lemma closed_chain_is_final_witness :
  (UsedChain 1 ∉ [UsedChain 0; ClosedChain 0; ClosedChain 3]) ∧
  (ClosedChain 1 ∉ [UsedChain 0; ClosedChain 0; ClosedChain 3]).
Proof. apply (closed_chain_is_final quiet [UsedChain 0]). vm_compute. reflexivity. Defined.

Lemma chain_quiet_done k : k ∈ w_tasks (run quiet) → ∃ r, k = Done r.
Proof.
  assert (w_tasks (run quiet) = [Done Served; Done Updated; Done Updated]) as -> by (vm_compute; reflexivity).
  intros [->|[->|[->|[]%not_elem_of_nil]%elem_of_cons]%elem_of_cons]%elem_of_cons; by eexists.
Qed.

Lemma no_chain_leaks_witness :
  ClosedChain 3 ∈ w_trace (run quiet) ↔ ∀ ls, ls ∈ w_services (run quiet) → bl_filterChain ls ≠ Some 3.
Proof.
  apply (no_chain_leaks quiet 3 chain_quiet_done). replace (length (w_snapshots (run quiet))) with 4 by (vm_compute; reflexivity).
  lia.
Defined.

(** A request to a listener that is shut down between its two looks. *)
Definition late : list action :=
  [Call AddListener; Call (CloseFilterChain 0)] ++ steps 0 4 ++ [Call (SetActive 0 true); Call (WithFilterChain 0)] ++
  steps 1 1.

Lemma refresh_refuses_nobody_witness :
  Loading 0 = Refusing NotInitialized ∨
  (∃ l, Loading 0 = Loading l ∧ ∀ ls, w_services (run late) !! l = Some ls → bl_filterChain ls = None) ∨
  ∃ l n, Loading 0 = Acquiring l n ∧ Z.of_nat (holders (run late) n) = (2 ^ 63 - 1)%Z.
Proof. apply (refresh_refuses_nobody late 1 (Loading 0) false); vm_compute; reflexivity. Defined.

(** ** A listener with an HTTP connection manager *)

Definition confs : list (option (HTTPFilter unit)) := [filters.conf "auth"; filters.conf "proxy"].
Definition answers : list answer := repeat filters.ok 4.

(** The manager's side of [quiet], for the chain 0: two requests that overlap,
    and then the end. *)
Definition manager_actions : list (FilterManager.action unit) :=
  [FilterManager.Call (CreateFilterChain true); FilterManager.Call (CreateFilterChain true)] ++
  filters.steps 1 7 ++ filters.steps 2 7 ++ [FilterManager.Call Close] ++ filters.steps 3 3.

Abbreviation loaded_manager :=
  (foldl (FilterManager.perform filters.registry)
    (FilterManager.perform filters.registry FilterManager.initial (FilterManager.Call (ReLoad confs true)))
    (FilterManager.Resume 0 <$> answers)).

Abbreviation final_manager := (foldl (FilterManager.perform filters.registry) loaded_manager manager_actions).

Lemma loaded_tasks : sys_tasks loaded_manager = [FilterManager.Done (Returned None)].
Proof. vm_compute. reflexivity. Qed.

Lemma calls_agree : omap call_of manager_actions = manager_calls 0 (w_trace (run quiet)).
Proof. vm_compute. reflexivity. Qed.

Lemma request_chain : mkChain [1; 2] true ∈ sys_chains final_manager.
Proof.
  assert (sys_chains final_manager = [mkChain [1; 2] true; mkChain [1; 2] true]) as -> by (vm_compute; reflexivity).
  constructor.
Qed.

Lemma never_bare_witness :
  map (heap_name (sys_heap final_manager)) (ch_factories (mkChain [1; 2] true)) =
    map (λ o, Some (conf_name o)) confs.
Proof.
  exact (never_bare filters.registry confs answers quiet 0 manager_actions loaded_tasks calls_agree
    (mkChain [1; 2] true) request_chain).
Defined.
End listeners.
