(* ===== verification/ListenerManager.v ===== *)
(** * The listener manager

    [pkg/server/listener_manager.go]: the table of listener services, the
    listeners that xDS owns, and the transaction that replaces all of them.

    A service is an object with a socket, a switch, and the chain of filters
    that is published (Listener models how requests use it).  The operations of
    the manager run under its lock.  What the outside decides is given by
    functions of the number of interactions so far: whether a service or a
    chain can be built, whether a socket can be bound, which includes whether
    the address is free, and whether a server can be stopped.  The order in
    which Go walks through a map is a parameter.

    Theorems: a transaction that succeeds leaves xDS with exactly the listeners
    it names, all of them open ([replace_succeeds]); one that fails leaves all
    services as they were ([replace_fails]); on either path no service and no
    chain is leaked ([replace_no_leak]); xDS touches no listener that it does
    not own ([static_listeners_untouched]). *)

From stdpp Require Import sorting.
From S2P Require Import Prelude GoStrings.

#[local] Arguments occurs : simpl never.

Inductive ProtocolType : Type := HTTP | TCP | UDP | HTTPS | GRPC | HTTP2 | TRIPLE.

#[global] Instance ProtocolType_eq_dec : EqDecision ProtocolType.
Proof. solve_decision. Defined.

Record Listener : Type := mkListener {
  ln_Name : string;
  ln_Address : string;
  ln_Port : Z;
  ln_ProtocolStr : string;
  ln_Protocol : ProtocolType;
  (** Which filters the chain is made of. *)
  ln_FilterChain : list string;
}.

Definition resolveListenerName (c : Listener) : string :=
  ln_Address c +:+ "-" +:+ pretty (ln_Port c) +:+ "-" +:+ ln_ProtocolStr c.

(** [sv_stoppable]: it has [StopAccepting]; [sv_transactional]: it has
    [PrepareRefresh] and [CommitRefresh]. *)
Record service : Type := mkService {
  sv_config : Listener;
  sv_stoppable : bool;
  sv_transactional : bool;
  sv_active : bool;
  sv_listening : bool;
  sv_closed : bool;
  sv_chain : nat;
}.

(** [wrapListenerService]. *)
Record wrapper : Type := mkWrapper { wr_service : nat; wr_config : Listener }.

(** [lm_chains] has the configuration of each chain that was built;
    [lm_closed] the chains that were closed, and [lm_clock] the number of
    interactions with the outside. *)
Record ListenerManager : Type := mkManager {
  lm_active : gmap string wrapper;
  lm_xdsManaged : gset string;
  lm_services : list service;
  lm_chains : list Listener;
  lm_closed : list nat;
  lm_clock : nat;
}.
Implicit Types (m : ListenerManager) (c : Listener).

Inductive listener_error : Type :=
  | NilConfig
  | Duplicate (key : string)
  | Conflict (key : string)
  | NotFound (key : string)
  | NotTransactional (key : string)
  | NotPrepared (key : string)
  | NotCreated (key : string)
  | NotStarted (key : string)
  | NoHandoff (key : string)
  | ManyHandoffs (key : string)
  | NotStopped (key : string).

Definition set_active m (table : gmap string wrapper) : ListenerManager :=
  mkManager table (lm_xdsManaged m) (lm_services m) (lm_chains m) (lm_closed m) (lm_clock m).
Definition set_managed m (managed : gset string) : ListenerManager :=
  mkManager (lm_active m) managed (lm_services m) (lm_chains m) (lm_closed m) (lm_clock m).
Definition set_services m (services : list service) : ListenerManager :=
  mkManager (lm_active m) (lm_xdsManaged m) services (lm_chains m) (lm_closed m) (lm_clock m).
Definition tick m : ListenerManager :=
  mkManager (lm_active m) (lm_xdsManaged m) (lm_services m) (lm_chains m) (lm_closed m) (lm_clock m + 1).
Definition close_chain m (n : nat) : ListenerManager :=
  mkManager (lm_active m) (lm_xdsManaged m) (lm_services m) (lm_chains m) (lm_closed m ++ [n]) (lm_clock m).
Definition build_chain m c : ListenerManager :=
  mkManager (lm_active m) (lm_xdsManaged m) (lm_services m) (lm_chains m ++ [c]) (lm_closed m) (lm_clock m).

Definition with_active (active : bool) (s : service) : service :=
  mkService (sv_config s) (sv_stoppable s) (sv_transactional s) active (sv_listening s) (sv_closed s) (sv_chain s).
Definition with_listening (listening : bool) (s : service) : service :=
  mkService (sv_config s) (sv_stoppable s) (sv_transactional s) (sv_active s) listening (sv_closed s) (sv_chain s).
Definition with_chain (chain : nat) (s : service) : service :=
  mkService (sv_config s) (sv_stoppable s) (sv_transactional s) (sv_active s) (sv_listening s) (sv_closed s) chain.
Definition shut (s : service) : service :=
  mkService (sv_config s) (sv_stoppable s) (sv_transactional s) false false true (sv_chain s).

Section manager.
(** Whether a service is made, and whether it can stop accepting and refresh in
    two steps; whether a chain is built, a socket bound, a server stopped. *)
Context (makes : nat → Listener → option (bool * bool)) (prepares : nat → Listener → bool).
Context (starts stops : nat → bool).
(** The order of an iteration over a map. *)
Context (order : ∀ A : Type, list A → list A).
Arguments order {A}.

(** ** Services *)

Definition setListenerActive m (i : nat) (active : bool) : ListenerManager :=
  set_services m (alter (with_active active) i (lm_services m)).

Definition startListenerServiceSafely m (i : nat) : ListenerManager * bool :=
  match lm_services m !! i with
  | None => (m, false)
  | Some s =>
      if starts (lm_clock m)
      then (tick (set_services m (<[i := with_listening true s]> (lm_services m))), true)
      else (tick m, false)
  end.

(** The socket is closed also when the server reports an error. *)
Definition stopAcceptingSafely m (i : nat) : ListenerManager * bool :=
  match lm_services m !! i with
  | None => (m, false)
  | Some s =>
      if sv_stoppable s
      then (tick (set_services m (<[i := with_listening false s]> (lm_services m))), stops (lm_clock m))
      else (m, false)
  end.

(** [Close] of a service: its socket and its chain. *)
Definition closeListenerServiceSafely m (i : nat) : ListenerManager :=
  match lm_services m !! i with
  | None => m
  | Some s =>
      if sv_closed s then m
      else close_chain (set_services m (<[i := shut s]> (lm_services m))) (sv_chain s)
  end.

(** A new service, with its chain, whose socket is not bound yet. *)
Definition createListenerServiceSafely m c : ListenerManager * option nat :=
  match makes (lm_clock m) c with
  | None => (tick m, None)
  | Some (stoppable, transactional) =>
      let i := length (lm_services m) in
      let s := mkService c stoppable transactional true false false (length (lm_chains m)) in
      (tick (build_chain (set_services m (lm_services m ++ [s])) c), Some i)
  end.

(** [Refresh] of a service: another chain is built and published, and the old
    one closed. *)
Definition Refresh m (i : nat) c : ListenerManager * bool :=
  match lm_services m !! i with
  | None => (m, false)
  | Some s =>
      if prepares (lm_clock m) c then
        let n := length (lm_chains m) in
        (tick (close_chain (build_chain (set_services m (<[i := with_chain n s]> (lm_services m))) c) (sv_chain s)), true)
      else (tick m, false)
  end.

(** ** The transaction *)

(** What [ReplaceXDSListeners] has prepared: the keys of the new listeners, the
    new services, and for each listener that stays its service, configuration
    and new chain. *)
Record transaction : Type := mkTransaction {
  tx_managed : gset string;
  tx_staged : list (string * wrapper);
  tx_refreshes : list (string * (nat * Listener * nat));
}.

Definition empty_transaction : transaction := mkTransaction ∅ [] [].

(** The first loop. *)
Fixpoint prepare_all m (tx : transaction) (listeners : list (option Listener)) :
    ListenerManager * transaction * option listener_error :=
  match listeners with
  | [] => (m, tx, None)
  | None :: _ => (m, tx, Some NilConfig)
  | Some c :: listeners =>
      let key := resolveListenerName c in
      if decide (key ∈ tx_managed tx) then (m, tx, Some (Duplicate key))
      else
        let tx := mkTransaction ({[key]} ∪ tx_managed tx) (tx_staged tx) (tx_refreshes tx) in
        match lm_active m !! key with
        | Some w =>
            if decide (key ∈ lm_xdsManaged m) then
              match lm_services m !! wr_service w with
              | Some s =>
                  if sv_transactional s then
                    if prepares (lm_clock m) c then
                      let n := length (lm_chains m) in
                      prepare_all (tick (build_chain m c))
                        (mkTransaction (tx_managed tx) (tx_staged tx)
                           (tx_refreshes tx ++ [(key, (wr_service w, c, n))])) listeners
                    else (tick m, tx, Some (NotPrepared key))
                  else (m, tx, Some (NotTransactional key))
              | None => (m, tx, Some (NotPrepared key))
              end
            else (m, tx, Some (Conflict key))
        | None =>
            match createListenerServiceSafely m c with
            | (m, Some i) =>
                prepare_all (setListenerActive m i false)
                  (mkTransaction (tx_managed tx) (tx_staged tx ++ [(key, mkWrapper i c)]) (tx_refreshes tx)) listeners
            | (m, None) => (m, tx, Some (NotCreated key))
            end
        end
  end.

Definition isHTTPProtocolHandoff (old next : Listener) : bool :=
  if decide (ln_Protocol old = ln_Protocol next) then false
  else if negb (bool_decide (ln_Protocol old ∈ [HTTP; HTTP2])) || negb (bool_decide (ln_Protocol next ∈ [HTTP; HTTP2]))
  then false
  else (0 <? ln_Port old)%Z && bool_decide (ln_Address old = ln_Address next) && (ln_Port old =? ln_Port next)%Z.

Definition stoppable m (i : nat) : bool :=
  match lm_services m !! i with Some s => sv_stoppable s | None => false end.

(** The second loop: which listener gives its socket to which new one. *)
Fixpoint find_handoffs m (managed : gset string) (pairs : list ((string * wrapper) * string))
    (handoffs : gmap string string) : gmap string string + listener_error :=
  match pairs with
  | [] => inl handoffs
  | ((newKey, next), oldKey) :: pairs =>
      if decide (oldKey ∈ managed) then find_handoffs m managed pairs handoffs
      else
        match lm_active m !! oldKey with
        | None => find_handoffs m managed pairs handoffs
        | Some old =>
            if isHTTPProtocolHandoff (wr_config old) (wr_config next) then
              if negb (stoppable m (wr_service old)) then inr (NoHandoff oldKey)
              else if negb (stoppable m (wr_service next)) then inr (NoHandoff newKey)
              else match handoffs !! oldKey with
                   | Some _ => inr (ManyHandoffs oldKey)
                   | None => find_handoffs m managed pairs (<[oldKey := newKey]> handoffs)
                   end
            else find_handoffs m managed pairs handoffs
        end
  end.

Definition handoff_new (handoffs : gmap string string) : gset string := list_to_set (map snd (map_to_list handoffs)).

(** The new services bind their sockets. *)
Fixpoint start_staged m (skip : gset string) (staged : list (string * wrapper)) : ListenerManager * option listener_error :=
  match staged with
  | [] => (m, None)
  | (key, w) :: staged =>
      if decide (key ∈ skip) then start_staged m skip staged
      else match startListenerServiceSafely m (wr_service w) with
           | (m, true) => start_staged m skip staged
           | (m, false) => (m, Some (NotStarted key))
           end
  end.

(** The old service, and the new one, of each handoff. *)
Definition stop_all m (services : list nat) : ListenerManager :=
  foldl (λ m i, (stopAcceptingSafely m i).1) m services.

Definition restore m (i : nat) : ListenerManager :=
  match startListenerServiceSafely m i with
  | (m, true) => setListenerActive m i true
  | (m, false) => m
  end.

Definition rollbackHandoffs m (done : list (nat * nat)) : ListenerManager :=
  let m := stop_all m (order (map snd done)) in
  foldl restore m (order (map fst done)).

(** The handoffs, in the order of the keys of the old listeners; [todo] has the
    keys and services of both sides. *)
Fixpoint hand_over m (todo : list ((string * nat) * (string * nat))) (done : list (nat * nat)) :
    ListenerManager * option listener_error :=
  match todo with
  | [] => (m, None)
  | ((oldKey, old), (newKey, new)) :: todo =>
      let m := setListenerActive m old false in
      let done := done ++ [(old, new)] in
      match stopAcceptingSafely m old with
      | (m, false) => (rollbackHandoffs m done, Some (NotStopped oldKey))
      | (m, true) =>
          match startListenerServiceSafely m new with
          | (m, false) => (rollbackHandoffs m done, Some (NotStarted newKey))
          | (m, true) => hand_over m todo done
          end
      end
  end.

Definition handoff_list m (staged : list (string * wrapper)) (handoffs : gmap string string) :
    list ((string * nat) * (string * nat)) :=
  omap (λ oldKey,
    newKey ← handoffs !! oldKey;
    old ← lm_active m !! oldKey;
    new ← first_such (λ sw, bool_decide (sw.1 = newKey)) staged;
    Some ((oldKey, wr_service old), (newKey, wr_service new.2)))
    (merge_sort String.le (elements (dom handoffs))).

(** The deferred function: what was prepared is closed. *)
Definition abort m (tx : transaction) : ListenerManager :=
  let m := foldl (λ m r, close_chain m r.2.2) m (tx_refreshes tx) in
  foldl (λ m sw, closeListenerServiceSafely m (wr_service sw.2)) m (order (tx_staged tx)).

(** The listeners that are not in the new set leave the table. *)
Definition remove_one m (key : string) : ListenerManager :=
  match lm_active m !! key with
  | Some w => set_active (setListenerActive m (wr_service w) false) (delete key (lm_active m))
  | None => m
  end.

(** [CommitRefresh], and the new configuration; the old chains are closed
    later. *)
Fixpoint commit_refreshes m (refreshes : list (string * (nat * Listener * nat))) (retired : list nat) :
    ListenerManager * list nat :=
  match refreshes with
  | [] => (m, retired)
  | (key, (i, c, n)) :: refreshes =>
      let old := match lm_services m !! i with Some s => [sv_chain s] | None => [] end in
      commit_refreshes
        (set_active (set_services m (alter (with_chain n) i (lm_services m)))
           (alter (λ w, mkWrapper (wr_service w) c) key (lm_active m)))
        refreshes (retired ++ old)
  end.

Definition publish_one m (sw : string * wrapper) : ListenerManager :=
  setListenerActive (set_active m (<[sw.1 := sw.2]> (lm_active m))) (wr_service sw.2) true.

(** The publication, under the gate: the manager, the chains that were replaced
    and the services that were removed. *)
Definition publish m (tx : transaction) : ListenerManager * list nat * list nat :=
  let keys := order (filter (λ key, key ∉ tx_managed tx) (elements (lm_xdsManaged m))) in
  let removed := omap (λ key, wr_service <$> lm_active m !! key) keys in
  let m := foldl remove_one m keys in
  let '(m, retired) := commit_refreshes m (tx_refreshes tx) [] in
  let m := foldl publish_one m (order (tx_staged tx)) in
  (set_managed m (tx_managed tx), retired, removed).

(** The old chains and services are closed after it. *)
Definition commit m (tx : transaction) : ListenerManager :=
  let '(m, retired, removed) := publish m tx in
  foldl closeListenerServiceSafely (foldl close_chain m retired) (order removed).

Definition ReplaceXDSListeners m (listeners : list (option Listener)) : ListenerManager * option listener_error :=
  match prepare_all m empty_transaction listeners with
  | (m, tx, Some e) => (abort m tx, Some e)
  | (m, tx, None) =>
      match find_handoffs m (tx_managed tx) (order (list_prod (tx_staged tx) (elements (lm_xdsManaged m)))) ∅ with
      | inr e => (abort m tx, Some e)
      | inl handoffs =>
          match start_staged m (handoff_new handoffs) (order (tx_staged tx)) with
          | (m, Some e) => (abort m tx, Some e)
          | (m, None) =>
              match hand_over m (handoff_list m (tx_staged tx) handoffs) [] with
              | (m, Some e) => (abort m tx, Some e)
              | (m, None) => (commit m tx, None)
              end
          end
      end
  end.

(** ** The other operations *)

(** The result of [Start] is only logged. *)
Definition AddListener m c : ListenerManager * option listener_error :=
  match createListenerServiceSafely m c with
  | (m, None) => (m, Some (NotCreated (resolveListenerName c)))
  | (m, Some i) =>
      let m := set_active m (<[resolveListenerName c := mkWrapper i c]> (lm_active m)) in
      ((startListenerServiceSafely m i).1, None)
  end.

Definition UpdateListener m (o : option Listener) : ListenerManager * option listener_error :=
  match o with
  | None => (m, Some NilConfig)
  | Some c =>
      let key := resolveListenerName c in
      match lm_active m !! key with
      | None => (m, Some (NotFound key))
      | Some w =>
          let m := set_active m (<[key := mkWrapper (wr_service w) c]> (lm_active m)) in
          match Refresh m (wr_service w) c with
          | (m, true) => (m, None)
          | (m, false) => (m, Some (NotPrepared key))
          end
      end
  end.

Definition UpsertXDSListener m (o : option Listener) : ListenerManager * option listener_error :=
  match o with
  | None => (m, Some NilConfig)
  | Some c =>
      let key := resolveListenerName c in
      match lm_active m !! key with
      | Some w =>
          if decide (key ∈ lm_xdsManaged m) then
            match Refresh m (wr_service w) c with
            | (m, true) => (set_active m (<[key := mkWrapper (wr_service w) c]> (lm_active m)), None)
            | (m, false) => (m, Some (NotPrepared key))
            end
          else (m, Some (Conflict key))
      | None =>
          match createListenerServiceSafely m c with
          | (m, None) => (m, Some (NotCreated key))
          | (m, Some i) =>
              match startListenerServiceSafely (setListenerActive m i false) i with
              | (m, false) => (closeListenerServiceSafely m i, Some (NotStarted key))
              | (m, true) =>
                  let m := set_active m (<[key := mkWrapper i c]> (lm_active m)) in
                  let m := set_managed m ({[key]} ∪ lm_xdsManaged m) in
                  (setListenerActive m i true, None)
              end
          end
      end
  end.

Definition RemoveListener m (names : list string) : ListenerManager :=
  let close_one m name :=
    match lm_active m !! name with Some w => closeListenerServiceSafely m (wr_service w) | None => m end in
  let m := foldl close_one m names in
  set_active m (foldl (λ table name, delete name table) (lm_active m) names).

(** The services are closed in the end, outside of the lock. *)
Fixpoint unlink m (names : list string) (found : list nat) : ListenerManager * list nat :=
  match names with
  | [] => (m, found)
  | name :: names =>
      if decide (name ∈ lm_xdsManaged m) then
        let found := match lm_active m !! name with Some w => found ++ [wr_service w] | None => found end in
        unlink (set_managed (set_active m (delete name (lm_active m))) (lm_xdsManaged m ∖ {[name]})) names found
      else unlink m names found
  end.

Definition RemoveXDSListeners m (names : list string) : ListenerManager :=
  let '(m, found) := unlink m names [] in foldl closeListenerServiceSafely m (order found).

Definition XDSListenerNames m : list string := merge_sort String.le (elements (lm_xdsManaged m)).
Definition HasListener m (name : string) : bool := bool_decide (is_Some (lm_active m !! name)).

(** ** What the phases leave alone *)

Context (order_perm : ∀ A (l : list A), order l ≡ₚ l).

(** A service without its two switches. *)
Definition core (s : service) : Listener * bool * bool * bool * nat :=
  (sv_config s, sv_stoppable s, sv_transactional s, sv_closed s, sv_chain s).

(** The managers differ at most in the switches of the services. *)
Record core_eq m m' : Prop := mkCoreEq {
  core_active : lm_active m' = lm_active m;
  core_managed : lm_xdsManaged m' = lm_xdsManaged m;
  core_chains : lm_chains m' = lm_chains m;
  core_closed : lm_closed m' = lm_closed m;
  core_services : core <$> lm_services m' = core <$> lm_services m;
}.

#[local] Instance core_eq_refl : Reflexive core_eq.
Proof. by split. Qed.

#[local] Instance core_eq_trans : Transitive core_eq.
Proof. intros m1 m2 m3 [] []. split; congruence. Qed.

Lemma core_insert (services : list service) i s s' :
  services !! i = Some s → core s' = core s → core <$> <[i := s']> services = core <$> services.
Proof.
  intros Hi Hc. rewrite list_fmap_insert. rewrite Hc. apply list_insert_id. by rewrite list_lookup_fmap, Hi.
Qed.

Lemma core_alter (services : list service) i f : (∀ s, core (f s) = core s) → core <$> alter f i services = core <$> services.
Proof.
  intros Hf. apply list_eq. intros j.
  rewrite !list_lookup_fmap, list_lookup_alter. destruct (decide (i = j)) as [->|]; [|done].
  destruct (services !! j); simpl; [by rewrite Hf|done].
Qed.

Lemma setActive_core m i b : core_eq m (setListenerActive m i b).
Proof. split; try done. simpl. by apply core_alter. Qed.

Lemma start_core m i : core_eq m (startListenerServiceSafely m i).1.
Proof.
  unfold startListenerServiceSafely. destruct (lm_services m !! i) as [s|] eqn:Hi; [|done].
  destruct (starts _); split; try done. simpl. by eapply core_insert.
Qed.

Lemma stop_core m i : core_eq m (stopAcceptingSafely m i).1.
Proof.
  unfold stopAcceptingSafely. destruct (lm_services m !! i) as [s|] eqn:Hi; [|done].
  destruct (sv_stoppable s); split; try done. simpl. by eapply core_insert.
Qed.

Lemma start_staged_core m skip staged : core_eq m (start_staged m skip staged).1.
Proof.
  revert m. induction staged as [|[key w] staged IH]; intros m; simpl; [done|].
  destruct (decide (key ∈ skip)); [done|].
  pose proof (start_core m (wr_service w)) as Hs. destruct (startListenerServiceSafely _ _) as [m1 []]; [|done].
  etrans; [exact Hs|apply IH].
Qed.

Lemma fold_core {A} (f : ListenerManager → A → ListenerManager) m l :
  (∀ m x, core_eq m (f m x)) → core_eq m (foldl f m l).
Proof. intros Hf. revert m. induction l as [|x l IH]; intros m; simpl; [done|]. etrans; [apply Hf|apply IH]. Qed.

Lemma restore_core m i : core_eq m (restore m i).
Proof.
  unfold restore. pose proof (start_core m i) as Hs. destruct (startListenerServiceSafely m i) as [m1 []]; [|done].
  etrans; [exact Hs|apply setActive_core].
Qed.

Lemma rollback_core m dn : core_eq m (rollbackHandoffs m dn).
Proof.
  unfold rollbackHandoffs, stop_all. etrans; [apply (fold_core (λ m i, (stopAcceptingSafely m i).1)), stop_core|].
  apply fold_core, restore_core.
Qed.

Lemma hand_over_core m todo dn : core_eq m (hand_over m todo dn).1.
Proof.
  revert m dn. induction todo as [|[[ok oi] [nk ni]] todo IH]; intros m dn; simpl; [done|].
  pose proof (setActive_core m oi false) as H0. pose proof (stop_core (setListenerActive m oi false) oi) as H1.
  destruct (stopAcceptingSafely _ _) as [m1 []]; simpl in *.
  - pose proof (start_core m1 ni) as H2. destruct (startListenerServiceSafely m1 ni) as [m2 []]; simpl in *.
    + etrans; [exact H0|]. etrans; [exact H1|]. etrans; [exact H2|apply IH].
    + etrans; [exact H0|]. etrans; [exact H1|]. etrans; [exact H2|apply rollback_core].
  - etrans; [exact H0|]. etrans; [exact H1|apply rollback_core].
Qed.

(** ** The switches of the services that were there before

    [m0] is the manager before the transaction. *)

Definition up (s : service) : Prop := sv_active s = true ∧ sv_listening s = true.
Definition downed (s : service) : service := with_listening false (with_active false s).

Lemma raise_downed s : up s → with_active true (with_listening true (downed s)) = s.
Proof. destruct s. unfold up. simpl. intros [-> ->]. done. Qed.

Lemma raise_up s : up s → with_active true (with_listening true s) = s.
Proof. destruct s. unfold up. simpl. intros [-> ->]. done. Qed.

Definition old_services m0 m (P : nat → service → service → Prop) : Prop :=
  ∀ i s0, lm_services m0 !! i = Some s0 → ∃ s, lm_services m !! i = Some s ∧ P i s0 s.

(** Unchanged, or down because a socket could not be bound again. *)
Definition as_before (i : nat) (s0 s : service) : Prop := s = s0 ∨ (s = downed s0 ∧ ∃ n, starts n = false).

Lemma start_other m i j : i ≠ j → lm_services (startListenerServiceSafely m i).1 !! j = lm_services m !! j.
Proof.
  intros Hij. unfold startListenerServiceSafely. destruct (lm_services m !! i); [|done].
  destruct (starts _); [|done]. simpl. by rewrite list_lookup_insert_ne.
Qed.

Lemma stop_other m i j : i ≠ j → lm_services (stopAcceptingSafely m i).1 !! j = lm_services m !! j.
Proof.
  intros Hij. unfold stopAcceptingSafely. destruct (lm_services m !! i) as [s|]; [|done].
  destruct (sv_stoppable s); [|done]. simpl. by rewrite list_lookup_insert_ne.
Qed.

Lemma close_other m i j : i ≠ j → lm_services (closeListenerServiceSafely m i) !! j = lm_services m !! j.
Proof.
  intros Hij. unfold closeListenerServiceSafely. destruct (lm_services m !! i) as [s|]; [|done].
  destruct (sv_closed s); [done|]. simpl. by rewrite list_lookup_insert_ne.
Qed.

Lemma setActive_other m i j b : i ≠ j → lm_services (setListenerActive m i b) !! j = lm_services m !! j.
Proof. intros Hij. simpl. rewrite list_lookup_alter. by rewrite decide_False. Qed.

Lemma fold_other {A} (f : ListenerManager → A → ListenerManager) (id : A → nat) m l j :
  (∀ m x, id x ≠ j → lm_services (f m x) !! j = lm_services m !! j) → (∀ x, x ∈ l → id x ≠ j) →
  lm_services (foldl f m l) !! j = lm_services m !! j.
Proof.
  intros Hf. revert m. induction l as [|x l IH]; intros m Hl; simpl; [done|].
  rewrite IH by (intros y Hy; apply Hl; by constructor). apply Hf, Hl. constructor.
Qed.

(** One service is started again. *)
Lemma restore_one m i s0 :
  up s0 → lm_services m !! i = Some s0 ∨ lm_services m !! i = Some (downed s0) →
  ∃ s, lm_services (restore m i) !! i = Some s ∧ (s = s0 ∨ (s = downed s0 ∧ ∃ n, starts n = false)).
Proof.
  intros Hup Hi. unfold restore, startListenerServiceSafely.
  assert (i < length (lm_services m)) as Hlt by (destruct Hi as [H|H]; by eapply lookup_lt_Some).
  destruct (starts (lm_clock m)) eqn:E.
  - exists s0. split; [|by left]. destruct Hi as [Hi|Hi]; rewrite Hi; simpl.
    all: rewrite list_lookup_alter, decide_True by done; rewrite list_lookup_insert_eq by done; simpl.
    + by rewrite raise_up.
    + by rewrite raise_downed.
  - destruct Hi as [Hi|Hi]; rewrite Hi; simpl; rewrite Hi; eexists; (split; [done|]); [by left|right].
    split; [done|]. by exists (lm_clock m).
Qed.

Lemma restore_other m i j : i ≠ j → lm_services (restore m i) !! j = lm_services m !! j.
Proof.
  intros Hij. unfold restore. pose proof (start_other m i j Hij) as Hs.
  destruct (startListenerServiceSafely m i) as [m1 []]; simpl in *; [|done].
  rewrite list_lookup_alter, decide_False by done. done.
Qed.

Lemma restore_all m0 m l :
  (∀ i, i ∈ l → ∃ s0, lm_services m0 !! i = Some s0 ∧ up s0) →
  old_services m0 m (λ i s0 s, as_before i s0 s ∨ (s = downed s0 ∧ i ∈ l)) →
  old_services m0 (foldl restore m l) as_before.
Proof.
  revert m. induction l as [|j l IH]; intros m Hl Hold; simpl.
  { intros i s0 Hi. destruct (Hold i s0 Hi) as (s & Hs & [H|[_ H]]); [by exists s|]. by apply not_elem_of_nil in H. }
  apply IH; [intros i Hi; apply Hl; by constructor|].
  intros i s0 Hi. destruct (Hold i s0 Hi) as (s & Hs & Hp). destruct (decide (j = i)) as [->|Hne].
  - destruct (Hl i) as (s1 & Hs1 & Hup); [constructor|]. rewrite Hi in Hs1. injection Hs1 as <-.
    destruct (restore_one m i s0 Hup) as (s' & Hs' & H').
    { destruct Hp as [[->|[-> _]]|[-> _]]; auto. }
    exists s'. split; [done|]. by left.
  - exists s. rewrite restore_other by done. split; [done|]. destruct Hp as [?|[-> [->|?]%elem_of_cons]]; auto. done.
Qed.

(** A pair of a handoff: an old service that is up and can stop, and a new one. *)
Definition handoff_ok m0 (o n : nat) : Prop :=
  (∃ s0, lm_services m0 !! o = Some s0 ∧ up s0 ∧ sv_stoppable s0 = true) ∧ lm_services m0 !! n = None.

Definition down_in (l : list nat) (i : nat) (s0 s : service) : Prop := s = if decide (i ∈ l) then downed s0 else s0.

Lemma rollback_switches m0 m dn :
  (∀ o n, (o, n) ∈ dn → handoff_ok m0 o n) →
  old_services m0 m (λ i s0 s, s = s0 ∨ (s = downed s0 ∧ i ∈ map fst dn)) →
  old_services m0 (rollbackHandoffs m dn) as_before.
Proof.
  intros Hdn Hold. unfold rollbackHandoffs. apply restore_all.
  - intros i. rewrite order_perm. intros ([o n] & -> & Hin)%list_elem_of_fmap.
    destruct (Hdn o n Hin) as [(s0 & ? & ? & _) _]. by exists s0.
  - intros i s0 Hi. destruct (Hold i s0 Hi) as (s & Hs & Hp). exists s. split.
    + rewrite <- Hs. unfold stop_all. apply (fold_other _ id); [intros m1 x; apply stop_other|].
      intros x. rewrite order_perm. intros ([o n] & -> & Hin)%list_elem_of_fmap. simpl.
      destruct (Hdn o n Hin) as [_ Hn]. congruence.
    + rewrite order_perm. destruct Hp as [->|[-> Hin]]; [left; by left|by right].
Qed.

Lemma hand_over_switches m0 m todo dn :
  (∀ o n, (o, n) ∈ dn → handoff_ok m0 o n) →
  (∀ o n, (o, n) ∈ map (λ p, (p.1.2, p.2.2)) todo → handoff_ok m0 o n) →
  NoDup (map fst dn ++ map (snd ∘ fst) todo) →
  old_services m0 m (down_in (map fst dn)) →
  match hand_over m todo dn with
  | (m', None) => old_services m0 m' (down_in (map fst dn ++ map (snd ∘ fst) todo))
  | (m', Some _) => old_services m0 m' as_before
  end.
Proof.
  revert m dn. induction todo as [|[[ok o] [nk n]] todo IH]; intros m dn Hdn Htodo Hnd Hold; simpl.
  { by rewrite app_nil_r. }
  destruct (Htodo o n) as [(s0 & Ho & Hup & Hstop) Hn]; [constructor|].
  assert (o ∉ map fst dn) as Hno.
  { apply NoDup_app in Hnd as (_ & Hd & _). intros Hin. apply (Hd o Hin). constructor. }
  assert (lm_services m !! o = Some s0) as Hmo.
  { destruct (Hold o s0 Ho) as (s & Hs & ->). by rewrite decide_False in Hs. }
  assert (∀ o' n', (o', n') ∈ dn ++ [(o, n)] → handoff_ok m0 o' n') as Hdn'.
  { intros o' n' [?|H%list_elem_of_singleton]%elem_of_app; [by apply Hdn|]. injection H as -> ->.
    split; [by exists s0|done]. }
  set (m1 := setListenerActive m o false).
  assert (lm_services m1 !! o = Some (with_active false s0)) as H1.
  { simpl. by rewrite list_lookup_alter, decide_True, Hmo. }
  assert (lm_services (stopAcceptingSafely m1 o).1 !! o = Some (downed s0)) as H2.
  { unfold stopAcceptingSafely. rewrite H1. simpl. rewrite Hstop. simpl.
    apply list_lookup_insert_eq. eapply lookup_lt_Some, H1. }
  assert (old_services m0 (stopAcceptingSafely m1 o).1 (down_in (map fst (dn ++ [(o, n)])))) as Hold2.
  { intros i s Hi. destruct (decide (i = o)) as [->|Hne].
    - rewrite Ho in Hi. injection Hi as <-. exists (downed s0). split; [done|]. unfold down_in.
      rewrite decide_True; [done|]. rewrite map_app, elem_of_app. right. by apply list_elem_of_singleton.
    - destruct (Hold i s Hi) as (s' & Hs' & ->). eexists. rewrite stop_other by done. unfold m1.
      rewrite setActive_other by done. split; [exact Hs'|]. unfold down_in. rewrite map_app. simpl.
      assert (i ∈ map fst dn ++ [o] ↔ i ∈ map fst dn) as Hiff.
      { rewrite elem_of_app, list_elem_of_singleton. naive_solver. }
      destruct (decide (i ∈ map fst dn)), (decide (i ∈ map fst dn ++ [o])); tauto || done. }
  assert (∀ m2, old_services m0 m2 (down_in (map fst (dn ++ [(o, n)]))) →
    old_services m0 (rollbackHandoffs m2 (dn ++ [(o, n)])) as_before) as Hroll.
  { intros m2 H. apply rollback_switches; [done|]. intros i s Hi. destruct (H i s Hi) as (s' & Hs' & ->).
    eexists. split; [exact Hs'|]. destruct (decide _); [by right|by left]. }
  destruct (stopAcceptingSafely m1 o) as [m2 []]; simpl in *; [|by apply Hroll].
  assert (old_services m0 (startListenerServiceSafely m2 n).1 (down_in (map fst (dn ++ [(o, n)])))) as Hold3.
  { intros i s Hi. destruct (Hold2 i s Hi) as (s' & Hs' & Hp). exists s'. rewrite start_other; [done|]. congruence. }
  destruct (startListenerServiceSafely m2 n) as [m3 []]; simpl in *; [|by apply Hroll].
  assert (map fst dn ++ o :: map (snd ∘ fst) todo = map fst (dn ++ [(o, n)]) ++ map (snd ∘ fst) todo) as Heq.
  { by rewrite map_app, <- app_assoc. }
  rewrite Heq. apply IH; [done| |rewrite <- Heq; exact Hnd|done]. intros o' n' Hin. apply Htodo. by constructor.
Qed.

(** ** Invariant

    Each entry of the table has a service of its own that is not closed, and
    each service that is not closed an entry; each chain is that of one such
    service, or was closed once. *)

Definition chain_owner (n : nat) (s : service) : nat :=
  if sv_closed s then 0 else if decide (n = sv_chain s) then 1 else 0.

Definition chain_count m (n : nat) : nat := sum_list_with (chain_owner n) (lm_services m) + occurs n (lm_closed m).
Definition chain_made m (n : nat) : nat := if decide (n < length (lm_chains m)) then 1 else 0.

Record wf m : Prop := mkWf {
  wf_ids : ∀ key w, lm_active m !! key = Some w →
    resolveListenerName (wr_config w) = key ∧ ∃ s, lm_services m !! wr_service w = Some s ∧ sv_closed s = false;
  wf_inj : ∀ k1 k2 w1 w2, lm_active m !! k1 = Some w1 → lm_active m !! k2 = Some w2 →
    wr_service w1 = wr_service w2 → k1 = k2;
  wf_live : ∀ i s, lm_services m !! i = Some s → sv_closed s = false →
    ∃ key w, lm_active m !! key = Some w ∧ wr_service w = i;
  wf_xds : ∀ key, key ∈ lm_xdsManaged m → is_Some (lm_active m !! key);
  wf_chains : ∀ n, chain_count m n = chain_made m n;
}.

Record tx_ok m0 m (tx : transaction) : Prop := mkTxOk {
  t_active : lm_active m = lm_active m0;
  t_xds : lm_xdsManaged m = lm_xdsManaged m0;
  t_closed : lm_closed m = lm_closed m0;
  t_old : ∀ i s, lm_services m0 !! i = Some s → core <$> lm_services m !! i = Some (core s);
  t_len : length (lm_services m) = length (lm_services m0) + length (tx_staged tx);
  t_ids : map (λ sw, wr_service sw.2) (tx_staged tx) = seq (length (lm_services m0)) (length (tx_staged tx));
  t_staged : ∀ key w, (key, w) ∈ tx_staged tx →
    resolveListenerName (wr_config w) = key ∧ lm_active m0 !! key = None ∧ key ∈ tx_managed tx ∧
    ∃ s, lm_services m !! wr_service w = Some s ∧ sv_closed s = false ∧
      lm_chains m !! sv_chain s = Some (wr_config w);
  t_refreshes : ∀ key i c n, (key, (i, c, n)) ∈ tx_refreshes tx →
    resolveListenerName c = key ∧ key ∈ lm_xdsManaged m0 ∧ key ∈ tx_managed tx ∧
    (∃ w, lm_active m0 !! key = Some w ∧ wr_service w = i) ∧ lm_chains m !! n = Some c;
  t_keys : NoDup (map fst (tx_staged tx) ++ map fst (tx_refreshes tx));
  t_chains : ∀ n, chain_count m n + occurs n (map (λ r, r.2.2) (tx_refreshes tx)) = chain_made m n;
}.

Lemma tx_start m0 : wf m0 → tx_ok m0 m0 empty_transaction.
Proof.
  intros W. split; try done.
  - intros i s Hi. by rewrite Hi.
  - intros key w H. by apply not_elem_of_nil in H.
  - intros key i c n H. by apply not_elem_of_nil in H.
  - constructor.
  - intros n. simpl. rewrite occurs_nil. pose proof (wf_chains m0 W n). lia.
Qed.

Lemma tx_fresh_key m0 m tx key :
  tx_ok m0 m tx → key ∉ tx_managed tx → key ∉ map fst (tx_staged tx) ++ map fst (tx_refreshes tx).
Proof.
  intros T Hk [([k w] & -> & Hin)%list_elem_of_fmap|([k [[i c] n]] & -> & Hin)%list_elem_of_fmap]%elem_of_app; simpl in Hk.
  - by apply (t_staged _ _ _ T) in Hin as (_ & _ & ? & _).
  - by apply (t_refreshes _ _ _ T) in Hin as (_ & _ & ? & _).
Qed.

(** More keys, and steps of the clock, do no harm. *)
Lemma tx_more m0 m tx key :
  tx_ok m0 m tx → tx_ok m0 m (mkTransaction ({[key]} ∪ tx_managed tx) (tx_staged tx) (tx_refreshes tx)).
Proof.
  intros T. split; try apply T; simpl.
  - intros k w H. destruct (t_staged _ _ _ T k w H) as (? & ? & ? & ?). split_and!; [done..|set_solver|done].
  - intros k i c n H. destruct (t_refreshes _ _ _ T k i c n H) as (? & ? & ? & ? & ?). split_and!; [done..|set_solver|done|done].
Qed.

Lemma tx_tick m0 m tx : tx_ok m0 m tx → tx_ok m0 (tick m) tx.
Proof. intros [? ? ? ? ? ? ? ? ? ?]. by split. Qed.

Lemma chain_made_snoc m c n :
  chain_made (build_chain m c) n = chain_made m n + if decide (n = length (lm_chains m)) then 1 else 0.
Proof.
  unfold chain_made. simpl. rewrite length_app. simpl.
  destruct (decide (n < length (lm_chains m) + 1)), (decide (n < length (lm_chains m))),
    (decide (n = length (lm_chains m))); lia.
Qed.

Lemma lookup_snoc_chain m c n c' : lm_chains m !! n = Some c' → (lm_chains m ++ [c]) !! n = Some c'.
Proof. apply lookup_app_l_Some. Qed.

(** A chain is prepared for a listener that stays. *)
Lemma tx_refresh m0 m tx c w :
  let key := resolveListenerName c in
  tx_ok m0 m tx → key ∉ tx_managed tx → lm_active m !! key = Some w → key ∈ lm_xdsManaged m →
  tx_ok m0 (build_chain m c)
    (mkTransaction ({[key]} ∪ tx_managed tx) (tx_staged tx)
       (tx_refreshes tx ++ [(key, (wr_service w, c, length (lm_chains m)))])).
Proof.
  intros key T Hk Hw Hx. pose proof (tx_fresh_key _ _ _ _ T Hk) as Hfresh.
  split; try apply T; simpl.
  - intros k w' H. destruct (t_staged _ _ _ T k w' H) as (? & ? & ? & s & ? & ? & ?).
    split_and!; [done..|set_solver|]. exists s. split_and!; [done..|]. by apply lookup_snoc_chain.
  - intros k i c' n [H|H]%elem_of_app.
    + destruct (t_refreshes _ _ _ T k i c' n H) as (? & ? & ? & ? & ?).
      split_and!; [done..|set_solver|done|]. by apply lookup_snoc_chain.
    + apply list_elem_of_singleton in H as [= -> -> -> ->]. rewrite (t_xds _ _ _ T) in Hx.
      rewrite (t_active _ _ _ T) in Hw. split_and!; [done..|set_solver|by exists w|by rewrite list_lookup_middle].
  - rewrite map_app, app_assoc. apply NoDup_app. split_and!; [apply T| |by apply NoDup_singleton].
    intros k Hin ->%list_elem_of_singleton. done.
  - intros n. rewrite chain_made_snoc, map_app, occurs_app. simpl. rewrite occurs_cons, occurs_nil.
    pose proof (t_chains _ _ _ T n) as H. unfold chain_count in *. simpl. lia.
Qed.

(** A new service, and its chain. *)
Definition staged_service c (stoppable transactional : bool) (n : nat) : service :=
  mkService c stoppable transactional false false false n.

Lemma tx_stage m0 m tx c a b :
  let key := resolveListenerName c in
  tx_ok m0 m tx → key ∉ tx_managed tx → lm_active m !! key = None →
  tx_ok m0 (build_chain (set_services m (lm_services m ++ [staged_service c a b (length (lm_chains m))])) c)
    (mkTransaction ({[key]} ∪ tx_managed tx) (tx_staged tx ++ [(key, mkWrapper (length (lm_services m)) c)])
       (tx_refreshes tx)).
Proof.
  intros key T Hk Hw. pose proof (tx_fresh_key _ _ _ _ T Hk) as Hfresh.
  split; try apply T; simpl.
  - intros i s Hi. destruct (lm_services m !! i) as [s'|] eqn:E.
    + rewrite (lookup_app_l_Some _ _ _ _ E), <- E. by apply (t_old _ _ _ T).
    + pose proof (t_old _ _ _ T i s Hi) as H. by rewrite E in H.
  - rewrite !length_app, (t_len _ _ _ T). simpl. lia.
  - rewrite map_app, length_app, seq_app, (t_ids _ _ _ T). simpl. by rewrite (t_len _ _ _ T).
  - intros k w [H|H]%elem_of_app.
    + destruct (t_staged _ _ _ T k w H) as (? & ? & ? & s & ? & ? & ?). split_and!; [done..|set_solver|].
      exists s. split_and!; [by apply lookup_app_l_Some|done|by apply lookup_snoc_chain].
    + apply list_elem_of_singleton in H as [= -> ->]. rewrite (t_active _ _ _ T) in Hw.
      split_and!; [done..|set_solver|]. eexists. simpl. rewrite list_lookup_middle by done. split_and!; [done..|].
      simpl. by rewrite list_lookup_middle.
  - intros k i c' n H. destruct (t_refreshes _ _ _ T k i c' n H) as (? & ? & ? & ? & ?).
    split_and!; [done..|set_solver|done|]. by apply lookup_snoc_chain.
  - rewrite map_app. simpl. rewrite <- app_assoc. simpl. rewrite <- Permutation_middle. constructor; [done|apply T].
  - intros n. rewrite chain_made_snoc. change (chain_made (set_services m _) n) with (chain_made m n).
    pose proof (t_chains _ _ _ T n) as H. unfold chain_count in *. simpl.
    rewrite sum_list_with_app. cbn [sum_list_with].
    change (chain_owner n (staged_service _ _ _ _)) with (if decide (n = length (lm_chains m)) then 1 else 0). lia.
Qed.

Lemma create_spec m c :
  match createListenerServiceSafely m c with
  | (m', None) => m' = tick m
  | (m', Some i) =>
      i = length (lm_services m) ∧ ∃ a b,
        setListenerActive m' i false =
          tick (build_chain (set_services m (lm_services m ++ [staged_service c a b (length (lm_chains m))])) c)
  end.
Proof.
  unfold createListenerServiceSafely. destruct (makes _ _) as [[a b]|]; [|done]. split; [done|]. exists a, b.
  unfold setListenerActive, tick, build_chain, set_services. simpl. f_equal.
  rewrite alter_app_r_alt by lia. by rewrite Nat.sub_diag.
Qed.

Definition conf_key (o : option Listener) : string := match o with Some c => resolveListenerName c | None => "" end.

(** All listeners are prepared, each in one of the two ways. *)
Definition prepared tx (listeners : list (option Listener)) tx' : Prop :=
  (∀ sw, sw ∈ tx_staged tx → sw ∈ tx_staged tx') ∧ (∀ r, r ∈ tx_refreshes tx → r ∈ tx_refreshes tx') ∧
  (∀ key, key ∈ tx_managed tx' ↔ key ∈ tx_managed tx ∨ key ∈ map conf_key listeners) ∧
  ∀ o, o ∈ listeners → ∃ c, o = Some c ∧
    ((∃ i, (resolveListenerName c, mkWrapper i c) ∈ tx_staged tx') ∨
     ∃ i n, (resolveListenerName c, (i, c, n)) ∈ tx_refreshes tx').

Lemma prepared_cons tx c tx1 listeners tx' :
  let key := resolveListenerName c in
  (∀ sw, sw ∈ tx_staged tx → sw ∈ tx_staged tx1) → (∀ r, r ∈ tx_refreshes tx → r ∈ tx_refreshes tx1) →
  tx_managed tx1 = {[key]} ∪ tx_managed tx →
  (∃ i, (key, mkWrapper i c) ∈ tx_staged tx1) ∨ (∃ i n, (key, (i, c, n)) ∈ tx_refreshes tx1) →
  prepared tx1 listeners tx' → prepared tx (Some c :: listeners) tx'.
Proof.
  intros key H1 H2 H3 H4 (P1 & P2 & P3 & P4). split_and!; [by eauto|by eauto| |].
  - intros k. rewrite P3, H3, elem_of_union, elem_of_singleton. simpl. rewrite elem_of_cons. naive_solver.
  - intros o [->|Ho]%elem_of_cons; [|by apply P4]. exists c. split; [done|].
    destruct H4 as [[i Hi]|(i & n & Hi)]; [left; exists i; by apply P1|right; exists i, n; by apply P2].
Qed.

Lemma prepare_all_ok m0 m tx listeners m' tx' e :
  tx_ok m0 m tx → prepare_all m tx listeners = (m', tx', e) →
  tx_ok m0 m' tx' ∧ (e = None → prepared tx listeners tx').
Proof.
  revert m tx. induction listeners as [|[c|] listeners IH]; intros m tx T; simpl.
  { intros [= <- <- <-]. split; [done|]. intros _. split_and!; [done..| |].
    - intros key. simpl. split; [by left|]. intros [?|H]; [done|]. by apply not_elem_of_nil in H.
    - intros o H. by apply not_elem_of_nil in H. }
  2: { by intros [= <- <- <-]. }
  set (key := resolveListenerName c). destruct (decide (key ∈ tx_managed tx)) as [|Hk]; [by intros [= <- <- <-]|].
  pose proof (tx_more _ _ _ key T) as T1.
  destruct (lm_active m !! key) as [w|] eqn:Hw.
  - destruct (decide (key ∈ lm_xdsManaged m)) as [Hx|]; [|by intros [= <- <- <-]].
    destruct (lm_services m !! wr_service w) as [s|]; [|by intros [= <- <- <-]].
    destruct (sv_transactional s); [|by intros [= <- <- <-]].
    destruct (prepares _ _); [|intros [= <- <- <-]; split; [by apply tx_tick|done]].
    intros H. apply IH in H as [T' HP]; [|by apply tx_tick, tx_refresh]. split; [done|]. intros He.
    eapply prepared_cons; [..|exact (HP He)]; simpl; [done| |done|].
    + intros r Hr. apply elem_of_app. by left.
    + right. exists (wr_service w), (length (lm_chains m)). apply elem_of_app. right. by apply list_elem_of_singleton.
  - pose proof (create_spec m c) as Hc. destruct (createListenerServiceSafely m c) as [m1 [i|]].
    + destruct Hc as (-> & a & b & ->). intros H. apply IH in H as [T' HP]; [|by apply tx_tick, tx_stage].
      split; [done|]. intros He. eapply prepared_cons; [..|exact (HP He)]; simpl; [|done|done|].
      * intros sw Hsw. apply elem_of_app. by left.
      * left. exists (length (lm_services m)). apply elem_of_app. right. by apply list_elem_of_singleton.
    + subst m1. intros [= <- <- <-]. split; [by apply tx_tick|done].
Qed.

Lemma core_lookup m m' i : core_eq m m' → core <$> lm_services m' !! i = core <$> lm_services m !! i.
Proof. intros C. by rewrite <- !list_lookup_fmap, (core_services _ _ C). Qed.

Lemma core_lookup_Some m m' i s :
  core_eq m m' → lm_services m !! i = Some s → ∃ s', lm_services m' !! i = Some s' ∧ core s' = core s.
Proof.
  intros C Hi. pose proof (core_lookup m m' i C) as H. rewrite Hi in H.
  destruct (lm_services m' !! i) as [s'|]; [|done]. exists s'. split; [done|]. simpl in H. congruence.
Qed.

Lemma sum_core (l l' : list service) n :
  core <$> l = core <$> l' → sum_list_with (chain_owner n) l = sum_list_with (chain_owner n) l'.
Proof.
  revert l'. induction l as [|s l IH]; intros [|s' l']; try done. intros H. injection H as Hcfg Hst Htr Hcl Hch Hl. simpl.
  rewrite (IH l' Hl). unfold chain_owner. by rewrite Hcl, Hch.
Qed.

Lemma core_count m m' n : core_eq m m' → chain_count m' n = chain_count m n ∧ chain_made m' n = chain_made m n.
Proof.
  intros C. unfold chain_count, chain_made. rewrite (core_closed _ _ C), (core_chains _ _ C). split; [|done]. f_equal.
  apply sum_core, C.
Qed.

Lemma tx_core m0 m m' tx : tx_ok m0 m tx → core_eq m m' → tx_ok m0 m' tx.
Proof.
  intros T C. split; try apply T.
  - rewrite (core_active _ _ C). apply T.
  - rewrite (core_managed _ _ C). apply T.
  - rewrite (core_closed _ _ C). apply T.
  - intros i s Hi. rewrite (core_lookup m m' i C). by apply (t_old _ _ _ T).
  - rewrite <- (length_fmap core (lm_services m')), (core_services _ _ C), length_fmap. apply T.
  - intros key w H. destruct (t_staged _ _ _ T key w H) as (? & ? & ? & s & Hs & Hc & Hch).
    split_and!; [done..|]. destruct (core_lookup_Some _ _ _ _ C Hs) as (s' & Hs' & Hcore).
    exists s'. injection Hcore as _ _ _ Hcl Hchain. rewrite (core_chains _ _ C), Hcl, Hchain. done.
  - intros key i c n H. rewrite (core_chains _ _ C). by apply (t_refreshes _ _ _ T).
  - intros n. destruct (core_count m m' n C) as [-> ->]. apply (t_chains _ _ _ T).
Qed.

(** ** Closing services *)

Definition close_if (b : bool) (s : service) : service := if b then if sv_closed s then s else shut s else s.

Lemma close_all_lookup m ids j :
  lm_services (foldl closeListenerServiceSafely m ids) !! j =
    close_if (bool_decide (j ∈ ids)) <$> lm_services m !! j.
Proof.
  revert m. induction ids as [|i ids IH]; intros m; cbn [foldl].
  { rewrite bool_decide_eq_false_2 by apply not_elem_of_nil. by destruct (lm_services m !! j). }
  rewrite IH. destruct (decide (i = j)) as [->|Hne].
  - rewrite (bool_decide_eq_true_2 (j ∈ j :: ids)) by constructor. unfold closeListenerServiceSafely.
    destruct (lm_services m !! j) as [s|] eqn:Hj; [|by rewrite Hj].
    destruct (sv_closed s) eqn:Hc; [rewrite Hj|simpl; rewrite list_lookup_insert_eq by (by eapply lookup_lt_Some)];
      simpl; unfold close_if; rewrite ?Hc; by destruct (bool_decide _).
  - rewrite close_other by done. f_equal. f_equal. apply bool_decide_ext. rewrite elem_of_cons. naive_solver.
Qed.

Lemma close_count m i n : chain_count (closeListenerServiceSafely m i) n = chain_count m n.
Proof.
  unfold closeListenerServiceSafely. destruct (lm_services m !! i) as [s|] eqn:Hi; [|done].
  destruct (sv_closed s) eqn:Hc; [done|]. unfold chain_count. simpl. rewrite occurs_app, occurs_cons, occurs_nil.
  pose proof (sum_list_with_insert (chain_owner n) _ _ (shut s) _ Hi) as H.
  unfold chain_owner in H at 2 4. rewrite Hc in H. simpl in H. lia.
Qed.

Record same_table m m' : Prop := mkSameTable {
  same_active : lm_active m' = lm_active m;
  same_xds : lm_xdsManaged m' = lm_xdsManaged m;
  same_chains : lm_chains m' = lm_chains m;
}.

Lemma close_all_same m ids : same_table m (foldl closeListenerServiceSafely m ids).
Proof.
  revert m. induction ids as [|i ids IH]; intros m; simpl; [done|].
  assert (same_table m (closeListenerServiceSafely m i)) as [H1 H2 H3].
  { unfold closeListenerServiceSafely. destruct (lm_services m !! i) as [s|]; [|done]. by destruct (sv_closed s). }
  destruct (IH (closeListenerServiceSafely m i)) as [H4 H5 H6]. split; congruence.
Qed.

Lemma close_all_count m ids n : chain_count (foldl closeListenerServiceSafely m ids) n = chain_count m n.
Proof. revert m. induction ids as [|i ids IH]; intros m; simpl; [done|]. by rewrite IH, close_count. Qed.

Lemma close_chains_spec m l :
  let m' := foldl close_chain m l in
  same_table m m' ∧ lm_services m' = lm_services m ∧ ∀ n, chain_count m' n = chain_count m n + occurs n l.
Proof.
  revert m. induction l as [|k l IH]; intros m; simpl.
  { split_and!; [done..|]. intros n. rewrite occurs_nil. lia. }
  destruct (IH (close_chain m k)) as ([H1 H2 H3] & H4 & H5). split_and!; [by split|done|].
  intros n. rewrite H5. unfold chain_count. simpl. rewrite occurs_app, !occurs_cons, occurs_nil. lia.
Qed.

Lemma foldl_along {A B C} (f : C → B → C) (g : A → B) (z : C) (l : list A) :
  foldl (λ z x, f z (g x)) z l = foldl f z (map g l).
Proof. revert z. induction l as [|x l IH]; intros z; simpl; [done|]. apply IH. Qed.

Lemma staged_id m0 m tx i :
  tx_ok m0 m tx → i ∈ map (λ sw, wr_service sw.2) (order (tx_staged tx)) ↔
    length (lm_services m0) ≤ i < length (lm_services m).
Proof.
  intros T. assert (map (λ sw : string * wrapper, wr_service sw.2) (order (tx_staged tx)) ≡ₚ
    map (λ sw, wr_service sw.2) (tx_staged tx)) as -> by (by rewrite order_perm).
  rewrite (t_ids _ _ _ T), elem_of_seq, (t_len _ _ _ T). done.
Qed.

Lemma abort_services m0 m tx i :
  tx_ok m0 m tx →
  lm_services (abort m tx) !! i =
    close_if (bool_decide (length (lm_services m0) ≤ i < length (lm_services m))) <$> lm_services m !! i.
Proof.
  intros T. unfold abort. rewrite (foldl_along close_chain (λ r : string * (nat * Listener * nat), r.2.2)).
  rewrite (foldl_along closeListenerServiceSafely (λ sw : string * wrapper, wr_service sw.2)), close_all_lookup.
  destruct (close_chains_spec m (map (λ r, r.2.2) (tx_refreshes tx))) as (_ & -> & _).
  f_equal. f_equal. apply bool_decide_ext. by apply staged_id.
Qed.

(** What was prepared is gone, and the table is as before. *)
Lemma abort_ok m0 m tx :
  wf m0 → tx_ok m0 m tx →
  lm_active (abort m tx) = lm_active m0 ∧ lm_xdsManaged (abort m tx) = lm_xdsManaged m0 ∧
  (∀ i s, lm_services m0 !! i = Some s → lm_services (abort m tx) !! i = lm_services m !! i) ∧ wf (abort m tx).
Proof.
  intros W T.
  assert (∀ i s, lm_services m0 !! i = Some s → lm_services (abort m tx) !! i = lm_services m !! i) as Hold.
  { intros i s Hi. rewrite (abort_services m0) by done. apply lookup_lt_Some in Hi.
    rewrite bool_decide_eq_false_2 by lia. by destruct (lm_services m !! i). }
  assert (∀ i s, lm_services m0 !! i = Some s → ∃ s', lm_services (abort m tx) !! i = Some s' ∧ sv_closed s' = sv_closed s) as Hold'.
  { intros i s Hi. rewrite (Hold i s Hi). pose proof (t_old _ _ _ T i s Hi) as Hc.
    destruct (lm_services m !! i) as [s'|]; [|done]. exists s'. split; [done|]. by injection Hc. }
  assert (same_table m (abort m tx) ∧ ∀ n, chain_count (abort m tx) n = chain_count m n +
    occurs n (map (λ r, r.2.2) (tx_refreshes tx))) as [[Ha Hx Hc] Hn].
  { unfold abort. rewrite (foldl_along close_chain (λ r : string * (nat * Listener * nat), r.2.2)).
    rewrite (foldl_along closeListenerServiceSafely (λ sw : string * wrapper, wr_service sw.2)).
    destruct (close_chains_spec m (map (λ r, r.2.2) (tx_refreshes tx))) as ([H1 H2 H3] & _ & H4).
    destruct (close_all_same (foldl close_chain m (map (λ r, r.2.2) (tx_refreshes tx)))
      (map (λ sw : string * wrapper, wr_service sw.2) (order (tx_staged tx)))) as [H5 H6 H7].
    split; [split; congruence|]. intros n. by rewrite close_all_count, H4. }
  rewrite (t_active _ _ _ T) in Ha. rewrite (t_xds _ _ _ T) in Hx.
  split_and!; [done..|]. split; rewrite ?Ha, ?Hx; try apply W.
  - intros key w Hw. destruct (wf_ids m0 W key w Hw) as (Hk & s & Hs & Hcl). split; [done|].
    destruct (Hold' _ _ Hs) as (s' & Hs' & Hcl'). exists s'. split; [done|]. congruence.
  - intros i s Hi Hcl. destruct (lm_services m0 !! i) as [s0|] eqn:H0.
    + destruct (Hold' _ _ H0) as (s' & Hs' & Hcl'). apply (wf_live m0 W i s0 H0). congruence.
    + rewrite (abort_services m0) in Hi by done. apply lookup_ge_None in H0.
      destruct (lm_services m !! i) as [s1|] eqn:H1; [|done]. apply lookup_lt_Some in H1.
      rewrite bool_decide_eq_true_2 in Hi by lia. injection Hi as <-. unfold close_if in Hcl.
      destruct (sv_closed s1) eqn:E; [congruence|done].
  - intros n. rewrite Hn. unfold chain_made. rewrite Hc. apply (t_chains _ _ _ T).
Qed.

(** ** Handoffs *)

Lemma prepare_all_prefix m tx listeners m' tx' e :
  prepare_all m tx listeners = (m', tx', e) → ∃ more, lm_services m' = lm_services m ++ more.
Proof.
  revert m tx. induction listeners as [|[c|] listeners IH]; intros m tx; simpl.
  { intros [= <- <- <-]. exists []. by rewrite app_nil_r. }
  2: { intros [= <- <- <-]. exists []. by rewrite app_nil_r. }
  assert (∃ more, lm_services m = lm_services m ++ more) as Hid by (exists []; by rewrite app_nil_r).
  destruct (decide _); [by intros [= <- <- <-]|]. destruct (lm_active m !! _) as [w|].
  - destruct (decide _); [|by intros [= <- <- <-]]. destruct (lm_services m !! _) as [s|]; [|by intros [= <- <- <-]].
    destruct (sv_transactional s); [|by intros [= <- <- <-]]. destruct (prepares _ _); [|by intros [= <- <- <-]].
    intros [more Hm]%IH. by exists more.
  - pose proof (create_spec m c) as Hc. destruct (createListenerServiceSafely m c) as [m1 [i|]].
    + destruct Hc as (-> & a & b & ->). intros [more Hm]%IH. simpl in Hm. rewrite <- app_assoc in Hm. by eexists.
    + subst m1. by intros [= <- <- <-].
Qed.

Lemma find_handoffs_ok m managed pairs handoffs result :
  find_handoffs m managed pairs handoffs = inl result →
  ∀ old new, result !! old = Some new → handoffs !! old = Some new ∨
    ∃ next w, ((new, next), old) ∈ pairs ∧ lm_active m !! old = Some w ∧ stoppable m (wr_service w) = true ∧
      (old ∉ managed).
Proof.
  revert handoffs. induction pairs as [|[[nk next] ok] pairs IH]; intros handoffs; simpl.
  { intros [= <-] old new H. by left. }
  assert (∀ h', (∀ o n, h' !! o = Some n → handoffs !! o = Some n ∨
      ∃ next' w, ((n, next'), o) ∈ ((nk, next), ok) :: pairs ∧ lm_active m !! o = Some w ∧ stoppable m (wr_service w) = true ∧
        (o ∉ managed)) →
    find_handoffs m managed pairs h' = inl result →
    ∀ old new, result !! old = Some new → handoffs !! old = Some new ∨
      ∃ next' w, ((new, next'), old) ∈ ((nk, next), ok) :: pairs ∧ lm_active m !! old = Some w ∧
        stoppable m (wr_service w) = true ∧ (old ∉ managed)) as Hgo.
  { intros h' Hh' H old new Hr. destruct (IH h' H old new Hr) as [?|(next' & w & Hin & ? & ? & ?)]; [by apply Hh'|].
    right. exists next', w. split_and!; [by constructor|done..]. }
  destruct (decide (ok ∈ managed)); [apply Hgo; by left|].
  destruct (lm_active m !! ok) as [w|] eqn:Hw; [|apply Hgo; by left].
  destruct (isHTTPProtocolHandoff _ _); [|apply Hgo; by left].
  destruct (stoppable m (wr_service w)) eqn:Hs; simpl; [|done]. destruct (stoppable m (wr_service next)); simpl; [|done].
  destruct (handoffs !! ok) eqn:Hok; [done|]. apply Hgo. intros o nw [[<- <-]|[_ ?]]%lookup_insert_Some; [right|by left].
  exists next, w. split_and!; [constructor|done..].
Qed.

Lemma start_staged_other m skip staged j :
  (∀ key w, (key, w) ∈ staged → wr_service w ≠ j) →
  lm_services (start_staged m skip staged).1 !! j = lm_services m !! j.
Proof.
  revert m. induction staged as [|[key w] staged IH]; intros m Hj; simpl; [done|].
  assert (∀ k w', (k, w') ∈ staged → wr_service w' ≠ j) as Hj' by (intros k w' H; apply (Hj k); by constructor).
  destruct (decide (key ∈ skip)); [by apply IH|].
  assert (wr_service w ≠ j) as Hne by (apply (Hj key); constructor).
  pose proof (start_other m (wr_service w) j Hne) as Hs.
  destruct (startListenerServiceSafely m (wr_service w)) as [m1 []]; simpl in *; [|done]. by rewrite IH.
Qed.

Lemma staged_new m0 m tx key w : tx_ok m0 m tx → (key, w) ∈ tx_staged tx → lm_services m0 !! wr_service w = None.
Proof.
  intros T Hin. apply lookup_ge_None. apply (staged_id m0 m tx (wr_service w) T).
  apply (list_elem_of_fmap_2' (λ sw : string * wrapper, wr_service sw.2) _ (key, w)); [by rewrite order_perm|done].
Qed.

(** All listeners of xDS are open. *)
Definition all_up m : Prop :=
  ∀ key w, key ∈ lm_xdsManaged m → lm_active m !! key = Some w → ∃ s, lm_services m !! wr_service w = Some s ∧ up s.

Lemma handoff_list_ok m0 m tx handoffs m1 :
  wf m0 → all_up m0 → tx_ok m0 m tx → (∀ i s, lm_services m0 !! i = Some s → lm_services m !! i = Some s) →
  find_handoffs m (tx_managed tx) (order (list_prod (tx_staged tx) (elements (lm_xdsManaged m)))) ∅ = inl handoffs →
  lm_active m1 = lm_active m0 →
  (∀ o n, (o, n) ∈ map (λ p, (p.1.2, p.2.2)) (handoff_list m1 (tx_staged tx) handoffs) → handoff_ok m0 o n) ∧
  NoDup (map (snd ∘ fst) (handoff_list m1 (tx_staged tx) handoffs)).
Proof.
  intros W U T Hold Hf Ha. split.
  - intros o n ([[ok o'] [nk n']] & [= -> ->] & Hin)%list_elem_of_fmap. unfold handoff_list in Hin.
    apply list_elem_of_omap in Hin as (key & _ & Hin). destruct (handoffs !! key) as [new|] eqn:Hk; [|done]. simpl in Hin.
    destruct (lm_active m1 !! key) as [w|] eqn:Hw; [|done]. simpl in Hin.
    destruct (first_such _ _) as [[k2 w2]|] eqn:Hs; [|done]. simplify_eq/=. rewrite Ha in Hw.
    destruct (find_handoffs_ok _ _ _ _ _ Hf _ _ Hk) as [?|(next & w' & Hin & Hw' & Hst & _)]; [done|].
    rewrite order_perm in Hin. apply list_elem_of_In, in_prod_iff in Hin as [_ Hx%list_elem_of_In%elem_of_elements].
    rewrite (t_active _ _ _ T) in Hw'. rewrite (t_xds _ _ _ T) in Hx. rewrite Hw in Hw'. injection Hw' as <-.
    destruct (U _ w Hx Hw) as (s & Hs0 & Hup). split.
    + exists s. split_and!; [done..|]. unfold stoppable in Hst. by rewrite (Hold _ _ Hs0) in Hst.
    + apply first_such_Some in Hs as [Hin _]. by eapply staged_new.
  - unfold handoff_list. pose proof (merge_sort_Permutation String.le (elements (dom handoffs))) as Hp.
    assert (NoDup (merge_sort String.le (elements (dom handoffs)))) as Hnd by (rewrite Hp; apply NoDup_elements).
    clear Hp. induction Hnd as [|key l Hkey Hnd IH]; [constructor|]. simpl.
    destruct (handoffs !! key) as [new|]; [|done]. simpl. destruct (lm_active m1 !! key) as [w|] eqn:Hw; [|done]. simpl.
    destruct (first_such _ _) as [[k2 w2]|]; [|done]. simpl. constructor; [|done].
    intros ([[ok o'] [nk n']] & Heq & Hin)%list_elem_of_fmap. simpl in Heq.
    apply list_elem_of_omap in Hin as (key' & Hin' & Hin). destruct (handoffs !! key') as [new'|]; [|done]. simpl in Hin.
    destruct (lm_active m1 !! key') as [w'|] eqn:Hw'; [|done]. simpl in Hin.
    destruct (first_such _ _) as [[k3 w3]|]; [|done]. simpl in Hin. injection Hin as _ Ho _ _. rewrite Ha in Hw, Hw'.
    assert (wr_service w = wr_service w') as Hsame by congruence.
    pose proof (wf_inj m0 W _ _ _ _ Hw Hw' Hsame) as ->. done.
Qed.

(** The old side of a handoff is a listener of xDS that is to go. *)
Lemma handoff_list_old m0 m tx handoffs m1 ok o nk n :
  tx_ok m0 m tx →
  find_handoffs m (tx_managed tx) (order (list_prod (tx_staged tx) (elements (lm_xdsManaged m)))) ∅ = inl handoffs →
  lm_active m1 = lm_active m0 → ((ok, o), (nk, n)) ∈ handoff_list m1 (tx_staged tx) handoffs →
  ∃ key w, key ∈ lm_xdsManaged m0 ∧ (key ∉ tx_managed tx) ∧ lm_active m0 !! key = Some w ∧ wr_service w = o.
Proof.
  intros T Hf Ha Hin. unfold handoff_list in Hin.
  apply list_elem_of_omap in Hin as (key & _ & Hin). destruct (handoffs !! key) as [new|] eqn:Hk; [|done]. simpl in Hin.
  destruct (lm_active m1 !! key) as [w|] eqn:Hw; [|done]. simpl in Hin.
  destruct (first_such _ _) as [[k2 w2]|] eqn:Hs; [|done]. simpl in Hin. injection Hin as _ <- _ _. rewrite Ha in Hw.
  destruct (find_handoffs_ok _ _ _ _ _ Hf _ _ Hk) as [?|(next & w' & Hin & _ & _ & Hm)]; [done|].
  rewrite order_perm in Hin. apply list_elem_of_In, in_prod_iff in Hin as [_ Hx%list_elem_of_In%elem_of_elements].
  rewrite (t_xds _ _ _ T) in Hx. by exists key, w.
Qed.

(** ** The commit, phase by phase *)

Lemma remove_fold m keys :
  let m' := foldl remove_one m keys in
  core_eq (set_active m (lm_active m')) m' ∧
  (∀ k, lm_active m' !! k = if decide (k ∈ keys) then None else lm_active m !! k) ∧
  (∀ j, (∀ k w, k ∈ keys → lm_active m !! k = Some w → wr_service w ≠ j) → lm_services m' !! j = lm_services m !! j).
Proof.
  revert m. induction keys as [|key keys IH]; intros m; cbn [foldl].
  { split_and!; [by split| |done]. intros k. by rewrite decide_False by apply not_elem_of_nil. }
  destruct (IH (remove_one m key)) as (C & Ha & Hs). cbv zeta. split_and!.
  - destruct C as [C1 C2 C3 C4 C5]. split; simpl in *; unfold remove_one in *;
      destruct (lm_active m !! key) as [w|]; simpl in *; try done.
    rewrite C5. by apply core_alter.
  - intros k. rewrite Ha. assert (lm_active (remove_one m key) !! k = if decide (k = key) then None else lm_active m !! k) as ->.
    { unfold remove_one. destruct (lm_active m !! key) as [w|] eqn:Hw; simpl; destruct (decide (k = key)) as [->|]; try done;
        [apply lookup_delete_eq|by apply lookup_delete_ne]. }
    destruct (decide (k ∈ keys)) as [H1|H1], (decide (k ∈ key :: keys)) as [H2|H2], (decide (k = key)) as [H3|H3]; try done.
    all: exfalso; first [apply H2; by right|apply H2; subst k; by left|by apply elem_of_cons in H2 as [?|?]].
  - intros j Hj. rewrite Hs.
    + unfold remove_one. destruct (lm_active m !! key) as [w|] eqn:Hw; [|done]. simpl.
      rewrite list_lookup_alter, decide_False; [done|]. eapply Hj; [constructor|done].
    + intros k w Hk. unfold remove_one. destruct (lm_active m !! key) as [w'|] eqn:Hw; simpl.
      * intros [_ H]%lookup_delete_Some. eapply Hj; [by constructor|done].
      * intros H. eapply Hj; [by constructor|done].
Qed.

Lemma commit_refreshes_spec m rs retired0 m' retired :
  commit_refreshes m rs retired0 = (m', retired) → NoDup (map fst rs) → NoDup (map (λ r, r.2.1.1) rs) →
  (∀ key i c n, (key, (i, c, n)) ∈ rs → ∃ s, lm_services m !! i = Some s ∧ sv_closed s = false) →
  (∀ key i c n w, (key, (i, c, n)) ∈ rs → lm_active m !! key = Some w →
     lm_active m' !! key = Some (mkWrapper (wr_service w) c)) ∧
  (∀ key, key ∉ map fst rs → lm_active m' !! key = lm_active m !! key) ∧
  (∀ key i c n, (key, (i, c, n)) ∈ rs → lm_services m' !! i = with_chain n <$> lm_services m !! i) ∧
  (∀ j, j ∉ map (λ r, r.2.1.1) rs → lm_services m' !! j = lm_services m !! j) ∧
  lm_chains m' = lm_chains m ∧ lm_closed m' = lm_closed m ∧
  ∀ n, chain_count m' n + occurs n retired =
    chain_count m n + occurs n retired0 + occurs n (map (λ r, r.2.2) rs).
Proof.
  revert m retired0. induction rs as [|[key [[i c] n]] rs IH]; intros m retired0; simpl.
  { intros [= <- <-] _ _ _. split_and!; try done; try (by intros * ?%not_elem_of_nil). }
  intros H [Hk Hks]%NoDup_cons [Hi His]%NoDup_cons Hall.
  destruct (Hall key i c n) as (s & Hs & Hcl); [constructor|]. rewrite Hs in H.
  apply IH in H as (H1 & H2 & H3 & H4 & H5 & H6 & H7); [|done|done|].
  2: { intros k j c' n' Hin. simpl. destruct (Hall k j c' n') as (s' & Hs' & ?); [by constructor|].
       exists s'. rewrite list_lookup_alter, decide_False; [done|]. intros ->. apply Hi.
       apply list_elem_of_fmap. by exists (k, (j, c', n')). }
  simpl in *. split_and!; [| | | |done|done|].
  - intros k j c' n' w [[= -> -> -> ->]|Hin]%elem_of_cons Hw.
    + rewrite H2 by done. by rewrite lookup_alter_eq, Hw.
    + apply (H1 _ _ _ _ w Hin). rewrite lookup_alter_ne; [done|]. intros ->. apply Hk.
      apply list_elem_of_fmap. by exists (k, (j, c', n')).
  - intros k [Hne Hni]%not_elem_of_cons. rewrite H2 by done. by rewrite lookup_alter_ne.
  - intros k j c' n' [[= -> -> -> ->]|Hin]%elem_of_cons.
    + rewrite H4 by done. by rewrite list_lookup_alter, decide_True.
    + rewrite (H3 _ _ _ _ Hin), list_lookup_alter, decide_False; [done|]. intros ->. apply Hi.
      apply list_elem_of_fmap. by exists (k, (j, c', n')).
  - intros j [Hne Hni]%not_elem_of_cons. rewrite H4 by done. by rewrite list_lookup_alter, decide_False.
  - intros x. specialize (H7 x). rewrite occurs_app, !occurs_cons, occurs_nil in *. unfold chain_count in *. simpl in *.
    assert (alter (with_chain n) i (lm_services m) = <[i := with_chain n s]> (lm_services m)) as Heq.
    { apply list_eq. intros j. rewrite list_lookup_alter. destruct (decide (i = j)) as [->|].
      - rewrite list_lookup_insert_eq by (by eapply lookup_lt_Some). by rewrite Hs.
      - by rewrite list_lookup_insert_ne. }
    rewrite Heq in H7. pose proof (sum_list_with_insert (chain_owner x) _ _ (with_chain n s) _ Hs) as Hsum.
    unfold chain_owner in Hsum at 2 4. simpl in Hsum. rewrite Hcl in Hsum. lia.
Qed.

Lemma publish_fold m staged :
  NoDup (map fst staged) → NoDup (map (λ sw, wr_service sw.2) staged) →
  let m' := foldl publish_one m staged in
  (∀ key w, (key, w) ∈ staged → lm_active m' !! key = Some w) ∧
  (∀ key, key ∉ map fst staged → lm_active m' !! key = lm_active m !! key) ∧
  (∀ key w, (key, w) ∈ staged → lm_services m' !! wr_service w = with_active true <$> lm_services m !! wr_service w) ∧
  (∀ j, j ∉ map (λ sw, wr_service sw.2) staged → lm_services m' !! j = lm_services m !! j) ∧
  lm_chains m' = lm_chains m ∧ lm_closed m' = lm_closed m ∧ core <$> lm_services m' = core <$> lm_services m.
Proof.
  revert m. induction staged as [|[key w] staged IH]; intros m; cbn [foldl map].
  { intros _ _. split_and!; try done; by intros * ?%not_elem_of_nil. }
  intros [Hk Hks]%NoDup_cons [Hi His]%NoDup_cons.
  destruct (IH (publish_one m (key, w)) Hks His) as (H1 & H2 & H3 & H4 & H5 & H6 & H7). simpl in *. split_and!.
  - intros k w' [[= -> ->]|Hin]%elem_of_cons; [|by apply H1]. rewrite H2 by done. apply lookup_insert_eq.
  - intros k [Hne Hni]%not_elem_of_cons. rewrite H2 by done. by apply lookup_insert_ne.
  - intros k w' [[= -> ->]|Hin]%elem_of_cons.
    + rewrite H4 by done. by rewrite list_lookup_alter, decide_True.
    + rewrite (H3 _ _ Hin), list_lookup_alter, decide_False; [done|]. intros Heq. apply Hi. rewrite Heq.
      apply (list_elem_of_fmap_2 (λ sw : string * wrapper, wr_service sw.2)) in Hin. done.
  - intros j [Hne Hni]%not_elem_of_cons. rewrite H4 by done. by rewrite list_lookup_alter, decide_False.
  - done.
  - done.
  - rewrite H7. by apply core_alter.
Qed.

Lemma refresh_nodup m0 m tx :
  wf m0 → tx_ok m0 m tx →
  NoDup (map fst (tx_refreshes tx)) ∧ NoDup (map (λ r, r.2.1.1) (tx_refreshes tx)) ∧
  NoDup (map fst (tx_staged tx)) ∧ NoDup (map (λ sw, wr_service sw.2) (tx_staged tx)).
Proof.
  intros W T. pose proof (t_keys _ _ _ T) as Hk. apply NoDup_app in Hk as (Hs & _ & Hr).
  split_and!; [done| |done|rewrite (t_ids _ _ _ T); apply NoDup_seq].
  pose proof (t_refreshes _ _ _ T) as Href. clear -W Hr Href.
  induction (tx_refreshes tx) as [|[key [[i c] n]] rs IH]; [constructor|]. simpl in *.
  apply NoDup_cons in Hr as [Hk Hr]. constructor; [|apply IH; [done|]; intros k j c' n' Hin; apply Href; by constructor].
  intros ([k [[j c'] n']] & Heq & Hin)%list_elem_of_fmap. simpl in Heq. subst j. apply Hk.
  destruct (Href key i c n) as (_ & _ & _ & (w & Hw & Hwi) & _); [constructor|].
  destruct (Href k i c' n') as (_ & _ & _ & (w' & Hw' & Hwi') & _); [by constructor|].
  rewrite (wf_inj m0 W key k w w' Hw Hw'); [|congruence]. apply list_elem_of_fmap. by exists (k, (i, c', n')).
Qed.

(** The services of the listeners that go. *)
Definition leaves m0 (tx : transaction) (i : nat) : Prop :=
  ∃ key w, key ∈ lm_xdsManaged m0 ∧ (key ∉ tx_managed tx) ∧ lm_active m0 !! key = Some w ∧ wr_service w = i.

Lemma leaves_apart m0 m tx :
  wf m0 → tx_ok m0 m tx → ∀ i, leaves m0 tx i →
  (i ∉ map (λ r, r.2.1.1) (tx_refreshes tx)) ∧ (i ∉ map (λ sw, wr_service sw.2) (tx_staged tx)) ∧
  is_Some (lm_services m0 !! i).
Proof.
  intros W T i (key & w & Hx & Hm & Hw & Hwi). split_and!.
  - intros ([k [[j c] n]] & -> & Hin)%list_elem_of_fmap. simpl in *.
    destruct (t_refreshes _ _ _ T _ _ _ _ Hin) as (_ & _ & Hk & (w' & Hw' & Hwi') & _).
    assert (key = k) as -> by (eapply (wf_inj m0 W); [exact Hw|exact Hw'|congruence]). done.
  - intros ([k w'] & -> & Hin)%list_elem_of_fmap. simpl in *. pose proof (staged_new _ _ _ _ _ T Hin) as Hn.
    destruct (wf_ids m0 W key w Hw) as (_ & s & Hs & _). congruence.
  - destruct (wf_ids m0 W key w Hw) as (_ & s & Hs & _). rewrite <- Hwi. by eexists.
Qed.

Lemma refresh_old m0 m tx :
  wf m0 → tx_ok m0 m tx → ∀ i, i ∈ map (λ r, r.2.1.1) (tx_refreshes tx) →
  (i ∉ map (λ sw, wr_service sw.2) (tx_staged tx)) ∧ ∃ s, lm_services m !! i = Some s ∧ sv_closed s = false.
Proof.
  intros W T i ([k [[j c] n]] & -> & Hin)%list_elem_of_fmap. simpl.
  destruct (t_refreshes _ _ _ T _ _ _ _ Hin) as (_ & _ & _ & (w & Hw & <-) & _).
  destruct (wf_ids m0 W k w Hw) as (_ & s & Hs & Hcl). split.
  - intros ([k' w'] & Heq & Hin')%list_elem_of_fmap. simpl in *. pose proof (staged_new _ _ _ _ _ T Hin'). congruence.
  - pose proof (t_old _ _ _ T _ _ Hs) as Hc. destruct (lm_services m !! wr_service w) as [s'|]; [|done].
    exists s'. split; [done|]. injection Hc as _ _ _ Hcl' _. congruence.
Qed.

(** The table after the commit; what [services] are depends on whether the old
    ones are closed already. *)
Record published m0 m (tx : transaction) m' : Prop := mkPublished {
  c_xds : lm_xdsManaged m' = tx_managed tx;
  c_chains : lm_chains m' = lm_chains m;
  c_staged : ∀ key w, (key, w) ∈ tx_staged tx → lm_active m' !! key = Some w ∧
    lm_services m' !! wr_service w = with_active true <$> lm_services m !! wr_service w;
  c_refreshed : ∀ key i c n, (key, (i, c, n)) ∈ tx_refreshes tx → lm_active m' !! key = Some (mkWrapper i c) ∧
    lm_services m' !! i = with_chain n <$> lm_services m !! i;
  c_other : ∀ key, key ∉ map fst (tx_staged tx) → key ∉ map fst (tx_refreshes tx) →
    lm_active m' !! key = if decide (key ∈ lm_xdsManaged m0 ∧ (key ∉ tx_managed tx)) then None else lm_active m0 !! key;
  c_stays : ∀ i, (¬ leaves m0 tx i) → i ∉ map (λ r, r.2.1.1) (tx_refreshes tx) →
    i ∉ map (λ sw, wr_service sw.2) (tx_staged tx) → lm_services m' !! i = lm_services m !! i;
}.

(** The keys and services that the first phase removes. *)
Lemma removed_spec m0 m tx :
  tx_ok m0 m tx →
  let keys := order (filter (λ key, key ∉ tx_managed tx) (elements (lm_xdsManaged m))) in
  (∀ key, key ∈ keys ↔ key ∈ lm_xdsManaged m0 ∧ (key ∉ tx_managed tx)) ∧
  (∀ i, i ∈ omap (λ key, wr_service <$> lm_active m !! key) keys ↔ leaves m0 tx i).
Proof.
  intros T keys.
  assert (∀ key, key ∈ keys ↔ key ∈ lm_xdsManaged m0 ∧ (key ∉ tx_managed tx)) as Hkeys.
  { intros key. unfold keys. rewrite order_perm, list_elem_of_filter, elem_of_elements, (t_xds _ _ _ T). tauto. }
  split; [done|]. intros i. rewrite list_elem_of_omap. setoid_rewrite Hkeys. rewrite (t_active _ _ _ T). split.
  - intros (key & [? ?] & Hk). destruct (lm_active m0 !! key) as [w|] eqn:Hw; [|done]. injection Hk as <-. by exists key, w.
  - intros (key & w & ? & ? & Hw & <-). exists key. rewrite Hw. done.
Qed.

Section phases.
Context (m0 m : ListenerManager) (tx : transaction) (W : wf m0) (T : tx_ok m0 m tx).

Let keys : list string := order (filter (λ key, key ∉ tx_managed tx) (elements (lm_xdsManaged m))).
Let mA : ListenerManager := foldl remove_one m keys.
Let mB : ListenerManager := (commit_refreshes mA (tx_refreshes tx) []).1.
Let retired : list nat := (commit_refreshes mA (tx_refreshes tx) []).2.
Let mC : ListenerManager := foldl publish_one mB (order (tx_staged tx)).

Lemma phase_removed i : ¬ leaves m0 tx i → lm_services mA !! i = lm_services m !! i.
Proof.
  intros Hi. apply (remove_fold m keys). intros k w Hk Hw Heq. apply Hi.
  apply (proj1 (removed_spec m0 m tx T)) in Hk as [? ?]. rewrite (t_active _ _ _ T) in Hw. by exists k, w.
Qed.

Lemma phase_refreshed :
  (∀ key i c n w, (key, (i, c, n)) ∈ tx_refreshes tx → lm_active mA !! key = Some w →
     lm_active mB !! key = Some (mkWrapper (wr_service w) c)) ∧
  (∀ key, key ∉ map fst (tx_refreshes tx) → lm_active mB !! key = lm_active mA !! key) ∧
  (∀ key i c n, (key, (i, c, n)) ∈ tx_refreshes tx → lm_services mB !! i = with_chain n <$> lm_services mA !! i) ∧
  (∀ j, j ∉ map (λ r, r.2.1.1) (tx_refreshes tx) → lm_services mB !! j = lm_services mA !! j) ∧
  lm_chains mB = lm_chains mA ∧ lm_closed mB = lm_closed mA ∧
  ∀ n, chain_count mB n + occurs n retired = chain_count mA n + occurs n (map (λ r, r.2.2) (tx_refreshes tx)).
Proof.
  destruct (refresh_nodup m0 m tx W T) as (Nr & Ni & _). pose proof (surjective_pairing (commit_refreshes mA (tx_refreshes tx) [])) as EB.
  destruct (commit_refreshes_spec _ _ _ _ _ EB Nr Ni) as (HB1 & HB2 & HB3 & HB4 & HB5 & HB6 & HB7).
  { intros key i c n Hin. destruct (refresh_old m0 m tx W T i) as [_ (s & Hs & Hcl)].
    { apply list_elem_of_fmap. by exists (key, (i, c, n)). }
    destruct (core_lookup_Some _ _ i s (proj1 (remove_fold m keys))) as (s' & Hs' & Hc); [done|]. exists s'. split; [done|].
    injection Hc as _ _ _ Hcl' _. congruence. }
  split_and!; [done..|]. intros n. specialize (HB7 n). rewrite occurs_nil in HB7. unfold retired. fold mB. fold mB in HB7. lia.
Qed.

Lemma phase_published :
  (∀ key w, (key, w) ∈ tx_staged tx → lm_active mC !! key = Some w) ∧
  (∀ key, key ∉ map fst (tx_staged tx) → lm_active mC !! key = lm_active mB !! key) ∧
  (∀ key w, (key, w) ∈ tx_staged tx → lm_services mC !! wr_service w = with_active true <$> lm_services mB !! wr_service w) ∧
  (∀ j, j ∉ map (λ sw, wr_service sw.2) (tx_staged tx) → lm_services mC !! j = lm_services mB !! j) ∧
  lm_chains mC = lm_chains mB ∧ lm_closed mC = lm_closed mB ∧ core <$> lm_services mC = core <$> lm_services mB.
Proof.
  destruct (refresh_nodup m0 m tx W T) as (_ & _ & Ns & Nsi).
  assert (map fst (order (tx_staged tx)) ≡ₚ map fst (tx_staged tx)) as Pk by (by rewrite order_perm).
  assert (map (λ sw, wr_service sw.2) (order (tx_staged tx)) ≡ₚ map (λ sw, wr_service sw.2) (tx_staged tx)) as Pi
    by (by rewrite order_perm).
  destruct (publish_fold mB (order (tx_staged tx))) as (H1 & H2 & H3 & H4 & H5); [by rewrite Pk|by rewrite Pi|].
  split_and!; [..|apply H5|apply H5|apply H5].
  - intros key w Hin. apply H1. by rewrite order_perm.
  - intros key Hin. apply H2. by rewrite Pk.
  - intros key w Hin. apply (H3 key). by rewrite order_perm.
  - intros j Hj. apply H4. by rewrite Pi.
Qed.

Lemma publish_table : published m0 m tx (set_managed mC (tx_managed tx)).
Proof.
  pose proof (leaves_apart m0 m tx W T) as Hap. pose proof (refresh_old m0 m tx W T) as Hro.
  destruct (removed_spec m0 m tx T) as [Hkeys _]. fold keys in Hkeys.
  destruct (remove_fold m keys) as (CA & HaA & _). fold mA in CA, HaA.
  destruct phase_refreshed as (HB1 & HB2 & HB3 & HB4 & HB5 & _).
  destruct phase_published as (HC1 & HC2 & HC3 & HC4 & HC5 & _).
  split; simpl; [done| | | | |].
  - by rewrite HC5, HB5, (core_chains _ _ CA).
  - intros key w Hin. split; [by apply HC1|]. rewrite (HC3 key w Hin). f_equal.
    assert (wr_service w ∈ map (λ sw, wr_service sw.2) (tx_staged tx)) as Hid
      by (apply list_elem_of_fmap; by exists (key, w)).
    rewrite HB4; [|by intros [H _]%Hro]. apply phase_removed. by intros (_ & H & _)%Hap.
  - intros key i c n Hin. destruct (t_refreshes _ _ _ T _ _ _ _ Hin) as (_ & Hx & Hm & (w & Hw & Hwi) & _).
    assert (i ∈ map (λ r, r.2.1.1) (tx_refreshes tx)) as Hid by (apply list_elem_of_fmap; by exists (key, (i, c, n))).
    split.
    + rewrite HC2.
      * rewrite (HB1 key i c n w Hin); [by rewrite Hwi|]. rewrite HaA, (t_active _ _ _ T).
        rewrite decide_False; [done|]. rewrite Hkeys. tauto.
      * intros Hks. pose proof (t_keys _ _ _ T) as Hnd. apply NoDup_app in Hnd as (_ & Hd & _).
        apply (Hd key Hks). apply list_elem_of_fmap. by exists (key, (i, c, n)).
    + rewrite HC4 by (by apply Hro). rewrite (HB3 _ _ _ _ Hin). f_equal. apply phase_removed. by intros (H & _)%Hap.
  - intros key H1 H2. rewrite HC2, HB2, HaA, (t_active _ _ _ T) by done.
    destruct (decide (key ∈ keys)) as [Hk|Hk], (decide _) as [Hd|Hd]; rewrite Hkeys in Hk; done || tauto.
  - intros i Hi H1 H2. rewrite HC4, HB4 by done. by apply phase_removed.
Qed.

Lemma publish_services i : core <$> lm_services mC !! i = core <$> lm_services mB !! i.
Proof. destruct phase_published as (_ & _ & _ & _ & _ & _ & H). by rewrite <- !list_lookup_fmap, H. Qed.

Lemma publish_count n : chain_count mC n + occurs n retired = chain_made mC n.
Proof.
  destruct (remove_fold m keys) as (CA & _). fold mA in CA. destruct (core_count _ _ n CA) as [HcA HmA].
  destruct phase_refreshed as (_ & _ & _ & _ & HB5 & HB6 & HB7). destruct phase_published as (_ & _ & _ & _ & HC5 & HC6 & HC7).
  assert (chain_count mC n = chain_count mB n) as ->.
  { unfold chain_count. rewrite HC6. f_equal. by apply sum_core. }
  rewrite HB7, HcA. change (chain_count (set_active m _) n) with (chain_count m n). rewrite (t_chains _ _ _ T).
  unfold chain_made in *. by rewrite HC5, HB5, (core_chains _ _ CA).
Qed.

Lemma publish_leaves i : leaves m0 tx i → is_Some (lm_services mC !! i).
Proof.
  intros Hl. destruct (leaves_apart m0 m tx W T i Hl) as (H1 & H2 & [s0 Hs0]).
  pose proof (t_old _ _ _ T i s0 Hs0) as Hc. destruct (lm_services m !! i) as [s|] eqn:Hs; [|done].
  destruct (core_lookup_Some _ _ i s (proj1 (remove_fold m keys))) as (s' & Hs' & _); [done|].
  destruct phase_refreshed as (_ & _ & _ & HB4 & _). destruct phase_published as (_ & _ & _ & HC4 & _).
  rewrite HC4, HB4 by done. by eexists.
Qed.

(** The whole commit. *)
Lemma lm_commit_ok :
  let m' := commit m tx in
  published m0 m tx m' ∧ (∀ i, leaves m0 tx i → ∃ s, lm_services m' !! i = Some s ∧ sv_closed s = true) ∧
  ∀ n, chain_count m' n = chain_made m' n.
Proof.
  unfold commit, publish. fold keys. fold mA. rewrite (surjective_pairing (commit_refreshes mA (tx_refreshes tx) [])).
  fold mB. fold retired. fold mC. destruct (removed_spec m0 m tx T) as [_ Hrem]. fold keys in Hrem.
  set (removed := omap _ keys) in *. set (m1 := set_managed mC (tx_managed tx)).
  destruct (close_chains_spec m1 retired) as ([HD1 HD2 HD3] & HD4 & HD5). set (mD := foldl close_chain m1 retired) in *.
  destruct (close_all_same mD (order removed)) as [HE1 HE2 HE3].
  pose proof (close_all_lookup mD (order removed)) as HEs. pose proof (close_all_count mD (order removed)) as HEc.
  set (mE := foldl closeListenerServiceSafely mD (order removed)) in *.
  assert (∀ i, ¬ leaves m0 tx i → lm_services mE !! i = lm_services mC !! i) as HEn.
  { intros i Hi. rewrite HEs, HD4. rewrite bool_decide_eq_false_2 by (by rewrite order_perm, Hrem).
    simpl. by destruct (lm_services mC !! i). }
  pose proof (leaves_apart m0 m tx W T) as Hap. destruct publish_table as [P1 P2 P3 P4 P5 P6]. fold m1 in P1, P2, P3, P4, P5, P6.
  split_and!; [split|..].
  - by rewrite HE2, HD2.
  - by rewrite HE3, HD3.
  - intros key w Hin. rewrite HE1, HD1. destruct (P3 key w Hin) as [Ha Hs]. split; [done|]. rewrite HEn; [done|].
    intros (_ & H & _)%Hap. apply H. apply list_elem_of_fmap. by exists (key, w).
  - intros key i c n Hin. rewrite HE1, HD1. destruct (P4 key i c n Hin) as [Ha Hs]. split; [done|]. rewrite HEn; [done|].
    intros (H & _)%Hap. apply H. apply list_elem_of_fmap. by exists (key, (i, c, n)).
  - intros key. rewrite HE1, HD1. apply P5.
  - intros i Hi. rewrite HEn by done. by apply P6.
  - intros i Hi. destruct (publish_leaves i Hi) as [s Hs]. rewrite HEs, HD4. simpl. rewrite Hs.
    rewrite bool_decide_eq_true_2 by (by rewrite order_perm, Hrem). eexists. split; [done|]. unfold close_if.
    by destruct (sv_closed s) eqn:E.
  - intros n. rewrite HEc, HD5. unfold chain_made. rewrite HE3, HD3. apply publish_count.
Qed.

(** Where an entry of the new table comes from. *)
Lemma entry_origin key w :
  lm_active (commit m tx) !! key = Some w →
  (key, w) ∈ tx_staged tx ∨
  (∃ n, (key, (wr_service w, wr_config w, n)) ∈ tx_refreshes tx) ∨
  ((key ∉ map fst (tx_refreshes tx)) ∧ lm_active m0 !! key = Some w ∧ ¬ (key ∈ lm_xdsManaged m0 ∧ (key ∉ tx_managed tx))).
Proof.
  destruct lm_commit_ok as ([_ _ P3 P4 P5 _] & _ & _). intros Hw.
  destruct (decide (key ∈ map fst (tx_staged tx))) as [([k w'] & -> & Hin)%list_elem_of_fmap|H1].
  { simpl in *. destruct (P3 _ _ Hin) as [Ha _]. left. congruence. }
  destruct (decide (key ∈ map fst (tx_refreshes tx))) as [([k [[i c] n]] & -> & Hin)%list_elem_of_fmap|H2].
  { simpl in *. destruct (P4 _ _ _ _ Hin) as [Ha _]. right. left. exists n. rewrite Hw in Ha. injection Ha as ->. done. }
  right. right. rewrite P5 in Hw by done. destruct (decide _); done.
Qed.

Lemma kept_service key w :
  (key ∉ map fst (tx_refreshes tx)) → lm_active m0 !! key = Some w → ¬ (key ∈ lm_xdsManaged m0 ∧ (key ∉ tx_managed tx)) →
  lm_services (commit m tx) !! wr_service w = lm_services m !! wr_service w.
Proof.
  intros H2 Hw Hx. destruct lm_commit_ok as ([_ _ _ _ _ P6] & _ & _). apply P6.
  - intros (k & w' & Hk & Hm & Hw' & Heq). apply Hx. by rewrite (wf_inj m0 W key k w w' Hw Hw' (eq_sym Heq)).
  - intros ([k [[i c] n]] & Heq & Hin)%list_elem_of_fmap. simpl in Heq. apply H2.
    destruct (t_refreshes _ _ _ T _ _ _ _ Hin) as (_ & _ & _ & (w' & Hw' & Hwi) & _).
    rewrite (wf_inj m0 W key k w w' Hw Hw') by congruence. apply list_elem_of_fmap. by exists (k, (i, c, n)).
  - intros ([k w'] & Heq & Hin)%list_elem_of_fmap. simpl in Heq. pose proof (staged_new _ _ _ _ _ T Hin) as Hn.
    destruct (wf_ids m0 W key w Hw) as (_ & s & Hs & _). congruence.
Qed.

(** The service of an entry that is not new is that of its key before. *)
Lemma entry_service key w :
  lm_active (commit m tx) !! key = Some w →
  ((key, w) ∈ tx_staged tx ∧ lm_services m0 !! wr_service w = None) ∨
  ∃ w0, lm_active m0 !! key = Some w0 ∧ wr_service w0 = wr_service w ∧ is_Some (lm_services m0 !! wr_service w).
Proof.
  intros [Hin|[[n Hin]|(_ & Hw & _)]]%entry_origin.
  - left. split; [done|]. by eapply staged_new.
  - right. destruct (t_refreshes _ _ _ T _ _ _ _ Hin) as (_ & _ & _ & (w' & Hw' & Hwi) & _). exists w'.
    destruct (wf_ids m0 W _ _ Hw') as (_ & s & Hs & _). rewrite <- Hwi. split_and!; [done..|by eexists].
  - right. exists w. destruct (wf_ids m0 W _ _ Hw) as (_ & s & Hs & _). split_and!; [done..|by eexists].
Qed.

Lemma nodup_map_inj {A} (f : A → nat) (l : list A) x y : NoDup (map f l) → x ∈ l → y ∈ l → f x = f y → x = y.
Proof.
  induction l as [|z l IH]; intros Hnd Hx Hy Hf; [by apply not_elem_of_nil in Hx|]. simpl in Hnd.
  apply NoDup_cons in Hnd as [Hz Hnd].
  apply elem_of_cons in Hx as [->|Hx], Hy as [->|Hy]; [done|..|by apply IH]; exfalso; apply Hz, list_elem_of_fmap; eauto.
Qed.

(** A service that is not closed has its entry. *)
Lemma commit_live i s :
  lm_services (commit m tx) !! i = Some s → sv_closed s = false →
  ∃ key w, lm_active (commit m tx) !! key = Some w ∧ wr_service w = i.
Proof.
  intros Hs Hcl. destruct lm_commit_ok as ([P1 P2 P3 P4 P5 P6] & Hleft & _).
  destruct (decide (i ∈ map (λ r, r.2.1.1) (tx_refreshes tx))) as [([k [[j c] n]] & -> & Hin)%list_elem_of_fmap|H1].
  { destruct (P4 _ _ _ _ Hin) as [Ha _]. by exists k, (mkWrapper j c). }
  destruct (decide (i ∈ map (λ sw, wr_service sw.2) (tx_staged tx))) as [([k w] & -> & Hin)%list_elem_of_fmap|H2].
  { destruct (P3 _ _ Hin) as [Ha _]. by exists k, w. }
  assert (¬ leaves m0 tx i) as H3 by (intros (s' & Hs' & Hc')%Hleft; congruence).
  rewrite P6 in Hs by done. destruct (lm_services m0 !! i) as [s0|] eqn:Hs0.
  - pose proof (t_old _ _ _ T i s0 Hs0) as Hc. rewrite Hs in Hc. injection Hc as _ _ _ Hcl' _.
    destruct (wf_live m0 W i s0 Hs0) as (key & w & Hw & Hwi); [congruence|]. exists key, w. split; [|done].
    rewrite P5.
    + rewrite decide_False; [done|]. intros [Hx Hm]. apply H3. by exists key, w.
    + intros ([k w'] & -> & Hin)%list_elem_of_fmap. destruct (t_staged _ _ _ T _ _ Hin) as (_ & Hnone & _). simpl in Hw. congruence.
    + intros ([k [[j c] n]] & -> & Hin)%list_elem_of_fmap. simpl in Hw.
      destruct (t_refreshes _ _ _ T _ _ _ _ Hin) as (_ & _ & _ & (w' & Hw' & Hwi') & _).
      apply H1, list_elem_of_fmap. exists (k, (j, c, n)). split; [|done]. simpl. congruence.
  - exfalso. apply H2. rewrite (t_ids _ _ _ T), elem_of_seq, <- (t_len _ _ _ T).
    apply lookup_ge_None in Hs0. apply lookup_lt_Some in Hs. lia.
Qed.

Lemma commit_wf listeners : prepared empty_transaction listeners tx → wf (commit m tx).
Proof.
  intros (_ & _ & Hman & Hall). destruct lm_commit_ok as (P & Hleft & Hcount). pose proof P as [P1 P2 P3 P4 P5 P6].
  destruct (refresh_nodup m0 m tx W T) as (_ & _ & _ & Nsi). split.
  - intros key w Hw. destruct (entry_origin key w Hw) as [Hin|[[n Hin]|(H2 & Hw0 & Hx)]].
    + destruct (t_staged _ _ _ T _ _ Hin) as (Hk & _ & _ & s & Hs & Hcl & _). split; [done|].
      destruct (P3 _ _ Hin) as [_ ->]. rewrite Hs. by eexists.
    + destruct (t_refreshes _ _ _ T _ _ _ _ Hin) as (Hk & _). split; [done|]. destruct (P4 _ _ _ _ Hin) as [_ ->].
      destruct (refresh_old m0 m tx W T (wr_service w)) as [_ (s & -> & Hcl)]; [|by eexists].
      apply list_elem_of_fmap. by exists (key, (wr_service w, wr_config w, n)).
    + destruct (wf_ids m0 W _ _ Hw0) as (Hk & s & Hs & Hcl). split; [done|]. rewrite (kept_service key w) by done.
      pose proof (t_old _ _ _ T _ _ Hs) as Hc. destruct (lm_services m !! wr_service w) as [s'|]; [|done].
      exists s'. split; [done|]. injection Hc as _ _ _ Hcl' _. congruence.
  - intros k1 k2 w1 w2 H1 H2 Heq.
    destruct (entry_service _ _ H1) as [[Hin1 Hn1]|(v1 & Hv1 & Hs1 & [? ?])],
      (entry_service _ _ H2) as [[Hin2 Hn2]|(v2 & Hv2 & Hs2 & [? ?])]; try congruence.
    + eapply (f_equal fst (x := (k1, w1)) (y := (k2, w2))). by eapply nodup_map_inj.
    + eapply (wf_inj m0 W); [done|done|congruence].
  - intros i s Hs Hcl. by eapply commit_live.
  - intros key Hk. rewrite P1, Hman in Hk. destruct Hk as [Hk|(o & -> & Ho)%list_elem_of_fmap]; [by apply not_elem_of_empty in Hk|].
    destruct (Hall o Ho) as (c & -> & [[i Hin]|(i & n & Hin)]); simpl.
    + destruct (P3 _ _ Hin) as [-> _]. by eexists.
    + destruct (P4 _ _ _ _ Hin) as [-> _]. by eexists.
  - done.
Qed.
End phases.

(** ** New services listen *)

Definition listening m (i : nat) : Prop := ∃ s, lm_services m !! i = Some s ∧ sv_listening s = true.

Lemma start_listening m i m' : startListenerServiceSafely m i = (m', true) → listening m' i.
Proof.
  unfold startListenerServiceSafely. destruct (lm_services m !! i) as [s|] eqn:Hs; [|done].
  destruct (starts _); [|done]. intros [= <-]. exists (with_listening true s). split; [|done].
  simpl. apply list_lookup_insert_eq. by eapply lookup_lt_Some.
Qed.

Lemma start_keeps m i j : listening m j → listening (startListenerServiceSafely m i).1 j.
Proof.
  intros (s & Hs & Hl). destruct (decide (i = j)) as [->|Hne].
  - unfold startListenerServiceSafely. rewrite Hs. destruct (starts _); [|by exists s].
    exists (with_listening true s). split; [|done]. simpl. apply list_lookup_insert_eq. by eapply lookup_lt_Some.
  - exists s. by rewrite start_other.
Qed.

Lemma start_staged_listening m skip staged m' :
  start_staged m skip staged = (m', None) →
  (∀ j, listening m j → listening m' j) ∧ ∀ key w, (key, w) ∈ staged → key ∉ skip → listening m' (wr_service w).
Proof.
  revert m. induction staged as [|[key w] staged IH]; intros m; simpl.
  { intros [= <-]. split; [done|]. by intros * ?%not_elem_of_nil. }
  destruct (decide (key ∈ skip)) as [Hskip|Hskip].
  { intros [H1 H2]%IH. split; [done|]. intros k w' [[= -> ->]|Hin]%elem_of_cons Hk; [done|by eapply H2]. }
  pose proof (start_keeps m (wr_service w)) as Hkeep.
  destruct (startListenerServiceSafely m (wr_service w)) as [m1 []] eqn:E; [|done].
  intros [H1 H2]%IH. split; [by intros j Hj; apply H1, Hkeep|].
  intros k w' [[= -> ->]|Hin]%elem_of_cons Hk; [by eapply H1, start_listening|by eapply H2].
Qed.

Lemma hand_over_listening m todo dn m' :
  hand_over m todo dn = (m', None) →
  (∀ j, j ∉ map (snd ∘ fst) todo → listening m j → listening m' j) ∧
  ∀ p, p ∈ todo → p.2.2 ∉ map (snd ∘ fst) todo → listening m' p.2.2.
Proof.
  revert m dn. induction todo as [|[[ok o] [nk n]] todo IH]; intros m dn; simpl.
  { intros [= <-]. split; [done|]. by intros * ?%not_elem_of_nil. }
  pose proof (λ j Hne, stop_other (setListenerActive m o false) o j Hne) as Hstop.
  destruct (stopAcceptingSafely _ _) as [m1 []]; [|done]. pose proof (start_keeps m1 n) as Hkeep.
  destruct (startListenerServiceSafely m1 n) as [m2 []] eqn:E; [|done].
  intros [H1 H2]%IH. split.
  - intros j [Hne Hni]%not_elem_of_cons (s & Hs & Hl). apply H1, Hkeep; [done|]. exists s.
    simpl in Hstop. rewrite Hstop, list_lookup_alter, decide_False by done. done.
  - intros p [->|Hp]%elem_of_cons [Hne Hni]%not_elem_of_cons; [|by apply H2]. simpl in *.
    by eapply H1, start_listening.
Qed.

(** A new service whose start was put off is the new side of a handoff. *)
Lemma handoff_complete m0 m tx handoffs m1 key w :
  wf m0 → tx_ok m0 m tx →
  find_handoffs m (tx_managed tx) (order (list_prod (tx_staged tx) (elements (lm_xdsManaged m)))) ∅ = inl handoffs →
  lm_active m1 = lm_active m0 → (key, w) ∈ tx_staged tx → key ∈ handoff_new handoffs →
  ∃ ok o, ((ok, o), (key, wr_service w)) ∈ handoff_list m1 (tx_staged tx) handoffs.
Proof.
  intros W T Hf Ha Hin Hk. unfold handoff_new in Hk.
  apply elem_of_list_to_set, list_elem_of_fmap in Hk as ([ok nk] & -> & Hk). apply elem_of_map_to_list in Hk.
  destruct (find_handoffs_ok _ _ _ _ _ Hf _ _ Hk) as [?|(next & w' & _ & Hw' & _ & _)]; [done|].
  rewrite (t_active _ _ _ T) in Hw'. simpl in *. exists ok, (wr_service w'). unfold handoff_list. apply list_elem_of_omap.
  exists ok. split; [rewrite merge_sort_Permutation; apply elem_of_elements; by apply elem_of_dom|].
  rewrite Hk, Ha, Hw'. simpl.
  destruct (first_such (λ sw, bool_decide (sw.1 = nk)) (tx_staged tx)) as [[k2 w2]|] eqn:E.
  - apply first_such_Some in E as [Hin2 Heq%bool_decide_eq_true]. simpl in *. subst k2.
    assert (w2 = w) as ->; [|done]. destruct (refresh_nodup m0 m tx W T) as (_ & _ & Ns & _).
    apply list_elem_of_lookup in Hin as [i Hi], Hin2 as [j Hj].
    assert (i = j) as ->; [|congruence]. eapply (NoDup_lookup _ _ _ nk Ns); rewrite list_lookup_fmap, ?Hi, ?Hj; done.
  - rewrite first_such_None in E. specialize (E _ Hin). by rewrite bool_decide_eq_false in E.
Qed.

(** ** Theorems *)

Section theorems.
Variable m0 : ListenerManager.
Hypothesis W : wf m0.

(** What follows the preparation: nothing, the start of the new services, or
    also the handoffs. *)
Definition after_prepare m1 (tx : transaction) m3 (e : option listener_error) : Prop :=
  (m3 = m1 ∧ is_Some e) ∨
  ∃ handoffs m2 e2,
    find_handoffs m1 (tx_managed tx) (order (list_prod (tx_staged tx) (elements (lm_xdsManaged m1)))) ∅ = inl handoffs ∧
    start_staged m1 (handoff_new handoffs) (order (tx_staged tx)) = (m2, e2) ∧
    ((is_Some e2 ∧ m3 = m2 ∧ e = e2) ∨
     (e2 = None ∧ hand_over m2 (handoff_list m2 (tx_staged tx) handoffs) [] = (m3, e))).

Lemma replace_phases listeners m' e :
  ReplaceXDSListeners m0 listeners = (m', e) →
  ∃ m1 tx m3, tx_ok m0 m1 tx ∧ (∀ i s, lm_services m0 !! i = Some s → lm_services m1 !! i = Some s) ∧
    after_prepare m1 tx m3 e ∧
    match e with Some _ => m' = abort m3 tx | None => m' = commit m3 tx ∧ prepared empty_transaction listeners tx end.
Proof.
  unfold ReplaceXDSListeners. pose proof (tx_start m0 W) as T0.
  destruct (prepare_all m0 empty_transaction listeners) as [[m1 tx] e1] eqn:E1.
  destruct (prepare_all_ok _ _ _ _ _ _ _ T0 E1) as [T1 HP]. destruct (prepare_all_prefix _ _ _ _ _ _ E1) as [more Hm1].
  assert (∀ i s, lm_services m0 !! i = Some s → lm_services m1 !! i = Some s) as Hold1.
  { intros i s Hi. rewrite Hm1. by apply lookup_app_l_Some. }
  destruct e1 as [e1|]; [intros [= <- <-]; exists m1, tx, m1; split_and!; [done..|by left|done]|].
  destruct (find_handoffs _ _ _ _) as [handoffs|e2] eqn:E2.
  2: { intros [= <- <-]. exists m1, tx, m1. split_and!; [done..|by left|done]. }
  destruct (start_staged _ _ _) as [m2 [e2|]] eqn:E3.
  { intros [= <- <-]. exists m1, tx, m2. split_and!; [done..| |done]. right. exists handoffs, m2, (Some e2).
    split_and!; [done..|]. by left. }
  destruct (hand_over _ _ _) as [m3 e3] eqn:E4. intros H. exists m1, tx, m3.
  assert (after_prepare m1 tx m3 e3) as Hap by (right; exists handoffs, m2, None; split_and!; [done..|by right]).
  destruct e3 as [e3|]; injection H as <- <-; split_and!; try done. by apply HP.
Qed.

Lemma after_core m1 tx m3 e : after_prepare m1 tx m3 e → core_eq m1 m3.
Proof.
  intros [[-> _]|(handoffs & m2 & e2 & _ & E3 & H)]; [done|].
  pose proof (start_staged_core m1 (handoff_new handoffs) (order (tx_staged tx))) as C2. rewrite E3 in C2.
  destruct H as [(_ & -> & _)|[_ E4]]; [done|]. etrans; [exact C2|].
  pose proof (hand_over_core m2 (handoff_list m2 (tx_staged tx) handoffs) []) as C3. by rewrite E4 in C3.
Qed.

Section after.
Context (m1 : ListenerManager) (tx : transaction) (T1 : tx_ok m0 m1 tx).
Context (Hold1 : ∀ i s, lm_services m0 !! i = Some s → lm_services m1 !! i = Some s).

Lemma started_old m2 handoffs e2 :
  start_staged m1 (handoff_new handoffs) (order (tx_staged tx)) = (m2, e2) →
  (∀ i s, lm_services m0 !! i = Some s → lm_services m2 !! i = Some s) ∧ lm_active m2 = lm_active m0.
Proof.
  intros E3. split.
  - intros i s Hi. replace m2 with (start_staged m1 (handoff_new handoffs) (order (tx_staged tx))).1 by (by rewrite E3).
    rewrite start_staged_other; [by apply Hold1|]. intros key w. rewrite order_perm. intros Hin <-.
    pose proof (staged_new _ _ _ _ _ T1 Hin). congruence.
  - pose proof (start_staged_core m1 (handoff_new handoffs) (order (tx_staged tx))) as C2. rewrite E3 in C2.
    simpl in C2. rewrite (core_active _ _ C2). apply T1.
Qed.

(** The switches of the old services. *)
Lemma after_switches m3 e :
  after_prepare m1 tx m3 e → all_up m0 →
  match e with
  | Some _ => old_services m0 m3 as_before
  | None => ∃ downs, old_services m0 m3 (down_in downs) ∧ ∀ i, i ∈ downs → leaves m0 tx i
  end.
Proof.
  intros [[-> [e' ->]]|(handoffs & m2 & e2 & E2 & E3 & H)] U.
  { intros i s Hi. exists s. split; [by apply Hold1|by left]. }
  destruct (started_old _ _ _ E3) as [Hold2 Ha2].
  destruct H as [([e' ->] & -> & ->)|[-> E4]]; [intros i s Hi; exists s; split; [by apply Hold2|by left]|].
  destruct (handoff_list_ok m0 m1 tx handoffs m2 W U T1 Hold1 E2 Ha2) as [H1 H2].
  pose proof (hand_over_switches m0 m2 (handoff_list m2 (tx_staged tx) handoffs) []) as H. rewrite E4 in H.
  assert (old_services m0 m2 (down_in (map fst ([] : list (nat * nat))))) as H0.
  { intros i s Hi. exists s. split; [by apply Hold2|]. unfold down_in. by rewrite decide_False by apply not_elem_of_nil. }
  destruct e as [e|]; [apply H; try done; by intros o n ?%not_elem_of_nil|].
  exists (map (snd ∘ fst) (handoff_list m2 (tx_staged tx) handoffs)).
  split; [apply H; try done; by intros o n ?%not_elem_of_nil|].
  intros i ([[ok o] [nk n]] & -> & Hin)%list_elem_of_fmap. by eapply (handoff_list_old m0 m1).
Qed.

(** The new services listen. *)
Lemma after_listening m3 key w :
  after_prepare m1 tx m3 None → (key, w) ∈ tx_staged tx → listening m3 (wr_service w).
Proof.
  intros [[_ [e He]]|(handoffs & m2 & e2 & E2 & E3 & H)] Hin; [done|].
  destruct H as [([e He] & _ & ?)|[-> E4]]; [congruence|]. destruct (started_old _ _ _ E3) as [_ Ha2].
  destruct (start_staged_listening _ _ _ _ E3) as [_ HS]. destruct (hand_over_listening _ _ _ _ E4) as [HO1 HO2].
  assert (wr_service w ∉ map (snd ∘ fst) (handoff_list m2 (tx_staged tx) handoffs)) as Hno.
  { intros ([[ok o] [nk n]] & Heq & Hp)%list_elem_of_fmap. simpl in Heq.
    eapply handoff_list_old in Hp as (k & w' & _ & _ & Hw' & Hwo); [|exact T1|exact E2|exact Ha2].
    destruct (wf_ids m0 W _ _ Hw') as (_ & s & Hs & _). pose proof (staged_new _ _ _ _ _ T1 Hin). congruence. }
  destruct (decide (key ∈ handoff_new handoffs)) as [Hk|Hk].
  - destruct (handoff_complete m0 m1 tx handoffs m2 key w W T1 E2 Ha2) as (ok & o & Hp); [done|done|]. by apply (HO2 _ Hp).
  - apply HO1; [done|]. apply (HS key); [by rewrite order_perm|done].
Qed.
End after.

(** C15: a transaction that fails leaves the table as it was, and each service with
    its chain and its switches: a socket that was closed for a handoff is bound
    again.  Only if this fails too is the service left down. *)
Theorem replace_fails listeners m' e :
  all_up m0 → ReplaceXDSListeners m0 listeners = (m', Some e) →
  lm_active m' = lm_active m0 ∧ lm_xdsManaged m' = lm_xdsManaged m0 ∧ old_services m0 m' as_before.
Proof.
  intros U (m1 & tx & m3 & T1 & Hold1 & Hafter & ->)%replace_phases.
  pose proof (tx_core _ _ _ _ T1 (after_core _ _ _ _ Hafter)) as T3.
  destruct (abort_ok m0 m3 tx W T3) as (Ha & Hx & Hs & _). split_and!; [done..|].
  intros i s Hi. rewrite (Hs i s Hi). by apply (after_switches m1 tx T1 Hold1 m3 (Some e)).
Qed.


Lemma replace_wf listeners m' e : ReplaceXDSListeners m0 listeners = (m', e) → wf m'.
Proof.
  intros (m1 & tx & m3 & T1 & Hold1 & Hafter & H)%replace_phases.
  pose proof (tx_core _ _ _ _ T1 (after_core _ _ _ _ Hafter)) as T3.
  destruct e as [e|]; [subst m'; by apply (abort_ok m0)|]. destruct H as [-> HP]. by eapply (commit_wf m0).
Qed.

(** An entry outside of xDS, and its service. *)
Definition static_entry m (key : string) (w : wrapper) (s : service) : Prop :=
  lm_active m !! key = Some w ∧ (key ∉ lm_xdsManaged m) ∧ lm_services m !! wr_service w = Some s.

Lemma hand_over_other m todo dn j :
  j ∉ map (snd ∘ fst) todo → (∀ p, p ∈ todo → p.2.2 ≠ j) → (∀ p, p ∈ dn → p.1 ≠ j ∧ p.2 ≠ j) →
  lm_services (hand_over m todo dn).1 !! j = lm_services m !! j.
Proof.
  revert m dn. induction todo as [|[[ok o] [nk n]] todo IH]; intros m dn Ho Hn Hdn; simpl; [done|].
  simpl in Ho. apply not_elem_of_cons in Ho as [Hoj Ho].
  assert (n ≠ j) as Hnj by (apply (Hn ((ok, o), (nk, n))); constructor).
  assert (∀ p, p ∈ dn ++ [(o, n)] → p.1 ≠ j ∧ p.2 ≠ j) as Hdn'.
  { intros p [?| ->%list_elem_of_singleton]%elem_of_app; [by apply Hdn|done]. }
  assert (∀ m, lm_services (rollbackHandoffs m (dn ++ [(o, n)])) !! j = lm_services m !! j) as Hroll.
  { intros m2. unfold rollbackHandoffs, stop_all. rewrite (fold_other restore id), (fold_other _ id); [done|..].
    - intros m4 x. apply stop_other.
    - intros x. rewrite order_perm. intros ([? ?] & -> & Hin)%list_elem_of_fmap. apply (Hdn' _ Hin).
    - intros m4 x. apply restore_other.
    - intros x. rewrite order_perm. intros ([? ?] & -> & Hin)%list_elem_of_fmap. apply (Hdn' _ Hin). }
  pose proof (stop_other (setListenerActive m o false) o j (not_eq_sym Hoj)) as H1.
  rewrite setActive_other in H1 by done.
  destruct (stopAcceptingSafely _ _) as [m1 []]; simpl in *; [|by rewrite Hroll].
  pose proof (start_other m1 n j Hnj) as H2. destruct (startListenerServiceSafely m1 n) as [m2 []]; simpl in *;
    [|by rewrite Hroll, H2].
  rewrite IH; [by rewrite H2|done| |done]. intros p Hp. apply Hn. by constructor.
Qed.

(** The transaction does not touch the service of a static entry. *)
Lemma after_other m1 tx m3 e key w s :
  tx_ok m0 m1 tx → (∀ i s, lm_services m0 !! i = Some s → lm_services m1 !! i = Some s) →
  after_prepare m1 tx m3 e → static_entry m0 key w s → lm_services m3 !! wr_service w = Some s.
Proof.
  intros T1 Hold1 Hafter (Hw & Hx & Hs). destruct Hafter as [[-> _]|(handoffs & m2 & e2 & E2 & E3 & H)]; [by apply Hold1|].
  destruct (started_old m1 tx T1 Hold1 _ _ _ E3) as [Hold2 Ha2]. destruct H as [(_ & -> & _)|[_ E4]]; [by apply Hold2|].
  replace m3 with (hand_over m2 (handoff_list m2 (tx_staged tx) handoffs) []).1 by (by rewrite E4).
  rewrite hand_over_other; [by apply Hold2|..].
  - intros ([[ok o] [nk n]] & Heq & Hin)%list_elem_of_fmap. simpl in Heq.
    eapply (handoff_list_old m0 m1) in Hin as (k & w' & Hk & _ & Hw' & Hwo); [|done..]. apply Hx.
    by rewrite (wf_inj m0 W key k w w' Hw Hw') by congruence.
  - intros [[ok o] [nk n]] Hin Heq. simpl in Heq. unfold handoff_list in Hin.
    apply list_elem_of_omap in Hin as (k & _ & Hin). destruct (handoffs !! k); [|done]. simpl in Hin.
    destruct (lm_active m2 !! k); [|done]. simpl in Hin. destruct (first_such _ _) as [[k2 w2]|] eqn:Ef; [|done].
    simpl in Hin. injection Hin as _ _ _ <-. apply first_such_Some in Ef as [Hin _].
    pose proof (staged_new _ _ _ _ _ T1 Hin). congruence.
  - by intros p ?%not_elem_of_nil.
Qed.

Lemma replace_static listeners m' e key w s :
  ReplaceXDSListeners m0 listeners = (m', e) → static_entry m0 key w s → static_entry m' key w s.
Proof.
  intros (m1 & tx & m3 & T1 & Hold1 & Hafter & H)%replace_phases St.
  pose proof (tx_core _ _ _ _ T1 (after_core _ _ _ _ Hafter)) as T3.
  pose proof (after_other _ _ _ _ _ _ _ T1 Hold1 Hafter St) as Hs3. destruct St as (Hw & Hx & Hs).
  assert (key ∉ map fst (tx_refreshes tx)) as Hr.
  { intros ([k [[i c] n]] & -> & Hin)%list_elem_of_fmap. by apply (t_refreshes _ _ _ T3) in Hin as (_ & ? & _). }
  assert (key ∉ map fst (tx_staged tx)) as Hst.
  { intros ([k w'] & -> & Hin)%list_elem_of_fmap. simpl in Hw. apply (t_staged _ _ _ T3) in Hin as (_ & ? & _). congruence. }
  destruct e as [e|].
  - subst m'. destruct (abort_ok m0 m3 tx W T3) as (Ha & Hx' & Hsv & _). split_and!; [by rewrite Ha|by rewrite Hx'|].
    by rewrite (Hsv _ _ Hs).
  - destruct H as [-> HP]. destruct (lm_commit_ok m0 m3 tx W T3) as ([P1 P2 P3 P4 P5 P6] & _ & _).
    destruct HP as (_ & _ & Hman & Hall). split_and!.
    + rewrite P5 by done. rewrite decide_False; [done|tauto].
    + rewrite P1, Hman. intros [H|(o & -> & Ho)%list_elem_of_fmap]; [by apply not_elem_of_empty in H|].
      destruct (Hall o Ho) as (c & -> & [[i Hin]|(i & n & Hin)]); simpl in *.
      * apply Hst, list_elem_of_fmap. by eexists (_, _).
      * apply Hr, list_elem_of_fmap. by eexists (_, _).
    + rewrite (kept_service m0 m3 tx W T3 key w); [done|done|done|tauto].
Qed.
End theorems.

(** ** The other operations of xDS *)

Lemma wf_core m m' : wf m → core_eq m m' → wf m'.
Proof.
  intros W C. split; rewrite ?(core_active _ _ C), ?(core_managed _ _ C).
  - intros key w Hw. destruct (wf_ids m W key w Hw) as (Hk & s & Hs & Hcl). split; [done|].
    destruct (core_lookup_Some _ _ _ _ C Hs) as (s' & Hs' & Hcore). exists s'. split; [done|].
    injection Hcore as _ _ _ Hcl' _. congruence.
  - apply W.
  - intros i s Hi Hcl. pose proof (core_lookup m m' i C) as H. rewrite Hi in H. symmetry in H.
    apply fmap_Some in H as (s0 & Hs0 & Hcore). injection Hcore as _ _ _ Hcl' _.
    apply (wf_live m W i s0 Hs0). congruence.
  - apply W.
  - intros n. destruct (core_count m m' n C) as [-> ->]. apply W.
Qed.

(** A service of an entry gets a new chain, and its entry a configuration. *)
Definition refreshed m (key : string) (w : wrapper) c (s : service) : ListenerManager :=
  tick (close_chain (build_chain (set_services (set_active m (<[key := mkWrapper (wr_service w) c]> (lm_active m)))
    (<[wr_service w := with_chain (length (lm_chains m)) s]> (lm_services m))) c) (sv_chain s)).

Lemma refreshed_wf m w c s :
  let key := resolveListenerName c in
  wf m → lm_active m !! key = Some w → lm_services m !! wr_service w = Some s → wf (refreshed m key w c s).
Proof.
  intros key W Hw Hs. pose proof (lookup_lt_Some _ _ _ Hs) as Hlt.
  assert (sv_closed s = false) as Hcl by (destruct (wf_ids m W _ _ Hw) as (_ & s' & ? & ?); congruence).
  assert (∀ k w', lm_active (refreshed m key w c s) !! k = Some w' →
    ∃ w0, lm_active m !! k = Some w0 ∧ wr_service w0 = wr_service w' ∧ resolveListenerName (wr_config w') = k) as Hback.
  { intros k w'. simpl. intros [[<- <-]|[_ H]]%lookup_insert_Some; [by exists w|]. exists w'.
    by destruct (wf_ids m W _ _ H). }
  split.
  - intros k w' (w0 & Hw0 & Heq & Hk)%Hback. split; [done|]. destruct (wf_ids m W _ _ Hw0) as (_ & s0 & Hs0 & Hcl0).
    simpl. rewrite <- Heq. destruct (decide (wr_service w = wr_service w0)) as [E|E].
    + rewrite <- E. rewrite list_lookup_insert_eq by done. by eexists.
    + rewrite list_lookup_insert_ne by done. by exists s0.
  - intros k1 k2 w1 w2 (v1 & H1 & E1 & _)%Hback (v2 & H2 & E2 & _)%Hback Heq.
    apply (wf_inj m W _ _ _ _ H1 H2). congruence.
  - assert (∀ i, (∃ k v, lm_active m !! k = Some v ∧ wr_service v = i) →
      ∃ k v, lm_active (refreshed m key w c s) !! k = Some v ∧ wr_service v = i) as Hfwd.
    { intros i (k & v & Hv & <-). exists k. simpl. destruct (decide (key = k)) as [<-|E].
      - exists (mkWrapper (wr_service w) c). rewrite lookup_insert_eq. simpl. split; [done|]. congruence.
      - exists v. by rewrite lookup_insert_ne. }
    intros i s' Hi Hcl'. apply Hfwd. simpl in Hi.
    apply list_lookup_insert_Some in Hi as [(<- & _ & _)|[_ H]]; [by exists key, w|]. by apply (wf_live m W i s').
  - intros k Hk. simpl. destruct (decide (key = k)) as [<-|E]; [by rewrite lookup_insert_eq; eexists|].
    rewrite lookup_insert_ne by done. by apply (wf_xds m W).
  - intros n. pose proof (wf_chains m W n) as Hn. pose proof (chain_made_snoc m c n) as Hm.
    change (chain_made (build_chain m c) n) with (chain_made (refreshed m key w c s) n) in Hm. rewrite Hm, <- Hn.
    unfold chain_count. simpl. rewrite occurs_app, occurs_cons, occurs_nil.
    pose proof (sum_list_with_insert (chain_owner n) _ _ (with_chain (length (lm_chains m)) s) _ Hs) as H.
    unfold chain_owner in H at 2 4. simpl in H. rewrite Hcl in H. lia.
Qed.

(** The service of a transaction with one new listener gets its entry. *)
Lemma added_wf m0 m c i :
  let key := resolveListenerName c in
  wf m0 → tx_ok m0 m (mkTransaction {[key]} [(key, mkWrapper i c)] []) →
  wf (set_managed (set_active m (<[key := mkWrapper i c]> (lm_active m))) ({[key]} ∪ lm_xdsManaged m)).
Proof.
  intros key W T. destruct (t_staged _ _ _ T key (mkWrapper i c)) as (_ & Hnone & _ & s & Hs & Hcl & _); [constructor|].
  pose proof (staged_new m0 m _ key (mkWrapper i c) T ltac:(constructor)) as Hi. simpl in Hi, Hs.
  split; simpl; rewrite ?(t_active _ _ _ T), ?(t_xds _ _ _ T).
  - intros k w [[<- <-]|[_ H]]%lookup_insert_Some; [split; [done|by exists s]|].
    destruct (wf_ids m0 W _ _ H) as (Hk & s0 & Hs0 & Hcl0). split; [done|].
    pose proof (t_old _ _ _ T _ _ Hs0) as (s1 & Hs1 & Hcore)%fmap_Some. exists s1. split; [done|].
    injection Hcore as _ _ _ ? _. congruence.
  - intros k1 k2 w1 w2 [[<- <-]|[_ H1]]%lookup_insert_Some [[<- <-]|[_ H2]]%lookup_insert_Some Heq; [done|..].
    + destruct (wf_ids m0 W _ _ H2) as (_ & s2 & Hs2 & _). simpl in Heq. congruence.
    + destruct (wf_ids m0 W _ _ H1) as (_ & s2 & Hs2 & _). simpl in Heq. congruence.
    + by apply (wf_inj m0 W _ _ _ _ H1 H2).
  - intros j s' Hj Hcl'. destruct (lm_services m0 !! j) as [s0|] eqn:E.
    + pose proof (t_old _ _ _ T _ _ E) as Hcore. rewrite Hj in Hcore. injection Hcore as _ _ _ ? _.
      destruct (wf_live m0 W j s0 E) as (k & w & Hw & <-); [congruence|]. exists k, w. split; [|done].
      rewrite lookup_insert_ne by congruence. done.
    + exists key, (mkWrapper i c). rewrite lookup_insert_eq. split; [done|]. simpl.
      pose proof (t_ids _ _ _ T) as Hids. injection Hids as ->. pose proof (t_len _ _ _ T) as Hlen. simpl in Hlen.
      apply lookup_ge_None in E. apply lookup_lt_Some in Hj. lia.
  - intros k. rewrite elem_of_union, elem_of_singleton. intros [->|Hk]; [by rewrite lookup_insert_eq; eexists|].
    destruct (decide (key = k)) as [<-|E]; [by rewrite lookup_insert_eq; eexists|].
    rewrite lookup_insert_ne by done. by apply (wf_xds m0 W).
  - intros n. pose proof (t_chains _ _ _ T n) as H. simpl in H. rewrite occurs_nil, Nat.add_0_r in H. exact H.
Qed.

(** What every operation of xDS keeps. *)
Definition xds_keeps m m' : Prop :=
  wf m' ∧ ∀ key w s, static_entry m key w s → static_entry m' key w s.

Lemma keeps_tick m : wf m → xds_keeps m (tick m).
Proof. intros W. split; [by destruct W|done]. Qed.

Lemma order_one {A} (x : A) : order [x] = [x].
Proof. apply Permutation_singleton_r, order_perm. Qed.

Lemma refresh_keeps m w c :
  let key := resolveListenerName c in
  wf m → lm_active m !! key = Some w → key ∈ lm_xdsManaged m →
  match Refresh m (wr_service w) c with
  | (m', true) => xds_keeps m (set_active m' (<[key := mkWrapper (wr_service w) c]> (lm_active m')))
  | (m', false) => xds_keeps m m'
  end.
Proof.
  intros key W Hw Hx. unfold Refresh. destruct (wf_ids m W _ _ Hw) as (_ & s & Hs & _). rewrite Hs.
  destruct (prepares _ _); [|by apply keeps_tick]. split; [by apply (refreshed_wf m w c s)|].
  intros k v s' (Hv & Hk & Hs'). unfold static_entry. simpl.
  assert (key ≠ k) as Hne by (intros <-; done).
  rewrite lookup_insert_ne by done. split_and!; [done..|].
  rewrite list_lookup_insert_ne; [done|]. intros E. apply Hne. by apply (wf_inj m W _ _ w v).
Qed.

(** A service that is made, and started while it is switched off. *)
Lemma create_tx m c m1 i :
  let key := resolveListenerName c in
  wf m → lm_active m !! key = None → createListenerServiceSafely m c = (m1, Some i) →
  let m2 := (startListenerServiceSafely (setListenerActive m1 i false) i).1 in
  tx_ok m m2 (mkTransaction {[key]} [(key, mkWrapper i c)] []) ∧
  ∀ j s, lm_services m !! j = Some s → lm_services m2 !! j = Some s.
Proof.
  intros key W Hw E. pose proof (create_spec m c) as H. rewrite E in H. destruct H as (-> & a & b & H).
  pose proof (tx_stage m m empty_transaction c a b (tx_start m W) ltac:(apply not_elem_of_empty) Hw) as T.
  cbv zeta. split.
  - eapply tx_core; [|apply start_core]. rewrite H. apply tx_tick.
    simpl in T. by rewrite (union_empty_r_L (C := gset string)) in T.
  - intros j s Hj. rewrite start_other by (intros <-; by rewrite lookup_ge_None_2 in Hj by lia). rewrite H.
    simpl. by apply lookup_app_l_Some.
Qed.

Lemma upsert_keeps m o : wf m → xds_keeps m (UpsertXDSListener m o).1.
Proof.
  intros W. unfold UpsertXDSListener. destruct o as [c|]; [|done]. cbv zeta. set (key := resolveListenerName c).
  destruct (lm_active m !! key) as [w|] eqn:Hw.
  { destruct (decide (key ∈ lm_xdsManaged m)) as [Hx|]; [|done].
    pose proof (refresh_keeps m w c W Hw Hx) as H. by destruct (Refresh m (wr_service w) c) as [m1 []]. }
  destruct (createListenerServiceSafely m c) as [m1 [i|]] eqn:E.
  2: { pose proof (create_spec m c) as H. rewrite E in H. subst m1. by apply keeps_tick. }
  destruct (create_tx m c m1 i W Hw E) as [T Hold]. fold key in T.
  pose proof (staged_new m _ _ key (mkWrapper i c) T ltac:(constructor)) as Hi. simpl in Hi.
  destruct (startListenerServiceSafely (setListenerActive m1 i false) i) as [m2 ok]. simpl in T, Hold.
  assert (∀ k v s, static_entry m k v s → lm_active m2 !! k = Some v ∧ (k ∉ lm_xdsManaged m2) ∧ key ≠ k ∧
    i ≠ wr_service v ∧ lm_services m2 !! wr_service v = Some s) as Hst.
  { intros k v s (Hv & Hk & Hs). rewrite (t_active _ _ _ T), (t_xds _ _ _ T). split_and!; [done..|congruence|congruence|].
    by apply Hold. }
  destruct ok; simpl; split.
  - eapply wf_core; [|apply setActive_core]. by apply (added_wf m).
  - intros k v s (Hv & Hk & Hne & Hnei & Hs)%Hst. unfold static_entry. simpl.
    rewrite lookup_insert_ne, list_lookup_alter_ne by done. split_and!; [done| |done].
    rewrite elem_of_union, elem_of_singleton. intros [->|?]; done.
  - destruct (abort_ok m m2 _ W T) as (_ & _ & _ & H). unfold abort in H. simpl in H. by rewrite order_one in H.
  - intros k v s (Hv & Hk & Hne & Hnei & Hs)%Hst. unfold static_entry. rewrite close_other by done.
    destruct (close_all_same m2 [i]) as [H1 H2 _]. simpl in H1, H2. by rewrite H1, H2.
Qed.

Lemma unlink_spec m names found :
  let r := unlink m names found in
  lm_services r.1 = lm_services m ∧ lm_chains r.1 = lm_chains m ∧ lm_closed r.1 = lm_closed m ∧
  (∀ k w, lm_active r.1 !! k = Some w ↔ lm_active m !! k = Some w ∧ ¬ (k ∈ names ∧ k ∈ lm_xdsManaged m)) ∧
  (∀ k, k ∈ lm_xdsManaged r.1 ↔ k ∈ lm_xdsManaged m ∧ (k ∉ names)) ∧
  (∀ i, i ∈ r.2 ↔ i ∈ found ∨ ∃ k w, k ∈ names ∧ k ∈ lm_xdsManaged m ∧ lm_active m !! k = Some w ∧ wr_service w = i).
Proof.
  revert m found. induction names as [|name names IH]; intros m found; cbn [unlink].
  { setoid_rewrite elem_of_nil. split_and!; [done..| | |]; simpl; [naive_solver..|].
    intros i. split; [by left|]. by intros [?|(? & ? & [] & _)]. }
  setoid_rewrite elem_of_cons. destruct (decide (name ∈ lm_xdsManaged m)) as [Hx|Hx].
  - destruct (IH (set_managed (set_active m (delete name (lm_active m))) (lm_xdsManaged m ∖ {[name]}))
      (match lm_active m !! name with Some w => found ++ [wr_service w] | None => found end)) as (H1 & H2 & H3 & H4 & H5 & H6).
    clear IH. simpl in *. setoid_rewrite lookup_delete_Some in H4. setoid_rewrite lookup_delete_Some in H6.
    setoid_rewrite elem_of_difference in H4. setoid_rewrite elem_of_difference in H5. setoid_rewrite elem_of_difference in H6.
    setoid_rewrite elem_of_singleton in H4. setoid_rewrite elem_of_singleton in H5. setoid_rewrite elem_of_singleton in H6.
    split_and!; [done..| | |].
    + intros k w. rewrite H4. destruct (decide (name = k)) as [<-|]; [tauto|]. intuition congruence.
    + intros k. rewrite H5. tauto.
    + intros i. rewrite H6. destruct (lm_active m !! name) as [w|] eqn:Hw.
      * rewrite elem_of_app, list_elem_of_singleton. split.
        -- intros [[?| ->]|(k & v & ? & [? ?] & [? ?] & ?)]; [by left|right; exists name, w; auto|right; exists k, v; auto].
        -- intros [?|(k & v & Hk & ? & Hv & <-)]; [by left; left|].
           destruct (decide (name = k)) as [<-|]; [left; right; congruence|].
           right. exists k, v. destruct Hk; [congruence|auto 10].
      * split; (intros [?|(k & v & Hk & Hkx & Hv & <-)]; [by left|right; exists k, v]); [tauto|].
        assert (name ≠ k) by congruence. destruct Hk; [congruence|auto 10].
  - destruct (IH m found) as (H1 & H2 & H3 & H4 & H5 & H6). clear IH. split_and!; [done..| | |].
    + intros k w. rewrite H4. destruct (decide (k = name)) as [->|]; tauto.
    + intros k. rewrite H5. destruct (decide (k = name)) as [->|]; tauto.
    + intros i. rewrite H6. split; (intros [?|(k & w & Hk & ? & ? & ?)]; [by left|right; exists k, w]); [tauto|].
      destruct Hk as [->|?]; tauto.
Qed.

Lemma remove_keeps m names : wf m → xds_keeps m (RemoveXDSListeners m names).
Proof.
  intros W. unfold RemoveXDSListeners. destruct (unlink_spec m names []) as (H1 & H2 & H3 & H4 & H5 & H6).
  destruct (unlink m names []) as [m1 found]. simpl in *. destruct (close_all_same m1 (order found)) as [S1 S2 S3].
  pose proof (close_all_lookup m1 (order found)) as Sl. pose proof (close_all_count m1 (order found)) as Sc.
  set (m2 := foldl closeListenerServiceSafely m1 (order found)) in *. rewrite H1 in Sl.
  assert (∀ k w, lm_active m2 !! k = Some w → lm_services m2 !! wr_service w = lm_services m !! wr_service w) as Hstay.
  { intros k w Hw. rewrite S1 in Hw. apply H4 in Hw as [Hw Hk]. rewrite Sl, bool_decide_eq_false_2.
    - by destruct (lm_services m !! wr_service w).
    - rewrite order_perm, H6. intros [?%not_elem_of_nil|(k' & w' & ? & ? & Hw' & E)]; [done|]. apply Hk.
      by rewrite (wf_inj m W k k' w w' Hw Hw' (eq_sym E)). }
  split; [split|].
  - intros k w Hw. rewrite (Hstay k w Hw). rewrite S1 in Hw. apply H4 in Hw as [Hw _]. by apply W.
  - rewrite S1. intros k1 k2 w1 w2 [Hw1 _]%H4 [Hw2 _]%H4. by apply W.
  - intros i s Hi Hcl. rewrite Sl in Hi. apply fmap_Some in Hi as (s0 & Hs0 & ->).
    assert (sv_closed s0 = false ∧ i ∉ order found) as [Hcl0 Hno].
    { unfold close_if in Hcl. destruct (bool_decide_reflect (i ∈ order found)); [|done].
      destruct (sv_closed s0) eqn:E; simpl in Hcl; congruence. }
    destruct (wf_live m W i s0 Hs0 Hcl0) as (k & w & Hw & Hwi). exists k, w. split; [|done]. rewrite S1. apply H4.
    split; [done|]. intros [? ?]. apply Hno. rewrite order_perm, H6. right. by exists k, w.
  - intros k Hk. rewrite S2 in Hk. apply H5 in Hk as [Hk Hn]. destruct (wf_xds m W k Hk) as [w Hw]. exists w.
    rewrite S1. apply H4. tauto.
  - intros n. rewrite Sc. unfold chain_made, chain_count. rewrite S3, H1, H2, H3. apply W.
  - intros k w s (Hw & Hk & Hs). unfold static_entry. assert (lm_active m2 !! k = Some w) as Hw2.
    { rewrite S1. apply H4. tauto. }
    split_and!; [done| |by rewrite (Hstay k w Hw2)]. rewrite S2, H5. tauto.
Qed.

(** A listener of the configuration file is added under a key of its own. *)
Lemma add_wf m c : wf m → lm_active m !! resolveListenerName c = None → wf (AddListener m c).1.
Proof.
  intros W Hw. unfold AddListener. destruct (createListenerServiceSafely m c) as [m1 [i|]] eqn:E; simpl.
  2: { pose proof (create_spec m c) as H. rewrite E in H. subst m1. by destruct W. }
  destruct (create_tx m c m1 i W Hw E) as [T _]. eapply wf_core; [|apply start_core].
  assert (core_eq (startListenerServiceSafely (setListenerActive m1 i false) i).1 m1) as C.
  { destruct (start_core (setListenerActive m1 i false) i) as [C1 C2 C3 C4 C5].
    destruct (setActive_core m1 i false) as [D1 D2 D3 D4 D5]. split; congruence. }
  destruct (added_wf m m1 c i W (tx_core _ _ _ _ T C)) as [A1 A2 A3 A4 A5]. split; try done.
  intros key Hk. apply A4. simpl in *. set_solver.
Qed.

(** ** Sequences of operations *)

Inductive xds_op : Type :=
  | Upsert (o : option Listener)
  | ReplaceAll (listeners : list (option Listener))
  | Remove (names : list string).

Definition xds_apply m (op : xds_op) : ListenerManager :=
  match op with
  | Upsert o => (UpsertXDSListener m o).1
  | ReplaceAll listeners => (ReplaceXDSListeners m listeners).1
  | Remove names => RemoveXDSListeners m names
  end.

Lemma xds_all_keep m ops : wf m → xds_keeps m (foldl xds_apply m ops).
Proof.
  revert m. induction ops as [|op ops IH]; intros m W; simpl; [done|].
  assert (xds_keeps m (xds_apply m op)) as [W' K].
  { destruct op as [o|listeners|names]; simpl; [by apply upsert_keeps| |by apply remove_keeps].
    destruct (ReplaceXDSListeners m listeners) as [m' e] eqn:E. split; [by eapply (replace_wf m)|].
    intros key w s. by apply (replace_static m W listeners m' e). }
  destruct (IH _ W') as [W2 K2]. split; [done|]. auto.
Qed.

(** C26: whatever xDS asks for, and however it ends: a service that is not closed is
    in the table, and each chain that was built is either closed, once, and in
    no open service, or the chain of a service of the table, and not closed. *)
Theorem replace_no_leak m ops :
  let m' := foldl xds_apply m ops in
  wf m →
  (∀ i s, lm_services m' !! i = Some s → sv_closed s = false → ∃ key w, lm_active m' !! key = Some w ∧ wr_service w = i) ∧
  ∀ n, n < length (lm_chains m') →
    (occurs n (lm_closed m') = 1 ∧ ∀ i s, lm_services m' !! i = Some s → sv_closed s = false → sv_chain s ≠ n) ∨
    (occurs n (lm_closed m') = 0 ∧ ∃ key w s, lm_active m' !! key = Some w ∧
       lm_services m' !! wr_service w = Some s ∧ sv_closed s = false ∧ sv_chain s = n).
Proof.
  intros m' W. destruct (xds_all_keep m ops W) as [W' _]. fold m' in W'. split; [apply W'|].
  intros n Hn. pose proof (wf_chains m' W' n) as H. unfold chain_made in H. rewrite decide_True in H by done.
  unfold chain_count in H. destruct (decide (sum_list_with (chain_owner n) (lm_services m') = 0)) as [E|E].
  - left. split; [lia|]. intros i s Hi Hcl <-. pose proof (sum_list_with_lookup (chain_owner (sv_chain s)) _ _ _ Hi) as Hle.
    unfold chain_owner in Hle at 1. rewrite Hcl, decide_True in Hle by done. lia.
  - right. split; [lia|]. destruct (sum_list_with_pos (chain_owner n) (lm_services m')) as (i & s & Hi & Hpos); [lia|].
    unfold chain_owner in Hpos. destruct (sv_closed s) eqn:Hcl; [lia|]. destruct (decide (n = sv_chain s)) as [->|]; [|lia].
    destruct (wf_live m' W' i s Hi Hcl) as (key & w & Hw & <-). by exists key, w, s.
Qed.

(** Whatever xDS asks for, and however it ends, a listener that it does not own
    keeps its entry, its configuration, its socket and its chain, and stays out
    of the reach of xDS. *)
Theorem static_listeners_untouched m ops key w s :
  wf m → static_entry m key w s → static_entry (foldl xds_apply m ops) key w s.
Proof. intros W. by apply xds_all_keep. Qed.
End manager.

(** ** Two listeners, one of them of xDS *)

Module listeners_demo.
Definition same_order (A : Type) (l : list A) : list A := l.
Lemma same_order_perm (A : Type) (l : list A) : same_order A l ≡ₚ l.
Proof. done. Qed.

Definition always (n : nat) : bool := true.
Definition http (port : Z) (filters : list string) : Listener :=
  mkListener "" "0.0.0.0" port "HTTP" HTTP filters.
Definition http2 (port : Z) : Listener := mkListener "" "0.0.0.0" port "HTTP2" HTTP2 ["cors"].
Definition makes (n : nat) (c : Listener) : option (bool * bool) := Some (true, true).
Definition prepares (n : nat) (c : Listener) : bool := bool_decide (ln_FilterChain c ≠ []).
(** The sixth interaction is a socket that cannot be bound. *)
Definition not_sixth (n : nat) : bool := negb (n =? 6).

Definition nobody : ListenerManager := mkManager ∅ ∅ [] [] [] 0.
Abbreviation boot := ((AddListener makes always nobody (http 80 ["cors"])).1) (only parsing).
Abbreviation m0 := ((UpsertXDSListener makes prepares always boot (Some (http 81 ["jwt"]))).1) (only parsing).

Lemma nobody_wf : wf nobody.
Proof. by split. Qed.

Lemma boot_wf : wf boot.
Proof. apply (add_wf makes prepares always always same_order same_order_perm); [apply nobody_wf|done]. Qed.

Lemma m0_wf : wf m0.
Proof. exact (proj1 (upsert_keeps makes prepares always always same_order same_order_perm boot (Some (http 81 ["jwt"])) boot_wf)). Qed.

Lemma m0_up : all_up m0.
Proof.
  intros key w Hk Hw. assert (lm_xdsManaged m0 = {["0.0.0.0-81-HTTP"]}) as E by (vm_compute; reflexivity).
  rewrite E in Hk. apply elem_of_singleton in Hk as ->.
  assert (lm_active m0 !! "0.0.0.0-81-HTTP" = Some (mkWrapper 1 (http 81 ["jwt"]))) as E1 by (vm_compute; reflexivity).
  rewrite E1 in Hw. injection Hw as <-. eexists. split; [vm_compute; reflexivity|done].
Qed.

(** The listener of port 81 changes its protocol: a handoff. *)
Abbreviation replace := (ReplaceXDSListeners makes prepares always always same_order m0 [Some (http2 81); Some (http 82 ["jwt"])])
  (only parsing).
Abbreviation broken := (ReplaceXDSListeners makes prepares not_sixth always same_order m0 [Some (http2 81)])
  (only parsing).

Lemma replace_runs : replace = (replace.1, None).
Proof. vm_compute. reflexivity. Qed.

Lemma broken_runs : broken = (broken.1, Some (NotStarted "0.0.0.0-81-HTTP2")).
Proof. vm_compute. reflexivity. Qed.

(** The old listener was stopped and is bound again; the new service is closed,
    and its chain. *)
Example broken_rolls_back :
  sv_listening <$> lm_services broken.1 = [true; true; false] ∧ sv_active <$> lm_services broken.1 = [true; true; false] ∧
  lm_closed broken.1 = [2].
Proof. vm_compute. done. Qed.

Example replace_hands_over :
  sv_listening <$> lm_services replace.1 = [true; false; true; true] ∧
  XDSListenerNames replace.1 = ["0.0.0.0-81-HTTP2"; "0.0.0.0-82-HTTP"] ∧ lm_closed replace.1 = [1].
Proof. vm_compute. done. Qed.

Lemma replace_fails_witness :
  lm_active broken.1 = lm_active m0 ∧ lm_xdsManaged broken.1 = lm_xdsManaged m0 ∧
  old_services m0 broken.1 (as_before not_sixth).
Proof.
  exact (replace_fails makes prepares not_sixth always same_order same_order_perm m0 m0_wf
    [Some (http2 81)] broken.1 (NotStarted "0.0.0.0-81-HTTP2") m0_up broken_runs).
Defined.


(** A refresh, a failed one, a handoff, and the end. *)
Abbreviation requests :=
  [Upsert (Some (http 81 ["cors"])); Upsert (Some (http 81 [])); ReplaceAll [Some (http2 81)];
   Upsert (Some (http 80 ["jwt"])); Remove ["0.0.0.0-81-HTTP2"; "0.0.0.0-80-HTTP"]] (only parsing).
Abbreviation after := (foldl (xds_apply makes prepares always always same_order) m0 requests) (only parsing).

Example all_chains_closed : lm_closed after = [1; 2; 3] ∧ length (lm_chains after) = 4 ∧ HasListener after "0.0.0.0-80-HTTP" = true.
Proof. vm_compute. done. Qed.

Lemma replace_no_leak_witness :
  length requests = 5 ∧
  ∀ i s, lm_services after !! i = Some s → sv_closed s = false → ∃ key w, lm_active after !! key = Some w ∧ wr_service w = i.
Proof.
  exact (conj eq_refl (proj1 (replace_no_leak makes prepares always always same_order same_order_perm m0 requests m0_wf))).
Defined.

Abbreviation static := (mkWrapper 0 (http 80 ["cors"])) (only parsing).
Abbreviation static_service := (mkService (http 80 ["cors"]) true true true true false 0) (only parsing).

Lemma m0_static : static_entry m0 "0.0.0.0-80-HTTP" static static_service.
Proof. split_and!; [vm_compute; reflexivity| |vm_compute; reflexivity]. by apply (bool_decide_unpack _). Qed.

Lemma static_listeners_untouched_witness : static_entry after "0.0.0.0-80-HTTP" static static_service.
Proof.
  exact (static_listeners_untouched makes prepares always always same_order same_order_perm m0 requests
    "0.0.0.0-80-HTTP" static static_service m0_wf m0_static).
Defined.

(** ** What the other operations leave behind *)

(** [RemoveListener] forgets the listener, but not that xDS owns its key: a
    listener of the file that is added later under that key is closed by xDS. *)
Example removed_key_stays_owned :
  let m := RemoveListener m0 ["0.0.0.0-81-HTTP"] in
  HasListener m "0.0.0.0-81-HTTP" = false ∧ XDSListenerNames m = ["0.0.0.0-81-HTTP"] ∧
  let m := (AddListener makes always m (http 81 ["ratelimit"])).1 in
  HasListener m "0.0.0.0-81-HTTP" = true ∧
  HasListener (RemoveXDSListeners same_order m ["0.0.0.0-81-HTTP"]) "0.0.0.0-81-HTTP" = false.
Proof. vm_compute. done. Qed.

(** [AddListener] under a key that is taken: the service that was there stays
    open, and nothing refers to it. *)
Example added_twice_leaks :
  let m := (AddListener makes always boot (http 80 ["jwt"])).1 in
  sv_closed <$> lm_services m = [false; false] ∧ wr_service <$> lm_active m !! "0.0.0.0-80-HTTP" = Some 1 ∧
  size (lm_active m) = 1.
Proof. vm_compute. done. Qed.

(** [UpdateListener] with filters that cannot be built reports an error, and
    the entry has the new configuration while the service runs the old. *)
Example update_fails_half :
  let r := UpdateListener prepares boot (Some (http 80 [])) in
  r.2 = Some (NotPrepared "0.0.0.0-80-HTTP") ∧
  ln_FilterChain ∘ wr_config <$> lm_active r.1 !! "0.0.0.0-80-HTTP" = Some [] ∧
  sv_chain <$> lm_services r.1 !! 0 = Some 0.
Proof. vm_compute. done. Qed.
End listeners_demo.
