(* ===== verification/McpAdapter.v ===== *)
(** * The adapter for MCP servers in a registry

    [pkg/adapter/mcpserver]: a controller watches the servers that a registry
    lists ([registry/nacos/controller.go]), the adapter publishes what it
    reports to the tool catalog (McpDynamic) and, through a reconciler
    ([endpoint_reconciler.go]), to the clusters (ClusterManager).

    The reconciler works against the interface [endpointSink]; its theorems are
    proved from the laws of that interface, and the cluster manager is an
    instance.  The parser of [net/url], whose results depend on the version of
    the library, and the orders in which Go walks through maps are parameters.

    Theorems: after any history of updates each tool of the catalog that has a
    backend has its endpoint, with the address of its URL, no other endpoint was
    added or lost ([endpoints_follow_catalog]), and after the cleanup none is
    left ([cleanup_restores]); a controller keeps the servers that are listed
    ([reconcile_follows_list]) and withdraws all of them after three empty lists
    and none before ([empty_lists_deferred]). *)

From stdpp Require Import sorting.
From S2P Require Import Prelude GoStrings Sha256 Endpoint Snapshot LoadBalance Health Cluster ClusterStore StoreInv.
From S2P Require Import ClusterManager ManagerInv ManagerRun McpCatalog McpPolicy McpIdentity McpRegistry McpDynamic.
From S2P Require McpHttp.

(** ** Addresses, [common/util/url.go] *)

Record ParseResult : Type := mkParseResult { pr_Host : string; pr_Port : Z; pr_UsedFallback : bool }.

Inductive url_error : Type :=
  | EmptyURL
  | InvalidURL (raw : string)
  | MissingHost (raw : string)
  | InvalidPort (raw port : string).

(** What is in front of the last [c] of a string, and behind it. *)
Fixpoint CutLast (c : ascii) (s : string) : option (string * string) :=
  match s with
  | "" => None
  | String a s =>
      match CutLast c s with
      | Some (before, after) => Some (String a before, after)
      | None => if decide (a = c) then Some ("", s) else None
      end
  end.

(** [net.SplitHostPort] without the text of its errors. *)
Definition SplitHostPort (hostport : string) : option (string * string) :=
  match CutLast ":"%char hostport with
  | None => None
  | Some (before, port) =>
      match hostport with
      | String "["%char rest =>
          match Strings.IndexByte "]"%char rest with
          | None => None
          | Some k =>
              if decide (S (S k) = String.length before) then
                if Strings.HasByte "["%char rest || Strings.HasByte "]"%char port then None
                else Some (String.substring 0 k rest, port)
              else None
          end
      | _ =>
          if Strings.HasByte ":"%char before || Strings.HasByte "["%char hostport || Strings.HasByte "]"%char hostport
          then None else Some (before, port)
      end
  end.

Example split_plain : SplitHostPort "a:80" = Some ("a", "80") ∧ SplitHostPort "a" = None ∧ SplitHostPort "a:b:80" = None.
Proof. vm_compute. done. Qed.
Example split_bracket :
  SplitHostPort "[::1]:80" = Some ("::1", "80") ∧ SplitHostPort "[::1]" = None ∧ SplitHostPort "[a]b:80" = None ∧
  SplitHostPort "[a]:1:80" = None ∧ SplitHostPort ":80" = Some ("", "80").
Proof. vm_compute. done. Qed.

Definition getFallbackPort (scheme : string) : Z :=
  let scheme := McpHttp.ToLower scheme in
  if decide (scheme = "http") then 80 else if decide (scheme = "https") then 443 else 8080.

Definition parseHostPortWithFallback (hostport scheme originalURL : string) : result url_error ParseResult :=
  match SplitHostPort hostport with
  | None =>
      let host := TrimSpace hostport in
      if decide (host = "") then Err (MissingHost originalURL)
      else Ok (mkParseResult host (getFallbackPort scheme) true)
  | Some (host, portStr) =>
      match Atoi portStr with
      | None => Err (InvalidPort originalURL portStr)
      | Some port =>
          if decide (port ≤ 0)%Z then Err (InvalidPort originalURL portStr)
          else
            let host := TrimSpace host in
            if decide (host = "") then Err (MissingHost originalURL) else Ok (mkParseResult host port false)
      end
  end.

Section url.
(** [url.Parse]: the scheme and the host. *)
Context (url_Parse : string → option (string * string)).

Definition ParseHostPortFromURL (raw : string) : result url_error ParseResult :=
  if decide (raw = "") then Err EmptyURL
  else
    let addr := TrimSpace raw in
    if McpHttp.Contains addr "://" then
      match url_Parse addr with
      | None => Err (InvalidURL raw)
      | Some (scheme, host) =>
          if decide (host = "") then Err (MissingHost raw) else parseHostPortWithFallback host scheme raw
      end
    else parseHostPortWithFallback addr "" raw.

(** The errors of the invalid addresses are only logged when one is valid. *)
Definition ValidateNacosAddresses (addresses : string) : bool :=
  let parts := filter (λ part, part ≠ "") (map TrimSpace (Strings.SplitByte ","%char addresses)) in
  negb (bool_decide (TrimSpace addresses = "")) &&
  existsb (λ addr, match ParseHostPortFromURL addr with Ok _ => true | Err _ => false end) parts.

(** ** Endpoints of tools, [endpoint_reconciler.go] *)

Record publishedEndpoint : Type := mkPublishedEndpoint {
  pe_ClusterName : string;
  pe_EndpointID : string;
  pe_Address : SocketAddress;
}.

#[export] Instance publishedEndpoint_eq_dec : EqDecision publishedEndpoint.
Proof. solve_decision. Defined.

Definition sanitizeEndpointIDPart (value : string) : string :=
  if decide (value = "") then "_"
  else foldr (λ r s, (if plain_rune r then rune_char r else "_") +:+ s) "" (runes value).

Definition stableEndpointID (source : ServerSource) (toolName : string) : string :=
  "mcp/" +:+ source_Key (Normalize source) +:+ "/" +:+ sanitizeEndpointIDPart toolName.

Definition endpointPublishedEqual (a b : publishedEndpoint) : bool :=
  bool_decide (pe_ClusterName a = pe_ClusterName b) && bool_decide (pe_EndpointID a = pe_EndpointID b) &&
  SocketAddress_Equal (pe_Address a) (pe_Address b).

Inductive reconcile_error : Type :=
  | EmptyToolName (i : nat)
  | DuplicateTool (name : string)
  | BadBackendURL (tool : string) (e : url_error).

Definition desired_endpoint (source : ServerSource) (tool : ToolConfig) (r : ParseResult) : publishedEndpoint :=
  mkPublishedEndpoint (tool_Cluster tool) (stableEndpointID source (TrimSpace (tool_Name tool)))
    (mkSocketAddress (pr_Host r) (pr_Port r) "" [] "").

Fixpoint desired_loop (source : ServerSource) (i : nat) (tools : list ToolConfig) (desired : gmap string publishedEndpoint) :
    result reconcile_error (gmap string publishedEndpoint) :=
  match tools with
  | [] => Ok desired
  | tool :: tools =>
      if decide (tool_BackendURL tool = "") then desired_loop source (S i) tools desired
      else
        let name := TrimSpace (tool_Name tool) in
        if decide (name = "") then Err (EmptyToolName i)
        else if decide (is_Some (desired !! name)) then Err (DuplicateTool name)
        else
          match ParseHostPortFromURL (tool_BackendURL tool) with
          | Err e => Err (BadBackendURL (tool_Name tool) e)
          | Ok r => desired_loop source (S i) tools (<[name := desired_endpoint source tool r]> desired)
          end
  end.

Definition buildDesiredEndpoints (source : ServerSource) (cfg : option McpServerConfig) :
    result reconcile_error (gmap string publishedEndpoint) :=
  match cfg with
  | None => Ok ∅
  | Some cfg => desired_loop (Normalize source) 0 (msc_Tools cfg) ∅
  end.
End url.

(** Where the reconciler puts endpoints. *)
Class endpointSink (S : Type) : Type := {
  sink_SetEndpoint : S → string → Endpoint → S;
  sink_DeleteEndpoint : S → string → string → S;
}.

Record endpointReconciler (S : Type) : Type := mkReconciler {
  sink : S;
  published : gmap ServerSource (gmap string publishedEndpoint);
}.
Arguments mkReconciler {S} _ _.
Arguments sink {S} _.
Arguments published {S} _.

Definition newEndpointReconciler {S : Type} (s : S) : endpointReconciler S := mkReconciler s ∅.

Definition new_endpoint (pe : publishedEndpoint) : Endpoint :=
  mkEndpoint (pe_EndpointID pe) "" (pe_Address pe) ∅ false None.

Section reconciler.
Context {S : Type} `{!endpointSink S}.
Context (url_Parse : string → option (string * string)).
Context (range_tools : gmap string publishedEndpoint → list (string * publishedEndpoint)).
Context (range_sources : gmap ServerSource (gmap string publishedEndpoint) → list (ServerSource * gmap string publishedEndpoint)).
Implicit Types (r : endpointReconciler S) (source : ServerSource) (desired previous : gmap string publishedEndpoint).

Definition delete_published (s : S) (old : publishedEndpoint) : S :=
  sink_DeleteEndpoint s (pe_ClusterName old) (pe_EndpointID old).

(** The endpoints that are withdrawn, and those that are set. *)
Definition withdraw (s : S) previous desired : S :=
  foldl (λ s '(toolName, old),
    match desired !! toolName with
    | Some next =>
        if decide (pe_ClusterName old = pe_ClusterName next ∧ pe_EndpointID old = pe_EndpointID next) then s
        else delete_published s old
    | None => delete_published s old
    end) s (range_tools previous).

Definition announce (s : S) previous desired : S :=
  foldl (λ s '(toolName, next),
    if match previous !! toolName with Some old => endpointPublishedEqual old next | None => false end then s
    else sink_SetEndpoint s (pe_ClusterName next) (new_endpoint next)) s (range_tools desired).

Definition ApplyPlan r source desired : endpointReconciler S :=
  let source := Normalize source in
  let previous := default ∅ (published r !! source) in
  let s := announce (withdraw (sink r) previous desired) previous desired in
  mkReconciler s (if decide (desired = ∅) then delete source (published r) else <[source := desired]> (published r)).

Definition PrepareServerConfig source (cfg : option McpServerConfig) :
    result reconcile_error (ServerSource * gmap string publishedEndpoint) :=
  let source := Normalize source in
  match buildDesiredEndpoints url_Parse source cfg with
  | Err e => Err e
  | Ok desired => Ok (source, desired)
  end.

Definition ApplyServerConfig r source (cfg : option McpServerConfig) : endpointReconciler S * option reconcile_error :=
  match PrepareServerConfig source cfg with
  | Err e => (r, Some e)
  | Ok (source, desired) => (ApplyPlan r source desired, None)
  end.

Definition RemoveSource r source : endpointReconciler S := (ApplyServerConfig r source None).1.

Definition RemoveAll r : endpointReconciler S :=
  mkReconciler
    (foldl (λ s '(_, previous), foldl (λ s '(_, old), delete_published s old) s (range_tools previous))
       (sink r) (range_sources (published r))) ∅.
End reconciler.

(** ** The adapter, [registrycenter.go] *)

(** [a.sink] is set again by each event, and [publishedSources] is only written. *)
Record Adapter (S : Type) : Type := mkAdapter {
  ad_endpoints : endpointReconciler S;
  ad_consumer : DynamicConsumer;
  ad_publishedSources : gmap string ServerSource;
}.
Arguments mkAdapter {S} _ _ _.
Arguments ad_endpoints {S} _.
Arguments ad_consumer {S} _.
Arguments ad_publishedSources {S} _.

Section adapter.
Context {S : Type} `{!endpointSink S}.
Context (url_Parse : string → option (string * string)).
Context (ToolJSON : ToolConfig → option string) (ToolGo : ToolConfig → string).
Context (range : gmap ServerSource ServerToolConfig → list ServerSource).
Context (range_tools : gmap string publishedEndpoint → list (string * publishedEndpoint)).
Context (range_sources : gmap ServerSource (gmap string publishedEndpoint) → list (ServerSource * gmap string publishedEndpoint)).
Implicit Types (a : Adapter S) (source : ServerSource).

Definition trackPublishedSource a source : Adapter S :=
  let source := Normalize source in
  mkAdapter (ad_endpoints a) (ad_consumer a) (<[source_Key source := source]> (ad_publishedSources a)).
Definition untrackPublishedSource a source : Adapter S :=
  mkAdapter (ad_endpoints a) (ad_consumer a) (delete (source_Key (Normalize source)) (ad_publishedSources a)).

(** [bound]: the runtime has a consumer, with an identity, to publish to. *)
Definition applyServerConfigEvent a (registryName serverId : string) (cfg : option McpServerConfig) (bound : bool) :
    Adapter S :=
  let source := NewServerSource registryName serverId in
  if negb bound then a
  else
    match cfg with
    | None =>
        let '(d, r) := ApplyMcpServerConfigBySource ToolJSON ToolGo range (ad_consumer a) source None in
        match r with
        | Err _ => mkAdapter (ad_endpoints a) d (ad_publishedSources a)
        | Ok _ =>
            untrackPublishedSource
              (mkAdapter (RemoveSource url_Parse range_tools (ad_endpoints a) source) d (ad_publishedSources a)) source
        end
    | Some _ =>
        match PrepareServerConfig url_Parse source cfg with
        | Err _ => a
        | Ok (planned, desired) =>
            let '(d, r) := ApplyMcpServerConfigBySource ToolJSON ToolGo range (ad_consumer a) source cfg in
            match r with
            | Err _ => mkAdapter (ad_endpoints a) d (ad_publishedSources a)
            | Ok _ =>
                trackPublishedSource
                  (mkAdapter (ApplyPlan range_tools (ad_endpoints a) planned desired) d (ad_publishedSources a)) source
            end
        end
    end.

(** An error of the catalog is logged. *)
Definition removeAllDynamicPublication a (bound : bool) : Adapter S :=
  let d := if bound then (RemoveAllMcpServerConfigs ToolJSON ToolGo (ad_consumer a)).1 else ad_consumer a in
  mkAdapter (RemoveAll range_tools range_sources (ad_endpoints a)) d ∅.

(** What reaches the adapter: the report of a controller, and the cleanup of
    [Stop] and of [Apply]. *)
Inductive adapter_event : Type :=
  | Report (registryName serverId : string) (cfg : option McpServerConfig) (bound : bool)
  | Cleanup (bound : bool).

Definition handle a (ev : adapter_event) : Adapter S :=
  match ev with
  | Report registryName serverId cfg bound => applyServerConfigEvent a registryName serverId cfg bound
  | Cleanup bound => removeAllDynamicPublication a bound
  end.
End adapter.

(** ** What an endpoint sink promises *)

(** [look s c id] is the address of an endpoint; [ok k s] says that [s] is
    well-formed and takes [k] more endpoints. *)
Class SinkLaws (S : Type) `{!endpointSink S} (ok : nat → S → Prop) (look : S → string → string → option SocketAddress) :
    Prop := {
  ok_less k s : ok (Datatypes.S k) s → ok k s;
  set_ok k s c e : ok (Datatypes.S k) s → c ≠ "" → EID e ≠ "" → ok k (sink_SetEndpoint s c e);
  look_set k s c e c' id' : ok (Datatypes.S k) s → c ≠ "" → EID e ≠ "" →
    look (sink_SetEndpoint s c e) c' id' = if decide (c' = c ∧ id' = EID e) then Some (EAddress e) else look s c' id';
  delete_ok k s c id : ok k s → ok k (sink_DeleteEndpoint s c id);
  look_delete k s c id c' id' : ok k s →
    look (sink_DeleteEndpoint s c id) c' id' = if decide (c' = c ∧ id' = id) then None else look s c' id';
}.

Section client.
Context {S : Type} `{!endpointSink S} {ok : nat → S → Prop} {look : S → string → string → option SocketAddress}.
Context `{!SinkLaws S ok look}.
Context (url_Parse : string → option (string * string)).
Context (range_tools : gmap string publishedEndpoint → list (string * publishedEndpoint)).
Context (range_sources : gmap ServerSource (gmap string publishedEndpoint) → list (ServerSource * gmap string publishedEndpoint)).
Context (tools_perm : ∀ m, range_tools m ≡ₚ map_to_list m).
Context (sources_perm : ∀ m, range_sources m ≡ₚ map_to_list m).
(** The sources and tools at hand, with their clusters; in a cluster the
    identities are apart. *)
Context (known : ServerSource → string → string → Prop).
Context (ids_apart : ∀ s1 t1 s2 t2 c, known s1 t1 c → known s2 t2 c →
  stableEndpointID s1 t1 = stableEndpointID s2 t2 → s1 = s2 ∧ t1 = t2).
(** What the sink holds of others. *)
Context (L0 : string → string → option SocketAddress).
Context (L0_fresh : ∀ s t c, known s t c → L0 c (stableEndpointID s t) = None).
Implicit Types (r : endpointReconciler S) (source : ServerSource) (desired previous : gmap string publishedEndpoint).
Implicit Types (pe old next : publishedEndpoint) (s : S).

Definition key_of pe : string * string := (pe_ClusterName pe, pe_EndpointID pe).

Lemma look_delete_all k s l :
  ok k s → ok k (foldl delete_published s l) ∧
  ∀ c id, look (foldl delete_published s l) c id = if decide ((c, id) ∈ map key_of l) then None else look s c id.
Proof.
  revert s. induction l as [|pe l IH]; intros s Hok; cbn [foldl map].
  { split; [done|]. intros c id. by rewrite decide_False by apply not_elem_of_nil. }
  pose proof (delete_ok k s (pe_ClusterName pe) (pe_EndpointID pe) Hok) as Hok1. destruct (IH _ Hok1) as [Hok2 H].
  split; [done|]. intros c id. unfold delete_published in *. rewrite H, (look_delete k) by done.
  destruct (decide ((c, id) ∈ map key_of l)) as [H1|H1], (decide (c = pe_ClusterName pe ∧ id = pe_EndpointID pe)) as [H2|H2],
    (decide ((c, id) ∈ _ :: map key_of l)) as [H3|H3]; try done; rewrite elem_of_cons in H3.
  - destruct H3. by right.
  - destruct H3. by right.
  - destruct H3. left. unfold key_of. destruct H2. congruence.
  - destruct H3 as [[= -> ->]|H3]; [by destruct H2|done].
Qed.

Lemma look_set_all k s l :
  ok (length l + k) s → NoDup (map key_of l) → (∀ pe, pe ∈ l → pe_ClusterName pe ≠ "" ∧ pe_EndpointID pe ≠ "") →
  let s' := foldl (λ s pe, sink_SetEndpoint s (pe_ClusterName pe) (new_endpoint pe)) s l in
  ok k s' ∧ (∀ pe, pe ∈ l → look s' (pe_ClusterName pe) (pe_EndpointID pe) = Some (pe_Address pe)) ∧
  ∀ c id, (c, id) ∉ map key_of l → look s' c id = look s c id.
Proof.
  revert s. induction l as [|pe l IH]; intros s Hok Hnd Hne; simpl.
  { split_and!; [done|by intros pe ?%not_elem_of_nil|done]. }
  destruct (Hne pe) as [Hc Hid]; [constructor|]. simpl in Hnd. apply NoDup_cons in Hnd as [Hfr Hnd].
  pose proof (set_ok _ s _ (new_endpoint pe) Hok Hc Hid) as Hok1.
  destruct (IH _ Hok1 Hnd) as (Hok2 & Hin & Hout); [intros pe' ?; apply Hne; by constructor|].
  split_and!; [done| |].
  - intros pe' [->|Hpe]%elem_of_cons; [|by apply Hin]. rewrite Hout.
    + rewrite (look_set (length l + k)) by done. by rewrite decide_True.
    + done.
  - intros c id Hn. apply not_elem_of_cons in Hn as [Hn1 Hn2]. rewrite Hout by done.
    rewrite (look_set (length l + k)) by done. rewrite decide_False; [done|]. intros [-> ->]. by apply Hn1.
Qed.

(** The loops of [ApplyPlan] as lists. *)
Definition leaves desired (p : string * publishedEndpoint) : bool :=
  match desired !! p.1 with
  | Some next => negb (bool_decide (pe_ClusterName p.2 = pe_ClusterName next ∧ pe_EndpointID p.2 = pe_EndpointID next))
  | None => true
  end.
Definition arrives previous (p : string * publishedEndpoint) : bool :=
  match previous !! p.1 with Some old => negb (endpointPublishedEqual old p.2) | None => true end.

Lemma withdraw_list s previous desired :
  withdraw range_tools s previous desired = foldl delete_published s (map snd (filter (λ p, leaves desired p = true) (range_tools previous))).
Proof.
  unfold withdraw. revert s. induction (range_tools previous) as [|[t old] l IH]; intros s; simpl; [done|].
  rewrite IH, filter_cons. destruct (decide (leaves desired (t, old) = true)) as [E|E]; unfold leaves in E; simpl in E;
    (destruct (desired !! t) as [next|]; [|done || congruence]);
    destruct (decide (pe_ClusterName old = pe_ClusterName next ∧ pe_EndpointID old = pe_EndpointID next)) as [D|D]; try done.
  - by rewrite bool_decide_eq_true_2 in E.
  - by rewrite bool_decide_eq_false_2 in E.
Qed.

Lemma announce_list s previous desired :
  announce range_tools s previous desired =
    foldl (λ s pe, sink_SetEndpoint s (pe_ClusterName pe) (new_endpoint pe)) s
      (map snd (filter (λ p, arrives previous p = true) (range_tools desired))).
Proof.
  unfold announce. revert s. induction (range_tools desired) as [|[t next] l IH]; intros s; simpl; [done|].
  rewrite IH, filter_cons. destruct (decide (arrives previous (t, next) = true)) as [E|E]; unfold arrives in E; simpl in E;
    (destruct (previous !! t) as [old|]; [|done || congruence]);
    by destruct (endpointPublishedEqual old next).
Qed.

(** *** The invariant of the reconciler *)

Definition holds r source (t : string) pe : Prop :=
  ∃ d, published r !! source = Some d ∧ d !! t = Some pe.

Record shape source (t : string) pe : Prop := mkShape {
  sh_known : known source t (pe_ClusterName pe);
  sh_id : pe_EndpointID pe = stableEndpointID source t;
  sh_cluster : pe_ClusterName pe ≠ "";
  sh_address : ∃ h p, pe_Address pe = mkSocketAddress h p "" [] "";
}.

Record rec_ok (k : nat) r : Prop := mkRecOk {
  ro_sink : ok k (sink r);
  ro_shape : ∀ source t pe, holds r source t pe → shape source t pe;
  ro_set : ∀ source t pe, holds r source t pe → look (sink r) (pe_ClusterName pe) (pe_EndpointID pe) = Some (pe_Address pe);
  ro_other : ∀ c id, (∀ source t pe, holds r source t pe → key_of pe ≠ (c, id)) → look (sink r) c id = L0 c id;
}.

Lemma shape_unique (s1 s2 : ServerSource) t1 p1 t2 p2 :
  shape s1 t1 p1 → shape s2 t2 p2 → key_of p1 = key_of p2 → s1 = s2 ∧ t1 = t2.
Proof.
  intros [K1 I1 _ _] [K2 I2 _ _] [= Ec Ei]. rewrite I1, I2 in Ei. rewrite <- Ec in K2. by eapply ids_apart.
Qed.

Lemma shape_id_not_empty source t pe : shape source t pe → pe_EndpointID pe ≠ "".
Proof. intros H. rewrite (sh_id _ _ _ H). done. Qed.

Lemma equal_published (s1 s2 : ServerSource) t1 p1 t2 p2 :
  shape s1 t1 p1 → shape s2 t2 p2 → endpointPublishedEqual p1 p2 = true → p1 = p2.
Proof.
  intros [_ _ _ (h1 & n1 & A1)] [_ _ _ (h2 & n2 & A2)]. unfold endpointPublishedEqual. rewrite A1, A2.
  destruct p1, p2. simpl in *. subst. unfold SocketAddress_Equal. simpl.
  rewrite !andb_true_iff, !bool_decide_eq_true. intros [[-> ->] [-> ->]]. done.
Qed.

Lemma elem_filter_range (P : string * publishedEndpoint → bool) (m : gmap string publishedEndpoint) pe :
  pe ∈ map snd (filter (λ p, P p = true) (range_tools m)) ↔ ∃ t, m !! t = Some pe ∧ P (t, pe) = true.
Proof.
  clear - tools_perm. rewrite list_elem_of_fmap. split.
  - intros ([t pe'] & -> & [HP Hin]%list_elem_of_filter). rewrite tools_perm in Hin. apply elem_of_map_to_list in Hin. by exists t.
  - intros (t & Hm & HP). exists (t, pe). split; [done|]. apply list_elem_of_filter. split; [done|].
    rewrite tools_perm. by apply elem_of_map_to_list.
Qed.

Lemma announced_nodup (P : string * publishedEndpoint → bool) source (m : gmap string publishedEndpoint) :
  (∀ t pe, m !! t = Some pe → shape source t pe) →
  NoDup (map key_of (map snd (filter (λ p, P p = true) (range_tools m)))) ∧
  length (map snd (filter (λ p, P p = true) (range_tools m))) ≤ size m.
Proof.
  intros Hsh. rewrite map_map. split.
  - apply NoDup_fmap_2_strong.
    + intros [t1 p1] [t2 p2] [_ H1]%list_elem_of_filter [_ H2]%list_elem_of_filter E. simpl in E.
      rewrite tools_perm in H1, H2. apply elem_of_map_to_list in H1, H2.
      destruct (shape_unique _ _ _ _ _ _ (Hsh _ _ H1) (Hsh _ _ H2) E) as [_ ->]. congruence.
    + apply NoDup_filter. rewrite tools_perm. apply NoDup_map_to_list.
  - rewrite length_map, <- length_map_to_list, <- tools_perm. apply length_filter.
Qed.

Lemma ok_mono k n s : ok (k + n) s → ok n s.
Proof. induction k as [|k IH]; [done|]. intros H. apply IH. by apply (ok_less (k + n)). Qed.

Lemma holds_apply r source desired (s' : ServerSource) t pe :
  Normalize source = source →
  holds (ApplyPlan range_tools r source desired) s' t pe ↔
    (s' = source ∧ desired !! t = Some pe) ∨ (s' ≠ source ∧ holds r s' t pe).
Proof.
  intros Hn. unfold holds, ApplyPlan. rewrite Hn. simpl. destruct (decide (s' = source)) as [->|Hne].
  - case_decide as E.
    + subst desired. rewrite lookup_delete_eq. split; [by intros (d & ? & _)|].
      intros [[_ H]|[? _]]; [by rewrite lookup_empty in H|done].
    + rewrite lookup_insert_eq. split; [intros (d & [= <-] & ?); by left|].
      intros [[_ H]|[? _]]; [by exists desired|done].
  - assert ((if decide (desired = ∅) then delete source (published r) else <[source:=desired]> (published r)) !! s' =
      published r !! s') as ->.
    { case_decide; [by rewrite lookup_delete_ne|by rewrite lookup_insert_ne]. }
    split; [by right|]. intros [[? _]|[_ ?]]; done.
Qed.

(** After a plan the sink holds exactly what is wanted. *)
Lemma apply_plan_ok k r source desired :
  Normalize source = source → rec_ok (size desired + k) r →
  (∀ t pe, desired !! t = Some pe → shape source t pe) → rec_ok k (ApplyPlan range_tools r source desired).
Proof.
  intros Hn [R1 R2 R3 R4] Hsh. set (previous := default ∅ (published r !! source)).
  assert (∀ t pe, previous !! t = Some pe ↔ holds r source t pe) as Hprev.
  { intros t pe. unfold previous, holds. destruct (published r !! source) as [d|]; simpl.
    - split; [by exists d|]. by intros (d' & [= <-] & ?).
    - rewrite lookup_empty. split; [done|]. by intros (d' & ? & _). }
  set (gone := map snd (filter (λ p, leaves desired p = true) (range_tools previous))).
  set (news := map snd (filter (λ p, arrives previous p = true) (range_tools desired))).
  destruct (look_delete_all _ (sink r) gone R1) as [D1 D2].
  destruct (announced_nodup (arrives previous) source desired Hsh) as [Hnd Hlen]. fold news in Hnd, Hlen.
  set (s1 := foldl delete_published (sink r) gone) in *.
  destruct (look_set_all (size desired - length news + k) s1 news) as (A1 & A2 & A3); [|done| |].
  { replace (length news + (size desired - length news + k)) with (size desired + k) by lia. done. }
  { intros pe (t & Ht & _)%elem_filter_range. split; [apply (Hsh _ _ Ht)|by eapply shape_id_not_empty, Hsh]. }
  assert (sink (ApplyPlan range_tools r source desired) =
    foldl (λ s pe, sink_SetEndpoint s (pe_ClusterName pe) (new_endpoint pe)) s1 news) as Hsink.
  { unfold ApplyPlan. rewrite Hn. simpl. fold previous. by rewrite announce_list, withdraw_list. }
  cbv zeta in A1, A2, A3. rewrite <- Hsink in A1, A2, A3. clear Hsink.
  assert (∀ (s' : ServerSource) t pe, holds (ApplyPlan range_tools r source desired) s' t pe → shape s' t pe) as Hsh'.
  { intros s' t pe [[-> H]|[_ H]]%(holds_apply r source desired s' t pe Hn); auto. }
  split; [by eapply ok_mono|done| |].
  - intros s' t pe Hh. pose proof (Hsh' _ _ _ Hh) as Sh. apply (holds_apply r source desired s' t pe Hn) in Hh.
    destruct (decide (pe ∈ news)) as [Hin|Hnot]; [by apply A2|].
    assert (holds r s' t pe ∧ (s' = source → desired !! t = Some pe)) as [Hold Hdes].
    { destruct Hh as [[-> Hd]|[Hne Hh]]; [|by split]. split; [|done]. apply Hprev.
      destruct (previous !! t) as [old|] eqn:E.
      - destruct (endpointPublishedEqual old pe) eqn:Eq.
        + f_equal. eapply equal_published; [|done|done]. eapply R2. by apply Hprev.
        + destruct Hnot. apply elem_filter_range. exists t. split; [done|]. unfold arrives. simpl. by rewrite E, Eq.
      - destruct Hnot. apply elem_filter_range. exists t. split; [done|]. unfold arrives. simpl. by rewrite E. }
    rewrite A3, D2, decide_False.
    + by apply (R3 s' t).
    + intros (old & [= Hc Hid] & (t' & Ht & Hl)%elem_filter_range)%list_elem_of_fmap.
      apply Hprev in Ht. destruct (shape_unique _ _ _ _ _ _ Sh (R2 _ _ _ Ht)) as [-> ->]; [unfold key_of; congruence|].
      unfold leaves in Hl. simpl in Hl. rewrite Hdes in Hl by done. apply negb_true_iff, bool_decide_eq_false in Hl. by apply Hl.
    + intros (new & [= Hc Hid] & Hin)%list_elem_of_fmap. pose proof Hin as (t' & Ht & _)%elem_filter_range.
      destruct (shape_unique _ _ _ _ _ _ Sh (Hsh _ _ Ht)) as [-> ->]; [unfold key_of; congruence|]. rewrite Hdes in Ht by done. congruence.
  - intros c id Hno. rewrite A3.
    + rewrite D2. case_decide as Hg.
      * apply list_elem_of_fmap in Hg as (old & [= -> ->] & (t & Ht & _)%elem_filter_range). apply Hprev, R2 in Ht.
        rewrite (sh_id _ _ _ Ht). symmetry. apply L0_fresh, Ht.
      * apply R4. intros s' t pe Hh Hk. destruct (decide (s' = source)) as [->|Hne].
        -- destruct (desired !! t) as [next|] eqn:E; [destruct (leaves desired (t, pe)) eqn:El|].
           ++ apply Hg, list_elem_of_fmap. exists pe. split; [done|]. apply elem_filter_range. exists t. by rewrite Hprev.
           ++ apply (Hno source t next); [apply (holds_apply r source desired source t next Hn); by left|].
              unfold leaves in El. simpl in El. rewrite E in El. apply negb_false_iff, bool_decide_eq_true in El as [E1 E2].
              rewrite <- Hk. unfold key_of. congruence.
           ++ apply Hg, list_elem_of_fmap. exists pe. split; [done|]. apply elem_filter_range. exists t. rewrite Hprev.
              split; [done|]. unfold leaves. simpl. by rewrite E.
        -- apply (Hno s' t pe); [|done]. apply (holds_apply r source desired s' t pe Hn). by right.
    + intros (new & [= -> ->] & (t & Ht & _)%elem_filter_range)%list_elem_of_fmap.
      apply (Hno source t new); [|done]. apply (holds_apply r source desired source t new Hn). by left.
Qed.

(** After [RemoveAll] the sink holds what others put there. *)
Lemma reconciler_remove_all_ok k r :
  rec_ok k r → let r' := RemoveAll range_tools range_sources r in
  rec_ok k r' ∧ published r' = ∅ ∧ ∀ c id, look (sink r') c id = L0 c id.
Proof.
  intros [R1 R2 R3 R4] r'.
  assert (sink r' = foldl delete_published (sink r)
    (range_sources (published r) ≫= λ p, map snd (range_tools p.2))) as Hs.
  { unfold r', RemoveAll. simpl. generalize (sink r). induction (range_sources (published r)) as [|[source d] l IH]; intros s; [done|].
    simpl. rewrite foldl_app, IH. f_equal. clear IH. revert s. induction (range_tools d) as [|[t pe] l' IH']; intros s; simpl; [done|].
    apply IH'. }
  destruct (look_delete_all k (sink r) (range_sources (published r) ≫= λ p, map snd (range_tools p.2)) R1) as [D1 D2].
  rewrite <- Hs in D1, D2.
  assert (∀ pe, pe ∈ (range_sources (published r) ≫= λ p, map snd (range_tools p.2)) ↔ ∃ source t, holds r source t pe) as Hin.
  { intros pe. rewrite list_elem_of_bind. setoid_rewrite list_elem_of_fmap. setoid_rewrite sources_perm. setoid_rewrite tools_perm.
    split.
    - intros ([source d] & ([t pe'] & -> & Ht) & Hd). apply elem_of_map_to_list in Ht, Hd. by exists source, t, d.
    - intros (source & t & d & Hd & Ht). exists (source, d). split; [exists (t, pe); split; [done|]|];
        by apply elem_of_map_to_list. }
  assert (∀ c id, look (sink r') c id = L0 c id) as Hall.
  { intros c id. rewrite D2. case_decide as Hk.
    - apply list_elem_of_fmap in Hk as (pe & [= -> ->] & (source & t & Hh)%Hin). apply R2 in Hh.
      rewrite (sh_id _ _ _ Hh). symmetry. apply L0_fresh, Hh.
    - apply R4. intros source t pe Hh Heq. apply Hk, list_elem_of_fmap. exists pe. split; [done|]. apply Hin. eauto. }
  assert (∀ source t pe, ¬ holds r' source t pe) as Hno by (intros source t pe (d & Hd & _); simpl in Hd; by rewrite lookup_empty in Hd).
  split_and!; [split|done|done]; [done|..|done]; intros source t pe Hh; by apply Hno in Hh.
Qed.

Lemma desired_loop_spec source i tools acc d :
  desired_loop url_Parse source i tools acc = Ok d →
  ∀ t pe, d !! t = Some pe ↔ acc !! t = Some pe ∨
    ∃ tool res, tool ∈ tools ∧ tool_BackendURL tool ≠ "" ∧ TrimSpace (tool_Name tool) = t ∧
      ParseHostPortFromURL url_Parse (tool_BackendURL tool) = Ok res ∧ pe = desired_endpoint source tool res.
Proof.
  clear. revert i acc. induction tools as [|tool tools IH]; intros i acc; simpl.
  { intros [= <-] t pe. split; [by left|]. by intros [?|(? & ? & ?%not_elem_of_nil & _)]. }
  assert (∀ t pe, (∃ tool0 res, tool0 ∈ tool :: tools ∧ tool_BackendURL tool0 ≠ "" ∧ TrimSpace (tool_Name tool0) = t ∧
      ParseHostPortFromURL url_Parse (tool_BackendURL tool0) = Ok res ∧ pe = desired_endpoint source tool0 res) ↔
    (∃ res, tool_BackendURL tool ≠ "" ∧ TrimSpace (tool_Name tool) = t ∧
      ParseHostPortFromURL url_Parse (tool_BackendURL tool) = Ok res ∧ pe = desired_endpoint source tool res) ∨
    ∃ tool0 res, tool0 ∈ tools ∧ tool_BackendURL tool0 ≠ "" ∧ TrimSpace (tool_Name tool0) = t ∧
      ParseHostPortFromURL url_Parse (tool_BackendURL tool0) = Ok res ∧ pe = desired_endpoint source tool0 res) as Hcons.
  { intros t pe. setoid_rewrite elem_of_cons. split.
    - intros (tool0 & res & [->|Hin] & H); [left; by exists res|right; by exists tool0, res].
    - intros [(res & H)|(tool0 & res & Hin & H)]; [exists tool, res; auto|exists tool0, res; auto]. }
  case_decide as Hu; [|case_decide as Hn; [done|]; case_decide as Hd; [done|]].
  - intros H t pe. rewrite (IH _ _ H t pe), Hcons. split; [intros [?|?]; auto|]. intros [?|[(res & ? & _)|?]]; auto; done.
  - destruct (ParseHostPortFromURL _ _) as [res|e] eqn:Ep; [|done]. intros H t pe. rewrite (IH _ _ H t pe), Hcons, lookup_insert_Some.
    rewrite <- eq_None_not_Some in Hd. split.
    + intros [[[<- <-]|[? ?]]|?]; auto. right. left. by exists res.
    + intros [Ha|[(res' & _ & <- & [= <-] & ->)|?]]; auto. left. right. split; [|done]. intros <-. congruence.
Qed.

Lemma desired_loop_parsed source i tools acc d tool :
  desired_loop url_Parse source i tools acc = Ok d → tool ∈ tools → tool_BackendURL tool ≠ "" →
  ∃ res, ParseHostPortFromURL url_Parse (tool_BackendURL tool) = Ok res.
Proof.
  clear. revert i acc. induction tools as [|tool0 tools IH]; intros i acc H Hin Hu; [by apply not_elem_of_nil in Hin|].
  simpl in H. apply elem_of_cons in Hin as [->|Hin].
  - rewrite decide_False in H by done. case_decide; [done|]. case_decide; [done|].
    destruct (ParseHostPortFromURL url_Parse (tool_BackendURL tool0)) as [res|e]; [eauto|done].
  - case_decide; [by eapply IH|]. case_decide; [done|]. case_decide; [done|].
    destruct (ParseHostPortFromURL url_Parse (tool_BackendURL tool0)); [by eapply IH|done].
Qed.

Lemma desired_loop_size source i tools acc d :
  desired_loop url_Parse source i tools acc = Ok d → size d ≤ size acc + length tools.
Proof.
  clear. revert i acc. induction tools as [|tool tools IH]; intros i acc; simpl; [intros [= <-]; lia|].
  case_decide; [intros ?%IH; lia|]. case_decide; [done|]. case_decide as Hd; [done|]. destruct (ParseHostPortFromURL _ _); [|done].
  intros H1%IH. rewrite map_size_insert_None in H1 by (by apply eq_None_not_Some). lia.
Qed.

(** *** The adapter *)

Context (ToolJSON : ToolConfig → option string) (ToolGo : ToolConfig → string).
Context (range : gmap ServerSource ServerToolConfig → list ServerSource).
Context (range_keys : ∀ configs, range configs ≡ₚ elements (dom configs)).
Context (lists : list (list ToolConfig)).
Context (no_collision : ∀ l1 l2, l1 ∈ lists → l2 ∈ lists →
  calculateFingerprint ToolJSON ToolGo l1 = calculateFingerprint ToolJSON ToolGo l2 → l1 ≡ₚ l2).
Context (snap0 : ToolCatalogSnapshot) (governance : bool).
Implicit Types (a : Adapter S) (m : gmap ServerSource (list ToolConfig)).

#[local] Abbreviation handle := (handle url_Parse ToolJSON ToolGo range range_tools range_sources).

Record adapter_ok (k : nat) (touched : bool) a m : Prop := mkAdapterOk {
  ao_rec : rec_ok k (ad_endpoints a);
  ao_catalog : implements ToolJSON ToolGo lists snap0 governance touched (ad_consumer a) m;
  ao_agree : ∀ source,
    match m !! source with
    | Some l => desired_loop url_Parse source 0 l ∅ = Ok (default ∅ (published (ad_endpoints a) !! source))
    | None => published (ad_endpoints a) !! source = None
    end;
}.

Definition event_ok (ev : adapter_event) : Prop :=
  match ev with
  | Report registryName serverId (Some cfg) _ =>
      msc_Tools cfg ∈ lists ∧
      ∀ tool, tool ∈ msc_Tools cfg → tool_BackendURL tool ≠ "" →
        known (NewServerSource registryName serverId) (TrimSpace (tool_Name tool)) (tool_Cluster tool) ∧ tool_Cluster tool ≠ ""
  | Report _ _ None _ => True
  | Cleanup bound => bound = true
  end.

Definition event_cost (ev : adapter_event) : nat :=
  match ev with Report _ _ (Some cfg) _ => length (msc_Tools cfg) | _ => 0 end.

Lemma rec_less k n r : rec_ok (k + n) r → rec_ok n r.
Proof. intros [R1 R2 R3 R4]. split; [by eapply ok_mono|done..]. Qed.

Lemma adapter_less k n touched a m : adapter_ok (k + n) touched a m → adapter_ok n touched a m.
Proof. intros [A1 A2 A3]. split; [by eapply rec_less|done..]. Qed.

(** A plan for one source, when the catalog took the same tools. *)
Lemma plan_agrees r source (l : option (list ToolConfig)) d m :
  Normalize source = source →
  match l with Some tools => desired_loop url_Parse source 0 tools ∅ = Ok d | None => d = ∅ end →
  (∀ s : ServerSource, match m !! s with
        | Some l => desired_loop url_Parse s 0 l ∅ = Ok (default ∅ (published r !! s))
        | None => published r !! s = None end) →
  ∀ s : ServerSource, match (match l with Some tools => <[source := tools]> m | None => delete source m end) !! s with
       | Some l => desired_loop url_Parse s 0 l ∅ = Ok (default ∅ (published (ApplyPlan range_tools r source d) !! s))
       | None => published (ApplyPlan range_tools r source d) !! s = None
       end.
Proof.
  intros Hn Hd Hag s. unfold ApplyPlan. rewrite Hn. simpl. destruct (decide (s = source)) as [->|Hne].
  - destruct l as [tools|].
    + rewrite lookup_insert_eq, Hd. f_equal. case_decide as E; [by rewrite lookup_delete_eq|by rewrite lookup_insert_eq].
    + subst d. rewrite lookup_delete_eq, decide_True by done. by rewrite lookup_delete_eq.
  - assert ((if decide (d = ∅) then delete source (published r) else <[source:=d]> (published r)) !! s = published r !! s) as ->.
    { case_decide; [by rewrite lookup_delete_ne|by rewrite lookup_insert_ne]. }
    specialize (Hag s). destruct l; by rewrite ?lookup_insert_ne, ?lookup_delete_ne.
Qed.

Lemma report_ok k touched a m registryName serverId cfg bound :
  adapter_ok (event_cost (Report registryName serverId cfg bound) + k) touched a m →
  event_ok (Report registryName serverId cfg bound) →
  ∃ touched' m', adapter_ok k touched' (handle a (Report registryName serverId cfg bound)) m'.
Proof.
  intros A Hev. unfold McpAdapter.handle, applyServerConfigEvent. set (source := NewServerSource registryName serverId).
  assert (Normalize source = source) as Hn by apply Normalize_idemp.
  destruct bound; cbn [negb]; [|exists touched, m; by eapply adapter_less]. pose proof A as [A1 A2 A3].
  pose proof (step_refines ToolJSON ToolGo range range_keys lists no_collision snap0 governance touched (ad_consumer a) m
    (DApply source cfg) A2) as Hst.
  destruct cfg as [cfg|].
  - destruct Hev as [Hl Htools]. unfold PrepareServerConfig, buildDesiredEndpoints. rewrite !Hn.
    destruct (desired_loop url_Parse source 0 (msc_Tools cfg) ∅) as [d|e] eqn:Ed; [|exists touched, m; by eapply adapter_less].
    cbn [dynamic_step] in Hst. destruct (ApplyMcpServerConfigBySource _ _ _ _ _ _) as [dc res].
    destruct (spec_step governance m (DApply source (Some cfg))) as [m' b] eqn:Em.
    destruct Hst as [Hb Himp]; [intros source' cfg' Heq; by injection Heq as _ <-|].
    cbn [spec_step] in Em. rewrite Hn in Em. destruct res as [o|e]; simpl in Hb; subst b.
    + assert (m' = <[source := msc_Tools cfg]> m) as -> by (destruct (admissible _ _ && _); congruence).
      eexists _, _. split; simpl; [|exact Himp|].
      * apply (apply_plan_ok k _ source d Hn).
        -- pose proof (desired_loop_size _ _ _ _ _ Ed) as Hsz. rewrite map_size_empty in Hsz.
           apply (rec_less (length (msc_Tools cfg) - size d)). simpl in A1.
           by replace (length (msc_Tools cfg) - size d + (size d + k)) with (length (msc_Tools cfg) + k) by lia.
        -- intros t pe Ht. apply (desired_loop_spec _ _ _ _ _ Ed t pe) in Ht as [Ht|(tool & res & Hin & Hu & <- & _ & ->)];
             [by rewrite lookup_empty in Ht|]. destruct (Htools tool Hin Hu) as [Hk Hc]. split; [done|done|done|simpl; eauto].
      * apply (plan_agrees (ad_endpoints a) source (Some (msc_Tools cfg)) d m Hn Ed A3).
    + assert (m' = m) as -> by (destruct (admissible _ _ && _); congruence).
      eexists _, _. split; simpl; [by eapply rec_less|exact Himp|done].
  - cbn [dynamic_step spec_step] in Hst. destruct (ApplyMcpServerConfigBySource _ _ _ _ _ _) as [dc res].
    destruct Hst as [Hb Himp]; [done|]. destruct res as [o|e]; [|done]. rewrite Hn in Himp.
    assert (RemoveSource url_Parse range_tools (ad_endpoints a) source = ApplyPlan range_tools (ad_endpoints a) source ∅) as Hr.
    { unfold RemoveSource, ApplyServerConfig, PrepareServerConfig. simpl. by rewrite Hn. }
    rewrite Hr. eexists _, _. split; cbn [ad_endpoints ad_consumer untrackPublishedSource]; [|exact Himp|].
    + apply (apply_plan_ok k _ source ∅ Hn); [by rewrite map_size_empty|]. intros t pe. by rewrite lookup_empty.
    + apply (plan_agrees (ad_endpoints a) source None ∅ m Hn eq_refl A3).
Qed.

Lemma cleanup_ok k touched a m :
  adapter_ok k touched a m → ∃ touched', adapter_ok k touched' (handle a (Cleanup true)) ∅.
Proof.
  intros [A1 A2 A3]. simpl. unfold removeAllDynamicPublication.
  pose proof (remove_all_refines ToolJSON ToolGo lists snap0 governance touched (ad_consumer a) m A2) as Hst.
  destruct (RemoveAllMcpServerConfigs _ _ _) as [dc res]. destruct Hst as [_ Himp].
  destruct (reconciler_remove_all_ok k (ad_endpoints a) A1) as (R & Hp & _).
  eexists. split; simpl; [exact R|exact Himp|]. intros source. by rewrite !lookup_empty.
Qed.

Lemma events_ok k touched a m events :
  adapter_ok (sum_list_with event_cost events + k) touched a m → Forall event_ok events →
  ∃ touched' m', adapter_ok k touched' (foldl handle a events) m'.
Proof.
  revert touched a m. induction events as [|ev events IH]; intros touched a m A Hev; simpl; [eauto|].
  apply Forall_cons in Hev as [He Hev]. simpl in A. rewrite <- Nat.add_assoc in A.
  assert (∃ touched' m', adapter_ok (sum_list_with event_cost events + k) touched' (handle a ev) m') as (touched' & m' & A').
  { destruct ev as [registryName serverId cfg bound|bound]; [by eapply report_ok|].
    simpl in He. subst bound. destruct (cleanup_ok _ _ _ _ A) as [touched' A']. by exists touched', ∅. }
  by eapply IH.
Qed.
End client.

(** ** The cluster manager as an endpoint sink *)

Section manager_sink.
Context {CH : Type} (InitMap : string → option (ConsistentHash → list Endpoint → CH))
  (Hhosts : factories_read_hosts InitMap).
Implicit Types (cm : ClusterManager CH) (w : World CH) (s : ClusterStore) (e : Endpoint) (es : list (option Endpoint)).
#[local] Abbreviation cm_ok := (ManagerInv.cm_ok InitMap).

Definition clusterManagerEndpointSink : endpointSink (ClusterManager CH) := {|
  sink_SetEndpoint cm clusterName endpoint := (ClusterManager.SetEndpoint InitMap cm clusterName (Some endpoint)).1;
  sink_DeleteEndpoint cm clusterName endpointID := (ClusterManager.DeleteEndpoint InitMap cm clusterName endpointID).1;
|}.
#[local] Existing Instance clusterManagerEndpointSink.

Definition address_in es (id : string) : option SocketAddress :=
  EAddress <$> first_such (λ e, bool_decide (EID e = id)) (omap (λ o, o) es).
Definition endpoint_address cm (c id : string) : option SocketAddress :=
  es ← endpoints_of (store cm) c; address_in es id.
Definition sink_ok (k : nat) cm : Prop := cm_ok cm ∧ room k (world cm).

Lemma address_in_spec es id a :
  assembled es → address_in es id = Some a ↔ ∃ i e, es !! i = Some (Some e) ∧ EID e = id ∧ EAddress e = a.
Proof.
  clear. intros Ha. unfold address_in. split.
  - intros (e & Hf & ->)%fmap_Some. apply first_such_Some in Hf as [Hin Hid]. apply bool_decide_eq_true in Hid.
    apply list_elem_of_omap in Hin as (o & [i Hi]%list_elem_of_lookup & ->). eauto.
  - intros (i & e & Hi & Hid & <-). destruct (first_such _ _) as [e'|] eqn:Ef.
    + apply first_such_Some in Ef as [Hin Hid']. apply bool_decide_eq_true in Hid'.
      apply list_elem_of_omap in Hin as (o & [j Hj]%list_elem_of_lookup & ->).
      pose proof (find_endpoint_unique es i e Ha Hi) as H1. pose proof (find_endpoint_unique es j e' Ha Hj) as H2. simpl.
      rewrite Hid in H1. rewrite Hid' in H2. congruence.
    + rewrite first_such_None in Ef. specialize (Ef e). rewrite bool_decide_eq_true_2 in Ef by done.
      discriminate Ef. apply list_elem_of_omap. exists (Some e). split; [by eapply list_elem_of_lookup_2|done].
Qed.

Lemma option_ext {A} (x y : option A) : (∀ a, x = Some a ↔ y = Some a) → x = y.
Proof. clear. intros H. destruct x as [a|]; [symmetry; by apply H|]. destruct y as [b|]; [by apply H|done]. Qed.

Lemma assembled_set name e es : assembled es → EID e ≠ "" → assembled (set_endpoints name e es).
Proof.
  clear. intros Ha H0. destruct (decide (EID e ∈ endpoint_ids es)) as [(i & old & Hi & Ho)%elem_of_endpoint_ids|Hn].
  - rewrite (set_endpoints_known name e es i old) by done. destruct (endpointContentEqualForSet old e); [done|].
    rewrite <- (assemble_insert name es i old e) by done. apply assemble_assembled.
  - rewrite set_endpoints_new, <- (assemble_append name) by done. apply assemble_assembled.
Qed.

Lemma address_in_set name e es id :
  assembled es → EID e ≠ "" →
  address_in (set_endpoints name e es) id = if decide (id = EID e) then Some (EAddress e) else address_in es id.
Proof.
  clear. intros Ha H0. pose proof (assembled_set name e es Ha H0) as Ha'.
  destruct (decide (EID e ∈ endpoint_ids es)) as [(i & old & Hi & Ho)%elem_of_endpoint_ids|Hn].
  - rewrite (set_endpoints_known name e es i old) in * by done. destruct (endpointContentEqualForSet old e) eqn:Ec.
    + case_decide as Hid; [|done]. apply address_in_spec; [done|]. exists i, old.
      apply endpointContentEqualForSet_spec in Ec as (-> & _). by subst.
    + pose proof (lookup_lt_Some _ _ _ Hi) as Hlt. case_decide as Hid.
      * apply address_in_spec; [done|]. exists i, (default_name i e). rewrite list_lookup_insert_eq by done.
        by rewrite default_name_id, default_name_address.
      * apply option_ext. intros a. rewrite !address_in_spec by done. split; intros (j & x & Hj & Hx & Hxa); exists j, x.
        -- split_and!; [|done..]. destruct (decide (i = j)) as [<-|Hne]; [|by rewrite list_lookup_insert_ne in Hj].
           rewrite list_lookup_insert_eq in Hj by done. injection Hj as <-. rewrite default_name_id in Hx. by destruct Hid.
        -- split_and!; [|done..]. rewrite list_lookup_insert_ne; [done|]. intros <-. rewrite Hi in Hj. injection Hj as <-.
           destruct Hid. congruence.
  - rewrite set_endpoints_new in * by done. case_decide as Hid.
    + apply address_in_spec; [done|]. exists (length es), (default_name (length es) e). rewrite list_lookup_middle by done.
      by rewrite default_name_id, default_name_address.
    + apply option_ext. intros a. rewrite !address_in_spec by done. split; intros (j & x & Hj & Hx & Hxa); exists j, x.
      * split_and!; [|done..]. apply lookup_app_Some in Hj as [Hj|[_ Hj]]; [done|].
        apply list_lookup_singleton_Some in Hj as [_ Hj]. injection Hj as <-. rewrite default_name_id in Hx. by destruct Hid.
      * split_and!; [|done..]. by apply lookup_app_l_Some.
Qed.

Lemma address_in_filter es x id :
  address_in (filter (λ o, EID <$> o ≠ Some x) es) id = if decide (id = x) then None else address_in es id.
Proof.
  clear. unfold address_in. induction es as [|o es IH]; simpl; [by case_decide|]. rewrite filter_cons.
  destruct o as [e|]; [|by destruct (decide (EID <$> None ≠ Some x)) as [_|[]]].
  unfold first_such in *. destruct (decide (EID <$> Some e ≠ Some x)) as [Hx|Hx]; simpl in *.
  - destruct (bool_decide_reflect (EID e = id)) as [<-|Hne]; [|done]. simpl. rewrite decide_False; [done|congruence].
  - apply dec_stable in Hx. injection Hx as <-. rewrite IH. case_decide as Hid; [done|].
    rewrite (bool_decide_eq_false_2 (EID e = id)) by congruence. done.
Qed.

Lemma sink_stop_from_seq (st : gset nat) w ps : configIDSeq (stop_from st w ps) = configIDSeq w.
Proof.
  clear. revert st w. induction ps as [|[p|] ps IH]; intros st w; simpl; [done| |apply IH]. case_decide; by rewrite IH.
Qed.

(** Setting an endpoint takes at most one identity of a configuration. *)
Lemma set_endpoint_room k w s name e :
  store_but InitMap ∅ w s → room (S k) w → name ≠ "" → room k (ClusterStore.SetEndpoint InitMap w s name (Some e)).1.1.
Proof.
  intros Hok Hroom Hne. unfold ClusterStore.SetEndpoint. destruct (findClusterConfig s name) as [[i c]|] eqn:Hf.
  - destruct (set_endpoint_at_shape InitMap Hhosts w s name i c e Hok Hf) as (p & rt & out & -> & _).
    unfold room in *. simpl. lia.
  - pose proof (AddCluster_ok InitMap Hhosts w s (fresh_config name) Hok (room_seq k w Hroom) Hne (findClusterConfig_None _ _ Hf)) as Hadd.
    assert (room k (ClusterStore.AddCluster InitMap w s (fresh_config name)).1) as Hr.
    { unfold ClusterStore.AddCluster. rewrite decide_False by done. pose proof (prepare_room k w (fresh_config name) Hroom) as Hp.
      destruct (prepareClusterConfig w (fresh_config name)) as [w1 c]. unfold replaceClusterRuntime, snapshotForRuntimeReplacement.
      simpl in *. unfold room in *.
      destruct (clustersMap s !! CName c) as [p|]; [destruct (heap w1 !! p)|]; simpl;
        unfold stopClusters; by rewrite sink_stop_from_seq. }
    destruct (ClusterStore.AddCluster InitMap w s (fresh_config name)) as [w1 s1]. simpl in Hr.
    destruct Hadd as (Hok1 & c' & Hcfg & Hcn & _). rewrite Hcfg, last_snoc, length_app. simpl in *. rewrite Nat.add_1_r. simpl.
    assert (findClusterConfig s1 name = Some (length (Config s), c')) as Hf1.
    { rewrite (find_config_only s1 (mkClusterStore (Config s ++ [c']) (Version s) (clustersMap s))) by done.
      rewrite find_snoc, Hf. by rewrite decide_True. }
    destruct (set_endpoint_at_shape InitMap Hhosts w1 s1 name _ c' e Hok1 Hf1) as (p & rt & out & -> & _). exact Hr.
Qed.

Lemma manager_set k cm name e :
  sink_ok (S k) cm → name ≠ "" →
  let cm' := sink_SetEndpoint cm name e in
  sink_ok k cm' ∧ ∀ other, endpoints_of (store cm') other =
    if decide (other = name) then Some (set_endpoints name e (default [] (endpoints_of (store cm) name)))
    else endpoints_of (store cm) other.
Proof.
  intros [Hcm Hroom] Hne. pose proof (SetEndpoint_run InitMap Hhosts cm name (Some e) Hcm (room_seq k _ Hroom) Hne) as Hrun.
  cbn [sink_SetEndpoint clusterManagerEndpointSink]. unfold ClusterManager.SetEndpoint in *.
  destruct (release_ok InitMap cm name Hcm) as (_ & Hw & Hs).
  unfold nextEndpointEventIDLocked in *. cbv zeta in *. cbn [world store fst] in *. rewrite Hw, Hs in *.
  assert (store_but InitMap ∅ (world cm) (IncreaseVersion (store cm))) as Hok by (apply store_version; by destruct Hcm).
  pose proof (SetEndpoint_ok InitMap Hhosts (world cm) (IncreaseVersion (store cm)) name e Hok (room_seq k _ Hroom) Hne) as He.
  pose proof (set_endpoint_room k (world cm) (IncreaseVersion (store cm)) name e Hok Hroom Hne) as Hr.
  destruct (ClusterStore.SetEndpoint InitMap (world cm) (IncreaseVersion (store cm)) name (Some e)) as [[w s] out].
  destruct He as (_ & _ & He). simpl in *. split; [|exact He]. by split; [apply Hrun|].
Qed.

Lemma delete_endpoint_seq w s name x :
  store_but InitMap ∅ w s → configIDSeq (ClusterStore.DeleteEndpoint InitMap w s name x).1 = configIDSeq w.
Proof.
  intros Hok. unfold ClusterStore.DeleteEndpoint. destruct (findClusterConfig s name) as [[i c]|] eqn:Hf; [|done].
  destruct (runtime_for_ok InitMap w s name i c Hok Hf) as (p & rt & -> & _ & Hrt & Hr).
  destruct (list_find _ _) as [[idx [e|]]|]; [|done..].
  unfold publish_endpoints, prepareOwnedClusterConfig. simpl. rewrite decide_False; [done|]. apply (runs_nonzero InitMap c rt Hr).
Qed.

Lemma manager_delete k cm name x :
  sink_ok k cm →
  let cm' := sink_DeleteEndpoint cm name x in
  sink_ok k cm' ∧ ∀ other, endpoints_of (store cm') other =
    if decide (other = name) then filter (λ o, EID <$> o ≠ Some x) <$> endpoints_of (store cm) name
    else endpoints_of (store cm) other.
Proof.
  intros [Hcm Hroom]. pose proof (DeleteEndpoint_run InitMap Hhosts cm name x Hcm) as Hrun.
  cbn [sink_DeleteEndpoint clusterManagerEndpointSink]. unfold ClusterManager.DeleteEndpoint in *.
  destruct (release_ok InitMap cm name Hcm) as (_ & Hw & Hs).
  unfold nextEndpointEventIDLocked in *. cbv zeta in *. cbn [world store fst] in *. rewrite Hw, Hs in *.
  assert (store_but InitMap ∅ (world cm) (IncreaseVersion (store cm))) as Hok by (apply store_version; by destruct Hcm).
  pose proof (delete_endpoint_seq (world cm) (IncreaseVersion (store cm)) name x Hok) as Hseq.
  destruct (endpoints_of (IncreaseVersion (store cm)) name) as [es|] eqn:E.
  - pose proof (DeleteEndpoint_known InitMap Hhosts (world cm) (IncreaseVersion (store cm)) name x es Hok E) as He.
    destruct (ClusterStore.DeleteEndpoint InitMap (world cm) (IncreaseVersion (store cm)) name x) as [w s].
    destruct He as (_ & _ & He). simpl in *. split; [split; [apply Hrun|unfold room in *; simpl; by rewrite Hseq]|].
    intros other. rewrite He. change (endpoints_of (store cm) name) with (endpoints_of (IncreaseVersion (store cm)) name). by rewrite E.
  - rewrite DeleteEndpoint_unknown in * by done. simpl in *. split; [by split; [apply Hrun|]|].
    intros other. change (endpoints_of (store cm) name) with (endpoints_of (IncreaseVersion (store cm)) name). rewrite E.
    case_decide as Ho; [|done]. by subst.
Qed.

Lemma manager_assembled k cm name es : sink_ok k cm → endpoints_of (store cm) name = Some es → assembled es.
Proof. intros [[Hok _] _]. exact (endpoints_of_assembled InitMap (world cm) (store cm) name es Hok). Qed.

Lemma manager_sink_laws : SinkLaws (ClusterManager CH) sink_ok endpoint_address.
Proof.
  split.
  - intros k cm [Hcm Hr]. split; [done|]. unfold room in *. lia.
  - intros k cm c e Hok Hc _. by apply manager_set.
  - intros k cm c e c' id' Hok Hc Hid. destruct (manager_set k cm c e Hok Hc) as [_ He]. unfold endpoint_address. rewrite He.
    destruct (decide (c' = c)) as [->|Hne]; [|by rewrite decide_False by tauto]. simpl.
    assert (assembled (default [] (endpoints_of (store cm) c))) as Ha.
    { destruct (endpoints_of (store cm) c) eqn:E; [by eapply manager_assembled|exact (assemble_assembled "" 0 [])]. }
    rewrite address_in_set by done. destruct (decide (id' = EID e)) as [->|Hid']; [by rewrite decide_True|].
    rewrite decide_False by tauto. by destruct (endpoints_of (store cm) c).
  - intros k cm c id Hok. by apply manager_delete.
  - intros k cm c id c' id' Hok. destruct (manager_delete k cm c id Hok) as [_ He]. unfold endpoint_address. rewrite He.
    destruct (decide (c' = c)) as [->|Hne]; [|by rewrite decide_False by tauto].
    destruct (endpoints_of (store cm) c) as [es|]; simpl; [|by case_decide]. rewrite address_in_filter.
    destruct (decide (id' = id)) as [->|Hid']; [by rewrite decide_True|by rewrite decide_False by tauto].
Qed.
End manager_sink.

(** ** Histories *)

(** The tools with a backend that the reports carry, with their sources and
    clusters, and the lists of tools. *)
Definition carried_names (events : list adapter_event) : list (ServerSource * string * string) :=
  events ≫= λ ev,
    match ev with
    | Report registryName serverId (Some cfg) _ =>
        map (λ tool, (NewServerSource registryName serverId, TrimSpace (tool_Name tool), tool_Cluster tool))
          (filter (λ tool, tool_BackendURL tool ≠ "") (msc_Tools cfg))
    | _ => []
    end.
Definition carried_lists (events : list adapter_event) : list (list ToolConfig) :=
  omap (λ ev, match ev with Report _ _ (Some cfg) _ => Some (msc_Tools cfg) | _ => None end) events.

(** Tools with a backend name a cluster, and the cleanup finds the runtime. *)
Definition placed (ev : adapter_event) : Prop :=
  match ev with
  | Report _ _ (Some cfg) _ => Forall (λ tool, tool_BackendURL tool = "" ∨ tool_Cluster tool ≠ "") (msc_Tools cfg)
  | Report _ _ None _ => True
  | Cleanup bound => bound = true
  end.

Section histories.
Context {CH : Type} (InitMap : string → option (ConsistentHash → list Endpoint → CH)).
Context (url_Parse : string → option (string * string)).
Context (ToolJSON : ToolConfig → option string) (ToolGo : ToolConfig → string).
Context (range : gmap ServerSource ServerToolConfig → list ServerSource).
Context (range_tools : gmap string publishedEndpoint → list (string * publishedEndpoint)).
Context (range_sources : gmap ServerSource (gmap string publishedEndpoint) → list (ServerSource * gmap string publishedEndpoint)).
Context (snap0 : ToolCatalogSnapshot) (governance : bool) (cm0 : ClusterManager CH).
#[local] Existing Instance clusterManagerEndpointSink.

Definition run_adapter (events : list adapter_event) : Adapter (ClusterManager CH) :=
  foldl (handle (S := ClusterManager CH) (endpointSink0 := clusterManagerEndpointSink InitMap)
      url_Parse ToolJSON ToolGo range range_tools range_sources)
    (mkAdapter (newEndpointReconciler cm0) (SetGovernance (NewDynamicConsumer snap0) governance governance) ∅) events.

Context (Hhosts : factories_read_hosts InitMap).
Context (range_keys : ∀ configs, range configs ≡ₚ elements (dom configs)).
Context (tools_perm : ∀ m, range_tools m ≡ₚ map_to_list m) (sources_perm : ∀ m, range_sources m ≡ₚ map_to_list m).
Context (events : list adapter_event).
Context (no_collision : ∀ l1 l2, l1 ∈ carried_lists events → l2 ∈ carried_lists events →
  toolCatalogFingerprint ToolJSON ToolGo l1 = toolCatalogFingerprint ToolJSON ToolGo l2 → l1 ≡ₚ l2).
Context (ids_apart : ∀ s1 t1 s2 t2 c, (s1, t1, c) ∈ carried_names events → (s2, t2, c) ∈ carried_names events →
  stableEndpointID s1 t1 = stableEndpointID s2 t2 → s1 = s2 ∧ t1 = t2).
Context (unused : ∀ s t c, (s, t, c) ∈ carried_names events → endpoint_address cm0 c (stableEndpointID s t) = None).
Context (snap_fine : snap_ok snap0) (manager_fine : cm_ok InitMap cm0).
Context (enough : room (sum_list_with event_cost events) (world cm0)).

Lemma placed_ok evs :
  (∀ ev, ev ∈ evs → ev ∈ events) → Forall placed evs →
  Forall (event_ok (λ s t c, (s, t, c) ∈ carried_names events) (carried_lists events)) evs.
Proof.
  rewrite !Forall_forall. intros Hsub Hp ev Hin. specialize (Hp ev Hin). apply Hsub in Hin.
  destruct ev as [registryName serverId [cfg|] bound|bound]; simpl in *; [|done|done]. split.
  - apply list_elem_of_omap. by eexists (Report registryName serverId (Some cfg) bound).
  - intros tool Ht Hu. rewrite Forall_forall in Hp. destruct (Hp tool Ht); [done|]. split; [|done].
    apply list_elem_of_bind. exists (Report registryName serverId (Some cfg) bound). split; [|done].
    apply list_elem_of_fmap. exists tool. split; [done|]. by apply list_elem_of_filter.
Qed.

Lemma run_adapter_ok :
  Forall placed events →
  ∃ touched m, adapter_ok (ok := sink_ok InitMap) (look := endpoint_address) url_Parse
    (λ s t c, (s, t, c) ∈ carried_names events) (endpoint_address cm0) ToolJSON ToolGo (carried_lists events) snap0 governance
    0 touched (run_adapter events) m.
Proof.
  intros Hp. pose proof (manager_sink_laws InitMap Hhosts) as Laws.
  apply (events_ok url_Parse range_tools range_sources tools_perm sources_perm (λ s t c, (s, t, c) ∈ carried_names events) ids_apart
    (endpoint_address cm0) unused ToolJSON ToolGo range range_keys (carried_lists events) no_collision snap0 governance 0 false _ ∅);
    [|by apply placed_ok].
  split; simpl.
  - rewrite Nat.add_0_r. split; simpl; [done|..]; intros *; [intros (d & H & _); simpl in H; by rewrite lookup_empty in H..|done].
  - constructor; simpl; [by destruct governance| | |done|done].
    + split; [by rewrite !dom_empty_L|by intros ??; rewrite lookup_empty].
    + unfold all_tools. rewrite dom_empty_L, elements_empty. simpl. repeat constructor.
  - intros source. by rewrite !lookup_empty.
Qed.


End histories.

(** ** The controller, [registry/nacos/controller.go] *)

Definition MaxRetryAttempts : nat := 3.
Definition EmptyListTombstoneThreshold : nat := 3.

Record McpController : Type := mkMcpController {
  mc_watched : gset string;
  mc_lastKnownServerCount : nat;
  mc_consecutiveEmptyLists : nat;
}.

Definition NewMcpController : McpController := mkMcpController ∅ 0 0.

(** The servers by their identities; [None]: all attempts failed. *)
Fixpoint list_attempts (n : nat) (ListMcpServer : nat → option (list string)) (attempt : nat) : option (list string) :=
  match n with
  | O => None
  | S n =>
      match ListMcpServer attempt with
      | Some servers => Some servers
      | None => list_attempts n ListMcpServer (S attempt)
      end
  end.

Section controller.
(** Whether a server can be listened to, and the order of a walk through a map. *)
Context (ListenToMcpServer : string → bool) (walk : gset string → list string).
Implicit Types (c : McpController).

Definition watch_all (watched : gset string) (servers : list string) : gset string :=
  foldl (λ watched id,
    if decide (id ∈ watched) then watched else if ListenToMcpServer id then {[id]} ∪ watched else watched)
    watched servers.

(** What follows the listing: under the lock, the servers that are new are
    watched, and for those that left a tombstone is published. *)
Definition reconcile_listed c (servers : list string) : McpController * list string :=
  let c := if decide (servers = []) then c else mkMcpController (mc_watched c) (length servers) 0 in
  let missing := bool_decide (servers = []) && bool_decide (mc_watched c ≠ ∅) in
  let c := if missing
           then mkMcpController (mc_watched c) (mc_lastKnownServerCount c) (S (mc_consecutiveEmptyLists c)) else c in
  if missing && (mc_consecutiveEmptyLists c <? EmptyListTombstoneThreshold) then (c, [])
  else
    let watched := watch_all (mc_watched c) servers in
    let currentWatched : gset string := list_to_set servers in
    let removedServers := filter (λ id, id ∉ currentWatched) (walk watched) in
    (mkMcpController (watched ∖ list_to_set removedServers) (mc_lastKnownServerCount c) (mc_consecutiveEmptyLists c),
     removedServers).

Definition reconcile c (ListMcpServer : nat → option (list string)) : McpController * list string :=
  match list_attempts MaxRetryAttempts ListMcpServer 0 with
  | None => (c, [])
  | Some servers => reconcile_listed c servers
  end.

Definition controller_Close c : McpController * list string := (NewMcpController, walk (mc_watched c)).

Fixpoint rounds c (listings : list (nat → option (list string))) : McpController * list string :=
  match listings with
  | [] => (c, [])
  | l :: listings =>
      let '(c, removed) := reconcile c l in let '(c, more) := rounds c listings in (c, removed ++ more)
  end.

Context (walk_perm : ∀ s, walk s ≡ₚ elements s).

Lemma watch_all_spec watched servers id :
  id ∈ watch_all watched servers ↔ id ∈ watched ∨ (id ∈ servers ∧ ListenToMcpServer id = true).
Proof.
  clear. revert watched. induction servers as [|x servers IH]; intros watched; simpl.
  { split; [by left|]. by intros [?|[?%not_elem_of_nil _]]. }
  unfold watch_all in IH. rewrite IH, elem_of_cons. case_decide as Hx.
  - split; [tauto|]. intros [?|[[->|?] ?]]; tauto.
  - destruct (ListenToMcpServer x) eqn:E.
    + rewrite elem_of_union, elem_of_singleton. split; [intros [[->|?]|?]; tauto|]. intros [?|[[->|?] ?]]; tauto.
    + split; [tauto|]. intros [?|[[->|?] ?]]; [tauto| |tauto]. congruence.
Qed.

(** A round that lists some servers: exactly they are watched from then on, but
    for those that are new and cannot be listened to; tombstones are published
    for exactly the servers that were watched and are not listed. *)
Theorem reconcile_follows_list c l servers :
  list_attempts MaxRetryAttempts l 0 = Some servers → servers ≠ [] →
  let '(c', removed) := reconcile c l in
  (∀ id, id ∈ mc_watched c' ↔ id ∈ servers ∧ (id ∈ mc_watched c ∨ ListenToMcpServer id = true)) ∧
  NoDup removed ∧ (∀ id, id ∈ removed ↔ id ∈ mc_watched c ∧ (id ∉ servers)) ∧ mc_consecutiveEmptyLists c' = 0.
Proof.
  intros Hl Hne. unfold reconcile. rewrite Hl. unfold reconcile_listed. rewrite decide_False, bool_decide_eq_false_2 by done. simpl.
  assert (∀ id, id ∈ filter (λ id, id ∉ (list_to_set servers : gset string)) (walk (watch_all (mc_watched c) servers)) ↔
    id ∈ mc_watched c ∧ (id ∉ servers)) as Hrem.
  { intros id. rewrite list_elem_of_filter, walk_perm, elem_of_elements, elem_of_list_to_set, watch_all_spec. tauto. }
  split_and!; [|apply NoDup_filter; rewrite walk_perm; apply NoDup_elements|done|done].
  intros id. rewrite elem_of_difference, elem_of_list_to_set, Hrem, watch_all_spec.
  destruct (decide (id ∈ servers)); tauto.
Qed.

Definition empty_or_failed (l : nat → option (list string)) : Prop :=
  match list_attempts MaxRetryAttempts l 0 with Some (_ :: _) => False | _ => True end.
Definition listed_empty (l : nat → option (list string)) : bool :=
  match list_attempts MaxRetryAttempts l 0 with Some _ => true | None => false end.

Lemma walk_empty : walk ∅ = [].
Proof. apply Permutation_nil_r. rewrite walk_perm. by rewrite elements_empty. Qed.

Lemma idle_rounds c listings :
  Forall empty_or_failed listings → mc_watched c = ∅ → mc_watched (rounds c listings).1 = ∅ ∧ (rounds c listings).2 = [].
Proof.
  revert c. induction listings as [|l listings IH]; intros c Hl Hw; [done|]. apply Forall_cons in Hl as [Hl Hls].
  unfold empty_or_failed in Hl. cbn [rounds]. unfold reconcile.
  destruct (list_attempts MaxRetryAttempts l 0) as [[|x servers]|]; [|done|].
  - unfold reconcile_listed. rewrite decide_True by done. rewrite (bool_decide_eq_false_2 (mc_watched c ≠ ∅)) by (intros H; by apply H).
    rewrite andb_false_r. simpl. rewrite Hw, walk_empty. simpl.
    destruct (IH (mkMcpController (∅ ∖ ∅) (mc_lastKnownServerCount c) (mc_consecutiveEmptyLists c)) Hls) as [H1 H2]; [set_solver|].
    destruct (rounds _ listings). simpl in *. by subst.
  - destruct (IH c Hls Hw) as [H1 H2]. destruct (rounds c listings). simpl in *. by subst.
Qed.

Lemma empty_rounds c listings :
  Forall empty_or_failed listings → mc_watched c ≠ ∅ → mc_consecutiveEmptyLists c < EmptyListTombstoneThreshold →
  let n := mc_consecutiveEmptyLists c + length (List.filter listed_empty listings) in
  let r := rounds c listings in
  if decide (n < EmptyListTombstoneThreshold)
  then mc_watched r.1 = mc_watched c ∧ r.2 = []
  else mc_watched r.1 = ∅ ∧ r.2 ≡ₚ elements (mc_watched c).
Proof.
  revert c. induction listings as [|l listings IH]; intros c Hl Hw Hc; cbn [rounds List.filter].
  { rewrite Nat.add_0_r, decide_True by done. done. }
  apply Forall_cons in Hl as [Hl Hls]. unfold empty_or_failed in Hl. unfold reconcile.
  assert (listed_empty l = match list_attempts MaxRetryAttempts l 0 with Some _ => true | None => false end) as Hle by done.
  destruct (list_attempts MaxRetryAttempts l 0) as [[|x servers]|]; [|done|]; rewrite Hle.
  - unfold reconcile_listed. rewrite (decide_True (P := @nil string = [])), (bool_decide_eq_true_2 (@nil string = [])) by done.
    rewrite (bool_decide_eq_true_2 (mc_watched c ≠ ∅)) by done. cbn [andb mc_consecutiveEmptyLists].
    destruct (Nat.ltb_spec (S (mc_consecutiveEmptyLists c)) EmptyListTombstoneThreshold) as [Hlt|Hge].
    + specialize (IH (mkMcpController (mc_watched c) (mc_lastKnownServerCount c) (S (mc_consecutiveEmptyLists c))) Hls Hw Hlt).
      destruct (rounds _ listings) as [c' removed]. cbn [length mc_consecutiveEmptyLists mc_watched] in *.
      rewrite Nat.add_succ_r. rewrite Nat.add_succ_l in IH. exact IH.
    + rewrite decide_False by (cbn [length]; lia). cbn [mc_watched mc_lastKnownServerCount]. unfold watch_all. cbv zeta. cbn [foldl].
      rewrite list_filter_all by (intros id _; rewrite elem_of_list_to_set; apply not_elem_of_nil).
      destruct (idle_rounds (mkMcpController (mc_watched c ∖ list_to_set (walk (mc_watched c)))
        (mc_lastKnownServerCount c) (S (mc_consecutiveEmptyLists c))) listings Hls) as [H1 H2].
      { simpl. rewrite walk_perm. rewrite list_to_set_elements_L. set_solver. }
      destruct (rounds _ listings) as [c' removed]. simpl in *. subst removed. rewrite app_nil_r. split; [done|apply walk_perm].
  - specialize (IH c Hls Hw Hc). by destruct (rounds c listings).
Qed.

(** C28: while a registry lists nothing: fewer than three empty lists, with failed
    attempts in between, withdraw no server; the third withdraws all that are
    watched, each once, and the ones after it nothing. *)
Theorem empty_lists_deferred c listings :
  Forall empty_or_failed listings → mc_watched c ≠ ∅ → mc_consecutiveEmptyLists c = 0 →
  let r := rounds c listings in
  if decide (length (List.filter listed_empty listings) < EmptyListTombstoneThreshold)
  then mc_watched r.1 = mc_watched c ∧ r.2 = []
  else mc_watched r.1 = ∅ ∧ r.2 ≡ₚ elements (mc_watched c).
Proof.
  intros Hl Hw Hc. pose proof (empty_rounds c listings Hl Hw) as H. rewrite Hc in H. apply H.
  unfold EmptyListTombstoneThreshold. lia.
Qed.
End controller.

(** ** Two servers of a registry *)

Module adapter_sample.

(** Enough of a parser for the URLs below. *)
Definition url_Parse (s : string) : option (string * string) :=
  match Strings.SplitByte "/"%char s with
  | scheme :: _ :: host :: _ => Some (Strings.CutBefore ":"%char scheme, host)
  | _ => None
  end.

Example parse_port : ParseHostPortFromURL url_Parse " http://a:90/x" = Ok (mkParseResult "a" 90 false).
Proof. vm_compute. reflexivity. Qed.
Example parse_fallback :
  ParseHostPortFromURL url_Parse "https://a/x" = Ok (mkParseResult "a" 443 true) ∧
  ParseHostPortFromURL url_Parse "a" = Ok (mkParseResult "a" 8080 true) ∧
  ParseHostPortFromURL url_Parse "a:0" = Err (InvalidPort "a:0" "0").
Proof. vm_compute. done. Qed.

(** An address with two ports is not an error: it becomes a host name. *)
Example parse_two_ports : ParseHostPortFromURL url_Parse "a:80:90" = Ok (mkParseResult "a:80:90" 8080 true).
Proof. vm_compute. reflexivity. Qed.

Definition ToolJSON (t : ToolConfig) : option string := Some (tool_Name t +:+ " " +:+ tool_BackendURL t).
Definition range (configs : gmap ServerSource ServerToolConfig) : list ServerSource := elements (dom configs).
Definition range_tools (m : gmap string publishedEndpoint) : list (string * publishedEndpoint) := map_to_list m.
Definition range_sources (m : gmap ServerSource (gmap string publishedEndpoint)) :
  list (ServerSource * gmap string publishedEndpoint) := map_to_list m.

Definition backed (name cluster url : string) : ToolConfig :=
  mkToolConfig name "" cluster url (mkRequestConfig "GET" "/" ∅ "30s") [] None.
Definition report (server : string) (tools : list ToolConfig) : adapter_event :=
  Report "nacos" server (Some (mkMcpServerConfig tools None)) true.

(** A server, another one that moves its tool, a report with a name that is
    taken, one with a bad URL, and the end of the first server. *)
Definition events : list adapter_event :=
  [report "one" [backed "read" "read" "http://10.0.0.1:80/"]; report "two" [backed "write" "write" "http://10.0.0.2:80/"];
   report "two" [backed "write" "write" "http://10.0.0.3:80/"]; report "three" [backed "read" "c" "http://10.0.0.4:80/"];
   report "two" [backed "write" "write" "http://10.0.0.3:x/"]; Report "nacos" "one" None true].

Lemma lists_apart l1 l2 :
  l1 ∈ carried_lists events → l2 ∈ carried_lists events →
  toolCatalogFingerprint ToolJSON dynamic_sample.ToolGo l1 = toolCatalogFingerprint ToolJSON dynamic_sample.ToolGo l2 → l1 ≡ₚ l2.
Proof.
  assert (let z := map (λ l, (l, toolCatalogFingerprint ToolJSON dynamic_sample.ToolGo l)) (carried_lists events) in
    forallb (λ p, forallb (λ q, implb (bool_decide (p.2 = q.2)) (bool_decide (p.1 ≡ₚ q.1))) z) z = true) as H
    by (vm_compute; reflexivity).
  cbv zeta in H. rewrite forallb_forall in H. intros H1%list_elem_of_In H2%list_elem_of_In E.
  specialize (H _ (in_map _ _ _ H1)). rewrite forallb_forall in H. specialize (H _ (in_map _ _ _ H2)).
  rewrite implb_true_iff in H. eapply (bool_decide_eq_true_1 (l1 ≡ₚ l2)), H. by apply bool_decide_eq_true_2.
Qed.

Definition same_place (p q : ServerSource * string * string) : bool :=
  implb (bool_decide (p.2 = q.2 ∧ stableEndpointID p.1.1 p.1.2 = stableEndpointID q.1.1 q.1.2)) (bool_decide (p = q)).

Lemma names_apart s1 t1 s2 t2 c :
  (s1, t1, c) ∈ carried_names events → (s2, t2, c) ∈ carried_names events →
  stableEndpointID s1 t1 = stableEndpointID s2 t2 → s1 = s2 ∧ t1 = t2.
Proof.
  assert (forallb (λ p, forallb (same_place p) (carried_names events)) (carried_names events) = true) as H by (vm_compute; reflexivity).
  rewrite forallb_forall in H. intros H1%list_elem_of_In H2%list_elem_of_In E.
  specialize (H _ H1). rewrite forallb_forall in H. specialize (H _ H2). unfold same_place in H.
  rewrite implb_true_iff in H. apply bool_decide_eq_true_1 in H; [by injection H|]. by apply bool_decide_eq_true_2.
Qed.

Lemma names_unused s t c :
  (s, t, c) ∈ carried_names events → endpoint_address manager_sample.cm c (stableEndpointID s t) = None.
Proof.
  assert (forallb (λ p, bool_decide (endpoint_address manager_sample.cm p.2 (stableEndpointID p.1.1 p.1.2) = None))
    (carried_names events) = true) as H by (vm_compute; reflexivity).
  rewrite forallb_forall in H. intros H1%list_elem_of_In. specialize (H _ H1). by apply bool_decide_eq_true_1 in H.
Qed.

Lemma all_placed : Forall placed events.
Proof. repeat (constructor; [first [exact I|constructor; [right; discriminate|constructor]]|]). constructor. Qed.

Lemma room_enough : room (sum_list_with event_cost events) (world manager_sample.cm).
Proof. split; vm_compute; [discriminate|reflexivity]. Qed.

Abbreviation final := (run_adapter sample.InitMap url_Parse ToolJSON dynamic_sample.ToolGo range range_tools range_sources
  empty_snapshot true manager_sample.cm events) (only parsing).

Example final_state :
  map tool_Name (snap_ordered (dc_registry (ad_consumer final))) = ["write"] ∧
  endpoint_address (sink (ad_endpoints final)) "write" "mcp/nacos/two/write" = Some (mkSocketAddress "10.0.0.3" 80 "" [] "") ∧
  endpoint_address (sink (ad_endpoints final)) "read" "mcp/nacos/one/read" = None ∧
  endpoint_address (sink (ad_endpoints final)) "c" "mcp/nacos/three/read" = None.
Proof. vm_compute. done. Qed.



(** Two reports of one server at the same time: the catalog takes the first and
    then the second, the reconciler the second and then the first.  The tool of
    the catalog is then served at the address of the first. *)
Definition first_cfg : McpServerConfig := mkMcpServerConfig [backed "read" "read" "http://10.0.0.1:80/"] None.
Definition second_cfg : McpServerConfig := mkMcpServerConfig [backed "read" "read" "http://10.0.0.2:80/"] None.
Definition plan (cfg : McpServerConfig) : gmap string publishedEndpoint :=
  match buildDesiredEndpoints url_Parse (NewServerSource "nacos" "one") (Some cfg) with Ok d => d | Err _ => ∅ end.

Example reports_interleaved :
  let source := NewServerSource "nacos" "one" in
  let apply d cfg := (ApplyMcpServerConfigBySource ToolJSON dynamic_sample.ToolGo range d source (Some cfg)).1 in
  let put r cfg := ApplyPlan (endpointSink0 := clusterManagerEndpointSink sample.InitMap) range_tools r source (plan cfg) in
  let d := apply (apply (NewDynamicConsumer empty_snapshot) first_cfg) second_cfg in
  let r := put (put (newEndpointReconciler manager_sample.cm) second_cfg) first_cfg in
  map tool_BackendURL (snap_ordered (dc_registry d)) = ["http://10.0.0.2:80/"] ∧
  endpoint_address (sink r) "read" "mcp/nacos/one/read" = Some (mkSocketAddress "10.0.0.1" 80 "" [] "").
Proof. vm_compute. done. Qed.

(** In one cluster two tools with the same sanitised name share an endpoint, and
    the end of one takes it from the other. *)
Example names_share_endpoint :
  stableEndpointID (NewServerSource "nacos" "one") "a b" = stableEndpointID (NewServerSource "nacos" "one") "a_b" ∧
  let put r tools := (ApplyServerConfig (endpointSink0 := clusterManagerEndpointSink sample.InitMap) url_Parse range_tools r
    (NewServerSource "nacos" "one") (Some (mkMcpServerConfig tools None))).1 in
  let r := put (newEndpointReconciler manager_sample.cm)
    [backed "a b" "k" "http://10.0.0.1:80/"; backed "a_b" "k" "http://10.0.0.2:80/"] in
  length (default [] (endpoints_of (store (sink r)) "k")) = 1 ∧
  length (default [] (endpoints_of (store (sink (put r [backed "a b" "k" "http://10.0.0.1:80/"]))) "k")) = 0.
Proof. vm_compute. done. Qed.

(** *** The controller *)

Definition walk (s : gset string) : list string := elements s.
Definition listens (id : string) : bool := negb (bool_decide (id = "deaf")).
Definition watching : McpController := mkMcpController {["a"; "b"]} 2 0.
Definition lists (servers : list string) (attempt : nat) : option (list string) := if attempt =? 0 then None else Some servers.
Definition fails (attempt : nat) : option (list string) := None.

Lemma reconcile_follows_list_witness :
  let '(c, removed) := reconcile listens walk watching (lists ["b"; "deaf"; "new"]) in
  (∀ id, id ∈ mc_watched c ↔ id ∈ ["b"; "deaf"; "new"] ∧ (id ∈ mc_watched watching ∨ listens id = true)) ∧ removed = ["a"].
Proof.
  assert ((reconcile listens walk watching (lists ["b"; "deaf"; "new"])).2 = ["a"]) as E by (vm_compute; reflexivity).
  generalize (reconcile_follows_list listens walk (λ _, reflexivity _) watching (lists ["b"; "deaf"; "new"]) ["b"; "deaf"; "new"]
    eq_refl ltac:(discriminate)).
  destruct (reconcile _ _ _ _) as [c removed]. simpl in E. intros (H & _). split; [exact H|exact E].
Defined.

Lemma empty_lists_deferred_witness :
  mc_watched (rounds listens walk watching [lists []; fails; lists []]).1 = {["a"; "b"]} ∧
  mc_watched (rounds listens walk watching [lists []; fails; lists []; lists []]).1 = ∅.
Proof.
  pose proof (empty_lists_deferred listens walk (λ _, reflexivity _) watching [lists []; fails; lists []]) as H1.
  pose proof (empty_lists_deferred listens walk (λ _, reflexivity _) watching [lists []; fails; lists []; lists []]) as H2.
  split; [apply H1|apply H2]; try reflexivity; try (repeat constructor); intros E; vm_compute in E; discriminate E.
Defined.

(** A listing that was on its way when the controller was closed: the servers
    are watched again, and nothing ends that. *)
Example closed_controller_watches :
  mc_watched (reconcile_listed listens walk (controller_Close walk watching).1 ["a"]).1 = {["a"]}.
Proof. vm_compute. reflexivity. Qed.
End adapter_sample.
