(* ===== verification/Etcd.v ===== *)
(** * The key-value store etcd as the administration console uses it

    The server is third-party code, a parameter ([Server]).  What the console
    relies on is its documented interface ([ServerLaws]): a read gives the current value of a key, or of all
    keys with a prefix, with the revisions of their creation and of their last
    modification; a transaction compares revisions and, when all comparisons
    hold, performs its operations at once.  The requests of many clients
    interleave, and each can fail: before it reached the server, or after it
    was performed, when only the answer is lost.

    A client is a program that asks the server and continues with the answer
    ([prog]).  [good] is what a program must do for an invariant of the store
    to survive whatever the other programs do between its requests;
    [clients_good] is the rule of composition.  [reference_server] is an
    executable server with the laws. *)

From stdpp Require Import base gmap list strings sorting.
From S2P Require Import Prelude GoStrings.

Section etcd.
Context {V : Type}.

(** ** What the server stores *)

Record kv : Type := mkKV {
  kv_Value : V;
  kv_CreateRevision : Z;
  kv_ModRevision : Z;
}.

Record etcd : Type := mkEtcd {
  revision : Z;
  data : gmap string kv;
}.

(** Comparisons with "=". *)
Inductive cmp : Type :=
  | CreateRevision (key : string) (v : Z)
  | ModRevision (key : string) (v : Z).

Inductive op : Type :=
  | OpPut (key : string) (value : V)
  | OpDelete (key : string)
  | OpDeletePrefix (prefix : string).

Implicit Types (e : etcd) (d : gmap string kv) (o : op) (ops : list op).

(** The revisions of a key that does not exist are zero. *)
Definition create_revision e key : Z := default 0%Z (kv_CreateRevision <$> data e !! key).
Definition mod_revision e key : Z := default 0%Z (kv_ModRevision <$> data e !! key).

Definition compare e (c : cmp) : bool :=
  match c with
  | CreateRevision key v => bool_decide (create_revision e key = v)
  | ModRevision key v => bool_decide (mod_revision e key = v)
  end.

(** The keys an operation covers. *)
Definition covers o key : bool :=
  match o with
  | OpPut k _ => bool_decide (k = key)
  | OpDelete k => bool_decide (k = key)
  | OpDeletePrefix p => Strings.HasPrefix key p
  end.

Definition apply_op (rev : Z) d o : gmap string kv :=
  match o with
  | OpPut key v => <[key := mkKV v (default rev (kv_CreateRevision <$> d !! key)) rev]> d
  | OpDelete key => delete key d
  | OpDeletePrefix p => filter (λ x, Strings.HasPrefix x.1 p = false) d
  end.

Definition apply_ops (rev : Z) d ops : gmap string kv := foldl (apply_op rev) d ops.

(** Does the operation change anything? *)
Definition writes d o : bool :=
  match o with
  | OpPut _ _ => true
  | OpDelete key => bool_decide (is_Some (d !! key))
  | OpDeletePrefix p => negb (bool_decide (filter (λ x, Strings.HasPrefix x.1 p = true) d = ∅))
  end.

(** The server refuses a transaction that puts a key twice or deletes a key
    it puts. *)
Definition put_key o : option string := match o with OpPut key _ => Some key | _ => None end.

Fixpoint puts_once ops : bool :=
  match ops with
  | [] => true
  | o :: rest =>
      match put_key o with
      | Some key => forallb (λ o', negb (covers o' key)) rest
      | None => forallb (λ o', match put_key o' with Some key => negb (covers o key) | None => true end) rest
      end && puts_once rest
  end.

Definition commit e ops : etcd :=
  let rev := if existsb (writes (data e)) ops then (revision e + 1)%Z else revision e in
  mkEtcd rev (apply_ops rev (data e) ops).

(** The value an operation of the list puts at a key. *)
Definition put_at ops key : option V :=
  first_some (λ o, match o with OpPut k v => if decide (k = key) then Some v else None | _ => None end) ops.

Lemma lookup_apply_ops rev ops d key :
  puts_once ops = true →
  apply_ops rev d ops !! key =
    match put_at ops key with
    | Some v => Some (mkKV v (default rev (kv_CreateRevision <$> d !! key)) rev)
    | None => if existsb (λ o, covers o key) ops then None else d !! key
    end.
Proof.
  revert d. induction ops as [|o ops IH]; intros d; [done|]. cbn [puts_once].
  intros [Ho Hops]%andb_true_iff. unfold apply_ops in *. simpl. rewrite (IH _ Hops). clear IH Hops.
  unfold put_at. simpl. fold (put_at ops key).
  assert (put_at ops key ≠ None → ∃ o', o' ∈ ops ∧ put_key o' = Some key ∧ covers o' key = true) as Hput.
  { unfold put_at. destruct (first_some _ ops) as [v|] eqn:E; [|done]. intros _.
    apply first_some_Some in E as (l1 & o' & l2 & -> & H & _). exists o'. split; [set_solver|].
    destruct o'; by simplify_option_eq. }
  destruct o as [k v|k|p]; simpl in *.
  - rewrite forallb_forall in Ho. case_decide as Hk; simplify_eq.
    + destruct (put_at ops key); [destruct Hput as (o' & Hin & _ & Hc); [done|];
        apply list_elem_of_In in Hin; apply Ho in Hin; by rewrite Hc in Hin|].
      replace (existsb _ ops) with false; [by rewrite lookup_insert_eq|]. symmetry. apply not_true_is_false.
      intros (o' & Hin & Hc)%existsb_exists. apply Ho in Hin. by rewrite Hc in Hin.
    + rewrite bool_decide_eq_false_2 by done. simpl. by rewrite lookup_insert_ne.
  - destruct (put_at ops key) eqn:E.
    + destruct Hput as (o' & Hin & Hp & _); [done|]. rewrite forallb_forall in Ho.
      apply list_elem_of_In in Hin. apply Ho in Hin. rewrite Hp in Hin.
      apply negb_true_iff, bool_decide_eq_false in Hin. by rewrite lookup_delete_ne.
    + case_bool_decide; subst; simpl; [rewrite lookup_delete_eq; by destruct (existsb _ _)|by rewrite lookup_delete_ne].
  - destruct (put_at ops key) eqn:E.
    + destruct Hput as (o' & Hin & Hp & _); [done|]. rewrite forallb_forall in Ho.
      apply list_elem_of_In in Hin. apply Ho in Hin. rewrite Hp in Hin. apply negb_true_iff in Hin.
      f_equal. f_equal. f_equal. rewrite map_lookup_filter. destruct (d !! key); by simplify_option_eq.
    + rewrite map_lookup_filter. destruct (d !! key) as [x|]; simpl; [|by destruct (_ || _), (existsb _ _)].
      destruct (Strings.HasPrefix key p) eqn:Hp; simplify_option_eq; by destruct (existsb _ _).
Qed.

(** ** Requests *)

Inductive request : Type :=
  | Get (key : string)
  | GetPrefix (prefix : string)
  | Txn (comparisons : list cmp) (operations : list op).

Inductive response : Type :=
  | Failed
  | Found (x : option kv)
  | Listed (kvs : list (string * kv))
  | Committed (succeeded : bool) (rev : Z).

(** What becomes of a request on its way. *)
Inductive weather : Type := Answered | RequestLost | AnswerLost.

(** The keys of a prefix come in ascending order. *)
#[local] Definition key_le (x y : string * kv) : Prop := String.le x.1 y.1.
#[local] Instance key_le_dec x y : Decision (key_le x y).
Proof. unfold key_le, String.le. apply _. Defined.

Definition with_prefix d (p : string) : list (string * kv) :=
  merge_sort key_le (filter (λ x, Strings.HasPrefix x.1 p = true) (map_to_list d)).

Lemma elem_of_with_prefix d p s x :
  (s, x) ∈ with_prefix d p ↔ d !! s = Some x ∧ Strings.HasPrefix s p = true.
Proof.
  unfold with_prefix. rewrite merge_sort_Permutation, list_elem_of_filter, elem_of_map_to_list. simpl. naive_solver.
Qed.

(** ** The server *)

Class Server : Type := { serve : etcd → request → etcd * response }.

(** The contents after a transaction: its puts have the revision of the
    transaction, what else it covers is gone, and the rest is as it was. *)
Definition committed e ops e' : Prop :=
  revision e' = (if existsb (writes (data e)) ops then revision e + 1 else revision e)%Z ∧
  ∀ key, data e' !! key =
    match put_at ops key with
    | Some v => Some (mkKV v (default (revision e') (kv_CreateRevision <$> data e !! key)) (revision e'))
    | None => if existsb (λ o, covers o key) ops then None else data e !! key
    end.

Class ServerLaws `{!Server} : Prop := {
  serve_get e key : serve e (Get key) = (e, Found (data e !! key));
  serve_prefix e p : serve e (GetPrefix p) = (e, Listed (with_prefix (data e) p));
  serve_refused e cs ops : puts_once ops = false → serve e (Txn cs ops) = (e, Failed);
  serve_differs e cs ops : puts_once ops = true → forallb (compare e) cs = false →
    serve e (Txn cs ops) = (e, Committed false (revision e));
  serve_committed e cs ops : puts_once ops = true → forallb (compare e) cs = true →
    ∃ e', serve e (Txn cs ops) = (e', Committed true (revision e')) ∧ committed e ops e';
}.

Lemma commit_committed e ops : puts_once ops = true → committed e ops (commit e ops).
Proof. intros Hops. split; [done|]. intros key. by apply lookup_apply_ops. Qed.

Lemma committed_unique e ops e1 e2 : committed e ops e1 → committed e ops e2 → e1 = e2.
Proof.
  destruct e1 as [r1 d1], e2 as [r2 d2]. unfold committed. simpl. intros [-> H1] [-> H2]. f_equal.
  apply map_eq. intros key. by rewrite H1, H2.
Qed.

Definition reference_serve e (r : request) : etcd * response :=
  match r with
  | Get key => (e, Found (data e !! key))
  | GetPrefix p => (e, Listed (with_prefix (data e) p))
  | Txn cs ops =>
      if negb (puts_once ops) then (e, Failed)
      else if forallb (compare e) cs
      then let e' := commit e ops in (e', Committed true (revision e'))
      else (e, Committed false (revision e))
  end.

Definition reference_server : Server := {| serve := reference_serve |}.

Lemma reference_laws : @ServerLaws reference_server.
Proof.
  split; intros e; simpl; try done; intros cs ops Hp; rewrite Hp; simpl; try done; intros Hc; rewrite Hc; [done|].
  exists (commit e ops). split; [done|]. by apply commit_committed.
Qed.

Section server.
Context `{!Server}.

Lemma serve_commit `{!ServerLaws} e cs ops :
  puts_once ops = true → forallb (compare e) cs = true →
  serve e (Txn cs ops) = (commit e ops, Committed true (revision (commit e ops))).
Proof.
  intros Hp Hc. destruct (serve_committed e cs ops Hp Hc) as (e' & -> & He').
  by rewrite (committed_unique _ _ _ _ He' (commit_committed e ops Hp)).
Qed.

Definition ask e (r : request) (w : weather) : etcd * response :=
  match w with
  | Answered => serve e r
  | RequestLost => (e, Failed)
  | AnswerLost => ((serve e r).1, Failed)
  end.

(** ** Clients *)

Inductive prog (A : Type) : Type :=
  | Ret (a : A)
  | Ask (r : request) (k : response → prog A).
#[global] Arguments Ret {A}.
#[global] Arguments Ask {A}.

Fixpoint prog_bind {A B} (p : prog A) (f : A → prog B) : prog B :=
  match p with
  | Ret a => f a
  | Ask r k => Ask r (λ x, prog_bind (k x) f)
  end.

(** A run of many clients over one server. *)
Inductive action (A : Type) : Type :=
  | Start (p : prog A)
  | Step (i : nat) (w : weather).
#[global] Arguments Start {A}.
#[global] Arguments Step {A}.

Definition perform {A} (s : etcd * list (prog A)) (a : action A) : etcd * list (prog A) :=
  let '(e, ps) := s in
  match a with
  | Start p => (e, ps ++ [p])
  | Step i w =>
      match ps !! i with
      | Some (Ask r k) => let '(e', x) := ask e r w in (e', <[i := k x]> ps)
      | _ => s
      end
  end.

Definition run {A} (e : etcd) (acts : list (action A)) : etcd * list (prog A) := foldl perform (e, []) acts.

(** A client that is alone and whose requests are answered. *)
Fixpoint alone {A} (e : etcd) (p : prog A) : etcd * A :=
  match p with
  | Ret a => (e, a)
  | Ask r k => let '(e', x) := serve e r in alone e' (k x)
  end.

(** ** Invariants under interference

    [inv] holds of the store between requests; [rel] holds of the store before
    and after any number of requests of anyone.  [good post p e]: whatever the
    others do after [e], every request of [p] keeps [inv] and [rel], and [post]
    holds of its result and the store it returns in. *)
Section interference.
Context (inv : etcd → Prop) (rel : etcd → etcd → Prop).

Fixpoint good {A} (post : A → etcd → Prop) (p : prog A) e : Prop :=
  match p with
  | Ret a => post a e
  | Ask r k => ∀ e' w, rel e e' → inv e' →
      inv (ask e' r w).1 ∧ rel e' (ask e' r w).1 ∧ good post (k (ask e' r w).2) (ask e' r w).1
  end.

Lemma good_bind {A B} (post : B → etcd → Prop) (mid : A → etcd → Prop) (p : prog A) (f : A → prog B) e :
  good mid p e → (∀ a e', mid a e' → good post (f a) e') → good post (prog_bind p f) e.
Proof.
  revert e. induction p as [a|r k IH]; simpl; intros e Hp Hf; [by apply Hf|].
  intros e' w Hr Hi. destruct (Hp e' w Hr Hi) as (H1 & H2 & H3). split_and!; [done..|]. by apply IH.
Qed.

Lemma good_mono {A} (post post' : A → etcd → Prop) (p : prog A) e :
  good post p e → (∀ a e', post a e' → post' a e') → good post' p e.
Proof.
  revert e. induction p as [a|r k IH]; simpl; intros e Hp Hf; [by apply Hf|].
  intros e' w Hr Hi. destruct (Hp e' w Hr Hi) as (H1 & H2 & H3). split_and!; [done..|]. by apply IH.
Qed.

Context `{!Reflexive rel} `{!Transitive rel}.
Context {A : Type} (post : A → etcd → Prop) (post_stable : ∀ a e e', rel e e' → post a e → post a e').

Lemma good_later (p : prog A) e e' : rel e e' → good post p e → good post p e'.
Proof.
  destruct p as [a|r k]; simpl; [by apply post_stable|]. intros He Hg e2 w He2. apply Hg. by trans e'.
Qed.

Definition all_good (s : etcd * list (prog A)) : Prop := inv s.1 ∧ Forall (λ p, good post p s.1) s.2.

Lemma clients_perform_good s a :
  (∀ p, a = Start p → ∀ e, good post p e) → all_good s → all_good (perform s a) ∧ rel s.1 (perform s a).1.
Proof.
  destruct s as [e ps]. intros Ha [Hi Hps]. destruct a as [p|i w]; simpl.
  - repeat split; try done. apply Forall_app. split; [done|]. constructor; [by apply Ha|done].
  - destruct (ps !! i) as [[x|r k]|] eqn:E; try by repeat split.
    pose proof (Forall_lookup_1 _ _ _ _ Hps E) as Hg. destruct (Hg e w) as (H1 & H2 & H3); [done..|].
    destruct (ask e r w) as [e' x] eqn:Ea. simpl in *. repeat split; try done.
    apply Forall_insert; [|done]. eapply Forall_impl; [exact Hps|]. intros p Hp. by eapply good_later.
Qed.

Lemma all_good_foldl s acts :
  (∀ p, Start p ∈ acts → ∀ e', good post p e') → all_good s → all_good (foldl perform s acts) ∧ rel s.1 (foldl perform s acts).1.
Proof.
  revert s. induction acts as [|a acts IH]; intros s Ha Hs; [done|]. simpl.
  destruct (clients_perform_good s a) as [H1 H2]; [intros p ->; apply Ha; set_solver|done|].
  destruct (IH (perform s a)) as [H3 H4]; [intros p Hp; apply Ha; set_solver|done|]. split; [done|]. by trans (perform s a).1.
Qed.

Lemma clients_good e acts :
  (∀ p, Start p ∈ acts → ∀ e', good post p e') → inv e → all_good (run e acts) ∧ rel e (run e acts).1.
Proof. intros Ha Hi. apply (all_good_foldl (e, []) acts Ha). by split. Qed.

End interference.

End server.

End etcd.

Arguments kv : clear implicits.
Arguments etcd : clear implicits.
Arguments op : clear implicits.
Arguments request : clear implicits.
Arguments response : clear implicits.
Arguments prog : clear implicits.
Arguments action : clear implicits.
Arguments Server : clear implicits.
Arguments ServerLaws : clear implicits.
