(* ===== verification/AdminRoute.v ===== *)
(** * Keys and objects of the administration console's routes

    [src/admin/logic/route_binding.go] stores route bindings in etcd under
    string keys: drafts, published bindings, their history, a marker with the
    number of the last publication, a counter of runtime ids, and the resources
    and methods the gateway watches.  Here are the functions that make and read
    these keys, with the proof that no two of them collide, and the interface
    the store has to the registry of object schemas
    ([src/pkg/config/schema], AdminSchema.v). *)

From stdpp Require Import base gmap list strings pretty.
From S2P Require Import Prelude GoStrings McpCatalog LoadBalance.

(** ** Runtime data: [legacyconfig] *)

Record MappingParam : Type := mkMappingParam {
  mp_Name : string;
  mp_MapTo : string;
  mp_MapType : string;
}.

Record IntegrationRequest : Type := mkIntegration {
  ir_RequestType : string;
  ir_ClusterName : string;
  ir_ApplicationName : string;
  ir_Protocol : string;
  ir_Group : string;
  ir_Version : string;
  ir_Interface : string;
  ir_Method : string;
  ir_ParameterTypes : list string;
  ir_MappingParams : list MappingParam;
}.

Record Method : Type := mkMethod {
  me_ID : Z;
  me_ResourcePath : string;
  me_Enable : bool;
  me_Timeout : Z;
  me_HTTPVerb : string;
  me_InboundRequestType : string;
  me_IntegrationRequest : IntegrationRequest;
}.

Inductive Resource : Type :=
  mkResource (id : Z) (type path : string) (timeout : Z) (methods : list Method) (resources : list Resource).

Definition rs_ID (r : Resource) : Z := let 'mkResource id _ _ _ _ _ := r in id.
Definition rs_Path (r : Resource) : string := let 'mkResource _ _ path _ _ _ := r in path.

Record CompiledRoute : Type := mkCompiled {
  cr_Resource : Resource;
  cr_Method : Method;
}.

Definition set_resource_id (id : Z) (r : Resource) : Resource :=
  let 'mkResource _ type path timeout methods resources := r in mkResource id type path timeout methods resources.

Definition set_method_id (id : Z) (m : Method) : Method :=
  mkMethod id (me_ResourcePath m) (me_Enable m) (me_Timeout m) (me_HTTPVerb m) (me_InboundRequestType m)
    (me_IntegrationRequest m).

(** ** Escaping of path segments: [url.PathEscape], [url.PathUnescape] *)

Section escape.

Definition unreserved (a : ascii) : bool :=
  let n := N_of_ascii a in
  ((97 <=? n) && (n <=? 122) || (65 <=? n) && (n <=? 90) || (48 <=? n) && (n <=? 57))%N ||
  bool_decide (a ∈ ["-"; "_"; "."; "~"; "$"; "&"; "+"; ":"; "="; "@"]%char).

Definition hex_digit (n : N) : ascii := ascii_of_N (if (n <? 10)%N then 48 + n else 55 + n)%N.

Definition unhex (a : ascii) : option N :=
  let n := N_of_ascii a in
  if ((48 <=? n) && (n <=? 57))%N then Some (n - 48)%N
  else if ((97 <=? n) && (n <=? 102))%N then Some (n - 87)%N
  else if ((65 <=? n) && (n <=? 70))%N then Some (n - 55)%N
  else None.

Fixpoint PathEscape (s : string) : string :=
  match s with
  | EmptyString => ""
  | String a s =>
      if unreserved a then String a (PathEscape s)
      else String "%" (String (hex_digit (N_of_ascii a / 16)) (String (hex_digit (N_of_ascii a mod 16)) (PathEscape s)))
  end.

Fixpoint PathUnescape (s : string) : option string :=
  match s with
  | EmptyString => Some ""
  | String a s =>
      if decide (a = "%"%char) then
        match s with
        | String h (String l s) =>
            match unhex h, unhex l with
            | Some h, Some l => String (ascii_of_N (16 * h + l)) <$> PathUnescape s
            | _, _ => None
            end
        | _ => None
        end
      else String a <$> PathUnescape s
  end.

Definition all_bytes : list ascii := ascii_of_nat <$> seq 0 256.

Lemma byte_in_all (a : ascii) : a ∈ all_bytes.
Proof.
  apply list_elem_of_fmap. exists (nat_of_ascii a). split; [by rewrite ascii_nat_embedding|].
  apply elem_of_seq. pose proof (nat_ascii_bounded a). lia.
Qed.

(** A statement about one byte holds when it holds for all 256 of them. *)
Lemma all_bytes_true (P : ascii → bool) : forallb P all_bytes = true → ∀ a, P a = true.
Proof. rewrite forallb_forall. intros H a. apply H, list_elem_of_In, byte_in_all. Qed.

Lemma escaped_byte (a : ascii) :
  unhex (hex_digit (N_of_ascii a / 16)) = Some (N_of_ascii a / 16)%N ∧
  unhex (hex_digit (N_of_ascii a mod 16)) = Some (N_of_ascii a mod 16)%N ∧
  (unreserved a = true → a ≠ "%"%char ∧ a ≠ slash) ∧
  hex_digit (N_of_ascii a / 16) ≠ slash ∧ hex_digit (N_of_ascii a mod 16) ≠ slash.
Proof.
  apply (bool_decide_eq_true_1 _). revert a. apply all_bytes_true. vm_compute. reflexivity.
Qed.

Lemma unescape_escape (s : string) : PathUnescape (PathEscape s) = Some s.
Proof.
  induction s as [|a s IH]; [done|]. simpl. destruct (escaped_byte a) as (Hh & Hl & Hp & _).
  destruct (unreserved a) eqn:E.
  - simpl. rewrite decide_False by (by destruct Hp). by rewrite IH.
  - cbn [PathUnescape]. rewrite decide_True by done. rewrite Hh, Hl, IH. simpl. f_equal. f_equal.
    rewrite <- N.div_mod by done. apply ascii_N_embedding.
Qed.

#[export] Instance PathEscape_inj : Inj (=) (=) PathEscape.
Proof. intros x y H. apply (f_equal PathUnescape) in H. rewrite !unescape_escape in H. by injection H. Qed.

Lemma escape_no_slash (s : string) : Strings.HasByte slash (PathEscape s) = false.
Proof.
  induction s as [|a s IH]; [done|]. simpl.
  destruct (escaped_byte a) as (_ & _ & Hp & Hh & Hl).
  destruct (unreserved a).
  - apply Strings.HasByte_cons_false. by destruct Hp.
  - rewrite !Strings.HasByte_cons_false. done.
Qed.

Lemma escape_empty (s : string) : PathEscape s = "" → s = "".
Proof. destruct s; simpl; [done|]. by destruct (unreserved _). Qed.

End escape.

(** ** Numbers in keys *)

Section numbers.

Lemma each_digit (P : N → Prop) (d : N) : Forall P [0; 1; 2; 3; 4; 5; 6; 7; 8; 9]%N → (d < 10)%N → P d.
Proof. intros HP Hd. apply (proj1 (Forall_forall _ _) HP). rewrite !elem_of_cons. lia. Qed.

Lemma digits_value_pretty (x : N) (s : string) : digits_value 0 (pretty_N_go x s) = digits_value (Z.of_N x) s.
Proof.
  revert s. induction (N.lt_wf_0 x) as [x _ IH]; intros s.
  destruct (decide (x = 0)%N) as [->|Hx]; [by rewrite pretty_N_go_0|].
  rewrite pretty_N_go_step by lia. rewrite IH by (apply N.div_lt; lia).
  assert (∀ d, (d < 10)%N → (Z.of_N (N_of_ascii (pretty_N_char d)) - 48)%Z = Z.of_N d) as Hd.
  { intros d. apply (each_digit (λ d, (Z.of_N (N_of_ascii (pretty_N_char d)) - 48)%Z = Z.of_N d)). by repeat constructor. }
  cbn [digits_value]. rewrite Hd by (by apply N.mod_lt).
  pose proof (N.mod_lt x 10 ltac:(done)). pose proof (N.div_mod x 10 ltac:(done)).
  revert H H0. generalize (x mod 10)%N (x / 10)%N. intros r q Hr Hx'. rewrite decide_True by lia. f_equal. lia.
Qed.

Lemma pretty_N_go_start (x : N) (s : string) :
  (0 < x)%N → ∃ d t, (d < 10)%N ∧ pretty_N_go x s = String (pretty_N_char d) t.
Proof.
  revert s. induction (N.lt_wf_0 x) as [x _ IH]; intros s Hx. rewrite pretty_N_go_step by lia.
  destruct (decide (x / 10 = 0)%N) as [->|Hd].
  - rewrite pretty_N_go_0. exists (x mod 10)%N, s. split; [by apply N.mod_lt|done].
  - apply IH; [by apply N.div_lt|]. by apply N.neq_0_lt_0.
Qed.

Lemma digits_value_pretty_N (x : N) : digits_value 0 (pretty x) = Some (Z.of_N x).
Proof.
  unfold pretty, pretty_N. case_decide; [by subst|]. by rewrite digits_value_pretty.
Qed.

Lemma pretty_N_head (x : N) : ∃ a t, pretty x = String a t ∧ a ≠ "-"%char ∧ a ≠ "+"%char.
Proof.
  unfold pretty, pretty_N. case_decide as Hx; [by do 2 eexists|].
  destruct (pretty_N_go_start x "") as (d & t & Hd & ->); [lia|]. do 2 eexists. split; [done|].
  revert Hd. apply (each_digit (λ d, pretty_N_char d ≠ _ ∧ pretty_N_char d ≠ _)). by repeat constructor.
Qed.

Lemma Atoi_pretty (z : Z) : (- 2 ^ 63 ≤ z < 2 ^ 63)%Z → Atoi (pretty z) = Some z.
Proof.
  intros Hz. assert (∀ x : N, Atoi (pretty x) = if decide (Z.of_N x < 2 ^ 63)%Z then Some (Z.of_N x) else None) as HN.
  { intros x. pose proof (digits_value_pretty_N x) as Hd. destruct (pretty_N_head x) as (a & t & E & Ha & Hb).
    rewrite E in *. unfold Atoi. rewrite !decide_False by done. rewrite Hd. simpl.
    destruct (decide (- _ ≤ _ < _)%Z), (decide (_ < _)%Z); try done; try lia. f_equal. lia. }
  destruct z as [|x|x]; [done| |].
  - change (pretty (Z.pos x)) with (pretty (N.pos x)). rewrite HN. by rewrite decide_True by lia.
  - change (pretty (Z.neg x)) with (String "-" (pretty (N.pos x))). unfold Atoi. rewrite decide_True by done.
    pose proof (digits_value_pretty_N (N.pos x)) as Hd. destruct (pretty_N_head (N.pos x)) as (a & t & E & _).
    rewrite decide_False by (by rewrite E). rewrite Hd. cbn [mbind option_bind]. rewrite decide_True by lia. f_equal.
Qed.

Lemma pretty_no_slash (z : Z) : Strings.HasByte slash (pretty z) = false.
Proof.
  assert (∀ (x : N) s, Strings.HasByte slash s = false → Strings.HasByte slash (pretty_N_go x s) = false) as Hgo.
  { intros x. induction (N.lt_wf_0 x) as [x _ IH]; intros s Hs.
    destruct (decide (x = 0)%N) as [->|Hx]; [by rewrite pretty_N_go_0|].
    rewrite pretty_N_go_step by lia. apply IH; [apply N.div_lt; lia|]. apply Strings.HasByte_cons_false. split; [|done].
    apply (each_digit (λ d, pretty_N_char d ≠ slash)); [by repeat constructor|by apply N.mod_lt]. }
  assert (∀ x : N, Strings.HasByte slash (pretty x) = false) as HN.
  { intros x. unfold pretty, pretty_N. case_decide; [done|]. by apply Hgo. }
  destruct z as [|x|x]; [done|apply (HN (N.pos x))|].
  change (pretty (Z.neg x)) with (String "-" (pretty (N.pos x))). apply Strings.HasByte_cons_false. split; [done|]. apply HN.
Qed.

End numbers.

(** ** Names and keys *)

Fixpoint TrimRightByte (c : ascii) (s : string) : string :=
  match s with
  | EmptyString => ""
  | String a s =>
      match TrimRightByte c s with
      | EmptyString => if decide (a = c) then "" else String a ""
      | t => String a t
      end
  end.

(** [strings.Trim] with one byte. *)
Definition TrimByte (c : ascii) (s : string) : string := TrimRightByte c (Strings.TrimLeftByte c s).

Definition normalizeRouteBindingName (name : string) : option string :=
  let name := TrimSpace.TrimSpace name in
  if bool_decide (name = "") then None
  else if bool_decide (name = ".") || bool_decide (name = "..") ||
          Strings.HasByte slash name || Strings.HasByte "\"%char name then None
  else if (128 <? String.length name) then None
  else Some name.

Definition routeBindingNameFromKey (prefix key : string) : option string :=
  if negb (Strings.HasPrefix key prefix) then None
  else
    let encodedName := Strings.TrimPrefix key prefix in
    if bool_decide (encodedName = "") || Strings.HasByte slash encodedName then None
    else PathUnescape encodedName ≫= normalizeRouteBindingName.

Definition bindingKey (prefix name : string) : string := prefix +:+ PathEscape name.

(** [None]: the key is not that of a resource. *)
Definition runtimeResourceID (prefix key : string) : option Z :=
  if negb (Strings.HasPrefix key prefix) then None
  else
    let relative := TrimByte slash (Strings.TrimPrefix key prefix) in
    if bool_decide (relative = "") || Strings.HasByte slash relative then None else Atoi relative.

(** [Ok None]: the key is not that of a method; [Err]: an id is no number. *)
Definition runtimeMethodIDs (prefix key : string) : result unit (option (Z * Z)) :=
  if negb (Strings.HasPrefix key prefix) then Ok None
  else
    match Strings.SplitByte slash (TrimByte slash (Strings.TrimPrefix key prefix)) with
    | [r; m; i] =>
        if bool_decide (m = "method") then
          match Atoi r, Atoi i with
          | Some r, Some i => Ok (Some (r, i))
          | _, _ => Err tt
          end
        else Ok None
    | _ => Ok None
    end.

Section keys.
Variable root : string.

Definition bindingPrefix (unpublished : bool) : string :=
  if unpublished then root +:+ "/unpublished/route-bindings/" else root +:+ "/route-bindings/".
Definition historyPrefix (name : string) : string := root +:+ "/route-bindings-history/" +:+ PathEscape name +:+ "/".
Definition historyKey (name : string) (rev : Z) : string := historyPrefix name +:+ pretty rev.
Definition publishedRevisionKey : string := root +:+ "/route-bindings-revision".
Definition counterKey : string := root +:+ "/resourceId".
Definition runtimeResourcePrefix : string := root +:+ "/resources/".
Definition runtimeResourceKey (resourceID : Z) : string := root +:+ "/resources/" +:+ pretty resourceID.
Definition runtimeMethodKey (resourceID methodID : Z) : string :=
  runtimeResourceKey resourceID +:+ "/method/" +:+ pretty methodID.

(** The keys of the store, by what they hold. *)
Inductive key : Type :=
  | KBinding (unpublished : bool) (name : string)
  | KHistory (name : string) (rev : Z)
  | KMarker
  | KCounter
  | KResource (id : Z)
  | KMethod (id mid : Z).

Definition render (k : key) : string :=
  match k with
  | KBinding u name => bindingKey (bindingPrefix u) name
  | KHistory name rev => historyKey name rev
  | KMarker => publishedRevisionKey
  | KCounter => counterKey
  | KResource id => runtimeResourceKey id
  | KMethod id mid => runtimeMethodKey id mid
  end.

Lemma HasPrefix_exists s p : Strings.HasPrefix s p = true ↔ ∃ t, s = p +:+ t.
Proof.
  split.
  - revert s. induction p as [|a p IH]; intros s; simpl; [by exists s|]. destruct s as [|b s]; [done|].
    intros [Hb H]%andb_true_iff. apply bool_decide_eq_true in Hb as ->. destruct (IH _ H) as [t ->]. by exists t.
  - intros [t ->]. induction p as [|a p IH]; simpl; [by destruct t|]. by rewrite bool_decide_eq_true_2, IH.
Qed.

Lemma cut_slash x y s t :
  Strings.HasByte slash x = false → Strings.HasByte slash y = false →
  x +:+ String slash s = y +:+ String slash t → x = y ∧ s = t.
Proof.
  revert y. induction x as [|a x IH]; intros [|b y]; rewrite ?Strings.HasByte_cons_false; simpl; intros Hx Hy H; simplify_eq;
    try done; try (by destruct Hx); try (by destruct Hy).
  destruct Hx, Hy, (IH y) as [-> ->]; done.
Qed.

Lemma no_slash_inside x y s : Strings.HasByte slash x = false → x = y +:+ String slash s → False.
Proof. intros Hx ->. rewrite Strings.HasByte_app in Hx. simpl in Hx. by rewrite orb_true_r in Hx. Qed.

Lemma append_cancel p s t : p +:+ s = p +:+ t → s = t.
Proof. induction p as [|a p IH]; simpl; [done|]. intros [=]. by apply IH. Qed.

Definition tail (k : key) : string :=
  match k with
  | KBinding true name => "/unpublished/route-bindings/" +:+ PathEscape name
  | KBinding false name => "/route-bindings/" +:+ PathEscape name
  | KHistory name rev => "/route-bindings-history/" +:+ (PathEscape name +:+ String slash (pretty rev))
  | KMarker => "/route-bindings-revision"
  | KCounter => "/resourceId"
  | KResource id => "/resources/" +:+ pretty id
  | KMethod id mid => "/resources/" +:+ (pretty id +:+ String slash ("method/" +:+ pretty mid))
  end.

Lemma render_tail k : render k = root +:+ tail k.
Proof.
  destruct k as [[]| | | | |]; unfold render, bindingKey, bindingPrefix, historyKey, historyPrefix, runtimeMethodKey,
    runtimeResourceKey; rewrite ?Strings.app_assoc; done.
Qed.

#[export] Instance render_inj : Inj (=) (=) render.
Proof.
  intros k1 k2. rewrite !render_tail. intros H%append_cancel.
  destruct k1 as [[] n1|n1 g1| | |id1|id1 mid1], k2 as [[] n2|n2 g2| | |id2|id2 mid2];
    simpl in H; try discriminate H; try done; repeat (injection H as H).
  all: try (by apply (inj PathEscape) in H as ->).
  all: try (by apply (inj pretty) in H as ->).
  - apply cut_slash in H as [H1 H2]; [|apply escape_no_slash..].
    apply (inj PathEscape) in H1 as ->. by apply (inj pretty) in H2 as ->.
  - by destruct (no_slash_inside _ _ _ (pretty_no_slash id1) H).
  - by destruct (no_slash_inside _ _ _ (pretty_no_slash id2) (eq_sym H)).
  - apply cut_slash in H as [H1 H2]; [|apply pretty_no_slash..]. injection H2 as H2.
    apply (inj pretty) in H1 as ->. by apply (inj pretty) in H2 as ->.
Qed.

(** *** Reading the keys of a prefix *)

Lemma binding_prefix_keys u k : Strings.HasPrefix (render k) (bindingPrefix u) = true ↔ ∃ n, k = KBinding u n.
Proof.
  rewrite HasPrefix_exists, render_tail. split.
  - intros [t H]. destruct u; unfold bindingPrefix in H; rewrite Strings.app_assoc in H; apply append_cancel in H;
      destruct k as [[] n|n g| | |id|id mid]; simpl in H; try discriminate H; by exists n.
  - intros [n ->]. exists (PathEscape n). destruct u; unfold bindingPrefix; by rewrite Strings.app_assoc.
Qed.

Lemma runtime_prefix_keys k :
  Strings.HasPrefix (render k) runtimeResourcePrefix = true ↔
    (∃ id, k = KResource id) ∨ ∃ id mid, k = KMethod id mid.
Proof.
  rewrite HasPrefix_exists, render_tail. unfold runtimeResourcePrefix. split.
  - intros [t H]. rewrite Strings.app_assoc in H. apply append_cancel in H.
    destruct k as [[] n|n g| | |id|id mid]; simpl in H; try discriminate H; eauto.
  - intros [[id ->]|(id & mid & ->)]; eexists; by rewrite Strings.app_assoc.
Qed.

Lemma below_resource_keys id k :
  Strings.HasPrefix (render k) (runtimeResourceKey id +:+ "/") = true ↔ ∃ mid, k = KMethod id mid.
Proof.
  rewrite HasPrefix_exists, render_tail. unfold runtimeResourceKey. split.
  - intros [t H]. rewrite !Strings.app_assoc in H. apply append_cancel in H.
    destruct k as [[] n|n g| | |id'|id' mid]; simpl in H; try discriminate H; repeat (injection H as H).
    + by destruct (no_slash_inside _ _ _ (pretty_no_slash id') H).
    + apply cut_slash in H as [H _]; [|apply pretty_no_slash..]. apply (inj pretty) in H as ->. by eexists.
  - intros (mid & ->). eexists. by rewrite !Strings.app_assoc.
Qed.

Lemma TrimPrefix_append p s : Strings.TrimPrefix (p +:+ s) p = s.
Proof.
  unfold Strings.TrimPrefix. rewrite (proj2 (HasPrefix_exists _ _)) by eauto. apply TrieKey.Drop_app.
Qed.

Lemma name_from_key prefix n :
  normalizeRouteBindingName n = Some n → routeBindingNameFromKey prefix (bindingKey prefix n) = Some n.
Proof.
  intros Hn. unfold routeBindingNameFromKey, bindingKey. rewrite (proj2 (HasPrefix_exists _ _)) by eauto. simpl.
  rewrite TrimPrefix_append, escape_no_slash, unescape_escape. rewrite bool_decide_eq_false_2; [done|].
  intros ->%escape_empty. done.
Qed.

Lemma normalize_name_idemp n m : normalizeRouteBindingName n = Some m → normalizeRouteBindingName m = Some m.
Proof.
  unfold normalizeRouteBindingName. intros H. assert (TrimSpace.TrimSpace n = m) as <-.
  { destruct (bool_decide _); [done|]. destruct (_ || _); [done|]. destruct (_ <? _); by simplify_eq. }
  by rewrite TrimSpace.TrimSpace_idemp.
Qed.

Lemma TrimRightByte_none c s : Strings.HasByte c s = false → TrimRightByte c s = s.
Proof.
  induction s as [|a s IH]; [done|]. rewrite Strings.HasByte_cons_false. intros [Ha Hs]. simpl. rewrite IH by done.
  destruct s; [by rewrite decide_False|done].
Qed.

Lemma TrimLeftByte_none c s : Strings.HasByte c s = false → Strings.TrimLeftByte c s = s.
Proof.
  destruct s as [|a s]; [done|]. rewrite Strings.HasByte_cons_false. intros [Ha _]. by apply Strings.TrimLeftByte_id.
Qed.

Lemma resource_id_of_key id :
  (- 2 ^ 63 ≤ id < 2 ^ 63)%Z → runtimeResourceID runtimeResourcePrefix (runtimeResourceKey id) = Some id.
Proof.
  intros Hid. unfold runtimeResourceID, runtimeResourceKey, runtimeResourcePrefix. rewrite <- Strings.app_assoc.
  rewrite (proj2 (HasPrefix_exists _ _)) by eauto. simpl. rewrite TrimPrefix_append. unfold TrimByte.
  rewrite TrimLeftByte_none, TrimRightByte_none by apply pretty_no_slash. rewrite pretty_no_slash, Atoi_pretty by done.
  rewrite bool_decide_eq_false_2; [done|]. intros H%(f_equal Atoi). by rewrite Atoi_pretty in H.
Qed.

Lemma TrimRightByte_app c s t : TrimRightByte c t ≠ "" → TrimRightByte c (s +:+ t) = s +:+ TrimRightByte c t.
Proof. intros Ht. induction s as [|a s IH]; [done|]. simpl. rewrite IH.
  destruct (s +:+ TrimRightByte c t) as [|b u] eqn:E; [|done]. by destruct s; simpl in E. Qed.

Lemma TrimLeftByte_app c s t :
  s ≠ "" → Strings.HasByte c s = false → Strings.TrimLeftByte c (s +:+ t) = s +:+ t.
Proof.
  destruct s as [|a s]; [done|]. rewrite Strings.HasByte_cons_false. intros _ [Ha _]. by apply Strings.TrimLeftByte_id.
Qed.

Lemma pretty_not_empty (z : Z) : (- 2 ^ 63 ≤ z < 2 ^ 63)%Z → pretty z ≠ "".
Proof. intros Hz H%(f_equal Atoi). by rewrite Atoi_pretty in H. Qed.

Lemma trimmed_method_key id mid :
  (- 2 ^ 63 ≤ id < 2 ^ 63)%Z → (- 2 ^ 63 ≤ mid < 2 ^ 63)%Z →
  Strings.HasPrefix (runtimeMethodKey id mid) runtimeResourcePrefix = true ∧
  TrimByte slash (Strings.TrimPrefix (runtimeMethodKey id mid) runtimeResourcePrefix) =
    pretty id +:+ String slash ("method" +:+ String slash (pretty mid)).
Proof.
  intros Hid Hmid. unfold runtimeMethodKey, runtimeResourceKey, runtimeResourcePrefix.
  rewrite !Strings.app_assoc. rewrite <- (Strings.app_assoc root). split; [by apply HasPrefix_exists; eauto|].
  rewrite TrimPrefix_append. unfold TrimByte.
  rewrite TrimLeftByte_app by (first [by apply pretty_not_empty|apply pretty_no_slash]).
  rewrite <- (Strings.app_assoc (pretty id)), TrimRightByte_app, TrimRightByte_none, Strings.app_assoc;
    [done|apply pretty_no_slash|rewrite TrimRightByte_none by apply pretty_no_slash; by apply pretty_not_empty].
Qed.

Lemma method_ids_of_key id mid :
  (- 2 ^ 63 ≤ id < 2 ^ 63)%Z → (- 2 ^ 63 ≤ mid < 2 ^ 63)%Z →
  runtimeMethodIDs runtimeResourcePrefix (runtimeMethodKey id mid) = Ok (Some (id, mid)).
Proof.
  intros Hid Hmid. destruct (trimmed_method_key id mid Hid Hmid) as [Hp Ht]. unfold runtimeMethodIDs. rewrite Hp, Ht. cbn [negb].
  rewrite Strings.SplitByte_app by apply pretty_no_slash. rewrite Strings.SplitByte_app by done.
  rewrite Strings.SplitByte_none by apply pretty_no_slash. simpl. by rewrite !Atoi_pretty.
Qed.

Lemma method_key_no_resource id mid :
  (- 2 ^ 63 ≤ id < 2 ^ 63)%Z → (- 2 ^ 63 ≤ mid < 2 ^ 63)%Z →
  runtimeResourceID runtimeResourcePrefix (runtimeMethodKey id mid) = None.
Proof.
  intros Hid Hmid. destruct (trimmed_method_key id mid Hid Hmid) as [Hp Ht]. unfold runtimeResourceID. rewrite Hp, Ht. cbn [negb].
  rewrite Strings.HasByte_app. simpl. by rewrite !orb_true_r.
Qed.

End keys.

(** ** The registry of object schemas

    What the store uses of an administration object and of the registry that
    validates it. *)
Class ObjectRegistry (Obj : Type) : Type := {
  obj_Name : Obj → string;
  set_Name : string → Obj → Obj;
  registry_Normalize : Obj → option Obj;
  CompileAdminRouteBinding : Obj → option CompiledRoute;
}.

(** What the store relies on: normalizing changes nothing the second time, also
    when the name was trimmed in between. *)
Class ObjectRegistryLaws (Obj : Type) `{!ObjectRegistry Obj} : Prop := {
  name_set : ∀ n (o : Obj), obj_Name (set_Name n o) = n;
  set_name_same : ∀ (o : Obj), set_Name (obj_Name o) o = o;
  normalize_again : ∀ (o o' : Obj) n,
    registry_Normalize o = Some o' → normalizeRouteBindingName (obj_Name o') = Some n →
    registry_Normalize (set_Name n o') = Some (set_Name n o');
}.

(** [RouteBindingStore.Normalize]. *)
Definition Normalize {Obj} `{ObjectRegistry Obj} (o : Obj) : option Obj :=
  normalized ← registry_Normalize o;
  name ← normalizeRouteBindingName (obj_Name normalized);
  Some (set_Name name normalized).

Section registry_laws.
Context {Obj : Type} `{ObjectRegistryLaws Obj}.
Implicit Types (o : Obj).

Lemma object_Normalize_idemp o o' : Normalize o = Some o' → Normalize o' = Some o'.
Proof.
  unfold Normalize. destruct (registry_Normalize o) as [m|] eqn:Em; [|done]. simpl.
  destruct (normalizeRouteBindingName _) as [n|] eqn:En; [|done]. simpl. intros [= <-].
  rewrite (normalize_again _ _ _ Em En). simpl. rewrite name_set, (normalize_name_idemp _ _ En). simpl.
  pose proof (set_name_same (set_Name n m)) as Hs. rewrite name_set in Hs. by rewrite Hs.
Qed.

Lemma Normalize_name o o' : Normalize o = Some o' → normalizeRouteBindingName (obj_Name o') = Some (obj_Name o').
Proof.
  unfold Normalize. destruct (registry_Normalize o) as [m|]; [|done]. simpl.
  destruct (normalizeRouteBindingName _) as [n|] eqn:En; [|done]. simpl. intros [= <-].
  rewrite name_set. by eapply normalize_name_idemp.
Qed.

End registry_laws.
