(* ===== verification/RouteStore.v ===== *)
(** * The route binding store of the administration console

    [src/admin/logic/route_binding.go] over the store of Etcd.v and the keys of
    AdminRoute.v.  Every operation is a client program: a chain of reads, a
    decision, and one transaction that is guarded by the revisions that were
    read.  Values are kept decoded: a binding, a record of the history, a
    resource, a method or a number; a value of another kind does not decode.
    Times of publication are left out. *)

From stdpp Require Import base gmap list strings pretty sorting.
From S2P Require Import Prelude GoStrings McpCatalog LoadBalance Etcd AdminRoute.

Section data.
Context {Obj : Type}.

Record routeBindingRecord : Type := mkRecord {
  rb_Object : Obj;
  rb_ResourceID : Z;
  rb_MethodID : Z;
}.

Record routeBindingHistoryRecord : Type := mkHistory {
  h_Revision : Z;
  h_Binding : option routeBindingRecord;
}.

Inductive value : Type :=
  | VBinding (r : routeBindingRecord)
  | VHistory (h : routeBindingHistoryRecord)
  | VResource (r : Resource)
  | VMethod (m : Method)
  | VText (s : string).

Record routeBindingEntry : Type := mkEntry {
  be_record : routeBindingRecord;
  be_key : string;
  be_revision : Z;
}.

(** The answer to a caller. *)
Record RouteBinding : Type := mkBinding {
  b_Object : Obj;
  b_ResourceID : Z;
  b_MethodID : Z;
  b_Revision : Z;
}.

Record compiledRouteEntry : Type := mkCompiledEntry {
  ce_entry : routeBindingEntry;
  ce_object : Obj;
  ce_legacy : CompiledRoute;
}.

(** [None] is a binding that does not exist. *)
Record routeBindingPublishState : Type := mkPublishState {
  ps_draft : option routeBindingEntry;
  ps_published : option routeBindingEntry;
}.

Record RouteBindingHistoryEntry : Type := mkHistoryEntry {
  he_Revision : Z;
  he_Binding : option routeBindingRecord;
}.

End data.

#[global] Arguments routeBindingRecord : clear implicits.
#[global] Arguments routeBindingHistoryRecord : clear implicits.
#[global] Arguments value : clear implicits.
#[global] Arguments routeBindingEntry : clear implicits.
#[global] Arguments RouteBinding : clear implicits.
#[global] Arguments compiledRouteEntry : clear implicits.
#[global] Arguments routeBindingPublishState : clear implicits.
#[global] Arguments RouteBindingHistoryEntry : clear implicits.

Record RouteBindingPublishResult : Type := mkPublishResult {
  pr_Name : string;
  pr_Revision : Z;
  pr_DraftRevision : Z;
  pr_PublishedRevision : Z;
  pr_PublishedCount : nat;
  pr_DeletedCount : nat;
}.

Record RouteBindingPublishStatus : Type := mkPublishStatus {
  st_Name : string;
  st_DraftRevision : Z;
  st_PublishedRevision : Z;
  st_DraftExists : bool;
  st_PublishedExists : bool;
  st_Dirty : bool;
}.

(** [EUnavailable]: a request to etcd failed; [EInvalid]: the request, or
    stored data, is refused. *)
Inductive store_error : Type :=
  | ENotFound | EAlreadyExists | ENameImmutable | EConflict | EPublishConflict | ERuntimeConflict
  | EUnavailable | EInvalid.
#[global] Instance store_error_eq_dec : EqDecision store_error.
Proof. solve_decision. Defined.

Section store.
Context {Obj : Type} `{!EqDecision Obj} `{!ObjectRegistry Obj}.

(** [strings.ToLower] and [strings.ToUpper]; the order in which a map is
    ranged over; the root of the keys. *)
Context (lower upper : string → string).
Context (range : gmap Z Resource → list (Z * Resource)).
Context (root : string).

Implicit Types (o : Obj) (name prefix : string) (create expectedAbsent : bool) (expectedRevision : Z).

(** ** Programs that can fail *)

Definition M (A : Type) : Type := prog (value Obj) (result store_error A).
Definition ret {A} (a : A) : M A := Ret (Ok a).
#[local] Instance M_bind : MBind M := λ A B f m, prog_bind m (λ r, match r with Ok a => f a | Err e => Ret (Err e) end).
Definition fail {A} (e : store_error) : M A := Ret (Err e).
Definition of_option {A} (e : store_error) (x : option A) : M A := match x with Some a => ret a | None => fail e end.
Definition require (b : bool) (e : store_error) : M unit := if b then ret tt else fail e.

Definition kv_Get (key : string) : M (option (kv (value Obj))) :=
  Ask (Get key) (λ x, match x with Found x => ret x | _ => fail EUnavailable end).
Definition kv_GetPrefix prefix : M (list (string * kv (value Obj))) :=
  Ask (GetPrefix prefix) (λ x, match x with Listed l => ret l | _ => fail EUnavailable end).
Definition kv_Txn (cs : list cmp) (ops : list (op (value Obj))) : M (bool * Z) :=
  Ask (Txn cs ops) (λ x, match x with Committed b rev => ret (b, rev) | _ => fail EUnavailable end).

(** ** Reading *)

Definition decode_entry name (key : string) (x : kv (value Obj)) : option (routeBindingEntry Obj) :=
  match kv_Value x with
  | VBinding r => if bool_decide (obj_Name (rb_Object r) = name) then Some (mkEntry r key (kv_ModRevision x)) else None
  | _ => None
  end.

Definition getEntry prefix name : M (option (routeBindingEntry Obj)) :=
  let key := bindingKey prefix name in
  x ← kv_Get key;
  match x with
  | None => ret None
  | Some x => of_option EInvalid (Some <$> decode_entry name key x)
  end.

Definition decode_listed prefix (x : string * kv (value Obj)) : option (routeBindingEntry Obj) :=
  name ← routeBindingNameFromKey prefix x.1; decode_entry name x.1 x.2.

Definition listEntries prefix : M (list (routeBindingEntry Obj)) :=
  kvs ← kv_GetPrefix prefix; of_option EInvalid (mapM (decode_listed prefix) kvs).

(** The revision of the marker, [None] when it does not exist. *)
Definition markerRevision : M (option Z) :=
  x ← kv_Get (publishedRevisionKey root); ret (kv_ModRevision <$> x).

(** [strconv.ParseInt] in base 10 is [Atoi] for [int64]. *)
Definition nextPublishedGeneration : M Z :=
  x ← kv_Get (publishedRevisionKey root);
  match x with
  | None => ret 1%Z
  | Some x =>
      of_option EInvalid
        (match kv_Value x with
         | VText s =>
             current ← Atoi s;
             if bool_decide (current < 0)%Z || bool_decide (current = 2 ^ 63 - 1)%Z then None else Some (current + 1)%Z
         | _ => None
         end)
  end.

Definition view (entry : routeBindingEntry Obj) : option (RouteBinding Obj) :=
  let r := be_record entry in
  normalized ← Normalize (rb_Object r);
  Some (mkBinding normalized (rb_ResourceID r) (rb_MethodID r) (be_revision entry)).

Definition readPublishState name : M (routeBindingPublishState Obj) :=
  draft ← getEntry (bindingPrefix root true) name;
  published ← getEntry (bindingPrefix root false) name;
  match draft, published with
  | None, None => fail ENotFound
  | _, _ => ret (mkPublishState draft published)
  end.

(** The revision of an entry, zero when it does not exist. *)
Definition entry_revision (x : option (routeBindingEntry Obj)) : Z := default 0%Z (be_revision <$> x).

(** ** Runtime ids *)

Definition readRuntimeIDCounter : M (Z * Z) :=
  x ← kv_Get (counterKey root);
  match x with
  | None => ret (0, 0)%Z
  | Some x =>
      of_option EInvalid
        (match kv_Value x with
         | VText s => current ← Atoi s; if bool_decide (current < 0)%Z then None else Some (current, kv_ModRevision x)
         | _ => None
         end)
  end.

Definition maxRuntimeResourceID (kvs : list (string * kv (value Obj))) (current : Z) : Z :=
  foldl (λ maxExisting x,
    let relative := Strings.TrimPrefix x.1 (runtimeResourcePrefix root) in
    if Strings.HasByte slash relative then maxExisting
    else match Atoi relative with
         | Some id => if bool_decide (maxExisting < id)%Z then id else maxExisting
         | None => maxExisting
         end) current kvs.

(** [None]: another client was faster. *)
Definition tryAllocateRuntimeID : M (option Z) :=
  '(current, rev) ← readRuntimeIDCounter;
  kvs ← kv_GetPrefix (runtimeResourcePrefix root);
  let next := sint64 (maxRuntimeResourceID kvs current + 1) in
  let comparison :=
    if bool_decide (0 < rev)%Z then ModRevision (counterKey root) rev else CreateRevision (counterKey root) 0 in
  '(succeeded, _) ← kv_Txn [comparison] [OpPut (counterKey root) (VText (pretty next))];
  ret (if succeeded : bool then Some next else None).

Fixpoint allocate_attempts (attempts : nat) : M Z :=
  match attempts with
  | 0 => fail EConflict
  | S attempts =>
      id ← tryAllocateRuntimeID;
      match id with
      | Some id => ret id
      | None => allocate_attempts attempts
      end
  end.

Definition maxRouteBindingIDRetries : nat := 16.
Definition allocateRuntimeID : M Z := allocate_attempts maxRouteBindingIDRetries.

Definition resolveRuntimeIdentity name (draft : option (routeBindingEntry Obj)) : M (Z * Z) :=
  known ← match draft with Some d => ret (Some d) | None => getEntry (bindingPrefix root false) name end;
  let resourceID := default 0%Z ((λ d, rb_ResourceID (be_record d)) <$> known) in
  let methodID := default 0%Z ((λ d, rb_MethodID (be_record d)) <$> known) in
  resourceID ← (if bool_decide (resourceID ≤ 0)%Z then allocateRuntimeID else ret resourceID);
  ret (resourceID, if bool_decide (methodID ≤ 0)%Z then resourceID else methodID).

(** ** Drafts *)

Definition commitDraft name (record : routeBindingRecord Obj) create expectedRevision expectedAbsent : M unit :=
  let draftKey := bindingKey (bindingPrefix root true) name in
  let comparisons :=
    if create then
      CreateRevision draftKey 0 ::
      (if expectedAbsent then [CreateRevision (bindingKey (bindingPrefix root false) name) 0] else [])
    else if bool_decide (0 < expectedRevision)%Z then [ModRevision draftKey expectedRevision] else [] in
  '(succeeded, _) ← kv_Txn comparisons [OpPut draftKey (VBinding record)];
  require succeeded (if create && negb expectedAbsent then EAlreadyExists else EConflict).

Definition validateSaveDraftRequest create expectedRevision : bool :=
  negb (bool_decide (expectedRevision < 0)%Z) && negb (create && bool_decide (0 < expectedRevision)%Z).

Definition validateDraftSaveState create expectedRevision (draft : option (routeBindingEntry Obj)) : M unit :=
  if create && bool_decide (is_Some draft) then fail EAlreadyExists
  else require (negb (bool_decide (0 < expectedRevision)%Z &&
                      (negb (bool_decide (is_Some draft)) || bool_decide (entry_revision draft ≠ expectedRevision)))) EConflict.

Definition saveDraft o create expectedRevision expectedAbsent : M (RouteBinding Obj) :=
  _ ← require (validateSaveDraftRequest create expectedRevision) EInvalid;
  _ ← require (negb (expectedAbsent && (negb create || bool_decide (expectedRevision ≠ 0)%Z))) EInvalid;
  normalized ← of_option EInvalid (Normalize o);
  let name := obj_Name normalized in
  draft ← getEntry (bindingPrefix root true) name;
  _ ← (if expectedAbsent then
         _ ← require (negb (bool_decide (is_Some draft))) EConflict;
         published ← getEntry (bindingPrefix root false) name;
         require (negb (bool_decide (is_Some published))) EConflict
       else ret tt);
  _ ← validateDraftSaveState create expectedRevision draft;
  '(resourceID, methodID) ← resolveRuntimeIdentity name draft;
  let record := mkRecord normalized resourceID methodID in
  _ ← commitDraft name record create expectedRevision expectedAbsent;
  saved ← getEntry (bindingPrefix root true) name;
  match saved with
  | None => fail EInvalid
  | Some saved => of_option EInvalid (view saved)
  end.

Definition SaveDraft o create expectedRevision : M (RouteBinding Obj) := saveDraft o create expectedRevision false.

Definition UpdateDraft originalName o expectedRevision : M (RouteBinding Obj) :=
  originalName ← of_option EInvalid (normalizeRouteBindingName originalName);
  normalized ← of_option EInvalid (Normalize o);
  if bool_decide (obj_Name normalized = originalName) then SaveDraft normalized false expectedRevision
  else fail ENameImmutable.

(** ** Route keys *)

(** Paths are compared the way the routing trie of the gateway does it. *)
Definition runtimeRouteConflictKey (method path : string) : string :=
  let key := stringutil.GetTrieKey (upper method) (lower path) in
  match Strings.SplitByte slash key with
  | [] => ""
  | first :: rest =>
      Strings.JoinByte slash (first :: ((λ segment,
        if stringutil.IsPathVariableOrWildcard segment && negb (stringutil.IsMatchAll segment) then ":" else segment) <$> rest))
  end.

(** The loop of [compileSnapshot], with the route keys and the ids that were
    seen. *)
Fixpoint compile_loop (entries : list (routeBindingEntry Obj)) (paths : gset string) (resourceIDs : gmap Z string) :
    option (list (compiledRouteEntry Obj)) :=
  match entries with
  | [] => Some []
  | entry :: entries =>
      let r := be_record entry in
      let name := obj_Name (rb_Object r) in
      if bool_decide (rb_ResourceID r ≤ 0)%Z || bool_decide (rb_MethodID r ≤ 0)%Z then None
      else
        normalized ← Normalize (rb_Object r);
        compiled ← CompileAdminRouteBinding normalized;
        let legacy := mkCompiled (set_resource_id (rb_ResourceID r) (cr_Resource compiled))
                                 (set_method_id (rb_MethodID r) (cr_Method compiled)) in
        let routeKey := runtimeRouteConflictKey (me_HTTPVerb (cr_Method legacy)) (rs_Path (cr_Resource legacy)) in
        if bool_decide (routeKey ∈ paths) then None
        else if match resourceIDs !! rb_ResourceID r with Some previous => negb (bool_decide (previous = name)) | None => false end
        then None
        else
          rest ← compile_loop entries ({[ routeKey ]} ∪ paths) (<[rb_ResourceID r := name]> resourceIDs);
          Some (mkCompiledEntry entry normalized legacy :: rest)
  end.

Definition compileSnapshot (entries : list (routeBindingEntry Obj)) : option (list (compiledRouteEntry Obj)) :=
  compile_loop entries ∅ ∅.

(** [Ok None]: there is no draft, the publication is a deletion. *)
Definition compilePublishCandidate name (draft : option (routeBindingEntry Obj)) (published : list (routeBindingEntry Obj)) :
    option (option (compiledRouteEntry Obj)) :=
  match draft with
  | None => Some None
  | Some draft =>
      let entries := filter (λ entry, obj_Name (rb_Object (be_record entry)) ≠ name) published ++ [draft] in
      compiled ← compileSnapshot entries;
      c ← first_such (λ c, bool_decide (obj_Name (ce_object c) = name)) compiled;
      Some (Some c)
  end.

(** ** Conflicts with other runtime routes *)

Record runtimeRouteBinding : Type := mkRuntimeRoute { rr_path : string; rr_httpVerb : string }.

(** The paths that are known of resources, and the routes of their methods. *)
Definition runtime_index : Type := gmap Z string * list runtimeRouteBinding.

Fixpoint collectRuntimeResourceRoutes (resource : Resource) (parentPath : string) (keyResourceID : Z) (acc : runtime_index) :
    runtime_index :=
  let 'mkResource id _ path _ methods resources := resource in
  let groupPath := if bool_decide (parentPath = "/") then "" else parentPath in
  if negb (Strings.HasPrefix path "/") then acc
  else
    let fullPath := groupPath +:+ path in
    let paths := if bool_decide (0 < keyResourceID)%Z then <[keyResourceID := fullPath]> acc.1 else acc.1 in
    let paths := if bool_decide (0 < id)%Z then <[id := fullPath]> paths else paths in
    let routes := acc.2 ++ ((λ m, mkRuntimeRoute fullPath (me_HTTPVerb m)) <$> methods) in
    (fix collect_nested (nested : list Resource) (acc : runtime_index) : runtime_index :=
       match nested with
       | [] => acc
       | r :: nested => collect_nested nested (collectRuntimeResourceRoutes r path (rs_ID r) acc)
       end) resources (paths, routes).

Definition runtimeResourcesFromResponse (kvs : list (string * kv (value Obj))) : option (gmap Z Resource) :=
  foldl (λ acc x,
    resources ← acc;
    match runtimeResourceID (runtimeResourcePrefix root) x.1 with
    | None => Some resources
    | Some id => match kv_Value x.2 with VResource r => Some (<[id := r]> resources) | _ => None end
    end) (Some ∅) kvs.

Definition indexRuntimeResourceRoutes (resources : gmap Z Resource) : runtime_index :=
  foldl (λ acc x, collectRuntimeResourceRoutes x.2 "" x.1 acc) (∅, []) (range resources).

(** [Some None]: the key is not that of a method to compare with. *)
Definition runtimeMethodRouteFromKV (x : string * kv (value Obj)) (resourcePaths : gmap Z string)
    (published : option (routeBindingEntry Obj)) : option (option runtimeRouteBinding) :=
  match runtimeMethodIDs (runtimeResourcePrefix root) x.1 with
  | Err _ => None
  | Ok None => Some None
  | Ok (Some (resourceID, methodID)) =>
      if match published with
         | Some p => bool_decide (resourceID = rb_ResourceID (be_record p)) && bool_decide (methodID = rb_MethodID (be_record p))
         | None => false
         end
      then Some None
      else
        match kv_Value x.2 with
        | VMethod m =>
            let path := TrimSpace.TrimSpace (me_ResourcePath m) in
            let path := if bool_decide (path = "") then default "" (resourcePaths !! resourceID) else path in
            Some (if bool_decide (path = "") then None else Some (mkRuntimeRoute path (me_HTTPVerb m)))
        | _ => None
        end
  end.

Definition runtimeMethodRoutesFromResponse (kvs : list (string * kv (value Obj))) (resourcePaths : gmap Z string)
    (published : option (routeBindingEntry Obj)) : option (list runtimeRouteBinding) :=
  routes ← mapM (λ x, runtimeMethodRouteFromKV x resourcePaths published) kvs;
  Some (omap id routes).

Definition runtimeRouteConflicts (candidate existing : runtimeRouteBinding) : bool :=
  bool_decide (runtimeRouteConflictKey (rr_httpVerb existing) (rr_path existing) =
               runtimeRouteConflictKey (TrimSpace.TrimSpace (rr_httpVerb candidate)) (rr_path candidate)).

Definition findRuntimeRouteConflict (candidate : compiledRouteEntry Obj) (routes : list runtimeRouteBinding) : bool :=
  let c := mkRuntimeRoute (rs_Path (cr_Resource (ce_legacy candidate))) (me_HTTPVerb (cr_Method (ce_legacy candidate))) in
  existsb (runtimeRouteConflicts c) routes.

Definition checkRuntimeRouteConflict (candidate : option (compiledRouteEntry Obj)) (published : option (routeBindingEntry Obj)) :
    M unit :=
  match candidate with
  | None => ret tt
  | Some candidate =>
      kvs ← kv_GetPrefix (runtimeResourcePrefix root);
      resources ← of_option EInvalid (runtimeResourcesFromResponse kvs);
      let '(resourcePaths, resourceRoutes) := indexRuntimeResourceRoutes resources in
      methodRoutes ← of_option EInvalid (runtimeMethodRoutesFromResponse kvs resourcePaths published);
      require (negb (findRuntimeRouteConflict candidate (resourceRoutes ++ methodRoutes))) ERuntimeConflict
  end.

(** ** Publication *)

Definition runtimeResourceDeleteOperations (resourceID : Z) : list (op (value Obj)) :=
  let key := runtimeResourceKey root resourceID in
  [OpDelete key; OpDeletePrefix (key +:+ "/")].

Definition entry_name (x : routeBindingEntry Obj) : string := obj_Name (rb_Object (be_record x)).

Definition buildPublishComparisons (state : routeBindingPublishState Obj) (marker : option Z) : list cmp :=
  match ps_draft state, ps_published state with
  | Some d, Some p =>
      [ModRevision (bindingKey (bindingPrefix root true) (entry_name d)) (be_revision d);
       ModRevision (bindingKey (bindingPrefix root false) (entry_name p)) (be_revision p)]
  | Some d, None =>
      [ModRevision (bindingKey (bindingPrefix root true) (entry_name d)) (be_revision d);
       CreateRevision (bindingKey (bindingPrefix root false) (entry_name d)) 0]
  | None, Some p => [ModRevision (bindingKey (bindingPrefix root false) (entry_name p)) (be_revision p)]
  | None, None => []
  end ++
  match marker with
  | Some rev => [ModRevision (publishedRevisionKey root) rev]
  | None => [CreateRevision (publishedRevisionKey root) 0]
  end.

(** The resource is written without methods. *)
Definition marshalCompiledRuntimeRoute (compiled : CompiledRoute) : value Obj * value Obj :=
  let 'mkResource id type path timeout _ _ := cr_Resource compiled in
  (VResource (mkResource id type path timeout [] []), VMethod (cr_Method compiled)).

(** The operations, and how many bindings they publish and delete.  Without a
    candidate there is a published binding ([readPublishState]). *)
Definition buildSinglePublishOperations (state : routeBindingPublishState Obj) (candidate : option (compiledRouteEntry Obj)) :
    list (op (value Obj)) * nat * nat :=
  match candidate with
  | None =>
      match ps_published state with
      | Some p =>
          (runtimeResourceDeleteOperations (rb_ResourceID (be_record p)) ++
             [OpDelete (bindingKey (bindingPrefix root false) (entry_name p))], 0, 1)
      | None => ([], 0, 1)
      end
  | Some c =>
      let compiled := ce_legacy c in
      let resourceID := rs_ID (cr_Resource compiled) in
      let methodID := me_ID (cr_Method compiled) in
      let old :=
        match ps_published state with
        | Some p =>
            if bool_decide (rb_ResourceID (be_record p) ≠ resourceID) then runtimeResourceDeleteOperations (rb_ResourceID (be_record p))
            else if bool_decide (rb_MethodID (be_record p) ≠ methodID)
            then [OpDelete (runtimeMethodKey root (rb_ResourceID (be_record p)) (rb_MethodID (be_record p)))]
            else []
        | None => []
        end in
      let '(resourceValue, methodValue) := marshalCompiledRuntimeRoute compiled in
      (old ++
         [OpPut (runtimeResourceKey root resourceID) resourceValue;
          OpPut (runtimeMethodKey root resourceID methodID) methodValue;
          OpPut (bindingKey (bindingPrefix root false) (obj_Name (ce_object c)))
            (VBinding (mkRecord (ce_object c) resourceID methodID))], 1, 0)
  end.

Definition history_operations name (historyRevision : Z) (binding : option (routeBindingRecord Obj)) : list (op (value Obj)) :=
  [OpPut (historyKey root name historyRevision) (VHistory (mkHistory historyRevision binding));
   OpPut (publishedRevisionKey root) (VText (pretty historyRevision))].

(** The caller's revision of the draft, when it gave one. *)
Definition draft_expected expectedRevision (state : routeBindingPublishState Obj) : bool :=
  negb (bool_decide (0 < expectedRevision)%Z &&
        (negb (bool_decide (is_Some (ps_draft state))) || bool_decide (entry_revision (ps_draft state) ≠ expectedRevision))).

Definition publishedRouteRevision name (candidate : option (compiledRouteEntry Obj)) : M Z :=
  match candidate with
  | None => ret 0%Z
  | Some _ =>
      published ← getEntry (bindingPrefix root false) name;
      of_option EInvalid (be_revision <$> published)
  end.

Definition candidate_record (c : compiledRouteEntry Obj) : routeBindingRecord Obj :=
  mkRecord (ce_object c) (rs_ID (cr_Resource (ce_legacy c))) (me_ID (cr_Method (ce_legacy c))).

Definition Publish name (expectedDraftRevision : Z) : M RouteBindingPublishResult :=
  _ ← require (negb (bool_decide (expectedDraftRevision < 0)%Z)) EInvalid;
  name ← of_option EInvalid (normalizeRouteBindingName name);
  marker ← markerRevision;
  historyRevision ← nextPublishedGeneration;
  state ← readPublishState name;
  _ ← require (draft_expected expectedDraftRevision state) EPublishConflict;
  publishedEntries ← listEntries (bindingPrefix root false);
  candidate ← of_option EInvalid (compilePublishCandidate name (ps_draft state) publishedEntries);
  _ ← checkRuntimeRouteConflict candidate (ps_published state);
  let comparisons := buildPublishComparisons state marker in
  let '(operations, publishedCount, deletedCount) := buildSinglePublishOperations state candidate in
  '(succeeded, rev) ← kv_Txn comparisons
    (operations ++ history_operations name historyRevision (candidate_record <$> candidate));
  _ ← require succeeded EPublishConflict;
  publishedRevision ← publishedRouteRevision name candidate;
  ret (mkPublishResult name rev (entry_revision (ps_draft state)) publishedRevision publishedCount deletedCount).

Definition DeleteAndPublish name expectedRevision : M RouteBindingPublishResult :=
  _ ← require (negb (bool_decide (expectedRevision < 0)%Z)) EInvalid;
  name ← of_option EInvalid (normalizeRouteBindingName name);
  marker ← markerRevision;
  historyRevision ← nextPublishedGeneration;
  state ← readPublishState name;
  _ ← require (draft_expected expectedRevision state) EConflict;
  let comparisons := buildPublishComparisons state marker in
  let drafts := match ps_draft state with Some _ => [OpDelete (bindingKey (bindingPrefix root true) name)] | None => [] end in
  _ ← require (match ps_published state with
               | Some p => bool_decide (0 < rb_ResourceID (be_record p))%Z && bool_decide (0 < rb_MethodID (be_record p))%Z
               | None => true
               end) EInvalid;
  let published :=
    match ps_published state with
    | Some p => runtimeResourceDeleteOperations (rb_ResourceID (be_record p)) ++ [OpDelete (bindingKey (bindingPrefix root false) name)]
    | None => []
    end in
  '(succeeded, rev) ← kv_Txn comparisons (drafts ++ published ++ history_operations name historyRevision None);
  _ ← require succeeded EPublishConflict;
  ret (mkPublishResult name rev (entry_revision (ps_draft state)) 0 0 (match ps_published state with Some _ => 1 | None => 0 end)).

Definition requireRouteBindingAbsent name : M unit :=
  '(succeeded, _) ← kv_Txn
    [CreateRevision (bindingKey (bindingPrefix root true) name) 0; CreateRevision (bindingKey (bindingPrefix root false) name) 0] [];
  require succeeded EConflict.

(** An error of the state is looked at before it is passed on. *)
Definition Rollback name (historyRevision expectedDraftRevision : Z) expectedAbsent : M RouteBindingPublishResult :=
  name ← of_option EInvalid (normalizeRouteBindingName name);
  _ ← require (bool_decide (0 < historyRevision)%Z) EInvalid;
  _ ← require (if expectedAbsent then bool_decide (expectedDraftRevision = 0)%Z else bool_decide (0 < expectedDraftRevision)%Z) EInvalid;
  x ← kv_Get (historyKey root name historyRevision);
  record ← of_option EInvalid (x ≫= λ x, match kv_Value x with VHistory h => Some h | _ => None end);
  match h_Binding record with
  | None =>
      if expectedAbsent then
        _ ← requireRouteBindingAbsent name;
        ret (mkPublishResult name 0 0 0 0 0)
      else
        prog_bind (readPublishState name) (λ state,
          match state with
          | Err ENotFound => fail EConflict
          | Err e => fail e
          | Ok state =>
              if bool_decide (is_Some (ps_draft state)) && bool_decide (entry_revision (ps_draft state) = expectedDraftRevision)
              then DeleteAndPublish name expectedDraftRevision
              else fail EConflict
          end)
  | Some binding =>
      _ ← require (bool_decide (obj_Name (rb_Object binding) = name)) EInvalid;
      saved ← (if expectedAbsent then saveDraft (rb_Object binding) true 0 true
               else SaveDraft (rb_Object binding) false expectedDraftRevision);
      Publish name (b_Revision saved)
  end.

(** ** Queries *)

Definition status_dirty (draft published : option (routeBindingEntry Obj)) : option bool :=
  match draft, published with
  | Some d, p =>
      draftObject ← Normalize (rb_Object (be_record d));
      match p with
      | Some p => publishedObject ← Normalize (rb_Object (be_record p)); Some (bool_decide (draftObject ≠ publishedObject))
      | None => Some true
      end
  | None, _ => Some true
  end.

Definition Status name : M RouteBindingPublishStatus :=
  name ← of_option EInvalid (normalizeRouteBindingName name);
  draft ← getEntry (bindingPrefix root true) name;
  published ← getEntry (bindingPrefix root false) name;
  match draft, published with
  | None, None => fail ENotFound
  | _, _ =>
      dirty ← of_option EInvalid (status_dirty draft published);
      ret (mkPublishStatus name (entry_revision draft) (entry_revision published)
             (bool_decide (is_Some draft)) (bool_decide (is_Some published)) dirty)
  end.

Definition GetBinding name (unpublished : bool) : M (RouteBinding Obj) :=
  name ← of_option EInvalid (normalizeRouteBindingName name);
  entry ← getEntry (bindingPrefix root unpublished) name;
  match entry with
  | None => fail ENotFound
  | Some entry => of_option EInvalid (view entry)
  end.

Definition routeBindingStatus (publishedByName : gmap string (routeBindingEntry Obj)) (draft : routeBindingEntry Obj) :
    option RouteBindingPublishStatus :=
  let published := publishedByName !! entry_name draft in
  dirty ← status_dirty (Some draft) published;
  Some (mkPublishStatus (entry_name draft) (be_revision draft) (entry_revision published) true (bool_decide (is_Some published)) dirty).

(** Each binding with its status, which only drafts have. *)
Definition ListBindings (unpublished : bool) : M (list (RouteBinding Obj * option RouteBindingPublishStatus)) :=
  entries ← listEntries (bindingPrefix root unpublished);
  statuses ← (if unpublished then
      publishedEntries ← listEntries (bindingPrefix root false);
      let publishedByName := foldl (λ m entry, <[entry_name entry := entry]> m) ∅ publishedEntries in
      of_option EInvalid
        (foldl (λ m draft, m ← m; status ← routeBindingStatus publishedByName draft; Some (<[entry_name draft := status]> m))
           (Some ∅) entries)
    else ret (∅ : gmap string RouteBindingPublishStatus));
  of_option EInvalid (mapM (λ entry, v ← view entry; Some (v, statuses !! entry_name entry)) entries).

Definition history_entry (x : string * kv (value Obj)) : option (RouteBindingHistoryEntry Obj) :=
  match kv_Value x.2 with
  | VHistory h =>
      match h_Binding h with
      | None => Some (mkHistoryEntry (h_Revision h) None)
      | Some b =>
          object ← Normalize (rb_Object b);
          Some (mkHistoryEntry (h_Revision h) (Some (mkRecord object (rb_ResourceID b) (rb_MethodID b))))
      end
  | _ => None
  end.

#[local] Definition older (x y : RouteBindingHistoryEntry Obj) : Prop := (he_Revision x ≤ he_Revision y)%Z.
#[local] Instance older_dec x y : Decision (older x y).
Proof. unfold older. apply _. Defined.

Definition History name : M (list (RouteBindingHistoryEntry Obj)) :=
  name ← of_option EInvalid (normalizeRouteBindingName name);
  kvs ← kv_GetPrefix (historyPrefix root name);
  entries ← of_option EInvalid (mapM history_entry kvs);
  ret (merge_sort older entries).

End store.
