(* ===== verification/RouteStoreInv.v ===== *)
(** * What the route binding store promises

    The abstract state of the store is a log: the publications in their order,
    each a name with its binding, or without one for a deletion.  The history
    in etcd is this log, the marker its length, the published bindings what
    the log leaves when it is replayed, and the runtime data of the gateway
    the published bindings compiled, next to the routes that were there before.
    [implements] says so; it holds after any requests of any number of clients,
    in any order, and whichever requests or answers are lost
    ([store_is_its_log]).  Published routes never collide
    ([published_routes_apart]), the gateway finds exactly the published bindings
    and the old routes ([runtime_follows_bindings]), and an operation that
    reports a publication has put it into the log ([publication_recorded]). *)

From stdpp Require Import base gmap list strings pretty sorting.
From S2P Require Import Prelude GoStrings McpCatalog LoadBalance Retry Etcd AdminRoute RouteStore.

#[global] Instance key_eq_dec : EqDecision key.
Proof. solve_decision. Defined.

#[local] Arguments render : simpl never.

Definition is_int (z : Z) : Prop := (- 2 ^ 63 ≤ z < 2 ^ 63)%Z.

Section invariant.
Context {Obj : Type} `{!EqDecision Obj} `{!ObjectRegistry Obj} `{!ObjectRegistryLaws Obj}.
Context `{!Server (value Obj)} `{!ServerLaws (value Obj) _}.
Context (lower upper : string → string).
Context (range : gmap Z Resource → list (Z * Resource)).
Context (range_perm : ∀ m, range m ≡ₚ map_to_list m).
Context (root : string).

(** The runtime data the store found when it was first used: resources and
    methods under keys as the console writes them, each method with its
    resource. *)
Context (legacy : gmap string (kv (value Obj))).
Context (legacy_keys : ∀ s x, legacy !! s = Some x →
  (∃ id, is_int id ∧ s = render root (KResource id)) ∨ ∃ id mid, is_int id ∧ is_int mid ∧ s = render root (KMethod id mid)).
Context (legacy_complete : ∀ id mid x, legacy !! render root (KMethod id mid) = Some x →
  is_Some (legacy !! render root (KResource id))).

Implicit Types (e : etcd (value Obj)) (k : key) (n s : string) (r : routeBindingRecord Obj)
  (log : list (string * option (routeBindingRecord Obj))).

(** ** The log *)

Definition publish_step (acc : option (routeBindingRecord Obj)) n (x : string * option (routeBindingRecord Obj)) :
    option (routeBindingRecord Obj) :=
  if decide (x.1 = n) then x.2 else acc.

(** What is published under a name after a log. *)
Definition replay log n : option (routeBindingRecord Obj) := foldl (λ acc x, publish_step acc n x) None log.

Definition at_key e k : option (kv (value Obj)) := data e !! render root k.
Definition value_at e k : option (value Obj) := kv_Value <$> at_key e k.

(** An id that none of the old resources has. *)
Definition fresh_id (id : Z) : Prop := legacy !! runtimeResourceKey root id = None.

Record draft_ok n r : Prop := {
  do_name : obj_Name (rb_Object r) = n;
  do_object : Normalize (rb_Object r) = Some (rb_Object r);
  do_resource : is_int (rb_ResourceID r);
  do_method : is_int (rb_MethodID r);
  do_fresh : (0 < rb_ResourceID r)%Z → fresh_id (rb_ResourceID r);
}.

(** The route a binding is compiled to. *)
Definition compiled r : option CompiledRoute :=
  c ← CompileAdminRouteBinding (rb_Object r);
  Some (mkCompiled (set_resource_id (rb_ResourceID r) (cr_Resource c)) (set_method_id (rb_MethodID r) (cr_Method c))).

Definition route_key (c : CompiledRoute) : string :=
  runtimeRouteConflictKey lower upper (me_HTTPVerb (cr_Method c)) (rs_Path (cr_Resource c)).

Record published_ok n r : Prop := {
  po_draft : draft_ok n r;
  po_resource : (0 < rb_ResourceID r)%Z;
  po_method : (0 < rb_MethodID r)%Z;
  po_compiled : is_Some (compiled r);
}.

(** A route that was there before: of a method in an old resource, or of an old
    method that names its path. *)
Definition legacy_route (verb path : string) : Prop :=
  (∃ id x res, legacy !! render root (KResource id) = Some x ∧ kv_Value x = VResource res ∧
     mkRuntimeRoute path verb ∈ (collectRuntimeResourceRoutes res "" id (∅, [])).2) ∨
  (∃ id mid x m, legacy !! render root (KMethod id mid) = Some x ∧ kv_Value x = VMethod m ∧
     me_HTTPVerb m = verb ∧ TrimSpace.TrimSpace (me_ResourcePath m) = path ∧ path ≠ "").

Record implements log e : Prop := {
  im_marker : value_at e KMarker = match log with [] => None | _ => Some (VText (pretty (Z.of_nat (length log)))) end;
  im_length : (Z.of_nat (length log) < 2 ^ 63)%Z;
  im_history : ∀ n g,
    value_at e (KHistory n (Z.of_nat (S g))) =
      match log !! g with
      | Some (n', b) => if decide (n' = n) then Some (VHistory (mkHistory (Z.of_nat (S g)) b)) else None
      | None => None
      end;
  im_published : ∀ n, value_at e (KBinding false n) = VBinding <$> replay log n;
  im_keys : ∀ s x, data e !! s = Some x → Strings.HasPrefix s (bindingPrefix root false) = true →
    ∃ n, s = render root (KBinding false n);
  im_records : ∀ n r, replay log n = Some r → published_ok n r;
  im_routes : ∀ n1 n2 r1 r2 c1 c2, replay log n1 = Some r1 → replay log n2 = Some r2 →
    compiled r1 = Some c1 → compiled r2 = Some c2 → n1 ≠ n2 → route_key c1 ≠ route_key c2;
  im_ids : ∀ n1 n2 r1 r2, replay log n1 = Some r1 → replay log n2 = Some r2 → n1 ≠ n2 → rb_ResourceID r1 ≠ rb_ResourceID r2;
  im_legacy : ∀ s x, legacy !! s = Some x → data e !! s = Some x;
  im_runtime : ∀ n r c, replay log n = Some r → compiled r = Some c →
    value_at e (KResource (rb_ResourceID r)) = Some (marshalCompiledRuntimeRoute c).1 ∧
    value_at e (KMethod (rb_ResourceID r) (rb_MethodID r)) = Some (marshalCompiledRuntimeRoute c).2;
  im_only : ∀ s x, data e !! s = Some x → Strings.HasPrefix s (runtimeResourcePrefix root) = true →
    legacy !! s = Some x ∨
    ∃ n r, replay log n = Some r ∧
      (s = render root (KResource (rb_ResourceID r)) ∨ s = render root (KMethod (rb_ResourceID r) (rb_MethodID r)));
  im_apart : ∀ n r c verb path, replay log n = Some r → compiled r = Some c → legacy_route verb path →
    runtimeRouteConflictKey lower upper verb path ≠
      runtimeRouteConflictKey lower upper (TrimSpace.TrimSpace (me_HTTPVerb (cr_Method c))) (rs_Path (cr_Resource c));
}.

Record inv e : Prop := {
  inv_revision : (0 ≤ revision e)%Z;
  inv_revisions : ∀ s x, data e !! s = Some x →
    (0 < kv_CreateRevision x ≤ kv_ModRevision x ∧ kv_ModRevision x ≤ revision e)%Z;
  inv_log : ∃ log, implements log e;
  inv_drafts : ∀ n x, at_key e (KBinding true n) = Some x → ∃ r, kv_Value x = VBinding r ∧ draft_ok n r;
}.

(** ** What others can do *)

Definition guarded s : Prop :=
  Strings.HasPrefix s (bindingPrefix root false) = true ∨ Strings.HasPrefix s (runtimeResourcePrefix root) = true ∨
  s = render root KMarker.

Definition unchanged e e' : Prop := ∀ s, guarded s → data e' !! s = data e !! s.

Record rel e e' : Prop := {
  rel_revision : (revision e ≤ revision e')%Z;
  rel_keys : ∀ s, data e' !! s = data e !! s ∨ ∀ y, data e' !! s = Some y → (revision e < kv_ModRevision y)%Z;
  rel_guard : unchanged e e' ∨ ∃ y, at_key e' KMarker = Some y ∧ (revision e < kv_ModRevision y)%Z;
  rel_history : ∀ n g x, at_key e (KHistory n g) = Some x → at_key e' (KHistory n g) = Some x;
}.

#[local] Instance rel_refl : Reflexive rel.
Proof. intros e. split; auto; [lia|]. left. by intros s. Qed.

#[local] Instance rel_trans : Transitive rel.
Proof.
  intros e1 e2 e3 R12 R23. pose proof (rel_revision _ _ R12). pose proof (rel_revision _ _ R23). split.
  - lia.
  - intros s. destruct (rel_keys _ _ R23 s) as [E|E].
    + rewrite E. apply (rel_keys _ _ R12).
    + right. intros y Hy. specialize (E y Hy). lia.
  - destruct (rel_guard _ _ R23) as [G|(y & Hy & Hm)]; [|right; exists y; split; [done|lia]].
    destruct (rel_guard _ _ R12) as [G'|(y & Hy & Hm)].
    + left. intros s Hs. by rewrite G, G'.
    + right. exists y. split; [|done]. unfold at_key. rewrite G; [done|]. by right; right.
  - intros n g x Hx. by apply (rel_history _ _ R23), (rel_history _ _ R12).
Qed.

(** A guard that is the same at the end was the same in between. *)
Lemma guard_between e1 e2 e3 :
  inv e1 → rel e1 e2 → rel e2 e3 → at_key e3 KMarker = at_key e1 KMarker → unchanged e2 e3.
Proof.
  intros I1 R12 R23 Hm. destruct (rel_guard _ _ R23) as [G|(y & Hy & Hr)]; [done|]. exfalso.
  pose proof (rel_revision _ _ R12). rewrite Hm in Hy. destruct (inv_revisions _ I1 _ _ Hy). lia.
Qed.

(** The comparison of the marker, as [buildPublishComparisons] makes it. *)
Definition marker_cmp (marker : option Z) : cmp :=
  match marker with
  | Some rev => ModRevision (publishedRevisionKey root) rev
  | None => CreateRevision (publishedRevisionKey root) 0
  end.

Lemma marker_same e1 e2 :
  inv e1 → inv e2 → rel e1 e2 → compare e2 (marker_cmp (kv_ModRevision <$> at_key e1 KMarker)) = true →
  at_key e2 KMarker = at_key e1 KMarker.
Proof.
  intros I1 I2 R. unfold at_key. change (render root KMarker) with (publishedRevisionKey root).
  destruct (data e1 !! publishedRevisionKey root) as [x|] eqn:E1; simpl; rewrite bool_decide_eq_true;
    unfold mod_revision, create_revision.
  - destruct (inv_revisions _ I1 _ _ E1) as [Hp Hx]. destruct (data e2 !! publishedRevisionKey root) as [y|] eqn:E2; simpl; [|lia].
    intros Hy. destruct (rel_keys _ _ R (publishedRevisionKey root)) as [E|E]; [by rewrite E1, E2 in E|].
    specialize (E y E2). lia.
  - destruct (data e2 !! publishedRevisionKey root) as [y|] eqn:E2; simpl; [|done].
    destruct (inv_revisions _ I2 _ _ E2). lia.
Qed.

(** ** Programs that can fail *)

Definition goodM {A} (Q : A → etcd (value Obj) → Prop) (m : M (Obj := Obj) A) e : Prop :=
  good inv rel (λ x e', match x with Ok a => Q a e' | Err _ => True end) m e.

Lemma goodM_bind {A B} (Q : A → etcd (value Obj) → Prop) (R : B → etcd (value Obj) → Prop) (m : M A) (f : A → M B) e :
  goodM Q m e → (∀ a e', Q a e' → goodM R (f a) e') → goodM R (M_bind A B f m) e.
Proof. intros Hm Hf. eapply good_bind; [exact Hm|]. intros [a|err] e'; simpl; [apply Hf|done]. Qed.

Lemma goodM_mono {A} (Q R : A → etcd (value Obj) → Prop) (m : M A) e :
  goodM Q m e → (∀ a e', Q a e' → R a e') → goodM R m e.
Proof. intros Hm H. eapply good_mono; [exact Hm|]. intros [a|err] e'; simpl; [apply H|done]. Qed.

Lemma goodM_ret {A} (Q : A → etcd (value Obj) → Prop) a e : Q a e → goodM Q (ret a) e.
Proof. done. Qed.

Lemma goodM_fail {A} (Q : A → etcd (value Obj) → Prop) err e : goodM Q (fail err) e.
Proof. done. Qed.

Lemma goodM_option {A} (Q : A → etcd (value Obj) → Prop) err (x : option A) e :
  (∀ a, x = Some a → Q a e) → goodM Q (of_option err x) e.
Proof. destruct x; simpl; [|done]. intros H. by apply goodM_ret, H. Qed.

Lemma goodM_require (Q : unit → etcd (value Obj) → Prop) b err e :
  (b = true → Q tt e) → goodM Q (require b err) e.
Proof. destruct b; simpl; [|done]. intros H. by apply goodM_ret, H. Qed.

Lemma goodM_get (Q : option (kv (value Obj)) → etcd (value Obj) → Prop) s e :
  (∀ e', rel e e' → inv e' → Q (data e' !! s) e') → goodM Q (kv_Get s) e.
Proof. intros H e' w R I. destruct w; cbn [ask]; rewrite ?serve_get; simpl; split_and!; try done; by apply H. Qed.

Lemma goodM_prefix (Q : list (string * kv (value Obj)) → etcd (value Obj) → Prop) p e :
  (∀ e', rel e e' → inv e' → Q (with_prefix (data e') p) e') → goodM Q (kv_GetPrefix p) e.
Proof. intros H e' w R I. destruct w; cbn [ask]; rewrite ?serve_prefix; simpl; split_and!; try done; by apply H. Qed.

Lemma goodM_txn (Q : bool * Z → etcd (value Obj) → Prop) cs ops e :
  (∀ e', rel e e' → inv e' → Q (false, revision e') e' ∧
     (puts_once ops = true → Forall (λ c, compare e' c = true) cs →
      inv (commit e' ops) ∧ rel e' (commit e' ops) ∧ Q (true, revision (commit e' ops)) (commit e' ops))) →
  goodM Q (kv_Txn cs ops) e.
Proof.
  intros H e' w R I. destruct (H e' R I) as [Hf Ht].
  assert (inv (serve e' (Txn cs ops)).1 ∧ rel e' (serve e' (Txn cs ops)).1 ∧
    match (serve e' (Txn cs ops)).2 with Committed b rev => Q (b, rev) (serve e' (Txn cs ops)).1 | _ => True end) as (H1 & H2 & H3).
  { destruct (puts_once ops) eqn:Ho; [|by rewrite serve_refused]. destruct (forallb (compare e') cs) eqn:E; [|by rewrite serve_differs].
    rewrite serve_commit by done. simpl. destruct Ht as (? & ? & ?); [done| |done]. rewrite forallb_forall in E. apply Forall_forall. intros c Hc.
    by apply E, list_elem_of_In. }
  destruct w; cbn [ask]; [|done|done]. split_and!; [done..|]. destruct (serve e' (Txn cs ops)) as [e2 [| | |b rev]] eqn:E; try done.
Qed.

(** ** Reading *)

Definition read_entry e (u : bool) n (entry : option (routeBindingEntry Obj)) : Prop :=
  match entry with
  | None => at_key e (KBinding u n) = None
  | Some en => ∃ x, at_key e (KBinding u n) = Some x ∧ kv_Value x = VBinding (be_record en) ∧
      be_revision en = kv_ModRevision x ∧ obj_Name (rb_Object (be_record en)) = n
  end.

Lemma getEntry_good u n e :
  goodM (λ entry e', rel e e' ∧ inv e' ∧ read_entry e' u n entry) (getEntry (bindingPrefix root u) n) e.
Proof.
  apply (goodM_bind (λ x e', rel e e' ∧ inv e' ∧ x = at_key e' (KBinding u n))); [by apply goodM_get|].
  intros x e' (R & I & Hx). destruct x as [x|]; [|by apply goodM_ret].
  apply goodM_option. intros en Hen. unfold decode_entry in Hen. destruct (kv_Value x) eqn:E; try done.
  case_bool_decide; [|done]. injection Hen as <-. split_and!; [done..|]. by exists x.
Qed.

Lemma read_draft e n en : inv e → read_entry e true n (Some en) → draft_ok n (be_record en).
Proof.
  intros I (x & Hx & Hv & _). destruct (inv_drafts _ I _ _ Hx) as (r & Hr & Hok). rewrite Hv in Hr. by simplify_eq.
Qed.

Lemma read_published e n en log :
  implements log e → read_entry e false n (Some en) → replay log n = Some (be_record en).
Proof.
  intros Im (x & Hx & Hv & _). pose proof (im_published _ _ Im n) as Hp. unfold value_at in Hp. rewrite Hx in Hp. simpl in Hp.
  destruct (replay log n); simpl in Hp; [|done]. rewrite Hv in Hp. by simplify_eq.
Qed.

Lemma read_unpublished e n log : implements log e → read_entry e false n None → replay log n = None.
Proof.
  intros Im Hx. simpl in Hx. pose proof (im_published _ _ Im n) as Hp. unfold value_at in Hp. rewrite Hx in Hp. simpl in Hp.
  by destruct (replay log n).
Qed.

(** ** Transactions that do not publish *)

Lemma legacy_runtime s x : legacy !! s = Some x → Strings.HasPrefix s (runtimeResourcePrefix root) = true.
Proof. intros [(id & _ & ->)|(id & mid & _ & _ & ->)]%legacy_keys; apply runtime_prefix_keys; [left|right]; eauto. Qed.

Definition relevant s : Prop := guarded s ∨ ∃ n g, s = render root (KHistory n g).

Lemma guarded_published n : guarded (render root (KBinding false n)).
Proof. left. apply binding_prefix_keys. by eexists. Qed.

Lemma guarded_resource id : guarded (render root (KResource id)).
Proof. right; left. apply runtime_prefix_keys. by left; eexists. Qed.

Lemma guarded_method id mid : guarded (render root (KMethod id mid)).
Proof. right; left. apply runtime_prefix_keys. by right; do 2 eexists. Qed.

Lemma implements_same log e e' :
  (∀ s, relevant s → data e' !! s = data e !! s) → implements log e → implements log e'.
Proof.
  intros H Im. assert (∀ k, relevant (render root k) → value_at e' k = value_at e k) as Hk.
  { intros k Hk. unfold value_at, at_key. by rewrite H. }
  split.
  - rewrite Hk; [apply Im|]. left. by right; right.
  - apply Im.
  - intros n g. rewrite Hk; [apply Im|]. right. by do 2 eexists.
  - intros n. rewrite Hk; [apply Im|]. left. apply guarded_published.
  - intros s x Hs Hp. rewrite H in Hs; [by eapply Im|]. by left; left.
  - apply Im.
  - apply Im.
  - apply Im.
  - intros s x Hs. rewrite H; [by apply Im|]. left. right; left. by eapply legacy_runtime.
  - intros n r c Hr Hc. rewrite !Hk; [by eapply Im|left; apply guarded_method|left; apply guarded_resource].
  - intros s x Hs Hp. rewrite H in Hs; [by apply Im|]. left. by right; left.
  - apply Im.
Qed.

Lemma relevant_not k s :
  match k with KCounter | KBinding true _ => True | _ => False end → relevant s → s ≠ render root k.
Proof.
  intros Hk [[Hs|[Hs| ->]]|(n & g & ->)] Heq.
  - subst. apply binding_prefix_keys in Hs as [n ->]. done.
  - subst. apply runtime_prefix_keys in Hs as [[id ->]|(id & mid & ->)]; done.
  - apply (inj (render root)) in Heq as <-. done.
  - apply (inj (render root)) in Heq as <-. done.
Qed.

Lemma put_other_ok e k (v : value Obj) :
  inv e → match k with
          | KCounter => True
          | KBinding true n => ∃ r, v = VBinding r ∧ draft_ok n r
          | _ => False
          end →
  let e' := commit e [OpPut (render root k) v] in inv e' ∧ rel e e'.
Proof.
  intros I Hk e'. pose proof (inv_revision _ I). assert (match k with KCounter | KBinding true _ => True | _ => False end) as Hk'
    by (destruct k as [[]| | | | |]; done).
  assert (∀ s, relevant s → data e' !! s = data e !! s) as Hs.
  { intros s Hs. simpl. rewrite lookup_insert_ne; [done|]. intros Heq. by eapply relevant_not. }
  split; split.
  - simpl. lia.
  - intros s x. simpl. destruct (decide (s = render root k)) as [->|Hne].
    + rewrite lookup_insert_eq. intros [= <-]. simpl. destruct (data e !! render root k) as [y|] eqn:E; simpl; [|lia].
      destruct (inv_revisions _ I _ _ E). lia.
    + rewrite lookup_insert_ne by done. intros Hx. destruct (inv_revisions _ I _ _ Hx). lia.
  - destruct (inv_log _ I) as [log Im]. exists log. by eapply implements_same.
  - intros n x Hx. unfold at_key in Hx. simpl in Hx. destruct (decide (k = KBinding true n)) as [->|Hne].
    + rewrite lookup_insert_eq in Hx. injection Hx as <-. simpl. done.
    + rewrite lookup_insert_ne in Hx by (intros Heq%(inj (render root)); done). by apply (inv_drafts _ I).
  - simpl. lia.
  - intros s. simpl. destruct (decide (s = render root k)) as [->|Hne]; [right|left; by rewrite lookup_insert_ne].
    rewrite lookup_insert_eq. intros y [= <-]. simpl. lia.
  - left. intros s Hg. apply Hs. by left.
  - intros n g x Hx. unfold at_key. rewrite Hs; [done|]. right. by do 2 eexists.
Qed.

(** ** Runtime ids *)

Lemma max_resource_id (kvs : list (string * kv (value Obj))) current :
  is_int current →
  is_int (maxRuntimeResourceID root kvs current) ∧ (current ≤ maxRuntimeResourceID root kvs current)%Z ∧
  ∀ s x id, (s, x) ∈ kvs → Strings.HasByte slash (Strings.TrimPrefix s (runtimeResourcePrefix root)) = false →
    Atoi (Strings.TrimPrefix s (runtimeResourcePrefix root)) = Some id → (id ≤ maxRuntimeResourceID root kvs current)%Z.
Proof.
  unfold maxRuntimeResourceID. revert current. induction kvs as [|[s x] kvs IH]; intros current Hc; simpl.
  { split_and!; [done|lia|]. intros s x id Hin. by apply elem_of_nil in Hin. }
  set (next := if Strings.HasByte _ _ then _ else _).
  assert (is_int next ∧ (current ≤ next)%Z ∧
    (Strings.HasByte slash (Strings.TrimPrefix s (runtimeResourcePrefix root)) = false → ∀ id,
     Atoi (Strings.TrimPrefix s (runtimeResourcePrefix root)) = Some id → (id ≤ next)%Z)) as (H1 & H2 & H3).
  { unfold next. destruct (Strings.HasByte _ _); [split_and!; [done|lia|done]|].
    destruct (Atoi _) as [id|] eqn:E; [|split_and!; [done|lia|done]]. pose proof (Atoi_range _ _ E).
    case_bool_decide; split_and!; try done; try lia; intros _ id' [= <-]; lia. }
  destruct (IH next H1) as (I1 & I2 & I3). split_and!; [done|lia|].
  intros s' x' id [[= -> ->]|Hin]%elem_of_cons Hs Hid; [specialize (H3 Hs id Hid); lia|by eapply I3].
Qed.

Lemma next_id_fresh e current :
  inv e → is_int current →
  let next := sint64 (maxRuntimeResourceID root (with_prefix (data e) (runtimeResourcePrefix root)) current + 1) in
  is_int next ∧ ((0 < next)%Z → fresh_id next).
Proof.
  intros I Hc next. destruct (max_resource_id (with_prefix (data e) (runtimeResourcePrefix root)) current Hc) as (H1 & _ & H3).
  set (m := maxRuntimeResourceID _ _ _) in *.
  assert (is_int next) as Hn.
  { unfold next, sint64, is_int. pose proof (Z.mod_pos_bound (m + 1 + 2 ^ 63) (2 ^ 64) ltac:(done)). lia. }
  split; [done|]. intros Hpos. assert (next = m + 1)%Z as Hm.
  { unfold next. destruct (decide (m + 1 < 2 ^ 63)%Z) as [Hlt|Hge]; [apply sint64_small; unfold is_int in H1; lia|].
    exfalso. assert (m = 2 ^ 63 - 1)%Z as Heq by (unfold is_int in H1; lia). unfold next in Hpos. by rewrite Heq in Hpos. }
  unfold fresh_id. destruct (legacy !! runtimeResourceKey root next) as [x|] eqn:E; [|done]. exfalso.
  destruct (inv_log _ I) as [log Im]. pose proof (im_legacy _ _ Im _ _ E) as Hd.
  assert (next ≤ m)%Z; [|lia]. eapply (H3 (runtimeResourceKey root next) x).
  - apply elem_of_with_prefix. split; [done|]. by eapply legacy_runtime.
  - unfold runtimeResourceKey, runtimeResourcePrefix. rewrite <- Strings.app_assoc, TrimPrefix_append. apply pretty_no_slash.
  - unfold runtimeResourceKey, runtimeResourcePrefix. rewrite <- Strings.app_assoc, TrimPrefix_append. by apply Atoi_pretty.
Qed.

Definition good_id (id : Z) : Prop := is_int id ∧ ((0 < id)%Z → fresh_id id).

Lemma tryAllocate_good e : goodM (λ id e', default True (good_id <$> id)) (tryAllocateRuntimeID root) e.
Proof.
  apply (goodM_bind (λ x e', is_int x.1)).
  { apply (goodM_bind (λ _ _, True)); [by apply goodM_get|]. intros [x|] e' _; [|apply goodM_ret; unfold is_int; simpl; lia].
    apply goodM_option. intros [c rev] Hc. destruct (kv_Value x) as [| | | |s]; try done.
    destruct (Atoi s) as [c'|] eqn:E; [|done]. simpl in Hc. case_bool_decide; simplify_eq. by apply (Atoi_range s). }
  intros [current rev] e1 Hc. simpl in Hc.
  apply (goodM_bind (λ kvs e', good_id (sint64 (maxRuntimeResourceID root kvs current + 1)))).
  { apply goodM_prefix. intros e' R I. by apply next_id_fresh. }
  intros kvs e2 Hid. apply (goodM_bind (λ _ _, True)); [|intros [[] z] e3 _; by apply goodM_ret].
  apply goodM_txn. intros e3 R I. split; [done|]. intros _ _.
  destruct (put_other_ok e3 KCounter (VText (pretty (sint64 (maxRuntimeResourceID root kvs current + 1)))) I) as [I' R'];
    [done|]. split_and!; [exact I'|exact R'|done].
Qed.

Lemma allocate_good e : goodM (λ id e', good_id id) (allocateRuntimeID root) e.
Proof.
  unfold allocateRuntimeID. generalize maxRouteBindingIDRetries. intros attempts. revert e.
  induction attempts as [|attempts IH]; intros e; [apply goodM_fail|].
  apply (goodM_bind (λ id e', default True (good_id <$> id))); [apply tryAllocate_good|].
  intros [id|] e' Hid; [by apply goodM_ret|apply IH].
Qed.

(** ** Drafts *)

Definition known_ids (x : option (routeBindingEntry Obj)) : Prop :=
  ∀ en, x = Some en → good_id (rb_ResourceID (be_record en)) ∧ is_int (rb_MethodID (be_record en)).

Lemma draft_ids n r : draft_ok n r → good_id (rb_ResourceID r) ∧ is_int (rb_MethodID r).
Proof. by intros []. Qed.

Lemma resolve_good n draft e :
  known_ids draft → goodM (λ ids e', good_id ids.1 ∧ is_int ids.2) (resolveRuntimeIdentity root n draft) e.
Proof.
  intros Hd. apply (goodM_bind (λ known _, known_ids known)).
  { destruct draft as [d|]; [by apply goodM_ret|]. eapply goodM_mono; [apply getEntry_good|].
    intros known e' (R & I & Hk) en ->. destruct (inv_log _ I) as [log Im].
    pose proof (im_records _ _ Im _ _ (read_published _ _ _ _ Im Hk)) as Hp. by eapply draft_ids, po_draft. }
  intros known e1 Hk.
  assert (good_id (default 0%Z ((λ d, rb_ResourceID (be_record d)) <$> known)) ∧
    is_int (default 0%Z ((λ d, rb_MethodID (be_record d)) <$> known))) as [H1 H2].
  { destruct known as [en|]; simpl; [by apply Hk|]. split; [split|]; unfold is_int; lia. }
  apply (goodM_bind (λ id _, good_id id)).
  { case_bool_decide; [apply allocate_good|by apply goodM_ret]. }
  intros id e2 Hid. apply goodM_ret. split; [done|]. simpl. case_bool_decide; [apply Hid|done].
Qed.

Lemma commitDraft_good n r create rev absent e :
  draft_ok n r → goodM (λ _ _, True) (commitDraft root n r create rev absent) e.
Proof.
  intros Hr. apply (goodM_bind (λ _ _, True)); [|intros [b z] e1 _; by apply goodM_require].
  apply goodM_txn. intros e1 R I. split; [done|]. intros _ _.
  destruct (put_other_ok e1 (KBinding true n) (VBinding r) I) as [I' R']; [by eexists|]. by split_and!.
Qed.

Lemma saveDraft_good o create rev absent e : goodM (λ _ _, True) (saveDraft root o create rev absent) e.
Proof.
  apply (goodM_bind (λ _ _, True)); [by apply goodM_require|]. intros _ e1 _.
  apply (goodM_bind (λ _ _, True)); [by apply goodM_require|]. intros _ e2 _.
  apply (goodM_bind (λ o' _, Normalize o = Some o')); [by apply goodM_option|]. intros o' e3 Ho.
  apply (goodM_bind (λ draft e', known_ids draft)).
  { eapply goodM_mono; [apply getEntry_good|]. intros draft e' (R & I & Hd) en ->. by eapply draft_ids, read_draft. }
  intros draft e4 Hd. apply (goodM_bind (λ _ _, True)).
  { destruct absent; [|by apply goodM_ret]. apply (goodM_bind (λ _ _, True)); [by apply goodM_require|]. intros _ e5 _.
    apply (goodM_bind (λ _ _, True)); [|intros published e6 _; by apply goodM_require].
    eapply goodM_mono; [apply getEntry_good|done]. }
  intros _ e5 _. apply (goodM_bind (λ _ _, True)).
  { unfold validateDraftSaveState. destruct (_ && _); [apply goodM_fail|by apply goodM_require]. }
  intros _ e6 _. eapply goodM_bind; [by apply resolve_good|]. intros [rid mid] e7 [Hrid Hmid].
  apply (goodM_bind (λ _ _, True)).
  { apply commitDraft_good. destruct Hrid. split; simpl; try done. by eapply object_Normalize_idemp. }
  intros _ e8 _. apply (goodM_bind (λ _ _, True)); [eapply goodM_mono; [apply getEntry_good|done]|].
  intros [saved|] e9 _; [by apply goodM_option|apply goodM_fail].
Qed.

Lemma UpdateDraft_good n o rev e : goodM (λ _ _, True) (UpdateDraft root n o rev) e.
Proof.
  apply (goodM_bind (λ _ _, True)); [by apply goodM_option|]. intros n' e1 _.
  apply (goodM_bind (λ _ _, True)); [by apply goodM_option|]. intros o' e2 _.
  case_bool_decide; [apply saveDraft_good|apply goodM_fail].
Qed.

(** ** Transactions that publish

    A publication deletes keys of the old binding and puts the new one with its
    record of the history. *)

Definition runtime_puts r (c : CompiledRoute) : list (op (value Obj)) :=
  [OpPut (render root (KResource (rb_ResourceID r))) (marshalCompiledRuntimeRoute c).1;
   OpPut (render root (KMethod (rb_ResourceID r) (rb_MethodID r))) (marshalCompiledRuntimeRoute c).2;
   OpPut (render root (KBinding false (obj_Name (rb_Object r)))) (VBinding r)].

(** The new binding with its compiled route. *)
#[local] Abbreviation publication := (option (routeBindingRecord Obj * CompiledRoute)) (only parsing).

Definition new_puts n (g : Z) (b : publication) : list (op (value Obj)) :=
  match b with Some (r, c) => runtime_puts r c | None => [] end ++
  [OpPut (render root (KHistory n g)) (VHistory (mkHistory g (fst <$> b))); OpPut (render root KMarker) (VText (pretty g))].

Inductive put_case n (g : Z) (b : publication) : string → value Obj → Prop :=
  | put_marker : put_case n g b (render root KMarker) (VText (pretty g))
  | put_history : put_case n g b (render root (KHistory n g)) (VHistory (mkHistory g (fst <$> b)))
  | put_binding r c : b = Some (r, c) → put_case n g b (render root (KBinding false (obj_Name (rb_Object r)))) (VBinding r)
  | put_resource r c : b = Some (r, c) → put_case n g b (render root (KResource (rb_ResourceID r))) (marshalCompiledRuntimeRoute c).1
  | put_method r c : b = Some (r, c) →
      put_case n g b (render root (KMethod (rb_ResourceID r) (rb_MethodID r))) (marshalCompiledRuntimeRoute c).2.

Lemma put_at_cons s k (v : value Obj) ops :
  put_at (OpPut (render root k) v :: ops) s = if decide (render root k = s) then Some v else put_at ops s.
Proof. unfold put_at. simpl. by case_decide. Qed.

Lemma put_at_new n g b s v : put_at (new_puts n g b) s = Some v ↔ put_case n g b s v.
Proof.
  unfold new_puts. split.
  - destruct b as [[r c]|]; simpl app; rewrite !put_at_cons; repeat case_decide; intros Hv; try discriminate Hv;
      simplify_eq;
      first [apply put_marker|apply put_history|by apply (put_binding _ _ _ r c)|by apply (put_resource _ _ _ r c)
            |by apply (put_method _ _ _ r c)].
  - intros []; destruct b as [[r' c']|]; simplify_eq; simpl app; rewrite !put_at_cons;
      repeat (case_decide as Hk; [first [done|by apply (inj (render root)) in Hk]|try done; clear Hk]).
Qed.

Lemma replay_last log n b m : replay (log ++ [(n, b)]) m = if decide (n = m) then b else replay log m.
Proof. unfold replay. by rewrite foldl_app. Qed.

Lemma fresh_not_legacy id s x :
  fresh_id id → legacy !! s = Some x →
  s ≠ render root (KResource id) ∧ Strings.HasPrefix s (runtimeResourceKey root id +:+ "/") ≠ true.
Proof.
  intros Hid Hs. split; [intros ->|intros Hp].
  - unfold fresh_id in Hid. change (runtimeResourceKey root id) with (render root (KResource id)) in Hid. congruence.
  - destruct (legacy_keys _ _ Hs) as [(id' & _ & ->)|(id' & mid & _ & _ & ->)]; apply below_resource_keys in Hp as [mid' Hk]; [done|].
    injection Hk as -> <-. destruct (legacy_complete _ _ _ Hs) as [y Hy]. unfold fresh_id in Hid.
    change (runtimeResourceKey root id) with (render root (KResource id)) in Hid. congruence.
Qed.

Lemma legacy_key k x : legacy !! render root k = Some x → (∃ id, k = KResource id) ∨ ∃ id mid, k = KMethod id mid.
Proof. intros H%legacy_runtime. by apply (runtime_prefix_keys root). Qed.

Lemma published_fresh log e n r : implements log e → replay log n = Some r → fresh_id (rb_ResourceID r).
Proof. intros Im H%(im_records _ _ Im). apply (do_fresh _ _ (po_draft _ _ H)), (po_resource _ _ H). Qed.

Section publishing.
Context e log n (b : publication) (dels : list (op (value Obj))).
Let g : Z := Z.of_nat (S (length log)).
Let covered s : bool := existsb (λ o, covers o s) dels.
Let e' := commit e (dels ++ new_puts n g b).

Context (I : inv e) (Im : implements log e) (Hg : (g < 2 ^ 63)%Z).
Context (Hnew : ∀ r c, b = Some (r, c) →
  published_ok n r ∧ compiled r = Some c ∧
  (∀ m r' c', replay log m = Some r' → compiled r' = Some c' → m ≠ n →
     route_key c' ≠ route_key c ∧ rb_ResourceID r' ≠ rb_ResourceID r) ∧
  ∀ verb path, legacy_route verb path →
    runtimeRouteConflictKey lower upper verb path ≠
      runtimeRouteConflictKey lower upper (TrimSpace.TrimSpace (me_HTTPVerb (cr_Method c))) (rs_Path (cr_Resource c))).
Context (Hdel : Forall (λ o, put_key o = None) dels).
Context (Hcov : ∀ s, covered s = true →
  s = render root (KBinding true n) ∨ (b = None ∧ s = render root (KBinding false n)) ∨
  ∃ old, replay log n = Some old ∧
    (s = render root (KResource (rb_ResourceID old)) ∨
     Strings.HasPrefix s (runtimeResourceKey root (rb_ResourceID old) +:+ "/") = true)).
Context (Hold : ∀ old k, replay log n = Some old →
  k = KResource (rb_ResourceID old) ∨ k = KMethod (rb_ResourceID old) (rb_MethodID old) →
  covered (render root k) = true ∨
  ∃ r c, b = Some (r, c) ∧ (k = KResource (rb_ResourceID r) ∨ k = KMethod (rb_ResourceID r) (rb_MethodID r))).
Context (Hpub : b = None → replay log n ≠ None → covered (render root (KBinding false n)) = true).
Context (Honce : puts_once (dels ++ new_puts n g b) = true).

Lemma put_at_dels s : put_at (dels ++ new_puts n g b) s = put_at (new_puts n g b) s.
Proof.
  unfold put_at. rewrite first_some_app. replace (first_some _ dels) with (None : option (value Obj)); [done|].
  symmetry. apply first_some_None. intros o Ho. rewrite Forall_forall in Hdel. specialize (Hdel o Ho). by destruct o.
Qed.

Lemma revision_after : revision e' = (revision e + 1)%Z.
Proof.
  unfold e', commit. replace (existsb _ _) with true; [done|]. symmetry. apply existsb_exists.
  exists (OpPut (render root KMarker) (VText (pretty g))). split; [|done]. apply list_elem_of_In.
  unfold new_puts. rewrite !elem_of_app. right; right. set_solver.
Qed.

Lemma lookup_after s :
  data e' !! s =
    match put_at (new_puts n g b) s with
    | Some v => Some (mkKV v (default (revision e + 1)%Z (kv_CreateRevision <$> data e !! s)) (revision e + 1)%Z)
    | None => if covered s then None else data e !! s
    end.
Proof.
  unfold e' at 1. pose proof revision_after as Hr. unfold e', commit in *. simpl in *. rewrite Hr.
  rewrite lookup_apply_ops by done. rewrite put_at_dels. destruct (put_at _ s) as [v|] eqn:E; [done|].
  rewrite existsb_app. replace (existsb _ (new_puts n g b)) with false; [by rewrite orb_false_r|].
  symmetry. apply not_true_is_false. intros (o & Ho & Hc)%existsb_exists.
  assert (∃ v, o = OpPut s v) as [v ->].
  { unfold new_puts, runtime_puts in Ho. apply list_elem_of_In in Ho. destruct b as [[r c]|]; simpl app in Ho;
      rewrite ?elem_of_cons, elem_of_nil in Ho; repeat destruct Ho as [->|Ho]; simpl in Hc;
      try apply bool_decide_eq_true in Hc; subst; eauto; done. }
  unfold put_at in E. rewrite first_some_None in E. apply list_elem_of_In in Ho. specialize (E _ Ho). simpl in E.
  by rewrite decide_True in E.
Qed.

Lemma covered_keys k :
  covered (render root k) = true →
  k = KBinding true n ∨ (b = None ∧ k = KBinding false n) ∨
  ∃ old, replay log n = Some old ∧ (k = KResource (rb_ResourceID old) ∨ ∃ mid, k = KMethod (rb_ResourceID old) mid).
Proof.
  intros [H|[[Hb H]|(old & Ho & [H|H])]]%Hcov.
  - left. by apply (inj (render root)).
  - right; left. split; [done|]. by apply (inj (render root)).
  - right; right. exists old. split; [done|]. left. by apply (inj (render root)).
  - right; right. exists old. split; [done|]. right. by apply below_resource_keys in H.
Qed.

(** A key the publication has nothing to do with. *)
Lemma untouched k :
  (∀ v, ¬ put_case n g b (render root k) v) → covered (render root k) = false → at_key e' k = at_key e k.
Proof.
  intros Hp Hc. unfold at_key. rewrite lookup_after. destruct (put_at _ _) as [v|] eqn:E.
  - apply put_at_new in E. by destruct (Hp v).
  - by rewrite Hc.
Qed.

Lemma written s v : put_case n g b s v → ∃ x, data e' !! s = Some x ∧ kv_Value x = v ∧ kv_ModRevision x = (revision e + 1)%Z.
Proof. intros H%put_at_new. rewrite lookup_after, H. by eexists. Qed.

Lemma written_value k v : put_case n g b (render root k) v → value_at e' k = Some v.
Proof. intros (x & Hx & <- & _)%written. unfold value_at, at_key. by rewrite Hx. Qed.

Let log' := log ++ [(n, fst <$> b)].

Lemma replay_after m : replay log' m = if decide (n = m) then fst <$> b else replay log m.
Proof. apply replay_last. Qed.

(** What is published afterwards is the new binding or an old one. *)
Lemma replay_after_Some m r :
  replay log' m = Some r → (m = n ∧ ∃ c, b = Some (r, c)) ∨ (m ≠ n ∧ replay log m = Some r).
Proof.
  rewrite replay_after. case_decide; subst; [|by right]. destruct b as [[r' c]|]; simpl; [|done]. intros [= <-]. left. eauto.
Qed.

Lemma b_cases : b = None ∨ ∃ r c, b = Some (r, c).
Proof. destruct b as [[r c]|]; eauto. Qed.

Lemma new_name r c : b = Some (r, c) → obj_Name (rb_Object r) = n.
Proof. intros Hb. destruct (Hnew r c Hb) as (Hok & _). by destruct (po_draft _ _ Hok). Qed.

Lemma history_after m h :
  value_at e' (KHistory m (Z.of_nat (S h))) =
    match log' !! h with
    | Some (n', x) => if decide (n' = m) then Some (VHistory (mkHistory (Z.of_nat (S h)) x)) else None
    | None => None
    end.
Proof.
  destruct (decide (m = n ∧ h = length log)) as [[-> ->]|Hne].
  - rewrite (written_value _ (VHistory (mkHistory g (fst <$> b)))) by apply put_history.
    unfold log'. rewrite list_lookup_middle by done. by rewrite decide_True.
  - unfold value_at. rewrite untouched.
    + fold (value_at e (KHistory m (Z.of_nat (S h)))). rewrite (im_history _ _ Im). unfold log'.
      destruct (decide (h < length log)) as [Hlt|Hge].
      * by rewrite lookup_app_l by done.
      * rewrite (lookup_ge_None_2 log) by lia. destruct (decide (h = length log)) as [->|Hh].
        -- rewrite list_lookup_middle by done. rewrite decide_False; [done|]. intros ->. by destruct Hne.
        -- by rewrite lookup_ge_None_2 by (rewrite length_app; simpl; lia).
    + intros v Hv. inversion Hv as [Hk|Hk|? ? ? Hk|? ? ? Hk|? ? ? Hk]; apply (inj (render root)) in Hk; try done.
      injection Hk as -> Hk. unfold g in Hk. apply Hne. split; [done|lia].
    + apply not_true_is_false. intros [Hk|[[_ Hk]|(old & _ & [Hk|[mid Hk]])]]%covered_keys; done.
Qed.

Lemma published_after m : value_at e' (KBinding false m) = VBinding <$> replay log' m.
Proof.
  rewrite replay_after. destruct (decide (n = m)) as [<-|Hne].
  - destruct b_cases as [Eb|(r & c & Eb)].
    2: { replace (fst <$> b) with (Some r) by (by rewrite Eb). apply written_value.
      rewrite <- (new_name r c Eb) at 2. by apply (put_binding _ _ _ r c). }
    replace (fst <$> b) with (None : option (routeBindingRecord Obj)) by (by rewrite Eb).
    + assert (∀ v, ¬ put_case n g b (render root (KBinding false n)) v) as Hp.
      { intros v Hv. rewrite Eb in Hv. inversion Hv as [Hk|Hk|? ? Hb|? ? Hb|? ? Hb]; try done;
          apply (inj (render root)) in Hk; done. }
      unfold value_at, at_key. rewrite lookup_after. destruct (put_at _ _) as [v|] eqn:E.
      { apply put_at_new in E. by destruct (Hp v). }
      destruct (covered _) eqn:Ec; [done|]. destruct (replay log n) as [old|] eqn:Er.
      { by specialize (Hpub Eb ltac:(done)). }
      pose proof (im_published _ _ Im n) as H. by rewrite Er in H.
  - unfold value_at. rewrite untouched; [apply (im_published _ _ Im)| |].
    + intros v Hv. inversion Hv as [Hk|Hk|r c Hb Hk|? ? ? Hk|? ? ? Hk]; apply (inj (render root)) in Hk; try done.
      injection Hk as Hk. rewrite (new_name r c Hb) in Hk. done.
    + apply not_true_is_false. intros [Hk|[[_ Hk]|(old & _ & [Hk|[mid Hk]])]]%covered_keys; simplify_eq.
Qed.

Lemma new_fresh r c : b = Some (r, c) → fresh_id (rb_ResourceID r).
Proof. intros Hb. destruct (Hnew r c Hb) as (Hok & _). apply (do_fresh _ _ (po_draft _ _ Hok)), (po_resource _ _ Hok). Qed.

Lemma legacy_after s x : legacy !! s = Some x → data e' !! s = Some x.
Proof.
  intros Hs. rewrite lookup_after. destruct (put_at _ s) as [v|] eqn:E.
  - exfalso. apply put_at_new in E. destruct E as [| |r c Hb|r c Hb|r c Hb].
    1-3: by apply legacy_key in Hs as [[id Hk]|(id & mid & Hk)].
    + by destruct (fresh_not_legacy _ _ _ (new_fresh r c Hb) Hs).
    + destruct (fresh_not_legacy _ _ _ (new_fresh r c Hb) Hs) as [_ H]. apply H, below_resource_keys. by eexists.
  - destruct (covered s) eqn:Ec; [|by apply (im_legacy _ _ Im)]. exfalso.
    apply Hcov in Ec as [->|[[_ ->]|(old & Ho & H)]].
    1-2: by apply legacy_key in Hs as [[id Hk]|(id & mid & Hk)].
    destruct (fresh_not_legacy _ _ _ (published_fresh _ _ _ _ Im Ho) Hs). by destruct H.
Qed.

(** Another binding keeps its runtime keys. *)
Lemma other_runtime m r k :
  m ≠ n → replay log m = Some r → (k = KResource (rb_ResourceID r) ∨ k = KMethod (rb_ResourceID r) (rb_MethodID r)) →
  at_key e' k = at_key e k.
Proof.
  intros Hm Hr Hk. destruct (po_compiled _ _ (im_records _ _ Im _ _ Hr)) as [c' Hc']. apply untouched.
  - intros v Hv. assert (∃ r' c, b = Some (r', c) ∧ rb_ResourceID r' = rb_ResourceID r) as (r' & c & Hb & Hid).
    { inversion Hv as [H|H|r' c Hb H|r' c Hb H|r' c Hb H]; apply (inj (render root)) in H; destruct Hk as [-> | ->]; simplify_eq; eauto. }
    destruct (Hnew r' c Hb) as (_ & _ & Hd & _). destruct (Hd m r c' Hr Hc' Hm) as [_ Hne]. by rewrite Hid in Hne.
  - apply not_true_is_false. intros Hc%covered_keys.
    assert (∃ old, replay log n = Some old ∧ rb_ResourceID old = rb_ResourceID r) as (old & Ho & Hid).
    { destruct Hc as [H|[[_ H]|(old & Ho & [H|[mid H]])]]; destruct Hk as [-> | ->]; simplify_eq; eauto. }
    by destruct (im_ids _ _ Im _ _ _ _ Hr Ho Hm).
Qed.

Lemma runtime_after m r c :
  replay log' m = Some r → compiled r = Some c →
  value_at e' (KResource (rb_ResourceID r)) = Some (marshalCompiledRuntimeRoute c).1 ∧
  value_at e' (KMethod (rb_ResourceID r) (rb_MethodID r)) = Some (marshalCompiledRuntimeRoute c).2.
Proof.
  intros [[-> [c' Hb]]|[Hm Hr]]%replay_after_Some Hc.
  - destruct (Hnew r c' Hb) as (_ & Hc' & _). assert (c' = c) as -> by congruence. split; apply written_value.
    + by apply (put_resource _ _ _ r c).
    + by apply (put_method _ _ _ r c).
  - unfold value_at. rewrite !(other_runtime m r) by auto. by apply (im_runtime _ _ Im m).
Qed.

Lemma only_after s x :
  data e' !! s = Some x → Strings.HasPrefix s (runtimeResourcePrefix root) = true →
  legacy !! s = Some x ∨
  ∃ m r, replay log' m = Some r ∧
    (s = render root (KResource (rb_ResourceID r)) ∨ s = render root (KMethod (rb_ResourceID r) (rb_MethodID r))).
Proof.
  intros Hs Hp. assert (∀ r c, b = Some (r, c) → replay log' n = Some r) as Hn.
  { intros r c Hb. rewrite replay_after, decide_True by done. by rewrite Hb. }
  rewrite lookup_after in Hs. destruct (put_at _ s) as [v|] eqn:E.
  - right. apply put_at_new in E. destruct E as [| |r c Hb|r c Hb|r c Hb].
    1-3: by apply runtime_prefix_keys in Hp as [[id Hk]|(id & mid & Hk)].
    all: exists n, r; split; [by eapply Hn|auto].
  - destruct (covered s) eqn:Ec; [done|]. destruct (im_only _ _ Im s x Hs Hp) as [H|(m & r & Hr & Hk)]; [by left|right].
    destruct (decide (m = n)) as [->|Hm].
    + exfalso. assert (∃ k, s = render root k ∧ (k = KResource (rb_ResourceID r) ∨ k = KMethod (rb_ResourceID r) (rb_MethodID r)))
        as (k & -> & Hk') by (destruct Hk as [-> | ->]; eauto).
      destruct (Hold r k Hr Hk') as [H|(r' & c & Hb & H)]; [congruence|].
      assert (∃ v, put_at (new_puts n g b) (render root k) = Some v) as [v Hv]; [|congruence].
      destruct H as [-> | ->]; eexists; apply put_at_new; [by apply (put_resource _ _ _ r' c)|by apply (put_method _ _ _ r' c)].
    + exists m, r. split; [|done]. by rewrite replay_after, decide_False.
Qed.

Lemma implements_after : implements log' e'.
Proof.
  split.
  - rewrite (written_value _ (VText (pretty g))) by apply put_marker. unfold log'. rewrite length_app. simpl.
    replace (length log + 1) with (S (length log)) by lia. by destruct log.
  - unfold log'. rewrite length_app. simpl. unfold g in Hg. lia.
  - apply history_after.
  - apply published_after.
  - intros s x Hs Hp. rewrite lookup_after in Hs. destruct (put_at _ s) as [v|] eqn:E.
    + apply put_at_new in E. destruct E as [| |r c Hb|r c Hb|r c Hb]; apply binding_prefix_keys in Hp as [m Hk]; eauto; done.
    + destruct (covered s); [done|]. by eapply (im_keys _ _ Im).
  - intros m r [[-> [c Hb]]|[_ Hr]]%replay_after_Some; [apply (Hnew r c Hb)|by apply (im_records _ _ Im)].
  - intros m1 m2 r1 r2 c1 c2 [[-> [c Hb]]|[Hm1 Hr1]]%replay_after_Some [[-> [c' Hb']]|[Hm2 Hr2]]%replay_after_Some Hc1 Hc2 Hne; try done.
    + destruct (Hnew r1 c Hb) as (_ & Hc & Hd & _). assert (c = c1) as -> by congruence. apply not_eq_sym. by eapply Hd.
    + destruct (Hnew r2 c' Hb') as (_ & Hc & Hd & _). assert (c' = c2) as -> by congruence. by eapply Hd.
    + by eapply (im_routes _ _ Im m1 m2).
  - intros m1 m2 r1 r2 [[-> [c Hb]]|[Hm1 Hr1]]%replay_after_Some [[-> [c' Hb']]|[Hm2 Hr2]]%replay_after_Some Hne; try done.
    + destruct (Hnew r1 c Hb) as (_ & _ & Hd & _). destruct (po_compiled _ _ (im_records _ _ Im _ _ Hr2)) as [c2 Hc2].
      apply not_eq_sym. by eapply Hd.
    + destruct (Hnew r2 c' Hb') as (_ & _ & Hd & _). destruct (po_compiled _ _ (im_records _ _ Im _ _ Hr1)) as [c1 Hc1].
      by eapply Hd.
    + by eapply (im_ids _ _ Im m1 m2).
  - apply legacy_after.
  - apply runtime_after.
  - apply only_after.
  - intros m r c verb path [[-> [c' Hb]]|[_ Hr]]%replay_after_Some Hc Hl.
    + destruct (Hnew r c' Hb) as (_ & Hc' & _ & Ha). assert (c' = c) as -> by congruence. by apply Ha.
    + by eapply (im_apart _ _ Im m).
Qed.

Lemma inv_after : inv e'.
Proof.
  pose proof (inv_revision _ I). split.
  - rewrite revision_after. lia.
  - intros s x. rewrite revision_after, lookup_after. destruct (put_at _ s).
    + intros [= <-]. simpl. destruct (data e !! s) as [y|] eqn:E; simpl; [|lia].
      destruct (inv_revisions _ I _ _ E). lia.
    + destruct (covered s); [done|]. intros Hx. destruct (inv_revisions _ I _ _ Hx). lia.
  - exists log'. apply implements_after.
  - intros m x. unfold at_key. rewrite lookup_after. destruct (put_at _ _) as [v|] eqn:E.
    + apply put_at_new in E. inversion E as [Hk|Hk|? ? ? Hk|? ? ? Hk|? ? ? Hk]; apply (inj (render root)) in Hk; done.
    + destruct (covered (render root (KBinding true m))); [done|]. apply (inv_drafts _ I).
Qed.

Lemma rel_after : rel e e'.
Proof.
  split.
  - rewrite revision_after. lia.
  - intros s. rewrite lookup_after. destruct (put_at _ s); [right; intros y [= <-]; simpl; lia|].
    destruct (covered s); [by right|by left].
  - right. destruct (written _ _ (put_marker n g b)) as (x & Hx & _ & Hm). exists x. split; [done|lia].
  - intros m h x Hx. rewrite untouched; [done| |].
    + intros v Hv. inversion Hv as [Hk|Hk|? ? ? Hk|? ? ? Hk|? ? ? Hk]; apply (inj (render root)) in Hk; try done.
      injection Hk as <- <-. pose proof (im_history _ _ Im n (length log)) as Hh. unfold value_at in Hh.
      fold g in Hh. rewrite Hx, lookup_ge_None_2 in Hh by lia. done.
    + apply not_true_is_false. intros [Hk|[[_ Hk]|(old & _ & [Hk|[mid Hk]])]]%covered_keys; done.
Qed.

End publishing.

(** ** Compiling a snapshot *)

Definition compiled_entry (en : routeBindingEntry Obj) (c : compiledRouteEntry Obj) : Prop :=
  (0 < rb_ResourceID (be_record en))%Z ∧ (0 < rb_MethodID (be_record en))%Z ∧ ce_entry c = en ∧
  Normalize (rb_Object (be_record en)) = Some (ce_object c) ∧
  compiled (mkRecord (ce_object c) (rb_ResourceID (be_record en)) (rb_MethodID (be_record en))) = Some (ce_legacy c).

Definition ce_route (c : compiledRouteEntry Obj) : string := route_key (ce_legacy c).

(** Equal ids mean equal names. *)
Definition ids_apart (l : list (routeBindingEntry Obj)) : Prop :=
  ∀ x y, x ∈ l → y ∈ l → rb_ResourceID (be_record x) = rb_ResourceID (be_record y) → entry_name x = entry_name y.

Lemma compile_loop_spec entries paths ids cs :
  compile_loop lower upper entries paths ids = Some cs →
  Forall2 compiled_entry entries cs ∧ NoDup (ce_route <$> cs) ∧ Forall (λ c, ce_route c ∉ paths) cs ∧
  (∀ en nm, en ∈ entries → ids !! rb_ResourceID (be_record en) = Some nm → nm = entry_name en) ∧ ids_apart entries.
Proof.
  revert paths ids cs. induction entries as [|en entries IH]; intros paths ids cs; simpl.
  { intros [= <-]. split_and!; try constructor; [intros ? ? H|intros ? ? H]; by apply elem_of_nil in H. }
  destruct (_ || _) eqn:Epos; [done|]. apply orb_false_iff in Epos as [E1%bool_decide_eq_false E2%bool_decide_eq_false].
  destruct (Normalize _) as [o|] eqn:En; [|done]. simpl. destruct (CompileAdminRouteBinding o) as [cc|] eqn:Ec; [|done]. simpl.
  set (legacy_route' := mkCompiled _ _). fold (route_key legacy_route'). case_bool_decide as Hp; [done|].
  destruct (match ids !! _ with Some _ => _ | None => _ end) eqn:Eid; [done|].
  destruct (compile_loop _ _ _ _ _) as [rest|] eqn:Er; [|done]. simpl. intros [= <-].
  destruct (IH _ _ _ Er) as (H1 & H2 & H3 & H4 & H5). split_and!.
  - constructor; [|done]. split_and!; simpl; try done; try lia. unfold compiled. simpl. by rewrite Ec.
  - constructor; [|done]. intros (c & Hc & Hin)%list_elem_of_fmap. rewrite Forall_forall in H3.
    apply (H3 c Hin). rewrite <- Hc. set_solver.
  - constructor; [done|]. eapply Forall_impl; [exact H3|]. intros c Hc. set_solver.
  - intros x nm [->|Hx]%elem_of_cons Hnm.
    + rewrite Hnm in Eid. by apply negb_false_iff, bool_decide_eq_true in Eid.
    + destruct (decide (rb_ResourceID (be_record x) = rb_ResourceID (be_record en))) as [Heq|Hne].
      * specialize (H4 x (entry_name en) Hx). rewrite Heq, lookup_insert_eq in H4. rewrite <- (H4 eq_refl).
        rewrite Heq in Hnm. rewrite Hnm in Eid. by apply negb_false_iff, bool_decide_eq_true in Eid.
      * apply (H4 x nm Hx). by rewrite lookup_insert_ne.
  - intros x y [->|Hx]%elem_of_cons [->|Hy]%elem_of_cons Heq; [done| | |by apply H5].
    + apply (H4 y (entry_name en) Hy). by rewrite <- Heq, lookup_insert_eq.
    + symmetry. apply (H4 x (entry_name en) Hx). by rewrite Heq, lookup_insert_eq.
Qed.

Lemma compiled_ids r c :
  compiled r = Some c → rs_ID (cr_Resource c) = rb_ResourceID r ∧ me_ID (cr_Method c) = rb_MethodID r.
Proof.
  unfold compiled. destruct (CompileAdminRouteBinding _) as [c'|]; [|done]. simpl. intros [= <-]. simpl.
  by destruct (cr_Resource c').
Qed.

(** The candidate of a publication is the draft; its route and its id are not
    those of another binding. *)
Lemma candidate_spec n draft published cand :
  entry_name draft = n → Normalize (rb_Object (be_record draft)) = Some (rb_Object (be_record draft)) →
  Forall (λ en, Normalize (rb_Object (be_record en)) = Some (rb_Object (be_record en))) published →
  compilePublishCandidate lower upper n (Some draft) published = Some cand →
  ∃ c, cand = Some c ∧ ce_object c = rb_Object (be_record draft) ∧ compiled_entry draft c ∧
    ∀ en c', en ∈ published → entry_name en ≠ n → compiled (be_record en) = Some c' →
      route_key c' ≠ route_key (ce_legacy c) ∧ rb_ResourceID (be_record en) ≠ rb_ResourceID (be_record draft).
Proof.
  intros Hn Hd Hpub. unfold compilePublishCandidate. set (others := filter _ published).
  destruct (compileSnapshot _ _ _) as [cs|] eqn:Ecs; [|done]. cbn [mbind option_bind].
  destruct (first_such _ cs) as [c|] eqn:Ef; [|done]. intros [= <-].
  destruct (compile_loop_spec _ _ _ _ Ecs) as (HF & Hnd & _ & _ & Hids).
  apply Forall2_app_inv_l in HF as (cs1 & cs2 & HF1 & HF2 & ->). apply list.Forall2_cons_inv_l in HF2 as (cd & cs3 & Hcd & HF3 & ->).
  apply Forall2_nil_inv_l in HF3 as ->.
  assert (∀ en c', en ∈ others → compiled_entry en c' → ce_object c' = rb_Object (be_record en) ∧ entry_name en ≠ n) as Hoth.
  { intros en c' [Hne Hin]%list_elem_of_filter (_ & _ & _ & Hno & _). rewrite Forall_forall in Hpub.
    rewrite (Hpub en Hin) in Hno. by simplify_eq. }
  assert (c = cd) as ->.
  { apply first_such_Some in Ef as [Hin Hc%bool_decide_eq_true]. apply elem_of_app in Hin as [Hin|Hin]; [|set_solver].
    apply list_elem_of_lookup in Hin as [i Hi]. destruct (Forall2_lookup_r _ _ _ _ _ HF1 Hi) as (en & Hen & Hce).
    destruct (Hoth en c) as [Ho Hne]; [by eapply list_elem_of_lookup_2|done|]. by rewrite Ho in Hc. }
  exists cd. destruct Hcd as (P1 & P2 & P3 & P4 & P5). rewrite Hd in P4. injection P4 as P4.
  split_and!; [done|done|by split_and!; try done; rewrite Hd, P4|].
  intros en c' Hin Hne Hc'. assert (en ∈ others) as Hin' by (by apply list_elem_of_filter). split.
  - apply list_elem_of_lookup in Hin' as [i Hi]. destruct (Forall2_lookup_l _ _ _ _ _ HF1 Hi) as (x & Hx & Hce).
    destruct (Hoth en x) as [Ho _]; [by eapply list_elem_of_lookup_2|done|]. destruct Hce as (_ & _ & _ & _ & Hcx).
    rewrite Ho in Hcx. destruct en as [[obj rid mid] key rev]. simpl in *. assert (ce_legacy x = c') as <- by congruence.
    rewrite fmap_app, NoDup_app in Hnd. destruct Hnd as (_ & Hnd & _). intros Heq. apply (Hnd (ce_route x)).
    + apply list_elem_of_fmap. exists x. split; [done|]. by eapply list_elem_of_lookup_2.
    + simpl. rewrite list_elem_of_singleton. done.
  - intros Heq. apply Hne. rewrite <- Hn. apply Hids; [set_solver|set_solver|done].
Qed.

(** ** Listing *)

Definition listed e (l : list (routeBindingEntry Obj)) : Prop :=
  (∀ m x r, at_key e (KBinding false m) = Some x → kv_Value x = VBinding r → ∃ en, en ∈ l ∧ be_record en = r) ∧
  Forall (λ en, value_at e (KBinding false (entry_name en)) = Some (VBinding (be_record en))) l.

Lemma list_published_good e :
  goodM (λ l e', rel e e' ∧ inv e' ∧ listed e' l) (listEntries (bindingPrefix root false)) e.
Proof.
  apply (goodM_bind (λ kvs e', rel e e' ∧ inv e' ∧ kvs = with_prefix (data e') (bindingPrefix root false))); [by apply goodM_prefix|].
  intros kvs e' (R & I & ->). apply goodM_option. intros l Hl%mapM_Some. split_and!; [done..|]. destruct (inv_log _ I) as [log Im].
  assert (∀ m x r, at_key e' (KBinding false m) = Some x → replay log m = Some r → kv_Value x = VBinding r) as Hval.
  { intros m x r Hx Hr. pose proof (im_published _ _ Im m) as Hp. unfold value_at in Hp. rewrite Hx, Hr in Hp. by simplify_eq/=. }
  assert (∀ m r x, replay log m = Some r → at_key e' (KBinding false m) = Some x →
    decode_listed (bindingPrefix root false) (render root (KBinding false m), x) =
      Some (mkEntry r (render root (KBinding false m)) (kv_ModRevision x))) as Hdec.
  { intros m r x Hr Hx. pose proof (po_draft _ _ (im_records _ _ Im _ _ Hr)) as Hok.
    pose proof (Normalize_name _ _ (do_object _ _ Hok)) as Hnm. rewrite (do_name _ _ Hok) in Hnm.
    unfold decode_listed. simpl. change (render root (KBinding false m)) with (bindingKey (bindingPrefix root false) m).
    rewrite name_from_key by done. simpl. unfold decode_entry. rewrite (Hval m x r Hx Hr).
    by rewrite bool_decide_eq_true_2 by apply (do_name _ _ Hok). }
  split.
  - intros m x r Hx Hv. pose proof (im_published _ _ Im m) as Hp. unfold value_at in Hp. rewrite Hx in Hp. simpl in Hp.
    assert (replay log m = Some r) as Hr by (destruct (replay log m); simplify_eq/=; congruence).
    assert ((render root (KBinding false m), x) ∈ with_prefix (data e') (bindingPrefix root false)) as Hin.
    { apply elem_of_with_prefix. split; [done|]. apply binding_prefix_keys. by eexists. }
    apply list_elem_of_lookup in Hin as [i Hi]. destruct (Forall2_lookup_l _ _ _ _ _ Hl Hi) as (en & Hen & Hd).
    rewrite (Hdec m r x Hr Hx) in Hd. injection Hd as <-. eexists. split; [by eapply list_elem_of_lookup_2|done].
  - apply Forall_forall. intros en Hin. apply list_elem_of_lookup in Hin as [i Hi].
    destruct (Forall2_lookup_r _ _ _ _ _ Hl Hi) as ([s x] & Hs & Hd). apply list_elem_of_lookup_2, elem_of_with_prefix in Hs as [Hs Hp].
    destruct (im_keys _ _ Im s x Hs Hp) as [m ->]. pose proof (im_published _ _ Im m) as Hr. unfold value_at, at_key in Hr.
    rewrite Hs in Hr. destruct (replay log m) as [r|] eqn:E; [|done]. rewrite (Hdec m r x E Hs) in Hd. injection Hd as <-.
    unfold entry_name. simpl. rewrite (do_name _ _ (po_draft _ _ (im_records _ _ Im _ _ E))).
    unfold value_at, at_key. by rewrite Hs.
Qed.

Lemma listed_log e l log :
  implements log e → listed e l →
  (∀ m r, replay log m = Some r → ∃ en, en ∈ l ∧ be_record en = r) ∧
  Forall (λ en, replay log (entry_name en) = Some (be_record en)) l.
Proof.
  intros Im [H1 H2]. split.
  - intros m r Hr. pose proof (im_published _ _ Im m) as Hp. rewrite Hr in Hp. unfold value_at in Hp.
    destruct (at_key e (KBinding false m)) as [x|] eqn:Hx; simpl in Hp; [|done]. injection Hp as Hp. by eapply H1.
  - eapply Forall_impl; [exact H2|]. intros en Hen. simpl in Hen. rewrite (im_published _ _ Im) in Hen.
    destruct (replay log _); simplify_eq/=; congruence.
Qed.

(** ** Routes that were there before *)

Section collect.

Lemma Resource_nested_ind (P : Resource → Prop) :
  (∀ id type path timeout methods resources, Forall P resources → P (mkResource id type path timeout methods resources)) →
  ∀ res : Resource, P res.
Proof.
  intros H. fix IH 1. intros [id type path timeout methods resources]. apply H.
  induction resources as [|r rs IHrs]; constructor; [apply IH|exact IHrs].
Qed.

Lemma collect_routes res : ∀ parent id acc,
  (collectRuntimeResourceRoutes res parent id acc).2 = acc.2 ++ (collectRuntimeResourceRoutes res parent id (∅, [])).2.
Proof.
  induction res as [rid type path timeout methods resources IH] using Resource_nested_ind. intros parent id acc.
  cbn [collectRuntimeResourceRoutes]. destruct (Strings.HasPrefix path "/"); cbn [negb]; [|by rewrite app_nil_r].
  match goal with |- (?f resources _).2 = _ => set (collect := f) end.
  assert (∀ nested acc, Forall (λ r : Resource, ∀ parent id acc, (collectRuntimeResourceRoutes r parent id acc).2 =
    acc.2 ++ (collectRuntimeResourceRoutes r parent id (∅, [])).2) nested →
    ∀ acc', (collect nested acc).2 = acc.2 ++ (collect nested (acc', [])).2) as Hnested.
  { clear. induction nested as [|r nested IHn]; intros acc HF acc'; [by rewrite app_nil_r|].
    apply Forall_cons in HF as [Hr HF].
    change (collect (r :: nested) acc) with (collect nested (collectRuntimeResourceRoutes r path (rs_ID r) acc)).
    change (collect (r :: nested) (acc', [])) with (collect nested (collectRuntimeResourceRoutes r path (rs_ID r) (acc', []))).
    rewrite (IHn _ HF ∅), (IHn (collectRuntimeResourceRoutes r path (rs_ID r) (acc', [])) HF ∅).
    rewrite (Hr _ _ acc), (Hr _ _ (acc', [])). simpl. by rewrite <- !List.app_assoc. }
  rewrite (Hnested resources _ IH ∅). symmetry. rewrite (Hnested resources _ IH ∅). simpl. by rewrite <- List.app_assoc.
Qed.

Lemma collect_all (l : list (Z * Resource)) acc route :
  (route ∈ acc.2 ∨ ∃ x, x ∈ l ∧ route ∈ (collectRuntimeResourceRoutes x.2 "" x.1 (∅, [])).2) →
  route ∈ (foldl (λ acc x, collectRuntimeResourceRoutes x.2 "" x.1 acc) acc l).2.
Proof.
  revert acc. induction l as [|y l IH]; intros acc; simpl.
  - intros [H|(x & Hx & _)]; [done|by apply elem_of_nil in Hx].
  - intros H. apply IH. rewrite collect_routes, elem_of_app. destruct H as [H|(x & [->|Hx]%elem_of_cons & H)]; eauto.
Qed.

End collect.

Lemma indexed_route (resources : gmap Z Resource) id res route :
  resources !! id = Some res → route ∈ (collectRuntimeResourceRoutes res "" id (∅, [])).2 →
  route ∈ (indexRuntimeResourceRoutes range resources).2.
Proof.
  intros Hid Hr. apply collect_all. right. exists (id, res). split; [|done].
  rewrite range_perm. by apply elem_of_map_to_list.
Qed.

Lemma resources_lookup (kvs : list (string * kv (value Obj))) resources s x id res :
  runtimeResourcesFromResponse root kvs = Some resources →
  (s, x) ∈ kvs → runtimeResourceID (runtimeResourcePrefix root) s = Some id → kv_Value x = VResource res →
  (∀ s' x', (s', x') ∈ kvs → runtimeResourceID (runtimeResourcePrefix root) s' = Some id → x' = x) →
  resources !! id = Some res.
Proof.
  unfold runtimeResourcesFromResponse. revert resources. induction kvs as [|[s' x'] kvs IH] using rev_ind; intros resources.
  { intros _ H. by apply elem_of_nil in H. }
  rewrite foldl_app. simpl. destruct (foldl _ (Some ∅) kvs) as [m|] eqn:E; [|done]. simpl. intros Hm Hin Hid Hx Huniq.
  destruct (decide (runtimeResourceID (runtimeResourcePrefix root) s' = Some id)) as [Hs'|Hne].
  - rewrite Hs' in Hm. rewrite (Huniq s' x') in Hm by (set_solver || done). rewrite Hx in Hm. injection Hm as <-. by rewrite lookup_insert_eq.
  - assert ((s, x) ∈ kvs) as Hin'.
    { apply elem_of_app in Hin as [?|Hin]; [done|]. apply list_elem_of_singleton in Hin. by simplify_eq. }
    assert (m !! id = Some res) as Hlook by (apply IH; try done; intros s2 x2 ? ?; apply (Huniq s2); [set_solver|done]).
    destruct (runtimeResourceID _ s') as [id'|]; [|by simplify_eq]. destruct (kv_Value x'); try done. injection Hm as <-.
    rewrite lookup_insert_ne; [done|]. congruence.
Qed.

(** The keys of the runtime data are as the console writes them. *)
Lemma runtime_keys e s x :
  inv e → data e !! s = Some x → Strings.HasPrefix s (runtimeResourcePrefix root) = true →
  (∃ id, is_int id ∧ s = render root (KResource id)) ∨ ∃ id mid, is_int id ∧ is_int mid ∧ s = render root (KMethod id mid).
Proof.
  intros I Hs Hp. destruct (inv_log _ I) as [log Im].
  destruct (im_only _ _ Im s x Hs Hp) as [H%legacy_keys|(n & r & Hr & Hk)]; [done|].
  pose proof (po_draft _ _ (im_records _ _ Im _ _ Hr)) as Hok. destruct (do_resource _ _ Hok), (do_method _ _ Hok).
  destruct Hk as [-> | ->]; [left|right]; unfold is_int; eauto 10.
Qed.

Lemma resource_key_unique e id s x :
  inv e → data e !! s = Some x → Strings.HasPrefix s (runtimeResourcePrefix root) = true →
  runtimeResourceID (runtimeResourcePrefix root) s = Some id → s = render root (KResource id).
Proof.
  intros I Hs Hp Hid. destruct (runtime_keys e s x I Hs Hp) as [(id' & Hi & ->)|(id' & mid & Hi & Hm & ->)].
  - change (render root (KResource id')) with (runtimeResourceKey root id') in Hid. rewrite resource_id_of_key in Hid by done. by simplify_eq.
  - change (render root (KMethod id' mid)) with (runtimeMethodKey root id' mid) in Hid. by rewrite method_key_no_resource in Hid.
Qed.

Definition conflict_free (c : compiledRouteEntry Obj) : Prop :=
  ∀ verb path, legacy_route verb path →
    runtimeRouteConflictKey lower upper verb path ≠
      runtimeRouteConflictKey lower upper (TrimSpace.TrimSpace (me_HTTPVerb (cr_Method (ce_legacy c)))) (rs_Path (cr_Resource (ce_legacy c))).

Lemma no_conflict (c : compiledRouteEntry Obj) routes verb path :
  findRuntimeRouteConflict lower upper c routes = false → mkRuntimeRoute path verb ∈ routes →
  runtimeRouteConflictKey lower upper verb path ≠
    runtimeRouteConflictKey lower upper (TrimSpace.TrimSpace (me_HTTPVerb (cr_Method (ce_legacy c)))) (rs_Path (cr_Resource (ce_legacy c))).
Proof.
  intros Hf Hin Heq. apply not_true_iff_false in Hf. apply Hf. apply existsb_exists. eexists. split; [by apply list_elem_of_In|].
  by apply bool_decide_eq_true.
Qed.

(** All old routes are among those the candidate is compared with. *)
Lemma legacy_routes_found e resources (published : option (routeBindingEntry Obj)) methodRoutes verb path :
  inv e → (∀ p, published = Some p → fresh_id (rb_ResourceID (be_record p))) →
  let kvs := with_prefix (data e) (runtimeResourcePrefix root) in
  runtimeResourcesFromResponse root kvs = Some resources →
  runtimeMethodRoutesFromResponse root kvs (indexRuntimeResourceRoutes range resources).1 published = Some methodRoutes →
  legacy_route verb path →
  mkRuntimeRoute path verb ∈ (indexRuntimeResourceRoutes range resources).2 ++ methodRoutes.
Proof.
  intros I Hfresh kvs Hres Hmeth Hl. destruct (inv_log _ I) as [log Im].
  assert (∀ s x, legacy !! s = Some x → (s, x) ∈ kvs) as Hin.
  { intros s x Hs. apply elem_of_with_prefix. split; [by apply (im_legacy _ _ Im)|by eapply legacy_runtime]. }
  rewrite elem_of_app. destruct Hl as [(id & x & res & Hs & Hv & Hr)|(id & mid & x & m & Hs & Hv & Hverb & Hpath & Hne)]; [left|right].
  - eapply indexed_route; [|exact Hr]. eapply resources_lookup; [exact Hres|by apply Hin| |done|].
    + destruct (legacy_keys _ _ Hs) as [(id' & Hi & Hk)|(id' & mid & _ & _ & Hk)]; apply (inj (render root)) in Hk; [|done].
      injection Hk as <-. by apply resource_id_of_key.
    + intros s' x' Hin' Hid'. apply elem_of_with_prefix in Hin' as [Hs' Hp'].
      pose proof (resource_key_unique e id s' x' I Hs' Hp' Hid') as ->. pose proof (im_legacy _ _ Im _ _ Hs). congruence.
  - assert (is_int id ∧ is_int mid) as [Hi Hm].
    { destruct (legacy_keys _ _ Hs) as [(id' & _ & Hk)|(id' & mid' & Hi & Hm & Hk)]; apply (inj (render root)) in Hk; [done|]. by simplify_eq. }
    unfold runtimeMethodRoutesFromResponse in Hmeth. destruct (mapM _ kvs) as [routes|] eqn:Em; [|done]. injection Hmeth as <-.
    apply mapM_Some in Em. pose proof (Hin _ _ Hs) as Hk. apply list_elem_of_lookup in Hk as [i Hi'].
    destruct (Forall2_lookup_l _ _ _ _ _ Em Hi') as (y & Hy & Hf). apply list_elem_of_omap. exists y.
    split; [by eapply list_elem_of_lookup_2|]. unfold runtimeMethodRouteFromKV in Hf. cbn [fst snd] in Hf.
    change (render root (KMethod id mid)) with (runtimeMethodKey root id mid) in Hf. rewrite method_ids_of_key in Hf by done.
    rewrite Hv in Hf. destruct published as [p|].
    + rewrite bool_decide_eq_false_2 in Hf; [simpl in Hf; rewrite Hpath, Hverb in Hf; rewrite !(bool_decide_eq_false_2 (path = "")) in Hf by done; by injection Hf as <-|].
      intros ->. destruct (legacy_complete _ _ _ Hs) as [z Hz]. specialize (Hfresh p eq_refl). unfold fresh_id in Hfresh.
      change (runtimeResourceKey root (rb_ResourceID (be_record p))) with (render root (KResource (rb_ResourceID (be_record p)))) in Hfresh. congruence.
    + rewrite Hpath, Hverb in Hf. rewrite !(bool_decide_eq_false_2 (path = "")) in Hf by done. by injection Hf as <-.
Qed.

Lemma checkRuntime_good (cand : option (compiledRouteEntry Obj)) (published : option (routeBindingEntry Obj)) e :
  (∀ p, published = Some p → fresh_id (rb_ResourceID (be_record p))) → inv e →
  goodM (λ _ e', rel e e' ∧ inv e' ∧ ∀ c, cand = Some c → conflict_free c) (checkRuntimeRouteConflict lower upper range root cand published) e.
Proof.
  intros Hfresh I0. destruct cand as [c|]; [|by apply goodM_ret].
  apply (goodM_bind (λ kvs e', rel e e' ∧ inv e' ∧ kvs = with_prefix (data e') (runtimeResourcePrefix root))); [by apply goodM_prefix|].
  intros kvs e' (R & I & ->). eapply (goodM_bind (λ x e2, e2 = e' ∧ runtimeResourcesFromResponse root _ = Some x)); [by apply goodM_option|].
  intros resources e2 [-> Hres]. destruct (indexRuntimeResourceRoutes range resources) as [paths routes] eqn:Ei.
  eapply (goodM_bind (λ x e2, e2 = e' ∧ runtimeMethodRoutesFromResponse root _ _ _ = Some x)); [by apply goodM_option|].
  intros methodRoutes e3 [-> Hm]. apply goodM_require. intros Hf%negb_true_iff. split_and!; [done..|].
  intros c' [= <-] verb path Hl. eapply no_conflict; [exact Hf|]. change routes with ((paths, routes).2). rewrite <- Ei.
  eapply legacy_routes_found; try done. by rewrite Ei.
Qed.

(** ** Publications as transactions *)

(** A record of the history that tells of the publication at a revision. *)
Definition recorded n (rev : Z) (b : option (routeBindingRecord Obj)) e : Prop :=
  ∃ (g : nat) x, at_key e (KHistory n (Z.of_nat (S g))) = Some x ∧
    kv_Value x = VHistory (mkHistory (Z.of_nat (S g)) b) ∧ kv_ModRevision x = rev.

Lemma recorded_stable n rev b e e' : rel e e' → recorded n rev b e → recorded n rev b e'.
Proof. intros R (g & x & Hx & H). exists g, x. split; [by apply (rel_history _ _ R)|done]. Qed.

Record publishable log n (b : option (routeBindingRecord Obj * CompiledRoute)) (dels : list (op (value Obj))) : Prop := {
  pb_new : ∀ r c, b = Some (r, c) →
    published_ok n r ∧ compiled r = Some c ∧
    (∀ m r' c', replay log m = Some r' → compiled r' = Some c' → m ≠ n →
       route_key c' ≠ route_key c ∧ rb_ResourceID r' ≠ rb_ResourceID r) ∧
    ∀ verb path, legacy_route verb path →
      runtimeRouteConflictKey lower upper verb path ≠
        runtimeRouteConflictKey lower upper (TrimSpace.TrimSpace (me_HTTPVerb (cr_Method c))) (rs_Path (cr_Resource c));
  pb_del : Forall (λ o, put_key o = None) dels;
  pb_cov : ∀ s, existsb (λ o, covers o s) dels = true →
    s = render root (KBinding true n) ∨ (b = None ∧ s = render root (KBinding false n)) ∨
    ∃ old, replay log n = Some old ∧
      (s = render root (KResource (rb_ResourceID old)) ∨
       Strings.HasPrefix s (runtimeResourceKey root (rb_ResourceID old) +:+ "/") = true);
  pb_old : ∀ old k, replay log n = Some old →
    k = KResource (rb_ResourceID old) ∨ k = KMethod (rb_ResourceID old) (rb_MethodID old) →
    existsb (λ o, covers o (render root k)) dels = true ∨
    ∃ r c, b = Some (r, c) ∧ (k = KResource (rb_ResourceID r) ∨ k = KMethod (rb_ResourceID r) (rb_MethodID r));
  pb_pub : b = None → replay log n ≠ None → existsb (λ o, covers o (render root (KBinding false n))) dels = true;
}.

Lemma publish_ok e log n b dels (g := Z.of_nat (S (length log))) (ops := dels ++ new_puts n g b) :
  inv e → implements log e → (g < 2 ^ 63)%Z → publishable log n b dels → puts_once ops = true →
  inv (commit e ops) ∧ rel e (commit e ops) ∧ recorded n (revision (commit e ops)) (fst <$> b) (commit e ops).
Proof.
  intros I Im Hg [H1 H2 H3 H4 H5] Ho. split_and!.
  - by apply inv_after.
  - by apply rel_after.
  - destruct (written e log n b dels I Im Hg H1 H2 H3 H4 H5 Ho _ _ (put_history n g b)) as (x & Hx & Hv & Hr). exists (length log), x. split_and!; [done..|].
    rewrite Hr. symmetry. exact (revision_after e log n b dels I Im Hg H1 H2 H3 H4 H5 Ho).
Qed.

Lemma covers_resource id s :
  existsb (λ o, covers o s) (runtimeResourceDeleteOperations (Obj := Obj) root id) = true ↔
    s = render root (KResource id) ∨ Strings.HasPrefix s (runtimeResourceKey root id +:+ "/") = true.
Proof.
  unfold runtimeResourceDeleteOperations. cbn [existsb covers]. rewrite !orb_true_iff, bool_decide_eq_true.
  change (runtimeResourceKey root id) with (render root (KResource id)). naive_solver.
Qed.

(** What a publication deletes of the old binding. *)
Definition old_deletes (published : option (routeBindingEntry Obj)) (rid mid : Z) : list (op (value Obj)) :=
  match published with
  | Some p =>
      if bool_decide (rb_ResourceID (be_record p) ≠ rid) then runtimeResourceDeleteOperations root (rb_ResourceID (be_record p))
      else if bool_decide (rb_MethodID (be_record p) ≠ mid)
      then [OpDelete (runtimeMethodKey root (rb_ResourceID (be_record p)) (rb_MethodID (be_record p)))]
      else []
  | None => []
  end.

Lemma publishable_put log e n published r c :
  implements log e → read_entry e false n published → published_ok n r → compiled r = Some c →
  (∀ m r' c', replay log m = Some r' → compiled r' = Some c' → m ≠ n →
     route_key c' ≠ route_key c ∧ rb_ResourceID r' ≠ rb_ResourceID r) →
  (∀ verb path, legacy_route verb path →
     runtimeRouteConflictKey lower upper verb path ≠
       runtimeRouteConflictKey lower upper (TrimSpace.TrimSpace (me_HTTPVerb (cr_Method c))) (rs_Path (cr_Resource c))) →
  publishable log n (Some (r, c)) (old_deletes published (rb_ResourceID r) (rb_MethodID r)).
Proof.
  intros Im Hread Hok Hc Hapart Hlegacy.
  assert (replay log n = be_record <$> published) as Hrep.
  { destruct published as [p|]; [by apply (read_published e)|by apply (read_unpublished e)]. }
  split; try done.
  - by intros r' c' [= <- <-].
  - unfold old_deletes. destruct published as [p|]; [|constructor]. repeat case_bool_decide; by repeat constructor.
  - intros s Hs. right; right. rewrite Hrep. destruct published as [p|]; [|done]. exists (be_record p). split; [done|].
    unfold old_deletes in Hs. case_bool_decide; [by apply covers_resource|]. case_bool_decide; [|done].
    cbn [existsb covers] in Hs. rewrite orb_false_r, bool_decide_eq_true in Hs. subst s. right.
    apply (below_resource_keys root (rb_ResourceID (be_record p)) (KMethod _ _)). by eexists.
  - intros old k Hold Hk. rewrite Hrep in Hold. destruct published as [p|]; [|done]. injection Hold as <-.
    unfold old_deletes. case_bool_decide as E1.
    { left. apply covers_resource. destruct Hk as [-> | ->]; [by left|right]. apply below_resource_keys. by eexists. }
    case_bool_decide as E2.
    + destruct Hk as [-> | ->]; [right; exists r, c; split; [done|left; by rewrite E1]|left].
      cbn [existsb covers]. by rewrite bool_decide_eq_true_2.
    + right. exists r, c. split; [done|]. by rewrite <- E1, <- E2.
Qed.

Definition all_deletes n (published : option (routeBindingEntry Obj)) : list (op (value Obj)) :=
  match published with
  | Some p => runtimeResourceDeleteOperations root (rb_ResourceID (be_record p)) ++ [OpDelete (render root (KBinding false n))]
  | None => []
  end.

Lemma publishable_delete log e n published (drafts : list (op (value Obj))) :
  implements log e → read_entry e false n published →
  (drafts = [] ∨ drafts = [OpDelete (render root (KBinding true n))]) →
  publishable log n None (drafts ++ all_deletes n published).
Proof.
  intros Im Hread Hdrafts.
  assert (replay log n = be_record <$> published) as Hrep.
  { destruct published as [p|]; [by apply (read_published e)|by apply (read_unpublished e)]. }
  split; try done.
  - apply Forall_app. split; [by destruct Hdrafts as [-> | ->]; repeat constructor|]. destruct published; by repeat constructor.
  - intros s. rewrite existsb_app, orb_true_iff. intros [Hs|Hs].
    { left. destruct Hdrafts as [-> | ->]; [done|]. cbn [existsb covers] in Hs. by rewrite orb_false_r, bool_decide_eq_true in Hs. }
    right. destruct published as [p|]; [|done]. unfold all_deletes in Hs. rewrite existsb_app, orb_true_iff in Hs.
    destruct Hs as [Hs|Hs]; [right; exists (be_record p); split; [done|by apply covers_resource]|left].
    cbn [existsb covers] in Hs. by rewrite orb_false_r, bool_decide_eq_true in Hs.
  - intros old k Hold Hk. rewrite Hrep in Hold. destruct published as [p|]; [|done]. injection Hold as <-. left.
    rewrite existsb_app. unfold all_deletes. rewrite existsb_app.
    rewrite (proj2 (covers_resource _ _)); [by rewrite orb_true_r|]. destruct Hk as [-> | ->]; [by left|right].
    apply below_resource_keys. by eexists.
  - intros _ Hne. rewrite Hrep in Hne. destruct published as [p|]; [|done]. unfold all_deletes. rewrite !existsb_app. cbn [existsb covers].
    rewrite bool_decide_eq_true_2 by done. by rewrite !orb_true_r.
Qed.

(** ** The programs that publish *)

Definition generation e (g : Z) : Prop :=
  match value_at e KMarker with
  | None => g = 1%Z
  | Some (VText s) => ∃ current, Atoi s = Some current ∧ current ≠ (2 ^ 63 - 1)%Z ∧ g = (current + 1)%Z
  | _ => False
  end.

Lemma generation_log e g log : implements log e → generation e g → g = Z.of_nat (S (length log)) ∧ (g < 2 ^ 63)%Z.
Proof.
  intros Im. unfold generation. rewrite (im_marker _ _ Im). pose proof (im_length _ _ Im) as Hl. destruct log as [|x log']; [intros ->; simpl; lia|].
  set (len := length (x :: log')) in *. rewrite Atoi_pretty by lia. intros (c & [= <-] & Hne & ->). lia.
Qed.

Lemma nextGeneration_good e :
  goodM (λ g e', rel e e' ∧ inv e' ∧ generation e' g) (nextPublishedGeneration root) e.
Proof.
  apply (goodM_bind (λ x e', rel e e' ∧ inv e' ∧ x = at_key e' KMarker)); [by apply goodM_get|].
  intros x e' (R & I & Hx). destruct x as [x|].
  - apply goodM_option. intros g Hg. split_and!; [done..|]. unfold generation, value_at. rewrite <- Hx. simpl.
    destruct (kv_Value x) as [| | | |s]; try done. destruct (Atoi s) as [c|]; [|done]. simpl in Hg.
    destruct (_ || _) eqn:E; [done|]. apply orb_false_iff in E as [_ E%bool_decide_eq_false]. injection Hg as <-. eauto.
  - apply goodM_ret. split_and!; [done..|]. unfold generation, value_at. by rewrite <- Hx.
Qed.

Lemma marker_good e :
  goodM (λ m e', rel e e' ∧ inv e' ∧ m = kv_ModRevision <$> at_key e' KMarker) (markerRevision root) e.
Proof.
  apply (goodM_bind (λ x e', rel e e' ∧ inv e' ∧ x = at_key e' KMarker)); [by apply goodM_get|].
  intros x e' (R & I & ->). by apply goodM_ret.
Qed.

Record state_ok n (st : routeBindingPublishState Obj) e : Prop := {
  so_draft : ∀ d, ps_draft st = Some d → draft_ok n (be_record d);
  so_published : read_entry e false n (ps_published st);
  so_some : ps_draft st = None → ps_published st = None → False;
}.

Lemma readState_good n e :
  goodM (λ st e', rel e e' ∧ inv e' ∧ state_ok n st e') (readPublishState root n) e.
Proof.
  apply (goodM_bind (λ draft e', rel e e' ∧ ∀ d, draft = Some d → draft_ok n (be_record d))).
  { eapply goodM_mono; [apply getEntry_good|]. intros draft e' (R & I & Hd). split; [done|]. intros d ->. by eapply read_draft. }
  intros draft e1 [R1 Hd]. apply (goodM_bind (λ published e', rel e1 e' ∧ inv e' ∧ read_entry e' false n published)); [apply getEntry_good|].
  intros published e2 (R2 & I2 & Hp). assert (rel e e2) as R by (by trans e1).
  destruct draft as [d|], published as [p|]; try apply goodM_fail; apply goodM_ret; by split_and!.
Qed.

Lemma state_fresh n st e p : inv e → state_ok n st e → ps_published st = Some p → fresh_id (rb_ResourceID (be_record p)).
Proof.
  intros I Hst Hp. destruct (inv_log _ I) as [log Im]. pose proof (so_published _ _ _ Hst) as Hr. rewrite Hp in Hr.
  eapply published_fresh; [exact Im|]. by eapply read_published.
Qed.

Lemma read_later e e' n x : unchanged e e' → read_entry e false n x → read_entry e' false n x.
Proof. intros U. unfold read_entry, at_key. rewrite (U _ (guarded_published n)). done. Qed.

Lemma listed_later e e' l : unchanged e e' → listed e l → listed e' l.
Proof.
  intros U [H1 H2]. split.
  - intros m x r. unfold at_key. rewrite (U _ (guarded_published m)). apply H1.
  - eapply Forall_impl; [exact H2|]. intros en. unfold value_at, at_key. by rewrite (U _ (guarded_published _)).
Qed.

Lemma generation_later e e' g : unchanged e e' → generation e g → generation e' g.
Proof. intros U. unfold generation, value_at, at_key. rewrite (U (render root KMarker)); [done|]. by right; right. Qed.

Lemma comparisons_marker st marker e :
  Forall (λ c, compare e c = true) (buildPublishComparisons root st marker) → compare e (marker_cmp marker) = true.
Proof.
  unfold buildPublishComparisons. rewrite Forall_app. intros [_ H]. unfold marker_cmp.
  destruct marker; by inversion H.
Qed.

Lemma new_puts_history n g b :
  new_puts n g b = match b with Some (r, c) => runtime_puts r c | None => [] end ++ history_operations root n g (fst <$> b).
Proof. done. Qed.

Lemma guarded_since ea e st :
  inv ea → inv e → rel ea e →
  Forall (λ c, compare e c = true) (buildPublishComparisons root st (kv_ModRevision <$> at_key ea KMarker)) →
  ∀ ex, rel ea ex → rel ex e → unchanged ex e.
Proof.
  intros Ia I R Hc%comparisons_marker ex R1 R2. eapply guard_between; [exact Ia|exact R1|exact R2|]. by apply marker_same.
Qed.

Definition published_result (res : RouteBindingPublishResult) e : Prop :=
  ∃ b, recorded (pr_Name res) (pr_Revision res) b e ∧ pr_PublishedCount res = match b with Some _ => 1 | None => 0 end.

Lemma candidate_publishable log e n st l cand c :
  implements log e → state_ok n st e → listed e l →
  compilePublishCandidate lower upper n (ps_draft st) l = Some cand → cand = Some c → conflict_free c →
  publishable log n (Some (candidate_record c, ce_legacy c))
    (old_deletes (ps_published st) (rs_ID (cr_Resource (ce_legacy c))) (me_ID (cr_Method (ce_legacy c)))).
Proof.
  intros Im Hst Hl Hcand -> Hfree. destruct (listed_log _ _ _ Im Hl) as [L1 L2].
  destruct (ps_draft st) as [d|] eqn:Ed; [|done]. pose proof (so_draft _ _ _ Hst d Ed) as Hd.
  destruct (candidate_spec n d l (Some c) (do_name _ _ Hd) (do_object _ _ Hd)) as (c' & [= <-] & Hobj & Hce & Hap).
  { eapply Forall_impl; [exact L2|]. intros en Hen. apply (do_object _ _ (po_draft _ _ (im_records _ _ Im _ _ Hen))). }
  { done. }
  destruct Hce as (P1 & P2 & _ & _ & P5). rewrite Hobj in P5.
  assert (candidate_record c = be_record d) as Hrec.
  { destruct (compiled_ids _ _ P5) as [E1 E2]. unfold candidate_record. rewrite Hobj, E1, E2. by destruct (be_record d). }
  replace (mkRecord _ _ _) with (be_record d) in P5 by (by destruct (be_record d)).
  destruct (compiled_ids _ _ P5) as [-> ->]. rewrite Hrec. eapply publishable_put; try done.
  - apply Hst.
  - intros m r' c' Hr' Hc' Hm. destruct (L1 m r' Hr') as (en & Hin & <-). apply Hap; [done| |done].
    rewrite Forall_forall in L2. pose proof (im_records _ _ Im _ _ Hr') as Hok. unfold entry_name.
    by rewrite (do_name _ _ (po_draft _ _ Hok)).
Qed.

Definition state_named n (st : routeBindingPublishState Obj) : Prop := ∀ p, ps_published st = Some p → entry_name p = n.

Lemma publish_operations n g st cand :
  (cand = None → ps_published st ≠ None) → state_named n st →
  (buildSinglePublishOperations root st cand).1.1 ++ history_operations root n g (candidate_record <$> cand) =
    match cand with
    | Some c => old_deletes (ps_published st) (rs_ID (cr_Resource (ce_legacy c))) (me_ID (cr_Method (ce_legacy c)))
    | None => all_deletes n (ps_published st)
    end ++ new_puts n g ((λ c, (candidate_record c, ce_legacy c)) <$> cand).
Proof.
  intros Hsome Hn. destruct cand as [c|].
  - cbn [buildSinglePublishOperations]. destruct (marshalCompiledRuntimeRoute (ce_legacy c)) as [rv mv] eqn:E.
    cbn [fst]. unfold new_puts, runtime_puts. simpl. rewrite E. simpl. by rewrite <- List.app_assoc.
  - cbn [buildSinglePublishOperations]. destruct (ps_published st) as [p|] eqn:Ep; [|by destruct Hsome].
    cbn [fst]. rewrite <- List.app_assoc. unfold all_deletes. rewrite (Hn p Ep). by rewrite <- List.app_assoc.
Qed.

Lemma publish_txn_good n g b dels cs e :
  (∀ e' log, rel e e' → inv e' → Forall (λ c, compare e' c = true) cs → implements log e' →
     g = Z.of_nat (S (length log)) ∧ (g < 2 ^ 63)%Z ∧ publishable log n b dels) →
  goodM (λ x e', x.1 = true → recorded n x.2 (fst <$> b) e') (kv_Txn cs (dels ++ new_puts n g b)) e.
Proof.
  intros H. apply goodM_txn. intros e' R I. split; [done|]. intros Honce Hcmp. destruct (inv_log _ I) as [log Im].
  destruct (H e' log R I Hcmp Im) as (-> & Hlt & Hpb). destruct (publish_ok e' log n b dels I Im Hlt Hpb Honce) as (A & B & C).
  split_and!; [exact A|exact B|intros _; exact C].
Qed.

(** The publication of what was read since the marker was read. *)
Lemma candidate_txn_good ea eb ec ed n g st l cand :
  inv ea → rel ea eb → rel eb ec → rel ec ed → generation eb g → state_ok n st ec → listed ed l →
  compilePublishCandidate lower upper n (ps_draft st) l = Some cand → (∀ c, cand = Some c → conflict_free c) →
  goodM (λ x e', x.1 = true → recorded n x.2 (candidate_record <$> cand) e')
    (kv_Txn (buildPublishComparisons root st (kv_ModRevision <$> at_key ea KMarker))
       ((buildSinglePublishOperations root st cand).1.1 ++ history_operations root n g (candidate_record <$> cand))) ed.
Proof.
  intros Ia Rab Rbc Rcd Hg Hst Hl Hcand Hfree. rewrite publish_operations.
  - replace (candidate_record <$> cand) with (fst <$> ((λ c, (candidate_record c, ce_legacy c)) <$> cand)) by (by destruct cand).
    apply publish_txn_good. intros e' log Rde I Hcmp Im.
    assert (rel ea ec) as Rac by (by trans eb). assert (rel ea ed) as Rad by (by trans ec).
    assert (rel ec e') as Rce by (by trans ed). assert (rel eb e') as Rbe by (by trans ec). assert (rel ea e') as Rae by (by trans ec).
    pose proof (guarded_since ea e' st Ia I Rae Hcmp) as U.
    destruct (generation_log e' g log Im (generation_later _ _ _ (U eb Rab Rbe) Hg)) as [-> Hlt]. split_and!; [done|done|].
    assert (state_ok n st e') as Hst'.
    { destruct Hst. split; try done. eapply read_later; [exact (U ec Rac Rce)|done]. }
    pose proof (listed_later _ _ _ (U ed Rad Rde) Hl) as Hl'. destruct cand as [c|]; simpl.
    + eapply candidate_publishable; try done. by apply Hfree.
    + apply (publishable_delete log e' n _ []); [done|apply Hst'|by left].
  - intros ->. unfold compilePublishCandidate in Hcand. intros Hp.
    destruct (ps_draft st) as [d|] eqn:Ed; [|by destruct (so_some _ _ _ Hst)].
    destruct (compileSnapshot _ _ _); [|done]. simpl in Hcand. by destruct (first_such _ _).
  - intros p Hp. pose proof (so_published _ _ _ Hst) as Hr. rewrite Hp in Hr. destruct Hr as (x & _ & _ & _ & Hn). exact Hn.
Qed.

Lemma Publish_good name rev e : goodM published_result (Publish lower upper range root name rev) e.
Proof.
  apply (goodM_bind (λ _ _, True)); [by apply goodM_require|]. intros _ e0 _.
  apply (goodM_bind (λ _ _, True)); [by apply goodM_option|]. intros n e0' _.
  eapply goodM_bind; [apply marker_good|]. intros marker ea (_ & Ia & ->).
  eapply goodM_bind; [apply nextGeneration_good|]. intros g eb (Rab & Ib & Hg).
  eapply goodM_bind; [apply readState_good|]. intros st ec (Rbc & Ic & Hst).
  apply (goodM_bind (λ _ e', e' = ec)); [by apply goodM_require|]. intros _ ? ->.
  eapply goodM_bind; [apply list_published_good|]. intros l ed (Rcd & Id & Hl).
  apply (goodM_bind (λ cand e', e' = ed ∧ compilePublishCandidate lower upper n (ps_draft st) l = Some cand)); [by apply goodM_option|].
  intros cand ? [-> Hcand].
  eapply goodM_bind; [apply checkRuntime_good; [intros p Hp; exact (state_fresh n st ec p Ic Hst Hp)|done]|]. intros _ ee (Rde & Ie & Hfree).
  pose proof (candidate_txn_good ea eb ec ed n g st l cand Ia Rab Rbc Rcd Hg Hst Hl Hcand Hfree) as Htxn.
  destruct (buildSinglePublishOperations root st cand) as [[ops pc] dc] eqn:Eops.
  apply (goodM_bind (λ x e', x.1 = true → recorded n x.2 (candidate_record <$> cand) e')).
  - intros e' w R I. apply Htxn; [by trans ee|done].
  - intros [b rev'] ef Hrec. apply (goodM_bind (λ _ e', recorded n rev' (candidate_record <$> cand) e')).
    { apply goodM_require. intros ->. by apply Hrec. }
    intros _ eg Hrec'. apply (goodM_bind (λ _ e', recorded n rev' (candidate_record <$> cand) e')).
    { unfold publishedRouteRevision. destruct cand as [c|]; [|by apply goodM_ret].
      apply (goodM_bind (λ _ e', recorded n rev' (candidate_record <$> Some c) e')).
      - eapply goodM_mono; [apply getEntry_good|]. intros x eh (R & _ & _). by eapply recorded_stable.
      - intros x eh Hx. by apply goodM_option. }
    intros prev eh Hh. apply goodM_ret. exists (candidate_record <$> cand). split; [done|]. simpl.
    unfold buildSinglePublishOperations in Eops. destruct cand; [|by destruct (ps_published st); simplify_eq].
    destruct (marshalCompiledRuntimeRoute _). by simplify_eq.
Qed.

Lemma DeleteAndPublish_good name rev e : goodM published_result (DeleteAndPublish root name rev) e.
Proof.
  apply (goodM_bind (λ _ _, True)); [by apply goodM_require|]. intros _ e0 _.
  apply (goodM_bind (λ _ _, True)); [by apply goodM_option|]. intros n e0' _.
  eapply goodM_bind; [apply marker_good|]. intros marker ea (_ & Ia & ->).
  eapply goodM_bind; [apply nextGeneration_good|]. intros g eb (Rab & Ib & Hg).
  eapply goodM_bind; [apply readState_good|]. intros st ec (Rbc & Ic & Hst).
  apply (goodM_bind (λ _ e', e' = ec)); [by apply goodM_require|]. intros _ ? ->.
  apply (goodM_bind (λ _ e', e' = ec)); [by apply goodM_require|]. intros _ ? ->.
  apply (goodM_bind (λ x e', x.1 = true → recorded n x.2 None e')).
  - set (drafts := match ps_draft st with Some _ => _ | None => _ end).
    change (history_operations root n g None) with (new_puts n g None). rewrite List.app_assoc.
    apply (publish_txn_good n g None (drafts ++ all_deletes n (ps_published st))). intros e' log Rce I Hcmp Im.
    assert (rel ea ec) as Rac by (by trans eb). assert (rel eb e') as Rbe by (by trans ec). assert (rel ea e') as Rae by (by trans ec).
    pose proof (guarded_since ea e' st Ia I Rae Hcmp) as U.
    destruct (generation_log e' g log Im (generation_later _ _ _ (U eb Rab Rbe) Hg)) as [-> Hlt]. split_and!; [done|done|].
    eapply publishable_delete; [exact Im|eapply read_later; [exact (U ec Rac Rce)|apply Hst]|].
    unfold drafts. destruct (ps_draft st); [by right|by left].
  - intros [b rev'] ef Hrec. apply (goodM_bind (λ _ e', recorded n rev' None e')).
    { apply goodM_require. intros ->. by apply Hrec. }
    intros _ eg Hrec'. apply goodM_ret. by exists None.
Qed.

Lemma absent_good n e : goodM (λ _ _, True) (requireRouteBindingAbsent root n) e.
Proof.
  apply (goodM_bind (λ _ _, True)); [|intros [b z] e1 _; by apply goodM_require].
  apply goodM_txn. intros e' R I. split; [done|]. intros _ _.
  assert (commit e' [] = e') as -> by (by destruct e'). by split_and!.
Qed.

(** A rollback to a deletion of a route that does not exist publishes nothing. *)
Lemma Rollback_good name h rev absent e :
  goodM (λ res e', published_result res e' ∨ pr_Revision res = 0%Z) (Rollback lower upper range root name h rev absent) e.
Proof.
  apply (goodM_bind (λ _ _, True)); [by apply goodM_option|]. intros n e1 _.
  apply (goodM_bind (λ _ _, True)); [by apply goodM_require|]. intros _ e2 _.
  apply (goodM_bind (λ _ _, True)); [by apply goodM_require|]. intros _ e3 _.
  apply (goodM_bind (λ _ _, True)); [by apply goodM_get|]. intros x e4 _.
  apply (goodM_bind (λ _ _, True)); [by apply goodM_option|]. intros record e5 _.
  destruct (h_Binding record) as [binding|].
  - apply (goodM_bind (λ _ _, True)); [by apply goodM_require|]. intros _ e6 _.
    apply (goodM_bind (λ _ _, True)); [destruct absent; apply saveDraft_good|]. intros saved e7 _.
    eapply goodM_mono; [apply Publish_good|]. by left.
  - destruct absent.
    + apply (goodM_bind (λ _ _, True)); [apply absent_good|]. intros _ e6 _. apply goodM_ret. by right.
    + eapply good_bind; [apply (readState_good n e5)|]. intros [st|err] e6 _; [|by destruct err].
      destruct (_ && _); [|apply goodM_fail]. eapply goodM_mono; [apply DeleteAndPublish_good|]. by left.
Qed.

(** ** Queries change nothing *)

Lemma getEntry_any u n e : goodM (λ _ _, True) (getEntry (bindingPrefix root u) n) e.
Proof. eapply goodM_mono; [apply getEntry_good|done]. Qed.

Lemma list_any u e : goodM (λ _ _, True) (listEntries (Obj := Obj) (bindingPrefix root u)) e.
Proof. apply (goodM_bind (λ _ _, True)); [by apply goodM_prefix|]. intros kvs e1 _. by apply goodM_option. Qed.

Lemma Status_good name e : goodM (λ _ _, True) (Status (Obj := Obj) root name) e.
Proof.
  apply (goodM_bind (λ _ _, True)); [by apply goodM_option|]. intros n e1 _.
  apply (goodM_bind (λ _ _, True)); [apply getEntry_any|]. intros draft e2 _.
  apply (goodM_bind (λ _ _, True)); [apply getEntry_any|]. intros published e3 _.
  assert (goodM (λ _ _, True) (M_bind _ _ (λ dirty, ret (mkPublishStatus n (entry_revision draft) (entry_revision published)
    (bool_decide (is_Some draft)) (bool_decide (is_Some published)) dirty)) (of_option EInvalid (status_dirty draft published))) e3) as H.
  { apply (goodM_bind (λ _ _, True)); [by apply goodM_option|]. intros dirty e4 _. by apply goodM_ret. }
  destruct draft, published; exact H.
Qed.

Lemma GetBinding_good name u e : goodM (λ _ _, True) (GetBinding (Obj := Obj) root name u) e.
Proof.
  apply (goodM_bind (λ _ _, True)); [by apply goodM_option|]. intros n e1 _.
  apply (goodM_bind (λ _ _, True)); [apply getEntry_any|]. intros [entry|] e2 _; [by apply goodM_option|apply goodM_fail].
Qed.

Lemma ListBindings_good u e : goodM (λ _ _, True) (ListBindings (Obj := Obj) root u) e.
Proof.
  apply (goodM_bind (λ _ _, True)); [apply list_any|]. intros entries e1 _.
  apply (goodM_bind (λ _ _, True)); [|intros statuses e2 _; by apply goodM_option].
  destruct u; [|by apply goodM_ret]. apply (goodM_bind (λ _ _, True)); [apply list_any|].
  intros published e2 _. by apply goodM_option.
Qed.

Lemma History_good name e : goodM (λ _ _, True) (History (Obj := Obj) root name) e.
Proof.
  apply (goodM_bind (λ _ _, True)); [by apply goodM_option|]. intros n e1 _.
  apply (goodM_bind (λ _ _, True)); [by apply goodM_prefix|]. intros kvs e2 _.
  apply (goodM_bind (λ _ _, True)); [by apply goodM_option|]. intros entries e3 _. by apply goodM_ret.
Qed.

(** ** Clients *)

Inductive call : Type :=
  | CSave (o : Obj) (create : bool) (rev : Z)
  | CUpdate (name : string) (o : Obj) (rev : Z)
  | CPublish (name : string) (rev : Z)
  | CDelete (name : string) (rev : Z)
  | CRollback (name : string) (history rev : Z) (absent : bool)
  | CGet (name : string) (unpublished : bool)
  | CStatus (name : string)
  | CList (unpublished : bool)
  | CHistory (name : string).

Inductive answer : Type :=
  | ABinding (r : result store_error (RouteBinding Obj))
  | APublished (r : result store_error RouteBindingPublishResult)
  | AStatus (r : result store_error RouteBindingPublishStatus)
  | AList (r : result store_error (list (RouteBinding Obj * option RouteBindingPublishStatus)))
  | AHistory (r : result store_error (list (RouteBindingHistoryEntry Obj))).

Definition client (c : call) : prog (value Obj) answer :=
  let answered {A} (m : M A) (f : result store_error A → answer) := prog_bind m (λ x, Ret (f x)) in
  match c with
  | CSave o create rev => answered (SaveDraft root o create rev) ABinding
  | CUpdate name o rev => answered (UpdateDraft root name o rev) ABinding
  | CPublish name rev => answered (Publish lower upper range root name rev) APublished
  | CDelete name rev => answered (DeleteAndPublish root name rev) APublished
  | CRollback name h rev absent => answered (Rollback lower upper range root name h rev absent) APublished
  | CGet name u => answered (GetBinding root name u) ABinding
  | CStatus name => answered (Status root name) AStatus
  | CList u => answered (ListBindings root u) AList
  | CHistory name => answered (History root name) AHistory
  end.

Definition answer_ok (a : answer) e : Prop :=
  match a with APublished (Ok res) => published_result res e ∨ pr_Revision res = 0%Z | _ => True end.

Lemma answer_stable a e e' : rel e e' → answer_ok a e → answer_ok a e'.
Proof.
  intros R. destruct a as [|[res|]| | |]; simpl; try done. intros [(b & Hb & Hc)|H]; [left|by right].
  exists b. split; [by eapply recorded_stable|done].
Qed.

Lemma answered_good {A} (Q : A → etcd (value Obj) → Prop) (m : M A) (f : result store_error A → answer) e :
  goodM Q m e → (∀ a e', Q a e' → answer_ok (f (Ok a)) e') → (∀ err e', answer_ok (f (Err err)) e') →
  good inv rel answer_ok (prog_bind m (λ x, Ret (f x))) e.
Proof. intros Hm H1 H2. eapply good_bind; [exact Hm|]. intros [a|err] e' Ha; simpl; auto. Qed.

Lemma client_good c e : good inv rel answer_ok (client c) e.
Proof.
  destruct c as [o create rev|name o rev|name rev|name rev|name h rev absent|name u|name|u|name]; cbn [client].
  - by eapply answered_good; [apply saveDraft_good|..].
  - by eapply answered_good; [apply UpdateDraft_good|..].
  - eapply answered_good; [apply Publish_good| |done]. by left.
  - eapply answered_good; [apply DeleteAndPublish_good| |done]. by left.
  - by eapply answered_good; [apply Rollback_good|..].
  - by eapply answered_good; [apply GetBinding_good|..].
  - by eapply answered_good; [apply Status_good|..].
  - by eapply answered_good; [apply ListBindings_good|..].
  - by eapply answered_good; [apply History_good|..].
Qed.

(** The store when it is first used: nothing but the old runtime data. *)
Record first_used e : Prop := {
  fu_data : data e = legacy;
  fu_revision : (0 ≤ revision e)%Z;
  fu_revisions : ∀ s x, legacy !! s = Some x →
    (0 < kv_CreateRevision x ≤ kv_ModRevision x ∧ kv_ModRevision x ≤ revision e)%Z;
}.

Lemma first_inv e : first_used e → inv e.
Proof.
  intros [Hd Hr Hrs]. assert (∀ k, match k with KResource _ | KMethod _ _ => False | _ => True end → at_key e k = None) as Hnone.
  { intros k Hk. unfold at_key. rewrite Hd. destruct (legacy !! render root k) as [x|] eqn:E; [|done].
    by apply legacy_key in E as [[id ->]|(id & mid & ->)]. }
  split; [done|by rewrite Hd| |intros n x Hx; by rewrite Hnone in Hx]. exists []. split; try done.
  - unfold value_at. by rewrite Hnone.
  - intros n g. unfold value_at. by rewrite Hnone.
  - intros n. unfold value_at. by rewrite Hnone.
  - intros s x Hs Hp. rewrite Hd in Hs. exfalso. destruct (legacy_keys _ _ Hs) as [(id & _ & ->)|(id & mid & _ & _ & ->)];
      by apply binding_prefix_keys in Hp as [n Hk].
  - by rewrite Hd.
  - intros s x Hs _. left. by rewrite <- Hd.
Qed.

Definition clients (acts : list (action (value Obj) answer)) : Prop := ∀ p, Start p ∈ acts → ∃ c, p = client c.

Lemma store_run_inv e acts :
  first_used e → clients acts → all_good inv rel answer_ok (run e acts).
Proof.
  intros He Hc. apply clients_good; [apply _|apply _|exact answer_stable| |by apply first_inv].
  intros p [c ->]%Hc e'. apply client_good.
Qed.

(** ** What holds whatever the clients do *)

Lemma log_grows e1 e2 log1 log2 : implements log1 e1 → implements log2 e2 → rel e1 e2 → log1 `prefix_of` log2.
Proof.
  intros Im1 Im2 R. assert (∀ i x, log1 !! i = Some x → log2 !! i = Some x) as Hi.
  { intros i [n b] Hx. pose proof (im_history _ _ Im1 n i) as H1. rewrite Hx, decide_True in H1 by done.
    pose proof (im_history _ _ Im2 n i) as H2. unfold value_at in *.
    destruct (at_key e1 (KHistory n (Z.of_nat (S i)))) as [y|] eqn:E; [|done]. rewrite (rel_history _ _ R _ _ _ E) in H2.
    simpl in *. destruct (log2 !! i) as [[n' b']|]; [|done]. case_decide; [|done]. simplify_eq. congruence. }
  exists (drop (length log1) log2). apply list_eq. intros i. destruct (decide (i < length log1)) as [Hl|Hl].
  - rewrite lookup_app_l by done. destruct (lookup_lt_is_Some_2 _ _ Hl) as [x Hx]. rewrite Hx. by apply Hi.
  - rewrite lookup_app_r by lia. rewrite lookup_drop. f_equal. lia.
Qed.


Lemma published_replay log e n r : implements log e → value_at e (KBinding false n) = Some (VBinding r) → replay log n = Some r.
Proof. intros Im. rewrite (im_published _ _ Im). destruct (replay log n); simpl; congruence. Qed.




End invariant.
