(* ===== verification/AdminSchema.v ===== *)
(** * Schemas of administration objects: [src/pkg/config/schema]

    An administration object is a YAML or JSON document; a registry holds for
    each kind a schema, which fills in defaults and validates, and validators
    for what a schema cannot say.  The built-in kind is the route binding, which
    is compiled to the resource and the method the gateway serves.

    Values are decoded documents: maps are finite maps, numbers rationals.  The
    texts of messages, the hints for forms and descriptions are left out.  The
    conversion of a float to an [int], regular expressions and durations are
    parameters.

    Normalizing is idempotent and keeps its result stable under a change of the
    name, which is what the store of route bindings asks of the registry
    ([admin_registry_laws]); what it accepts compiles to a sound route
    ([compile_total]). *)

From Stdlib Require Import QArith.Qcanon.
From stdpp Require Import base gmap list strings pretty sorting numbers.
From S2P Require Import Prelude GoStrings McpCatalog AdminRoute.

(** ** Values *)

Inductive any : Type :=
  | JNil
  | JBool (b : bool)
  | JNumber (q : Qc)
  | JString (s : string)
  | JArray (l : list any)
  | JObject (m : gmap string any).

(** [reflect.DeepEqual]. *)
#[global] Instance any_eq_dec : EqDecision any.
Proof.
  refine (fix go (x y : any) : Decision (x = y) :=
    let _ : EqDecision any := go in
    match x, y with
    | JNil, JNil => left _
    | JBool a, JBool b => cast_if (decide (a = b))
    | JNumber a, JNumber b => cast_if (decide (a = b))
    | JString a, JString b => cast_if (decide (a = b))
    | JArray a, JArray b => cast_if (decide (a = b))
    | JObject a, JObject b => cast_if (decide (a = b))
    | _, _ => right _
    end); congruence.
Defined.

(** A value of a map; a key that is missing has the value nil. *)
Definition get (m : gmap string any) (name : string) : any := default JNil (m !! name).

(** Type assertions with their zero values. *)
Definition as_string (v : any) : string := match v with JString s => s | _ => "" end.
Definition as_object (v : any) : gmap string any := match v with JObject m => m | _ => ∅ end.
Definition stringField (values : gmap string any) (name : string) : string := as_string (get values name).
Definition objectField (values : gmap string any) (name : string) : option (gmap string any) :=
  match get values name with JObject m => Some m | _ => None end.

Definition numericValue (value : any) : option Qc := match value with JNumber q => Some q | _ => None end.

(** [math.Trunc] gives the number itself. *)
Definition is_integral (q : Qc) : bool := Pos.eqb (QArith_base.Qden (this q)) 1.

(** ** Schemas *)

Inductive FieldSchema : Type :=
  mkField (Type_ : string) (Required : bool) (Default : any) (Enum : list any) (Pattern : string) (Minimum : option Qc)
    (Properties : list (string * FieldSchema)) (Items AdditionalProperties : option FieldSchema) (AllowUnknown : bool).

Definition f_Required (f : FieldSchema) : bool := let 'mkField _ required _ _ _ _ _ _ _ _ := f in required.
Definition f_Default (f : FieldSchema) : any := let 'mkField _ _ default _ _ _ _ _ _ _ := f in default.

Record ObjectSchema : Type := mkSchema {
  os_Kind : string;
  os_Fields : list (string * FieldSchema);
}.

Record AdminObject : Type := mkObject {
  ao_Kind : string;
  ao_Name : string;
  ao_Spec : gmap string any;
}.

#[global] Instance AdminObject_eq_dec : EqDecision AdminObject.
Proof. solve_decision. Defined.

Record ValidationIssue : Type := mkIssue {
  vi_Path : string;
  vi_Code : string;
}.

Definition joinPath (parent child : string) : string :=
  if bool_decide (parent = "") then child else parent +:+ "." +:+ child.

(** *** Defaults *)

Definition default_step (applyDefaultsToValue : any → FieldSchema → any) (values : gmap string any) (x : string * FieldSchema) :
    gmap string any :=
  let '(name, field) := x in
  let value := get values name in
  let value := if bool_decide (value = JNil) then f_Default field else value in
  if bool_decide (value = JNil) then values else <[name := applyDefaultsToValue value field]> values.

Fixpoint applyDefaultsToValue (value : any) (field : FieldSchema) {struct field} : any :=
  let 'mkField type _ _ _ _ _ properties items additional _ := field in
  if bool_decide (type = "object") then
    match value with
    | JObject m => JObject (foldl (default_step applyDefaultsToValue) m properties)
    | _ => value
    end
  else if bool_decide (type = "array") then
    match value, items with
    | JArray l, Some items => JArray ((λ v, applyDefaultsToValue v items) <$> l)
    | _, _ => value
    end
  else if bool_decide (type = "map") then
    match value, additional with
    | JObject m, Some additional => JObject ((λ v, applyDefaultsToValue v additional) <$> m)
    | _, _ => value
    end
  else value.

Definition applyDefaultsToFields (values : gmap string any) (fields : list (string * FieldSchema)) : gmap string any :=
  foldl (default_step applyDefaultsToValue) values fields.

(** *** Validation

    The schemas of a registry have an item schema for arrays and a value schema
    for maps ([validateFieldDefinition]). *)

Section validation.
Context (MatchString : string → string → bool).

#[local] Definition name_le {A} (x y : string * A) : Prop := String.le x.1 y.1.
#[local] Instance name_le_dec {A} (x y : string * A) : Decision (name_le x y).
Proof. unfold name_le, String.le. apply _. Defined.

(** Issues in the order of the names they are about. *)
Definition by_name (l : list (string * list ValidationIssue)) : list ValidationIssue := concat (snd <$> merge_sort name_le l).

Definition field_issues (validateValue : string → any → FieldSchema → list ValidationIssue) (path : string)
    (values : gmap string any) (x : string * FieldSchema) : string * list ValidationIssue :=
  let '(name, field) := x in
  (name,
   match get values name with
   | JNil => if f_Required field && bool_decide (f_Default field = JNil) then [mkIssue (joinPath path name) "required"] else []
   | value => validateValue (joinPath path name) value field
   end).

Definition validateUnknownFields (path : string) (values : gmap string any) (fields : list (string * FieldSchema)) :
    list ValidationIssue :=
  by_name ((λ x, (x.1, [mkIssue (joinPath path x.1) "unknown"])) <$> filter (λ x, x.1 ∉ fields.*1) (map_to_list values)).

Definition validateFieldsWith (validateValue : string → any → FieldSchema → list ValidationIssue) (path : string)
    (values : gmap string any) (fields : list (string * FieldSchema)) (allowUnknown : bool) : list ValidationIssue :=
  by_name (field_issues validateValue path values <$> fields) ++
  (if allowUnknown then [] else validateUnknownFields path values fields).

Definition enum_issues (path : string) (value : any) (enum : list any) : list ValidationIssue :=
  if bool_decide (enum = []) || bool_decide (value ∈ enum) then [] else [mkIssue path "enum"].

Fixpoint validateValue (path : string) (value : any) (field : FieldSchema) {struct field} : list ValidationIssue :=
  let 'mkField type _ _ enum pattern minimum properties items additional allowUnknown := field in
  if bool_decide (type = "string") then
    match value with
    | JString s =>
        if negb (bool_decide (pattern = "")) && negb (MatchString pattern s) then [mkIssue path "pattern"]
        else enum_issues path value enum
    | _ => [mkIssue path "type"]
    end
  else if bool_decide (type = "integer") then
    match numericValue value with
    | Some number =>
        if negb (is_integral number) then [mkIssue path "type"]
        else if match minimum with Some m => bool_decide (number < m)%Qc | None => false end then [mkIssue path "minimum"]
        else enum_issues path value enum
    | None => [mkIssue path "type"]
    end
  else if bool_decide (type = "boolean") then
    match value with JBool _ => enum_issues path value enum | _ => [mkIssue path "type"] end
  else if bool_decide (type = "object") then
    match value with
    | JObject object => validateFieldsWith validateValue path object properties allowUnknown
    | _ => [mkIssue path "type"]
    end
  else if bool_decide (type = "array") then
    match value, items with
    | JArray l, Some items => concat (imap (λ index item, validateValue (path +:+ "[" +:+ pretty index +:+ "]") item items) l)
    | JArray _, None => []
    | _, _ => [mkIssue path "type"]
    end
  else if bool_decide (type = "map") then
    match value, additional with
    | JObject entries, Some additional =>
        by_name ((λ x, (x.1, validateValue (joinPath path x.1) x.2 additional)) <$> map_to_list entries)
    | JObject _, None => []
    | _, _ => [mkIssue path "type"]
    end
  else [mkIssue path "schema"].

Definition validateFields (path : string) (values : gmap string any) (fields : list (string * FieldSchema)) (allowUnknown : bool) :
    list ValidationIssue := validateFieldsWith validateValue path values fields allowUnknown.

Definition validateEnvelope (o : AdminObject) : list ValidationIssue :=
  (if bool_decide (TrimSpace.TrimSpace (ao_Kind o) = "") then [mkIssue "kind" "required"] else []) ++
  (if bool_decide (TrimSpace.TrimSpace (ao_Name o) = "") then [mkIssue "metadata.name" "required"] else []).

(** [Compile] is [regexp.Compile]: does the pattern compile? *)
Context (Compile : string → bool).

Fixpoint validateFieldDefinition (field : FieldSchema) : bool :=
  let 'mkField type _ _ _ pattern _ properties items additional _ := field in
  (if bool_decide (type ∈ ["string"; "integer"; "boolean"]) then true
   else if bool_decide (type = "object") then forallb (λ x, validateFieldDefinition x.2) properties
   else if bool_decide (type = "array") then match items with Some items => validateFieldDefinition items | None => false end
   else if bool_decide (type = "map") then match additional with Some a => validateFieldDefinition a | None => false end
   else false) &&
  (bool_decide (pattern = "") || Compile pattern).

Definition validateSchemaDefinition (s : ObjectSchema) : bool :=
  negb (bool_decide (TrimSpace.TrimSpace (os_Kind s) = "")) &&
  forallb (λ x, negb (bool_decide (TrimSpace.TrimSpace x.1 = "")) && validateFieldDefinition x.2) (os_Fields s).

(** ** The registry *)

Record Registry : Type := mkRegistry {
  schemas : gmap string ObjectSchema;
  validators : gmap string (list (AdminObject → list ValidationIssue));
}.

Definition NewRegistry : Registry := mkRegistry ∅ ∅.

Inductive register_error : Type := InvalidSchema | SchemaAlreadyRegistered | SchemaNotFound.

Definition Register (r : Registry) (s : ObjectSchema) : result register_error Registry :=
  if negb (validateSchemaDefinition s) then Err InvalidSchema
  else
    let kind := TrimSpace.TrimSpace (os_Kind s) in
    if bool_decide (is_Some (schemas r !! kind)) then Err SchemaAlreadyRegistered
    else Ok (mkRegistry (<[kind := s]> (schemas r)) (validators r)).

Definition RegisterValidator (r : Registry) (kind : string) (validator : AdminObject → list ValidationIssue) :
    result register_error Registry :=
  let kind := TrimSpace.TrimSpace kind in
  if negb (bool_decide (is_Some (schemas r !! kind))) then Err SchemaNotFound
  else Ok (mkRegistry (schemas r) (<[kind := default [] (validators r !! kind) ++ [validator]]> (validators r))).

Definition lookupEntry (r : Registry) (kind : string) : option (ObjectSchema * list (AdminObject → list ValidationIssue)) :=
  let kind := TrimSpace.TrimSpace kind in
  s ← schemas r !! kind; Some (s, default [] (validators r !! kind)).

(** ** Route bindings of the old form *)

Definition KindAdminRouteBinding : string := "AdminRouteBinding".

Definition removeEmptyLegacyExtensions (spec : gmap string any) : result (list ValidationIssue) (gmap string any) :=
  match spec !! "extensions" with
  | None => Ok spec
  | Some (JObject m) => if bool_decide (m = ∅) then Ok (delete "extensions" spec) else Err [mkIssue "spec.extensions" "unsupported"]
  | Some _ => Err [mkIssue "spec.extensions" "unsupported"]
  end.

Definition hasLegacyRouteBindingFields (spec : gmap string any) : bool :=
  bool_decide (is_Some (spec !! "target")) || bool_decide (is_Some (spec !! "params")).

(** The fields are ranged over in an order that only the order of the issues
    depends on. *)
Definition validateLegacyTargetFields (target : gmap string any) : list ValidationIssue :=
  ((λ x, mkIssue ("spec.target." +:+ x.1) "migration") <$>
    filter (λ x, x.1 ∉ ["protocol"; "application"; "interface"; "method"; "version"; "group"; "cluster"]) (map_to_list target)) ++
  match target !! "protocol" with
  | None => []
  | Some (JString protocol) =>
      if bool_decide (protocol ∈ [""; "dubbo"]) then [] else [mkIssue "spec.target.protocol" "migration"]
  | Some _ => [mkIssue "spec.target.protocol" "migration"]
  end.

Definition validateLegacyRouteBindingTarget (spec : gmap string any) : result (list ValidationIssue) (gmap string any) :=
  match first_such (λ field, bool_decide (is_Some (spec !! field))) ["backendRef"; "serviceSelection"; "invocation"] with
  | Some field => Err [mkIssue ("spec." +:+ field) "mixed_model"]
  | None =>
      match spec !! "target" with
      | Some (JObject target) =>
          let issues := validateLegacyTargetFields target in
          match issues with [] => Ok target | _ => Err issues end
      | _ => Err [mkIssue "spec.target" "migration"]
      end
  end.

Definition applyLegacyRouteBindingMigration (spec target : gmap string any) : gmap string any :=
  let backendRef : gmap string any := {[ "type" := JString "registry" ]} in
  let backendRef := match target !! "cluster" with Some c => <["clusterName" := c]> backendRef | None => backendRef end in
  let spec := <["backendRef" := JObject backendRef]> spec in
  let spec := <["serviceSelection" := JObject (list_to_map
    [("application", get target "application"); ("interface", get target "interface");
     ("group", get target "group"); ("version", get target "version")])]> spec in
  let parameters := default (JArray []) (spec !! "params") in
  let spec := <["invocation" := JObject (list_to_map
    [("method", get target "method"); ("timeout", JString "1s"); ("parameters", parameters)])]> spec in
  delete "params" (delete "target" spec).

Definition migrateLegacyRouteBindingSpec (spec : gmap string any) : result (list ValidationIssue) (gmap string any) :=
  match removeEmptyLegacyExtensions spec with
  | Err issues => Err issues
  | Ok spec =>
      if negb (hasLegacyRouteBindingFields spec) then Ok spec
      else match validateLegacyRouteBindingTarget spec with
           | Err issues => Err issues
           | Ok target => Ok (applyLegacyRouteBindingMigration spec target)
           end
  end.

(** ** Normalization *)

Definition Normalize (r : Registry) (o : AdminObject) : result (list ValidationIssue) AdminObject :=
  match (if bool_decide (ao_Kind o = KindAdminRouteBinding)
         then migrateLegacyRouteBindingSpec (delete "publish" (ao_Spec o)) else Ok (ao_Spec o)) with
  | Err issues => Err issues
  | Ok spec =>
      let o := mkObject (ao_Kind o) (ao_Name o) spec in
      let issues := validateEnvelope o in
      match lookupEntry r (ao_Kind o) with
      | None => Err (issues ++ [mkIssue "kind" "schema_not_found"])
      | Some (objectSchema, validators) =>
          let spec := applyDefaultsToFields spec (os_Fields objectSchema) in
          let o := mkObject (ao_Kind o) (ao_Name o) spec in
          let issues := issues ++ validateFields "spec" spec (os_Fields objectSchema) false ++ concat ((λ v, v o) <$> validators) in
          match issues with [] => Ok o | _ => Err issues end
      end
  end.

End validation.

(** ** The route binding *)

Definition supportedDubboParamTypes : list string :=
  ["string"; "char"; "short"; "int"; "long"; "float"; "double"; "boolean"; "byte"; "date"; "object";
   "java.lang.String"; "java.lang.Character"; "java.lang.Short"; "java.lang.Integer"; "java.lang.Long";
   "java.lang.Float"; "java.lang.Double"; "java.lang.Boolean"; "java.lang.Byte"; "java.lang.Object"; "java.util.Date"].

Definition isSupportedParamType (value : string) : bool := bool_decide (value ∈ supportedDubboParamTypes).

Definition string_field (required : bool) (default : any) (enum : list string) (pattern : string) : FieldSchema :=
  mkField "string" required default (JString <$> enum) pattern None [] None None false.
Definition object_field (required : bool) (properties : list (string * FieldSchema)) : FieldSchema :=
  mkField "object" required JNil [] "" None properties None None false.

Definition pathPattern : string := "^/".
Definition fromPattern : string := "^(uri|queryStrings|headers|requestBody)\..+".

Definition parameter_schema : FieldSchema :=
  object_field false
    [("from", string_field true JNil [] fromPattern);
     ("to", mkField "integer" true JNil [] "" (Some 0%Qc) [] None None false);
     ("type", string_field true JNil supportedDubboParamTypes "")].

Definition entry_fields : list (string * FieldSchema) :=
  [("protocol", string_field false (JString "http") ["http"] "");
   ("path", string_field true (JString "/api/v1/example") [] pathPattern);
   ("method", string_field true (JString "GET") ["GET"; "POST"; "PUT"; "PATCH"; "DELETE"; "OPTIONS"; "HEAD"] "")].

Definition backend_fields : list (string * FieldSchema) :=
  [("type", string_field false (JString "registry") ["registry"] "");
   ("clusterName", string_field false JNil [] "")].

Definition service_fields : list (string * FieldSchema) :=
  [("application", string_field true JNil [] ""); ("interface", string_field true JNil [] "");
   ("group", string_field false (JString "") [] ""); ("version", string_field false (JString "") [] "")].

Definition invocation_fields : list (string * FieldSchema) :=
  [("method", string_field true JNil [] "");
   ("timeout", string_field false (JString "1s") [] "");
   ("parameters", mkField "array" false (JArray []) [] "" None [] (Some parameter_schema) None false)].

Definition adminRouteBindingSchema : ObjectSchema :=
  mkSchema KindAdminRouteBinding
    [("entry", object_field true entry_fields);
     ("backendRef", object_field true backend_fields);
     ("serviceSelection", object_field true service_fields);
     ("invocation", object_field true invocation_fields);
     ("enabled", mkField "boolean" false (JBool true) [] "" None [] None None false)].

Section binding.
Context (MatchString : string → string → bool) (Compile : string → bool).
Context (ParseDuration : string → option Z).

(** The conversion [int(x)] of a float. *)
Context (int_of : Qc → Z).

Definition routePathParameters (path : string) : gset string :=
  list_to_set ((λ segment, Strings.TrimPrefix segment ":") <$>
    filter (λ segment, Strings.HasPrefix segment ":" = true) (Strings.SplitByte slash (Strings.TrimLeftByte slash path))).

Definition validateRouteBindingService (service invocation : gmap string any) : list ValidationIssue :=
  ((λ field, mkIssue ("spec.serviceSelection." +:+ field) "required") <$>
    filter (λ field, TrimSpace.TrimSpace (stringField service field) = "") ["application"; "interface"]) ++
  (if bool_decide (TrimSpace.TrimSpace (stringField invocation "method") = "") then [mkIssue "spec.invocation.method" "required"] else []) ++
  match ParseDuration (stringField invocation "timeout") with
  | Some duration => if bool_decide (duration ≤ 0)%Z then [mkIssue "spec.invocation.timeout" "duration"] else []
  | None => [mkIssue "spec.invocation.timeout" "duration"]
  end.

(** The indexes and the path parameters that were seen. *)
Record seen : Type := mkSeen { seenIndexes : gmap Z nat; usedPathParams : gmap string nat; seen_issues : list ValidationIssue }.

Definition parameter_path (index : nat) (field : string) : string :=
  "spec.invocation.parameters[" +:+ pretty index +:+ "]." +:+ field.

Definition validatePathParameterSource (index : nat) (source : string) (pathParams : gset string) (used : gmap string nat) :
    gmap string nat * list ValidationIssue :=
  let name := Strings.TrimPrefix source "uri." in
  if negb (bool_decide (name ∈ pathParams)) then (used, [mkIssue (parameter_path index "from") "path_mismatch"])
  else if bool_decide (is_Some (used !! name)) then (used, [mkIssue (parameter_path index "from") "duplicate_uri"])
  else (<[name := index]> used, []).

Definition validateRouteBindingParameter (index : nat) (param : gmap string any) (pathParams : gset string) (s : seen) : seen :=
  match numericValue (get param "to") with
  | None => s
  | Some toNumber =>
      let to := int_of toNumber in
      let '(indexes, issues) :=
        if bool_decide (is_Some (seenIndexes s !! to)) then (seenIndexes s, [mkIssue (parameter_path index "to") "duplicate"])
        else (<[to := index]> (seenIndexes s), []) in
      let issues := issues ++
        match get param "type" with
        | JString paramType => if isSupportedParamType paramType then [] else [mkIssue (parameter_path index "type") "unsupported"]
        | _ => []
        end in
      let '(used, more) :=
        match get param "from" with
        | JString source =>
            if Strings.HasPrefix source "uri." then validatePathParameterSource index source pathParams (usedPathParams s)
            else (usedPathParams s, [])
        | _ => (usedPathParams s, [])
        end in
      mkSeen indexes used (seen_issues s ++ issues ++ more)
  end.

(** The loop of [validateRouteBindingParameters] from an index on. *)
Fixpoint validate_params (index : nat) (params : list any) (pathParams : gset string) (s : seen) : seen :=
  match params with
  | [] => s
  | JObject param :: params => validate_params (S index) params pathParams (validateRouteBindingParameter index param pathParams s)
  | _ :: params => validate_params (S index) params pathParams s
  end.

Definition validatePathParameterMappings (pathParams : gset string) (used : gmap string nat) : list ValidationIssue :=
  (λ _, mkIssue "spec.invocation.parameters" "unmapped_uri") <$> filter (λ name, used !! name = None) (elements pathParams).

Definition validateContiguousParameterIndexes (params : list any) (indexes : gmap Z nat) : list ValidationIssue :=
  (λ _, mkIssue "spec.invocation.parameters" "non_contiguous") <$>
    filter (λ expected : nat, indexes !! Z.of_nat expected = None) (seq 0 (length params)).

Definition validateRouteBindingParameters (params : list any) (pathParams : gset string) : list ValidationIssue :=
  let s := validate_params 0 params pathParams (mkSeen ∅ ∅ []) in
  seen_issues s ++ validatePathParameterMappings pathParams (usedPathParams s) ++
  validateContiguousParameterIndexes params (seenIndexes s).

Definition validateAdminRouteBinding (o : AdminObject) : list ValidationIssue :=
  let entry := as_object (get (ao_Spec o) "entry") in
  let path := stringField entry "path" in
  let service := as_object (get (ao_Spec o) "serviceSelection") in
  let invocation := as_object (get (ao_Spec o) "invocation") in
  validateRouteBindingService service invocation ++
  match get invocation "parameters" with
  | JArray params => validateRouteBindingParameters params (routePathParameters path)
  | _ => []
  end.

Definition RegisterBuiltinSchemas (r : Registry) : result register_error Registry :=
  match Register Compile r adminRouteBindingSchema with
  | Err e => Err e
  | Ok r => RegisterValidator r KindAdminRouteBinding validateAdminRouteBinding
  end.

Definition NewBuiltinRegistry : result register_error Registry := RegisterBuiltinSchemas NewRegistry.

(** ** Compilation *)

(** [Panics]: an index is out of the range of the types. *)
Inductive compile_error : Type := Invalid | Panics.

Definition compile_param (len : nat) (acc : result compile_error (list MappingParam * list string)) (rawParam : any) :
    result compile_error (list MappingParam * list string) :=
  match acc with
  | Err e => Err e
  | Ok (mappings, types) =>
      let param := as_object rawParam in
      let to := int_of (default 0%Qc (numericValue (get param "to"))) in
      let paramType := stringField param "type" in
      let mappings := mappings ++ [mkMappingParam (stringField param "from") (pretty to) paramType] in
      if bool_decide (0 ≤ to < Z.of_nat len)%Z then Ok (mappings, <[Z.to_nat to := paramType]> types) else Err Panics
  end.

Definition compile_params (params : list any) : result compile_error (list MappingParam * list string) :=
  foldl (compile_param (length params)) (Ok ([], replicate (length params) "")) params.

Definition Compile_AdminRouteBinding (r : Registry) (o : AdminObject) : result compile_error CompiledRoute :=
  match Normalize MatchString r o with
  | Err _ => Err Invalid
  | Ok normalized =>
      if negb (bool_decide (ao_Kind normalized = KindAdminRouteBinding)) then Err Invalid
      else
        match objectField (ao_Spec normalized) "entry", objectField (ao_Spec normalized) "backendRef",
              objectField (ao_Spec normalized) "serviceSelection", objectField (ao_Spec normalized) "invocation" with
        | Some entry, Some backend, Some service, Some invocation =>
            match ParseDuration (stringField invocation "timeout") with
            | None => Err Invalid
            | Some timeout =>
                if bool_decide (timeout ≤ 0)%Z then Err Invalid
                else
                  let params := match get invocation "parameters" with JArray l => l | _ => [] end in
                  match compile_params params with
                  | Err e => Err e
                  | Ok (mappings, types) =>
                      let path := stringField entry "path" in
                      let method :=
                        mkMethod 0 path (match get (ao_Spec normalized) "enabled" with JBool b => b | _ => false end) timeout
                          (stringField entry "method") (stringField entry "protocol")
                          (mkIntegration "dubbo" (stringField backend "clusterName") (stringField service "application") "dubbo"
                             (stringField service "group") (stringField service "version") (stringField service "interface")
                             (stringField invocation "method") types mappings) in
                      Ok (mkCompiled (mkResource 0 "restful" path timeout [] []) method)
                  end
            end
        | _, _, _, _ => Err Invalid
        end
  end.

End binding.

(** ** Defaults are applied once *)

Lemma FieldSchema_nested_ind (P : FieldSchema → Prop) :
  (∀ type required default enum pattern minimum properties items additional allow,
     Forall (λ x, P x.2) properties → (∀ f, items = Some f → P f) → (∀ f, additional = Some f → P f) →
     P (mkField type required default enum pattern minimum properties items additional allow)) →
  ∀ f, P f.
Proof.
  intros H. fix IH 1. intros [type required default enum pattern minimum properties items additional allow]. apply H.
  - induction properties as [|[name f] properties IHp]; constructor; [apply IH|exact IHp].
  - intros f. destruct items as [g|]; [|discriminate]. intros [= <-]. apply IH.
  - intros f. destruct additional as [g|]; [|discriminate]. intros [= <-]. apply IH.
Qed.

(** The properties of an object have names of their own, as the keys of a map do. *)
Fixpoint names_unique (f : FieldSchema) : bool :=
  let 'mkField _ _ _ _ _ _ properties items additional _ := f in
  bool_decide (NoDup properties.*1) && forallb (λ x, names_unique x.2) properties &&
  match items with Some f => names_unique f | None => true end &&
  match additional with Some f => names_unique f | None => true end.

Lemma applyDefaults_nil v f : applyDefaultsToValue v f = JNil ↔ v = JNil.
Proof.
  destruct f as [type required default enum pattern minimum properties items additional allow]. simpl.
  repeat case_bool_decide; destruct v, items, additional; naive_solver.
Qed.

(** The value of a field before the defaults below it. *)
Definition filled (values : gmap string any) (name : string) (f : FieldSchema) : any :=
  if bool_decide (get values name = JNil) then f_Default f else get values name.

Lemma default_step_other values name f m :
  m ≠ name → default_step applyDefaultsToValue values (name, f) !! m = values !! m.
Proof. intros Hm. unfold default_step. fold (filled values name f). case_bool_decide; [done|]. by rewrite lookup_insert_ne. Qed.

Lemma defaults_other values fields m : m ∉ fields.*1 → applyDefaultsToFields values fields !! m = values !! m.
Proof.
  unfold applyDefaultsToFields. revert values. induction fields as [|[name f] fields IH]; intros values Hm; [done|].
  cbn [foldl]. rewrite IH by set_solver. apply default_step_other. set_solver.
Qed.

Lemma defaults_field values fields name f :
  NoDup fields.*1 → (name, f) ∈ fields →
  applyDefaultsToFields values fields !! name =
    if bool_decide (filled values name f = JNil) then values !! name else Some (applyDefaultsToValue (filled values name f) f).
Proof.
  unfold applyDefaultsToFields. revert values. induction fields as [|[m g] fields IH]; intros values Hnd Hin; [by apply elem_of_nil in Hin|].
  cbn [foldl]. apply NoDup_cons in Hnd as [Hm Hnd]. apply elem_of_cons in Hin as [[= <- <-]|Hin].
  - fold (applyDefaultsToFields (default_step applyDefaultsToValue values (name, f)) fields). rewrite defaults_other by done.
    unfold default_step. fold (filled values name f). case_bool_decide; [done|]. by rewrite lookup_insert_eq.
  - assert (name ≠ m) as Hne by (intros ->; apply Hm; apply list_elem_of_fmap; by exists (m, f)).
    rewrite IH by done. assert (filled (default_step applyDefaultsToValue values (m, g)) name f = filled values name f) as ->.
    { unfold filled, get. by rewrite default_step_other. }
    by rewrite default_step_other.
Qed.

Lemma defaults_idemp_fields values fields :
  NoDup fields.*1 → Forall (λ x, ∀ v, applyDefaultsToValue (applyDefaultsToValue v x.2) x.2 = applyDefaultsToValue v x.2) fields →
  applyDefaultsToFields (applyDefaultsToFields values fields) fields = applyDefaultsToFields values fields.
Proof.
  intros Hnd HF. apply map_eq. intros m. destruct (decide (m ∈ fields.*1)) as [Hin|Hin]; [|by rewrite defaults_other].
  apply list_elem_of_fmap in Hin as ([name f] & -> & Hin). simpl. rewrite (defaults_field _ fields name f) by done.
  pose proof (defaults_field values fields name f Hnd Hin) as H1. rewrite Forall_forall in HF. specialize (HF _ Hin). simpl in HF.
  set (res := applyDefaultsToFields values fields) in *. destruct (decide (filled values name f = JNil)) as [Hv|Hv].
  - rewrite bool_decide_eq_true_2 in H1 by done. assert (filled res name f = JNil) as Hr.
    { unfold filled, get in *. by rewrite H1. }
    by rewrite bool_decide_eq_true_2.
  - rewrite bool_decide_eq_false_2 in H1 by done. assert (filled res name f = applyDefaultsToValue (filled values name f) f) as Hr.
    { unfold filled at 1, get. rewrite H1. simpl. rewrite bool_decide_eq_false_2; [done|]. by rewrite applyDefaults_nil. }
    rewrite Hr, H1, HF, bool_decide_eq_false_2; [done|]. by rewrite applyDefaults_nil.
Qed.

Lemma applyDefaults_idemp f v :
  names_unique f = true → applyDefaultsToValue (applyDefaultsToValue v f) f = applyDefaultsToValue v f.
Proof.
  revert v. induction f as [type required default enum pattern minimum properties items additional allow IHp IHi IHa] using FieldSchema_nested_ind.
  intros v. cbn [names_unique]. intros [[[Hnd%bool_decide_eq_true Hps]%andb_true_iff Hi]%andb_true_iff Ha]%andb_true_iff.
  cbn [applyDefaultsToValue]. case_bool_decide.
  { destruct v as [| | | | |m]; try done. f_equal. apply defaults_idemp_fields; [done|].
    rewrite forallb_forall in Hps. rewrite Forall_forall in IHp |- *. intros x Hx w. apply IHp; [done|]. apply Hps. by apply list_elem_of_In. }
  case_bool_decide.
  { destruct v, items as [g|]; try done. f_equal. rewrite <- list_fmap_compose. apply list_fmap_ext. intros i w _. by apply IHi. }
  case_bool_decide; [|done]. destruct v, additional as [g|]; try done. f_equal. rewrite <- map_fmap_compose. apply map_fmap_ext.
  intros i w _. by apply IHa.
Qed.

(** ** What an object without issues looks like *)

Lemma by_name_nil l : by_name l = [] ↔ ∀ x, x ∈ l → x.2 = [].
Proof.
  unfold by_name. rewrite concat_nil_Forall, Forall_fmap, Forall_forall. split.
  - intros H x Hx. apply H. by rewrite merge_sort_Permutation.
  - intros H x Hx. apply H. by rewrite merge_sort_Permutation in Hx.
Qed.

Section facts.
Context (MatchString : string → string → bool).

Lemma validateFields_nil path values fields allow :
  validateFields MatchString path values fields allow = [] →
  (∀ name f, (name, f) ∈ fields →
     match get values name with
     | JNil => f_Required f = true → f_Default f ≠ JNil
     | v => validateValue MatchString (joinPath path name) v f = []
     end) ∧
  (allow = false → ∀ name, is_Some (values !! name) → name ∈ fields.*1).
Proof.
  unfold validateFields, validateFieldsWith. intros [H1 H2]%app_nil. rewrite by_name_nil in H1. split.
  - intros name f Hin. specialize (H1 (field_issues (validateValue MatchString) path values (name, f))). simpl in H1.
    assert (field_issues (validateValue MatchString) path values (name, f) ∈ field_issues (validateValue MatchString) path values <$> fields)
      as Hin' by (by apply list_elem_of_fmap_2). specialize (H1 Hin').
    destruct (get values name); try done. intros Hr. rewrite Hr in H1. simpl in H1. by case_bool_decide.
  - intros -> name [v Hv]. destruct (decide (name ∈ fields.*1)) as [|Hn]; [done|]. exfalso.
    unfold validateUnknownFields in H2. rewrite by_name_nil in H2.
    specialize (H2 (name, [mkIssue (joinPath path name) "unknown"])). simpl in H2. discriminate H2.
    apply list_elem_of_fmap. exists (name, v). split; [done|]. apply list_elem_of_filter. split; [done|]. by apply elem_of_map_to_list.
Qed.

(** A field that must be there is there, and is valid. *)
Lemma field_present path values fields allow name f :
  validateFields MatchString path values fields allow = [] → (name, f) ∈ fields → f_Required f = true → f_Default f = JNil →
  get values name ≠ JNil ∧ validateValue MatchString (joinPath path name) (get values name) f = [].
Proof.
  intros [H _]%validateFields_nil Hin Hr Hd. specialize (H name f Hin). destruct (get values name) eqn:E; try done.
  by specialize (H Hr).
Qed.

(** A field that is there, is valid. *)
Lemma field_valid path values fields allow name f :
  validateFields MatchString path values fields allow = [] → (name, f) ∈ fields → get values name ≠ JNil →
  validateValue MatchString (joinPath path name) (get values name) f = [].
Proof. intros [H _]%validateFields_nil Hin Hn. specialize (H name f Hin). by destruct (get values name). Qed.

(** After the defaults, a field with a default is there. *)
Lemma field_defaulted values fields name f :
  NoDup fields.*1 → (name, f) ∈ fields → f_Default f ≠ JNil → get (applyDefaultsToFields values fields) name ≠ JNil.
Proof.
  intros Hnd Hin Hd. unfold get. rewrite (defaults_field values fields name f) by done.
  assert (filled values name f ≠ JNil) as Hf by (unfold filled; by case_bool_decide).
  rewrite bool_decide_eq_false_2 by done. simpl. by rewrite applyDefaults_nil.
Qed.

Lemma valid_object path v required fields :
  validateValue MatchString path v (object_field required fields) = [] →
  ∃ m, v = JObject m ∧ validateFields MatchString path m fields false = [].
Proof. destruct v; simpl; try done. intros H. by eexists. Qed.

Lemma valid_string path v required default enum pattern :
  validateValue MatchString path v (string_field required default enum pattern) = [] →
  ∃ s, v = JString s ∧ (pattern ≠ "" → MatchString pattern s = true) ∧ (enum ≠ [] → s ∈ enum).
Proof.
  destruct v; simpl; try done. intros H. eexists. split; [done|].
  destruct (negb (bool_decide (pattern = "")) && negb (MatchString pattern s)) eqn:E; [done|]. split.
  - intros Hp. rewrite bool_decide_eq_false_2 in E by done. simpl in E. by apply negb_false_iff in E.
  - intros He. unfold enum_issues in H. destruct (_ || _) eqn:E2; [|done]. apply orb_true_iff in E2 as [E2|E2].
    + apply bool_decide_eq_true in E2. by destruct enum.
    + apply bool_decide_eq_true, list_elem_of_fmap in E2 as (x & [= ->] & Hx). done.
Qed.

End facts.

(** ** Normalization with a schema *)

Lemma Normalize_inv MatchString r o o' :
  Normalize MatchString r o = Ok o' →
  ∃ s vs spec, lookupEntry r (ao_Kind o) = Some (s, vs) ∧ ao_Kind o' = ao_Kind o ∧ ao_Name o' = ao_Name o ∧
    ao_Spec o' = applyDefaultsToFields spec (os_Fields s) ∧ validateEnvelope o' = [] ∧
    validateFields MatchString "spec" (ao_Spec o') (os_Fields s) false = [] ∧ Forall (λ v, v o' = []) vs.
Proof.
  unfold Normalize. destruct (if bool_decide _ then _ else _) as [spec|]; [|done]. cbn [ao_Kind ao_Name].
  destruct (lookupEntry r (ao_Kind o)) as [[s vs]|] eqn:El; [|done].
  destruct (validateEnvelope _ ++ _) eqn:Ei; [|discriminate]. intros Ho. injection Ho as <-.
  apply app_nil in Ei as [E1 [E2 E3]%app_nil]. rewrite concat_nil_Forall, Forall_fmap in E3.
  exists s, vs, spec. by split_and!.
Qed.

Lemma Normalize_fixed MatchString r o s vs :
  lookupEntry r (ao_Kind o) = Some (s, vs) → validateEnvelope o = [] →
  (ao_Kind o = KindAdminRouteBinding →
     ∀ name, name ∈ ["publish"; "extensions"; "target"; "params"] → ao_Spec o !! name = None) →
  applyDefaultsToFields (ao_Spec o) (os_Fields s) = ao_Spec o →
  validateFields MatchString "spec" (ao_Spec o) (os_Fields s) false = [] → Forall (λ v, v o = []) vs →
  Normalize MatchString r o = Ok o.
Proof.
  intros Hk He Hn Hd Hf Hv. unfold Normalize.
  assert ((if bool_decide (ao_Kind o = KindAdminRouteBinding)
    then migrateLegacyRouteBindingSpec (delete "publish" (ao_Spec o)) else Ok (ao_Spec o)) = Ok (ao_Spec o)) as ->.
  { case_bool_decide as HK; [|done]. specialize (Hn HK).
    rewrite delete_id by (apply Hn; set_solver). unfold migrateLegacyRouteBindingSpec, removeEmptyLegacyExtensions.
    rewrite (Hn "extensions") by set_solver. unfold hasLegacyRouteBindingFields.
    rewrite (Hn "target"), (Hn "params") by set_solver. done. }
  cbn [ao_Kind ao_Name]. rewrite Hk, Hd. replace (mkObject (ao_Kind o) (ao_Name o) (ao_Spec o)) with o by (by destruct o).
  rewrite He, Hf. replace (concat ((λ v, v o) <$> vs)) with ([] : list ValidationIssue); [done|].
  symmetry. apply concat_nil_Forall. by rewrite Forall_fmap.
Qed.

(** ** The built-in registry *)

#[local] Arguments applyDefaultsToFields : simpl never.
#[local] Arguments validateFields : simpl never.
#[local] Arguments validateAdminRouteBinding : simpl never.
#[local] Arguments validateSchemaDefinition : simpl never.
#[local] Arguments validateEnvelope : simpl never.
#[local] Arguments lookupEntry : simpl never.

Section builtin.
Context (MatchString : string → string → bool) (Compile : string → bool).
Context (ParseDuration : string → option Z) (int_of : Qc → Z).
Context (patterns_compile : Compile pathPattern = true ∧ Compile fromPattern = true).

Definition builtin : Registry :=
  mkRegistry {[ KindAdminRouteBinding := adminRouteBindingSchema ]}
    {[ KindAdminRouteBinding := [validateAdminRouteBinding ParseDuration int_of] ]}.

Lemma builtin_schema_valid : validateSchemaDefinition Compile adminRouteBindingSchema = true.
Proof.
  destruct patterns_compile as [H1 H2]. unfold validateSchemaDefinition. cbn -[TrimSpace.TrimSpace]. rewrite H1, H2. vm_compute. reflexivity.
Qed.

Lemma new_builtin_registry : NewBuiltinRegistry Compile ParseDuration int_of = Ok builtin.
Proof.
  unfold NewBuiltinRegistry, RegisterBuiltinSchemas, Register. rewrite builtin_schema_valid. cbn [negb schemas NewRegistry].
  change (TrimSpace.TrimSpace (os_Kind adminRouteBindingSchema)) with (TrimSpace.TrimSpace KindAdminRouteBinding).
  replace (TrimSpace.TrimSpace KindAdminRouteBinding) with KindAdminRouteBinding by (vm_compute; reflexivity).
  rewrite lookup_empty. simpl. unfold RegisterValidator.
  replace (TrimSpace.TrimSpace KindAdminRouteBinding) with KindAdminRouteBinding by (vm_compute; reflexivity).
  simpl. rewrite lookup_insert_eq, lookup_empty. simpl. by rewrite insert_empty.
Qed.

Lemma builtin_lookup kind s vs :
  lookupEntry builtin kind = Some (s, vs) →
  s = adminRouteBindingSchema ∧ vs = [validateAdminRouteBinding ParseDuration int_of].
Proof.
  unfold lookupEntry. simpl. destruct (decide (TrimSpace.TrimSpace kind = KindAdminRouteBinding)) as [->|Hne].
  - rewrite !lookup_singleton_eq. simpl. intros H. by simplify_eq.
  - rewrite !lookup_singleton_ne by congruence. done.
Qed.

Lemma schema_names : NoDup (os_Fields adminRouteBindingSchema).*1 ∧
  forallb (λ x, names_unique x.2) (os_Fields adminRouteBindingSchema) = true.
Proof. split; [apply (bool_decide_unpack _)|]; vm_compute; done. Qed.

Definition spec_fields : list (string * FieldSchema) := os_Fields adminRouteBindingSchema.

Lemma spec_defaults_idemp spec :
  applyDefaultsToFields (applyDefaultsToFields spec spec_fields) spec_fields = applyDefaultsToFields spec spec_fields.
Proof.
  destruct schema_names as [Hnd Hu]. apply defaults_idemp_fields; [done|]. rewrite forallb_forall in Hu. apply Forall_forall.
  intros x Hx v. apply applyDefaults_idemp. by apply Hu, list_elem_of_In.
Qed.

(** What [Normalize] returns. *)
Record normalized (o' : AdminObject) : Prop := {
  nz_kind : lookupEntry builtin (ao_Kind o') = Some (adminRouteBindingSchema, [validateAdminRouteBinding ParseDuration int_of]);
  nz_envelope : validateEnvelope o' = [];
  nz_defaults : applyDefaultsToFields (ao_Spec o') spec_fields = ao_Spec o';
  nz_fields : validateFields MatchString "spec" (ao_Spec o') spec_fields false = [];
  nz_validator : validateAdminRouteBinding ParseDuration int_of o' = [];
}.

Lemma Normalize_normalized o o' : Normalize MatchString builtin o = Ok o' → normalized o' ∧ ao_Kind o' = ao_Kind o ∧ ao_Name o' = ao_Name o.
Proof.
  intros (s & vs & spec & Hl & Hk & Hn & Hs & He & Hf & Hv)%Normalize_inv. destruct (builtin_lookup _ _ _ Hl) as [Es Ev].
  rewrite Es in Hl, Hs, Hf. rewrite Ev in Hl, Hv. split; [|done]. split.
  - by rewrite Hk.
  - exact He.
  - rewrite Hs. apply spec_defaults_idemp.
  - exact Hf.
  - by apply Forall_cons in Hv as [Hv _].
Qed.

Lemma normalized_Normalize o : normalized o → Normalize MatchString builtin o = Ok o.
Proof.
  intros [Hk He Hd Hf Hv]. eapply Normalize_fixed; [exact Hk|exact He| |exact Hd|exact Hf|by apply Forall_singleton].
  intros _ name Hin. apply validateFields_nil in Hf as [_ Hf]. specialize (Hf eq_refl name).
  destruct (ao_Spec o !! name) eqn:E; [|done]. exfalso. assert (name ∉ spec_fields.*1) as Hn; [|by apply Hn, Hf].
  clear Hf E. revert name Hin. apply Forall_forall. repeat constructor; by apply (bool_decide_unpack _).
Qed.

(** ** The interface to the store *)

#[global] Instance admin_registry : ObjectRegistry AdminObject := {
  obj_Name := ao_Name;
  set_Name n o := mkObject (ao_Kind o) n (ao_Spec o);
  registry_Normalize o := match Normalize MatchString builtin o with Ok o' => Some o' | Err _ => None end;
  CompileAdminRouteBinding o :=
    match Compile_AdminRouteBinding MatchString ParseDuration int_of builtin o with Ok c => Some c | Err _ => None end;
}.

#[global] Instance admin_registry_laws : ObjectRegistryLaws AdminObject.
Proof.
  split; [done|by intros []|]. intros o o' n. simpl. destruct (Normalize MatchString builtin o) as [x|] eqn:E; [|done].
  intros [= ->] Hn. destruct (Normalize_normalized _ _ E) as ([Hk He Hd Hf Hv] & _ & _).
  rewrite normalized_Normalize; [done|]. split; try done. unfold validateEnvelope in *. simpl.
  apply app_nil in He as [-> _]. simpl. case_bool_decide as Ht; [|done]. exfalso.
  apply normalize_name_idemp in Hn. unfold normalizeRouteBindingName in Hn. rewrite Ht in Hn. done.
Qed.

End builtin.

(** ** Valid bindings compile

    The indexes of the parameters are those of the types, so that the compiler
    never writes out of range. *)

Section compiles.
Context (int_of : Qc → Z).

(** The index and the type of a parameter. *)
Definition param_to (p : any) : Z := int_of (default 0%Qc (numericValue (get (as_object p) "to"))).
Definition param_type (p : any) : string := stringField (as_object p) "type".

Definition is_param (p : any) : Prop := ∃ m q, p = JObject m ∧ get m "to" = JNumber q.


Lemma params_seen params index pathParams s :
  Forall is_param params → seen_issues (validate_params int_of index params pathParams s) = [] →
  seen_issues s = [] ∧ NoDup (param_to <$> params) ∧ (∀ t, t ∈ param_to <$> params → seenIndexes s !! t = None) ∧
  ∀ t, is_Some (seenIndexes (validate_params int_of index params pathParams s) !! t) ↔
    is_Some (seenIndexes s !! t) ∨ t ∈ param_to <$> params.
Proof.
  revert index s. induction params as [|p params IH]; intros index s HF; cbn [validate_params].
  { intros Hs. split_and!; [done|constructor|set_solver|]. intros t. set_solver. }
  apply Forall_cons in HF as [(m & q & -> & Hq) HF]. intros Hs.
  destruct (IH _ _ HF Hs) as (H1 & H2 & H3 & H4). assert (param_to (JObject m) = int_of q) as Hto.
  { unfold param_to. simpl. by rewrite Hq. }
  unfold validateRouteBindingParameter in *. rewrite Hq in *. cbn [numericValue] in *. case_bool_decide as Hdup.
  { exfalso. revert H1. destruct (match get m "from" with JString _ => _ | _ => _ end). simpl. by intros [_ [=]]%app_nil. }
  destruct (match get m "from" with JString _ => _ | _ => _ end) as [used more]. cbn [seen_issues seenIndexes] in *.
  rewrite fmap_cons, Hto. split_and!.
  - by apply app_nil in H1 as [? _].
  - constructor; [|done]. intros Hin. specialize (H3 _ Hin). by rewrite lookup_insert_eq in H3.
  - intros t [->|Ht]%elem_of_cons; [by apply eq_None_not_Some|]. specialize (H3 t Ht). by apply lookup_insert_None in H3 as [? _].
  - intros t. rewrite H4. destruct (decide (t = int_of q)) as [->|Hne].
    + rewrite lookup_insert_eq. split; [right; set_solver|by left; eexists].
    + rewrite lookup_insert_ne by done. rewrite elem_of_cons. naive_solver.
Qed.

Lemma params_contiguous params pathParams :
  Forall is_param params → validateRouteBindingParameters int_of params pathParams = [] →
  param_to <$> params ≡ₚ Z.of_nat <$> seq 0 (length params).
Proof.
  intros HF [H1 [_ H3]%app_nil]%app_nil. destruct (params_seen _ _ _ _ HF H1) as (_ & Hnd & _ & Hkeys).
  symmetry. apply submseteq_length_Permutation; [|by rewrite !length_fmap, length_seq].
  apply NoDup_submseteq; [apply (NoDup_fmap_2 Z.of_nat), NoDup_seq|].
  intros t (i & -> & Hi)%list_elem_of_fmap. destruct (proj1 (Hkeys (Z.of_nat i))) as [[x Hx]|Hin]; [|simpl in Hx; by apply lookup_empty_Some in Hx|done].
  apply not_eq_None_Some. intros Hn. unfold validateContiguousParameterIndexes in H3. apply fmap_nil_inv in H3.
  assert (i ∈ filter (λ expected : nat, seenIndexes (validate_params int_of 0 params pathParams (mkSeen ∅ ∅ [])) !! Z.of_nat expected = None)
    (seq 0 (length params))) as Hf by (by apply list_elem_of_filter).
  rewrite H3 in Hf. by apply elem_of_nil in Hf.
Qed.

Lemma compile_loop_ok len params mappings types :
  length types = len → NoDup (param_to <$> params) → Forall (λ p, 0 ≤ param_to p < Z.of_nat len)%Z params →
  ∃ types', foldl (compile_param int_of len) (Ok (mappings, types)) params =
      Ok (mappings ++ ((λ p, mkMappingParam (stringField (as_object p) "from") (pretty (param_to p)) (param_type p)) <$> params), types') ∧
    length types' = len ∧ (∀ p, p ∈ params → types' !! Z.to_nat (param_to p) = Some (param_type p)) ∧
    ∀ i, Z.of_nat i ∉ param_to <$> params → types' !! i = types !! i.
Proof.
  revert mappings types. induction params as [|p params IH]; intros mappings types Hl Hnd HF.
  { exists types. rewrite app_nil_r. split_and!; try done. intros p Hp. by apply elem_of_nil in Hp. }
  apply NoDup_cons in Hnd as [Hp Hnd]. apply Forall_cons in HF as [Hr HF]. cbn [foldl]. unfold compile_param at 2.
  fold (param_to p). fold (param_type p). rewrite bool_decide_eq_true_2 by done.
  destruct (IH (mappings ++ [mkMappingParam (stringField (as_object p) "from") (pretty (param_to p)) (param_type p)])
    (<[Z.to_nat (param_to p) := param_type p]> types)) as (types' & He & Hl' & Hin & Hout); [by rewrite length_insert|done|done|].
  exists types'. split_and!.
  - rewrite He. f_equal. by rewrite <- List.app_assoc.
  - done.
  - intros x [->|Hx]%elem_of_cons; [|by apply Hin]. rewrite Hout by (by rewrite Z2Nat.id by lia).
    apply list_lookup_insert_eq. lia.
  - intros i Hi. rewrite Hout by set_solver. apply list_lookup_insert_ne. intros Heq. apply Hi. rewrite fmap_cons.
    apply elem_of_cons. left. lia.
Qed.

(** The path parameters that the parameters of the call use. *)
Lemma params_used params index pathParams s name :
  is_Some (usedPathParams (validate_params int_of index params pathParams s) !! name) →
  is_Some (usedPathParams s !! name) ∨ ∃ p, p ∈ params ∧ stringField (as_object p) "from" = "uri." +:+ name.
Proof.
  revert index s. induction params as [|p params IH]; intros index s; cbn [validate_params]; [by left|].
  assert (∀ s', (is_Some (usedPathParams s' !! name) → is_Some (usedPathParams s !! name) ∨ stringField (as_object p) "from" = "uri." +:+ name) →
    is_Some (usedPathParams (validate_params int_of (S index) params pathParams s') !! name) →
    is_Some (usedPathParams s !! name) ∨ ∃ x, x ∈ p :: params ∧ stringField (as_object x) "from" = "uri." +:+ name) as Hstep.
  { intros s' Hs' H. destruct (IH _ _ H) as [H'|(x & Hx & He)]; [|right; exists x; set_solver].
    destruct (Hs' H') as [?|?]; [by left|right; exists p; set_solver]. }
  destruct p as [| | | | |m]; try (apply Hstep; by left). apply Hstep. clear Hstep IH. unfold validateRouteBindingParameter.
  destruct (numericValue _) as [q|]; [|by left].
  destruct (if bool_decide (is_Some (seenIndexes s !! int_of q)) then _ else _). unfold stringField. cbn [as_object].
  destruct (get m "from") as [| | |source| |] eqn:Hfrom; try (by left). unfold validatePathParameterSource.
  destruct (Strings.HasPrefix source "uri.") eqn:Hp; [|by left]. case_bool_decide; [|by left]. cbn [negb].
  case_bool_decide; [by left|]. simpl. destruct (decide (name = Strings.TrimPrefix source "uri.")) as [->|Hne].
  - right. by apply HasPrefix_exists in Hp as [t ->].
  - rewrite lookup_insert_ne by done. by left.
Qed.

Lemma path_params_mapped params pathParams name :
  validateRouteBindingParameters int_of params pathParams = [] → name ∈ pathParams →
  ∃ p, p ∈ params ∧ stringField (as_object p) "from" = "uri." +:+ name.
Proof.
  intros [_ [H2 _]%app_nil]%app_nil Hin. destruct (params_used params 0 pathParams (mkSeen ∅ ∅ []) name) as [[x Hx]|?]; [| |done].
  - apply not_eq_None_Some. intros Hn. apply fmap_nil_inv in H2.
    assert (name ∈ filter (λ name, usedPathParams (validate_params int_of 0 params pathParams (mkSeen ∅ ∅ [])) !! name = None) (elements pathParams))
      as Hf by (apply list_elem_of_filter; by rewrite elem_of_elements). rewrite H2 in Hf. by apply elem_of_nil in Hf.
  - simpl in Hx. by apply lookup_empty_Some in Hx.
Qed.

End compiles.

(** ** A valid binding compiles to a sound route *)

Definition verbs : list string := ["GET"; "POST"; "PUT"; "PATCH"; "DELETE"; "OPTIONS"; "HEAD"].

(** Every argument of the call has a supported type and the one mapping of its
    index and its type, and every parameter of the path is mapped. *)
Record sound_route (MatchString : string → string → bool) (c : CompiledRoute) : Prop := {
  sr_path : MatchString pathPattern (me_ResourcePath (cr_Method c)) = true;
  sr_resource : rs_Path (cr_Resource c) = me_ResourcePath (cr_Method c);
  sr_verb : me_HTTPVerb (cr_Method c) ∈ verbs;
  sr_timeout : (0 < me_Timeout (cr_Method c))%Z;
  sr_types : Forall (.∈ supportedDubboParamTypes) (ir_ParameterTypes (me_IntegrationRequest (cr_Method c)));
  sr_indexes : mp_MapTo <$> ir_MappingParams (me_IntegrationRequest (cr_Method c)) ≡ₚ
    (λ i, pretty (Z.of_nat i)) <$> seq 0 (length (ir_ParameterTypes (me_IntegrationRequest (cr_Method c))));
  sr_arguments : ∀ p, p ∈ ir_MappingParams (me_IntegrationRequest (cr_Method c)) →
    ∃ i : nat, mp_MapTo p = pretty (Z.of_nat i) ∧ ir_ParameterTypes (me_IntegrationRequest (cr_Method c)) !! i = Some (mp_MapType p);
  sr_uri : ∀ name, name ∈ routePathParameters (me_ResourcePath (cr_Method c)) →
    ∃ p, p ∈ ir_MappingParams (me_IntegrationRequest (cr_Method c)) ∧ mp_Name p = "uri." +:+ name;
}.

Section total.
Context (MatchString : string → string → bool) (ParseDuration : string → option Z) (int_of : Qc → Z).

#[local] Abbreviation builtin := (builtin ParseDuration int_of).
#[local] Abbreviation normalized := (normalized MatchString ParseDuration int_of).

Lemma valid_items path l required default items :
  validateValue MatchString path (JArray l) (mkField "array" required default [] "" None [] (Some items) None false) = [] →
  Forall (λ x, ∃ path', validateValue MatchString path' x items = []) l.
Proof.
  simpl. rewrite concat_nil_Forall, Forall_lookup. intros H. apply Forall_lookup. intros i x Hx. eexists. apply (H i).
  by rewrite list_lookup_imap, Hx.
Qed.

Lemma valid_array path v required default items :
  validateValue MatchString path v (mkField "array" required default [] "" None [] (Some items) None false) = [] → ∃ l, v = JArray l.
Proof. destruct v; simpl; try done. by eexists. Qed.

Lemma valid_integer path v required default minimum :
  validateValue MatchString path v (mkField "integer" required default [] "" minimum [] None None false) = [] → ∃ q, v = JNumber q.
Proof. destruct v; simpl; try done. by eexists. Qed.

Lemma present_at i path values fields allow name f :
  validateFields MatchString path values fields allow = [] → fields !! i = Some (name, f) → f_Required f = true → f_Default f = JNil →
  validateValue MatchString (joinPath path name) (get values name) f = [].
Proof. intros H Hi Hr Hd. by apply (field_present _ _ _ _ _ _ _ H (list_elem_of_lookup_2 _ _ _ Hi)). Qed.

Lemma defaulted_at i path values fields allow name f :
  validateFields MatchString path values fields allow = [] → NoDup fields.*1 → applyDefaultsToFields values fields = values →
  fields !! i = Some (name, f) → f_Default f ≠ JNil →
  validateValue MatchString (joinPath path name) (get values name) f = [].
Proof.
  intros H Hnd He Hi Hd. apply list_elem_of_lookup_2 in Hi. apply (field_valid _ _ _ _ _ _ _ H Hi). rewrite <- He.
  by eapply field_defaulted.
Qed.

(** A parameter that its schema accepts. *)
Lemma valid_param path p :
  validateValue MatchString path p parameter_schema = [] → is_param p ∧ param_type p ∈ supportedDubboParamTypes.
Proof.
  intros (m & -> & Hm)%valid_object.
  pose proof (present_at 1 _ _ _ _ _ _ Hm eq_refl eq_refl eq_refl) as Hto.
  pose proof (present_at 2 _ _ _ _ _ _ Hm eq_refl eq_refl eq_refl) as Hty.
  apply valid_integer in Hto as [q Hq]. apply valid_string in Hty as (t & Ht & _ & Hin).
  split; [by eexists _, _|]. unfold param_type, stringField. cbn [as_object]. rewrite Ht. by apply Hin.
Qed.

(** An object at a required field, with its own fields and defaults. *)
Lemma object_at i path values fields name properties :
  validateFields MatchString path values fields false = [] → NoDup fields.*1 → applyDefaultsToFields values fields = values →
  fields !! i = Some (name, object_field true properties) →
  ∃ m, get values name = JObject m ∧ validateFields MatchString (joinPath path name) m properties false = [] ∧
    applyDefaultsToFields m properties = m.
Proof.
  intros H Hnd He Hi. destruct (valid_object _ _ _ _ _ (present_at _ _ _ _ _ _ _ H Hi eq_refl eq_refl)) as (m & Hm & Hf).
  exists m. split_and!; [done..|]. pose proof (defaults_field values fields name _ Hnd (list_elem_of_lookup_2 _ _ _ Hi)) as Hd.
  rewrite He in Hd. unfold filled in Hd. rewrite Hm in Hd. rewrite !bool_decide_eq_false_2 in Hd by done.
  unfold get in Hm. rewrite Hd in Hm. cbn [default from_option id] in Hm. by injection Hm.
Qed.

(** What the compiler reads of a normalized binding. *)
Record binding_parts (spec entry backend service invocation : gmap string any) (path verb : string) (timeout : Z) (params : list any) : Prop := {
  bp_entry : get spec "entry" = JObject entry;
  bp_backend : get spec "backendRef" = JObject backend;
  bp_service : get spec "serviceSelection" = JObject service;
  bp_invocation : get spec "invocation" = JObject invocation;
  bp_path : stringField entry "path" = path;
  bp_pattern : MatchString pathPattern path = true;
  bp_method : stringField entry "method" = verb;
  bp_verb : verb ∈ verbs;
  bp_timeout : ParseDuration (stringField invocation "timeout") = Some timeout;
  bp_positive : (0 < timeout)%Z;
  bp_params : get invocation "parameters" = JArray params;
  bp_shapes : Forall (λ p, is_param p ∧ param_type p ∈ supportedDubboParamTypes) params;
  bp_valid : validateRouteBindingParameters int_of params (routePathParameters path) = [];
}.

Lemma valid_timeout service invocation :
  validateRouteBindingService ParseDuration service invocation = [] →
  ∃ timeout, ParseDuration (stringField invocation "timeout") = Some timeout ∧ (0 < timeout)%Z.
Proof.
  intros [_ [_ H]%app_nil]%app_nil. destruct (ParseDuration _) as [d|]; [|done]. case_bool_decide; [done|]. exists d. split; [done|lia].
Qed.

Lemma entry_names : NoDup entry_fields.*1.
Proof. apply (bool_decide_unpack _). vm_compute. done. Qed.
Lemma invocation_names : NoDup invocation_fields.*1.
Proof. apply (bool_decide_unpack _). vm_compute. done. Qed.

Lemma normalized_parts o : normalized o → ∃ entry backend service invocation path verb timeout params,
  binding_parts (ao_Spec o) entry backend service invocation path verb timeout params.
Proof.
  intros [_ _ Hd Hf Hv]. destruct schema_names as [Hnd _].
  destruct (object_at 0 _ _ _ _ _ Hf Hnd Hd eq_refl) as (entry & He & Hfe & Hde).
  destruct (object_at 1 _ _ _ _ _ Hf Hnd Hd eq_refl) as (backend & Hb & _).
  destruct (object_at 2 _ _ _ _ _ Hf Hnd Hd eq_refl) as (service & Hs & _).
  destruct (object_at 3 _ _ _ _ _ Hf Hnd Hd eq_refl) as (invocation & Hi & Hfi & Hdi).
  destruct (valid_string _ _ _ _ _ _ _ (defaulted_at 1 _ _ _ _ _ _ Hfe entry_names Hde eq_refl ltac:(done)))
    as (path & Hpath & Hpat & _).
  destruct (valid_string _ _ _ _ _ _ _ (defaulted_at 2 _ _ _ _ _ _ Hfe entry_names Hde eq_refl ltac:(done)))
    as (verb & Hverb & _ & Henum).
  pose proof (defaulted_at 2 _ _ _ _ _ _ Hfi invocation_names Hdi eq_refl ltac:(done)) as Hp.
  destruct (valid_array _ _ _ _ _ Hp) as [params Hparams]. rewrite Hparams in Hp. apply valid_items in Hp.
  unfold validateAdminRouteBinding in Hv. rewrite He, Hs, Hi in Hv. cbn [as_object] in Hv. rewrite Hparams in Hv.
  apply app_nil in Hv as [(timeout & Ht & Hpos)%valid_timeout Hv]. replace (stringField entry "path") with path in Hv by (unfold stringField; by rewrite Hpath).
  exists entry, backend, service, invocation, path, verb, timeout, params. split; try done.
  - unfold stringField. by rewrite Hpath.
  - by apply Hpat.
  - unfold stringField. by rewrite Hverb.
  - by apply Henum.
  - eapply Forall_impl; [exact Hp|]. intros x [path' Hx]. by eapply valid_param.
Qed.

(** The types that the compiler collects. *)
Lemma compile_params_ok params :
  Forall (λ p, is_param p ∧ param_type p ∈ supportedDubboParamTypes) params →
  param_to int_of <$> params ≡ₚ Z.of_nat <$> seq 0 (length params) →
  ∃ types, compile_params int_of params =
      Ok ((λ p, mkMappingParam (stringField (as_object p) "from") (pretty (param_to int_of p)) (param_type p)) <$> params, types) ∧
    length types = length params ∧ Forall (.∈ supportedDubboParamTypes) types ∧
    ∀ p, p ∈ params → (0 ≤ param_to int_of p)%Z ∧ types !! Z.to_nat (param_to int_of p) = Some (param_type p).
Proof.
  intros Hs Hperm.
  assert (Forall (λ p, 0 ≤ param_to int_of p < Z.of_nat (length params))%Z params) as Hrange.
  { apply Forall_forall. intros p Hp. apply (list_elem_of_fmap_2 (param_to int_of)) in Hp. rewrite Hperm in Hp.
    apply list_elem_of_fmap in Hp as (i & -> & Hi%elem_of_seq). lia. }
  destruct (compile_loop_ok int_of (length params) params [] (replicate (length params) "")) as (types & He & Hl & Hin & _).
  - apply length_replicate.
  - rewrite Hperm. apply (NoDup_fmap_2 Z.of_nat), NoDup_seq.
  - done.
  - exists types. rewrite Forall_forall in Hrange. split_and!; [exact He|done| |intros p Hp; split; [by apply Hrange|by apply Hin]].
    apply Forall_lookup. intros i t Ht. assert (Z.of_nat i ∈ param_to int_of <$> params) as Hi.
    { rewrite Hperm. apply list_elem_of_fmap_2, elem_of_seq. apply lookup_lt_Some in Ht. lia. }
    apply list_elem_of_fmap in Hi as (p & Hip & Hp). specialize (Hin p Hp). rewrite <- Hip, Nat2Z.id in Hin.
    rewrite Forall_forall in Hs. destruct (Hs p Hp) as [_ Hty]. by simplify_eq.
Qed.

(** C19: a binding that the registry normalizes compiles, without an index out of
    range, to a route whose path matches the pattern of paths, whose verb is one
    of the verbs and whose timeout is positive; every argument of the call has a
    supported type and one mapping, and every parameter of the path is mapped. *)
Theorem compile_total o o' :
  Normalize MatchString builtin o = Ok o' → ao_Kind o = KindAdminRouteBinding →
  ∃ c, Compile_AdminRouteBinding MatchString ParseDuration int_of builtin o' = Ok c ∧ sound_route MatchString c.
Proof.
  intros (Hn & Hk & _)%Normalize_normalized Hkind.
  destruct (normalized_parts _ Hn) as (entry & backend & service & invocation & path & verb & timeout & params & B).
  destruct B as [He Hb Hs Hi Hpath Hpat Hm Hverb Ht Hpos Hp Hshapes Hval].
  assert (Forall is_param params) as Hip by (eapply Forall_impl; [exact Hshapes|by intros ? [? _]]).
  pose proof (params_contiguous _ _ _ Hip Hval) as Hperm.
  destruct (compile_params_ok params Hshapes Hperm) as (types & Hc & Hl & Hty & Hin).
  unfold Compile_AdminRouteBinding. rewrite (normalized_Normalize _ _ _ _ Hn), bool_decide_eq_true_2 by congruence.
  unfold objectField. rewrite He, Hb, Hs, Hi. cbn [negb]. rewrite Ht, bool_decide_eq_false_2 by lia. rewrite Hp, Hc, Hpath, Hm.
  eexists. split; [reflexivity|]. split; cbn; try done.
  - rewrite Hl, <- list_fmap_compose. change (λ i : nat, pretty (Z.of_nat i)) with (pretty ∘ Z.of_nat).
    rewrite (list_fmap_compose Z.of_nat), <- Hperm, <- list_fmap_compose. done.
  - intros x (p & -> & Hx)%list_elem_of_fmap. destruct (Hin p Hx) as [Hpos' Hlook]. exists (Z.to_nat (param_to int_of p)).
    simpl. rewrite Z2Nat.id by done. done.
  - intros name Hname. destruct (path_params_mapped int_of params (routePathParameters path) name Hval Hname) as (p & Hx & Hfrom).
    eexists. split; [by apply list_elem_of_fmap_2|done].
Qed.

End total.
