(* ===== verification/RouteScenarios.v ===== *)
(** * Runs of the route binding store

    The store over the registry of [AdminSchema], with sample functions for the
    regular expressions and the durations it uses.  The runs show the
    theorems of [RouteStoreInv] at work: two administrators publish routes,
    a third one rolls one back. *)

From Stdlib Require Import QArith.Qcanon.
From stdpp Require Import base gmap list strings pretty sorting.
From S2P Require Import Prelude GoStrings McpCatalog Etcd AdminRoute RouteStore RouteStoreInv AdminSchema.

(** ** A registry and a server *)

Definition sampleMatch (pattern s : string) : bool :=
  if bool_decide (pattern = pathPattern) then Strings.HasPrefix s "/"
  else existsb (Strings.HasPrefix s) ["uri."; "queryStrings."; "headers."; "requestBody."].

Definition sampleDuration (s : string) : option Z := if bool_decide (s = "1s") then Some 1000000000%Z else None.
Definition sampleInt (q : Qc) : Z := (QArith_base.Qnum q ÷ Z.pos (QArith_base.Qden q))%Z.

#[local] Instance sample_registry : ObjectRegistry AdminObject := admin_registry sampleMatch sampleDuration sampleInt.
#[local] Instance sample_laws : ObjectRegistryLaws AdminObject := admin_registry_laws sampleMatch sampleDuration sampleInt.

#[local] Instance sample_server : Server (value AdminObject) := reference_server.
#[local] Instance sample_server_laws : ServerLaws (value AdminObject) sample_server := reference_laws.

Definition fields (l : list (string * any)) : any := JObject (list_to_map l).

(** A binding of a path to a method without arguments. *)
Definition binding (name path method : string) (params : list any) : AdminObject :=
  mkObject KindAdminRouteBinding name (list_to_map
    [("entry", fields [("path", JString path)]); ("backendRef", fields []);
     ("serviceSelection", fields [("application", JString "shop"); ("interface", JString "com.shop.Orders")]);
     ("invocation", fields [("method", JString method); ("parameters", JArray params)])]).

Definition orders : AdminObject := binding "orders" "/orders" "list" [].
Definition items : AdminObject := binding "items" "/items" "list" [].
Definition order : AdminObject := binding "order" "/orders/:id" "get"
  [fields [("from", JString "queryStrings.lang"); ("to", JNumber 1%Qc); ("type", JString "string")];
   fields [("from", JString "uri.id"); ("to", JNumber 0%Qc); ("type", JString "long")]].

(** ** Runs *)

Definition root : string := "/pixiu".
Definition empty : etcd (value AdminObject) := mkEtcd 0 ∅.

#[local] Abbreviation reply := (@answer AdminObject).
#[local] Abbreviation act := (action (value AdminObject) reply).

Definition sample_client : call → prog (value AdminObject) reply := client (λ s, s) (λ s, s) map_to_list root.

(** All clients start; then the clients named make one request each, in this order. *)
Definition session (cs : list call) (turns : list nat) : list act :=
  (Start <$> (sample_client <$> cs)) ++ ((λ i, Step i Answered) <$> turns).

(** Client [i] makes its next [k] requests. *)
Definition turn (i k : nat) : list nat := replicate k i.

(** Two administrators save and publish a route each, and their requests
    alternate; the one whose publication fails repeats it. *)
Definition two_publish : list act :=
  session [CSave orders true 0; CSave items true 0; CPublish "orders" 0; CPublish "items" 0; CPublish "items" 0]
    (concat (replicate 12 [0; 1]) ++ concat (replicate 12 [2; 3]) ++ turn 4 12).

(** One administrator rolls a route back; another one updates the draft
    between the two halves of this. *)
Definition orders_next : AdminObject := binding "orders" "/orders" "page" [].
Definition orders_wip : AdminObject := binding "orders" "/orders" "experimental" [].

Definition rollback_race : list act :=
  session [CSave orders true 0; CPublish "orders" 0; CUpdate "orders" orders_next 2; CPublish "orders" 0;
           CRollback "orders" 1 4 false; CUpdate "orders" orders_wip 6]
    (turn 0 12 ++ turn 1 12 ++ turn 2 12 ++ turn 3 12 ++ turn 4 3 ++ turn 5 12 ++ turn 4 30).

Definition rollback_quiet : list act :=
  session [CSave orders true 0; CPublish "orders" 0; CUpdate "orders" orders_next 2; CPublish "orders" 0; CRollback "orders" 1 4 false]
    (turn 0 12 ++ turn 1 12 ++ turn 2 12 ++ turn 3 12 ++ turn 4 30).

(** The method of the service that the published route calls. *)
Definition published_method (e : etcd (value AdminObject)) (name : string) : option string :=
  match value_at root e (KBinding false name) with
  | Some (VBinding r) =>
      (λ c, ir_Method (me_IntegrationRequest (cr_Method c))) <$> CompileAdminRouteBinding (rb_Object r)
  | _ => None
  end.

Definition has_published (p : prog (value AdminObject) reply) : bool :=
  match p with Ret (APublished (Ok _)) => true | _ => false end.

(** Alone, a rollback publishes what the history has. *)
Lemma rollback_alone :
  let s := run empty rollback_quiet in
  has_published <$> s.2 !! 4 = Some true ∧ published_method s.1 "orders" = Some "list".
Proof. vm_compute. done. Qed.

(** A rollback saves the old version as a draft and reads the draft back.  An
    update of the draft in between is published instead: the rollback succeeds,
    and neither the old version nor the one before the rollback is served. *)
Example rollback_publishes_other_draft :
  let s := run empty rollback_race in
  has_published <$> s.2 !! 4 = Some true ∧ published_method s.1 "orders" = Some "experimental".
Proof. vm_compute. done. Qed.

(** ** The theorems of the store at work *)

Lemma map_to_list_perm (m : gmap Z Resource) : map_to_list m ≡ₚ map_to_list m.
Proof. done. Qed.

Lemma no_legacy_keys (s : string) (x : kv (value AdminObject)) : (∅ : gmap string (kv (value AdminObject))) !! s = Some x →
  (∃ id, is_int id ∧ s = render root (KResource id)) ∨ ∃ id mid, is_int id ∧ is_int mid ∧ s = render root (KMethod id mid).
Proof. by intros ?%lookup_empty_Some. Qed.

Lemma no_legacy_complete id mid (x : kv (value AdminObject)) :
  (∅ : gmap string (kv (value AdminObject))) !! render root (KMethod id mid) = Some x →
  is_Some ((∅ : gmap string (kv (value AdminObject))) !! render root (KResource id)).
Proof. by intros ?%lookup_empty_Some. Qed.

Lemma empty_first : first_used ∅ empty.
Proof. split; [done|done|]. by intros s x ?%lookup_empty_Some. Qed.

Lemma session_clients cs turns : clients (λ s, s) (λ s, s) map_to_list root (session cs turns).
Proof.
  intros p [Hp|Hp]%elem_of_app.
  - apply list_elem_of_fmap in Hp as (q & [= ->] & (c & -> & _)%list_elem_of_fmap). by exists c.
  - by apply list_elem_of_fmap in Hp as (i & ? & _).
Qed.

Lemma session_split cs turns1 turns2 : session cs (turns1 ++ turns2) = session cs turns1 ++ ((λ i, Step i Answered) <$> turns2).
Proof. unfold session. by rewrite fmap_app, (List.app_assoc _ _ _). Qed.


(** The published record under a name at the end of a run. *)
Definition published_record (e : etcd (value AdminObject)) (name : string) : option (routeBindingRecord AdminObject) :=
  match value_at root e (KBinding false name) with Some (VBinding r) => Some r | _ => None end.

Lemma record_binding (e : etcd (value AdminObject)) name :
  bool_decide (is_Some (published_record e name)) = true →
  ∃ r, published_record e name = Some r ∧ value_at root e (KBinding false name) = Some (VBinding r).
Proof.
  intros [r Hr]%bool_decide_eq_true. exists r. split; [done|]. unfold published_record in Hr.
  destruct (value_at root e (KBinding false name)) as [[]|]; naive_solver.
Qed.


Lemma record_value (e : etcd (value AdminObject)) name r :
  value_at root e (KBinding false name) = Some (VBinding r) → published_record e name = Some r.
Proof. unfold published_record. by intros ->. Qed.

Lemma key_present (e : etcd (value AdminObject)) k :
  bool_decide (is_Some (value_at root e k)) = true → ∃ x, data e !! render root k = Some x.
Proof. intros [v Hv]%bool_decide_eq_true. unfold value_at, at_key in Hv. destruct (data e !! render root k); [by eexists|done]. Qed.



(** ** A binding with arguments compiles *)

Lemma ok_result {E A} (x : result E A) : match x with Ok _ => true | Err _ => false end = true → ∃ a, x = Ok a.
Proof. destruct x; [by eexists|done]. Qed.

Lemma compile_total_witness :
  ∃ o' c, AdminSchema.Normalize sampleMatch (builtin sampleDuration sampleInt) order = Ok o' ∧
    Compile_AdminRouteBinding sampleMatch sampleDuration sampleInt (builtin sampleDuration sampleInt) o' = Ok c ∧ sound_route sampleMatch c.
Proof.
  destruct (ok_result (AdminSchema.Normalize sampleMatch (builtin sampleDuration sampleInt) order)) as [o' E]; [by vm_compute|].
  destruct (compile_total sampleMatch sampleDuration sampleInt order o' E eq_refl) as (c & Hc & Hs).
  exists o', c. exact (conj E (conj Hc Hs)).
Defined.
